(* ===== verification/_CoqProject ===== *)
-Q . S2P
Prelude.v
MapSums.v
ConsensusCommittee.v
ConsensusBlock.v
ConsensusDag.v
ConsensusCommitter.v
CommitterSpec.v
CommitterAgreement.v
DagExample.v
TryCommit.v
ConsensusCore.v
CoreProposals.v
DagStore.v
GasTables.v
MoveValues.v
GasMeter.v
Objects.v
Errors.v
MgoGas.v
TransactionData.v
TransactionValidity.v
TransactionChecks.v
CheckedInputs.v
TemporaryStore.v
ExecutionEngine.v
GasConservation.v
ValueConservation.v
GasTheorems.v
Unmetered.v
Effects.v
EffectsTheorems.v
GasExample.v
CheckedExecution.v
Ownership.v
CheckedEffects.v
TransactionExample.v
TransactionManager.v
ManagerInvariant.v
ManagerQueue.v
ObjectReads.v
ManagerWorld.v
ManagerLedger.v
ManagerSafety.v
ManagerExample.v
ObjectLocks.v
StoreObjects.v
AuthorityTables.v
TransactionOutputs.v
StoreCommit.v
StoreTheorems.v
InputLoader.v
LoaderTheorems.v
StoreExample.v
CausalOrder.v
MoveIntegers.v
MoveModule.v
VmMonad.v
ControlFlow.v
TraversalOrder.v
AbstractInterp.v
AbstractStack.v
LocalsSafety.v
StructDefs.v
CodeVerifier.v
VerifierFacts.v
VerifiedModule.v
VmValues.v
VmLoader.v
Interpreter.v
ValueTyping.v
LoaderContract.v
InstructionTyping.v
TypeSoundness.v
LoaderFacts.v
LoaderTotal.v
MoveSafety.v
