(* ===== verification/Prelude.v ===== *)
(** A verification library for the Mango node.

    * The program

    Mango is a validator of a Move chain.  Its parts that are modelled:

    - The consensus core orders blocks.  Every validator keeps a DAG of the
      blocks it has accepted ([consensus/core/src/dag_state.rs]), proposes new
      ones ([core.rs], [threshold_clock.rs], [block_manager.rs],
      [transactions_client.rs], [leader_timeout.rs]) and decides from its DAG
      alone which leader blocks are committed ([base_committer.rs],
      [universal_committer.rs]).
    - Before a transaction is certified a validator checks that it is well
      formed ([mgo-types/src/transaction.rs]), reads its inputs
      ([transaction_input_loader.rs]), checks them
      ([mgo-transaction-checks/src/lib.rs]) and locks the owned ones
      ([mgo-core/src/authority/authority_store.rs]).
    - The transaction manager ([mgo-core/src/transaction_manager.rs]) holds
      certificates until their input objects are in the store
      ([in_mem_execution_cache.rs]) and hands them to the execution driver;
      commits report back to it.
    - The execution layer runs a transaction against a temporary store
      ([mgo-execution/latest/mgo-adapter]), meters the VM
      ([mgo-types/src/gas_model]), charges gas, checks that no MGO was
      created or lost, and reports what happened as effects
      ([mgo-types/src/effects]).
    - Move code is checked by the bytecode verifier
      ([move-binary-format/src/check_bounds.rs] and [control_flow_graph.rs],
      [move-bytecode-verifier]), loaded and run by the VM
      ([move-vm-runtime/src/loader.rs] and [interpreter.rs],
      [move-vm-types/src/values/values_impl.rs]), which calls the meter for
      every instruction.
    - The outputs of a transaction are written to the tables of the database
      ([transaction_outputs.rs], [authority_store.rs],
      [authority_store_tables.rs], [authority_store_types.rs]); at the end of an
      epoch a transaction that did not get into a checkpoint is reverted.
    - A checkpoint lists the executed transactions in causal order
      ([mgo-core/src/checkpoints/causal_order.rs]).

    * How the code is translated

    A Rust function is a definition of the same name, or of the name with its
    type in front where two types share one.  A result is a value of [exec]:
    [Done], [Panic] or, for a loop with fuel, [OutOfFuel]; [Result] is
    [result].  [&mut self] is explicit state passing.  Machine integers are
    [Z], with the wrap-around or the overflow panic of the operation the source
    uses.  [BTreeMap] and [HashMap] are [gmap]s; iteration in key order is
    [btree_iter] and [bset_iter].  Identifiers and digests are the numbers
    their bytes spell.  Crates outside the repository are classes of
    operations with their documented laws, and each theorem that relies on
    such laws has a witness at a concrete instance.

    * Files

    Shared: this file (outcomes, integers, ordered maps, tactics, the hint
    databases [mango] and [mango_rw]) and [MapSums] (sums over maps and sets).

    Consensus.  [ConsensusCommittee]: committee and stake aggregator.
    [ConsensusBlock]: blocks, references, slots, commits.  [ConsensusDag]: the
    DAG state, the class [Store] of the storage trait and its in-memory
    instance.  [ConsensusCommitter]: leader schedule, base and universal
    committer.  [CommitterSpec] shows each loop of the committer equal to a
    declarative definition; [CommitterAgreement] that two views of one DAG
    agree on each leader; [TryCommit] has the theorems on [try_commit];
    [DagExample] a DAG with an equivocating authority.  [ConsensusCore] is the
    proposer and its thread, [CoreProposals] its theorems, [DagStore] recovery
    from storage.

    Execution and gas.  [GasTables], [MoveValues], [GasMeter]: the VM's meter,
    the values it measures, every method of the meter's trait.  [Objects]:
    objects, owners, coins, inputs.  [MgoGas]: the transaction's gas status.
    [TemporaryStore]: the store, the gas charger and the ownership check.
    [ExecutionEngine]: [execute_transaction].  [GasConservation] (storage
    rebates), [ValueConservation] (all MGO), [GasTheorems], [Unmetered],
    [Ownership]: the theorems; [GasExample]: a transaction for the witnesses.

    Transactions.  [Errors]: the error types and [?].  [TransactionData]:
    transaction kinds, programmable transactions, their limits and inputs;
    [TransactionValidity] its theorems.  [TransactionChecks]: the checks on
    what was read, [CheckedInputs] its theorems.  [Effects]: both formats of
    effects behind the class [TransactionEffectsAPI], and how they are built;
    [EffectsTheorems] its theorems.  [CheckedExecution] and [CheckedEffects]
    put checks, execution and effects together; [TransactionExample] is a
    transaction from the checks to its effects.

    Storage.  [StoreObjects]: objects as they are stored.  [AuthorityTables]:
    the tables, reads and reference counts.  [TransactionOutputs]: what a
    transaction writes, writing and reverting it.  [StoreCommit]: what a
    commit leaves in the tables; [StoreTheorems]: reading it back, availability
    to the transaction manager, reverting, and that no read fails.
    [InputLoader]: reading the inputs of a transaction, and the package cache;
    [LoaderTheorems] its theorems.  [StoreExample]: a database for the
    witnesses.

    Scheduling.  [TransactionManager]: the manager's state and every operation
    on it.  [ObjectReads]: the availability check of the store.
    [ManagerInvariant] and [ManagerQueue]: what each operation does.
    [ManagerWorld]: the manager with its callers as a step relation;
    [ManagerLedger] and [ManagerSafety]: its invariant and theorems;
    [ManagerExample]: containers and a run.

    [ObjectLocks] and [CausalOrder] are each a component with its theorems.

    Move.  [MoveIntegers]: the integers of the VM and its errors.
    [MoveModule]: the tables of a module, types, abilities, instructions, and
    the checks on tables.  [VmMonad]: code with a state and errors, and its
    total weakest precondition.  The verifier: [ControlFlow] and
    [TraversalOrder] (the control-flow graph), [AbstractInterp] (the abstract
    interpreter, the meters as instances of the class [Meter], soundness and
    termination for any domain), [LocalsSafety], [AbstractStack],
    [StructDefs] (recursive structs), [CodeVerifier] (the passes on code and
    their composition).
    [VerifierFacts] and [VerifiedModule] say what acceptance means.  The VM:
    [VmValues], [VmLoader], [Interpreter].  [ValueTyping]: the values of a
    type.  [LoaderContract]: what the interpreter needs of the loader, as a
    class; [LoaderFacts] proves it of [add_module] and [LoaderTotal] that
    loading succeeds.  [InstructionTyping]: one
    instruction; [TypeSoundness]: programs; [MoveSafety]: verify, load and run
    put together, with an example.

    * What is shown

    - Consensus.  With less than a third of the stake equivocating, the
      sequences [try_commit] gives two validators are prefixes of one another,
      each call returns, and the output is the longest decided prefix of the
      one sequence of statuses the commit rule allows; a direct decision is
      never contradicted.  On blocks that were verified, have their ancestors
      and are not from the future, the proposer never panics or equivocates,
      its blocks have a quorum of parents and cover what is pending.  The
      threshold clock, the aggregator, the transaction queue, recovery and the
      leader timeout behave as specified.
    - Gas.  [charge_gas] and [execute_transaction] return on every path,
      charge at most the budget and balance storage rebates; if the commands
      keep MGO, the MGO in coins, rebates and fees is the same before and after.
      A failed transaction changes nothing but gas.  Metering bounds the number of instructions.  The sizes
      of values, the buckets, the rebate split, the payment check and the
      ownership check are equal to their specifications.
    - Scheduling.  In every interleaving of enqueue calls, reads, commits and
      notifications no assertion of the manager fails, no certificate is sent
      twice or before its inputs are there, and none waits for an input that
      has been announced, as long as no certificate names two versions of one
      object.  The overload check counts exactly the certificates
      that wait.  Reconfiguration during a call makes that call panic.
    - Transactions.  The validity and input checks do not panic and accept
      exactly what their specifications say.  A transaction that passed them
      executes without a panic, and its effects describe exactly the objects
      that are committed; the two formats of effects agree but for the reported
      version.
    - Storage.  Written objects are read back whether or not their contents are
      stored separately; no read fails in any database reached by commits and
      reverts; reverting restores objects and locks, and the events unless
      another transaction emitted the same.  What a transaction
      announces is available to the manager, and inputs the manager has found
      available are loaded without a panic.  The package cache answers what the
      store would.
    - Locks.  A version is locked by one transaction per epoch; locking is all
      or nothing.  Once a commit has consumed a version, no interleaving of
      calls that had not read it before consumes or locks it again; a call
      that had read it can write its lock back.
    - Move.  A function of a verified and loaded module, run on arguments of
      its parameter types, ends with values of its return types or with an
      error a program may raise, and never with a panic or a broken invariant.
      Towards that: the loader accepts every verified module whose natives
      and structs are known and resolves every handle to its definition, the
      control-flow graph is the one of the code, the locals analysis is sound
      and ends, the run-length stack of the type checker is a stack.  Integer
      operations are exact at every width.
    - Checkpoints.  The causal sort ends on every input, respects dependencies
      when they are acyclic, and does not depend on the order of its input.

    * Bounds and fuel

    Every loop with fuel is shown to return.  [ancestors_loop] gets the number
    of blocks in the DAG, since each turn takes out one that never comes back;
    [find_supported_block] the round of the block; [pop_while] the length of
    the cache; the causal sort twice the number of transactions not yet seen
    plus the stack.  [type_tag_loop] gets one more than the limit on type
    arguments, which it counts; [type_tag_packages_loop] the number of nodes
    of the type.  The exploration of a control-flow graph gets three turns per
    instruction, the abstract interpreter the height of its domain times the
    square of the number of blocks; both are shown to be enough.  The
    interpreter's fuel counts instructions: the theorem asks for as many as
    the 64-bit counter of the meter can still count.  The fuel of [add_module]
    bounds the nesting of structs; one more than their number is enough, since
    the verifier rejects recursive structs.  [check_ownership_invariants] takes its fuel as an argument,
    and the theorem gives an amount that is enough.  The machine-width
    hypotheses of the gas theorems ([charge_pre], [small_value]) bound the sums
    the code adds up without a check.

    * Not modelled

    Of Move: instructions on references, constants, globals and type
    arguments, and with them reference safety and the tables of fields and
    instantiations; the code of native functions, linking across packages, the
    (de)serializer, and the passes listed in [OtherPasses], which enter as
    arbitrary functions.  The compiler, and the programmable transactions that
    drive the VM: the execution loop of a transaction is a parameter with a
    contract.  Networking, signatures,
    hashing and BCS: parameters of the model.  Pruning, snapshots, RPC
    services, indexers, the bridge, command-line tools, Narwhal, the older
    execution layers.  Of the modelled files: metrics, logging, constructors
    and tests; map capacities of the transaction manager; errors of the
    database itself. *)
From Stdlib Require Export ZArith Lia.
From stdpp Require Export prelude gmap sorting list_numbers strings.

Open Scope Z_scope.

(** * Outcomes of Rust code

    A call of a Rust function returns a value or panics (an [assert!], an
    [unwrap] or [expect] on the wrong variant, an index out of range, an
    explicit [panic!]).  Functions whose recursion or loop is not structural
    carry fuel, and running out of it is a third outcome that no code path of
    the source has: the termination lemmas show it is never reached. *)
Inductive exec (A : Type) : Type :=
  | Done (a : A)
  | Panic
  | OutOfFuel.
Arguments Done {A} a.
Arguments Panic {A}.
Arguments OutOfFuel {A}.

#[export] Instance exec_ret : MRet exec := @Done.
#[export] Instance exec_bind : MBind exec := λ A B f m,
  match m with Done a => f a | Panic => Panic | OutOfFuel => OutOfFuel end.
#[export] Instance exec_fmap : FMap exec := λ A B f m,
  match m with Done a => Done (f a) | Panic => Panic | OutOfFuel => OutOfFuel end.

(** [Option::unwrap] and [Option::expect]. *)
Definition unwrap {A} (o : option A) : exec A :=
  match o with Some a => Done a | None => Panic end.

(** [assert!]. *)
Definition assert (b : bool) : exec unit := if b then Done () else Panic.

(** A [for] loop whose body may panic. *)
Fixpoint foldM {A B} (f : A → B → exec A) (acc : A) (l : list B) : exec A :=
  match l with
  | [] => Done acc
  | x :: l => acc' ← f acc x; foldM f acc' l
  end.

(** [Iterator::filter] with a predicate that may panic. *)
Fixpoint filterM {A} (p : A → exec bool) (l : list A) : exec (list A) :=
  match l with
  | [] => Done []
  | x :: l =>
      b ← p x; l' ← filterM p l; Done (if (b : bool) then x :: l' else l')
  end.

(** Rust's [Result]. *)
Inductive result (A E : Type) : Type :=
  | Ok (a : A)
  | Err (e : E).
Arguments Ok {A E} a.
Arguments Err {A E} e.

Definition is_ok {A E} (r : result A E) : bool :=
  match r with Ok _ => true | Err _ => false end.

(** * Machine integers

    A [u32] or [u64] is a [Z] in range.  The release profile of the workspace
    does not enable overflow checks, so plain [+], [-] and [*] wrap; the
    [checked_*] and [saturating_*] methods are the ones of [core::num]. *)
Definition u8_max : Z := 2 ^ 8 - 1.
Definition u32_max : Z := 2 ^ 32 - 1.
Definition u64_max : Z := 2 ^ 64 - 1.
Definition u128_max : Z := 2 ^ 128 - 1.

Definition is_u32 (z : Z) : Prop := 0 ≤ z ≤ u32_max.
Definition is_u64 (z : Z) : Prop := 0 ≤ z ≤ u64_max.

Definition wrap32 (z : Z) : Z := z mod 2 ^ 32.
Definition wrap64 (z : Z) : Z := z mod 2 ^ 64.

Definition checked_add64 (a b : Z) : option Z :=
  if a + b <=? u64_max then Some (a + b) else None.
Definition checked_sub64 (a b : Z) : option Z :=
  if b <=? a then Some (a - b) else None.
Definition checked_mul64 (a b : Z) : option Z :=
  if a * b <=? u64_max then Some (a * b) else None.
Definition saturating_sub (a b : Z) : Z := Z.max 0 (a - b).
Definition saturating_add64 (a b : Z) : Z := Z.min u64_max (a + b).

(** Arithmetic under [mgo_macros::with_checked_arithmetic]: overflow panics. *)
Definition add64 (a b : Z) : exec Z := unwrap (checked_add64 a b).
Definition sub64 (a b : Z) : exec Z := unwrap (checked_sub64 a b).
Definition mul64 (a b : Z) : exec Z := unwrap (checked_mul64 a b).

Lemma wrap32_small z : is_u32 z → wrap32 z = z.
Proof. unfold is_u32, wrap32, u32_max. intros. apply Z.mod_small. lia. Qed.
Lemma wrap64_small z : is_u64 z → wrap64 z = z.
Proof. unfold is_u64, wrap64, u64_max. intros. apply Z.mod_small. lia. Qed.
Lemma wrap64_range z : is_u64 (wrap64 z).
Proof.
  unfold is_u64, wrap64, u64_max.
  pose proof (Z.mod_pos_bound z (2 ^ 64)). lia.
Qed.

(** * Reasoning about [exec] *)
Lemma bind_Done {A B} (m : exec A) (f : A → exec B) b :
  m ≫= f = Done b ↔ ∃ a, m = Done a ∧ f a = Done b.
Proof. destruct m; (split; [by eauto|]); by intros (? & [= ->] & ?). Qed.
Lemma fmap_Done {A B} (m : exec A) (f : A → B) b :
  f <$> m = Done b ↔ ∃ a, m = Done a ∧ b = f a.
Proof.
  destruct m as [a| |]; (split; [|by intros (? & [= ->] & ->)]); try done.
  intros [= <-]. eauto.
Qed.
Lemma unwrap_Done {A} (o : option A) a : unwrap o = Done a ↔ o = Some a.
Proof. destruct o; naive_solver. Qed.
Lemma assert_Done b u : assert b = Done u ↔ b = true.
Proof. destruct b, u; naive_solver. Qed.
Lemma bind_ret_l {A B} (a : A) (f : A → exec B) : Done a ≫= f = f a.
Proof. done. Qed.

(** The development's hint databases: [mango] holds the facts [eauto] closes
    side conditions with, [mango_rw] the unconditional rewrites. *)
Create HintDb mango.
Create Rewrite HintDb mango_rw.
#[export] Hint Rewrite @bind_Done @fmap_Done @unwrap_Done assert_Done : mango_rw.

(** Split a hypothesis [m ≫= f = Done b] into the run of [m] and that of [f],
    repeatedly, and clean up. *)
Ltac exec_inv :=
  repeat match goal with
    | H : _ ≫= _ = Done _ |- _ =>
        let a := fresh "v" in let H1 := fresh "Hv" in
        apply bind_Done in H as (a & H1 & H)
    | H : _ <$> _ = Done _ |- _ =>
        let a := fresh "v" in let H1 := fresh "Hv" in
        apply fmap_Done in H as (a & H1 & H)
    | H : unwrap _ = Done _ |- _ => apply unwrap_Done in H
    | H : assert _ = Done _ |- _ => apply assert_Done in H
    | H : Done _ = Done _ |- _ => injection H as H
    | H : mret _ = Done _ |- _ => injection H as H
    | H : Panic = Done _ |- _ => discriminate H
    | H : OutOfFuel = Done _ |- _ => discriminate H
    end; simplify_eq/=.

(** Turn the boolean tests of the code into propositions. *)
Ltac bool_prop :=
  repeat match goal with
    | H : (_ <? _) = true |- _ => apply Z.ltb_lt in H
    | H : (_ <? _) = false |- _ => apply Z.ltb_ge in H
    | H : (_ <=? _) = true |- _ => apply Z.leb_le in H
    | H : (_ <=? _) = false |- _ => apply Z.leb_gt in H
    | H : (_ =? _) = true |- _ => apply Z.eqb_eq in H
    | H : (_ =? _) = false |- _ => apply Z.eqb_neq in H
    | H : bool_decide _ = true |- _ => apply bool_decide_eq_true in H
    | H : bool_decide _ = false |- _ => apply bool_decide_eq_false in H
    | H : negb _ = true |- _ => apply negb_true_iff in H
    | H : negb _ = false |- _ => apply negb_false_iff in H
    | H : (_ && _)%bool = true |- _ => apply andb_true_iff in H as [? ?]
    | H : (_ || _)%bool = false |- _ => apply orb_false_iff in H as [? ?]
    end.

(** Case analysis on a boolean test, with the test as a proposition. *)
Tactic Notation "case_test" constr(b) "as" ident(H) :=
  destruct b eqn:H; bool_prop.

(** Discharge machine-width side conditions. *)
Ltac width :=
  unfold is_u32, is_u64, u8_max, u32_max, u64_max, u128_max in *; lia.

(** A loop that keeps an invariant. *)
Lemma foldM_inv {A B} (P : A → Prop) (f : A → B → exec A) l acc acc' :
  P acc →
  (∀ a x a', x ∈ l → P a → f a x = Done a' → P a') →
  foldM f acc l = Done acc' → P acc'.
Proof.
  revert acc. induction l as [|x l IH]; intros acc Hacc Hstep; simpl.
  - intros [= <-]. done.
  - intros (a & Ha & Hrest)%bind_Done.
    eapply IH; [..|done].
    + eapply Hstep; [|done..]. left.
    + intros. eapply Hstep; [|done..]. by right.
Qed.

(** A loop whose body never fails never fails. *)
Lemma foldM_done {A B} (P : A → Prop) (f : A → B → exec A) l acc :
  P acc →
  (∀ a x, x ∈ l → P a → ∃ a', f a x = Done a' ∧ P a') →
  ∃ acc', foldM f acc l = Done acc' ∧ P acc'.
Proof.
  revert acc. induction l as [|x l IH]; intros acc Hacc Hstep; simpl.
  - eauto.
  - destruct (Hstep acc x) as (a' & -> & Ha'); [left|done|].
    apply IH; [done|]. intros. apply Hstep; [by right|done].
Qed.

Lemma foldM_app {A B} (f : A → B → exec A) l1 l2 acc :
  foldM f acc (l1 ++ l2) = foldM f acc l1 ≫= λ a, foldM f a l2.
Proof.
  revert acc. induction l1 as [|x l1 IH]; intros acc; simpl; [done|].
  destruct (f acc x); simpl; auto.
Qed.

Lemma elem_of_rev {A} (x : A) l : x ∈ rev l ↔ x ∈ l.
Proof. by rewrite !list_elem_of_In, <-in_rev. Qed.

Lemma mapM_Done {A B} (f : A → exec B) l k :
  mapM f l = Done k ↔ Forall2 (λ x y, f x = Done y) l k.
Proof.
  revert k. induction l as [|x l IH]; intros k; simpl.
  - split; [by intros [= <-]|]. intros Hk. by inversion Hk.
  - split.
    + intros H. exec_inv. constructor; [done|]. by apply IH.
    + inversion 1 as [|? y ? k' Hy Hk]; subst. rewrite Hy. simpl.
      apply IH in Hk. by rewrite Hk.
Qed.
Lemma mapM_pure {A B} (f : A → exec B) (g : A → B) l :
  (∀ x, x ∈ l → f x = Done (g x)) → mapM f l = Done (map g l).
Proof.
  induction l as [|x l IH]; intros Hf; [done|]. cbn [mapM map].
  rewrite Hf by left. simpl. rewrite IH; [done|]. intros y Hy. apply Hf. by right.
Qed.

Lemma filterM_pure {A} (p : A → exec bool) (q : A → bool) l :
  (∀ x, x ∈ l → p x = Done (q x)) →
  filterM p l = Done (filter (λ x, q x = true) l).
Proof.
  induction l as [|x l IH]; intros Hp; simpl; [done|].
  rewrite Hp by left. simpl. rewrite IH by (intros; apply Hp; by right). simpl.
  rewrite filter_cons. destruct (q x); by case_decide.
Qed.

(** Filters that agree on a list select the same elements. *)
Lemma filter_ext_in {A} (P Q : A → Prop) `{!∀ x, Decision (P x), !∀ x, Decision (Q x)} (l : list A) :
  (∀ x, x ∈ l → P x ↔ Q x) → filter P l = filter Q l.
Proof.
  induction l as [|x l IH]; intros HPQ; [done|]. rewrite !filter_cons.
  rewrite IH by (intros; apply HPQ; by right).
  pose proof (HPQ x ltac:(left)). repeat case_decide; tauto.
Qed.

Lemma StronglySorted_filter {A} (R : relation A) (P : A → Prop) `{!∀ x, Decision (P x)} (l : list A) :
  StronglySorted R l → StronglySorted R (filter P l).
Proof.
  induction 1 as [|x l Hs IH Hall]; [constructor|]. rewrite filter_cons. case_decide; [|done].
  constructor; [done|]. rewrite Forall_forall in Hall |- *.
  intros y [_ Hy]%list_elem_of_filter. by apply Hall.
Qed.

(** * Sums *)
Definition sumZ (l : list Z) : Z := foldr Z.add 0 l.

Lemma sumZ_app l k : sumZ (l ++ k) = sumZ l + sumZ k.
Proof. induction l; simpl; lia. Qed.
Lemma sumZ_nonneg l : Forall (λ z, 0 ≤ z) l → 0 ≤ sumZ l.
Proof. induction 1; simpl; lia. Qed.
Lemma sumZ_perm l k : l ≡ₚ k → sumZ l = sumZ k.
Proof. induction 1; simpl in *; lia. Qed.
Lemma sumZ_le {A} (f g : A → Z) l :
  (∀ x, x ∈ l → f x ≤ g x) → sumZ (f <$> l) ≤ sumZ (g <$> l).
Proof.
  induction l as [|x l IH]; intros Hle; [done|]. rewrite !fmap_cons. simpl.
  pose proof (Hle x ltac:(left)).
  assert (sumZ (f <$> l) ≤ sumZ (g <$> l)) by (apply IH; intros; apply Hle; by right).
  lia.
Qed.

(** [Iterator::sum] of [u64]s in the release profile: wraps. *)
Definition sum64 (l : list Z) : Z := foldl (λ a x, wrap64 (a + x)) 0 l.

Lemma sum64_small l :
  Forall (λ z, 0 ≤ z) l → sumZ l ≤ u64_max → sum64 l = sumZ l.
Proof.
  unfold sum64. intros Hpos.
  assert (∀ a, 0 ≤ a → a + sumZ l ≤ u64_max →
    foldl (λ a x, wrap64 (a + x)) a l = a + sumZ l) as Hgen; [|intros; rewrite Hgen by lia; lia].
  induction Hpos as [|x l Hx Hpos IH]; intros a Ha Hle; simpl in *; [lia|].
  pose proof (sumZ_nonneg _ Hpos).
  rewrite wrap64_small by width. rewrite IH by lia. lia.
Qed.

Lemma wrap64_add_l a b : wrap64 (wrap64 a + b) = wrap64 (a + b).
Proof. unfold wrap64. apply Zplus_mod_idemp_l. Qed.
Lemma wrap64_add_r a b : wrap64 (a + wrap64 b) = wrap64 (a + b).
Proof. unfold wrap64. apply Zplus_mod_idemp_r. Qed.
Lemma sum64_wrap l : sum64 l = wrap64 (sumZ l).
Proof.
  unfold sum64. assert (∀ a, foldl (λ a x, wrap64 (a + x)) (wrap64 a) l = wrap64 (a + sumZ l)) as Hgen.
  { induction l as [|x l IH]; intros a; simpl; [by rewrite Z.add_0_r|].
    by rewrite wrap64_add_l, IH, Z.add_assoc. }
  exact (Hgen 0).
Qed.

(** * [BTreeMap] and [BTreeSet]

    An ordered container is a finite map or set together with the order of its
    keys; iteration visits the keys in increasing order. *)
Section btree.
Context `{Countable K} (R : relation K).
Context `{HRdec : !RelDecision R, !Transitive R, !Total R, !AntiSymm (=) R}.

Definition entry_le {A} (p q : K * A) : Prop := R p.1 q.1.
#[global] Instance entry_le_dec {A} : RelDecision (@entry_le A).
Proof. intros p q. unfold entry_le. apply _. Defined.
#[global] Instance entry_le_total {A} : Total (@entry_le A).
Proof. intros p q. apply (total R). Qed.
#[global] Instance entry_le_trans {A} : Transitive (@entry_le A).
Proof. intros p q r. unfold entry_le. apply transitivity. Qed.

(** [BTreeMap::iter]. *)
Definition btree_iter {A} (m : gmap K A) : list (K * A) :=
  merge_sort entry_le (map_to_list m).
(** [BTreeMap::range], for the keys the bounds admit. *)
Definition btree_range {A} (P : K → bool) (m : gmap K A) : list (K * A) :=
  filter (λ kv, P kv.1 = true) (btree_iter m).

(** [collect] of pairs into a [BTreeMap]: a later pair replaces an earlier one. *)
Definition btree_collect {A} (l : list (K * A)) : gmap K A :=
  foldl (λ m kv, <[kv.1 := kv.2]> m) ∅ l.

(** [BTreeSet::iter], [BTreeSet::range] and [BTreeSet::last]. *)
Definition bset_iter (s : gset K) : list K := merge_sort R (elements s).
Definition bset_range (P : K → bool) (s : gset K) : list K :=
  filter (λ k, P k = true) (bset_iter s).
Definition bset_last (s : gset K) : option K := last (bset_iter s).

Lemma elem_of_btree_iter {A} (m : gmap K A) k v :
  (k, v) ∈ btree_iter m ↔ m !! k = Some v.
Proof.
  unfold btree_iter. rewrite merge_sort_Permutation. apply elem_of_map_to_list.
Qed.
Lemma elem_of_btree_range {A} P (m : gmap K A) k v :
  (k, v) ∈ btree_range P m ↔ P k = true ∧ m !! k = Some v.
Proof.
  unfold btree_range. by rewrite list_elem_of_filter, elem_of_btree_iter.
Qed.
Lemma btree_iter_sorted {A} (m : gmap K A) : Sorted entry_le (btree_iter m).
Proof. apply Sorted_merge_sort. apply _. Qed.
Lemma btree_iter_NoDup {A} (m : gmap K A) : NoDup (btree_iter m).*1.
Proof.
  unfold btree_iter. rewrite merge_sort_Permutation. apply NoDup_fst_map_to_list.
Qed.
Lemma btree_range_NoDup {A} P (m : gmap K A) : NoDup (btree_range P m).
Proof.
  apply NoDup_filter. eapply NoDup_fmap_1, btree_iter_NoDup.
Qed.

Lemma elem_of_bset_iter s k : k ∈ bset_iter s ↔ k ∈ s.
Proof. unfold bset_iter. rewrite merge_sort_Permutation. apply elem_of_elements. Qed.
Lemma elem_of_bset_range P s k : k ∈ bset_range P s ↔ P k = true ∧ k ∈ s.
Proof. unfold bset_range. by rewrite list_elem_of_filter, elem_of_bset_iter. Qed.
Lemma bset_range_NoDup P s : NoDup (bset_range P s).
Proof.
  apply NoDup_filter. unfold bset_iter. rewrite merge_sort_Permutation.
  apply NoDup_elements.
Qed.

(** The last element is the greatest one. *)
Lemma bset_last_Some s k : bset_last s = Some k → k ∈ s ∧ ∀ j, j ∈ s → R j k.
Proof.
  intros Hlast. split.
  - apply elem_of_bset_iter. by apply last_Some_elem_of.
  - intros j Hj%elem_of_bset_iter. unfold bset_last in Hlast.
    apply last_Some in Hlast as [l Hl]. rewrite Hl in Hj.
    assert (StronglySorted R (l ++ [k])) as Hs.
    { rewrite <-Hl. apply StronglySorted_merge_sort; apply _. }
    apply elem_of_app in Hj as [Hj| ->%list_elem_of_singleton].
    + eapply StronglySorted_app_1_elem_of; [done..|]. by left.
    + destruct (total R k k); done.
Qed.
Lemma bset_last_None s : bset_last s = None ↔ s = ∅.
Proof.
  unfold bset_last. rewrite last_None. split.
  - intros Hnil. apply set_eq. intros x. rewrite <-elem_of_bset_iter, Hnil.
    set_solver.
  - intros ->. unfold bset_iter. by rewrite elements_empty.
Qed.

(** [BTreeMap::last_key_value]. *)
Lemma btree_last_Some {A} (m : gmap K A) k v :
  last (btree_iter m) = Some (k, v) → m !! k = Some v ∧ ∀ j, is_Some (m !! j) → R j k.
Proof.
  intros Hlast. split; [by apply elem_of_btree_iter, last_Some_elem_of|].
  intros j [x Hj%elem_of_btree_iter]. apply last_Some in Hlast as [l Hl]. rewrite Hl in Hj.
  assert (StronglySorted (@entry_le A) (l ++ [(k, v)])) as Hs.
  { rewrite <-Hl. apply StronglySorted_merge_sort; apply _. }
  apply elem_of_app in Hj as [Hj|[= -> ->]%list_elem_of_singleton].
  - apply (StronglySorted_app_1_elem_of _ _ _ (j, x) (k, v) Hs Hj). by left.
  - destruct (total R k k); done.
Qed.
Lemma btree_last_None {A} (m : gmap K A) : last (btree_iter m) = None → m = ∅.
Proof.
  rewrite last_None. intros Hnil. apply map_empty. intros k.
  destruct (m !! k) as [v|] eqn:Hk; [|done]. apply elem_of_btree_iter in Hk. rewrite Hnil in Hk.
  by apply not_elem_of_nil in Hk.
Qed.

(** The greatest and the least entry of a range. *)
Lemma btree_range_sorted {A} P (m : gmap K A) : StronglySorted entry_le (btree_range P m).
Proof.
  unfold btree_range. apply StronglySorted_filter, StronglySorted_merge_sort; apply _.
Qed.
Lemma btree_range_last_Some {A} P (m : gmap K A) k v :
  last (btree_range P m) = Some (k, v) →
  P k = true ∧ m !! k = Some v ∧ ∀ j, is_Some (m !! j) → P j = true → R j k.
Proof.
  intros Hlast. pose proof (btree_range_sorted P m) as Hs.
  pose proof (last_Some_elem_of _ _ Hlast) as [Hk Hv]%elem_of_btree_range.
  split_and!; [done..|]. intros j [x Hj] HP.
  assert ((j, x) ∈ btree_range P m) as Hin by by apply elem_of_btree_range.
  apply last_Some in Hlast as [l Hl]. rewrite Hl in Hin, Hs.
  apply elem_of_app in Hin as [Hin|[= -> ->]%list_elem_of_singleton].
  - apply (StronglySorted_app_1_elem_of _ _ _ (j, x) (k, v) Hs Hin). by left.
  - destruct (total R k k); done.
Qed.
Lemma btree_range_head_Some {A} P (m : gmap K A) k v :
  head (btree_range P m) = Some (k, v) →
  P k = true ∧ m !! k = Some v ∧ ∀ j, is_Some (m !! j) → P j = true → R k j.
Proof.
  intros Hhead. pose proof (btree_range_sorted P m) as Hs.
  assert ((k, v) ∈ btree_range P m) as [Hk Hv]%elem_of_btree_range.
  { destruct (btree_range P m); simplify_eq/=. left. }
  split_and!; [done..|]. intros j [x Hj] HP.
  assert ((j, x) ∈ btree_range P m) as Hin by by apply elem_of_btree_range.
  destruct (btree_range P m) as [|p l]; simplify_eq/=.
  apply elem_of_cons in Hin as [[= -> ->]|Hin]; [destruct (total R k k); done|].
  inversion Hs as [|?? _ Hall]; subst. rewrite Forall_forall in Hall. by apply (Hall (j, x)).
Qed.
Lemma btree_range_last_None {A} P (m : gmap K A) :
  last (btree_range P m) = None → ∀ j, P j = true → ¬ is_Some (m !! j).
Proof.
  rewrite last_None. intros Hnil j HP [x Hj].
  assert ((j, x) ∈ btree_range P m) as Hin by by apply elem_of_btree_range.
  rewrite Hnil in Hin. by apply not_elem_of_nil in Hin.
Qed.
Lemma btree_range_head_None {A} P (m : gmap K A) :
  head (btree_range P m) = None → ∀ j, P j = true → ¬ is_Some (m !! j).
Proof.
  intros Hhead. apply btree_range_last_None. by destruct (btree_range P m).
Qed.
End btree.

(** [collect] keeps the last value of each key. *)
Lemma btree_collect_snoc `{Countable K} {A} (l : list (K * A)) k v :
  btree_collect (l ++ [(k, v)]) = <[k := v]> (btree_collect l).
Proof. unfold btree_collect. by rewrite foldl_app. Qed.
Lemma btree_collect_in `{Countable K} {A} (l : list (K * A)) k v :
  btree_collect l !! k = Some v → (k, v) ∈ l.
Proof.
  induction l as [|[k' v'] l IH] using rev_ind; [unfold btree_collect; simpl; by rewrite lookup_empty|]. rewrite btree_collect_snoc, elem_of_app.
  intros [[-> ->]|[_ ?]]%lookup_insert_Some; [right; left|left; by apply IH].
Qed.
Lemma btree_collect_dom `{Countable K} {A} (l : list (K * A)) k : is_Some (btree_collect l !! k) ↔ k ∈ l.*1.
Proof.
  induction l as [|[k' v'] l IH] using rev_ind.
  { unfold btree_collect. simpl. rewrite lookup_empty. split; [by intros []|by intros ?%elem_of_nil]. }
  rewrite btree_collect_snoc, fmap_app, elem_of_app, <-IH. simpl. rewrite list_elem_of_singleton.
  rewrite lookup_insert_is_Some. destruct (decide (k = k')); naive_solver.
Qed.
Lemma btree_collect_nodup `{Countable K} {A} (l : list (K * A)) k v :
  NoDup l.*1 → btree_collect l !! k = Some v ↔ (k, v) ∈ l.
Proof.
  intros Hnd. split; [apply btree_collect_in|]. intros Hin.
  assert (k ∈ l.*1) as [v' Hv']%btree_collect_dom by (apply list_elem_of_fmap; by exists (k, v)).
  rewrite Hv'. apply btree_collect_in in Hv'. f_equal.
  apply list_elem_of_lookup in Hin as [i Hi], Hv' as [j Hj].
  assert (i = j) as ->; [|congruence].
  apply (NoDup_lookup l.*1 i j k Hnd); apply list_lookup_fmap_Some; [by exists (k, v)|by exists (k, v')].
Qed.

(** The last entries decide. *)
Lemma btree_collect_app `{Countable K} {A} (l k : list (K * A)) :
  btree_collect (l ++ k) = btree_collect k ∪ btree_collect l.
Proof.
  induction k as [|[i v] k IH] using rev_ind.
  - rewrite app_nil_r. unfold btree_collect at 2. simpl. by rewrite (left_id_L ∅ (∪)).
  - by rewrite app_assoc, !btree_collect_snoc, IH, insert_union_l.
Qed.
Lemma btree_collect_size `{Countable K} {A} (l : list (K * A)) : (size (btree_collect l) ≤ length l)%nat.
Proof.
  induction l as [|[i v] l IH] using rev_ind; [unfold btree_collect; simpl; by rewrite map_size_empty|].
  rewrite btree_collect_snoc, length_app, map_size_insert. simpl. destruct (btree_collect l !! i); simpl; lia.
Qed.

(** * Stable sorting by a key: [sort_by_key] on slices *)

Fixpoint insert_by {A} (key : A → Z) (x : A) (l : list A) : list A :=
  match l with
  | [] => [x]
  | y :: l' => if key x <=? key y then x :: l else y :: insert_by key x l'
  end.
Definition sort_by_key {A} (key : A → Z) (l : list A) : list A := foldr (insert_by key) [] l.

Lemma insert_by_perm {A} (key : A → Z) x l : insert_by key x l ≡ₚ x :: l.
Proof.
  induction l as [|y l IH]; simpl; [done|]. destruct (key x <=? key y); [done|].
  rewrite IH. constructor.
Qed.
Lemma sort_by_key_perm {A} (key : A → Z) l : sort_by_key key l ≡ₚ l.
Proof. induction l as [|x l IH]; simpl; [done|]. by rewrite insert_by_perm, IH. Qed.

Lemma sort_by_key_sorted {A} (key : A → Z) l :
  StronglySorted (λ x y, key x ≤ key y) (sort_by_key key l).
Proof.
  induction l as [|x l IH]; simpl; [constructor|]. revert IH.
  generalize (sort_by_key key l). clear l. intros l. induction 1 as [|y l Hs IH Hall]; simpl.
  - repeat constructor.
  - case_test (key x <=? key y) as Hxy.
    + constructor; [by constructor|]. constructor; [done|].
      eapply Forall_impl; [done|]. simpl. lia.
    + constructor; [done|]. rewrite insert_by_perm. constructor; [lia|done].
Qed.

(** Elements with equal keys keep their order. *)
Lemma sort_by_key_stable {A} (key : A → Z) k l :
  filter (λ x, key x = k) (sort_by_key key l) = filter (λ x, key x = k) l.
Proof.
  induction l as [|x l IH]; simpl; [done|].
  assert (∀ m, filter (λ x, key x = k) (insert_by key x m) = filter (λ x, key x = k) (x :: m)) as Hins.
  { induction m as [|y m IHm]; simpl; [done|]. case_test (key x <=? key y) as Hxy; [done|].
    rewrite filter_cons, IHm, !filter_cons. repeat case_decide; done || lia. }
  by rewrite Hins, !filter_cons, IH.
Qed.
