(* ===== verification/MapSums.v ===== *)
(** Sums over finite sets and maps, and the maps that a loop over the entries
    of an ordered map builds. *)
From S2P Require Import Prelude.

Lemma list_omap_cons {A B} (f : A → option B) x l :
  omap f (x :: l) = match f x with Some y => y :: omap f l | None => omap f l end.
Proof. done. Qed.

Lemma sumZ_omap {A} (f : A → option Z) l : sumZ (omap f l) = sumZ (map (λ x, default 0 (f x)) l).
Proof.
  induction l as [|x l IH]; [done|]. rewrite list_omap_cons. simpl.
  destruct (f x); simpl; lia.
Qed.

Lemma omap_total {A B} (f : A → option B) (g : A → B) (l : list A) :
  (∀ x, x ∈ l → f x = Some (g x)) → omap f l = map g l.
Proof.
  induction l as [|x l IH]; intros Hf; [done|]. rewrite list_omap_cons, Hf by left. simpl. f_equal.
  apply IH. intros; apply Hf; by right.
Qed.
Lemma omap_ext_in {A B} (f g : A → option B) (l : list A) : (∀ x, x ∈ l → f x = g x) → omap f l = omap g l.
Proof.
  induction l as [|x l IH]; intros Hf; [done|]. rewrite !list_omap_cons, (Hf x) by left.
  rewrite IH; [done|]. intros; apply Hf; by right.
Qed.

Lemma omap_split {A B} (f g h : A → option B) (l : list A) :
  (∀ x, x ∈ l → f x = g x ∧ h x = None ∨ f x = h x ∧ g x = None) →
  omap f l ≡ₚ omap g l ++ omap h l.
Proof.
  induction l as [|x l IH]; intros Hf; [done|]. rewrite !list_omap_cons.
  specialize (IH ltac:(intros; apply Hf; by right)).
  destruct (Hf x ltac:(left)) as [[-> ->]|[-> ->]].
  - destruct (g x); [by rewrite IH|done].
  - destruct (h x); [by rewrite IH, Permutation_middle|done].
Qed.

Section sums.
Context `{Countable K}.
Implicit Types (X Y : gset K) (f g : K → Z).

Definition set_sum (f : K → Z) (X : gset K) : Z := sumZ (map f (elements X)).
Definition map_sum {A} (f : K → A → Z) (m : gmap K A) : Z :=
  sumZ (map (λ kv, f kv.1 kv.2) (map_to_list m)).

Lemma sumZ_map_perm {A} (f : A → Z) l k : l ≡ₚ k → sumZ (map f l) = sumZ (map f k).
Proof. intros Hp. apply sumZ_perm. by apply Permutation_map. Qed.
Lemma sumZ_map_ext {A} (f g : A → Z) l :
  (∀ x, x ∈ l → f x = g x) → sumZ (map f l) = sumZ (map g l).
Proof.
  intros Hext. f_equal. apply map_ext_in. intros x Hx. apply Hext. by apply list_elem_of_In.
Qed.

Lemma set_sum_ext f g X : (∀ x, x ∈ X → f x = g x) → set_sum f X = set_sum g X.
Proof. intros Hext. apply sumZ_map_ext. intros x Hx. apply Hext. by apply elem_of_elements. Qed.
Lemma set_sum_zero f X : (∀ x, x ∈ X → f x = 0) → set_sum f X = 0.
Proof.
  intros Hz. rewrite (set_sum_ext f (λ _, 0)) by done. unfold set_sum.
  induction (elements X); simpl; lia.
Qed.
Lemma set_sum_nonneg f X : (∀ x, x ∈ X → 0 ≤ f x) → 0 ≤ set_sum f X.
Proof.
  intros Hf. apply sumZ_nonneg, Forall_map, Forall_forall. intros x Hx.
  apply Hf. by apply elem_of_elements.
Qed.
Lemma set_sum_le_const f X c :
  (∀ x, x ∈ X → f x ≤ c) → set_sum f X ≤ Z.of_nat (size X) * c.
Proof.
  intros Hf. unfold set_sum, size, set_size. simpl.
  assert (∀ x, x ∈ elements X → f x ≤ c) as Hel by (intros x Hx; by apply Hf, elem_of_elements).
  induction (elements X) as [|x l IH]; [simpl; lia|]. cbn [map sumZ foldr length].
  pose proof (Hel x ltac:(left)). unfold sumZ in IH.
  assert (foldr Z.add 0 (map f l) ≤ Z.of_nat (length l) * c) by (apply IH; intros; apply Hel; by right).
  lia.
Qed.
Lemma set_sum_disj_union f X Y : X ## Y → set_sum f (X ∪ Y) = set_sum f X + set_sum f Y.
Proof.
  intros Hd. unfold set_sum. rewrite (sumZ_map_perm f _ _ (elements_disj_union X Y Hd)).
  by rewrite map_app, sumZ_app.
Qed.
Lemma set_sum_split f X Y : set_sum f X = set_sum f (X ∩ Y) + set_sum f (X ∖ Y).
Proof.
  rewrite <-set_sum_disj_union by set_solver. f_equal. apply set_eq. intros x.
  destruct (decide (x ∈ Y)); set_solver.
Qed.
Lemma set_sum_perm f X l : NoDup l → (∀ x, x ∈ l ↔ x ∈ X) → sumZ (map f l) = set_sum f X.
Proof.
  intros Hnd Hl. apply sumZ_map_perm, NoDup_Permutation; [done|apply NoDup_elements|].
  intros x. by rewrite Hl, elem_of_elements.
Qed.

Context {A : Type}.
Implicit Types (m : gmap K A) (h : K → A → Z).

Lemma map_sum_ext h h' m :
  (∀ k x, m !! k = Some x → h k x = h' k x) → map_sum h m = map_sum h' m.
Proof.
  intros Hext. apply sumZ_map_ext. intros [k x] Hx. apply Hext. by apply elem_of_map_to_list.
Qed.
Lemma map_sum_nonneg h m : (∀ k x, m !! k = Some x → 0 ≤ h k x) → 0 ≤ map_sum h m.
Proof.
  intros Hh. apply sumZ_nonneg, Forall_map, Forall_forall. intros [k x] Hx.
  apply Hh. by apply elem_of_map_to_list.
Qed.
Lemma map_sum_keys f m : map_sum (λ k _, f k) m = set_sum f (dom m).
Proof.
  unfold map_sum. rewrite <-(map_map fst f). apply set_sum_perm.
  - apply NoDup_fst_map_to_list.
  - intros k. rewrite elem_of_dom. split.
    + intros ([k' x] & -> & Hx)%list_elem_of_fmap. apply elem_of_map_to_list in Hx. by eexists.
    + intros [x Hx]. apply list_elem_of_fmap. exists (k, x). by rewrite elem_of_map_to_list.
Qed.
Lemma map_sum_le_const h m c :
  (∀ k x, m !! k = Some x → h k x ≤ c) → map_sum h m ≤ Z.of_nat (size m) * c.
Proof.
  intros Hh. transitivity (set_sum (λ k, default 0 (h k <$> m !! k)) (dom m)).
  - rewrite <-map_sum_keys. apply Z.eq_le_incl, map_sum_ext. intros k x Hx. by rewrite Hx.
  - rewrite <-size_dom. apply set_sum_le_const. intros k [x Hx]%elem_of_dom. rewrite Hx. by apply Hh.
Qed.
Lemma map_sum_insert h m k x :
  m !! k = None → map_sum h (<[k := x]> m) = h k x + map_sum h m.
Proof.
  intros Hk. unfold map_sum. by rewrite (sumZ_map_perm _ _ _ (map_to_list_insert m k x Hk)).
Qed.
Lemma map_sum_update h m k x y :
  m !! k = Some x → map_sum h (<[k := y]> m) = map_sum h m - h k x + h k y.
Proof.
  intros Hk. rewrite <-(insert_delete_id m k x Hk) at 2.
  rewrite <-insert_delete_eq, !map_sum_insert by apply lookup_delete_eq. lia.
Qed.
Lemma map_sum_le_one h m k x :
  (∀ k x, m !! k = Some x → 0 ≤ h k x) → m !! k = Some x → h k x ≤ map_sum h m.
Proof.
  intros Hh Hk. rewrite <-(insert_delete_id m k x Hk), map_sum_insert by apply lookup_delete_eq.
  enough (0 ≤ map_sum h (delete k m)) by lia. apply map_sum_nonneg. intros j y Hj.
  apply Hh. by apply lookup_delete_Some in Hj as [_ ?].
Qed.
Lemma map_sum_plus h h' m : map_sum (λ k x, h k x + h' k x) m = map_sum h m + map_sum h' m.
Proof. unfold map_sum. induction (map_to_list m); simpl in *; lia. Qed.
Lemma map_sum_disj_union h m m' : m ##ₘ m' → map_sum h (m ∪ m') = map_sum h m + map_sum h m'.
Proof.
  induction m as [|k x m Hk IH] using map_ind; intros Hd.
  - rewrite (left_id_L ∅ (∪)). unfold map_sum at 2. rewrite map_to_list_empty. simpl. lia.
  - apply map_disjoint_insert_l in Hd as [Hk' Hd]. rewrite <-insert_union_l, !map_sum_insert; [|done|].
    + rewrite IH by done. lia.
    + by apply lookup_union_None.
Qed.

Context (R : relation K).
Context `{HRdec : !RelDecision R, !Transitive R, !Total R, !AntiSymm (=) R}.

(** Summing in the order of iteration. *)
Lemma map_sum_iter h m : sumZ (map (λ kv, h kv.1 kv.2) (btree_iter R m)) = map_sum h m.
Proof. apply sumZ_map_perm. unfold btree_iter. apply merge_sort_Permutation. Qed.
Lemma set_sum_iter f X : sumZ (map f (bset_iter R X)) = set_sum f X.
Proof. apply sumZ_map_perm. unfold bset_iter. apply merge_sort_Permutation. Qed.
Lemma bset_iter_NoDup X : NoDup (bset_iter R X).
Proof. unfold bset_iter. rewrite merge_sort_Permutation. apply NoDup_elements. Qed.
(** A sorted list without duplicates is the iteration of the set it lists. *)
Lemma bset_iter_unique X l :
  Sorted R l → NoDup l → (∀ x, x ∈ l ↔ x ∈ X) → bset_iter R X = l.
Proof.
  intros Hs Hn Hl. apply (Sorted_unique R); [apply (Sorted_merge_sort R)|done|].
  apply NoDup_Permutation; [apply bset_iter_NoDup|done|]. intros x. by rewrite elem_of_bset_iter, Hl.
Qed.

(** Iterating over a larger set and skipping what is not in the smaller one. *)
Lemma bset_iter_filter (P : K → Prop) `{!∀ x, Decision (P x)} X :
  filter P (bset_iter R X) = bset_iter R (filter P X).
Proof.
  symmetry. apply bset_iter_unique.
  - apply StronglySorted_Sorted, StronglySorted_filter. apply Sorted_StronglySorted; [apply _|].
    apply (Sorted_merge_sort R).
  - apply NoDup_filter, bset_iter_NoDup.
  - intros x. by rewrite list_elem_of_filter, elem_of_bset_iter, elem_of_filter.
Qed.
Lemma bset_iter_omap_sub {B} (f : K → option B) X Y :
  X ⊆ Y → (∀ x, x ∈ Y → x ∉ X → f x = None) →
  omap f (bset_iter R X) = omap f (bset_iter R Y).
Proof.
  intros Hsub Hf. replace X with (filter (λ x, x ∈ X) Y) by set_solver.
  rewrite <-bset_iter_filter.
  assert (∀ x, x ∈ bset_iter R Y → x ∉ X → f x = None) as Hl
    by (intros x ?%elem_of_bset_iter; by apply Hf).
  clear Hf Hsub. induction (bset_iter R Y) as [|x l IH]; [done|]. rewrite filter_cons.
  specialize (IH ltac:(intros; apply Hl; [by right|done])). case_decide as Hx; csimpl; rewrite IH; [done|].
  by rewrite Hl by (done || left).
Qed.
Lemma btree_iter_keys (m : gmap K A) X :
  dom m ⊆ X → btree_iter R m = omap (λ k, pair k <$> m !! k) (bset_iter R X).
Proof.
  intros Hsub. rewrite <-(bset_iter_omap_sub _ (dom m) X Hsub).
  2: { intros x _ Hx. by rewrite (proj1 (not_elem_of_dom _ _) Hx). }
  assert (bset_iter R (dom m) = (btree_iter R m).*1) as ->.
  { apply bset_iter_unique; [|apply btree_iter_NoDup|].
    - pose proof (btree_iter_sorted R m) as Hs. induction Hs as [|kv l Hs IH Hh]; [constructor|].
      simpl. constructor; [done|]. destruct Hh; constructor; done.
    - intros x. rewrite elem_of_dom, list_elem_of_fmap. split.
      + intros ([k v] & -> & Hin%elem_of_btree_iter). by eexists.
      + intros [v Hv]. exists (x, v). by rewrite elem_of_btree_iter. }
  assert (∀ kv, kv ∈ btree_iter R m → m !! kv.1 = Some kv.2) as Hl
    by (intros [k v]; by rewrite elem_of_btree_iter).
  induction (btree_iter R m) as [|[k v] l IH]; [done|]. csimpl.
  pose proof (Hl (k, v) ltac:(left)) as Hk. simpl in Hk. rewrite Hk. csimpl. f_equal. apply IH. intros; apply Hl; by right.
Qed.

(** Rewriting every entry of a map while iterating over it. *)
Lemma foldl_insert_all {B} (l : list (K * A)) (f : K * A → B) (m : gmap K B) k :
  NoDup l.*1 →
  foldl (λ w kv, <[kv.1 := f kv]> w) m l !! k =
    match list_find (λ kv, kv.1 = k) l with
    | Some (_, kv) => Some (f kv)
    | None => m !! k
    end.
Proof.
  revert m. induction l as [|[j x] l IH]; intros m Hnd; [done|].
  rewrite fmap_cons in Hnd. apply NoDup_cons in Hnd as [Hj Hnd].
  cbn [foldl]. rewrite IH by done. simpl. case_decide as Hjk; simpl in *.
  - subst j. destruct (list_find _ l) as [[i kv]|] eqn:Hf; simpl.
    + exfalso. apply list_find_Some in Hf as (Hi & Hkv & _). apply Hj.
      apply list_elem_of_fmap. exists kv. split; [done|]. by eapply list_elem_of_lookup_2.
    + by rewrite lookup_insert_eq.
  - destruct (list_find _ l) as [[i kv]|]; simpl; [done|]. by rewrite lookup_insert_ne.
Qed.
Lemma foldl_insert_imap (f : K → A → A) m :
  foldl (λ w kv, <[kv.1 := f kv.1 kv.2]> w) m (btree_iter R m) = map_imap (λ k x, Some (f k x)) m.
Proof.
  apply map_eq. intros k.
  rewrite (foldl_insert_all _ (λ kv, f kv.1 kv.2)) by apply btree_iter_NoDup. rewrite map_lookup_imap.
  destruct (list_find _ _) as [[i [j x]]|] eqn:Hf.
  - apply list_find_Some in Hf as (Hi & Hk & _). simpl in Hk. subst j.
    apply list_elem_of_lookup_2, elem_of_btree_iter in Hi. by rewrite Hi.
  - apply list_find_None in Hf. destruct (m !! k) as [x|] eqn:Hk; [|done].
    apply (elem_of_btree_iter R) in Hk. rewrite Forall_forall in Hf. by destruct (Hf _ Hk).
Qed.
Lemma foldl_insert_iter (f : A → A) m :
  foldl (λ w kv, <[kv.1 := f kv.2]> w) m (btree_iter R m) = f <$> m.
Proof.
  rewrite (foldl_insert_imap (λ _, f)). apply map_eq. intros k.
  rewrite map_lookup_imap, lookup_fmap. by destruct (m !! k).
Qed.
End sums.
