(* ===== verification/ConsensusCommittee.v ===== *)
(** The consensus committee and the stake aggregator.

    Models [consensus/config/src/committee.rs] (the committee of an epoch, its
    thresholds and its indexing by authority) and
    [consensus/core/src/stake_aggregator.rs] (the set of voters with their
    accumulated stake, against a threshold chosen by a type parameter).  The
    quorum-intersection facts every consensus argument rests on are proved
    here once, for sets of authorities given as boolean predicates. *)
From S2P Require Import Prelude.

(** * Committee *)

Abbreviation Epoch := Z (only parsing).
Abbreviation Stake := Z (only parsing).
(** [AuthorityIndex(u32)]: an index into the committee's vector. *)
Abbreviation AuthorityIndex := nat (only parsing).

Record Authority := mkAuthority {
  stake : Stake;
  address : string;
  hostname : string;
  network_key : string;
  protocol_key : string;
}.

Record Committee := mkCommittee {
  epoch : Epoch;
  total_stake : Stake;
  quorum_threshold : Stake;
  validity_threshold : Stake;
  authorities : list Authority;
}.

Definition Committee_new (epoch : Epoch) (authorities : list Authority) : exec Committee :=
  assert (negb (bool_decide (authorities = []))) ;;
  assert (Z.of_nat (length authorities) <? u32_max) ;;
  let total_stake := sum64 (stake <$> authorities) in
  assert (negb (total_stake =? 0)) ;;
  let quorum_threshold := wrap64 (wrap64 (2 * total_stake) / 3 + 1) in
  let validity_threshold := wrap64 (total_stake + 2) / 3 in
  Done (mkCommittee epoch total_stake quorum_threshold validity_threshold authorities).

Definition reached_quorum (c : Committee) (s : Stake) : bool := quorum_threshold c <=? s.
Definition reached_validity (c : Committee) (s : Stake) : bool := validity_threshold c <=? s.

Definition committee_size (c : Committee) : nat := length (authorities c).
Definition committee_exists (c : Committee) (i : AuthorityIndex) : bool := bool_decide (i < committee_size c)%nat.
Definition to_authority_index (c : Committee) (index : nat) : option AuthorityIndex :=
  if bool_decide (index < committee_size c)%nat then Some index else None.

(** [Index<AuthorityIndex> for Vec<T>]: out of range panics. *)
Definition vec_index {A} (l : list A) (i : AuthorityIndex) : exec A := unwrap (l !! i).

Definition authority (c : Committee) (i : AuthorityIndex) : exec Authority :=
  vec_index (authorities c) i.
Definition stake_of (c : Committee) (i : AuthorityIndex) : exec Stake :=
  a ← vec_index (authorities c) i; Done (stake a).
(** [Committee::authorities]: the authorities with their indices. *)
Definition authorities_iter (c : Committee) : list (AuthorityIndex * Authority) :=
  imap (λ i a, (i, a)) (authorities c).

(** * Stake aggregator *)

(** [trait CommitteeThreshold] and its two implementations. *)
Class CommitteeThreshold (T : Type) := is_threshold : Committee → Stake → bool.
Inductive QuorumThreshold : Set := .
Inductive ValidityThreshold : Set := .
#[export] Instance quorum_is_threshold : CommitteeThreshold QuorumThreshold := reached_quorum.
#[export] Instance validity_is_threshold : CommitteeThreshold ValidityThreshold := reached_validity.

Record StakeAggregator (T : Type) := mkAggregator {
  votes : gset AuthorityIndex;
  agg_stake : Stake;
}.
Arguments mkAggregator {T}.
Arguments votes {T}.
Arguments agg_stake {T}.

Section aggregator.
Context {T : Type} `{!CommitteeThreshold T}.

Definition agg_new : StakeAggregator T := mkAggregator ∅ 0.

(** [add]: the vote is counted once; returns whether the threshold is reached. *)
Definition agg_add (agg : StakeAggregator T) (vote : AuthorityIndex) (c : Committee) :
    exec (StakeAggregator T * bool) :=
  agg' ← (if bool_decide (vote ∈ votes agg) then Done agg
          else s ← stake_of c vote;
               Done (mkAggregator ({[vote]} ∪ votes agg) (wrap64 (agg_stake agg + s))));
  Done (agg', is_threshold (T := T) c (agg_stake agg')).

Definition agg_clear (agg : StakeAggregator T) : StakeAggregator T := mkAggregator ∅ 0.

(** A sequence of [add] calls, with the answer of the last one. *)
Definition agg_add_all (agg : StakeAggregator T) (vs : list AuthorityIndex) (c : Committee) :
    exec (StakeAggregator T * bool) :=
  foldM (λ st v, agg_add st.1 v c)
    (agg, is_threshold (T := T) c (agg_stake agg)) vs.
End aggregator.

(** * Well-formed committees and the stake of a set of authorities *)

(** The stake of the authorities a predicate selects: the mathematical sum. *)
Definition stake_in (c : Committee) (P : AuthorityIndex → bool) : Z :=
  sumZ (imap (λ i a, if P i then stake a else 0) (authorities c)).

Record wf_committee (c : Committee) : Prop := {
  wfc_stake : Forall (λ a, 0 ≤ stake a) (authorities c);
  wfc_total : total_stake c = sumZ (stake <$> authorities c);
  wfc_pos : 0 < total_stake c;
  wfc_bound : 2 * total_stake c + 2 ≤ u64_max;
  wfc_quorum : quorum_threshold c = 2 * total_stake c / 3 + 1;
  wfc_validity : validity_threshold c = (total_stake c + 2) / 3;
  wfc_size : Z.of_nat (committee_size c) < u32_max;
}.

(** Membership of an index in a set of voters, as a predicate. *)
Definition in_set (s : gset AuthorityIndex) (i : AuthorityIndex) : bool := bool_decide (i ∈ s).

Lemma imap_stake_nonneg (l : list Authority) (f : nat → bool) :
  Forall (λ a, 0 ≤ stake a) l →
  Forall (λ z, 0 ≤ z) (imap (λ i a, if f i then stake a else 0) l).
Proof.
  intros Hl. revert f. induction Hl as [|a l Ha Hl IH]; intros f; simpl; [done|].
  constructor; [destruct (f 0%nat); lia|]. apply (IH (λ i, f (S i))).
Qed.

Section stake_sums.
Context (c : Committee) (Hwf : wf_committee c).

Lemma stake_in_nonneg P : 0 ≤ stake_in c P.
Proof. apply sumZ_nonneg, imap_stake_nonneg, Hwf. Qed.

Lemma stake_in_ext P Q :
  (∀ i, (i < committee_size c)%nat → P i = Q i) → stake_in c P = stake_in c Q.
Proof.
  intros HPQ. unfold stake_in. f_equal. apply imap_ext.
  intros i a Hi. simpl. rewrite HPQ; [done|]. by eapply lookup_lt_Some.
Qed.

(** Stake sums are monotone and modular; both by the same induction. *)
Lemma stake_sum_mono (l : list Authority) (P Q : nat → bool) :
  Forall (λ a, 0 ≤ stake a) l → (∀ i, (i < length l)%nat → P i = true → Q i = true) →
  sumZ (imap (λ i a, if P i then stake a else 0) l)
  ≤ sumZ (imap (λ i a, if Q i then stake a else 0) l).
Proof using. clear Hwf.
  intros Hl. revert P Q. induction Hl as [|a l Ha Hl IH]; intros P Q HPQ; simpl; [done|].
  assert (sumZ (imap ((λ i a, if P i then stake a else 0) ∘ S) l)
    ≤ sumZ (imap ((λ i a, if Q i then stake a else 0) ∘ S) l)).
  { apply (IH (P ∘ S) (Q ∘ S)). intros i Hi. apply HPQ. simpl. lia. }
  pose proof (HPQ 0%nat ltac:(simpl; lia)).
  destruct (P 0%nat), (Q 0%nat); naive_solver lia.
Qed.

Lemma stake_in_mono P Q :
  (∀ i, (i < committee_size c)%nat → P i = true → Q i = true) → stake_in c P ≤ stake_in c Q.
Proof. apply stake_sum_mono, Hwf. Qed.

Lemma stake_in_total P : (∀ i, P i = true) → stake_in c P = total_stake c.
Proof.
  intros HP. rewrite wfc_total by done. unfold stake_in. f_equal.
  assert (∀ (l : list Authority) (f : nat → bool), (∀ i, f i = true) →
    imap (λ i a, if f i then stake a else 0) l = stake <$> l) as Hgen; [|by apply Hgen].
  induction l as [|a l IH]; intros f Hf; simpl; [done|].
  rewrite Hf. f_equal. by apply (IH (f ∘ S)); intros; apply Hf.
Qed.

Lemma stake_in_modular P Q :
  stake_in c (λ i, P i || Q i)%bool + stake_in c (λ i, P i && Q i)%bool
  = stake_in c P + stake_in c Q.
Proof using. clear Hwf.
  unfold stake_in. generalize (authorities c) as l. intros l. revert P Q.
  induction l as [|a l IH]; intros P Q; simpl; [done|].
  specialize (IH (P ∘ S) (Q ∘ S)). unfold compose in *. simpl in *.
  destruct (P 0%nat), (Q 0%nat); simpl; lia.
Qed.

Lemma stake_in_le_total P : stake_in c P ≤ total_stake c.
Proof.
  rewrite <-(stake_in_total (λ _, true)) by done. by apply stake_in_mono.
Qed.

(** The stake of a set with one more member. *)
Lemma stake_in_insert (s : gset nat) i a :
  authorities c !! i = Some a → i ∉ s →
  stake_in c (in_set ({[i]} ∪ s)) = stake a + stake_in c (in_set s).
Proof using. clear Hwf.
  intros Hi Hs.
  assert (∀ (l : list Authority) k (f g : nat → bool), l !! k = Some a →
    f k = true → g k = false → (∀ j, j ≠ k → f j = g j) →
    sumZ (imap (λ i a, if f i then stake a else 0) l)
    = stake a + sumZ (imap (λ i a, if g i then stake a else 0) l)) as Hgen.
  { induction l as [|b l IH]; intros k f g Hk Hf Hg Hfg; [done|].
    destruct k as [|k]; simpl in *.
    - injection Hk as ->. rewrite Hf, Hg, Z.add_0_l. do 2 f_equal.
      apply imap_ext. intros j x _. unfold compose. rewrite Hfg; [done|lia].
    - rewrite (Hfg 0%nat) by lia.
      assert (∀ j, j ≠ k → f (S j) = g (S j)) as Hfg' by (intros; apply Hfg; lia).
      specialize (IH k (f ∘ S) (g ∘ S) Hk Hf Hg Hfg').
      unfold compose in *. lia. }
  apply (Hgen _ i); unfold in_set; [done|..].
  - apply bool_decide_eq_true. set_solver.
  - apply bool_decide_eq_false. done.
  - intros j Hj. apply bool_decide_ext. set_solver.
Qed.

(** Two quorums share at least [validity_threshold] stake. *)
Lemma quorum_overlap P Q :
  quorum_threshold c ≤ stake_in c P → quorum_threshold c ≤ stake_in c Q →
  validity_threshold c ≤ stake_in c (λ i, P i && Q i)%bool.
Proof.
  intros HP HQ. pose proof (stake_in_modular P Q).
  pose proof (stake_in_le_total (λ i, P i || Q i)%bool).
  rewrite wfc_quorum in HP, HQ by done. rewrite wfc_validity by done.
  pose proof (wfc_pos c Hwf).
  pose proof (Z.div_mod (2 * total_stake c) 3). pose proof (Z.mod_pos_bound (2 * total_stake c) 3).
  pose proof (Z.div_mod (total_stake c + 2) 3). pose proof (Z.mod_pos_bound (total_stake c + 2) 3).
  lia.
Qed.

(** A set whose stake exceeds that of another has a member outside it. *)
Lemma stake_in_witness P B :
  stake_in c B < stake_in c P → ∃ i, (i < committee_size c)%nat ∧ P i = true ∧ B i = false.
Proof.
  intros Hlt.
  destruct (decide (Exists (λ i, P i = true ∧ B i = false) (seq 0 (committee_size c)))) as [He|He].
  - apply Exists_exists in He as (i & Hi%elem_of_seq & ?). exists i. split; [lia|done].
  - exfalso. assert (stake_in c P ≤ stake_in c B); [|lia].
    apply stake_in_mono. intros i Hi HPi. destruct (B i) eqn:HB; [done|].
    destruct He. apply Exists_exists. exists i. split; [|done]. apply elem_of_seq. lia.
Qed.

(** Two quorums share an authority outside any set of less than
    [validity_threshold] stake. *)
Lemma quorum_intersection P Q B :
  stake_in c B < validity_threshold c →
  quorum_threshold c ≤ stake_in c P → quorum_threshold c ≤ stake_in c Q →
  ∃ i, (i < committee_size c)%nat ∧ P i = true ∧ Q i = true ∧ B i = false.
Proof.
  intros HB HP HQ. pose proof (quorum_overlap P Q HP HQ).
  destruct (stake_in_witness (λ i, P i && Q i)%bool B) as (i & Hi & HPQ & HBi); [lia|].
  apply andb_true_iff in HPQ as [??]. eauto.
Qed.

(** A quorum has an authority outside any set of less than
    [validity_threshold] stake. *)
Lemma quorum_member P B :
  stake_in c B < validity_threshold c → quorum_threshold c ≤ stake_in c P →
  ∃ i, (i < committee_size c)%nat ∧ P i = true ∧ B i = false.
Proof.
  intros HB HP. destruct (quorum_intersection P P B) as (i & ? & ? & _ & ?); eauto.
Qed.

Lemma stake_of_Done i : (i < committee_size c)%nat → ∃ a, authorities c !! i = Some a ∧ stake_of c i = Done (stake a).
Proof using. clear Hwf.
  intros Hi. destruct (lookup_lt_is_Some_2 (authorities c) i Hi) as [a Ha].
  exists a. split; [done|]. unfold stake_of, vec_index. by rewrite Ha.
Qed.
End stake_sums.

Lemma Committee_new_ok e l :
  Forall (λ a, 0 ≤ stake a) l → Z.of_nat (length l) < u32_max →
  0 < sumZ (stake <$> l) → 2 * sumZ (stake <$> l) + 2 ≤ u64_max →
  ∃ c, Committee_new e l = Done c ∧ wf_committee c ∧ authorities c = l ∧ epoch c = e.
Proof.
  intros Hpos Hlen Hsum Hbound. unfold Committee_new.
  assert (sum64 (stake <$> l) = sumZ (stake <$> l)) as Htot.
  { apply sum64_small; [by apply Forall_fmap|lia]. }
  set (t := sumZ (stake <$> l)) in *.
  assert (0 ≤ 2 * t / 3) by (apply Z.div_pos; lia).
  assert (2 * t / 3 ≤ 2 * t) by (apply Z.div_le_upper_bound; lia).
  rewrite Htot, (wrap64_small (2 * t)), (wrap64_small (2 * t / 3 + 1)),
    (wrap64_small (t + 2)) by width.
  rewrite bool_decide_false by (intros ->; simpl in t; lia).
  rewrite (proj2 (Z.ltb_lt _ _) Hlen), (proj2 (Z.eqb_neq _ _)) by lia. simpl.
  eexists. split; [done|]. split; [|done]. by constructor; simpl.
Qed.

(** * The aggregator refines a set of voters *)
Section aggregator_facts.
Context {T : Type} `{!CommitteeThreshold T} (c : Committee) (Hwf : wf_committee c).

(** The accumulated stake is that of the distinct voters. *)
Record agg_ok (agg : StakeAggregator T) : Prop := {
  agg_valid : ∀ i, i ∈ votes agg → (i < committee_size c)%nat;
  agg_sum : agg_stake agg = stake_in c (in_set (votes agg));
}.

Lemma agg_new_ok : agg_ok agg_new.
Proof using. clear Hwf.
  split; [set_solver|]. unfold agg_new, stake_in. simpl.
  generalize (authorities c). intros l.
  replace (imap _ l) with (imap (λ (_ : nat) (_ : Authority), 0) l).
  - clear. generalize dependent l. induction l as [|a l IH]; simpl; [done|].
    unfold compose. rewrite <-IH. done.
  - apply imap_ext. intros. unfold in_set. by rewrite bool_decide_false by set_solver.
Qed.

Lemma agg_add_ok agg i :
  agg_ok agg → (i < committee_size c)%nat →
  ∃ agg', agg_add agg i c = Done (agg', is_threshold (T := T) c (stake_in c (in_set ({[i]} ∪ votes agg))))
    ∧ votes agg' = {[i]} ∪ votes agg ∧ agg_ok agg'.
Proof.
  intros [Hv Hs] Hi. unfold agg_add. case_bool_decide as Hin.
  - assert ({[i]} ∪ votes agg = votes agg) as -> by set_solver.
    exists agg. simpl. rewrite <-Hs. by repeat split.
  - destruct (stake_of_Done c i Hi) as (a & Ha & ->). simpl.
    pose proof (stake_in_insert c _ _ _ Ha Hin) as Hins.
    pose proof (stake_in_nonneg c Hwf (in_set (votes agg))).
    pose proof (stake_in_nonneg c Hwf (in_set ({[i]} ∪ votes agg))).
    pose proof (stake_in_le_total c Hwf (in_set ({[i]} ∪ votes agg))).
    pose proof (wfc_bound c Hwf).
    rewrite Hs, wrap64_small by (replace (_ + stake a) with (stake_in c (in_set ({[i]} ∪ votes agg))) by lia; width).
    replace (stake_in c (in_set (votes agg)) + stake a)
      with (stake_in c (in_set ({[i]} ∪ votes agg))) by lia.
    eexists. split; [done|]. simpl. split; [done|]. split; simpl; [set_solver|done].
Qed.

Lemma agg_clear_ok agg : agg_clear agg = agg_new (T := T).
Proof using. clear Hwf. done. Qed.

Lemma agg_add_all_ok agg vs :
  agg_ok agg → (∀ i, i ∈ vs → (i < committee_size c)%nat) →
  ∃ agg', agg_add_all agg vs c
      = Done (agg', is_threshold (T := T) c (stake_in c (in_set (list_to_set vs ∪ votes agg))))
    ∧ votes agg' = list_to_set vs ∪ votes agg ∧ agg_ok agg'.
Proof.
  unfold agg_add_all. intros Hok Hvs. revert agg Hok.
  induction vs as [|v vs IH]; intros agg Hok.
  - simpl. exists agg. rewrite (agg_sum _ Hok). rewrite (left_id_L ∅ (∪)). done.
  - simpl. destruct (agg_add_ok agg v Hok) as (agg' & -> & Hv & Hok'); [apply Hvs; by left|].
    simpl. rewrite <-Hv, <-(agg_sum _ Hok').
    destruct (IH ltac:(intros; apply Hvs; by right) agg' Hok') as (agg'' & -> & Hv' & Hok'').
    exists agg''. rewrite Hv', Hv.
    replace (list_to_set vs ∪ ({[v]} ∪ votes agg))
      with ({[v]} ∪ list_to_set vs ∪ votes agg : gset nat) by set_solver.
    done.
Qed.
End aggregator_facts.

(** * Theorems *)

(** In a committee made by [Committee::new], any two quorums share an
    authority outside every set of authorities that does not reach the
    validity threshold: two quorums have a correct member in common. *)
Theorem committee_quorums_intersect e l c P Q B :
  Forall (λ a, 0 ≤ stake a) l → 0 < sumZ (stake <$> l) → 2 * sumZ (stake <$> l) + 2 ≤ u64_max →
  Committee_new e l = Done c →
  reached_quorum c (stake_in c P) = true → reached_quorum c (stake_in c Q) = true →
  reached_validity c (stake_in c B) = false →
  ∃ i, (i < committee_size c)%nat ∧ P i = true ∧ Q i = true ∧ B i = false.
Proof.
  intros Hpos Hsum Hbound Hnew HP HQ HB.
  destruct (Committee_new_ok e l) as (c' & Hnew' & Hwf & _); [done| |done..|].
  { unfold Committee_new in Hnew. exec_inv. bool_prop. lia. }
  rewrite Hnew in Hnew'. injection Hnew' as <-.
  unfold reached_quorum, reached_validity in *. bool_prop.
  apply (quorum_intersection c Hwf P Q B); lia.
Qed.

(** The stake aggregator counts every authority once, in any order and with
    any repetition of votes: after a sequence of [add] calls its stake is the
    mathematical sum over the set of voters, without overflow, and the last
    answer says whether that sum reaches the threshold. *)
Theorem aggregator_counts_once {T : Type} `{!CommitteeThreshold T} c vs :
  wf_committee c → (∀ i, i ∈ vs → (i < committee_size c)%nat) →
  ∃ agg', agg_add_all (T := T) agg_new vs c
      = Done (agg', is_threshold (T := T) c (stake_in c (in_set (list_to_set vs))))
    ∧ votes agg' = list_to_set vs ∧ agg_stake agg' = stake_in c (in_set (list_to_set vs)).
Proof.
  intros Hwf Hvs. destruct (agg_add_all_ok (T := T) c Hwf agg_new vs) as (agg' & Hadd & Hv & Hok);
    [apply agg_new_ok|done|].
  simpl in *. rewrite (right_id_L ∅ (∪)) in Hadd, Hv. exists agg'. split; [done|]. split; [done|].
  rewrite <-Hv. apply (agg_sum _ _ Hok).
Qed.

Definition sample_committee : list Authority :=
  (λ s, mkAuthority s "" "" "" "") <$> [4; 3; 2; 1].

Lemma committee_quorums_intersect_witness :
  ∃ i, (i < 4)%nat ∧ negb (i =? 3)%nat = true ∧ negb (i =? 2)%nat = true ∧ (i =? 1)%nat = false.
Proof.
  apply (committee_quorums_intersect 0 sample_committee
    (mkCommittee 0 10 7 4 sample_committee)).
  - repeat constructor; simpl; lia.
  - vm_compute. reflexivity.
  - vm_compute. discriminate.
  - vm_compute. reflexivity.
  - vm_compute. reflexivity.
  - vm_compute. reflexivity.
  - vm_compute. reflexivity.
Defined.

Lemma aggregator_counts_once_witness :
  ∃ agg', agg_add_all (T := QuorumThreshold) agg_new [2; 0; 2; 1]%nat
      (mkCommittee 0 10 7 4 sample_committee)
      = Done (agg', is_threshold (T := QuorumThreshold) (mkCommittee 0 10 7 4 sample_committee)
          (stake_in (mkCommittee 0 10 7 4 sample_committee) (in_set (list_to_set [2; 0; 2; 1]%nat))))
    ∧ votes agg' = list_to_set [2; 0; 2; 1]%nat
    ∧ agg_stake agg' = stake_in (mkCommittee 0 10 7 4 sample_committee)
        (in_set (list_to_set [2; 0; 2; 1]%nat)).
Proof.
  apply (aggregator_counts_once (T := QuorumThreshold) (mkCommittee 0 10 7 4 sample_committee)).
  - split; try done. repeat constructor; simpl; lia.
  - intros i Hi.
    repeat (apply elem_of_cons in Hi as [->|Hi]; [vm_compute; lia|]). by apply not_elem_of_nil in Hi.
Defined.
