(* ===== verification/ConsensusBlock.v ===== *)
(** Blocks of the consensus DAG, their references and slots, and commits.

    Models [consensus/core/src/block.rs] and [consensus/core/src/commit.rs]:
    the block data, the reference of a block with its derived lexicographic
    order (the key order of every ordered container of the DAG state), signed
    and verified blocks, the genesis blocks, and the leader statuses the
    committers produce.  BCS, the hash function and the signature scheme are
    external: they are the operations of the class [BlockCrypto]. *)
From S2P Require Import Prelude ConsensusCommittee.

Abbreviation Round := Z (only parsing).
Abbreviation BlockTimestampMs := Z (only parsing).
(** [BlockDigest([u8; 32])], read as a big-endian number: the lexicographic
    order of the bytes is the order of the numbers. *)
Abbreviation BlockDigest := Z (only parsing).
Definition DIGEST_MIN : BlockDigest := 0.
Definition DIGEST_MAX : BlockDigest := 2 ^ 256 - 1.
Definition GENESIS_ROUND : Round := 0.

Record Transaction := mkTransaction { tx_data : list Byte.byte }.

(** * Block references and slots *)

Record BlockRef := mkRef {
  ref_round : Round;
  ref_author : AuthorityIndex;
  ref_digest : BlockDigest;
}.

#[export] Instance BlockRef_eq_dec : EqDecision BlockRef.
Proof. solve_decision. Defined.
#[export] Program Instance BlockRef_countable : Countable BlockRef :=
  inj_countable' (λ r, (ref_round r, ref_author r, ref_digest r))
    (λ '(r, a, d), mkRef r a d) _.
Next Obligation. by intros []. Qed.
#[export] Instance BlockRef_inhabited : Inhabited BlockRef := populate (mkRef 0 0 0).

(** [#[derive(PartialOrd, Ord)]]: lexicographic in the order of the fields. *)
Definition ref_leb (a b : BlockRef) : bool :=
  if ref_round a =? ref_round b then
    if (ref_author a =? ref_author b)%nat then ref_digest a <=? ref_digest b
    else (ref_author a <? ref_author b)%nat
  else ref_round a <? ref_round b.
Definition ref_le (a b : BlockRef) : Prop := ref_leb a b = true.
Definition ref_ltb (a b : BlockRef) : bool := negb (ref_leb b a).

#[export] Instance ref_le_dec : RelDecision ref_le.
Proof. intros a b. unfold ref_le. apply _. Defined.

Lemma ref_le_spec a b :
  ref_le a b ↔ ref_round a < ref_round b
    ∨ ref_round a = ref_round b ∧ ((ref_author a < ref_author b)%nat
      ∨ ref_author a = ref_author b ∧ ref_digest a ≤ ref_digest b).
Proof.
  unfold ref_le, ref_leb.
  destruct (Z.eqb_spec (ref_round a) (ref_round b));
    [destruct (Nat.eqb_spec (ref_author a) (ref_author b))|];
    rewrite ?Z.leb_le, ?Nat.ltb_lt, ?Z.ltb_lt; lia.
Qed.

#[export] Instance ref_le_trans : Transitive ref_le.
Proof. intros a b c. rewrite !ref_le_spec. lia. Qed.
#[export] Instance ref_le_total : Total ref_le.
Proof. intros a b. rewrite !ref_le_spec. lia. Qed.
#[export] Instance ref_le_antisym : AntiSymm (=) ref_le.
Proof.
  intros [r1 a1 d1] [r2 a2 d2]. rewrite !ref_le_spec. simpl. intros.
  assert (r1 = r2) as -> by lia. assert (a1 = a2) as -> by lia. f_equal; lia.
Qed.
Lemma ref_le_round a b : ref_le a b → ref_round a ≤ ref_round b.
Proof. rewrite ref_le_spec. lia. Qed.

Record Slot := mkSlot { slot_round : Round; slot_authority : AuthorityIndex }.
#[export] Instance Slot_eq_dec : EqDecision Slot.
Proof. solve_decision. Defined.

(** [impl From<BlockRef> for Slot]. *)
Definition slot_of_ref (r : BlockRef) : Slot := mkSlot (ref_round r) (ref_author r).

(** * Blocks *)

Record BlockV1 := mkBlockV1 {
  v1_epoch : Epoch;
  v1_round : Round;
  v1_author : AuthorityIndex;
  v1_timestamp_ms : BlockTimestampMs;
  v1_ancestors : list BlockRef;
  v1_transactions : list Transaction;
}.

(** [enum Block], with the methods [enum_dispatch] gives it. *)
Inductive Block := V1 (b : BlockV1).
Definition block_epoch (b : Block) : Epoch := match b with V1 b => v1_epoch b end.
Definition block_round (b : Block) : Round := match b with V1 b => v1_round b end.
Definition block_author (b : Block) : AuthorityIndex := match b with V1 b => v1_author b end.
Definition block_timestamp_ms (b : Block) : BlockTimestampMs :=
  match b with V1 b => v1_timestamp_ms b end.
Definition block_ancestors (b : Block) : list BlockRef := match b with V1 b => v1_ancestors b end.
Definition block_transactions (b : Block) : list Transaction :=
  match b with V1 b => v1_transactions b end.

Definition BlockV1_genesis (author : AuthorityIndex) (epoch : Epoch) : BlockV1 :=
  mkBlockV1 epoch GENESIS_ROUND author 0 [] [].

Record SignedBlock := mkSigned { sb_inner : Block; sb_signature : list Byte.byte }.

Record VerifiedBlock := mkVerified {
  vb_block : SignedBlock;
  vb_digest : BlockDigest;
  vb_serialized : list Byte.byte;
}.

(** [Deref for VerifiedBlock] gives the accessors of the inner block. *)
Definition vb_inner (b : VerifiedBlock) : Block := sb_inner (vb_block b).
Definition round (b : VerifiedBlock) : Round := block_round (vb_inner b).
Definition author (b : VerifiedBlock) : AuthorityIndex := block_author (vb_inner b).
Definition timestamp_ms (b : VerifiedBlock) : BlockTimestampMs := block_timestamp_ms (vb_inner b).
Definition ancestors (b : VerifiedBlock) : list BlockRef := block_ancestors (vb_inner b).
Definition transactions (b : VerifiedBlock) : list Transaction := block_transactions (vb_inner b).
Definition reference (b : VerifiedBlock) : BlockRef := mkRef (round b) (author b) (vb_digest b).
(** [impl PartialEq for VerifiedBlock]: the digests decide. *)
Definition vb_eqb (a b : VerifiedBlock) : bool := vb_digest a =? vb_digest b.

(** Per-epoch configuration: the fields the modelled code reads. *)
Record Context := mkContext {
  own_index : AuthorityIndex;
  committee : Committee;
}.

(** * Serialization, hashing and signatures *)

Inductive ConsensusError :=
  | MalformedBlock
  | RocksDBFailure
  | SignatureVerificationFailure
  | UnknownAuthority (a : AuthorityIndex).

(** What the modelled code calls of [bcs] and [fastcrypto].  A [None] is the
    error the library returns. *)
Class BlockCrypto := {
  bcs_block : Block → option (list Byte.byte);
  bcs_signed : SignedBlock → option (list Byte.byte);
  block_hash : list Byte.byte → BlockDigest;
  signature_type : Type;
  signer_type : Type;
  sign_digest : signer_type → BlockDigest → signature_type;
  signature_bytes : signature_type → list Byte.byte;
  signature_from_bytes : list Byte.byte → option signature_type;
  verify_digest : signature_type → BlockDigest → string → bool;
}.

Section crypto.
Context `{!BlockCrypto}.

Definition compute_digest (b : Block) : result BlockDigest ConsensusError :=
  match bcs_block b with
  | Some bytes => Ok (block_hash bytes)
  | None => Err MalformedBlock
  end.

Definition SignedBlock_new_genesis (b : Block) : SignedBlock := mkSigned b [].

Definition SignedBlock_new (b : Block) (signer : signer_type) : result SignedBlock ConsensusError :=
  match compute_digest b with
  | Err e => Err e
  | Ok digest => Ok (mkSigned b (signature_bytes (sign_digest signer digest)))
  end.

Definition SignedBlock_verify (sb : SignedBlock) (ctx : Context) :
    exec (result unit ConsensusError) :=
  match compute_digest (sb_inner sb) with
  | Err e => Done (Err e)
  | Ok digest =>
      if negb (committee_exists (committee ctx) (block_author (sb_inner sb)))
      then Done (Err (UnknownAuthority (block_author (sb_inner sb))))
      else
        a ← authority (committee ctx) (block_author (sb_inner sb));
        match signature_from_bytes (sb_signature sb) with
        | None => Done (Err SignatureVerificationFailure)
        | Some sig =>
            Done (if verify_digest sig digest (network_key a) then Ok ()
                  else Err SignatureVerificationFailure)
        end
  end.

Definition new_verified (sb : SignedBlock) (serialized : list Byte.byte) :
    result VerifiedBlock ConsensusError :=
  match compute_digest (sb_inner sb) with
  | Err e => Err e
  | Ok digest => Ok (mkVerified sb digest serialized)
  end.

Definition new_verified_unserialized (sb : SignedBlock) : result VerifiedBlock ConsensusError :=
  match bcs_signed sb with
  | None => Err MalformedBlock
  | Some serialized => new_verified sb serialized
  end.

(** [Result::expect]. *)
Definition expect {A E} (r : result A E) : exec A :=
  match r with Ok a => Done a | Err _ => Panic end.

(** [Block::genesis]: this authority's genesis block and the others', in
    authority order. *)
Definition genesis (ctx : Context) : exec (VerifiedBlock * list VerifiedBlock) :=
  blocks ← mapM (λ '(i, _), expect (new_verified_unserialized
             (SignedBlock_new_genesis (V1 (BlockV1_genesis i (epoch (committee ctx)))))))
           (authorities_iter (committee ctx));
  my_block ← unwrap (head (filter (λ b, author b = own_index ctx) blocks));
  Done (my_block, filter (λ b, author b ≠ own_index ctx) blocks).
End crypto.

(** * Commits and leader statuses *)

Abbreviation WaveNumber := Z (only parsing).
Abbreviation CommitIndex := Z (only parsing).
Definition MINIMUM_WAVE_LENGTH : Round := 3.
Definition DEFAULT_WAVE_LENGTH : Round := MINIMUM_WAVE_LENGTH.

Record Commit := mkCommit {
  commit_index : CommitIndex;
  commit_leader : BlockRef;
  commit_blocks : list BlockRef;
  last_committed_rounds : list Round;
}.

Inductive Decision := Direct | Indirect.

Inductive LeaderStatus :=
  | LCommit (b : VerifiedBlock)
  | LSkip (s : Slot)
  | LUndecided (s : Slot).

Definition status_round (s : LeaderStatus) : Round :=
  match s with LCommit b => round b | LSkip l => slot_round l | LUndecided l => slot_round l end.
Definition status_authority (s : LeaderStatus) : AuthorityIndex :=
  match s with
  | LCommit b => author b
  | LSkip l => slot_authority l
  | LUndecided l => slot_authority l
  end.
Definition is_decided (s : LeaderStatus) : bool :=
  match s with LCommit _ => true | LSkip _ => true | LUndecided _ => false end.
(** The slot a status is about. *)
Definition status_slot (s : LeaderStatus) : Slot := mkSlot (status_round s) (status_authority s).
