(* ===== verification/ConsensusDag.v ===== *)
(** The DAG state of the consensus core and its persistent store.

    Models [consensus/core/src/dag_state.rs] (accepting blocks, the queries the
    committers use, recovery from storage), the trait of
    [consensus/core/src/storage/mod.rs] as the class [Store], and
    [consensus/core/src/storage/mem_store.rs] as its instance [MemStore].  The
    [RwLock] around the state is not modelled: every modelled call runs under
    one lock acquisition. *)
From S2P Require Import Prelude ConsensusCommittee ConsensusBlock.

(** * The store interface *)

(** The trait [Store]: a handle with its six operations. *)
Class Store (St : Type) := {
  store_write : St → list VerifiedBlock → list Commit → result St ConsensusError;
  store_read_blocks : St → list BlockRef → result (list (option VerifiedBlock)) ConsensusError;
  store_contains_blocks : St → list BlockRef → result (list bool) ConsensusError;
  store_scan_blocks_by_author :
    St → AuthorityIndex → Round → exec (result (list VerifiedBlock) ConsensusError);
  store_read_last_commit : St → result (option Commit) ConsensusError;
  store_scan_commits : St → CommitIndex → result (list Commit) ConsensusError;
}.

(** [Result::unwrap]. *)
Definition unwrap_ok {A E} (r : result A E) : exec A :=
  match r with Ok a => Done a | Err _ => Panic end.

(** * DAG state *)

Definition CACHED_ROUNDS : Round := 100.

Abbreviation Dag := (gmap BlockRef VerifiedBlock) (only parsing).

(** The [store] handle is read by [DagState_new] alone and is its argument. *)
Record DagState := mkDagState {
  dag_context : Context;
  recent_blocks : Dag;
  cached_refs : list (gset BlockRef);
  last_commit : option Commit;
  highest_accepted_round : Round;
}.

Definition last_commit_round (ds : DagState) : Round :=
  match last_commit ds with Some c => ref_round (commit_leader c) | None => 0 end.

Definition get_uncommitted_block (ds : DagState) (r : BlockRef) : option VerifiedBlock :=
  recent_blocks ds !! r.

Definition get_uncommitted_blocks_at_slot (ds : DagState) (s : Slot) : list VerifiedBlock :=
  let lo := mkRef (slot_round s) (slot_authority s) DIGEST_MIN in
  let hi := mkRef (slot_round s) (slot_authority s) DIGEST_MAX in
  (btree_range ref_le (λ k, ref_leb lo k && ref_leb k hi)%bool (recent_blocks ds)).*2.

(** [BTreeMap::range] panics when the range is inverted, which happens here
    when [round + 1] wraps. *)
Definition get_uncommitted_blocks_at_round (ds : DagState) (r : Round) : exec (list VerifiedBlock) :=
  if r <=? last_commit_round ds then Panic
  else
    let lo := mkRef r 0 DIGEST_MIN in
    let hi := mkRef (wrap32 (r + 1)) 0 DIGEST_MIN in
    if negb (ref_leb lo hi) then Panic
    else Done (btree_range ref_le (λ k, ref_leb lo k && ref_ltb k hi)%bool (recent_blocks ds)).*2.

(** The [while] loop of [ancestors_at_uncommitted_round]. *)
Fixpoint ancestors_loop (fuel : nat) (D : Dag) (earlier_round : Round) (linked : gset BlockRef) :
    exec (gset BlockRef) :=
  match bset_last ref_le linked with
  | None => Done linked
  | Some block_ref =>
      if ref_round block_ref <=? earlier_round then Done linked
      else
        match fuel with
        | O => OutOfFuel
        | S fuel =>
            match D !! block_ref with
            | None => Panic
            | Some b =>
                ancestors_loop fuel D earlier_round
                  (list_to_set (ancestors b) ∪ linked ∖ {[block_ref]})
            end
        end
  end.

Definition ancestors_at_uncommitted_round (ds : DagState) (later_block : VerifiedBlock)
    (earlier_round : Round) : exec (list VerifiedBlock) :=
  if earlier_round <=? last_commit_round ds then Panic
  else if round later_block <=? earlier_round then Panic
  else
    linked ← ancestors_loop (base.size (recent_blocks ds)) (recent_blocks ds) earlier_round
               (list_to_set (ancestors later_block));
    mapM (λ r, unwrap (recent_blocks ds !! r))
      (bset_range ref_le (ref_leb (mkRef earlier_round 0 DIGEST_MIN)) linked).

Definition accept_block (ds : DagState) (block : VerifiedBlock) : exec DagState :=
  let block_ref := reference block in
  assert (negb (bool_decide (ref_author block_ref = own_index (dag_context ds)))
    || bool_decide (get_uncommitted_blocks_at_slot ds (slot_of_ref block_ref) = []))%bool ;;
  refs ← vec_index (cached_refs ds) (ref_author block_ref);
  Done (mkDagState (dag_context ds)
    (<[block_ref := block]> (recent_blocks ds))
    (<[ref_author block_ref := {[block_ref]} ∪ refs]> (cached_refs ds))
    (last_commit ds)
    (Z.max (highest_accepted_round ds) (round block))).

Definition accept_blocks (ds : DagState) (blocks : list VerifiedBlock) : exec DagState :=
  foldM accept_block ds blocks.

(** Recovery from storage: the blocks of every authority from
    [CACHED_ROUNDS] below its last committed round. *)
Definition DagState_new `{!Store St} (ctx : Context) (store : St) : exec DagState :=
  let num_authorities := committee_size (committee ctx) in
  last_commit ← unwrap_ok (store_read_last_commit store);
  let last_committed_rounds :=
    match last_commit with
    | Some commit => last_committed_rounds commit
    | None => replicate num_authorities 0
    end in
  let state := mkDagState ctx ∅ (replicate num_authorities ∅) last_commit 0 in
  foldM (λ state '(i, round),
    authority_index ← unwrap (to_authority_index (committee ctx) i);
    scanned ← store_scan_blocks_by_author store authority_index
                (saturating_sub round CACHED_ROUNDS);
    blocks ← unwrap_ok scanned;
    accept_blocks state blocks) state (imap (λ i r, (i, r)) last_committed_rounds).

(** * In-memory store *)

(** [(AuthorityIndex, Round, BlockDigest)], the keys of the author index. *)
Definition author_key (r : BlockRef) : nat * Z * Z := (ref_author r, ref_round r, ref_digest r).

Definition akey_leb (a b : nat * Z * Z) : bool :=
  let '(a1, r1, d1) := a in let '(a2, r2, d2) := b in
  if (a1 =? a2)%nat then (if r1 =? r2 then d1 <=? d2 else r1 <? r2) else (a1 <? a2)%nat.
Definition akey_le (a b : nat * Z * Z) : Prop := akey_leb a b = true.
#[export] Instance akey_le_dec : RelDecision akey_le.
Proof. intros a b. unfold akey_le. apply _. Defined.

Record MemStore := mkMemStore {
  ms_blocks : Dag;
  ms_digests_by_authorities : gset (nat * Z * Z);
  ms_commits : gmap Z Commit;
}.

Definition MemStore_new : MemStore := mkMemStore ∅ ∅ ∅.

Definition mem_write (s : MemStore) (blocks : list VerifiedBlock) (commits : list Commit) : MemStore :=
  let s := foldl (λ s b, mkMemStore
      (<[reference b := b]> (ms_blocks s))
      ({[author_key (reference b)]} ∪ ms_digests_by_authorities s) (ms_commits s)) s blocks in
  foldl (λ s c, mkMemStore (ms_blocks s) (ms_digests_by_authorities s)
      (<[commit_index c := c]> (ms_commits s))) s commits.

Definition mem_read_blocks (s : MemStore) (refs : list BlockRef) : list (option VerifiedBlock) :=
  (λ r, ms_blocks s !! r) <$> refs.

Definition mem_scan_blocks_by_author (s : MemStore) (author : AuthorityIndex) (start_round : Round) :
    exec (list VerifiedBlock) :=
  let lo := (author, start_round, DIGEST_MIN) in
  let hi := (author, u32_max, DIGEST_MAX) in
  let refs := (λ '(a, r, d), mkRef r a d) <$>
    bset_range akey_le (λ k, akey_leb lo k && akey_leb k hi)%bool (ms_digests_by_authorities s) in
  mapM unwrap (mem_read_blocks s refs).

Definition mem_read_last_commit (s : MemStore) : option Commit :=
  snd <$> last (btree_iter Z.le (ms_commits s)).

Definition mem_scan_commits (s : MemStore) (start : CommitIndex) : list Commit :=
  (btree_range Z.le (Z.leb start) (ms_commits s)).*2.

#[export] Instance mem_store : Store MemStore := {|
  store_write s bs cs := Ok (mem_write s bs cs);
  store_read_blocks s rs := Ok (mem_read_blocks s rs);
  store_contains_blocks s rs := Ok ((λ r, bool_decide (is_Some (ms_blocks s !! r))) <$> rs);
  store_scan_blocks_by_author s a r := Ok <$> mem_scan_blocks_by_author s a r;
  store_read_last_commit s := Ok (mem_read_last_commit s);
  store_scan_commits s i := Ok (mem_scan_commits s i);
|}.

(** * Well-formed DAGs *)

(** What block verification and the block manager are there to establish
    before a block is accepted: blocks are stored under their own reference,
    written by a committee member, at a round that leaves room for the
    committers' round arithmetic, and point to earlier rounds only; the causal
    history of every block is present. *)
Record wf_dag (c : Committee) (D : Dag) : Prop := {
  wfd_key : ∀ r b, D !! r = Some b → reference b = r;
  wfd_author : ∀ r b, D !! r = Some b → (author b < committee_size c)%nat;
  wfd_round : ∀ r b, D !! r = Some b → 0 ≤ round b ≤ u32_max - 4;
  wfd_digest : ∀ r b, D !! r = Some b → DIGEST_MIN ≤ vb_digest b ≤ DIGEST_MAX;
  wfd_ancestor : ∀ r b a, D !! r = Some b → a ∈ ancestors b → ref_round a < round b;
  wfd_closed : ∀ r b a, D !! r = Some b → a ∈ ancestors b → is_Some (D !! a);
}.

(** [reach D b r]: [r] is in the causal history of [b]. *)
Inductive reach (D : Dag) : VerifiedBlock → BlockRef → Prop :=
  | reach_parent b r : r ∈ ancestors b → reach D b r
  | reach_step b a b' r : a ∈ ancestors b → D !! a = Some b' → reach D b' r → reach D b r.
#[export] Hint Constructors reach : mango.

Section dag_facts.
Context (c : Committee).

Lemma wfd_ref D r b : wf_dag c D → D !! r = Some b → ref_round r = round b ∧ ref_author r = author b.
Proof. intros Hwf Hb. apply (wfd_key c D Hwf) in Hb as <-. done. Qed.

Lemma reach_present D r b a : wf_dag c D → D !! r = Some b → reach D b a → is_Some (D !! a).
Proof.
  intros Hwf Hb Hr. revert r Hb. induction Hr as [b r Hin|b a b' r Hin Ha Hr IH]; intros r' Hb.
  - by eapply wfd_closed.
  - by eapply IH.
Qed.

Lemma reach_round D r b a : wf_dag c D → D !! r = Some b → reach D b a → ref_round a < round b.
Proof.
  intros Hwf Hb Hr. revert r Hb. induction Hr as [b r Hin|b a b' r Hin Ha Hr IH]; intros r' Hb.
  - by eapply wfd_ancestor.
  - pose proof (IH _ Ha). pose proof (wfd_ancestor c D Hwf _ _ _ Hb Hin).
    pose proof (proj1 (wfd_ref _ _ _ Hwf Ha)). lia.
Qed.

Lemma reach_trans D b a b' r : reach D b a → D !! a = Some b' → reach D b' r → reach D b r.
Proof. induction 1; eauto using reach. Qed.

(** * Queries *)

Lemma slot_range_spec s k :
  DIGEST_MIN ≤ ref_digest k ≤ DIGEST_MAX →
  (ref_leb (mkRef (slot_round s) (slot_authority s) DIGEST_MIN) k
    && ref_leb k (mkRef (slot_round s) (slot_authority s) DIGEST_MAX))%bool = true
  ↔ slot_of_ref k = s.
Proof.
  intros Hd. rewrite andb_true_iff.
  rewrite !(ref_le_spec : ∀ a b, ref_leb a b = true ↔ _). destruct s as [r a], k as [r' a' d].
  unfold slot_of_ref. simpl in *. split; [intros; f_equal; lia|intros [= -> ->]; lia].
Qed.

Lemma round_range_spec r k :
  DIGEST_MIN ≤ ref_digest k →
  (ref_leb (mkRef r 0 DIGEST_MIN) k && ref_ltb k (mkRef (r + 1) 0 DIGEST_MIN))%bool = true →
  ref_round k = r.
Proof.
  rewrite andb_true_iff. unfold ref_ltb. rewrite negb_true_iff. intros Hd [Hlo Hhi].
  apply not_true_iff_false in Hhi. rewrite !(ref_le_spec : ∀ a b, ref_leb a b = true ↔ _) in *.
  simpl in *. lia.
Qed.
Lemma round_range_spec_2 r k :
  DIGEST_MIN ≤ ref_digest k → ref_round k = r →
  (ref_leb (mkRef r 0 DIGEST_MIN) k && ref_ltb k (mkRef (r + 1) 0 DIGEST_MIN))%bool = true.
Proof.
  intros Hd Hr. unfold ref_ltb. rewrite andb_true_iff, negb_true_iff, <-not_true_iff_false.
  rewrite !(ref_le_spec : ∀ a b, ref_leb a b = true ↔ _). simpl. lia.
Qed.

(** The values of a range are the blocks stored under their own references. *)
Lemma elem_of_range_values D (P : BlockRef → bool) b :
  wf_dag c D →
  b ∈ (btree_range ref_le P D).*2 ↔ D !! reference b = Some b ∧ P (reference b) = true.
Proof.
  intros Hwf. rewrite list_elem_of_fmap. split.
  - intros ([k v] & -> & [HP Hk]%elem_of_btree_range). simpl.
    by rewrite (wfd_key c D Hwf _ _ Hk).
  - intros [Hb HP]. exists (reference b, b). split; [done|]. by apply elem_of_btree_range.
Qed.

Lemma range_values_NoDup D (P : BlockRef → bool) :
  wf_dag c D → NoDup (btree_range ref_le P D).*2.
Proof.
  intros Hwf. apply NoDup_fmap_2_strong; [|apply btree_range_NoDup].
  intros [k1 v1] [k2 v2] [_ H1]%elem_of_btree_range [_ H2]%elem_of_btree_range Heq.
  simpl in Heq. subst v2. f_equal.
  by rewrite <-(wfd_key c D Hwf _ _ H1), <-(wfd_key c D Hwf _ _ H2).
Qed.

Section state.
Context (ds : DagState) (Hwf : wf_dag c (recent_blocks ds)).

Lemma elem_of_blocks_at_slot s b :
  b ∈ get_uncommitted_blocks_at_slot ds s
  ↔ recent_blocks ds !! reference b = Some b ∧ slot_of_ref (reference b) = s.
Proof.
  unfold get_uncommitted_blocks_at_slot. rewrite elem_of_range_values by done.
  split; intros [Hb Hs]; (split; [done|]); pose proof (wfd_digest c _ Hwf _ _ Hb);
    by apply (slot_range_spec s (reference b)).
Qed.

Lemma blocks_at_slot_NoDup s : NoDup (get_uncommitted_blocks_at_slot ds s).
Proof. by apply range_values_NoDup. Qed.

Lemma blocks_at_round_ok r :
  last_commit_round ds < r → 0 ≤ r < u32_max →
  ∃ l, get_uncommitted_blocks_at_round ds r = Done l ∧ NoDup l ∧
    ∀ b, b ∈ l ↔ recent_blocks ds !! reference b = Some b ∧ round b = r.
Proof.
  intros Hlc Hr. unfold get_uncommitted_blocks_at_round.
  rewrite (proj2 (Z.leb_gt _ _)) by lia. rewrite wrap32_small by width.
  assert (ref_leb (mkRef r 0 DIGEST_MIN) (mkRef (r + 1) 0 DIGEST_MIN) = true) as ->.
  { apply ref_le_spec. simpl. lia. }
  simpl. eexists. split; [done|]. split; [by apply range_values_NoDup|].
  intros b. rewrite elem_of_range_values by done. split; intros [Hb Hr']; (split; [done|]).
  - apply round_range_spec in Hr'; [done|]. by apply (wfd_digest c _ Hwf _ _ Hb).
  - apply round_range_spec_2; [|done]. by apply (wfd_digest c _ Hwf _ _ Hb).
Qed.
End state.

(** * The traversal of [ancestors_at_uncommitted_round]

    The greatest reference of the frontier decreases at every turn, so the
    number of stored references below it bounds the number of turns. *)
Lemma linked_last linked m :
  bset_last ref_le linked = Some m → m ∈ linked ∧ ∀ j, j ∈ linked → ref_le j m.
Proof. apply bset_last_Some; apply _. Qed.

Lemma linked_last_None linked : bset_last ref_le linked = None → linked = ∅.
Proof. apply bset_last_None; apply _. Qed.

Definition below (D : Dag) (m : BlockRef) : gset BlockRef :=
  filter (λ k, ref_le k m) (dom D).

Lemma below_shrinks D m m' :
  is_Some (D !! m) → ref_le m' m → m' ≠ m → (base.size (below D m') < base.size (below D m))%nat.
Proof.
  intros Hm Hle Hne. apply subset_size. unfold below. split.
  - intros k [Hk ?]%elem_of_filter. apply elem_of_filter. split; [by etrans|done].
  - intros Hsub. assert (m ∈ filter (λ k, ref_le k m') (dom D)) as [Hmm' _]%elem_of_filter.
    { apply Hsub, elem_of_filter. split; [by destruct (total ref_le m m)|by apply elem_of_dom]. }
    destruct Hne. by apply (anti_symm ref_le).
Qed.

(** The frontier after replacing its greatest element by its parents. *)
Definition expand (b : VerifiedBlock) (linked : gset BlockRef) (m : BlockRef) : gset BlockRef :=
  list_to_set (ancestors b) ∪ linked ∖ {[m]}.

Lemma expand_below D m b linked x :
  wf_dag c D → bset_last ref_le linked = Some m → D !! m = Some b →
  x ∈ expand b linked m → ref_le x m ∧ x ≠ m.
Proof.
  intros Hwf [Hm Hmax]%linked_last Hb. unfold expand.
  rewrite elem_of_union, elem_of_list_to_set, elem_of_difference, elem_of_singleton.
  pose proof (wfd_ref _ _ _ Hwf Hb) as [Hr _].
  intros [Hx|[Hx Hne]]; [|by auto].
  pose proof (wfd_ancestor c D Hwf _ _ _ Hb Hx). split.
  - apply ref_le_spec. lia.
  - intros ->. lia.
Qed.

(** Expanding the frontier does not change what it reaches at lower rounds. *)
Lemma expand_reach D m b linked r :
  D !! m = Some b → m ∈ linked → r ≠ m →
  (r ∈ expand b linked m ∨ (∃ x b', x ∈ expand b linked m ∧ D !! x = Some b' ∧ reach D b' r))
  ↔ (r ∈ linked ∨ ∃ x b', x ∈ linked ∧ D !! x = Some b' ∧ reach D b' r).
Proof.
  intros Hb Hm Hne. unfold expand. split.
  - intros [Hr|(x & b' & Hx & Hb' & Hr)]; rewrite ?elem_of_union, ?elem_of_list_to_set in *.
    + destruct Hr as [Hr|Hr]; [right; exists m, b; eauto using reach|left; set_solver].
    + right. destruct Hx as [Hx|Hx]; [exists m, b|exists x, b']; repeat split; try done.
      * by eapply reach_step.
      * set_solver.
  - intros [Hr|(x & b' & Hx & Hb' & Hr)].
    + left. set_solver.
    + destruct (decide (x = m)) as [->|Hxm].
      * rewrite Hb in Hb'. injection Hb' as <-.
        inversion Hr as [? ? Hin|? a b'' ? Hin Ha Hr']; subst.
        -- left. apply elem_of_union. left. by apply elem_of_list_to_set.
        -- right. exists a, b''. split; [|done].
           apply elem_of_union. left. by apply elem_of_list_to_set.
      * right. exists x, b'. split; [set_solver|done].
Qed.

(** A frontier at or below [er] is final. *)
Lemma frontier_done D er (linked : gset BlockRef) :
  wf_dag c D → (∀ x, x ∈ linked → is_Some (D !! x) ∧ ref_round x ≤ er) →
  ∀ r, ref_round r = er →
    r ∈ linked ↔ r ∈ linked ∨ ∃ x b, x ∈ linked ∧ D !! x = Some b ∧ reach D b r.
Proof.
  intros Hwf Hle r Hr. split; [by left|]. intros [|(x & b & Hx & Hb & Hxr)]; [done|].
  pose proof (proj2 (Hle x Hx)). pose proof (reach_round _ _ _ _ Hwf Hb Hxr).
  pose proof (wfd_ref _ _ _ Hwf Hb). lia.
Qed.

Lemma ancestors_loop_ok D er fuel : wf_dag c D → ∀ linked,
  (∀ x, x ∈ linked → is_Some (D !! x)) →
  (∀ m, bset_last ref_le linked = Some m → (base.size (below D m) ≤ fuel)%nat) →
  ∃ linked', ancestors_loop fuel D er linked = Done linked' ∧
    (∀ x, x ∈ linked' → is_Some (D !! x) ∧ ref_round x ≤ er) ∧
    (∀ r, ref_round r = er → (r ∈ linked'
      ↔ r ∈ linked ∨ ∃ x b, x ∈ linked ∧ D !! x = Some b ∧ reach D b r)).
Proof.
  intros Hwf. induction fuel as [|fuel IH]; intros linked Hin Hsize; simpl;
    destruct (bset_last ref_le linked) as [m|] eqn:Hlast.
  2, 4: apply linked_last_None in Hlast as ->; exists ∅; set_solver.
  all: pose proof Hlast as [Hm Hmax]%linked_last; case_test (ref_round m <=? er) as Hround.
  1, 3: assert (∀ x, x ∈ linked → is_Some (D !! x) ∧ ref_round x ≤ er) as Hall
    by (intros x Hx; pose proof (ref_le_round _ _ (Hmax x Hx)); split; [by auto|lia]);
    exists linked; eauto using frontier_done.
  - exfalso. destruct (Hin m Hm) as [b Hb]. specialize (Hsize m eq_refl).
    assert (m ∈ below D m) as Hmm.
    { apply elem_of_filter. split; [by destruct (total ref_le m m)|by apply elem_of_dom_2 in Hb]. }
    assert (below D m ≡ ∅) as Hemp by (apply size_empty_inv; lia). set_solver.
  - destruct (Hin m Hm) as [b Hb]. rewrite Hb.
    change (list_to_set (ancestors b) ∪ linked ∖ {[m]}) with (expand b linked m).
    destruct (IH (expand b linked m)) as (linked' & -> & Hpres & Hiff).
    + intros x. unfold expand. rewrite elem_of_union, elem_of_list_to_set, elem_of_difference.
      intros [Hx|[Hx _]]; [by eapply wfd_closed|by auto].
    + intros m' Hm'. pose proof Hm' as [Hin' _]%linked_last.
      destruct (expand_below D m b linked m' Hwf Hlast Hb Hin') as [Hle Hne].
      pose proof (below_shrinks D m m' (Hin m Hm) Hle Hne). specialize (Hsize m eq_refl). lia.
    + exists linked'. split; [done|]. split; [done|]. intros r Hr.
      rewrite Hiff by done. apply expand_reach; [done..|]. intros ->. lia.
Qed.

Lemma mapM_unwrap_ok D l :
  (∀ r, r ∈ l → is_Some (D !! r)) → wf_dag c D → NoDup l →
  ∃ bs, mapM (λ r, unwrap (D !! r)) l = Done bs ∧ NoDup bs ∧
    ∀ b, b ∈ bs ↔ D !! reference b = Some b ∧ reference b ∈ l.
Proof.
  intros Hl Hwf Hnd. induction l as [|r l IH].
  - exists []. split; [done|]. split; [constructor|]. set_solver.
  - apply NoDup_cons in Hnd as [Hr Hnd].
    destruct (Hl r) as [b Hb]; [by left|].
    destruct IH as (bs & Hbs & Hnd' & Hiff); [intros; apply Hl; by right|done|].
    pose proof (wfd_key c D Hwf _ _ Hb) as Hkey.
    exists (b :: bs). simpl. rewrite Hb. simpl. rewrite Hbs. split; [done|]. split.
    + constructor; [|done]. rewrite Hiff, Hkey. by intros [_ ?].
    + intros b'. rewrite !elem_of_cons, Hiff. split.
      * intros [->|[??]]; [rewrite Hkey; auto|auto].
      * intros [Hb' [Heq|?]]; [|by auto]. left. rewrite Heq, Hb in Hb'. by injection Hb' as ->.
Qed.

Lemma ancestors_at_round_ok ds later er :
  wf_dag c (recent_blocks ds) →
  recent_blocks ds !! reference later = Some later →
  last_commit_round ds < er < round later →
  ∃ l, ancestors_at_uncommitted_round ds later er = Done l ∧ NoDup l ∧
    ∀ b, b ∈ l ↔ recent_blocks ds !! reference b = Some b ∧ round b = er
                 ∧ reach (recent_blocks ds) later (reference b).
Proof.
  intros Hwf Hlater Her. unfold ancestors_at_uncommitted_round.
  rewrite !(proj2 (Z.leb_gt _ _)) by lia. set (D := recent_blocks ds) in *.
  destruct (ancestors_loop_ok D er (base.size D) Hwf (list_to_set (ancestors later)))
    as (linked & -> & Hpres & Hiff).
  - intros x Hx%elem_of_list_to_set. by eapply wfd_closed.
  - intros m _. rewrite <-size_dom. apply subseteq_size. unfold below. set_solver.
  - simpl. set (P := ref_leb (mkRef er 0 DIGEST_MIN)).
    destruct (mapM_unwrap_ok D (bset_range ref_le P linked)) as (bs & -> & Hnd & Hbs).
    { intros r [_ Hr]%elem_of_bset_range. by apply Hpres. }
    { done. }
    { apply bset_range_NoDup. }
    exists bs. split; [done|]. split; [done|]. intros b. rewrite Hbs, elem_of_bset_range.
    split.
    + intros (Hb & HP & Hin). destruct (Hpres _ Hin) as [_ Hle].
      apply ref_le_round in HP. simpl in HP, Hle.
      assert (round b = er) as Hr by lia. split; [done|]. split; [done|].
      apply (Hiff (reference b)) in Hin; [|done].
      destruct Hin as [Hin|(x & b' & Hx & Hb' & Hreach)]; rewrite ?elem_of_list_to_set in *;
        eauto using reach.
    + intros (Hb & Hr & Hreach). split; [done|]. split.
      * apply ref_le_spec. simpl. pose proof (wfd_digest c D Hwf _ _ Hb). lia.
      * apply (Hiff (reference b)); [done|].
        inversion Hreach as [? ? Hin|? a b'' ? Hin Ha Hr']; subst.
        -- left. by apply elem_of_list_to_set.
        -- right. exists a, b''. split; [|done]. by apply elem_of_list_to_set.
Qed.
End dag_facts.
