(* ===== verification/ConsensusCommitter.v ===== *)
(** The commit rule of the consensus core.

    Models [consensus/core/src/leader_schedule.rs],
    [consensus/core/src/base_committer.rs] and
    [consensus/core/src/universal_committer.rs]: the leader of a round, the
    direct and indirect decision rules of a base committer over the DAG state,
    and the universal committer that runs a collection of base committers from
    the highest round down.  This file holds the definitions; the theorems are
    in the files [CommitterSpec] and [CommitterAgreement]. *)
From S2P Require Import Prelude ConsensusCommittee ConsensusBlock ConsensusDag.

(** * Leader schedule *)

(** [rand]: [SliceRandom::choose_multiple_weighted] on a [StdRng] built from
    the given seed bytes, with the weights the items carry (converted to [f32]
    on the way); [None] is the [WeightedError]. *)
Class WeightedSampler :=
  choose_multiple_weighted :
    list Z → list (AuthorityIndex * Stake) → nat → option (list (AuthorityIndex * Stake)).

(** [u32::to_le_bytes]. *)
Definition to_le_bytes32 (x : Z) : list Z :=
  [x mod 256; x / 256 mod 256; x / 65536 mod 256; x / 16777216 mod 256].

Section schedule.
Context `{!WeightedSampler}.

Definition elect_leader_stake_based (ctx : Context) (r : Round) (offset : Z) : exec AuthorityIndex :=
  assert (bool_decide (Z.to_nat offset < committee_size (committee ctx))%nat) ;;
  let seed_bytes := replicate 28 0 ++ to_le_bytes32 r in
  let choices := (λ '(i, a), (i, stake a)) <$> authorities_iter (committee ctx) in
  sampled ← unwrap (choose_multiple_weighted seed_bytes choices (committee_size (committee ctx)));
  unwrap (head (drop (Z.to_nat offset) sampled).*1).

(** [LeaderSchedule::elect_leader] outside tests. *)
Definition schedule_elect_leader (ctx : Context) (r : Round) (leader_offset : Z) :
    exec AuthorityIndex :=
  elect_leader_stake_based ctx r leader_offset.

(** * Base committer *)

Record BaseCommitterOptions := mkOptions {
  wave_length : Z;
  leader_offset : Z;
  round_offset : Z;
}.

(** The DAG state behind the shared lock is an argument of the methods. *)
Record BaseCommitter := mkBase {
  bc_context : Context;
  bc_options : BaseCommitterOptions;
}.

Definition default_options : BaseCommitterOptions := mkOptions DEFAULT_WAVE_LENGTH 0 0.

Definition BaseCommitter_new (ctx : Context) (options : BaseCommitterOptions) : exec BaseCommitter :=
  assert (MINIMUM_WAVE_LENGTH <=? wave_length options) ;;
  Done (mkBase ctx options).

Definition leader_round (bc : BaseCommitter) (wave : WaveNumber) : Round :=
  wrap32 (wrap32 (wave * wave_length (bc_options bc)) + round_offset (bc_options bc)).

Definition decision_round (bc : BaseCommitter) (wave : WaveNumber) : Round :=
  let wl := wave_length (bc_options bc) in
  wrap32 (wrap32 (wrap32 (wrap32 (wave * wl) + wl) - 1) + round_offset (bc_options bc)).

Definition wave_number (bc : BaseCommitter) (r : Round) : WaveNumber :=
  saturating_sub r (round_offset (bc_options bc)) / wave_length (bc_options bc).

Definition elect_leader (bc : BaseCommitter) (r : Round) : exec (option Slot) :=
  let wave := wave_number bc r in
  if negb (leader_round bc wave =? r) then Done None
  else
    a ← schedule_elect_leader (bc_context bc) r (leader_offset (bc_options bc));
    Done (Some (mkSlot r a)).
End schedule.

(** The first [Some] of a search over a list. *)
Fixpoint find_first {A B} (f : A → exec (option B)) (l : list A) : exec (option B) :=
  match l with
  | [] => Done None
  | x :: l =>
      o ← f x;
      match (o : option B) with Some y => Done (Some y) | None => find_first f l end
  end.

(** [find_supported_block]: depth-first through the ancestors above the slot's
    round.  The fuel bounds the depth of the recursion. *)
Fixpoint find_supported_block (fuel : nat) (ds : DagState) (leader_slot : Slot)
    (from : VerifiedBlock) : exec (option BlockRef) :=
  match fuel with
  | O => OutOfFuel
  | S fuel =>
      if round from <? slot_round leader_slot then Done None
      else
        find_first (λ ancestor,
          if bool_decide (slot_of_ref ancestor = leader_slot) then Done (Some ancestor)
          else if ref_round ancestor <=? slot_round leader_slot then Done None
          else
            b ← unwrap (get_uncommitted_block ds ancestor);
            find_supported_block fuel ds leader_slot b) (ancestors from)
  end.

(** Rounds decrease along ancestors, so a block's round bounds the depth. *)
Definition support_fuel (b : VerifiedBlock) : nat := S (Z.to_nat (round b)).

Definition is_vote (ds : DagState) (potential_vote leader_block : VerifiedBlock) : exec bool :=
  let ref := reference leader_block in
  supported ← find_supported_block (support_fuel potential_vote) ds (slot_of_ref ref) potential_vote;
  Done (bool_decide (supported = Some ref)).

(** [all_votes.get(reference)], or the vote recomputed and cached. *)
Definition cached_vote (ds : DagState) (leader_block : VerifiedBlock)
    (all_votes : gmap BlockRef bool) (r : BlockRef) : exec (bool * gmap BlockRef bool) :=
  match all_votes !! r with
  | Some v => Done (v, all_votes)
  | None =>
      potential_vote ← unwrap (get_uncommitted_block ds r);
      v ← is_vote ds potential_vote leader_block;
      Done (v, <[r := v]> all_votes)
  end.

Fixpoint certificate_loop (c : Committee) (ds : DagState) (leader_block : VerifiedBlock)
    (agg : StakeAggregator QuorumThreshold) (all_votes : gmap BlockRef bool)
    (refs : list BlockRef) : exec (bool * gmap BlockRef bool) :=
  match refs with
  | [] => Done (false, all_votes)
  | r :: refs =>
      '(v, all_votes) ← cached_vote ds leader_block all_votes r;
      if (v : bool) then
        '(agg, reached) ← agg_add agg (ref_author r) c;
        if (reached : bool) then Done (true, all_votes)
        else certificate_loop c ds leader_block agg all_votes refs
      else certificate_loop c ds leader_block agg all_votes refs
  end.

Definition is_certificate (c : Committee) (ds : DagState)
    (potential_certificate leader_block : VerifiedBlock) (all_votes : gmap BlockRef bool) :
    exec (bool * gmap BlockRef bool) :=
  certificate_loop c ds leader_block agg_new all_votes (ancestors potential_certificate).

(** [iter().any(..)] over the potential certificates, sharing one vote cache. *)
Fixpoint any_certificate (c : Committee) (ds : DagState) (leader_block : VerifiedBlock)
    (all_votes : gmap BlockRef bool) (certs : list VerifiedBlock) : exec bool :=
  match certs with
  | [] => Done false
  | pc :: certs =>
      '(b, all_votes) ← is_certificate c ds pc leader_block all_votes;
      if (b : bool) then Done true else any_certificate c ds leader_block all_votes certs
  end.

Definition decide_leader_from_anchor (bc : BaseCommitter) (ds : DagState) (anchor : VerifiedBlock)
    (leader_slot : Slot) : exec LeaderStatus :=
  let leader_blocks := get_uncommitted_blocks_at_slot ds leader_slot in
  let wave := wave_number bc (slot_round leader_slot) in
  let dr := decision_round bc wave in
  potential_certificates ← ancestors_at_uncommitted_round ds anchor dr;
  certified_leader_blocks ←
    filterM (λ l, any_certificate (committee (bc_context bc)) ds l ∅ potential_certificates)
      leader_blocks;
  if bool_decide (1 < length certified_leader_blocks)%nat then Panic
  else Done (match last certified_leader_blocks with
             | Some b => LCommit b
             | None => LSkip leader_slot
             end).

Fixpoint blame_loop (c : Committee) (leader : AuthorityIndex)
    (agg : StakeAggregator QuorumThreshold) (voting_blocks : list VerifiedBlock) : exec bool :=
  match voting_blocks with
  | [] => Done false
  | b :: bs =>
      if forallb (λ a, negb (ref_author a =? leader)%nat) (ancestors b) then
        '(agg, reached) ← agg_add agg (ref_author (reference b)) c;
        if (reached : bool) then Done true else blame_loop c leader agg bs
      else blame_loop c leader agg bs
  end.

Definition enough_leader_blame (c : Committee) (ds : DagState) (voting_round : Round)
    (leader : AuthorityIndex) : exec bool :=
  voting_blocks ← get_uncommitted_blocks_at_round ds voting_round;
  blame_loop c leader agg_new voting_blocks.

Fixpoint support_loop (c : Committee) (ds : DagState) (leader_block : VerifiedBlock)
    (agg : StakeAggregator QuorumThreshold) (all_votes : gmap BlockRef bool)
    (decision_blocks : list VerifiedBlock) : exec bool :=
  match decision_blocks with
  | [] => Done false
  | b :: bs =>
      '(v, all_votes) ← is_certificate c ds b leader_block all_votes;
      if (v : bool) then
        '(agg, reached) ← agg_add agg (ref_author (reference b)) c;
        if (reached : bool) then Done true
        else support_loop c ds leader_block agg all_votes bs
      else support_loop c ds leader_block agg all_votes bs
  end.

Definition enough_leader_support (c : Committee) (ds : DagState) (dr : Round)
    (leader_block : VerifiedBlock) : exec bool :=
  decision_blocks ← get_uncommitted_blocks_at_round ds dr;
  stakes ← mapM (λ b, stake_of c (author b)) decision_blocks;
  if negb (reached_quorum c (sum64 stakes)) then Done false
  else support_loop c ds leader_block agg_new ∅ decision_blocks.

Definition try_direct_decide (bc : BaseCommitter) (ds : DagState) (leader : Slot) :
    exec LeaderStatus :=
  let c := committee (bc_context bc) in
  let voting_round := wrap32 (slot_round leader + 1) in
  blamed ← enough_leader_blame c ds voting_round (slot_authority leader);
  if (blamed : bool) then Done (LSkip leader)
  else
    let dr := decision_round bc (wave_number bc (slot_round leader)) in
    let leader_blocks := get_uncommitted_blocks_at_slot ds leader in
    leaders_with_enough_support ← filterM (enough_leader_support c ds dr) leader_blocks;
    if bool_decide (1 < length leaders_with_enough_support)%nat then Panic
    else Done (match last leaders_with_enough_support with
               | Some b => LCommit b
               | None => LUndecided leader
               end).

(** The scan for the anchor among the later leaders. *)
Fixpoint anchor_loop (bc : BaseCommitter) (ds : DagState) (leader_slot : Slot)
    (anchors : list LeaderStatus) : exec LeaderStatus :=
  match anchors with
  | [] => Done (LUndecided leader_slot)
  | LCommit anchor :: _ => decide_leader_from_anchor bc ds anchor leader_slot
  | LSkip _ :: anchors => anchor_loop bc ds leader_slot anchors
  | LUndecided _ :: _ => Done (LUndecided leader_slot)
  end.

Definition try_indirect_decide (bc : BaseCommitter) (ds : DagState) (leader_slot : Slot)
    (leaders : list LeaderStatus) : exec LeaderStatus :=
  anchor_loop bc ds leader_slot
    (filter (λ x, wrap32 (slot_round leader_slot + wave_length (bc_options bc)) ≤ status_round x)
       leaders).

(** * Universal committer *)

Section universal.
Context `{!WeightedSampler}.

Record UniversalCommitter := mkUniversal { committers : list BaseCommitter }.

(** One leader: the direct rule, then the indirect one against the later
    leaders. *)
Definition decide_leader (bc : BaseCommitter) (ds : DagState) (leader : Slot)
    (leaders : list (LeaderStatus * Decision)) : exec (LeaderStatus * Decision) :=
  status ← try_direct_decide bc ds leader;
  if is_decided status then Done (status, Direct)
  else
    status ← try_indirect_decide bc ds leader leaders.*1;
    Done (status, Indirect).

(** The inner loop of [try_commit] over the committers, in reverse order; the
    boolean says whether it left the outer loop. *)
Fixpoint commit_round (cs : list BaseCommitter) (ds : DagState) (last_decided : Slot) (r : Round)
    (leaders : list (LeaderStatus * Decision)) : exec (bool * list (LeaderStatus * Decision)) :=
  match cs with
  | [] => Done (false, leaders)
  | bc :: cs =>
      elected ← elect_leader bc r;
      match (elected : option Slot) with
      | None => commit_round cs ds last_decided r leaders
      | Some leader =>
          if bool_decide (leader = last_decided) then Done (true, leaders)
          else
            status ← decide_leader bc ds leader leaders;
            commit_round cs ds last_decided r (status :: leaders)
      end
  end.

(** The outer loop, over the rounds from the highest down. *)
Fixpoint commit_rounds (cs : list BaseCommitter) (ds : DagState) (last_decided : Slot)
    (rounds : list Round) (leaders : list (LeaderStatus * Decision)) :
    exec (list (LeaderStatus * Decision)) :=
  match rounds with
  | [] => Done leaders
  | r :: rounds =>
      '(broke, leaders) ← commit_round cs ds last_decided r leaders;
      if (broke : bool) then Done leaders
      else commit_rounds cs ds last_decided rounds leaders
  end.

(** [Iterator::take_while]. *)
Fixpoint take_while {A} (p : A → bool) (l : list A) : list A :=
  match l with
  | [] => []
  | x :: l => if p x then x :: take_while p l else []
  end.

Definition try_commit (uc : UniversalCommitter) (ds : DagState) (last_decided : Slot) :
    exec (list LeaderStatus) :=
  let lo := slot_round last_decided in
  let hi := saturating_sub (highest_accepted_round ds) 2 in
  leaders ← commit_rounds (rev (committers uc)) ds last_decided
              (rev (seqZ lo (hi - lo + 1))) [];
  Done (take_while (λ x, is_decided x.1)
          (filter (λ x, 0 < status_round x.1) leaders)).*1.

Definition get_leaders (uc : UniversalCommitter) (r : Round) : exec (list AuthorityIndex) :=
  slots ← mapM (λ bc, elect_leader bc r) (committers uc);
  Done (slot_authority <$> omap id slots).

(** [UniversalCommitterBuilder]. *)
Record UniversalCommitterBuilder := mkBuilder {
  ub_context : Context;
  ub_wave_length : Z;
  ub_number_of_leaders : nat;
  ub_pipeline : bool;
}.

Definition builder_new (ctx : Context) : UniversalCommitterBuilder :=
  mkBuilder ctx DEFAULT_WAVE_LENGTH 1 false.
Definition with_wave_length (b : UniversalCommitterBuilder) (w : Z) : UniversalCommitterBuilder :=
  mkBuilder (ub_context b) w (ub_number_of_leaders b) (ub_pipeline b).
Definition with_number_of_leaders (b : UniversalCommitterBuilder) (n : nat) :
    UniversalCommitterBuilder :=
  mkBuilder (ub_context b) (ub_wave_length b) n (ub_pipeline b).
Definition with_pipeline (b : UniversalCommitterBuilder) (p : bool) : UniversalCommitterBuilder :=
  mkBuilder (ub_context b) (ub_wave_length b) (ub_number_of_leaders b) p.

Definition build (b : UniversalCommitterBuilder) : exec UniversalCommitter :=
  let pipeline_stages := if ub_pipeline b then ub_wave_length b else 1 in
  cs ← mapM (λ '(ro, lo), BaseCommitter_new (ub_context b)
                            (mkOptions (ub_wave_length b) (wrap32 lo) ro))
    (ro ← seqZ 0 pipeline_stages; lo ← seqZ 0 (Z.of_nat (ub_number_of_leaders b)); [(ro, lo)]);
  Done (mkUniversal cs).
End universal.
