(* ===== verification/CommitterSpec.v ===== *)
(** Functional behaviour of the base committer's rules.

    Each loop of [ConsensusCommitter] is shown to return, without panicking or
    running out of fuel, the value of a declarative definition: the block a
    block supports, the voters a certificate collects, whether a set of
    authorities is a quorum.  The vote cache and the early exits of the code
    disappear at this level. *)
From S2P Require Import Prelude ConsensusCommittee ConsensusBlock ConsensusDag.
From S2P Require Import ConsensusCommitter.

(** * Quorate sets *)
Section quorate.
Context (c : Committee) (Hwfc : wf_committee c).

Definition quorate (s : gset AuthorityIndex) : bool := reached_quorum c (stake_in c (in_set s)).

Lemma quorate_spec s : quorate s = true ↔ quorum_threshold c ≤ stake_in c (in_set s).
Proof using. clear Hwfc. unfold quorate, reached_quorum. apply Z.leb_le. Qed.

Lemma quorate_mono s t : s ⊆ t → quorate s = true → quorate t = true.
Proof.
  rewrite !quorate_spec. intros Hst Hs. etrans; [exact Hs|].
  apply stake_in_mono; [done|]. intros i _. unfold in_set. rewrite !bool_decide_eq_true. set_solver.
Qed.

Lemma quorate_empty : quorate ∅ = false.
Proof.
  apply not_true_iff_false. rewrite quorate_spec.
  pose proof (agg_sum c _ (agg_new_ok (T := QuorumThreshold) c)) as Hz.
  simpl in Hz. rewrite <-Hz.
  rewrite wfc_quorum by done. pose proof (wfc_pos c Hwfc).
  pose proof (Z.div_pos (2 * total_stake c) 3). lia.
Qed.

(** One [add] below the threshold: either the quorum is reached for good, or
    the aggregator stays below it. *)
Lemma agg_step (agg : StakeAggregator QuorumThreshold) i :
  agg_ok c agg → (i < committee_size c)%nat →
  ∃ agg', agg_add agg i c = Done (agg', quorate ({[i]} ∪ votes agg))
    ∧ votes agg' = {[i]} ∪ votes agg ∧ agg_ok c agg'.
Proof. intros Hok Hi. by apply agg_add_ok. Qed.
End quorate.

Section rules.
Context (c : Committee) (Hwfc : wf_committee c).
Context (ds : DagState) (Hwf : wf_dag c (recent_blocks ds)).

Abbreviation D := (recent_blocks ds).

(** [stored b]: the block is in the DAG state. *)
Definition stored (b : VerifiedBlock) : Prop := recent_blocks ds !! reference b = Some b.

Lemma stored_lookup r b : D !! r = Some b → stored b.
Proof. intros Hb. unfold stored. by rewrite (wfd_key c _ Hwf _ _ Hb). Qed.

(** * Supported blocks *)

Lemma find_first_total {A B} (f : A → exec (option B)) l :
  (∀ x, x ∈ l → ∃ o, f x = Done o) → ∃ o, find_first f l = Done o.
Proof using.
  clear. induction l as [|x l IH]; intros Hf; simpl; [by eauto|].
  destruct (Hf x) as [[y|] ->]; [by left|by eauto|].
  apply IH. intros; apply Hf; by right.
Qed.

Lemma find_first_Some {A B} (f : A → exec (option B)) l y :
  find_first f l = Done (Some y) → ∃ x, x ∈ l ∧ f x = Done (Some y).
Proof using.
  clear. induction l as [|x l IH]; simpl; [done|].
  intros ([z|] & Hx & Heq)%bind_Done.
  - injection Heq as ->. exists x. split; [by left|done].
  - destruct (IH Heq) as (x' & ? & ?). exists x'. split; [by right|done].
Qed.

Lemma find_first_ext {A B} (f g : A → exec (option B)) l :
  (∀ x, x ∈ l → f x = g x) → find_first f l = find_first g l.
Proof using.
  clear. induction l as [|x l IH]; intros Hfg; simpl; [done|].
  rewrite Hfg by (by left). rewrite IH by (intros; apply Hfg; by right). done.
Qed.

Lemma find_supported_total fuel slot b :
  stored b → (Z.to_nat (round b) < fuel)%nat → ∃ o, find_supported_block fuel ds slot b = Done o.
Proof.
  revert b. induction fuel as [|fuel IH]; intros b Hb Hfuel; [lia|]. simpl.
  destruct (round b <? slot_round slot); [by eauto|].
  apply find_first_total. intros a Ha.
  case_bool_decide; [by eauto|]. destruct (ref_round a <=? slot_round slot); [by eauto|].
  destruct (wfd_closed c _ Hwf _ _ _ Hb Ha) as [b' Hb'].
  unfold get_uncommitted_block. rewrite Hb'. simpl. apply IH; [by eapply stored_lookup|].
  pose proof (wfd_ancestor c _ Hwf _ _ _ Hb Ha). pose proof (wfd_ref c _ _ _ Hwf Hb').
  pose proof (wfd_round c _ Hwf _ _ Hb'). lia.
Qed.

Lemma find_supported_sound fuel slot b r :
  stored b → find_supported_block fuel ds slot b = Done (Some r) →
  slot_of_ref r = slot ∧ reach D b r.
Proof.
  revert b. induction fuel as [|fuel IH]; intros b Hb; simpl; [done|].
  destruct (round b <? slot_round slot); [done|].
  intros (a & Ha & Hfa)%find_first_Some. case_bool_decide as Hslot.
  - injection Hfa as <-. split; [done|]. by constructor.
  - destruct (ref_round a <=? slot_round slot); [done|]. exec_inv.
    destruct (IH v) as [? ?]; [by eapply stored_lookup|done|].
    split; [done|]. by eapply reach_step.
Qed.

(** The block of [slot] that [b] supports. *)
Definition supported (slot : Slot) (b : VerifiedBlock) : option BlockRef :=
  match find_supported_block (support_fuel b) ds slot b with Done o => o | _ => None end.

Lemma supported_ok slot b :
  stored b → find_supported_block (support_fuel b) ds slot b = Done (supported slot b).
Proof.
  intros Hb. unfold supported.
  destruct (find_supported_total (support_fuel b) slot b Hb) as [o ->]; [|done].
  unfold support_fuel. lia.
Qed.

Lemma supported_sound slot b r :
  stored b → supported slot b = Some r → slot_of_ref r = slot ∧ reach D b r.
Proof.
  intros Hb Hs. apply (find_supported_sound (support_fuel b)); [done|].
  by rewrite supported_ok, Hs.
Qed.

(** * Votes and certificates *)

Definition votes_for (l : VerifiedBlock) (r : BlockRef) : bool :=
  match recent_blocks ds !! r with
  | Some b => bool_decide (supported (slot_of_ref (reference l)) b = Some (reference l))
  | None => false
  end.

Lemma is_vote_ok b l :
  stored b → is_vote ds b l = Done (votes_for l (reference b)).
Proof.
  intros Hb. unfold is_vote, votes_for. rewrite supported_ok by done. simpl. by rewrite Hb.
Qed.

(** The vote cache only holds votes for the leader it was built for. *)
Definition cache_ok (l : VerifiedBlock) (cache : gmap BlockRef bool) : Prop :=
  ∀ r v, cache !! r = Some v → v = votes_for l r.

Lemma cached_vote_ok l cache r :
  cache_ok l cache → is_Some (D !! r) →
  ∃ cache', cached_vote ds l cache r = Done (votes_for l r, cache') ∧ cache_ok l cache'.
Proof.
  intros Hc [b Hb]. unfold cached_vote. destruct (cache !! r) as [v|] eqn:Hv.
  - rewrite (Hc r v Hv). eauto.
  - unfold get_uncommitted_block. rewrite Hb. simpl.
    rewrite is_vote_ok by (by eapply stored_lookup). simpl.
    rewrite (wfd_key c _ Hwf _ _ Hb). eexists. split; [done|].
    intros r' v'. destruct (decide (r = r')) as [<-|Hne].
    + rewrite lookup_insert_eq. by intros [= <-].
    + rewrite lookup_insert_ne by done. apply Hc.
Qed.

(** The authors of the references that vote for a leader block. *)
Definition voters (l : VerifiedBlock) (refs : list BlockRef) : gset AuthorityIndex :=
  list_to_set (ref_author <$> filter (λ a, votes_for l a = true) refs).

Lemma elem_of_voters l refs i :
  i ∈ voters l refs ↔ ∃ a, a ∈ refs ∧ votes_for l a = true ∧ ref_author a = i.
Proof using.
  clear. unfold voters. rewrite elem_of_list_to_set, list_elem_of_fmap.
  setoid_rewrite list_elem_of_filter. naive_solver.
Qed.

Lemma voters_cons l a refs :
  voters l (a :: refs) = (if votes_for l a then {[ref_author a]} else ∅) ∪ voters l refs.
Proof using.
  clear. unfold voters. rewrite filter_cons. destruct (votes_for l a); simpl; [done|].
  by rewrite (left_id_L ∅ (∪)).
Qed.

Definition is_cert (l b : VerifiedBlock) : bool := quorate c (voters l (ancestors b)).

Lemma certificate_loop_ok l refs agg cache :
  agg_ok c agg → quorate c (votes agg) = false → cache_ok l cache →
  (∀ r, r ∈ refs → is_Some (D !! r)) →
  ∃ cache', certificate_loop c ds l agg cache refs
      = Done (quorate c (votes agg ∪ voters l refs), cache') ∧ cache_ok l cache'.
Proof.
  revert agg cache. induction refs as [|r refs IH]; intros agg cache Hagg Hlow Hcache Hrefs; simpl.
  - exists cache. replace (votes agg ∪ voters l []) with (votes agg) by set_solver.
    by rewrite Hlow.
  - destruct (cached_vote_ok l cache r) as (cache' & -> & Hcache'); [done|apply Hrefs; by left|].
    simpl. rewrite voters_cons. destruct (votes_for l r) eqn:Hv.
    + destruct (Hrefs r) as [b Hb]; [by left|].
      destruct (agg_step c Hwfc agg (ref_author r)) as (agg' & -> & Hvotes & Hagg'); [done|..].
      { rewrite (proj2 (wfd_ref c _ _ _ Hwf Hb)). by eapply wfd_author. }
      simpl. destruct (quorate c ({[ref_author r]} ∪ votes agg)) eqn:Hq.
      * exists cache'. split; [|done]. do 2 f_equal. symmetry.
        eapply quorate_mono; [done| |exact Hq]. set_solver.
      * destruct (IH agg' cache') as (cache'' & -> & ?); [done|by rewrite Hvotes|done| |].
        { intros; apply Hrefs; by right. }
        exists cache''. split; [|done]. rewrite Hvotes. do 3 f_equal. set_solver.
    + destruct (IH agg cache') as (cache'' & -> & ?); [done..| |].
      { intros; apply Hrefs; by right. }
      exists cache''. split; [|done]. do 3 f_equal. set_solver.
Qed.

Lemma is_certificate_ok b l cache :
  stored b → cache_ok l cache →
  ∃ cache', is_certificate c ds b l cache = Done (is_cert l b, cache') ∧ cache_ok l cache'.
Proof.
  intros Hb Hcache. unfold is_certificate, is_cert.
  replace (voters l (ancestors b)) with (votes (@agg_new QuorumThreshold) ∪ voters l (ancestors b))
    by (simpl; set_solver).
  apply certificate_loop_ok; [apply agg_new_ok|by apply quorate_empty|done|].
  intros r Hr. by eapply wfd_closed.
Qed.

Lemma cache_ok_empty l : cache_ok l ∅.
Proof using. clear. intros r v. by rewrite lookup_empty. Qed.

Lemma any_certificate_ok l cache certs :
  cache_ok l cache → Forall stored certs →
  any_certificate c ds l cache certs = Done (existsb (is_cert l) certs).
Proof.
  intros Hcache Hcerts. revert cache Hcache.
  induction Hcerts as [|b certs Hb Hcerts IH]; intros cache Hcache; simpl; [done|].
  destruct (is_certificate_ok b l cache Hb Hcache) as (cache' & -> & Hcache'). simpl.
  destruct (is_cert l b); simpl; [done|]. by apply IH.
Qed.

(** * Blames and support *)

(** [b] has no ancestor written by [leader]. *)
Definition blames (leader : AuthorityIndex) (b : VerifiedBlock) : bool :=
  forallb (λ a, negb (ref_author a =? leader)%nat) (ancestors b).

(** The authors of the blocks a test selects. *)
Definition authors_where (p : VerifiedBlock → bool) (bs : list VerifiedBlock) :
    gset AuthorityIndex :=
  list_to_set (author <$> filter (λ b, p b = true) bs).

Lemma elem_of_authors_where p bs i :
  i ∈ authors_where p bs ↔ ∃ b, b ∈ bs ∧ p b = true ∧ author b = i.
Proof using.
  clear. unfold authors_where. rewrite elem_of_list_to_set, list_elem_of_fmap.
  setoid_rewrite list_elem_of_filter. naive_solver.
Qed.

Lemma authors_where_cons p b bs :
  authors_where p (b :: bs) = (if p b then {[author b]} else ∅) ∪ authors_where p bs.
Proof using.
  clear. unfold authors_where. rewrite filter_cons. destruct (p b); simpl; [done|].
  by rewrite (left_id_L ∅ (∪)).
Qed.

Lemma blame_loop_ok leader bs agg :
  agg_ok c agg → quorate c (votes agg) = false → Forall stored bs →
  blame_loop c leader agg bs = Done (quorate c (votes agg ∪ authors_where (blames leader) bs)).
Proof.
  intros Hagg Hlow Hbs. revert agg Hagg Hlow.
  induction Hbs as [|b bs Hb Hbs IH]; intros agg Hagg Hlow; simpl.
  - replace (votes agg ∪ authors_where (blames leader) []) with (votes agg) by set_solver.
    by rewrite Hlow.
  - rewrite authors_where_cons. fold (blames leader b). destruct (blames leader b).
    + destruct (agg_step c Hwfc agg (author b)) as (agg' & -> & Hvotes & Hagg'); [done|..].
      { by eapply wfd_author. }
      simpl. destruct (quorate c ({[author b]} ∪ votes agg)) eqn:Hq.
      * f_equal. symmetry. eapply quorate_mono; [done| |exact Hq]. set_solver.
      * rewrite IH by (done || by rewrite Hvotes). rewrite Hvotes. do 2 f_equal. set_solver.
    + rewrite IH by done. do 2 f_equal. set_solver.
Qed.

Lemma support_loop_ok l bs agg cache :
  agg_ok c agg → quorate c (votes agg) = false → cache_ok l cache → Forall stored bs →
  support_loop c ds l agg cache bs = Done (quorate c (votes agg ∪ authors_where (is_cert l) bs)).
Proof.
  intros Hagg Hlow Hcache Hbs. revert agg cache Hagg Hlow Hcache.
  induction Hbs as [|b bs Hb Hbs IH]; intros agg cache Hagg Hlow Hcache; simpl.
  - replace (votes agg ∪ authors_where (is_cert l) []) with (votes agg) by set_solver.
    by rewrite Hlow.
  - destruct (is_certificate_ok b l cache Hb Hcache) as (cache' & -> & Hcache'). simpl.
    rewrite authors_where_cons. destruct (is_cert l b).
    + destruct (agg_step c Hwfc agg (author b)) as (agg' & -> & Hvotes & Hagg'); [done|..].
      { by eapply wfd_author. }
      simpl. destruct (quorate c ({[author b]} ∪ votes agg)) eqn:Hq.
      * f_equal. symmetry. eapply quorate_mono; [done| |exact Hq]. set_solver.
      * rewrite IH by (done || by rewrite Hvotes). rewrite Hvotes. do 2 f_equal. set_solver.
    + rewrite IH by done. do 2 f_equal. set_solver.
Qed.
(** * The rules over the blocks of a round *)

(** The accepted blocks of a round. *)
Definition blocks_at (q : Round) : list VerifiedBlock :=
  match get_uncommitted_blocks_at_round ds q with Done l => l | _ => [] end.

Lemma blocks_at_ok q :
  last_commit_round ds < q → 0 ≤ q < u32_max →
  get_uncommitted_blocks_at_round ds q = Done (blocks_at q)
  ∧ NoDup (blocks_at q) ∧ ∀ b, b ∈ blocks_at q ↔ stored b ∧ round b = q.
Proof.
  intros Hlc Hq. unfold blocks_at.
  destruct (blocks_at_round_ok c ds Hwf q Hlc Hq) as (l & -> & ? & ?). done.
Qed.

Lemma blocks_at_stored q :
  last_commit_round ds < q → 0 ≤ q < u32_max → Forall stored (blocks_at q).
Proof.
  intros Hlc Hq. apply Forall_forall. intros b Hb. by apply (blocks_at_ok q Hlc Hq) in Hb as [? _].
Qed.

Lemma enough_leader_blame_ok q leader :
  last_commit_round ds < q → 0 ≤ q < u32_max →
  enough_leader_blame c ds q leader
  = Done (quorate c (authors_where (blames leader) (blocks_at q))).
Proof.
  intros Hlc Hq. unfold enough_leader_blame. rewrite (proj1 (blocks_at_ok q Hlc Hq)). simpl.
  rewrite blame_loop_ok; [|apply agg_new_ok|by apply quorate_empty|by apply blocks_at_stored].
  simpl. by rewrite (left_id_L ∅ (∪)).
Qed.

Lemma stored_length bs :
  NoDup bs → Forall stored bs → (length bs ≤ base.size D)%nat.
Proof.
  intros Hnd Hst. rewrite <-size_dom.
  assert (NoDup (reference <$> bs)) as Hnd'.
  { apply NoDup_fmap_2_strong; [|done]. intros x y Hx Hy Heq.
    rewrite Forall_forall in Hst. pose proof (Hst x Hx) as Hx'. pose proof (Hst y Hy) as Hy'.
    unfold stored in *. rewrite Heq in Hx'. congruence. }
  rewrite <-(length_fmap reference).
  rewrite <-(size_list_to_set (C := gset BlockRef) _ Hnd').
  apply subseteq_size. intros r. rewrite elem_of_list_to_set, list_elem_of_fmap.
  intros (b & -> & Hb). apply elem_of_dom. rewrite Forall_forall in Hst. exists b. by apply Hst.
Qed.

(** The quick-reject sum counts every block, so it is at least the stake of the
    distinct authors among them. *)
Lemma stakes_ok p bs :
  Forall stored bs →
  ∃ st, mapM (λ b, stake_of c (author b)) bs = Done st ∧ Forall (λ z, 0 ≤ z) st
    ∧ sumZ st ≤ Z.of_nat (length bs) * total_stake c
    ∧ stake_in c (in_set (authors_where p bs)) ≤ sumZ st.
Proof.
  induction 1 as [|b bs Hb Hbs (st & Hst & Hpos & Hle & Hsub)].
  - exists []. split; [done|]. split; [done|]. split; [simpl; lia|]. simpl.
    pose proof (agg_sum c _ (agg_new_ok (T := QuorumThreshold) c)) as Hz. simpl in Hz.
    replace (authors_where p []) with (∅ : gset nat) by done. lia.
  - destruct (stake_of_Done c (author b)) as (a & Ha & Hs); [by eapply wfd_author|].
    exists (stake a :: st). simpl. rewrite Hs. simpl. rewrite Hst. simpl. split; [done|].
    assert (0 ≤ stake a).
    { pose proof (wfc_stake c Hwfc) as Hf. rewrite Forall_lookup in Hf. by eapply Hf. }
    assert (∀ s, stake_in c (in_set ({[author b]} ∪ s)) ≤ stake a + stake_in c (in_set s)) as Hins.
    { intros s. destruct (decide (author b ∈ s)) as [Hin|Hin].
      - replace ({[author b]} ∪ s) with s by set_solver. lia.
      - by rewrite (stake_in_insert c s _ _ Ha Hin). }
    pose proof (stake_in_le_total c Hwfc (in_set ({[author b]} ∪ ∅))) as Hone.
    rewrite (stake_in_insert c ∅ _ _ Ha) in Hone by set_solver.
    pose proof (stake_in_nonneg c Hwfc (in_set ∅)).
    split; [by constructor|]. split; [lia|].
    rewrite authors_where_cons. destruct (p b).
    + pose proof (Hins (authors_where p bs)). lia.
    + rewrite (left_id_L ∅ (∪)). lia.
Qed.

(** The number of blocks times the total stake fits in a [u64]: the sum of the
    quick reject does not wrap. *)
Context (Hcount : Z.of_nat (base.size (recent_blocks ds)) * total_stake c ≤ u64_max).

Lemma enough_leader_support_ok q l :
  last_commit_round ds < q → 0 ≤ q < u32_max →
  enough_leader_support c ds q l
  = Done (quorate c (authors_where (is_cert l) (blocks_at q))).
Proof.
  intros Hlc Hq. unfold enough_leader_support. rewrite (proj1 (blocks_at_ok q Hlc Hq)). simpl.
  pose proof (blocks_at_stored q Hlc Hq) as Hst.
  destruct (stakes_ok (is_cert l) _ Hst) as (st & -> & Hpos & Hle & Hsub). simpl.
  assert (sumZ st ≤ u64_max).
  { pose proof (stored_length _ (proj1 (proj2 (blocks_at_ok q Hlc Hq))) Hst).
    pose proof (wfc_pos c Hwfc). nia. }
  rewrite sum64_small by done.
  destruct (reached_quorum c (sumZ st)) eqn:Hrq; simpl.
  - rewrite support_loop_ok; [|apply agg_new_ok|by apply quorate_empty|apply cache_ok_empty|done].
    simpl. by rewrite (left_id_L ∅ (∪)).
  - f_equal. symmetry. apply not_true_iff_false. rewrite quorate_spec.
    unfold reached_quorum in Hrq. bool_prop. lia.
Qed.

(** What [try_direct_decide] and [decide_leader_from_anchor] do with the leader
    blocks they select. *)
Definition pick_leader (ls : list VerifiedBlock) (otherwise : LeaderStatus) : exec LeaderStatus :=
  if bool_decide (1 < length ls)%nat then Panic
  else Done (match last ls with Some b => LCommit b | None => otherwise end).

Definition direct_blamed (s : Slot) : bool :=
  quorate c (authors_where (blames (slot_authority s)) (blocks_at (slot_round s + 1))).
Definition direct_supported (l : VerifiedBlock) : bool :=
  quorate c (authors_where (is_cert l) (blocks_at (round l + 2))).

(** The committer [bc] has a leader at round [r]. *)
Record leads (bc : BaseCommitter) (r : Round) : Prop := {
  leads_committee : committee (bc_context bc) = c;
  leads_wave : wave_length (bc_options bc) = 3;
  leads_offset : is_u32 (round_offset (bc_options bc));
  leads_round : leader_round bc (wave_number bc r) = r;
  leads_bound : 0 ≤ r ≤ u32_max - 6;
}.

Lemma leads_decision_round bc r : leads bc r → decision_round bc (wave_number bc r) = r + 2.
Proof using.
  intros [_ Hw Ho Hl Hr]. clear -Hw Ho Hl Hr.
  unfold decision_round, leader_round in *. rewrite Hw in *.
  set (w := wave_number bc r) in *. set (o := round_offset (bc_options bc)) in *.
  assert (0 ≤ w * 3 ≤ Z.max 0 (r - o)) as Hwr.
  { subst w o. unfold wave_number, saturating_sub. rewrite Hw.
    pose proof (Z.div_mod (Z.max 0 (r - round_offset (bc_options bc))) 3).
    pose proof (Z.mod_pos_bound (Z.max 0 (r - round_offset (bc_options bc))) 3). 
    pose proof (Z.div_pos (Z.max 0 (r - round_offset (bc_options bc))) 3). lia. }
  clearbody w o. rewrite (wrap32_small (w * 3)) in Hl by width.
  rewrite (wrap32_small (w * 3)) by width.
  destruct (Z.le_gt_cases o r) as [Hor|Hor].
  - rewrite (wrap32_small (w * 3 + o)) in Hl by width. subst.
    rewrite (wrap32_small (w * 3 + 3)), (wrap32_small (w * 3 + 3 - 1)), wrap32_small by width. lia.
  - assert (w = 0) as Hw0 by lia. rewrite Hw0 in Hl. rewrite wrap32_small in Hl by width. lia.
Qed.

Lemma try_direct_decide_ok bc s :
  leads bc (slot_round s) → last_commit_round ds ≤ slot_round s →
  try_direct_decide bc ds s
  = if direct_blamed s then Done (LSkip s)
    else pick_leader (filter (λ l, direct_supported l = true) (get_uncommitted_blocks_at_slot ds s))
           (LUndecided s).
Proof.
  intros Hlead Hlc. pose proof (leads_bound _ _ Hlead). unfold try_direct_decide.
  rewrite (leads_committee _ _ Hlead), (leads_decision_round _ _ Hlead).
  rewrite wrap32_small by width. rewrite enough_leader_blame_ok by (lia || width). simpl.
  unfold direct_blamed. destruct (quorate _ _); [done|].
  erewrite filterM_pure; [reflexivity|]. intros l Hl. simpl.
  rewrite enough_leader_support_ok by (lia || width). unfold direct_supported.
  apply (elem_of_blocks_at_slot c ds Hwf) in Hl as [_ <-]. done.
Qed.

Lemma decide_from_anchor_ok bc s anchor :
  leads bc (slot_round s) → last_commit_round ds ≤ slot_round s →
  stored anchor → slot_round s + 3 ≤ round anchor →
  ∃ pcs, (∀ b, b ∈ pcs ↔ stored b ∧ round b = slot_round s + 2 ∧ reach D anchor (reference b)) ∧
    decide_leader_from_anchor bc ds anchor s
    = pick_leader (filter (λ l, existsb (is_cert l) pcs = true) (get_uncommitted_blocks_at_slot ds s))
        (LSkip s).
Proof.
  intros Hlead Hlc Hanchor Hround. pose proof (leads_bound _ _ Hlead).
  destruct (ancestors_at_round_ok c ds anchor (slot_round s + 2)) as (pcs & Hpcs & _ & Hiff);
    [done..|lia|].
  exists pcs. split; [done|]. unfold decide_leader_from_anchor.
  rewrite (leads_committee _ _ Hlead), (leads_decision_round _ _ Hlead), Hpcs. simpl.
  erewrite filterM_pure; [reflexivity|]. intros l _. apply any_certificate_ok; [apply cache_ok_empty|].
  apply Forall_forall. intros b Hb. by apply Hiff in Hb as [? _].
Qed.
End rules.
