(* ===== verification/CommitterAgreement.v ===== *)
(** Safety of the commit rule.

    Two honest validators hold two causally closed views of one global DAG.
    As long as the equivocating authorities hold less than the validity
    threshold of the stake, no two blocks of a slot are certified, a directly
    committed leader is committed from every later anchor, a directly skipped
    leader never is, and the sequences [try_commit] returns to the two
    validators are prefixes of one another.  The committers' [panic!]s on a
    second certified block are unreachable. *)
From S2P Require Import Prelude ConsensusCommittee ConsensusBlock ConsensusDag.
From S2P Require Import ConsensusCommitter CommitterSpec.

(** The authors of the ancestors of [b] at the round before [b]. *)
Definition parent_authors (b : VerifiedBlock) : gset AuthorityIndex :=
  list_to_set (ref_author <$> filter (λ a, ref_round a = round b - 1) (ancestors b)).

(** The BFT assumptions on the DAG of all blocks honest validators accept:
    authorities outside [byz] write one block per round, the stake of [byz] is
    below the validity threshold (f+1), and every block after genesis has a
    quorum of parents. *)
Record bft_dag (c : Committee) (byz : AuthorityIndex → bool) (G : Dag) : Prop := {
  bft_wf : wf_dag c G;
  bft_stake : stake_in c byz < validity_threshold c;
  bft_unique : ∀ r1 r2 b1 b2, G !! r1 = Some b1 → G !! r2 = Some b2 →
    author b1 = author b2 → round b1 = round b2 → byz (author b1) = false → b1 = b2;
  bft_parents : ∀ r b, G !! r = Some b → 0 < round b → quorate c (parent_authors b) = true;
}.

(** A validator's DAG state: a causally closed part of the global DAG, small
    enough for the stake sums. *)
Record view (c : Committee) (G : Dag) (ds : DagState) : Prop := {
  view_sub : recent_blocks ds ⊆ G;
  view_wf : wf_dag c (recent_blocks ds);
  view_count : Z.of_nat (base.size (recent_blocks ds)) * total_stake c ≤ u64_max;
  view_high : 0 ≤ highest_accepted_round ds ≤ u32_max - 4;
}.

(** * Views agree with the global DAG on the history of their blocks *)
Section one_view.
Context (c : Committee) (gs ds : DagState).
Context (Hgwf : wf_dag c (recent_blocks gs)) (Hview : view c (recent_blocks gs) ds).

Abbreviation G := (recent_blocks gs).
Abbreviation D := (recent_blocks ds).

Lemma view_stored b : stored ds b → stored gs b.
Proof. unfold stored. intros Hb. by eapply lookup_weaken, view_sub. Qed.

Lemma view_lookup r b : D !! r = Some b → G !! r = Some b.
Proof. intros Hb. by eapply lookup_weaken, view_sub. Qed.

Lemma find_supported_view fuel slot b :
  stored ds b → find_supported_block fuel ds slot b = find_supported_block fuel gs slot b.
Proof.
  revert b. induction fuel as [|fuel IH]; intros b Hb; simpl; [done|].
  destruct (round b <? slot_round slot); [done|]. apply find_first_ext. intros a Ha.
  case_bool_decide; [done|]. destruct (ref_round a <=? slot_round slot); [done|].
  destruct (wfd_closed c _ (view_wf _ _ _ Hview) _ _ _ Hb Ha) as [b' Hb'].
  unfold get_uncommitted_block. rewrite Hb', (view_lookup _ _ Hb'). simpl. apply IH.
  by eapply (stored_lookup c), Hb'; apply Hview.
Qed.

Lemma supported_view slot b : stored ds b → supported ds slot b = supported gs slot b.
Proof. intros Hb. unfold supported. by rewrite find_supported_view. Qed.

Lemma votes_for_view l r : is_Some (D !! r) → votes_for ds l r = votes_for gs l r.
Proof.
  intros [b Hb]. unfold votes_for. rewrite Hb, (view_lookup _ _ Hb), supported_view; [done|].
  by eapply (stored_lookup c), Hb; apply Hview.
Qed.

Lemma is_cert_view l b : stored ds b → is_cert c ds l b = is_cert c gs l b.
Proof.
  intros Hb. unfold is_cert, voters. do 3 f_equal.
  apply filter_ext_in. intros a Ha.
  rewrite votes_for_view; [done|]. eapply wfd_closed; [apply Hview|done..].
Qed.

Lemma reach_view b r : stored ds b → reach D b r ↔ reach G b r.
Proof.
  intros Hb. split.
  - induction 1 as [b r|b a b' r Hin Ha Hr IH]; [by constructor|].
    eapply reach_step; [done|by apply view_lookup|]. apply IH.
    by eapply (stored_lookup c), Ha; apply Hview.
  - intros Hr. revert Hb. induction Hr as [b r|b a b' r Hin Ha Hr IH]; intros Hb; [by constructor|].
    destruct (wfd_closed c _ (view_wf _ _ _ Hview) _ _ _ Hb Hin) as [b'' Hb''].
    pose proof (view_lookup _ _ Hb'') as Hg. rewrite Ha in Hg. injection Hg as <-.
    eapply reach_step; [done..|]. apply IH. by eapply (stored_lookup c), Hb''; apply Hview.
Qed.

(** The causal history of a block of the view is in the view. *)
Lemma view_closed b r : stored ds b → reach G b r → is_Some (D !! r).
Proof. intros Hb Hr%reach_view; [|done]. eapply (reach_present c); [apply Hview|done..]. Qed.

Lemma view_history b x : stored ds b → stored gs x → reach G b (reference x) → stored ds x.
Proof.
  intros Hb Hx Hr. destruct (view_closed b _ Hb Hr) as [x' Hx'].
  pose proof (view_lookup _ _ Hx') as Hg. unfold stored in *. congruence.
Qed.
End one_view.

(** * Votes, certificates and blames in the global DAG *)
Section global.
Context (c : Committee) (Hwfc : wf_committee c) (byz : AuthorityIndex → bool).
Context (gs : DagState) (Hbft : bft_dag c byz (recent_blocks gs)).

Abbreviation G := (recent_blocks gs).
Let Hwf : wf_dag c G := bft_wf _ _ _ Hbft.

(** A vote within one round of the leader names it among its parents. *)
Lemma vote_direct slot v r :
  stored gs v → round v ≤ slot_round slot + 1 → supported gs slot v = Some r →
  round v = slot_round slot + 1 ∧ r ∈ ancestors v.
Proof.
  intros Hv Hround Hs. pose proof (supported_ok c gs Hwf slot v Hv) as Hfind.
  rewrite Hs in Hfind. unfold support_fuel in Hfind. simpl in Hfind.
  case_test (round v <? slot_round slot) as Hlt; [done|].
  apply find_first_Some in Hfind as (a & Ha & Hfa).
  pose proof (wfd_ancestor c _ Hwf _ _ _ Hv Ha). case_bool_decide as Hslot.
  - injection Hfa as <-. subst slot. simpl in *. split; [lia|done].
  - by rewrite (proj2 (Z.leb_le _ _)) in Hfa by lia.
Qed.

(** A certificate two rounds after the leader collects votes cast in the round
    between them. *)
Lemma cert_voter l b i :
  stored gs b → round b = round l + 2 → i ∈ voters gs l (ancestors b) →
  ∃ v, stored gs v ∧ author v = i ∧ round v = round l + 1 ∧ reference v ∈ ancestors b
    ∧ supported gs (slot_of_ref (reference l)) v = Some (reference l)
    ∧ reference l ∈ ancestors v.
Proof.
  intros Hb Hround (a & Ha & Hvote & <-)%elem_of_voters. unfold votes_for in Hvote.
  destruct (G !! a) as [v|] eqn:Hav; [|done]. bool_prop.
  pose proof (stored_lookup c gs Hwf _ _ Hav) as Hv.
  pose proof (wfd_key c _ Hwf _ _ Hav) as Hkey. subst a.
  pose proof (wfd_ancestor c _ Hwf _ _ _ Hb Ha). simpl in *.
  destruct (vote_direct (slot_of_ref (reference l)) v (reference l)) as [Hr Hin]; [done|simpl; lia|done|].
  exists v. simpl in Hr. by repeat split.
Qed.

Lemma quorate_honest s t :
  quorate c s = true → quorate c t = true →
  ∃ i, i ∈ s ∧ i ∈ t ∧ byz i = false.
Proof.
  rewrite !quorate_spec. intros Hs Ht.
  destruct (quorum_intersection c Hwfc (in_set s) (in_set t) byz) as (i & _ & His & Hit & Hb);
    [apply Hbft|done..|].
  unfold in_set in *. bool_prop. eauto.
Qed.

Lemma quorate_nonempty s : quorate c s = true → ∃ i, i ∈ s.
Proof. intros Hs. destruct (quorate_honest s s Hs Hs) as (i & ? & _). eauto. Qed.

Lemma honest_block b1 b2 :
  stored gs b1 → stored gs b2 → author b1 = author b2 → round b1 = round b2 →
  byz (author b1) = false → b1 = b2.
Proof. intros. by eapply bft_unique. Qed.

(** At most one block of a slot is certified. *)
Lemma cert_unique l1 l2 b1 b2 :
  stored gs l1 → stored gs l2 → slot_of_ref (reference l1) = slot_of_ref (reference l2) →
  stored gs b1 → round b1 = round l1 + 2 → is_cert c gs l1 b1 = true →
  stored gs b2 → round b2 = round l2 + 2 → is_cert c gs l2 b2 = true → l1 = l2.
Proof.
  intros Hl1 Hl2 Hslot Hb1 Hr1 Hc1 Hb2 Hr2 Hc2. injection Hslot as Hround Hauthor. simpl in *.
  destruct (quorate_honest _ _ Hc1 Hc2) as (i & Hi1 & Hi2 & Hbyz).
  apply cert_voter in Hi1 as (v1 & Hv1 & Ha1 & Hvr1 & _ & Hs1 & _); [|done..].
  apply cert_voter in Hi2 as (v2 & Hv2 & Ha2 & Hvr2 & _ & Hs2 & _); [|done..].
  assert (v1 = v2) as -> by (apply honest_block; congruence || lia).
  unfold slot_of_ref in *. simpl in *. rewrite Hround, Hauthor, Hs2 in Hs1.
  injection Hs1 as Hdigest. unfold stored, reference in *. congruence.
Qed.

(** A certificate's leader is in its history. *)
Lemma cert_reaches l b :
  stored gs b → round b = round l + 2 → is_cert c gs l b = true → reach G b (reference l).
Proof.
  intros Hb Hr Hc. destruct (quorate_nonempty _ Hc) as [i Hi].
  apply cert_voter in Hi as (v & Hv & _ & _ & Hin & _ & Hl); [|done..].
  eapply reach_step; [done|exact Hv|]. by constructor.
Qed.

Section blame_and_support.
Context (ds : DagState) (Hview : view c G ds).

Lemma blocks_at_view q b :
  last_commit_round ds < q → 0 ≤ q < u32_max → b ∈ blocks_at ds q → stored ds b ∧ round b = q.
Proof. intros Hlc Hq. apply (blocks_at_ok c ds (view_wf _ _ _ Hview) q Hlc Hq). Qed.

(** A quorum of blames rules out every certificate. *)
Lemma blamed_no_cert s l b :
  last_commit_round ds ≤ slot_round s → 0 ≤ slot_round s ≤ u32_max - 6 →
  direct_blamed c ds s = true → slot_of_ref (reference l) = s →
  stored gs b → round b = slot_round s + 2 → is_cert c gs l b = false.
Proof.
  intros Hlc Hs Hblame Hslot Hb Hround. apply not_true_iff_false. intros Hcert. subst s.
  destruct (quorate_honest _ _ Hblame Hcert) as (i & Hi1 & Hi2 & Hbyz).
  apply elem_of_authors_where in Hi1 as (w & Hw & Hbl & Hwa).
  apply blocks_at_view in Hw as [Hw Hwr]; [|simpl in *; lia|simpl in *; width].
  apply cert_voter in Hi2 as (v & Hv & Hva & Hvr & _ & _ & Hin); [|done..].
  assert (w = v) as ->.
  { apply honest_block; [by eapply view_stored|done|congruence| |congruence]. simpl in *. lia. }
  unfold blames in Hbl. rewrite forallb_forall in Hbl.
  specialize (Hbl _ (proj1 (list_elem_of_In _ _) Hin)). simpl in Hbl.
  by rewrite Nat.eqb_refl in Hbl.
Qed.

(** Every block reaches some block at each earlier round. *)
Lemma reach_down (n : nat) b :
  stored gs b → Z.of_nat n ≤ round b →
  ∃ x, stored gs x ∧ round x = round b - Z.of_nat n ∧ (x = b ∨ reach G b (reference x)).
Proof.
  intros Hb. induction n as [|n IH]; intros Hn.
  - exists b. split; [done|]. split; [lia|by left].
  - destruct IH as (x & Hx & Hr & Hbx); [lia|].
    assert (quorate c (parent_authors x) = true) as Hq.
    { eapply bft_parents; [done|exact Hx|lia]. }
    destruct (quorate_nonempty _ Hq) as [i Hi]. unfold parent_authors in Hi.
    apply elem_of_list_to_set, list_elem_of_fmap in Hi as (a & _ & [Har Ha]%list_elem_of_filter).
    destruct (wfd_closed c _ Hwf _ _ _ Hx Ha) as [y Hy].
    pose proof (wfd_key c _ Hwf _ _ Hy) as Hkey. subst a.
    exists y. split; [done|]. simpl in Har. split; [lia|]. right.
    destruct Hbx as [->|Hbx]; [by constructor|]. eapply reach_trans; [done|exact Hx|by constructor].
Qed.

(** Every later block has a certificate of a directly committed leader in its
    history. *)
Lemma supported_reaches l anchor :
  last_commit_round ds ≤ round l → 0 ≤ round l ≤ u32_max - 6 →
  direct_supported c ds l = true → stored gs anchor → round l + 3 ≤ round anchor →
  ∃ b, stored gs b ∧ round b = round l + 2 ∧ reach G anchor (reference b)
    ∧ is_cert c gs l b = true.
Proof.
  intros Hlc Hl Hsup Ha Hround.
  destruct (reach_down (Z.to_nat (round anchor - (round l + 3))) anchor Ha) as (x & Hx & Hxr & Hax);
    [lia|].
  assert (quorate c (parent_authors x) = true) as Hq.
  { eapply bft_parents; [done|exact Hx|lia]. }
  destruct (quorate_honest _ _ Hsup Hq) as (i & Hi1 & Hi2 & Hbyz).
  apply elem_of_authors_where in Hi1 as (b & Hb & Hcert & Hba).
  apply blocks_at_view in Hb as [Hb Hbr]; [|lia|width].
  unfold parent_authors in Hi2.
  apply elem_of_list_to_set, list_elem_of_fmap in Hi2 as (a & Hai & [Har Hin]%list_elem_of_filter).
  destruct (wfd_closed c _ Hwf _ _ _ Hx Hin) as [y Hy].
  pose proof (wfd_key c _ Hwf _ _ Hy) as Hkey. subst a. simpl in *.
  assert (b = y) as ->.
  { apply honest_block; [by eapply view_stored|done|congruence|lia|congruence]. }
  exists y. split; [done|]. split; [done|]. split.
  - destruct Hax as [->|Hax]; [by constructor|]. eapply reach_trans; [done|exact Hx|by constructor].
  - by rewrite (is_cert_view c gs ds Hview) in Hcert.
Qed.
End blame_and_support.
End global.

(** * Outcomes of the decision rules *)

Lemma pick_leader_ok ls o :
  (∀ x y, x ∈ ls → y ∈ ls → x = y) → NoDup ls →
  pick_leader ls o = Done (match ls with [] => o | b :: _ => LCommit b end).
Proof.
  intros Huniq Hnd. unfold pick_leader. destruct ls as [|x [|y ls]]; [done..|].
  exfalso. assert (x = y) as -> by (apply Huniq; set_solver).
  apply NoDup_cons in Hnd as [Hx _]. set_solver.
Qed.

Section outcomes.
Context (c : Committee) (Hwfc : wf_committee c) (byz : AuthorityIndex → bool).
Context (gs : DagState) (Hbft : bft_dag c byz (recent_blocks gs)).

Abbreviation G := (recent_blocks gs).

(** [l] is a block of slot [s] certified in the history of [anchor]. *)
Definition certified (anchor : VerifiedBlock) (s : Slot) (l : VerifiedBlock) : Prop :=
  stored gs l ∧ slot_of_ref (reference l) = s ∧
  ∃ b, stored gs b ∧ round b = slot_round s + 2 ∧ reach (recent_blocks gs) anchor (reference b)
    ∧ is_cert c gs l b = true.

Lemma certified_unique a1 a2 s l1 l2 : certified a1 s l1 → certified a2 s l2 → l1 = l2.
Proof.
  intros (Hl1 & Hs1 & b1 & Hb1 & Hr1 & _ & Hc1) (Hl2 & Hs2 & b2 & Hb2 & Hr2 & _ & Hc2). subst s.
  injection Hs2 as Hr Ha. simpl in *.
  eapply (cert_unique c Hwfc byz gs Hbft l1 l2 b1 b2); try done; [|lia].
  unfold slot_of_ref. simpl. congruence.
Qed.

Section in_view.
Context (ds : DagState) (Hview : view c G ds).

(** The direct rule takes no decision: no quorum blames the slot and none of its
    blocks has a quorum of certificates. *)
Definition undecided_directly (s : Slot) : Prop :=
  direct_blamed c ds s = false ∧
  ∀ l, stored ds l → slot_of_ref (reference l) = s → direct_supported c ds l = false.

(** The direct rule: a blamed slot, a supported block, or no decision. *)
Lemma direct_outcome bc s :
  leads c bc (slot_round s) → last_commit_round ds ≤ slot_round s →
  ∃ st, try_direct_decide bc ds s = Done st ∧ status_slot st = s ∧
    match st with
    | LCommit l => stored ds l ∧ direct_supported c ds l = true ∧ direct_blamed c ds s = false
    | LSkip _ => direct_blamed c ds s = true
    | LUndecided _ => undecided_directly s
    end.
Proof.
  intros Hlead Hlc. pose proof (leads_bound _ _ _ Hlead) as Hb.
  rewrite (try_direct_decide_ok c Hwfc ds (view_wf _ _ _ Hview) (view_count _ _ _ Hview)) by done.
  destruct (direct_blamed c ds s) eqn:Hblame; [exists (LSkip s); by destruct s|].
  set (ls := filter _ _).
  assert (∀ l, l ∈ ls ↔ stored ds l ∧ slot_of_ref (reference l) = s
    ∧ direct_supported c ds l = true) as Hls.
  { intros l. unfold ls. rewrite list_elem_of_filter.
    rewrite (elem_of_blocks_at_slot c ds (view_wf _ _ _ Hview)). tauto. }
  rewrite pick_leader_ok.
  - destruct ls as [|l ls'] eqn:Els.
    + exists (LUndecided s). split; [done|]. split; [by destruct s|]. split; [done|]. intros l Hl Hs.
      apply not_true_is_false. intros Hd. by apply (not_elem_of_nil l), Hls.
    + destruct (proj1 (Hls l)) as (? & <- & ?); [by left|]. by exists (LCommit l).
  - intros x y (Hx & Hsx & Hdx)%Hls (Hy & Hsy & Hdy)%Hls.
    assert (∀ l, stored ds l → slot_of_ref (reference l) = s → direct_supported c ds l = true →
      ∃ b, stored gs b ∧ round b = round l + 2 ∧ is_cert c gs l b = true) as Hcert.
    { intros l Hl <- Hd. simpl in *.
      destruct (quorate_nonempty c Hwfc byz gs Hbft _ Hd) as [i Hi].
      apply elem_of_authors_where in Hi as (b & Hbl & Hc & _).
      apply (blocks_at_view c gs ds Hview) in Hbl as [Hst Hr]; [|lia|width].
      exists b. rewrite <-(is_cert_view c gs ds Hview) by done.
      split; [by eapply view_stored|done]. }
    destruct (Hcert x) as (bx & ? & ? & ?), (Hcert y) as (by' & ? & ? & ?); try done.
    eapply (cert_unique c Hwfc byz gs Hbft x y bx by'); try done; try by eapply view_stored.
    congruence.
  - apply NoDup_filter, (blocks_at_slot_NoDup c ds (view_wf _ _ _ Hview)).
Qed.

(** The indirect rule: the block certified in the anchor's history, if any. *)
Lemma anchor_outcome bc s anchor :
  leads c bc (slot_round s) → last_commit_round ds ≤ slot_round s →
  stored ds anchor → slot_round s + 3 ≤ round anchor →
  ∃ st, decide_leader_from_anchor bc ds anchor s = Done st ∧ status_slot st = s ∧
    match st with
    | LCommit l => stored ds l ∧ certified anchor s l
    | LSkip _ => ∀ l, ¬ certified anchor s l
    | LUndecided _ => False
    end.
Proof.
  intros Hlead Hlc Ha Hround.
  destruct (decide_from_anchor_ok c Hwfc ds (view_wf _ _ _ Hview) bc s anchor)
    as (pcs & Hpcs & ->); [done..|].
  set (ls := filter _ _).
  assert (∀ l, l ∈ ls ↔ stored ds l ∧ certified anchor s l) as Hls.
  { intros l. subst ls. rewrite list_elem_of_filter, existsb_exists,
      (elem_of_blocks_at_slot c ds (view_wf _ _ _ Hview)).
    setoid_rewrite <-list_elem_of_In. setoid_rewrite Hpcs. split.
    - intros [(b & (Hb & Hr & Hreach) & Hc) [Hl Hs]]. split; [done|].
      split; [by eapply view_stored|]. split; [done|]. exists b.
      rewrite <-(is_cert_view c gs ds Hview) by done.
      rewrite <-(reach_view c gs ds Hview) by done. split; [by eapply view_stored|done].
    - intros [Hl (_ & Hs & b & Hb & Hr & Hreach & Hc)].
      assert (stored ds b) as Hbd by (by eapply (view_history c gs ds Hview anchor)).
      split; [|done]. exists b. rewrite (is_cert_view c gs ds Hview) by done.
      rewrite (reach_view c gs ds Hview) by done. done. }
  rewrite pick_leader_ok.
  - destruct ls as [|l ls'] eqn:Els.
    + exists (LSkip s). split; [done|]. split; [by destruct s|]. intros l Hcert.
      pose proof Hcert as (Hl & Hs & b & Hb & Hr & Hreach & Hc).
      assert (stored ds b) as Hbd by (by eapply (view_history c gs ds Hview anchor)).
      assert (reach G b (reference l)) as Hbl.
      { eapply (cert_reaches c Hwfc byz); [done..| |done]. subst s. simpl in *. lia. }
      assert (stored ds l) as Hld by (by eapply (view_history c gs ds Hview b)).
      assert (l ∈ @nil VerifiedBlock) by (by apply Hls). set_solver.
    + exists (LCommit l). split; [done|].
      assert (stored ds l ∧ certified anchor s l) as [? Hcert] by (apply Hls; by left).
      split; [|done]. by destruct Hcert as (_ & <- & _).
  - intros x y [_ Hx]%Hls [_ Hy]%Hls. by eapply certified_unique.
  - apply NoDup_filter, (blocks_at_slot_NoDup c ds (view_wf _ _ _ Hview)).
Qed.
End in_view.
End outcomes.

(** * Aligned sequences of statuses *)

(** Two sequences for the same slots, up to the end of the shorter one, that
    agree wherever both are decided. *)
Inductive aligned : list LeaderStatus → list LeaderStatus → Prop :=
  | aligned_nil_l l : aligned [] l
  | aligned_nil_r l : aligned l []
  | aligned_cons x y l1 l2 :
      status_slot x = status_slot y →
      (is_decided x = true → is_decided y = true → x = y) →
      aligned l1 l2 → aligned (x :: l1) (y :: l2).
#[export] Hint Constructors aligned : mango.

Lemma aligned_sym l1 l2 : aligned l1 l2 → aligned l2 l1.
Proof. induction 1; constructor; auto. intros. symmetry. auto. Qed.

Lemma aligned_refl l : aligned l l.
Proof. induction l; by constructor. Qed.

Lemma aligned_filter (P : Z → Prop) `{!∀ z, base.Decision (P z)} l1 l2 :
  aligned l1 l2 →
  aligned (filter (λ x, P (status_round x)) l1) (filter (λ x, P (status_round x)) l2).
Proof.
  induction 1 as [| |x y l1 l2 Hs Heq Hal IH]; [constructor..|].
  assert (status_round x = status_round y) as Hr by (by injection Hs).
  rewrite !filter_cons, Hr. case_decide; [by apply aligned_cons|done].
Qed.

(** The decided prefixes of aligned sequences are prefixes of one another. *)
Lemma aligned_decided_prefix l1 l2 :
  aligned l1 l2 →
  take_while is_decided l1 `prefix_of` take_while is_decided l2
  ∨ take_while is_decided l2 `prefix_of` take_while is_decided l1.
Proof.
  induction 1 as [l|l|x y l1 l2 Hs Heq Hal IH]; simpl.
  - left. apply prefix_nil.
  - right. apply prefix_nil.
  - destruct (is_decided x) eqn:Hx, (is_decided y) eqn:Hy.
    + rewrite Heq by done. destruct IH; [left|right]; by apply prefix_cons.
    + right. apply prefix_nil.
    + left. apply prefix_nil.
    + left. apply prefix_nil.
Qed.

(** The anchor [try_indirect_decide] settles on. *)
Fixpoint find_anchor (l : list LeaderStatus) : option VerifiedBlock :=
  match l with
  | [] => None
  | LCommit a :: _ => Some a
  | LSkip _ :: l => find_anchor l
  | LUndecided _ :: _ => None
  end.

Lemma anchor_loop_find bc ds s l :
  anchor_loop bc ds s l
  = match find_anchor l with
    | Some a => decide_leader_from_anchor bc ds a s
    | None => Done (LUndecided s)
    end.
Proof. induction l as [|[b|s'|s'] l IH]; simpl; done. Qed.

Lemma find_anchor_elem l a : find_anchor l = Some a → LCommit a ∈ l.
Proof.
  induction l as [|[b|s'|s'] l IH]; simpl; [done| |by right; auto|done].
  intros [= ->]. by left.
Qed.

Lemma find_anchor_aligned l1 l2 a1 a2 :
  aligned l1 l2 → find_anchor l1 = Some a1 → find_anchor l2 = Some a2 → a1 = a2.
Proof.
  induction 1 as [| |x y l1 l2 Hs Heq Hal IH]; [done..|].
  destruct x as [b1|s1|s1], y as [b2|s2|s2]; simpl in *; try done.
  - intros [= ->] [= ->]. specialize (Heq eq_refl eq_refl). by injection Heq.
  - by specialize (Heq eq_refl eq_refl).
  - by specialize (Heq eq_refl eq_refl).
Qed.

(** * One leader *)
Section leader_agreement.
Context (c : Committee) (Hwfc : wf_committee c) (byz : AuthorityIndex → bool).
Context (gs : DagState) (Hbft : bft_dag c byz (recent_blocks gs)).

Abbreviation G := (recent_blocks gs).

(** Why a leader got its status; [anchors] are the later leaders the indirect
    rule scanned.  Every case but the first two is one in which the direct rule
    takes no decision, and no decision at all means there is no anchor. *)
Inductive outcome (ds : DagState) (s : Slot) (anchors : list LeaderStatus) : LeaderStatus → Prop :=
  | out_direct_commit l :
      stored ds l → slot_of_ref (reference l) = s → direct_supported c ds l = true →
      direct_blamed c ds s = false → outcome ds s anchors (LCommit l)
  | out_direct_skip : direct_blamed c ds s = true → outcome ds s anchors (LSkip s)
  | out_anchor_commit a l :
      undecided_directly c ds s → find_anchor anchors = Some a → stored ds l → certified c gs a s l →
      outcome ds s anchors (LCommit l)
  | out_anchor_skip a :
      undecided_directly c ds s → find_anchor anchors = Some a → (∀ l, ¬ certified c gs a s l) →
      outcome ds s anchors (LSkip s)
  | out_undecided :
      undecided_directly c ds s → find_anchor anchors = None → outcome ds s anchors (LUndecided s).

Definition anchors_of (s : Slot) (leaders : list LeaderStatus) : list LeaderStatus :=
  filter (λ x, slot_round s + 3 ≤ status_round x) leaders.

(** Committed leaders are blocks of the view. *)
Definition commits_stored (ds : DagState) (l : list LeaderStatus) : Prop :=
  ∀ b, LCommit b ∈ l → stored ds b.

Lemma anchors_of_commit ds s leaders a :
  commits_stored ds leaders → find_anchor (anchors_of s leaders) = Some a →
  stored ds a ∧ slot_round s + 3 ≤ round a.
Proof.
  intros Hst Ha%find_anchor_elem. unfold anchors_of in Ha.
  apply list_elem_of_filter in Ha as [Hr Hin]. split; [by apply Hst|done].
Qed.

Lemma decide_leader_outcome bc ds s leaders :
  view c G ds → leads c bc (slot_round s) → last_commit_round ds ≤ slot_round s →
  commits_stored ds leaders.*1 →
  ∃ st d, decide_leader bc ds s leaders = Done (st, d) ∧ status_slot st = s
    ∧ outcome ds s (anchors_of s leaders.*1) st ∧ commits_stored ds [st].
Proof.
  intros Hview Hlead Hlc Hst. pose proof (leads_bound _ _ _ Hlead).
  assert (∀ st, (∀ b, st = LCommit b → stored ds b) → commits_stored ds [st]) as Hcs.
  { intros st Hb b Hin%list_elem_of_singleton. by apply Hb. }
  unfold decide_leader.
  destruct (direct_outcome c Hwfc byz gs Hbft ds Hview bc s) as (st & -> & Hslot & Hout); [done..|].
  simpl. destruct st as [l|s'|s']; simpl.
  - destruct Hout as (? & ? & ?). exists (LCommit l), Direct. split; [done|]. split; [done|].
    split; [by constructor|]. apply Hcs. by intros ? [= <-].
  - assert (s' = s) as -> by (rewrite <-Hslot; by destruct s').
    exists (LSkip s), Direct. split; [done|]. split; [done|]. split; [by constructor|]. by apply Hcs.
  - unfold try_indirect_decide. rewrite (leads_wave _ _ _ Hlead), wrap32_small by width.
    fold (anchors_of s leaders.*1). rewrite anchor_loop_find.
    destruct (find_anchor (anchors_of s leaders.*1)) as [a|] eqn:Hfa; simpl.
    + destruct (anchors_of_commit _ _ _ _ Hst Hfa) as [Ha Hr].
      destruct (anchor_outcome c Hwfc byz gs Hbft ds Hview bc s a) as (st & -> & Hslot' & Hout');
        [done..|].
      exists st, Indirect. split; [done|]. split; [done|].
      destruct st as [l|s''|s'']; [destruct Hout'|..|done].
      * split; [by eapply out_anchor_commit|]. apply Hcs. by intros ? [= <-].
      * assert (s'' = s) as -> by (rewrite <-Hslot'; by destruct s'').
        split; [by eapply out_anchor_skip|]. by apply Hcs.
    + exists (LUndecided s), Indirect. split; [done|]. split; [by destruct s|].
      split; [by constructor|]. by apply Hcs.
Qed.

(** A committed leader has a certificate. *)
Lemma outcome_commit_cert ds s anchors l :
  view c G ds → last_commit_round ds ≤ slot_round s → 0 ≤ slot_round s ≤ u32_max - 6 →
  outcome ds s anchors (LCommit l) →
  stored gs l ∧ slot_of_ref (reference l) = s ∧
  ∃ b, stored gs b ∧ round b = slot_round s + 2 ∧ is_cert c gs l b = true.
Proof.
  intros Hview Hlc Hs Hout. inversion Hout as [? Hl <- Hd _| |a ? _ Hfa Hl Hcert| |]; subst.
  - split; [by eapply view_stored|]. split; [done|]. simpl in *.
    destruct (quorate_nonempty c Hwfc byz gs Hbft _ Hd) as [i Hi].
    apply elem_of_authors_where in Hi as (b & Hbl & Hc & _).
    apply (blocks_at_view c gs ds Hview) in Hbl as [Hst Hr]; [|lia|width].
    exists b. rewrite <-(is_cert_view c gs ds Hview) by done. split; [by eapply view_stored|done].
  - destruct Hcert as (? & ? & b & ? & ? & _ & ?). eauto 10.
Qed.

(** A leader one validator commits, another does not skip. *)
Lemma outcome_commit_skip ds1 ds2 s T1 T2 l s' :
  view c G ds1 → view c G ds2 →
  last_commit_round ds1 ≤ slot_round s → last_commit_round ds2 ≤ slot_round s →
  0 ≤ slot_round s ≤ u32_max - 6 →
  (∀ a, find_anchor T2 = Some a → stored ds2 a ∧ slot_round s + 3 ≤ round a) → aligned T1 T2 →
  outcome ds1 s T1 (LCommit l) → outcome ds2 s T2 (LSkip s') → False.
Proof.
  intros Hv1 Hv2 Hlc1 Hlc2 Hs Hanchor Hal Hout1 Hout2.
  destruct (outcome_commit_cert ds1 s T1 l) as (Hl & Hslot & b & Hb & Hbr & Hc); [done..|].
  inversion Hout2 as [|Hblame| |a2 _ Hfa2 Hnone|]; subst s'.
  - pose proof (blamed_no_cert c Hwfc byz gs Hbft ds2 Hv2 s l b Hlc2 Hs Hblame Hslot Hb Hbr).
    congruence.
  - destruct (Hanchor a2 Hfa2) as [Ha2 Hr2].
    inversion Hout1 as [? Hl1 Hs1 Hd1 _| |a1 ? _ Hfa1 Hl1 Hcert1| |]; subst.
    + simpl in *.
      destruct (supported_reaches c Hwfc byz gs Hbft ds1 Hv1 l a2) as (b' & ? & ? & ? & ?);
        [done..|by eapply view_stored|done|].
      apply (Hnone l). split; [done|]. split; [done|]. eauto.
    + rewrite (find_anchor_aligned _ _ _ _ Hal Hfa1 Hfa2) in Hcert1. by apply (Hnone l).
Qed.

Lemma outcome_agree ds1 ds2 s L1 L2 st1 st2 :
  view c G ds1 → view c G ds2 →
  last_commit_round ds1 ≤ slot_round s → last_commit_round ds2 ≤ slot_round s →
  0 ≤ slot_round s ≤ u32_max - 6 →
  commits_stored ds1 L1 → commits_stored ds2 L2 → aligned L1 L2 →
  outcome ds1 s (anchors_of s L1) st1 → outcome ds2 s (anchors_of s L2) st2 →
  is_decided st1 = true → is_decided st2 = true → st1 = st2.
Proof.
  intros Hv1 Hv2 Hlc1 Hlc2 Hs Hst1 Hst2 Hal Hout1 Hout2 Hd1 Hd2.
  assert (aligned (anchors_of s L1) (anchors_of s L2)) as Hal'
    by (by apply (aligned_filter (λ z, slot_round s + 3 ≤ z))).
  destruct st1 as [l1|s1|s1], st2 as [l2|s2|s2]; try done.
  - destruct (outcome_commit_cert _ _ _ _ Hv1 Hlc1 Hs Hout1) as (Hl1 & Hs1 & b1 & Hb1 & Hr1 & Hc1).
    destruct (outcome_commit_cert _ _ _ _ Hv2 Hlc2 Hs Hout2) as (Hl2 & Hs2 & b2 & Hb2 & Hr2 & Hc2).
    subst s. injection Hs2 as Hr Ha. simpl in *. f_equal.
    eapply (cert_unique c Hwfc byz gs Hbft l1 l2 b1 b2); try done; [|lia].
    unfold slot_of_ref. simpl. congruence.
  - exfalso. eapply (outcome_commit_skip ds1 ds2); eauto using anchors_of_commit.
  - exfalso. eapply (outcome_commit_skip ds2 ds1); eauto using anchors_of_commit, aligned_sym.
  - inversion Hout1; inversion Hout2; congruence.
Qed.

Lemma decided_undecided ds s T st :
  outcome ds s T st → outcome ds s T (LUndecided s) → is_decided st = false.
Proof.
  intros Hout Hu. inversion Hu as [| | | |Hnone Hfa]; subst. destruct Hnone as [Hnb Hns].
  inversion Hout as [l Hl Hs Hd|Hb| | |]; subst; try congruence.
  - rewrite Hns in Hd; done.
  - done.
Qed.
(** The rules leave no choice. *)
Lemma outcome_unique ds s L st st' :
  view c G ds → last_commit_round ds ≤ slot_round s → 0 ≤ slot_round s ≤ u32_max - 6 →
  commits_stored ds L →
  outcome ds s (anchors_of s L) st → outcome ds s (anchors_of s L) st' → st = st'.
Proof.
  intros Hv Hlc Hs Hst Hout Hout'.
  assert (∀ st, outcome ds s (anchors_of s L) st → is_decided st = false → st = LUndecided s) as Hund.
  { by intros ? [] ?. }
  destruct (is_decided st) eqn:Hd, (is_decided st') eqn:Hd'.
  - by apply (outcome_agree ds ds s L L); try apply aligned_refl.
  - rewrite (Hund st' Hout' Hd') in Hout'. by rewrite (decided_undecided _ _ _ _ Hout Hout') in Hd.
  - rewrite (Hund st Hout Hd) in Hout. by rewrite (decided_undecided _ _ _ _ Hout' Hout) in Hd'.
  - by rewrite (Hund st Hout Hd), (Hund st' Hout' Hd').
Qed.
End leader_agreement.
