(* ===== verification/DagExample.v ===== *)
(** A concrete DAG for the consensus theorems.

    Four authorities of equal stake over six rounds, of which the last one
    equivocates in round 1; the DAG assumptions are checked by evaluation with
    the boolean [dag_check] below.  Two validators see different parts of
    it. *)
From S2P Require Import Prelude ConsensusCommittee ConsensusBlock ConsensusDag.
From S2P Require Import ConsensusCommitter CommitterSpec CommitterAgreement.

(** * Checking the DAG assumptions by evaluation *)

Definition block_check (c : Committee) (D : Dag) (r : BlockRef) (b : VerifiedBlock) : bool :=
  bool_decide (reference b = r) && bool_decide (author b < committee_size c)%nat
  && (0 <=? round b) && (round b <=? u32_max - 4)
  && (DIGEST_MIN <=? vb_digest b) && (vb_digest b <=? DIGEST_MAX)
  && forallb (λ a, (ref_round a <? round b) && bool_decide (is_Some (D !! a))) (ancestors b).

Definition wf_check (c : Committee) (D : Dag) : bool :=
  forallb (λ x, block_check c D x.1 x.2) (map_to_list D).

Definition bft_check (c : Committee) (byz : AuthorityIndex → bool) (G : Dag) : bool :=
  wf_check c G && (stake_in c byz <? validity_threshold c)
  && forallb (λ x, forallb (λ y,
       negb (bool_decide (author x.2 = author y.2)) || negb (round x.2 =? round y.2)
       || byz (author x.2) || bool_decide (x.1 = y.1)) (map_to_list G)) (map_to_list G)
  && forallb (λ x, (round x.2 <=? 0) || quorate c (parent_authors x.2)) (map_to_list G).

Definition view_check (c : Committee) (ds : DagState) : bool :=
  wf_check c (recent_blocks ds)
  && (Z.of_nat (base.size (recent_blocks ds)) * total_stake c <=? u64_max)
  && (0 <=? highest_accepted_round ds) && (highest_accepted_round ds <=? u32_max - 4).

Lemma forallb_map {A} (p : BlockRef * A → bool) (D : gmap BlockRef A) r b :
  forallb p (map_to_list D) = true → D !! r = Some b → p (r, b) = true.
Proof.
  rewrite forallb_forall. intros Hp Hb. apply Hp, list_elem_of_In. by apply elem_of_map_to_list.
Qed.

Ltac checked :=
  repeat match goal with
  | H : (_ && _)%bool = true |- _ => apply andb_prop in H as [? ?]
  | H : bool_decide _ = true |- _ => apply bool_decide_eq_true in H
  | H : (_ <=? _) = true |- _ => apply Z.leb_le in H
  | H : (_ <? _) = true |- _ => apply Z.ltb_lt in H
  end.

Lemma wf_check_ok c D : wf_check c D = true → wf_dag c D.
Proof.
  intros Hc. unfold wf_check in Hc.
  assert (∀ r b, D !! r = Some b → block_check c D r b = true) as Hb
    by (intros r b HD; exact (forallb_map _ _ _ _ Hc HD)).
  unfold block_check in Hb.
  split; intros r b; [| | | |intros a HD Ha|intros a HD Ha]; try (intros HD);
    specialize (Hb r b HD); checked; try done.
  all: match goal with H : forallb _ _ = true |- _ =>
      rewrite forallb_forall in H; specialize (H a (proj1 (list_elem_of_In _ _) Ha)) end.
  all: by checked.
Qed.

Lemma bft_check_ok c byz G : bft_check c byz G = true → bft_dag c byz G.
Proof.
  unfold bft_check. intros Hc. checked.
  match goal with H : wf_check _ _ = true |- _ => apply wf_check_ok in H as Hwf end.
  split; [done|done| |].
  - intros r1 r2 b1 b2 HG1 HG2 Ha Hr Hbyz.
    match goal with H : context [bool_decide (author _ = author _)] |- _ =>
      pose proof (forallb_map _ _ _ _ (forallb_map _ _ _ _ H HG1) HG2) as Hu end.
    simpl in Hu. rewrite bool_decide_true, Hr, Z.eqb_refl, Hbyz in Hu by done. simpl in Hu.
    apply bool_decide_eq_true in Hu as ->. congruence.
  - intros r b Hb Hr.
    match goal with H : context [quorate] |- _ => pose proof (forallb_map _ _ _ _ H Hb) as Hq end.
    simpl in Hq. apply orb_prop in Hq as [Hq|Hq]; [apply Z.leb_le in Hq; lia|done].
Qed.

Lemma view_check_ok c G ds :
  recent_blocks ds ⊆ G → view_check c ds = true → view c G ds.
Proof.
  unfold view_check. intros Hsub Hc. checked. split; [done|by apply wf_check_ok|done|done].
Qed.

(** * The example *)

Definition example_authority : Authority := mkAuthority 1 "" "" "" "".
Definition example_committee : Committee :=
  mkCommittee 0 4 3 2 (replicate 4 example_authority).

(** The digest tells the blocks of a slot apart. *)
Definition example_block (r : Round) (a : AuthorityIndex) (d : Z) (parents : list BlockRef) :
    VerifiedBlock :=
  mkVerified (mkSigned (V1 (mkBlockV1 0 r a r parents [])) []) d [].

Definition parents_of (r : Round) : list BlockRef :=
  (λ a, mkRef r a (Z.of_nat a)) <$> (if r =? 1 then [0;1;2]%nat else [0;1;2;3]%nat).

(** One block per authority and round; in round 1 the last authority writes a
    second block. *)
Definition example_round (r : Round) : list VerifiedBlock :=
  (λ a, example_block r a (Z.of_nat a) (if r =? 0 then [] else parents_of (r - 1))) <$> seq 0 4.
Definition equivocation : VerifiedBlock := example_block 1 3 77 (parents_of 0).

Definition example_blocks : list VerifiedBlock :=
  mbind (λ r, example_round (Z.of_nat r)) (seq 0 7) ++ [equivocation].
Definition example_dag : Dag := list_to_map ((λ b, (reference b, b)) <$> example_blocks).

(** A state that has accepted the blocks up to a round, with or without the
    equivocation. *)
Definition example_state (own : AuthorityIndex) (hi : Round) (both : bool) : DagState :=
  mkDagState (mkContext own example_committee)
    (filter (λ x, (ref_round x.1 <=? hi) && (both || negb (ref_digest x.1 =? 77)) = true)%bool
       example_dag) [] None hi.

Definition example_byz (a : AuthorityIndex) : bool := (a =? 3)%nat.

(** Everything, and what two validators see of it. *)
Definition example_global : DagState := example_state 0 6 true.
Definition example_view1 : DagState := example_state 0 4 false.
Definition example_view2 : DagState := example_state 1 6 true.

(** A sampler that rotates the choices by the round in the seed. *)
Definition rotate_sampler (seed : list Z) (choices : list (AuthorityIndex * Stake)) (n : nat) :
    option (list (AuthorityIndex * Stake)) :=
  let k := (Z.to_nat (default 0%Z (seed !! 28%nat)) mod length choices)%nat in
  Some (take n (drop k choices ++ take k choices)).

Lemma example_committee_wf : wf_committee example_committee.
Proof. by split; try done; repeat constructor. Qed.

Lemma example_bft : bft_dag example_committee example_byz (recent_blocks example_global).
Proof. apply bft_check_ok. vm_compute. reflexivity. Qed.

Lemma example_view1_ok : view example_committee (recent_blocks example_global) example_view1.
Proof.
  apply view_check_ok; [|vm_compute; reflexivity].
  apply map_subseteq_spec. intros r b. simpl. rewrite !map_lookup_filter_Some. simpl.
  intros [Hb Hr]. split; [done|]. bool_prop. rewrite andb_true_r. apply Z.leb_le. lia.
Qed.

Lemma example_view2_ok : view example_committee (recent_blocks example_global) example_view2.
Proof. apply view_check_ok; [done|]. vm_compute. reflexivity. Qed.
