(* ===== verification/TryCommit.v ===== *)
(** Agreement of [UniversalCommitter::try_commit].

    The loops of [try_commit] are rewritten as one scan over the leader slots
    after the last decided one ([decide_seq]); two validators that run it on
    their own views of one DAG get aligned sequences, so the leaders they
    output are prefixes of one another, and neither call panics.  The last
    part derives the assumptions on the base committers from
    [UniversalCommitterBuilder::build]. *)
From S2P Require Import Prelude ConsensusCommittee ConsensusBlock ConsensusDag.
From S2P Require Import ConsensusCommitter CommitterSpec CommitterAgreement DagExample.

(** * The loops of [try_commit] as one scan *)
Section sequence.
Context `{!WeightedSampler}.

(** The leaders of [ss], in ascending order, decided from the last one down. *)
Fixpoint decide_seq (ds : DagState) (ss : list (BaseCommitter * Slot))
    (leaders : list (LeaderStatus * Decision)) : exec (list (LeaderStatus * Decision)) :=
  match ss with
  | [] => Done leaders
  | (bc, s) :: ss =>
      l ← decide_seq ds ss leaders;
      st ← decide_leader bc ds s l;
      Done (st :: l)
  end.

(** The same in the order of the code, with its break. *)
Fixpoint commit_flat (ds : DagState) (last_decided : Slot) (ss : list (BaseCommitter * Slot))
    (leaders : list (LeaderStatus * Decision)) : exec (bool * list (LeaderStatus * Decision)) :=
  match ss with
  | [] => Done (false, leaders)
  | (bc, s) :: ss =>
      if bool_decide (s = last_decided) then Done (true, leaders)
      else
        st ← decide_leader bc ds s leaders;
        commit_flat ds last_decided ss (st :: leaders)
  end.

Definition elected_of (bc : BaseCommitter) (r : Round) : option Slot :=
  match elect_leader bc r with Done o => o | _ => None end.

Definition elects (bc : BaseCommitter) (r : Round) : Prop := ∃ o, elect_leader bc r = Done o.

Definition elected_slots (cs : list BaseCommitter) (r : Round) : list (BaseCommitter * Slot) :=
  omap (λ bc, pair bc <$> elected_of bc r) cs.

(** The leader slots of the rounds [lo] to [hi], in order. *)
Definition schedule (cs : list BaseCommitter) (lo hi : Z) : list (BaseCommitter * Slot) :=
  concat (elected_slots cs <$> seqZ lo (hi - lo + 1)).

(** The longest suffix of a list on which [p] holds. *)
Definition suffix_while {A} (p : A → bool) (l : list A) : list A := rev (take_while p (rev l)).

Definition not_last (last_decided : Slot) (x : BaseCommitter * Slot) : bool :=
  negb (bool_decide (x.2 = last_decided)).

Lemma decide_seq_snoc ds ss bc s leaders :
  decide_seq ds (ss ++ [(bc, s)]) leaders
  = (st ← decide_leader bc ds s leaders; decide_seq ds ss (st :: leaders)).
Proof.
  induction ss as [|[bc' s'] ss IH]; simpl; [done|].
  rewrite IH. by destruct (decide_leader bc ds s leaders).
Qed.

Lemma decide_seq_app ds ss1 ss2 leaders :
  decide_seq ds (ss1 ++ ss2) leaders
  = (l ← decide_seq ds ss2 leaders; decide_seq ds ss1 l).
Proof.
  induction ss1 as [|[bc s] ss1 IH]; simpl.
  - by destruct (decide_seq ds ss2 leaders).
  - rewrite IH. by destruct (decide_seq ds ss2 leaders).
Qed.

Lemma commit_flat_app ds last_decided ss1 ss2 leaders :
  commit_flat ds last_decided (ss1 ++ ss2) leaders
  = ('(broke, l) ← commit_flat ds last_decided ss1 leaders;
     if (broke : bool) then Done (true, l) else commit_flat ds last_decided ss2 l).
Proof.
  revert leaders. induction ss1 as [|[bc s] ss1 IH]; intros leaders; simpl; [done|].
  case_bool_decide; [done|]. destruct (decide_leader bc ds s leaders); simpl; auto.
Qed.

Lemma commit_flat_seq ds last_decided ss leaders :
  snd <$> commit_flat ds last_decided ss leaders
  = decide_seq ds (rev (take_while (not_last last_decided) ss)) leaders.
Proof.
  revert leaders. induction ss as [|[bc s] ss IH]; intros leaders; simpl; [done|].
  unfold not_last at 1. simpl. case_bool_decide; simpl; [done|].
  rewrite decide_seq_snoc. destruct (decide_leader bc ds s leaders); simpl; auto.
Qed.

Lemma commit_round_flat cs ds last_decided r leaders :
  (∀ bc, bc ∈ cs → elects bc r) →
  commit_round cs ds last_decided r leaders
  = commit_flat ds last_decided (elected_slots cs r) leaders.
Proof.
  revert leaders. induction cs as [|bc cs IH]; intros leaders Hcs; simpl; [done|].
  destruct (Hcs bc) as [o Ho]; [by left|].
  assert (∀ bc', bc' ∈ cs → elects bc' r) by (intros; apply Hcs; by right).
  unfold elected_slots. simpl. unfold elected_of at 1. rewrite Ho. simpl.
  destruct o as [s|]; simpl; [|by apply IH].
  case_bool_decide; [done|]. destruct (decide_leader bc ds s leaders); simpl; [|done..].
  by apply IH.
Qed.

Lemma commit_rounds_flat cs ds last_decided rounds leaders :
  (∀ bc r, bc ∈ cs → r ∈ rounds → elects bc r) →
  commit_rounds cs ds last_decided rounds leaders
  = snd <$> commit_flat ds last_decided (concat (elected_slots cs <$> rounds)) leaders.
Proof.
  revert leaders. induction rounds as [|r rounds IH]; intros leaders Hcs; [done|].
  rewrite fmap_cons. simpl. rewrite commit_round_flat by (intros; apply Hcs; [done|by left]).
  rewrite commit_flat_app.
  destruct (commit_flat ds last_decided (elected_slots cs r) leaders) as [[[] l]| |]; simpl; [done| |done..].
  apply IH. intros. apply Hcs; [done|by right].
Qed.

Lemma elected_slots_rev cs r : elected_slots (rev cs) r = rev (elected_slots cs r).
Proof.
  unfold elected_slots. induction cs as [|bc cs IH]; simpl; [done|].
  rewrite omap_app, IH. simpl. destruct (elected_of bc r); simpl; [done|]. apply app_nil_r.
Qed.

Lemma concat_rev {A B} (f g : A → list B) l :
  (∀ x, f x = rev (g x)) → concat (f <$> rev l) = rev (concat (g <$> l)).
Proof.
  intros Hf. induction l as [|x l IH]; [done|].
  simpl rev. rewrite fmap_app, concat_app, IH. simpl. by rewrite rev_app_distr, app_nil_r, Hf.
Qed.

Lemma commit_rounds_seq cs ds last_decided lo hi :
  (∀ bc r, bc ∈ cs → lo ≤ r ≤ hi → elects bc r) →
  commit_rounds (rev cs) ds last_decided (rev (seqZ lo (hi - lo + 1))) []
  = decide_seq ds (suffix_while (not_last last_decided) (schedule cs lo hi)) [].
Proof.
  intros Hcs. rewrite commit_rounds_flat.
  - rewrite (concat_rev _ (elected_slots cs)) by apply elected_slots_rev.
    apply commit_flat_seq.
  - intros bc r. rewrite !elem_of_rev, elem_of_seqZ. intros Hbc Hr. apply Hcs; [done|lia].
Qed.

(** ** Suffixes *)

Lemma take_while_prefix {A} (p : A → bool) l : take_while p l `prefix_of` l.
Proof.
  induction l as [|x l IH]; simpl; [done|]. destruct (p x); [by apply prefix_cons|apply prefix_nil].
Qed.

Lemma take_while_all {A} (p : A → bool) l1 l2 :
  (∀ x, x ∈ l1 → p x = true) → take_while p (l1 ++ l2) = l1 ++ take_while p l2.
Proof.
  induction l1 as [|x l1 IH]; intros Hp; simpl; [done|].
  rewrite (Hp x) by by left. f_equal. apply IH. intros. apply Hp. by right.
Qed.

Lemma suffix_while_elem {A} (p : A → bool) l x : x ∈ suffix_while p l → x ∈ l.
Proof.
  unfold suffix_while. rewrite elem_of_rev. intros Hx.
  destruct (take_while_prefix p (rev l)) as [k Hk].
  apply elem_of_rev. rewrite Hk. apply elem_of_app. by left.
Qed.

Lemma suffix_while_app {A} (p : A → bool) l1 l2 :
  (∀ x, x ∈ l2 → p x = true) → suffix_while p (l1 ++ l2) = suffix_while p l1 ++ l2.
Proof.
  intros Hp. unfold suffix_while. rewrite rev_app_distr, take_while_all.
  - by rewrite rev_app_distr, rev_involutive.
  - intros x. rewrite elem_of_rev. apply Hp.
Qed.

Lemma elem_of_schedule cs lo hi bc s :
  (bc, s) ∈ schedule cs lo hi ↔
  ∃ r, lo ≤ r ≤ hi ∧ bc ∈ cs ∧ elected_of bc r = Some s.
Proof.
  unfold schedule. rewrite list_elem_of_In, in_concat. setoid_rewrite <-list_elem_of_In.
  split.
  - intros (l & Hl & Hin). apply list_elem_of_fmap in Hl as (r & -> & Hr%elem_of_seqZ).
    apply list_elem_of_omap in Hin as (bc' & Hbc & Hs). exists r.
    destruct (elected_of bc' r) eqn:He; simplify_eq/=. split; [lia|done].
  - intros (r & Hr & Hbc & He). exists (elected_slots cs r). split.
    + apply list_elem_of_fmap. exists r. split; [done|]. apply elem_of_seqZ. lia.
    + apply list_elem_of_omap. exists bc. by rewrite He.
Qed.

Lemma schedule_split cs lo mid hi :
  lo ≤ mid + 1 → mid ≤ hi →
  schedule cs lo hi = schedule cs lo mid ++ schedule cs (mid + 1) hi.
Proof.
  intros H1 H2. unfold schedule.
  replace (hi - lo + 1) with ((mid - lo + 1) + (hi - (mid + 1) + 1)) by lia.
  rewrite seqZ_app, fmap_app, concat_app by lia.
  by replace (lo + (mid - lo + 1)) with (mid + 1) by lia.
Qed.
End sequence.

(** * Two validators *)

(** Base committers over one committee, with the default wave length, whose
    leader election is total. *)
Definition good_committers `{!WeightedSampler} (c : Committee) (cs : list BaseCommitter) : Prop :=
  ∀ bc, bc ∈ cs →
    committee (bc_context bc) = c ∧ wave_length (bc_options bc) = 3 ∧
    is_u32 (round_offset (bc_options bc)) ∧ ∀ r, elects bc r.

(** Committers that differ only in the identity of the validator. *)
Definition same_committer (bc1 bc2 : BaseCommitter) : Prop :=
  bc_options bc1 = bc_options bc2 ∧ committee (bc_context bc1) = committee (bc_context bc2).

Lemma same_committers_sym cs1 cs2 :
  Forall2 same_committer cs1 cs2 → Forall2 same_committer cs2 cs1.
Proof. induction 1 as [|? ? ? ? []]; constructor; by try split. Qed.

Section agreement.
Context `{!WeightedSampler}.
Context (c : Committee) (Hwfc : wf_committee c) (byz : AuthorityIndex → bool).
Context (gs : DagState) (Hbft : bft_dag c byz (recent_blocks gs)).

Abbreviation G := (recent_blocks gs).

(** What a scan needs of its slots. *)
Definition slots_ok (ds : DagState) (ss : list (BaseCommitter * Slot)) : Prop :=
  ∀ bc s, (bc, s) ∈ ss → leads c bc (slot_round s) ∧ last_commit_round ds ≤ slot_round s.

Lemma elected_leads cs bc r s :
  good_committers c cs → bc ∈ cs → 0 ≤ r ≤ u32_max - 6 → elected_of bc r = Some s →
  slot_round s = r ∧ leads c bc r.
Proof.
  intros Hgood Hbc Hr He. destruct (Hgood bc Hbc) as (Hc & Hw & Ho & Htot).
  unfold elected_of, elect_leader in He.
  case_test (leader_round bc (wave_number bc r) =? r) as Hl; simpl in He; [|done].
  destruct (schedule_elect_leader _ _ _); simplify_eq/=. done.
Qed.

Lemma schedule_ok cs ds lo hi :
  good_committers c cs → 0 ≤ lo → hi ≤ u32_max - 6 → last_commit_round ds ≤ lo →
  slots_ok ds (schedule cs lo hi).
Proof.
  intros Hgood Hlo Hhi Hlc bc s Hin. apply elem_of_schedule in Hin as (r & Hr & Hbc & He).
  destruct (elected_leads cs bc r s) as [<- ?]; [done|done|lia|done|]. split; [done|lia].
Qed.

Lemma slots_ok_cons ds bc s ss :
  slots_ok ds ((bc, s) :: ss) →
  leads c bc (slot_round s) ∧ last_commit_round ds ≤ slot_round s ∧ slots_ok ds ss.
Proof.
  intros Hok. destruct (Hok bc s) as [? ?]; [by left|]. split; [done|]. split; [done|].
  intros bc' s' Hin. apply Hok. by right.
Qed.

Lemma commits_stored_cons ds st l :
  commits_stored ds [st] → commits_stored ds l → commits_stored ds (st :: l).
Proof.
  intros H1 H2 b [<-|Hb]%elem_of_cons; [apply H1; by left|by apply H2].
Qed.

(** The scan never panics, and covers exactly its slots. *)
Lemma decide_seq_total ds ss leaders :
  view c G ds → slots_ok ds ss → commits_stored ds leaders.*1 →
  ∃ xs, decide_seq ds ss leaders = Done (xs ++ leaders)
    ∧ status_slot <$> xs.*1 = ss.*2 ∧ commits_stored ds (xs ++ leaders).*1.
Proof.
  intros Hview. induction ss as [|[bc s] ss IH]; intros Hok Hst; [by exists []|].
  apply slots_ok_cons in Hok as (Hlead & Hlc & Hok).
  destruct (IH Hok Hst) as (xs & Hxs & Hslots & Hst').
  destruct (decide_leader_outcome c Hwfc byz gs Hbft bc ds s (xs ++ leaders))
    as (st & d & Hd & Hslot & _ & Hst''); [done..|].
  exists ((st, d) :: xs). simpl. rewrite Hxs. simpl. rewrite Hd. simpl.
  split; [done|]. split; [rewrite Hslot; f_equal; exact Hslots|]. by apply commits_stored_cons.
Qed.

(** The statuses of consecutive slots, each given by the commit rule from the
    statuses of the later ones. *)
Inductive judged (ds : DagState) : list Slot → list LeaderStatus → Prop :=
  | judged_nil : judged ds [] []
  | judged_cons s ss st L :
      judged ds ss L → status_slot st = s → outcome c gs ds s (anchors_of s L) st →
      judged ds (s :: ss) (st :: L).

Lemma decide_seq_judged ds ss :
  view c G ds → slots_ok ds ss →
  ∃ xs, decide_seq ds ss [] = Done xs ∧ judged ds ss.*2 xs.*1 ∧ commits_stored ds xs.*1.
Proof.
  intros Hview. induction ss as [|[bc s] ss IH]; intros Hok.
  { exists []. split; [done|]. split; [constructor|]. by intros ? ?%not_elem_of_nil. }
  apply slots_ok_cons in Hok as (Hlead & Hlc & Hok).
  destruct (IH Hok) as (xs & Hxs & Hj & Hst).
  destruct (decide_leader_outcome c Hwfc byz gs Hbft bc ds s xs)
    as (st & d & Hd & Hslot & Hout & Hst'); [done..|].
  exists ((st, d) :: xs). simpl. rewrite Hxs. simpl. rewrite Hd. simpl.
  split; [done|]. split; [by constructor|]. by apply commits_stored_cons.
Qed.
(** The rule determines them. *)
Lemma judged_unique ds ss L L' :
  view c G ds → slots_ok ds ss → commits_stored ds L →
  judged ds ss.*2 L → judged ds ss.*2 L' → L' = L.
Proof.
  intros Hview. revert L L'. induction ss as [|[bc s] ss IH]; intros L L' Hok Hst HL HL'.
  { inversion HL. inversion HL'. done. }
  apply slots_ok_cons in Hok as (Hlead & Hlc & Hok).
  inversion HL as [|? ? st M HM _ Ho]; subst. inversion HL' as [|? ? st' M' HM' _ Ho']; subst.
  assert (commits_stored ds M) as HstM by (intros b Hb; apply Hst; by right).
  rewrite (IH M M') in * by done. f_equal.
  by apply (outcome_unique c Hwfc byz gs Hbft ds s M); try apply (leads_bound c bc).
Qed.

(** On the same slots, two views extend aligned sequences to aligned ones. *)
Lemma decide_seq_aligned ds1 ds2 ss1 ss2 L1 L2 M1 M2 :
  view c G ds1 → view c G ds2 → slots_ok ds1 ss1 → slots_ok ds2 ss2 → ss1.*2 = ss2.*2 →
  commits_stored ds1 L1.*1 → commits_stored ds2 L2.*1 → aligned L1.*1 L2.*1 →
  decide_seq ds1 ss1 L1 = Done M1 → decide_seq ds2 ss2 L2 = Done M2 →
  aligned M1.*1 M2.*1.
Proof.
  intros Hv1 Hv2. revert ss2 M1 M2.
  induction ss1 as [|[bc1 s] ss1 IH]; intros [|[bc2 s2] ss2] M1 M2 Hok1 Hok2 Hslots Hst1 Hst2 Hal
    HM1 HM2; simplify_eq/=; [done|].
  apply slots_ok_cons in Hok1 as (Hlead1 & Hlc1 & Hok1).
  apply slots_ok_cons in Hok2 as (Hlead2 & Hlc2 & Hok2).
  destruct (decide_seq_total ds1 ss1 L1) as (xs1 & Hxs1 & _ & Hxst1); [done..|].
  destruct (decide_seq_total ds2 ss2 L2) as (xs2 & Hxs2 & _ & Hxst2); [done..|].
  pose proof (IH _ _ _ Hok1 Hok2 ltac:(done) Hst1 Hst2 Hal Hxs1 Hxs2) as Hal'.
  rewrite Hxs1 in HM1. rewrite Hxs2 in HM2. simpl in *.
  destruct (decide_leader_outcome c Hwfc byz gs Hbft bc1 ds1 s2 (xs1 ++ L1))
    as (st1 & d1 & Hd1 & Hs1 & Ho1 & _); [done..|].
  destruct (decide_leader_outcome c Hwfc byz gs Hbft bc2 ds2 s2 (xs2 ++ L2))
    as (st2 & d2 & Hd2 & Hs2 & Ho2 & _); [done..|].
  rewrite Hd1 in HM1. rewrite Hd2 in HM2. injection HM1 as <-. injection HM2 as <-. simpl.
  apply aligned_cons; [congruence| |done].
  intros. eapply (outcome_agree c Hwfc byz gs Hbft ds1 ds2 s2); try done.
  by apply (leads_bound c bc1).
Qed.

(** ** Putting the call together *)

(** What [try_commit] hands out of the decided sequence. *)
Definition output (leaders : list (LeaderStatus * Decision)) : list LeaderStatus :=
  (take_while (λ x, is_decided x.1) (filter (λ x, 0 < status_round x.1) leaders)).*1.

Lemma output_statuses leaders :
  output leaders = take_while is_decided (filter (λ x, 0 < status_round x) leaders.*1).
Proof.
  unfold output. induction leaders as [|[st d] l IH]; [done|].
  rewrite fmap_cons, !filter_cons. simpl. case_decide; [|done].
  simpl. destruct (is_decided st); [|done]. rewrite fmap_cons. simpl. by f_equal.
Qed.

Lemma output_aligned l1 l2 :
  aligned l1.*1 l2.*1 →
  output l1 `prefix_of` output l2 ∨ output l2 `prefix_of` output l1.
Proof.
  intros Hal. rewrite !output_statuses.
  by apply aligned_decided_prefix, (aligned_filter (λ z, 0 < z)).
Qed.

Definition top_round (ds : DagState) : Round := saturating_sub (highest_accepted_round ds) 2.

Definition pending (cs : list BaseCommitter) (ds : DagState) (last_decided : Slot) :
    list (BaseCommitter * Slot) :=
  suffix_while (not_last last_decided) (schedule cs (slot_round last_decided) (top_round ds)).

Lemma try_commit_seq uc ds last_decided :
  view c G ds → good_committers c (committers uc) → 0 ≤ slot_round last_decided →
  try_commit uc ds last_decided
  = (leaders ← decide_seq ds (pending (committers uc) ds last_decided) []; Done (output leaders)).
Proof.
  intros Hview Hgood Hlo. unfold try_commit. rewrite commit_rounds_seq; [done|].
  intros bc r Hbc Hr. by apply Hgood.
Qed.

Lemma top_round_bound ds : view c G ds → top_round ds ≤ u32_max - 6.
Proof. intros [_ _ _ Hh]. unfold top_round, saturating_sub. width. Qed.

Lemma pending_ok cs ds last_decided :
  view c G ds → good_committers c cs → 0 ≤ slot_round last_decided →
  last_commit_round ds ≤ slot_round last_decided →
  slots_ok ds (pending cs ds last_decided).
Proof.
  intros Hview Hgood Hlo Hlc bc s Hin%suffix_while_elem.
  eapply (schedule_ok cs ds _ (top_round ds)); try done. by apply top_round_bound.
Qed.

Lemma pending_slots cs1 cs2 lo hi last_decided :
  Forall2 same_committer cs1 cs2 →
  (suffix_while (not_last last_decided) (schedule cs1 lo hi)).*2
  = (suffix_while (not_last last_decided) (schedule cs2 lo hi)).*2.
Proof using.
  clear. intros Hcs.
  assert (∀ A : list (BaseCommitter * Slot), (suffix_while (not_last last_decided) A).*2
    = suffix_while (λ s, negb (bool_decide (s = last_decided))) A.*2) as Hsuf.
  { intros A. unfold suffix_while. rewrite <-!(map_rev snd). f_equal.
    induction (rev A) as [|[bc s] l IH]; [done|]. simpl. unfold not_last at 1. simpl.
    case_bool_decide; simpl; [done|]. by rewrite fmap_app, IH. }
  rewrite !Hsuf. f_equal. unfold schedule.
  induction (seqZ lo (hi - lo + 1)) as [|r rs IH]; [done|].
  rewrite !fmap_cons. simpl. rewrite !fmap_app, IH. f_equal. clear IH.
  induction Hcs as [|bc1 bc2 cs1 cs2 [Ho Hc] Hcs IH']; [done|].
  unfold elected_slots. simpl.
  assert (elected_of bc1 r = elected_of bc2 r) as ->.
  { unfold elected_of, elect_leader, schedule_elect_leader, elect_leader_stake_based,
      leader_round, wave_number. by rewrite Ho, Hc. }
  destruct (elected_of bc2 r); simpl; [f_equal|]; exact IH'.
Qed.

Lemma try_commit_aligned cs1 cs2 ds1 ds2 last_decided M1 M2 :
  view c G ds1 → view c G ds2 →
  good_committers c cs1 → good_committers c cs2 → Forall2 same_committer cs1 cs2 →
  0 ≤ slot_round last_decided →
  last_commit_round ds1 ≤ slot_round last_decided →
  last_commit_round ds2 ≤ slot_round last_decided →
  top_round ds1 ≤ top_round ds2 →
  decide_seq ds1 (pending cs1 ds1 last_decided) [] = Done M1 →
  decide_seq ds2 (pending cs2 ds2 last_decided) [] = Done M2 →
  aligned M1.*1 M2.*1.
Proof.
  intros Hv1 Hv2 Hg1 Hg2 Hsame Hlo Hlc1 Hlc2 Htop HM1 HM2.
  assert (slots_ok ds1 (pending cs1 ds1 last_decided)) as Hok1 by (by apply pending_ok).
  assert (slots_ok ds2 (pending cs2 ds2 last_decided)) as Hok2 by (by apply pending_ok).
  destruct (decide (slot_round last_decided ≤ top_round ds1)) as [Hle|Hgt]; last first.
  { unfold pending, schedule in HM1. rewrite seqZ_nil in HM1 by lia.
    simpl in HM1. simplify_eq. constructor. }
  unfold pending in HM2, Hok2.
  rewrite (schedule_split cs2 _ (top_round ds1) (top_round ds2)), suffix_while_app in HM2, Hok2
    by (lia || (intros [bc s] (r & Hr & Hbc & He)%elem_of_schedule; unfold not_last; simpl;
      rewrite bool_decide_false; [done|intros ->];
      destruct (elected_leads cs2 bc r last_decided) as [? _]; try done;
      pose proof (top_round_bound ds2 Hv2); lia)).
  set (E := schedule cs2 (top_round ds1 + 1) (top_round ds2)) in *.
  rewrite decide_seq_app in HM2.
  assert (slots_ok ds2 E) as HokE by (intros bc s Hin; apply Hok2, elem_of_app; by right).
  destruct (decide_seq_total ds2 E []) as (L2 & HL2 & _ & HstL2); [done..|by intros ? ?%not_elem_of_nil|].
  rewrite HL2 in HM2. simpl in HM2.
  eapply decide_seq_aligned; [exact Hv1|exact Hv2|exact Hok1| | |
    | exact HstL2| |exact HM1|exact HM2].
  - intros bc s Hin. apply Hok2, elem_of_app. by left.
  - by apply pending_slots.
  - by intros ? ?%not_elem_of_nil.
  - constructor.
Qed.

(** The output [out] of a call, given the statuses [statuses] of the scheduled
    slots after the last decided one: leaving the genesis round aside, it is the
    longest prefix of the statuses that are decided. *)
Definition longest_decided (statuses out : list LeaderStatus) : Prop :=
  Forall (λ st, is_decided st = true) out ∧
  ∃ rest, filter (λ x, 0 < status_round x) statuses = out ++ rest ∧
    ∀ st, head rest = Some st → is_decided st = false.

Lemma take_while_longest statuses :
  longest_decided statuses (take_while is_decided (filter (λ x, 0 < status_round x) statuses)).
Proof using.
  clear. unfold longest_decided. induction (filter _ statuses) as [|x l [IH (rest & Hl & Hr)]]; simpl.
  { split; [done|]. by exists []. }
  destruct (is_decided x) eqn:Hx.
  - split; [by constructor|]. exists rest. by rewrite Hl at 1.
  - split; [done|]. exists (x :: l). split; [done|]. by intros ? [= <-].
Qed.

Lemma try_commit_result uc ds last_decided :
  view c G ds → good_committers c (committers uc) → 0 ≤ slot_round last_decided →
  last_commit_round ds ≤ slot_round last_decided →
  ∃ M, decide_seq ds (pending (committers uc) ds last_decided) [] = Done M
    ∧ try_commit uc ds last_decided = Done (output M)
    ∧ judged ds (pending (committers uc) ds last_decided).*2 M.*1
    ∧ (∀ L, judged ds (pending (committers uc) ds last_decided).*2 L → L = M.*1)
    ∧ commits_stored ds (output M).
Proof.
  intros Hv Hg Hlo Hlc. rewrite try_commit_seq by done.
  assert (slots_ok ds (pending (committers uc) ds last_decided)) as Hok by (by apply pending_ok).
  destruct (decide_seq_judged ds (pending (committers uc) ds last_decided)) as (xs & -> & Hj & Hst); [done..|].
  exists xs. split_and!; [done..| |].
  - intros L HL. by apply (judged_unique ds (pending (committers uc) ds last_decided)).
  - rewrite output_statuses. destruct (take_while_longest xs.*1) as [_ (rest & Hl & _)].
    intros b Hb. apply Hst. assert (LCommit b ∈ filter (λ x, 0 < status_round x) xs.*1) as Hin.
    { rewrite Hl. apply elem_of_app. by left. }
    by apply list_elem_of_filter in Hin as [_ ?].
Qed.
End agreement.

(** * The committers [build] makes *)

(** What [choose_multiple_weighted] documents: with non-negative weights,
    asking for as many items as there are gives them all, in some order. *)
Class SamplerLaws `{!WeightedSampler} : Prop :=
  sampler_complete seed choices :
    Forall (λ x, 0 ≤ x.2) choices →
    ∃ l, choose_multiple_weighted seed choices (length choices) = Some l ∧ l ≡ₚ choices.

Section builder.
Context `{!WeightedSampler, !SamplerLaws} (c : Committee) (Hwfc : wf_committee c).

Lemma elect_stake_based_total ctx r offset :
  committee ctx = c → (Z.to_nat offset < committee_size c)%nat →
  ∃ a, elect_leader_stake_based ctx r offset = Done a ∧ (a < committee_size c)%nat.
Proof.
  intros Hc Ho. unfold elect_leader_stake_based. rewrite Hc, bool_decide_true by done.
  set (choices := (λ '(i, a), (i, stake a)) <$> authorities_iter c).
  set (seed := replicate 28 0 ++ to_le_bytes32 r). clearbody seed. simpl.
  assert (length choices = committee_size c) as Hlen.
  { unfold choices, authorities_iter. by rewrite length_fmap, length_imap. }
  destruct (sampler_complete seed choices) as (l & Hl & Hperm).
  { apply Forall_fmap, Forall_forall. intros [i a] Hin. simpl.
    apply elem_of_lookup_imap in Hin as (j & x & [= -> ->] & Hx).
    by eapply (Forall_lookup_1 _ _ _ _ (wfc_stake c Hwfc)). }
  rewrite <-Hlen, Hl. simpl.
  assert (is_Some (l !! Z.to_nat offset)) as [[i w] Hi].
  { apply lookup_lt_is_Some. rewrite Hperm, Hlen. done. }
  rewrite (drop_S _ _ _ Hi). simpl. exists i. split; [done|]. rewrite Hlen.
  assert ((i, w) ∈ choices) as Hin by (rewrite <-Hperm; by eapply list_elem_of_lookup_2).
  apply list_elem_of_fmap in Hin as ([i' a] & [= -> ->] & Hin).
  apply elem_of_lookup_imap in Hin as (j & x & [= -> ->] & Hx). by eapply lookup_lt_Some.
Qed.

Definition builder_ok (b : UniversalCommitterBuilder) : Prop :=
  committee (ub_context b) = c ∧ ub_wave_length b = DEFAULT_WAVE_LENGTH
  ∧ (ub_number_of_leaders b ≤ committee_size c)%nat.

(** The options of the committers, stage by stage. *)
Definition build_options (b : UniversalCommitterBuilder) : list BaseCommitterOptions :=
  '(ro, lo) ← (ro ← seqZ 0 (if ub_pipeline b then ub_wave_length b else 1);
               lo ← seqZ 0 (Z.of_nat (ub_number_of_leaders b)); [(ro, lo)]);
  [mkOptions (ub_wave_length b) (wrap32 lo) ro].

Lemma build_committers b :
  builder_ok b → build b = Done (mkUniversal (mkBase (ub_context b) <$> build_options b)).
Proof using.
  clear. intros (_ & Hw & _). unfold build, build_options.
  set (ps := mbind _ (seqZ 0 (if ub_pipeline b then _ else _))).
  assert (mapM (λ '(ro, lo), BaseCommitter_new (ub_context b)
      (mkOptions (ub_wave_length b) (wrap32 lo) ro)) ps
    = Done (mkBase (ub_context b) <$>
        ('(ro, lo) ← ps; [mkOptions (ub_wave_length b) (wrap32 lo) ro]))) as ->; [|done].
  induction ps as [|[ro lo] ps IH]; [done|]. simpl. rewrite IH. unfold BaseCommitter_new. simpl.
  by rewrite Hw.
Qed.

Lemma elem_of_build_options b o :
  o ∈ build_options b →
  wave_length o = ub_wave_length b ∧
  0 ≤ round_offset o < Z.max 1 (ub_wave_length b) ∧
  ∃ lo, leader_offset o = wrap32 lo ∧ 0 ≤ lo < Z.of_nat (ub_number_of_leaders b).
Proof using.
  clear. unfold build_options. intros Ho.
  apply list_elem_of_bind in Ho as ([ro lo] & Ho & Hin). apply list_elem_of_singleton in Ho as ->.
  apply list_elem_of_bind in Hin as (ro' & Hin & Hro%elem_of_seqZ).
  apply list_elem_of_bind in Hin as (lo' & Hin & Hlo%elem_of_seqZ).
  apply list_elem_of_singleton in Hin as [= -> ->]. simpl.
  split; [done|]. split; [destruct (ub_pipeline b); lia|]. exists lo'. split; [done|lia].
Qed.

Lemma build_good b uc :
  builder_ok b → build b = Done uc → good_committers c (committers uc).
Proof.
  intros Hok Hb. rewrite build_committers in Hb by done. simplify_eq. simpl.
  destruct Hok as (Hc & Hw & Hn). pose proof (wfc_size c Hwfc).
  intros bc Hin. apply list_elem_of_fmap in Hin as (o & -> & Ho).
  apply elem_of_build_options in Ho as (Hwl & Hro & lo & Hlo & Hlob). simpl.
  rewrite Hw in *. split; [done|]. split; [done|]. unfold DEFAULT_WAVE_LENGTH in *.
  unfold MINIMUM_WAVE_LENGTH in *. split; [width|].
  intros r. unfold elects, elect_leader. simpl.
  destruct (negb _); [by eexists|]. unfold schedule_elect_leader.
  rewrite Hlo, wrap32_small by width.
  destruct (elect_stake_based_total (ub_context b) r lo) as (a & -> & _); [done|lia|].
  by eexists.
Qed.

Lemma build_same b1 b2 uc1 uc2 :
  builder_ok b1 → builder_ok b2 → ub_number_of_leaders b1 = ub_number_of_leaders b2 →
  ub_pipeline b1 = ub_pipeline b2 → build b1 = Done uc1 → build b2 = Done uc2 →
  Forall2 same_committer (committers uc1) (committers uc2).
Proof using.
  clear. intros Hok1 Hok2 Hn Hp H1 H2. rewrite build_committers in H1, H2 by done.
  simplify_eq. simpl. destruct Hok1 as (Hc1 & Hw1 & _), Hok2 as (Hc2 & Hw2 & _).
  assert (build_options b1 = build_options b2) as ->.
  { unfold build_options. by rewrite Hn, Hp, Hw1, Hw2. }
  apply Forall2_fmap, Forall_Forall2_diag, Forall_true. intros o. split; simpl; [done|congruence].
Qed.
End builder.

(** * The theorems *)
Section theorems.
Context `{!WeightedSampler, !SamplerLaws} (c : Committee) (byz : AuthorityIndex → bool).
Context (gs : DagState).

(** C1: Agreement.  Two validators whose committers are built alike, each with
    its own view of one DAG in which less than a validity threshold of the
    stake equivocates, call [try_commit] from the same last decided leader:
    both calls return, and of the two sequences of committed and skipped
    leaders one is a prefix of the other. *)
Theorem try_commit_agreement b1 b2 uc1 uc2 ds1 ds2 last_decided :
  wf_committee c → bft_dag c byz (recent_blocks gs) →
  view c (recent_blocks gs) ds1 → view c (recent_blocks gs) ds2 →
  builder_ok c b1 → builder_ok c b2 →
  ub_number_of_leaders b1 = ub_number_of_leaders b2 → ub_pipeline b1 = ub_pipeline b2 →
  build b1 = Done uc1 → build b2 = Done uc2 →
  0 ≤ slot_round last_decided →
  last_commit_round ds1 ≤ slot_round last_decided →
  last_commit_round ds2 ≤ slot_round last_decided →
  ∃ out1 out2, try_commit uc1 ds1 last_decided = Done out1
    ∧ try_commit uc2 ds2 last_decided = Done out2
    ∧ (out1 `prefix_of` out2 ∨ out2 `prefix_of` out1).
Proof.
  intros Hwfc Hbft Hv1 Hv2 Hb1 Hb2 Hn Hp H1 H2 Hlo Hlc1 Hlc2.
  pose proof (build_good c Hwfc b1 uc1 Hb1 H1) as Hg1.
  pose proof (build_good c Hwfc b2 uc2 Hb2 H2) as Hg2.
  pose proof (build_same c b1 b2 uc1 uc2 Hb1 Hb2 Hn Hp H1 H2) as Hsame.
  destruct (try_commit_result c Hwfc byz gs Hbft uc1 ds1 last_decided) as (M1 & HM1 & -> & _);
    [done..|].
  destruct (try_commit_result c Hwfc byz gs Hbft uc2 ds2 last_decided) as (M2 & HM2 & -> & _);
    [done..|].
  exists (output M1), (output M2). split; [done|]. split; [done|]. apply output_aligned.
  destruct (Z.le_ge_cases (top_round ds1) (top_round ds2)) as [Hle|Hge].
  - by apply (try_commit_aligned c Hwfc byz gs Hbft (committers uc1) (committers uc2)
      ds1 ds2 last_decided).
  - apply aligned_sym.
    apply (try_commit_aligned c Hwfc byz gs Hbft (committers uc2) (committers uc1)
      ds2 ds1 last_decided); try done. by apply same_committers_sym.
Qed.

(** C8: Total and exact correctness of one call: [build] succeeds, [try_commit]
    neither panics (no second certified block, no inverted range, no missing
    ancestor) nor runs out of fuel, and its result is determined by the commit
    rule.  Every scheduled slot after the last decided one, up to two rounds below the highest
    accepted one, has exactly one status: committed or skipped when a quorum
    certifies or blames it, otherwise what the anchor says, the first committed
    leader three rounds later or more with only skipped ones before it, and undecided when there is
    no anchor.  The output is the longest prefix of these statuses that is
    decided, the genesis round aside, and every committed block is one of the view. *)
Theorem try_commit_complete b ds last_decided :
  wf_committee c → bft_dag c byz (recent_blocks gs) → view c (recent_blocks gs) ds →
  builder_ok c b → 0 ≤ slot_round last_decided →
  last_commit_round ds ≤ slot_round last_decided →
  ∃ uc out statuses, build b = Done uc ∧ try_commit uc ds last_decided = Done out
    ∧ (∀ L, judged c gs ds (pending (committers uc) ds last_decided).*2 L ↔ L = statuses)
    ∧ longest_decided statuses out ∧ commits_stored ds out.
Proof.
  intros Hwfc Hbft Hv Hb Hlo Hlc. pose proof (build_committers c b Hb) as Hbuild.
  pose proof (build_good c Hwfc b _ Hb Hbuild) as Hg.
  destruct (try_commit_result c Hwfc byz gs Hbft _ ds last_decided Hv Hg Hlo Hlc)
    as (M & _ & Hout & Hj & Hu & Hst).
  eexists _, _, M.*1. split_and!; [done..| | |done].
  - intros L. split; [apply Hu|by intros ->].
  - rewrite output_statuses. apply take_while_longest.
Qed.

(** C17: Direct decisions persist.  A leader one validator commits or skips by
    the direct rule gets the same status from the indirect rule of every
    validator, whatever anchor of a later wave it uses. *)
Theorem direct_decision_persists bc1 bc2 ds1 ds2 s st anchor :
  wf_committee c → bft_dag c byz (recent_blocks gs) →
  view c (recent_blocks gs) ds1 → view c (recent_blocks gs) ds2 →
  leads c bc1 (slot_round s) → leads c bc2 (slot_round s) →
  last_commit_round ds1 ≤ slot_round s → last_commit_round ds2 ≤ slot_round s →
  try_direct_decide bc1 ds1 s = Done st → is_decided st = true →
  stored ds2 anchor → slot_round s + 3 ≤ round anchor →
  decide_leader_from_anchor bc2 ds2 anchor s = Done st.
Proof.
  intros Hwfc Hbft Hv1 Hv2 Hl1 Hl2 Hlc1 Hlc2 Hdirect Hdec Ha Hround.
  pose proof (leads_bound _ _ _ Hl1) as Hs.
  destruct (direct_outcome c Hwfc byz gs Hbft ds1 Hv1 bc1 s) as (st' & Hst' & Hslot & Hout); [done..|].
  rewrite Hdirect in Hst'. injection Hst' as <-.
  destruct (anchor_outcome c Hwfc byz gs Hbft ds2 Hv2 bc2 s anchor) as (st2 & -> & Hslot2 & Hout2); [done..|].
  f_equal. destruct st as [l|s1|s1]; [|destruct st2 as [l2|s2|s2]|]; try done.
  - assert (certified c gs anchor s l) as Hcert.
    { destruct Hout as (Hl & Hsup & _). subst s.
      destruct (supported_reaches c Hwfc byz gs Hbft ds1 Hv1 l anchor) as (b & Hb & Hbr & Hreach & Hcert);
        [done..|by apply (view_stored c gs ds2)|done|].
      split; [by apply (view_stored c gs ds1)|]. split; [done|]. by exists b. }
    destruct st2 as [l2|s2|s2]; [|by destruct (Hout2 l)|done]. destruct Hout2 as [_ Hcert2].
    f_equal. by eapply (certified_unique c Hwfc byz gs Hbft anchor anchor s).
  - destruct Hout2 as (_ & _ & Hls & b & Hb & Hbr & _ & Hcert).
    pose proof (blamed_no_cert c Hwfc byz gs Hbft ds1 Hv1 s l2 b Hlc1 Hs Hout Hls Hb Hbr). congruence.
  - f_equal. destruct s1, s2. unfold status_slot in *. simpl in *. congruence.
Qed.

(** The walk through the DAG is exact and ends: on a causally closed state
    [ancestors_at_uncommitted_round] returns, without repetition, exactly the
    blocks of the earlier round in the causal history of the later block; the
    number of cached blocks bounds its iterations, and no block it needs is
    missing. *)
Theorem ancestors_exact ds later earlier_round :
  wf_dag c (recent_blocks ds) → stored ds later →
  last_commit_round ds < earlier_round < round later →
  ∃ l, ancestors_at_uncommitted_round ds later earlier_round = Done l ∧ NoDup l ∧
    ∀ b, b ∈ l ↔ stored ds b ∧ round b = earlier_round
                 ∧ reach (recent_blocks ds) later (reference b).
Proof. apply (ancestors_at_round_ok c). Qed.
End theorems.

(** * The theorems on the example DAG *)

#[local] Instance example_sampler : WeightedSampler := rotate_sampler.

#[local] Instance example_sampler_laws : SamplerLaws.
Proof.
  intros seed choices _. eexists. split; [reflexivity|].
  rewrite take_ge; [|rewrite length_app, length_drop, length_take; lia].
  rewrite Permutation_app_comm. by rewrite take_drop.
Qed.

Definition example_builder (own : AuthorityIndex) : UniversalCommitterBuilder :=
  with_pipeline (builder_new (mkContext own example_committee)) true.

Definition example_committer (own : AuthorityIndex) : UniversalCommitter :=
  mkUniversal (mkBase (mkContext own example_committee) <$> build_options (example_builder own)).

Lemma example_builder_ok own : builder_ok example_committee (example_builder own).
Proof. split; [reflexivity|]. split; [reflexivity|]. vm_compute. lia. Qed.

Lemma try_commit_agreement_witness :
  ∃ out1 out2, try_commit (example_committer 0) example_view1 (mkSlot 0 0) = Done out1
    ∧ try_commit (example_committer 1) example_view2 (mkSlot 0 0) = Done out2
    ∧ (out1 `prefix_of` out2 ∨ out2 `prefix_of` out1).
Proof.
  apply (try_commit_agreement example_committee example_byz example_global
    (example_builder 0) (example_builder 1)).
  - exact example_committee_wf.
  - exact example_bft.
  - exact example_view1_ok.
  - exact example_view2_ok.
  - apply example_builder_ok.
  - apply example_builder_ok.
  - reflexivity.
  - reflexivity.
  - vm_compute. reflexivity.
  - vm_compute. reflexivity.
  - simpl. lia.
  - vm_compute. discriminate.
  - vm_compute. discriminate.
Defined.

Lemma try_commit_complete_witness :
  ∃ uc out statuses, build (example_builder 1) = Done uc
    ∧ try_commit uc example_view2 (mkSlot 0 0) = Done out
    ∧ (∀ L, judged example_committee example_global example_view2
         (pending (committers uc) example_view2 (mkSlot 0 0)).*2 L ↔ L = statuses)
    ∧ longest_decided statuses out ∧ commits_stored example_view2 out.
Proof.
  apply (try_commit_complete example_committee example_byz example_global (example_builder 1)).
  - exact example_committee_wf.
  - exact example_bft.
  - exact example_view2_ok.
  - apply example_builder_ok.
  - simpl. lia.
  - vm_compute. discriminate.
Defined.

(** On the example the two validators decide the leaders of rounds 1 and 2, and
    1 to 4. *)
Example try_commit_example :
  (fmap status_slot : list _ → list _) <$> try_commit (example_committer 0) example_view1 (mkSlot 0 0)
    = Done [mkSlot 1 1; mkSlot 2 2]
  ∧ (fmap status_slot : list _ → list _) <$> try_commit (example_committer 1) example_view2 (mkSlot 0 0)
    = Done [mkSlot 1 1; mkSlot 2 2; mkSlot 3 3; mkSlot 4 0].
Proof. vm_compute. done. Qed.

(** The leader of round 1 and an anchor of round 4. *)
Definition example_base (own : AuthorityIndex) : BaseCommitter :=
  mkBase (mkContext own example_committee) (mkOptions 3 0 1).
Definition example_anchor : VerifiedBlock := example_block 4 0 0 (parents_of 3).

Lemma example_leads own : leads example_committee (example_base own) 1.
Proof. split; vm_compute; try done; split; congruence. Qed.

Lemma direct_decision_persists_witness :
  decide_leader_from_anchor (example_base 1) example_view2 example_anchor (mkSlot 1 1)
  = Done (LCommit (example_block 1 1 1 (parents_of 0))).
Proof.
  apply (direct_decision_persists example_committee example_byz example_global (example_base 0)
    (example_base 1) example_view1 example_view2).
  - exact example_committee_wf.
  - exact example_bft.
  - exact example_view1_ok.
  - exact example_view2_ok.
  - exact (example_leads 0).
  - exact (example_leads 1).
  - vm_compute. discriminate.
  - vm_compute. discriminate.
  - vm_compute. reflexivity.
  - reflexivity.
  - vm_compute. reflexivity.
  - vm_compute. discriminate.
Defined.

Lemma ancestors_exact_witness :
  ∃ l, ancestors_at_uncommitted_round example_view2 example_anchor 2 = Done l ∧ NoDup l ∧
    ∀ b, b ∈ l ↔ stored example_view2 b ∧ round b = 2
                 ∧ reach (recent_blocks example_view2) example_anchor (reference b).
Proof.
  apply (ancestors_exact example_committee example_view2 example_anchor 2).
  - exact (view_wf _ _ _ example_view2_ok).
  - vm_compute. reflexivity.
  - vm_compute. split; reflexivity.
Defined.
