(* ===== verification/ConsensusCore.v ===== *)
(** The proposer of the consensus core.

    Models [consensus/core/src/threshold_clock.rs], [block_manager.rs],
    [transactions_client.rs], [core.rs], [core_thread.rs] and
    [leader_timeout.rs]: the round clock, the acceptance of blocks, the queue of
    transactions, the creation of new blocks, the thread that serves the
    commands of the dispatcher, and the leader timeout task.  The theorems are
    in the file [CoreProposals]. *)
From S2P Require Import Prelude ConsensusCommittee ConsensusBlock ConsensusDag.

(** * Threshold clock *)

(** The time of the last quorum, kept for a latency metric, is left out. *)
Record ThresholdClock := mkClock {
  aggregator : StakeAggregator QuorumThreshold;
  clock_round : Round;
  clock_context : Context;
}.

Definition clock_new (r : Round) (ctx : Context) : ThresholdClock := mkClock agg_new r ctx.

Definition clock_add_block (tc : ThresholdClock) (block : BlockRef) : exec ThresholdClock :=
  match ref_round block ?= clock_round tc with
  | Lt => Done tc
  | Gt =>
      '(agg, _) ← agg_add (agg_clear (aggregator tc)) (ref_author block)
                    (committee (clock_context tc));
      Done (mkClock agg (ref_round block) (clock_context tc))
  | Eq =>
      '(agg, reached) ← agg_add (aggregator tc) (ref_author block) (committee (clock_context tc));
      if (reached : bool)
      then Done (mkClock (agg_clear agg) (wrap32 (ref_round block + 1)) (clock_context tc))
      else Done (mkClock agg (clock_round tc) (clock_context tc))
  end.

Definition clock_add_blocks (tc : ThresholdClock) (blocks : list BlockRef) :
    exec (ThresholdClock * option Round) :=
  tc' ← foldM clock_add_block tc blocks;
  Done (tc', if clock_round tc <? clock_round tc' then Some (clock_round tc') else None).

(** * Block manager *)

Record BlockManager := mkManager { accepted_blocks : gset BlockRef }.
Definition manager_new : BlockManager := mkManager ∅.

(** The [flat_map]: the blocks whose reference was not there yet. *)
Fixpoint insert_all (accepted : gset BlockRef) (blocks : list VerifiedBlock) :
    gset BlockRef * list VerifiedBlock :=
  match blocks with
  | [] => (accepted, [])
  | b :: blocks =>
      if bool_decide (reference b ∈ accepted) then insert_all accepted blocks
      else let '(accepted, out) := insert_all ({[reference b]} ∪ accepted) blocks in
           (accepted, b :: out)
  end.

Definition manager_add_blocks (bm : BlockManager) (blocks : list VerifiedBlock) :
    BlockManager * list VerifiedBlock :=
  let '(accepted, out) := insert_all (accepted_blocks bm) (sort_by_key round blocks) in
  (mkManager accepted, out).

(** * Transactions *)

Definition MAX_PENDING_TRANSACTIONS : nat := 2000.
Definition MAX_CONSUMED_TRANSACTIONS_PER_REQUEST : Z := 5000.

(** The receiver's end of the channel is the queue of what was sent. *)
Record TransactionsConsumer := mkConsumer {
  tx_receiver : list Transaction;
  max_consumed_bytes_per_request : Z;
  max_consumed_transactions_per_request : Z;
  pending_transaction : option Transaction;
}.

Definition consumer_new (queue : list Transaction) (max_transactions_in_block_bytes : Z)
    (max_transactions : option Z) : TransactionsConsumer :=
  mkConsumer queue max_transactions_in_block_bytes
    (default MAX_CONSUMED_TRANSACTIONS_PER_REQUEST max_transactions) None.

Definition tx_len (t : Transaction) : Z := Z.of_nat (length (tx_data t)).

(** The [while let] loop: the transactions, the one put aside and the queue
    left. *)
Fixpoint next_loop (max_bytes max_count : Z) (queue : list Transaction) (total_size : Z)
    (transactions : list Transaction) :
    list Transaction * option Transaction * list Transaction :=
  match queue with
  | [] => (transactions, None, [])
  | t :: queue =>
      let total_size := wrap64 (total_size + tx_len t) in
      if max_bytes <? total_size then (transactions, Some t, queue)
      else
        let transactions := transactions ++ [t] in
        if max_count <=? Z.of_nat (length transactions) then (transactions, None, queue)
        else next_loop max_bytes max_count queue total_size transactions
  end.

Definition consumer_next (tc : TransactionsConsumer) : TransactionsConsumer * list Transaction :=
  let '(total_size, transactions) :=
    match pending_transaction tc with
    | Some t => (tx_len t, [t])
    | None => (0, [])
    end in
  let '(out, pending, queue) :=
    next_loop (max_consumed_bytes_per_request tc) (max_consumed_transactions_per_request tc)
      (tx_receiver tc) total_size transactions in
  (mkConsumer queue (max_consumed_bytes_per_request tc)
     (max_consumed_transactions_per_request tc) pending, out).

Inductive ClientError :=
  | SubmitError
  | OversizedTransaction (size limit : Z).

(** [TransactionsClient::submit].  The queue is [None] once the receiver is
    dropped; waiting for room in a full channel is not modelled. *)
Definition submit (max_transaction_size : Z) (queue : option (list Transaction))
    (data : list Byte.byte) : option (list Transaction) * result unit ClientError :=
  if max_transaction_size <? Z.of_nat (length data)
  then (queue, Err (OversizedTransaction (Z.of_nat (length data)) max_transaction_size))
  else match queue with
       | Some q => (Some (q ++ [mkTransaction data]), Ok ())
       | None => (None, Err SubmitError)
       end.

(** * Core *)

(** What is sent on the two watch channels, in order. *)
Inductive Signal := NewRound (r : Round) | NewBlockReady (r : BlockRef).

(** The iteration order of a [HashSet<BlockRef>], which the language leaves
    open. *)
Class HashOrder := hash_iter : gset BlockRef → list BlockRef.

Section core.
Context `{!BlockCrypto, !HashOrder}.

Record Core := mkCore {
  core_context : Context;
  threshold_clock : ThresholdClock;
  last_proposed_block : VerifiedBlock;
  transactions_consumer : TransactionsConsumer;
  pending_ancestors : gmap Round (list VerifiedBlock);
  block_manager : BlockManager;
  signals : list Signal;
  block_signer : signer_type;
}.

(** [entry(round).or_default().push(block)]. *)
Definition push_ancestor (pending : gmap Round (list VerifiedBlock)) (b : VerifiedBlock) :
    gmap Round (list VerifiedBlock) :=
  <[round b := default [] (pending !! round b) ++ [b]]> pending.

Definition new_round (s : list Signal) (r : Round) : list Signal := s ++ [NewRound r].
Definition new_block_ready (s : list Signal) (r : BlockRef) : list Signal := s ++ [NewBlockReady r].

Definition Core_new (ctx : Context) (consumer : TransactionsConsumer) (bm : BlockManager)
    (sig : list Signal) (signer : signer_type) : exec Core :=
  '(genesis_my, genesis_others) ← genesis ctx;
  let blocks := genesis_others ++ [genesis_my] in
  tc ← foldM clock_add_block (clock_new 0 ctx) (reference <$> blocks);
  Done (mkCore ctx tc genesis_my consumer (foldl push_ancestor ∅ blocks) bm
          (new_round sig (clock_round tc)) signer).

Definition last_proposed_round (core : Core) : Round := round (last_proposed_block core).

(** The round robin over the committee; [% 0] panics. *)
Definition leaders (core : Core) (r : Round) : exec (list AuthorityIndex) :=
  let n := wrap32 (Z.of_nat (committee_size (committee (core_context core)))) in
  if n =? 0 then Panic else Done [Z.to_nat (r mod n)].

Definition last_quorum_leaders_exist (core : Core) : exec bool :=
  let quorum_round := saturating_sub (clock_round (threshold_clock core)) 1 in
  ls ← leaders core quorum_round;
  Done (match pending_ancestors core !! quorum_round with
        | Some ancestors =>
            forallb (λ leader, existsb (λ entry, (ref_author (reference entry) =? leader)%nat)
              ancestors) ls
        | None => false
        end).

(** The pending blocks below a round, in the order of their rounds. *)
Definition pending_below (pending : gmap Round (list VerifiedBlock)) (r : Round) :
    list VerifiedBlock :=
  concat (btree_range Z.le (λ k, (0 <=? k) && (k <? r)) pending).*2.

Definition ancestors_to_propose (core : Core) (clock_round : Round)
    (block_timestamp : BlockTimestampMs) : exec (Core * list BlockRef) :=
  let blocks := pending_below (pending_ancestors core) clock_round in
  assert (forallb (λ b, timestamp_ms b <=? block_timestamp) blocks) ;;
  let all_ancestors_parents : gset BlockRef := list_to_set (b ← blocks; ancestors b) in
  let to_propose : gset BlockRef :=
    list_to_set (filter (λ r, r ∉ all_ancestors_parents) (reference <$> blocks)) in
  let to_propose := {[reference (last_proposed_block core)]} ∪ to_propose in
  assert (negb (bool_decide (to_propose = ∅))) ;;
  let pending := filter (λ kv, clock_round ≤ kv.1) (pending_ancestors core) in
  Done (mkCore (core_context core) (threshold_clock core) (last_proposed_block core)
          (transactions_consumer core) pending (block_manager core) (signals core)
          (block_signer core),
        hash_iter to_propose).

(** [now] is the value of [timestamp_utc_ms()]. *)
Definition try_new_block (core : Core) (ignore_leaders_check : bool) (now : BlockTimestampMs) :
    exec (Core * option VerifiedBlock) :=
  let r := clock_round (threshold_clock core) in
  if r <=? last_proposed_round core then Done (core, None)
  else
    go ← (if ignore_leaders_check then Done true else last_quorum_leaders_exist core);
    if (go : bool) then
      '(core, ancs) ← ancestors_to_propose core r now;
      let '(consumer, payload) := consumer_next (transactions_consumer core) in
      let block := V1 (mkBlockV1 (epoch (committee (core_context core))) r
                         (own_index (core_context core)) now ancs payload) in
      signed_block ← expect (SignedBlock_new block (block_signer core));
      verified_block ← expect (new_verified_unserialized signed_block);
      tc ← clock_add_block (threshold_clock core) (reference verified_block);
      let pending := push_ancestor (pending_ancestors core) verified_block in
      let '(bm, _) := manager_add_blocks (block_manager core) [verified_block] in
      Done (mkCore (core_context core) tc verified_block consumer pending bm
              (new_block_ready (signals core) (reference verified_block)) (block_signer core),
            Some verified_block)
    else Done (core, None).

Definition core_add_blocks (core : Core) (blocks : list VerifiedBlock) (now : BlockTimestampMs) :
    exec (Core * list BlockRef) :=
  let '(bm, accepted) := manager_add_blocks (block_manager core) blocks in
  '(tc, advanced) ← clock_add_blocks (threshold_clock core) (reference <$> accepted);
  let sig := match advanced with Some r => new_round (signals core) r | None => signals core end in
  let pending := foldl push_ancestor (pending_ancestors core) accepted in
  '(core, _) ← try_new_block
                 (mkCore (core_context core) tc (last_proposed_block core)
                    (transactions_consumer core) pending bm sig (block_signer core)) false now;
  Done (core, []).

Definition force_new_block (core : Core) (r : Round) (now : BlockTimestampMs) :
    exec (Core * option VerifiedBlock) :=
  if last_proposed_round core <? r then try_new_block core true now else Done (core, None).

(** * Core thread *)

Inductive CoreThreadCommand :=
  | AddBlocks (blocks : list VerifiedBlock)
  | ForceNewBlock (r : Round)
  | GetMissing.

(** What is sent back to the dispatcher. *)
Inductive CoreThreadReply :=
  | MissingBlocks (refs : list BlockRef)
  | Forced
  | Missing (refs : list (gset BlockRef)).

(** One iteration of [CoreThread::run]; commands come with the time at which
    they are served. *)
Definition serve (core : Core) (cmd : CoreThreadCommand) (now : BlockTimestampMs) :
    exec (Core * CoreThreadReply) :=
  match cmd with
  | AddBlocks blocks =>
      '(core, missing) ← core_add_blocks core blocks now; Done (core, MissingBlocks missing)
  | ForceNewBlock r => '(core, _) ← force_new_block core r now; Done (core, Forced)
  | GetMissing => Done (core, Missing [])
  end.

Fixpoint run (core : Core) (cmds : list (CoreThreadCommand * BlockTimestampMs)) :
    exec (Core * list CoreThreadReply) :=
  match cmds with
  | [] => Done (core, [])
  | (cmd, now) :: cmds =>
      '(core, reply) ← serve core cmd now;
      '(core, replies) ← run core cmds;
      Done (core, reply :: replies)
  end.
End core.

(** * Leader timeout *)

(** The variables of [LeaderTimeoutTask::run]. *)
Record LeaderTimeout := mkTimeout {
  leader_round_watched : Round;
  leader_round_timed_out : bool;
  deadline : Z;
}.

Inductive TimeoutEvent :=
  | TimerExpired (dispatcher_ok : bool)
  | RoundChanged (r : Round) (now : Z)
  | Stop.

(** One turn of the [select!] loop: the new state, or [None] when the task
    ends, and the round [force_new_block] was called with.  An expired timer
    is ignored while the branch is disabled. *)
Definition timeout_step (leader_timeout : Z) (s : LeaderTimeout) (e : TimeoutEvent) :
    option LeaderTimeout * option Round :=
  match e with
  | TimerExpired dispatcher_ok =>
      if leader_round_timed_out s then (Some s, None)
      else if dispatcher_ok
           then (Some (mkTimeout (leader_round_watched s) true (deadline s)),
                 Some (leader_round_watched s))
           else (None, Some (leader_round_watched s))
  | RoundChanged r now => (Some (mkTimeout r false (now + leader_timeout)), None)
  | Stop => (None, None)
  end.

(** The rounds forced by a sequence of events. *)
Fixpoint timeout_run (leader_timeout : Z) (s : LeaderTimeout) (es : list TimeoutEvent) :
    list Round :=
  match es with
  | [] => []
  | e :: es =>
      let '(s', forced) := timeout_step leader_timeout s e in
      (match forced with Some r => [r] | None => [] end)
      ++ match s' with Some s' => timeout_run leader_timeout s' es | None => [] end
  end.
