(* ===== verification/CoreProposals.v ===== *)
(** Theorems on the proposer.

    The threshold clock computes a function of the set of blocks seen; the
    transaction queue is first-in first-out and bounded; and every handler of
    [Core] keeps an invariant under which each block it proposes extends its
    previous one, has a quorum of parents in the round before, and covers all
    pending blocks. *)
From S2P Require Import Prelude ConsensusCommittee ConsensusBlock ConsensusDag.
From S2P Require Import ConsensusCommitter CommitterSpec CommitterAgreement DagExample.
From S2P Require Import ConsensusCore.

(** * Threshold clock *)

(** The authors of the references of a round. *)
Definition authors_at (H : gset BlockRef) (r : Round) : gset AuthorityIndex :=
  set_map ref_author (filter (λ x, ref_round x = r) H).

Lemma elem_of_authors_at H r i :
  i ∈ authors_at H r ↔ ∃ x, x ∈ H ∧ ref_round x = r ∧ ref_author x = i.
Proof.
  unfold authors_at. rewrite elem_of_map. setoid_rewrite elem_of_filter. naive_solver.
Qed.

Lemma authors_at_mono H1 H2 r : H1 ⊆ H2 → authors_at H1 r ⊆ authors_at H2 r.
Proof. intros HH i. rewrite !elem_of_authors_at. set_solver. Qed.

Lemma authors_at_other x H r : ref_round x ≠ r → authors_at ({[x]} ∪ H) r = authors_at H r.
Proof. intros Hx. apply set_eq. intros i. rewrite !elem_of_authors_at. set_solver. Qed.

Lemma authors_at_same x H :
  authors_at ({[x]} ∪ H) (ref_round x) = {[ref_author x]} ∪ authors_at H (ref_round x).
Proof. apply set_eq. intros i. rewrite elem_of_union, !elem_of_authors_at. set_solver. Qed.

Lemma authors_at_above H r : (∀ x, x ∈ H → ref_round x < r) → authors_at H r = ∅.
Proof.
  intros HH. apply set_eq. intros i. rewrite elem_of_authors_at. split; [|set_solver].
  intros (x & Hx%HH & Hr & _). lia.
Qed.

Lemma forall_insert (P : BlockRef → Prop) x (H : gset BlockRef) :
  P x → (∀ y, y ∈ H → P y) → ∀ y, y ∈ {[x]} ∪ H → P y.
Proof. set_solver. Qed.

(** No authority is a quorum by itself. *)
Definition no_dominant (c : Committee) : Prop :=
  ∀ i, (i < committee_size c)%nat → quorate c {[i]} = false.

Section clock.
Context (c : Committee) (Hwfc : wf_committee c).

(** The state of the clock after the blocks [H]. *)
Record clock_ok (H : gset BlockRef) (tc : ThresholdClock) : Prop := {
  ck_committee : committee (clock_context tc) = c;
  ck_agg : agg_ok c (aggregator tc);
  ck_votes : votes (aggregator tc) = authors_at H (clock_round tc);
  ck_max : ∀ x, x ∈ H → ref_round x ≤ clock_round tc;
  ck_pos : 0 ≤ clock_round tc;
  ck_reason : clock_round tc = 0 ∨ (∃ x, x ∈ H ∧ ref_round x = clock_round tc)
    ∨ quorate c (authors_at H (clock_round tc - 1)) = true;
  ck_waits : no_dominant c → quorate c (authors_at H (clock_round tc)) = false;
}.

Lemma clock_new_ok ctx : committee ctx = c → clock_ok ∅ (clock_new 0 ctx).
Proof.
  intros Hc. split; simpl; try done.
  - apply agg_new_ok.
  - by left.
  - intros _. rewrite authors_at_above by set_solver. by apply quorate_empty.
Qed.

Lemma clock_less H tc x :
  clock_ok H tc → ref_round x < clock_round tc → clock_ok ({[x]} ∪ H) tc.
Proof.
  intros [Hc Hagg Hv Hmax Hpos Hreason Hwaits] Hx.
  split; try done; rewrite ?authors_at_other by lia; try done.
  - apply forall_insert; [lia|done].
  - destruct Hreason as [?|[(y & ? & ?)|Hq]]; [by left|right; left; exists y; set_solver|].
    right; right. eapply quorate_mono, Hq; [done|]. apply authors_at_mono. set_solver.
Qed.

Lemma clock_add_block_ok H tc x :
  clock_ok H tc → (ref_author x < committee_size c)%nat → 0 ≤ ref_round x < u32_max →
  ∃ tc', clock_add_block tc x = Done tc' ∧ clock_ok ({[x]} ∪ H) tc'
    ∧ clock_context tc' = clock_context tc
    ∧ clock_round tc ≤ clock_round tc' ≤ Z.max (clock_round tc) (ref_round x + 1).
Proof.
  intros Hok Ha Hr. pose proof Hok as [Hc Hagg Hv Hmax Hpos Hreason Hwaits].
  unfold clock_add_block. rewrite Hc. destruct (Z.compare_spec (ref_round x) (clock_round tc)) as [Heq|Hlt|Hgt].
  - destruct (agg_add_ok c Hwfc (aggregator tc) (ref_author x)) as (agg & -> & Hvotes & Hagg'); [done..|].
    rewrite Hv, <-Heq, <-authors_at_same. simpl. rewrite <-Heq in *.
    change (is_threshold c (stake_in c (in_set ?A))) with (quorate c A).
    destruct (quorate c (authors_at ({[x]} ∪ H) (ref_round x))) eqn:Hq.
    + eexists. split; [done|]. rewrite wrap32_small by width. split; [|split; [done|simpl; lia]].
      assert (authors_at ({[x]} ∪ H) (ref_round x + 1) = ∅) as Hempty.
      { apply authors_at_above, forall_insert; [lia|]. intros y Hy%Hmax. lia. }
      split; simpl; rewrite ?Hempty; try done; [apply agg_new_ok| |lia| |].
      * apply forall_insert; [lia|]. intros y Hy%Hmax. lia.
      * right; right. by replace (ref_round x + 1 - 1) with (ref_round x) by lia.
      * intros _. by apply quorate_empty.
    + eexists. split; [done|]. split; [|split; [done|simpl; lia]].
      split; simpl; try done.
      * by rewrite Hvotes, Hv, authors_at_same.
      * by apply forall_insert.
      * right; left. exists x. set_solver.
  - exists tc. split; [done|]. split; [by apply clock_less|]. split; [done|lia].
  - destruct (agg_add_ok c Hwfc (agg_clear (aggregator tc)) (ref_author x)) as (agg & -> & Hvotes & Hagg');
      [apply agg_new_ok|done|].
    eexists. split; [done|]. simpl. split; [|split; [done|lia]].
    assert (authors_at H (ref_round x) = ∅) as Hempty.
    { apply authors_at_above. intros y Hy%Hmax. lia. }
    split; simpl; try done; rewrite ?authors_at_same, ?Hempty; [done| |lia| |].
    + apply forall_insert; [lia|]. intros y Hy%Hmax. lia.
    + right; left. exists x. set_solver.
    + rewrite (right_id_L ∅ (∪)). auto.
Qed.

Lemma clock_fold_ok H tc l :
  clock_ok H tc →
  (∀ x, x ∈ l → (ref_author x < committee_size c)%nat ∧ 0 ≤ ref_round x < u32_max) →
  ∃ tc', foldM clock_add_block tc l = Done tc' ∧ clock_ok (list_to_set l ∪ H) tc'
    ∧ clock_context tc' = clock_context tc ∧ clock_round tc ≤ clock_round tc'
    ∧ ∀ m, clock_round tc ≤ m → (∀ x, x ∈ l → ref_round x < m) → clock_round tc' ≤ m.
Proof.
  revert H tc. induction l as [|x l IH]; intros H tc Hok Hl; simpl.
  - exists tc. rewrite (left_id_L ∅ (∪)). split; [done|]. split; [done|]. split; [done|]. split; [done|]. auto.
  - destruct (clock_add_block_ok H tc x) as (tc1 & -> & Hok1 & Hctx1 & Hr1);
      [done|apply Hl; by left..|]. simpl.
    destruct (IH _ _ Hok1) as (tc2 & -> & Hok2 & Hctx2 & Hr2 & Hm2); [intros; apply Hl; by right|].
    exists tc2. split; [done|]. split; [|split; [congruence|split; [lia|]]].
    + by replace ({[x]} ∪ list_to_set l ∪ H) with (list_to_set l ∪ ({[x]} ∪ H)) by set_solver.
    + intros m Hm Hlm. pose proof (Hlm x ltac:(by left)). apply Hm2; [lia|].
      intros y Hy. apply Hlm. by right.
Qed.
End clock.

(** The round that a set of blocks calls for: the least round with no quorum
    yet that is no lower than any block. *)
Definition clock_spec (c : Committee) (H : gset BlockRef) (r : Round) : Prop :=
  0 ≤ r ∧ (∀ x, x ∈ H → ref_round x ≤ r) ∧ quorate c (authors_at H r) = false
  ∧ (r = 0 ∨ (∃ x, x ∈ H ∧ ref_round x = r) ∨ quorate c (authors_at H (r - 1)) = true).

Lemma clock_spec_not_lt c H r1 r2 :
  wf_committee c → clock_spec c H r1 → clock_spec c H r2 → ¬ r1 < r2.
Proof.
  intros Hwfc (Hp1 & Hm1 & Hq1 & _) (_ & _ & _ & [?|[(x & Hx%Hm1 & ?)|Hq]]) Hlt; [lia..|].
  destruct (decide (r2 - 1 = r1)) as [Heq|Hne]; [congruence|].
  rewrite authors_at_above, quorate_empty in Hq; [done|done|].
  intros x Hx%Hm1. lia.
Qed.

(** The threshold clock is a function of the set of blocks it has seen, in
    whatever order and however often they came: its round is the unique round
    that no block exceeds, that has no quorum of authors yet, and that is
    round 0, the round of some block, or follows a round with a quorum.  (No
    single authority may be a quorum: [add_block] does not look for one when
    it jumps to a later round.) *)
Theorem threshold_clock_exact c ctx l :
  wf_committee c → no_dominant c → committee ctx = c →
  (∀ x, x ∈ l → (ref_author x < committee_size c)%nat ∧ 0 ≤ ref_round x < u32_max) →
  ∃ tc advanced, clock_add_blocks (clock_new 0 ctx) l = Done (tc, advanced)
    ∧ ∀ r, clock_spec c (list_to_set l) r ↔ r = clock_round tc.
Proof.
  intros Hwfc Hdom Hctx Hl.
  destruct (clock_fold_ok c Hwfc ∅ (clock_new 0 ctx) l) as (tc & Htc & Hok & _);
    [by apply clock_new_ok|done|].
  unfold clock_add_blocks. rewrite Htc. simpl. do 2 eexists. split; [done|].
  rewrite (right_id_L ∅ (∪)) in Hok. destruct Hok as [_ _ _ Hmax Hpos Hreason Hwaits].
  assert (clock_spec c (list_to_set l) (clock_round tc)) as Hspec by (repeat split; auto).
  intros r. split; [intros Hr|by intros ->].
  pose proof (clock_spec_not_lt _ _ _ _ Hwfc Hr Hspec).
  pose proof (clock_spec_not_lt _ _ _ _ Hwfc Hspec Hr). lia.
Qed.

(** * Transactions *)

Definition pending_list (tc : TransactionsConsumer) : list Transaction :=
  match pending_transaction tc with Some t => [t] | None => [] end.

Definition size_of (l : list Transaction) : Z := sumZ (tx_len <$> l).

(** What waits in the consumer, in order of submission. *)
Definition backlog (tc : TransactionsConsumer) : list Transaction :=
  pending_list tc ++ tx_receiver tc.

Lemma next_loop_spec max_bytes max_count queue txs :
  (∀ t, t ∈ queue → max_bytes + tx_len t ≤ u64_max) → 0 ≤ max_bytes → size_of txs ≤ max_bytes →
  ∃ taken pending rest,
    next_loop max_bytes max_count queue (size_of txs) txs = (txs ++ taken, pending, rest)
    ∧ queue = taken ++ (match pending with Some t => [t] | None => [] end) ++ rest
    ∧ size_of (txs ++ taken) ≤ max_bytes
    ∧ (taken = [] ∨ Z.of_nat (length (txs ++ taken)) ≤ Z.max max_count (Z.of_nat (length txs) + 1))
    ∧ match pending with
      | Some t => max_bytes < size_of (txs ++ taken ++ [t])
      | None => rest = [] ∨ max_count ≤ Z.of_nat (length (txs ++ taken))
      end.
Proof.
  intros Hq Hmax. revert txs. induction queue as [|t queue IH]; intros txs Htxs; simpl.
  - exists [], None, []. rewrite !app_nil_r. repeat split; auto.
  - assert (0 ≤ tx_len t) by (unfold tx_len; lia).
    assert (0 ≤ size_of txs) by (apply sumZ_nonneg, Forall_fmap, Forall_true; unfold tx_len; simpl; lia).
    pose proof (Hq t ltac:(by left)).
    assert (size_of (txs ++ [t]) = size_of txs + tx_len t) as Hsize.
    { unfold size_of. rewrite fmap_app, sumZ_app. simpl. lia. }
    rewrite wrap64_small by width.
    case_test (max_bytes <? size_of txs + tx_len t) as Hover.
    { exists [], (Some t), queue. rewrite !app_nil_r. repeat split; auto. simpl. lia. }
    case_test (max_count <=? Z.of_nat (length (txs ++ [t]))) as Hcount.
    { exists [t], None, queue. repeat split; auto; [lia|]. right.
      rewrite length_app. simpl. lia. }
    destruct (IH ltac:(intros; apply Hq; by right) (txs ++ [t]))
      as (taken & pending & rest & Hloop & -> & Hs & Hlen & Hend); [lia|].
    rewrite Hsize, <-(assoc_L (++)) in Hloop. rewrite <-(assoc_L (++)) in Hs, Hlen.
    exists (t :: taken), pending, rest. split; [done|]. split; [done|]. split; [done|].
    split; [|by destruct pending; rewrite <-?(assoc_L (++)) in Hend].
    right. rewrite !length_app in *. simpl in *. destruct Hlen as [->|Hlen]; simpl in *; lia.
Qed.

Lemma consumer_next_spec tc :
  (∀ t, t ∈ backlog tc → tx_len t ≤ max_consumed_bytes_per_request tc) →
  0 ≤ max_consumed_bytes_per_request tc →
  2 * max_consumed_bytes_per_request tc ≤ u64_max →
  let '(tc', out) := consumer_next tc in
  backlog tc = out ++ backlog tc'
  ∧ size_of out ≤ max_consumed_bytes_per_request tc
  ∧ Z.of_nat (length out) ≤ Z.max 2 (max_consumed_transactions_per_request tc)
  ∧ (∀ t rest, backlog tc' = t :: rest →
       max_consumed_transactions_per_request tc ≤ Z.of_nat (length out)
       ∨ max_consumed_bytes_per_request tc < size_of (out ++ [t]))
  ∧ max_consumed_bytes_per_request tc' = max_consumed_bytes_per_request tc.
Proof.
  intros Hfit Hpos Hmax. unfold consumer_next.
  assert (size_of (pending_list tc) ≤ max_consumed_bytes_per_request tc) as Hpend.
  { unfold backlog, pending_list in *. destruct (pending_transaction tc) as [t|]; [|done].
    unfold size_of. simpl. pose proof (Hfit t ltac:(by left)). lia. }
  assert ((match pending_transaction tc with Some t => (tx_len t, [t]) | None => (0, []) end)
    = (size_of (pending_list tc), pending_list tc)) as ->.
  { unfold pending_list, size_of. destruct (pending_transaction tc); simpl; [|done].
    f_equal. lia. }
  assert (length (pending_list tc) ≤ 1)%nat as Hlen1.
  { unfold pending_list. destruct (pending_transaction tc); simpl; lia. }
  destruct (next_loop_spec (max_consumed_bytes_per_request tc)
    (max_consumed_transactions_per_request tc) (tx_receiver tc) (pending_list tc))
    as (taken & pending & rest & -> & Hq & Hsize & Hlen & Hend); [|done..|].
  { intros t Ht. pose proof (Hfit t ltac:(apply elem_of_app; by right)). lia. }
  unfold backlog at 1, backlog, pending_list at 3 5. simpl. rewrite Hq, <-!(assoc_L (++)).
  split; [done|]. split; [done|].
  assert (Z.of_nat (length (pending_list tc ++ taken)) ≤ Z.max 2 (max_consumed_transactions_per_request tc)).
  { rewrite length_app in *. destruct Hlen as [->|Hlen]; simpl; lia. }
  split; [done|]. split; [|done]. intros t rest' Hrest.
  destruct pending as [t'|]; simplify_eq/=; [by right; rewrite (assoc_L (++)) in Hend|].
  destruct Hend as [?|?]; [done|]. by left.
Qed.

(** The client and the consumer at the two ends of the channel. *)
Inductive TxEvent := Submit (data : list Byte.byte) | Next.

(** The transactions accepted and the ones handed out, by a sequence of calls. *)
Fixpoint tx_run (max_size : Z) (tc : TransactionsConsumer) (es : list TxEvent) :
    TransactionsConsumer * list Transaction * list Transaction :=
  match es with
  | [] => (tc, [], [])
  | Submit data :: es =>
      let '(q, r) := submit max_size (Some (tx_receiver tc)) data in
      let tc := mkConsumer (default [] q) (max_consumed_bytes_per_request tc)
                  (max_consumed_transactions_per_request tc) (pending_transaction tc) in
      let '(tc, accepted, out) := tx_run max_size tc es in
      (tc, (if is_ok r then [mkTransaction data] else []) ++ accepted, out)
  | Next :: es =>
      let '(tc, out1) := consumer_next tc in
      let '(tc, accepted, out2) := tx_run max_size tc es in
      (tc, accepted, out1 ++ out2)
  end.

Record consumer_ok (max_size : Z) (tc : TransactionsConsumer) : Prop := {
  cs_fit : ∀ t, t ∈ backlog tc → tx_len t ≤ max_consumed_bytes_per_request tc;
  cs_size : max_size ≤ max_consumed_bytes_per_request tc;
  cs_bytes : 0 ≤ max_consumed_bytes_per_request tc;
  cs_max : 2 * max_consumed_bytes_per_request tc ≤ u64_max;
}.

Lemma submit_ok max_size tc data :
  consumer_ok max_size tc →
  let '(q, r) := submit max_size (Some (tx_receiver tc)) data in
  let tc' := mkConsumer (default [] q) (max_consumed_bytes_per_request tc)
               (max_consumed_transactions_per_request tc) (pending_transaction tc) in
  consumer_ok max_size tc' ∧
  backlog tc' = backlog tc ++ (if is_ok r then [mkTransaction data] else []).
Proof.
  intros [Hfit Hsize Hbytes Hmax]. unfold submit.
  case_test (max_size <? Z.of_nat (length data)) as Hs; simpl.
  - split; [by split|]. rewrite app_nil_r. done.
  - unfold backlog, pending_list in *. simpl. rewrite (assoc_L (++)). split; [|done].
    split; simpl; try done. unfold backlog, pending_list. simpl.
    intros t. rewrite !elem_of_app, list_elem_of_singleton. intros [Ht|[Ht| ->]].
    + apply Hfit, elem_of_app. by left.
    + apply Hfit, elem_of_app. by right.
    + unfold tx_len. simpl. lia.
Qed.

Lemma consumer_next_ok max_size tc :
  consumer_ok max_size tc → consumer_ok max_size (consumer_next tc).1.
Proof.
  intros [Hfit Hsize Hbytes Hmax]. pose proof (consumer_next_spec tc Hfit Hbytes Hmax) as Hspec.
  destruct (consumer_next tc) as [tc' out]. destruct Hspec as (Hfifo & _ & _ & _ & Hsame).
  split; simpl; rewrite ?Hsame; try done. intros t Ht. apply Hfit. rewrite Hfifo.
  apply elem_of_app. by right.
Qed.

(** Transactions are delivered in order and exactly once.  Over any
    sequence of [submit] and [next] calls, what was waiting followed by what
    [submit] accepted is what [next] handed out followed by what still waits:
    nothing is lost, duplicated or reordered, the transaction put aside at a
    size limit included. *)
Theorem transactions_in_order max_size tc es :
  consumer_ok max_size tc →
  let '(tc', accepted, out) := tx_run max_size tc es in
  backlog tc ++ accepted = out ++ backlog tc'.
Proof.
  revert tc. induction es as [|[data|] es IH]; intros tc Hok; simpl.
  - by rewrite app_nil_r.
  - pose proof (submit_ok max_size tc data Hok) as Hsub.
    destruct (submit max_size (Some (tx_receiver tc)) data) as [q r]. cbv zeta in Hsub. destruct Hsub as [Hok' Hb].
    specialize (IH _ Hok'). destruct (tx_run max_size _ es) as [[tc' accepted] out].
    rewrite <-IH, Hb. apply (assoc_L (++)).
  - pose proof (consumer_next_ok max_size tc Hok) as Hok'. destruct Hok as [Hfit Hsize Hbytes Hmax].
    pose proof (consumer_next_spec tc Hfit Hbytes Hmax) as Hspec.
    destruct (consumer_next tc) as [tc1 out1]. destruct Hspec as (Hfifo & _).
    specialize (IH _ Hok'). simpl in IH. destruct (tx_run max_size tc1 es) as [[tc' accepted] out].
    by rewrite Hfifo, <-!(assoc_L (++)), IH.
Qed.

(** The payload of a block respects its limits and is filled as far as they
    allow: [next] returns at most the byte limit and, for a count limit of at
    least two, at most that many transactions; when transactions are left
    behind, either the count limit is met or the next one would exceed the
    byte limit. *)
Theorem consumer_next_bounds max_size tc :
  consumer_ok max_size tc → 2 ≤ max_consumed_transactions_per_request tc →
  let '(tc', out) := consumer_next tc in
  size_of out ≤ max_consumed_bytes_per_request tc
  ∧ Z.of_nat (length out) ≤ max_consumed_transactions_per_request tc
  ∧ ∀ t rest, backlog tc' = t :: rest →
      Z.of_nat (length out) = max_consumed_transactions_per_request tc
      ∨ max_consumed_bytes_per_request tc < size_of (out ++ [t]).
Proof.
  intros [Hfit Hsize Hbytes Hmax] Hcount. pose proof (consumer_next_spec tc Hfit Hbytes Hmax) as Hspec.
  destruct (consumer_next tc) as [tc' out]. destruct Hspec as (_ & Hs & Hl & Hend & _).
  split; [done|]. split; [lia|]. intros t rest Hrest.
  destruct (Hend t rest Hrest); [left; lia|by right].
Qed.


(** * The block manager *)

Lemma insert_all_spec accepted blocks :
  let '(accepted', out) := insert_all accepted blocks in
  accepted' = list_to_set (reference <$> blocks) ∪ accepted
  ∧ (∀ b, b ∈ out → b ∈ blocks)
  ∧ (∀ b, b ∈ blocks → reference b ∈ accepted ∨ reference b ∈ reference <$> out).
Proof.
  revert accepted. induction blocks as [|b blocks IH]; intros accepted; simpl.
  - split; [by rewrite (left_id_L ∅ (∪))|]. set_solver.
  - case_bool_decide as Hin.
    + specialize (IH accepted). destruct (insert_all accepted blocks) as [acc out].
      destruct IH as (-> & Hsub & Hall). split; [set_solver|]. split; [set_solver|].
      intros b' [->|Hb']%elem_of_cons; auto.
    + specialize (IH ({[reference b]} ∪ accepted)).
      destruct (insert_all ({[reference b]} ∪ accepted) blocks) as [acc out].
      destruct IH as (-> & Hsub & Hall). split; [set_solver|]. split; [set_solver|].
      intros b' [->|Hb']%elem_of_cons; [right; by left|].
      destruct (Hall b' Hb') as [[->%elem_of_singleton|?]%elem_of_union|?];
        [right; by left|by left|right; by right].
Qed.

(** The new blocks are accepted, and only they. *)
Lemma manager_add_blocks_spec bm blocks :
  let '(bm', out) := manager_add_blocks bm blocks in
  accepted_blocks bm' = list_to_set (reference <$> blocks) ∪ accepted_blocks bm
  ∧ (∀ b, b ∈ out → b ∈ blocks)
  ∧ (∀ b, b ∈ blocks → reference b ∈ accepted_blocks bm ∨ reference b ∈ reference <$> out).
Proof.
  unfold manager_add_blocks.
  pose proof (insert_all_spec (accepted_blocks bm) (sort_by_key round blocks)) as Hspec.
  destruct (insert_all _ _) as [acc out]. simpl. destruct Hspec as (-> & Hsub & Hall).
  split; [|split].
  - f_equal. apply set_eq. intros x. rewrite !elem_of_list_to_set. by rewrite sort_by_key_perm.
  - intros b Hb%Hsub. by rewrite sort_by_key_perm in Hb.
  - intros b Hb. apply Hall. by rewrite sort_by_key_perm.
Qed.

(** * Pending ancestors *)

(** [b] is pending under the round [r]. *)
Definition pending_at (m : gmap Round (list VerifiedBlock)) (r : Round) (b : VerifiedBlock) : Prop :=
  ∃ l, m !! r = Some l ∧ b ∈ l.

Lemma push_ancestor_at m b r x :
  pending_at (push_ancestor m b) r x ↔ pending_at m r x ∨ (x = b ∧ r = round b).
Proof.
  unfold pending_at, push_ancestor. destruct (decide (round b = r)) as [<-|Hne].
  - rewrite lookup_insert_eq. split.
    + intros (l & [= <-] & [Hx|Hx%list_elem_of_singleton]%elem_of_app); [|by right].
      left. destruct (m !! round b) as [l|]; [by exists l|set_solver].
    + intros Hx. eexists. split; [done|]. apply elem_of_app.
      destruct Hx as [(l & -> & Hx)|[-> _]]; [by left|right; by left].
  - rewrite lookup_insert_ne by done. naive_solver.
Qed.

Lemma push_ancestors_at l m r x :
  pending_at (foldl push_ancestor m l) r x ↔ pending_at m r x ∨ (x ∈ l ∧ r = round x).
Proof.
  revert m. induction l as [|b l IH]; intros m; simpl; [set_solver|].
  rewrite IH, push_ancestor_at, elem_of_cons. naive_solver.
Qed.

Lemma pending_filter_at m k r x :
  pending_at (filter (λ kv, k ≤ kv.1) m) r x ↔ pending_at m r x ∧ k ≤ r.
Proof.
  unfold pending_at. setoid_rewrite map_lookup_filter_Some. naive_solver.
Qed.

Lemma elem_of_pending_below m r b :
  b ∈ pending_below m r ↔ ∃ k, 0 ≤ k < r ∧ pending_at m k b.
Proof.
  unfold pending_below, pending_at. rewrite list_elem_of_In, in_concat.
  setoid_rewrite <-list_elem_of_In. setoid_rewrite list_elem_of_fmap. split.
  - intros (l & ([k l'] & -> & Hin) & Hb). apply elem_of_btree_range in Hin as [Hk Hm].
    exists k. bool_prop. split; [lia|]. by exists l'.
  - intros (k & Hk & l & Hm & Hb). exists l. split; [|done]. exists (k, l). split; [done|].
    apply elem_of_btree_range. split; [|done]. apply andb_true_intro. split; lia.
Qed.

(** * Proposals *)

(** The iteration of a hash set visits its elements once each, in some order. *)
Class HashOrderLaws `{!HashOrder} : Prop :=
  hash_iter_perm s : hash_iter s ≡ₚ elements s.

(** [bcs] serializes every block. *)
Class BcsTotal `{!BlockCrypto} : Prop := {
  bcs_block_total b : is_Some (bcs_block b);
  bcs_signed_total sb : is_Some (bcs_signed sb);
}.

(** What the references [roots] lead to through the blocks of a list. *)
Inductive covered (blocks : list VerifiedBlock) (roots : list BlockRef) : BlockRef → Prop :=
  | covered_root a : a ∈ roots → covered blocks roots a
  | covered_step b a :
      b ∈ blocks → covered blocks roots (reference b) → a ∈ ancestors b → covered blocks roots a.

Section proposals.
Context `{Hcrypto : !BlockCrypto, Hbcs : !BcsTotal, Hhash : !HashOrder, Hlaws : !HashOrderLaws}.
Context (c : Committee) (Hwfc : wf_committee c).

(** The state of a core that has seen the references [H], all pending blocks
    being dated [t] at the latest. *)
Record core_ok (H : gset BlockRef) (t : BlockTimestampMs) (core : Core) : Prop := {
  co_ctx : committee (core_context core) = c;
  co_own : (own_index (core_context core) < committee_size c)%nat;
  co_clock : clock_ok c H (threshold_clock core);
  co_range : ∀ x, x ∈ H → 0 ≤ ref_round x;
  co_closed : ∀ x, x ∈ H → 0 < ref_round x → quorate c (authors_at H (ref_round x - 1)) = true;
  co_last : reference (last_proposed_block core) ∈ H;
  co_author : author (last_proposed_block core) = own_index (core_context core);
  co_manager : accepted_blocks (block_manager core) ⊆ H;
  co_pending : ∀ r b, pending_at (pending_ancestors core) r b →
    r = round b ∧ reference b ∈ H ∧ timestamp_ms b ≤ t
    ∧ ∀ a, a ∈ ancestors b → ref_round a < round b;
  co_kept : ∀ x, x ∈ H → last_proposed_round core ≤ ref_round x →
    ∃ b, pending_at (pending_ancestors core) (ref_round x) b ∧ reference b = x;
}.

(** What a proposed block promises. *)
Record proposal_ok (H : gset BlockRef) (core : Core) (b : VerifiedBlock) : Prop := {
  po_author : author b = own_index (core_context core);
  po_round : round b = clock_round (threshold_clock core);
  po_fresh : last_proposed_round core < round b;
  po_own : reference (last_proposed_block core) ∈ ancestors b;
  po_ancestors : ∀ a, a ∈ ancestors b → a ∈ H ∧ ref_round a < round b;
  po_quorum : quorate c (parent_authors b) = true;
  po_covers : ∀ b', b' ∈ pending_below (pending_ancestors core) (round b) →
    covered (pending_below (pending_ancestors core) (round b)) (ancestors b) (reference b');
}.

Lemma clock_prev_quorum H t core :
  core_ok H t core → 0 < clock_round (threshold_clock core) →
  quorate c (authors_at H (clock_round (threshold_clock core) - 1)) = true.
Proof using.
  intros Hok Hpos. destruct (ck_reason _ _ _ (co_clock _ _ _ Hok)) as [?|[(x & Hx & Hr)|Hq]];
    [lia| |done].
  rewrite <-Hr in *. by apply (co_closed _ _ _ Hok).
Qed.

(** The pending blocks below a round that no other one of them names. *)
Definition tips (blocks : list VerifiedBlock) (a : BlockRef) : Prop :=
  ∃ b, b ∈ blocks ∧ reference b = a ∧ ∀ b', b' ∈ blocks → a ∉ ancestors b'.

Lemma ancestors_to_propose_ok H t core r now :
  core_ok H t core → t ≤ now →
  ∃ refs, ancestors_to_propose core r now
    = Done (mkCore (core_context core) (threshold_clock core) (last_proposed_block core)
              (transactions_consumer core)
              (filter (λ kv, r ≤ kv.1) (pending_ancestors core)) (block_manager core)
              (signals core) (block_signer core), refs)
    ∧ ∀ a, a ∈ refs ↔ a = reference (last_proposed_block core)
                      ∨ tips (pending_below (pending_ancestors core) r) a.
Proof.
  intros Hok Ht. unfold ancestors_to_propose.
  set (blocks := pending_below (pending_ancestors core) r).
  assert (forallb (λ b, timestamp_ms b <=? now) blocks = true) as ->.
  { apply forallb_forall. intros b Hb%list_elem_of_In.
    apply elem_of_pending_below in Hb as (k & Hk & Hb).
    destruct (co_pending _ _ _ Hok _ _ Hb) as (_ & _ & ? & _). lia. }
  simpl. rewrite bool_decide_false by set_solver. simpl. eexists. split; [done|].
  intros a. rewrite hash_iter_perm, elem_of_elements, elem_of_union, elem_of_singleton,
    elem_of_list_to_set, list_elem_of_filter, list_elem_of_fmap.
  apply or_iff_compat_l. unfold tips. setoid_rewrite elem_of_list_to_set.
  setoid_rewrite list_elem_of_bind. split.
  - intros [Hnot (b & -> & Hb)]. exists b. split; [done|]. split; [done|].
    intros b' Hb' Ha. apply Hnot. eauto.
  - intros (b & Hb & <- & Hnone). split; [|eauto]. intros (b' & Ha & Hb'). by eapply Hnone.
Qed.

(** Leaving out the blocks that other pending blocks name loses nothing. *)
Lemma tips_cover blocks roots r :
  (∀ b, b ∈ blocks → round b < r ∧ ∀ a, a ∈ ancestors b → ref_round a < round b) →
  (∀ a, tips blocks a → a ∈ roots) →
  ∀ b, b ∈ blocks → covered blocks roots (reference b).
Proof using.
  clear. intros Hblocks Htips b.
  remember (Z.to_nat (r - round b)) as n eqn:Hn. revert b Hn.
  induction n as [n IH] using lt_wf_ind. intros b Hn Hb.
  destruct (decide (Exists (λ b', reference b ∈ ancestors b') blocks)) as [Hex|Hno].
  - apply Exists_exists in Hex as (b' & Hb' & Ha).
    destruct (Hblocks b' Hb') as [Hr' Hanc]. pose proof (Hanc _ Ha) as Hlt. simpl in Hlt.
    eapply covered_step; [exact Hb'| |exact Ha].
    apply (IH (Z.to_nat (r - round b'))); [lia|done|done].
  - apply covered_root, Htips. exists b. split; [done|]. split; [done|].
    intros b' Hb' Ha. apply Hno, Exists_exists. eauto.
Qed.

(** The ancestors of a proposal at the clock's round. *)
Lemma proposed_ancestors H t core b refs :
  core_ok H t core → last_proposed_round core < clock_round (threshold_clock core) →
  (∀ a, a ∈ refs ↔ a = reference (last_proposed_block core)
     ∨ tips (pending_below (pending_ancestors core) (clock_round (threshold_clock core))) a) →
  author b = own_index (core_context core) → round b = clock_round (threshold_clock core) →
  ancestors b = refs → proposal_ok H core b.
Proof.
  intros Hok Hlt Hrefs Ha Hr Hanc. set (r := clock_round (threshold_clock core)) in *.
  assert (∀ b', b' ∈ pending_below (pending_ancestors core) r →
    reference b' ∈ H ∧ round b' < r ∧ ∀ a, a ∈ ancestors b' → ref_round a < round b') as Hbelow.
  { intros b' (k & Hk & Hb')%elem_of_pending_below.
    destruct (co_pending _ _ _ Hok _ _ Hb') as (-> & ? & _ & ?). split; [done|]. split; [lia|done]. }
  split; rewrite ?Hanc, ?Hr; try done.
  - apply Hrefs. by left.
  - intros a [->|(b' & Hb' & <- & _)]%Hrefs.
    + split; [apply (co_last _ _ _ Hok)|done].
    + by destruct (Hbelow b' Hb') as (? & ? & _).
  - assert (0 < r) as Hpos.
    { pose proof (co_range _ _ _ Hok _ (co_last _ _ _ Hok)) as Hl. simpl in Hl.
      unfold last_proposed_round in Hlt. lia. }
    eapply (quorate_mono c Hwfc), (clock_prev_quorum _ _ _ Hok Hpos). intros i Hi.
    apply elem_of_authors_at in Hi as (x & Hx & Hxr & <-).
    destruct (co_kept _ _ _ Hok x Hx) as (b' & Hb' & <-); [unfold r in Hxr; lia|].
    unfold parent_authors. apply elem_of_list_to_set, list_elem_of_fmap.
    exists (reference b'). split; [done|]. apply list_elem_of_filter. rewrite Hanc, Hr.
    split; [done|]. apply Hrefs. right.
    assert (b' ∈ pending_below (pending_ancestors core) r) as Hb''.
    { apply elem_of_pending_below. exists (ref_round (reference b')). split; [|done].
      pose proof (co_range _ _ _ Hok _ Hx). unfold r in *. lia. }
    exists b'. split; [done|]. split; [done|]. intros b'' (_ & Hlt'' & Hanc'')%Hbelow Hin.
    apply Hanc'' in Hin. unfold r in *. lia.
  - eapply tips_cover; [|intros a Htip; apply Hrefs; by right].
    intros b' (_ & ? & ?)%Hbelow. done.
Qed.

(** Signing and hashing a new block keeps its contents. *)
Lemma sign_block b signer :
  ∃ vb, (sb ← expect (SignedBlock_new b signer); expect (new_verified_unserialized sb)) = Done vb
    ∧ vb_inner vb = b.
Proof.
  unfold SignedBlock_new, new_verified_unserialized, new_verified, compute_digest.
  destruct (bcs_block_total b) as [bytes Hbytes]. rewrite Hbytes. simpl.
  destruct (bcs_signed_total (mkSigned b (signature_bytes (sign_digest signer (block_hash bytes)))))
    as [ser ->]. simpl. rewrite Hbytes. simpl. by eexists.
Qed.

Lemma leaders_exist_total H t core :
  core_ok H t core → ∃ go, last_quorum_leaders_exist core = Done go.
Proof.
  intros Hok. unfold last_quorum_leaders_exist, leaders. rewrite (co_ctx _ _ _ Hok).
  pose proof (wfc_size c Hwfc). pose proof (co_own _ _ _ Hok).
  rewrite wrap32_small by width. case_test (Z.of_nat (committee_size c) =? 0) as Hz; [lia|].
  by eexists.
Qed.

Lemma core_ok_time H t t' core : core_ok H t core → t ≤ t' → core_ok H t' core.
Proof using.
  intros [] Ht. split; try done. intros r b Hb.
  destruct (co_pending0 r b Hb) as (? & ? & ? & ?). repeat split; [done|done|lia|done].
Qed.

(** The core after a proposal. *)
Lemma core_ok_propose H t now core b tc consumer sig :
  core_ok H t core → t ≤ now → proposal_ok H core b → timestamp_ms b = now →
  clock_ok c ({[reference b]} ∪ H) tc →
  core_ok ({[reference b]} ∪ H) now
    (mkCore (core_context core) tc b consumer
       (push_ancestor (filter (λ kv, clock_round (threshold_clock core) ≤ kv.1)
          (pending_ancestors core)) b)
       (manager_add_blocks (block_manager core) [b]).1 sig (block_signer core)).
Proof.
  intros Hok Ht Hp Hnow Htc.
  pose proof (po_round _ _ _ Hp) as Hr. pose proof (po_fresh _ _ _ Hp) as Hfresh.
  pose proof (co_range _ _ _ Hok _ (co_last _ _ _ Hok)) as Hl. simpl in Hl.
  unfold last_proposed_round in Hfresh.
  split; simpl; try apply Hok; try done.
  - apply forall_insert; [simpl; lia|apply Hok].
  - apply (forall_insert (λ x, 0 < ref_round x →
      quorate c (authors_at ({[reference b]} ∪ H) (ref_round x - 1)) = true)); simpl.
    + intros Hpos. eapply (quorate_mono c Hwfc), (po_quorum _ _ _ Hp). intros i Hi.
      unfold parent_authors in Hi. apply elem_of_list_to_set, list_elem_of_fmap in Hi as (a & -> & Ha).
      apply list_elem_of_filter in Ha as [Har Ha]. apply elem_of_authors_at. exists a.
      split; [|done]. apply elem_of_union_r. by apply (po_ancestors _ _ _ Hp).
    + intros x Hx Hpos. eapply (quorate_mono c Hwfc), (co_closed _ _ _ Hok x Hx Hpos).
      apply authors_at_mono. set_solver.
  - set_solver.
  - apply (po_author _ _ _ Hp).
  - pose proof (manager_add_blocks_spec (block_manager core) [b]) as Hm.
    destruct (manager_add_blocks (block_manager core) [b]) as [bm out]. destruct Hm as [Hacc _].
    simpl in *. rewrite Hacc. pose proof (co_manager _ _ _ Hok). set_solver.
  - intros r x. rewrite push_ancestor_at, pending_filter_at. intros [[Hx _]|[-> ->]].
    + destruct (co_pending _ _ _ Hok _ _ Hx) as (? & ? & ? & ?). split; [done|].
      split; [set_solver|]. split; [lia|done].
    + split; [done|]. split; [set_solver|]. split; [lia|]. intros a Ha.
      by apply (po_ancestors _ _ _ Hp).
  - unfold last_proposed_round. simpl. rewrite Hr. intros x [->%elem_of_singleton|Hx]%elem_of_union; simpl.
    + intros _. exists b. rewrite push_ancestor_at. auto.
    + intros Hrx. destruct (co_kept _ _ _ Hok x Hx) as (y & Hy & Hyx).
      { unfold last_proposed_round. lia. }
      exists y. rewrite push_ancestor_at, pending_filter_at. auto.
Qed.

Lemma try_new_block_ok H t core ignore now :
  core_ok H t core → t ≤ now → clock_round (threshold_clock core) < u32_max →
  ∃ core' o, try_new_block core ignore now = Done (core', o)
    ∧ match o with
      | None => core' = core
      | Some b => proposal_ok H core b ∧ last_proposed_block core' = b
          ∧ core_ok ({[reference b]} ∪ H) now core'
          ∧ signals core' = new_block_ready (signals core) (reference b)
          ∧ clock_round (threshold_clock core') ≤ clock_round (threshold_clock core) + 1
      end.
Proof.
  intros Hok Ht Hmax. unfold try_new_block.
  case_test (clock_round (threshold_clock core) <=? last_proposed_round core) as Hlt; [by do 2 eexists|].
  destruct (leaders_exist_total H t core Hok) as [go Hgo].
  assert (∃ go', (if ignore then Done true else last_quorum_leaders_exist core) = Done go')
    as [[] Hgo']; [destruct ignore; eauto| |rewrite Hgo'; by do 2 eexists].
  rewrite Hgo'. simpl.
  destruct (ancestors_to_propose_ok H t core (clock_round (threshold_clock core)) now)
    as (refs & -> & Hrefs); [done..|]. simpl.
  destruct (consumer_next (transactions_consumer core)) as [consumer payload].
  set (block := V1 _).
  destruct (sign_block block (block_signer core)) as (vb & Hsign & Hvb).
  destruct (expect (SignedBlock_new block (block_signer core))) as [sb| |]; [simpl in Hsign|done..].
  simpl. rewrite Hsign. simpl.
  assert (proposal_ok H core vb) as Hp.
  { eapply (proposed_ancestors H t core vb refs); try done;
      unfold author, round, ancestors; by rewrite Hvb. }
  pose proof (co_range _ _ _ Hok _ (co_last _ _ _ Hok)) as Hl. simpl in Hl.
  destruct (clock_add_block_ok c Hwfc H (threshold_clock core) (reference vb))
    as (tc & Htc & Htcok & _ & Hround).
  { apply Hok. }
  { simpl. rewrite (po_author _ _ _ Hp). apply Hok. }
  { simpl. rewrite (po_round _ _ _ Hp). unfold last_proposed_round in Hlt. lia. }
  rewrite Htc. simpl.
  pose proof (core_ok_propose H t now core vb tc consumer
    (new_block_ready (signals core) (reference vb)) Hok Ht Hp) as Hnew.
  destruct (manager_add_blocks (block_manager core) [vb]) as [bm out]. simpl in Hnew.
  do 2 eexists. split; [done|]. simpl. split; [done|]. split; [done|]. split; [|split; [done|]].
  - apply Hnew; [|done]. unfold timestamp_ms. by rewrite Hvb.
  - simpl in Hround. rewrite (po_round _ _ _ Hp) in Hround. lia.
Qed.

(** Blocks as the synchronizer delivers them at time [now]: verified, with
    their ancestors known or in the same batch, and with a quorum of
    parents. *)
Definition delivered (H : gset BlockRef) (now : BlockTimestampMs) (blocks : list VerifiedBlock) : Prop :=
  ∀ b, b ∈ blocks →
    (author b < committee_size c)%nat ∧ 0 ≤ round b < u32_max - 2 ∧ timestamp_ms b ≤ now
    ∧ (∀ a, a ∈ ancestors b → ref_round a < round b ∧ (a ∈ H ∨ a ∈ reference <$> blocks))
    ∧ (0 < round b → quorate c (parent_authors b) = true).

Definition refs_of (blocks : list VerifiedBlock) : gset BlockRef :=
  list_to_set (reference <$> blocks).

Lemma elem_of_refs_of blocks x : x ∈ refs_of blocks ↔ ∃ b, b ∈ blocks ∧ reference b = x.
Proof using. unfold refs_of. rewrite elem_of_list_to_set, list_elem_of_fmap. naive_solver. Qed.

(** The core after a batch, before it tries to propose. *)
Lemma core_ok_accept H t now core blocks bm accepted tc sig :
  core_ok H t core → t ≤ now → delivered H now blocks →
  manager_add_blocks (block_manager core) blocks = (bm, accepted) →
  clock_ok c (refs_of blocks ∪ H) tc →
  core_ok (refs_of blocks ∪ H) now
    (mkCore (core_context core) tc (last_proposed_block core) (transactions_consumer core)
       (foldl push_ancestor (pending_ancestors core) accepted) bm sig (block_signer core)).
Proof.
  intros Hok Ht Hdel Hman Htc. pose proof (manager_add_blocks_spec (block_manager core) blocks) as Hm.
  rewrite Hman in Hm. destruct Hm as (Hacc & Hsub & Hall).
  split; simpl; try apply Hok; try done.
  - intros x [(b & Hb & <-)%elem_of_refs_of|Hx]%elem_of_union; [|by apply Hok].
    destruct (Hdel b Hb) as (_ & ? & _). simpl. lia.
  - intros x [(b & Hb & <-)%elem_of_refs_of|Hx]%elem_of_union Hpos; simpl in *.
    + destruct (Hdel b Hb) as (_ & _ & _ & Hanc & Hq).
      eapply (quorate_mono c Hwfc), (Hq Hpos). intros i Hi. unfold parent_authors in Hi.
      apply elem_of_list_to_set, list_elem_of_fmap in Hi as (a & -> & Ha).
      apply list_elem_of_filter in Ha as [Har Ha]. apply elem_of_authors_at. exists a.
      split; [|done]. apply elem_of_union. unfold refs_of. rewrite elem_of_list_to_set.
      destruct (Hanc a Ha) as [_ [?|?]]; auto.
    + eapply (quorate_mono c Hwfc), (co_closed _ _ _ Hok x Hx Hpos). apply authors_at_mono. set_solver.
  - apply elem_of_union_r, Hok.
  - rewrite Hacc. pose proof (co_manager _ _ _ Hok). unfold refs_of. set_solver.
  - intros r b. rewrite push_ancestors_at. intros [Hb|[Hb ->]].
    + destruct (co_pending _ _ _ Hok _ _ Hb) as (? & ? & ? & ?). split; [done|].
      split; [set_solver|]. split; [lia|done].
    + destruct (Hdel b (Hsub b Hb)) as (_ & _ & ? & Hanc & _). split; [done|].
      split; [apply elem_of_union_l, elem_of_refs_of; eauto|]. split; [done|].
      intros a Ha. by apply Hanc.
  - unfold last_proposed_round. simpl. intros x Hx Hr.
    assert (x ∈ H ∨ x ∈ reference <$> accepted) as [Hx'|Hx'].
    { apply elem_of_union in Hx as [(b & Hb & <-)%elem_of_refs_of|Hx]; [|by left].
      destruct (Hall b Hb); [left|by right]. by apply (co_manager _ _ _ Hok). }
    + destruct (co_kept _ _ _ Hok x Hx' Hr) as (b & Hb & Hbx). exists b.
      rewrite push_ancestors_at. auto.
    + apply list_elem_of_fmap in Hx' as (b & -> & Hb). exists b. rewrite push_ancestors_at. auto.
Qed.

Lemma core_add_blocks_ok H t core blocks now :
  core_ok H t core → t ≤ now → delivered H now blocks →
  clock_round (threshold_clock core) < u32_max - 2 →
  ∃ core' core1 o, core_add_blocks core blocks now = Done (core', [])
    ∧ core_ok (refs_of blocks ∪ H) now core1
    ∧ try_new_block core1 false now = Done (core', o)
    ∧ clock_round (threshold_clock core1) < u32_max
    ∧ last_proposed_block core1 = last_proposed_block core
    ∧ core_context core1 = core_context core
    ∧ (signals core1 = signals core ∨ ∃ r, signals core1 = new_round (signals core) r).
Proof.
  intros Hok Ht Hdel Hmax. unfold core_add_blocks.
  destruct (manager_add_blocks (block_manager core) blocks) as [bm accepted] eqn:Hman.
  pose proof (manager_add_blocks_spec (block_manager core) blocks) as Hm.
  rewrite Hman in Hm. destruct Hm as (Hacc & Hsub & Hall).
  destruct (clock_fold_ok c Hwfc H (threshold_clock core) (reference <$> accepted))
    as (tc & Htc & Htcok & _ & _ & Hbound).
  { apply Hok. }
  { intros x (b & -> & Hb%Hsub)%list_elem_of_fmap. destruct (Hdel b Hb) as (? & ? & _).
    simpl. split; [done|lia]. }
  assert (list_to_set (reference <$> accepted) ∪ H = refs_of blocks ∪ H) as HH.
  { apply set_eq. intros x. rewrite !elem_of_union, elem_of_refs_of, elem_of_list_to_set. split.
    - intros [(b & -> & Hb%Hsub)%list_elem_of_fmap|?]; eauto.
    - intros [(b & Hb & <-)|?]; [|by right]. destruct (Hall b Hb) as [?|?]; [|by left].
      right. by apply (co_manager _ _ _ Hok). }
  rewrite HH in Htcok. unfold clock_add_blocks. rewrite Htc. simpl.
  set (core1 := mkCore _ _ _ _ _ _ _ _).
  assert (core_ok (refs_of blocks ∪ H) now core1) as Hok1 by (by eapply core_ok_accept).
  assert (clock_round tc < u32_max) as Hlt.
  { enough (clock_round tc ≤ u32_max - 2) by lia. apply Hbound; [lia|].
    intros x (b & -> & Hb%Hsub)%list_elem_of_fmap. destruct (Hdel b Hb) as (_ & ? & _). simpl. lia. }
  destruct (try_new_block_ok _ now core1 false now Hok1) as (core' & o & Htry & _); [lia|done|].
  rewrite Htry. simpl. exists core', core1, o. repeat (split; [done|]).
  simpl. case_match; eauto.
Qed.

(** ** Start-up *)

Definition genesis_block (b : VerifiedBlock) : Prop :=
  round b = 0 ∧ (author b < committee_size c)%nat ∧ ancestors b = [] ∧ timestamp_ms b = 0.

Lemma genesis_ok ctx :
  committee ctx = c → (own_index ctx < committee_size c)%nat →
  ∃ my others, genesis ctx = Done (my, others) ∧ author my = own_index ctx
    ∧ ∀ b, b ∈ others ++ [my] → genesis_block b.
Proof.
  intros Hc Hown. unfold genesis. rewrite Hc.
  set (f := λ '(i, _), expect (new_verified_unserialized
     (SignedBlock_new_genesis (V1 (BlockV1_genesis i (epoch c)))))).
  assert (∀ i a, ∃ b, f (i, a) = Done b ∧ vb_inner b = V1 (BlockV1_genesis i (epoch c))) as Hf.
  { intros i a. unfold f, new_verified_unserialized, new_verified, compute_digest, SignedBlock_new_genesis.
    destruct (bcs_signed_total (mkSigned (V1 (BlockV1_genesis i (epoch c))) [])) as [? ->]. simpl.
    destruct (bcs_block_total (V1 (BlockV1_genesis i (epoch c)))) as [? ->]. simpl. by eexists. }
  clearbody f.
  assert (∃ bs, mapM f (authorities_iter c) = Done bs) as [bs Hbs].
  { induction (authorities_iter c) as [|[i a] l [bs IH]]; [by eexists|].
    simpl. destruct (Hf i a) as (b & -> & _). simpl. rewrite IH. by eexists. }
  rewrite Hbs. simpl. apply mapM_Done in Hbs.
  assert (∀ b, b ∈ bs → genesis_block b) as Hgen.
  { intros b Hb. apply list_elem_of_lookup in Hb as [k Hb].
    destruct (Forall2_lookup_r _ _ _ _ _ Hbs Hb) as ([i a] & Hk & Hfb).
    destruct (Hf i a) as (b' & Hb' & Hin). rewrite Hfb in Hb'. injection Hb' as <-.
    assert (i < committee_size c)%nat.
    { unfold authorities_iter in Hk. rewrite list_lookup_imap in Hk.
      destruct (authorities c !! k) eqn:Hx; simplify_eq/=. by eapply lookup_lt_Some. }
    unfold genesis_block, round, author, ancestors, timestamp_ms. by rewrite Hin. }
  assert (∃ b, b ∈ bs ∧ author b = own_index ctx) as (my & Hmy & Hauthor).
  { destruct (lookup_lt_is_Some_2 (authorities c) (own_index ctx) Hown) as [a Ha].
    assert (authorities_iter c !! own_index ctx = Some (own_index ctx, a)) as Hi.
    { unfold authorities_iter. by rewrite list_lookup_imap, Ha. }
    destruct (Forall2_lookup_l _ _ _ _ _ Hbs Hi) as (b & Hb & Hfb). exists b.
    split; [by eapply list_elem_of_lookup_2|]. destruct (Hf (own_index ctx) a) as (b' & Hb' & Hin).
    rewrite Hfb in Hb'. injection Hb' as <-. unfold author. by rewrite Hin. }
  destruct (filter (λ b, author b = own_index ctx) bs) as [|b0 rest] eqn:Hfilter.
  { assert (my ∈ filter (λ b, author b = own_index ctx) bs) as Hin by (by apply list_elem_of_filter).
    rewrite Hfilter in Hin. by apply not_elem_of_nil in Hin. }
  assert (author b0 = own_index ctx ∧ b0 ∈ bs) as [Hb0 Hb0in].
  { apply (list_elem_of_filter (λ b, author b = own_index ctx)). rewrite Hfilter. by left. }
  simpl. do 2 eexists. split; [done|]. split; [done|].
  intros b [Hb|Hb%list_elem_of_singleton]%elem_of_app; [|subst; by apply Hgen].
  apply list_elem_of_filter in Hb as [_ Hb]. by apply Hgen.
Qed.

Lemma Core_new_ok ctx consumer sig signer :
  committee ctx = c → (own_index ctx < committee_size c)%nat →
  ∃ my others core, genesis ctx = Done (my, others)
    ∧ Core_new ctx consumer manager_new sig signer = Done core
    ∧ core_ok (refs_of (others ++ [my])) 0 core
    ∧ last_proposed_block core = my ∧ signals core = new_round sig (clock_round (threshold_clock core)).
Proof.
  intros Hc Hown. destruct (genesis_ok ctx Hc Hown) as (my & others & Hgen & Hmy & Hall).
  unfold Core_new. rewrite Hgen. simpl. set (blocks := others ++ [my]) in *.
  destruct (clock_fold_ok c Hwfc ∅ (clock_new 0 ctx) (reference <$> blocks))
    as (tc & -> & Htc & _); [by apply clock_new_ok| |].
  { intros x (b & -> & Hb)%list_elem_of_fmap. destruct (Hall b Hb) as (Hr & ? & _). simpl.
    rewrite Hr. split; [done|width]. }
  rewrite (right_id_L ∅ (∪)) in Htc. fold (refs_of blocks) in Htc. simpl.
  do 3 eexists. split; [done|]. split; [done|]. split; [|done].
  assert (my ∈ blocks) as Hin by (apply elem_of_app; right; by left).
  assert (∀ x, x ∈ refs_of blocks → ref_round x = 0) as Hzero.
  { intros x (b & Hb & <-)%elem_of_refs_of. by destruct (Hall b Hb) as (? & _). }
  assert (∀ r b, ¬ pending_at ∅ r b) as Hempty
    by (intros r b (l & Hl & _); by rewrite lookup_empty in Hl).
  split; simpl; try done.
  - intros x Hx%Hzero. lia.
  - intros x Hx%Hzero. lia.
  - apply elem_of_refs_of. eauto.
  - intros r b. rewrite push_ancestors_at. intros [Hb|[Hb ->]]; [by apply Hempty in Hb|].
    destruct (Hall b Hb) as (? & ? & Hanc & Ht). split; [done|].
    split; [apply elem_of_refs_of; eauto|]. split; [lia|]. rewrite Hanc. set_solver.
  - intros x (b & Hb & <-)%elem_of_refs_of _. exists b. rewrite push_ancestors_at. auto.
Qed.

(** ** Runs of the core thread *)

Definition command_ok (H : gset BlockRef) (now : BlockTimestampMs) (cmd : CoreThreadCommand) : Prop :=
  match cmd with AddBlocks blocks => delivered H now blocks | _ => True end.

Definition command_refs (cmd : CoreThreadCommand) : gset BlockRef :=
  match cmd with AddBlocks blocks => refs_of blocks | _ => ∅ end.

(** [reachable ctx core H t]: the core thread reaches [core] at time [t], having
    seen [H]. *)
Inductive reachable (ctx : Context) : Core → gset BlockRef → BlockTimestampMs → Prop :=
  | reachable_new my others consumer signer core :
      genesis ctx = Done (my, others) →
      Core_new ctx consumer manager_new [] signer = Done core →
      reachable ctx core (refs_of (others ++ [my])) 0
  | reachable_serve core H t cmd now core' reply :
      reachable ctx core H t → t ≤ now → command_ok H now cmd →
      clock_round (threshold_clock core) < u32_max - 2 →
      serve core cmd now = Done (core', reply) →
      reachable ctx core'
        ({[reference (last_proposed_block core')]} ∪ (command_refs cmd ∪ H)) now.

(** A block that properly extends an earlier one of the same author. *)
Definition extends (H : gset BlockRef) (old b : VerifiedBlock) : Prop :=
  author b = author old ∧ round old < round b ∧ reference old ∈ ancestors b
  ∧ (∀ a, a ∈ ancestors b → a ∈ H ∧ ref_round a < round b)
  ∧ quorate c (parent_authors b) = true.

(** The rounds of the blocks announced so far. *)
Definition announced (sig : list Signal) : list Round :=
  omap (λ s, match s with NewBlockReady r => Some (ref_round r) | NewRound _ => None end) sig.

(** Served commands keep the invariant; what is announced grows with the last
    proposed block only. *)
Definition serve_post (H : gset BlockRef) (now : BlockTimestampMs) (core : Core)
    (cmd : CoreThreadCommand) (core' : Core) : Prop :=
  core_ok ({[reference (last_proposed_block core')]} ∪ (command_refs cmd ∪ H)) now core'
  ∧ ((last_proposed_block core' = last_proposed_block core
      ∧ announced (signals core') = announced (signals core))
     ∨ (extends (command_refs cmd ∪ H) (last_proposed_block core) (last_proposed_block core')
        ∧ announced (signals core')
          = announced (signals core) ++ [round (last_proposed_block core')])).

Lemma serve_try H now core core1 core' cmd ignore o :
  core_ok (command_refs cmd ∪ H) now core1 → clock_round (threshold_clock core1) < u32_max →
  last_proposed_block core1 = last_proposed_block core →
  core_context core1 = core_context core →
  announced (signals core1) = announced (signals core) →
  try_new_block core1 ignore now = Done (core', o) →
  serve_post H now core cmd core'.
Proof.
  intros Hok Hmax Hlast Hctx Hsig Htry.
  destruct (try_new_block_ok _ now core1 ignore now Hok) as (core'' & o' & Htry' & Hpost); [lia|done|].
  rewrite Htry' in Htry. injection Htry as -> ->. unfold serve_post.
  destruct o as [b|].
  - destruct Hpost as (Hp & -> & Hok' & Hs & _). split; [done|]. right. split.
    + destruct Hp as [Ha Hr Hf Ho Hanc Hq _]. unfold last_proposed_round in Hf.
      rewrite Hlast in *. pose proof (co_author _ _ _ Hok) as Hauth. rewrite Hlast in Hauth.
      split; [congruence|]. done.
    + unfold announced in *. rewrite Hs. unfold new_block_ready. rewrite omap_app, Hsig. done.
  - subst core'. split; [|left; by rewrite Hlast].
    by replace ({[reference (last_proposed_block core1)]} ∪ (command_refs cmd ∪ H))
      with (command_refs cmd ∪ H) by (pose proof (co_last _ _ _ Hok); set_solver).
Qed.

Lemma serve_ok H t core cmd now :
  core_ok H t core → t ≤ now → command_ok H now cmd →
  clock_round (threshold_clock core) < u32_max - 2 →
  ∃ core' reply, serve core cmd now = Done (core', reply) ∧ serve_post H now core cmd core'.
Proof.
  intros Hok Ht Hcmd Hmax. pose proof (core_ok_time _ _ _ _ Hok Ht) as Hnow.
  assert (∀ cmd', command_refs cmd' = ∅ → serve_post H now core cmd' core) as Hsame.
  { intros cmd' Hc. unfold serve_post. rewrite Hc, (left_id_L ∅ (∪)). split; [|by left].
    by replace ({[reference (last_proposed_block core)]} ∪ H) with H
      by (pose proof (co_last _ _ _ Hok); set_solver). }
  destruct cmd as [blocks|r|]; simpl in *.
  - destruct (core_add_blocks_ok H t core blocks now)
      as (core' & core1 & o & -> & Hok1 & Htry & Hlt & Hlast & Hctx & Hsig); [done..|].
    simpl. do 2 eexists. split; [done|].
    eapply (serve_try H now core core1 core' (AddBlocks blocks)); [done..| |done].
    unfold announced. destruct Hsig as [->|[r ->]]; [done|].
    unfold new_round. rewrite omap_app. simpl. by rewrite app_nil_r.
  - unfold force_new_block.
    case_test (last_proposed_round core <? r) as Hr; [|simpl; eauto].
    destruct (try_new_block_ok H now core true now Hnow) as (core' & o & Htry & _); [lia|lia|].
    rewrite Htry. simpl. do 2 eexists. split; [done|].
    eapply (serve_try H now core core core' (ForceNewBlock r)); try done; [|lia].
    simpl. by rewrite (left_id_L ∅ (∪)).
  - eauto.
Qed.

Lemma reachable_ok ctx core H t :
  committee ctx = c → (own_index ctx < committee_size c)%nat → reachable ctx core H t →
  core_ok H t core ∧ StronglySorted Z.lt (announced (signals core))
  ∧ (∀ r, r ∈ announced (signals core) → r ≤ last_proposed_round core).
Proof.
  intros Hc Hown. induction 1 as [my others consumer signer core Hgen Hnew
    |core H t cmd now core' reply Hreach IH Ht Hcmd Hmax Hserve].
  - destruct (Core_new_ok ctx consumer [] signer Hc Hown)
      as (my' & others' & core' & Hgen' & Hnew' & Hok & _ & Hsig).
    rewrite Hgen in Hgen'. injection Hgen' as <- <-. rewrite Hnew in Hnew'. injection Hnew' as <-.
    split; [done|]. rewrite Hsig. split; [constructor|]. by intros r Hr%not_elem_of_nil.
  - destruct IH as (Hok & Hsorted & Hle).
    destruct (serve_ok H t core cmd now) as (core'' & reply' & Hserve' & Hok' & Hpost); [done..|].
    rewrite Hserve in Hserve'. injection Hserve' as <- <-. split; [done|].
    unfold last_proposed_round in *.
    destruct Hpost as [[-> ->]|[(_ & Hlt & _) ->]]; [done|]. split.
    + apply StronglySorted_app_2; [|done|repeat constructor].
      intros x y Hx%Hle Hy%list_elem_of_singleton. lia.
    + intros r [Hr%Hle|Hr%list_elem_of_singleton]%elem_of_app; lia.
Qed.
End proposals.

Section proposal_theorems.
Context `{Hcrypto : !BlockCrypto, Hbcs : !BcsTotal, Hhash : !HashOrder, Hlaws : !HashOrderLaws}.
Context (c : Committee).

(** C16: Every command the core thread serves returns, and the block it proposes,
    if any, is one the commit rule relies on: in every reachable state, for a
    forced proposal or a batch of blocks as [delivered] describes them, the last
    proposed block stays or is replaced by a block of the same author, of a
    later round, that names the previous one, names only known blocks of
    earlier rounds, and has a quorum of parents in the round before.  What the
    blocks of a batch must have, and no code of the core checks: an author of
    the committee, a round in range, a timestamp that is not in the future,
    ancestors of earlier rounds that are known or in the batch, and a quorum of
    parents in the round before.  Clocks do not go back, and the round is two
    below its maximum. *)
Theorem core_serve_correct ctx core H t cmd now :
  wf_committee c → committee ctx = c → (own_index ctx < committee_size c)%nat →
  reachable c ctx core H t → t ≤ now → command_ok c H now cmd →
  clock_round (threshold_clock core) < u32_max - 2 →
  ∃ core' reply, serve core cmd now = Done (core', reply)
    ∧ (last_proposed_block core' = last_proposed_block core
       ∨ extends c (command_refs cmd ∪ H) (last_proposed_block core) (last_proposed_block core')).
Proof.
  intros Hwfc Hc Hown Hreach Ht Hcmd Hmax.
  destruct (reachable_ok c Hwfc ctx core H t Hc Hown Hreach) as (Hok & _).
  destruct (serve_ok c Hwfc H t core cmd now Hok Ht Hcmd Hmax) as (core' & reply & Hs & _ & Hpost).
  exists core', reply. split; [done|]. destruct Hpost as [[? _]|[? _]]; auto.
Qed.

(** A pending block with a timestamp ahead of the clock ends the process at the
    next forced proposal. *)
Theorem future_ancestor_panics core now b :
  last_proposed_round core < clock_round (threshold_clock core) →
  b ∈ pending_below (pending_ancestors core) (clock_round (threshold_clock core)) → now < timestamp_ms b →
  try_new_block core true now = Panic.
Proof.
  intros Hr Hb Ht. unfold try_new_block, ancestors_to_propose.
  case_test (clock_round (threshold_clock core) <=? last_proposed_round core) as Hle; [lia|]. simpl.
  destruct (forallb _ _) eqn:Hall; [|done]. rewrite forallb_forall in Hall.
  specialize (Hall b ltac:(by apply list_elem_of_In)). apply Z.leb_le in Hall. lia.
Qed.

(** C18: An honest validator does not equivocate: the rounds of the blocks it
    announces strictly increase along every run of the core thread. *)
Theorem core_no_equivocation ctx core H t :
  wf_committee c → committee ctx = c → (own_index ctx < committee_size c)%nat →
  reachable c ctx core H t → StronglySorted Z.lt (announced (signals core)).
Proof.
  intros Hwfc Hc Hown Hreach. by apply (reachable_ok c Hwfc ctx core H t Hc Hown).
Qed.

(** C36: The compression of references loses nothing.  A block that
    [try_new_block] creates names, directly or through the pending blocks it
    names, every block that was pending below its round. *)
Theorem proposal_covers_pending ctx core H t ignore now core' b :
  wf_committee c → committee ctx = c → (own_index ctx < committee_size c)%nat →
  reachable c ctx core H t → t ≤ now → clock_round (threshold_clock core) < u32_max →
  try_new_block core ignore now = Done (core', Some b) →
  ∀ b', b' ∈ pending_below (pending_ancestors core) (round b) →
    covered (pending_below (pending_ancestors core) (round b)) (ancestors b) (reference b').
Proof.
  intros Hwfc Hc Hown Hreach Ht Hmax Htry.
  destruct (reachable_ok c Hwfc ctx core H t Hc Hown Hreach) as (Hok & _).
  destruct (try_new_block_ok c Hwfc H t core ignore now Hok Ht Hmax) as (core'' & o & Htry' & Hpost).
  rewrite Htry in Htry'. injection Htry' as <- <-. destruct Hpost as [Hp _].
  apply (po_covers _ _ _ _ Hp).
Qed.
End proposal_theorems.

(** * Leader timeout *)

(** The rounds announced by a sequence of events. *)
Definition changes (es : list TimeoutEvent) : list Round :=
  omap (λ e, match e with RoundChanged r _ => Some r | _ => None end) es.

(** The leader timeout forces at most one block for each round it is told
    of: the rounds passed to [force_new_block] are, in order, a subsequence of
    the round watched at the start (unless it has timed out already) followed
    by the rounds announced since. *)
Theorem timeout_once_per_round timeout s es :
  timeout_run timeout s es `sublist_of`
    (if leader_round_timed_out s then [] else [leader_round_watched s]) ++ changes es.
Proof.
  revert s. induction es as [|[ok|r now|] es IH]; intros s; simpl; try apply sublist_nil_l.
  - destruct (leader_round_timed_out s) eqn:Hs; simpl.
    + pose proof (IH s) as IHs. by rewrite Hs in IHs.
    + destruct ok; simpl; [|apply sublist_skip, sublist_nil_l].
      apply sublist_skip. apply (IH (mkTimeout (leader_round_watched s) true (deadline s))).
  - apply sublist_inserts_l. apply (IH (mkTimeout r false (now + timeout))).
Qed.

(** * The theorems on concrete inputs *)

Lemma example_no_dominant : no_dominant example_committee.
Proof.
  intros i Hi. change (i < 4)%nat in Hi.
  do 4 (destruct i as [|i]; [vm_compute; reflexivity|]). lia.
Qed.

Lemma threshold_clock_exact_witness :
  ∃ tc advanced,
    clock_add_blocks (clock_new 0 (mkContext 0 example_committee)) (parents_of 0 ++ parents_of 2)
      = Done (tc, advanced)
    ∧ ∀ r, clock_spec example_committee (list_to_set (parents_of 0 ++ parents_of 2)) r
        ↔ r = clock_round tc.
Proof.
  apply (threshold_clock_exact example_committee).
  - exact example_committee_wf.
  - exact example_no_dominant.
  - reflexivity.
  - intros x Hx. simpl in Hx.
    repeat (apply elem_of_cons in Hx as [->|Hx]; [vm_compute; split; [lia|split; congruence]|]).
    by apply not_elem_of_nil in Hx.
Defined.

(** Four transactions of two bytes for blocks of at most five. *)
Definition example_tx : Transaction := mkTransaction [Byte.x00; Byte.x01].
Definition example_consumer : TransactionsConsumer :=
  mkConsumer [example_tx; example_tx; example_tx] 5 2 (Some example_tx).

Lemma example_consumer_ok : consumer_ok 3 example_consumer.
Proof.
  split; try done. intros t Ht. simpl in Ht.
  repeat (apply elem_of_cons in Ht as [->|Ht]; [done|]). by apply not_elem_of_nil in Ht.
Qed.

Lemma transactions_in_order_witness :
  let '(tc', accepted, out) := tx_run 3 example_consumer
    [Next; Submit [Byte.x02]; Next; Submit [Byte.x03; Byte.x03; Byte.x03; Byte.x03]; Next] in
  backlog example_consumer ++ accepted = out ++ backlog tc'.
Proof. apply (transactions_in_order 3 example_consumer). exact example_consumer_ok. Defined.

Lemma consumer_next_bounds_witness :
  let '(tc', out) := consumer_next example_consumer in
  size_of out ≤ max_consumed_bytes_per_request example_consumer
  ∧ Z.of_nat (length out) ≤ max_consumed_transactions_per_request example_consumer
  ∧ ∀ t rest, backlog tc' = t :: rest →
      Z.of_nat (length out) = max_consumed_transactions_per_request example_consumer
      ∨ max_consumed_bytes_per_request example_consumer < size_of (out ++ [t]).
Proof.
  apply (consumer_next_bounds 3 example_consumer); [exact example_consumer_ok|].
  vm_compute. discriminate.
Defined.


(** Trivial serialization, hashing and signatures. *)
#[local] Instance example_crypto : BlockCrypto := {|
  bcs_block _ := Some [];
  bcs_signed _ := Some [];
  block_hash _ := 0;
  signature_type := unit;
  signer_type := unit;
  sign_digest _ _ := tt;
  signature_bytes _ := [];
  signature_from_bytes _ := Some tt;
  verify_digest _ _ _ := true;
|}.
#[local] Instance example_bcs : BcsTotal.
Proof. split; intros; by eexists. Qed.
#[local] Instance example_hash : HashOrder := elements.
#[local] Instance example_hash_laws : HashOrderLaws.
Proof. by intros s. Qed.

Definition example_context : Context := mkContext 0 example_committee.

Definition example_start : Core :=
  match Core_new example_context example_consumer manager_new [] tt with
  | Done core => core
  | _ => mkCore example_context (clock_new 0 example_context) equivocation example_consumer ∅
           manager_new [] tt
  end.

Definition example_genesis : VerifiedBlock * list VerifiedBlock :=
  match genesis example_context with Done g => g | _ => (equivocation, []) end.

Definition example_seen : gset BlockRef :=
  refs_of (example_genesis.2 ++ [example_genesis.1]).

(** The blocks of round 1 of the other authorities. *)
Definition example_batch : list VerifiedBlock :=
  (λ a, example_block 1 a 0 ((λ i, mkRef 0 i 0) <$> seq 0 4)) <$> [1; 2; 3]%nat.

Lemma example_start_reachable : reachable example_committee example_context example_start example_seen 0.
Proof.
  apply (reachable_new (Hcrypto := example_crypto) example_committee example_context
    example_genesis.1 example_genesis.2 example_consumer tt); vm_compute; reflexivity.
Qed.

Lemma example_batch_delivered : delivered example_committee example_seen 5 example_batch.
Proof.
  intros b Hb. simpl in Hb.
  repeat (apply elem_of_cons in Hb as [->|Hb];
    [split; [vm_compute; lia|]; split; [vm_compute; split; congruence|];
     split; [vm_compute; discriminate|]; split; [|by vm_compute]|]).
  all: try by apply not_elem_of_nil in Hb.
  all: intros a Ha; simpl in Ha;
    repeat (apply elem_of_cons in Ha as [->|Ha]; [split; [done|left; by apply (bool_decide_unpack _); vm_compute]|]).
  all: try by apply not_elem_of_nil in Ha.
Qed.

Lemma core_serve_correct_witness :
  ∃ core' reply, serve example_start (AddBlocks example_batch) 5 = Done (core', reply)
    ∧ (last_proposed_block core' = last_proposed_block example_start
       ∨ extends example_committee (command_refs (AddBlocks example_batch) ∪ example_seen)
           (last_proposed_block example_start) (last_proposed_block core')).
Proof.
  apply (core_serve_correct example_committee example_context example_start example_seen 0).
  - exact example_committee_wf.
  - reflexivity.
  - vm_compute. lia.
  - exact example_start_reachable.
  - lia.
  - exact example_batch_delivered.
  - vm_compute. reflexivity.
Defined.

(** A run: a block forced for round 1 at time 1, then the batch at time 5. *)
Definition served (core : Core) (cmd : CoreThreadCommand) (now : BlockTimestampMs) : Core :=
  match serve core cmd now with Done (core', _) => core' | _ => core end.
Definition example_forced : Core := served example_start (ForceNewBlock 1) 1.
Definition example_served : Core := served example_forced (AddBlocks example_batch) 5.
Definition example_forced_seen : gset BlockRef :=
  {[reference (last_proposed_block example_forced)]} ∪ (command_refs (ForceNewBlock 1) ∪ example_seen).
Definition example_served_seen : gset BlockRef :=
  {[reference (last_proposed_block example_served)]} ∪ (command_refs (AddBlocks example_batch) ∪ example_forced_seen).

Lemma delivered_mono c (H H' : gset BlockRef) now blocks : H ⊆ H' → delivered c H now blocks → delivered c H' now blocks.
Proof.
  intros Hsub Hd b Hb. destruct (Hd b Hb) as (? & ? & ? & Hanc & ?). do 3 (split; [done|]). split; [|done].
  intros a Ha. destruct (Hanc a Ha) as [? [?|?]]; split; try done; [left|by right]. by apply Hsub.
Qed.
Lemma example_served_reachable :
  reachable example_committee example_context example_served example_served_seen 5.
Proof.
  eapply (reachable_serve _ _ example_forced example_forced_seen 1 (AddBlocks example_batch) 5 example_served).
  - eapply (reachable_serve _ _ example_start example_seen 0 (ForceNewBlock 1) 1 example_forced);
      [exact example_start_reachable|lia|exact I|vm_compute; reflexivity|vm_compute; reflexivity].
  - lia.
  - eapply delivered_mono; [|exact example_batch_delivered]. unfold example_forced_seen. set_solver.
  - vm_compute. reflexivity.
  - vm_compute. reflexivity.
Qed.
Lemma core_no_equivocation_witness :
  announced (signals example_served) = [1; 2] ∧ StronglySorted Z.lt (announced (signals example_served)).
Proof.
  split; [vm_compute; reflexivity|].
  apply (core_no_equivocation example_committee example_context example_served example_served_seen 5).
  - exact example_committee_wf.
  - reflexivity.
  - vm_compute. lia.
  - exact example_served_reachable.
Defined.

(** The first block of the example, forced at time 5. *)
Definition example_proposal : Core * option VerifiedBlock :=
  match try_new_block example_start true 5 with
  | Done r => r
  | _ => (example_start, None)
  end.

Lemma proposal_covers_pending_witness :
  ∃ b, example_proposal.2 = Some b
    ∧ ∀ b', b' ∈ pending_below (pending_ancestors example_start) (round b) →
        covered (pending_below (pending_ancestors example_start) (round b)) (ancestors b)
          (reference b').
Proof.
  eexists. split; [vm_compute; reflexivity|].
  apply (proposal_covers_pending example_committee example_context example_start example_seen 0
    true 5 example_proposal.1).
  - exact example_committee_wf.
  - reflexivity.
  - vm_compute. lia.
  - exact example_start_reachable.
  - lia.
  - vm_compute. reflexivity.
  - vm_compute. reflexivity.
Defined.

(** The core serves the batch by proposing a block of its own for round 2. *)
Example core_example :
  (λ r, round (last_proposed_block r.1)) <$> serve example_start (AddBlocks example_batch) 5
    = Done 2.
Proof. vm_compute. reflexivity. Qed.
