(* ===== verification/DagStore.v ===== *)
(** Recovery of the DAG state from storage.

    The laws of the [Store] trait are a class over an abstract map of blocks
    and commits; [MemStore] is proved to satisfy them, and the recovery theorem
    for [DagState::new] is proved from the laws alone.  It also shows what
    [accept_block] adds. *)
From S2P Require Import Prelude ConsensusCommittee ConsensusBlock ConsensusDag.
From S2P Require Import DagExample.

Definition valid_ref (r : BlockRef) : Prop :=
  0 ≤ ref_round r ≤ u32_max ∧ DIGEST_MIN ≤ ref_digest r ≤ DIGEST_MAX.

(** Blocks stored under their own, representable references. *)
Definition keyed (D : Dag) : Prop := ∀ r b, D !! r = Some b → reference b = r ∧ valid_ref r.

Definition by_reference (bs : list VerifiedBlock) : list (BlockRef * VerifiedBlock) :=
  (λ b, (reference b, b)) <$> bs.

(** The blocks written, later ones replacing earlier ones. *)
Definition write_blocks (D : Dag) (bs : list VerifiedBlock) : Dag :=
  foldl (λ D b, <[reference b := b]> D) D bs.
Definition write_commits (m : gmap Z Commit) (cs : list Commit) : gmap Z Commit :=
  foldl (λ m c, <[commit_index c := c]> m) m cs.

(** What [DagState] relies on of a store. *)
Class StoreLaws (St : Type) `{!Store St} := {
  store_ok : St → Prop;
  store_blocks : St → Dag;
  store_commits : St → gmap Z Commit;
  store_keyed s : store_ok s → keyed (store_blocks s);
  store_write_law s bs cs :
    store_ok s → Forall (λ b, valid_ref (reference b)) bs →
    ∃ s', store_write s bs cs = Ok s' ∧ store_ok s'
      ∧ store_blocks s' = write_blocks (store_blocks s) bs
      ∧ store_commits s' = write_commits (store_commits s) cs;
  store_read_law s rs :
    store_ok s → store_read_blocks s rs = Ok ((λ r, store_blocks s !! r) <$> rs);
  store_scan_law s a r :
    store_ok s →
    ∃ l, store_scan_blocks_by_author s a r = Done (Ok l) ∧ NoDup (reference <$> l)
      ∧ ∀ b, b ∈ l ↔ store_blocks s !! reference b = Some b ∧ author b = a ∧ r ≤ round b;
  store_last_law s :
    store_ok s →
    ∃ o, store_read_last_commit s = Ok o ∧
      match o with
      | None => store_commits s = ∅
      | Some c => ∃ i, store_commits s !! i = Some c ∧ ∀ j, is_Some (store_commits s !! j) → j ≤ i
      end;
}.

(** * The memory store satisfies the laws *)

Record ms_ok (s : MemStore) : Prop := {
  ms_keyed : keyed (ms_blocks s);
  ms_index : ∀ k, k ∈ ms_digests_by_authorities s ↔ ∃ r, is_Some (ms_blocks s !! r) ∧ author_key r = k;
}.

Lemma author_key_inj r1 r2 : author_key r1 = author_key r2 → r1 = r2.
Proof. destruct r1, r2. unfold author_key. simpl. by intros [= -> -> ->]. Qed.

Lemma MemStore_new_ok : ms_ok MemStore_new.
Proof.
  split; [intros r b; simpl; by rewrite lookup_empty|]. intros k. simpl. split; [set_solver|].
  intros (r & [b Hb] & _). by rewrite lookup_empty in Hb.
Qed.

Lemma mem_write_blocks s cs :
  ms_blocks (foldl (λ s c, mkMemStore (ms_blocks s) (ms_digests_by_authorities s)
      (<[commit_index c := c]> (ms_commits s))) s cs) = ms_blocks s
  ∧ ms_digests_by_authorities (foldl (λ s c, mkMemStore (ms_blocks s) (ms_digests_by_authorities s)
      (<[commit_index c := c]> (ms_commits s))) s cs) = ms_digests_by_authorities s
  ∧ ms_commits (foldl (λ s c, mkMemStore (ms_blocks s) (ms_digests_by_authorities s)
      (<[commit_index c := c]> (ms_commits s))) s cs) = write_commits (ms_commits s) cs.
Proof.
  revert s. induction cs as [|c cs IH]; intros s; simpl; [done|].
  by destruct (IH (mkMemStore (ms_blocks s) (ms_digests_by_authorities s)
    (<[commit_index c := c]> (ms_commits s)))) as (-> & -> & ->).
Qed.

Lemma mem_write_ok s bs cs :
  ms_ok s → Forall (λ b, valid_ref (reference b)) bs →
  ms_ok (mem_write s bs cs)
  ∧ ms_blocks (mem_write s bs cs) = write_blocks (ms_blocks s) bs
  ∧ ms_commits (mem_write s bs cs) = write_commits (ms_commits s) cs.
Proof.
  intros Hok Hbs. unfold mem_write.
  set (f := λ s b, mkMemStore (<[reference b := b]> (ms_blocks s))
    ({[author_key (reference b)]} ∪ ms_digests_by_authorities s) (ms_commits s)).
  assert (ms_ok (foldl f s bs) ∧ ms_blocks (foldl f s bs) = write_blocks (ms_blocks s) bs
    ∧ ms_commits (foldl f s bs) = ms_commits s) as (Hok' & Hb & Hc).
  { revert s Hok. induction Hbs as [|b bs Hb Hbs IH]; intros s Hok; simpl; [done|].
    assert (ms_ok (f s b)) as Hok'.
    { destruct Hok as [Hkey Hidx]. split; simpl.
      - intros r x. rewrite lookup_insert_Some. intros [[<- <-]|[_ ?]]; [done|by apply Hkey].
      - intros k. rewrite elem_of_union, elem_of_singleton, Hidx. split.
        + intros [->|(r & Hr & <-)]; [exists (reference b)|exists r].
          * by rewrite lookup_insert_eq.
          * by rewrite lookup_insert_is_Some'; auto.
        + intros (r & Hr & <-). rewrite lookup_insert_is_Some' in Hr.
          destruct Hr as [<-|Hr]; [by left|right; eauto]. }
    by destruct (IH (f s b) Hok') as (? & -> & ->). }
  destruct (mem_write_blocks (foldl f s bs) cs) as (Hb' & Hd' & Hc').
  split; [|by rewrite Hb', Hc', Hb, Hc].
  destruct Hok' as [Hkey Hidx]. split; rewrite ?Hb', ?Hd'; done.
Qed.

Lemma author_range_spec a r k :
  valid_ref k →
  (akey_leb (a, r, DIGEST_MIN) (author_key k) && akey_leb (author_key k) (a, u32_max, DIGEST_MAX))%bool
    = true
  ↔ ref_author k = a ∧ r ≤ ref_round k.
Proof.
  destruct k as [kr ka kd]. intros [Hr Hd]. unfold author_key, akey_leb. simpl in *.
  rewrite andb_true_iff.
  destruct (Nat.eqb_spec a ka) as [->|Hne].
  - rewrite Nat.eqb_refl. destruct (Z.eqb_spec r kr), (Z.eqb_spec kr u32_max);
      rewrite ?Z.leb_le, ?Z.ltb_lt; split; try lia.
  - destruct (Nat.eqb_spec ka a); [congruence|]. rewrite !Nat.ltb_lt. split; lia.
Qed.

Lemma mem_scan_ok s a r :
  ms_ok s →
  ∃ l, mem_scan_blocks_by_author s a r = Done l ∧ NoDup (reference <$> l)
    ∧ ∀ b, b ∈ l ↔ ms_blocks s !! reference b = Some b ∧ author b = a ∧ r ≤ round b.
Proof.
  intros [Hkey Hidx]. unfold mem_scan_blocks_by_author.
  set (keys := bset_range _ _ _).
  set (refs := (λ '(a, r, d), mkRef r a d) <$> keys).
  assert (∀ x, author_key x ∈ keys ↔ is_Some (ms_blocks s !! x) ∧ ref_author x = a ∧ r ≤ ref_round x) as Hkeys.
  { intros x. unfold keys. rewrite elem_of_bset_range, Hidx. split.
    - intros [HP (y & [b Hb] & <-%author_key_inj)]. destruct (Hkey _ _ Hb) as [_ Hv].
      apply author_range_spec in HP as [? ?]; [|done]. by rewrite Hb.
    - intros ([b Hb] & Ha & Hr). destruct (Hkey _ _ Hb) as [_ Hv].
      split; [by apply author_range_spec|]. exists x. by rewrite Hb. }
  assert (∀ x, x ∈ refs ↔ author_key x ∈ keys) as Hrefs.
  { intros [xr xa xd]. unfold refs. rewrite list_elem_of_fmap. split.
    - by intros ([[ka kr] kd] & [= -> -> ->] & Hk).
    - intros Hx. by exists (xa, xr, xd). }
  assert (NoDup refs) as Hnd.
  { apply NoDup_fmap_2; [|apply bset_range_NoDup]. by intros [[? ?] ?] [[? ?] ?] [= -> -> ->]. }
  assert (∃ l, mapM unwrap (mem_read_blocks s refs) = Done l ∧ reference <$> l = refs
    ∧ ∀ b, b ∈ l → ms_blocks s !! reference b = Some b) as (l & Hl & Href & Hin).
  { assert (∀ x, x ∈ refs → is_Some (ms_blocks s !! x)) as Hsome by (intros x Hx%Hrefs%Hkeys; apply Hx).
    clear -Hsome Hkey. induction refs as [|x refs IH]; simpl; [exists []; set_solver|].
    destruct (Hsome x) as [b Hb]; [by left|]. rewrite Hb. simpl.
    destruct IH as (l & -> & Href & Hin); [intros; apply Hsome; by right|].
    destruct (Hkey _ _ Hb) as [<- _]. exists (b :: l). split; [done|]. split; [by rewrite fmap_cons, Href|].
    by intros b' [->|Hb']%elem_of_cons; [|apply Hin]. }
  exists l. split; [done|]. split; [by rewrite Href|]. intros b. split.
  - intros Hb. split; [by apply Hin|]. apply (list_elem_of_fmap_2 reference) in Hb. rewrite Href in Hb.
    by apply Hrefs, Hkeys in Hb as [_ ?].
  - intros (Hb & Ha & Hr). assert (reference b ∈ refs) as Hx by (apply Hrefs, Hkeys; by rewrite Hb).
    rewrite <-Href in Hx. apply list_elem_of_fmap in Hx as (b' & Heq & Hb').
    pose proof (Hin _ Hb') as Hb''. rewrite <-Heq, Hb in Hb''. by injection Hb'' as ->.
Qed.

Lemma mem_last_ok s :
  match mem_read_last_commit s with
  | None => ms_commits s = ∅
  | Some c => ∃ i, ms_commits s !! i = Some c ∧ ∀ j, is_Some (ms_commits s !! j) → j ≤ i
  end.
Proof.
  unfold mem_read_last_commit. destruct (last _) as [[i c]|] eqn:Hl; simpl.
  - exists i. by apply (btree_last_Some Z.le).
  - by eapply (btree_last_None Z.le).
Qed.

#[export] Program Instance mem_store_laws : StoreLaws MemStore := {|
  store_ok := ms_ok;
  store_blocks := ms_blocks;
  store_commits := ms_commits;
|}.
Next Obligation. intros s Hs. apply Hs. Qed.
Next Obligation.
  intros s bs cs Hs Hbs. exists (mem_write s bs cs). split; [done|]. by apply mem_write_ok.
Qed.
Next Obligation. done. Qed.
Next Obligation.
  intros s a r Hs. simpl. destruct (mem_scan_ok s a r Hs) as (l & -> & Hl). by exists l.
Qed.
Next Obligation. intros s Hs. eexists. split; [done|]. apply mem_last_ok. Qed.

(** * Accepting blocks *)

Lemma keyed_insert D b : keyed D → valid_ref (reference b) → keyed (<[reference b := b]> D).
Proof.
  intros HD Hb r x. rewrite lookup_insert_Some. intros [[<- <-]|[_ ?]]; [done|by apply HD].
Qed.

Lemma slot_free ds s :
  keyed (recent_blocks ds) →
  (∀ r b, recent_blocks ds !! r = Some b → slot_of_ref r ≠ s) →
  get_uncommitted_blocks_at_slot ds s = [].
Proof.
  intros Hkey Hfree. unfold get_uncommitted_blocks_at_slot.
  destruct (btree_range _ _ _) as [|[k b] l] eqn:Hl; [done|].
  assert ((k, b) ∈ (k, b) :: l) as Hin by (by left). rewrite <-Hl in Hin.
  apply elem_of_btree_range in Hin as [HP Hk]. destruct (Hkey _ _ Hk) as [_ [_ Hd]].
  apply slot_range_spec in HP; [|done]. by destruct (Hfree k b Hk).
Qed.

(** A block may be accepted: its author is known, and its slot is free if it is
    our own. *)
Definition acceptable (ds : DagState) (b : VerifiedBlock) : Prop :=
  valid_ref (reference b) ∧ (author b < length (cached_refs ds))%nat ∧
  (author b = own_index (dag_context ds) →
   ∀ r x, recent_blocks ds !! r = Some x → slot_of_ref r ≠ slot_of_ref (reference b)).

Lemma accept_block_ok ds b :
  keyed (recent_blocks ds) → acceptable ds b →
  ∃ refs, cached_refs ds !! author b = Some refs ∧
  accept_block ds b = Done (mkDagState (dag_context ds) (<[reference b := b]> (recent_blocks ds))
    (<[author b := {[reference b]} ∪ refs]> (cached_refs ds)) (last_commit ds)
    (Z.max (highest_accepted_round ds) (round b))).
Proof.
  intros Hkey (Hv & Ha & Hown). unfold accept_block. simpl.
  destruct (lookup_lt_is_Some_2 _ _ Ha) as [refs Hrefs]. exists refs. split; [done|].
  assert ((negb (bool_decide (author b = own_index (dag_context ds)))
    || bool_decide (get_uncommitted_blocks_at_slot ds (slot_of_ref (reference b)) = []))%bool = true) as ->.
  { case_bool_decide as Ho; simpl; [|done]. apply bool_decide_eq_true, slot_free; [done|]. by apply Hown. }
  simpl. unfold vec_index. by rewrite Hrefs.
Qed.

(** The blocks of the author's own slots are told apart by their slots. *)
Definition own_slots_unique (own : AuthorityIndex) (P : VerifiedBlock → Prop) : Prop :=
  ∀ b1 b2, P b1 → P b2 → author b1 = own → author b2 = own → round b1 = round b2 →
    reference b1 = reference b2.

Lemma accept_blocks_ok ds bs (P : VerifiedBlock → Prop) :
  keyed (recent_blocks ds) → own_slots_unique (own_index (dag_context ds)) P →
  (∀ r b, recent_blocks ds !! r = Some b → P b) →
  (∀ b, b ∈ bs → P b ∧ valid_ref (reference b) ∧ (author b < length (cached_refs ds))%nat
     ∧ recent_blocks ds !! reference b = None) →
  NoDup (reference <$> bs) →
  ∃ ds', accept_blocks ds bs = Done ds' ∧ keyed (recent_blocks ds')
    ∧ dag_context ds' = dag_context ds ∧ length (cached_refs ds') = length (cached_refs ds)
    ∧ last_commit ds' = last_commit ds
    ∧ (∀ r b, recent_blocks ds' !! r = Some b ↔ recent_blocks ds !! r = Some b ∨ (b ∈ bs ∧ reference b = r))
    ∧ highest_accepted_round ds' = foldl Z.max (highest_accepted_round ds) (round <$> bs).
Proof.
  unfold accept_blocks. intros Hkey Huniq. revert ds Hkey Huniq.
  induction bs as [|b bs IH]; intros ds Hkey Huniq Hds Hbs Hnd.
  { exists ds. repeat (split; [done|]). split; [|done]. intros r b. split; [auto|].
    intros [?|[Hb _]]; [done|by apply not_elem_of_nil in Hb]. }
  apply NoDup_cons in Hnd as [Hnotin Hnd]. destruct (Hbs b) as (HPb & Hv & Ha & Hnone); [by left|].
  simpl. destruct (accept_block_ok ds b) as (refs & Hrefs & ->); [done| |].
  { split; [done|]. split; [done|]. intros Ho r x Hx Hslot. destruct (Hkey _ _ Hx) as [<- _].
    injection Hslot as Hr Hau. rewrite (Huniq x b) in Hx; try done; [|by eapply Hds|congruence].
    congruence. }
  simpl. destruct (IH (mkDagState (dag_context ds) (<[reference b := b]> (recent_blocks ds))
    (<[author b := {[reference b]} ∪ refs]> (cached_refs ds)) (last_commit ds)
    (Z.max (highest_accepted_round ds) (round b)))) as (ds' & -> & Hk' & Hc' & Hlen' & Hlc' & Hl' & Hh');
    simpl; [by apply keyed_insert|done| | |done|].
  { intros r x. rewrite lookup_insert_Some. intros [[<- <-]|[_ ?]]; [done|by eapply Hds]. }
  { intros x Hx. destruct (Hbs x) as (? & ? & ? & ?); [by right|]. rewrite length_insert.
    repeat (split; [done|]). rewrite lookup_insert_ne; [done|].
    intros Heq. apply Hnotin. rewrite Heq. by apply list_elem_of_fmap_2. }
  simpl in *. rewrite length_insert in Hlen'. exists ds'. repeat (split; [done|]). split; [|done].
  intros r x. rewrite Hl', lookup_insert_Some, elem_of_cons. split.
  - intros [[[<- <-]|[_ ?]]|[? ?]]; auto.
  - intros [Hx|[[->|?] <-]]; auto. left. right. split; [congruence|done].
Qed.

(** * Recovery *)
Section recovery.
Context `{HSt : Store St, HLaws : !StoreLaws St}.
Context (ctx : Context) (store : St) (Hok : store_ok store).

Abbreviation B := (store_blocks store).

Definition in_store (b : VerifiedBlock) : Prop := B !! reference b = Some b.

(** The step of the loop in [DagState::new]. *)
Definition recover_author (state : DagState) (entry : nat * Round) : exec DagState :=
  let '(i, round) := entry in
  authority_index ← unwrap (to_authority_index (committee ctx) i);
  scanned ← store_scan_blocks_by_author store authority_index (saturating_sub round CACHED_ROUNDS);
  blocks ← unwrap_ok scanned;
  accept_blocks state blocks.

#[local] Arguments recover_author : simpl never.

(** What has been recovered once the first authorities are done. *)
Record recovered (rounds : list Round) (ds : DagState) : Prop := {
  rec_context : dag_context ds = ctx;
  rec_length : length (cached_refs ds) = committee_size (committee ctx);
  rec_keyed : keyed (recent_blocks ds);
  rec_blocks : ∀ r b, recent_blocks ds !! r = Some b ↔
    B !! r = Some b ∧ ∃ lr, rounds !! ref_author r = Some lr ∧ lr - CACHED_ROUNDS ≤ ref_round r;
}.

Lemma recover_author_ok rounds ds lr :
  own_slots_unique (own_index ctx) in_store → (length rounds < committee_size (committee ctx))%nat →
  recovered rounds ds →
  ∃ ds', recover_author ds (length rounds, lr) = Done ds' ∧ recovered (rounds ++ [lr]) ds'
    ∧ last_commit ds' = last_commit ds.
Proof.
  intros Huniq Hlen [Hctx Hcl Hkey Hblocks]. unfold recover_author, to_authority_index.
  rewrite bool_decide_true by done. simpl.
  destruct (store_scan_law store (length rounds) (saturating_sub lr CACHED_ROUNDS) Hok)
    as (l & -> & Hnd & Hl). simpl.
  pose proof (store_keyed store Hok) as HB.
  destruct (accept_blocks_ok ds l in_store) as (ds' & -> & Hk' & Hc' & Hcl' & Hlc' & Hb' & _).
  - done.
  - by rewrite Hctx.
  - intros r b Hb. destruct (Hkey _ _ Hb) as [<- _]. by apply Hblocks.
  - intros b (Hb & Ha & Hr)%Hl. split; [done|]. split; [by apply (HB _ _ Hb)|].
    split; [by rewrite Hcl, Ha|]. apply eq_None_not_Some. intros [x Hx].
    apply Hblocks in Hx as (_ & lr' & Hlr' & _). apply lookup_lt_Some in Hlr'. simpl in Hlr'. lia.
  - done.
  - exists ds'. split; [done|]. split; [|done]. split; [congruence|congruence|done|].
    intros r b. rewrite Hb', Hblocks, Hl. split.
    + intros [(Hb & lr' & Hlr' & Hr)|[(Hb & Ha & Hr) <-]].
      * split; [done|]. exists lr'. split; [by apply lookup_app_l_Some|done].
      * split; [done|]. exists lr. simpl. rewrite Ha, list_lookup_middle by done.
        split; [done|]. unfold saturating_sub in Hr. lia.
    + intros (Hb & lr' & Hlr' & Hr). destruct (HB _ _ Hb) as [Href [Hrange _]].
      apply lookup_app_Some in Hlr' as [Hlr'|[Hge Hlr']]; [left; eauto|]. right.
      apply list_lookup_singleton_Some in Hlr' as [Hidx <-]. subst r. simpl in *.
      split; [|done]. split; [done|]. split; [lia|]. unfold saturating_sub. lia.
Qed.

Lemma recover_loop rounds todo ds :
  own_slots_unique (own_index ctx) in_store →
  (length rounds + length todo ≤ committee_size (committee ctx))%nat →
  recovered rounds ds →
  ∃ ds', foldM recover_author ds (imap (λ i r, (length rounds + i, r)%nat) todo) = Done ds'
    ∧ recovered (rounds ++ todo) ds' ∧ last_commit ds' = last_commit ds.
Proof.
  intros Huniq. revert rounds ds. induction todo as [|lr todo IH]; intros rounds ds Hlen Hrec.
  { exists ds. by rewrite app_nil_r. }
  simpl in *. rewrite Nat.add_0_r.
  destruct (recover_author_ok rounds ds lr) as (ds1 & -> & Hrec1 & Hlc1); [done|lia|done|]. simpl.
  destruct (IH (rounds ++ [lr]) ds1) as (ds2 & Hfold & Hrec2 & Hlc2);
    [rewrite length_app; simpl; lia|done|].
  exists ds2. rewrite <-(assoc_L (++)) in Hrec2. split; [|split; [done|congruence]].
  rewrite <-Hfold. f_equal. apply imap_ext. intros i r _. simpl. f_equal.
  rewrite length_app. simpl. lia.
Qed.
End recovery.

(** C37: Recovery.  From any store that keeps the [Store] contract, with a
    commit that records one round per authority, [DagState::new] returns a
    state whose last commit is the stored commit with the highest index and
    whose blocks are exactly the stored ones of each authority from
    [CACHED_ROUNDS] below its last committed round on, provided the store
    holds one own block per round. *)
Theorem recovery_exact `{HSt : Store St, HLaws : !StoreLaws St} ctx (store : St) :
  store_ok store → own_slots_unique (own_index ctx) (in_store store) →
  (∀ i c, store_commits store !! i = Some c →
     length (last_committed_rounds c) = committee_size (committee ctx)) →
  ∃ ds, DagState_new ctx store = Done ds
    ∧ match last_commit ds with
      | None => store_commits store = ∅
      | Some c => ∃ i, store_commits store !! i = Some c
                    ∧ ∀ j, is_Some (store_commits store !! j) → j ≤ i
      end
    ∧ ∀ r b, recent_blocks ds !! r = Some b ↔
        store_blocks store !! r = Some b
        ∧ ∃ lr, match last_commit ds with
                | Some c => last_committed_rounds c
                | None => replicate (committee_size (committee ctx)) 0
                end !! ref_author r = Some lr
            ∧ lr - CACHED_ROUNDS ≤ ref_round r.
Proof.
  intros Hok Huniq Hrounds. unfold DagState_new.
  destruct (store_last_law store Hok) as (o & -> & Ho). simpl.
  set (rounds := match o with Some _ => _ | None => _ end).
  assert (length rounds = committee_size (committee ctx)) as Hlen.
  { unfold rounds. destruct o as [c|]; [|by rewrite length_replicate].
    destruct Ho as (i & Hi & _). by eapply Hrounds. }
  destruct (recover_loop ctx store Hok [] rounds
    (mkDagState ctx ∅ (replicate (committee_size (committee ctx)) ∅) o 0)) as (ds & Hfold & Hrec & Hlc).
  - done.
  - simpl. lia.
  - split; simpl; [done|by rewrite length_replicate|intros r b; by rewrite lookup_empty|].
    intros r b. rewrite lookup_empty. split; [done|]. by intros (_ & lr & ? & _).
  - exists ds. simpl in *. split; [exact Hfold|]. rewrite Hlc. split; [done|].
    apply (rec_blocks _ _ _ _ Hrec).
Qed.

(** The example blocks of round 1, with one commit, in a memory store. *)
Definition example_store : MemStore :=
  mem_write MemStore_new (example_round 0 ++ example_round 1)
    [mkCommit 1 (mkRef 0 0 0) [] [0; 0; 0; 0]].

Lemma example_store_ok : store_ok example_store.
Proof.
  apply mem_write_ok; [apply MemStore_new_ok|].
  repeat constructor; vm_compute; congruence.
Qed.

Lemma recovery_exact_witness :
  ∃ ds, DagState_new (mkContext 0 example_committee) example_store = Done ds
    ∧ match last_commit ds with
      | None => store_commits example_store = ∅
      | Some c => ∃ i, store_commits example_store !! i = Some c
                    ∧ ∀ j, is_Some (store_commits example_store !! j) → j ≤ i
      end
    ∧ ∀ r b, recent_blocks ds !! r = Some b ↔
        store_blocks example_store !! r = Some b
        ∧ ∃ lr, match last_commit ds with
                | Some c => last_committed_rounds c
                | None => replicate (committee_size example_committee) 0
                end !! ref_author r = Some lr
            ∧ lr - CACHED_ROUNDS ≤ ref_round r.
Proof.
  apply (recovery_exact (mkContext 0 example_committee) example_store).
  - exact example_store_ok.
  - intros b1 b2 H1 H2 Ha1 Ha2 Hr.
    assert (forallb (λ x, forallb (λ y, negb ((author x.2 =? 0)%nat && (author y.2 =? 0)%nat
        && (round x.2 =? round y.2)) || bool_decide (x.1 = y.1))
      (map_to_list (store_blocks example_store))) (map_to_list (store_blocks example_store)) = true)
      as Hall by (vm_compute; reflexivity).
    pose proof (forallb_map _ _ _ _ (forallb_map _ _ _ _ Hall H1) H2) as Hpair. simpl in *.
    rewrite Ha1, Ha2, Hr, Z.eqb_refl in Hpair. simpl in Hpair. by apply bool_decide_eq_true in Hpair.
  - intros i c Hc. vm_compute in Hc. destruct i as [|p|p]; [done| |done].
    destruct p; [destruct p; done..|]. injection Hc as <-. reflexivity.
Defined.
