(* ===== verification/GasTables.v ===== *)
(** The computation meter of the Move VM: [mgo-types/src/gas_model]
    ([units_types.rs], [gas_predicates.rs] and the meter's arithmetic in
    [tables.rs]) and the quantities of [move-core-types/src/gas_algebra.rs]
    it is built from.

    A [GasStatus] holds the gas left and, for each of the three dimensions the
    meter prices (instructions executed, height of the operand stack, abstract
    size of the operand stack), a current value, the multiplier of the tier
    the meter is in and the start of the next tier.  [charge] is one
    instruction. *)
From S2P Require Import Prelude.

(** * Gas quantities *)

(** [GasQuantity] values are [u64]s whose [+] and [*] saturate. *)
Definition gq_add (a b : Z) : Z := saturating_add64 a b.
Definition gq_checked_sub (a b : Z) : option Z := checked_sub64 a b.

Definition apply_ratio_round_down (val nominator denominator : Z) : exec Z :=
  _ ← assert (negb (nominator =? 0));
  _ ← assert (negb (denominator =? 0));
  let res := val * nominator / denominator in
  Done (if u64_max <? res then u64_max else res).

(** [ToUnitFractional<GasUnit> for InternalGasUnit]. *)
Definition NOMINATOR : Z := 1.
Definition DENOMINATOR : Z := 1000.
Definition to_unit_round_down (val : Z) : exec Z :=
  apply_ratio_round_down val NOMINATOR DENOMINATOR.

(** * Cost tables *)

Definition INSTRUCTION_TIER_DEFAULT : Z := 1.
Definition STACK_HEIGHT_TIER_DEFAULT : Z := 1.
Definition STACK_SIZE_TIER_DEFAULT : Z := 1.

Record CostTable := {
  instruction_tiers : gmap Z Z;
  stack_height_tiers : gmap Z Z;
  stack_size_tiers : gmap Z Z;
}.

Definition get_current_and_future_tier (tiers : gmap Z Z) (current dflt : Z)
    : Z * option Z :=
  let current_cost :=
    default dflt
      match tiers !! current with
      | Some v => Some v
      | None => snd <$> last (btree_range Z.le (λ k, k <? current) tiers)
      end in
  let next_tier_start := fst <$> head (btree_range Z.le (λ k, current <? k) tiers) in
  (current_cost, next_tier_start).

Definition instruction_tier (t : CostTable) (instr_count : Z) : Z * option Z :=
  get_current_and_future_tier (instruction_tiers t) instr_count INSTRUCTION_TIER_DEFAULT.
Definition stack_height_tier (t : CostTable) (stack_height : Z) : Z * option Z :=
  get_current_and_future_tier (stack_height_tiers t) stack_height STACK_HEIGHT_TIER_DEFAULT.
Definition stack_size_tier (t : CostTable) (stack_size : Z) : Z * option Z :=
  get_current_and_future_tier (stack_size_tiers t) stack_size STACK_SIZE_TIER_DEFAULT.

Record GasCost := {
  instruction_gas : Z;
  memory_gas : Z;
  stack_height_gas : Z;
}.
(** The sums are plain [u64] additions. *)
Definition total (c : GasCost) : Z :=
  wrap64 (wrap64 (instruction_gas c + memory_gas c) + stack_height_gas c).
Definition total_internal (c : GasCost) : Z :=
  wrap64 (wrap64 (instruction_gas c + memory_gas c) + stack_height_gas c).

(** ** The schedules *)

Definition zero_cost_schedule : CostTable :=
  let zero_tier : gmap Z Z := <[0 := 0]> ∅ in
  {| instruction_tiers := zero_tier; stack_size_tiers := zero_tier;
     stack_height_tiers := zero_tier |}.
Definition unit_cost_schedule : CostTable :=
  let unit_tier : gmap Z Z := <[0 := 1]> ∅ in
  {| instruction_tiers := unit_tier; stack_size_tiers := unit_tier;
     stack_height_tiers := unit_tier |}.

Definition initial_cost_schedule_v1 : CostTable := {|
  instruction_tiers := btree_collect
    [(0, 1); (3000, 2); (6000, 3); (8000, 5); (9000, 9); (9500, 16); (10000, 29); (10500, 50)];
  stack_height_tiers := btree_collect
    [(0, 1); (400, 2); (800, 3); (1200, 5); (1500, 9); (1800, 16); (2000, 29); (2200, 50)];
  stack_size_tiers := btree_collect
    [(0, 1); (2000, 2); (5000, 3); (8000, 5); (10000, 9); (11000, 16); (11500, 29); (11500, 50)];
|}.

Definition initial_cost_schedule_v2 : CostTable := {|
  instruction_tiers := btree_collect
    [(0, 1); (3000, 2); (6000, 3); (8000, 5); (9000, 9); (9500, 16); (10000, 29); (10500, 50);
     (12000, 150); (15000, 250)];
  stack_height_tiers := btree_collect
    [(0, 1); (400, 2); (800, 3); (1200, 5); (1500, 9); (1800, 16); (2000, 29); (2200, 50);
     (3000, 150); (5000, 250)];
  stack_size_tiers := btree_collect
    [(0, 1); (2000, 2); (5000, 3); (8000, 5); (10000, 9); (11000, 16); (11500, 29); (11500, 50);
     (15000, 150); (20000, 250)];
|}.

Definition initial_cost_schedule_v3 : CostTable := {|
  instruction_tiers := btree_collect
    [(0, 1); (3000, 2); (6000, 3); (8000, 5); (9000, 9); (9500, 16); (10000, 29); (10500, 50);
     (15000, 100)];
  stack_height_tiers := btree_collect
    [(0, 1); (400, 2); (800, 3); (1200, 5); (1500, 9); (1800, 16); (2000, 29); (2200, 50);
     (5000, 100)];
  stack_size_tiers := btree_collect
    [(0, 1); (2000, 2); (5000, 3); (8000, 5); (10000, 9); (11000, 16); (11500, 29); (11500, 50);
     (20000, 100)];
|}.

Definition initial_cost_schedule_v4 : CostTable := {|
  instruction_tiers := btree_collect
    [(0, 1); (20000, 2); (50000, 10); (100000, 50); (200000, 100)];
  stack_height_tiers := btree_collect [(0, 1); (1000, 2); (10000, 10)];
  stack_size_tiers := btree_collect [(0, 1); (100000, 2); (500000, 5); (1000000, 100)];
|}.

Definition initial_cost_schedule_v5 : CostTable := {|
  instruction_tiers := btree_collect
    [(0, 1); (20000, 2); (50000, 10); (100000, 50); (200000, 100); (10000000, 1000)];
  stack_height_tiers := btree_collect [(0, 1); (1000, 2); (10000, 10)];
  stack_size_tiers := btree_collect
    [(0, 1); (100000, 2); (500000, 5); (1000000, 100); (100000000, 1000)];
|}.

Definition ZERO_COST_SCHEDULE : CostTable := zero_cost_schedule.

(** ** Gas versions *)

Definition dont_charge_budget_on_storage_oog (v : Z) : bool := 4 <=? v.
Definition gas_price_too_high (v : Z) : bool := 4 <=? v.
Definition charge_input_as_memory (v : Z) : bool := v =? 4.
Definition use_legacy_abstract_size (v : Z) : bool := v <=? 7.
Definition charge_upgrades (v : Z) : bool := 7 <=? v.

Definition cost_table_for_version (gas_model : Z) : CostTable :=
  if gas_model <=? 3 then initial_cost_schedule_v1
  else if gas_model =? 4 then initial_cost_schedule_v2
  else if gas_model =? 5 then initial_cost_schedule_v3
  else if gas_model <=? 7 then initial_cost_schedule_v4
  else initial_cost_schedule_v5.

(** * The meter *)

Inductive StatusCode := ARITHMETIC_OVERFLOW | PC_OVERFLOW | OUT_OF_GAS.
#[export] Instance StatusCode_eq_dec : EqDecision StatusCode.
Proof. solve_decision. Defined.

(** [profiler] is left out: it records and never influences the meter. *)
Record GasStatus := {
  gas_model_version : Z;
  cost_table : CostTable;
  gas_left : Z;
  gas_price : Z;
  initial_budget : Z;
  metered : bool;                 (* the field [charge] *)
  stack_height_high_water_mark : Z;
  stack_height_current : Z;
  stack_height_next_tier_start : option Z;
  stack_height_current_tier_mult : Z;
  stack_size_high_water_mark : Z;
  stack_size_current : Z;
  stack_size_next_tier_start : option Z;
  stack_size_current_tier_mult : Z;
  instructions_executed : Z;
  instructions_next_tier_start : option Z;
  instructions_current_tier_mult : Z;
}.

Definition set_gas_left (g : Z) (s : GasStatus) : GasStatus := {|
  gas_model_version := gas_model_version s; cost_table := cost_table s;
  gas_left := g; gas_price := gas_price s; initial_budget := initial_budget s;
  metered := metered s;
  stack_height_high_water_mark := stack_height_high_water_mark s;
  stack_height_current := stack_height_current s;
  stack_height_next_tier_start := stack_height_next_tier_start s;
  stack_height_current_tier_mult := stack_height_current_tier_mult s;
  stack_size_high_water_mark := stack_size_high_water_mark s;
  stack_size_current := stack_size_current s;
  stack_size_next_tier_start := stack_size_next_tier_start s;
  stack_size_current_tier_mult := stack_size_current_tier_mult s;
  instructions_executed := instructions_executed s;
  instructions_next_tier_start := instructions_next_tier_start s;
  instructions_current_tier_mult := instructions_current_tier_mult s |}.

Definition set_height (mark current : Z) (tier : Z * option Z) (s : GasStatus) : GasStatus := {|
  gas_model_version := gas_model_version s; cost_table := cost_table s;
  gas_left := gas_left s; gas_price := gas_price s; initial_budget := initial_budget s;
  metered := metered s;
  stack_height_high_water_mark := mark;
  stack_height_current := current;
  stack_height_next_tier_start := tier.2;
  stack_height_current_tier_mult := tier.1;
  stack_size_high_water_mark := stack_size_high_water_mark s;
  stack_size_current := stack_size_current s;
  stack_size_next_tier_start := stack_size_next_tier_start s;
  stack_size_current_tier_mult := stack_size_current_tier_mult s;
  instructions_executed := instructions_executed s;
  instructions_next_tier_start := instructions_next_tier_start s;
  instructions_current_tier_mult := instructions_current_tier_mult s |}.

Definition set_size (mark current : Z) (tier : Z * option Z) (s : GasStatus) : GasStatus := {|
  gas_model_version := gas_model_version s; cost_table := cost_table s;
  gas_left := gas_left s; gas_price := gas_price s; initial_budget := initial_budget s;
  metered := metered s;
  stack_height_high_water_mark := stack_height_high_water_mark s;
  stack_height_current := stack_height_current s;
  stack_height_next_tier_start := stack_height_next_tier_start s;
  stack_height_current_tier_mult := stack_height_current_tier_mult s;
  stack_size_high_water_mark := mark;
  stack_size_current := current;
  stack_size_next_tier_start := tier.2;
  stack_size_current_tier_mult := tier.1;
  instructions_executed := instructions_executed s;
  instructions_next_tier_start := instructions_next_tier_start s;
  instructions_current_tier_mult := instructions_current_tier_mult s |}.

Definition set_instructions (executed : Z) (tier : Z * option Z) (s : GasStatus) : GasStatus := {|
  gas_model_version := gas_model_version s; cost_table := cost_table s;
  gas_left := gas_left s; gas_price := gas_price s; initial_budget := initial_budget s;
  metered := metered s;
  stack_height_high_water_mark := stack_height_high_water_mark s;
  stack_height_current := stack_height_current s;
  stack_height_next_tier_start := stack_height_next_tier_start s;
  stack_height_current_tier_mult := stack_height_current_tier_mult s;
  stack_size_high_water_mark := stack_size_high_water_mark s;
  stack_size_current := stack_size_current s;
  stack_size_next_tier_start := stack_size_next_tier_start s;
  stack_size_current_tier_mult := stack_size_current_tier_mult s;
  instructions_executed := executed;
  instructions_next_tier_start := tier.2;
  instructions_current_tier_mult := tier.1 |}.

Definition height_tier (s : GasStatus) : Z * option Z :=
  (stack_height_current_tier_mult s, stack_height_next_tier_start s).
Definition size_tier (s : GasStatus) : Z * option Z :=
  (stack_size_current_tier_mult s, stack_size_next_tier_start s).
Definition instr_tier (s : GasStatus) : Z * option Z :=
  (instructions_current_tier_mult s, instructions_next_tier_start s).

(** A meter operation updates the status, also when it fails: the changes made
    before a [?] returns stay. *)
Definition vm (A : Type) : Type := GasStatus → GasStatus * result A StatusCode.
Definition vm_ret {A} (a : A) : vm A := λ s, (s, Ok a).
Definition vm_err {A} (e : StatusCode) : vm A := λ s, (s, Err e).
Definition vm_bind {A B} (m : vm A) (f : A → vm B) : vm B := λ s,
  match m s with
  | (s', Ok a) => f a s'
  | (s', Err e) => (s', Err e)
  end.
Definition vm_get {A} (f : GasStatus → A) : vm A := λ s, (s, Ok (f s)).
Definition vm_mod (f : GasStatus → GasStatus) : vm unit := λ s, (f s, Ok ()).
(** [ok_or_else(..)?]. *)
Definition vm_opt {A} (e : StatusCode) (o : option A) : vm A :=
  match o with Some a => vm_ret a | None => vm_err e end.

Declare Scope vm_scope.
Delimit Scope vm_scope with vm.
Notation "x ← m ; k" := (vm_bind m (λ x, k)) (at level 20, m at level 100, k at level 200,
  only parsing) : vm_scope.
Notation "m ;; k" := (vm_bind m (λ _, k)) (at level 100, k at level 200,
  only parsing, right associativity) : vm_scope.

Definition INTERNAL_UNIT_MULTIPLIER : Z := 1000.
Definition to_internal_units (val : Z) : Z := wrap64 (val * INTERNAL_UNIT_MULTIPLIER).

Definition GasStatus_new (cost_table : CostTable) (budget gas_price gas_model_version : Z)
    : exec GasStatus :=
  _ ← assert (0 <? gas_price);
  let gas_left := to_internal_units (budget / gas_price) in
  let '(height_mult, height_next) := stack_height_tier cost_table 0 in
  let '(size_mult, size_next) := stack_size_tier cost_table 0 in
  let '(instr_mult, instr_next) := instruction_tier cost_table 0 in
  Done {|
    gas_model_version := gas_model_version; cost_table := cost_table;
    gas_left := gas_left; gas_price := gas_price; initial_budget := gas_left;
    metered := true;
    stack_height_high_water_mark := 0; stack_height_current := 0;
    stack_height_next_tier_start := height_next;
    stack_height_current_tier_mult := height_mult;
    stack_size_high_water_mark := 0; stack_size_current := 0;
    stack_size_next_tier_start := size_next;
    stack_size_current_tier_mult := size_mult;
    instructions_executed := 0;
    instructions_next_tier_start := instr_next;
    instructions_current_tier_mult := instr_mult |}.

Definition GasStatus_new_unmetered : GasStatus := {|
  gas_model_version := 4; cost_table := ZERO_COST_SCHEDULE;
  gas_left := 0; gas_price := 1; initial_budget := 0; metered := false;
  stack_height_high_water_mark := 0; stack_height_current := 0;
  stack_height_next_tier_start := None; stack_height_current_tier_mult := 0;
  stack_size_high_water_mark := 0; stack_size_current := 0;
  stack_size_next_tier_start := None; stack_size_current_tier_mult := 0;
  instructions_executed := 0; instructions_next_tier_start := None;
  instructions_current_tier_mult := 0 |}.

(** [if let Some(next) = next_tier_start { if current > next { .. } }]: the
    tier after [current] was raised, looked up again only when the start of
    the next tier is passed. *)
Definition raise_tier (lookup : Z → Z * option Z) (tier : Z * option Z) (current : Z)
    : Z * option Z :=
  match tier.2 with
  | Some next => if next <? current then lookup current else tier
  | None => tier
  end.

Definition push_stack (pushes : Z) : vm unit := λ s,
  match checked_add64 (stack_height_current s) pushes with
  | None => (s, Err ARITHMETIC_OVERFLOW)
  | Some new_height =>
      let mark := if stack_height_high_water_mark s <? new_height then new_height
                  else stack_height_high_water_mark s in
      let tier := raise_tier (stack_height_tier (cost_table s)) (height_tier s) new_height in
      (set_height mark new_height tier s, Ok ())
  end.

Definition pop_stack (pops : Z) : vm unit := vm_mod (λ s,
  set_height (stack_height_high_water_mark s)
    (saturating_sub (stack_height_current s) pops) (height_tier s) s).

Definition increase_instruction_count (amount : Z) : vm unit := λ s,
  match checked_add64 (instructions_executed s) amount with
  | None => (s, Err PC_OVERFLOW)
  | Some new_pc =>
      let tier := raise_tier (instruction_tier (cost_table s)) (instr_tier s) new_pc in
      (set_instructions new_pc tier s, Ok ())
  end.

Definition increase_stack_size (size_amount : Z) : vm unit := λ s,
  match checked_add64 (stack_size_current s) size_amount with
  | None => (s, Err ARITHMETIC_OVERFLOW)
  | Some new_size =>
      let mark := if stack_size_high_water_mark s <? new_size then new_size
                  else stack_size_high_water_mark s in
      let tier := raise_tier (stack_size_tier (cost_table s)) (size_tier s) new_size in
      (set_size mark new_size tier s, Ok ())
  end.

Definition decrease_stack_size (size_amount : Z) : vm unit := vm_mod (λ s,
  let new_size := saturating_sub (stack_size_current s) size_amount in
  let mark := if stack_size_high_water_mark s <? new_size then new_size
              else stack_size_high_water_mark s in
  set_size mark new_size (size_tier s) s).

Definition deduct_gas (amount : Z) : vm unit := λ s,
  if negb (metered s) then (s, Ok ())
  else match gq_checked_sub (gas_left s) amount with
       | Some gas_left => (set_gas_left gas_left s, Ok ())
       | None => (set_gas_left 0 s, Err OUT_OF_GAS)
       end.
Definition deduct_units (amount : Z) : vm unit := deduct_gas amount.

(** The stack size is never decreased: the call is commented out in the source. *)
Definition charge (num_instructions pushes pops incr_size decr_size : Z) : vm unit := (
  push_stack pushes;;
  increase_instruction_count num_instructions;;
  increase_stack_size incr_size;;
  i ← vm_get instructions_current_tier_mult;
  instruction ← vm_opt ARITHMETIC_OVERFLOW (checked_mul64 i num_instructions);
  m ← vm_get stack_size_current_tier_mult;
  memory ← vm_opt ARITHMETIC_OVERFLOW (checked_mul64 m incr_size);
  h ← vm_get stack_height_current_tier_mult;
  height ← vm_opt ARITHMETIC_OVERFLOW (checked_mul64 h pushes);
  deduct_gas (total_internal
    {| instruction_gas := instruction; memory_gas := memory; stack_height_gas := height |});;
  pop_stack pops)%vm.

Definition set_metering (enabled : bool) (s : GasStatus) : GasStatus := {|
  gas_model_version := gas_model_version s; cost_table := cost_table s;
  gas_left := gas_left s; gas_price := gas_price s; initial_budget := initial_budget s;
  metered := enabled;
  stack_height_high_water_mark := stack_height_high_water_mark s;
  stack_height_current := stack_height_current s;
  stack_height_next_tier_start := stack_height_next_tier_start s;
  stack_height_current_tier_mult := stack_height_current_tier_mult s;
  stack_size_high_water_mark := stack_size_high_water_mark s;
  stack_size_current := stack_size_current s;
  stack_size_next_tier_start := stack_size_next_tier_start s;
  stack_size_current_tier_mult := stack_size_current_tier_mult s;
  instructions_executed := instructions_executed s;
  instructions_next_tier_start := instructions_next_tier_start s;
  instructions_current_tier_mult := instructions_current_tier_mult s |}.

(** [GasStatus::remaining_gas], in [Gas] units, and [to_mist]. *)
Definition remaining_gas_units (s : GasStatus) : exec Z := to_unit_round_down (gas_left s).
Definition to_mist (s : GasStatus) (val : Z) : exec Z :=
  gas ← to_unit_round_down val; Done (wrap64 (gas * gas_price s)).

Definition gas_used_pre_gas_price (s : GasStatus) : exec Z :=
  match gq_checked_sub (initial_budget s) (gas_left s) with
  | Some val => to_unit_round_down val
  | None => to_unit_round_down (initial_budget s)
  end.

(** The products are plain [u64] multiplications. *)
Definition charge_bytes (size cost_per_byte : Z) : vm unit := (
  version ← vm_get gas_model_version;
  computation_cost ←
    (if charge_input_as_memory version then
       increase_stack_size size;;
       m ← vm_get stack_size_current_tier_mult;
       vm_ret (wrap64 (wrap64 (m * size) * cost_per_byte))
     else vm_ret (wrap64 (size * cost_per_byte)));
  deduct_units computation_cost)%vm.

(** * Tier lookup *)

Section tiers.
Context (tiers : gmap Z Z) (dflt : Z).
Local Notation "'lookup_tier' c" := (get_current_and_future_tier tiers c dflt) (at level 10).

(** The value at the greatest start that is at most [c]. *)
Definition tier_value_spec (c v : Z) : Prop :=
  (∃ k, k ≤ c ∧ tiers !! k = Some v ∧ ∀ j, is_Some (tiers !! j) → j ≤ c → j ≤ k) ∨
  (v = dflt ∧ ∀ j, is_Some (tiers !! j) → c < j).
(** The least start that is greater than [c]. *)
Definition next_start_spec (c : Z) (n : option Z) : Prop :=
  match n with
  | Some k => c < k ∧ is_Some (tiers !! k) ∧ ∀ j, is_Some (tiers !! j) → c < j → k ≤ j
  | None => ∀ j, is_Some (tiers !! j) → j ≤ c
  end.

Lemma tier_lookup_value c : tier_value_spec c (lookup_tier c).1.
Proof.
  unfold get_current_and_future_tier, tier_value_spec. simpl.
  destruct (tiers !! c) as [v|] eqn:Hc; simpl.
  { left. exists c. split_and!; [lia|done|]. lia. }
  destruct (last _) as [[k v]|] eqn:Hlast; simpl.
  - left. exists k. destruct (btree_range_last_Some _ _ _ _ _ Hlast) as (Hk & Hv & Hmax).
    bool_prop. split_and!; [lia|done|]. intros j Hj Hle. apply Hmax; [done|].
    apply Z.ltb_lt. destruct (decide (j = c)) as [->|]; [|lia].
    rewrite Hc in Hj. by destruct Hj.
  - right. split; [done|]. intros j Hj.
    destruct (Z.lt_trichotomy c j) as [?|[<-|Hlt]]; [done| |].
    + rewrite Hc in Hj. by destruct Hj.
    + apply Z.ltb_lt in Hlt. by destruct (btree_range_last_None _ _ _ Hlast j Hlt Hj).
Qed.

Lemma tier_lookup_next c : next_start_spec c (lookup_tier c).2.
Proof.
  unfold get_current_and_future_tier. simpl.
  destruct (head _) as [[k v]|] eqn:Hhead; simpl.
  - destruct (btree_range_head_Some _ _ _ _ _ Hhead) as (Hk & Hv & Hmin). bool_prop.
    split_and!; [done|by eauto|]. intros j Hj Hlt. apply Hmin; [done|]. by apply Z.ltb_lt.
  - intros j Hj. destruct (Z.le_gt_cases j c) as [|Hlt]; [done|].
    apply Z.ltb_lt in Hlt. by destruct (btree_range_head_None _ _ _ Hhead j Hlt Hj).
Qed.

Lemma tier_value_unique c v w : tier_value_spec c v → tier_value_spec c w → v = w.
Proof.
  intros [(k & ? & Hk & Hkmax)|[-> Hv]] [(j & ? & Hj & Hjmax)|[-> Hw]]; [| | |done].
  - assert (k = j) as -> by (apply Z.le_antisymm; [apply Hjmax|apply Hkmax]; eauto). congruence.
  - specialize (Hw k ltac:(eauto)). lia.
  - specialize (Hv j ltac:(eauto)). lia.
Qed.

(** Between two values with no start in between the tier is the same. *)
Lemma tier_value_between c d :
  c ≤ d → (∀ j, is_Some (tiers !! j) → c < j → d < j) →
  (lookup_tier c).1 = (lookup_tier d).1.
Proof.
  intros Hcd Hno. apply (tier_value_unique d); [|apply tier_lookup_value].
  destruct (tier_lookup_value c) as [(k & Hk & Hv & Hmax)|[Hv Hall]].
  - left. exists k. split_and!; [lia|done|]. intros j Hj Hjd. apply Hmax; [done|].
    destruct (Z.le_gt_cases j c); [done|]. specialize (Hno j Hj). lia.
  - right. split; [done|]. intros j Hj. apply Hno; [done|]. by apply Hall.
Qed.

(** What the meter remembers of a dimension whose greatest value so far is
    [mark]: the tier of a value [c] at which it looked the table up last, and
    no start beyond it passed since. *)
Definition tier_ok (mark : Z) (tier : Z * option Z) : Prop :=
  ∃ c, c ≤ mark ∧ tier = lookup_tier c ∧ ∀ n, tier.2 = Some n → mark ≤ n.

Lemma tier_ok_init : tier_ok 0 (lookup_tier 0).
Proof.
  exists 0. split_and!; [lia|done|]. intros n Hn.
  pose proof (tier_lookup_next 0) as Hs. rewrite Hn in Hs. destruct Hs. lia.
Qed.

Lemma raise_tier_ok mark tier x :
  tier_ok mark tier →
  tier_ok (Z.max mark x) (raise_tier (λ c, lookup_tier c) tier x).
Proof.
  intros (c & Hc & Heq & Hmark). unfold raise_tier.
  destruct (tier.2) as [n|] eqn:Hn; [specialize (Hmark n eq_refl)|].
  - case_test (n <? x) as Hnx.
    + exists x. split_and!; [lia|done|]. intros m Hm.
      pose proof (tier_lookup_next x) as Hs. rewrite Hm in Hs. destruct Hs. lia.
    + exists c. split_and!; [lia|done|]. intros m Hm. simplify_eq. lia.
  - exists c. split_and!; [lia|done|]. congruence.
Qed.

(** The multiplier is the one of the greatest value reached, except exactly on
    the start of the next tier, where it is still that of the value before. *)
Lemma tier_ok_value mark tier :
  tier_ok mark tier →
  tier.1 = (lookup_tier (if decide (tier.2 = Some mark) then mark - 1 else mark)).1.
Proof.
  intros (c & Hc & -> & Hmark). pose proof (tier_lookup_next c) as Hnext.
  case_decide as Hd.
  - rewrite Hd in Hnext. destruct Hnext as (? & _ & Hmin). apply tier_value_between; [lia|].
    intros j Hj Hcj. specialize (Hmin j Hj Hcj). lia.
  - apply tier_value_between; [lia|]. intros j Hj Hcj.
    destruct (get_current_and_future_tier tiers c dflt).2 as [n|]; simpl in *.
    + destruct Hnext as (? & _ & Hmin). specialize (Hmin j Hj Hcj). specialize (Hmark n eq_refl).
      assert (n ≠ mark) by congruence. lia.
    + specialize (Hnext j Hj). lia.
Qed.
End tiers.

(** * The meter's invariant *)

Definition tiers_within (lo hi : Z) (tiers : gmap Z Z) : Prop :=
  map_Forall (λ _ v, lo ≤ v ≤ hi) tiers.
Definition table_within (lo hi : Z) (t : CostTable) : Prop :=
  tiers_within lo hi (instruction_tiers t) ∧
  tiers_within lo hi (stack_height_tiers t) ∧
  tiers_within lo hi (stack_size_tiers t).

Lemma tier_value_within tiers lo hi c :
  lo ≤ 1 ≤ hi → tiers_within lo hi tiers →
  lo ≤ (get_current_and_future_tier tiers c 1).1 ≤ hi.
Proof.
  intros Hone Hall. destruct (tier_lookup_value tiers 1 c) as [(k & _ & Hk & _)|[-> _]]; [|done].
  exact (Hall k _ Hk).
Qed.

Record meter_ok (s : GasStatus) : Prop := {
  mo_gas : 0 ≤ gas_left s ≤ initial_budget s;
  mo_budget : initial_budget s ≤ u64_max;
  mo_height : 0 ≤ stack_height_current s ≤ stack_height_high_water_mark s;
  mo_size : 0 ≤ stack_size_current s ≤ stack_size_high_water_mark s;
  mo_instr : 0 ≤ instructions_executed s;
  mo_height_tier :
    tier_ok (stack_height_tiers (cost_table s)) STACK_HEIGHT_TIER_DEFAULT
      (stack_height_high_water_mark s) (height_tier s);
  mo_size_tier :
    tier_ok (stack_size_tiers (cost_table s)) STACK_SIZE_TIER_DEFAULT
      (stack_size_high_water_mark s) (size_tier s);
  mo_instr_tier :
    tier_ok (instruction_tiers (cost_table s)) INSTRUCTION_TIER_DEFAULT
      (instructions_executed s) (instr_tier s);
}.

(** The values a meter never reaches in practice: with every counter below
    [meter_limit] and every multiplier at most [mult_limit], no sum or product
    of [charge] overflows. *)
Definition meter_limit : Z := 2 ^ 48.
Definition mult_limit : Z := 1000.

Definition room (s : GasStatus) (n pushes incr : Z) : Prop :=
  0 ≤ n ∧ 0 ≤ pushes ∧ 0 ≤ incr ∧
  instructions_executed s + n ≤ meter_limit ∧
  stack_height_current s + pushes ≤ meter_limit ∧
  stack_size_current s + incr ≤ meter_limit.

(** The status after the three counters are raised, before gas is deducted. *)
Definition raised (s : GasStatus) (n pushes incr : Z) : GasStatus :=
  let h := stack_height_current s + pushes in
  let i := instructions_executed s + n in
  let z := stack_size_current s + incr in
  set_size (Z.max (stack_size_high_water_mark s) z) z
      (raise_tier (stack_size_tier (cost_table s)) (size_tier s) z)
    (set_instructions i (raise_tier (instruction_tier (cost_table s)) (instr_tier s) i)
      (set_height (Z.max (stack_height_high_water_mark s) h) h
        (raise_tier (stack_height_tier (cost_table s)) (height_tier s) h) s)).

Definition charge_cost (s : GasStatus) (n pushes incr : Z) : Z :=
  instructions_current_tier_mult s * n + stack_size_current_tier_mult s * incr +
  stack_height_current_tier_mult s * pushes.

Lemma if_max a b : (if a <? b then b else a) = Z.max a b.
Proof. case_test (a <? b) as H; lia. Qed.

Lemma raised_ok s n pushes incr :
  meter_ok s → 0 ≤ n → 0 ≤ pushes → 0 ≤ incr → meter_ok (raised s n pushes incr).
Proof.
  intros [] ???. split; simpl; try lia.
  - unfold height_tier. simpl. rewrite <-surjective_pairing. by apply raise_tier_ok.
  - unfold size_tier. simpl. rewrite <-surjective_pairing. by apply raise_tier_ok.
  - unfold instr_tier. simpl. rewrite <-surjective_pairing.
    replace (instructions_executed s + n)
      with (Z.max (instructions_executed s) (instructions_executed s + n)) at 1 by lia.
    by apply raise_tier_ok.
Qed.

Lemma meter_mults_within s lo :
  lo ≤ 1 → meter_ok s → table_within lo mult_limit (cost_table s) →
  lo ≤ instructions_current_tier_mult s ≤ mult_limit ∧
  lo ≤ stack_size_current_tier_mult s ≤ mult_limit ∧
  lo ≤ stack_height_current_tier_mult s ≤ mult_limit.
Proof.
  intros Hlo [] (Hi & Hh & Hz).
  assert (∀ tiers mark tier, tiers_within lo mult_limit tiers → tier_ok tiers 1 mark tier →
    lo ≤ tier.1 ≤ mult_limit) as Hgen.
  { intros tiers mark tier Ht (c & _ & -> & _). apply tier_value_within; [|done].
    unfold mult_limit. lia. }
  split; [|split].
  - exact (Hgen _ _ _ Hi mo_instr_tier0).
  - exact (Hgen _ _ _ Hz mo_size_tier0).
  - exact (Hgen _ _ _ Hh mo_height_tier0).
Qed.

Lemma total_internal_small i m h :
  0 ≤ i ≤ 1000 * 2 ^ 48 → 0 ≤ m ≤ 1000 * 2 ^ 48 → 0 ≤ h ≤ 1000 * 2 ^ 48 →
  total_internal {| instruction_gas := i; memory_gas := m; stack_height_gas := h |} = i + m + h.
Proof.
  intros. unfold total_internal. simpl.
  rewrite (wrap64_small (i + m)) by width. by rewrite wrap64_small by width.
Qed.

(** [charge] raises the counters, then deducts the cost at the multipliers of
    the tiers the counters are then in. *)
Lemma charge_raised s n pushes pops incr decr :
  meter_ok s → table_within 0 mult_limit (cost_table s) → room s n pushes incr →
  let s1 := raised s n pushes incr in
  charge n pushes pops incr decr s =
    vm_bind (deduct_gas (charge_cost s1 n pushes incr)) (λ _, pop_stack pops) s1 ∧
  0 ≤ charge_cost s1 n pushes incr.
Proof.
  intros Hok Htab (Hn & Hp & Hi & Hin & Hhp & Hzi) s1.
  assert (meter_ok s1) as Hok1 by by apply raised_ok.
  assert (table_within 0 mult_limit (cost_table s1)) as Htab1 by done.
  destruct (meter_mults_within s1 0 ltac:(lia) Hok1 Htab1) as (Mi & Mz & Mh).
  destruct Hok. unfold mult_limit, meter_limit in *.
  assert (push_stack pushes s = (set_height (Z.max (stack_height_high_water_mark s)
      (stack_height_current s + pushes)) (stack_height_current s + pushes)
      (raise_tier (stack_height_tier (cost_table s)) (height_tier s)
        (stack_height_current s + pushes)) s, Ok ())) as Hpush.
  { unfold push_stack, checked_add64. rewrite (proj2 (Z.leb_le _ _)) by width.
    by rewrite if_max. }
  assert (∀ m x b, 0 ≤ m ≤ 1000 → 0 ≤ x → b + x ≤ 2 ^ 48 → 0 ≤ b →
    0 ≤ m * x ≤ 1000 * 2 ^ 48) as Hprod by (intros; nia).
  assert (∀ m x b, 0 ≤ m ≤ 1000 → 0 ≤ x → b + x ≤ 2 ^ 48 → 0 ≤ b →
    checked_mul64 m x = Some (m * x)) as Hmul.
  { intros m x b ????. pose proof (Hprod m x b). unfold checked_mul64.
    rewrite (proj2 (Z.leb_le _ _)); [done|]. unfold u64_max. lia. }
  split; [|unfold charge_cost; nia].
  unfold charge. unfold vm_bind at 1. rewrite Hpush.
  unfold vm_bind at 1, increase_instruction_count, checked_add64 at 1. simpl.
  rewrite (proj2 (Z.leb_le _ _)) by width.
  unfold vm_bind at 1, increase_stack_size, checked_add64 at 1. simpl.
  rewrite (proj2 (Z.leb_le _ _)) by width. rewrite if_max. fold s1.
  change (set_size _ _ _ _) with s1.
  unfold vm_bind at 1, vm_get at 1. rewrite (Hmul _ _ (instructions_executed s)) by lia.
  unfold vm_bind at 1, vm_opt at 1, vm_ret at 1. unfold vm_bind at 1, vm_get at 1.
  rewrite (Hmul _ _ (stack_size_current s)) by lia.
  unfold vm_bind at 1, vm_opt at 1, vm_ret at 1. unfold vm_bind at 1, vm_get at 1.
  rewrite (Hmul _ _ (stack_height_current s)) by lia.
  unfold vm_bind at 1, vm_opt at 1, vm_ret at 1.
  pose proof (Hprod _ _ _ Mi Hn Hin mo_instr0). pose proof (Hprod _ _ _ Mz Hi Hzi (proj1 mo_size0)).
  pose proof (Hprod _ _ _ Mh Hp Hhp (proj1 mo_height0)).
  rewrite total_internal_small by lia. done.
Qed.

(** One instruction.  The multipliers are the ones [tier_ok_value] gives for
    the greatest values reached. *)
Lemma charge_outcome s n pushes pops incr decr :
  meter_ok s → metered s = true → table_within 0 mult_limit (cost_table s) →
  room s n pushes incr → 0 ≤ pops →
  ∃ s' r, charge n pushes pops incr decr s = (s', r) ∧ meter_ok s' ∧
    let cost := charge_cost s' n pushes incr in
    0 ≤ cost ∧
    r = (if cost <=? gas_left s then Ok () else Err OUT_OF_GAS) ∧
    gas_left s' = Z.max 0 (gas_left s - cost) ∧
    instructions_executed s' = instructions_executed s + n ∧
    stack_size_current s' = stack_size_current s + incr ∧
    stack_size_high_water_mark s' =
      Z.max (stack_size_high_water_mark s) (stack_size_current s + incr) ∧
    stack_height_high_water_mark s' =
      Z.max (stack_height_high_water_mark s) (stack_height_current s + pushes) ∧
    stack_height_current s' =
      (if cost <=? gas_left s then Z.max 0 (stack_height_current s + pushes - pops)
       else stack_height_current s + pushes) ∧
    initial_budget s' = initial_budget s ∧ metered s' = true ∧ cost_table s' = cost_table s.
Proof.
  intros Hok Hmet Htab Hroom Hpops.
  destruct (charge_raised s n pushes pops incr decr Hok Htab Hroom) as [-> Hcost].
  destruct Hroom as (Hn & Hp & Hi & _).
  pose proof (raised_ok s n pushes incr Hok Hn Hp Hi) as Hok1.
  assert (gas_left (raised s n pushes incr) = gas_left s) as Hleft by done.
  unfold vm_bind, deduct_gas, gq_checked_sub, checked_sub64. simpl metered. rewrite Hmet. simpl negb.
  cbv iota. rewrite Hleft.
  set (cost := charge_cost _ _ _ _) in *.
  case_test (cost <=? gas_left s) as Hc; eexists _, _; (split; [reflexivity|]).
  - split; [|cbv zeta; change (charge_cost _ n pushes incr) with cost;
      rewrite (proj2 (Z.leb_le _ _)) by done; simpl; destruct Hok; split_and!; done || lia].
    destruct Hok1; split; simpl in *; unfold saturating_sub; try done; lia.
  - split; [|cbv zeta; change (charge_cost _ n pushes incr) with cost;
      rewrite (proj2 (Z.leb_gt _ _)) by done; simpl; destruct Hok; split_and!; done || lia].
    destruct Hok1; split; simpl in *; try done; lia.
Qed.

Lemma to_unit_round_down_exact z : is_u64 z → to_unit_round_down z = Done (z / 1000).
Proof.
  intros Hz. unfold to_unit_round_down, apply_ratio_round_down, NOMINATOR, DENOMINATOR. simpl.
  rewrite Z.mul_1_r. pose proof (Z.div_le_upper_bound z 1000 z ltac:(lia)).
  case_test (u64_max <? z / 1000) as Hgt; [width|done].
Qed.

Lemma gas_used_exact s :
  meter_ok s → gas_used_pre_gas_price s = Done ((initial_budget s - gas_left s) / 1000).
Proof.
  intros []. unfold gas_used_pre_gas_price, gq_checked_sub, checked_sub64.
  rewrite (proj2 (Z.leb_le _ _)) by lia. apply to_unit_round_down_exact. width.
Qed.

(** The multiplier in force when the greatest value reached is [mark] and the
    next tier starts at [next]: exactly on that start the meter still charges
    the tier below it. *)
Definition priced_at (lookup : Z → Z * option Z) (mark : Z) (next : option Z) : Z :=
  (lookup (if decide (next = Some mark) then mark - 1 else mark)).1.

(** On a well-formed metered status [charge] never fails but for want of
    gas.  Its cost is the instructions, the stack growth in bytes and the
    pushes, each times the multiplier of the tier that the number of
    instructions executed and the high-water marks of the stack have reached;
    the cost is deducted if the gas left covers it, otherwise the call returns
    [OUT_OF_GAS] and leaves no gas.  The status stays well-formed. *)
Theorem charge_exact (s : GasStatus) (n pushes pops incr decr : Z) :
  meter_ok s → metered s = true → table_within 0 mult_limit (cost_table s) →
  room s n pushes incr → 0 ≤ pops →
  ∃ s',
    let cost :=
      priced_at (instruction_tier (cost_table s)) (instructions_executed s + n)
        (instructions_next_tier_start s') * n +
      priced_at (stack_size_tier (cost_table s))
        (Z.max (stack_size_high_water_mark s) (stack_size_current s + incr))
        (stack_size_next_tier_start s') * incr +
      priced_at (stack_height_tier (cost_table s))
        (Z.max (stack_height_high_water_mark s) (stack_height_current s + pushes))
        (stack_height_next_tier_start s') * pushes in
    charge n pushes pops incr decr s =
      (s', if cost <=? gas_left s then Ok () else Err OUT_OF_GAS) ∧
    gas_left s' = Z.max 0 (gas_left s - cost) ∧ meter_ok s'.
Proof.
  intros Hok Hmet Htab Hroom Hpops.
  destruct (charge_outcome s n pushes pops incr decr Hok Hmet Htab Hroom Hpops)
    as (s' & r & -> & Hok' & _ & -> & Hgas & Hins & _ & Hzm & Hhm & _ & _ & _ & Htab').
  exists s'. intros cost.
  assert (charge_cost s' n pushes incr = cost) as Hcost; [|by rewrite <-Hcost].
  subst cost. unfold charge_cost, priced_at, instruction_tier, stack_size_tier, stack_height_tier.
  rewrite <-Hins, <-Hzm, <-Hhm, <-Htab'.
  pose proof (tier_ok_value _ _ _ _ (mo_instr_tier s' Hok')) as Hi.
  pose proof (tier_ok_value _ _ _ _ (mo_size_tier s' Hok')) as Hz.
  pose proof (tier_ok_value _ _ _ _ (mo_height_tier s' Hok')) as Hh.
  simpl in Hi, Hz, Hh. by rewrite Hi, Hz, Hh.
Qed.

Definition sample_status : GasStatus :=
  match GasStatus_new initial_cost_schedule_v5 5000000 1000 8 with
  | Done s => s
  | _ => GasStatus_new_unmetered
  end.

Lemma sample_status_ok : meter_ok sample_status.
Proof.
  split.
  6,7,8: apply (tier_ok_init _ 1).
  all: vm_compute; intuition discriminate.
Qed.
Lemma sample_status_table : table_within 0 mult_limit (cost_table sample_status).
Proof.
  split; [|split]; apply map_Forall_to_list; vm_compute; repeat constructor; discriminate.
Qed.

Lemma charge_exact_witness :
  ∃ s',
    let s := sample_status in
    let cost :=
      priced_at (instruction_tier (cost_table s)) (instructions_executed s + 1)
        (instructions_next_tier_start s') * 1 +
      priced_at (stack_size_tier (cost_table s))
        (Z.max (stack_size_high_water_mark s) (stack_size_current s + 100001))
        (stack_size_next_tier_start s') * 100001 +
      priced_at (stack_height_tier (cost_table s))
        (Z.max (stack_height_high_water_mark s) (stack_height_current s + 1))
        (stack_height_next_tier_start s') * 1 in
    charge 1 1 0 100001 0 s =
      (s', if cost <=? gas_left s then Ok () else Err OUT_OF_GAS) ∧
    gas_left s' = Z.max 0 (gas_left s - cost) ∧ meter_ok s'.
Proof.
  apply (charge_exact sample_status 1 1 0 100001 0).
  - exact sample_status_ok.
  - vm_compute. reflexivity.
  - exact sample_status_table.
  - vm_compute. intuition discriminate.
  - lia.
Defined.
