(* ===== verification/MoveValues.v ===== *)
(** Runtime values of the Move VM and their abstract memory sizes:
    [move-vm-types/src/values/values_impl.rs] (the value representation and
    its traversal by a visitor) and [move-vm-types/src/views.rs] (the two
    visitors that measure a value).

    A container lives behind a shared pointer in the source and a reference
    holds that pointer; a value here is the tree a traversal would see. *)
From S2P Require Import Prelude GasTables.

(** * Values *)

Inductive GlobalDataStatus := Clean | Dirty.

Inductive ValueImpl : Type :=
  | Invalid
  | U8 (z : Z)
  | U16 (z : Z)
  | U32 (z : Z)
  | U64 (z : Z)
  | U128 (z : Z)
  | U256 (z : Z)
  | Bool (b : bool)
  | Address (a : Z)
  | VContainer (c : Container)
  | VContainerRef (r : ContainerRef)
  | VIndexedRef (container_ref : ContainerRef) (idx : nat)
with Container : Type :=
  | Locals (r : list ValueImpl)
  | Vec (r : list ValueImpl)
  | Struct (r : list ValueImpl)
  | VecU8 (r : list Z)
  | VecU64 (r : list Z)
  | VecU128 (r : list Z)
  | VecBool (r : list bool)
  | VecAddress (r : list Z)
  | VecU16 (r : list Z)
  | VecU32 (r : list Z)
  | VecU256 (r : list Z)
with ContainerRef : Type :=
  | Local (c : Container)
  | Global (status : GlobalDataStatus) (c : Container).

(** * Visitors *)

(** The trait [ValueVisitor]: each method takes the visitor's state, the depth
    and what is visited; those of composite values say whether to descend. *)
Record ValueVisitor (S : Type) := {
  visit_u8 : S → Z → Z → S;
  visit_u16 : S → Z → Z → S;
  visit_u32 : S → Z → Z → S;
  visit_u64 : S → Z → Z → S;
  visit_u128 : S → Z → Z → S;
  visit_u256 : S → Z → Z → S;
  visit_bool : S → Z → bool → S;
  visit_address : S → Z → Z → S;
  visit_struct : S → Z → nat → S * bool;
  visit_vec : S → Z → nat → S * bool;
  visit_ref : S → Z → bool → S * bool;
  visit_vec_u8 : S → Z → list Z → S;
  visit_vec_u16 : S → Z → list Z → S;
  visit_vec_u32 : S → Z → list Z → S;
  visit_vec_u64 : S → Z → list Z → S;
  visit_vec_u128 : S → Z → list Z → S;
  visit_vec_u256 : S → Z → list Z → S;
  visit_vec_bool : S → Z → list bool → S;
  visit_vec_address : S → Z → list Z → S;
}.
Arguments visit_u8 {S}. Arguments visit_u16 {S}. Arguments visit_u32 {S}.
Arguments visit_u64 {S}. Arguments visit_u128 {S}. Arguments visit_u256 {S}.
Arguments visit_bool {S}. Arguments visit_address {S}. Arguments visit_struct {S}.
Arguments visit_vec {S}. Arguments visit_ref {S}. Arguments visit_vec_u8 {S}.
Arguments visit_vec_u16 {S}. Arguments visit_vec_u32 {S}. Arguments visit_vec_u64 {S}.
Arguments visit_vec_u128 {S}. Arguments visit_vec_u256 {S}. Arguments visit_vec_bool {S}.
Arguments visit_vec_address {S}.

(** [visit_impl] of values, containers and references.  A reference reports
    [is_global = false] whatever it points into, as the source does. *)
Fixpoint visit_impl {S} (w : ValueVisitor S) (v : ValueImpl) (depth : Z) (s : S) : exec S :=
  match v with
  | Invalid => Panic
  | U8 z => Done (visit_u8 w s depth z)
  | U16 z => Done (visit_u16 w s depth z)
  | U32 z => Done (visit_u32 w s depth z)
  | U64 z => Done (visit_u64 w s depth z)
  | U128 z => Done (visit_u128 w s depth z)
  | U256 z => Done (visit_u256 w s depth z)
  | Bool b => Done (visit_bool w s depth b)
  | Address a => Done (visit_address w s depth a)
  | VContainer c => Container_visit_impl w c depth s
  | VContainerRef r => ContainerRef_visit_impl w r depth s
  | VIndexedRef r idx => IndexedRef_visit_impl w r idx depth s
  end
with Container_visit_impl {S} (w : ValueVisitor S) (c : Container) (depth : Z) (s : S) : exec S :=
  let visit_all :=
    fix visit_all (r : list ValueImpl) (s : S) : exec S :=
      match r with
      | [] => Done s
      | v :: r => s ← visit_impl w v (depth + 1) s; visit_all r s
      end in
  match c with
  | Locals _ => Panic
  | Vec r => let '(s, go) := visit_vec w s depth (length r) in if go : bool then visit_all r s else Done s
  | Struct r => let '(s, go) := visit_struct w s depth (length r) in if go : bool then visit_all r s else Done s
  | VecU8 r => Done (visit_vec_u8 w s depth r)
  | VecU16 r => Done (visit_vec_u16 w s depth r)
  | VecU32 r => Done (visit_vec_u32 w s depth r)
  | VecU64 r => Done (visit_vec_u64 w s depth r)
  | VecU128 r => Done (visit_vec_u128 w s depth r)
  | VecU256 r => Done (visit_vec_u256 w s depth r)
  | VecBool r => Done (visit_vec_bool w s depth r)
  | VecAddress r => Done (visit_vec_address w s depth r)
  end
with visit_indexed {S} (w : ValueVisitor S) (c : Container) (depth : Z) (idx : nat) (s : S) : exec S :=
  let visit_nth :=
    fix visit_nth (r : list ValueImpl) (i : nat) : exec S :=
      match r, i with
      | [], _ => Panic
      | v :: _, O => visit_impl w v (depth + 1) s
      | _ :: r, Datatypes.S i => visit_nth r i
      end in
  match c with
  | Locals r | Vec r | Struct r => visit_nth r idx
  | VecU8 vals => z ← unwrap (vals !! idx); Done (visit_u8 w s (depth + 1) z)
  | VecU16 vals => z ← unwrap (vals !! idx); Done (visit_u16 w s (depth + 1) z)
  | VecU32 vals => z ← unwrap (vals !! idx); Done (visit_u32 w s (depth + 1) z)
  | VecU64 vals => z ← unwrap (vals !! idx); Done (visit_u64 w s (depth + 1) z)
  | VecU128 vals => z ← unwrap (vals !! idx); Done (visit_u128 w s (depth + 1) z)
  | VecU256 vals => z ← unwrap (vals !! idx); Done (visit_u256 w s (depth + 1) z)
  | VecBool vals => b ← unwrap (vals !! idx); Done (visit_bool w s (depth + 1) b)
  | VecAddress vals => a ← unwrap (vals !! idx); Done (visit_address w s (depth + 1) a)
  end
with ContainerRef_visit_impl {S} (w : ValueVisitor S) (r : ContainerRef) (depth : Z) (s : S) : exec S :=
  match r with
  | Local c | Global _ c =>
      let '(s, go) := visit_ref w s depth false in
      if go : bool then Container_visit_impl w c (depth + 1) s else Done s
  end
with IndexedRef_visit_impl {S} (w : ValueVisitor S) (r : ContainerRef) (idx : nat) (depth : Z) (s : S) : exec S :=
  match r with
  | Local c | Global _ c =>
      let '(s, go) := visit_ref w s depth false in
      if go : bool then visit_indexed w c depth idx s else Done s
  end.

(** * Abstract memory sizes *)

Definition LEGACY_CONST_SIZE : Z := 16.
Definition LEGACY_REFERENCE_SIZE : Z := 8.
Definition LEGACY_STRUCT_SIZE : Z := 2.
(** [AccountAddress::LENGTH]. *)
Definition ACCOUNT_ADDRESS_LENGTH : Z := 32.

(** [std::mem::size_of_val] of a slice whose elements take [w] bytes. *)
Definition size_of_val {A} (w : Z) (vals : list A) : Z := w * Z.of_nat (length vals).

Definition legacy_visitor : ValueVisitor Z := {|
  visit_u8 s _ _ := gq_add s LEGACY_CONST_SIZE;
  visit_u16 s _ _ := gq_add s LEGACY_CONST_SIZE;
  visit_u32 s _ _ := gq_add s LEGACY_CONST_SIZE;
  visit_u64 s _ _ := gq_add s LEGACY_CONST_SIZE;
  visit_u128 s _ _ := gq_add s LEGACY_CONST_SIZE;
  visit_u256 s _ _ := gq_add s LEGACY_CONST_SIZE;
  visit_bool s _ _ := gq_add s LEGACY_CONST_SIZE;
  visit_address s _ _ := gq_add s ACCOUNT_ADDRESS_LENGTH;
  visit_struct s _ _ := (gq_add s LEGACY_STRUCT_SIZE, true);
  visit_vec s _ _ := (gq_add s LEGACY_STRUCT_SIZE, true);
  visit_ref s _ _ := (gq_add s LEGACY_REFERENCE_SIZE, false);
  visit_vec_u8 s _ vals := gq_add s (size_of_val 1 vals);
  visit_vec_u16 s _ vals := gq_add s (size_of_val 2 vals);
  visit_vec_u32 s _ vals := gq_add s (size_of_val 4 vals);
  visit_vec_u64 s _ vals := gq_add s (size_of_val 8 vals);
  visit_vec_u128 s _ vals := gq_add s (size_of_val 16 vals);
  visit_vec_u256 s _ vals := gq_add s (size_of_val 32 vals);
  visit_vec_bool s _ vals := gq_add s (size_of_val 1 vals);
  visit_vec_address s _ vals := gq_add s (size_of_val 32 vals);
|}.

Definition abstract_visitor : ValueVisitor Z := {|
  visit_u8 s _ _ := gq_add s LEGACY_CONST_SIZE;
  visit_u16 s _ _ := gq_add s LEGACY_CONST_SIZE;
  visit_u32 s _ _ := gq_add s LEGACY_CONST_SIZE;
  visit_u64 s _ _ := gq_add s LEGACY_CONST_SIZE;
  visit_u128 s _ _ := gq_add s LEGACY_CONST_SIZE;
  visit_u256 s _ _ := gq_add s LEGACY_CONST_SIZE;
  visit_bool s _ _ := gq_add s LEGACY_CONST_SIZE;
  visit_address s _ _ := gq_add s ACCOUNT_ADDRESS_LENGTH;
  visit_struct s _ _ := (gq_add s LEGACY_STRUCT_SIZE, true);
  visit_vec s _ _ := (gq_add s LEGACY_STRUCT_SIZE, true);
  visit_ref s _ _ := (gq_add s LEGACY_REFERENCE_SIZE, false);
  visit_vec_u8 s _ vals := gq_add (gq_add s LEGACY_STRUCT_SIZE) (size_of_val 1 vals);
  visit_vec_u16 s _ vals := gq_add (gq_add s LEGACY_STRUCT_SIZE) (size_of_val 2 vals);
  visit_vec_u32 s _ vals := gq_add (gq_add s LEGACY_STRUCT_SIZE) (size_of_val 4 vals);
  visit_vec_u64 s _ vals := gq_add (gq_add s LEGACY_STRUCT_SIZE) (size_of_val 8 vals);
  visit_vec_u128 s _ vals := gq_add (gq_add s LEGACY_STRUCT_SIZE) (size_of_val 16 vals);
  visit_vec_u256 s _ vals := gq_add (gq_add s LEGACY_STRUCT_SIZE) (size_of_val 32 vals);
  visit_vec_bool s _ vals := gq_add (gq_add s LEGACY_STRUCT_SIZE) (size_of_val 1 vals);
  visit_vec_address s _ vals := gq_add (gq_add s LEGACY_STRUCT_SIZE) (size_of_val 32 vals);
|}.

(** [ValueView::legacy_abstract_memory_size] and [ValueView::abstract_memory_size]. *)
Definition legacy_abstract_memory_size (v : ValueImpl) : exec Z := visit_impl legacy_visitor v 0 0.
Definition value_abstract_memory_size (v : ValueImpl) : exec Z := visit_impl abstract_visitor v 0 0.

(** [GasStatus::abstract_memory_size]. *)
Definition abstract_memory_size (s : GasStatus) (v : ValueImpl) : exec Z :=
  if use_legacy_abstract_size (gas_model_version s) then legacy_abstract_memory_size v
  else value_abstract_memory_size v.

(** * Sizes in closed form *)

(** The values a traversal accepts: no moved-out value and no frame of locals
    outside of references. *)
Fixpoint visitable (v : ValueImpl) : bool :=
  match v with
  | Invalid => false
  | VContainer (Locals _) => false
  | VContainer (Vec r) | VContainer (Struct r) => forallb visitable r
  | _ => true
  end.

(** The size of a value when a vector of primitives costs [extra] beside its
    elements, and the number of those vectors. *)
Fixpoint plain_size (extra : Z) (v : ValueImpl) : Z :=
  match v with
  | Invalid => 0
  | U8 _ | U16 _ | U32 _ | U64 _ | U128 _ | U256 _ | Bool _ => 16
  | Address _ => 32
  | VContainer c =>
      match c with
      | Locals _ => 0
      | Vec r | Struct r => 2 + sumZ (map (plain_size extra) r)
      | VecU8 r => extra + Z.of_nat (length r)
      | VecBool r => extra + Z.of_nat (length r)
      | VecU16 r => extra + 2 * Z.of_nat (length r)
      | VecU32 r => extra + 4 * Z.of_nat (length r)
      | VecU64 r => extra + 8 * Z.of_nat (length r)
      | VecU128 r => extra + 16 * Z.of_nat (length r)
      | VecU256 r | VecAddress r => extra + 32 * Z.of_nat (length r)
      end
  | VContainerRef _ | VIndexedRef _ _ => 8
  end.
Fixpoint primitive_vectors (v : ValueImpl) : Z :=
  match v with
  | VContainer (Locals _) => 0
  | VContainer (Vec r) | VContainer (Struct r) => sumZ (map primitive_vectors r)
  | VContainer _ => 1
  | _ => 0
  end.

(** Induction on the values inside vectors and structs. *)
Definition nests (v : ValueImpl) : bool :=
  match v with VContainer (Vec _) | VContainer (Struct _) => true | _ => false end.
Definition ValueImpl_nested_ind (P : ValueImpl → Prop)
    (Hvec : ∀ r, Forall P r → P (VContainer (Vec r)))
    (Hstruct : ∀ r, Forall P r → P (VContainer (Struct r)))
    (Hleaf : ∀ v, nests v = false → P v) : ∀ v, P v :=
  fix go v :=
    let go_all := fix go_all (r : list ValueImpl) : Forall P r :=
      match r with
      | [] => List.Forall_nil P
      | v :: r => @List.Forall_cons _ P v r (go v) (go_all r)
      end in
    match v with
    | VContainer (Vec r) => Hvec r (go_all r)
    | VContainer (Struct r) => Hstruct r (go_all r)
    | w => Hleaf w eq_refl
    end.

(** A visitor that adds up sizes: what it does on each kind of value. *)
Definition measures (extra : Z) (w : ValueVisitor Z) : Prop :=
  (∀ v d s, nests v = false → visitable v = true → 0 ≤ s →
     visit_impl w v d s = Done (Z.min u64_max (s + plain_size extra v))) ∧
  (∀ s d n, visit_vec w s d n = (Z.min u64_max (s + 2), true)) ∧
  (∀ s d n, visit_struct w s d n = (Z.min u64_max (s + 2), true)).

Lemma legacy_measures : measures 0 legacy_visitor.
Proof.
  split_and!; [|done..]. intros v d s Hv Hvis Hs.
  destruct v as [| | | | | | | | |[]|[]|[] ?]; try done; simpl; unfold gq_add, saturating_add64, size_of_val;
    f_equal; lia.
Qed.
Lemma abstract_measures : measures 2 abstract_visitor.
Proof.
  split_and!; [|done..]. intros v d s Hv Hvis Hs.
  destruct v as [| | | | | | | | |[]|[]|[] ?]; try done; simpl; unfold gq_add, saturating_add64, size_of_val,
    LEGACY_STRUCT_SIZE; f_equal; lia.
Qed.

Lemma plain_size_nonneg extra v : 0 ≤ extra → 0 ≤ plain_size extra v.
Proof.
  intros Hx. induction v as [r IH|r IH|v Hv] using ValueImpl_nested_ind; simpl.
  1,2: enough (0 ≤ sumZ (map (plain_size extra) r)) by lia;
       apply sumZ_nonneg, Forall_map; exact IH.
  destruct v as [| | | | | | | | |[]| |]; simplify_eq/=; lia.
Qed.

(** The traversal of a nested value adds the sizes of its parts. *)
Lemma measure_exact extra w v d s :
  0 ≤ extra → measures extra w → 0 ≤ s ≤ u64_max →
  visit_impl w v d s =
    if visitable v then Done (Z.min u64_max (s + plain_size extra v)) else Panic.
Proof.
  intros Hx (Hleaf & Hvec & Hstruct). revert d s.
  induction v as [r IH|r IH|v Hv] using ValueImpl_nested_ind; intros d s Hs.
  3: { destruct (visitable v) eqn:Hvis; [apply Hleaf; [done..|lia]|].
       by destruct v as [| | | | | | | | |[]| |]. }
  all: simpl; rewrite ?Hvec, ?Hstruct; clear Hvec Hstruct Hleaf;
    rewrite (Z.add_assoc s 2); generalize (s + 2) (ltac:(lia) : 0 ≤ s + 2); clear s Hs;
    induction IH as [|v r Hv Hr IH]; intros s Hs; simpl; [by rewrite Z.add_0_r|];
    rewrite Hv by width; destruct (visitable v); simpl; [|done];
    pose proof (plain_size_nonneg extra v Hx);
    replace (Z.min u64_max (Z.min u64_max s + plain_size extra v))
      with (Z.min u64_max (s + plain_size extra v)) by lia;
    rewrite IH by lia; by rewrite Z.add_assoc.
Qed.

Lemma plain_size_extra extra v : plain_size extra v = plain_size 0 v + extra * primitive_vectors v.
Proof.
  induction v as [r IH|r IH|v Hv] using ValueImpl_nested_ind; simpl.
  1,2: enough (sumZ (map (plain_size extra) r) =
         sumZ (map (plain_size 0) r) + extra * sumZ (map primitive_vectors r)) by lia;
       induction IH as [|v r Hv Hr IH]; simpl; [lia|]; rewrite Hv, IH; lia.
  destruct v as [| | | | | | | | |[]| |]; simplify_eq/=; lia.
Qed.

Lemma primitive_vectors_nonneg v : 0 ≤ primitive_vectors v.
Proof.
  induction v as [r IH|r IH|v Hv] using ValueImpl_nested_ind; simpl.
  1,2: apply sumZ_nonneg, Forall_map; exact IH.
  destruct v as [| | | | | | | | |[]| |]; simplify_eq/=; lia.
Qed.

Lemma legacy_size_exact v :
  legacy_abstract_memory_size v =
    if visitable v then Done (Z.min u64_max (plain_size 0 v)) else Panic.
Proof. apply (measure_exact 0); [lia|apply legacy_measures|width]. Qed.
Lemma abstract_size_exact v :
  value_abstract_memory_size v =
    if visitable v then Done (Z.min u64_max (plain_size 2 v)) else Panic.
Proof. apply (measure_exact 2); [lia|apply abstract_measures|width]. Qed.

(** The two size measures of a value traverse exactly the values that hold
    no moved-out value and no frame of locals, and panic on the others; both
    saturate at the greatest [u64], and before that they differ by the two
    units the newer one adds for each vector of primitives. *)
Theorem value_sizes_exact (v : ValueImpl) :
  legacy_abstract_memory_size v =
    (if visitable v then Done (Z.min u64_max (plain_size 0 v)) else Panic) ∧
  value_abstract_memory_size v =
    (if visitable v
     then Done (Z.min u64_max (plain_size 0 v + LEGACY_STRUCT_SIZE * primitive_vectors v))
     else Panic).
Proof.
  rewrite legacy_size_exact, abstract_size_exact, (plain_size_extra 2). done.
Qed.
