(* ===== verification/GasMeter.v ===== *)
(** The gas meter as the Move VM calls it: [impl GasMeter for GasStatus] of
    [mgo-types/src/gas_model/tables.rs], over the values of [MoveValues].

    Each method is a definition from its arguments to the meter's new state
    and the result it returns; [GasMeterCall] lists the methods, and
    [meter_run] is the sequence of calls an execution makes, which ends at the
    first error. *)
From S2P Require Import Prelude GasTables MoveValues.

(** * Simple instructions *)

Module Instr.
Inductive SimpleInstruction :=
  | Nop | Ret
  | BrTrue | BrFalse | Branch
  | LdU8 | LdU64 | LdU128 | LdTrue | LdFalse
  | FreezeRef | MutBorrowLoc | ImmBorrowLoc | ImmBorrowField | MutBorrowField
  | ImmBorrowFieldGeneric | MutBorrowFieldGeneric
  | CastU8 | CastU64 | CastU128
  | Add | Sub | Mul | Mod | Div
  | BitOr | BitAnd | Xor | Shl | Shr
  | Or | And | Not
  | Lt | Gt | Le | Ge
  | Abort
  | LdU16 | LdU32 | LdU256 | CastU16 | CastU32 | CastU256.
End Instr.

(** Runtime types and their sizes. *)
Module Ty.
Inductive Type_ : Type :=
  | Bool | U8 | U64 | U128 | Address | Signer
  | Vector (ty : Type_)
  | Struct (idx : nat)
  | StructInstantiation (idx : nat) (tys : list Type_)
  | Reference (ty : Type_)
  | MutableReference (ty : Type_)
  | TyParam (idx : nat)
  | U16 | U32 | U256.
End Ty.

Definition LEGACY_BASE_MEMORY_SIZE : Z := 1.
Fixpoint type_size (t : Ty.Type_) : Z :=
  match t with
  | Ty.TyParam _ | Ty.Bool | Ty.U8 | Ty.U16 | Ty.U32 | Ty.U64 | Ty.U128 | Ty.U256
  | Ty.Address | Ty.Signer => LEGACY_BASE_MEMORY_SIZE
  | Ty.Vector ty | Ty.Reference ty | Ty.MutableReference ty =>
      gq_add LEGACY_BASE_MEMORY_SIZE (type_size ty)
  | Ty.Struct _ => LEGACY_BASE_MEMORY_SIZE
  | Ty.StructInstantiation _ tys =>
      fold_left (λ acc ty, gq_add acc (type_size ty)) tys LEGACY_BASE_MEMORY_SIZE
  end.

Definition REFERENCE_SIZE : Z := 8.
Definition STRUCT_SIZE : Z := 2.
Definition VEC_SIZE : Z := 8.

(** [(pops, pushes, stack size decrease, stack size increase)]. *)
Definition get_simple_instruction_stack_change (instr : Instr.SimpleInstruction) : Z * Z * Z * Z :=
  match instr with
  | Instr.Nop | Instr.Ret => (0, 0, 0, 0)
  | Instr.BrTrue | Instr.BrFalse => (1, 0, type_size Ty.Bool, 0)
  | Instr.Branch => (0, 0, 0, 0)
  | Instr.LdU8 => (0, 1, 0, type_size Ty.U8)
  | Instr.LdU16 => (0, 1, 0, type_size Ty.U16)
  | Instr.LdU32 => (0, 1, 0, type_size Ty.U32)
  | Instr.LdU64 => (0, 1, 0, type_size Ty.U64)
  | Instr.LdU128 => (0, 1, 0, type_size Ty.U128)
  | Instr.LdU256 => (0, 1, 0, type_size Ty.U256)
  | Instr.LdTrue | Instr.LdFalse => (0, 1, 0, type_size Ty.Bool)
  | Instr.FreezeRef => (1, 1, REFERENCE_SIZE, REFERENCE_SIZE)
  | Instr.ImmBorrowLoc | Instr.MutBorrowLoc => (0, 1, 0, REFERENCE_SIZE)
  | Instr.ImmBorrowField | Instr.MutBorrowField
  | Instr.ImmBorrowFieldGeneric | Instr.MutBorrowFieldGeneric =>
      (1, 1, REFERENCE_SIZE, REFERENCE_SIZE)
  | Instr.CastU8 => (1, 1, type_size Ty.U8, type_size Ty.U8)
  | Instr.CastU16 => (1, 1, type_size Ty.U8, type_size Ty.U16)
  | Instr.CastU32 => (1, 1, type_size Ty.U8, type_size Ty.U32)
  | Instr.CastU64 => (1, 1, type_size Ty.U8, type_size Ty.U64)
  | Instr.CastU128 => (1, 1, type_size Ty.U8, type_size Ty.U128)
  | Instr.CastU256 => (1, 1, type_size Ty.U8, type_size Ty.U256)
  | Instr.Add | Instr.Sub | Instr.Mul | Instr.Mod | Instr.Div =>
      (2, 1, gq_add (type_size Ty.U8) (type_size Ty.U8), type_size Ty.U256)
  | Instr.BitOr | Instr.BitAnd | Instr.Xor =>
      (2, 1, gq_add (type_size Ty.U8) (type_size Ty.U8), type_size Ty.U256)
  | Instr.Shl | Instr.Shr =>
      (2, 1, gq_add (type_size Ty.U8) (type_size Ty.U8), type_size Ty.U256)
  | Instr.Or | Instr.And =>
      (2, 1, gq_add (type_size Ty.Bool) (type_size Ty.Bool), type_size Ty.Bool)
  | Instr.Lt | Instr.Gt | Instr.Le | Instr.Ge =>
      (2, 1, gq_add (type_size Ty.U8) (type_size Ty.U8), type_size Ty.Bool)
  | Instr.Not => (1, 1, type_size Ty.Bool, type_size Ty.Bool)
  | Instr.Abort => (1, 0, type_size Ty.U64, 0)
  end.

(** * The methods *)

(** A method measures its value arguments first, which may panic. *)
Definition metered_call : Type := GasStatus → exec (GasStatus * result unit StatusCode).

Definition len {A} (l : list A) : Z := Z.of_nat (length l).

(** [args.fold(init, |acc, elem| acc + self.abstract_memory_size(elem))]. *)
Definition fold_sizes (s : GasStatus) (init : Z) (vals : list ValueImpl) : exec Z :=
  foldM (λ acc v, size ← abstract_memory_size s v; Done (gq_add acc size)) init vals.

Definition charge_simple_instr (instr : Instr.SimpleInstruction) : metered_call := λ s,
  let '(pops, pushes, pop_size, push_size) := get_simple_instruction_stack_change instr in
  Done (charge 1 pushes pops push_size pop_size s).
Definition charge_pop (popped_val : ValueImpl) : metered_call := λ s,
  size ← abstract_memory_size s popped_val; Done (charge 1 0 1 0 size s).
Definition charge_native_function (amount : Z) (ret_vals : option (list ValueImpl)) : metered_call := λ s,
  let pushes := match ret_vals with Some vals => len vals | None => 0 end in
  size_increase ← match ret_vals with Some vals => fold_sizes s 0 vals | None => Done 0 end;
  Done ((charge 0 pushes 0 size_increase 0;; deduct_gas amount)%vm s).
Definition charge_native_function_before_execution (args : list ValueImpl) : metered_call := λ s,
  let pops := len args in
  stack_reduction_size ← fold_sizes s pops args;
  Done (charge 1 0 pops 0 stack_reduction_size s).
Definition charge_call (args : list ValueImpl) : metered_call := λ s,
  let pops := len args in
  stack_reduction_size ← fold_sizes s 0 args;
  Done (charge 1 0 pops 0 stack_reduction_size s).
Definition charge_call_generic (args : list ValueImpl) : metered_call := λ s,
  let pops := len args in
  stack_reduction_size ← fold_sizes s 0 args;
  Done (charge 1 0 pops 0 stack_reduction_size s).
Definition charge_ld_const (size : Z) : metered_call := λ s,
  Done (charge 1 1 0 size 0 s).
Definition charge_ld_const_after_deserialization (val : ValueImpl) : metered_call := λ s,
  Done (s, Ok ()).
Definition charge_copy_loc (val : ValueImpl) : metered_call := λ s,
  size ← abstract_memory_size s val; Done (charge 1 1 0 size 0 s).
Definition charge_move_loc (val : ValueImpl) : metered_call := λ s,
  size ← abstract_memory_size s val; Done (charge 1 1 0 size 0 s).
Definition charge_store_loc (val : ValueImpl) : metered_call := λ s,
  size ← abstract_memory_size s val; Done (charge 1 0 1 0 size s).
Definition charge_pack (args : list ValueImpl) : metered_call := λ s,
  Done (charge 1 1 (len args) STRUCT_SIZE 0 s).
Definition charge_unpack (args : list ValueImpl) : metered_call := λ s,
  Done (charge 1 (len args) 1 0 STRUCT_SIZE s).
Definition charge_read_ref (ref_val : ValueImpl) : metered_call := λ s,
  size ← abstract_memory_size s ref_val; Done (charge 1 1 1 size REFERENCE_SIZE s).
Definition charge_write_ref (new_val old_val : ValueImpl) : metered_call := λ s,
  new_size ← abstract_memory_size s new_val;
  old_size ← abstract_memory_size s old_val;
  Done (charge 1 1 2 new_size old_size s).
Definition charge_eq (lhs rhs : ValueImpl) : metered_call := λ s,
  l ← abstract_memory_size s lhs; r ← abstract_memory_size s rhs;
  let size_reduction := gq_add l r in
  Done (charge 1 1 2 (gq_add (type_size Ty.Bool) size_reduction) size_reduction s).
Definition charge_neq (lhs rhs : ValueImpl) : metered_call := λ s,
  l ← abstract_memory_size s lhs; r ← abstract_memory_size s rhs;
  let size_reduction := gq_add l r in
  Done (charge 1 1 2 (type_size Ty.Bool) size_reduction s).
Definition charge_vec_pack (args : list ValueImpl) : metered_call := λ s,
  Done (charge 1 1 (len args) VEC_SIZE 0 s).
Definition charge_vec_len : metered_call := λ s,
  Done (charge 1 1 1 (type_size Ty.U64) REFERENCE_SIZE s).
Definition charge_vec_borrow (is_mut is_success : bool) : metered_call := λ s,
  Done (charge 1 1 2 REFERENCE_SIZE (gq_add REFERENCE_SIZE (type_size Ty.U64)) s).
Definition charge_vec_push_back (val : ValueImpl) : metered_call := λ s,
  Done (charge 1 0 2 0 REFERENCE_SIZE s).
Definition charge_vec_pop_back (val : option ValueImpl) : metered_call := λ s,
  Done (charge 1 1 1 0 REFERENCE_SIZE s).
Definition charge_vec_unpack (expect_num_elements : Z) (elems : list ValueImpl) : metered_call := λ s,
  Done (charge 1 expect_num_elements 1 0 VEC_SIZE s).
Definition charge_vec_swap : metered_call := λ s,
  Done (charge 1 1 1 0 (gq_add (gq_add REFERENCE_SIZE (type_size Ty.U64)) (type_size Ty.U64)) s).
Definition charge_drop_frame (locals : list ValueImpl) : metered_call := λ s,
  Done (s, Ok ()).
(** [GasMeter::remaining_gas], in internal units. *)
Definition remaining_gas (s : GasStatus) : Z :=
  if negb (metered s) then u64_max else gas_left s.

Inductive GasMeterCall :=
  | CSimple (instr : Instr.SimpleInstruction)
  | CPop (v : ValueImpl)
  | CNative (amount : Z) (ret_vals : option (list ValueImpl))
  | CNativeBefore (args : list ValueImpl)
  | CCall (args : list ValueImpl)
  | CCallGeneric (args : list ValueImpl)
  | CLdConst (size : Z)
  | CLdConstAfter (v : ValueImpl)
  | CCopyLoc (v : ValueImpl)
  | CMoveLoc (v : ValueImpl)
  | CStoreLoc (v : ValueImpl)
  | CPack (args : list ValueImpl)
  | CUnpack (args : list ValueImpl)
  | CReadRef (v : ValueImpl)
  | CWriteRef (new_val old_val : ValueImpl)
  | CEq (lhs rhs : ValueImpl)
  | CNeq (lhs rhs : ValueImpl)
  | CVecPack (args : list ValueImpl)
  | CVecLen
  | CVecBorrow (is_mut is_success : bool)
  | CVecPushBack (v : ValueImpl)
  | CVecPopBack (v : option ValueImpl)
  | CVecUnpack (n : Z) (elems : list ValueImpl)
  | CVecSwap
  | CDropFrame (locals : list ValueImpl).

Definition meter_call (c : GasMeterCall) : metered_call :=
  match c with
  | CSimple i => charge_simple_instr i
  | CPop v => charge_pop v
  | CNative amount vals => charge_native_function amount vals
  | CNativeBefore args => charge_native_function_before_execution args
  | CCall args => charge_call args
  | CCallGeneric args => charge_call_generic args
  | CLdConst size => charge_ld_const size
  | CLdConstAfter v => charge_ld_const_after_deserialization v
  | CCopyLoc v => charge_copy_loc v
  | CMoveLoc v => charge_move_loc v
  | CStoreLoc v => charge_store_loc v
  | CPack args => charge_pack args
  | CUnpack args => charge_unpack args
  | CReadRef v => charge_read_ref v
  | CWriteRef v w => charge_write_ref v w
  | CEq v w => charge_eq v w
  | CNeq v w => charge_neq v w
  | CVecPack args => charge_vec_pack args
  | CVecLen => charge_vec_len
  | CVecBorrow m b => charge_vec_borrow m b
  | CVecPushBack v => charge_vec_push_back v
  | CVecPopBack v => charge_vec_pop_back v
  | CVecUnpack n elems => charge_vec_unpack n elems
  | CVecSwap => charge_vec_swap
  | CDropFrame locals => charge_drop_frame locals
  end.

(** The calls of an execution, up to the first that fails. *)
Fixpoint meter_run (s : GasStatus) (calls : list GasMeterCall)
    : exec (GasStatus * result unit StatusCode) :=
  match calls with
  | [] => Done (s, Ok ())
  | c :: calls =>
      out ← meter_call c s;
      match out with
      | (s', Ok _) => meter_run s' calls
      | (s', Err e) => Done (s', Err e)
      end
  end.

(** * What a call charges *)

(** Calls whose arguments are small enough that no size saturates: values that
    can be measured, and at most [call_limit] units or elements. *)
Definition call_limit : Z := 2 ^ 46.
Definition small_value (v : ValueImpl) : bool := visitable v && (plain_size 2 v <=? 2 ^ 40).
Definition small_values (vals : list ValueImpl) : bool :=
  forallb small_value vals && (sumZ (map (plain_size 2) vals) <=? 2 ^ 40) && (len vals <=? 2 ^ 40).
Definition small_call (c : GasMeterCall) : bool :=
  match c with
  | CSimple _ | CVecLen | CVecBorrow _ _ | CVecSwap => true
  | CPop v | CCopyLoc v | CMoveLoc v | CStoreLoc v | CReadRef v => small_value v
  | CWriteRef v w | CEq v w | CNeq v w => small_value v && small_value w
  | CNative amount ret_vals =>
      (0 <=? amount) && match ret_vals with Some vals => small_values vals | None => true end
  | CNativeBefore args | CCall args | CCallGeneric args => small_values args
  | CUnpack args => len args <=? 2 ^ 40
  | CLdConst size => (0 <=? size) && (size <=? 2 ^ 40)
  | CVecUnpack n _ => (0 <=? n) && (n <=? 2 ^ 40)
  | CLdConstAfter _ | CPack _ | CVecPack _ | CVecPushBack _ | CVecPopBack _ | CDropFrame _ => true
  end.

(** The bytecode instructions a call stands for. *)
Definition call_instructions (c : GasMeterCall) : Z :=
  match c with CNative _ _ | CLdConstAfter _ | CDropFrame _ => 0 | _ => 1 end.

Lemma small_value_size s v :
  small_value v = true →
  ∃ z, abstract_memory_size s v = Done z ∧ 0 ≤ z ≤ plain_size 2 v ∧ plain_size 2 v ≤ 2 ^ 40.
Proof.
  unfold small_value, abstract_memory_size. intros Hv. bool_prop.
  pose proof (plain_size_nonneg 0 v ltac:(lia)).
  assert (plain_size 0 v ≤ plain_size 2 v) as Hle.
  { rewrite (plain_size_extra 2). pose proof (primitive_vectors_nonneg v). lia. }
  destruct (use_legacy_abstract_size _).
  - rewrite legacy_size_exact. rewrite H. eexists. split; [done|]. width.
  - rewrite abstract_size_exact. rewrite H. eexists. split; [done|]. width.
Qed.

Lemma fold_sizes_small s init vals :
  small_values vals = true → 0 ≤ init ≤ 2 ^ 40 →
  ∃ z, fold_sizes s init vals = Done z ∧ 0 ≤ z ≤ init + 2 ^ 40.
Proof.
  unfold small_values. intros Hv Hinit. bool_prop.
  assert (∀ vals acc, forallb small_value vals = true → 0 ≤ acc →
    acc + sumZ (map (plain_size 2) vals) ≤ 2 ^ 41 →
    ∃ z, fold_sizes s acc vals = Done z ∧ 0 ≤ z ≤ acc + sumZ (map (plain_size 2) vals)) as Hgen.
  { clear. induction vals as [|v vals IH]; intros acc Hall Hacc Hle; simpl in *.
    - exists acc. split; [done|lia].
    - bool_prop. destruct (small_value_size s v) as (z & Hz & Hz1 & Hz2); [done|].
      unfold fold_sizes. simpl. rewrite Hz. simpl.
      destruct (IH (gq_add acc z)) as (y & Hy & Hb); [done|unfold gq_add, saturating_add64; width| |].
      { unfold gq_add, saturating_add64. lia. }
      exists y. split; [exact Hy|]. unfold gq_add, saturating_add64 in Hb. lia. }
  destruct (Hgen vals init) as (z & Hz & Hb); [done|lia..|]. exists z. split; [done|lia].
Qed.

Lemma len_nonneg {A} (l : list A) : 0 ≤ len l.
Proof. unfold len. lia. Qed.
#[export] Hint Resolve len_nonneg : mango.

(** Every call is one [charge], possibly followed by a deduction of what a
    native function asked for, or nothing at all. *)
Inductive call_shape (s : GasStatus) (c : GasMeterCall) : Prop :=
  | shape_charge n pushes pops incr decr :
      meter_call c s = Done (charge n pushes pops incr decr s) →
      n = call_instructions c → 0 ≤ pushes ≤ call_limit → 0 ≤ pops → 0 ≤ incr ≤ call_limit →
      call_shape s c
  | shape_native pushes incr amount :
      meter_call c s = Done ((charge 0 pushes 0 incr 0;; deduct_gas amount)%vm s) →
      call_instructions c = 0 → 0 ≤ pushes ≤ call_limit → 0 ≤ incr ≤ call_limit → 0 ≤ amount →
      call_shape s c
  | shape_free :
      meter_call c s = Done (s, Ok ()) → call_instructions c = 0 → call_shape s c.

(** The sizes a call on small values asks for. *)
Ltac measure_args s :=
  repeat match goal with
    | H : small_value ?v = true |- _ =>
        destruct (small_value_size s v H) as (? & ? & ? & ?); clear H
    | H : small_values ?vals = true |- _ =>
        destruct (fold_sizes_small s 0 vals H) as (? & ? & ?); [lia|];
        destruct (fold_sizes_small s (len vals) vals H) as (? & ? & ?); [lia|]; clear H
    end.

Lemma meter_call_shape s c : small_call c = true → call_shape s c.
Proof.
  intros Hc. pose proof (@len_nonneg ValueImpl) as Hlen.
  destruct c; simpl in Hc; bool_prop;
    match goal with
    | H : small_values ?vals = true |- _ =>
        assert (len vals ≤ 2 ^ 40) by (unfold small_values in H; bool_prop; done);
        pose proof (Hlen vals)
    | |- _ => idtac
    end.
  all: try (eapply shape_free; reflexivity).
  3: { destruct ret_vals as [vals|].
       - assert (len vals ≤ 2 ^ 40) by (unfold small_values in *; bool_prop; done).
         pose proof (Hlen vals). destruct (fold_sizes_small s 0 vals) as (z & Hz & ?); [done|lia|].
         eapply (shape_native _ _ (len vals) z amount); try done; unfold call_limit; try lia.
         unfold meter_call, charge_native_function. by rewrite Hz.
       - eapply (shape_native _ _ 0 0 amount); try done; unfold call_limit; lia. }
  all: try (destruct (get_simple_instruction_stack_change instr) as [[[pops pushes] dec] inc] eqn:Hi;
    eapply (shape_charge _ _ 1 pushes pops inc dec);
    [unfold meter_call, charge_simple_instr; by rewrite Hi|done|..];
    unfold call_limit; destruct instr; vm_compute in Hi; simplify_eq; lia).
  all: measure_args s.
  all: eapply shape_charge;
    [simpl;
     unfold charge_pop, charge_native_function_before_execution, charge_call, charge_call_generic,
       charge_ld_const, charge_copy_loc, charge_move_loc, charge_store_loc, charge_pack,
       charge_unpack, charge_read_ref, charge_write_ref, charge_eq, charge_neq, charge_vec_pack,
       charge_vec_len, charge_vec_borrow, charge_vec_push_back, charge_vec_pop_back,
       charge_vec_unpack, charge_vec_swap;
     repeat match goal with H : ?e = Done _ |- context [?e] => rewrite H; simpl end;
     reflexivity|done|..];
    unfold call_limit, gq_add, saturating_add64, type_size, LEGACY_BASE_MEMORY_SIZE, REFERENCE_SIZE,
      STRUCT_SIZE, VEC_SIZE, u64_max;
    try (match goal with |- context [len ?l] => pose proof (Hlen l) end); try lia.
Qed.

(** * Runs *)

(** Every multiplier of every version's schedule is between 1 and [mult_limit]. *)
Definition tiers_withinb (lo hi : Z) (tiers : gmap Z Z) : bool :=
  forallb (λ kv, (lo <=? kv.2) && (kv.2 <=? hi)) (map_to_list tiers).
Lemma tiers_withinb_ok lo hi tiers : tiers_withinb lo hi tiers = true → tiers_within lo hi tiers.
Proof.
  unfold tiers_withinb. intros Hall k v Hkv. rewrite forallb_forall in Hall.
  specialize (Hall (k, v)). simpl in Hall. rewrite <-list_elem_of_In, elem_of_map_to_list in Hall.
  specialize (Hall Hkv). bool_prop. lia.
Qed.

Lemma schedule_within v : table_within 1 mult_limit (cost_table_for_version v).
Proof.
  unfold cost_table_for_version.
  repeat case_match; (split; [|split]); apply tiers_withinb_ok; vm_compute; reflexivity.
Qed.

(** A metered run in which every unit of the counters has been paid for. *)
Record run_ok (s : GasStatus) : Prop := {
  ro_meter : meter_ok s;
  ro_metered : metered s = true;
  ro_table : table_within 1 mult_limit (cost_table s);
  ro_paid : instructions_executed s + stack_size_current s + stack_height_current s
            ≤ initial_budget s - gas_left s;
  ro_budget : initial_budget s ≤ 2 ^ 47;
}.

Lemma table_within_weaken lo hi t : 0 ≤ lo → table_within lo hi t → table_within 0 hi t.
Proof.
  intros Hlo (Hi & Hh & Hz). split; [|split]; intros k v Hv.
  - specialize (Hi k v Hv). simpl in *. lia.
  - specialize (Hh k v Hv). simpl in *. lia.
  - specialize (Hz k v Hv). simpl in *. lia.
Qed.

Lemma charge_run_ok s n pushes pops incr decr :
  run_ok s → 0 ≤ n ≤ 1 → 0 ≤ pushes ≤ call_limit → 0 ≤ pops → 0 ≤ incr ≤ call_limit →
  ∃ s' r, charge n pushes pops incr decr s = (s', r) ∧
    ((r = Ok () ∧ run_ok s' ∧ instructions_executed s' = instructions_executed s + n ∧
      initial_budget s' = initial_budget s) ∨
     (r = Err OUT_OF_GAS ∧ meter_ok s' ∧ gas_left s' = 0 ∧ initial_budget s' = initial_budget s)).
Proof.
  intros [Hm Hmet Htab Hpaid Hbud] Hn Hp Hpops Hi. unfold call_limit in *.
  destruct (charge_outcome s n pushes pops incr decr)
    as (s' & r & -> & Hok & Hc0 & Hr & Hgas & Hins & Hsz & _ & _ & Hht & Hbud' & Hmet' & Htab');
    [done|done|by apply (table_within_weaken 1)|by destruct Hm; unfold room, meter_limit; lia|done|].
  exists s', r. split; [done|].
  assert (n + incr + pushes ≤ charge_cost s' n pushes incr) as Hcost.
  { destruct (meter_mults_within s' 1 ltac:(lia) Hok) as (? & ? & ?); [by rewrite Htab'|].
    unfold charge_cost. nia. }
  destruct Hm. case_test (charge_cost s' n pushes incr <=? gas_left s) as Hle; [left|right].
  - split_and!; [done| |done|done]. split; [done|done|by rewrite Htab'| |lia]. lia.
  - split_and!; [done|done|lia|done].
Qed.

Lemma deduct_run_ok s amount :
  run_ok s → 0 ≤ amount →
  ∃ s' r, deduct_gas amount s = (s', r) ∧
    ((r = Ok () ∧ run_ok s' ∧ instructions_executed s' = instructions_executed s ∧
      initial_budget s' = initial_budget s) ∨
     (r = Err OUT_OF_GAS ∧ meter_ok s' ∧ gas_left s' = 0 ∧ initial_budget s' = initial_budget s)).
Proof.
  intros [[] Hmet Htab Hpaid Hbud] Ham. unfold deduct_gas, gq_checked_sub, checked_sub64.
  rewrite Hmet. simpl. case_test (amount <=? gas_left s) as Hle; eexists _, _; (split; [done|]).
  - left. split_and!; [done| |done..]. split; simpl; [|done|done|lia|done].
    split; simpl; try done; lia.
  - right. split_and!; [done| |done..]. split; simpl; try done; lia.
Qed.

Lemma call_run_ok s c :
  run_ok s → small_call c = true →
  ∃ s' r, meter_call c s = Done (s', r) ∧
    ((r = Ok () ∧ run_ok s' ∧
      instructions_executed s' = instructions_executed s + call_instructions c ∧
      initial_budget s' = initial_budget s) ∨
     (r = Err OUT_OF_GAS ∧ meter_ok s' ∧ gas_left s' = 0 ∧ initial_budget s' = initial_budget s)).
Proof.
  intros Hok Hc. destruct (meter_call_shape s c Hc)
    as [n pushes pops incr decr -> -> ? ? ?|pushes incr amount -> Hn ? ? ?| -> Hn].
  - assert (0 ≤ call_instructions c ≤ 1) by (destruct c; simpl; lia).
    destruct (charge_run_ok s (call_instructions c) pushes pops incr decr)
      as (s' & r & -> & Hout); [done..|]. by exists s', r.
  - rewrite Hn. destruct (charge_run_ok s 0 pushes 0 incr 0)
      as (s1 & r1 & Hch & [(-> & Hok1 & Hi & Hb)|(-> & Hok1 & ? & ?)]); [done|lia|done|lia|done| |].
    + unfold vm_bind. rewrite Hch.
      destruct (deduct_run_ok s1 amount) as (s2 & r2 & -> & Hout); [done..|].
      exists s2, r2. split; [done|]. rewrite <-Hb.
      replace (instructions_executed s + 0) with (instructions_executed s1) by lia. done.
    + unfold vm_bind. rewrite Hch. exists s1, (Err OUT_OF_GAS). split; [done|]. by right.
  - exists s, (Ok ()). split; [done|]. left. rewrite Hn, Z.add_0_r. done.
Qed.

Lemma meter_run_ok s calls :
  run_ok s → forallb small_call calls = true →
  ∃ s' r, meter_run s calls = Done (s', r) ∧
    ((r = Ok () ∧ run_ok s' ∧
      instructions_executed s' =
        instructions_executed s + sumZ (map call_instructions calls) ∧
      initial_budget s' = initial_budget s) ∨
     (r = Err OUT_OF_GAS ∧ meter_ok s' ∧ gas_left s' = 0 ∧ initial_budget s' = initial_budget s)).
Proof.
  revert s. induction calls as [|c calls IH]; intros s Hok Hall; simpl in *.
  - exists s, (Ok ()). split; [done|]. left. rewrite Z.add_0_r. done.
  - bool_prop. destruct (call_run_ok s c)
      as (s1 & r1 & -> & [(-> & Hok1 & Hi & Hb)|(-> & Hout)]); [done..| |].
    + simpl. destruct (IH s1) as (s' & r & -> & Hrun); [done..|].
      exists s', r. split; [done|]. rewrite Hi, Hb, <-Z.add_assoc in Hrun. done.
    + exists s1, (Err OUT_OF_GAS). split; [done|]. right. by split.
Qed.

Lemma GasStatus_new_ok table budget price version :
  0 < price → 0 ≤ budget → budget / price * 1000 ≤ 2 ^ 47 → table_within 1 mult_limit table →
  ∃ s, GasStatus_new table budget price version = Done s ∧ run_ok s ∧
    initial_budget s = budget / price * 1000 ∧ gas_left s = budget / price * 1000 ∧
    instructions_executed s = 0.
Proof.
  intros Hp Hb Hle Htab. unfold GasStatus_new.
  rewrite (proj2 (Z.ltb_lt _ _)) by done. simpl.
  pose proof (Z.div_pos budget price Hb Hp).
  assert (to_internal_units (budget / price) = budget / price * 1000) as ->.
  { unfold to_internal_units, INTERNAL_UNIT_MULTIPLIER. apply wrap64_small. width. }
  eexists. split; [reflexivity|]. split; [|done].
  split; simpl; [|done|done|lia|done].
  split; simpl; try (width || apply tier_ok_init).
Qed.

(** C31: With the schedule of any gas model version and a budget of at most
    2^47 internal units, every sequence of meter calls on values of ordinary
    size returns.  It succeeds, and then every bytecode instruction executed
    has been paid for, so their number is at most the budget in internal
    units; or it stops with [OUT_OF_GAS] and nothing left, in which case the
    gas reported as used is the whole budget. *)
Theorem metering_bounds_execution (version budget price : Z) (calls : list GasMeterCall) :
  0 < price → 0 ≤ budget → budget / price * INTERNAL_UNIT_MULTIPLIER ≤ 2 ^ 47 →
  forallb small_call calls = true →
  ∃ s s' r,
    GasStatus_new (cost_table_for_version version) budget price version = Done s ∧
    meter_run s calls = Done (s', r) ∧
    ((r = Ok () ∧
      sumZ (map call_instructions calls) ≤ initial_budget s - gas_left s' ∧
      gas_used_pre_gas_price s' = Done ((initial_budget s - gas_left s') / DENOMINATOR)) ∨
     (r = Err OUT_OF_GAS ∧ gas_left s' = 0 ∧
      gas_used_pre_gas_price s' = Done (budget / price))).
Proof.
  intros Hp Hb Hle Hcalls.
  destruct (GasStatus_new_ok (cost_table_for_version version) budget price version)
    as (s & Hs & Hok & Hini & Hleft & Hins); [done..|apply schedule_within|].
  destruct (meter_run_ok s calls Hok Hcalls)
    as (s' & r & Hrun & [(-> & Hok' & Hi & Hini')|(-> & Hok' & Hleft' & Hini')]).
  - exists s, s', (Ok ()). split_and!; [done..|]. left. split_and!; [done| |].
    + destruct Hok' as [[] _ _ Hpaid _]. lia.
    + rewrite gas_used_exact by apply Hok'. by rewrite Hini'.
  - exists s, s', (Err OUT_OF_GAS). split_and!; [done..|]. right. split_and!; [done..|].
    rewrite gas_used_exact by done. rewrite Hini', Hleft', Hini, Z.sub_0_r.
    by rewrite Z.div_mul by done.
Qed.

(** A loop that pushes two integers, adds them and drops the result. *)
Definition sample_calls (n : nat) : list GasMeterCall :=
  mjoin (replicate n
    [CSimple Instr.LdU64; CCopyLoc (U64 7); CSimple Instr.Add; CPop (U256 14); CSimple Instr.Branch]).

Lemma metering_bounds_execution_witness :
  ∃ s s' r,
    GasStatus_new (cost_table_for_version 8) 1000000 1000 8 = Done s ∧
    meter_run s (sample_calls 50) = Done (s', r) ∧
    ((r = Ok () ∧
      sumZ (map call_instructions (sample_calls 50)) ≤ initial_budget s - gas_left s' ∧
      gas_used_pre_gas_price s' = Done ((initial_budget s - gas_left s') / DENOMINATOR)) ∨
     (r = Err OUT_OF_GAS ∧ gas_left s' = 0 ∧
      gas_used_pre_gas_price s' = Done (1000000 / 1000))).
Proof.
  apply (metering_bounds_execution 8 1000000 1000 (sample_calls 50)).
  - lia.
  - lia.
  - vm_compute. discriminate.
  - vm_compute. reflexivity.
Defined.
