(* ===== verification/Objects.v ===== *)
(** Objects and the inputs of a transaction: [mgo-types/src/object.rs],
    [move_package.rs], the identifiers of [base_types.rs] and [lib.rs], and
    the input objects of [transaction.rs].

    An [ObjectID] or address is its 32 bytes read as a big-endian number, so
    that the order of a [BTreeMap] keyed by them is the order of [Z].  The
    hash of an object and the serialized size of a type come from crates the
    sources call; they are the fields of [ObjectHash] and [BcsSizes]. *)
From S2P Require Import Prelude.

Abbreviation ObjectID := Z (only parsing).
Abbreviation MgoAddress := Z (only parsing).
Abbreviation SequenceNumber := Z (only parsing).
Abbreviation TransactionDigest := Z (only parsing).
Abbreviation ObjectDigest := Z (only parsing).
Abbreviation ObjectRef := (Z * Z * Z)%type (only parsing).   (* identifier, version, digest *)

Definition OBJECT_ID_LENGTH : nat := 32.
Definition ID_END_INDEX : nat := OBJECT_ID_LENGTH.

Definition MOVE_STDLIB_ADDRESS : MgoAddress := 1.
Definition MGO_FRAMEWORK_ADDRESS : MgoAddress := 2.
Definition MGO_SYSTEM_ADDRESS : MgoAddress := 3.
Definition MGO_SYSTEM_STATE_OBJECT_ID : ObjectID := 5.

Definition is_system_package (addr : MgoAddress) : bool :=
  (addr =? MOVE_STDLIB_ADDRESS) || (addr =? MGO_FRAMEWORK_ADDRESS) || (addr =? MGO_SYSTEM_ADDRESS).

(** * Bytes *)

(** [u64::to_le_bytes], [u64::from_le_bytes], and an identifier's bytes. *)
Fixpoint to_le_bytes (n : nat) (v : Z) : list Z :=
  match n with
  | O => []
  | S n => v mod 256 :: to_le_bytes n (v / 256)
  end.
Fixpoint from_le_bytes (l : list Z) : Z :=
  match l with
  | [] => 0
  | b :: l => b + 256 * from_le_bytes l
  end.
Definition id_from_bytes (l : list Z) : ObjectID := from_le_bytes (rev l).
Definition id_to_bytes (id : ObjectID) : list Z := rev (to_le_bytes OBJECT_ID_LENGTH id).

#[global] Arguments to_le_bytes : simpl never.

(** * Digests *)

(** [ObjectDigest] values are big-endian numbers of 32 bytes; the tombstones
    repeat one byte. *)
Definition repeat_byte (b : Z) : Z := Nat.iter 32 (λ acc, 256 * acc + b) 0.
Definition OBJECT_DIGEST_DELETED : ObjectDigest := repeat_byte 99.
Definition OBJECT_DIGEST_WRAPPED : ObjectDigest := repeat_byte 88.
Definition is_alive (d : ObjectDigest) : bool :=
  negb (d =? OBJECT_DIGEST_DELETED) && negb (d =? OBJECT_DIGEST_WRAPPED).
Definition OBJECT_DIGEST_MIN : ObjectDigest := repeat_byte 0.
Definition OBJECT_DIGEST_MAX : ObjectDigest := repeat_byte 255.
Definition genesis_marker : TransactionDigest := 0.

(** * Versions *)

Definition SEQUENCE_NUMBER_MAX : SequenceNumber := 2 ^ 63 - 1.
Definition OBJECT_START_VERSION : SequenceNumber := 1.

(** [SequenceNumber::lamport_increment] and [SequenceNumber::increment]. *)
Definition lamport_increment (inputs : list SequenceNumber) : exec SequenceNumber :=
  let max_input := fold_left Z.max inputs 0 in
  _ ← assert (negb (max_input =? u64_max));
  Done (max_input + 1).
Definition seq_increment (v : SequenceNumber) : exec SequenceNumber :=
  _ ← assert (negb (v =? u64_max)); Done (v + 1).

(** * Objects *)

Module Tag.
Inductive TypeTag : Type :=
  | Bool | U8 | U64 | U128 | Address | Signer
  | Vector (t : TypeTag)
  | Struct (s : StructTag)
  | U16 | U32 | U256
with StructTag : Type :=
  | mkStructTag (address : MgoAddress) (module name : string) (type_params : list TypeTag).
End Tag.

Inductive MoveObjectType :=
  | Other (s : Tag.StructTag)
  | GasCoin
  | StakedMgo
  | Coin (t : Tag.TypeTag).
Definition is_coin_type (t : MoveObjectType) : bool :=
  match t with GasCoin | Coin _ => true | StakedMgo | Other _ => false end.
Definition is_gas_coin_type (t : MoveObjectType) : bool :=
  match t with GasCoin => true | StakedMgo | Coin _ | Other _ => false end.

Record MoveObject := {
  type_ : MoveObjectType;
  has_public_transfer : bool;
  mo_version : SequenceNumber;
  contents : list Z;
}.

Record TypeOrigin := { to_module_name : string; to_struct_name : string; to_package : ObjectID }.
Record UpgradeInfo := { upgraded_id : ObjectID; upgraded_version : SequenceNumber }.
Record MovePackage := {
  mp_id : ObjectID;
  mp_version : SequenceNumber;
  module_map : list (string * list Z);       (* a BTreeMap, in key order *)
  type_origin_table : list TypeOrigin;
  linkage_table : list (ObjectID * UpgradeInfo);
}.

Inductive Data :=
  | Move (m : MoveObject)
  | Package (p : MovePackage).

Inductive Owner :=
  | AddressOwner (a : MgoAddress)
  | ObjectOwner (a : MgoAddress)
  | Shared (initial_shared_version : SequenceNumber)
  | Immutable.

Record Object := {
  data : Data;
  owner : Owner;
  previous_transaction : TransactionDigest;
  storage_rebate : Z;
}.

Class ObjectHash := object_digest : Object → ObjectDigest.
Class BcsSizes := type_serialized_size : MoveObjectType → Z.

Definition move_id_opt (contents : list Z) : option ObjectID :=
  if (length contents <? ID_END_INDEX)%nat then None
  else Some (id_from_bytes (take ID_END_INDEX contents)).
Definition move_id (m : MoveObject) : exec ObjectID := unwrap (move_id_opt (contents m)).

Definition object_id (o : Object) : exec ObjectID :=
  match data o with Move m => move_id m | Package p => Done (mp_id p) end.
Definition object_version (o : Object) : SequenceNumber :=
  match data o with Move m => mo_version m | Package p => mp_version p end.
Definition try_as_move (d : Data) : option MoveObject :=
  match d with Move m => Some m | Package _ => None end.
Definition is_package (o : Object) : bool :=
  match data o with Package _ => true | Move _ => false end.
Definition is_immutable (o : Object) : bool :=
  match owner o with Immutable => true | _ => false end.
Definition is_address_owned (o : Object) : bool :=
  match owner o with AddressOwner _ => true | _ => false end.
Definition is_gas_coin (o : Object) : bool :=
  match try_as_move (data o) with Some m => is_gas_coin_type (type_ m) | None => false end.

(** [&self.contents[ID_END_INDEX..]] as exactly eight bytes. *)
Definition get_coin_value_unsafe (m : MoveObject) : exec Z :=
  _ ← assert (ID_END_INDEX <=? length (contents m))%nat;
  let rest := drop ID_END_INDEX (contents m) in
  _ ← assert (length rest =? 8)%nat;
  Done (from_le_bytes rest).
(** [splice] replaces everything after the identifier. *)
Definition set_coin_value_unsafe (m : MoveObject) (value : Z) : exec MoveObject :=
  _ ← assert (ID_END_INDEX <=? length (contents m))%nat;
  Done {| type_ := type_ m; has_public_transfer := has_public_transfer m;
          mo_version := mo_version m;
          contents := take ID_END_INDEX (contents m) ++ to_le_bytes 8 value |}.

Definition set_data (d : Data) (o : Object) : Object :=
  {| data := d; owner := owner o; previous_transaction := previous_transaction o;
     storage_rebate := storage_rebate o |}.
Definition set_storage_rebate (r : Z) (o : Object) : Object :=
  {| data := data o; owner := owner o; previous_transaction := previous_transaction o;
     storage_rebate := r |}.

(** * Sizes for gas metering *)

Definition string_len (s : string) : Z := Z.of_nat (String.length s).

Definition package_size (p : MovePackage) : Z :=
  let module_map_size :=
    sumZ (map (λ nm : string * list Z, string_len nm.1 + Z.of_nat (length nm.2)) (module_map p)) in
  let type_origin_table_size :=
    sumZ (map (λ t, string_len (to_module_name t) + string_len (to_struct_name t) +
                    Z.of_nat OBJECT_ID_LENGTH) (type_origin_table p)) in
  let linkage_table_size :=
    Z.of_nat (length (linkage_table p)) *
      (Z.of_nat OBJECT_ID_LENGTH + (Z.of_nat OBJECT_ID_LENGTH + 8)) in
  8 + module_map_size + type_origin_table_size + linkage_table_size.

(** [size_of] of [Owner] (a tag and an address, aligned to eight bytes), of a
    digest and of a [u64]. *)
Definition META_DATA_SIZE : Z := 40 + 32 + 8.

Section sizes.
Context {Hbcs : BcsSizes}.
Definition move_object_size (m : MoveObject) : Z :=
  Z.of_nat (length (contents m)) + type_serialized_size (type_ m) + 1 + 8.
Definition object_size_for_gas_metering (o : Object) : Z :=
  META_DATA_SIZE +
  match data o with
  | Move m => move_object_size m
  | Package p => package_size p
  end.
End sizes.

(** * Input objects *)

Inductive InputObjectKind :=
  | KMovePackage (id : ObjectID)
  | KImmOrOwnedMoveObject (r : ObjectRef)
  | KSharedMoveObject (id : ObjectID) (initial_shared_version : SequenceNumber) (mutable : bool).
Definition kind_object_id (k : InputObjectKind) : ObjectID :=
  match k with
  | KMovePackage id => id
  | KImmOrOwnedMoveObject r => r.1.1
  | KSharedMoveObject id _ _ => id
  end.

(** The derived orders of references and of input kinds. *)
Definition oref_le (a b : ObjectRef) : Prop :=
  a.1.1 < b.1.1 ∨ (a.1.1 = b.1.1 ∧ (a.1.2 < b.1.2 ∨ (a.1.2 = b.1.2 ∧ a.2 ≤ b.2))).
#[export] Instance oref_le_dec : RelDecision oref_le.
Proof. intros a b. unfold oref_le. apply _. Defined.
#[export] Instance oref_le_trans : Transitive oref_le.
Proof. intros a b c. unfold oref_le. lia. Qed.
#[export] Instance oref_le_total : Total oref_le.
Proof. intros a b. unfold oref_le. lia. Qed.
#[export] Instance oref_le_antisymm : AntiSymm (=) oref_le.
Proof. intros [[i v] d] [[i' v'] d']. unfold oref_le. simpl. intros ??. repeat f_equal; lia. Qed.

Definition kind_le (a b : InputObjectKind) : Prop :=
  match a, b with
  | KMovePackage i, KMovePackage j => i ≤ j
  | KMovePackage _, _ => True
  | KImmOrOwnedMoveObject _, KMovePackage _ => False
  | KImmOrOwnedMoveObject r, KImmOrOwnedMoveObject s => oref_le r s
  | KImmOrOwnedMoveObject _, KSharedMoveObject _ _ _ => True
  | KSharedMoveObject i v m, KSharedMoveObject j w n => oref_le (i, v, Z.b2z m) (j, w, Z.b2z n)
  | KSharedMoveObject _ _ _, _ => False
  end.
#[export] Instance kind_le_dec : RelDecision kind_le.
Proof. intros [] []; simpl; apply _. Defined.
#[export] Instance kind_le_trans : Transitive kind_le.
Proof. intros [] [] []; simpl; try done; [lia|apply oref_le_trans..]. Qed.
#[export] Instance kind_le_total : Total kind_le.
Proof. intros [] []; simpl; auto; [lia|apply oref_le_total..]. Qed.
#[export] Instance kind_le_antisymm : AntiSymm (=) kind_le.
Proof.
  intros [i|r|i v m] [j|s|j w n]; simpl; try done.
  - intros ??. f_equal. lia.
  - intros ??. f_equal. by apply (anti_symm oref_le).
  - intros H1 H2. pose proof (anti_symm oref_le _ _ H1 H2) as [= -> -> ?]. by destruct m, n.
Qed.
#[export] Instance InputObjectKind_eq_dec : EqDecision InputObjectKind.
Proof. solve_decision. Defined.
#[export] Instance InputObjectKind_countable : Countable InputObjectKind.
Proof.
  refine (inj_countable'
    (λ k, match k with
          | KMovePackage i => inl (inl i)
          | KImmOrOwnedMoveObject r => inl (inr r)
          | KSharedMoveObject i v m => inr (i, v, m)
          end)
    (λ x : (Z + Z * Z * Z) + Z * Z * bool, match x with
          | inl (inl i) => KMovePackage i
          | inl (inr r) => KImmOrOwnedMoveObject r
          | inr (i, v, m) => KSharedMoveObject i v m
          end) _).
  by intros [].
Defined.

Inductive ObjectReadResultKind :=
  | ReadObject (o : Object)
  | DeletedSharedObject (v : SequenceNumber) (d : TransactionDigest).
Record ObjectReadResult := {
  input_object_kind : InputObjectKind;
  read_object_kind : ObjectReadResultKind;
}.

Definition as_object (r : ObjectReadResult) : option Object :=
  match read_object_kind r with ReadObject o => Some o | DeletedSharedObject _ _ => None end.
Definition contains_deleted_objects (objects : list ObjectReadResult) : bool :=
  existsb (λ r, match read_object_kind r with DeletedSharedObject _ _ => true | _ => false end) objects.
Definition into_object_map (objects : list ObjectReadResult) : gmap ObjectID Object :=
  btree_collect (omap (λ r, (λ o, (kind_object_id (input_object_kind r), o)) <$> as_object r) objects).

(** The versions a transaction reads, and the one its outputs get. *)
Definition input_versions (objects : list ObjectReadResult) : list SequenceNumber :=
  omap (λ r, match read_object_kind r with
             | ReadObject o => mo_version <$> try_as_move (data o)
             | DeletedSharedObject v _ => Some v
             end) objects.
Definition lamport_timestamp (objects : list ObjectReadResult) (receiving : list ObjectRef)
    : exec SequenceNumber :=
  lamport_increment (input_versions objects ++ map (λ r : ObjectRef, r.1.2) receiving).

Section inputs.
Context {Hhash : ObjectHash}.
Definition compute_object_reference (o : Object) : exec ObjectRef :=
  id ← object_id o; Done (id, object_version o, object_digest o).

Definition mutable_input (r : ObjectReadResult)
    : exec (option (ObjectID * ((SequenceNumber * ObjectDigest) * Owner))) :=
  match input_object_kind r, read_object_kind r with
  | KMovePackage _, _ => Done None
  | KImmOrOwnedMoveObject (id, v, d), ReadObject o =>
      Done (if is_immutable o then None else Some (id, ((v, d), owner o)))
  | KImmOrOwnedMoveObject _, DeletedSharedObject _ _ => Panic
  | KSharedMoveObject _ _ _, DeletedSharedObject _ _ => Done None
  | KSharedMoveObject _ _ mutable, ReadObject o =>
      if mutable then
        oref ← compute_object_reference o;
        Done (Some (oref.1.1, ((oref.1.2, oref.2), owner o)))
      else Done None
  end.
Definition mutable_inputs (objects : list ObjectReadResult)
    : exec (gmap ObjectID ((SequenceNumber * ObjectDigest) * Owner)) :=
  l ← mapM mutable_input objects; Done (btree_collect (omap id l)).
End inputs.

(** * Coins round trip *)

Lemma to_le_bytes_length n v : length (to_le_bytes n v) = n.
Proof. revert v. induction n as [|n IH]; intros v; [done|]. unfold to_le_bytes. simpl. f_equal. apply IH. Qed.
Lemma from_to_le_bytes n v : 0 ≤ v < 256 ^ Z.of_nat n → from_le_bytes (to_le_bytes n v) = v.
Proof.
  revert v. induction n as [|n IH]; intros v Hv; [simpl in *; lia|].
  rewrite Nat2Z.inj_succ, Z.pow_succ_r in Hv by lia.
  change (to_le_bytes (S n) v) with (v mod 256 :: to_le_bytes n (v / 256)). cbn [from_le_bytes].
  rewrite IH.
  - pose proof (Z.div_mod v 256). lia.
  - pose proof (Z.div_pos v 256). split; [lia|]. apply Z.div_lt_upper_bound; lia.
Qed.
Lemma id_bytes_roundtrip id : 0 ≤ id < 2 ^ 256 → id_from_bytes (id_to_bytes id) = id.
Proof.
  intros Hid. unfold id_from_bytes, id_to_bytes. rewrite rev_involutive.
  apply from_to_le_bytes. exact Hid.
Qed.

(** A Move object long enough to hold an identifier. *)
Lemma set_coin_value_ok m v :
  (ID_END_INDEX ≤ length (contents m))%nat → is_u64 v →
  ∃ m', set_coin_value_unsafe m v = Done m' ∧ get_coin_value_unsafe m' = Done v ∧
    move_id m' = move_id m ∧ type_ m' = type_ m ∧ mo_version m' = mo_version m ∧
    has_public_transfer m' = has_public_transfer m ∧
    length (contents m') = (ID_END_INDEX + 8)%nat.
Proof.
  intros Hlen Hv. unfold set_coin_value_unsafe.
  rewrite (proj2 (Nat.leb_le _ _)) by done. simpl assert. rewrite bind_ret_l.
  eexists. split; [reflexivity|].
  assert (length (take ID_END_INDEX (contents m)) = ID_END_INDEX) as Htake.
  { rewrite length_take. lia. }
  unfold get_coin_value_unsafe, move_id, move_id_opt. cbn [contents type_ mo_version has_public_transfer].
  rewrite length_app, to_le_bytes_length, Htake.
  rewrite drop_app_length' by done. rewrite to_le_bytes_length. simpl assert. rewrite !bind_ret_l.
  rewrite from_to_le_bytes by (change (256 ^ Z.of_nat 8) with (2 ^ 64); width).
  split_and!; try done.
  rewrite take_app_length' by done.
  by rewrite (proj2 (Nat.ltb_ge _ _)), (proj2 (Nat.ltb_ge _ _)) by lia.
Qed.

(** Setting the balance of a coin and reading it back gives the balance
    set, for every [u64]; the coin keeps its identifier, type and version, and
    its contents are the identifier and eight bytes. *)
Theorem coin_value_roundtrip (m : MoveObject) (v : Z) :
  (ID_END_INDEX ≤ length (contents m))%nat → is_u64 v →
  ∃ m', set_coin_value_unsafe m v = Done m' ∧ get_coin_value_unsafe m' = Done v ∧
    move_id m' = move_id m ∧ type_ m' = type_ m ∧ mo_version m' = mo_version m ∧
    length (contents m') = (ID_END_INDEX + 8)%nat.
Proof.
  intros Hlen Hv. destruct (set_coin_value_ok m v Hlen Hv) as (m' & ? & ? & ? & ? & ? & _ & ?).
  by exists m'.
Qed.

Definition coin_with (id : ObjectID) (version value : Z) : MoveObject := {|
  type_ := GasCoin; has_public_transfer := true; mo_version := version;
  contents := id_to_bytes id ++ to_le_bytes 8 value |}.

Lemma coin_value_roundtrip_witness :
  ∃ m', set_coin_value_unsafe (coin_with 77 3 1000) u64_max = Done m' ∧
    get_coin_value_unsafe m' = Done u64_max ∧
    move_id m' = move_id (coin_with 77 3 1000) ∧ type_ m' = type_ (coin_with 77 3 1000) ∧
    mo_version m' = mo_version (coin_with 77 3 1000) ∧
    length (contents m') = (ID_END_INDEX + 8)%nat.
Proof.
  apply (coin_value_roundtrip (coin_with 77 3 1000) u64_max).
  - vm_compute. lia.
  - vm_compute. intuition discriminate.
Defined.

(** * Versions of outputs *)

Lemma fold_max_spec l a :
  let m := fold_left Z.max l a in a ≤ m ∧ (∀ v, v ∈ l → v ≤ m) ∧ (m = a ∨ m ∈ l).
Proof.
  revert a. induction l as [|x l IH]; intros a; simpl.
  - split_and!; [lia| |by left]. intros v Hv. by apply not_elem_of_nil in Hv.
  - destruct (IH (Z.max a x)) as (Hle & Hall & Hin). split_and!; [lia| |].
    + intros v [->|Hv]%elem_of_cons; [lia|by apply Hall].
    + destruct Hin as [->|Hin]; [|right; by right].
      destruct (Z.max_spec a x) as [[_ ->]|[_ ->]]; [right; left|by left].
Qed.

(** The version given to the outputs of a transaction is strictly greater
    than the version of every Move object and deleted shared object it takes
    as input and of every object it receives; it is the least such number, and
    computing it panics exactly when one of them is the greatest [u64]. *)
Theorem lamport_exceeds_inputs (objects : list ObjectReadResult) (receiving : list ObjectRef) :
  let versions := input_versions objects ++ map (λ r : ObjectRef, r.1.2) receiving in
  Forall is_u64 versions →
  match lamport_timestamp objects receiving with
  | Done v => (∀ w, w ∈ versions → w < v) ∧ is_u64 v ∧ (v = 1 ∨ v - 1 ∈ versions)
  | Panic => u64_max ∈ versions
  | OutOfFuel => False
  end.
Proof.
  intros versions Hall. unfold lamport_timestamp, lamport_increment. fold versions.
  destruct (fold_max_spec versions 0) as (Hle & Hmax & Hin).
  set (m := fold_left Z.max versions 0) in *. clearbody m.
  assert (is_u64 m) as Hm.
  { destruct Hin as [->|Hin]; [width|].
    rewrite Forall_forall in Hall. by apply Hall. }
  case_test (m =? u64_max) as Heq; simpl.
  - destruct Hin as [Hin|Hin]; [|by rewrite <-Heq]. width.
  - split_and!; [intros w Hw; specialize (Hmax w Hw); lia|width..|].
    replace (m + 1 - 1) with m by lia. destruct Hin as [->|]; auto.
Qed.

Definition sample_inputs : list ObjectReadResult := [
  {| input_object_kind := KImmOrOwnedMoveObject (77, 3, 0);
     read_object_kind := ReadObject {| data := Move (coin_with 77 3 1000);
       owner := AddressOwner 9; previous_transaction := 0; storage_rebate := 100 |} |};
  {| input_object_kind := KSharedMoveObject 8 1 true;
     read_object_kind := DeletedSharedObject 12 4 |} ].

Lemma lamport_exceeds_inputs_witness :
  let versions := input_versions sample_inputs ++ map (λ r : ObjectRef, r.1.2) [(5, 20, 0)] in
  match lamport_timestamp sample_inputs [(5, 20, 0)] with
  | Done v => (∀ w, w ∈ versions → w < v) ∧ is_u64 v ∧ (v = 1 ∨ v - 1 ∈ versions)
  | Panic => u64_max ∈ versions
  | OutOfFuel => False
  end.
Proof.
  apply (lamport_exceeds_inputs sample_inputs [(5, 20, 0)]).
  repeat (constructor; [split; vm_compute; discriminate|]). constructor.
Defined.
