(* ===== verification/Errors.v ===== *)
(** The errors of [mgo-types/src/error.rs]: what a transaction's author did
    wrong ([UserInputError], every variant), and the variants of the node's
    own [MgoError] that the modelled code returns.  A field the source formats
    into a string is the value it formats. *)
From S2P Require Import Prelude Objects.

Inductive UserInputError :=
  | MutableObjectUsedMoreThanOnce (object_id : ObjectID)
  | ObjectInputArityViolation
  | ObjectNotFound (object_id : ObjectID) (version : option SequenceNumber)
  | ObjectVersionUnavailableForConsumption (provided_obj_ref : ObjectRef) (current_version : SequenceNumber)
  | PackageVerificationTimedout (err : string)
  | DependentPackageNotFound (package_id : ObjectID)
  | ImmutableParameterExpectedError (object_id : ObjectID)
  | SizeLimitExceeded (limit : string) (value : Z)
  | InvalidChildObjectArgument (child_id parent_id : ObjectID)
  | InvalidObjectDigest (object_id : ObjectID) (expected_digest : ObjectDigest)
  | InvalidSequenceNumber
  | MovePackageAsObject (object_id : ObjectID)
  | MoveObjectAsPackage (object_id : ObjectID)
  | IncorrectUserSignature (object_id : ObjectID) (actual_owner given_owner : MgoAddress)
  | NotSharedObjectError
  | DuplicateObjectRefInput
  | MissingGasPayment
  | GasObjectNotOwnedObject (owner : Owner)
  | GasBudgetTooHigh (gas_budget max_budget : Z)
  | GasBudgetTooLow (gas_budget min_budget : Z)
  | GasBalanceTooLow (gas_balance needed_gas_amount : Z)
  | UnsupportedSponsoredTransactionKind
  | GasPriceUnderRGP (gas_price reference_gas_price : Z)
  | GasPriceTooHigh (max_gas_price : Z)
  | InvalidGasObject (object_id : ObjectID)
  | InsufficientBalanceToCoverMinimalGas
  | ObjectSequenceNumberTooHigh (object_id : ObjectID) (asked_version latest_version : SequenceNumber)
  | ObjectDeleted (object_ref : ObjectRef)
  | InvalidBatchTransaction (error : string)
  | BlockedMoveFunction
  | EmptyInputCoins
  | UnexpectedGasPaymentObject
  | SharedObjectStartingVersionMismatch
  | TransferObjectWithoutPublicTransferError (object_id : ObjectID)
  | EmptyCommandInput
  | TransactionDenied (error : string)
  | Unsupported (feature : string)
  | MoveFunctionInputError (error : string)
  | VerifiedCheckpointNotFound (sequence_number : Z)
  | VerifiedCheckpointDigestNotFound (digest : string)
  | LatestCheckpointSequenceNumberNotFound
  | CheckpointContentsNotFound (digest : Z)
  | GenesisTransactionNotFound
  | TransactionCursorNotFound (cursor : Z)
  | InaccessibleSystemObject (object_id : ObjectID)
  | MaxPublishCountExceeded (max_publish_commands publish_count : Z)
  | MutableParameterExpected (object_id : ObjectID)
  | AddressDeniedForCoin (address : MgoAddress) (coin_type : string).

Inductive MgoError :=
  | UserInput (error : UserInputError)
  | WrongEpoch (expected_epoch actual_epoch : Z)
  | InvalidSystemTransaction
  | UnexpectedMessage
  | ObjectLockAlreadyInitialized (refs : list ObjectRef)
  | ObjectLockConflict (obj_ref : ObjectRef) (pending_transaction : TransactionDigest)
  | ObjectLockedAtFutureEpoch (obj_refs : list ObjectRef) (locked_epoch new_epoch : Z)
      (locked_by_tx : TransactionDigest)
  | ValidatorHaltedAtEpochEnd
  | TransactionExpired
  | UnsupportedFeatureError (error : string)
  | WrongMessageVersion (message_version protocol_version : Z)
  | MoveObjectTooBig (object_size max_object_size : Z)   (* the execution error, converted *)
  | StorageError.

(** * [fp_ensure!] and [?]

    A check returns [result unit E]; a function that may also panic returns
    [exec (result A E)], and [x ←? m ; k] is [let x = m?; k] in it. *)
Definition ensure {E : Type} (cond : bool) (e : E) : result unit E :=
  if cond then Ok () else Err e.
Definition and_then {A B E : Type} (r : result A E) (k : A → result B E) : result B E :=
  match r with Ok a => k a | Err e => Err e end.
Definition try_exec {A B E : Type} (m : exec (result A E)) (k : A → exec (result B E))
    : exec (result B E) :=
  r ← m; match r with Ok a => k a | Err e => Done (Err e) end.
#[global] Arguments try_exec : simpl never.
(** The conversion [From<UserInputError> for MgoError] that [?] applies. *)
Definition into_mgo {A : Type} (r : result A UserInputError) : result A MgoError :=
  match r with Ok a => Ok a | Err e => Err (UserInput e) end.

Notation "x ←! m ; k" := (and_then m (λ x, k))
  (at level 20, m at level 100, k at level 200, format "x  ←!  m ; '/' k").
Notation "x ←? m ; k" := (try_exec m (λ x, k))
  (at level 20, m at level 100, k at level 200, format "x  ←?  m ; '/' k").

(** A loop of checks, stopped by the first error. *)
Fixpoint try_for_each {A E : Type} (f : A → result unit E) (l : list A) : result unit E :=
  match l with
  | [] => Ok ()
  | x :: l => _ ←! f x; try_for_each f l
  end.

(** A loop of checks that may panic, stopped by the first error. *)
Fixpoint try_for_eachM {A E : Type} (f : A → exec (result unit E)) (l : list A) : exec (result unit E) :=
  match l with
  | [] => Done (Ok ())
  | x :: l => _ ←? f x; try_for_eachM f l
  end.

(** * Reasoning about checks *)

Lemma ensure_Ok {E : Type} cond (e : E) u : ensure cond e = Ok u ↔ cond = true.
Proof. destruct cond, u; by split. Qed.
Lemma and_then_Ok {A B E : Type} (r : result A E) (k : A → result B E) b :
  and_then r k = Ok b ↔ ∃ a, r = Ok a ∧ k a = Ok b.
Proof. destruct r; (split; [by eauto|]); by intros (? & [= ->] & ?). Qed.
Lemma try_exec_Ok {A B E : Type} (m : exec (result A E)) (k : A → exec (result B E)) b :
  try_exec m k = Done (Ok b) ↔ ∃ a, m = Done (Ok a) ∧ k a = Done (Ok b).
Proof.
  unfold try_exec. rewrite bind_Done. split.
  - intros ([a|e] & Hm & Hk); [by exists a|done].
  - intros (a & -> & Hk). by exists (Ok a).
Qed.
Lemma into_mgo_Ok {A : Type} (r : result A UserInputError) a : into_mgo r = Ok a ↔ r = Ok a.
Proof. destruct r; simpl; split; congruence. Qed.
Lemma try_for_each_Ok {A E : Type} (f : A → result unit E) l u :
  try_for_each f l = Ok u ↔ ∀ x, x ∈ l → f x = Ok ().
Proof.
  destruct u. induction l as [|x l IH]; simpl.
  - split; [|done]. intros _ x Hx. by apply not_elem_of_nil in Hx.
  - rewrite and_then_Ok. setoid_rewrite elem_of_cons. split.
    + intros ([] & Hx & Hl) y [->|Hy]; [done|]. by apply IH.
    + intros Hall. exists (). split; [by auto|]. apply IH. auto.
Qed.
Lemma Done_Ok_inj {A E : Type} (r : result A E) a : Done r = Done (Ok a) ↔ r = Ok a.
Proof. split; [by intros [= ->]|by intros ->]. Qed.
#[export] Hint Rewrite @ensure_Ok @and_then_Ok @try_exec_Ok @into_mgo_Ok @try_for_each_Ok
  @Done_Ok_inj : mango_rw.

(** A check that always returns, and accepts exactly when [P] holds. *)
Definition decides {A E : Type} (m : exec (result A E)) (P : Prop) : Prop :=
  ∃ r, m = Done r ∧ (is_ok r = true ↔ P).

Lemma decides_Ok {A E : Type} (m : exec (result A E)) P :
  decides m P → P ↔ ∃ a, m = Done (Ok a).
Proof.
  intros (r & -> & <-). destruct r as [a|e]; simpl; split; try done; [by exists a|].
  by intros (a & [=]).
Qed.
Lemma decides_iff {A E : Type} (m : exec (result A E)) P Q : (P ↔ Q) → decides m P → decides m Q.
Proof. intros HPQ (r & Hr & Hiff). exists r. split; [done|]. tauto. Qed.
#[export] Instance decides_proper {A E : Type} : Proper (eq ==> iff ==> iff) (@decides A E).
Proof. intros m ? <- P Q HPQ. split; by apply decides_iff. Qed.
Lemma decides_accept {A E : Type} (a : A) (P : Prop) : P → decides (Done (Ok a : result A E)) P.
Proof. intros HP. by exists (Ok a). Qed.
Lemma decides_reject {A E : Type} (e : E) (P : Prop) : ¬ P → decides (Done (Err e : result A E)) P.
Proof. intros HP. by exists (Err e). Qed.
Lemma decides_ensure {E : Type} cond (e : E) (P : Prop) :
  (cond = true ↔ P) → decides (Done (ensure cond e)) P.
Proof. intros <-. exists (ensure cond e). by destruct cond. Qed.
Lemma decides_try {A B E : Type} (m : exec (result A E)) (k : A → exec (result B E)) P Q :
  decides m P → (∀ a, m = Done (Ok a) → decides (k a) Q) → decides (try_exec m k) (P ∧ Q).
Proof.
  intros (r & -> & Hr) Hk. destruct r as [a|e]; simpl in *.
  - destruct (Hk a eq_refl) as (r & Hka & Hr'). exists r. split; [exact Hka|].
    pose proof (proj1 Hr eq_refl). tauto.
  - exists (Err e). split; [done|]. split; [done|]. intros [HP _]. by apply Hr in HP.
Qed.
Lemma decides_pure_for_each {A E : Type} (f : A → result unit E) (P : A → Prop) l :
  (∀ x, x ∈ l → is_ok (f x) = true ↔ P x) →
  decides (Done (try_for_each f l)) (∀ x, x ∈ l → P x).
Proof.
  intros Hf. eexists. split; [done|]. split.
  - destruct (try_for_each f l) as [u|] eqn:Hl; [|done]. intros _ x Hx.
    apply Hf; [done|]. by rewrite (proj1 (try_for_each_Ok f l u) Hl x Hx).
  - intros Hall. assert (try_for_each f l = Ok ()) as ->; [|done].
    apply try_for_each_Ok. intros x Hx. pose proof (proj2 (Hf x Hx) (Hall x Hx)) as Hok.
    by destruct (f x) as [[]|].
Qed.
Lemma decides_for_each {A E : Type} (f : A → exec (result unit E)) (P : A → Prop) l :
  (∀ x, x ∈ l → decides (f x) (P x)) → decides (try_for_eachM f l) (∀ x, x ∈ l → P x).
Proof.
  induction l as [|x l IH]; intros Hf; simpl.
  - apply decides_accept. intros x Hx. by apply not_elem_of_nil in Hx.
  - eapply decides_iff; [|apply decides_try; [apply Hf; left|]].
    2: { intros _ _. apply IH. intros. apply Hf. by right. }
    setoid_rewrite elem_of_cons. naive_solver.
Qed.
