(* ===== verification/MgoGas.v ===== *)
(** The gas status of a transaction: [mgo-types/src/gas_model/gas_v2.rs] and
    [mgo-types/src/gas.rs].

    The status wraps the VM's meter, rounds computation up to a bucket or a
    step, tracks the storage cost and rebate of every object a transaction
    touches, and reports the [GasCostSummary] the gas coin is charged with.
    Both modules are compiled with checked arithmetic, so an overflow in them
    is a panic; sums written with [Iterator::sum] wrap. *)
From S2P Require Import Prelude GasTables MoveValues GasMeter.
From S2P Require Import Objects Errors.

(** * Errors *)

Inductive ExecutionError :=
  | InsufficientGas
  | InvariantViolation
  | CertificateDenied
  | InputObjectDeleted
  | EffectsTooLarge (current_size max_size : Z)
  | WrittenObjectsTooLarge (current_size max_size : Z)
  | ExecutionFailure (code : Z).   (* any error of the transaction's own commands *)

(** The entries of the protocol configuration that the gas model and the
    checks on a transaction read. *)
Record ProtocolConfig := {
  pc_gas_model_version : Z;
  pc_base_tx_cost_fixed : Z;
  pc_txn_base_cost_as_multiplier : bool;
  pc_max_tx_gas : Z;
  pc_max_gas_price : Z;
  pc_max_gas_computation_bucket : Z;
  pc_package_publish_cost_per_byte : Z;
  pc_obj_access_cost_read_per_byte : Z;
  pc_obj_data_cost_refundable : Z;
  pc_storage_gas_price : Z;
  pc_storage_rebate_rate : Z;
  pc_gas_rounding_step : option Z;
  pc_simple_conservation_checks : bool;
  pc_max_serialized_tx_effects_size_bytes : Z;
  pc_max_serialized_tx_effects_size_bytes_system_tx : Z;
  pc_max_size_written_objects : option Z;
  pc_max_size_written_objects_system_tx : option Z;
  pc_enable_effects_v2 : bool;
  pc_version : Z;
  pc_max_input_objects : Z;
  pc_max_gas_payment_objects : Z;
  pc_max_modules_in_publish : Z;
  pc_max_arguments : Z;
  pc_max_type_arguments : Z;
  pc_max_type_argument_depth : Z;
  pc_max_pure_argument_size : Z;
  pc_max_programmable_tx_commands : Z;
  pc_max_publish_or_upgrade_per_ptb : option Z;
  pc_receiving_objects_supported : bool;
  pc_end_of_epoch_transaction_supported : bool;
  pc_enable_jwk_consensus_updates : bool;
  pc_random_beacon : bool;
  pc_enable_coin_deny_list : bool;
  pc_include_consensus_digest_in_prologue : bool;
}.

(** * Cost summaries *)

Record GasCostSummary := {
  sum_computation_cost : Z;
  sum_storage_cost : Z;
  sum_storage_rebate : Z;
  sum_non_refundable_storage_fee : Z;
}.
Definition summary_default : GasCostSummary := {|
  sum_computation_cost := 0; sum_storage_cost := 0;
  sum_storage_rebate := 0; sum_non_refundable_storage_fee := 0 |}.

Definition gas_used (c : GasCostSummary) : exec Z :=
  add64 (sum_computation_cost c) (sum_storage_cost c).

(** [as i64] of a [u64], and checked [i64] subtraction. *)
Definition i64_min : Z := - 2 ^ 63.
Definition i64_max : Z := 2 ^ 63 - 1.
Definition as_i64 (z : Z) : Z := if z <=? i64_max then z else z - 2 ^ 64.
Definition sub_i64 (a b : Z) : exec Z :=
  if (i64_min <=? a - b) && (a - b <=? i64_max) then Done (a - b) else Panic.
Definition net_gas_usage (c : GasCostSummary) : exec Z :=
  used ← gas_used c; sub_i64 (as_i64 used) (as_i64 (sum_storage_rebate c)).

Definition add_assign (a b : GasCostSummary) : exec GasCostSummary :=
  c ← add64 (sum_computation_cost a) (sum_computation_cost b);
  s ← add64 (sum_storage_cost a) (sum_storage_cost b);
  r ← add64 (sum_storage_rebate a) (sum_storage_rebate b);
  n ← add64 (sum_non_refundable_storage_fee a) (sum_non_refundable_storage_fee b);
  Done {| sum_computation_cost := c; sum_storage_cost := s; sum_storage_rebate := r;
          sum_non_refundable_storage_fee := n |}.

(** The summary of a checkpoint or epoch from those of its transactions. *)
Definition new_from_txn_effects (summaries : list GasCostSummary) : GasCostSummary := {|
  sum_storage_cost := sum64 (map sum_storage_cost summaries);
  sum_computation_cost := sum64 (map sum_computation_cost summaries);
  sum_storage_rebate := sum64 (map sum_storage_rebate summaries);
  sum_non_refundable_storage_fee := sum64 (map sum_non_refundable_storage_fee summaries) |}.

(** [-charge_or_rebate as u64] of a negative [i64], with the negation checked. *)
Definition neg_as_u64 (z : Z) : exec Z := _ ← assert (negb (z =? i64_min)); Done (wrap64 (- z)).

Definition deduct_gas_coin (gas_object : Object) (charge_or_rebate : Z) : exec Object :=
  gas_coin ← unwrap (try_as_move (data gas_object));
  balance ← get_coin_value_unsafe gas_coin;
  new_balance ←
    (if charge_or_rebate <? 0 then
       rebate ← neg_as_u64 charge_or_rebate; add64 balance rebate
     else
       _ ← assert (charge_or_rebate <=? balance);
       sub64 balance charge_or_rebate);
  gas_coin ← set_coin_value_unsafe gas_coin new_balance;
  Done (set_data (Move gas_coin) gas_object).

Definition get_gas_balance (gas_object : Object) : exec (result Z UserInputError) :=
  match try_as_move (data gas_object) with
  | Some m =>
      if negb (is_gas_coin_type (type_ m)) then
        id ← object_id gas_object; Done (Err (InvalidGasObject id))
      else v ← get_coin_value_unsafe m; Done (Ok v)
  | None => id ← object_id gas_object; Done (Err (InvalidGasObject id))
  end.

(** * Buckets, rounding and rebates *)

Record ComputationBucket := { bucket_min : Z; bucket_max : Z; bucket_cost : Z }.
Definition bucket_simple (min max : Z) : ComputationBucket :=
  {| bucket_min := min; bucket_max := max; bucket_cost := max |}.

Fixpoint first_bucket (table : list ComputationBucket) (computation_cost : Z) : option Z :=
  match table with
  | [] => None
  | b :: table => if computation_cost <=? bucket_max b then Some (bucket_cost b)
                  else first_bucket table computation_cost
  end.
Definition get_bucket_cost (table : list ComputationBucket) (computation_cost : Z) : Z :=
  match first_bucket table computation_cost with
  | Some cost => cost
  | None => match last table with None => 5000000 | Some b => bucket_cost b end
  end.

Definition computation_bucket (max_bucket_cost : Z) : exec (list ComputationBucket) :=
  _ ← assert (5000000 <=? max_bucket_cost);
  Done [bucket_simple 0 1000; bucket_simple 1000 5000; bucket_simple 5000 10000;
        bucket_simple 10000 20000; bucket_simple 20000 50000; bucket_simple 50000 200000;
        bucket_simple 200000 1000000; bucket_simple 1000000 max_bucket_cost].

(** The product and the sum are taken in [u128] and cannot overflow; the
    quotient is truncated to [u64]. *)
Definition BASIS_POINTS : Z := 10000.
Definition sender_rebate (storage_rebate storage_rebate_rate : Z) : Z :=
  wrap64 ((storage_rebate * storage_rebate_rate + BASIS_POINTS / 2) / BASIS_POINTS).

(** * The status *)

Module V2.
Record MgoCostTable := {
  min_transaction_cost : Z;
  max_gas_budget : Z;
  package_publish_per_byte_cost : Z;
  object_read_per_byte_cost : Z;
  storage_per_byte_cost : Z;
  execution_cost_table : CostTable;
  computation_buckets : list ComputationBucket;
}.

Definition MgoCostTable_new (c : ProtocolConfig) (gas_price : Z) : exec MgoCostTable :=
  min_cost ← (if pc_txn_base_cost_as_multiplier c
              then mul64 (pc_base_tx_cost_fixed c) gas_price
              else Done (pc_base_tx_cost_fixed c));
  buckets ← computation_bucket (pc_max_gas_computation_bucket c);
  Done {|
    min_transaction_cost := min_cost;
    max_gas_budget := pc_max_tx_gas c;
    package_publish_per_byte_cost := pc_package_publish_cost_per_byte c;
    object_read_per_byte_cost := pc_obj_access_cost_read_per_byte c;
    storage_per_byte_cost := pc_obj_data_cost_refundable c;
    execution_cost_table := cost_table_for_version (pc_gas_model_version c);
    computation_buckets := buckets |}.

Definition MgoCostTable_unmetered : exec MgoCostTable :=
  buckets ← computation_bucket 5000000;
  Done {|
    min_transaction_cost := 0; max_gas_budget := u64_max;
    package_publish_per_byte_cost := 0; object_read_per_byte_cost := 0;
    storage_per_byte_cost := 0; execution_cost_table := ZERO_COST_SCHEDULE;
    computation_buckets := buckets |}.

Record PerObjectStorage := {
  per_storage_cost : Z;
  per_storage_rebate : Z;
  per_new_size : Z;
}.

Record MgoGasStatus := {
  gas_status : GasStatus;
  cost_table : MgoCostTable;
  gas_budget : Z;
  computation_cost : Z;
  charge : bool;
  gas_price : Z;
  reference_gas_price : Z;
  storage_gas_price : Z;
  per_object_storage : list (ObjectID * PerObjectStorage);
  rebate_rate : Z;
  unmetered_storage_rebate : Z;
  gas_rounding_step : option Z;
}.

Definition set_gas_status (g : GasStatus) (s : MgoGasStatus) : MgoGasStatus := {|
  gas_status := g; cost_table := cost_table s; gas_budget := gas_budget s;
  computation_cost := computation_cost s; charge := charge s; gas_price := gas_price s;
  reference_gas_price := reference_gas_price s; storage_gas_price := storage_gas_price s;
  per_object_storage := per_object_storage s; rebate_rate := rebate_rate s;
  unmetered_storage_rebate := unmetered_storage_rebate s;
  gas_rounding_step := gas_rounding_step s |}.
Definition set_computation_cost (c : Z) (s : MgoGasStatus) : MgoGasStatus := {|
  gas_status := gas_status s; cost_table := cost_table s; gas_budget := gas_budget s;
  computation_cost := c; charge := charge s; gas_price := gas_price s;
  reference_gas_price := reference_gas_price s; storage_gas_price := storage_gas_price s;
  per_object_storage := per_object_storage s; rebate_rate := rebate_rate s;
  unmetered_storage_rebate := unmetered_storage_rebate s;
  gas_rounding_step := gas_rounding_step s |}.
Definition set_storage (l : list (ObjectID * PerObjectStorage)) (u : Z) (s : MgoGasStatus)
    : MgoGasStatus := {|
  gas_status := gas_status s; cost_table := cost_table s; gas_budget := gas_budget s;
  computation_cost := computation_cost s; charge := charge s; gas_price := gas_price s;
  reference_gas_price := reference_gas_price s; storage_gas_price := storage_gas_price s;
  per_object_storage := l; rebate_rate := rebate_rate s;
  unmetered_storage_rebate := u; gas_rounding_step := gas_rounding_step s |}.

Definition MgoGasStatus_new (move_gas_status : GasStatus) (gas_budget : Z) (charge : bool)
    (gas_price reference_gas_price storage_gas_price rebate_rate : Z)
    (gas_rounding_step : option Z) (cost_table : MgoCostTable) : MgoGasStatus := {|
  gas_status := move_gas_status; cost_table := cost_table; gas_budget := gas_budget;
  computation_cost := 0; charge := charge; gas_price := gas_price;
  reference_gas_price := reference_gas_price; storage_gas_price := storage_gas_price;
  per_object_storage := []; rebate_rate := rebate_rate; unmetered_storage_rebate := 0;
  gas_rounding_step := (λ v, Z.max v 1) <$> gas_rounding_step |}.

Definition new_with_budget (gas_budget gas_price reference_gas_price : Z) (config : ProtocolConfig)
    : exec MgoGasStatus :=
  max_computation_budget ← mul64 (pc_max_gas_computation_bucket config) gas_price;
  let computation_budget :=
    if max_computation_budget <? gas_budget then max_computation_budget else gas_budget in
  mgo_cost_table ← MgoCostTable_new config gas_price;
  meter ← GasStatus_new (execution_cost_table mgo_cost_table) computation_budget gas_price
            (pc_gas_model_version config);
  Done (MgoGasStatus_new meter gas_budget true gas_price reference_gas_price
          (pc_storage_gas_price config) (pc_storage_rebate_rate config)
          (pc_gas_rounding_step config) mgo_cost_table).

Definition new_unmetered : exec MgoGasStatus :=
  table ← MgoCostTable_unmetered;
  Done (MgoGasStatus_new GasStatus_new_unmetered 0 false 0 0 0 0 None table).

(** [MgoGasStatus::new] of [gas.rs]. *)
Definition new (gas_budget gas_price reference_gas_price : Z) (config : ProtocolConfig)
    : exec (result MgoGasStatus UserInputError) :=
  if gas_price <? reference_gas_price then
    Done (Err (GasPriceUnderRGP gas_price reference_gas_price))
  else if gas_price_too_high (pc_gas_model_version config) &&
          (pc_max_gas_price config <=? gas_price) then
    Done (Err (GasPriceTooHigh (pc_max_gas_price config)))
  else s ← new_with_budget gas_budget gas_price reference_gas_price config; Done (Ok s).

(** The owners and balances of the gas coins, and the budget's limits. *)
Fixpoint check_gas_owners (gas_objs : list ObjectReadResult) : result unit UserInputError :=
  match gas_objs with
  | [] => Ok ()
  | g :: gas_objs =>
      match as_object g with
      | Some obj =>
          if negb (is_address_owned obj) then Err (GasObjectNotOwnedObject (owner obj))
          else check_gas_owners gas_objs
      | None => Err MissingGasPayment
      end
  end.
(** The running total is a [u128]. *)
Fixpoint total_gas_balance (acc : Z) (gas_objs : list ObjectReadResult)
    : exec (result Z UserInputError) :=
  match gas_objs with
  | [] => Done (Ok acc)
  | g :: gas_objs =>
      obj ← unwrap (as_object g);
      balance ← get_gas_balance obj;
      match balance with
      | Err e => Done (Err e)
      | Ok b =>
          _ ← assert (acc + b <=? u128_max);
          total_gas_balance (acc + b) gas_objs
      end
  end.
Definition check_gas_balance (s : MgoGasStatus) (gas_objs : list ObjectReadResult) (gas_budget : Z)
    : exec (result unit UserInputError) :=
  match check_gas_owners gas_objs with
  | Err e => Done (Err e)
  | Ok _ =>
      if max_gas_budget (cost_table s) <? gas_budget then
        Done (Err (GasBudgetTooHigh gas_budget (max_gas_budget (cost_table s))))
      else if gas_budget <? min_transaction_cost (cost_table s) then
        Done (Err (GasBudgetTooLow gas_budget (min_transaction_cost (cost_table s))))
      else
        total ← total_gas_balance 0 gas_objs;
        match total with
        | Err e => Done (Err e)
        | Ok gas_balance =>
            if gas_balance <? gas_budget then Done (Err (GasBalanceTooLow gas_balance gas_budget))
            else Done (Ok ())
        end
  end.

Definition is_unmetered (s : MgoGasStatus) : bool := negb (charge s).

Definition storage_gas_units (s : MgoGasStatus) : Z :=
  sum64 (map (λ p, per_storage_cost p.2) (per_object_storage s)).
Definition storage_cost (s : MgoGasStatus) : Z := storage_gas_units s.
Definition status_storage_rebate (s : MgoGasStatus) : Z :=
  sum64 (map (λ p, per_storage_rebate p.2) (per_object_storage s)).
Definition status_gas_used (s : MgoGasStatus) : exec Z := gas_used_pre_gas_price (gas_status s).

Definition bucketize_computation (s : MgoGasStatus)
    : exec (MgoGasStatus * result unit ExecutionError) :=
  gas_used ← gas_used_pre_gas_price (gas_status s);
  gas_used ←
    match gas_rounding_step s with
    | Some gas_rounding =>
        _ ← assert (negb (gas_rounding =? 0));
        if (0 <? gas_used) && (gas_used mod gas_rounding =? 0) then mul64 gas_used (gas_price s)
        else
          steps ← add64 (gas_used / gas_rounding) 1;
          rounded ← mul64 steps gas_rounding;
          mul64 rounded (gas_price s)
    | None => mul64 (get_bucket_cost (computation_buckets (cost_table s)) gas_used) (gas_price s)
    end;
  if gas_budget s <=? gas_used then
    Done (set_computation_cost (gas_budget s) s, Err InsufficientGas)
  else Done (set_computation_cost gas_used s, Ok ()).

Definition summary (s : MgoGasStatus) : exec GasCostSummary :=
  let rebate := status_storage_rebate s in
  let sender := sender_rebate rebate (rebate_rate s) in
  _ ← assert (sender <=? rebate);
  fee ← sub64 rebate sender;
  Done {| sum_computation_cost := computation_cost s; sum_storage_cost := storage_cost s;
          sum_storage_rebate := sender; sum_non_refundable_storage_fee := fee |}.

Definition reset_storage_cost_and_rebate (s : MgoGasStatus) : MgoGasStatus := set_storage [] 0 s.

(** Computation charged by bytes: any error of the meter is [InsufficientGas]. *)
Definition charge_bytes_status (size cost_per_byte : Z) (s : MgoGasStatus)
    : MgoGasStatus * result unit ExecutionError :=
  let '(g, r) := charge_bytes size cost_per_byte (gas_status s) in
  (set_gas_status g s, match r with Ok _ => Ok () | Err _ => Err InsufficientGas end).
Definition charge_storage_read (size : Z) (s : MgoGasStatus) : MgoGasStatus * result unit ExecutionError :=
  charge_bytes_status size (object_read_per_byte_cost (cost_table s)) s.
Definition charge_publish_package (size : Z) (s : MgoGasStatus) : MgoGasStatus * result unit ExecutionError :=
  charge_bytes_status size (package_publish_per_byte_cost (cost_table s)) s.

Definition track_storage_mutation (s : MgoGasStatus) (object_id : ObjectID) (new_size storage_rebate : Z)
    : exec (MgoGasStatus * Z) :=
  if is_unmetered s then
    u ← add64 (unmetered_storage_rebate s) storage_rebate;
    Done (set_storage (per_object_storage s) u s, 0)
  else
    bytes ← mul64 new_size (storage_per_byte_cost (cost_table s));
    storage_cost ← mul64 bytes (storage_gas_price s);
    let entry := (object_id, {| per_storage_cost := storage_cost;
                                per_storage_rebate := storage_rebate; per_new_size := new_size |}) in
    Done (set_storage (per_object_storage s ++ [entry]) (unmetered_storage_rebate s) s, storage_cost).

Definition charge_storage_and_rebate (s : MgoGasStatus) : exec (result unit ExecutionError) :=
  let rebate := status_storage_rebate s in
  let cost := storage_cost s in
  let sender := sender_rebate rebate (rebate_rate s) in
  _ ← assert (sender <=? rebate);
  if cost <=? sender then Done (Ok ())
  else
    gas_left ← sub64 (gas_budget s) (computation_cost s);
    needed ← sub64 cost sender;
    if gas_left <? needed then Done (Err InsufficientGas) else Done (Ok ()).

Definition adjust_computation_on_out_of_gas (s : MgoGasStatus) : MgoGasStatus :=
  set_computation_cost (gas_budget s) (set_storage [] (unmetered_storage_rebate s) s).
End V2.

(** * Rebates *)

Lemma sender_rebate_bounds r rate :
  is_u64 r → 0 ≤ rate ≤ BASIS_POINTS →
  0 ≤ sender_rebate r rate ≤ r ∧
  - BASIS_POINTS ≤ 2 * (BASIS_POINTS * sender_rebate r rate - r * rate) ≤ BASIS_POINTS.
Proof.
  unfold sender_rebate, BASIS_POINTS. intros Hr Hrate.
  set (q := (r * rate + 10000 / 2) / 10000).
  assert (10000 * q ≤ r * rate + 5000 < 10000 * q + 10000) as Hq.
  { subst q. change (10000 / 2) with 5000. pose proof (Z.div_mod (r * rate + 5000) 10000).
    pose proof (Z.mod_pos_bound (r * rate + 5000) 10000). lia. }
  clearbody q. assert (0 ≤ q ≤ r) as Hb by (unfold is_u64 in Hr; nia).
  rewrite wrap64_small by width. lia.
Qed.

Lemma summary_ok s :
  0 ≤ V2.rebate_rate s ≤ BASIS_POINTS →
  ∃ c, V2.summary s = Done c ∧
    sum_computation_cost c = V2.computation_cost s ∧ sum_storage_cost c = V2.storage_cost s ∧
    sum_storage_rebate c = sender_rebate (V2.status_storage_rebate s) (V2.rebate_rate s) ∧
    sum_storage_rebate c + sum_non_refundable_storage_fee c = V2.status_storage_rebate s ∧
    0 ≤ sum_storage_rebate c ∧ 0 ≤ sum_non_refundable_storage_fee c.
Proof.
  intros Hrate. unfold V2.summary.
  assert (is_u64 (V2.status_storage_rebate s)) as Hr.
  { unfold V2.status_storage_rebate. rewrite sum64_wrap. apply wrap64_range. }
  destruct (sender_rebate_bounds _ _ Hr Hrate) as [Hs _].
  unfold sub64, checked_sub64. rewrite (proj2 (Z.leb_le _ _)) by lia. simpl.
  eexists. split; [reflexivity|]. simpl. split_and!; try done; lia.
Qed.

(** With a rebate rate of at most 100% (10000 basis points) the summary of
    a transaction can always be computed.  It splits the rebates of the
    objects touched into the part returned to the sender and the
    non-refundable fee without losing a unit, and the sender's part is the
    rate applied to the total, rounded to the nearest unit. *)
Theorem summary_splits_rebate (s : V2.MgoGasStatus) :
  0 ≤ V2.rebate_rate s ≤ BASIS_POINTS →
  ∃ c, V2.summary s = Done c ∧
    sum_storage_rebate c + sum_non_refundable_storage_fee c = V2.status_storage_rebate s ∧
    0 ≤ sum_storage_rebate c ∧ 0 ≤ sum_non_refundable_storage_fee c ∧
    - BASIS_POINTS ≤
      2 * (BASIS_POINTS * sum_storage_rebate c - V2.status_storage_rebate s * V2.rebate_rate s)
      ≤ BASIS_POINTS.
Proof.
  intros Hrate. destruct (summary_ok s Hrate) as (c & Hc & _ & _ & Hs & Hsum & ? & ?).
  exists c. split_and!; try done; rewrite Hs; eapply sender_rebate_bounds; try done;
    unfold V2.status_storage_rebate; rewrite sum64_wrap; apply wrap64_range.
Qed.

(** * Computation *)

(** A metered status whose prices cannot overflow: the greatest bucket (and
    one rounding step more) times the gas price is a [u64]. *)
Record status_ok (max_bucket : Z) (s : V2.MgoGasStatus) : Prop := {
  so_meter : meter_ok (V2.gas_status s);
  so_charge : V2.charge s = true;
  so_price : 0 < V2.gas_price s;
  so_budget : is_u64 (V2.gas_budget s);
  so_rate : 0 ≤ V2.rebate_rate s ≤ BASIS_POINTS;
  so_buckets : computation_bucket max_bucket = Done (V2.computation_buckets (V2.cost_table s));
  so_initial : initial_budget (V2.gas_status s) ≤ 1000 * max_bucket;
  so_step : ∀ st, V2.gas_rounding_step s = Some st → 1 ≤ st;
  so_prices : (max_bucket + default 0 (V2.gas_rounding_step s)) * V2.gas_price s ≤ u64_max;
  so_storage : 0 ≤ V2.storage_per_byte_cost (V2.cost_table s) ∧ 0 ≤ V2.storage_gas_price s;
}.

(** What the gas used is rounded to. *)
Definition rounds_to (max_bucket : Z) (s : V2.MgoGasStatus) (used r : Z) : Prop :=
  used ≤ r ≤ max_bucket + default 0 (V2.gas_rounding_step s) ∧
  match V2.gas_rounding_step s with
  | Some st => 0 < r ∧ (st | r) ∧ ∀ m, 0 < m → (st | m) → used ≤ m → r ≤ m
  | None =>
      r ∈ map bucket_cost (V2.computation_buckets (V2.cost_table s)) ∧
      ∀ c, c ∈ map bucket_cost (V2.computation_buckets (V2.cost_table s)) → used ≤ c → r ≤ c
  end.

Lemma round_step used st :
  0 ≤ used → 1 ≤ st →
  let r := if (0 <? used) && (used mod st =? 0) then used else (used / st + 1) * st in
  used ≤ r < used + st + 1 ∧ r ≤ used + st ∧ 0 < r ∧ (st | r) ∧
  ∀ m, 0 < m → (st | m) → used ≤ m → r ≤ m.
Proof.
  intros Hu Hst. pose proof (Z.div_mod used st ltac:(lia)) as Hdm.
  pose proof (Z.mod_pos_bound used st ltac:(lia)) as Hmod.
  pose proof (Z.div_pos used st Hu ltac:(lia)).
  destruct ((0 <? used) && (used mod st =? 0)) eqn:Ht; simpl.
  - bool_prop. split_and!; try lia. apply Z.mod_divide; lia.
  - assert (used = 0 ∨ 0 < used mod st) as Hcase.
    { apply andb_false_iff in Ht as [Ht|Ht]; bool_prop; lia. }
    assert ((used / st + 1) * st = st * (used / st) + st) as Heq by lia.
    pose proof (Z.mul_nonneg_nonneg st (used / st) ltac:(lia) ltac:(done)).
    split_and!; try lia; [by exists (used / st + 1)|].
    intros m Hm [k ->] Hle. destruct Hcase as [->|Hpos].
    + rewrite Z.div_0_l by lia. assert (1 ≤ k) by nia. nia.
    + assert (used / st < k) by (apply (Z.mul_lt_mono_pos_l st); lia). nia.
Qed.

Lemma first_bucket_spec table used :
  Forall (λ b, bucket_cost b = bucket_max b) table →
  StronglySorted (λ b c, bucket_max b ≤ bucket_max c) table →
  match first_bucket table used with
  | Some r => r ∈ map bucket_cost table ∧ used ≤ r ∧
      ∀ c, c ∈ map bucket_cost table → used ≤ c → r ≤ c
  | None => ∀ c, c ∈ map bucket_cost table → c < used
  end.
Proof.
  intros Hsimple. induction 1 as [|b table Hs IH Hall]; simpl.
  - intros c Hc. by apply not_elem_of_nil in Hc.
  - inversion Hsimple as [|?? Hb Hrest]; subst. case_test (used <=? bucket_max b) as Hle.
    + split_and!; [left|lia|]. intros c [->|Hc]%elem_of_cons _; [lia|].
      apply list_elem_of_fmap in Hc as (b' & -> & Hb'). rewrite Forall_forall in Hrest, Hall.
      specialize (Hrest _ Hb'). specialize (Hall _ Hb'). simpl in *. lia.
    + specialize (IH Hrest). destruct (first_bucket table used) as [r|].
      * destruct IH as (? & ? & Hmin). split_and!; [by right|done|].
        intros c [->|Hc]%elem_of_cons; [lia|by apply Hmin].
      * intros c [->|Hc]%elem_of_cons; [lia|by apply IH].
Qed.

Lemma bucket_rounds max_bucket table used :
  computation_bucket max_bucket = Done table → used ≤ max_bucket →
  let r := get_bucket_cost table used in
  used ≤ r ≤ max_bucket ∧ 0 < r ∧ r ∈ map bucket_cost table ∧
  ∀ c, c ∈ map bucket_cost table → used ≤ c → r ≤ c.
Proof.
  unfold computation_bucket. intros Ht Hu. exec_inv. bool_prop.
  set (table := [_; _; _; _; _; _; _; _]).
  assert (match first_bucket table used with
          | Some r => r ∈ map bucket_cost table ∧ used ≤ r ∧
              ∀ c, c ∈ map bucket_cost table → used ≤ c → r ≤ c
          | None => ∀ c, c ∈ map bucket_cost table → c < used end) as Hspec.
  { apply first_bucket_spec; [by repeat constructor|].
    repeat (constructor; [|repeat (constructor; [simpl; lia|]); constructor]). constructor. }
  unfold get_bucket_cost. destruct (first_bucket table used) as [r|].
  - destruct Hspec as (Hin & Hle & Hmin). split; [split; [done|]|split; [|done]].
    + apply Hmin; [|done]. apply list_elem_of_In. simpl. tauto.
    + apply list_elem_of_In in Hin. simpl in Hin. lia.
  - assert (max_bucket < used); [|lia]. apply Hspec. apply list_elem_of_In. simpl. tauto.
Qed.

Lemma mul64_small a b : 0 ≤ a * b ≤ u64_max → mul64 a b = Done (a * b).
Proof. intros. unfold mul64, checked_mul64. by rewrite (proj2 (Z.leb_le _ _)) by lia. Qed.
Lemma add64_small a b : a + b ≤ u64_max → add64 a b = Done (a + b).
Proof. intros. unfold add64, checked_add64. by rewrite (proj2 (Z.leb_le _ _)) by lia. Qed.
Lemma sub64_small a b : b ≤ a → sub64 a b = Done (a - b).
Proof. intros. unfold sub64, checked_sub64. by rewrite (proj2 (Z.leb_le _ _)) by lia. Qed.

(** A status with its storage accounting and computation cost set. *)
Definition same_status (s s' : V2.MgoGasStatus) : Prop :=
  s' = V2.set_computation_cost (V2.computation_cost s')
         (V2.set_storage (V2.per_object_storage s') (V2.unmetered_storage_rebate s') s).

Lemma bucketize_ok mb s :
  status_ok mb s →
  ∃ used r, gas_used_pre_gas_price (V2.gas_status s) = Done used ∧ rounds_to mb s used r ∧
    0 ≤ used ∧
    V2.bucketize_computation s =
      Done (if V2.gas_budget s <=? r * V2.gas_price s
            then (V2.set_computation_cost (V2.gas_budget s) s, Err InsufficientGas)
            else (V2.set_computation_cost (r * V2.gas_price s) s, Ok ())).
Proof.
  intros [Hm Hch Hpr Hbud Hrate Hbk Hini Hstep Hprices _].
  set (left := gas_left (V2.gas_status s)). set (ini := initial_budget (V2.gas_status s)) in *.
  pose proof (mo_gas _ Hm) as Hgas. fold left ini in Hgas.
  assert (0 ≤ (ini - left) / 1000 ≤ mb) as Hused.
  { split; [apply Z.div_pos; lia|]. apply Z.div_le_upper_bound; lia. }
  assert (gas_used_pre_gas_price (V2.gas_status s) = Done ((ini - left) / 1000)) as Hg by
    by apply gas_used_exact.
  set (used := (ini - left) / 1000) in *. clearbody used.
  unfold V2.bucketize_computation. rewrite Hg. rewrite bind_ret_l.
  unfold rounds_to. destruct (V2.gas_rounding_step s) as [st|] eqn:Hst; simpl in Hprices |- *.
  - specialize (Hstep st eq_refl).
    pose proof (round_step used st ltac:(lia) Hstep) as Hr. cbv zeta in Hr.
    rewrite (proj2 (Z.eqb_neq st 0)) by lia. simpl.
    destruct ((0 <? used) && (used mod st =? 0)) eqn:Ht.
    + exists used, used. destruct Hr as (? & ? & ? & ? & ?).
      split_and!; try done; try lia. rewrite mul64_small by nia. simpl.
      by destruct (_ <=? _).
    + exists used, ((used / st + 1) * st). destruct Hr as (? & ? & ? & ? & ?).
      assert (0 ≤ used / st) by (apply Z.div_pos; lia).
      assert (used / st + 1 ≤ (used / st + 1) * st) by nia.
      assert (((used / st + 1) * st) * V2.gas_price s ≤ u64_max) by nia.
      split_and!; try done; try lia.
      rewrite add64_small by nia. simpl. rewrite mul64_small by nia. simpl.
      rewrite mul64_small by nia. simpl. by destruct (_ <=? _).
  - destruct (bucket_rounds mb _ used Hbk) as (? & ? & ? & ?); [lia|].
    exists used, (get_bucket_cost (V2.computation_buckets (V2.cost_table s)) used).
    split_and!; try done; try lia. rewrite mul64_small by nia. simpl. by destruct (_ <=? _).
Qed.

(** Rounding the computation of a metered transaction never fails but for
    the budget.  The gas used is rounded up to the least positive multiple of
    the rounding step, or to the least bucket that holds it; that amount times
    the gas price is the computation cost if it is below the budget, and
    otherwise the cost is the whole budget and the transaction fails with
    [InsufficientGas].  Nothing else of the status changes. *)
Theorem bucketize_exact (max_bucket : Z) (s : V2.MgoGasStatus) :
  status_ok max_bucket s →
  ∃ used r s' res, gas_used_pre_gas_price (V2.gas_status s) = Done used ∧
    rounds_to max_bucket s used r ∧ V2.bucketize_computation s = Done (s', res) ∧
    V2.computation_cost s' = Z.min (V2.gas_budget s) (r * V2.gas_price s) ∧
    res = (if V2.gas_budget s <=? r * V2.gas_price s then Err InsufficientGas else Ok ()) ∧
    same_status s s'.
Proof.
  intros Hok. destruct (bucketize_ok max_bucket s Hok) as (used & r & Hu & Hr & _ & ->).
  exists used, r. case_test (V2.gas_budget s <=? r * V2.gas_price s) as Hle;
    (eexists _, _; split_and!; [done..| |done|done]); simpl; lia.
Qed.

(** Configurations under which a price cannot overflow. *)
Definition config_ok (c : ProtocolConfig) (gas_price : Z) : Prop :=
  5000000 ≤ pc_max_gas_computation_bucket c ≤ 2 ^ 37 ∧
  (pc_max_gas_computation_bucket c + Z.max 1 (default 0 (pc_gas_rounding_step c))) * gas_price
    ≤ 2 ^ 53 ∧
  0 ≤ pc_base_tx_cost_fixed c ≤ 2 ^ 32 ∧ 0 < gas_price ≤ 2 ^ 31 ∧
  0 ≤ pc_storage_rebate_rate c ≤ BASIS_POINTS ∧
  0 ≤ pc_obj_data_cost_refundable c ∧ 0 ≤ pc_storage_gas_price c.

Lemma new_with_budget_ok budget price rgp c :
  config_ok c price → is_u64 budget →
  ∃ s, V2.new_with_budget budget price rgp c = Done s ∧
    status_ok (pc_max_gas_computation_bucket c) s ∧
    V2.gas_budget s = budget ∧ V2.per_object_storage s = [] ∧
    V2.unmetered_storage_rebate s = 0 ∧ V2.computation_cost s = 0.
Proof.
  intros (Hmb & Hfit & Hbase & Hp & Hrate & Hst1 & Hst2) Hb. unfold V2.new_with_budget.
  set (mb := pc_max_gas_computation_bucket c) in *.
  rewrite mul64_small by (unfold u64_max; nia). simpl.
  set (cb := if mb * price <? budget then mb * price else budget).
  assert (0 ≤ cb ≤ mb * price) as Hcb.
  { subst cb. case_test (mb * price <? budget) as Hlt; unfold is_u64 in Hb; nia. }
  assert (cb / price ≤ mb) as Hq by (apply Z.div_le_upper_bound; lia).
  assert (∃ mc, (if pc_txn_base_cost_as_multiplier c then mul64 (pc_base_tx_cost_fixed c) price
     else Done (pc_base_tx_cost_fixed c)) = Done mc) as [mc Hmc].
  { destruct (pc_txn_base_cost_as_multiplier c); [|by eexists].
    rewrite mul64_small by (unfold u64_max; nia). by eexists. }
  unfold V2.MgoCostTable_new. rewrite Hmc. simpl. fold mb.
  unfold computation_bucket at 1. rewrite (proj2 (Z.leb_le _ _)) by lia. simpl.
  destruct (GasStatus_new_ok (cost_table_for_version (pc_gas_model_version c)) cb price
    (pc_gas_model_version c)) as (m & Hm & [Hmo _ _ _ _] & Hini & _); [lia|lia|lia|apply schedule_within|].
  rewrite Hm. simpl. eexists. split; [reflexivity|]. split; [|done].
  split; simpl; try done; try lia.
  - unfold computation_bucket. by rewrite (proj2 (Z.leb_le _ _)) by lia.
  - intros st. destruct (pc_gas_rounding_step c); simpl; [|done]. intros [= <-]. lia.
  - destruct (pc_gas_rounding_step c) as [st|]; simpl in *; unfold u64_max; nia.
Qed.

Definition sample_config_with (effects_v2 : bool) : ProtocolConfig := {|
  pc_gas_model_version := 8; pc_base_tx_cost_fixed := 1000;
  pc_txn_base_cost_as_multiplier := true; pc_max_tx_gas := 50000000000;
  pc_max_gas_price := 100000; pc_max_gas_computation_bucket := 5000000;
  pc_package_publish_cost_per_byte := 80; pc_obj_access_cost_read_per_byte := 15;
  pc_obj_data_cost_refundable := 100; pc_storage_gas_price := 76;
  pc_storage_rebate_rate := 9900; pc_gas_rounding_step := Some 1000;
  pc_simple_conservation_checks := true;
  pc_max_serialized_tx_effects_size_bytes := 524288;
  pc_max_serialized_tx_effects_size_bytes_system_tx := 8388608;
  pc_max_size_written_objects := Some 5000000;
  pc_max_size_written_objects_system_tx := Some 50000000;
  pc_enable_effects_v2 := effects_v2; pc_version := 44;
  pc_max_input_objects := 2048; pc_max_gas_payment_objects := 256;
  pc_max_modules_in_publish := 64; pc_max_arguments := 512; pc_max_type_arguments := 16;
  pc_max_type_argument_depth := 16; pc_max_pure_argument_size := 16384;
  pc_max_programmable_tx_commands := 1024; pc_max_publish_or_upgrade_per_ptb := Some 5;
  pc_receiving_objects_supported := true; pc_end_of_epoch_transaction_supported := true;
  pc_enable_jwk_consensus_updates := true; pc_random_beacon := false;
  pc_enable_coin_deny_list := true; pc_include_consensus_digest_in_prologue := true |}.
Definition sample_config : ProtocolConfig := sample_config_with true.

Lemma sample_config_ok : config_ok sample_config 1000.
Proof. unfold config_ok, BASIS_POINTS. simpl. lia. Qed.

(** A status value for computations, and that it is the one the code builds. *)
Definition sample_gas_status : V2.MgoGasStatus :=
  match V2.new_with_budget 20000000 1000 1000 sample_config with
  | Done s => s
  | _ => V2.MgoGasStatus_new GasStatus_new_unmetered 0 false 0 0 0 0 None
           {| V2.min_transaction_cost := 0; V2.max_gas_budget := 0;
              V2.package_publish_per_byte_cost := 0; V2.object_read_per_byte_cost := 0;
              V2.storage_per_byte_cost := 0; V2.execution_cost_table := ZERO_COST_SCHEDULE;
              V2.computation_buckets := [] |}
  end.
Lemma sample_gas_status_new :
  V2.new_with_budget 20000000 1000 1000 sample_config = Done sample_gas_status ∧
  status_ok 5000000 sample_gas_status.
Proof.
  destruct (new_with_budget_ok 20000000 1000 1000 sample_config) as (s & Hs & Hok & _);
    [apply sample_config_ok|split; vm_compute; discriminate|].
  unfold sample_gas_status. by rewrite Hs.
Qed.

Lemma bucketize_exact_witness :
  ∃ used r s' res, gas_used_pre_gas_price (V2.gas_status sample_gas_status) = Done used ∧
    rounds_to 5000000 sample_gas_status used r ∧
    V2.bucketize_computation sample_gas_status = Done (s', res) ∧
    V2.computation_cost s' =
      Z.min (V2.gas_budget sample_gas_status) (r * V2.gas_price sample_gas_status) ∧
    res = (if V2.gas_budget sample_gas_status <=? r * V2.gas_price sample_gas_status
           then Err InsufficientGas else Ok ()) ∧
    same_status sample_gas_status s'.
Proof. exact (bucketize_exact 5000000 sample_gas_status (proj2 sample_gas_status_new)). Defined.

Lemma summary_splits_rebate_witness :
  ∃ c, V2.summary sample_gas_status = Done c ∧
    sum_storage_rebate c + sum_non_refundable_storage_fee c =
      V2.status_storage_rebate sample_gas_status ∧
    0 ≤ sum_storage_rebate c ∧ 0 ≤ sum_non_refundable_storage_fee c ∧
    - BASIS_POINTS ≤
      2 * (BASIS_POINTS * sum_storage_rebate c -
           V2.status_storage_rebate sample_gas_status * V2.rebate_rate sample_gas_status)
      ≤ BASIS_POINTS.
Proof. apply (summary_splits_rebate sample_gas_status). vm_compute. intuition discriminate. Defined.
