(* ===== verification/TransactionData.v ===== *)
(** Transactions: [mgo-types/src/transaction.rs].  The commands and inputs of a
    programmable transaction, the system transactions, the objects each of them
    takes as input, and the checks that need no object.

    The limits of the protocol are [u32]s and the loops over type arguments
    stop at them, so the counters of [type_tag_validity_check] stay in range. *)
From S2P Require Import Prelude Objects Errors MgoGas.

Open Scope string_scope.
Open Scope list_scope.
Open Scope Z_scope.

Definition MGO_SYSTEM_STATE_OBJECT_SHARED_VERSION : SequenceNumber := OBJECT_START_VERSION.
Definition MGO_CLOCK_OBJECT_ID : ObjectID := 6.
Definition MGO_CLOCK_OBJECT_SHARED_VERSION : SequenceNumber := OBJECT_START_VERSION.
Definition MGO_AUTHENTICATOR_STATE_OBJECT_ID : ObjectID := 7.
Definition MGO_RANDOMNESS_STATE_OBJECT_ID : ObjectID := 8.

(** * Data *)

Inductive ObjectArg :=
  | ImmOrOwnedObject (r : ObjectRef)
  | SharedObject (id : ObjectID) (initial_shared_version : SequenceNumber) (mutable : bool)
  | Receiving (r : ObjectRef).
Inductive CallArg :=
  | Pure (bytes : list Z)
  | CallObject (arg : ObjectArg).

Inductive Argument :=
  | ArgGasCoin
  | Input (i : Z)
  | Result (i : Z)
  | NestedResult (i j : Z).
Record ProgrammableMoveCall := {
  mc_package : ObjectID;
  mc_module : string;
  mc_function : string;
  mc_type_arguments : list Tag.TypeTag;
  mc_arguments : list Argument;
}.
Inductive Command :=
  | MoveCall (c : ProgrammableMoveCall)
  | TransferObjects (objects : list Argument) (recipient : Argument)
  | SplitCoins (coin : Argument) (amounts : list Argument)
  | MergeCoins (target : Argument) (coins : list Argument)
  | Publish (modules : list (list Z)) (dependencies : list ObjectID)
  | MakeMoveVec (type_tag : option Tag.TypeTag) (args : list Argument)
  | Upgrade (modules : list (list Z)) (dependencies : list ObjectID) (package : ObjectID)
      (ticket : Argument).
Record ProgrammableTransaction := { pt_inputs : list CallArg; pt_commands : list Command }.

Record ChangeEpoch := {
  ce_epoch : Z;
  ce_protocol_version : Z;
  ce_storage_charge : Z;
  ce_computation_charge : Z;
  ce_storage_rebate : Z;
  ce_non_refundable_storage_fee : Z;
  ce_epoch_start_timestamp_ms : Z;
  ce_system_packages : list (SequenceNumber * list (list Z) * list ObjectID);
}.
Inductive GenesisObject := RawObject (d : Data) (o : Owner).
Record GenesisTransaction := { gt_objects : list GenesisObject }.
Record ConsensusCommitPrologue := { cp_epoch : Z; cp_round : Z; cp_commit_timestamp_ms : Z }.
Record ConsensusCommitPrologueV2 := {
  cp2_epoch : Z; cp2_round : Z; cp2_commit_timestamp_ms : Z; cp2_consensus_commit_digest : Z }.
Record AuthenticatorStateExpire := {
  ase_min_epoch : Z;
  ase_authenticator_obj_initial_shared_version : SequenceNumber;
}.
Record AuthenticatorStateUpdate := {
  asu_epoch : Z;
  asu_round : Z;
  asu_new_active_jwks : list (list Z);     (* serialized *)
  asu_authenticator_obj_initial_shared_version : SequenceNumber;
}.
Record RandomnessStateUpdate := {
  rsu_epoch : Z;
  rsu_randomness_round : Z;
  rsu_random_bytes : list Z;
  rsu_randomness_obj_initial_shared_version : SequenceNumber;
}.
Inductive EndOfEpochTransactionKind :=
  | EeChangeEpoch (e : ChangeEpoch)
  | EeAuthenticatorStateCreate
  | EeAuthenticatorStateExpire (e : AuthenticatorStateExpire)
  | EeRandomnessStateCreate
  | EeDenyListStateCreate.
Inductive TransactionKind :=
  | TkProgrammableTransaction (pt : ProgrammableTransaction)
  | TkChangeEpoch (e : ChangeEpoch)
  | TkGenesis (g : GenesisTransaction)
  | TkConsensusCommitPrologue (p : ConsensusCommitPrologue)
  | TkAuthenticatorStateUpdate (u : AuthenticatorStateUpdate)
  | TkEndOfEpochTransaction (txns : list EndOfEpochTransactionKind)
  | TkRandomnessStateUpdate (u : RandomnessStateUpdate)
  | TkConsensusCommitPrologueV2 (p : ConsensusCommitPrologueV2).

Record GasData := {
  payment : list ObjectRef;
  gas_owner : MgoAddress;
  gd_price : Z;
  gd_budget : Z;
}.
Inductive TransactionExpiration := ExpirationNone | ExpirationEpoch (epoch : Z).
Record TransactionData := {
  tx_kind : TransactionKind;
  tx_sender : MgoAddress;
  gas_data : GasData;
  tx_expiration : TransactionExpiration;
}.

Record SharedInputObject := {
  sio_id : ObjectID; sio_initial_shared_version : SequenceNumber; sio_mutable : bool }.
Definition MGO_SYSTEM_OBJ : SharedInputObject := {|
  sio_id := MGO_SYSTEM_STATE_OBJECT_ID;
  sio_initial_shared_version := MGO_SYSTEM_STATE_OBJECT_SHARED_VERSION; sio_mutable := true |}.

(** * Type arguments *)

(** One turn of each loop takes the top of the stack; the end of the vector is
    the head of the list. *)
Fixpoint type_tag_loop (fuel : nat) (config : ProtocolConfig) (stack : list (Tag.TypeTag * Z))
    (count : Z) : exec (result Z UserInputError) :=
  match stack with
  | [] => Done (Ok count)
  | (tag, depth) :: stack =>
      match fuel with
      | O => OutOfFuel
      | S fuel =>
          let count := count + 1 in
          _ ←? Done (ensure (count <? pc_max_type_arguments config)
                 (SizeLimitExceeded "maximum type arguments in a call transaction"
                    (pc_max_type_arguments config)));
          _ ←? Done (ensure (depth <? pc_max_type_argument_depth config)
                 (SizeLimitExceeded "maximum type argument depth in a call transaction"
                    (pc_max_type_argument_depth config)));
          match tag with
          | Tag.Bool | Tag.U8 | Tag.U64 | Tag.U128 | Tag.Address | Tag.Signer
          | Tag.U16 | Tag.U32 | Tag.U256 => type_tag_loop fuel config stack count
          | Tag.Vector t => type_tag_loop fuel config ((t, depth + 1) :: stack) count
          | Tag.Struct (Tag.mkStructTag _ _ _ type_params) =>
              type_tag_loop fuel config (rev (map (λ t, (t, depth + 1)) type_params) ++ stack) count
          end
      end
  end.
(** Every turn counts one type argument, and the count stays below the limit. *)
Definition type_tag_validity_check (tag : Tag.TypeTag) (config : ProtocolConfig) (starting_count : Z)
    : exec (result Z UserInputError) :=
  type_tag_loop (S (Z.to_nat (pc_max_type_arguments config))) config [(tag, 1)] starting_count.

(** The number of types in a tag. *)
Fixpoint tag_nodes (t : Tag.TypeTag) : nat :=
  match t with
  | Tag.Vector t => S (tag_nodes t)
  | Tag.Struct (Tag.mkStructTag _ _ _ ts) => S (sum_list_with tag_nodes ts)
  | _ => 1
  end.
Fixpoint type_tag_packages_loop (fuel : nat) (stack : list Tag.TypeTag) (packages : gset ObjectID)
    : exec (gset ObjectID) :=
  match stack with
  | [] => Done packages
  | cur :: stack =>
      match fuel with
      | O => OutOfFuel
      | S fuel =>
          match cur with
          | Tag.Bool | Tag.U8 | Tag.U64 | Tag.U128 | Tag.Address | Tag.Signer
          | Tag.U16 | Tag.U32 | Tag.U256 => type_tag_packages_loop fuel stack packages
          | Tag.Vector inner => type_tag_packages_loop fuel (inner :: stack) packages
          | Tag.Struct (Tag.mkStructTag address _ _ type_params) =>
              type_tag_packages_loop fuel (rev type_params ++ stack) ({[address]} ∪ packages)
          end
      end
  end.
Definition add_type_tag_packages (packages : gset ObjectID) (type_argument : Tag.TypeTag)
    : exec (gset ObjectID) :=
  type_tag_packages_loop (tag_nodes type_argument) [type_argument] packages.

(** * Inputs of a programmable transaction *)

(** [iter().all(|x| used.insert(x))]. *)
Fixpoint all_insert (used : gset Z) (l : list Z) : bool :=
  match l with
  | [] => true
  | x :: l => if bool_decide (x ∈ used) then false else all_insert ({[x]} ∪ used) l
  end.

Definition arg_input_objects (arg : CallArg) : list InputObjectKind :=
  match arg with
  | Pure _ => []
  | CallObject (ImmOrOwnedObject object_ref) => [KImmOrOwnedMoveObject object_ref]
  | CallObject (SharedObject id initial_shared_version mutable) =>
      [KSharedMoveObject id initial_shared_version mutable]
  | CallObject (Receiving _) => []
  end.
Definition arg_receiving_objects (arg : CallArg) : list ObjectRef :=
  match arg with
  | Pure _ => []
  | CallObject o =>
      match o with
      | ImmOrOwnedObject _ => []
      | SharedObject _ _ _ => []
      | Receiving obj_ref => [obj_ref]
      end
  end.
Definition arg_validity_check (config : ProtocolConfig) (arg : CallArg) : result unit UserInputError :=
  match arg with
  | Pure p =>
      ensure (Z.of_nat (length p) <? pc_max_pure_argument_size config)
        (SizeLimitExceeded "maximum pure argument size" (pc_max_pure_argument_size config))
  | CallObject _ => Ok ()
  end.

Definition call_input_objects (c : ProgrammableMoveCall) : exec (list InputObjectKind) :=
  packages ← foldM add_type_tag_packages {[mc_package c]} (mc_type_arguments c);
  Done (map KMovePackage (bset_iter Z.le packages)).
Definition BLOCKED_MOVE_FUNCTIONS : list (ObjectID * string * string) := [].
(** The loop over the type arguments carries their count. *)
Fixpoint type_arguments_check (config : ProtocolConfig) (count : Z) (tags : list Tag.TypeTag)
    : exec (result Z UserInputError) :=
  match tags with
  | [] => Done (Ok count)
  | tag :: tags =>
      count ←? type_tag_validity_check tag config count;
      type_arguments_check config count tags
  end.
Definition arguments_limit (what : string) (config : ProtocolConfig) (args : list Argument)
    : result unit UserInputError :=
  ensure (Z.of_nat (length args) <? pc_max_arguments config)
    (SizeLimitExceeded what (pc_max_arguments config)).
Definition call_validity_check (config : ProtocolConfig) (c : ProgrammableMoveCall)
    : exec (result unit UserInputError) :=
  let is_blocked :=
    bool_decide ((mc_package c, mc_module c, mc_function c) ∈ BLOCKED_MOVE_FUNCTIONS) in
  _ ←? Done (ensure (negb is_blocked) BlockedMoveFunction);
  _ ←? type_arguments_check config 0 (mc_type_arguments c);
  Done (arguments_limit "maximum arguments in a move call" config (mc_arguments c)).

Definition command_input_objects (command : Command) : exec (list InputObjectKind) :=
  match command with
  | Upgrade _ deps package_id _ => Done (map KMovePackage deps ++ [KMovePackage package_id])
  | Publish _ deps => Done (map KMovePackage deps)
  | MoveCall c => call_input_objects c
  | MakeMoveVec (Some t) _ =>
      packages ← add_type_tag_packages ∅ t;
      Done (map KMovePackage (bset_iter Z.le packages))
  | MakeMoveVec None _ | TransferObjects _ _ | SplitCoins _ _ | MergeCoins _ _ => Done []
  end.
Definition command_packages_to_be_published (command : Command) : option (list (list Z)) :=
  match command with
  | Upgrade v _ _ _ => Some v
  | Publish v _ => Some v
  | MoveCall _ | TransferObjects _ _ | SplitCoins _ _ | MergeCoins _ _ | MakeMoveVec _ _ => None
  end.
Definition command_validity_check (config : ProtocolConfig) (command : Command)
    : exec (result unit UserInputError) :=
  let what := "maximum arguments in a programmable transaction command" in
  match command with
  | MoveCall call => call_validity_check config call
  | TransferObjects args _ | MergeCoins _ args | SplitCoins _ args =>
      _ ←? Done (ensure (negb (bool_decide (args = []))) EmptyCommandInput);
      Done (arguments_limit what config args)
  | MakeMoveVec ty_opt args =>
      _ ←? Done (ensure (bool_decide (is_Some ty_opt) || negb (bool_decide (args = [])))
                   EmptyCommandInput);
      _ ←? match ty_opt with
           | Some ty => type_tag_validity_check ty config 0
           | None => Done (Ok 0)
           end;
      Done (arguments_limit what config args)
  | Publish modules _ | Upgrade modules _ _ _ =>
      _ ←? Done (ensure (negb (bool_decide (modules = []))) EmptyCommandInput);
      Done (ensure (Z.of_nat (length modules) <? pc_max_modules_in_publish config)
        (SizeLimitExceeded "maximum modules in a programmable transaction upgrade command"
           (pc_max_modules_in_publish config)))
  end.

Definition pt_input_objects (pt : ProgrammableTransaction)
    : exec (result (list InputObjectKind) UserInputError) :=
  let input_arg_objects := concat (map arg_input_objects (pt_inputs pt)) in
  if negb (all_insert ∅ (map kind_object_id input_arg_objects)) then
    Done (Err DuplicateObjectRefInput)
  else
    l ← mapM command_input_objects (pt_commands pt);
    let command_input_objects : gset InputObjectKind := list_to_set (concat l) in
    Done (Ok (input_arg_objects ++ bset_iter kind_le command_input_objects)).
Definition pt_receiving_objects (pt : ProgrammableTransaction) : list ObjectRef :=
  concat (map arg_receiving_objects (pt_inputs pt)).
Definition is_publish_or_upgrade (c : Command) : bool :=
  match c with Publish _ _ | Upgrade _ _ _ _ => true | _ => false end.
Definition publish_count_check (config : ProtocolConfig) (commands : list Command)
    : result unit UserInputError :=
  match pc_max_publish_or_upgrade_per_ptb config with
  | Some max_publish_commands =>
      let publish_count :=
        Z.of_nat (length (filter (λ c, is_publish_or_upgrade c = true) commands)) in
      ensure (publish_count <=? max_publish_commands)
        (MaxPublishCountExceeded max_publish_commands publish_count)
  | None => Ok ()
  end.
Definition pt_validity_check (config : ProtocolConfig) (pt : ProgrammableTransaction)
    : exec (result unit UserInputError) :=
  _ ←? Done (ensure (Z.of_nat (length (pt_commands pt)) <? pc_max_programmable_tx_commands config)
         (SizeLimitExceeded "maximum commands in a programmable transaction"
            (pc_max_programmable_tx_commands config)));
  inputs ←? pt_input_objects pt;
  let total_inputs := Z.of_nat (length inputs + length (pt_receiving_objects pt)) in
  _ ←? Done (ensure (total_inputs <=? pc_max_input_objects config)
         (SizeLimitExceeded "maximum input + receiving objects in a transaction"
            (pc_max_input_objects config)));
  _ ←? Done (try_for_each (arg_validity_check config) (pt_inputs pt));
  _ ←? Done (publish_count_check config (pt_commands pt));
  try_for_eachM (command_validity_check config) (pt_commands pt).

Definition pt_shared_input_objects (pt : ProgrammableTransaction) : list SharedInputObject :=
  omap (λ arg, match arg with
               | Pure _ | CallObject (Receiving _) | CallObject (ImmOrOwnedObject _) => None
               | CallObject (SharedObject id initial_shared_version mutable) =>
                   Some {| sio_id := id; sio_initial_shared_version := initial_shared_version;
                           sio_mutable := mutable |}
               end) (pt_inputs pt).
Definition pt_move_calls (pt : ProgrammableTransaction) : list (ObjectID * string * string) :=
  omap (λ command, match command with
                   | MoveCall m => Some (mc_package m, mc_module m, mc_function m)
                   | _ => None
                   end) (pt_commands pt).
Definition pt_packages_to_be_published (pt : ProgrammableTransaction) : list (list (list Z)) :=
  omap command_packages_to_be_published (pt_commands pt).

(** * System transactions *)

Definition shared_system_input (id : ObjectID) (initial_shared_version : SequenceNumber) : InputObjectKind :=
  KSharedMoveObject id initial_shared_version true.
Definition end_of_epoch_input_objects (k : EndOfEpochTransactionKind) : list InputObjectKind :=
  match k with
  | EeChangeEpoch _ =>
      [shared_system_input MGO_SYSTEM_STATE_OBJECT_ID MGO_SYSTEM_STATE_OBJECT_SHARED_VERSION]
  | EeAuthenticatorStateCreate => []
  | EeAuthenticatorStateExpire expire =>
      [shared_system_input MGO_AUTHENTICATOR_STATE_OBJECT_ID
         (ase_authenticator_obj_initial_shared_version expire)]
  | EeRandomnessStateCreate => []
  | EeDenyListStateCreate => []
  end.
Definition end_of_epoch_shared_input_objects (k : EndOfEpochTransactionKind) : list SharedInputObject :=
  match k with
  | EeChangeEpoch _ => [MGO_SYSTEM_OBJ]
  | EeAuthenticatorStateExpire expire =>
      [ {| sio_id := MGO_AUTHENTICATOR_STATE_OBJECT_ID;
           sio_initial_shared_version := ase_authenticator_obj_initial_shared_version expire;
           sio_mutable := true |} ]
  | EeAuthenticatorStateCreate => []
  | EeRandomnessStateCreate => []
  | EeDenyListStateCreate => []
  end.
Definition end_of_epoch_validity_check (config : ProtocolConfig) (k : EndOfEpochTransactionKind)
    : exec (result unit UserInputError) :=
  match k with
  | EeChangeEpoch _ => Done (Ok ())
  | EeAuthenticatorStateCreate | EeAuthenticatorStateExpire _ =>
      _ ← assert (pc_enable_jwk_consensus_updates config); Done (Ok ())
  | EeRandomnessStateCreate => _ ← assert (pc_random_beacon config); Done (Ok ())
  | EeDenyListStateCreate => _ ← assert (pc_enable_coin_deny_list config); Done (Ok ())
  end.

(** * Transaction kinds *)

Definition is_system_tx (k : TransactionKind) : bool :=
  match k with
  | TkChangeEpoch _ | TkGenesis _ | TkConsensusCommitPrologue _ | TkConsensusCommitPrologueV2 _
  | TkAuthenticatorStateUpdate _ | TkRandomnessStateUpdate _ | TkEndOfEpochTransaction _ => true
  | TkProgrammableTransaction _ => false
  end.
Definition is_end_of_epoch_tx (k : TransactionKind) : bool :=
  match k with TkEndOfEpochTransaction _ | TkChangeEpoch _ => true | _ => false end.
(** Sums of [u64]s outside checked arithmetic wrap. *)
Definition get_advance_epoch_tx_gas_summary (k : TransactionKind) : exec (option (Z * Z)) :=
  let summary e := (wrap64 (ce_computation_charge e + ce_storage_charge e), ce_storage_rebate e) in
  match k with
  | TkChangeEpoch e => Done (Some (summary e))
  | TkEndOfEpochTransaction txns =>
      last ← unwrap (last txns);
      match last with EeChangeEpoch e => Done (Some (summary e)) | _ => Panic end
  | _ => Done None
  end.
Definition kind_shared_input_objects (k : TransactionKind) : list SharedInputObject :=
  let once id version :=
    [{| sio_id := id; sio_initial_shared_version := version; sio_mutable := true |}] in
  match k with
  | TkChangeEpoch _ => [MGO_SYSTEM_OBJ]
  | TkConsensusCommitPrologue _ | TkConsensusCommitPrologueV2 _ =>
      once MGO_CLOCK_OBJECT_ID MGO_CLOCK_OBJECT_SHARED_VERSION
  | TkAuthenticatorStateUpdate update =>
      once MGO_AUTHENTICATOR_STATE_OBJECT_ID (asu_authenticator_obj_initial_shared_version update)
  | TkRandomnessStateUpdate update =>
      once MGO_RANDOMNESS_STATE_OBJECT_ID (rsu_randomness_obj_initial_shared_version update)
  | TkEndOfEpochTransaction txns => concat (map end_of_epoch_shared_input_objects txns)
  | TkProgrammableTransaction pt => pt_shared_input_objects pt
  | _ => []
  end.
Definition contains_shared_object (k : TransactionKind) : bool :=
  match kind_shared_input_objects k with [] => false | _ :: _ => true end.
Definition kind_move_calls (k : TransactionKind) : list (ObjectID * string * string) :=
  match k with TkProgrammableTransaction pt => pt_move_calls pt | _ => [] end.
Definition kind_receiving_objects (k : TransactionKind) : list ObjectRef :=
  match k with
  | TkChangeEpoch _ | TkGenesis _ | TkConsensusCommitPrologue _ | TkConsensusCommitPrologueV2 _
  | TkAuthenticatorStateUpdate _ | TkRandomnessStateUpdate _ | TkEndOfEpochTransaction _ => []
  | TkProgrammableTransaction pt => pt_receiving_objects pt
  end.
Definition system_input_objects (k : TransactionKind) : list InputObjectKind :=
  match k with
  | TkChangeEpoch _ =>
      [shared_system_input MGO_SYSTEM_STATE_OBJECT_ID MGO_SYSTEM_STATE_OBJECT_SHARED_VERSION]
  | TkGenesis _ => []
  | TkConsensusCommitPrologue _ | TkConsensusCommitPrologueV2 _ =>
      [shared_system_input MGO_CLOCK_OBJECT_ID MGO_CLOCK_OBJECT_SHARED_VERSION]
  | TkAuthenticatorStateUpdate update =>
      [shared_system_input MGO_AUTHENTICATOR_STATE_OBJECT_ID
         (asu_authenticator_obj_initial_shared_version update)]
  | TkRandomnessStateUpdate update =>
      [shared_system_input MGO_RANDOMNESS_STATE_OBJECT_ID
         (rsu_randomness_obj_initial_shared_version update)]
  | TkEndOfEpochTransaction txns => concat (map end_of_epoch_input_objects txns)
  | TkProgrammableTransaction _ => []
  end.
Definition kind_input_objects (k : TransactionKind)
    : exec (result (list InputObjectKind) UserInputError) :=
  match k with
  | TkProgrammableTransaction p => pt_input_objects p
  | _ =>
      let input_objects := system_input_objects k in
      if negb (all_insert ∅ (map kind_object_id input_objects)) then Done (Err DuplicateObjectRefInput)
      else Done (Ok input_objects)
  end.
Definition kind_validity_check (config : ProtocolConfig) (k : TransactionKind)
    : exec (result unit UserInputError) :=
  match k with
  | TkProgrammableTransaction p => pt_validity_check config p
  | TkChangeEpoch _ | TkGenesis _ | TkConsensusCommitPrologue _ | TkConsensusCommitPrologueV2 _ =>
      Done (Ok ())
  | TkEndOfEpochTransaction txns =>
      _ ← assert (pc_end_of_epoch_transaction_supported config);
      try_for_eachM (end_of_epoch_validity_check config) txns
  | TkAuthenticatorStateUpdate _ =>
      _ ← assert (pc_enable_jwk_consensus_updates config); Done (Ok ())
  | TkRandomnessStateUpdate _ => _ ← assert (pc_random_beacon config); Done (Ok ())
  end.
Definition iter_commands (k : TransactionKind) : list Command :=
  match k with TkProgrammableTransaction pt => pt_commands pt | _ => [] end.
Definition num_commands (k : TransactionKind) : nat :=
  match k with TkProgrammableTransaction pt => length (pt_commands pt) | _ => 0 end.
Definition tx_count (k : TransactionKind) : nat :=
  match k with TkProgrammableTransaction pt => length (pt_commands pt) | _ => 1 end.

Definition end_of_epoch_version_supported (config : ProtocolConfig) (tx : EndOfEpochTransactionKind)
    : result unit MgoError :=
  match tx with
  | EeChangeEpoch _ => Ok ()
  | EeAuthenticatorStateCreate | EeAuthenticatorStateExpire _ =>
      ensure (pc_enable_jwk_consensus_updates config)
        (UnsupportedFeatureError "authenticator state updates not enabled")
  | EeRandomnessStateCreate =>
      ensure (pc_random_beacon config) (UnsupportedFeatureError "random beacon not enabled")
  | EeDenyListStateCreate =>
      ensure (pc_enable_coin_deny_list config) (UnsupportedFeatureError "coin deny list not enabled")
  end.
Definition kind_version_supported (config : ProtocolConfig) (k : TransactionKind)
    : result unit MgoError :=
  match k with
  | TkChangeEpoch _ | TkGenesis _ | TkConsensusCommitPrologue _ => Ok ()
  | TkProgrammableTransaction pt =>
      if negb (pc_receiving_objects_supported config) then
        let has_receiving_objects :=
          existsb (λ arg, negb (bool_decide (arg_receiving_objects arg = []))) (pt_inputs pt) in
        if has_receiving_objects
        then Err (UnsupportedFeatureError "receiving objects is not supported")
        else Ok ()
      else Ok ()
  | TkAuthenticatorStateUpdate _ =>
      ensure (pc_enable_jwk_consensus_updates config)
        (UnsupportedFeatureError "authenticator state updates not enabled")
  | TkRandomnessStateUpdate _ =>
      ensure (pc_random_beacon config)
        (UnsupportedFeatureError "randomness state updates not enabled")
  | TkEndOfEpochTransaction txns =>
      if negb (pc_end_of_epoch_transaction_supported config)
      then Err (UnsupportedFeatureError "EndOfEpochTransaction is not supported")
      else try_for_each (end_of_epoch_version_supported config) txns
  | TkConsensusCommitPrologueV2 _ =>
      ensure (pc_include_consensus_digest_in_prologue config)
        (UnsupportedFeatureError "ConsensusCommitPrologueV2 is not supported")
  end.

(** * Transaction data *)

Definition tx_gas (d : TransactionData) : list ObjectRef := payment (gas_data d).
Definition tx_gas_owner (d : TransactionData) : MgoAddress := gas_owner (gas_data d).
Definition signers (d : TransactionData) : list MgoAddress :=
  tx_sender d :: (if tx_gas_owner d =? tx_sender d then [] else [tx_gas_owner d]).
Definition tx_input_objects (d : TransactionData)
    : exec (result (list InputObjectKind) UserInputError) :=
  inputs ←? kind_input_objects (tx_kind d);
  Done (Ok (if negb (is_system_tx (tx_kind d))
            then inputs ++ map KImmOrOwnedMoveObject (tx_gas d) else inputs)).
Definition tx_receiving_objects (d : TransactionData) : list ObjectRef :=
  kind_receiving_objects (tx_kind d).
Definition is_sponsored_tx (d : TransactionData) : bool := negb (tx_gas_owner d =? tx_sender d).
Definition check_sponsorship (d : TransactionData) : result unit UserInputError :=
  if tx_gas_owner d =? tx_sender d then Ok ()
  else match tx_kind d with
       | TkProgrammableTransaction _ => Ok ()
       | _ => Err UnsupportedSponsoredTransactionKind
       end.
Definition validity_check_no_gas_check (config : ProtocolConfig) (d : TransactionData)
    : exec (result unit UserInputError) :=
  _ ←? kind_validity_check config (tx_kind d);
  Done (check_sponsorship d).
Definition tx_validity_check (config : ProtocolConfig) (d : TransactionData)
    : exec (result unit UserInputError) :=
  _ ←? Done (ensure (negb (bool_decide (tx_gas d = []))) MissingGasPayment);
  _ ←? Done (ensure (Z.of_nat (length (tx_gas d)) <? pc_max_gas_payment_objects config)
         (SizeLimitExceeded "maximum number of gas payment objects"
            (pc_max_gas_payment_objects config)));
  validity_check_no_gas_check config d.
Definition is_genesis_tx (d : TransactionData) : bool :=
  match tx_kind d with TkGenesis _ => true | _ => false end.
Definition check_version_supported (config : ProtocolConfig) (d : TransactionData)
    : result unit MgoError :=
  _ ←! ensure ((1 <=? pc_version config) && (pc_version config <=? u64_max))
         (WrongMessageVersion 1 (pc_version config));
  kind_version_supported config (tx_kind d).

(** * Objects read for a transaction *)

Definition kind_version (k : InputObjectKind) : option SequenceNumber :=
  match k with
  | KMovePackage _ => None
  | KImmOrOwnedMoveObject r => Some r.1.2
  | KSharedMoveObject _ _ _ => None
  end.
Definition object_not_found_error (k : InputObjectKind) : UserInputError :=
  match k with
  | KMovePackage package_id => DependentPackageNotFound package_id
  | KImmOrOwnedMoveObject r => ObjectNotFound r.1.1 (Some r.1.2)
  | KSharedMoveObject id _ _ => ObjectNotFound id None
  end.
Definition kind_is_shared (k : InputObjectKind) : bool :=
  match k with KSharedMoveObject _ _ _ => true | _ => false end.
Definition kind_is_mutable (k : InputObjectKind) : bool :=
  match k with
  | KMovePackage _ => false
  | KImmOrOwnedMoveObject _ => true
  | KSharedMoveObject _ _ mutable => mutable
  end.

Definition ObjectReadResult_new (k : InputObjectKind) (object : ObjectReadResultKind)
    : exec ObjectReadResult :=
  match k, object with
  | KImmOrOwnedMoveObject _, DeletedSharedObject _ _ => Panic
  | _, _ => Done {| input_object_kind := k; read_object_kind := object |}
  end.
Definition read_id (r : ObjectReadResult) : ObjectID := kind_object_id (input_object_kind r).
Definition read_is_mutable (r : ObjectReadResult) : exec bool :=
  match input_object_kind r, read_object_kind r with
  | KMovePackage _, _ => Done false
  | KImmOrOwnedMoveObject _, ReadObject object => Done (negb (is_immutable object))
  | KImmOrOwnedMoveObject _, DeletedSharedObject _ _ => Panic
  | KSharedMoveObject _ _ mutable, _ => Done mutable
  end.
Definition get_owned_objref (r : ObjectReadResult) : exec (option ObjectRef) :=
  match input_object_kind r, read_object_kind r with
  | KMovePackage _, _ => Done None
  | KImmOrOwnedMoveObject objref, ReadObject object =>
      Done (if is_immutable object then None else Some objref)
  | KImmOrOwnedMoveObject _, DeletedSharedObject _ _ => Panic
  | KSharedMoveObject _ _ _, _ => Done None
  end.
Definition filter_owned_objects (objects : list ObjectReadResult) : exec (list ObjectRef) :=
  l ← mapM get_owned_objref objects; Done (omap id l).

Inductive SharedInput :=
  | SharedInputExisting (r : ObjectRef)
  | SharedInputDeleted (id : ObjectID) (v : SequenceNumber) (mutable : bool) (d : TransactionDigest).
Definition get_previous_transaction (r : ObjectReadResult) : TransactionDigest :=
  match read_object_kind r with
  | ReadObject obj => previous_transaction obj
  | DeletedSharedObject _ digest => digest
  end.
Definition transaction_dependencies (objects : list ObjectReadResult) : gset TransactionDigest :=
  list_to_set (map get_previous_transaction objects).

Section reads.
Context {Hhash : ObjectHash}.
Definition new_from_gas_object (gas : Object) : exec ObjectReadResult :=
  objref ← compute_object_reference gas;
  Done {| input_object_kind := KImmOrOwnedMoveObject objref; read_object_kind := ReadObject gas |}.
Definition to_shared_input (r : ObjectReadResult) : exec (option SharedInput) :=
  match input_object_kind r with
  | KMovePackage _ => Done None
  | KImmOrOwnedMoveObject _ => Done None
  | KSharedMoveObject id _ mutable =>
      match read_object_kind r with
      | ReadObject obj => objref ← compute_object_reference obj; Done (Some (SharedInputExisting objref))
      | DeletedSharedObject seq digest => Done (Some (SharedInputDeleted id seq mutable digest))
      end
  end.
Definition filter_shared_objects (objects : list ObjectReadResult) : exec (list SharedInput) :=
  mapM (λ obj, s ← to_shared_input obj; unwrap s)
    (filter (λ obj, kind_is_shared (input_object_kind obj) = true) objects).
End reads.

Inductive ReceivingObjectReadResultKind :=
  | ReceivingObject (o : Object)
  | PreviouslyReceivedObject.
Record ReceivingObjectReadResult := {
  rr_object_ref : ObjectRef;
  rr_object : ReceivingObjectReadResultKind;
}.
Definition receiving_as_object (k : ReceivingObjectReadResultKind) : option Object :=
  match k with ReceivingObject o => Some o | PreviouslyReceivedObject => None end.
Definition is_previously_received (r : ReceivingObjectReadResult) : bool :=
  match rr_object r with PreviouslyReceivedObject => true | ReceivingObject _ => false end.
