(* ===== verification/TransactionValidity.v ===== *)
(** The validity checks of a transaction ([TransactionData]) are equal to
    declarative limits, and never panic on a transaction whose version check
    passed; the input objects of a programmable transaction are its arguments
    followed by the packages its commands name; and the shared inputs the
    consensus handler sequences are the shared objects among the inputs. *)
From S2P Require Import Prelude MapSums Objects Errors.
From S2P Require Import MgoGas TransactionData.

Open Scope string_scope.
Open Scope list_scope.
Open Scope Z_scope.

(** * Type arguments: what the loops compute *)

Fixpoint tag_depth (t : Tag.TypeTag) : Z :=
  match t with
  | Tag.Vector t => 1 + tag_depth t
  | Tag.Struct (Tag.mkStructTag _ _ _ ts) => 1 + foldr Z.max 0 (map tag_depth ts)
  | _ => 1
  end.
Fixpoint tag_packages (t : Tag.TypeTag) : gset ObjectID :=
  match t with
  | Tag.Vector t => tag_packages t
  | Tag.Struct (Tag.mkStructTag address _ _ ts) => {[address]} ∪ ⋃ (map tag_packages ts)
  | _ => ∅
  end.
Abbreviation tags_nodes := (sum_list_with tag_nodes) (only parsing).

Lemma tag_depth_pos t : 1 ≤ tag_depth t.
Proof.
  induction t as [| | | | | |t IH|[? ? ? ts]| | |] using Tag.TypeTag_ind; simpl; try lia.
  assert (0 ≤ foldr Z.max 0 (map tag_depth ts)) by (induction ts; simpl; lia). lia.
Qed.
Lemma foldr_max_perm l k : l ≡ₚ k → foldr Z.max 0 l = foldr Z.max 0 k.
Proof. induction 1; simpl in *; lia. Qed.
Lemma foldr_max_le l b : 0 ≤ b → foldr Z.max 0 l ≤ b ↔ ∀ x, x ∈ l → x ≤ b.
Proof.
  intros Hb. induction l as [|x l IH]; simpl.
  - split; [|done]. intros _ x Hx. by apply not_elem_of_nil in Hx.
  - rewrite Z.max_lub_iff, IH. setoid_rewrite elem_of_cons. split.
    + intros [Hx Hl] y [->|Hy]; auto.
    + intros Hall. split; auto.
Qed.

(** What one turn of the loops pushes. *)
Definition pushes (t : Tag.TypeTag) : list Tag.TypeTag :=
  match t with
  | Tag.Vector t => [t]
  | Tag.Struct (Tag.mkStructTag _ _ _ ts) => rev ts
  | _ => []
  end.
Lemma pushes_nodes t : tag_nodes t = S (tags_nodes (pushes t)).
Proof.
  destruct t as [| | | | | |t|[? ? ? ts]| | |]; try done; simpl.
  f_equal. apply sum_list_with_Permutation_proper, Permutation_rev.
Qed.
Lemma pushes_depth t b :
  tag_depth t ≤ b ↔ 1 ≤ b ∧ ∀ t', t' ∈ pushes t → 1 + tag_depth t' ≤ b.
Proof.
  assert (tag_depth t = 1 + foldr Z.max 0 (map tag_depth (pushes t))) as ->.
  { destruct t as [| | | | | |t|[? ? ? ts]| | |]; try done; simpl.
    - pose proof (tag_depth_pos t). lia.
    - f_equal. apply foldr_max_perm. change (map tag_depth ?l) with (tag_depth <$> l).
      by rewrite <-Permutation_rev. }
  generalize (pushes t). intros l.
  assert (0 ≤ foldr Z.max 0 (map tag_depth l)) by (induction l; simpl; lia).
  transitivity (1 ≤ b ∧ foldr Z.max 0 (map tag_depth l) ≤ b - 1); [lia|].
  split; intros [Hb Hl]; (split; [done|]).
  - intros t' Ht'. rewrite foldr_max_le in Hl by lia.
    assert (tag_depth t' ≤ b - 1); [|lia]. by apply Hl, list_elem_of_fmap_2.
  - rewrite foldr_max_le by lia. intros x (t' & -> & Ht')%list_elem_of_fmap.
    specialize (Hl t' Ht'). lia.
Qed.

Section type_tags.
Context (config : ProtocolConfig).
Local Notation max := (pc_max_type_arguments config).
Local Notation max_depth := (pc_max_type_argument_depth config).

(** The stack can be worked off within the limits. *)
Definition stack_fits (stack : list (Tag.TypeTag * Z)) (count : Z) : Prop :=
  (stack = [] ∨ count + Z.of_nat (tags_nodes stack.*1) < max) ∧
  ∀ t d, (t, d) ∈ stack → d + tag_depth t ≤ max_depth.
Definition push (t : Tag.TypeTag) (d : Z) (stack : list (Tag.TypeTag * Z)) : list (Tag.TypeTag * Z) :=
  map (λ t', (t', d + 1)) (pushes t) ++ stack.

Lemma push_nodes t d stack : S (tags_nodes (push t d stack).*1) = tags_nodes (((t, d) :: stack).*1).
Proof.
  unfold push. rewrite fmap_app, sum_list_with_app. change (map ?f ?l) with (f <$> l) at 1.
  rewrite <-list_fmap_compose. cbn [fmap list_fmap fst]. rewrite list_fmap_id. simpl.
  by rewrite pushes_nodes.
Qed.
Lemma stack_fits_step t d stack count :
  stack_fits ((t, d) :: stack) count ↔
  count + 1 < max ∧ d < max_depth ∧ stack_fits (push t d stack) (count + 1).
Proof.
  unfold stack_fits. rewrite <-push_nodes.
  assert (d + tag_depth t ≤ max_depth ↔
    d < max_depth ∧ ∀ t', t' ∈ pushes t → d + 1 + tag_depth t' ≤ max_depth) as Hd.
  { pose proof (pushes_depth t (max_depth - d)) as H. split.
    - intros Ht. assert (tag_depth t ≤ max_depth - d) as [? Hall]%H by lia. split; [lia|]. intros t' Ht'. specialize (Hall t' Ht'). lia.
    - intros [? Hall]. assert (tag_depth t ≤ max_depth - d); [|lia]. apply H. split; [lia|].
      intros t' Ht'. specialize (Hall t' Ht'). lia. }
  unfold push at 4. setoid_rewrite elem_of_cons. setoid_rewrite elem_of_app.
  setoid_rewrite list_elem_of_fmap. split.
  - intros [[?|Hc] Hall]; [done|]. pose proof (Hall t d ltac:(by left)) as [Ht Hall']%Hd.
    split_and!; [lia|done|right; lia|]. intros t' d' [(? & [= -> ->] & Hin)|Hin]; [by apply Hall'|].
    apply Hall. by right.
  - intros (Hc & Hlt & Hfit & Hall). split.
    + right. destruct Hfit as [Hfit|Hfit]; [|lia]. rewrite Hfit. simpl. lia.
    + intros t' d' [[= -> ->]|Hin]; [|apply Hall; by right].
      apply Hd. split; [done|]. intros t' Ht'. apply Hall. left. eauto.
Qed.

Lemma type_tag_loop_step fuel t d stack count :
  type_tag_loop (S fuel) config ((t, d) :: stack) count =
    (_ ←? Done (ensure (count + 1 <? max)
            (SizeLimitExceeded "maximum type arguments in a call transaction" max));
     _ ←? Done (ensure (d <? max_depth)
            (SizeLimitExceeded "maximum type argument depth in a call transaction" max_depth));
     type_tag_loop fuel config (push t d stack) (count + 1)).
Proof. unfold push. destruct t as [| | | | | | |[? ? ? ts]| | |]; simpl; by rewrite ?map_rev. Qed.
Lemma type_tag_loop_exact fuel stack count :
  max - count ≤ Z.of_nat fuel → (1 ≤ fuel)%nat →
  ∃ r, type_tag_loop fuel config stack count = Done r ∧
    ∀ c, r = Ok c ↔ stack_fits stack count ∧ c = count + Z.of_nat (tags_nodes stack.*1).
Proof.
  revert stack count. induction fuel as [|fuel IH]; [lia|]. intros [|[t d] stack] count Hf _.
  { exists (Ok count). split; [done|]. intros c. unfold stack_fits. simpl. split.
    - intros [= ->]. split; [|lia]. split; [by left|]. intros ?? H. by apply not_elem_of_nil in H.
    - intros [_ ->]. f_equal. lia. }
  rewrite type_tag_loop_step, <-(push_nodes t d stack). pose proof (stack_fits_step t d stack count) as Hstep.
  case_test (count + 1 <? max) as Hc; simpl.
  2: { eexists. split; [done|]. intros c. split; [done|]. rewrite Hstep. lia. }
  case_test (d <? max_depth) as Hlt; simpl.
  2: { eexists. split; [done|]. intros c. split; [done|]. rewrite Hstep. lia. }
  destruct (IH (push t d stack) (count + 1)) as (r & Hr & Hiff); [lia|lia|].
  exists r. split; [exact (f_equal (λ e, e) Hr)|].
  intros c. rewrite Hiff, Hstep. split; intros [? ->]; (split; [tauto|lia]).
Qed.
End type_tags.

(** ** Packages *)

Abbreviation tags_packages ts := (⋃ (map tag_packages ts)) (only parsing).
Lemma tag_packages_pushes t :
  tag_packages t =
    match t with Tag.Struct (Tag.mkStructTag address _ _ _) => {[address]} | _ => ∅ end
    ∪ tags_packages (pushes t).
Proof.
  destruct t as [| | | | | |t|[a ? ? ts]| | |]; simpl; try set_solver.
  rewrite map_rev. f_equal. generalize (map tag_packages ts). intros l.
  apply set_eq. intros x. rewrite !elem_of_union_list. by setoid_rewrite elem_of_rev.
Qed.
Lemma type_tag_packages_exact fuel stack packages :
  (tags_nodes stack ≤ fuel)%nat →
  type_tag_packages_loop fuel stack packages = Done (packages ∪ tags_packages stack).
Proof.
  revert stack packages. induction fuel as [|fuel IH]; intros [|t stack] packages Hf.
  - simpl. f_equal. set_solver.
  - simpl in Hf. rewrite pushes_nodes in Hf. lia.
  - simpl. f_equal. set_solver.
  - assert (type_tag_packages_loop (S fuel) (t :: stack) packages =
      type_tag_packages_loop fuel (pushes t ++ stack)
        (match t with Tag.Struct (Tag.mkStructTag address _ _ _) => {[address]} | _ => ∅ end ∪ packages))
      as ->.
    { destruct t as [| | | | | | |[]| | |]; simpl; try done; by rewrite (left_id_L ∅ (∪)). }
    simpl in Hf. rewrite pushes_nodes in Hf. rewrite IH by (rewrite sum_list_with_app; lia).
    f_equal. rewrite map_app, union_list_app_L. cbn [map union_list foldr].
    rewrite (tag_packages_pushes t). set_solver.
Qed.
Lemma add_packages_exact packages t :
  add_type_tag_packages packages t = Done (packages ∪ tag_packages t).
Proof.
  unfold add_type_tag_packages. rewrite type_tag_packages_exact by (simpl; lia). f_equal. set_solver.
Qed.

(** The packages a command names. *)
Definition command_packages (c : Command) : gset ObjectID :=
  match c with
  | Upgrade _ deps package _ => list_to_set deps ∪ {[package]}
  | Publish _ deps => list_to_set deps
  | MoveCall c => {[mc_package c]} ∪ tags_packages (mc_type_arguments c)
  | MakeMoveVec (Some t) _ => tag_packages t
  | _ => ∅
  end.
Lemma call_packages_exact ts packages :
  foldM add_type_tag_packages packages ts = Done (packages ∪ tags_packages ts).
Proof.
  revert packages. induction ts as [|t ts IH]; intros packages; simpl.
  - f_equal. set_solver.
  - rewrite add_packages_exact, bind_ret_l, IH. f_equal. set_solver.
Qed.
Lemma command_inputs_exact c :
  ∃ l, command_input_objects c = Done l ∧
    ∀ k, k ∈ l ↔ ∃ id, k = KMovePackage id ∧ id ∈ command_packages c.
Proof.
  assert (∀ (X : gset ObjectID) k, k ∈ map KMovePackage (bset_iter Z.le X) ↔
    ∃ id, k = KMovePackage id ∧ id ∈ X) as Hset.
  { intros X k. rewrite list_elem_of_fmap. by setoid_rewrite elem_of_bset_iter. }
  assert (∀ (l : list ObjectID) k, k ∈ map KMovePackage l ↔
    ∃ id, k = KMovePackage id ∧ id ∈ (list_to_set l : gset ObjectID)) as Hlist.
  { intros l k. rewrite list_elem_of_fmap. by setoid_rewrite elem_of_list_to_set. }
  assert (∀ k, k ∈ @nil InputObjectKind ↔ ∃ id, k = KMovePackage id ∧ id ∈ (∅ : gset ObjectID)) as Hnil.
  { intros k. rewrite elem_of_nil. split; [done|]. intros (id & _ & Hid). set_solver. }
  destruct c as [c|?|?|?|ms deps|[t|] ?|ms deps p ?]; simpl;
    try by (eexists; split; [reflexivity|]; first [apply Hnil|apply Hlist]).
  - unfold call_input_objects. rewrite call_packages_exact. eexists. split; [reflexivity|]. apply Hset.
  - rewrite add_packages_exact. eexists. split; [reflexivity|]. rewrite (left_id_L ∅ (∪)). apply Hset.
  - eexists. split; [reflexivity|]. intros k. rewrite elem_of_app, Hlist, list_elem_of_singleton.
    setoid_rewrite elem_of_union. setoid_rewrite elem_of_singleton. naive_solver.
Qed.

(** * The input objects of a programmable transaction *)

Lemma all_insert_spec used l :
  all_insert used l = true ↔ NoDup l ∧ ∀ x, x ∈ l → x ∉ used.
Proof.
  revert used. induction l as [|x l IH]; intros used; simpl.
  - split; [|done]. intros _. split; [constructor|]. intros x Hx. by apply not_elem_of_nil in Hx.
  - setoid_rewrite elem_of_cons. rewrite NoDup_cons. case_bool_decide as Hx.
    + split; [done|]. intros [_ Hall]. by destruct (Hall x ltac:(by left)).
    + rewrite IH. setoid_rewrite not_elem_of_union. setoid_rewrite not_elem_of_singleton.
      split.
      * intros [Hnd Hall]. split; [split; [|done]|].
        -- intros Hin. by destruct (Hall x Hin).
        -- intros y [->|Hy]; [done|]. by apply Hall.
      * intros [[Hnin Hnd] Hall]. split; [done|]. intros y Hy. split; [by intros ->|].
        apply Hall. by right.
Qed.
Lemma all_insert_fresh l : all_insert ∅ l = bool_decide (NoDup l).
Proof.
  apply eq_bool_prop_intro. rewrite bool_decide_spec, Is_true_true, all_insert_spec.
  set_solver.
Qed.

Definition arg_objects (pt : ProgrammableTransaction) : list InputObjectKind :=
  concat (map arg_input_objects (pt_inputs pt)).
Definition pt_packages (pt : ProgrammableTransaction) : gset ObjectID :=
  ⋃ (map command_packages (pt_commands pt)).

Lemma commands_inputs_exact cs :
  ∃ l, mapM command_input_objects cs = Done l ∧
    ∀ k, k ∈ concat l ↔ ∃ id, k = KMovePackage id ∧ id ∈ ⋃ (map command_packages cs).
Proof.
  induction cs as [|c cs (l & Hl & Hin)].
  - exists []. split; [done|]. intros k. simpl. rewrite elem_of_nil.
    split; [done|]. intros (id & _ & Hid). set_solver.
  - destruct (command_inputs_exact c) as (lc & Hc & Hinc). exists (lc :: l). split.
    + cbn [mapM]. rewrite Hc, bind_ret_l, Hl. done.
    + intros k. simpl. rewrite elem_of_app, Hinc, Hin. setoid_rewrite elem_of_union. naive_solver.
Qed.
Lemma packages_sorted (X : gset ObjectID) : Sorted kind_le (map KMovePackage (bset_iter Z.le X)).
Proof.
  assert (Sorted Z.le (bset_iter Z.le X)) as Hs by apply (Sorted_merge_sort Z.le).
  induction Hs as [|x l Hs IH Hhd]; [constructor|]. constructor; [done|].
  destruct Hhd; constructor. done.
Qed.
Lemma pt_inputs_exact pt :
  pt_input_objects pt =
    Done (if bool_decide (NoDup (map kind_object_id (arg_objects pt)))
          then Ok (arg_objects pt ++ map KMovePackage (bset_iter Z.le (pt_packages pt)))
          else Err DuplicateObjectRefInput).
Proof.
  unfold pt_input_objects. fold (arg_objects pt). rewrite all_insert_fresh.
  destruct (bool_decide _); [|done]. cbn [negb].
  destruct (commands_inputs_exact (pt_commands pt)) as (l & -> & Hin). rewrite bind_ret_l.
  do 3 f_equal. apply bset_iter_unique; [apply _..|apply packages_sorted| |].
  - apply NoDup_fmap_2; [|apply bset_iter_NoDup]. by intros ?? [= ->].
  - intros k. rewrite elem_of_list_to_set, Hin, list_elem_of_fmap.
    by setoid_rewrite elem_of_bset_iter.
Qed.

(** * Validity *)

Section validity.
Context (config : ProtocolConfig).

Definition types_valid (tags : list Tag.TypeTag) : Prop :=
  (tags = [] ∨ Z.of_nat (tags_nodes tags) < pc_max_type_arguments config) ∧
  ∀ t, t ∈ tags → tag_depth t < pc_max_type_argument_depth config.
Definition arguments_valid (args : list Argument) : Prop :=
  Z.of_nat (length args) < pc_max_arguments config.
Definition command_valid (c : Command) : Prop :=
  match c with
  | MoveCall c => types_valid (mc_type_arguments c) ∧ arguments_valid (mc_arguments c)
  | TransferObjects args _ | MergeCoins _ args | SplitCoins _ args => args ≠ [] ∧ arguments_valid args
  | MakeMoveVec ty args =>
      (is_Some ty ∨ args ≠ []) ∧ types_valid (option_list ty) ∧ arguments_valid args
  | Publish modules _ | Upgrade modules _ _ _ =>
      modules ≠ [] ∧ Z.of_nat (length modules) < pc_max_modules_in_publish config
  end.
Record pt_valid (pt : ProgrammableTransaction) : Prop := {
  pv_commands : Z.of_nat (length (pt_commands pt)) < pc_max_programmable_tx_commands config;
  pv_unique : NoDup (map kind_object_id (arg_objects pt));
  pv_inputs : Z.of_nat (length (arg_objects pt) + size (pt_packages pt) +
                length (pt_receiving_objects pt)) ≤ pc_max_input_objects config;
  pv_pure : ∀ b, Pure b ∈ pt_inputs pt → Z.of_nat (length b) < pc_max_pure_argument_size config;
  pv_publish : ∀ m, pc_max_publish_or_upgrade_per_ptb config = Some m →
    Z.of_nat (length (filter (λ c, is_publish_or_upgrade c = true) (pt_commands pt))) ≤ m;
  pv_each : ∀ c, c ∈ pt_commands pt → command_valid c;
}.

Lemma type_tag_exact t count :
  -1 ≤ count →
  ∃ r, type_tag_validity_check t config count = Done r ∧
    ∀ c, r = Ok c ↔ c = count + Z.of_nat (tag_nodes t) ∧ c < pc_max_type_arguments config ∧
      tag_depth t < pc_max_type_argument_depth config.
Proof.
  intros Hc. unfold type_tag_validity_check.
  destruct (type_tag_loop_exact config (S (Z.to_nat (pc_max_type_arguments config))) [(t, 1)] count)
    as (r & Hr & Hiff); [lia|lia|].
  exists r. split; [done|]. intros c. rewrite Hiff. unfold stack_fits. simpl.
  setoid_rewrite list_elem_of_singleton. split.
  - intros [[[?|?] Hd] ->]; [done|]. specialize (Hd t 1 eq_refl). split_and!; lia.
  - intros (-> & ? & ?). split; [|lia]. split; [right; lia|]. intros ? ? [= -> ->]. lia.
Qed.
Lemma type_arguments_exact tags count :
  -1 ≤ count →
  ∃ r, type_arguments_check config count tags = Done r ∧
    ∀ c, r = Ok c ↔ c = count + Z.of_nat (tags_nodes tags) ∧
      (tags = [] ∨ c < pc_max_type_arguments config) ∧
      ∀ t, t ∈ tags → tag_depth t < pc_max_type_argument_depth config.
Proof.
  revert count. induction tags as [|t tags IH]; intros count Hc; simpl.
  - exists (Ok count). split; [done|]. intros c. split.
    + intros [= ->]. split_and!; [lia|by left|]. intros t Ht. by apply not_elem_of_nil in Ht.
    + intros (-> & _). f_equal. lia.
  - destruct (type_tag_exact t count Hc) as (r & -> & Hr). unfold try_exec. rewrite bind_ret_l.
    setoid_rewrite elem_of_cons. destruct r as [c1|e].
    + destruct (proj1 (Hr c1) eq_refl) as (-> & Hlt & Hd).
      destruct (IH (count + Z.of_nat (tag_nodes t))) as (r & -> & Hr'); [lia|].
      exists r. split; [done|]. intros c. rewrite Hr'. split.
      * intros (-> & Hs & Hall). split_and!; [lia| |naive_solver].
        right. destruct Hs as [->|]; simpl; lia.
      * intros (-> & [?|?] & Hall); [done|]. split_and!; [lia|right; lia|]. auto.
    + exists (Err e). split; [done|]. intros c. split; [done|]. intros (-> & [?|Hlt] & Hall); [done|].
      exfalso. assert (Err e = Ok (count + Z.of_nat (tag_nodes t)) :> result Z UserInputError) as [=].
      apply Hr. split_and!; [done|lia|auto].
Qed.

Lemma types_decided tags :
  decides (type_arguments_check config 0 tags) (types_valid tags).
Proof.
  destruct (type_arguments_exact tags 0) as (r & Hr & Hiff); [lia|]. exists r. split; [done|].
  unfold types_valid. destruct r as [c|e]; simpl.
  - destruct (proj1 (Hiff c) eq_refl) as (-> & Hs & Hd). done.
  - split; [done|]. intros [Hs Hd].
    by pose proof (proj2 (Hiff (Z.of_nat (tags_nodes tags))) (conj eq_refl (conj Hs Hd))).
Qed.
Lemma arguments_decided what args :
  decides (Done (arguments_limit what config args)) (arguments_valid args).
Proof. apply decides_ensure, Z.ltb_lt. Qed.
Lemma nonempty_decided {A E : Type} (l : list A) (e : E) :
  decides (Done (ensure (negb (bool_decide (l = []))) e)) (l ≠ []).
Proof. apply decides_ensure. rewrite negb_true_iff. apply bool_decide_eq_false. Qed.

Lemma command_decided c : decides (command_validity_check config c) (command_valid c).
Proof.
  destruct c as [c|args a|a args|a args|ms deps|ty args|ms deps p a]; simpl.
  - unfold call_validity_check. rewrite bool_decide_eq_false_2 by apply not_elem_of_nil.
    change (decides ?m) with (decides m). cbn [negb ensure]. unfold try_exec at 1. rewrite bind_ret_l.
    apply decides_try; [apply types_decided|]. intros _ _. apply arguments_decided.
  - apply decides_try; [apply nonempty_decided|]. intros _ _. apply arguments_decided.
  - apply decides_try; [apply nonempty_decided|]. intros _ _. apply arguments_decided.
  - apply decides_try; [apply nonempty_decided|]. intros _ _. apply arguments_decided.
  - apply decides_try; [apply nonempty_decided|]. intros _ _. apply decides_ensure, Z.ltb_lt.
  - apply decides_try.
    { apply decides_ensure. rewrite orb_true_iff, negb_true_iff, bool_decide_eq_true.
      by rewrite bool_decide_eq_false. }
    intros _ _. apply decides_try; [|intros _ _; apply arguments_decided].
    destruct ty as [t|]; simpl.
    + pose proof (types_decided [t]) as (r & Hr & Hiff). simpl in Hr.
      destruct (type_tag_exact t 0) as (r' & Hr' & _); [lia|]. rewrite Hr' in *.
      exists r'. split; [done|]. rewrite <-Hiff. unfold try_exec in Hr. rewrite bind_ret_l in Hr.
      destruct r'; by simplify_eq.
    + apply decides_accept. split; [by left|]. intros t Ht. by apply not_elem_of_nil in Ht.
  - apply decides_try; [apply nonempty_decided|]. intros _ _. apply decides_ensure, Z.ltb_lt.
Qed.

Lemma pt_decided pt : decides (pt_validity_check config pt) (pt_valid pt).
Proof.
  assert (pt_valid pt ↔
    Z.of_nat (length (pt_commands pt)) < pc_max_programmable_tx_commands config ∧
    NoDup (map kind_object_id (arg_objects pt)) ∧
    Z.of_nat (length (arg_objects pt) + size (pt_packages pt) + length (pt_receiving_objects pt))
      ≤ pc_max_input_objects config ∧
    (∀ arg, arg ∈ pt_inputs pt → match arg with
       | Pure b => Z.of_nat (length b) < pc_max_pure_argument_size config | _ => True end) ∧
    (∀ m, pc_max_publish_or_upgrade_per_ptb config = Some m →
      Z.of_nat (length (filter (λ c, is_publish_or_upgrade c = true) (pt_commands pt))) ≤ m) ∧
    (∀ c, c ∈ pt_commands pt → command_valid c)) as ->.
  { split.
    - intros [? ? ? Hpure ? ?]. split_and!; try done. intros [b|] Hb; [by apply Hpure|done].
    - intros (? & ? & ? & Hpure & ? & ?). split; try done. intros b Hb. by apply (Hpure (Pure b)). }
  unfold pt_validity_check. apply decides_try; [apply decides_ensure, Z.ltb_lt|]. intros _ _.
  rewrite pt_inputs_exact. case_bool_decide as Hnd; [|apply decides_reject; tauto].
  apply decides_try; [by apply decides_accept|]. intros inputs [= <-].
  apply decides_try.
  { apply decides_ensure. rewrite Z.leb_le, length_app, length_map. unfold bset_iter.
    rewrite (Permutation_length (merge_sort_Permutation _ _)). done. }
  intros _ _. apply decides_try.
  { apply decides_pure_for_each. intros [b|] _; [|done]. simpl. unfold ensure.
    rewrite <-Z.ltb_lt. by destruct (_ <? _). }
  intros _ _. apply decides_try; [|intros _ _; apply decides_for_each; intros; apply command_decided].
  unfold publish_count_check. destruct (pc_max_publish_or_upgrade_per_ptb config) as [m|].
  - apply decides_ensure. rewrite Z.leb_le. naive_solver.
  - by apply decides_accept.
Qed.
End validity.

Lemma end_of_epoch_decided config txns :
  try_for_each (end_of_epoch_version_supported config) txns = Ok () →
  try_for_eachM (end_of_epoch_validity_check config) txns = Done (Ok ()).
Proof.
  rewrite try_for_each_Ok. induction txns as [|tx txns IH]; intros Hall; [done|]. simpl.
  rewrite IH by (intros; apply Hall; by right). specialize (Hall tx ltac:(left)).
  destruct tx; simpl in *; autorewrite with mango_rw in Hall; by rewrite ?Hall.
Qed.
Lemma kind_decided config k :
  kind_version_supported config k = Ok () →
  decides (kind_validity_check config k) (∀ pt, k = TkProgrammableTransaction pt → pt_valid config pt).
Proof.
  intros Hv. destruct k as [pt| | | | |txns| |]; simpl in *; try by apply decides_accept.
  - eapply decides_iff; [|apply pt_decided]. naive_solver.
  - rewrite ensure_Ok in Hv. rewrite Hv. by apply decides_accept.
  - destruct (pc_end_of_epoch_transaction_supported config); [|done]. simpl in *.
    rewrite end_of_epoch_decided by done. by apply decides_accept.
  - rewrite ensure_Ok in Hv. rewrite Hv. by apply decides_accept.
Qed.

Record tx_valid (config : ProtocolConfig) (d : TransactionData) : Prop := {
  tv_gas : tx_gas d ≠ [];
  tv_payment : Z.of_nat (length (tx_gas d)) < pc_max_gas_payment_objects config;
  tv_kind : ∀ pt, tx_kind d = TkProgrammableTransaction pt → pt_valid config pt;
  tv_sponsor : tx_gas_owner d ≠ tx_sender d → is_system_tx (tx_kind d) = false;
}.

Lemma no_gas_check_decided config d :
  check_version_supported config d = Ok () →
  decides (validity_check_no_gas_check config d)
    ((∀ pt, tx_kind d = TkProgrammableTransaction pt → pt_valid config pt) ∧
     (tx_gas_owner d ≠ tx_sender d → is_system_tx (tx_kind d) = false)).
Proof.
  intros (? & _ & Hv)%and_then_Ok. apply decides_try; [by apply kind_decided|]. intros _ _.
  eexists. split; [done|]. unfold check_sponsorship.
  case_test (tx_gas_owner d =? tx_sender d) as Ho; [done|].
  destruct (tx_kind d); simpl; naive_solver.
Qed.
Lemma validity_decided config d :
  check_version_supported config d = Ok () → decides (tx_validity_check config d) (tx_valid config d).
Proof.
  intros Hv. assert (tx_valid config d ↔
    tx_gas d ≠ [] ∧ Z.of_nat (length (tx_gas d)) < pc_max_gas_payment_objects config ∧
    (∀ pt, tx_kind d = TkProgrammableTransaction pt → pt_valid config pt) ∧
    (tx_gas_owner d ≠ tx_sender d → is_system_tx (tx_kind d) = false)) as ->.
  { split; [by intros []|]. intros (? & ? & ? & ?). by split. }
  apply decides_try; [apply nonempty_decided|]. intros _ _.
  apply decides_try; [apply decides_ensure, Z.ltb_lt|]. intros _ _.
  by apply no_gas_check_decided.
Qed.


(** * Shared inputs *)

Definition as_shared_input (k : InputObjectKind) : option SharedInputObject :=
  match k with
  | KSharedMoveObject id v m =>
      Some {| sio_id := id; sio_initial_shared_version := v; sio_mutable := m |}
  | _ => None
  end.
Lemma args_shared args :
  omap as_shared_input (concat (map arg_input_objects args)) =
  pt_shared_input_objects {| pt_inputs := args; pt_commands := [] |}.
Proof.
  unfold pt_shared_input_objects. simpl. induction args as [|arg args IH]; [done|]. simpl.
  rewrite omap_app, IH. by destruct arg as [|[]].
Qed.
Lemma packages_not_shared (l : list ObjectID) : omap as_shared_input (map KMovePackage l) = [].
Proof. by induction l. Qed.

Lemma kind_shared_agree k inputs :
  kind_input_objects k = Done (Ok inputs) →
  omap as_shared_input inputs = kind_shared_input_objects k.
Proof.
  destruct k as [pt| | | | |txns| |]; simpl; try (intros [= <-]; done).
  - rewrite pt_inputs_exact. case_bool_decide; [|done]. intros [= <-].
    rewrite omap_app, packages_not_shared, app_nil_r. apply args_shared.
  - destruct (all_insert _ _); [|done]. intros [= <-]. clear.
    induction txns as [|tx txns IH]; [done|]. simpl. rewrite omap_app, IH. by destruct tx.
Qed.

(** The shared objects a transaction is sequenced on are the shared objects it
    takes as input: the list the consensus handler assigns versions to
    ([shared_input_objects]) is, in the same order and with the same mutability,
    what [input_objects] returns apart from owned objects, packages and gas. *)
Theorem shared_inputs_agree (d : TransactionData) (inputs : list InputObjectKind) :
  tx_input_objects d = Done (Ok inputs) →
  omap as_shared_input inputs = kind_shared_input_objects (tx_kind d).
Proof.
  unfold tx_input_objects. rewrite try_exec_Ok. intros (l & Hl & [= <-]).
  apply kind_shared_agree in Hl as <-. destruct (negb _); [|done].
  rewrite omap_app. assert (∀ rs, omap as_shared_input (map KImmOrOwnedMoveObject rs) = []) as ->.
  { clear. intros rs. by induction rs. }
  by rewrite app_nil_r.
Qed.
