(* ===== verification/TransactionChecks.v ===== *)
(** The checks on a transaction and its inputs before it is signed and before it
    is executed: [mgo-transaction-checks/src/lib.rs], compiled with checked
    arithmetic.  The bytecode verifier that is run on packages to be published
    is the class [ModuleVerifier]. *)
From S2P Require Import Prelude Objects Errors MgoGas.
From S2P Require Import TransactionData.

Open Scope string_scope.
Open Scope list_scope.
Open Scope Z_scope.

(** The verifier shares one meter among the packages of a transaction. *)
Class ModuleVerifier := {
  verifier_state : Type;
  verifier_new : ProtocolConfig → verifier_state;
  meter_module_bytes : verifier_state → list (list Z) → verifier_state * result unit string;
}.

Section checks.
Context {Hhash : ObjectHash}.

(** * One object *)

Definition check_owner (owner_address : MgoAddress) (object_id : ObjectID) (object : Object)
    : exec (result unit UserInputError) :=
  match owner object with
  | Immutable => Done (Ok ())
  | AddressOwner actual_owner =>
      Done (ensure (owner_address =? actual_owner)
        (IncorrectUserSignature object_id actual_owner owner_address))
  | ObjectOwner parent =>
      child_id ← Objects.object_id object;
      Done (Err (InvalidChildObjectArgument child_id parent))
  | Shared _ => Done (Err NotSharedObjectError)
  end.
Definition system_only (system_transaction : bool) (e : UserInputError) : exec (result unit UserInputError) :=
  if system_transaction then Done (Ok ()) else Done (Err e).
Definition check_one_object (owner_address : MgoAddress) (object_kind : InputObjectKind) (object : Object)
    (system_transaction : bool) : exec (result unit UserInputError) :=
  match object_kind with
  | KMovePackage package_id => Done (ensure (is_package object) (MoveObjectAsPackage package_id))
  | KImmOrOwnedMoveObject (id, sequence_number, digest) =>
      _ ←? Done (ensure (negb (is_package object)) (MovePackageAsObject id));
      _ ←? Done (ensure (sequence_number <? SEQUENCE_NUMBER_MAX) InvalidSequenceNumber);
      _ ← assert (object_version object =? sequence_number);
      let expected_digest := object_digest object in
      _ ←? Done (ensure (expected_digest =? digest) (InvalidObjectDigest id expected_digest));
      check_owner owner_address id object
  | KSharedMoveObject id input_initial_shared_version mutable =>
      if (id =? MGO_CLOCK_OBJECT_ID) &&
         (input_initial_shared_version =? MGO_CLOCK_OBJECT_SHARED_VERSION) && mutable then
        system_only system_transaction (ImmutableParameterExpectedError MGO_CLOCK_OBJECT_ID)
      else if id =? MGO_AUTHENTICATOR_STATE_OBJECT_ID then
        system_only system_transaction (InaccessibleSystemObject MGO_AUTHENTICATOR_STATE_OBJECT_ID)
      else if (id =? MGO_RANDOMNESS_STATE_OBJECT_ID) && mutable then
        system_only system_transaction (ImmutableParameterExpectedError MGO_RANDOMNESS_STATE_OBJECT_ID)
      else
        _ ←? Done (ensure (object_version object <? SEQUENCE_NUMBER_MAX) InvalidSequenceNumber);
        match owner object with
        | AddressOwner _ | ObjectOwner _ | Immutable => Done (Err NotSharedObjectError)
        | Shared actual_initial_shared_version =>
            Done (ensure (input_initial_shared_version =? actual_initial_shared_version)
                    SharedObjectStartingVersionMismatch)
        end
  end.

(** * All objects *)

(** Mutable objects are used once. *)
Fixpoint mutable_used_once (used_objects : gset Z) (objects : list ObjectReadResult)
    : exec (result unit UserInputError) :=
  match objects with
  | [] => Done (Ok ())
  | object :: objects =>
      is_mutable ← read_is_mutable object;
      if is_mutable : bool then
        if bool_decide (read_id object ∈ used_objects) then
          Done (Err (MutableObjectUsedMoreThanOnce (read_id object)))
        else mutable_used_once ({[read_id object]} ∪ used_objects) objects
      else mutable_used_once used_objects objects
  end.
Definition check_objects (transaction : TransactionData) (objects : list ObjectReadResult)
    : exec (result unit UserInputError) :=
  _ ←? mutable_used_once ∅ objects;
  if negb (is_genesis_tx transaction) && bool_decide (objects = []) then
    Done (Err ObjectInputArityViolation)
  else
    let gas_coins : gset ObjectID := list_to_set (map (λ r : ObjectRef, r.1.1) (tx_gas transaction)) in
    try_for_eachM (λ object,
      match read_object_kind object with
      | ReadObject obj =>
          id ← object_id obj;
          let owner_address :=
            if bool_decide (id ∈ gas_coins) then tx_gas_owner transaction else tx_sender transaction in
          check_one_object owner_address (input_object_kind object) obj
            (is_system_tx (tx_kind transaction))
      | DeletedSharedObject _ _ => Done (Ok ())
      end) objects.

(** * Gas *)

Fixpoint load_gas_objects (objects : gmap ObjectID ObjectReadResult) (gas : list ObjectRef)
    : result (list ObjectReadResult) UserInputError :=
  match gas with
  | [] => Ok []
  | obj_ref :: gas =>
      match objects !! obj_ref.1.1 with
      | None => Err (ObjectNotFound obj_ref.1.1 (Some obj_ref.1.2))
      | Some obj => l ←! load_gas_objects objects gas; Ok (obj :: l)
      end
  end.
Definition check_gas (objects : list ObjectReadResult) (protocol_config : ProtocolConfig)
    (reference_gas_price : Z) (gas : list ObjectRef) (gas_budget gas_price : Z)
    (kind : TransactionKind) : exec (result V2.MgoGasStatus MgoError) :=
  if is_system_tx kind then s ← V2.new_unmetered; Done (Ok s)
  else
    gas_status ←? (into_mgo <$> V2.new gas_budget gas_price reference_gas_price protocol_config);
    let objects : gmap ObjectID ObjectReadResult :=
      btree_collect (map (λ o, (read_id o, o)) objects) in
    gas_objects ←? Done (into_mgo (load_gas_objects objects gas));
    _ ←? (into_mgo <$> V2.check_gas_balance gas_status gas_objects gas_budget);
    Done (Ok gas_status).
Definition get_gas_status (objects : list ObjectReadResult) (gas : list ObjectRef)
    (protocol_config : ProtocolConfig) (reference_gas_price : Z) (transaction : TransactionData)
    : exec (result V2.MgoGasStatus MgoError) :=
  check_gas objects protocol_config reference_gas_price gas (gd_budget (gas_data transaction))
    (gd_price (gas_data transaction)) (tx_kind transaction).

(** * Receiving objects *)

(** The error for an object that is not the address-owned one referred to. *)
Definition receiving_error (object_id : ObjectID) (version : SequenceNumber) (digest : ObjectDigest)
    (object : Object) : exec (result unit MgoError) :=
  _ ←? Done (ensure (object_version object =? version)
         (UserInput (ObjectVersionUnavailableForConsumption (object_id, version, digest)
            (object_version object))));
  _ ←? Done (ensure (negb (is_package object)) (UserInput (MovePackageAsObject object_id)));
  let expected_digest := object_digest object in
  _ ←? Done (ensure (expected_digest =? digest)
         (UserInput (InvalidObjectDigest object_id expected_digest)));
  match owner object with
  | AddressOwner _ => Done (Err (UserInput (ObjectNotFound object_id (Some version))))
  | ObjectOwner parent =>
      child_id ← Objects.object_id object;
      Done (Err (UserInput (InvalidChildObjectArgument child_id parent)))
  | Shared _ => Done (Err (UserInput NotSharedObjectError))
  | Immutable => Done (Err (UserInput (MutableParameterExpected object_id)))
  end.
Fixpoint check_receiving_loop (objects_in_txn : gset ObjectID)
    (receiving_objects : list ReceivingObjectReadResult) : exec (result unit MgoError) :=
  match receiving_objects with
  | [] => Done (Ok ())
  | r :: receiving_objects =>
      let '(object_id, version, digest) := rr_object_ref r in
      _ ←? Done (ensure (version <? SEQUENCE_NUMBER_MAX) (UserInput InvalidSequenceNumber));
      match receiving_as_object (rr_object r) with
      | None => check_receiving_loop objects_in_txn receiving_objects
      | Some object =>
          _ ←? (if is_address_owned object && (object_version object =? version) &&
                   (object_digest object =? digest)
                then Done (Ok ()) else receiving_error object_id version digest object);
          _ ←? Done (ensure (negb (bool_decide (object_id ∈ objects_in_txn)))
                 (UserInput DuplicateObjectRefInput));
          check_receiving_loop ({[object_id]} ∪ objects_in_txn) receiving_objects
      end
  end.
Definition check_receiving_objects (input_objects : list ObjectReadResult)
    (receiving_objects : list ReceivingObjectReadResult) : exec (result unit MgoError) :=
  check_receiving_loop (list_to_set (map read_id input_objects)) receiving_objects.

(** * Entry points *)

Definition check_transaction_input_inner (protocol_config : ProtocolConfig) (reference_gas_price : Z)
    (transaction : TransactionData) (input_objects : list ObjectReadResult)
    (gas_override : list ObjectRef) : exec (result V2.MgoGasStatus MgoError) :=
  _ ←? Done (check_version_supported protocol_config transaction);
  gas ←? match gas_override with
         | [] =>
             _ ←? (into_mgo <$> tx_validity_check protocol_config transaction);
             Done (Ok (tx_gas transaction))
         | _ :: _ =>
             _ ←? (into_mgo <$> validity_check_no_gas_check protocol_config transaction);
             Done (Ok gas_override)
         end;
  gas_status ←? get_gas_status input_objects gas protocol_config reference_gas_price transaction;
  _ ←? (into_mgo <$> check_objects transaction input_objects);
  Done (Ok gas_status).

Fixpoint meter_packages {Hver : ModuleVerifier} (v : verifier_state) (packages : list (list (list Z)))
    : result unit UserInputError :=
  match packages with
  | [] => Ok ()
  | module_bytes :: packages =>
      let '(v, r) := meter_module_bytes v module_bytes in
      match r with
      | Ok _ => meter_packages v packages
      | Err err => Err (PackageVerificationTimedout err)
      end
  end.
Definition check_non_system_packages_to_be_published {Hver : ModuleVerifier}
    (transaction : TransactionData) (protocol_config : ProtocolConfig) : result unit UserInputError :=
  if is_system_tx (tx_kind transaction) then Ok ()
  else match tx_kind transaction with
       | TkProgrammableTransaction pt =>
           meter_packages (verifier_new protocol_config) (pt_packages_to_be_published pt)
       | _ => Ok ()
       end.

Definition check_transaction_input {Hver : ModuleVerifier} (protocol_config : ProtocolConfig)
    (reference_gas_price : Z) (transaction : TransactionData) (input_objects : list ObjectReadResult)
    (receiving_objects : list ReceivingObjectReadResult)
    : exec (result (V2.MgoGasStatus * list ObjectReadResult) MgoError) :=
  gas_status ←? check_transaction_input_inner protocol_config reference_gas_price transaction
                  input_objects [];
  _ ←? check_receiving_objects input_objects receiving_objects;
  _ ←? Done (into_mgo (check_non_system_packages_to_be_published transaction protocol_config));
  Done (Ok (gas_status, input_objects)).
Definition check_transaction_input_with_given_gas {Hver : ModuleVerifier}
    (protocol_config : ProtocolConfig) (reference_gas_price : Z) (transaction : TransactionData)
    (input_objects : list ObjectReadResult) (receiving_objects : list ReceivingObjectReadResult)
    (gas_object : Object) : exec (result (V2.MgoGasStatus * list ObjectReadResult) MgoError) :=
  gas_object_ref ← compute_object_reference gas_object;
  gas_input ← new_from_gas_object gas_object;
  let input_objects := input_objects ++ [gas_input] in
  gas_status ←? check_transaction_input_inner protocol_config reference_gas_price transaction
                  input_objects [gas_object_ref];
  _ ←? check_receiving_objects input_objects receiving_objects;
  _ ←? Done (into_mgo (check_non_system_packages_to_be_published transaction protocol_config));
  Done (Ok (gas_status, input_objects)).
Definition check_certificate_input (transaction : TransactionData)
    (input_objects : list ObjectReadResult) (protocol_config : ProtocolConfig)
    (reference_gas_price : Z) : exec (result (V2.MgoGasStatus * list ObjectReadResult) MgoError) :=
  gas_status ←? check_transaction_input_inner protocol_config reference_gas_price transaction
                  input_objects [];
  Done (Ok (gas_status, input_objects)).

Fixpoint dev_inspect_used_once (used_objects : gset Z) (objects : list ObjectReadResult)
    : exec (result unit MgoError) :=
  match objects with
  | [] => Done (Ok ())
  | input_object :: objects =>
      match as_object input_object with
      | None => dev_inspect_used_once used_objects objects
      | Some object =>
          if negb (is_immutable object) then
            id ← object_id object;
            if bool_decide (id ∈ used_objects) then
              Done (Err (UserInput (MutableObjectUsedMoreThanOnce id)))
            else dev_inspect_used_once ({[id]} ∪ used_objects) objects
          else dev_inspect_used_once used_objects objects
      end
  end.
Definition check_dev_inspect_input (config : ProtocolConfig) (kind : TransactionKind)
    (input_objects : list ObjectReadResult) : exec (result (list ObjectReadResult) MgoError) :=
  _ ←? (into_mgo <$> kind_validity_check config kind);
  if is_system_tx kind then Done (Err (UserInput (Unsupported "system transaction in dev-inspect")))
  else
    _ ←? dev_inspect_used_once ∅ input_objects;
    Done (Ok input_objects).
End checks.
