(* ===== verification/CheckedInputs.v ===== *)
(** What the input checks of [TransactionChecks] decide: for objects read at
    the versions asked for they never panic, and accept exactly the inputs the
    sender (or, for gas coins, the gas owner) may use; and what a transaction
    that passed them can rely on. *)
From S2P Require Import Prelude MapSums Objects Errors.
From S2P Require Import MgoGas TransactionData TransactionValidity TransactionChecks.

(** * One object *)

(** An object read for an input: it has the identifier asked for and, for an
    owned object, the version; only a shared object can be found deleted. *)
Definition read_ok (r : ObjectReadResult) : Prop :=
  match input_object_kind r, read_object_kind r with
  | KImmOrOwnedMoveObject k, ReadObject o => object_id o = Done k.1.1 ∧ object_version o = k.1.2
  | k, ReadObject o => object_id o = Done (kind_object_id k)
  | KSharedMoveObject _ _ _, DeletedSharedObject _ _ => True
  | _, DeletedSharedObject _ _ => False
  end.
(** Shared objects only system transactions may use in this way. *)
Definition system_input (id : ObjectID) (initial_shared_version : SequenceNumber) (mutable : bool) : bool :=
  (id =? MGO_AUTHENTICATOR_STATE_OBJECT_ID) ||
  (mutable && (((id =? MGO_CLOCK_OBJECT_ID) &&
                (initial_shared_version =? MGO_CLOCK_OBJECT_SHARED_VERSION)) ||
               (id =? MGO_RANDOMNESS_STATE_OBJECT_ID))).

Section decided.
Context {Hhash : ObjectHash}.

(** What may be used as an input of the given kind by [user]. *)
Definition acceptable (user : MgoAddress) (k : InputObjectKind) (o : Object) (system : bool) : Prop :=
  match k with
  | KMovePackage _ => is_package o = true
  | KImmOrOwnedMoveObject (id, version, digest) =>
      is_package o = false ∧ version < SEQUENCE_NUMBER_MAX ∧ object_digest o = digest ∧
      (owner o = Immutable ∨ owner o = AddressOwner user)
  | KSharedMoveObject id initial_shared_version mutable =>
      if system_input id initial_shared_version mutable then system = true
      else object_version o < SEQUENCE_NUMBER_MAX ∧ owner o = Shared initial_shared_version
  end.

Lemma owner_decided user id o i :
  object_id o = Done i →
  decides (check_owner user id o) (owner o = Immutable ∨ owner o = AddressOwner user).
Proof.
  intros Hid. unfold check_owner. destruct (owner o) as [a|a|v|].
  - apply decides_ensure. rewrite Z.eqb_eq. naive_solver.
  - rewrite Hid. simpl. apply decides_reject. naive_solver.
  - apply decides_reject. naive_solver.
  - apply decides_accept. by left.
Qed.
Lemma system_decided system e : decides (system_only system e) (system = true).
Proof. destruct system; [by apply decides_accept|by apply decides_reject]. Qed.
Lemma shared_decided user id v m o system :
  decides (check_one_object user (KSharedMoveObject id v m) o system)
    (acceptable user (KSharedMoveObject id v m) o system).
Proof.
  simpl. unfold system_input. destruct (id =? MGO_CLOCK_OBJECT_ID) eqn:Hc, m; simpl.
  1: destruct (v =? MGO_CLOCK_OBJECT_SHARED_VERSION); simpl.
  1: rewrite !orb_true_r; apply system_decided.
  all: rewrite ?andb_false_r; destruct (id =? MGO_AUTHENTICATOR_STATE_OBJECT_ID); simpl; [apply system_decided|].
  all: destruct (id =? MGO_RANDOMNESS_STATE_OBJECT_ID); simpl; try apply system_decided.
  all: apply decides_try; [apply decides_ensure, Z.ltb_lt|]; intros _ _.
  all: destruct (owner o); try (apply decides_reject; naive_solver).
  all: apply decides_ensure; rewrite Z.eqb_eq; naive_solver.
Qed.
Lemma one_object_decided user k o system :
  read_ok {| input_object_kind := k; read_object_kind := ReadObject o |} →
  decides (check_one_object user k o system) (acceptable user k o system).
Proof.
  destruct k as [id|[[id v] dg]|id v m]; intros Hr; [| |apply shared_decided]; simpl.
  - by apply decides_ensure.
  - destruct Hr as [Hid Hv]. simpl in Hid, Hv.
    apply decides_try; [apply decides_ensure, negb_true_iff|]. intros _ _.
    apply decides_try; [apply decides_ensure, Z.ltb_lt|]. intros _ _.
    rewrite Hv, Z.eqb_refl. simpl. apply decides_try; [apply decides_ensure, Z.eqb_eq|].
    intros _ _. by eapply owner_decided.
Qed.

(** * All objects *)

Definition read_mutable (r : ObjectReadResult) : bool :=
  match input_object_kind r, read_object_kind r with
  | KImmOrOwnedMoveObject _, ReadObject object => negb (is_immutable object)
  | KSharedMoveObject _ _ mutable, _ => mutable
  | _, _ => false
  end.
Definition mutable_ids (objects : list ObjectReadResult) : list ObjectID :=
  map read_id (filter (λ r, read_mutable r = true) objects).
Definition tx_user (d : TransactionData) (id : ObjectID) : MgoAddress :=
  if bool_decide (id ∈ map (λ r : ObjectRef, r.1.1) (tx_gas d)) then tx_gas_owner d else tx_sender d.

Record objects_acceptable (d : TransactionData) (objects : list ObjectReadResult) : Prop := {
  oa_once : NoDup (mutable_ids objects);
  oa_some : is_genesis_tx d = true ∨ objects ≠ [];
  oa_each : ∀ r o, r ∈ objects → read_object_kind r = ReadObject o →
    acceptable (tx_user d (read_id r)) (input_object_kind r) o (is_system_tx (tx_kind d));
}.

Lemma read_mutable_ok r : read_ok r → read_is_mutable r = Done (read_mutable r).
Proof. unfold read_ok, read_is_mutable, read_mutable. by destruct r as [[] []]. Qed.
Lemma read_ok_id r o : read_ok r → read_object_kind r = ReadObject o → object_id o = Done (read_id r).
Proof. unfold read_ok, read_id. destruct r as [[] []]; simpl; naive_solver. Qed.

Lemma used_once_decided used objects :
  Forall read_ok objects →
  decides (mutable_used_once used objects)
    (NoDup (mutable_ids objects) ∧ ∀ id, id ∈ mutable_ids objects → id ∉ used).
Proof.
  intros Hall. revert used. unfold mutable_ids.
  induction Hall as [|r objects Hr Hall IH]; intros used; simpl.
  { apply decides_accept. split; [constructor|]. intros id Hid. by apply not_elem_of_nil in Hid. }
  rewrite read_mutable_ok, bind_ret_l, filter_cons by done.
  destruct (read_mutable r) eqn:Hm; simpl; [|apply IH].
  rewrite NoDup_cons. setoid_rewrite elem_of_cons. case_bool_decide as Hin.
  - apply decides_reject. intros [_ Hd]. by destruct (Hd (read_id r) ltac:(by left)).
  - eapply decides_iff; [|apply IH]. setoid_rewrite not_elem_of_union.
    setoid_rewrite not_elem_of_singleton. split.
    + intros [Hnd Hd]. split; [split; [|done]|].
      * intros Hid. by destruct (Hd _ Hid).
      * intros id [->|Hid]; [done|]. by apply Hd.
    + intros [[Hnin Hnd] Hd]. split; [done|]. intros id Hid. split; [by intros ->|]. auto.
Qed.

Lemma objects_decided d objects :
  Forall read_ok objects → decides (check_objects d objects) (objects_acceptable d objects).
Proof.
  intros Hall. assert (objects_acceptable d objects ↔
    (NoDup (mutable_ids objects) ∧ ∀ id, id ∈ mutable_ids objects → id ∉ (∅ : gset Z)) ∧
    (is_genesis_tx d = true ∨ objects ≠ []) ∧
    ∀ r, r ∈ objects → ∀ o, read_object_kind r = ReadObject o →
      acceptable (tx_user d (read_id r)) (input_object_kind r) o (is_system_tx (tx_kind d))) as ->.
  { split; [intros []|intros ([? ?] & ? & ?)]; repeat split; eauto. set_solver. }
  apply decides_try; [by apply used_once_decided|]. intros _ _.
  destruct (negb (is_genesis_tx d) && bool_decide (objects = [])) eqn:Hempty.
  { apply decides_reject. intros [[Hs|Hs] _]; bool_prop; congruence. }
  assert (is_genesis_tx d = true ∨ objects ≠ []) as Hsome.
  { apply andb_false_iff in Hempty as [?|?]; bool_prop; auto. }
  eapply decides_iff; [split; [intros H; split; [exact Hsome|exact H]|by intros [_ ?]]|].
  apply decides_for_each.
  intros r Hr. rewrite Forall_forall in Hall. specialize (Hall r Hr).
  destruct (read_object_kind r) as [o|] eqn:Ho; [|by apply decides_accept].
  rewrite (read_ok_id r o Hall Ho), bind_ret_l.
  eapply decides_iff; [|apply one_object_decided].
  - unfold tx_user. erewrite bool_decide_ext by apply elem_of_list_to_set. naive_solver.
  - unfold read_ok in *. simpl. by rewrite Ho in Hall.
Qed.

(** C22: The check on the input objects decides who may use what.  For objects
    read at the versions the transaction asks for it never panics, and it accepts
    exactly when there are any (or the transaction is the genesis one), no
    mutable object is used twice and every object, at a version below the
    maximal one, may be used:
    packages as packages; owned objects with the digest given and owned by the
    sender, or by the gas owner for a gas coin, or immutable; shared objects with
    the initial version given; and the clock and the randomness state mutably, or
    the authenticator state at all, by system transactions only. *)
Theorem check_objects_exact (d : TransactionData) (objects : list ObjectReadResult) :
  Forall read_ok objects → decides (check_objects d objects) (objects_acceptable d objects).
Proof. apply objects_decided. Qed.
End decided.
