(* ===== verification/TemporaryStore.v ===== *)
(** The store a transaction executes against and the charging of gas:
    [mgo-adapter/src/temporary_store.rs] (of the latest execution layer),
    [ExecutionResultsV2] of [mgo-types/src/execution.rs],
    [mgo-adapter/src/gas_charger.rs] and the part of [execution_engine.rs]
    that drives them.

    [BackingStore] is the database behind the store.  [temporary_store.rs] is
    not compiled with checked arithmetic: the totals of its conservation check
    wrap. *)
From S2P Require Import Prelude GasTables Objects MgoGas.

(** * The store *)

Record ExecutionResults := {
  written_objects : gmap ObjectID Object;
  modified_objects : gset ObjectID;
  created_object_ids : gset ObjectID;
  deleted_object_ids : gset ObjectID;
  user_events : list Z;
}.
Definition results_default : ExecutionResults := {|
  written_objects := ∅; modified_objects := ∅; created_object_ids := ∅;
  deleted_object_ids := ∅; user_events := [] |}.

Record DynamicallyLoadedObjectMetadata := {
  dl_version : SequenceNumber;
  dl_digest : ObjectDigest;
  dl_owner : Owner;
  dl_storage_rebate : Z;
  dl_previous_transaction : TransactionDigest;
}.

Record TemporaryStore := {
  tx_digest : TransactionDigest;
  input_objects : gmap ObjectID Object;
  store_lamport : SequenceNumber;
  mutable_input_refs : gmap ObjectID ((SequenceNumber * ObjectDigest) * Owner);
  execution_results : ExecutionResults;
  loaded_runtime_objects : gmap ObjectID DynamicallyLoadedObjectMetadata;
  wrapped_object_containers : gmap ObjectID ObjectID;
  receiving_objects : list ObjectRef;
}.

(** What the sources read of the database: a package's object, and an object
    (or an error). *)
Class BackingStore := {
  get_package_object : ObjectID → option Object;
  get_object : ObjectID → result (option Object) unit;
}.

Definition set_results (r : ExecutionResults) (t : TemporaryStore) : TemporaryStore := {|
  tx_digest := tx_digest t; input_objects := input_objects t; store_lamport := store_lamport t;
  mutable_input_refs := mutable_input_refs t; execution_results := r;
  loaded_runtime_objects := loaded_runtime_objects t;
  wrapped_object_containers := wrapped_object_containers t;
  receiving_objects := receiving_objects t |}.
Definition set_loaded (l : gmap ObjectID DynamicallyLoadedObjectMetadata) (t : TemporaryStore)
    : TemporaryStore := {|
  tx_digest := tx_digest t; input_objects := input_objects t; store_lamport := store_lamport t;
  mutable_input_refs := mutable_input_refs t; execution_results := execution_results t;
  loaded_runtime_objects := l;
  wrapped_object_containers := wrapped_object_containers t;
  receiving_objects := receiving_objects t |}.
Definition set_containers (w : gmap ObjectID ObjectID) (t : TemporaryStore) : TemporaryStore := {|
  tx_digest := tx_digest t; input_objects := input_objects t; store_lamport := store_lamport t;
  mutable_input_refs := mutable_input_refs t; execution_results := execution_results t;
  loaded_runtime_objects := loaded_runtime_objects t;
  wrapped_object_containers := w; receiving_objects := receiving_objects t |}.

Definition written (t : TemporaryStore) := written_objects (execution_results t).
Definition modified (t : TemporaryStore) := modified_objects (execution_results t).
Definition created (t : TemporaryStore) := created_object_ids (execution_results t).
Definition deleted (t : TemporaryStore) := deleted_object_ids (execution_results t).
Definition set_written (w : gmap ObjectID Object) (t : TemporaryStore) : TemporaryStore :=
  set_results {|
    written_objects := w; modified_objects := modified t; created_object_ids := created t;
    deleted_object_ids := deleted t; user_events := user_events (execution_results t) |} t.

Section construction.
Context {Hhash : ObjectHash}.
Definition TemporaryStore_new (objects : list ObjectReadResult) (receiving : list ObjectRef)
    (digest : TransactionDigest) : exec TemporaryStore :=
  refs ← mutable_inputs objects;
  lamport ← lamport_timestamp objects receiving;
  Done {| tx_digest := digest; input_objects := into_object_map objects;
          store_lamport := lamport; mutable_input_refs := refs;
          execution_results := results_default; loaded_runtime_objects := ∅;
          wrapped_object_containers := ∅; receiving_objects := receiving |}.
End construction.

(** ** Writes *)

Definition drop_writes (t : TemporaryStore) : TemporaryStore := set_results results_default t.

Definition mutate_input_object (object : Object) (t : TemporaryStore) : exec TemporaryStore :=
  id ← object_id object;
  Done (set_results {|
    written_objects := <[id := object]> (written t);
    modified_objects := {[id]} ∪ modified t;
    created_object_ids := created t; deleted_object_ids := deleted t;
    user_events := user_events (execution_results t) |} t).

Definition mutate_child_object {Hhash : ObjectHash} (old_object new_object : Object)
    (t : TemporaryStore) : exec TemporaryStore :=
  id ← object_id new_object;
  old_ref ← compute_object_reference old_object;
  let metadata := {|
    dl_version := old_ref.1.2; dl_digest := old_ref.2; dl_owner := owner old_object;
    dl_storage_rebate := storage_rebate old_object;
    dl_previous_transaction := previous_transaction old_object |} in
  Done (set_results {|
    written_objects := <[id := new_object]> (written t);
    modified_objects := {[id]} ∪ modified t;
    created_object_ids := created t; deleted_object_ids := deleted t;
    user_events := user_events (execution_results t) |}
    (set_loaded (<[id := metadata]> (loaded_runtime_objects t)) t)).

Definition upgrade_system_package (package : Object) (t : TemporaryStore) : exec TemporaryStore :=
  id ← object_id package;
  _ ← assert (is_package package && is_system_package id);
  Done (set_results {|
    written_objects := <[id := package]> (written t);
    modified_objects := {[id]} ∪ modified t;
    created_object_ids := created t; deleted_object_ids := deleted t;
    user_events := user_events (execution_results t) |} t).

Definition create_object (object : Object) (t : TemporaryStore) : exec TemporaryStore :=
  id ← object_id object;
  Done (set_results {|
    written_objects := <[id := object]> (written t);
    modified_objects := modified t;
    created_object_ids := {[id]} ∪ created t; deleted_object_ids := deleted t;
    user_events := user_events (execution_results t) |} t).

Definition delete_input_object (id : ObjectID) (t : TemporaryStore) : TemporaryStore :=
  set_results {|
    written_objects := written t;
    modified_objects := {[id]} ∪ modified t;
    created_object_ids := created t; deleted_object_ids := {[id]} ∪ deleted t;
    user_events := user_events (execution_results t) |} t.

(** [ExecutionResultsV2::merge_results]; [extend] lets the new entries win. *)
Definition merge_results (r n : ExecutionResults) : ExecutionResults := {|
  written_objects := written_objects n ∪ written_objects r;
  modified_objects := modified_objects r ∪ modified_objects n;
  created_object_ids := created_object_ids r ∪ created_object_ids n;
  deleted_object_ids := deleted_object_ids r ∪ deleted_object_ids n;
  user_events := user_events r ++ user_events n |}.

Definition save_loaded_runtime_objects (l : gmap ObjectID DynamicallyLoadedObjectMetadata)
    (t : TemporaryStore) : TemporaryStore := set_loaded (l ∪ loaded_runtime_objects t) t.
Definition save_wrapped_object_containers (w : gmap ObjectID ObjectID) (t : TemporaryStore)
    : TemporaryStore := set_containers (w ∪ wrapped_object_containers t) t.

Definition read_object (t : TemporaryStore) (id : ObjectID) : option Object :=
  match written t !! id with
  | Some o => Some o
  | None => input_objects t !! id
  end.

(** Every mutable input the transaction did not touch is written back. *)
Definition ensure_active_inputs_mutated (t : TemporaryStore) : exec TemporaryStore :=
  to_be_updated ← mapM (λ id, unwrap (input_objects t !! id))
    (filter (λ id, id ∉ modified t) (bset_iter Z.le (dom (mutable_input_refs t))));
  foldM (λ t object, mutate_input_object object t) t to_be_updated.

(** * The gas charger's state *)

Record GasCharger := {
  gc_tx_digest : TransactionDigest;
  gc_gas_model_version : Z;
  gas_coins : list ObjectRef;
  smashed_gas_coin : option ObjectID;
  gc_status : V2.MgoGasStatus;
}.
Definition set_status (s : V2.MgoGasStatus) (g : GasCharger) : GasCharger := {|
  gc_tx_digest := gc_tx_digest g; gc_gas_model_version := gc_gas_model_version g;
  gas_coins := gas_coins g; smashed_gas_coin := smashed_gas_coin g; gc_status := s |}.
Definition set_smashed (c : option ObjectID) (g : GasCharger) : GasCharger := {|
  gc_tx_digest := gc_tx_digest g; gc_gas_model_version := gc_gas_model_version g;
  gas_coins := gas_coins g; smashed_gas_coin := c; gc_status := gc_status g |}.

Definition GasCharger_new (digest : TransactionDigest) (gas_coins : list ObjectRef)
    (gas_status : V2.MgoGasStatus) (config : ProtocolConfig) : GasCharger := {|
  gc_tx_digest := digest; gc_gas_model_version := pc_gas_model_version config;
  gas_coins := gas_coins; smashed_gas_coin := None; gc_status := gas_status |}.
Definition GasCharger_new_unmetered (digest : TransactionDigest) : exec GasCharger :=
  s ← V2.new_unmetered;
  Done {| gc_tx_digest := digest; gc_gas_model_version := 6; gas_coins := [];
          smashed_gas_coin := None; gc_status := s |}.
Definition no_charges (g : GasCharger) : exec bool :=
  used ← V2.status_gas_used (gc_status g);
  Done ((used =? 0) && (V2.status_storage_rebate (gc_status g) =? 0) &&
        (V2.storage_gas_units (gc_status g) =? 0)).
Definition gc_track_storage_mutation (g : GasCharger) (id : ObjectID) (new_size storage_rebate : Z)
    : exec (GasCharger * Z) :=
  out ← V2.track_storage_mutation (gc_status g) id new_size storage_rebate;
  Done (set_status out.1 g, out.2).

(** * Storage costs and rebates *)

Section store.
Context {Hback : BackingStore} {Hhash : ObjectHash} {Hbcs : BcsSizes}.

Definition metadata_of (o : Object) : DynamicallyLoadedObjectMetadata := {|
  dl_version := object_version o; dl_digest := object_digest o; dl_owner := owner o;
  dl_storage_rebate := storage_rebate o; dl_previous_transaction := previous_transaction o |}.

(** The metadata of a modified object before the transaction: a mutable input,
    a loaded child object, or a system package being upgraded. *)
Definition get_object_modified_at (t : TemporaryStore) (id : ObjectID)
    : exec (option DynamicallyLoadedObjectMetadata) :=
  if decide (id ∈ modified t) then
    match mutable_input_refs t !! id with
    | Some ((version, digest), owner) =>
        o ← unwrap (input_objects t !! id);
        Done (Some {| dl_version := version; dl_digest := digest; dl_owner := owner;
                      dl_storage_rebate := storage_rebate o;
                      dl_previous_transaction := previous_transaction o |})
    | None =>
        match loaded_runtime_objects t !! id with
        | Some m => Done (Some m)
        | None => o ← unwrap (get_package_object id); Done (Some (metadata_of o))
        end
    end
  else Done None.

Definition collect_rebate (t : TemporaryStore) (g : GasCharger) : exec GasCharger :=
  foldM (λ g id,
    match written t !! id with
    | Some _ => Done g
    | None =>
        md ← get_object_modified_at t id;
        md ← unwrap md;
        out ← gc_track_storage_mutation g id 0 (dl_storage_rebate md);
        Done out.1
    end)
    g (bset_iter Z.le (modified t)).

Definition old_storage_rebate (t : TemporaryStore) (id : ObjectID) : exec Z :=
  md ← get_object_modified_at t id;
  Done (match md with Some m => dl_storage_rebate m | None => 0 end).

Definition collect_storage_and_rebate (t : TemporaryStore) (g : GasCharger)
    : exec (TemporaryStore * GasCharger) :=
  let entries := btree_iter Z.le (written t) in
  old_storage_rebates ← mapM (λ kv : ObjectID * Object, old_storage_rebate t kv.1) entries;
  out ← foldM (λ (acc : gmap ObjectID Object * GasCharger) (e : (ObjectID * Object) * Z),
    let '(key, object, old) := e in
    id ← object_id object;
    tracked ← gc_track_storage_mutation acc.2 id (object_size_for_gas_metering object) old;
    Done (<[key := set_storage_rebate tracked.2 object]> acc.1, tracked.1))
    (written t, g) (zip entries old_storage_rebates);
  let t' := set_written out.1 t in
  g' ← collect_rebate t' out.2;
  Done (t', g').

(** What system transactions do not pay goes into the system state object. *)
Definition conserve_unmetered_storage_rebate (unmetered_storage_rebate : Z) (t : TemporaryStore)
    : exec TemporaryStore :=
  if unmetered_storage_rebate =? 0 then Done t
  else
    system_state_wrapper ← unwrap (read_object t MGO_SYSTEM_STATE_OBJECT_ID);
    _ ← assert (storage_rebate system_state_wrapper =? 0);
    mutate_input_object (set_storage_rebate unmetered_storage_rebate system_state_wrapper) t.

(** * Checks *)

Definition check_execution_results_consistency (t : TemporaryStore) : result unit ExecutionError :=
  if negb (bool_decide (set_Forall (λ id, id ∉ deleted t ∧ id ∉ modified t) (created t)))
  then Err InvariantViolation
  else if negb (bool_decide (set_Forall (λ id,
      is_Some (mutable_input_refs t !! id) ∨ is_Some (loaded_runtime_objects t !! id) ∨
      is_system_package id = true) (modified t)))
  then Err InvariantViolation
  else Ok ().

(** Identifier, metadata before the transaction, object after it. *)
Definition ModifiedObjectInfo : Type :=
  ObjectID * option DynamicallyLoadedObjectMetadata * option Object.
Definition get_modified_objects (t : TemporaryStore) : exec (list ModifiedObjectInfo) :=
  touched ← mapM (λ id, md ← get_object_modified_at t id; Done (id, md, written t !! id))
    (bset_iter Z.le (modified t));
  Done (touched ++
    omap (λ kv : ObjectID * Object,
      if decide (kv.1 ∈ modified t) then None else Some (kv.1, None, Some kv.2))
      (btree_iter Z.le (written t))).

Definition check_mgo_conserved (t : TemporaryStore) (simple_conservation_checks : bool)
    (gas_summary : GasCostSummary) : exec (result unit ExecutionError) :=
  if negb simple_conservation_checks then Done (Ok ())
  else
    infos ← get_modified_objects t;
    let total_input_rebate := sum64 (omap (λ i : ModifiedObjectInfo, dl_storage_rebate <$> i.1.2) infos) in
    let total_output_rebate := sum64 (omap (λ i : ModifiedObjectInfo, storage_rebate <$> i.2) infos) in
    if sum_storage_cost gas_summary =? 0 then
      if total_input_rebate =?
         wrap64 (wrap64 (total_output_rebate + sum_storage_rebate gas_summary) +
                 sum_non_refundable_storage_fee gas_summary)
      then Done (Ok ()) else Done (Err InvariantViolation)
    else if negb (total_input_rebate =?
         wrap64 (sum_storage_rebate gas_summary + sum_non_refundable_storage_fee gas_summary))
    then Done (Err InvariantViolation)
    else if negb (sum_storage_cost gas_summary =? total_output_rebate)
    then Done (Err InvariantViolation)
    else Done (Ok ()).

(** [update_version_and_previous_tx]: Move objects get the lamport version,
    modified packages the next one, new shared objects record it. *)
Definition update_written_object (t : TemporaryStore) (id : ObjectID) (obj : Object) : exec Object :=
  data' ←
    match data obj with
    | Move m => Done (Move {| type_ := type_ m; has_public_transfer := has_public_transfer m;
                              mo_version := store_lamport t; contents := contents m |})
    | Package p =>
        if decide (id ∈ modified t) then
          v ← seq_increment (mp_version p);
          Done (Package {| mp_id := mp_id p; mp_version := v; module_map := module_map p;
                           type_origin_table := type_origin_table p;
                           linkage_table := linkage_table p |})
        else Done (Package p)
    end;
  owner' ←
    match owner obj with
    | Shared initial =>
        if decide (id ∈ created t) then
          _ ← assert (initial =? 0); Done (Shared (store_lamport t))
        else Done (Shared initial)
    | o => Done o
    end;
  Done {| data := data'; owner := owner'; previous_transaction := tx_digest t;
          storage_rebate := storage_rebate obj |}.
Definition update_object_version_and_prev_tx (t : TemporaryStore) : exec TemporaryStore :=
  w ← foldM (λ w kv, o ← update_written_object t kv.1 kv.2; Done (<[kv.1 := o]> w))
        (written t) (btree_iter Z.le (written t));
  Done (set_written w t).

Definition written_objects_size (t : TemporaryStore) : Z :=
  fold_left (λ sum kv, wrap64 (sum + object_size_for_gas_metering kv.2)) (btree_iter Z.le (written t)) 0.

(** ** Ownership *)

(** The inputs whose mutation the signature authorises. *)
Definition authenticated_inputs (t : TemporaryStore) (sender : MgoAddress) (gas_objs : gset ObjectID)
    (mutable_inputs : gset ObjectID) : exec (gset ObjectID) :=
  foldM (λ acc kv,
    if decide (kv.1 ∈ gas_objs) then Done acc
    else
      keep ← match owner kv.2 with
             | AddressOwner a => _ ← assert (sender =? a); Done true
             | Shared _ => Done true
             | Immutable => Done false
             | ObjectOwner _ => Panic
             end;
      Done (if (keep : bool) && bool_decide (kv.1 ∈ mutable_inputs) then {[kv.1]} ∪ acc else acc))
    ∅ (btree_iter Z.le (input_objects t)).

(** The loop over the objects still to authenticate, last in first out.  The
    error is one of the database. *)
Fixpoint authenticate (t : TemporaryStore) (is_epoch_change : bool) (fuel : nat)
    (authenticated : gset ObjectID) (todo : list ObjectID) : exec (result unit unit) :=
  match fuel with
  | O => OutOfFuel
  | S fuel =>
      match todo with
      | [] => Done (Ok ())
      | id :: todo =>
          if decide (id ∈ authenticated) then authenticate t is_epoch_change fuel authenticated todo
          else
            match wrapped_object_containers t !! id with
            | Some parent =>
                authenticate t is_epoch_change fuel ({[id]} ∪ authenticated) (parent :: todo)
            | None =>
                match get_object id with
                | Err e => Done (Err e)
                | Ok None => Panic
                | Ok (Some old_obj) =>
                    match owner old_obj with
                    | ObjectOwner parent | AddressOwner parent =>
                        authenticate t is_epoch_change fuel ({[id]} ∪ authenticated) (parent :: todo)
                    | Shared _ => Panic
                    | Immutable =>
                        _ ← assert is_epoch_change;
                        _ ← assert (is_system_package id);
                        authenticate t is_epoch_change fuel authenticated todo
                    end
                end
            end
      end
  end.

Definition check_ownership_invariants (t : TemporaryStore) (fuel : nat) (sender : MgoAddress)
    (g : GasCharger) (mutable_inputs : gset ObjectID) (is_epoch_change : bool)
    : exec (result unit unit) :=
  let gas_objs : gset ObjectID := list_to_set (map (λ r : ObjectRef, r.1.1) (gas_coins g)) in
  authenticated ← authenticated_inputs t sender gas_objs mutable_inputs;
  authenticate t is_epoch_change fuel authenticated
    (rev (filter (λ id, id ∉ gas_objs) (bset_iter Z.le (modified t)))).

(** * Charging *)

Definition is_none {A} (o : option A) : bool := match o with None => true | Some _ => false end.

(** The balances of the gas coins, which the input checks have validated. *)
Definition gas_coin_value (t : TemporaryStore) (r : ObjectRef) : exec Z :=
  obj ← unwrap (input_objects t !! r.1.1);
  match data obj with
  | Move m => _ ← assert (is_gas_coin_type (type_ m)); get_coin_value_unsafe m
  | Package _ => Panic
  end.

Definition smash_gas (g : GasCharger) (t : TemporaryStore) : exec (GasCharger * TemporaryStore) :=
  match gas_coins g with
  | [] => Done (g, t)
  | first :: others =>
      let gas_coin_id := first.1.1 in
      if is_none (head others) && (gas_coin_id =? 0) then Done (g, t)
      else
        let g := set_smashed (Some gas_coin_id) g in
        if is_none (head others) then Done (g, t)
        else
          values ← mapM (gas_coin_value t) (first :: others);
          let new_balance := sum64 values in
          primary ← unwrap (input_objects t !! gas_coin_id);
          let t := foldl (λ t (r : ObjectRef), delete_input_object r.1.1 t) t others in
          coin ← unwrap (try_as_move (data primary));
          coin ← set_coin_value_unsafe coin new_balance;
          t ← mutate_input_object (set_data (Move coin) primary) t;
          Done (g, t)
  end.

Definition reset_storage (g : GasCharger) : GasCharger :=
  set_status (V2.reset_storage_cost_and_rebate (gc_status g)) g.
Definition gc_charge_publish_package (size : Z) (g : GasCharger) : GasCharger * result unit ExecutionError :=
  let '(s, r) := V2.charge_publish_package size (gc_status g) in (set_status s g, r).
Definition charge_upgrade_package (size : Z) (g : GasCharger) : GasCharger * result unit ExecutionError :=
  if charge_upgrades (gc_gas_model_version g) then gc_charge_publish_package size g
  else (g, Ok ()).
Definition charge_input_objects (g : GasCharger) (t : TemporaryStore)
    : GasCharger * result unit ExecutionError :=
  let total_size := sum64 (map (λ kv, object_size_for_gas_metering kv.2)
    (filter (λ kv, is_system_package kv.1 = false) (btree_iter Z.le (input_objects t)))) in
  let '(s, r) := V2.charge_storage_read total_size (gc_status g) in (set_status s g, r).

Definition reset (g : GasCharger) (t : TemporaryStore) : exec (GasCharger * TemporaryStore) :=
  let t := drop_writes t in
  let g := reset_storage g in
  smash_gas g t.

(** [if execution_result.is_ok() { *execution_result = Err(err) }]. *)
Definition fail_with {A} (res : result A ExecutionError) (err : ExecutionError)
    : result A ExecutionError :=
  match res with Ok _ => Err err | Err e => Err e end.

(** The fallback that charges the whole budget and no storage. *)
Definition charge_budget (g : GasCharger) (t : TemporaryStore) : exec (GasCharger * TemporaryStore) :=
  '(g, t) ← reset g t;
  let g := set_status (V2.adjust_computation_on_out_of_gas (gc_status g)) g in
  t ← ensure_active_inputs_mutated t;
  g ← collect_rebate t g;
  Done (g, t).

Definition handle_storage_and_rebate_v1 {A} (g : GasCharger) (t : TemporaryStore)
    (res : result A ExecutionError) : exec (GasCharger * TemporaryStore * result A ExecutionError) :=
  charged ← V2.charge_storage_and_rebate (gc_status g);
  match charged with
  | Ok _ => Done (g, t, res)
  | Err err => '(g, t) ← charge_budget g t; Done (g, t, fail_with res err)
  end.

Definition handle_storage_and_rebate_v2 {A} (g : GasCharger) (t : TemporaryStore)
    (res : result A ExecutionError) : exec (GasCharger * TemporaryStore * result A ExecutionError) :=
  charged ← V2.charge_storage_and_rebate (gc_status g);
  match charged with
  | Ok _ => Done (g, t, res)
  | Err err =>
      '(g, t) ← reset g t;
      t ← ensure_active_inputs_mutated t;
      '(t, g) ← collect_storage_and_rebate t g;
      charged ← V2.charge_storage_and_rebate (gc_status g);
      match charged with
      | Err err => '(g, t) ← charge_budget g t; Done (g, t, fail_with res err)
      | Ok _ => Done (g, t, fail_with res err)
      end
  end.

Definition charge_gas {A} (g : GasCharger) (t : TemporaryStore) (res : result A ExecutionError)
    : exec (GasCharger * TemporaryStore * result A ExecutionError * GasCostSummary) :=
  '(g, t, res) ←
    match smashed_gas_coin g with
    | Some _ =>
        '(s, r) ← V2.bucketize_computation (gc_status g);
        let g := set_status s g in
        let res := match r with Err err => fail_with res err | Ok _ => res end in
        if is_ok res then Done (g, t, res)
        else '(g, t) ← reset g t; Done (g, t, res)
    | None => Done (g, t, res)
    end;
  t ← ensure_active_inputs_mutated t;
  '(t, g) ← collect_storage_and_rebate t g;
  match smashed_gas_coin g with
  | Some gas_object_id =>
      '(g, t, res) ←
        (if dont_charge_budget_on_storage_oog (gc_gas_model_version g)
         then handle_storage_and_rebate_v2 g t res
         else handle_storage_and_rebate_v1 g t res);
      cost_summary ← V2.summary (gc_status g);
      gas_used ← net_gas_usage cost_summary;
      gas_object ← unwrap (read_object t gas_object_id);
      gas_object ← deduct_gas_coin gas_object gas_used;
      t ← mutate_input_object gas_object t;
      Done (g, t, res, cost_summary)
  | None => Done (g, t, res, summary_default)
  end.
End store.
