(* ===== verification/ExecutionEngine.v ===== *)
(** The driver of a transaction's execution: [execute_transaction],
    [run_conservation_checks] and the limit checks of
    [mgo-adapter/src/execution_engine.rs], with the effects-size estimates of
    [mgo-types/src/effects/mod.rs] and the expensive conservation check of
    [temporary_store.rs].

    The transaction's own commands ([execution_loop]) and the amount of MGO
    inside a Move value that is not a coin, which needs the VM's type layouts,
    are parameters. *)
From S2P Require Import Prelude GasTables Objects Errors.
From S2P Require Import MgoGas TemporaryStore.

(** * Limits *)

Inductive LimitThresholdCrossed :=
  | LimitNone
  | LimitSoft (x limit : Z)
  | LimitHard (x limit : Z).
Definition check_limit_in_range (x soft_limit hard_limit : Z) : LimitThresholdCrossed :=
  if hard_limit <=? x then LimitHard x hard_limit
  else if x <? soft_limit then LimitNone
  else LimitSoft x soft_limit.
Definition check_limit_by_meter (is_metered : bool) (x metered_limit unmetered_hard_limit : Z)
    : LimitThresholdCrossed :=
  check_limit_in_range x metered_limit (if is_metered then metered_limit else unmetered_hard_limit).

Definition APPROX_SIZE_OF_OBJECT_REF : Z := 80.
Definition APPROX_SIZE_OF_EXECUTION_STATUS : Z := 120.
Definition APPROX_SIZE_OF_EPOCH_ID : Z := 10.
Definition APPROX_SIZE_OF_GAS_COST_SUMMARY : Z := 40.
Definition APPROX_SIZE_OF_OPT_TX_EVENTS_DIGEST : Z := 40.
Definition APPROX_SIZE_OF_TX_DIGEST : Z := 40.
Definition APPROX_SIZE_OF_OWNER : Z := 48.

Definition effects_fixed_sizes : Z :=
  APPROX_SIZE_OF_EXECUTION_STATUS + APPROX_SIZE_OF_EPOCH_ID +
  APPROX_SIZE_OF_GAS_COST_SUMMARY + APPROX_SIZE_OF_OPT_TX_EVENTS_DIGEST.
Definition estimate_effects_size_upperbound_v1 (num_writes num_mutables num_deletes num_deps : Z) : Z :=
  let approx_change_entry_size := 1000
    + (APPROX_SIZE_OF_OWNER + APPROX_SIZE_OF_OBJECT_REF) * num_writes
    + APPROX_SIZE_OF_OBJECT_REF * num_mutables
    + APPROX_SIZE_OF_OBJECT_REF * num_deletes in
  let deps_size := 1000 + APPROX_SIZE_OF_TX_DIGEST * num_deps in
  effects_fixed_sizes + approx_change_entry_size + deps_size.
Definition estimate_effects_size_upperbound_v2 (num_writes num_modifies num_deps : Z) : Z :=
  let approx_change_entry_size := 1000
    + (APPROX_SIZE_OF_OWNER + APPROX_SIZE_OF_OBJECT_REF) * num_writes
    + (APPROX_SIZE_OF_OWNER + APPROX_SIZE_OF_OBJECT_REF) * num_modifies in
  let deps_size := 1000 + APPROX_SIZE_OF_TX_DIGEST * num_deps in
  effects_fixed_sizes + approx_change_entry_size + deps_size.

Definition count {A} `{Countable K} (m : gmap K A) : Z := Z.of_nat (base.size m).
Definition count_set `{Countable K} (s : gset K) : Z := Z.of_nat (base.size s).

Definition estimate_effects_size_upperbound (config : ProtocolConfig) (t : TemporaryStore) : Z :=
  if pc_enable_effects_v2 config then
    estimate_effects_size_upperbound_v2 (count (written t)) (count_set (modified t))
      (count (input_objects t))
  else
    let num_deletes := count_set (deleted t) +
      count_set (filter (λ id, written t !! id = None ∧ id ∉ deleted t) (modified t)) in
    estimate_effects_size_upperbound_v1 (count (written t)) (count (mutable_input_refs t))
      num_deletes (count (input_objects t)).

Definition check_meter_limit (config : ProtocolConfig) (t : TemporaryStore) (g : GasCharger)
    : result unit ExecutionError :=
  let effects_estimated_size := estimate_effects_size_upperbound config t in
  match check_limit_by_meter (negb (V2.is_unmetered (gc_status g))) effects_estimated_size
          (pc_max_serialized_tx_effects_size_bytes config)
          (pc_max_serialized_tx_effects_size_bytes_system_tx config) with
  | LimitNone | LimitSoft _ _ => Ok ()
  | LimitHard _ lim => Err (EffectsTooLarge effects_estimated_size lim)
  end.

(** * Conservation and execution *)

(** The MGO held in a Move value that is not a coin, or a failure to resolve
    its layout; and an object of the database at a version. *)
Class ObjectValues := {
  layout_total_mgo : MoveObject → result Z unit;
  get_object_by_key : ObjectID → SequenceNumber → result (option Object) unit;
}.

Section engine.
Context {Hback : BackingStore} {Hhash : ObjectHash} {Hbcs : BcsSizes} {Hval : ObjectValues}.
Context {A : Type}.

Definition check_written_objects_limit (config : ProtocolConfig) (t : TemporaryStore) (g : GasCharger)
    : result unit ExecutionError :=
  match pc_max_size_written_objects config, pc_max_size_written_objects_system_tx config with
  | Some normal_lim, Some system_lim =>
      let size := written_objects_size t in
      match check_limit_by_meter (negb (V2.is_unmetered (gc_status g))) size normal_lim system_lim with
      | LimitNone | LimitSoft _ _ => Ok ()
      | LimitHard _ lim => Err (WrittenObjectsTooLarge size lim)
      end
  | _, _ => Ok ()
  end.

(** [GAS::is_gas_type]. *)
Definition is_gas_tag (t : Tag.TypeTag) : bool :=
  match t with
  | Tag.Struct (Tag.mkStructTag address module name []) =>
      (address =? MGO_FRAMEWORK_ADDRESS) && String.eqb module "mgo" && String.eqb name "MGO"
  | _ => false
  end.

(** [MoveObject::get_total_mgo]: the entry for MGO of the balances in the
    object, which for a coin are read without its layout. *)
Definition move_total_mgo (m : MoveObject) : exec (result Z unit) :=
  match type_ m with
  | GasCoin => balance ← get_coin_value_unsafe m; Done (Ok balance)
  | Coin tag => balance ← get_coin_value_unsafe m; Done (Ok (if is_gas_tag tag then balance else 0))
  | StakedMgo | Other _ => Done (layout_total_mgo m)
  end.

(** [Object::get_total_mgo]. *)
Definition get_total_mgo (o : Object) : exec (result Z unit) :=
  match data o with
  | Move m => z ←? move_total_mgo m; Done (Ok (wrap64 (storage_rebate o + z)))
  | Package _ => Done (Ok (storage_rebate o))
  end.

(** [obj.get_total_mgo(..).map_err(|e| make_invariant_violation!(..))]. *)
Definition checked_total_mgo (o : Object) : exec (result Z ExecutionError) :=
  r ← get_total_mgo o;
  Done (match r with Ok z => Ok z | Err _ => Err InvariantViolation end).

Definition get_input_mgo (t : TemporaryStore) (id : ObjectID) (expected_version : SequenceNumber)
    : exec (result Z ExecutionError) :=
  match input_objects t !! id with
  | Some obj =>
      if negb (object_version obj =? expected_version) then Done (Err InvariantViolation)
      else checked_total_mgo obj
  | None =>
      match get_object_by_key id expected_version with
      | Ok (Some obj) => checked_total_mgo obj
      | _ => Done (Err InvariantViolation)
      end
  end.

(** The two running totals over the modified objects, or the first failure. *)
Fixpoint mgo_totals (t : TemporaryStore) (infos : list ModifiedObjectInfo) (inp out : Z)
    : exec (result (Z * Z) ExecutionError) :=
  match infos with
  | [] => Done (Ok (inp, out))
  | (id, input, output) :: infos =>
      i ←? match input with Some m => get_input_mgo t id (dl_version m) | None => Done (Ok 0) end;
      o ←? match output with Some object => checked_total_mgo object | None => Done (Ok 0) end;
      mgo_totals t infos (wrap64 (inp + i)) (wrap64 (out + o))
  end.

Definition check_mgo_conserved_expensive (t : TemporaryStore) (gas_summary : GasCostSummary)
    (advance_epoch_gas_summary : option (Z * Z)) : exec (result unit ExecutionError) :=
  infos ← get_modified_objects t;
  totals ←? mgo_totals t infos 0 0;
  let '(inp, out) := totals in
  let out := wrap64 (out + wrap64 (sum_computation_cost gas_summary +
                                   sum_non_refundable_storage_fee gas_summary)) in
  let '(inp, out) :=
    match advance_epoch_gas_summary with
    | Some (epoch_fees, epoch_rebates) => (wrap64 (inp + epoch_fees), wrap64 (out + epoch_rebates))
    | None => (inp, out)
    end in
  Done (if inp =? out then Ok () else Err InvariantViolation).

Definition conservation_result (t : TemporaryStore) (simple expensive : bool)
    (cost_summary : GasCostSummary) (advance_epoch_gas_summary : option (Z * Z))
    : exec (result unit ExecutionError) :=
  r ← check_mgo_conserved t simple cost_summary;
  match r with
  | Err e => Done (Err e)
  | Ok _ =>
      if expensive then check_mgo_conserved_expensive t cost_summary advance_epoch_gas_summary
      else Done (Ok ())
  end.

(** The checks after charging; on a failure the writes are dropped, gas is
    charged again and the checks are run once more, against the same summary. *)
Definition run_conservation_checks (t : TemporaryStore) (g : GasCharger) (simple expensive : bool)
    (skip : bool) (cost_summary : GasCostSummary) (advance_epoch_gas_summary : option (Z * Z))
    : exec (TemporaryStore * GasCharger * result unit ExecutionError) :=
  if skip then Done (t, g, Ok ())
  else
    r ← conservation_result t simple expensive cost_summary advance_epoch_gas_summary;
    match r with
    | Ok _ => Done (t, g, Ok ())
    | Err conservation_err =>
        '(g, t) ← reset g t;
        '(g, t, res, _) ← charge_gas g t (Err conservation_err : result unit ExecutionError);
        r ← conservation_result t simple expensive cost_summary advance_epoch_gas_summary;
        match r with
        | Ok _ => Done (t, g, res)
        | Err _ => Panic
        end
    end.

(** The parameters of a transaction that decide how it is run. *)
Record TransactionRun := {
  run_deny_cert : bool;
  run_contains_deleted_input : bool;
  run_is_genesis : bool;
  run_skip_conservation : bool;
  run_expensive_checks : bool;
  run_advance_epoch : option (Z * Z);
}.

Definition execute_transaction (config : ProtocolConfig) (run : TransactionRun)
    (execution_loop : GasCharger → TemporaryStore → exec (GasCharger * TemporaryStore * result A ExecutionError))
    (g : GasCharger) (t : TemporaryStore)
    : exec (GasCharger * TemporaryStore * GasCostSummary * result A ExecutionError) :=
  '(g, t) ← smash_gas g t;
  let '(g, charged) := charge_input_objects g t in
  '(g, t, res) ←
    match charged with
    | Err e => Done (g, t, Err e)
    | Ok _ =>
        '(g, t, res) ←
          (if run_deny_cert run then Done (g, t, Err CertificateDenied)
           else if run_contains_deleted_input run then Done (g, t, Err InputObjectDeleted)
           else execution_loop g t);
        let res := match check_meter_limit config t g with Err e => Err e | Ok _ => res end in
        let res :=
          if is_ok res then
            match check_written_objects_limit config t g with Err e => Err e | Ok _ => res end
          else res in
        Done (g, t, res)
    end;
  '(g, t, res, cost_summary) ← charge_gas g t res;
  t ← conserve_unmetered_storage_rebate (V2.unmetered_storage_rebate (gc_status g)) t;
  '(t, g, checked) ← run_conservation_checks t g (pc_simple_conservation_checks config)
    (run_expensive_checks run) (run_is_genesis run || run_skip_conservation run)
    cost_summary (run_advance_epoch run);
  Done (g, t, cost_summary, match checked with Err e => Err e | Ok _ => res end).
End engine.
