(* ===== verification/GasConservation.v ===== *)
(** Charging gas neither creates nor destroys MGO: the theorems on
    [TemporaryStore]'s [charge_gas].

    [store_ok] is what execution leaves behind, [charger_ok] what the input
    checks guarantee of the gas coins.  Under them [charge_gas] returns on
    every path (success, an execution error, the three ways of running out of
    gas), the storage rebates balance, and the gas coin pays at most the
    budget. *)
From S2P Require Import Prelude MapSums GasTables Objects.
From S2P Require Import MgoGas TemporaryStore.

Section conservation.
Context {Hback : BackingStore} {Hhash : ObjectHash} {Hbcs : BcsSizes}.

(** * Rebates before and after *)

(** The rebate stored with an object before the transaction modified it. *)
Definition old_rebate (t : TemporaryStore) (id : ObjectID) : Z :=
  match mutable_input_refs t !! id with
  | Some _ => default 0 (storage_rebate <$> input_objects t !! id)
  | None =>
      match loaded_runtime_objects t !! id with
      | Some m => dl_storage_rebate m
      | None => default 0 (storage_rebate <$> get_package_object id)
      end
  end.
(** Its version then. *)
Definition old_version (t : TemporaryStore) (id : ObjectID) : SequenceNumber :=
  match mutable_input_refs t !! id with
  | Some (vd, _) => vd.1
  | None =>
      match loaded_runtime_objects t !! id with
      | Some m => dl_version m
      | None => default 0 (object_version <$> get_package_object id)
      end
  end.
Definition in_total (t : TemporaryStore) : Z := set_sum (old_rebate t) (modified t).
Definition out_total (t : TemporaryStore) : Z := map_sum (λ _ o, storage_rebate o) (written t).

Record inputs_ok (t : TemporaryStore) : Prop := {
  io_ids : ∀ id o, input_objects t !! id = Some o → object_id o = Done id;
  io_refs : ∀ id, is_Some (mutable_input_refs t !! id) → is_Some (input_objects t !! id);
  io_rebates : ∀ id, 0 ≤ old_rebate t id;
}.
Record store_ok (t : TemporaryStore) : Prop := {
  st_inputs : inputs_ok t;
  st_written : ∀ id o, written t !! id = Some o → object_id o = Done id;
  st_known : ∀ id, id ∈ modified t →
    is_Some (mutable_input_refs t !! id) ∨ is_Some (loaded_runtime_objects t !! id) ∨
    is_Some (get_package_object id);
}.

Lemma modified_at_ok t id :
  store_ok t → id ∈ modified t →
  ∃ md, get_object_modified_at t id = Done (Some md) ∧ dl_storage_rebate md = old_rebate t id ∧
    dl_version md = old_version t id.
Proof.
  intros Hok Hid. unfold get_object_modified_at, old_rebate, old_version. rewrite decide_True by done.
  destruct (mutable_input_refs t !! id) as [[[v d] o]|] eqn:Href.
  - destruct (io_refs t (st_inputs t Hok) id) as [obj ->]; [by rewrite Href|]. simpl. by eexists.
  - destruct (loaded_runtime_objects t !! id) as [m|] eqn:Hl; [by eexists|].
    destruct (st_known t Hok id Hid) as [[? ?]|[[? ?]|[obj ->]]]; [congruence..|]. by eexists.
Qed.

(** The rebate the collection loop credits for a written object. *)
Definition credited (t : TemporaryStore) (id : ObjectID) : Z :=
  if decide (id ∈ modified t) then old_rebate t id else 0.

Lemma old_storage_rebate_ok t id :
  store_ok t → old_storage_rebate t id = Done (credited t id).
Proof.
  intros Hok. unfold old_storage_rebate, credited. destruct (decide (id ∈ modified t)) as [Hid|Hid].
  - destruct (modified_at_ok t id Hok Hid) as (md & -> & <- & _). done.
  - unfold get_object_modified_at. by rewrite decide_False by done.
Qed.

(** * Collecting storage costs and rebates *)

Definition object_cost (s : V2.MgoGasStatus) (o : Object) : Z :=
  object_size_for_gas_metering o * V2.storage_per_byte_cost (V2.cost_table s) *
  V2.storage_gas_price s.

(** Objects whose storage can be priced without overflow. *)
Definition priceable (s : V2.MgoGasStatus) (o : Object) : Prop :=
  0 ≤ object_size_for_gas_metering o ∧
  0 ≤ object_size_for_gas_metering o * V2.storage_per_byte_cost (V2.cost_table s) ≤ u64_max ∧
  0 ≤ object_cost s o ≤ u64_max.

Definition entry (id : ObjectID) (cost rebate size : Z) : ObjectID * V2.PerObjectStorage :=
  (id, {| V2.per_storage_cost := cost; V2.per_storage_rebate := rebate; V2.per_new_size := size |}).
Definition with_entries (g : GasCharger) (l : list (ObjectID * V2.PerObjectStorage)) : GasCharger :=
  set_status (V2.set_storage (V2.per_object_storage (gc_status g) ++ l)
    (V2.unmetered_storage_rebate (gc_status g)) (gc_status g)) g.

Lemma with_entries_nil g : with_entries g [] = g.
Proof. unfold with_entries. rewrite app_nil_r. by destruct g as [? ? ? ? []]. Qed.
Lemma with_entries_app g l k : with_entries (with_entries g l) k = with_entries g (l ++ k).
Proof. unfold with_entries. simpl. by rewrite app_assoc. Qed.

Lemma track_written g id o old :
  V2.charge (gc_status g) = true → priceable (gc_status g) o →
  gc_track_storage_mutation g id (object_size_for_gas_metering o) old =
    Done (with_entries g [entry id (object_cost (gc_status g) o) old (object_size_for_gas_metering o)],
          object_cost (gc_status g) o).
Proof.
  intros Hch (Hsz & Hb & Hc). unfold gc_track_storage_mutation, V2.track_storage_mutation, V2.is_unmetered.
  rewrite Hch. simpl. rewrite mul64_small by lia. simpl.
  unfold object_cost in *. by rewrite mul64_small by lia.
Qed.
Lemma track_deleted g id old :
  V2.charge (gc_status g) = true →
  gc_track_storage_mutation g id 0 old = Done (with_entries g [entry id 0 old 0], 0).
Proof.
  intros Hch. unfold gc_track_storage_mutation, V2.track_storage_mutation, V2.is_unmetered.
  by rewrite Hch.
Qed.

(** The entries of the objects written and of those removed. *)
Definition written_entries (t : TemporaryStore) (s : V2.MgoGasStatus) (l : list (ObjectID * Object)) :=
  map (λ kv : ObjectID * Object, entry kv.1 (object_cost s kv.2) (credited t kv.1)
         (object_size_for_gas_metering kv.2)) l.
Definition removed (t : TemporaryStore) : list ObjectID :=
  filter (λ id, written t !! id = None) (bset_iter Z.le (modified t)).
Definition removed_entries (t : TemporaryStore) :=
  map (λ id, entry id 0 (old_rebate t id) 0) (removed t).

Lemma collect_rebate_ok t g :
  store_ok t → V2.charge (gc_status g) = true →
  collect_rebate t g = Done (with_entries g (removed_entries t)).
Proof.
  intros Hok. unfold collect_rebate, removed_entries, removed.
  assert (∀ id, id ∈ bset_iter Z.le (modified t) → id ∈ modified t) as Hin.
  { intros id. by rewrite elem_of_bset_iter. }
  revert g. induction (bset_iter Z.le (modified t)) as [|id l IH]; intros g Hch.
  - simpl. by rewrite with_entries_nil.
  - specialize (IH ltac:(intros; apply Hin; by right)). rewrite filter_cons. cbn [foldM].
    destruct (written t !! id) as [o|] eqn:Hw; case_decide as Hn; try congruence; simpl.
    + by apply IH.
    + destruct (modified_at_ok t id Hok) as (md & -> & Hmd & _); [apply Hin; left|]. simpl. rewrite Hmd.
      rewrite track_deleted by done. simpl. rewrite IH by done. by rewrite with_entries_app.
Qed.

(** The written objects with their new rebates. *)
Definition repriced (s : V2.MgoGasStatus) (t : TemporaryStore) : TemporaryStore :=
  set_written ((λ o, set_storage_rebate (object_cost s o) o) <$> written t) t.

Lemma repriced_ok s t : store_ok t → store_ok (repriced s t).
Proof.
  intros [Hi Hw Hk]. split; [by destruct Hi; split| |done].
  intros id o. unfold repriced, written at 1. simpl. rewrite lookup_fmap.
  intros (o' & Ho' & ->)%fmap_Some. exact (Hw id o' Ho').
Qed.

Lemma repriced_removed s t : removed_entries (repriced s t) = removed_entries t.
Proof.
  unfold removed_entries, removed. change (old_rebate (repriced s t)) with (old_rebate t). f_equal.
  apply filter_ext_in. intros id _. unfold repriced, written. simpl. rewrite lookup_fmap.
  by destruct (written_objects (execution_results t) !! id).
Qed.

Lemma collect_written_loop t s g w l :
  V2.charge (gc_status g) = true → V2.cost_table (gc_status g) = V2.cost_table s →
  V2.storage_gas_price (gc_status g) = V2.storage_gas_price s →
  Forall (λ kv : ObjectID * Object, object_id kv.2 = Done kv.1 ∧ priceable s kv.2) l →
  foldM (λ (acc : gmap ObjectID Object * GasCharger) (e : (ObjectID * Object) * Z),
    let '(key, object, old) := e in
    id ← object_id object;
    tracked ← gc_track_storage_mutation acc.2 id (object_size_for_gas_metering object) old;
    Done (<[key := set_storage_rebate tracked.2 object]> acc.1, tracked.1))
    (w, g) (zip l (map (λ kv, credited t kv.1) l)) =
  Done (foldl (λ w kv, <[kv.1 := set_storage_rebate (object_cost s kv.2) kv.2]> w) w l,
        with_entries g (written_entries t s l)).
Proof.
  intros Hch Hct Hgp Hall. revert w g Hch Hct Hgp.
  induction Hall as [|[id o] l [Hid Hp] Hall IH]; intros w g Hch Hct Hgp.
  - simpl. by rewrite with_entries_nil.
  - cbn [map zip foldM]. simpl in Hid, Hp |- *. rewrite Hid. simpl.
    assert (object_cost (gc_status g) o = object_cost s o) as Hcost.
    { unfold object_cost. by rewrite Hct, Hgp. }
    rewrite track_written; [|done|unfold priceable; by rewrite Hcost, Hct]. rewrite Hcost. simpl.
    rewrite IH by done. by rewrite with_entries_app.
Qed.

Lemma collect_ok t g :
  store_ok t → V2.charge (gc_status g) = true →
  (∀ id o, written t !! id = Some o → priceable (gc_status g) o) →
  collect_storage_and_rebate t g =
    Done (repriced (gc_status g) t,
          with_entries g (written_entries t (gc_status g) (btree_iter Z.le (written t)) ++
                          removed_entries t)).
Proof.
  intros Hok Hch Hp. unfold collect_storage_and_rebate.
  set (l := btree_iter Z.le (written t)).
  assert (mapM (λ kv : ObjectID * Object, old_storage_rebate t kv.1) l =
          Done (map (λ kv, credited t kv.1) l)) as ->.
  { apply mapM_Done. induction l as [|kv l IH]; simpl; constructor; [|done].
    by apply old_storage_rebate_ok. }
  rewrite bind_ret_l. rewrite (collect_written_loop t (gc_status g)); [|done..|].
  - rewrite bind_ret_l. cbn [fst snd].
    assert (foldl (λ w kv, <[kv.1 := set_storage_rebate (object_cost (gc_status g) kv.2) kv.2]> w)
              (written t) l = (λ o, set_storage_rebate (object_cost (gc_status g) o) o) <$> written t)
      as ->.
    { apply (foldl_insert_iter Z.le (λ o, set_storage_rebate (object_cost (gc_status g) o) o)). }
    fold (repriced (gc_status g) t). rewrite collect_rebate_ok; [|by apply repriced_ok|done].
    simpl. by rewrite with_entries_app, repriced_removed.
  - apply Forall_forall. intros [id o] Hin%elem_of_btree_iter. simpl.
    split; [by apply (st_written t Hok)|by eapply Hp].
Qed.

(** * Totals *)

Definition entry_costs (l : list (ObjectID * V2.PerObjectStorage)) : Z :=
  sumZ (map (λ p, V2.per_storage_cost p.2) l).
Definition entry_rebates (l : list (ObjectID * V2.PerObjectStorage)) : Z :=
  sumZ (map (λ p, V2.per_storage_rebate p.2) l).

Lemma entry_costs_app l k : entry_costs (l ++ k) = entry_costs l + entry_costs k.
Proof. unfold entry_costs. by rewrite map_app, sumZ_app. Qed.
Lemma entry_rebates_app l k : entry_rebates (l ++ k) = entry_rebates l + entry_rebates k.
Proof. unfold entry_rebates. by rewrite map_app, sumZ_app. Qed.

Lemma written_costs t s :
  entry_costs (written_entries t s (btree_iter Z.le (written t))) =
  map_sum (λ _ o, object_cost s o) (written t).
Proof.
  unfold entry_costs, written_entries. rewrite map_map. simpl.
  apply (map_sum_iter Z.le (λ _ o, object_cost s o)).
Qed.
Lemma repriced_total s t : out_total (repriced s t) = map_sum (λ _ o, object_cost s o) (written t).
Proof.
  unfold out_total, repriced, written. simpl. unfold map_sum. rewrite map_to_list_fmap.
  rewrite map_map. by apply sumZ_map_ext.
Qed.
Lemma removed_costs t : entry_costs (removed_entries t) = 0.
Proof.
  unfold entry_costs, removed_entries. rewrite map_map. simpl. induction (removed t); simpl; lia.
Qed.

Lemma removed_rebates t :
  entry_rebates (removed_entries t) = set_sum (old_rebate t) (modified t ∖ dom (written t)).
Proof.
  unfold entry_rebates, removed_entries. rewrite map_map. simpl. apply set_sum_perm.
  - apply NoDup_filter, bset_iter_NoDup; apply _.
  - intros id. unfold removed. rewrite list_elem_of_filter, elem_of_bset_iter.
    rewrite elem_of_difference, not_elem_of_dom. tauto.
Qed.
Lemma written_rebates t s :
  entry_rebates (written_entries t s (btree_iter Z.le (written t))) =
  set_sum (old_rebate t) (modified t ∩ dom (written t)).
Proof.
  unfold entry_rebates, written_entries. rewrite map_map. simpl.
  rewrite (map_sum_iter Z.le (λ id (_ : Object), credited t id)), map_sum_keys.
  rewrite (set_sum_split _ _ (modified t)).
  assert (set_sum (credited t) (dom (written t) ∖ modified t) = 0) as Hzero.
  { apply set_sum_zero. intros id Hid. unfold credited. rewrite decide_False by set_solver. done. }
  assert (set_sum (credited t) (dom (written t) ∩ modified t) =
          set_sum (old_rebate t) (modified t ∩ dom (written t))) as Hold.
  { replace (dom (written t) ∩ modified t) with (modified t ∩ dom (written t)) by set_solver.
    apply set_sum_ext. intros id Hid. unfold credited. rewrite decide_True by set_solver. done. }
  lia.
Qed.
(** Everything the modified objects were worth is credited once. *)
Lemma collected_rebates t s :
  entry_rebates (written_entries t s (btree_iter Z.le (written t)) ++ removed_entries t) = in_total t.
Proof.
  rewrite entry_rebates_app, written_rebates, removed_rebates. unfold in_total.
  by rewrite <-set_sum_split.
Qed.

Lemma set_sum_restrict (f : ObjectID → Z) (X Y : gset ObjectID) :
  set_sum (λ id, if decide (id ∈ Y) then 0 else f id) X = set_sum f (X ∖ Y).
Proof.
  rewrite (set_sum_split _ X Y).
  rewrite (set_sum_ext _ (λ _, 0) (X ∩ Y)) by (intros id Hid; by rewrite decide_True by set_solver).
  rewrite (set_sum_zero (λ _, 0)) by done. apply set_sum_ext. intros id Hid.
  by rewrite decide_False by set_solver.
Qed.

(** What the entries of the list the conservation checks go through say. *)
Record info_ok (t : TemporaryStore) (i : ModifiedObjectInfo) : Prop := {
  in_before : ∀ md, i.1.2 = Some md →
    i.1.1 ∈ modified t ∧ dl_storage_rebate md = old_rebate t i.1.1 ∧ dl_version md = old_version t i.1.1;
  in_after : ∀ o, i.2 = Some o → written t !! i.1.1 = Some o;
}.
Definition sum_before (f : ObjectID → Z) (infos : list ModifiedObjectInfo) : Z :=
  sumZ (map (λ i : ModifiedObjectInfo, match i.1.2 with Some _ => f i.1.1 | None => 0 end) infos).
Definition sum_after (h : Object → Z) (infos : list ModifiedObjectInfo) : Z :=
  sumZ (map (λ i : ModifiedObjectInfo, default 0 (h <$> i.2)) infos).

Lemma sum_before_app f l k : sum_before f (l ++ k) = sum_before f l + sum_before f k.
Proof. unfold sum_before. by rewrite map_app, sumZ_app. Qed.
Lemma sum_after_app h l k : sum_after h (l ++ k) = sum_after h l + sum_after h k.
Proof. unfold sum_after. by rewrite map_app, sumZ_app. Qed.

Lemma touched_infos t l :
  store_ok t → (∀ id, id ∈ l → id ∈ modified t) →
  ∃ k, mapM (λ id, md ← get_object_modified_at t id; Done (id, md, written t !! id)) l = Done k ∧
    Forall (info_ok t) k ∧ (∀ f, sum_before f k = sumZ (map f l)) ∧
    (∀ h, sum_after h k = sumZ (map (λ id, default 0 (h <$> written t !! id)) l)).
Proof.
  intros Hok. induction l as [|id l IH]; intros Hin; [by eexists|].
  destruct IH as (k & Hk & Hall & Hb & Ha); [intros; apply Hin; by right|].
  assert (id ∈ modified t) as Hid by (apply Hin; left).
  destruct (modified_at_ok t id Hok Hid) as (md & Hmd & Hr & Hv).
  exists ((id, Some md, written t !! id) :: k). split_and!.
  - simpl. rewrite Hmd. simpl. by rewrite Hk.
  - constructor; [|done]. split; simpl; [|done]. by intros ? [= <-].
  - intros f. unfold sum_before in *. simpl. by rewrite Hb.
  - intros h. unfold sum_after in *. simpl. by rewrite Ha.
Qed.

Definition fresh_infos (t : TemporaryStore) (l : list (ObjectID * Object)) : list ModifiedObjectInfo :=
  omap (λ kv : ObjectID * Object,
    if decide (kv.1 ∈ modified t) then None else Some (kv.1, None, Some kv.2)) l.
Lemma fresh_sums t l f h :
  sum_before f (fresh_infos t l) = 0 ∧
  sum_after h (fresh_infos t l) =
    sumZ (map (λ kv, if decide (kv.1 ∈ modified t) then 0 else h kv.2) l).
Proof.
  unfold sum_before, sum_after, fresh_infos. induction l as [|kv l [IHb IHa]]; [done|].
  rewrite list_omap_cons. cbn [map]. case_decide; [by split|].
  split; [exact IHb|exact (f_equal (Z.add (h kv.2)) IHa)].
Qed.
Lemma fresh_infos_ok t l :
  (∀ kv, kv ∈ l → written t !! kv.1 = Some kv.2) → Forall (info_ok t) (fresh_infos t l).
Proof.
  unfold fresh_infos. induction l as [|kv l IH]; intros Hl; [constructor|]. rewrite list_omap_cons.
  specialize (IH ltac:(intros; apply Hl; by right)). case_decide; [done|]. constructor; [|done].
  split; simpl; [done|]. intros o [= <-]. apply Hl. left.
Qed.

(** The sums the checks take over it. *)
Lemma modified_objects_sums t :
  store_ok t →
  ∃ infos, get_modified_objects t = Done infos ∧ Forall (info_ok t) infos ∧
    (∀ f, sum_before f infos = set_sum f (modified t)) ∧
    (∀ h, sum_after h infos = map_sum (λ _, h) (written t)).
Proof.
  intros Hok. unfold get_modified_objects.
  destruct (touched_infos t (bset_iter Z.le (modified t)) Hok) as (k & Hk & Hall & Hb & Ha).
  { intros id. by rewrite elem_of_bset_iter. }
  match goal with |- context [mapM ?f ?l] => replace (mapM f l) with (Done k) by (symmetry; exact Hk) end.
  exists (k ++ fresh_infos t (btree_iter Z.le (written t))). split; [reflexivity|]. split_and!.
  - apply Forall_app. split; [done|]. apply fresh_infos_ok. intros [id o]. by rewrite elem_of_btree_iter.
  - intros f. rewrite sum_before_app.
    destruct (fresh_sums t (btree_iter Z.le (written t)) f (λ _, 0)) as [-> _].
    rewrite Hb, Z.add_0_r. apply set_sum_iter; apply _.
  - intros h. rewrite sum_after_app.
    destruct (fresh_sums t (btree_iter Z.le (written t)) (λ _, 0) h) as [_ ->].
    pose (new id := default 0 (h <$> written t !! id)).
    rewrite Ha. change (λ id, default 0 (h <$> written t !! id)) with new.
    rewrite (set_sum_iter Z.le new (modified t)).
    pose proof (map_sum_iter Z.le (λ id o, if decide (id ∈ modified t) then 0 else h o) (written t)) as Hit.
    cbv beta in Hit. etransitivity; [apply f_equal; exact Hit|]. clear Hit.
    rewrite (map_sum_ext _ (λ (id : ObjectID) _, if decide (id ∈ modified t) then 0 else new id)).
    2: { intros id o Hid. case_decide; [done|]. subst new. simpl. by rewrite Hid. }
    rewrite map_sum_keys, set_sum_restrict.
    rewrite (map_sum_ext (λ _, h) (λ id _, new id)), map_sum_keys.
    2: { intros id o Hid. subst new. simpl. by rewrite Hid. }
    rewrite (set_sum_split new (dom (written t)) (modified t)).
    rewrite (set_sum_split new (modified t) (dom (written t))).
    assert (set_sum new (modified t ∖ dom (written t)) = 0) as Hzero.
    { apply set_sum_zero. intros id Hid. subst new. simpl.
      by rewrite (not_elem_of_dom_1 (written t) id) by set_solver. }
    assert (dom (written t) ∩ modified t = modified t ∩ dom (written t)) as -> by set_solver. lia.
Qed.

(** The totals the conservation check computes. *)
Lemma modified_objects_totals t :
  store_ok t →
  ∃ infos, get_modified_objects t = Done infos ∧
    sumZ (omap (λ i : ModifiedObjectInfo, dl_storage_rebate <$> i.1.2) infos) = in_total t ∧
    sumZ (omap (λ i : ModifiedObjectInfo, storage_rebate <$> i.2) infos) = out_total t.
Proof.
  intros Hok. destruct (modified_objects_sums t Hok) as (infos & Hi & Hall & Hb & Ha).
  exists infos. split_and!; [done|rewrite sumZ_omap..].
  - unfold in_total. rewrite <-Hb. unfold sum_before. apply sumZ_map_ext. intros i Hin.
    rewrite Forall_forall in Hall. destruct (i.1.2) as [md|] eqn:Hmd; [|done]. simpl.
    by destruct (in_before t i (Hall i Hin) md Hmd) as (_ & ? & _).
  - unfold out_total. by rewrite <-Ha.
Qed.

(** What makes the check succeed. *)
Lemma check_mgo_conserved_ok t c :
  store_ok t → 0 ≤ sum_storage_rebate c → 0 ≤ sum_non_refundable_storage_fee c →
  (sum_storage_cost c = 0 →
     wrap64 (in_total t) =
     wrap64 (out_total t + (sum_storage_rebate c + sum_non_refundable_storage_fee c))) →
  (sum_storage_cost c ≠ 0 →
     wrap64 (in_total t) = wrap64 (sum_storage_rebate c + sum_non_refundable_storage_fee c) ∧
     sum_storage_cost c = wrap64 (out_total t)) →
  check_mgo_conserved t true c = Done (Ok ()).
Proof.
  intros Hok Hr Hf Hzero Hpos. unfold check_mgo_conserved. simpl.
  destruct (modified_objects_totals t Hok) as (infos & -> & Hin & Hout).
  rewrite bind_ret_l, !sum64_wrap, Hin, Hout.
  case_test (sum_storage_cost c =? 0) as Hc.
  - rewrite wrap64_add_l. rewrite <-Z.add_assoc, wrap64_add_l. rewrite Hzero by done.
    by rewrite Z.eqb_refl.
  - destruct (Hpos Hc) as [-> ->]. by rewrite !Z.eqb_refl.
Qed.

(** * Writing back untouched inputs *)

Definition set_exec (w : gmap ObjectID Object) (m : gset ObjectID) (t : TemporaryStore) : TemporaryStore :=
  set_results {| written_objects := w; modified_objects := m; created_object_ids := created t;
                 deleted_object_ids := deleted t;
                 user_events := user_events (execution_results t) |} t.

(** The mutable inputs the transaction has not modified. *)
Definition untouched (t : TemporaryStore) : gmap ObjectID Object :=
  filter (λ kv, is_Some (mutable_input_refs t !! kv.1) ∧ kv.1 ∉ modified t) (input_objects t).
Definition ensured (t : TemporaryStore) : TemporaryStore :=
  set_exec (untouched t ∪ written t) (dom (mutable_input_refs t) ∪ modified t) t.

Lemma mutate_ok t o id :
  object_id o = Done id →
  mutate_input_object o t = Done (set_exec (<[id := o]> (written t)) ({[id]} ∪ modified t) t).
Proof. intros Hid. unfold mutate_input_object. by rewrite Hid. Qed.

Lemma mutate_all t l ol :
  NoDup l → Forall2 (λ id o, object_id o = Done id) l ol →
  foldM (λ t object, mutate_input_object object t) t ol =
    Done (set_exec (list_to_map (zip l ol) ∪ written t) (list_to_set l ∪ modified t) t).
Proof.
  intros Hnd Hall. revert t Hnd. induction Hall as [|id o l ol Hid Hall IH]; intros t Hnd.
  - cbn [foldM]. f_equal. destruct t as [? ? ? ? [] ? ? ?]. unfold set_exec, set_results, written,
      modified, created, deleted. simpl. by rewrite !(left_id_L ∅ (∪)).
  - apply NoDup_cons in Hnd as [Hni Hnd]. cbn [foldM]. rewrite (mutate_ok t o id Hid).
    rewrite bind_ret_l, IH by done. f_equal. unfold set_exec, set_results, written, modified,
      created, deleted. cbn [execution_results written_objects modified_objects].
    f_equal. f_equal; [|set_solver]. simpl.
    rewrite <-insert_union_r, <-insert_union_l; [done|].
    apply not_elem_of_list_to_map_1. intros Hin. apply Hni.
    apply list_elem_of_fmap in Hin as ([id' o'] & -> & Hin). by apply elem_of_zip_l in Hin.
Qed.

Lemma zip_lookup (m : gmap ObjectID Object) l ol :
  Forall2 (λ id o, m !! id = Some o) l ol →
  ∀ id o, (id, o) ∈ zip l ol ↔ m !! id = Some o ∧ id ∈ l.
Proof.
  induction 1 as [|id' o' l ol Hid Hall IH]; intros id o; simpl.
  - rewrite !elem_of_nil. naive_solver.
  - rewrite !elem_of_cons, IH. naive_solver.
Qed.

Lemma ensure_ok t : inputs_ok t → ensure_active_inputs_mutated t = Done (ensured t).
Proof.
  intros [Hids Hrefs _]. unfold ensure_active_inputs_mutated.
  set (l := filter _ (bset_iter Z.le (dom (mutable_input_refs t)))).
  assert (∀ id, id ∈ l ↔ is_Some (mutable_input_refs t !! id) ∧ id ∉ modified t) as Hl.
  { intros id. subst l. rewrite list_elem_of_filter, elem_of_bset_iter, elem_of_dom. tauto. }
  assert (NoDup l) as Hnd.
  { apply NoDup_filter, bset_iter_NoDup; apply _. }
  assert (∃ ol, Forall2 (λ id o, input_objects t !! id = Some o) l ol) as [ol Hol].
  { apply Forall_exists_Forall2_l, Forall_forall. intros id [Hid _]%Hl. by apply Hrefs. }
  assert (mapM (λ id, unwrap (input_objects t !! id)) l = Done ol) as ->.
  { apply mapM_Done. eapply Forall2_impl; [done|]. simpl. by intros id o ->. }
  rewrite bind_ret_l, (mutate_all t l ol Hnd); [|by eapply Forall2_impl; [done|]; simpl; eauto].
  f_equal. unfold ensured. f_equal.
  - f_equal. apply map_eq. intros id. unfold untouched. apply option_eq. intros o.
    rewrite map_lookup_filter_Some. simpl. rewrite <-Hl.
    rewrite <-elem_of_list_to_map; [by rewrite (zip_lookup _ _ _ Hol id o)|].
    rewrite fst_zip; [done|]. by apply Forall2_length in Hol; lia.
  - apply set_eq. intros id. rewrite !elem_of_union, elem_of_list_to_set, Hl, elem_of_dom.
    destruct (decide (id ∈ modified t)); tauto.
Qed.

(** * Gas coins *)

Definition coin_object (o : Object) : Prop :=
  ∃ m, data o = Move m ∧ type_ m = GasCoin ∧ length (contents m) = (ID_END_INDEX + 8)%nat.
Definition balance (o : Object) : Z :=
  match data o with Move m => from_le_bytes (drop ID_END_INDEX (contents m)) | Package _ => 0 end.
Definition with_balance (v : Z) (o : Object) : Object :=
  match data o with
  | Move m =>
      set_data (Move {| type_ := type_ m; has_public_transfer := has_public_transfer m;
                        mo_version := mo_version m;
                        contents := take ID_END_INDEX (contents m) ++ to_le_bytes 8 v |}) o
  | Package _ => o
  end.

Lemma coin_value_get m :
  length (contents m) = (ID_END_INDEX + 8)%nat →
  get_coin_value_unsafe m = Done (from_le_bytes (drop ID_END_INDEX (contents m))).
Proof.
  intros Hlen. unfold get_coin_value_unsafe. rewrite length_drop, Hlen.
  rewrite (proj2 (Nat.leb_le _ _)) by lia. by rewrite Nat.add_comm, Nat.add_sub.
Qed.
Lemma coin_value_set m v :
  length (contents m) = (ID_END_INDEX + 8)%nat →
  set_coin_value_unsafe m v =
    Done {| type_ := type_ m; has_public_transfer := has_public_transfer m;
            mo_version := mo_version m;
            contents := take ID_END_INDEX (contents m) ++ to_le_bytes 8 v |}.
Proof.
  intros Hlen. unfold set_coin_value_unsafe.
  by rewrite (proj2 (Nat.leb_le _ _)) by (rewrite Hlen; lia).
Qed.

(** Changing the balance keeps the identifier, the size and the rebate. *)
Lemma with_balance_ok o v :
  coin_object o → is_u64 v →
  object_id (with_balance v o) = object_id o ∧ balance (with_balance v o) = v ∧
  coin_object (with_balance v o) ∧ storage_rebate (with_balance v o) = storage_rebate o ∧
  object_size_for_gas_metering (with_balance v o) = object_size_for_gas_metering o.
Proof.
  intros (m & Hd & Ht & Hlen) Hv.
  destruct (set_coin_value_ok m v) as (m' & Hset & Hget & Hid & Hty & _ & _ & Hlen');
    [lia|done|]. rewrite (coin_value_set m v Hlen) in Hset.
  assert (m' = _) as Hm' by (by injection Hset). clear Hset.
  unfold with_balance, object_id, balance, object_size_for_gas_metering, coin_object, move_object_size.
  rewrite Hd. cbn [data set_data]. rewrite <-Hm'. rewrite (coin_value_get m' Hlen') in Hget.
  injection Hget as Hget. rewrite Hget, Hid, Hlen', Hlen, Hty.
  split_and!; try done. exists m'. split_and!; [done|by rewrite Hty|done].
Qed.

Lemma with_balance_set o v :
  coin_object o →
  ∃ m m', try_as_move (data o) = Some m ∧ set_coin_value_unsafe m v = Done m' ∧
    set_data (Move m') o = with_balance v o.
Proof.
  intros (m & Hd & Ht & Hlen). exists m. eexists. unfold with_balance. rewrite Hd.
  split_and!; [done|by apply coin_value_set|done].
Qed.

Lemma deduct_gas_coin_ok o net :
  coin_object o → net ≤ balance o → is_u64 (balance o - net) → i64_min < net →
  deduct_gas_coin o net = Done (with_balance (balance o - net) o).
Proof.
  intros (m & Hd & Ht & Hlen) Hle Hb Hmin. unfold deduct_gas_coin, with_balance. rewrite Hd. simpl.
  unfold balance in *. rewrite Hd in *. rewrite (coin_value_get m Hlen), bind_ret_l.
  set (b := from_le_bytes _) in *. clearbody b.
  assert ((if net <? 0 then rebate ← neg_as_u64 net; add64 b rebate
           else _ ← assert (net <=? b); sub64 b net) = Done (b - net)) as ->.
  { case_test (net <? 0) as Hneg.
    - unfold neg_as_u64, i64_min in *. rewrite (proj2 (Z.eqb_neq _ _)) by lia. simpl.
      rewrite wrap64_small by width. rewrite add64_small by width. by rewrite Z.add_opp_r.
    - rewrite (proj2 (Z.leb_le _ _)) by lia. simpl. by apply sub64_small. }
  rewrite bind_ret_l, (coin_value_set m _ Hlen). done.
Qed.

Definition coin_ids (g : GasCharger) : list ObjectID := map (λ r : ObjectRef, r.1.1) (gas_coins g).
Definition coin_value (t : TemporaryStore) (id : ObjectID) : Z :=
  match input_objects t !! id with Some o => balance o | None => 0 end.
Definition coins_total (g : GasCharger) (t : TemporaryStore) : Z :=
  sumZ (map (coin_value t) (coin_ids g)).

(** What the checks on a transaction's inputs guarantee of its gas coins. *)
Record charger_ok (g : GasCharger) (t : TemporaryStore) : Prop := {
  co_smashed : ∃ id, smashed_gas_coin g = Some id ∧ head (coin_ids g) = Some id;
  co_nodup : NoDup (coin_ids g);
  co_coins : ∀ id, id ∈ coin_ids g →
    ∃ o, input_objects t !! id = Some o ∧ coin_object o ∧ is_Some (mutable_input_refs t !! id) ∧
         0 ≤ balance o;
  co_total : coins_total g t ≤ u64_max;
}.

(** The store right after smashing: all but the first coin deleted, the first
    one holding the total. *)
Definition smashed_store (g : GasCharger) (t : TemporaryStore) : TemporaryStore :=
  match coin_ids g with
  | first :: (_ :: _) as others =>
      match input_objects t !! first with
      | Some o =>
          set_results {|
            written_objects := {[first := with_balance (coins_total g t) o]};
            modified_objects := list_to_set (coin_ids g);
            created_object_ids := ∅;
            deleted_object_ids := list_to_set (tail (coin_ids g)); user_events := [] |} t
      | None => drop_writes t
      end
  | _ => drop_writes t
  end.

Lemma coins_total_nonneg g t : charger_ok g t → 0 ≤ coins_total g t.
Proof.
  intros Hok. apply sumZ_nonneg, Forall_map, Forall_forall. intros id Hid.
  destruct (co_coins g t Hok id Hid) as (o & Ho & _ & _ & Hb). unfold coin_value. by rewrite Ho.
Qed.

Lemma delete_all t l :
  foldl (λ t (r : ObjectRef), delete_input_object r.1.1 t) t l =
  set_results {| written_objects := written t;
                 modified_objects := list_to_set (map (λ r : ObjectRef, r.1.1) l) ∪ modified t;
                 created_object_ids := created t;
                 deleted_object_ids := list_to_set (map (λ r : ObjectRef, r.1.1) l) ∪ deleted t;
                 user_events := user_events (execution_results t) |} t.
Proof.
  revert t. induction l as [|r l IH]; intros t.
  - simpl. destruct t as [? ? ? ? [] ? ? ?]. unfold set_results, written, modified, created, deleted.
    simpl. by rewrite !(left_id_L ∅ (∪)).
  - cbn [foldl]. rewrite IH. unfold set_results, written, modified, created, deleted. simpl.
    f_equal. f_equal; set_solver.
Qed.

Lemma coin_values_ok t l :
  (∀ r, r ∈ l → ∃ o, input_objects t !! r.1.1 = Some o ∧ coin_object o) →
  mapM (gas_coin_value t) l = Done (map (λ r : ObjectRef, coin_value t r.1.1) l).
Proof.
  intros Hl. apply mapM_Done. induction l as [|r l IH]; simpl; constructor.
  - destruct (Hl r) as (o & Ho & m & Hd & Ht & Hlen); [left|].
    unfold gas_coin_value, coin_value, balance. rewrite Ho. simpl. rewrite Hd, Ht. simpl.
    by apply coin_value_get.
  - apply IH. intros. apply Hl. by right.
Qed.

Lemma reset_storage_smashed g id :
  smashed_gas_coin g = Some id → set_smashed (Some id) g = g.
Proof. destruct g. simpl. by intros ->. Qed.

Lemma reset_ok g t :
  inputs_ok t → charger_ok g t → reset g t = Done (reset_storage g, smashed_store g t).
Proof.
  intros Hi Hok. pose proof (coins_total_nonneg g t Hok) as Hnn.
  destruct Hok as [(id & Hsm & Hhd) Hnd Hcoins Htot]. unfold reset, smash_gas, smashed_store.
  unfold coin_ids in *. cbn [gas_coins reset_storage set_status].
  destruct (gas_coins g) as [|first others] eqn:Hg; [done|]. cbn [map head] in Hhd.
  assert (first.1.1 = id) as Hfst by congruence. clear Hhd.
  assert (set_smashed (Some first.1.1) (reset_storage g) = reset_storage g) as Hset.
  { apply reset_storage_smashed. simpl. congruence. }
  destruct others as [|second others]; simpl is_none.
  - cbn [map]. rewrite Hset. simpl. by destruct (_ =? _).
  - cbn [andb]. cbv iota. rewrite Hset.
    assert (∀ r, r ∈ first :: second :: others → ∃ o, input_objects t !! r.1.1 = Some o ∧ coin_object o)
      as Hall.
    { intros r Hr. destruct (Hcoins r.1.1) as (o & ? & ? & _); [|by eexists].
      apply list_elem_of_fmap. by exists r. }
    change (drop_writes t) with (set_results results_default t).
    rewrite (coin_values_ok (set_results results_default t)) by done. rewrite bind_ret_l.
    assert (sum64 (map (λ r : ObjectRef, coin_value (set_results results_default t) r.1.1)
              (first :: second :: others)) = coins_total g t) as ->.
    { unfold coins_total, coin_ids in *. rewrite Hg in *.
      rewrite sum64_small; [by rewrite map_map| |by rewrite map_map in Htot].
      apply Forall_map, Forall_forall. intros r Hr.
      destruct (Hcoins r.1.1) as (o' & Ho' & _ & _ & ?); [apply list_elem_of_fmap; by exists r|].
      unfold coin_value. simpl. by rewrite Ho'. }
    destruct (Hall first) as (o & Ho & Hco); [left|].
    change (input_objects (set_results results_default t)) with (input_objects t).
    rewrite Ho. simpl unwrap. rewrite bind_ret_l.
    destruct (with_balance_set o (coins_total g t) Hco) as (m & m' & -> & Hset' & Heq).
    simpl unwrap. rewrite bind_ret_l, Hset', bind_ret_l, Heq. clear m m' Hset' Heq.
    rewrite delete_all.
    assert (object_id (with_balance (coins_total g t) o) = Done first.1.1) as Hid.
    { destruct (with_balance_ok o (coins_total g t) Hco) as (-> & _); [|by apply (io_ids t Hi)].
      by split. }
    rewrite (mutate_ok _ _ _ Hid), bind_ret_l. cbn [map tail]. rewrite Ho.
    unfold set_exec, set_results, written, modified, created, deleted.
    cbn [execution_results written_objects modified_objects created_object_ids deleted_object_ids
         results_default user_events]. rewrite !(right_id_L ∅ (∪)). done.
Qed.

(** * The store of a failed transaction *)

Definition failed_store (g : GasCharger) (t : TemporaryStore) : TemporaryStore :=
  ensured (smashed_store g t).

Lemma inputs_ok_results r t : inputs_ok t → inputs_ok (set_results r t).
Proof. by intros []; split. Qed.
Lemma smashed_store_results g t : ∃ r, smashed_store g t = set_results r t.
Proof.
  unfold smashed_store, drop_writes. destruct (coin_ids g) as [|? [|? ?]]; try by eexists.
  destruct (input_objects t !! _); by eexists.
Qed.

(** An object whose balance alone may have changed. *)
Definition same_but_balance (o o' : Object) : Prop :=
  o' = o ∨ ∃ v, is_u64 v ∧ coin_object o ∧ o' = with_balance v o.
Lemma same_but_balance_ok o o' :
  same_but_balance o o' →
  object_id o' = object_id o ∧ storage_rebate o' = storage_rebate o ∧
  object_size_for_gas_metering o' = object_size_for_gas_metering o.
Proof.
  intros [->|(v & Hv & Hco & ->)]; [done|].
  by destruct (with_balance_ok o v Hco Hv) as (? & _ & _ & ? & ?).
Qed.

(** Its modified objects are the mutable inputs; the coins smashed are gone,
    the others are written back, the first coin with the total balance. *)
Lemma failed_modified g t :
  charger_ok g t → modified (failed_store g t) = dom (mutable_input_refs t).
Proof.
  intros Hok. unfold failed_store, ensured, modified at 1. simpl.
  destruct (smashed_store_results g t) as [r Hr].
  assert (mutable_input_refs (smashed_store g t) = mutable_input_refs t) as -> by by rewrite Hr.
  enough (modified (smashed_store g t) ⊆ dom (mutable_input_refs t)) by set_solver.
  unfold smashed_store. destruct (coin_ids g) as [|first [|second others]] eqn:Hids; [set_solver..|].
  destruct (input_objects t !! first); [|set_solver]. unfold modified. simpl.
  intros id Hid. apply elem_of_dom. destruct (co_coins g t Hok id) as (_ & _ & _ & ? & _); [|done].
  rewrite Hids. set_solver.
Qed.

Lemma failed_written_none g t id :
  charger_ok g t → id ∈ tail (coin_ids g) ∨ mutable_input_refs t !! id = None →
  written (failed_store g t) !! id = None.
Proof.
  intros Hok Hcase. unfold failed_store, ensured, written at 1. simpl.
  apply lookup_union_None. unfold untouched, smashed_store.
  destruct (coin_ids g) as [|first [|second others]] eqn:Hids; simpl in Hcase.
  - split; [|done]. apply map_lookup_filter_None_2. right. intros o _ [[? ?] _]. simpl in *.
    destruct Hcase as [Hc|Hc]; [by apply not_elem_of_nil in Hc|congruence].
  - split; [|done]. apply map_lookup_filter_None_2. right. intros o _ [[? ?] _]. simpl in *.
    destruct Hcase as [Hc|Hc]; [by apply not_elem_of_nil in Hc|congruence].
  - destruct (co_coins g t Hok first) as (o & Ho & _ & [ref Href] & _); [rewrite Hids; left|].
    rewrite Ho. split.
    + apply map_lookup_filter_None_2. right. intros o' _ [[? ?] Hni]. simpl in *.
      destruct Hcase as [Hc|Hc]; [|congruence]. apply Hni. unfold modified. simpl. set_solver.
    + unfold written. simpl. apply lookup_singleton_None. intros ->.
      destruct Hcase as [Hc|Hc]; [|congruence].
      pose proof (co_nodup g t Hok) as Hnd. rewrite Hids in Hnd. by apply NoDup_cons in Hnd as [? _].
Qed.

Lemma failed_written_some g t id o :
  inputs_ok t → charger_ok g t → is_Some (mutable_input_refs t !! id) → id ∉ tail (coin_ids g) →
  input_objects t !! id = Some o →
  ∃ o', written (failed_store g t) !! id = Some o' ∧ same_but_balance o o' ∧
    (head (coin_ids g) = Some id → coin_object o' ∧ balance o' = coins_total g t) ∧
    (head (coin_ids g) ≠ Some id → o' = o).
Proof.
  intros Hi Hok Href Htl Ho. pose proof (coins_total_nonneg g t Hok) as Hnn.
  unfold failed_store, ensured, written at 1. simpl.
  assert (∀ t', mutable_input_refs t' = mutable_input_refs t → input_objects t' = input_objects t →
    id ∉ modified t' → (untouched t' ∪ written t') !! id = Some o) as Hplain.
  { intros t' Hr' Hi' Hm'. apply lookup_union_Some_l. unfold untouched.
    apply map_lookup_filter_Some. rewrite Hr', Hi'. by split. }
  unfold smashed_store. destruct (coin_ids g) as [|first [|second others]] eqn:Hids; simpl in Htl |- *.
  - destruct (co_smashed g t Hok) as (? & _ & Hhd). by rewrite Hids in Hhd.
  - exists o. split_and!; [|by left| |done].
    + apply Hplain; [done..|]. unfold modified. simpl. set_solver.
    + intros [= ->]. destruct (co_coins g t Hok id) as (o' & Ho' & Hco & _); [rewrite Hids; left|].
      replace o' with o in * by congruence. split; [done|].
      unfold coins_total. rewrite Hids. simpl. unfold coin_value. rewrite Ho. lia.
  - destruct (co_coins g t Hok first) as (p & Hp & Hco & _); [rewrite Hids; left|].
    rewrite Hp. destruct (decide (first = id)) as [->|Hne].
    + replace p with o in * by congruence. exists (with_balance (coins_total g t) o).
      assert (is_u64 (coins_total g t)) as Hu by (split; [done|apply (co_total g t Hok)]).
      split_and!.
      * rewrite lookup_union_r; [apply lookup_singleton_eq|]. unfold untouched.
        apply map_lookup_filter_None_2. right. intros o' _ [_ Hni]. apply Hni. unfold modified. simpl.
        set_solver.
      * right. by exists (coins_total g t).
      * intros _. by destruct (with_balance_ok o _ Hco Hu) as (_ & ? & ? & _).
      * done.
    + exists o. split_and!; [|by left|congruence|done].
      apply Hplain; [done..|]. unfold modified. simpl. set_solver.
Qed.

Lemma failed_inputs g t :
  input_objects (failed_store g t) = input_objects t ∧
  mutable_input_refs (failed_store g t) = mutable_input_refs t ∧
  old_rebate (failed_store g t) = old_rebate t.
Proof. unfold failed_store. by destruct (smashed_store_results g t) as [r ->]. Qed.

Lemma failed_store_ok g t : inputs_ok t → charger_ok g t → store_ok (failed_store g t).
Proof.
  intros Hi Hok. destruct (failed_inputs g t) as (Hin & Href & Hold).
  split.
  - unfold failed_store, ensured, set_exec. destruct (smashed_store_results g t) as [r ->].
    by do 2 apply inputs_ok_results.
  - intros id o' Hw.
    destruct (decide (id ∈ tail (coin_ids g))) as [Htl|Htl].
    { rewrite failed_written_none in Hw by auto. done. }
    destruct (mutable_input_refs t !! id) as [ref|] eqn:Hr.
    + destruct (io_refs t Hi id) as [o Ho]; [by rewrite Hr|].
      destruct (failed_written_some g t id o) as (o'' & Hw' & Hsame & _); [done|done|by rewrite Hr|done..|].
      replace o'' with o' in * by congruence.
      destruct (same_but_balance_ok o o' Hsame) as (-> & _). by apply (io_ids t Hi).
    + rewrite failed_written_none in Hw by auto. done.
  - intros id. rewrite failed_modified, Href, elem_of_dom by done. auto.
Qed.

(** Dropping the writes keeps every rebate: what is written back carries its
    old rebate, what is deleted is credited. *)
Lemma failed_balance g t :
  inputs_ok t → charger_ok g t →
  in_total (failed_store g t) =
    out_total (failed_store g t) + entry_rebates (removed_entries (failed_store g t)).
Proof.
  intros Hi Hok. destruct (failed_inputs g t) as (Hin & Href & Hold).
  pose proof (failed_store_ok g t Hi Hok) as Hst.
  rewrite removed_rebates. unfold in_total.
  rewrite (set_sum_split _ (modified (failed_store g t)) (dom (written (failed_store g t)))).
  f_equal. unfold out_total.
  assert (modified (failed_store g t) ∩ dom (written (failed_store g t)) =
          dom (written (failed_store g t))) as ->.
  { rewrite failed_modified by done. apply set_eq. intros id. rewrite elem_of_intersection.
    split; [by intros []|]. intros Hid. split; [|done]. apply elem_of_dom in Hid as [o Hid].
    destruct (mutable_input_refs t !! id) as [ref|] eqn:Hr; [by apply elem_of_dom; rewrite Hr|].
    by rewrite failed_written_none in Hid by auto. }
  rewrite <-map_sum_keys. apply map_sum_ext. intros id o' Hw. rewrite Hold. unfold old_rebate.
  destruct (decide (id ∈ tail (coin_ids g))) as [Htl|Htl].
  { rewrite failed_written_none in Hw by auto. done. }
  destruct (mutable_input_refs t !! id) as [ref|] eqn:Hr.
  - destruct (io_refs t Hi id) as [o Ho]; [by rewrite Hr|].
    destruct (failed_written_some g t id o) as (o'' & Hw' & Hsame & _); [done|done|by rewrite Hr|done..|].
    replace o'' with o' in * by congruence. rewrite Ho. simpl.
    by destruct (same_but_balance_ok o o' Hsame) as (_ & -> & _).
  - rewrite failed_written_none in Hw by auto. done.
Qed.

Lemma ensured_store_ok t : store_ok t → store_ok (ensured t).
Proof.
  intros [Hi Hw Hk]. split; [by apply inputs_ok_results| |].
  - intros id o. unfold ensured, written at 1. simpl. intros [Hu|[_ Ho]]%lookup_union_Some_raw.
    + unfold untouched in Hu. apply map_lookup_filter_Some in Hu as [Hu _]. by apply (io_ids t Hi).
    + by apply Hw.
  - intros id. unfold ensured, modified at 1. simpl. rewrite elem_of_union, elem_of_dom.
    intros [?|?]; [by left|by apply Hk].
Qed.

(** * The end of charging *)

(** Amounts stay below [amount_limit], so that no sum of a few of them leaves
    [u64] or [i64]. *)
Definition amount_limit : Z := 2 ^ 61.

(** The state once storage has been charged: the gas coin holds [b]. *)
Record settled (g : GasCharger) (t : TemporaryStore) (id : ObjectID) (b : Z) : Prop := {
  se_store : store_ok t;
  se_rate : 0 ≤ V2.rebate_rate (gc_status g) ≤ BASIS_POINTS;
  se_comp : 0 ≤ V2.computation_cost (gc_status g) ≤ V2.gas_budget (gc_status g);
  se_costs : 0 ≤ entry_costs (V2.per_object_storage (gc_status g)) ≤ amount_limit;
  se_rebates : 0 ≤ entry_rebates (V2.per_object_storage (gc_status g)) ≤ amount_limit;
  se_paid :
    V2.computation_cost (gc_status g) + entry_costs (V2.per_object_storage (gc_status g)) -
    sender_rebate (entry_rebates (V2.per_object_storage (gc_status g))) (V2.rebate_rate (gc_status g))
    ≤ V2.gas_budget (gc_status g);
  se_coin : ∃ o, written t !! id = Some o ∧ coin_object o ∧ balance o = b;
  se_known : id ∈ modified t;
  se_unmetered : V2.unmetered_storage_rebate (gc_status g) = 0;
  se_balance : V2.gas_budget (gc_status g) ≤ b ≤ amount_limit;
  se_conserved :
    (entry_costs (V2.per_object_storage (gc_status g)) = 0 ∧
     in_total t = out_total t + entry_rebates (V2.per_object_storage (gc_status g))) ∨
    (in_total t = entry_rebates (V2.per_object_storage (gc_status g)) ∧
     out_total t = entry_costs (V2.per_object_storage (gc_status g)));
}.

Lemma status_sums s :
  (0 ≤ entry_costs (V2.per_object_storage s) ≤ amount_limit →
     V2.storage_cost s = entry_costs (V2.per_object_storage s)) ∧
  (0 ≤ entry_rebates (V2.per_object_storage s) ≤ amount_limit →
     V2.status_storage_rebate s = entry_rebates (V2.per_object_storage s)).
Proof.
  unfold V2.storage_cost, V2.storage_gas_units, V2.status_storage_rebate, amount_limit.
  rewrite !sum64_wrap. split; intros Hb; by apply wrap64_small; width.
Qed.

(** What is charged, as [net_gas_usage] reports it. *)
Definition net_usage (c : GasCostSummary) : Z :=
  sum_computation_cost c + sum_storage_cost c - sum_storage_rebate c.

Lemma net_gas_usage_ok c :
  0 ≤ sum_computation_cost c ≤ amount_limit → 0 ≤ sum_storage_cost c ≤ amount_limit →
  0 ≤ sum_storage_rebate c ≤ amount_limit → net_gas_usage c = Done (net_usage c).
Proof.
  intros. unfold net_gas_usage, gas_used, net_usage, amount_limit in *.
  rewrite add64_small by width. rewrite bind_ret_l. unfold as_i64, sub_i64, i64_max, i64_min.
  rewrite !(proj2 (Z.leb_le _ (2 ^ 63 - 1))) by lia.
  by rewrite (proj2 (Z.leb_le (- 2 ^ 63) _)) by lia.
Qed.

Definition finish (g : GasCharger) (t : TemporaryStore) (id : ObjectID)
    : exec (TemporaryStore * GasCostSummary) :=
  cost_summary ← V2.summary (gc_status g);
  gas_used ← net_gas_usage cost_summary;
  gas_object ← unwrap (read_object t id);
  gas_object ← deduct_gas_coin gas_object gas_used;
  t ← mutate_input_object gas_object t;
  Done (t, cost_summary).

Lemma finish_bind {R X} g t id (r : R) (k : GasCharger → TemporaryStore → R → GasCostSummary → X) :
  (cost_summary ← V2.summary (gc_status g);
   gas_used ← net_gas_usage cost_summary;
   gas_object ← unwrap (read_object t id);
   gas_object ← deduct_gas_coin gas_object gas_used;
   t ← mutate_input_object gas_object t;
   Done (k g t r cost_summary)) =
  ('(t, cost_summary) ← finish g t id; Done (k g t r cost_summary)).
Proof.
  unfold finish. destruct (V2.summary _) as [c| |]; simpl; [|done..].
  destruct (net_gas_usage c) as [u| |]; simpl; [|done..].
  destruct (unwrap _) as [o| |]; simpl; [|done..].
  destruct (deduct_gas_coin o u) as [o'| |]; simpl; [|done..].
  by destruct (mutate_input_object o' t).
Qed.

Lemma finish_ok g t id b :
  settled g t id b →
  ∃ c o, finish g t id =
      Done (set_exec (<[id := with_balance (b - net_usage c) o]> (written t)) (modified t) t, c) ∧
    written t !! id = Some o ∧ coin_object o ∧ is_u64 (b - net_usage c) ∧
    sum_computation_cost c = V2.computation_cost (gc_status g) ∧
    sum_storage_cost c = entry_costs (V2.per_object_storage (gc_status g)) ∧
    sum_storage_rebate c + sum_non_refundable_storage_fee c =
      entry_rebates (V2.per_object_storage (gc_status g)) ∧
    0 ≤ sum_storage_rebate c ∧ 0 ≤ sum_non_refundable_storage_fee c ∧
    net_usage c ≤ V2.gas_budget (gc_status g).
Proof.
  intros [Hst Hrate Hcomp Hc Hr Hpaid (o & Ho & Hco & Hbal) Hmod _ Hb _].
  destruct (status_sums (gc_status g)) as [HC HR]. specialize (HC Hc). specialize (HR Hr).
  destruct (summary_ok (gc_status g) Hrate) as (c & Hsum & E1 & E2 & E3 & E4 & E5 & E6).
  rewrite HC in E2. rewrite HR in E3, E4. exists c, o.
  assert (net_usage c ≤ V2.gas_budget (gc_status g)) as Hnet by (unfold net_usage; lia).
  assert (- amount_limit ≤ net_usage c) as Hneg by (unfold net_usage; lia).
  assert (is_u64 (b - net_usage c)) as Hu by (unfold amount_limit in *; width).
  split_and!; try done; try (width || lia).
  unfold finish. rewrite Hsum, bind_ret_l, net_gas_usage_ok, bind_ret_l by lia.
  unfold read_object. rewrite Ho. simpl unwrap. rewrite bind_ret_l, deduct_gas_coin_ok;
    [|done|lia|by rewrite Hbal|unfold i64_min, amount_limit in *; lia].
  rewrite bind_ret_l, Hbal.
  destruct (with_balance_ok o (b - net_usage c) Hco Hu) as (Hid & _).
  rewrite (mutate_ok _ _ id) by (rewrite Hid; by apply (st_written t Hst)). rewrite bind_ret_l.
  do 2 f_equal. unfold set_exec. f_equal. f_equal. set_solver.
Qed.

Lemma paid_store_ok t id o v :
  store_ok t → written t !! id = Some o → coin_object o → is_u64 v →
  store_ok (set_exec (<[id := with_balance v o]> (written t)) (modified t) t).
Proof.
  intros [Hi Hw Hk] Ho Hco Hu. destruct (with_balance_ok o _ Hco Hu) as (Hid & _).
  split; [by apply inputs_ok_results| |done].
  intros id' o'. unfold written at 1. simpl. intros [[<- <-]|[_ Ho']]%lookup_insert_Some.
  - rewrite Hid. by apply Hw.
  - by apply Hw.
Qed.

(** The store after the gas coin has been charged conserves MGO. *)
Lemma finish_conserved g t id b c o :
  settled g t id b → written t !! id = Some o → coin_object o → is_u64 (b - net_usage c) →
  sum_storage_cost c = entry_costs (V2.per_object_storage (gc_status g)) →
  sum_storage_rebate c + sum_non_refundable_storage_fee c =
    entry_rebates (V2.per_object_storage (gc_status g)) →
  0 ≤ sum_storage_rebate c → 0 ≤ sum_non_refundable_storage_fee c →
  check_mgo_conserved
    (set_exec (<[id := with_balance (b - net_usage c) o]> (written t)) (modified t) t) true c =
    Done (Ok ()).
Proof.
  intros Hset Ho Hco Hu HC HR Hr0 Hf0. set (t' := set_exec _ _ t).
  destruct (with_balance_ok o _ Hco Hu) as (_ & _ & _ & Hreb & _).
  assert (store_ok t') as Hst by (apply paid_store_ok; [apply (se_store _ _ _ _ Hset)|done..]).
  assert (in_total t' = in_total t) as Hin by done.
  assert (out_total t' = out_total t) as Hout.
  { unfold t', out_total, written at 1. simpl.
    rewrite (map_sum_update _ (written t) id o) by done. lia. }
  destruct (se_conserved _ _ _ _ Hset) as [[H0 Hsum]|[HiR HoC]];
    pose proof (se_costs _ _ _ _ Hset) as Hcb; unfold amount_limit in Hcb.
  - apply check_mgo_conserved_ok; try done; rewrite Hin, Hout, HR; [|lia]. intros _.
    by rewrite Hsum.
  - apply check_mgo_conserved_ok; try done; rewrite Hin, Hout, HR, HC.
    + intros Hz. by rewrite HiR, HoC, Hz.
    + intros _. rewrite HiR, HoC. split; [done|]. rewrite wrap64_small; [done|width].
Qed.

(** * Storage charges *)

Definition acct (g : GasCharger) (k : Z) (l : list (ObjectID * V2.PerObjectStorage)) : GasCharger :=
  set_status (V2.set_computation_cost k (V2.set_storage l 0 (gc_status g))) g.

(** Whether the budget covers computation [k] and the storage entries [l]. *)
Definition affordable (g : GasCharger) (k : Z) (l : list (ObjectID * V2.PerObjectStorage)) : bool :=
  k + entry_costs l - sender_rebate (entry_rebates l) (V2.rebate_rate (gc_status g))
  <=? V2.gas_budget (gc_status g).

Definition entries_bounded (l : list (ObjectID * V2.PerObjectStorage)) : Prop :=
  0 ≤ entry_costs l ≤ amount_limit ∧ 0 ≤ entry_rebates l ≤ amount_limit.

Lemma charge_storage_ok g k l :
  0 ≤ V2.rebate_rate (gc_status g) ≤ BASIS_POINTS → 0 ≤ k ≤ V2.gas_budget (gc_status g) →
  entries_bounded l →
  V2.charge_storage_and_rebate (gc_status (acct g k l)) =
    Done (if affordable g k l then Ok () else Err InsufficientGas).
Proof.
  intros Hrate Hk [Hc Hr]. unfold V2.charge_storage_and_rebate, affordable.
  destruct (status_sums (gc_status (acct g k l))) as [HC HR].
  change (V2.per_object_storage (gc_status (acct g k l))) with l in HC, HR.
  rewrite HC, HR by done.
  destruct (sender_rebate_bounds (entry_rebates l) (V2.rebate_rate (gc_status g))) as [Hs _];
    [unfold amount_limit in *; width|done|].
  change (V2.rebate_rate (gc_status (acct g k l))) with (V2.rebate_rate (gc_status g)).
  change (V2.gas_budget (gc_status (acct g k l))) with (V2.gas_budget (gc_status g)).
  change (V2.computation_cost (gc_status (acct g k l))) with k.
  set (R := sender_rebate _ _) in *. clearbody R.
  rewrite (proj2 (Z.leb_le R _)) by lia. simpl assert. rewrite bind_ret_l.
  case_test (entry_costs l <=? R) as Hle.
  - by rewrite (proj2 (Z.leb_le _ _)) by lia.
  - rewrite !sub64_small by lia. rewrite !bind_ret_l.
    case_test (V2.gas_budget (gc_status g) - k <? entry_costs l - R) as Hlt.
    + by rewrite (proj2 (Z.leb_gt _ _)) by lia.
    + by rewrite (proj2 (Z.leb_le _ _)) by lia.
Qed.

(** A store whose objects can be priced, with bounded totals. *)
Record collectable (s : V2.MgoGasStatus) (t : TemporaryStore) : Prop := {
  cl_store : store_ok t;
  cl_price : ∀ id o, written t !! id = Some o → priceable s o;
  cl_cost : map_sum (λ _ o, object_cost s o) (written t) ≤ amount_limit;
  cl_rebate : in_total t ≤ amount_limit;
}.

Definition all_entries (s : V2.MgoGasStatus) (t : TemporaryStore) :=
  written_entries t s (btree_iter Z.le (written t)) ++ removed_entries t.

Lemma all_entries_bounded s t : collectable s t → entries_bounded (all_entries s t).
Proof.
  intros [Hst Hp Hc Hr]. unfold entries_bounded, all_entries.
  rewrite entry_costs_app, written_costs, removed_costs, collected_rebates, Z.add_0_r.
  split; split; try done.
  - apply map_sum_nonneg. intros id o Ho. destruct (Hp id o Ho) as (_ & _ & ?). lia.
  - apply set_sum_nonneg. intros id _. apply (io_rebates t (st_inputs t Hst)).
Qed.

Lemma collect_acct g t k :
  V2.charge (gc_status g) = true → collectable (gc_status g) t →
  collect_storage_and_rebate t (acct g k []) =
    Done (repriced (gc_status g) t, acct g k (all_entries (gc_status g) t)).
Proof.
  intros Hch [Hst Hp _ _]. exact (collect_ok t (acct g k []) Hst Hch Hp).
Qed.

Lemma settle_collected g t k id o :
  collectable (gc_status g) t → 0 ≤ V2.rebate_rate (gc_status g) ≤ BASIS_POINTS →
  0 ≤ k ≤ V2.gas_budget (gc_status g) →
  affordable g k (all_entries (gc_status g) t) = true →
  written t !! id = Some o → coin_object o → id ∈ modified t →
  V2.gas_budget (gc_status g) ≤ balance o ≤ amount_limit →
  settled (acct g k (all_entries (gc_status g) t)) (repriced (gc_status g) t) id (balance o).
Proof.
  intros Hcl Hrate Hk Haff Ho Hco Hmod Hb. pose proof (all_entries_bounded _ _ Hcl) as [Hc Hr].
  unfold affordable in Haff. bool_prop.
  split; simpl; try done.
  - apply repriced_ok, Hcl.
  - exists (set_storage_rebate (object_cost (gc_status g) o) o).
    unfold repriced, written. simpl. rewrite lookup_fmap. unfold written in Ho. by rewrite Ho.
  - right. unfold all_entries. rewrite collected_rebates. split; [done|].
    rewrite repriced_total, entry_costs_app, written_costs, removed_costs. lia.
Qed.

Lemma failed_coin g t id :
  inputs_ok t → charger_ok g t → smashed_gas_coin g = Some id →
  (∃ o, written (failed_store g t) !! id = Some o ∧ coin_object o ∧ balance o = coins_total g t) ∧
  id ∈ modified (failed_store g t).
Proof.
  intros Hi Hok Hsm. destruct (co_smashed g t Hok) as (id' & Hsm' & Hhd).
  assert (id' = id) as -> by congruence.
  destruct (co_coins g t Hok id) as (o & Ho & _ & Href & _).
  { destruct (coin_ids g); simplify_eq/=. left. }
  split.
  - destruct (failed_written_some g t id o) as (o' & Hw & _ & Hcoin & _); [done..| |done|].
    { pose proof (co_nodup g t Hok) as Hnd. destruct (coin_ids g); simplify_eq/=.
      by apply NoDup_cons in Hnd as [? _]. }
    exists o'. by destruct (Hcoin Hhd).
  - rewrite failed_modified by done. by apply elem_of_dom.
Qed.

Lemma settle_budget g t id :
  inputs_ok t → charger_ok g t → smashed_gas_coin g = Some id →
  0 ≤ V2.rebate_rate (gc_status g) ≤ BASIS_POINTS →
  in_total (failed_store g t) ≤ amount_limit → 0 ≤ V2.gas_budget (gc_status g) →
  V2.gas_budget (gc_status g) ≤ coins_total g t ≤ amount_limit →
  settled (acct g (V2.gas_budget (gc_status g)) (removed_entries (failed_store g t)))
    (failed_store g t) id (coins_total g t).
Proof.
  intros Hi Hok Hsm Hrate Hin Hb0 Hb. destruct (failed_coin g t id Hi Hok Hsm) as [Hcoin Hmod].
  pose proof (failed_store_ok g t Hi Hok) as Hst. pose proof (failed_balance g t Hi Hok) as Hbal.
  pose proof (removed_costs (failed_store g t)) as Hz.
  assert (∀ id, 0 ≤ old_rebate (failed_store g t) id) as Hold by apply (io_rebates _ (st_inputs _ Hst)).
  assert (0 ≤ entry_rebates (removed_entries (failed_store g t)) ≤ amount_limit) as Hr.
  { rewrite removed_rebates. split; [by apply set_sum_nonneg|].
    unfold in_total in Hin. rewrite (set_sum_split _ _ (dom (written (failed_store g t)))) in Hin.
    pose proof (set_sum_nonneg (old_rebate (failed_store g t))
      (modified (failed_store g t) ∩ dom (written (failed_store g t))) (λ id _, Hold id)). lia. }
  destruct (sender_rebate_bounds (entry_rebates (removed_entries (failed_store g t)))
    (V2.rebate_rate (gc_status g))) as [Hs _]; [unfold amount_limit in *; width|done|].
  split; simpl; rewrite ?Hz; done || (by left) || (unfold amount_limit; lia).
Qed.

(** ** The fallbacks *)

Definition results_of (t t' : TemporaryStore) : Prop := ∃ r, t' = set_results r t.

Lemma failed_store_results g g' t t' :
  results_of t t' → coin_ids g' = coin_ids g → failed_store g' t' = failed_store g t.
Proof.
  intros [r ->] Hids. unfold failed_store. f_equal. unfold smashed_store, coins_total. rewrite Hids.
  change (coin_value (set_results r t)) with (coin_value t).
  destruct (coin_ids g) as [|? [|? ?]]; [done..|]. simpl. by destruct (input_objects t !! _).
Qed.
Lemma charger_ok_acct g t k l t' :
  charger_ok g t → results_of t t' → charger_ok (acct g k l) t'.
Proof. intros [] [r ->]. by split. Qed.
Lemma inputs_ok_of t t' : inputs_ok t → results_of t t' → inputs_ok t'.
Proof. intros ? [r ->]. by apply inputs_ok_results. Qed.

Lemma reset_ensure g t t' k l :
  inputs_ok t → charger_ok g t → results_of t t' →
  ∃ t1, reset (acct g k l) t' = Done (acct g k [], t1) ∧
    ensure_active_inputs_mutated t1 = Done (failed_store g t).
Proof.
  intros Hi Hok Hres. exists (smashed_store (acct g k l) t'). split.
  - by rewrite reset_ok; [|by eapply inputs_ok_of|by eapply charger_ok_acct].
  - rewrite ensure_ok.
    + f_equal. by apply (failed_store_results g (acct g k l)).
    + destruct (smashed_store_results (acct g k l) t') as [r ->].
      apply inputs_ok_results. by eapply inputs_ok_of.
Qed.

Lemma failed_store_of g t : results_of t (failed_store g t).
Proof. unfold failed_store. destruct (smashed_store_results g t) as [r ->]. by eexists. Qed.

Lemma charge_budget_ok g t t' k l :
  inputs_ok t → charger_ok g t → results_of t t' → V2.charge (gc_status g) = true →
  charge_budget (acct g k l) t' =
    Done (acct g (V2.gas_budget (gc_status g)) (removed_entries (failed_store g t)), failed_store g t).
Proof.
  intros Hi Hok Hres Hch. destruct (reset_ensure g t t' k l Hi Hok Hres) as (t1 & Hr & He).
  unfold charge_budget. rewrite Hr, bind_ret_l. cbn beta iota. rewrite He, bind_ret_l.
  rewrite collect_rebate_ok; [|by apply failed_store_ok|done]. done.
Qed.

(** What the caller of [charge_gas] has to establish. *)
Record charge_pre (mb : Z) (g : GasCharger) (t : TemporaryStore) (id : ObjectID) : Prop := {
  cp_status : status_ok mb (gc_status g);
  cp_entries : V2.per_object_storage (gc_status g) = [];
  cp_unmetered : V2.unmetered_storage_rebate (gc_status g) = 0;
  cp_store : store_ok t;
  cp_charger : charger_ok g t;
  cp_smashed : smashed_gas_coin g = Some id;
  cp_failed : collectable (gc_status g) (failed_store g t);
  cp_budget : V2.gas_budget (gc_status g) ≤ coins_total g t ≤ amount_limit;
}.
(** What execution has to leave behind when it succeeds. *)
Record kept_coin (g : GasCharger) (t : TemporaryStore) (id : ObjectID) (o : Object) : Prop := {
  kc_collectable : collectable (gc_status g) (ensured t);
  kc_written : written (ensured t) !! id = Some o;
  kc_coin : coin_object o;
  kc_balance : V2.gas_budget (gc_status g) ≤ balance o ≤ amount_limit;
}.

(** The store a failed transaction leaves: with storage charged for the inputs
    or, when even that is too much, not charged. *)
Definition failed_base (g : GasCharger) (t base : TemporaryStore) : Prop :=
  base = repriced (gc_status g) (failed_store g t) ∨ base = failed_store g t.

Section handle.
Context (mb : Z) (g : GasCharger) (t : TemporaryStore) (id : ObjectID).
Context (Hpre : charge_pre mb g t id).
Context {A : Type}.

Lemma settle_failed k :
  0 ≤ k ≤ V2.gas_budget (gc_status g) →
  affordable g k (all_entries (gc_status g) (failed_store g t)) = true →
  settled (acct g k (all_entries (gc_status g) (failed_store g t)))
    (repriced (gc_status g) (failed_store g t)) id (coins_total g t).
Proof.
  intros Hk Haff. destruct Hpre as [Hs _ _ Hst Hch Hsm Hcl Hb].
  destruct (failed_coin g t id (st_inputs t Hst) Hch Hsm) as [(o & Ho & Hco & Hbal) Hmod].
  rewrite <-Hbal. apply settle_collected; try done; [apply Hs|]. by rewrite Hbal.
Qed.
Lemma settle_fallback :
  settled (acct g (V2.gas_budget (gc_status g)) (removed_entries (failed_store g t)))
    (failed_store g t) id (coins_total g t).
Proof.
  destruct Hpre as [Hs _ _ Hst Hch Hsm Hcl Hb]. apply settle_budget; try done.
  - apply Hst.
  - apply Hs.
  - apply Hcl.
  - apply Hs.
Qed.

(** Both ways of charging storage end settled: on the store they were given,
    or on that of a failed transaction. *)
Lemma handle_ok (t2 : TemporaryStore) (b k : Z) (res : result A ExecutionError) :
  results_of t t2 → 0 ≤ k ≤ V2.gas_budget (gc_status g) → collectable (gc_status g) t2 →
  let E := all_entries (gc_status g) t2 in
  (affordable g k E = true → settled (acct g k E) (repriced (gc_status g) t2) id b) →
  ∃ g' t' res',
    (if dont_charge_budget_on_storage_oog (gc_gas_model_version g)
     then handle_storage_and_rebate_v2 (acct g k E) (repriced (gc_status g) t2) res
     else handle_storage_and_rebate_v1 (acct g k E) (repriced (gc_status g) t2) res) =
      Done (g', t', res') ∧ (∃ k' l, g' = acct g k' l) ∧
    ((settled g' t' id b ∧ t' = repriced (gc_status g) t2 ∧ res' = res) ∨
     (settled g' t' id (coins_total g t) ∧ failed_base g t t' ∧
      res' = fail_with res InsufficientGas)).
Proof.
  intros Hres Hk Hcl E Hset. destruct Hpre as [Hs _ _ Hst Hch Hsm Hclf Hb].
  assert (results_of t (repriced (gc_status g) t2)) as Hres'.
  { destruct Hres as [r ->]. by eexists. }
  assert (V2.charge (gc_status g) = true) as Hcharge by apply Hs.
  assert (0 ≤ V2.rebate_rate (gc_status g) ≤ BASIS_POINTS) as Hrate by apply Hs.
  pose proof (charge_storage_ok g k E Hrate Hk (all_entries_bounded _ _ Hcl)) as Hcharged.
  pose proof (charge_budget_ok g t (repriced (gc_status g) t2) k E (st_inputs t Hst) Hch Hres' Hcharge)
    as Hbudget1.
  unfold handle_storage_and_rebate_v1, handle_storage_and_rebate_v2. rewrite Hcharged, !bind_ret_l.
  destruct (affordable g k E) eqn:Haff.
  - destruct (dont_charge_budget_on_storage_oog _); eexists _, _, _; (split; [reflexivity|]);
      (split; [by eexists _, _|]); left; auto.
  - destruct (dont_charge_budget_on_storage_oog _).
    + destruct (reset_ensure g t (repriced (gc_status g) t2) k E (st_inputs t Hst) Hch Hres')
        as (t1 & Hr & He). rewrite Hr, bind_ret_l. cbn beta iota. rewrite He, bind_ret_l.
      rewrite collect_acct, bind_ret_l by done. cbn beta iota.
      rewrite charge_storage_ok, bind_ret_l by (done || by apply all_entries_bounded).
      destruct (affordable g k (all_entries (gc_status g) (failed_store g t))) eqn:Haff2.
      * eexists _, _, _. split; [reflexivity|]. split; [by eexists _, _|]. right.
        split_and!; [by apply settle_failed|by left|done].
      * rewrite (charge_budget_ok g t); [|apply Hst|done| |done].
        2: { destruct (failed_store_of g t) as [r ->]. by eexists. }
        rewrite bind_ret_l. eexists _, _, _. split; [reflexivity|]. split; [by eexists _, _|]. right.
        split_and!; [by apply settle_fallback|by right|done].
    + rewrite Hbudget1, bind_ret_l. eexists _, _, _. split; [reflexivity|]. split; [by eexists _, _|]. right.
      split_and!; [by apply settle_fallback|by right|done].
Qed.
End handle.

(** * Charging gas *)

Lemma acct_bucketized g k :
  V2.per_object_storage (gc_status g) = [] → V2.unmetered_storage_rebate (gc_status g) = 0 →
  set_status (V2.set_computation_cost k (gc_status g)) g = acct g k [].
Proof. destruct g as [? ? ? ? []]. simpl. by intros -> ->. Qed.

Lemma fail_with_not_ok {B} (res : result B ExecutionError) e : is_ok (fail_with res e) = false.
Proof. by destruct res. Qed.

Section charge.
Context {B : Type} (mb : Z) (g : GasCharger) (t : TemporaryStore) (id : ObjectID).
Context (res : result B ExecutionError) (o : Object).
Context (Hpre : charge_pre mb g t id) (Hkept : is_ok res = true → kept_coin g t id o).

(** The computation cost, and the result after it is rounded. *)
Lemma bucketized :
  ∃ k res1, 0 ≤ k ≤ V2.gas_budget (gc_status g) ∧ (res1 = res ∨ is_ok res1 = false) ∧
    V2.bucketize_computation (gc_status g) ≫= (λ '(s, r),
      let g := set_status s g in
      let res := match r with Err err => fail_with res err | Ok _ => res end in
      if is_ok res then Done (g, t, res) else '(g, t) ← reset g t; Done (g, t, res)) =
    (if is_ok res1 then Done (acct g k [], t, res1)
     else '(g, t) ← reset (acct g k []) t; Done (g, t, res1)).
Proof.
  destruct Hpre as [Hs Hnil Hun Hst Hch Hsm Hclf Hb].
  destruct (bucketize_ok mb _ Hs) as (used & r & _ & [Hr _] & Hu0 & Hbk).
  pose proof (so_budget _ _ Hs). pose proof (so_price _ _ Hs). rewrite Hbk, bind_ret_l.
  case_test (V2.gas_budget (gc_status g) <=? r * V2.gas_price (gc_status g)) as Hle.
  - exists (V2.gas_budget (gc_status g)), (fail_with res InsufficientGas).
    rewrite fail_with_not_ok. split_and!; [unfold is_u64 in *; lia..|by right|].
    cbn beta iota zeta. by rewrite fail_with_not_ok, acct_bucketized.
  - exists (r * V2.gas_price (gc_status g)), res.
    split_and!; [nia|lia|by left|]. cbn beta iota zeta. by rewrite acct_bucketized.
Qed.

(** The store on which storage is collected. *)
Lemma prepared k res1 :
  (res1 = res ∨ is_ok res1 = false) →
  ∃ t1 t2,
    (if is_ok res1 then Done (acct g k [], t, res1)
     else '(g, t) ← reset (acct g k []) t; Done (g, t, res1)) = Done (acct g k [], t1, res1) ∧
    ensure_active_inputs_mutated t1 = Done t2 ∧ results_of t t2 ∧ collectable (gc_status g) t2 ∧
    (is_ok res1 = true ∧ t2 = ensured t ∧ kept_coin g t id o ∨
     is_ok res1 = false ∧ t2 = failed_store g t).
Proof.
  destruct Hpre as [Hs Hnil Hun Hst Hch Hsm Hclf Hb]. intros Hres1.
  destruct (is_ok res1) eqn:Hr1.
  - destruct Hres1 as [->|?]; [|done]. pose proof (Hkept Hr1) as Hk.
    exists t, (ensured t). split_and!; [done|apply ensure_ok, Hst|by eexists|apply Hk|by left].
  - destruct (reset_ensure g t t k [] (st_inputs t Hst) Hch) as (t1 & Hre & He);
      [exists (execution_results t); by destruct t|].
    exists t1, (failed_store g t).
    split_and!; [by rewrite Hre|done|apply failed_store_of|done|by right].
Qed.

Lemma settle_prepared k t2 (ok : bool) :
  0 ≤ k ≤ V2.gas_budget (gc_status g) → collectable (gc_status g) t2 →
  (ok = true ∧ t2 = ensured t ∧ kept_coin g t id o ∨ ok = false ∧ t2 = failed_store g t) →
  affordable g k (all_entries (gc_status g) t2) = true →
  settled (acct g k (all_entries (gc_status g) t2)) (repriced (gc_status g) t2) id
    (if ok then balance o else coins_total g t).
Proof.
  intros Hk Hcl [(-> & -> & [_ Hw Hco Hbal])|(-> & ->)] Haff; [|by eapply settle_failed].
  destruct Hpre as [Hs _ _ Hst Hch Hsm _ _].
  apply settle_collected; try done; [apply Hs|].
  destruct (failed_coin g t id (st_inputs t Hst) Hch Hsm) as [_ Hmod].
  rewrite failed_modified in Hmod by done. unfold ensured, modified. simpl. set_solver.
Qed.

(** Every path of [charge_gas], in terms of the store it is settled on. *)
Lemma charge_gas_cases :
  ∃ g' base c p b res',
    charge_gas g t res =
      Done (g', set_exec (<[id := with_balance (b - net_usage c) p]> (written base))
                  (modified base) base, res', c) ∧
    (∃ k l, g' = acct g k l) ∧ settled g' base id b ∧
    written base !! id = Some p ∧ coin_object p ∧ is_u64 (b - net_usage c) ∧
    sum_computation_cost c = V2.computation_cost (gc_status g') ∧
    sum_storage_cost c = entry_costs (V2.per_object_storage (gc_status g')) ∧
    sum_storage_rebate c + sum_non_refundable_storage_fee c =
      entry_rebates (V2.per_object_storage (gc_status g')) ∧
    0 ≤ sum_storage_rebate c ∧ 0 ≤ sum_non_refundable_storage_fee c ∧
    net_usage c ≤ V2.gas_budget (gc_status g) ∧
    V2.gas_budget (gc_status g') = V2.gas_budget (gc_status g) ∧
    ((is_ok res' = true ∧ res' = res ∧ base = repriced (gc_status g) (ensured t) ∧
      kept_coin g t id o ∧ b = balance o) ∨
     (is_ok res' = false ∧ failed_base g t base ∧ b = coins_total g t)).
Proof.
  destruct bucketized as (k & res1 & Hk & Hres1 & Hbk).
  destruct (prepared k res1 Hres1) as (t1 & t2 & Hprep & Hens & Hres & Hcl & Hcase).
  pose proof (settle_prepared k t2 (is_ok res1) Hk Hcl Hcase) as Hset.
  destruct (handle_ok mb g t id Hpre t2 (if is_ok res1 then balance o else coins_total g t) k res1
    Hres Hk Hcl Hset) as (g' & t' & res' & Hh & (k' & l & Hg') & Hout).
  assert (∃ b, settled g' t' id b ∧
    ((is_ok res' = true ∧ res' = res ∧ t' = repriced (gc_status g) (ensured t) ∧
      kept_coin g t id o ∧ b = balance o) ∨
     (is_ok res' = false ∧ failed_base g t t' ∧ b = coins_total g t))) as (b & Hse & Hfin).
  { destruct Hout as [(Hse & -> & ->)|(Hse & Hfb & ->)];
      [|exists (coins_total g t); split; [done|right]; by rewrite fail_with_not_ok].
    eexists; split; [done|]. destruct Hcase as [(Hr1 & -> & Hkc)|(Hr1 & ->)]; rewrite Hr1.
    - left. destruct Hres1 as [->|?]; [done|congruence].
    - right. split_and!; [done|by left|done]. }
  destruct (finish_ok g' t' id b Hse) as (c & p & Hfinish & Hfacts). exists g', t', c, p, b, res'.
  assert (V2.gas_budget (gc_status g') = V2.gas_budget (gc_status g)) as Hbud by by rewrite Hg'.
  rewrite Hbud in Hfacts. split; [|split; [by eexists _, _|split; [done|]; by intuition]].
  destruct Hpre as [Hs _ _ _ _ Hsm _ _]. unfold charge_gas. rewrite Hsm.
  match goal with |- context [V2.bucketize_computation ?s ≫= ?f] =>
    replace (V2.bucketize_computation s ≫= f) with (Done (acct g k [], t1, res1))
      by (symmetry; exact (eq_trans Hbk Hprep)) end.
  rewrite bind_ret_l. cbn beta iota. rewrite Hens, bind_ret_l.
  rewrite collect_acct by (done || apply Hs). rewrite bind_ret_l.
  cbn beta iota. cbn [smashed_gas_coin gc_gas_model_version acct set_status]. rewrite Hsm.
  fold (acct g k (all_entries (gc_status g) t2)). rewrite Hh, bind_ret_l. cbn beta iota.
  rewrite (finish_bind g' t' id res' (λ g t r c, (g, t, r, c))), Hfinish. done.
Qed.
End charge.
End conservation.
