(* ===== verification/ValueConservation.v ===== *)
(** The MGO inside objects: what the expensive conservation check of
    [temporary_store.rs] adds to the check on storage rebates.

    [values_kept] says of a store that the objects it modifies and writes hold
    the same amount of MGO before and after.  Smashing the gas coins keeps it,
    and charging gas moves exactly the net charge from the gas coin to rebates
    and fees, so that [check_mgo_conserved_expensive] succeeds. *)
From S2P Require Import Prelude MapSums GasTables Objects.
From S2P Require Import Errors MgoGas TemporaryStore ExecutionEngine.
From S2P Require Import GasConservation.

Section values.
Context {Hback : BackingStore} {Hhash : ObjectHash} {Hbcs : BcsSizes} {Hval : ObjectValues}.

(** * Values *)

(** The MGO in the contents of an object. *)
Definition object_value (o : Object) : Z :=
  match data o with
  | Move m => match move_total_mgo m with Done (Ok z) => z | _ => 0 end
  | Package _ => 0
  end.
Definition resolves (o : Object) : Prop :=
  match data o with Move m => ∃ z, move_total_mgo m = Done (Ok z) | Package _ => True end.

Lemma total_mgo_ok o :
  resolves o → ∃ z, checked_total_mgo o = Done (Ok z) ∧ wrap64 z = wrap64 (storage_rebate o + object_value o).
Proof.
  unfold resolves, checked_total_mgo, get_total_mgo, object_value. destruct (data o) as [m|p].
  - intros [z ->]. eexists. split; [reflexivity|]. unfold wrap64. apply Z.mod_mod. lia.
  - intros _. eexists. split; [reflexivity|]. by rewrite Z.add_0_r.
Qed.

Lemma coin_resolves o : coin_object o → resolves o ∧ object_value o = balance o.
Proof.
  intros (m & Hd & Ht & Hlen). unfold resolves, object_value, balance, move_total_mgo.
  rewrite Hd, Ht, coin_value_get by done. split; [by eexists|done].
Qed.
Lemma rebate_value r o : object_value (set_storage_rebate r o) = object_value o.
Proof. done. Qed.
Lemma rebate_resolves r o : resolves (set_storage_rebate r o) ↔ resolves o.
Proof. done. Qed.

(** The object that was modified, as the check finds it. *)
Definition previous (t : TemporaryStore) (id : ObjectID) : option Object :=
  match input_objects t !! id with
  | Some o => if object_version o =? old_version t id then Some o else None
  | None => match get_object_by_key id (old_version t id) with Ok r => r | Err _ => None end
  end.
Definition old_value (t : TemporaryStore) (id : ObjectID) : Z :=
  default 0 (object_value <$> previous t id).

Definition value_in (t : TemporaryStore) : Z := set_sum (old_value t) (modified t).
Definition value_out (t : TemporaryStore) : Z := map_sum (λ _ o, object_value o) (written t).

Record values_ok (t : TemporaryStore) : Prop := {
  vo_previous : ∀ id, id ∈ modified t →
    ∃ o, previous t id = Some o ∧ resolves o ∧ storage_rebate o = old_rebate t id;
  vo_written : ∀ id o, written t !! id = Some o → resolves o;
  vo_inputs : ∀ id, is_Some (mutable_input_refs t !! id) → is_Some (written t !! id) → id ∈ modified t;
}.

(** The objects a store modifies and writes hold the same MGO before and after. *)
Definition values_kept (t : TemporaryStore) : Prop := values_ok t ∧ value_in t = value_out t.

(** The mutable inputs have the versions they were asked for, and their contents
    can be read. *)
Definition inputs_resolve (t : TemporaryStore) : Prop :=
  ∀ id v d w, mutable_input_refs t !! id = Some ((v, d), w) →
    ∃ o, input_objects t !! id = Some o ∧ object_version o = v ∧ resolves o.

Lemma input_previous t id :
  inputs_resolve t → is_Some (mutable_input_refs t !! id) →
  ∃ o, input_objects t !! id = Some o ∧ previous t id = Some o ∧ resolves o ∧
    storage_rebate o = old_rebate t id.
Proof.
  intros Hin [[[v d] w] Href]. destruct (Hin id v d w Href) as (o & Ho & Hv & Hr). exists o.
  unfold previous, old_version, old_rebate. rewrite Ho, Href. simpl.
  by rewrite (proj2 (Z.eqb_eq _ _) Hv).
Qed.

(** * The check *)

(** MGO before and after a transaction, with what it paid and what is kept of
    the storage fees. *)
Definition mgo_conserved (t : TemporaryStore) (c : GasCostSummary) : Prop :=
  in_total t + value_in t =
  out_total t + value_out t + (sum_computation_cost c + sum_non_refundable_storage_fee c).

Lemma wrap64_congr a b a' b' :
  wrap64 a = wrap64 a' → wrap64 b = wrap64 b' → wrap64 (a + b) = wrap64 (a' + b').
Proof.
  unfold wrap64. intros Ha Hb. rewrite (Z.add_mod a b), (Z.add_mod a' b') by lia. by rewrite Ha, Hb.
Qed.
Lemma wrap64_idem a : wrap64 (wrap64 a) = wrap64 a.
Proof. unfold wrap64. by rewrite Z.mod_mod. Qed.

Lemma mgo_totals_ok t infos i o :
  values_ok t → Forall (info_ok t) infos →
  ∃ i' o', mgo_totals t infos i o = Done (Ok (i', o')) ∧
    wrap64 i' = wrap64 (i + sum_before (λ id, old_rebate t id + old_value t id) infos) ∧
    wrap64 o' = wrap64 (o + sum_after (λ o, storage_rebate o + object_value o) infos).
Proof.
  intros Hv Hall. revert i o. induction Hall as [|[[id input] output] infos Hi Hall IH]; intros i o.
  { exists i, o. unfold sum_before, sum_after. simpl. by rewrite !Z.add_0_r. }
  assert (∃ x, match input with Some m => get_input_mgo t id (dl_version m) | None => Done (Ok 0) end = Done (Ok x) ∧
    wrap64 x = wrap64 (match input with Some _ => old_rebate t id + old_value t id | None => 0 end))
    as (x & Hx & Hxw).
  { destruct input as [md|]; [|by eexists]. destruct (in_before t _ Hi md eq_refl) as (Hid & _ & Hver).
    simpl in Hid, Hver. destruct (vo_previous t Hv id Hid) as (p & Hp & Hres & Hreb).
    destruct (total_mgo_ok p Hres) as (z & Hz & Hzw). exists z.
    unfold old_value. rewrite Hp. simpl. rewrite <-Hreb. split; [|done].
    unfold previous in Hp. unfold get_input_mgo. rewrite Hver. destruct (input_objects t !! id) as [q|].
    - destruct (object_version q =? old_version t id); simplify_eq/=. done.
    - destruct (get_object_by_key id (old_version t id)) as [r|]; [|done]. by subst r. }
  assert (∃ y, match output with Some object => checked_total_mgo object | None => Done (Ok 0) end = Done (Ok y) ∧
    wrap64 y = wrap64 (default 0 ((λ o, storage_rebate o + object_value o) <$> output))) as (y & Hy & Hyw).
  { destruct output as [q|]; [|by eexists]. apply total_mgo_ok. exact (vo_written t Hv id q (in_after t _ Hi q eq_refl)). }
  destruct (IH (wrap64 (i + x)) (wrap64 (o + y))) as (i' & o' & Hrun & Hi' & Ho').
  exists i', o'. cbn [mgo_totals]. rewrite Hx. unfold try_exec at 1. rewrite bind_ret_l.
  rewrite Hy. unfold try_exec at 1. rewrite bind_ret_l. split; [exact Hrun|]. rewrite Hi', Ho'.
  unfold sum_before, sum_after in *. cbn [map sumZ foldr fst snd]. split.
  - rewrite Z.add_assoc. apply wrap64_congr; [|done]. rewrite wrap64_idem. by apply wrap64_congr.
  - rewrite Z.add_assoc. apply wrap64_congr; [|done]. rewrite wrap64_idem. by apply wrap64_congr.
Qed.

Lemma mgo_totals_range t infos i o i' o' :
  is_u64 i → is_u64 o → mgo_totals t infos i o = Done (Ok (i', o')) → is_u64 i' ∧ is_u64 o'.
Proof.
  revert i o. induction infos as [|[[id input] output] infos IH]; intros i o Hi Ho; cbn [mgo_totals].
  { by intros [= <- <-]. }
  rewrite try_exec_Ok. intros (x & _ & H). apply try_exec_Ok in H as (y & _ & H).
  eapply IH; [..|exact H]; apply wrap64_range.
Qed.

(** The expensive check succeeds on a store that conserves MGO. *)
Lemma expensive_check_ok t c :
  store_ok t → values_ok t → mgo_conserved t c → check_mgo_conserved_expensive t c None = Done (Ok ()).
Proof.
  intros Hst Hv Hc. unfold check_mgo_conserved_expensive.
  destruct (modified_objects_sums t Hst) as (infos & -> & Hall & Hb & Ha). rewrite bind_ret_l.
  destruct (mgo_totals_ok t infos 0 0 Hv Hall) as (i & o & Hrun & Hi & Ho).
  destruct (mgo_totals_range t infos 0 0 i o) as [Hir _]; [done..|].
  rewrite Hrun. unfold try_exec. rewrite bind_ret_l. cbn beta iota zeta.
  rewrite Hb, Z.add_0_l in Hi. rewrite Ha, Z.add_0_l in Ho.
  assert (i = wrap64 (o + wrap64 (sum_computation_cost c + sum_non_refundable_storage_fee c))) as ->; [|by rewrite Z.eqb_refl].
  rewrite <-(wrap64_small i Hir), Hi.
  rewrite (wrap64_congr o _ _ _ Ho (wrap64_idem _)). f_equal.
  assert (set_sum (λ id, old_rebate t id + old_value t id) (modified t) = in_total t + value_in t) as ->.
  { unfold in_total, value_in, set_sum. induction (elements (modified t)) as [|x l IH]; [done|]. simpl in *. lia. }
  rewrite (map_sum_plus (λ _ o, storage_rebate o) (λ _ o, object_value o)).
  exact Hc.
Qed.

(** * Charging gas *)

(** Writing back the inputs that were not touched moves nothing. *)
Lemma ensured_kept t : inputs_resolve t → values_kept t → values_kept (ensured t).
Proof.
  intros Hin [Hv Heq].
  assert (∀ id o, untouched t !! id = Some o →
    input_objects t !! id = Some o ∧ is_Some (mutable_input_refs t !! id) ∧ id ∉ modified t) as Hunt.
  { intros id o Ho. unfold untouched in Ho. by apply map_lookup_filter_Some in Ho as [? [? ?]]. }
  assert (untouched t ##ₘ written t) as Hdisj.
  { apply map_disjoint_spec. intros id o o' Ho Hw. destruct (Hunt id o Ho) as (_ & Hr & Hm).
    apply Hm, (vo_inputs t Hv); [done|by eexists]. }
  split; [split|].
  - intros id. change (previous (ensured t) id) with (previous t id).
    change (old_rebate (ensured t) id) with (old_rebate t id). unfold ensured, modified at 1. simpl.
    intros [[? ?]%elem_of_dom|Hid]%elem_of_union; [|by apply (vo_previous t Hv)].
    destruct (input_previous t id Hin) as (o & _ & ?); [by eexists|]. by exists o.
  - intros id o. unfold ensured, written at 1. simpl. intros [Ho|Ho]%lookup_union_Some; [..|done].
    + destruct (Hunt id o Ho) as (Hi & Hr & _). destruct (input_previous t id Hin Hr) as (o' & Ho' & _ & ? & _).
      congruence.
    + by apply (vo_written t Hv id).
  - intros id Hr _. unfold ensured, modified. simpl. apply elem_of_union_l. by apply elem_of_dom.
  - unfold value_in, value_out. change (old_value (ensured t)) with (old_value t).
    change (modified (ensured t)) with (dom (mutable_input_refs t) ∪ modified t).
    change (written (ensured t)) with (untouched t ∪ written t).
    rewrite map_sum_disj_union by done. fold (value_out t).
    rewrite (map_sum_ext (λ _ o, object_value o) (λ id _, old_value t id)), map_sum_keys.
    2: { intros id o Ho. destruct (Hunt id o Ho) as (Hi & Hr & _).
         destruct (input_previous t id Hin Hr) as (o' & Ho' & Hp & _). unfold old_value. rewrite Hp. simpl. congruence. }
    rewrite (set_sum_split _ _ (modified t)).
    assert ((dom (mutable_input_refs t) ∪ modified t) ∩ modified t = modified t) as -> by set_solver.
    fold (value_in t). rewrite Heq, Z.add_comm. f_equal. f_equal. apply set_eq. intros id.
    rewrite elem_of_difference, elem_of_union, !elem_of_dom. split.
    + intros [[Hr|?] Hm]; [|done]. destruct (input_previous t id Hin Hr) as (o & Ho & _).
      exists o. unfold untouched. by apply map_lookup_filter_Some.
    + intros [o Ho]. destruct (Hunt id o Ho) as (_ & ? & ?). auto.
Qed.

(** Smashing puts what the coins held into the first one. *)
Lemma smashed_kept g t : inputs_resolve t → charger_ok g t → values_kept (smashed_store g t).
Proof.
  intros Hin Hok. destruct (smashed_store_results g t) as [r Hr].
  assert (previous (smashed_store g t) = previous t ∧ old_rebate (smashed_store g t) = old_rebate t ∧
    old_value (smashed_store g t) = old_value t) as (Hp & Hb & Hold) by by rewrite Hr. clear r Hr.
  assert (values_ok (drop_writes t) ∧ value_in (drop_writes t) = value_out (drop_writes t)) as Hempty.
  { split; [split|]; unfold drop_writes, modified, written; simpl; [set_solver|done|by intros id _ [? ?]|done]. }
  unfold values_kept, value_in, value_out. rewrite Hold. unfold smashed_store in *.
  destruct (coin_ids g) as [|first [|second others]] eqn:Hids; [exact Hempty..|].
  destruct (co_coins g t Hok first) as (o & Ho & Hco & _); [rewrite Hids; left|]. rewrite Ho in *.
  assert (is_u64 (coins_total g t)) as Hu by (split; [by apply coins_total_nonneg|apply (co_total g t Hok)]).
  destruct (with_balance_ok o _ Hco Hu) as (_ & Hbal & Hco' & _). destruct (coin_resolves _ Hco') as [Hres Hvalue].
  split; [split|].
  - intros id Hid. rewrite Hp, Hb. unfold modified in Hid. simpl in Hid.
    destruct (co_coins g t Hok id) as (_ & _ & _ & Href & _); [rewrite Hids; set_solver|].
    destruct (input_previous t id Hin Href) as (o' & _ & ?). by exists o'.
  - unfold written. simpl. by intros id o' [<- <-]%lookup_singleton_Some.
  - unfold modified, written. simpl. intros id _ [o' [<- _]%lookup_singleton_Some]. set_solver.
  - unfold modified at 1, written at 1. simpl. unfold map_sum. rewrite map_to_list_singleton. simpl.
    rewrite Hvalue, Hbal, Z.add_0_r. pose proof (co_nodup g t Hok) as Hnd. rewrite Hids in Hnd.
    transitivity (sumZ (map (old_value t) (coin_ids g))).
    + rewrite Hids. symmetry. apply set_sum_perm; [done|]. intros x. set_solver.
    + unfold coins_total. apply sumZ_map_ext. intros id Hid.
      destruct (co_coins g t Hok id Hid) as (c & Hc & Hcc & Href & _).
      destruct (input_previous t id Hin Href) as (c' & Hc' & Hpc & _). unfold old_value, coin_value.
      rewrite Hpc, Hc. simpl. destruct (coin_resolves c Hcc). congruence.
Qed.
Lemma failed_kept g t : inputs_resolve t → charger_ok g t → values_kept (failed_store g t).
Proof.
  intros Hin Hok. apply ensured_kept; [|by apply smashed_kept].
  destruct (smashed_store_results g t) as [r ->]. exact Hin.
Qed.

(** The new rebates are not part of the values. *)
Lemma repriced_kept s t : values_kept t → values_kept (repriced s t).
Proof.
  intros [Hv Heq].
  assert (∀ id o, written (repriced s t) !! id = Some o →
    ∃ o', written t !! id = Some o' ∧ o = set_storage_rebate (object_cost s o') o') as Hw.
  { intros id o. unfold repriced, written at 1. simpl. rewrite lookup_fmap.
    intros (o' & Ho' & ->)%fmap_Some. by exists o'. }
  split; [split|].
  - exact (vo_previous t Hv).
  - intros id o (o' & Ho' & ->)%Hw. apply rebate_resolves. by apply (vo_written t Hv id).
  - intros id Hr [o (o' & Ho' & _)%Hw]. apply (vo_inputs t Hv); [done|by eexists].
  - change (value_in (repriced s t)) with (value_in t). rewrite Heq. unfold value_out, repriced, written at 2.
    simpl. unfold map_sum. rewrite map_to_list_fmap, map_map. by apply sumZ_map_ext.
Qed.

(** Deducting the charge takes it out of the values. *)
Lemma finish_values g t id b c o :
  settled g t id b → values_kept t → written t !! id = Some o → coin_object o → is_u64 (b - net_usage c) →
  sum_storage_cost c = entry_costs (V2.per_object_storage (gc_status g)) →
  sum_storage_rebate c + sum_non_refundable_storage_fee c =
    entry_rebates (V2.per_object_storage (gc_status g)) →
  let t' := set_exec (<[id := with_balance (b - net_usage c) o]> (written t)) (modified t) t in
  values_ok t' ∧ mgo_conserved t' c.
Proof.
  intros Hset [Hv Heq] Ho Hco Hu HC HR t'.
  destruct (with_balance_ok o _ Hco Hu) as (_ & Hbal & Hco' & Hreb & _).
  destruct (coin_resolves _ Hco') as [Hres Hvalue]. destruct (coin_resolves o Hco) as [_ Hold].
  destruct (se_coin _ _ _ _ Hset) as (o' & Ho' & _ & Hb). assert (o' = o) as -> by congruence.
  assert (∀ id' p, written t' !! id' = Some p → id' = id ∧ p = with_balance (b - net_usage c) o ∨ written t !! id' = Some p) as Hw.
  { intros id' p. unfold t', written at 1. simpl. intros [[-> <-]|[_ ?]]%lookup_insert_Some; auto. }
  split; [split|].
  - exact (vo_previous t Hv).
  - intros id' p [[-> ->]|Hp]%Hw; [done|]. by apply (vo_written t Hv id').
  - intros id' Hr [p [[-> _]|Hp]%Hw]; apply (vo_inputs t Hv); done || by eexists.
  - unfold mgo_conserved. change (in_total t') with (in_total t). change (value_in t') with (value_in t).
    assert (out_total t' = out_total t) as ->.
    { unfold t', out_total, written at 1. simpl. rewrite (map_sum_update _ (written t) id o) by done. lia. }
    assert (value_out t' = value_out t - net_usage c) as ->.
    { unfold t', value_out, written at 1. simpl. rewrite (map_sum_update _ (written t) id o) by done. lia. }
    unfold net_usage in *.
    destruct (se_conserved _ _ _ _ Hset) as [[H0 Hsum]|[HiR HoC]]; lia.
Qed.
End values.
