(* ===== verification/GasTheorems.v ===== *)
(** What a transaction's sender and the chain can rely on when gas is charged:
    conservation and the budget bound of [charge_gas], the all-or-nothing
    effect of a failed transaction, and the same for the whole of
    [execute_transaction], from smashing the gas coins to the conservation
    checks, for any execution loop that keeps its contract. *)
From S2P Require Import Prelude MapSums GasTables Objects.
From S2P Require Import MgoGas TemporaryStore ExecutionEngine GasConservation.
From S2P Require Import ValueConservation.

(** * Charging gas *)

Section charge_theorems.
Context {Hback : BackingStore} {Hhash : ObjectHash} {Hbcs : BcsSizes}.

Lemma failed_created g t :
  created (failed_store g t) = ∅ ∧ user_events (execution_results (failed_store g t)) = [] ∧
  (charger_ok g t → deleted (failed_store g t) = list_to_set (tail (coin_ids g))).
Proof.
  unfold failed_store, ensured, smashed_store.
  destruct (coin_ids g) as [|first [|second others]] eqn:Hids; [done..|].
  destruct (input_objects t !! first) as [o|] eqn:Ho; [done|]. split_and!; [done..|].
  intros Hok. destruct (co_coins g t Hok first) as (o & ? & _); [rewrite Hids; left|congruence].
Qed.

Lemma with_balance_twice v w o :
  coin_object o → with_balance v (with_balance w o) = with_balance v o.
Proof.
  intros (m & Hd & _ & Hlen). unfold with_balance. destruct o as [d ? ? ?]. simpl in Hd. subst d.
  simpl. unfold set_data. simpl. rewrite take_app_length'; [done|]. rewrite length_take. lia.
Qed.
Lemma with_balance_rebate v r o :
  with_balance v (set_storage_rebate r o) = set_storage_rebate r (with_balance v o).
Proof. by destruct o as [[m|p] ? ? ?]. Qed.

(** What is written for an input of a failed transaction. *)
Definition refunded (g : GasCharger) (t : TemporaryStore) (c : GasCostSummary) (o : Object)
    (id' : ObjectID) : Object :=
  if decide (head (coin_ids g) = Some id') then with_balance (coins_total g t - net_usage c) o else o.

Lemma failed_base_written g t base id id' c p :
  inputs_ok t → charger_ok g t → failed_base g t base → head (coin_ids g) = Some id →
  written base !! id = Some p →
  (id' ∈ tail (coin_ids g) ∨ mutable_input_refs t !! id' = None →
   <[id := with_balance (coins_total g t - net_usage c) p]> (written base) !! id' = None) ∧
  (id' ∉ tail (coin_ids g) → is_Some (mutable_input_refs t !! id') →
   ∃ o r, input_objects t !! id' = Some o ∧
    <[id := with_balance (coins_total g t - net_usage c) p]> (written base) !! id' =
      Some (set_storage_rebate r (refunded g t c o id'))).
Proof.
  intros Hi Hok Hbase Hhd Hp.
  assert (∀ i, ∃ r, written base !! i = set_storage_rebate r <$> written (failed_store g t) !! i) as Hw.
  { intros i. destruct Hbase as [->| ->].
    - unfold repriced, written at 1. simpl. rewrite lookup_fmap.
      destruct (written (failed_store g t) !! i) as [o|]; [by eexists|by exists 0].
    - destruct (written (failed_store g t) !! i) as [o|]; [|by exists 0].
      exists (storage_rebate o). by destruct o. }
  split.
  - intros Hcase. pose proof (failed_written_none g t id' Hok Hcase) as Hn.
    destruct (Hw id') as [r Hr]. rewrite Hn in Hr. simpl in Hr. apply lookup_insert_None. split; [done|].
    intros ->. congruence.
  - intros Htl Href. destruct (io_refs t Hi id' Href) as [o Ho].
    destruct (failed_written_some g t id' o Hi Hok Href Htl Ho) as (o' & Ho' & Hsame & _ & Hne).
    destruct (Hw id') as [r Hr]. rewrite Ho' in Hr. simpl in Hr. exists o, r. split; [done|].
    unfold refunded. case_decide as Hd.
    + assert (id' = id) as -> by congruence. rewrite lookup_insert_eq.
      assert (p = set_storage_rebate r o') as -> by congruence. rewrite with_balance_rebate.
      destruct Hsame as [->|(v & _ & Hco & ->)]; [done|]. by rewrite with_balance_twice.
    + rewrite lookup_insert_ne by congruence. by rewrite Hr, Hne.
Qed.

(** The store after charging: the inputs written back on what execution left, or
    on a store without its writes, and the gas coin with what remains in it. *)
Definition charged_store (g : GasCharger) (t : TemporaryStore) (id : ObjectID) (t' : TemporaryStore) : Prop :=
  ∃ base o v s, t' = set_exec (<[id := with_balance v o]> (written base)) (modified base) base ∧
    written base !! id = Some o ∧ coin_object o ∧ is_u64 v ∧ store_ok base ∧
    (base = repriced s (ensured t) ∨ failed_base g t base).

(** Every path of [charge_gas], as the transaction's driver needs it. *)
Lemma charge_gas_outcome {B} mb g t id (res : result B ExecutionError) o :
  charge_pre mb g t id → (is_ok res = true → kept_coin g t id o) →
  ∃ g' t' res' c p, charge_gas g t res = Done (g', t', res', c) ∧
    check_mgo_conserved t' true c = Done (Ok ()) ∧
    net_usage c ≤ V2.gas_budget (gc_status g) ∧
    written t' !! id = Some p ∧ coin_object p ∧
    balance p = (if is_ok res' then balance o else coins_total g t) - net_usage c ∧
    (res' = res ∨ is_ok res' = false) ∧
    V2.unmetered_storage_rebate (gc_status g') = 0 ∧
    (is_ok res' = false → created t' = ∅ ∧ deleted t' = list_to_set (tail (coin_ids g))) ∧
    (smashed_gas_coin g' = Some id ∧ coin_ids g' = coin_ids g) ∧ charged_store g t id t'.
Proof.
  intros Hpre Hkept.
  destruct (charge_gas_cases mb g t id res o Hpre Hkept) as
    (g' & base & c & p & b & res' & -> & (k & l & ->) & Hset & Hp & Hco & Hu & _ & HC & HR & Hr0 & Hf0 & Hnet & _ & Hcase).
  destruct (with_balance_ok p _ Hco Hu) as (_ & Hbal & Hco' & _).
  destruct (failed_created g t) as (Hcr & _ & Hdel). specialize (Hdel (cp_charger _ _ _ _ Hpre)).
  eexists _, _, _, _, (with_balance (b - net_usage c) p). split_and!; [done| |done| |done| | | | |apply (cp_smashed _ _ _ _ Hpre)|done|].
  - by eapply finish_conserved.
  - unfold written at 1. simpl. by rewrite lookup_insert_eq.
  - rewrite Hbal. by destruct Hcase as [(-> & _ & _ & _ & ->)|(-> & _ & ->)].
  - destruct Hcase as [(_ & ? & _)|(? & _)]; [by left|by right].
  - apply (se_unmetered _ _ _ _ Hset).
  - intros Hf. destruct Hcase as [(? & _)|(_ & [->| ->] & _)]; [congruence|done..].
  - eexists base, p, _, (gc_status g). split_and!; [done..|apply (se_store _ _ _ _ Hset)|].
    destruct Hcase as [(_ & _ & -> & _)|(_ & ? & _)]; [by left|by right].
Qed.

(** C2: Charging gas returns on every path, and neither creates nor destroys
    MGO: the conservation check run on the store and the summary it returns
    succeeds, the sender pays at most the gas budget, and the gas coin ends with
    its balance (after a failure, the sum of all gas coins) less exactly what
    the summary says was paid.  A successful result is kept or turned into an
    error, never the other way round. *)
Theorem charge_gas_conserves {B} max_bucket g t id (res : result B ExecutionError) o :
  charge_pre max_bucket g t id → (is_ok res = true → kept_coin g t id o) →
  ∃ g' t' res' c p, charge_gas g t res = Done (g', t', res', c) ∧
    check_mgo_conserved t' true c = Done (Ok ()) ∧
    net_usage c ≤ V2.gas_budget (gc_status g) ∧
    written t' !! id = Some p ∧ coin_object p ∧
    balance p = (if is_ok res' then balance o else coins_total g t) - net_usage c ∧
    (res' = res ∨ is_ok res' = false).
Proof.
  intros Hpre Hkept.
  destruct (charge_gas_outcome max_bucket g t id res o Hpre Hkept) as (g' & t' & res' & c & p & ?).
  exists g', t', res', c, p. by intuition.
Qed.

(** C15: A transaction that fails changes nothing but what gas requires.
    Whatever execution did before failing, nothing is created, no event is left,
    only the smashed gas coins are deleted, exactly the mutable inputs are
    modified, and each of them is written back as it was at input, up to its
    storage rebate and the balance of the gas coin. *)
Theorem failed_transaction_atomic {B} max_bucket g t id (res : result B ExecutionError) o
    g' t' res' c :
  charge_pre max_bucket g t id → (is_ok res = true → kept_coin g t id o) →
  charge_gas g t res = Done (g', t', res', c) → is_ok res' = false →
  created t' = ∅ ∧ user_events (execution_results t') = [] ∧
  deleted t' = list_to_set (tail (coin_ids g)) ∧
  modified t' = dom (mutable_input_refs t) ∧
  ∀ id',
    (id' ∈ tail (coin_ids g) ∨ mutable_input_refs t !! id' = None → written t' !! id' = None) ∧
    (id' ∉ tail (coin_ids g) → is_Some (mutable_input_refs t !! id') →
     ∃ o' r, input_objects t !! id' = Some o' ∧
       written t' !! id' = Some (set_storage_rebate r (refunded g t c o' id'))).
Proof.
  intros Hpre Hkept Hrun Hfail.
  destruct (charge_gas_cases max_bucket g t id res o Hpre Hkept) as
    (g1 & base & c1 & p & b & res1 & Heq & _ & _ & Hp & _ & _ & _ & _ & _ & _ & _ & _ & _ & Hcase).
  rewrite Heq in Hrun. simplify_eq.
  destruct Hcase as [(? & _)|(_ & Hbase & ->)]; [congruence|].
  destruct (failed_created g t) as (Hcr & Hev & Hdel).
  pose proof (cp_charger _ _ _ _ Hpre) as Hok. pose proof (st_inputs _ (cp_store _ _ _ _ Hpre)) as Hi.
  assert (head (coin_ids g) = Some id) as Hhd.
  { destruct (co_smashed g t Hok) as (i & Hs & Hh). pose proof (cp_smashed _ _ _ _ Hpre). congruence. }
  unfold created, deleted, modified, written. simpl. split_and!.
  - by destruct Hbase as [->| ->].
  - by destruct Hbase as [->| ->].
  - destruct Hbase as [->| ->]; by apply Hdel.
  - destruct Hbase as [->| ->]; by apply failed_modified.
  - intros id'. by apply (failed_base_written g t base id id' c p).
Qed.
End charge_theorems.

(** * The checks before execution *)

Lemma gas_owners_ok objs coins :
  map as_object objs = map Some coins →
  V2.check_gas_owners objs = Ok () ↔ Forall (λ o, is_address_owned o = true) coins.
Proof.
  revert coins. induction objs as [|r objs IH]; intros [|o coins] Hmap; try done.
  simpl in Hmap. injection Hmap as Hr Hmap. specialize (IH coins Hmap). simpl. rewrite Hr, Forall_cons.
  destruct (is_address_owned o); simpl; [|by split; [|intros []]]. rewrite IH. tauto.
Qed.
Lemma gas_total_ok objs coins acc :
  map as_object objs = map Some coins →
  Forall (λ o, coin_object o ∧ 0 ≤ balance o) coins → acc + sumZ (map balance coins) ≤ u128_max →
  V2.total_gas_balance acc objs = Done (Ok (acc + sumZ (map balance coins))).
Proof.
  revert coins acc. induction objs as [|r objs IH]; intros [|o coins] acc Hmap Hall Hmax; try done.
  { simpl. do 2 f_equal. lia. }
  simpl in Hmap. injection Hmap as Hr Hmap. apply Forall_cons in Hall as [[(m & Hd & Ht & Hlen) Hb] Hall].
  assert (0 ≤ sumZ (map balance coins)) as Hrest.
  { apply sumZ_nonneg, Forall_map. eapply Forall_impl; [exact Hall|]. intros x [_ Hx]. exact Hx. }
  cbn [V2.total_gas_balance map sumZ] in *. rewrite Hr. simpl unwrap. rewrite bind_ret_l.
  assert (get_gas_balance o = Done (Ok (balance o))) as ->.
  { unfold get_gas_balance, balance. rewrite Hd. simpl. rewrite Ht. simpl. by rewrite coin_value_get. }
  rewrite bind_ret_l. cbv beta iota. rewrite (proj2 (Z.leb_le _ _)) by (simpl in Hmax; lia).
  simpl assert. rewrite bind_ret_l. simpl in Hmax. rewrite (IH coins); [|done|done|lia].
  simpl. do 2 f_equal. lia.
Qed.

(** The check on the gas payment decides exactly what it documents, and the
    precondition of charging follows from it: for gas coins it always returns, and
    it accepts if and only if every coin is owned by an address, the budget lies
    between the minimum cost and the maximum budget, and the coins together hold at
    least the budget. *)
Theorem gas_balance_check_exact s objs coins gas_budget :
  map as_object objs = map Some coins →
  Forall (λ o, coin_object o ∧ is_u64 (balance o)) coins →
  Z.of_nat (length coins) ≤ 2 ^ 64 →
  (∃ r, V2.check_gas_balance s objs gas_budget = Done r) ∧
  (V2.check_gas_balance s objs gas_budget = Done (Ok ()) ↔
   Forall (λ o, is_address_owned o = true) coins ∧
   V2.min_transaction_cost (V2.cost_table s) ≤ gas_budget ≤ V2.max_gas_budget (V2.cost_table s) ∧
   gas_budget ≤ sumZ (map balance coins)).
Proof.
  intros Hmap Hall Hlen.
  assert (sumZ (map balance coins) ≤ Z.of_nat (length coins) * u64_max) as Hsum.
  { clear Hmap Hlen. induction Hall as [|o coins [_ [_ Ho]] _ IH]; [done|].
    cbn [map sumZ length]. simpl. lia. }
  assert (sumZ (map balance coins) ≤ u128_max) as Hmax by (unfold u128_max, u64_max in *; lia).
  assert (V2.total_gas_balance 0 objs = Done (Ok (sumZ (map balance coins)))) as Htot.
  { rewrite (gas_total_ok objs coins 0); [done|done| |lia]. eapply Forall_impl; [exact Hall|].
    intros o [? [? _]]. done. }
  pose proof (gas_owners_ok objs coins Hmap) as Hown. unfold V2.check_gas_balance.
  destruct (V2.check_gas_owners objs) as [[]|e].
  2: { split; [by eexists|]. split; [done|]. intros (Hf & _). by apply Hown in Hf. }
  assert (Forall (λ o, is_address_owned o = true) coins) as Hf by by apply Hown.
  case_test (V2.max_gas_budget (V2.cost_table s) <? gas_budget) as H1.
  { split; [by eexists|]. split; [done|]. lia. }
  case_test (gas_budget <? V2.min_transaction_cost (V2.cost_table s)) as H2.
  { split; [by eexists|]. split; [done|]. lia. }
  rewrite Htot, bind_ret_l. case_test (sumZ (map balance coins) <? gas_budget) as H3.
  { split; [by eexists|]. split; [done|]. lia. }
  split; [by eexists|]. split; [|done]. intros _. split_and!; done || lia.
Qed.

(** * Executing a transaction *)

(** Charging for bytes keeps the meter's invariant, whatever the amount. *)
Lemma deduct_ok s amount :
  meter_ok s → 0 ≤ amount →
  meter_ok (deduct_gas amount s).1 ∧
  initial_budget (deduct_gas amount s).1 = initial_budget s.
Proof.
  intros Hok Ha. unfold deduct_gas. destruct (metered s); simpl; [|done].
  unfold gq_checked_sub, checked_sub64. pose proof (mo_gas s Hok) as Hgas.
  case_test (amount <=? gas_left s) as Hle; destruct Hok; (split; [split|]); simpl; done || lia.
Qed.

Lemma increase_size_ok s size :
  meter_ok s → 0 ≤ size →
  meter_ok (increase_stack_size size s).1 ∧
  initial_budget (increase_stack_size size s).1 = initial_budget s.
Proof.
  intros Hok Hsz. unfold increase_stack_size. destruct (checked_add64 _ _) as [n|] eqn:Hn; [|done].
  assert (n = stack_size_current s + size) as -> by
    (unfold checked_add64 in Hn; by destruct (_ <=? _) in Hn; simplify_eq).
  split; [|done]. destruct Hok. rewrite if_max. split; simpl; try (done || lia).
  unfold size_tier. simpl. rewrite <-surjective_pairing. by apply raise_tier_ok.
Qed.

Lemma charge_bytes_ok s size cost :
  meter_ok s → 0 ≤ size →
  meter_ok (charge_bytes size cost s).1 ∧ initial_budget (charge_bytes size cost s).1 = initial_budget s.
Proof.
  intros Hok Hsz. unfold charge_bytes, vm_bind, vm_get. simpl.
  destruct (charge_input_as_memory (gas_model_version s)).
  - destruct (increase_size_ok s size Hok Hsz) as [Hok1 Hini].
    destruct (increase_stack_size size s) as [s1 [u|e]]; simpl in *; [|done].
    rewrite <-Hini. apply deduct_ok; [done|]. apply wrap64_range.
  - simpl. apply deduct_ok; [done|]. apply wrap64_range.
Qed.

Section engine_theorems.
Context {Hback : BackingStore} {Hhash : ObjectHash} {Hbcs : BcsSizes} {Hval : ObjectValues}.
Context {A : Type}.

(** Charging gas on a store that holds as much MGO as it took. *)
Lemma charge_gas_values {B} mb g t id (res : result B ExecutionError) o g' t' res' c :
  charge_pre mb g t id → (is_ok res = true → kept_coin g t id o) →
  charge_gas g t res = Done (g', t', res', c) →
  inputs_resolve t → (is_ok res = true → values_kept t) →
  mgo_conserved t' c ∧ check_mgo_conserved_expensive t' c None = Done (Ok ()).
Proof.
  intros Hpre Hkept Hrun Hin Hvals.
  destruct (charge_gas_cases mb g t id res o Hpre Hkept) as
    (g1 & base & c1 & p & b & res1 & Heq & _ & Hset & Hp & Hco & Hu & _ & HC & HR & _ & _ & _ & _ & Hcase).
  rewrite Heq in Hrun. simplify_eq.
  assert (values_kept base) as Hbase.
  { pose proof (failed_kept g t Hin (cp_charger _ _ _ _ Hpre)) as Hf.
    destruct Hcase as [(Hok & -> & -> & _)|(_ & [->| ->] & _)]; [|by apply repriced_kept|done].
    by apply repriced_kept, ensured_kept, Hvals. }
  destruct (finish_values g' base id b c p) as [Hv Hm]; [done..|].
  split; [done|]. apply expensive_check_ok; [|done..].
  apply paid_store_ok; [apply (se_store _ _ _ _ Hset)|done..].
Qed.

Definition with_meter (gs : GasStatus) (g : GasCharger) : GasCharger :=
  set_status (V2.set_gas_status gs (gc_status g)) g.

Lemma charge_pre_metered mb g t id gs :
  charge_pre mb g t id → meter_ok gs →
  initial_budget gs = initial_budget (V2.gas_status (gc_status g)) →
  charge_pre mb (with_meter gs g) t id.
Proof.
  intros [Hs He Hu Hst Hch Hsm Hcl Hb] Hgs Hini. split; simpl; try done.
  - destruct Hs. split; simpl; try done. by rewrite Hini.
  - by destruct Hch; split.
  - by destruct Hcl; split.
Qed.

Lemma charge_input_ok mb g t t' id :
  charge_pre mb g t id →
  ∃ gs r, charge_input_objects g t' = (with_meter gs g, r) ∧ charge_pre mb (with_meter gs g) t id.
Proof.
  intros Hpre. unfold charge_input_objects, V2.charge_storage_read, V2.charge_bytes_status.
  set (total := sum64 _). set (cost := V2.object_read_per_byte_cost _).
  assert (0 ≤ total) as Htot by (subst total; rewrite sum64_wrap; apply wrap64_range).
  destruct (charge_bytes_ok (V2.gas_status (gc_status g)) total cost) as [Hm Hini];
    [apply Hpre|done|].
  destruct (charge_bytes total cost _) as [gs r]. eexists _, _. split; [done|].
  by apply charge_pre_metered.
Qed.

Lemma smashed_store_ok g t : inputs_ok t → charger_ok g t → store_ok (smashed_store g t).
Proof.
  intros Hi Hok. destruct (smashed_store_results g t) as [r Hr].
  split; [rewrite Hr; by apply inputs_ok_results|..]; unfold smashed_store;
    destruct (coin_ids g) as [|first [|second others]] eqn:Hids; try set_solver.
  all: destruct (co_coins g t Hok first) as (o & Ho & Hco & Href & _); [rewrite Hids; left|].
  all: rewrite Ho; unfold written, modified; simpl.
  - intros id o' [<- <-]%lookup_singleton_Some.
    destruct (with_balance_ok o (coins_total g t) Hco) as (-> & _); [|by apply (io_ids t Hi)].
    split; [by apply coins_total_nonneg|apply (co_total g t Hok)].
  - intros id Hid. left. destruct (co_coins g t Hok id) as (_ & _ & _ & ? & _); [|done].
    rewrite Hids. set_solver.
Qed.

Lemma charge_pre_smashed mb g t id :
  charge_pre mb g t id → charge_pre mb g (smashed_store g t) id.
Proof.
  intros [Hs He Hu Hst Hch Hsm Hcl Hb]. destruct (smashed_store_results g t) as [r Hr].
  assert (results_of t (smashed_store g t)) as Hres by by exists r.
  split; try done.
  - apply smashed_store_ok; [apply Hst|done].
  - rewrite Hr. by destruct Hch; split.
  - by rewrite (failed_store_results g g t).
  - by rewrite Hr.
Qed.

(** The state a transaction starts from: the gas coins are checked inputs that
    cover the budget, nothing has been charged or written. *)
Record run_pre (mb : Z) (g : GasCharger) (t : TemporaryStore) (id : ObjectID) : Prop := {
  rp_charge : charge_pre mb (set_smashed (Some id) g) t id;
  rp_coin : id ≠ 0;
  rp_fresh : execution_results t = results_default;
}.

Lemma smash_start mb g t id :
  run_pre mb g t id →
  smash_gas g t = Done (set_smashed (Some id) g, smashed_store (set_smashed (Some id) g) t).
Proof.
  intros [Hpre Hid Hfr]. set (g' := set_smashed (Some id) g) in *.
  assert (reset_storage g' = g') as Hrs.
  { pose proof (cp_entries _ _ _ _ Hpre) as He. pose proof (cp_unmetered _ _ _ _ Hpre) as Hu.
    unfold g', reset_storage, set_smashed, set_status, V2.reset_storage_cost_and_rebate, V2.set_storage
      in *. simpl in *. destruct g as [? ? ? ? []]. simpl in *. by subst. }
  pose proof (reset_ok g' t (st_inputs t (cp_store _ _ _ _ Hpre)) (cp_charger _ _ _ _ Hpre)) as Hr.
  unfold reset in Hr. rewrite Hrs in Hr.
  assert (drop_writes t = t) as Hdr by (unfold drop_writes; rewrite <-Hfr; by destruct t).
  rewrite Hdr in Hr. rewrite <-Hr.
  destruct (co_smashed g' t (cp_charger _ _ _ _ Hpre)) as (i & Hi & Hhd).
  unfold smash_gas, g', coin_ids in *. simpl in *. destruct (gas_coins g) as [|first others]; [done|].
  simpl in Hhd. simplify_eq. rewrite (proj2 (Z.eqb_neq _ _)) by done. rewrite andb_false_r. done.
Qed.

(** What the driver expects of the execution loop, started with charger [g], any
    meter, and store [t]: it returns, the coins and the inputs stay the same, and
    when it succeeds the gas coin is still there with the budget in it. *)
Definition loop_contract (mb : Z) (id : ObjectID) (g : GasCharger) (t : TemporaryStore)
    (execution_loop : GasCharger → TemporaryStore →
       exec (GasCharger * TemporaryStore * result A ExecutionError)) : Prop :=
  ∀ gs, charge_pre mb (with_meter gs g) t id →
    ∃ g2 t2 r o, execution_loop (with_meter gs g) t = Done (g2, t2, r) ∧ charge_pre mb g2 t2 id ∧
      V2.gas_budget (gc_status g2) = V2.gas_budget (gc_status g) ∧
      coin_ids g2 = coin_ids g ∧ input_objects t2 = input_objects t ∧
      (is_ok r = true → kept_coin g2 t2 id o).

(** The loop neither mints nor burns MGO: whatever it does, the inputs can still
    be read, and when it succeeds the objects it wrote hold what those it
    modified held. *)
Definition loop_keeps_mgo (g : GasCharger) (t : TemporaryStore)
    (execution_loop : GasCharger → TemporaryStore →
       exec (GasCharger * TemporaryStore * result A ExecutionError)) : Prop :=
  inputs_resolve t ∧
  ∀ gs g2 t2 r, execution_loop (with_meter gs g) t = Done (g2, t2, r) →
    inputs_resolve t2 ∧ (is_ok r = true → values_kept t2).

(** The states in which [execute_transaction] charges gas. *)
Lemma execution_ok mb config run loop g t id :
  charge_pre mb g t id → loop_contract mb id g t loop →
  ∃ g2 t2 res o,
    (let '(g, charged) := charge_input_objects g t in
     match charged with
     | Err e => Done (g, t, Err e)
     | Ok _ =>
         '(g, t, res) ←
           (if run_deny_cert run then Done (g, t, Err CertificateDenied)
            else if run_contains_deleted_input run then Done (g, t, Err InputObjectDeleted)
            else loop g t);
         let res := match check_meter_limit config t g with Err e => Err e | Ok _ => res end in
         let res :=
           if is_ok res then
             match check_written_objects_limit config t g with Err e => Err e | Ok _ => res end
           else res in
         Done (g, t, res)
     end) = Done (g2, t2, res) ∧
    charge_pre mb g2 t2 id ∧ V2.gas_budget (gc_status g2) = V2.gas_budget (gc_status g) ∧
    coin_ids g2 = coin_ids g ∧ input_objects t2 = input_objects t ∧
    (is_ok res = true → kept_coin g2 t2 id o) ∧
    (∀ a, res = Ok a → run_deny_cert run = false ∧ ∃ gs, loop (with_meter gs g) t = Done (g2, t2, Ok a)) ∧
    (t2 = t ∨ ∃ gs r, loop (with_meter gs g) t = Done (g2, t2, r)).
Proof.
  intros Hpre Hloop. destruct (charge_input_ok mb g t t id Hpre) as (gs & r & -> & Hpre1).
  assert (∃ o : Object, True) as [dummy _].
  { destruct (co_coins _ _ (cp_charger _ _ _ _ Hpre) id) as (o & _); [|by exists o].
    destruct (co_smashed _ _ (cp_charger _ _ _ _ Hpre)) as (i & Hi & Hhd).
    rewrite (cp_smashed _ _ _ _ Hpre) in Hi. simplify_eq. destruct (coin_ids g); simplify_eq/=. left. }
  destruct r as [[]|e]; [|eexists _, _, _, dummy; split_and!; try done; by left].
  set (body := if run_deny_cert run then _ else _).
  assert (∃ g2 t2 r o, body = Done (g2, t2, r) ∧ charge_pre mb g2 t2 id ∧
    V2.gas_budget (gc_status g2) = V2.gas_budget (gc_status g) ∧ coin_ids g2 = coin_ids g ∧
    input_objects t2 = input_objects t ∧ (is_ok r = true → kept_coin g2 t2 id o) ∧
    (∀ a, r = Ok a → run_deny_cert run = false ∧ ∃ gs, loop (with_meter gs g) t = Done (g2, t2, Ok a)) ∧
    (t2 = t ∨ ∃ gs r, loop (with_meter gs g) t = Done (g2, t2, r)))
    as (g2 & t2 & r & o & -> & H2 & Hb2 & Hc2 & Hi2 & Hk2 & Ha2 & Ho2).
  { subst body. destruct (run_deny_cert run); [eexists _, _, _, dummy; split_and!; try done; by left|].
    destruct (run_contains_deleted_input run); [eexists _, _, _, dummy; split_and!; try done; by left|].
    destruct (Hloop _ Hpre1) as (g2 & t2 & r & o & Hl & H2 & Hb2 & Hc2 & Hi2 & Hk2).
    exists g2, t2, r, o. split_and!; try done; [|by right; eexists _, _].
    intros a ->. split; [done|]. by eexists. }
  rewrite bind_ret_l. cbn beta iota zeta. eexists g2, t2, _, o. split; [done|].
  split_and!; try done.
  - destruct (check_meter_limit config t2 g2); [|done]. destruct (is_ok r) eqn:Hr; [|by rewrite Hr].
    destruct (check_written_objects_limit config t2 g2); [by intros _; apply Hk2|done].
  - intros a. destruct (check_meter_limit config t2 g2); [|done].
    destruct (is_ok r); [|apply Ha2].
    destruct (check_written_objects_limit config t2 g2); [apply Ha2|done].
Qed.

(** What the expensive checks, when they are on, ask of the loop. *)
Definition expensive_contract (run : TransactionRun) (g : GasCharger) (t : TemporaryStore)
    (execution_loop : GasCharger → TemporaryStore →
       exec (GasCharger * TemporaryStore * result A ExecutionError)) : Prop :=
  run_expensive_checks run = true → run_advance_epoch run = None ∧ loop_keeps_mgo g t execution_loop.

(** Whatever was charged for, MGO is conserved when the loop keeps it. *)
Lemma execution_values mb g t g2 t2 id (loop : GasCharger → TemporaryStore → _) (res : result A ExecutionError)
    o g' t' res' c :
  charger_ok g t → charge_pre mb g2 t2 id → (is_ok res = true → kept_coin g2 t2 id o) →
  (∀ a, res = Ok a → ∃ gs, loop (with_meter gs g) (smashed_store g t) = Done (g2, t2, Ok a)) →
  (t2 = smashed_store g t ∨ ∃ gs r, loop (with_meter gs g) (smashed_store g t) = Done (g2, t2, r)) →
  charge_gas g2 t2 res = Done (g', t', res', c) →
  loop_keeps_mgo g (smashed_store g t) loop →
  mgo_conserved t' c ∧ check_mgo_conserved_expensive t' c None = Done (Ok ()).
Proof.
  intros Hch Hpre Hkept Hok Hor Hrun [Hin Hkeep].
  eapply charge_gas_values; [done..| |].
  - destruct Hor as [->|(gs & r & Hl)]; [done|]. by destruct (Hkeep gs g2 t2 r Hl).
  - destruct res as [a|]; [|done]. destruct (Hok a eq_refl) as [gs Hl]. by destruct (Hkeep gs g2 t2 (Ok a) Hl).
Qed.

Lemma execute_conserves max_bucket config run loop g t id :
  let g0 := set_smashed (Some id) g in
  run_pre max_bucket g t id → loop_contract max_bucket id g0 (smashed_store g0 t) loop →
  expensive_contract run g0 (smashed_store g0 t) loop →
  ∃ g' t' c res' p,
    execute_transaction config run loop g t = Done (g', t', c, res') ∧
    check_mgo_conserved t' true c = Done (Ok ()) ∧
    (loop_keeps_mgo g0 (smashed_store g0 t) loop →
       mgo_conserved t' c ∧ check_mgo_conserved_expensive t' c None = Done (Ok ())) ∧
    net_usage c ≤ V2.gas_budget (gc_status g) ∧
    written t' !! id = Some p ∧ coin_object p ∧
    (is_ok res' = false →
       balance p = coins_total g t - net_usage c ∧
       created t' = ∅ ∧ deleted t' = list_to_set (tail (coin_ids g))) ∧
    (∀ a, res' = Ok a →
       run_deny_cert run = false ∧ ∃ g1 g2 t2, loop g1 (smashed_store g0 t) = Done (g2, t2, Ok a)) ∧
    smashed_gas_coin g' = Some id ∧ coin_ids g' = coin_ids g ∧
    ∃ g2 t2, charged_store g2 t2 id t' ∧ charge_pre max_bucket g2 t2 id ∧ coin_ids g2 = coin_ids g ∧
      input_objects t2 = input_objects t ∧
      (t2 = smashed_store g0 t ∨ ∃ gs r, loop (with_meter gs g0) (smashed_store g0 t) = Done (g2, t2, r)).
Proof.
  intros g0 Hrun Hloop Hexp. pose proof (charge_pre_smashed _ _ _ _ (rp_charge _ _ _ _ Hrun)) as Hpre.
  destruct (execution_ok max_bucket config run loop _ _ id Hpre Hloop) as
    (g2 & t2 & res & o & Hex & H2 & Hb2 & Hc2 & Hi2 & Hk2 & Ha2 & Ho2).
  destruct (charge_gas_outcome max_bucket g2 t2 id res o H2 Hk2) as
    (g' & t' & res' & c & p & Hcg & Hcons & Hnet & Hp & Hco & Hbal & Hres & Hun & Hfail & [Hsm Hids] & Hcs).
  assert (loop_keeps_mgo g0 (smashed_store g0 t) loop →
    mgo_conserved t' c ∧ check_mgo_conserved_expensive t' c None = Done (Ok ())) as Hvals.
  { eapply execution_values; [apply (cp_charger _ _ _ _ (rp_charge _ _ _ _ Hrun))|exact H2|exact Hk2| |exact Ho2|exact Hcg].
    intros a Ha. by destruct (Ha2 a Ha). }
  exists g', t', c, res', p. split_and!; try done; [|by rewrite Hb2 in Hnet|..|by rewrite Hids|].
  4: { exists g2, t2. split_and!; try done. rewrite Hi2.
       by destruct (smashed_store_results (set_smashed (Some id) g) t) as [r ->]. }
  - unfold execute_transaction. rewrite (smash_start max_bucket g t id Hrun), bind_ret_l.
    cbn beta iota. destruct (charge_input_objects _ _) as [gi charged].
    match goal with |- ?m ≫= ?k = _ =>
      transitivity (Done (g2, t2, res) ≫= k); [exact (f_equal (λ e, e ≫= k) Hex)|] end.
    rewrite bind_ret_l. cbn beta iota. rewrite Hcg, bind_ret_l. cbn beta iota. rewrite Hun. unfold conserve_unmetered_storage_rebate.
    simpl (0 =? 0). cbv iota. rewrite bind_ret_l. unfold run_conservation_checks.
    destruct (_ || _); [done|]. unfold conservation_result.
    assert (check_mgo_conserved t' (pc_simple_conservation_checks config) c = Done (Ok ())) as ->.
    { by destruct (pc_simple_conservation_checks config). }
    rewrite bind_ret_l. destruct (run_expensive_checks run) eqn:Hflag; [|done].
    destruct (Hexp Hflag) as [-> Hkeep]. by destruct (Hvals Hkeep) as [_ ->].
  - intros Hf. rewrite Hf in Hbal. destruct (Hfail Hf) as [? Hdel]. rewrite Hc2 in Hdel.
    split_and!; [|done..]. rewrite Hbal. unfold coins_total, coin_value. rewrite Hc2, Hi2.
    subst g0. by destruct (smashed_store_results (set_smashed (Some id) g) t) as [r ->].
  - intros a ->. destruct Hres as [<-|?]; [|done]. destruct (Ha2 a eq_refl) as (? & gs & ?).
    split; [done|]. by eexists _, _, _.
Qed.

(** C3: A metered transaction always runs to an outcome that conserves MGO.
    From checked gas coins that cover the budget, and for any execution loop that
    keeps its contract, [execute_transaction] returns (it never panics) with the
    storage rebates balanced against the summary, the sender pays at most the
    budget, a failed transaction creates nothing and only smashes its gas coins,
    and a success is one the loop reported on a certificate that was not denied.
    If moreover the loop neither mints nor burns MGO, the MGO in objects and
    rebates before is exactly the MGO in objects, rebates and fees after, whatever
    failed on the way.  With the expensive checks on, this is asked of the loop,
    and the expensive check succeeds as well. *)
Theorem execute_transaction_conserves max_bucket config run loop g t id :
  let g0 := set_smashed (Some id) g in
  run_pre max_bucket g t id → loop_contract max_bucket id g0 (smashed_store g0 t) loop →
  expensive_contract run g0 (smashed_store g0 t) loop →
  ∃ g' t' c res' p,
    execute_transaction config run loop g t = Done (g', t', c, res') ∧
    check_mgo_conserved t' true c = Done (Ok ()) ∧
    (loop_keeps_mgo g0 (smashed_store g0 t) loop →
       mgo_conserved t' c ∧ check_mgo_conserved_expensive t' c None = Done (Ok ())) ∧
    net_usage c ≤ V2.gas_budget (gc_status g) ∧
    written t' !! id = Some p ∧ coin_object p ∧
    (is_ok res' = false →
       balance p = coins_total g t - net_usage c ∧
       created t' = ∅ ∧ deleted t' = list_to_set (tail (coin_ids g))) ∧
    (∀ a, res' = Ok a →
       run_deny_cert run = false ∧ ∃ g1 g2 t2, loop g1 (smashed_store g0 t) = Done (g2, t2, Ok a)).
Proof.
  intros g0 Hrun Hloop Hexp.
  destruct (execute_conserves max_bucket config run loop g t id Hrun Hloop Hexp)
    as (g' & t' & c & res' & p & ? & ? & ? & ? & ? & ? & ? & ? & _). exists g', t', c, res', p. by split_and!.
Qed.

(** * Recovery after a failed conservation check *)

(** The charger and the store of a transaction stay chargeable once it has been
    charged and its storage entries are dropped. *)
Lemma charge_pre_results mb g t t' id k :
  charge_pre mb g t id → results_of t t' → store_ok t' → charge_pre mb (acct g k []) t' id.
Proof.
  intros [Hs He Hu Hst Hch Hsm Hcl Hb] Hres Hst'. split; try done.
  - by destruct Hs; split.
  - by apply (charger_ok_acct g t).
  - rewrite (failed_store_results g (acct g k []) t t') by done. by destruct Hcl; split.
  - by destruct Hres as [r ->].
Qed.

(** An error stays the one it was. *)
Lemma handle_keeps_error {B} g t (e : ExecutionError) v2 g' t' (res' : result B ExecutionError) :
  (if (v2 : bool) then handle_storage_and_rebate_v2 g t (Err e) else handle_storage_and_rebate_v1 g t (Err e)) =
    Done (g', t', res') → res' = Err e.
Proof.
  destruct v2; unfold handle_storage_and_rebate_v2, handle_storage_and_rebate_v1;
    intros ([[]|err] & _ & H)%bind_Done; try (by injection H).
  - apply bind_Done in H as ([g1 t1] & _ & H). apply bind_Done in H as (t2 & _ & H).
    apply bind_Done in H as ([t3 g3] & _ & H). apply bind_Done in H as ([[]|err'] & _ & H); [by injection H|].
    apply bind_Done in H as ([g4 t4] & _ & H). by injection H.
  - apply bind_Done in H as ([g1 t1] & _ & H). by injection H.
Qed.
Lemma charge_gas_keeps_error {B} g t (e : ExecutionError) g' t' (res' : result B ExecutionError) c :
  charge_gas g t (Err e) = Done (g', t', res', c) → res' = Err e.
Proof.
  unfold charge_gas. intros ([[g1 t1] res1] & H1 & H)%bind_Done.
  assert (res1 = Err e) as ->.
  { destruct (smashed_gas_coin g); [|by injection H1].
    apply bind_Done in H1 as ([s [[]|err]] & _ & H1); simpl in H1;
      apply bind_Done in H1 as ([g2 t2] & _ & H1); by injection H1. }
  apply bind_Done in H as (t2 & _ & H). apply bind_Done in H as ([t3 g3] & _ & H).
  destruct (smashed_gas_coin g3); [|by injection H].
  apply bind_Done in H as ([[g4 t4] res4] & H4 & H). apply handle_keeps_error in H4 as ->.
  by exec_inv.
Qed.

Lemma recharge mb g t id k l t1 (e : ExecutionError) (o : Object) :
  charge_pre mb g t id → results_of t t1 → store_ok t1 → inputs_resolve t →
  ∃ g2 t2 c2,
    ('(g, t) ← reset (acct g k l) t1; charge_gas g t (Err e : result unit ExecutionError)) =
      Done (g2, t2, Err e, c2) ∧
    check_mgo_conserved t2 true c2 = Done (Ok ()) ∧
    check_mgo_conserved_expensive t2 c2 None = Done (Ok ()) ∧ store_ok t2.
Proof.
  intros Hpre Hres Hst1 Hin.
  assert (inputs_ok t1 ∧ charger_ok (acct g k l) t1) as [Hi1 Hch1].
  { split; [apply Hst1|]. by apply (charger_ok_acct g t), Hres; apply (cp_charger _ _ _ _ Hpre). }
  destruct (smashed_store_results (acct g k l) t1) as [r Hr].
  assert (results_of t (smashed_store (acct g k l) t1)) as Hres'.
  { destruct Hres as [r' ->]. rewrite Hr. by eexists. }
  assert (charge_pre mb (acct g k []) (smashed_store (acct g k l) t1) id) as Hpre'.
  { apply (charge_pre_results mb g t); [done..|]. by apply smashed_store_ok. }
  destruct (charge_gas_outcome mb (acct g k []) _ id (Err e : result unit ExecutionError) o Hpre')
    as (g2 & t2 & res2 & c2 & p & Hrun & Hc & _ & _ & _ & _ & Hres2 & _ & _ & _ & Hcs); [done|].
  pose proof (charge_gas_keeps_error _ _ _ _ _ _ _ Hrun) as ->.
  exists g2, t2, c2. rewrite reset_ok, bind_ret_l by done. split_and!; try done.
  - apply (charge_gas_values mb (acct g k []) _ id (Err e : result unit ExecutionError) o _ _ _ _ Hpre'
      ltac:(done) Hrun); [|done]. rewrite Hr. destruct Hres as [r' ->]. exact Hin.
  - destruct Hcs as (base & q & v & s & -> & Hq & Hco & Hu & Hb & _). by apply paid_store_ok.
Qed.

(** C39: The recovery from a failed conservation check is checked against the
    wrong summary.  When a transaction that ran to a success fails the expensive
    check, dropping its writes and charging gas again always gives a store that
    passes both checks with the summary of that second charge; but
    [run_conservation_checks] compares it with the summary of the first charge,
    and panics whenever that one charged for storage an amount other than the
    rebates the store now holds. *)
Theorem recovery_checks_stale_summary mb g t id (a : A) o g1 t1 c e :
  charge_pre mb g t id → kept_coin g t id o → inputs_resolve t →
  charge_gas g t (Ok a) = Done (g1, t1, Ok a, c) →
  check_mgo_conserved_expensive t1 c None = Done (Err e) →
  ∃ g2 t2 c2,
    ('(g, t) ← reset g1 t1; charge_gas g t (Err e : result unit ExecutionError)) = Done (g2, t2, Err e, c2) ∧
    conservation_result t2 true true c2 None = Done (Ok ()) ∧
    (sum_storage_cost c ≠ 0 → sum_storage_cost c ≠ wrap64 (out_total t2) →
     run_conservation_checks t1 g1 true true false c None = Panic).
Proof.
  intros Hpre Hkept Hin Hrun Hbad.
  destruct (charge_gas_cases mb g t id (Ok a : result A ExecutionError) o Hpre (λ _, Hkept)) as
    (g1' & base & c' & p & b & res' & Heq & (k & l & ->) & Hset & Hp & Hco & Hu & _ & HC & HR & Hr0 & Hf0 & _ & _ & Hcase).
  rewrite Heq in Hrun. simplify_eq.
  destruct Hcase as [(_ & _ & -> & _ & ->)|(? & _)]; [|done].
  set (t1 := set_exec _ _ _) in *.
  assert (store_ok t1) as Hst1 by (apply paid_store_ok; [apply (se_store _ _ _ _ Hset)|done..]).
  destruct (recharge mb g t id k l t1 e o Hpre) as (g2 & t2 & c2 & Hre & Hsimple & Hexp & Hst2); [by eexists|done|done|].
  exists g2, t2, c2. split_and!; [done|..].
  { unfold conservation_result. by rewrite Hsimple. }
  intros Hne Hstale. unfold run_conservation_checks, conservation_result.
  rewrite (finish_conserved _ _ _ _ _ _ Hset Hp Hco Hu HC HR Hr0 Hf0), bind_ret_l. cbv iota.
  fold t1. rewrite Hbad, bind_ret_l. apply bind_Done in Hre as ([gr tr] & -> & Hre). rewrite bind_ret_l.
  cbn beta iota. rewrite Hre, bind_ret_l. cbn beta iota. unfold check_mgo_conserved. simpl negb. cbv iota.
  destruct (modified_objects_totals t2 Hst2) as (infos & -> & _ & Hout). rewrite bind_ret_l, !sum64_wrap, Hout.
  rewrite (proj2 (Z.eqb_neq _ _) Hne), (proj2 (Z.eqb_neq _ _) Hstale). by destruct (negb _).
Qed.
End engine_theorems.
