(* ===== verification/Unmetered.v ===== *)
(** System transactions pay no gas: what they release in storage rebates is
    moved into the system state object.  The theorem that nothing is lost. *)
From S2P Require Import Prelude MapSums GasTables Objects.
From S2P Require Import MgoGas TemporaryStore GasConservation.

Section unmetered.
Context {Hback : BackingStore} {Hhash : ObjectHash} {Hbcs : BcsSizes}.

Definition credit (r : Z) (g : GasCharger) : GasCharger :=
  set_status (V2.set_storage (V2.per_object_storage (gc_status g))
    (V2.unmetered_storage_rebate (gc_status g) + r) (gc_status g)) g.
Definition zeroed (t : TemporaryStore) : TemporaryStore :=
  set_written (set_storage_rebate 0 <$> written t) t.

Lemma credit_0 g : credit 0 g = g.
Proof. unfold credit. rewrite Z.add_0_r. by destruct g as [? ? ? ? []]. Qed.
Lemma credit_credit a b g : credit a (credit b g) = credit (b + a) g.
Proof. unfold credit. simpl. by rewrite Z.add_assoc. Qed.

Lemma track_unmetered g id size r :
  V2.charge (gc_status g) = false → is_u64 (V2.unmetered_storage_rebate (gc_status g) + r) →
  gc_track_storage_mutation g id size r = Done (credit r g, 0).
Proof.
  intros Hch Hu. unfold gc_track_storage_mutation, V2.track_storage_mutation, V2.is_unmetered.
  rewrite Hch. simpl. rewrite add64_small by apply Hu. done.
Qed.

Lemma zero_written_loop g w l (f : ObjectID → Z) :
  V2.charge (gc_status g) = false → 0 ≤ V2.unmetered_storage_rebate (gc_status g) →
  (∀ id, 0 ≤ f id) → Forall (λ kv : ObjectID * Object, object_id kv.2 = Done kv.1) l →
  V2.unmetered_storage_rebate (gc_status g) + sumZ (map (λ kv, f kv.1) l) ≤ u64_max →
  foldM (λ (acc : gmap ObjectID Object * GasCharger) (e : (ObjectID * Object) * Z),
    let '(key, object, old) := e in
    id ← object_id object;
    tracked ← gc_track_storage_mutation acc.2 id (object_size_for_gas_metering object) old;
    Done (<[key := set_storage_rebate tracked.2 object]> acc.1, tracked.1))
    (w, g) (zip l (map (λ kv, f kv.1) l)) =
  Done (foldl (λ w kv, <[kv.1 := set_storage_rebate 0 kv.2]> w) w l,
        credit (sumZ (map (λ kv, f kv.1) l)) g).
Proof.
  intros Hch Hu0 Hf Hall. revert w g Hch Hu0.
  induction Hall as [|[id o] l Hid Hall IH]; intros w g Hch Hu0 Hmax.
  - simpl. by rewrite credit_0.
  - cbn [map zip foldM sumZ fst snd] in *. pose proof (Hf id) as Hfid.
    assert (0 ≤ sumZ (map (λ kv : ObjectID * Object, f kv.1) l)) as Hrest.
    { apply sumZ_nonneg, Forall_map, Forall_forall. intros kv _. apply Hf. }
    simpl in Hid, Hmax |- *. rewrite Hid. simpl. rewrite track_unmetered by (done || (split; lia)).
    simpl. rewrite IH; [|done|simpl; lia|simpl; lia]. by rewrite credit_credit.
Qed.

Lemma collect_rebate_unmetered t g :
  store_ok t → V2.charge (gc_status g) = false →
  0 ≤ V2.unmetered_storage_rebate (gc_status g) →
  V2.unmetered_storage_rebate (gc_status g) + sumZ (map (old_rebate t) (removed t)) ≤ u64_max →
  collect_rebate t g = Done (credit (sumZ (map (old_rebate t) (removed t))) g).
Proof.
  intros Hok. unfold collect_rebate, removed.
  assert (∀ id, id ∈ bset_iter Z.le (modified t) → id ∈ modified t) as Hin.
  { intros id. by rewrite elem_of_bset_iter. }
  pose proof (io_rebates t (st_inputs t Hok)) as Hold.
  revert g. induction (bset_iter Z.le (modified t)) as [|id l IH]; intros g Hch Hu0 Hmax.
  - simpl. by rewrite credit_0.
  - specialize (IH ltac:(intros; apply Hin; by right)). rewrite filter_cons in *. cbn [foldM].
    destruct (written t !! id) as [o|] eqn:Hw; case_decide as Hn; try congruence; simpl in Hmax |- *.
    + by apply IH.
    + assert (0 ≤ sumZ (map (old_rebate t) (filter (λ id, written t !! id = None) l))) as Hrest.
      { apply sumZ_nonneg, Forall_map, Forall_forall. intros i _. apply Hold. }
      destruct (modified_at_ok t id Hok) as (md & -> & Hmd & _); [apply Hin; left|]. simpl. rewrite Hmd.
      pose proof (Hold id). rewrite track_unmetered by (done || (split; lia)). simpl.
      rewrite IH; [|done|simpl; lia|simpl; lia]. by rewrite credit_credit.
Qed.

Lemma zeroed_ok t : store_ok t → store_ok (zeroed t).
Proof.
  intros [Hi Hw Hk]. split; [by destruct Hi; split| |done].
  intros id o. unfold zeroed, written at 1. simpl. rewrite lookup_fmap.
  intros (o' & Ho' & ->)%fmap_Some. exact (Hw id o' Ho').
Qed.
Lemma zeroed_total t : out_total (zeroed t) = 0.
Proof.
  unfold out_total, zeroed, written. simpl. unfold map_sum. rewrite map_to_list_fmap, map_map. simpl.
  induction (map_to_list _) as [|kv l IH]; [done|]. simpl. done.
Qed.
Lemma zeroed_removed t : removed (zeroed t) = removed t.
Proof.
  apply filter_ext_in. intros id _. unfold zeroed, written. simpl. rewrite lookup_fmap.
  by destruct (written_objects (execution_results t) !! id).
Qed.

(** Everything the modified objects were worth is credited to the charger. *)
Lemma collect_unmetered t g :
  store_ok t → V2.charge (gc_status g) = false →
  V2.unmetered_storage_rebate (gc_status g) = 0 → in_total t ≤ u64_max →
  collect_storage_and_rebate t g = Done (zeroed t, credit (in_total t) g).
Proof.
  intros Hok Hch Hu Hmax. pose proof (io_rebates t (st_inputs t Hok)) as Hold.
  assert (∀ id, 0 ≤ credited t id) as Hcr by (intros id; unfold credited; case_decide; done || lia).
  set (l := btree_iter Z.le (written t)).
  assert (sumZ (map (λ kv : ObjectID * Object, credited t kv.1) l) + sumZ (map (old_rebate t) (removed t)) =
          in_total t) as Hsum.
  { rewrite <-(collected_rebates t (gc_status g)), entry_rebates_app.
    unfold entry_rebates, written_entries, removed_entries. by rewrite !map_map. }
  assert (0 ≤ sumZ (map (λ kv : ObjectID * Object, credited t kv.1) l)) as H1
    by (apply sumZ_nonneg, Forall_map, Forall_forall; intros kv _; apply Hcr).
  assert (0 ≤ sumZ (map (old_rebate t) (removed t))) as H2
    by (apply sumZ_nonneg, Forall_map, Forall_forall; intros kv _; apply Hold).
  unfold collect_storage_and_rebate. fold l.
  assert (mapM (λ kv : ObjectID * Object, old_storage_rebate t kv.1) l =
          Done (map (λ kv, credited t kv.1) l)) as ->.
  { apply mapM_Done. clear Hsum H1. induction l as [|kv l IH]; simpl; constructor; [|done].
    by apply old_storage_rebate_ok. }
  rewrite bind_ret_l, (zero_written_loop g _ _ (credited t)); [|done|lia|done| |lia].
  2: { apply Forall_forall. intros [id o] Hin%elem_of_btree_iter. by apply (st_written t Hok). }
  rewrite bind_ret_l. cbn [fst snd].
  assert (foldl (λ w kv, <[kv.1 := set_storage_rebate 0 kv.2]> w) (written t) l =
          set_storage_rebate 0 <$> written t) as -> by apply (foldl_insert_iter Z.le (set_storage_rebate 0)).
  fold (zeroed t).
  rewrite collect_rebate_unmetered; [|by apply zeroed_ok|done|simpl; lia|]; rewrite zeroed_removed.
  - rewrite bind_ret_l, credit_credit. by rewrite <-Hsum.
  - simpl. change (old_rebate (zeroed t)) with (old_rebate t). lia.
Qed.

Lemma conserve_ok e o u :
  store_ok e → written e !! MGO_SYSTEM_STATE_OBJECT_ID = Some o →
  MGO_SYSTEM_STATE_OBJECT_ID ∈ modified e →
  conserve_unmetered_storage_rebate u (zeroed e) =
    Done (set_exec (<[MGO_SYSTEM_STATE_OBJECT_ID := set_storage_rebate u o]>
            (set_storage_rebate 0 <$> written e)) (modified e) e).
Proof.
  intros Hok Ho Hmod. unfold conserve_unmetered_storage_rebate.
  assert (written (zeroed e) !! MGO_SYSTEM_STATE_OBJECT_ID = Some (set_storage_rebate 0 o)) as Hz.
  { unfold zeroed, written at 1. simpl. rewrite lookup_fmap. by rewrite Ho. }
  case_test (u =? 0) as Hu0.
  - subst u. f_equal. unfold zeroed, set_exec, set_written. f_equal. f_equal.
    rewrite insert_id; [done|]. rewrite lookup_fmap. by rewrite Ho.
  - unfold read_object. rewrite Hz. simpl unwrap. rewrite bind_ret_l. simpl assert. rewrite bind_ret_l.
    rewrite (mutate_ok _ _ MGO_SYSTEM_STATE_OBJECT_ID) by exact (st_written e Hok _ _ Ho).
    assert ({[MGO_SYSTEM_STATE_OBJECT_ID]} ∪ modified (zeroed e) = modified e) as ->; [|done].
    unfold modified in *. simpl. set_solver.
Qed.

(** C24: A system transaction loses no storage rebate.  Its gas is not metered:
    charging it returns with the empty summary, all objects it writes carry no
    rebate except the system state object, which receives the exact sum of what
    the modified objects were worth, and the conservation check succeeds. *)
Theorem unmetered_conserves {B} g t (res : result B ExecutionError) o :
  store_ok t → V2.charge (gc_status g) = false → smashed_gas_coin g = None →
  V2.unmetered_storage_rebate (gc_status g) = 0 → in_total (ensured t) ≤ u64_max →
  written (ensured t) !! MGO_SYSTEM_STATE_OBJECT_ID = Some o →
  MGO_SYSTEM_STATE_OBJECT_ID ∈ modified (ensured t) →
  ∃ g' t1 t', charge_gas g t res = Done (g', t1, res, summary_default) ∧
    conserve_unmetered_storage_rebate (V2.unmetered_storage_rebate (gc_status g')) t1 = Done t' ∧
    check_mgo_conserved t' true summary_default = Done (Ok ()) ∧
    modified t' = modified (ensured t) ∧
    written t' = <[MGO_SYSTEM_STATE_OBJECT_ID := set_storage_rebate (in_total (ensured t)) o]>
                   (set_storage_rebate 0 <$> written (ensured t)).
Proof.
  intros Hst Hch Hsm Hu Hmax Ho Hmod. set (e := ensured t) in *.
  assert (store_ok e) as Hok by by apply ensured_store_ok.
  assert (object_id o = Done MGO_SYSTEM_STATE_OBJECT_ID) as Hid by by apply (st_written e Hok).
  assert (0 ≤ in_total e) as Hnn by (apply set_sum_nonneg; intros; apply (io_rebates e (st_inputs e Hok))).
  exists (credit (in_total e) g), (zeroed e).
  set (t' := set_exec (<[MGO_SYSTEM_STATE_OBJECT_ID := set_storage_rebate (in_total e) o]>
    (set_storage_rebate 0 <$> written e)) (modified e) e). exists t'. split_and!; [..|done|done].
  - unfold charge_gas. rewrite Hsm, bind_ret_l. cbn beta iota.
    rewrite ensure_ok, bind_ret_l by apply Hst. fold e. rewrite collect_unmetered, bind_ret_l by done.
    cbn beta iota. simpl. by rewrite Hsm.
  - simpl. rewrite Hu, Z.add_0_l. by apply conserve_ok.
  - apply check_mgo_conserved_ok; [|done|done| |by intros []].
    + destruct Hok as [Hi Hw Hk]. split; [by apply inputs_ok_results| |done].
      intros id o'. unfold t', written at 1. simpl. intros [[<- <-]|[_ Ho']]%lookup_insert_Some; [done|].
      by apply (st_written _ (zeroed_ok e ltac:(by split))).
    + intros _. simpl. rewrite Z.add_0_r. f_equal. change (in_total t') with (in_total e).
      unfold t', out_total, written at 1. simpl.
      rewrite (map_sum_update _ _ _ (set_storage_rebate 0 o)) by (rewrite lookup_fmap; by rewrite Ho).
      pose proof (zeroed_total e) as Hz. unfold out_total, zeroed, written at 1 in Hz. simpl in Hz |- *. lia.
Qed.
End unmetered.
