(* ===== verification/Effects.v ===== *)
(** The effects of a transaction: the two formats of [mgo-types/src/effects]
    ([effects_v1.rs], [effects_v2.rs], [object_change.rs]) behind the trait
    [TransactionEffectsAPI], and their construction at the end of execution
    ([into_effects] of [mgo-adapter/src/temporary_store.rs],
    [execute_transaction_to_effects] of [execution_engine.rs]).

    The hash of the events is a parameter.  A failure is recorded with its
    error; the index of the failing command is not modelled. *)
From S2P Require Import Prelude GasTables Objects MgoGas.
From S2P Require Import TransactionData TemporaryStore ExecutionEngine.

Class EventsHash := events_hash : list Z → Z.

(** * Object changes *)

Inductive IDOperation := OpNone | OpCreated | OpDeleted.
Inductive ObjectIn :=
  | InNotExist
  | InExist (vd : SequenceNumber * ObjectDigest) (o : Owner).
Inductive ObjectOut :=
  | OutNotExist
  | ObjectWrite (d : ObjectDigest) (o : Owner)
  | PackageWrite (vd : SequenceNumber * ObjectDigest).
Record EffectsObjectChange := {
  input_state : ObjectIn;
  output_state : ObjectOut;
  id_operation : IDOperation;
}.
Record ObjectChange := {
  oc_id : ObjectID;
  oc_input_version : option SequenceNumber;
  oc_input_digest : option ObjectDigest;
  oc_output_version : option SequenceNumber;
  oc_output_digest : option ObjectDigest;
  oc_id_operation : IDOperation;
}.
Inductive UnchangedSharedKind :=
  | ReadOnlyRoot (vd : SequenceNumber * ObjectDigest)
  | MutateDeletedRoot (v : SequenceNumber)
  | ReadDeletedRoot (v : SequenceNumber).
Inductive InputSharedObject :=
  | Mutate (r : ObjectRef)
  | ReadOnly (r : ObjectRef)
  | ReadDeleted (id : ObjectID) (v : SequenceNumber)
  | MutateDeleted (id : ObjectID) (v : SequenceNumber).
Definition input_shared_object_ref (k : InputSharedObject) : ObjectRef :=
  match k with
  | Mutate r | ReadOnly r => r
  | ReadDeleted id v | MutateDeleted id v => (id, v, OBJECT_DIGEST_DELETED)
  end.
Inductive ExecutionStatus := Success | Failure (e : ExecutionError).
Inductive WriteKind := WriteMutate | WriteCreate | WriteUnwrap.
Inductive ObjectRemoveKind := RemoveDelete | RemoveWrap.

Definition EffectsObjectChange_new {Hhash : ObjectHash}
    (modified_at : option ((SequenceNumber * ObjectDigest) * Owner)) (written : option Object)
    (id_created id_deleted : bool) : EffectsObjectChange := {|
  input_state := match modified_at with None => InNotExist | Some (vd, o) => InExist vd o end;
  output_state :=
    match written with
    | None => OutNotExist
    | Some o =>
        if is_package o then PackageWrite (object_version o, object_digest o)
        else ObjectWrite (object_digest o) (owner o)
    end;
  id_operation := if id_created then OpCreated else if id_deleted then OpDeleted else OpNone |}.

(** * The interface of the two formats *)

Class TransactionEffectsAPI (E : Type) := {
  eff_status : E → ExecutionStatus;
  eff_executed_epoch : E → Z;
  eff_modified_at_versions : E → list (ObjectID * SequenceNumber);
  eff_lamport_version : E → exec SequenceNumber;
  eff_old_object_metadata : E → exec (list (ObjectRef * Owner));
  eff_input_shared_objects : E → list InputSharedObject;
  eff_created : E → list (ObjectRef * Owner);
  eff_mutated : E → list (ObjectRef * Owner);
  eff_unwrapped : E → list (ObjectRef * Owner);
  eff_deleted : E → list ObjectRef;
  eff_unwrapped_then_deleted : E → list ObjectRef;
  eff_wrapped : E → list ObjectRef;
  eff_object_changes : E → list ObjectChange;
  eff_gas_object : E → exec (ObjectRef * Owner);
  eff_events_digest : E → option Z;
  eff_dependencies : E → list TransactionDigest;
  eff_transaction_digest : E → TransactionDigest;
  eff_gas_cost_summary : E → GasCostSummary;
}.

(** What a system transaction reports as its gas object. *)
Definition no_gas_object : ObjectRef * Owner := ((0, 0, OBJECT_DIGEST_MIN), AddressOwner 0).

Module EffectsV1.
Record TransactionEffectsV1 := {
  status : ExecutionStatus;
  executed_epoch : Z;
  gas_used : GasCostSummary;
  modified_at_versions : list (ObjectID * SequenceNumber);
  shared_objects : list ObjectRef;
  transaction_digest : TransactionDigest;
  created : list (ObjectRef * Owner);
  mutated : list (ObjectRef * Owner);
  unwrapped : list (ObjectRef * Owner);
  deleted : list ObjectRef;
  unwrapped_then_deleted : list ObjectRef;
  wrapped : list ObjectRef;
  gas_object : ObjectRef * Owner;
  events_digest : option Z;
  dependencies : list TransactionDigest;
}.
Definition v1_lamport_version (e : TransactionEffectsV1) : exec SequenceNumber :=
  lamport_increment (modified_at_versions e).*2.
Definition v1_input_shared_objects (e : TransactionEffectsV1) : list InputSharedObject :=
  map (λ r : ObjectRef,
    if decide (r.1.1 ∈ (modified_at_versions e).*1) then Mutate r else ReadOnly r) (shared_objects e).
Definition v1_object_changes (e : TransactionEffectsV1) : list ObjectChange :=
  let modified_at := btree_collect (modified_at_versions e) in
  let change id input output operation := {|
    oc_id := id; oc_input_version := input; oc_input_digest := None;
    oc_output_version := fst <$> output; oc_output_digest := snd <$> output;
    oc_id_operation := operation |} in
  map (λ ro : ObjectRef * Owner, change ro.1.1.1 None (Some (ro.1.1.2, ro.1.2)) OpCreated) (created e) ++
  map (λ ro : ObjectRef * Owner,
    change ro.1.1.1 (modified_at !! ro.1.1.1) (Some (ro.1.1.2, ro.1.2)) OpNone) (mutated e) ++
  map (λ ro : ObjectRef * Owner, change ro.1.1.1 None (Some (ro.1.1.2, ro.1.2)) OpNone) (unwrapped e) ++
  map (λ r : ObjectRef, change r.1.1 (modified_at !! r.1.1) None OpDeleted) (deleted e) ++
  map (λ r : ObjectRef, change r.1.1 None None OpDeleted) (unwrapped_then_deleted e) ++
  map (λ r : ObjectRef, change r.1.1 (modified_at !! r.1.1) None OpNone) (wrapped e).
End EffectsV1.

#[export] Instance effects_v1_api : TransactionEffectsAPI EffectsV1.TransactionEffectsV1 := {|
  eff_status := EffectsV1.status;
  eff_executed_epoch := EffectsV1.executed_epoch;
  eff_modified_at_versions := EffectsV1.modified_at_versions;
  eff_lamport_version := EffectsV1.v1_lamport_version;
  eff_old_object_metadata := λ _, Panic;
  eff_input_shared_objects := EffectsV1.v1_input_shared_objects;
  eff_created := EffectsV1.created;
  eff_mutated := EffectsV1.mutated;
  eff_unwrapped := EffectsV1.unwrapped;
  eff_deleted := EffectsV1.deleted;
  eff_unwrapped_then_deleted := EffectsV1.unwrapped_then_deleted;
  eff_wrapped := EffectsV1.wrapped;
  eff_object_changes := EffectsV1.v1_object_changes;
  eff_gas_object := λ e, Done (EffectsV1.gas_object e);
  eff_events_digest := EffectsV1.events_digest;
  eff_dependencies := EffectsV1.dependencies;
  eff_transaction_digest := EffectsV1.transaction_digest;
  eff_gas_cost_summary := EffectsV1.gas_used |}.

Module EffectsV2.
Record TransactionEffectsV2 := {
  status : ExecutionStatus;
  executed_epoch : Z;
  gas_used : GasCostSummary;
  transaction_digest : TransactionDigest;
  gas_object_index : option Z;
  events_digest : option Z;
  dependencies : list TransactionDigest;
  lamport_version : SequenceNumber;
  changed_objects : list (ObjectID * EffectsObjectChange);
  unchanged_shared_objects : list (ObjectID * UnchangedSharedKind);
  aux_data_digest : option Z;
}.
Definition v2_modified_at_versions (e : TransactionEffectsV2) : list (ObjectID * SequenceNumber) :=
  omap (λ ic : ObjectID * EffectsObjectChange,
    match input_state ic.2 with InExist vd _ => Some (ic.1, vd.1) | InNotExist => None end)
    (changed_objects e).
Definition v2_old_object_metadata (e : TransactionEffectsV2) : list (ObjectRef * Owner) :=
  omap (λ ic : ObjectID * EffectsObjectChange,
    match input_state ic.2 with
    | InExist vd owner => Some (((ic.1, vd.1), vd.2), owner)
    | InNotExist => None
    end) (changed_objects e).
Definition v2_input_shared_objects (e : TransactionEffectsV2) : list InputSharedObject :=
  omap (λ ic : ObjectID * EffectsObjectChange,
    match input_state ic.2 with
    | InExist vd (Shared _) => Some (Mutate (ic.1, vd.1, vd.2))
    | _ => None
    end) (changed_objects e) ++
  map (λ ik : ObjectID * UnchangedSharedKind,
    match ik.2 with
    | ReadOnlyRoot vd => ReadOnly (ik.1, vd.1, vd.2)
    | MutateDeletedRoot seqno => MutateDeleted ik.1 seqno
    | ReadDeletedRoot seqno => ReadDeleted ik.1 seqno
    end) (unchanged_shared_objects e).
Definition v2_created (e : TransactionEffectsV2) : list (ObjectRef * Owner) :=
  omap (λ ic : ObjectID * EffectsObjectChange,
    match input_state ic.2, output_state ic.2, id_operation ic.2 with
    | InNotExist, ObjectWrite digest owner, OpCreated => Some ((ic.1, lamport_version e, digest), owner)
    | InNotExist, PackageWrite vd, OpCreated => Some ((ic.1, vd.1, vd.2), Immutable)
    | _, _, _ => None
    end) (changed_objects e).
Definition v2_mutated (e : TransactionEffectsV2) : list (ObjectRef * Owner) :=
  omap (λ ic : ObjectID * EffectsObjectChange,
    match input_state ic.2, output_state ic.2 with
    | InExist _ _, ObjectWrite digest owner => Some ((ic.1, lamport_version e, digest), owner)
    | InExist _ _, PackageWrite vd => Some ((ic.1, vd.1, vd.2), Immutable)
    | _, _ => None
    end) (changed_objects e).
Definition v2_unwrapped (e : TransactionEffectsV2) : list (ObjectRef * Owner) :=
  omap (λ ic : ObjectID * EffectsObjectChange,
    match input_state ic.2, output_state ic.2, id_operation ic.2 with
    | InNotExist, ObjectWrite digest owner, OpNone => Some ((ic.1, lamport_version e, digest), owner)
    | _, _, _ => None
    end) (changed_objects e).
Definition v2_deleted (e : TransactionEffectsV2) : list ObjectRef :=
  omap (λ ic : ObjectID * EffectsObjectChange,
    match input_state ic.2, output_state ic.2, id_operation ic.2 with
    | InExist _ _, OutNotExist, OpDeleted => Some (ic.1, lamport_version e, OBJECT_DIGEST_DELETED)
    | _, _, _ => None
    end) (changed_objects e).
Definition v2_unwrapped_then_deleted (e : TransactionEffectsV2) : list ObjectRef :=
  omap (λ ic : ObjectID * EffectsObjectChange,
    match input_state ic.2, output_state ic.2, id_operation ic.2 with
    | InNotExist, OutNotExist, OpDeleted => Some (ic.1, lamport_version e, OBJECT_DIGEST_DELETED)
    | _, _, _ => None
    end) (changed_objects e).
Definition v2_wrapped (e : TransactionEffectsV2) : list ObjectRef :=
  omap (λ ic : ObjectID * EffectsObjectChange,
    match input_state ic.2, output_state ic.2, id_operation ic.2 with
    | InExist _ _, OutNotExist, OpNone => Some (ic.1, lamport_version e, OBJECT_DIGEST_WRAPPED)
    | _, _, _ => None
    end) (changed_objects e).
Definition v2_object_changes (e : TransactionEffectsV2) : list ObjectChange :=
  map (λ ic : ObjectID * EffectsObjectChange,
    let input_version_digest :=
      match input_state ic.2 with InNotExist => None | InExist vd _ => Some vd end in
    let output_version_digest :=
      match output_state ic.2 with
      | OutNotExist => None
      | ObjectWrite d _ => Some (lamport_version e, d)
      | PackageWrite vd => Some vd
      end in
    {| oc_id := ic.1;
       oc_input_version := fst <$> input_version_digest;
       oc_input_digest := snd <$> input_version_digest;
       oc_output_version := fst <$> output_version_digest;
       oc_output_digest := snd <$> output_version_digest;
       oc_id_operation := id_operation ic.2 |}) (changed_objects e).
Definition v2_gas_object (e : TransactionEffectsV2) : exec (ObjectRef * Owner) :=
  match gas_object_index e with
  | Some index =>
      entry ← unwrap (changed_objects e !! Z.to_nat index);
      match output_state entry.2 with
      | ObjectWrite digest owner => Done ((entry.1, lamport_version e, digest), owner)
      | _ => Panic
      end
  | None => Done no_gas_object
  end.

(** A deleted shared input is not a changed object, and a shared input that is
    there and not changed was read only. *)
Definition unchanged_shared (changed : gmap ObjectID EffectsObjectChange) (i : SharedInput)
    : option (ObjectID * UnchangedSharedKind) :=
  match i with
  | SharedInputExisting (id, version, digest) =>
      if decide (is_Some (changed !! id)) then None else Some (id, ReadOnlyRoot (version, digest))
  | SharedInputDeleted id version mutable _ =>
      Some (id, if mutable then MutateDeletedRoot version else ReadDeletedRoot version)
  end.
Definition TransactionEffectsV2_new (status : ExecutionStatus) (executed_epoch : Z)
    (gas_used : GasCostSummary) (shared_objects : list SharedInput)
    (transaction_digest : TransactionDigest) (lamport_version : SequenceNumber)
    (changed_objects : gmap ObjectID EffectsObjectChange) (gas_object : option ObjectID)
    (events_digest : option Z) (dependencies : list TransactionDigest) : exec TransactionEffectsV2 :=
  let unchanged_shared_objects := omap (unchanged_shared changed_objects) shared_objects in
  let changed_objects := btree_iter Z.le changed_objects in
  gas_object_index ←
    match gas_object with
    | None => Done None
    | Some gas_id =>
        found ← unwrap (list_find (λ ic : ObjectID * EffectsObjectChange, ic.1 = gas_id) changed_objects);
        Done (Some (wrap32 (Z.of_nat found.1)))
    end;
  Done {| status := status; executed_epoch := executed_epoch; gas_used := gas_used;
          transaction_digest := transaction_digest; gas_object_index := gas_object_index;
          events_digest := events_digest; dependencies := dependencies;
          lamport_version := lamport_version; changed_objects := changed_objects;
          unchanged_shared_objects := unchanged_shared_objects; aux_data_digest := None |}.
End EffectsV2.

#[export] Instance effects_v2_api : TransactionEffectsAPI EffectsV2.TransactionEffectsV2 := {|
  eff_status := EffectsV2.status;
  eff_executed_epoch := EffectsV2.executed_epoch;
  eff_modified_at_versions := EffectsV2.v2_modified_at_versions;
  eff_lamport_version := λ e, Done (EffectsV2.lamport_version e);
  eff_old_object_metadata := λ e, Done (EffectsV2.v2_old_object_metadata e);
  eff_input_shared_objects := EffectsV2.v2_input_shared_objects;
  eff_created := EffectsV2.v2_created;
  eff_mutated := EffectsV2.v2_mutated;
  eff_unwrapped := EffectsV2.v2_unwrapped;
  eff_deleted := EffectsV2.v2_deleted;
  eff_unwrapped_then_deleted := EffectsV2.v2_unwrapped_then_deleted;
  eff_wrapped := EffectsV2.v2_wrapped;
  eff_object_changes := EffectsV2.v2_object_changes;
  eff_gas_object := EffectsV2.v2_gas_object;
  eff_events_digest := EffectsV2.events_digest;
  eff_dependencies := EffectsV2.dependencies;
  eff_transaction_digest := EffectsV2.transaction_digest;
  eff_gas_cost_summary := EffectsV2.gas_used |}.

Inductive TransactionEffects :=
  | TxEffectsV1 (e : EffectsV1.TransactionEffectsV1)
  | TxEffectsV2 (e : EffectsV2.TransactionEffectsV2).

(** The enum dispatches to its variants. *)
Definition dispatch {A : Type}
    (f : ∀ E : Type, TransactionEffectsAPI E → E → A) (e : TransactionEffects) : A :=
  match e with TxEffectsV1 e => f _ _ e | TxEffectsV2 e => f _ _ e end.
#[export] Instance effects_api : TransactionEffectsAPI TransactionEffects := {|
  eff_status := dispatch (@eff_status);
  eff_executed_epoch := dispatch (@eff_executed_epoch);
  eff_modified_at_versions := dispatch (@eff_modified_at_versions);
  eff_lamport_version := dispatch (@eff_lamport_version);
  eff_old_object_metadata := dispatch (@eff_old_object_metadata);
  eff_input_shared_objects := dispatch (@eff_input_shared_objects);
  eff_created := dispatch (@eff_created);
  eff_mutated := dispatch (@eff_mutated);
  eff_unwrapped := dispatch (@eff_unwrapped);
  eff_deleted := dispatch (@eff_deleted);
  eff_unwrapped_then_deleted := dispatch (@eff_unwrapped_then_deleted);
  eff_wrapped := dispatch (@eff_wrapped);
  eff_object_changes := dispatch (@eff_object_changes);
  eff_gas_object := dispatch (@eff_gas_object);
  eff_events_digest := dispatch (@eff_events_digest);
  eff_dependencies := dispatch (@eff_dependencies);
  eff_transaction_digest := dispatch (@eff_transaction_digest);
  eff_gas_cost_summary := dispatch (@eff_gas_cost_summary) |}.

(** ** What both formats offer *)

Section effects.
Context {E : Type} `{!TransactionEffectsAPI E}.

Definition deleted_mutably_accessed_shared_objects (e : E) : list ObjectID :=
  omap (λ kind, match kind with MutateDeleted id _ => Some id | _ => None end)
    (eff_input_shared_objects e).
Definition all_changed_objects (e : E) : list (ObjectRef * Owner * WriteKind) :=
  map (λ ro, (ro, WriteMutate)) (eff_mutated e) ++
  map (λ ro, (ro, WriteCreate)) (eff_created e) ++
  map (λ ro, (ro, WriteUnwrap)) (eff_unwrapped e).
Definition all_removed_objects (e : E) : list (ObjectRef * ObjectRemoveKind) :=
  map (λ r, (r, RemoveDelete)) (eff_deleted e) ++ map (λ r, (r, RemoveWrap)) (eff_wrapped e).
Definition all_tombstones (e : E) : list (ObjectID * SequenceNumber) :=
  map fst (eff_deleted e ++ eff_unwrapped_then_deleted e ++ eff_wrapped e).
End effects.

(** * The end of execution *)

(** What is left of the store; the packages loaded on the way and the
    parameters of the module format are not kept here. *)
Record InnerTemporaryStore := {
  inner_input_objects : gmap ObjectID Object;
  inner_mutable_inputs : gmap ObjectID ((SequenceNumber * ObjectDigest) * Owner);
  inner_written : gmap ObjectID Object;
  inner_loaded_runtime_objects : gmap ObjectID DynamicallyLoadedObjectMetadata;
  inner_events : list Z;
  inner_lamport_version : SequenceNumber;
}.
Definition into_inner (t : TemporaryStore) : InnerTemporaryStore := {|
  inner_input_objects := input_objects t;
  inner_mutable_inputs := mutable_input_refs t;
  inner_written := written t;
  inner_loaded_runtime_objects := loaded_runtime_objects t;
  inner_events := user_events (execution_results t);
  inner_lamport_version := store_lamport t |}.

Section construction.
Context {Hback : BackingStore} {Hhash : ObjectHash} {Hev : EventsHash}.

Definition get_object_changes (t : TemporaryStore) : exec (gmap ObjectID EffectsObjectChange) :=
  let all_ids := created t ∪ deleted t ∪ modified t ∪ dom (written t) in
  changes ← mapM (λ id,
    metadata ← get_object_modified_at t id;
    Done (id, EffectsObjectChange_new
      ((λ m, ((dl_version m, dl_digest m), dl_owner m)) <$> metadata) (written t !! id)
      (bool_decide (id ∈ created t)) (bool_decide (id ∈ deleted t))))
    (bset_iter Z.le all_ids);
  Done (btree_collect changes).

Definition events_digest_of (events : list Z) : option Z :=
  match events with [] => None | _ => Some (events_hash events) end.

(** The entry of a written object in the three lists of the first format. *)
Record WrittenEntry := {
  we_id : ObjectID;
  we_output : ObjectRef * Owner;
  we_modified_at : option SequenceNumber;
}.
Definition written_entry (t : TemporaryStore) (kv : ObjectID * Object) : exec WrittenEntry :=
  object_ref ← compute_object_reference kv.2;
  old ← get_object_modified_at t kv.1;
  Done {| we_id := kv.1; we_output := (object_ref, owner kv.2); we_modified_at := dl_version <$> old |}.

Definition into_effects_v1 (t : TemporaryStore) (shared_object_refs : list ObjectRef)
    (digest : TransactionDigest) (dependencies : gset TransactionDigest)
    (gas_cost_summary : GasCostSummary) (status : ExecutionStatus) (g : GasCharger) (epoch : Z)
    : exec (InnerTemporaryStore * TransactionEffects) :=
  updated_gas_object_info ←
    match smashed_gas_coin g with
    | Some coin_id =>
        object ← unwrap (written t !! coin_id);
        r ← compute_object_reference object;
        Done (r, owner object)
    | None => Done no_gas_object
    end;
  let lamport_version := store_lamport t in
  entries ← mapM (written_entry t) (btree_iter Z.le (written t));
  let modified_at_versions := omap (λ e, pair (we_id e) <$> we_modified_at e) entries in
  let mutated := omap (λ e, if we_modified_at e then Some (we_output e) else None) entries in
  let created_ := omap (λ e,
    if we_modified_at e then None
    else if decide (we_id e ∈ created t) then Some (we_output e) else None) entries in
  let unwrapped := omap (λ e,
    if we_modified_at e then None
    else if decide (we_id e ∈ created t) then None else Some (we_output e)) entries in
  let removed_ids := filter (λ id, written t !! id = None) (bset_iter Z.le (modified t)) in
  deleted_at_versions ← mapM (λ id,
    old ← get_object_modified_at t id; old ← unwrap old; Done (id, dl_version old)) removed_ids;
  let deleted_ := omap (λ id,
    if decide (id ∈ deleted t) then Some (id, lamport_version, OBJECT_DIGEST_DELETED) else None) removed_ids in
  let wrapped := omap (λ id,
    if decide (id ∈ deleted t) then None else Some (id, lamport_version, OBJECT_DIGEST_WRAPPED)) removed_ids in
  let unwrapped_then_deleted := map (λ id, (id, lamport_version, OBJECT_DIGEST_DELETED))
    (filter (λ id, id ∉ modified t) (bset_iter Z.le (deleted t))) in
  let inner := into_inner t in
  Done (inner, TxEffectsV1 {|
    EffectsV1.status := status; EffectsV1.executed_epoch := epoch;
    EffectsV1.gas_used := gas_cost_summary;
    EffectsV1.modified_at_versions := modified_at_versions ++ deleted_at_versions;
    EffectsV1.shared_objects := shared_object_refs; EffectsV1.transaction_digest := digest;
    EffectsV1.created := created_; EffectsV1.mutated := mutated; EffectsV1.unwrapped := unwrapped;
    EffectsV1.deleted := deleted_; EffectsV1.unwrapped_then_deleted := unwrapped_then_deleted;
    EffectsV1.wrapped := wrapped; EffectsV1.gas_object := updated_gas_object_info;
    EffectsV1.events_digest := events_digest_of (inner_events inner);
    EffectsV1.dependencies := bset_iter Z.le dependencies |}).

Definition into_effects_v2 (t : TemporaryStore) (shared_object_refs : list SharedInput)
    (digest : TransactionDigest) (dependencies : gset TransactionDigest)
    (gas_cost_summary : GasCostSummary) (status : ExecutionStatus) (g : GasCharger) (epoch : Z)
    : exec (InnerTemporaryStore * TransactionEffects) :=
  let gas_coin := smashed_gas_coin g in
  object_changes ← get_object_changes t;
  let inner := into_inner t in
  effects ← EffectsV2.TransactionEffectsV2_new status epoch gas_cost_summary shared_object_refs digest
    (store_lamport t) object_changes gas_coin (events_digest_of (inner_events inner))
    (bset_iter Z.le dependencies);
  Done (inner, TxEffectsV2 effects).

(** An object received by the transaction is a dependency on its last writer;
    a dynamic field that was loaded under the same identifier is not. *)
Definition received_dependency (t : TemporaryStore) (r : ObjectRef) : option TransactionDigest :=
  match loaded_runtime_objects t !! r.1.1 with
  | Some m =>
      if (dl_version m =? r.1.2) && (dl_digest m =? r.2) &&
         match dl_owner m with AddressOwner _ => true | _ => false end
      then Some (dl_previous_transaction m) else None
  | None => None
  end.

Definition into_effects (config : ProtocolConfig) (t : TemporaryStore)
    (shared_object_refs : list SharedInput) (digest : TransactionDigest)
    (dependencies : gset TransactionDigest) (gas_cost_summary : GasCostSummary)
    (status : ExecutionStatus) (g : GasCharger) (epoch : Z)
    : exec (InnerTemporaryStore * TransactionEffects) :=
  t ← update_object_version_and_prev_tx t;
  let dependencies :=
    list_to_set (omap (received_dependency t) (receiving_objects t)) ∪ dependencies in
  if pc_enable_effects_v2 config then
    into_effects_v2 t shared_object_refs digest dependencies gas_cost_summary status g epoch
  else
    refs ← mapM (λ i, match i with
                      | SharedInputExisting oref => Done oref
                      | SharedInputDeleted _ _ _ _ => Panic
                      end) shared_object_refs;
    into_effects_v1 t refs digest dependencies gas_cost_summary status g epoch.
End construction.

(** * From inputs to effects *)

Definition get_denied_certificates : gset TransactionDigest := ∅.
Definition is_certificate_denied (digest : TransactionDigest)
    (certificate_deny_set : gset TransactionDigest) : bool :=
  bool_decide (digest ∈ certificate_deny_set) || bool_decide (digest ∈ get_denied_certificates).

(** What the execution mode decides here. *)
Record ExecutionMode := {
  allow_arbitrary_function_calls : bool;
  skip_conservation_checks : bool;
}.

Section engine.
Context {Hback : BackingStore} {Hhash : ObjectHash} {Hbcs : BcsSizes} {Hval : ObjectValues} {Hev : EventsHash}.
Context {A : Type}.

(** [fuel] bounds the work list of the ownership check, and [loop] is the
    execution of the transaction's own commands. *)
Definition execute_transaction_to_effects (mode : ExecutionMode) (config : ProtocolConfig)
    (objects : list ObjectReadResult) (gas_coins : list ObjectRef) (gas_status : V2.MgoGasStatus)
    (kind : TransactionKind) (signer : MgoAddress) (digest : TransactionDigest) (epoch : Z)
    (enable_expensive_checks : bool) (certificate_deny_set : gset TransactionDigest) (fuel : nat)
    (loop : GasCharger → TemporaryStore → exec (GasCharger * TemporaryStore * result A ExecutionError))
    : exec (InnerTemporaryStore * V2.MgoGasStatus * TransactionEffects * result A ExecutionError) :=
  mutable ← (if enable_expensive_checks then refs ← mutable_inputs objects; Done (dom refs)
             else Done (∅ : gset ObjectID));
  shared_object_refs ← filter_shared_objects objects;
  let dependencies := transaction_dependencies objects in
  t ← TemporaryStore_new objects (kind_receiving_objects kind) digest;
  let g := GasCharger_new digest gas_coins gas_status config in
  advance_epoch ← get_advance_epoch_tx_gas_summary kind;
  let run := {|
    run_deny_cert := is_certificate_denied digest certificate_deny_set;
    run_contains_deleted_input := contains_deleted_objects objects;
    run_is_genesis := match kind with TkGenesis _ => true | _ => false end;
    run_skip_conservation := skip_conservation_checks mode;
    run_expensive_checks := enable_expensive_checks;
    run_advance_epoch := advance_epoch |} in
  '(g, t, gas_cost_summary, execution_result) ← execute_transaction config run loop g t;
  let status := match execution_result with Ok _ => Success | Err e => Failure e end in
  let dependencies := dependencies ∖ {[genesis_marker]} in
  _ ← (if enable_expensive_checks && negb (allow_arbitrary_function_calls mode) then
         checked ← check_ownership_invariants t fuel signer g mutable (is_end_of_epoch_tx kind);
         match checked with Ok _ => Done () | Err _ => Panic end
       else Done ());
  '(inner, effects) ← into_effects config t shared_object_refs digest dependencies
    gas_cost_summary status g epoch;
  Done (inner, gc_status g, effects, execution_result).
End engine.
