(* ===== verification/EffectsTheorems.v ===== *)
(** What the effects say of a transaction's writes.  [results_ok] is what
    execution leaves in the store; under it the effects are built without a
    panic, and the two formats agree on everything but the order of the
    modified versions and the lamport version. *)
From S2P Require Import Prelude MapSums GasTables Objects.
From S2P Require Import MgoGas TransactionData TemporaryStore ExecutionEngine.
From S2P Require Import GasConservation Effects.

Section effects.
Context {Hback : BackingStore} {Hhash : ObjectHash} {Hev : EventsHash}.

(** * The store at the end of execution *)

Record results_ok (t : TemporaryStore) : Prop := {
  ro_store : store_ok t;
  ro_created : created t ## modified t;
  ro_deleted : deleted t ## created t ∪ dom (written t);
  ro_packages : ∀ id o, written t !! id = Some o → is_package o = true →
    owner o = Immutable ∧ id ∈ modified t ∪ created t ∧ object_version o ≠ u64_max;
  ro_shared : ∀ id o v, written t !! id = Some o → owner o = Shared v → id ∈ created t → v = 0;
}.

(** The state of an object before the transaction, if it was there. *)
Definition old_metadata (t : TemporaryStore) (id : ObjectID) : option DynamicallyLoadedObjectMetadata :=
  match get_object_modified_at t id with Done m => m | _ => None end.

Lemma old_metadata_ok t id :
  store_ok t → get_object_modified_at t id = Done (old_metadata t id) ∧
    (is_Some (old_metadata t id) ↔ id ∈ modified t).
Proof.
  intros Hok. unfold old_metadata. destruct (decide (id ∈ modified t)) as [Hid|Hid].
  - destruct (modified_at_ok t id Hok Hid) as (md & -> & _). by split.
  - unfold get_object_modified_at. rewrite decide_False by done. split; [done|]. by split; [intros []|].
Qed.

(** The written object as it is stored. *)
Definition updated_object (t : TemporaryStore) (id : ObjectID) (o : Object) : Object := {|
  data :=
    match data o with
    | Move m => Move {| type_ := type_ m; has_public_transfer := has_public_transfer m;
                        mo_version := store_lamport t; contents := contents m |}
    | Package p =>
        if decide (id ∈ modified t) then
          Package {| mp_id := mp_id p; mp_version := mp_version p + 1; module_map := module_map p;
                     type_origin_table := type_origin_table p; linkage_table := linkage_table p |}
        else Package p
    end;
  owner :=
    match owner o with
    | Shared v => Shared (if decide (id ∈ created t) then store_lamport t else v)
    | x => x
    end;
  previous_transaction := tx_digest t;
  storage_rebate := storage_rebate o |}.
Definition updated (t : TemporaryStore) : TemporaryStore :=
  set_written (map_imap (λ id o, Some (updated_object t id o)) (written t)) t.

Lemma update_written_ok t id o :
  results_ok t → written t !! id = Some o → update_written_object t id o = Done (updated_object t id o).
Proof.
  intros Hok Ho. unfold update_written_object, updated_object.
  assert (∀ p, data o = Package p → mp_version p ≠ u64_max) as Hp.
  { intros p Hd. destruct (ro_packages t Hok id o Ho) as (_ & _ & Hv); [unfold is_package; by rewrite Hd|].
    unfold object_version in Hv. by rewrite Hd in Hv. }
  assert (∀ v, owner o = Shared v → id ∈ created t → v = 0) as Hs by (intros; by eapply ro_shared).
  destruct (data o) as [m|p].
  - rewrite bind_ret_l. destruct (owner o) as [| |v|]; simpl; try done.
    case_decide as Hc; simpl; [|done]. by rewrite (Hs v eq_refl Hc).
  - specialize (Hp p eq_refl). unfold seq_increment.
    rewrite (proj2 (Z.eqb_neq _ _) Hp).
    destruct (decide (id ∈ modified t)); simpl; (destruct (owner o) as [| |v|]; simpl; try done;
      case_decide as Hc; simpl; [|done]; by rewrite (Hs v eq_refl Hc)).
Qed.
Lemma update_ok t : results_ok t → update_object_version_and_prev_tx t = Done (updated t).
Proof.
  intros Hok. unfold update_object_version_and_prev_tx, updated.
  rewrite <-(foldl_insert_imap Z.le (updated_object t) (written t)).
  assert (∀ kv, kv ∈ btree_iter Z.le (written t) → written t !! kv.1 = Some kv.2) as Hl
    by (intros [k v]; by rewrite elem_of_btree_iter).
  set (l := btree_iter Z.le (written t)) in *.
  assert (∀ w, foldM (λ w kv, o ← update_written_object t kv.1 kv.2; Done (<[kv.1 := o]> w)) w l =
    Done (foldl (λ w kv, <[kv.1 := updated_object t kv.1 kv.2]> w) w l)) as ->; [|done].
  induction l as [|[k v] l IH]; intros w; [done|]. cbn [foldM foldl fst snd].
  rewrite (update_written_ok t k v Hok) by (apply (Hl (k, v)); left). rewrite !bind_ret_l.
  apply IH. intros; apply Hl; by right.
Qed.
Lemma updated_id t id o : object_id (updated_object t id o) = object_id o.
Proof. unfold object_id, updated_object. simpl. destruct (data o); [done|]. by case_decide. Qed.
Lemma updated_package t id o : is_package (updated_object t id o) = is_package o.
Proof. unfold is_package, updated_object. simpl. destruct (data o); [done|]. by case_decide. Qed.
Lemma updated_lookup t id : written (updated t) !! id = updated_object t id <$> written t !! id.
Proof. unfold updated, written at 1. simpl. rewrite map_lookup_imap. by destruct (written t !! id). Qed.

(** What the effects are built from. *)
Record stamped (t : TemporaryStore) : Prop := {
  sp_store : store_ok t;
  sp_created : created t ## modified t;
  sp_deleted : deleted t ## created t ∪ dom (written t);
  sp_packages : ∀ id o, written t !! id = Some o → is_package o = true →
    owner o = Immutable ∧ id ∈ modified t ∪ created t;
  sp_versions : ∀ id o, written t !! id = Some o → is_package o = false →
    object_version o = store_lamport t;
}.
Lemma updated_stamped t : results_ok t → stamped (updated t).
Proof.
  intros [[Hi Hw Hk] Hc Hd Hp _]. split.
  - split; [by destruct Hi; split| |done]. intros id o. rewrite updated_lookup.
    intros (o' & Ho' & ->)%fmap_Some. rewrite updated_id. by apply Hw.
  - done.
  - change (deleted (updated t)) with (deleted t). change (created (updated t)) with (created t).
    assert (dom (written (updated t)) = dom (written t)) as ->; [|done].
    apply set_eq. intros id. rewrite !elem_of_dom, updated_lookup. apply fmap_is_Some.
  - intros id o. rewrite updated_lookup. intros (o' & Ho' & ->)%fmap_Some. rewrite updated_package.
    intros Hpk. destruct (Hp id o' Ho' Hpk) as (Ho & ? & _). simpl. by rewrite Ho.
  - intros id o. rewrite updated_lookup. intros (o' & Ho' & ->)%fmap_Some. rewrite updated_package.
    unfold is_package, object_version, updated_object. simpl. by destruct (data o').
Qed.

(** * The lists of the effects, over the objects that were touched *)

Definition touched (t : TemporaryStore) : gset ObjectID :=
  created t ∪ deleted t ∪ modified t ∪ dom (written t).
Definition change_of (t : TemporaryStore) (id : ObjectID) : EffectsObjectChange :=
  EffectsObjectChange_new
    ((λ m, ((dl_version m, dl_digest m), dl_owner m)) <$> old_metadata t id) (written t !! id)
    (bool_decide (id ∈ created t)) (bool_decide (id ∈ deleted t)).
Definition changes_of (t : TemporaryStore) : gmap ObjectID EffectsObjectChange :=
  btree_collect (map (λ id, (id, change_of t id)) (bset_iter Z.le (touched t))).

Lemma changes_lookup t id : changes_of t !! id = if decide (id ∈ touched t) then Some (change_of t id) else None.
Proof.
  unfold changes_of. set (l := map _ _).
  assert (l.*1 = bset_iter Z.le (touched t)) as Hk.
  { unfold l. change (map ?f ?k) with (f <$> k). rewrite <-list_fmap_compose. apply list_fmap_id. }
  destruct (decide (id ∈ touched t)) as [Hid|Hid].
  - apply btree_collect_nodup; [rewrite Hk; apply bset_iter_NoDup; apply _|].
    apply list_elem_of_fmap. exists id. by rewrite elem_of_bset_iter.
  - destruct (btree_collect l !! id) as [c|] eqn:Hc; [|done].
    destruct Hid. rewrite <-(elem_of_bset_iter Z.le), <-Hk. apply btree_collect_dom. by rewrite Hc.
Qed.
Lemma object_changes_ok t : store_ok t → get_object_changes t = Done (changes_of t).
Proof.
  intros Hok. unfold get_object_changes, changes_of.
  rewrite (mapM_pure _ (λ id, (id, change_of t id))); [done|]. intros id _.
  by rewrite (proj1 (old_metadata_ok t id Hok)).
Qed.
Lemma changes_iter t : btree_iter Z.le (changes_of t) = map (λ id, (id, change_of t id)) (bset_iter Z.le (touched t)).
Proof.
  rewrite (btree_iter_keys Z.le (changes_of t) (touched t)).
  2: { intros id. rewrite elem_of_dom, changes_lookup. case_decide; [done|by intros []]. }
  apply omap_total. intros id Hid%elem_of_bset_iter. by rewrite changes_lookup, decide_True.
Qed.

Definition entry_of (t : TemporaryStore) (kv : ObjectID * Object) : WrittenEntry := {|
  we_id := kv.1; we_output := ((kv.1, object_version kv.2, object_digest kv.2), owner kv.2);
  we_modified_at := dl_version <$> old_metadata t kv.1 |}.
Lemma written_entries_ok t :
  store_ok t → mapM (written_entry t) (btree_iter Z.le (written t)) =
    Done (map (entry_of t) (btree_iter Z.le (written t))).
Proof.
  intros Hok. apply mapM_pure. intros [id o] Hin%elem_of_btree_iter. unfold written_entry, compute_object_reference.
  cbn [fst snd]. rewrite (st_written t Hok id o Hin). rewrite !bind_ret_l.
  by rewrite (proj1 (old_metadata_ok t id Hok)).
Qed.

(** A list over the written objects, and one over the removed ones, as a list
    over all that were touched. *)
Lemma written_list {B} t (f : WrittenEntry → option B) :
  omap f (map (entry_of t) (btree_iter Z.le (written t))) =
  omap (λ id, written t !! id ≫= λ o, f (entry_of t (id, o))) (bset_iter Z.le (touched t)).
Proof.
  rewrite (btree_iter_keys Z.le (written t) (touched t)) by (unfold touched; set_solver).
  induction (bset_iter Z.le (touched t)) as [|id l IH]; [done|]. csimpl.
  destruct (written t !! id) as [o|]; csimpl; [|done]. by destruct (f _); [f_equal|].
Qed.
Lemma removed_list {B} t (f : ObjectID → option B) :
  omap f (filter (λ id, written t !! id = None) (bset_iter Z.le (modified t))) =
  omap (λ id, if decide (id ∈ modified t ∧ written t !! id = None) then f id else None)
    (bset_iter Z.le (touched t)).
Proof.
  rewrite (bset_iter_filter Z.le).
  rewrite (omap_ext_in f (λ id, if decide (id ∈ modified t ∧ written t !! id = None) then f id else None)).
  - apply (bset_iter_omap_sub Z.le); [intros id [_ ?]%elem_of_filter; unfold touched; set_solver|]. intros id _ Hid.
    rewrite decide_False; [done|]. intros [? ?]. apply Hid. by apply elem_of_filter.
  - intros id [? ?]%elem_of_bset_iter%elem_of_filter. by rewrite decide_True.
Qed.
Lemma changed_list {B} t (f : ObjectID * EffectsObjectChange → option B) :
  omap f (btree_iter Z.le (changes_of t)) =
  omap (λ id, f (id, change_of t id)) (bset_iter Z.le (touched t)).
Proof.
  rewrite changes_iter. induction (bset_iter Z.le (touched t)) as [|id l IH]; [done|]. csimpl.
  by destruct (f _); [f_equal|].
Qed.

(** * What effects have to say *)

Section specification.
Context (t : TemporaryStore).
Let ids := bset_iter Z.le (touched t).

Definition output_of (id : ObjectID) (o : Object) : ObjectRef * Owner :=
  ((id, object_version o, object_digest o), owner o).
Definition tombstone (id : ObjectID) (d : ObjectDigest) : ObjectRef := (id, store_lamport t, d).

Definition created_outputs : list (ObjectRef * Owner) :=
  omap (λ id, o ← written t !! id;
    if decide (id ∈ created t) then Some (output_of id o) else None) ids.
Definition mutated_outputs : list (ObjectRef * Owner) :=
  omap (λ id, o ← written t !! id;
    if decide (id ∈ modified t) then Some (output_of id o) else None) ids.
Definition unwrapped_outputs : list (ObjectRef * Owner) :=
  omap (λ id, o ← written t !! id;
    if decide (id ∈ modified t ∪ created t) then None else Some (output_of id o)) ids.
Definition removed_outputs (P : ObjectID → Prop) `{!∀ id, Decision (P id)} (d : ObjectDigest) : list ObjectRef :=
  omap (λ id, if decide (P id) then Some (tombstone id d) else None) ids.
Definition modified_versions : list (ObjectID * SequenceNumber) :=
  omap (λ id, (λ m, (id, dl_version m)) <$> old_metadata t id) ids.

Record describes {E} `{!TransactionEffectsAPI E} (g : GasCharger) (e : E) : Prop := {
  ds_created : eff_created e = created_outputs;
  ds_mutated : eff_mutated e = mutated_outputs;
  ds_unwrapped : eff_unwrapped e = unwrapped_outputs;
  ds_deleted : eff_deleted e =
    removed_outputs (λ id, id ∈ modified t ∧ id ∈ deleted t) OBJECT_DIGEST_DELETED;
  ds_unwrapped_then_deleted : eff_unwrapped_then_deleted e =
    removed_outputs (λ id, (id ∉ modified t) ∧ id ∈ deleted t) OBJECT_DIGEST_DELETED;
  ds_wrapped : eff_wrapped e =
    removed_outputs (λ id, id ∈ modified t ∧ (id ∉ deleted t) ∧ written t !! id = None) OBJECT_DIGEST_WRAPPED;
  ds_modified : eff_modified_at_versions e ≡ₚ modified_versions;
  ds_gas : eff_gas_object e =
    match smashed_gas_coin g with
    | None => Done no_gas_object
    | Some id => o ← unwrap (written t !! id); Done (output_of id o)
    end;
}.
End specification.

(** ** The first format *)

Ltac decide_cases := repeat case_decide; try done; exfalso; tauto.

Lemma unmodified_none t id : store_ok t → old_metadata t id = None ↔ id ∉ modified t.
Proof.
  intros Hok. destruct (old_metadata_ok t id Hok) as [_ Hiff]. rewrite <-Hiff.
  destruct (old_metadata t id); split; [done|by intros []; eexists|by intros _ []|done].
Qed.

Lemma deleted_unwritten t : stamped t → ∀ id, id ∈ deleted t → written t !! id = None ∧ id ∉ created t.
Proof.
  intros Hst id Hid. pose proof (sp_deleted t Hst) as Hd. split; [|set_solver].
  apply not_elem_of_dom. set_solver.
Qed.
Lemma removed_only_deleted t :
  map (λ id, (id, store_lamport t, OBJECT_DIGEST_DELETED))
    (filter (λ id, id ∉ modified t) (bset_iter Z.le (deleted t))) =
  removed_outputs t (λ id, (id ∉ modified t) ∧ id ∈ deleted t) OBJECT_DIGEST_DELETED.
Proof.
  unfold removed_outputs. rewrite (bset_iter_filter Z.le).
  rewrite <-(bset_iter_omap_sub Z.le _ (filter (λ id, id ∉ modified t) (deleted t))).
  - symmetry. apply omap_total. intros id [? ?]%elem_of_bset_iter%elem_of_filter. by rewrite decide_True.
  - intros id [_ ?]%elem_of_filter. unfold touched. set_solver.
  - intros id _ Hid. rewrite decide_False; [done|]. intros [? ?]. apply Hid. by apply elem_of_filter.
Qed.

Lemma effects_v1_ok t refs digest deps summary status g epoch :
  stamped t →
  (∀ id, smashed_gas_coin g = Some id → is_Some (written t !! id)) →
  ∃ e, into_effects_v1 t refs digest deps summary status g epoch = Done (into_inner t, TxEffectsV1 e) ∧
    describes t g e ∧ EffectsV1.status e = status ∧ EffectsV1.transaction_digest e = digest ∧
    EffectsV1.gas_used e = summary ∧ EffectsV1.dependencies e = bset_iter Z.le deps.
Proof.
  intros Hst Hgas. pose proof (deleted_unwritten t Hst) as Hdw.
  destruct Hst as [Hok Hcr Hdel Hpk Hver]. unfold into_effects_v1.
  assert (∃ info, match smashed_gas_coin g with
      | Some coin_id =>
          object ← unwrap (written t !! coin_id);
          r ← compute_object_reference object; Done (r, owner object)
      | None => Done no_gas_object
      end = Done info ∧
      match smashed_gas_coin g with
      | None => Done no_gas_object
      | Some id => o ← unwrap (written t !! id); Done (output_of id o)
      end = Done info) as (info & Hinfo & Hinfo').
  { destruct (smashed_gas_coin g) as [id|]; [|by eexists].
    destruct (Hgas id eq_refl) as [o Ho]. rewrite Ho. simpl. unfold compute_object_reference.
    rewrite (st_written t Hok id o Ho). by eexists. }
  rewrite Hinfo, bind_ret_l. rewrite written_entries_ok by done. rewrite bind_ret_l.
  set (old := λ id : ObjectID, match old_metadata t id with Some m => dl_version m | None => 0 end).
  rewrite (mapM_pure _ (λ id, (id, old id))).
  2: { intros id [_ Hid%elem_of_bset_iter]%list_elem_of_filter. rewrite (proj1 (old_metadata_ok t id Hok)).
       destruct (proj2 (proj2 (old_metadata_ok t id Hok)) Hid) as [m Hm]. unfold old. by rewrite Hm. }
  rewrite bind_ret_l. eexists. split; [reflexivity|]. split; [|done].
  split; cbn [eff_created eff_mutated eff_unwrapped eff_deleted eff_unwrapped_then_deleted eff_wrapped
    eff_modified_at_versions eff_gas_object effects_v1_api EffectsV1.created EffectsV1.mutated
    EffectsV1.unwrapped EffectsV1.deleted EffectsV1.unwrapped_then_deleted EffectsV1.wrapped
    EffectsV1.modified_at_versions EffectsV1.gas_object]; rewrite ?written_list, ?removed_list.
  - apply omap_ext_in. intros id _. destruct (written t !! id) as [o|]; [|done]. simpl.
    destruct (decide (id ∈ created t)) as [Hc|Hc].
    + rewrite (proj2 (unmodified_none t id Hok)) by set_solver. done.
    + by destruct (old_metadata t id).
  - apply omap_ext_in. intros id _. destruct (written t !! id) as [o|]; [|done]. simpl.
    pose proof (unmodified_none t id Hok) as Hn. case_decide; destruct (old_metadata t id); try done;
    by (destruct Hn as [H1 H2]; first [destruct (H1 eq_refl)|specialize (H2 ltac:(done))]).
  - apply omap_ext_in. intros id _. destruct (written t !! id) as [o|]; [|done]. simpl.
    pose proof (unmodified_none t id Hok) as Hn.
    destruct (old_metadata t id) as [m|] eqn:Hm; simpl.
    + rewrite decide_True; [done|]. destruct (decide (id ∈ modified t)) as [|Hx]; [set_solver|].
      by apply Hn in Hx.
    + assert (id ∉ modified t) by by apply Hn. case_decide; [rewrite decide_True by set_solver|rewrite decide_False by set_solver]; done.
  - apply omap_ext_in. intros id _. pose proof (Hdw id). decide_cases.
  - by apply removed_only_deleted.
  - apply omap_ext_in. intros id _. decide_cases.
  - symmetry. rewrite <-(omap_total (λ id, Some (id, old id))) by done. rewrite removed_list.
    apply omap_split. intros id _. pose proof (unmodified_none t id Hok) as Hn. unfold old, entry_of. cbn [we_modified_at we_id fst].
    destruct (written t !! id) as [o|], (old_metadata t id) as [m|]; simpl;
      [left; split; [done|by rewrite decide_False by by intros []]..|right|right]; (split; [|done]).
    + rewrite decide_True; [done|]. split; [|done]. destruct (decide (id ∈ modified t)) as [|Hx]; [done|].
      by apply Hn in Hx.
    + rewrite decide_False; [done|]. intros [? _]. by destruct (proj1 Hn eq_refl).
  - by rewrite Hinfo'.
Qed.

(** ** The second format *)

(** What a change records, by the sets the object is in. *)
Lemma change_input t id :
  store_ok t →
  match input_state (change_of t id) with
  | InNotExist => (id ∉ modified t) ∧ old_metadata t id = None
  | InExist vd o => id ∈ modified t ∧ ∃ m, old_metadata t id = Some m ∧ vd.1 = dl_version m
  end.
Proof.
  intros Hok. pose proof (unmodified_none t id Hok) as Hn. unfold change_of, EffectsObjectChange_new. simpl.
  destruct (old_metadata t id) as [m|]; simpl.
  - split; [|by exists m]. destruct (decide (id ∈ modified t)) as [|Hx]; [done|]. by apply Hn in Hx.
  - split; [by apply Hn|done].
Qed.
Lemma change_operation t id :
  stamped t →
  match id_operation (change_of t id) with
  | OpNone => (id ∉ created t) ∧ id ∉ deleted t
  | OpCreated => id ∈ created t ∧ (id ∉ modified t) ∧ id ∉ deleted t
  | OpDeleted => id ∈ deleted t ∧ (id ∉ created t) ∧ written t !! id = None
  end.
Proof.
  intros Hst. pose proof (sp_created t Hst) as Hc. pose proof (sp_deleted t Hst) as Hd.
  unfold change_of, EffectsObjectChange_new. simpl. repeat case_bool_decide; simpl; try set_solver.
  split; [done|]. split; [done|]. by apply deleted_unwritten.
Qed.
Lemma change_output t id :
  stamped t →
  match output_state (change_of t id) with
  | OutNotExist => written t !! id = None
  | ObjectWrite d o => ∃ obj, written t !! id = Some obj ∧ output_of id obj = ((id, store_lamport t, d), o)
  | PackageWrite vd => ∃ obj, written t !! id = Some obj ∧
      output_of id obj = ((id, vd.1, vd.2), Immutable) ∧ id ∈ modified t ∪ created t
  end.
Proof.
  intros Hst. unfold change_of, EffectsObjectChange_new. simpl.
  destruct (written t !! id) as [o|] eqn:Ho; [|done]. unfold output_of.
  destruct (is_package o) eqn:Hp.
  - destruct (sp_packages t Hst id o Ho Hp) as [Hi ?]. exists o. by rewrite Hi.
  - exists o. by rewrite (sp_versions t Hst id o Ho Hp).
Qed.

(** Compares a field of the second format with the specification at one object. *)
Ltac change_cases t id Hok Hst :=
  cbn [fst snd]; pose proof (change_input t id Hok); pose proof (change_operation t id Hst);
  pose proof (change_output t id Hst); pose proof (deleted_unwritten t Hst id);
  destruct (input_state (change_of t id)), (output_state (change_of t id)), (id_operation (change_of t id));
  repeat match goal with
         | H : _ ∧ _ |- _ => destruct H
         | H : ∃ _, _ |- _ => destruct H
         end; try congruence;
  repeat match goal with H : written t !! id = _ |- _ => rewrite ?H; clear H end; cbn [mbind option_bind];
  repeat case_decide; rewrite ?elem_of_union in *; destruct_and?; try tauto; try congruence.

Lemma gas_index t id :
  is_Some (written t !! id) → Z.of_nat (size (touched t)) ≤ 2 ^ 32 →
  ∃ n : nat,
    (found ← unwrap (list_find (λ ic : ObjectID * EffectsObjectChange, ic.1 = id)
               (btree_iter Z.le (changes_of t)));
     Done (Some (wrap32 (Z.of_nat found.1)))) = Done (Some (Z.of_nat n)) ∧
    btree_iter Z.le (changes_of t) !! n = Some (id, change_of t id).
Proof.
  intros Hw Hsize. rewrite changes_iter. set (l := map _ _).
  assert ((id, change_of t id) ∈ l) as Hin.
  { apply list_elem_of_fmap. exists id. rewrite elem_of_bset_iter. split; [done|].
    unfold touched. apply elem_of_dom in Hw. set_solver. }
  destruct (list_find_elem_of (λ ic : ObjectID * EffectsObjectChange, ic.1 = id) l _ Hin eq_refl)
    as [[n [i c]] Hf]. rewrite Hf. apply list_find_Some in Hf as (Hn & Hi & _). simpl in Hi. subst i.
  exists n. assert (n < length l)%nat as Hlt by by eapply lookup_lt_Some.
  assert (length l = size (touched t)) as Hlen.
  { unfold l, bset_iter. rewrite length_map, (Permutation_length (merge_sort_Permutation _ _)). done. }
  simpl. split.
  - do 2 f_equal. unfold wrap32. apply Z.mod_small. lia.
  - rewrite Hn. apply list_elem_of_lookup_2 in Hn.
    apply list_elem_of_fmap in Hn as (j & [= -> ->] & _). done.
Qed.

Lemma effects_v2_ok t refs digest deps summary status g epoch :
  stamped t →
  (∀ id, smashed_gas_coin g = Some id → ∃ o, written t !! id = Some o ∧ is_package o = false) →
  Z.of_nat (size (touched t)) ≤ 2 ^ 32 →
  ∃ e, into_effects_v2 t refs digest deps summary status g epoch = Done (into_inner t, TxEffectsV2 e) ∧
    describes t g e ∧ EffectsV2.status e = status ∧ EffectsV2.transaction_digest e = digest ∧
    EffectsV2.gas_used e = summary ∧ EffectsV2.dependencies e = bset_iter Z.le deps ∧
    EffectsV2.lamport_version e = store_lamport t.
Proof.
  intros Hst Hgas Hsize. pose proof (sp_store t Hst) as Hok. unfold into_effects_v2.
  rewrite object_changes_ok by done. rewrite bind_ret_l. unfold EffectsV2.TransactionEffectsV2_new.
  assert (∃ index, match smashed_gas_coin g with
      | None => Done None
      | Some gas_id =>
          found ← unwrap (list_find (λ ic : ObjectID * EffectsObjectChange, ic.1 = gas_id)
                    (btree_iter Z.le (changes_of t)));
          Done (Some (wrap32 (Z.of_nat found.1)))
      end = Done index ∧
      match smashed_gas_coin g with
      | None => index = None
      | Some id => ∃ n, index = Some (Z.of_nat n) ∧
          btree_iter Z.le (changes_of t) !! n = Some (id, change_of t id)
      end) as (index & Hindex & Hfound).
  { destruct (smashed_gas_coin g) as [id|]; [|by eexists].
    destruct (Hgas id eq_refl) as (o & Ho & _).
    destruct (gas_index t id) as (n & Hn & ?); [by rewrite Ho|done|]. exists (Some (Z.of_nat n)).
    split; [exact Hn|by exists n]. }
  rewrite Hindex, bind_ret_l, bind_ret_l. eexists. split; [reflexivity|]. split; [|done].
  split; cbn [eff_created eff_mutated eff_unwrapped eff_deleted eff_unwrapped_then_deleted eff_wrapped
    eff_modified_at_versions eff_gas_object effects_v2_api]; 
    unfold EffectsV2.v2_created, EffectsV2.v2_mutated, EffectsV2.v2_unwrapped, EffectsV2.v2_deleted,
    EffectsV2.v2_unwrapped_then_deleted, EffectsV2.v2_wrapped, EffectsV2.v2_modified_at_versions;
    cbn [EffectsV2.changed_objects EffectsV2.lamport_version]; rewrite ?changed_list.
  - apply omap_ext_in. intros id _. change_cases t id Hok Hst.
  - apply omap_ext_in. intros id _. change_cases t id Hok Hst.
  - apply omap_ext_in. intros id _. change_cases t id Hok Hst.
  - apply omap_ext_in. intros id _. change_cases t id Hok Hst.
  - apply omap_ext_in. intros id _. change_cases t id Hok Hst.
  - apply omap_ext_in. intros id _. change_cases t id Hok Hst.
  - unfold modified_versions. erewrite omap_ext_in; [done|]. intros id _. cbn [fst snd].
    pose proof (change_input t id Hok) as Hin. destruct (input_state (change_of t id)) as [|vd o].
    + by destruct Hin as [_ ->].
    + destruct Hin as (_ & m & -> & ->). done.
  - unfold EffectsV2.v2_gas_object. cbn [EffectsV2.gas_object_index EffectsV2.changed_objects EffectsV2.lamport_version].
    destruct (smashed_gas_coin g) as [id|]; [|by rewrite Hfound].
    destruct Hfound as (n & -> & Hn), (Hgas id eq_refl) as (o & Ho & Hp). rewrite Nat2Z.id, Hn, Ho. simpl.
    unfold change_of, EffectsObjectChange_new. simpl. rewrite Ho, Hp. unfold output_of.
    by rewrite (sp_versions t Hst id o Ho Hp).
Qed.

(** * Either format *)

Lemma describes_enum {E} `{!TransactionEffectsAPI E} (inj : E → TransactionEffects) t g e :
  (∀ A (f : ∀ E : Type, TransactionEffectsAPI E → E → A), dispatch f (inj e) = f E _ e) →
  describes t g e → describes t g (inj e).
Proof. intros Hd [? ? ? ? ? ? ? ?]. split; cbn; by rewrite Hd. Qed.

Lemma into_effects_ok config t shared digest deps summary status g epoch :
  results_ok t →
  (∀ id, smashed_gas_coin g = Some id → ∃ o, written t !! id = Some o ∧ is_package o = false) →
  Z.of_nat (size (touched t)) ≤ 2 ^ 32 →
  (pc_enable_effects_v2 config = false →
     Forall (λ i, match i with SharedInputExisting _ => True | _ => False end) shared) →
  ∃ e, into_effects config t shared digest deps summary status g epoch =
      Done (into_inner (updated t), e) ∧
    describes (updated t) g e ∧ eff_status e = status ∧ eff_transaction_digest e = digest ∧
    eff_gas_cost_summary e = summary ∧
    eff_dependencies e =
      bset_iter Z.le (list_to_set (omap (received_dependency t) (receiving_objects t)) ∪ deps) ∧
    (pc_enable_effects_v2 config = true → eff_lamport_version e = Done (store_lamport t)) ∧
    (pc_enable_effects_v2 config = false →
       eff_lamport_version e = lamport_increment (eff_modified_at_versions e).*2).
Proof.
  intros Hok Hgas Hsize Hshared. pose proof (updated_stamped t Hok) as Hst.
  assert (∀ id, smashed_gas_coin g = Some id →
    ∃ o, written (updated t) !! id = Some o ∧ is_package o = false) as Hgas'.
  { intros id Hid. destruct (Hgas id Hid) as (o & Ho & Hp). exists (updated_object t id o).
    by rewrite updated_lookup, Ho, updated_package. }
  assert (touched (updated t) = touched t) as Htouched.
  { unfold touched. change (created (updated t)) with (created t). f_equal.
    apply set_eq. intros id. rewrite !elem_of_dom, updated_lookup. apply fmap_is_Some. }
  rewrite <-Htouched in Hsize. unfold into_effects. rewrite update_ok by done. rewrite bind_ret_l.
  change (received_dependency (updated t)) with (received_dependency t).
  change (receiving_objects (updated t)) with (receiving_objects t).
  destruct (pc_enable_effects_v2 config).
  - destruct (effects_v2_ok (updated t) shared digest
      (list_to_set (omap (received_dependency t) (receiving_objects t)) ∪ deps) summary status g epoch Hst Hgas' Hsize)
      as (e & -> & Hd & ? & ? & ? & ? & Hl).
    exists (TxEffectsV2 e). split; [done|]. split; [by apply (describes_enum TxEffectsV2)|].
    cbn. by rewrite Hl.
  - rewrite (mapM_pure _ (λ i, match i with SharedInputExisting r => r | _ => (0, 0, 0) end)).
    2: { intros i Hi. specialize (Hshared eq_refl). rewrite Forall_forall in Hshared.
         specialize (Hshared i Hi). by destruct i. }
    rewrite bind_ret_l.
    edestruct (effects_v1_ok (updated t)) as (e & -> & Hd & ? & ? & ? & ?); [done| |].
    { intros id Hid. destruct (Hgas' id Hid) as (o & -> & _). by eexists. }
    exists (TxEffectsV1 e). split; [done|]. split; [by apply (describes_enum TxEffectsV1)|]. by split_and!.
Qed.

(** C9: Effects tell what happened.  From what execution leaves in the store, in
    either format: the effects are built without a panic; they list as created
    the written objects with a new identifier, as mutated those that were there
    before, as unwrapped the other written ones; as deleted, wrapped, or
    unwrapped then deleted the objects that are gone, with the matching
    tombstone at the transaction's version; the version each modified object had
    before; and the gas object as it was written.  The written objects carry the
    transaction's version and digest. *)
Theorem effects_exact config t shared digest deps summary status g epoch :
  results_ok t →
  (∀ id, smashed_gas_coin g = Some id → ∃ o, written t !! id = Some o ∧ is_package o = false) →
  Z.of_nat (size (touched t)) ≤ 2 ^ 32 →
  (pc_enable_effects_v2 config = false →
     Forall (λ i, match i with SharedInputExisting _ => True | _ => False end) shared) →
  ∃ e, into_effects config t shared digest deps summary status g epoch =
      Done (into_inner (updated t), e) ∧
    describes (updated t) g e ∧ eff_status e = status ∧ eff_transaction_digest e = digest ∧
    eff_gas_cost_summary e = summary ∧
    ∀ id o, written (updated t) !! id = Some o →
      previous_transaction o = tx_digest t ∧ (is_package o = false → object_version o = store_lamport t).
Proof.
  intros Hok Hgas Hsize Hshared.
  destruct (into_effects_ok config t shared digest deps summary status g epoch Hok Hgas Hsize Hshared)
    as (e & ? & ? & ? & ? & ? & _). exists e. split_and!; try done. intros id o Ho. split.
  - rewrite updated_lookup in Ho. by apply fmap_Some in Ho as (o' & _ & ->).
  - exact (sp_versions _ (updated_stamped t Hok) id o Ho).
Qed.

(** ** The version the first format reports *)

Lemma modified_versions_elem t v :
  store_ok t → v ∈ (modified_versions t).*2 ↔ ∃ id, id ∈ modified t ∧ old_version t id = v.
Proof.
  intros Hok. unfold modified_versions. rewrite list_elem_of_fmap. split.
  - intros ([i w] & -> & (id & _ & Hm)%list_elem_of_omap). exists id.
    apply fmap_Some in Hm as (m & Hm & [= -> ->]). destruct (old_metadata_ok t id Hok) as [_ Hin].
    assert (id ∈ modified t) as Hid by (apply Hin; by eexists). split; [done|].
    destruct (modified_at_ok t id Hok Hid) as (md & Hmd & _ & <-). unfold old_metadata in Hm. rewrite Hmd in Hm. by simplify_eq.
  - intros (id & Hid & <-). destruct (modified_at_ok t id Hok Hid) as (md & Hmd & _ & <-).
    exists (id, dl_version md). split; [done|]. apply list_elem_of_omap. exists id.
    rewrite elem_of_bset_iter. split; [unfold touched; set_solver|]. unfold old_metadata. by rewrite Hmd.
Qed.

(** C38: Effects of the first format can report another version than the one
    their transaction wrote.  The objects are written at the version of the store,
    which exceeds the versions of all inputs, but [lamport_version] is computed
    from the modified objects only: it is never larger, and it is the written
    version if and only if some modified object had the highest version of all
    inputs.  Otherwise, as when that one was a shared object that was only read,
    the effects report too small a version. *)
Theorem v1_lamport_understated config t shared digest deps summary status g epoch :
  results_ok t →
  (∀ id, smashed_gas_coin g = Some id → ∃ o, written t !! id = Some o ∧ is_package o = false) →
  Z.of_nat (size (touched t)) ≤ 2 ^ 32 → pc_enable_effects_v2 config = false →
  Forall (λ i, match i with SharedInputExisting _ => True | _ => False end) shared →
  (∀ id, id ∈ modified t → 0 ≤ old_version t id < store_lamport t) → 1 < store_lamport t ≤ u64_max →
  ∃ e w, into_effects config t shared digest deps summary status g epoch = Done (into_inner (updated t), e) ∧
    eff_lamport_version e = Done w ∧ w ≤ store_lamport t ∧
    (w = store_lamport t ↔ ∃ id, id ∈ modified t ∧ old_version t id = store_lamport t - 1) ∧
    ∀ id o, written (updated t) !! id = Some o → is_package o = false → object_version o = store_lamport t.
Proof.
  intros Hok Hgas Hsize Hv1 Hshared Hold Hlam. pose proof (updated_stamped t Hok) as Hst.
  destruct (into_effects_ok config t shared digest deps summary status g epoch Hok Hgas Hsize)
    as (e & He & Hd & _ & _ & _ & _ & _ & Hver); [done|]. specialize (Hver Hv1).
  set (l := (eff_modified_at_versions e).*2) in *.
  assert (∀ v, v ∈ l ↔ ∃ id, id ∈ modified t ∧ old_version t id = v) as Hl.
  { intros v. rewrite <-(modified_versions_elem (updated t)) by apply (sp_store _ Hst).
    unfold l. by rewrite (ds_modified _ _ _ Hd). }
  destruct (fold_max_spec l 0) as (Hle & Hmax & Hin). unfold lamport_increment in Hver.
  set (m := fold_left Z.max l 0) in *. clearbody m.
  assert (m < store_lamport t) as Hm.
  { destruct Hin as [->|(id & Hid & <-)%Hl]; [lia|]. by apply Hold. }
  rewrite (proj2 (Z.eqb_neq m u64_max)) in Hver by lia. simpl in Hver. exists e, (m + 1). split_and!; try done.
  - lia.
  - split.
    + intros Heq. destruct Hin as [->|(id & Hid & Hv)%Hl]; [lia|]. exists id. split; [done|lia].
    + intros (id & Hid & Hv). pose proof (Hmax (old_version t id)) as Hge. rewrite Hl in Hge.
      specialize (Hge ltac:(by exists id)). lia.
  - intros id o. exact (sp_versions _ Hst id o).
Qed.

(** ** Nothing is listed twice, nothing is left out *)

Lemma changed_objects_exact {E} `{!TransactionEffectsAPI E} t g (e : E) :
  stamped t → describes t g e →
  (all_changed_objects e).*1 ≡ₚ map (λ kv : ObjectID * Object, output_of kv.1 kv.2) (btree_iter Z.le (written t)).
Proof.
  intros Hst Hd. pose proof (sp_created t Hst) as Hc. unfold all_changed_objects.
  rewrite (ds_created _ _ _ Hd), (ds_mutated _ _ _ Hd), (ds_unwrapped _ _ _ Hd).
  rewrite !fmap_app. rewrite <-!list_fmap_compose. rewrite !list_fmap_id.
  rewrite (btree_iter_keys Z.le (written t) (touched t)) by (unfold touched; set_solver).
  set (ids := bset_iter Z.le (touched t)).
  assert (map (λ kv : ObjectID * Object, output_of kv.1 kv.2) (omap (λ k, pair k <$> written t !! k) ids) =
    omap (λ id, output_of id <$> written t !! id) ids) as ->.
  { induction ids as [|id l IH]; [done|]. csimpl. destruct (written t !! id); csimpl; [by f_equal|done]. }
  unfold created_outputs, unwrapped_outputs, mutated_outputs. fold ids.
  set (rest := λ id, o ← written t !! id; if decide (id ∈ modified t) then None else Some (output_of id o)).
  rewrite (omap_split (λ id, output_of id <$> written t !! id)
    (λ id, o ← written t !! id; if decide (id ∈ modified t) then Some (output_of id o) else None) rest).
  - apply Permutation_app_head. symmetry. apply omap_split. intros id _. unfold rest.
    destruct (written t !! id) as [o|]; simpl; [|by left].
    destruct (decide (id ∈ created t)); [left|right]; (split; [|try done]); repeat case_decide; set_solver.
  - intros id _. unfold rest. destruct (written t !! id) as [o|]; simpl; [|by left].
    case_decide; [by left|by right].
Qed.
Lemma tombstones_exact {E} `{!TransactionEffectsAPI E} t g (e : E) id v :
  stamped t → describes t g e →
  (id, v) ∈ all_tombstones e ↔
    v = store_lamport t ∧ (id ∈ deleted t ∨ id ∈ modified t ∧ written t !! id = None).
Proof.
  intros Hst Hd. unfold all_tombstones.
  rewrite (ds_deleted _ _ _ Hd), (ds_unwrapped_then_deleted _ _ _ Hd), (ds_wrapped _ _ _ Hd).
  assert (∀ P (HP : ∀ id, Decision (P id)) d, (id, v) ∈ map fst (removed_outputs t P d) ↔
    v = store_lamport t ∧ id ∈ touched t ∧ P id) as Hmem.
  { intros P HP d. unfold removed_outputs. change (map fst ?l) with (fst <$> l).
    rewrite list_elem_of_fmap. split.
    - intros (r & Hr & (i & Hi%elem_of_bset_iter & Hp)%list_elem_of_omap). case_decide; simplify_eq/=. done.
    - intros (-> & Hid & Hp). exists (tombstone t id d). split; [done|]. apply list_elem_of_omap.
      exists id. rewrite elem_of_bset_iter. split; [done|]. by rewrite decide_True. }
  rewrite !map_app, !elem_of_app, !Hmem. unfold touched.
  pose proof (deleted_unwritten t Hst id). destruct (decide (id ∈ deleted t)), (decide (id ∈ modified t)); set_solver.
Qed.
End effects.
