(* ===== verification/GasExample.v ===== *)
(** A concrete transaction with two gas coins and an owned object: the states
    at which the theorems of [GasTheorems] apply, and the run that shows what
    happens when the expensive conservation check fails. *)
From S2P Require Import Prelude MapSums GasTables Objects.
From S2P Require Import MgoGas TemporaryStore ExecutionEngine GasConservation.
From S2P Require Import ValueConservation GasTheorems Unmetered.

#[export] Instance example_backing : BackingStore :=
  {| get_package_object := λ _, None; get_object := λ _, Ok None |}.
#[export] Instance example_hash : ObjectHash := λ o, object_version o + storage_rebate o.
#[export] Instance example_sizes : BcsSizes := λ ty, if is_gas_coin_type ty then 1 else 33.
#[export] Instance example_values : ObjectValues :=
  {| layout_total_mgo := λ _, Ok 0;
     get_object_by_key := λ _ _, Ok None |}.

(** * The transaction *)

Definition coin_input (id balance rebate : Z) : Object := {|
  data := Move (coin_with id 3 balance); owner := AddressOwner 9; previous_transaction := 5;
  storage_rebate := rebate |}.
Definition owned_input (id : ObjectID) : Object := {|
  data := Move {| type_ := StakedMgo; has_public_transfer := true; mo_version := 3;
                  contents := id_to_bytes id ++ to_le_bytes 8 42 |};
  owner := AddressOwner 9; previous_transaction := 5; storage_rebate := 950000 |}.
Definition read_input (id : ObjectID) (o : Object) : ObjectReadResult := {|
  input_object_kind := KImmOrOwnedMoveObject (id, 3, object_digest o); read_object_kind := ReadObject o |}.

Definition example_inputs : list ObjectReadResult := [
  read_input 1001 (coin_input 1001 15000000 988000);
  read_input 1002 (coin_input 1002 20000000 988000);
  read_input 1003 (owned_input 1003) ].
Definition example_store : TemporaryStore :=
  match TemporaryStore_new example_inputs [] 7 with
  | Done t => t
  | _ => {| tx_digest := 0; input_objects := ∅; store_lamport := 0; mutable_input_refs := ∅;
            execution_results := results_default; loaded_runtime_objects := ∅;
            wrapped_object_containers := ∅; receiving_objects := [] |}
  end.
Definition example_charger : GasCharger :=
  GasCharger_new 7 [(1001, 3, 988003); (1002, 3, 988003)] sample_gas_status sample_config.
Definition example_smashed : GasCharger := set_smashed (Some 1001) example_charger.

(** Execution creates an object and deletes the one it was given. *)
Definition example_effects (t : TemporaryStore) : exec TemporaryStore :=
  t ← create_object (owned_input 2000) t;
  Done (delete_input_object 1003 t).
Definition example_executed : TemporaryStore :=
  match example_effects (smashed_store example_smashed example_store) with
  | Done t => t
  | _ => example_store
  end.
Definition example_coin : Object := with_balance 35000000 (coin_input 1001 15000000 988000).

(** * Checking the hypotheses by evaluation *)

Definition has_id (id : ObjectID) (o : Object) : bool :=
  match object_id o with Done i => i =? id | _ => false end.
Definition all_objects (f : ObjectID → Object → bool) (m : gmap ObjectID Object) : bool :=
  forallb (λ kv, f kv.1 kv.2) (map_to_list m).
Definition is_some {X} (o : option X) : bool := match o with Some _ => true | None => false end.

Definition store_check (t : TemporaryStore) : bool :=
  all_objects (λ id o, has_id id o && (0 <=? storage_rebate o)) (input_objects t) &&
  forallb (λ id, is_some (input_objects t !! id)) (elements (dom (mutable_input_refs t))) &&
  is_none (head (map_to_list (loaded_runtime_objects t))) &&
  all_objects has_id (written t) &&
  forallb (λ id, is_some (mutable_input_refs t !! id)) (elements (modified t)).
Definition priceable_check (s : V2.MgoGasStatus) (o : Object) : bool :=
  let size := object_size_for_gas_metering o in
  let bytes := size * V2.storage_per_byte_cost (V2.cost_table s) in
  (0 <=? size) && (0 <=? bytes) && (bytes <=? u64_max) &&
  (0 <=? object_cost s o) && (object_cost s o <=? u64_max).
Definition collectable_check (s : V2.MgoGasStatus) (t : TemporaryStore) : bool :=
  store_check t && all_objects (λ _, priceable_check s) (written t) &&
  (map_sum (λ _ o, object_cost s o) (written t) <=? amount_limit) && (in_total t <=? amount_limit).

Lemma all_objects_true f m :
  all_objects f m = true → ∀ id o, m !! id = Some o → f id o = true.
Proof.
  unfold all_objects. rewrite forallb_forall. intros Hf id o Ho.
  apply (Hf (id, o)), list_elem_of_In, elem_of_map_to_list, Ho.
Qed.
Lemma has_id_true id o : has_id id o = true → object_id o = Done id.
Proof. unfold has_id. destruct (object_id o); [|done..]. by intros ->%Z.eqb_eq. Qed.
Lemma is_some_true {X} (o : option X) : is_some o = true → is_Some o.
Proof. destruct o; [by eexists|done]. Qed.
Lemma forallb_elements (f : ObjectID → bool) (X : gset ObjectID) :
  forallb f (elements X) = true → ∀ id, id ∈ X → f id = true.
Proof.
  rewrite forallb_forall. intros Hf id Hid. by apply Hf, list_elem_of_In, elem_of_elements.
Qed.

Lemma store_check_ok t : store_check t = true → store_ok t.
Proof.
  unfold store_check. rewrite !andb_true_iff. intros ((((Hin & Href) & Hld) & Hw) & Hm).
  assert (loaded_runtime_objects t = ∅) as Hl.
  { apply map_to_list_empty_iff. by destruct (map_to_list (loaded_runtime_objects t)). }
  assert (∀ id o, input_objects t !! id = Some o → object_id o = Done id ∧ 0 ≤ storage_rebate o) as Hi.
  { intros id o Ho. pose proof (all_objects_true _ _ Hin id o Ho) as [Hid Hr]%andb_true_iff.
    split; [by apply has_id_true|by apply Z.leb_le]. }
  split; [split|..].
  - intros id o Ho. by apply Hi.
  - intros id Hid. apply is_some_true, (forallb_elements _ _ Href). by apply elem_of_dom.
  - intros id. unfold old_rebate. rewrite Hl, lookup_empty. simpl.
    destruct (mutable_input_refs t !! id); [|done].
    destruct (input_objects t !! id) as [o|] eqn:Ho; [|done]. simpl. by apply (Hi id).
  - intros id o Ho. by apply has_id_true, (all_objects_true _ _ Hw).
  - intros id Hid. left. by apply is_some_true, (forallb_elements _ _ Hm).
Qed.
Lemma collectable_check_ok s t : collectable_check s t = true → collectable s t.
Proof.
  unfold collectable_check. rewrite !andb_true_iff, !Z.leb_le. intros (((Hst & Hp) & Hc) & Hr).
  split; [by apply store_check_ok| |done..]. intros id o Ho.
  pose proof (all_objects_true _ _ Hp id o Ho) as Hpr. unfold priceable_check in Hpr.
  rewrite !andb_true_iff, !Z.leb_le in Hpr. unfold priceable. lia.
Qed.

Definition resolves_check (o : Object) : bool :=
  match data o with
  | Move m => match move_total_mgo m with Done (Ok _) => true | _ => false end
  | Package _ => true
  end.
Definition inputs_check (t : TemporaryStore) : bool :=
  forallb (λ kv : ObjectID * ((SequenceNumber * ObjectDigest) * Owner),
    match input_objects t !! kv.1 with
    | Some o => (object_version o =? kv.2.1.1) && resolves_check o
    | None => false
    end) (map_to_list (mutable_input_refs t)).
Definition values_check (t : TemporaryStore) : bool :=
  forallb (λ id, match previous t id with
                 | Some o => resolves_check o && (storage_rebate o =? old_rebate t id)
                 | None => false
                 end) (elements (modified t)) &&
  all_objects (λ id o, resolves_check o &&
    (negb (is_some (mutable_input_refs t !! id)) || bool_decide (id ∈ modified t))) (written t) &&
  (value_in t =? value_out t).

Lemma resolves_check_ok o : resolves_check o = true → resolves o.
Proof.
  unfold resolves_check, resolves. destruct (data o) as [m|p]; [|done].
  destruct (move_total_mgo m) as [[z|]| |]; try done. by eexists.
Qed.
Lemma inputs_check_ok t : inputs_check t = true → inputs_resolve t.
Proof.
  unfold inputs_check. rewrite forallb_forall. intros Hf id v d w Href.
  specialize (Hf (id, ((v, d), w))). rewrite <-list_elem_of_In, elem_of_map_to_list in Hf.
  specialize (Hf Href). simpl in Hf. destruct (input_objects t !! id) as [o|]; [|done].
  rewrite andb_true_iff, Z.eqb_eq in Hf. exists o. split_and!; [done|apply Hf|apply resolves_check_ok, Hf].
Qed.
Lemma values_check_ok t : values_check t = true → values_kept t.
Proof.
  unfold values_check. rewrite !andb_true_iff, Z.eqb_eq. intros ((Hp & Hw) & Heq). split; [split|done].
  - intros id Hid. pose proof (forallb_elements _ _ Hp id Hid) as Ho. simpl in Ho.
    destruct (previous t id) as [o|]; [|done]. rewrite andb_true_iff, Z.eqb_eq in Ho. exists o.
    split_and!; [done|apply resolves_check_ok, Ho|apply Ho].
  - intros id o Ho. pose proof (all_objects_true _ _ Hw id o Ho) as [Hr _]%andb_true_iff.
    by apply resolves_check_ok.
  - intros id [x Hx] [o Ho]. pose proof (all_objects_true _ _ Hw id o Ho) as [_ Hm]%andb_true_iff.
    rewrite Hx in Hm. simpl in Hm. by apply bool_decide_eq_true in Hm.
Qed.

(** * The transaction meets them *)

Lemma example_coins id :
  id ∈ coin_ids example_smashed →
  ∃ o, input_objects example_store !! id = Some o ∧ coin_object o ∧
    is_Some (mutable_input_refs example_store !! id) ∧ 0 ≤ balance o.
Proof.
  intros Hid. assert (id = 1001 ∨ id = 1002) as [->| ->].
  { unfold coin_ids in Hid. simpl in Hid. set_solver. }
  - exists (coin_input 1001 15000000 988000).
    split; [reflexivity|]. split; [by eexists|]. split; [by eexists|]. vm_compute. discriminate.
  - exists (coin_input 1002 20000000 988000).
    split; [reflexivity|]. split; [by eexists|]. split; [by eexists|]. vm_compute. discriminate.
Qed.

Lemma example_charger_ok t :
  input_objects t = input_objects example_store →
  mutable_input_refs t = mutable_input_refs example_store → charger_ok example_smashed t.
Proof.
  intros Hi Hr. split.
  - by exists 1001.
  - apply (bool_decide_unpack _). vm_compute. exact I.
  - intros id Hid. destruct (example_coins id Hid) as (o & ?). exists o. by rewrite Hi, Hr.
  - unfold coins_total, coin_value. rewrite Hi. vm_compute. discriminate.
Qed.

Lemma example_pre t :
  results_of example_store t → store_check t = true →
  collectable_check sample_gas_status (failed_store example_smashed t) = true →
  charge_pre 5000000 example_smashed t 1001.
Proof.
  intros [r ->] Hst Hcl. destruct sample_gas_status_new as [_ Hok]. split.
  - exact Hok.
  - vm_compute. reflexivity.
  - vm_compute. reflexivity.
  - by apply store_check_ok.
  - by apply example_charger_ok.
  - reflexivity.
  - by apply collectable_check_ok.
  - split; vm_compute; discriminate.
Qed.
Lemma meter_pre_results mb gs t t' id :
  charge_pre mb (with_meter gs example_smashed) t id → results_of t t' → store_ok t' →
  charge_pre mb (with_meter gs example_smashed) t' id.
Proof. apply (charge_pre_results mb (with_meter gs example_smashed) t t' id 0). Qed.
Lemma example_executed_of : results_of example_store example_executed.
Proof.
  eexists (execution_results example_executed).
  vm_compute. reflexivity.
Qed.
Lemma example_kept gs : kept_coin (with_meter gs example_smashed) example_executed 1001 example_coin.
Proof.
  split.
  - assert (collectable sample_gas_status (ensured example_executed)) as Hc.
    { apply collectable_check_ok. by vm_compute. }
    by destruct Hc; split.
  - vm_compute. reflexivity.
  - by eexists.
  - split; vm_compute; discriminate.
Qed.
Lemma example_executed_pre : charge_pre 5000000 example_smashed example_executed 1001.
Proof. apply example_pre; [apply example_executed_of|by vm_compute..]. Qed.
Lemma example_kept_coin : kept_coin example_smashed example_executed 1001 example_coin.
Proof. apply (example_kept (V2.gas_status sample_gas_status)). Qed.

Lemma charge_gas_conserves_witness :
  ∃ g' t' res' c p, charge_gas example_smashed example_executed (Ok ()) = Done (g', t', res', c) ∧
    check_mgo_conserved t' true c = Done (Ok ()) ∧
    net_usage c ≤ V2.gas_budget (gc_status example_smashed) ∧
    written t' !! 1001 = Some p ∧ coin_object p ∧
    balance p = (if is_ok res' then balance example_coin
                 else coins_total example_smashed example_executed) - net_usage c ∧
    (res' = Ok () ∨ is_ok res' = false).
Proof.
  apply (charge_gas_conserves 5000000 example_smashed example_executed 1001 (Ok ()) example_coin).
  - apply example_executed_pre.
  - intros _. apply example_kept_coin.
Defined.

(** The same transaction when execution aborts after its writes. *)
Definition example_aborted :=
  charge_gas example_smashed example_executed (Err InvariantViolation : result unit ExecutionError).
Lemma failed_transaction_atomic_witness :
  match example_aborted with
  | Done (_, t', res', c) =>
      res' = Err InvariantViolation ∧ created t' = ∅ ∧ deleted t' = {[1002]} ∧
      ∃ o r, input_objects example_executed !! 1003 = Some o ∧
        written t' !! 1003 =
          Some (set_storage_rebate r (refunded example_smashed example_executed c o 1003))
  | _ => False
  end.
Proof.
  destruct example_aborted as [[[[g' t'] res'] c]| |] eqn:Hrun.
  2-3: vm_compute in Hrun; discriminate.
  assert (res' = Err InvariantViolation) as ->.
  { transitivity (match example_aborted with Done (_, _, r, _) => r | _ => Ok () end);
      [by rewrite Hrun|by vm_compute]. }
  destruct (failed_transaction_atomic (B := unit) 5000000 example_smashed example_executed 1001
    (Err InvariantViolation) example_coin g' t' (Err InvariantViolation) c) as (Hcr & _ & Hdel & _ & Hw).
  - apply example_executed_pre.
  - discriminate.
  - exact Hrun.
  - reflexivity.
  - split; [done|]. split; [done|]. split; [rewrite Hdel; vm_compute; reflexivity|].
    apply (Hw 1003); [|vm_compute; by eexists].
    apply (bool_decide_unpack _). vm_compute. exact I.
Defined.

(** * A whole run *)

Definition example_loop (g : GasCharger) (t : TemporaryStore)
    : exec (GasCharger * TemporaryStore * result unit ExecutionError) :=
  t ← example_effects t;
  Done (g, t, Ok ()).
Definition example_run : TransactionRun := {|
  run_deny_cert := false; run_contains_deleted_input := false; run_is_genesis := false;
  run_skip_conservation := false; run_expensive_checks := true; run_advance_epoch := None |}.

Lemma example_loop_contract :
  loop_contract 5000000 1001 example_smashed (smashed_store example_smashed example_store) example_loop.
Proof.
  intros gs Hpre.
  exists (with_meter gs example_smashed), example_executed, (Ok ()), example_coin.
  split; [vm_compute; reflexivity|]. split.
  - apply (meter_pre_results _ _ (smashed_store example_smashed example_store)); [done| |].
    + exists (execution_results example_executed). vm_compute. reflexivity.
    + apply store_check_ok. by vm_compute.
  - split; [reflexivity|]. split; [reflexivity|]. split; [vm_compute; reflexivity|].
    intros _. apply example_kept.
Qed.
Lemma example_loop_keeps :
  loop_keeps_mgo example_smashed (smashed_store example_smashed example_store) example_loop.
Proof.
  split; [apply inputs_check_ok; by vm_compute|]. intros gs g2 t2 r Hl.
  assert (t2 = example_executed) as ->; [|split; [apply inputs_check_ok|intros _; apply values_check_ok]; by vm_compute].
  assert (example_effects (smashed_store example_smashed example_store) = Done example_executed) as He
    by (vm_compute; reflexivity).
  unfold example_loop in Hl. rewrite He in Hl. by injection Hl.
Qed.
Lemma example_run_pre : run_pre 5000000 example_charger example_store 1001.
Proof.
  split; [|done|vm_compute; reflexivity]. apply example_pre.
  - exists (execution_results example_store). vm_compute. reflexivity.
  - by vm_compute.
  - by vm_compute.
Qed.

Lemma execute_transaction_conserves_witness :
  ∃ g' t' c res' p,
    execute_transaction sample_config example_run example_loop example_charger example_store =
      Done (g', t', c, res') ∧
    check_mgo_conserved t' true c = Done (Ok ()) ∧ mgo_conserved t' c ∧
    written t' !! 1001 = Some p ∧ coin_object p.
Proof.
  destruct (execute_transaction_conserves 5000000 sample_config example_run example_loop
    example_charger example_store 1001) as (g' & t' & c & res' & p & Hrun & Hc & Hm & _ & Hp & Hco & _).
  - apply example_run_pre.
  - apply example_loop_contract.
  - intros _. split; [reflexivity|apply example_loop_keeps].
  - exists g', t', c, res', p. split; [exact Hrun|]. split; [exact Hc|].
    split; [apply Hm, example_loop_keeps|]. split; [exact Hp|exact Hco].
Defined.

(** * Recovery after a failed conservation check *)

(** Execution that wrote a coin it did not take from anywhere. *)
Definition minted_store : TemporaryStore :=
  match create_object (coin_input 2001 500 0) example_executed with
  | Done t => t
  | _ => example_executed
  end.
Definition minted_charged :=
  charge_gas example_smashed minted_store (Ok () : result unit ExecutionError).

Lemma minted_pre : charge_pre 5000000 example_smashed minted_store 1001.
Proof.
  apply example_pre; [|by vm_compute..]. exists (execution_results minted_store). vm_compute. reflexivity.
Qed.
Lemma minted_kept : kept_coin example_smashed minted_store 1001 example_coin.
Proof.
  split; [apply collectable_check_ok; by vm_compute|vm_compute; reflexivity|by eexists|split; vm_compute; discriminate].
Qed.
Lemma recovery_checks_stale_summary_witness :
  match minted_charged with
  | Done (g1, t1, Ok _, c) =>
      conservation_result t1 true true c None = Done (Err InvariantViolation) ∧
      (∃ g2 t2 c2,
        ('(g, t) ← reset g1 t1; charge_gas g t (Err InvariantViolation : result unit ExecutionError)) =
          Done (g2, t2, Err InvariantViolation, c2) ∧
        conservation_result t2 true true c2 None = Done (Ok ())) ∧
      run_conservation_checks t1 g1 true true false c None = Panic
  | _ => False
  end.
Proof.
  destruct minted_charged as [[[[g1 t1] [[]|e]] c]| |] eqn:Hrun.
  2-4: vm_compute in Hrun; discriminate.
  destruct (recovery_checks_stale_summary 5000000 example_smashed minted_store 1001 () example_coin
    g1 t1 c InvariantViolation) as (g2 & t2 & c2 & Hre & Hok & Hpanic).
  - apply minted_pre.
  - apply minted_kept.
  - apply inputs_check_ok. by vm_compute.
  - exact Hrun.
  - vm_compute in Hrun. injection Hrun as <- <- <-. vm_compute. reflexivity.
  - split; [|split; [exists g2, t2, c2; split; [exact Hre|exact Hok]|apply Hpanic]].
    + vm_compute in Hrun. injection Hrun as <- <- <-. vm_compute. reflexivity.
    + vm_compute in Hrun. injection Hrun as <- <- <-. vm_compute. discriminate.
    + vm_compute in Hrun. injection Hrun as <- <- <-. vm_compute in Hre. injection Hre as <- <- <-.
      vm_compute. discriminate.
Defined.

(** * A system transaction *)

Definition system_state : Object := {|
  data := Move {| type_ := StakedMgo; has_public_transfer := false; mo_version := 3;
                  contents := id_to_bytes MGO_SYSTEM_STATE_OBJECT_ID ++ to_le_bytes 8 2 |};
  owner := Shared 1; previous_transaction := 5; storage_rebate := 777 |}.
Definition system_store : TemporaryStore :=
  match TemporaryStore_new
    [ {| input_object_kind := KSharedMoveObject MGO_SYSTEM_STATE_OBJECT_ID 1 true;
         read_object_kind := ReadObject system_state |};
      read_input 1003 (owned_input 1003) ] [] 7 with
  | Done t => delete_input_object 1003 t
  | _ => example_store
  end.
Definition system_charger : GasCharger :=
  match GasCharger_new_unmetered 7 with Done g => g | _ => example_charger end.

Lemma unmetered_conserves_witness :
  ∃ g' t1 t', charge_gas system_charger system_store (Ok ()) = Done (g', t1, Ok (), summary_default) ∧
    conserve_unmetered_storage_rebate (V2.unmetered_storage_rebate (gc_status g')) t1 = Done t' ∧
    check_mgo_conserved t' true summary_default = Done (Ok ()).
Proof.
  destruct (unmetered_conserves system_charger system_store (Ok ()) system_state)
    as (g' & t1 & t' & Hc & Hu & Hcons & _).
  - apply store_check_ok. vm_compute. reflexivity.
  - vm_compute. reflexivity.
  - vm_compute. reflexivity.
  - vm_compute. reflexivity.
  - vm_compute. discriminate.
  - vm_compute. reflexivity.
  - apply (bool_decide_unpack _). vm_compute. exact I.
  - exists g', t1, t'. split; [exact Hc|]. split; [exact Hu|exact Hcons].
Defined.

(** * The check on the gas payment *)

Lemma gas_balance_check_exact_witness :
  let coins := [coin_input 1001 15000000 988000; coin_input 1002 20000000 988000] in
  let objs := [read_input 1001 (coin_input 1001 15000000 988000);
               read_input 1002 (coin_input 1002 20000000 988000)] in
  V2.check_gas_balance sample_gas_status objs 20000000 = Done (Ok ()).
Proof.
  intros coins objs.
  apply (gas_balance_check_exact sample_gas_status objs coins 20000000).
  - reflexivity.
  - constructor; [|constructor; [|constructor]].
    + split; [by eexists|]. split; vm_compute; discriminate.
    + split; [by eexists|]. split; vm_compute; discriminate.
  - vm_compute. discriminate.
  - split; [repeat constructor|]. split; [split; vm_compute; discriminate|].
    vm_compute. discriminate.
Defined.
