(* ===== verification/CheckedExecution.v ===== *)
(** From the input checks to execution: a user transaction whose inputs passed
    [check_transaction_input_inner] starts execution in a state that
    [GasTheorems] asks for, so it runs to an outcome that conserves MGO.

    [inputs_stored] is what the database guarantees of the objects it returns:
    well-formed contents, bounded sizes, rebates and balances. *)
From S2P Require Import Prelude MapSums Objects Errors.
From S2P Require Import MgoGas TransactionData TransactionValidity TransactionChecks.
From S2P Require Import CheckedInputs TemporaryStore ExecutionEngine GasConservation.
From S2P Require Import GasTheorems.

(** * The gas payment *)

Lemma coin_value_inv m v :
  get_coin_value_unsafe m = Done v →
  length (contents m) = (ID_END_INDEX + 8)%nat ∧ v = from_le_bytes (drop ID_END_INDEX (contents m)).
Proof.
  unfold get_coin_value_unsafe. intros (? & Hle & H)%bind_Done.
  apply bind_Done in H as (? & Heq & [= <-]). split; [|done].
  apply assert_Done, Nat.leb_le in Hle. apply assert_Done, Nat.eqb_eq in Heq.
  rewrite length_drop in Heq. lia.
Qed.
Lemma gas_balance_inv o b : get_gas_balance o = Done (Ok b) → coin_object o ∧ b = balance o.
Proof.
  unfold get_gas_balance, coin_object, balance. destruct (data o) as [m|p]; simpl.
  - destruct (type_ m) eqn:Ht; simpl; intros (v & Hv & [=])%bind_Done. subst b.
    apply coin_value_inv in Hv as [Hl ->]. split; [|done]. by exists m.
  - by intros (? & _ & [=])%bind_Done.
Qed.
Lemma total_inv acc objs total :
  V2.total_gas_balance acc objs = Done (Ok total) →
  ∃ coins, map as_object objs = map Some coins ∧ Forall coin_object coins ∧
    total = acc + sumZ (map balance coins).
Proof.
  revert acc. induction objs as [|r objs IH]; intros acc; cbn [V2.total_gas_balance].
  - intros [= <-]. exists []. split; [done|]. split; [constructor|]. simpl. lia.
  - intros H. apply bind_Done in H as (o & Ho & H). apply unwrap_Done in Ho.
    apply bind_Done in H as ([b|e] & Hb & H); [|done]. apply gas_balance_inv in Hb as [Hc ->].
    apply bind_Done in H as (? & _ & H). apply IH in H as (coins & Hm & Hall & ->).
    exists (o :: coins). cbn [map sumZ foldr]. rewrite Ho, Hm. split; [done|].
    split; [by constructor|]. unfold sumZ. lia.
Qed.
Lemma owners_inv objs coins :
  V2.check_gas_owners objs = Ok () → map as_object objs = map Some coins →
  Forall (λ o, is_address_owned o = true) coins.
Proof. intros Ho Hm. by apply (gas_owners_ok objs coins Hm). Qed.
Lemma check_balance_inv s objs budget :
  V2.check_gas_balance s objs budget = Done (Ok ()) →
  ∃ coins, map as_object objs = map Some coins ∧
    Forall (λ o, coin_object o ∧ is_address_owned o = true) coins ∧ budget ≤ sumZ (map balance coins).
Proof.
  unfold V2.check_gas_balance. destruct (V2.check_gas_owners objs) as [[]|] eqn:Ho; [|done].
  destruct (_ <? budget); [done|]. destruct (budget <? _); [done|].
  intros H. apply bind_Done in H as ([total|] & Ht & H); [|done].
  apply total_inv in Ht as (coins & Hm & Hc & ->). exists coins. split; [done|]. split.
  - apply Forall_and. split; [done|]. by eapply owners_inv.
  - case_test (0 + sumZ (map balance coins) <? budget) as Hlt; [done|]. lia.
Qed.

Lemma load_gas_inv objects gas l :
  load_gas_objects objects gas = Ok l → Forall2 (λ (r : ObjectRef) o, objects !! r.1.1 = Some o) gas l.
Proof.
  revert l. induction gas as [|r gas IH]; intros l; simpl.
  - intros [= <-]. constructor.
  - destruct (objects !! r.1.1) as [o|] eqn:Ho; [|done].
    intros (k & Hk & [= <-])%and_then_Ok. constructor; auto.
Qed.
Lemma check_gas_inv {Hhash : ObjectHash} objects config rgp gas budget price kind s :
  is_system_tx kind = false →
  check_gas objects config rgp gas budget price kind = Done (Ok s) →
  ∃ gas_objects, V2.new_with_budget budget price rgp config = Done s ∧
    Forall2 (λ (r : ObjectRef) o, (btree_collect (map (λ o, (read_id o, o)) objects)
               : gmap ObjectID ObjectReadResult) !! r.1.1 = Some o) gas gas_objects ∧
    V2.check_gas_balance s gas_objects budget = Done (Ok ()).
Proof.
  intros Hs. unfold check_gas. rewrite Hs. rewrite try_exec_Ok. intros (s' & Hnew & H).
  apply try_exec_Ok in H as (gas_objects & Hload & H). apply try_exec_Ok in H as (u & Hbal & [= ->]).
  apply fmap_Done in Hnew as (rn & Hnew & Hrn). apply fmap_Done in Hbal as (rb & Hbal & Hrb).
  symmetry in Hrn, Hrb. apply into_mgo_Ok in Hrn as ->, Hrb as ->. destruct u.
  injection Hload as Hload. apply into_mgo_Ok, load_gas_inv in Hload.
  exists gas_objects. split; [|done]. revert Hnew. unfold V2.new.
  destruct (price <? rgp); [done|]. destruct (_ && _); [done|].
  intros (s' & ? & [= ->])%bind_Done. done.
Qed.
Lemma status_prices budget price rgp config s :
  V2.new_with_budget budget price rgp config = Done s →
  V2.storage_per_byte_cost (V2.cost_table s) = pc_obj_data_cost_refundable config ∧
  V2.storage_gas_price s = pc_storage_gas_price config.
Proof.
  unfold V2.new_with_budget, V2.MgoCostTable_new. intros H.
  apply bind_Done in H as (? & _ & H). apply bind_Done in H as (tb & Ht & H).
  apply bind_Done in H as (? & _ & [= <-]).
  apply bind_Done in Ht as (? & _ & Ht). apply bind_Done in Ht as (? & _ & [= <-]). done.
Qed.

(** * The store execution starts from *)

Section composition.
Context {Hback : BackingStore} {Hhash : ObjectHash} {Hbcs : BcsSizes} {Hval : ObjectValues}.

Definition mutable_entry (r : ObjectReadResult)
    : option (ObjectID * ((SequenceNumber * ObjectDigest) * Owner)) :=
  match input_object_kind r, read_object_kind r with
  | KImmOrOwnedMoveObject (id, v, d), ReadObject o =>
      if is_immutable o then None else Some (id, ((v, d), owner o))
  | KSharedMoveObject id _ mutable, ReadObject o =>
      if mutable then Some (id, ((object_version o, object_digest o), owner o)) else None
  | _, _ => None
  end.
Lemma mutable_entry_ok r : read_ok r → mutable_input r = Done (mutable_entry r).
Proof.
  unfold read_ok, mutable_input, mutable_entry, compute_object_reference.
  destruct r as [[id|[[id v] d]|id v []] [o|w tx]]; simpl; try done. by intros ->.
Qed.
Lemma mutable_entry_id r e : mutable_entry r = Some e → e.1 = read_id r.
Proof.
  unfold mutable_entry, read_id. destruct r as [[id|[[id v] d]|id v []] [o|w tx]]; simpl; try done.
  - destruct (is_immutable o); [done|]. by intros [= <-].
  - by intros [= <-].
Qed.
Lemma mutable_entry_some r :
  is_Some (mutable_entry r) ↔ read_mutable r = true ∧ is_Some (as_object r).
Proof.
  unfold mutable_entry, read_mutable, as_object.
  destruct r as [[id|[[id v] d]|id v []] [o|w tx]]; simpl; try naive_solver.
  destruct (is_immutable o); simpl; split; [by intros [? [=]]|by intros []|by eauto|by eauto].
Qed.

Definition refs_of (objects : list ObjectReadResult) :
    gmap ObjectID ((SequenceNumber * ObjectDigest) * Owner) :=
  btree_collect (omap mutable_entry objects).
Lemma mutable_inputs_ok objects :
  Forall read_ok objects → mutable_inputs objects = Done (refs_of objects).
Proof.
  intros Hall. unfold mutable_inputs. rewrite (mapM_pure _ mutable_entry).
  - rewrite bind_ret_l. unfold refs_of. do 2 f_equal. induction objects as [|r objects IH]; [done|].
    apply Forall_cons in Hall as [_ Hall]. simpl. destruct (mutable_entry r); [f_equal|]; by apply IH.
  - intros r Hr. rewrite Forall_forall in Hall. by apply mutable_entry_ok, Hall.
Qed.
Lemma refs_of_lookup objects id :
  is_Some (refs_of objects !! id) ↔
  ∃ r, r ∈ objects ∧ read_id r = id ∧ read_mutable r = true ∧ is_Some (as_object r).
Proof.
  unfold refs_of. rewrite btree_collect_dom, list_elem_of_fmap. setoid_rewrite list_elem_of_omap. split.
  - intros (e & -> & r & Hr & He). exists r. rewrite (mutable_entry_id r e He). split_and!; [done..| |];
      apply mutable_entry_some; by eexists.
  - intros (r & Hr & <- & Hm). apply mutable_entry_some in Hm as [e He].
    exists e. rewrite (mutable_entry_id r e He). eauto.
Qed.
Lemma refs_of_size objects : (size (refs_of objects) ≤ length objects)%nat.
Proof.
  unfold refs_of. etransitivity; [apply btree_collect_size|].
  induction objects as [|r objects IH]; [done|]. simpl.
  destruct (mutable_entry r); [by apply le_n_S|by apply le_S].
Qed.

Definition object_entry (r : ObjectReadResult) : option (ObjectID * Object) :=
  (λ o, (read_id r, o)) <$> as_object r.
Lemma object_map_in objects id o :
  into_object_map objects !! id = Some o →
  ∃ r, r ∈ objects ∧ read_id r = id ∧ as_object r = Some o.
Proof.
  intros (r & Hr & He)%btree_collect_in%list_elem_of_omap. exists r.
  by apply fmap_Some in He as (? & ? & [= -> ->]).
Qed.
Lemma object_map_dom objects r :
  r ∈ objects → is_Some (as_object r) → is_Some (into_object_map objects !! read_id r).
Proof.
  intros Hr [o Ho]. unfold into_object_map. apply btree_collect_dom, list_elem_of_fmap.
  exists (read_id r, o). split; [done|]. apply list_elem_of_omap. exists r. by rewrite Ho.
Qed.
Lemma read_ok_object r o : read_ok r → as_object r = Some o → object_id o = Done (read_id r).
Proof.
  intros Hr Ho. apply read_ok_id; [done|]. unfold as_object in Ho.
  destruct (read_object_kind r); by simplify_eq.
Qed.

(** ** What the database guarantees *)

Record stored (max_size max_rebate : Z) (o : Object) : Prop := {
  sd_rebate : 0 ≤ storage_rebate o ≤ max_rebate;
  sd_size : 0 ≤ object_size_for_gas_metering o ≤ max_size;
  sd_bytes : ∀ m, data o = Move m → Forall (λ b, 0 ≤ b < 256) (contents m);
  sd_id : object_id o ≠ Done 0;
  sd_package : is_package o = true → is_immutable o = true;
}.
(** The objects of a transaction, [max_size] and [max_rebate] bounding each of
    them: all of them together can be priced and the gas coins added up.  An
    immutable object has a single version, so two reads of an identifier agree
    on it. *)
Record inputs_stored (max_size max_rebate : Z) (config : ProtocolConfig) (d : TransactionData)
    (objects : list ObjectReadResult) : Prop := {
  is_stored : ∀ r o, r ∈ objects → as_object r = Some o → stored max_size max_rebate o;
  is_frozen : ∀ r r' o o', r ∈ objects → r' ∈ objects → read_id r = read_id r' →
    as_object r = Some o → as_object r' = Some o' → is_immutable o = is_immutable o';
  is_deleted : ∀ r v tx, r ∈ objects → read_object_kind r = DeletedSharedObject v tx →
    v < SEQUENCE_NUMBER_MAX;
  is_receiving : ∀ r : ObjectRef, r ∈ tx_receiving_objects d → r.1.2 < SEQUENCE_NUMBER_MAX;
  is_packages : ∀ id o, get_package_object id = Some o → 0 ≤ storage_rebate o;
  is_rebates : Z.of_nat (length objects) * max_rebate ≤ amount_limit;
  is_costs : Z.of_nat (length objects) *
    (max_size * pc_obj_data_cost_refundable config * Z.max 1 (pc_storage_gas_price config))
      ≤ amount_limit;
  is_balances : sumZ (map balance (filter (λ o, is_gas_coin o = true) (omap as_object objects)))
    ≤ amount_limit;
}.

Lemma balance_nonneg ms mr o : stored ms mr o → 0 ≤ balance o.
Proof.
  intros [_ _ Hb _ _]. unfold balance. destruct (data o) as [m|]; [|done]. specialize (Hb m eq_refl).
  apply (Forall_drop _ ID_END_INDEX) in Hb. induction Hb; simpl; lia.
Qed.

(** The store [TemporaryStore::new] builds. *)
Definition start_store (objects : list ObjectReadResult) (receiving : list ObjectRef)
    (digest lamport : Z) : TemporaryStore := {|
  tx_digest := digest; input_objects := into_object_map objects; store_lamport := lamport;
  mutable_input_refs := refs_of objects; execution_results := results_default;
  loaded_runtime_objects := ∅; wrapped_object_containers := ∅; receiving_objects := receiving |}.

Section checked.
Context (ms mr : Z) (config : ProtocolConfig) (d : TransactionData) (objects : list ObjectReadResult).
Context (Hread : Forall read_ok objects) (Hst : inputs_stored ms mr config d objects).

Lemma start_inputs_ok receiving digest lamport :
  inputs_ok (start_store objects receiving digest lamport).
Proof.
  rewrite Forall_forall in Hread. split; simpl.
  - intros id o (r & Hr & <- & Ho)%object_map_in. apply read_ok_object; auto.
  - intros id (r & Hr & <- & _ & Ho)%refs_of_lookup. by apply object_map_dom.
  - intros id. unfold old_rebate. simpl. destruct (refs_of objects !! id).
    + destruct (into_object_map objects !! id) as [o|] eqn:Ho; simpl; [|done].
      apply object_map_in in Ho as (r & Hr & _ & Ho).
      destruct (is_stored _ _ _ _ _ Hst r o Hr Ho) as [[? _] _ _ _ _]. done.
    + rewrite lookup_empty. destruct (get_package_object id) as [o|] eqn:Hp; simpl; [|done].
      by eapply is_packages.
Qed.
Lemma start_store_ok receiving digest lamport :
  store_ok (start_store objects receiving digest lamport).
Proof.
  split; [apply start_inputs_ok| |].
  - intros id o. unfold written. simpl. by rewrite lookup_empty.
  - intros id. unfold modified. simpl. set_solver.
Qed.

(** ** The gas coins *)

Context (Huser : is_system_tx (tx_kind d) = false).
Context (Hkinds : tx_input_objects d = Done (Ok (map input_object_kind objects))).
Context (Hacc : objects_acceptable d objects).
Definition gas_ids : list ObjectID := map (λ r : ObjectRef, r.1.1) (tx_gas d).

(** The gas coins are the last inputs. *)
Lemma gas_inputs_last :
  ∃ os gs, objects = os ++ gs ∧ map input_object_kind gs = map KImmOrOwnedMoveObject (tx_gas d) ∧
    map read_id gs = gas_ids.
Proof.
  revert Hkinds. unfold tx_input_objects. rewrite try_exec_Ok, Huser. intros (ins & _ & [= Hk]).
  symmetry in Hk. apply map_eq_app in Hk as (os & gs & -> & _ & Hgs). exists os, gs.
  split_and!; [done..|]. unfold gas_ids, read_id. rewrite <-(map_map input_object_kind kind_object_id).
  by rewrite Hgs, map_map.
Qed.
Lemma gas_kind gs r :
  map input_object_kind gs = map KImmOrOwnedMoveObject (tx_gas d) → r ∈ gs →
  ∃ k : ObjectRef, k ∈ tx_gas d ∧ input_object_kind r = KImmOrOwnedMoveObject k ∧ read_id r = k.1.1.
Proof.
  intros Hgs Hr. assert (input_object_kind r ∈ map input_object_kind gs) as Hin.
  { by apply list_elem_of_fmap_2. }
  rewrite Hgs in Hin. apply list_elem_of_fmap in Hin as (k & Hk & Hin). exists k.
  unfold read_id. rewrite Hk. done.
Qed.

Abbreviation by_id l :=
  (btree_collect (map (λ o, (read_id o, o)) l) : gmap ObjectID ObjectReadResult) (only parsing).
Lemma by_id_in l id r : by_id l !! id = Some r → r ∈ l ∧ read_id r = id.
Proof. intros (r' & [= -> ->] & Hr)%btree_collect_in%list_elem_of_fmap. done. Qed.
Lemma by_id_last os gs r : NoDup (map read_id gs) → r ∈ gs → by_id (os ++ gs) !! read_id r = Some r.
Proof.
  intros Hnd Hr. rewrite map_app, btree_collect_app. apply lookup_union_Some_l, btree_collect_nodup.
  - change (map ?f ?l) with (f <$> l) at 1. by rewrite <-list_fmap_compose.
  - apply list_elem_of_fmap. by exists r.
Qed.

(** The coin found for a gas reference is owned by an address, so the input with
    that identifier is mutable. *)
Lemma gas_input_mutable gs found coins r :
  (∀ r, r ∈ gs → r ∈ objects) → map input_object_kind gs = map KImmOrOwnedMoveObject (tx_gas d) →
  Forall2 (λ (k : ObjectRef) r, by_id objects !! k.1.1 = Some r) (tx_gas d) found →
  map as_object found = map Some coins → Forall (λ o, coin_object o ∧ is_address_owned o = true) coins →
  r ∈ gs → read_mutable r = true.
Proof.
  intros Hsub Hgs Hfound Hmap Hcoins Hr. destruct (gas_kind gs r Hgs Hr) as (k & Hk & Hkind & Hid).
  apply list_elem_of_lookup in Hk as [i Hi].
  destruct (Forall2_lookup_l _ _ _ _ _ Hfound Hi) as (r' & Hi' & Hr').
  assert (map as_object found !! i = Some (as_object r')) as Ho' by (by apply list_lookup_fmap_Some; exists r').
  rewrite Hmap in Ho'. apply list_lookup_fmap_Some in Ho' as (o' & Ho' & Hco).
  apply (Forall_lookup_1 _ _ _ _ Hcoins) in Hco as [_ Haddr].
  apply by_id_in in Hr' as [Hin Hid']. rewrite Forall_forall in Hread.
  pose proof (Hread r (Hsub r Hr)) as Hok. unfold read_ok, read_mutable in *. rewrite Hkind in *.
  destruct (read_object_kind r) as [o|] eqn:Hro; [|done].
  assert (as_object r = Some o) as Ho by (unfold as_object; by rewrite Hro).
  rewrite (is_frozen _ _ _ _ _ Hst r r' o o'); try done; [|by apply Hsub|by rewrite Hid].
  unfold is_address_owned, is_immutable in *. by destruct (owner o').
Qed.

Lemma Forall2_func {A B} (P : A → B → Prop) l k1 k2 :
  (∀ x y z, P x y → P x z → y = z) → Forall2 P l k1 → Forall2 P l k2 → k1 = k2.
Proof.
  intros HP H1. revert k2. induction H1 as [|x y l k Hxy H1 IH]; intros k2 H2; inversion H2; subst; [done|].
  f_equal; [by eapply HP|]. by apply IH.
Qed.

Lemma gas_coins_found s rgp :
  get_gas_status objects (tx_gas d) config rgp d = Done (Ok s) →
  ∃ os gs coins, objects = os ++ gs ∧ map read_id gs = gas_ids ∧ NoDup gas_ids ∧
    map as_object gs = map Some coins ∧ (∀ r, r ∈ gs → read_mutable r = true) ∧
    Forall (λ o, coin_object o ∧ is_address_owned o = true) coins ∧
    gd_budget (gas_data d) ≤ sumZ (map balance coins).
Proof.
  intros Hgas. apply check_gas_inv in Hgas as (found & _ & Hfound & Hbal); [|done].
  apply check_balance_inv in Hbal as (coins & Hmap & Hcoins & Hbudget).
  destruct gas_inputs_last as (os & gs & Hos & Hgs & Hids).
  assert (∀ r, r ∈ gs → read_mutable r = true) as Hmut.
  { intros r Hr. apply (gas_input_mutable gs found coins); try done.
    intros r' ?. rewrite Hos, elem_of_app. by right. }
  assert (NoDup (map read_id gs)) as Hnd.
  { pose proof (oa_once _ _ Hacc) as Ho. unfold mutable_ids in Ho.
    rewrite Hos, filter_app, map_app in Ho. apply NoDup_app in Ho as (_ & _ & Ho).
    assert (filter (λ r, read_mutable r = true) gs = gs) as Hfl; [|by rewrite Hfl in Ho].
    clear -Hmut. induction gs as [|r gs IH]; [done|]. rewrite filter_cons_True by (apply Hmut; left).
    f_equal. apply IH. intros. apply Hmut. by right. }
  assert (found = gs) as ->.
  { eapply Forall2_func; [|exact Hfound|]; [intros k r r' Hr Hr'; simpl in *; congruence|].
    apply Forall2_same_length_lookup. unfold gas_ids in Hids. split.
    { apply (f_equal length) in Hids. by rewrite !length_map in Hids. }
    intros j k r Hk Hr. assert (k.1.1 = read_id r) as ->.
    { assert (map read_id gs !! j = Some (read_id r)) as Hj by (apply list_lookup_fmap_Some; eauto).
      rewrite Hids in Hj. apply list_lookup_fmap_Some in Hj as (k' & ? & ?). by simplify_eq. }
    rewrite Hos. apply by_id_last; [done|]. by eapply list_elem_of_lookup_2. }
  exists os, gs, coins. by rewrite <-Hids.
Qed.

(** Lists of inputs and of their objects. *)
Lemma objects_map {A : Type} (f : ObjectReadResult → A) (g : Object → A) gs coins :
  (∀ r o, r ∈ gs → as_object r = Some o → f r = g o) →
  map as_object gs = map Some coins → map f gs = map g coins.
Proof.
  revert coins. induction gs as [|r gs IH]; intros [|o coins] Hf Hm; simplify_eq/=; [done|].
  f_equal; [apply Hf; [left|done]|]. apply IH; [|done]. intros r' o' ?. apply Hf. by right.
Qed.
Lemma objects_omap gs coins : map as_object gs = map Some coins → omap as_object gs = coins.
Proof.
  revert coins. induction gs as [|r gs IH]; intros [|o coins] Hm; simplify_eq/=; [done|].
  match goal with H : as_object r = Some o |- _ => rewrite H end. f_equal. by apply IH.
Qed.
Lemma objects_in gs coins r :
  map as_object gs = map Some coins → r ∈ gs → ∃ o, as_object r = Some o ∧ o ∈ coins.
Proof.
  intros Hm Hr. assert (as_object r ∈ map as_object gs) as Hin by by apply list_elem_of_fmap_2.
  rewrite Hm in Hin. by apply list_elem_of_fmap in Hin.
Qed.

Section coins.
Context (os gs : list ObjectReadResult) (coins : list Object).
Context (Hos : objects = os ++ gs) (Hids : map read_id gs = gas_ids) (Hnd : NoDup gas_ids).
Context (Hmap : map as_object gs = map Some coins) (Hmut : ∀ r, r ∈ gs → read_mutable r = true).
Context (Hcoins : Forall (λ o, coin_object o ∧ is_address_owned o = true) coins).

Lemma gas_read_in r : r ∈ gs → r ∈ objects.
Proof. rewrite Hos, elem_of_app. by right. Qed.
Lemma gas_object_lookup r o :
  r ∈ gs → as_object r = Some o → into_object_map objects !! read_id r = Some o.
Proof.
  intros Hr Ho. rewrite Hos. unfold into_object_map. rewrite omap_app, btree_collect_app.
  apply lookup_union_Some_l, btree_collect_nodup.
  - assert ((omap object_entry gs).*1 = gas_ids) as Hk; [|exact (eq_ind_r NoDup Hnd Hk)].
    rewrite <-Hids. clear -Hmap. revert coins Hmap.
    induction gs as [|x l IH]; intros [|c coins] Hm; simplify_eq/=; [done|].
    unfold object_entry at 1. match goal with H : as_object x = Some c |- _ => rewrite H end.
    simpl. f_equal. by eapply IH.
  - apply list_elem_of_omap. exists r. by rewrite Ho.
Qed.

Lemma coins_total_sum g receiving digest lamport :
  coin_ids g = gas_ids →
  coins_total g (start_store objects receiving digest lamport) = sumZ (map balance coins).
Proof.
  intros Hg. unfold coins_total. rewrite Hg, <-Hids, map_map. f_equal.
  apply (objects_map _ _ gs coins); [|done]. intros r o Hr Ho. unfold coin_value. simpl.
  by rewrite (gas_object_lookup r o).
Qed.
Lemma coins_bounded : sumZ (map balance coins) ≤ amount_limit.
Proof.
  pose proof (is_balances _ _ _ _ _ Hst) as Hb. rewrite Hos, omap_app, filter_app, map_app, sumZ_app in Hb.
  rewrite (objects_omap gs coins Hmap) in Hb.
  assert (filter (λ o, is_gas_coin o = true) coins = coins) as Hf.
  { clear -Hcoins. revert Hcoins. generalize coins. clear coins. intros l Hl.
    induction l as [|o l IH]; [done|]. apply Forall_cons in Hl as [[(m & Hd & Ht & _) _] Hl].
    rewrite filter_cons_True; [by rewrite IH|]. unfold is_gas_coin. rewrite Hd. simpl. by rewrite Ht. }
  rewrite Hf in Hb.
  assert (0 ≤ sumZ (map balance (filter (λ o, is_gas_coin o = true) (omap as_object os)))); [|lia].
  apply sumZ_nonneg, Forall_map, Forall_forall.
  intros o [_ (r & Hr & Ho)%list_elem_of_omap]%list_elem_of_filter. eapply balance_nonneg, is_stored; [done| |done].
  rewrite Hos, elem_of_app. by left.
Qed.

Lemma start_charger_ok s first digest receiving lamport :
  head gas_ids = Some first →
  charger_ok (set_smashed (Some first) (GasCharger_new digest (tx_gas d) s config))
    (start_store objects receiving digest lamport).
Proof.
  intros Hfirst. split.
  - exists first. done.
  - done.
  - intros id Hid. change (coin_ids _) with gas_ids in Hid. rewrite <-Hids in Hid.
    apply list_elem_of_fmap in Hid as (r & -> & Hr).
    destruct (objects_in gs coins r Hmap Hr) as (o & Ho & Hin). exists o.
    rewrite Forall_forall in Hcoins. destruct (Hcoins o Hin) as [Hco _]. split_and!.
    + by apply gas_object_lookup.
    + done.
    + apply refs_of_lookup. exists r. split_and!; [by apply gas_read_in|done|by apply Hmut|by eexists].
    + eapply balance_nonneg, is_stored; [done| |done]. by apply gas_read_in.
  - rewrite coins_total_sum by done. pose proof coins_bounded. unfold amount_limit in *. width.
Qed.

(** ** Prices *)

Context (s : V2.MgoGasStatus) (first : ObjectID) (digest lamport : Z) (receiving : list ObjectRef).
Context (Hfirst : head gas_ids = Some first).
Context (Hbyte : V2.storage_per_byte_cost (V2.cost_table s) = pc_obj_data_cost_refundable config).
Context (Hprice : V2.storage_gas_price s = pc_storage_gas_price config).
Context (Hpos : 0 ≤ pc_obj_data_cost_refundable config ∧ 0 ≤ pc_storage_gas_price config).
Let t : TemporaryStore := start_store objects receiving digest lamport.
Let g : GasCharger := set_smashed (Some first) (GasCharger_new digest (tx_gas d) s config).

(** There is at least one object, so the bounds are not negative. *)
Lemma bounds_nonneg : 0 ≤ ms ∧ 0 ≤ mr ∧ 1 ≤ Z.of_nat (length objects).
Proof.
  assert (∃ r, r ∈ gs) as [r Hr].
  { destruct gs as [|r l]; [|exists r; left]. by rewrite <-Hids in Hfirst. }
  destruct (objects_in gs coins r Hmap Hr) as (o & Ho & _).
  destruct (is_stored _ _ _ _ _ Hst r o (gas_read_in r Hr) Ho) as [? ? _ _ _].
  split_and!; [lia|lia|]. apply gas_read_in in Hr. destruct objects; [by apply not_elem_of_nil in Hr|].
  simpl. lia.
Qed.
Lemma start_stored id o : input_objects t !! id = Some o → stored ms mr o.
Proof. intros (r & Hr & _ & Ho)%object_map_in. by eapply is_stored. Qed.

Lemma failed_origin id o' :
  written (failed_store g t) !! id = Some o' →
  is_Some (refs_of objects !! id) ∧ ∃ o, input_objects t !! id = Some o ∧ same_but_balance o o'.
Proof.
  pose proof (start_charger_ok s first digest receiving lamport Hfirst) as Hch.
  pose proof (start_inputs_ok receiving digest lamport) as Hi. intros Hw.
  destruct (decide (id ∈ tail (coin_ids g))) as [Htl|Htl].
  { rewrite failed_written_none in Hw by auto. done. }
  destruct (refs_of objects !! id) as [ref|] eqn:Href.
  2: { rewrite failed_written_none in Hw by auto. done. }
  split; [by eexists|]. destruct (io_refs t Hi id) as [o Ho]; [by eexists|].
  destruct (failed_written_some g t id o) as (o'' & Hw' & Hs & _); [done|done|by eexists|done..|].
  exists o. split; [done|]. by replace o' with o'' by congruence.
Qed.
Lemma failed_price id o' :
  written (failed_store g t) !! id = Some o' →
  priceable s o' ∧
  object_cost s o' ≤ ms * pc_obj_data_cost_refundable config * Z.max 1 (pc_storage_gas_price config).
Proof.
  intros (_ & o & Ho & Hsame)%failed_origin. apply same_but_balance_ok in Hsame as (_ & _ & Hsz).
  apply start_stored in Ho as [_ [Hsz0 Hsz1] _ _ _]. pose proof bounds_nonneg as (Hms & _ & Hlen).
  pose proof (is_costs _ _ _ _ _ Hst) as Hc. unfold priceable, object_cost. rewrite Hsz, Hbyte, Hprice.
  set (z := object_size_for_gas_metering o) in *. clearbody z.
  set (pb := pc_obj_data_cost_refundable config) in *. set (sp := pc_storage_gas_price config) in *.
  assert (ms * pb * Z.max 1 sp ≤ amount_limit) by nia.
  assert (0 ≤ z * pb ≤ ms * pb) by nia.
  assert (ms * pb ≤ ms * pb * Z.max 1 sp) by nia.
  assert (0 ≤ z * pb * sp ≤ ms * pb * Z.max 1 sp) by nia.
  unfold amount_limit, u64_max in *. lia.
Qed.
Lemma failed_collectable : collectable s (failed_store g t).
Proof.
  pose proof (start_charger_ok s first digest receiving lamport Hfirst) as Hch.
  pose proof (start_inputs_ok receiving digest lamport) as Hi.
  pose proof bounds_nonneg as (Hms & Hmr & Hlen). pose proof (refs_of_size objects) as Hsize. split.
  - by apply failed_store_ok.
  - intros id o Ho. by apply (failed_price id).
  - etransitivity; [|exact (is_costs _ _ _ _ _ Hst)].
    etransitivity; [apply map_sum_le_const; intros id o Ho; by apply (failed_price id)|].
    apply Z.mul_le_mono_nonneg_r; [nia|]. apply inj_le. etransitivity; [|exact Hsize].
    rewrite <-!size_dom. apply subseteq_size. intros id [o Ho]%elem_of_dom.
    apply elem_of_dom. by apply (failed_origin id o).
  - etransitivity; [|exact (is_rebates _ _ _ _ _ Hst)]. unfold in_total.
    rewrite failed_modified by done. destruct (failed_inputs g t) as (_ & _ & ->).
    etransitivity; [apply (set_sum_le_const _ _ mr)|].
    + intros id Hid. apply elem_of_dom in Hid as [ref Href]. unfold old_rebate. rewrite Href.
      destruct (input_objects t !! id) as [o|] eqn:Ho; simpl; [|done].
      apply start_stored in Ho as [? _ _ _ _]. lia.
    + apply Z.mul_le_mono_nonneg_r; [done|]. rewrite size_dom. by apply inj_le.
Qed.

Lemma start_run_pre rgp :
  V2.new_with_budget (gd_budget (gas_data d)) (gd_price (gas_data d)) rgp config = Done s →
  config_ok config (gd_price (gas_data d)) → is_u64 (gd_budget (gas_data d)) →
  gd_budget (gas_data d) ≤ sumZ (map balance coins) →
  run_pre (pc_max_gas_computation_bucket config) (GasCharger_new digest (tx_gas d) s config) t first ∧
  V2.gas_budget s = gd_budget (gas_data d).
Proof.
  intros Hnew Hcfg Hb Hle.
  destruct (new_with_budget_ok _ _ rgp config Hcfg Hb) as (s' & Hs' & Hok & Hbud & Hent & Hun & _).
  assert (s' = s) as -> by congruence. split; [|done]. split; [split| |].
  - done.
  - done.
  - done.
  - apply start_store_ok.
  - by apply start_charger_ok.
  - done.
  - apply failed_collectable.
  - unfold t. rewrite coins_total_sum by done. simpl. rewrite Hbud. split; [done|]. apply coins_bounded.
  - intros ->. assert (∃ r, r ∈ gs ∧ read_id r = 0) as (r & Hr & Hid).
    { rewrite <-Hids in Hfirst. destruct gs as [|r l]; simplify_eq/=. exists r. split; [left|done]. }
    destruct (objects_in gs coins r Hmap Hr) as (o & Ho & _).
    apply (sd_id _ _ _ (is_stored _ _ _ _ _ Hst r o (gas_read_in r Hr) Ho)).
    rewrite Forall_forall in Hread. rewrite <-Hid. apply read_ok_object; [|done].
    by apply Hread, gas_read_in.
  - done.
Qed.
End coins.

(** ** The version of the outputs *)

Lemma input_versions_bounded v :
  v ∈ input_versions objects → v < SEQUENCE_NUMBER_MAX.
Proof.
  unfold input_versions. intros (r & Hr & Hv)%list_elem_of_omap.
  destruct (read_object_kind r) as [o|w tx] eqn:Ho; [|simplify_eq; by eapply is_deleted].
  destruct (data o) as [m|p] eqn:Hd; simplify_eq/=.
  assert (object_version o = mo_version m) as Hvm by (unfold object_version; by rewrite Hd).
  pose proof (oa_each _ _ Hacc r o Hr Ho) as Ha. rewrite Huser in Ha.
  rewrite Forall_forall in Hread. specialize (Hread r Hr). unfold read_ok in Hread. rewrite Ho in Hread.
  unfold acceptable, is_package in Ha. rewrite Hd in Ha.
  destruct (input_object_kind r) as [id|[[id w] dg]|id w mut]; [done| |].
  - destruct Hread as [_ Hw], Ha as (_ & ? & _). simpl in Hw. congruence.
  - destruct (system_input id w mut); [done|]. destruct Ha as [? _]. by rewrite <-Hvm.
Qed.
Lemma start_store_new digest :
  ∃ lamport, TemporaryStore_new objects (tx_receiving_objects d) digest =
    Done (start_store objects (tx_receiving_objects d) digest lamport) ∧
    lamport_timestamp objects (tx_receiving_objects d) = Done lamport.
Proof.
  unfold TemporaryStore_new. rewrite mutable_inputs_ok by done. rewrite bind_ret_l.
  unfold lamport_timestamp, lamport_increment.
  set (versions := input_versions objects ++ _).
  destruct (fold_max_spec versions 0) as (_ & _ & Hin).
  set (m := fold_left Z.max versions 0) in *.
  assert (m < u64_max) as Hm.
  { destruct Hin as [->|Hin]; [width|]. unfold versions in Hin.
    apply elem_of_app in Hin as [Hin|Hin].
    - apply input_versions_bounded in Hin. unfold SEQUENCE_NUMBER_MAX in Hin. width.
    - apply list_elem_of_fmap in Hin as (r & -> & Hr).
      pose proof (is_receiving _ _ _ _ _ Hst r Hr). unfold SEQUENCE_NUMBER_MAX in *. width. }
  rewrite (proj2 (Z.eqb_neq m u64_max)) by lia. simpl. exists (m + 1). done.
Qed.
End checked.

(** * The checks before execution establish what execution needs *)

Lemma check_inner_inv config rgp d objects s :
  Forall read_ok objects →
  check_transaction_input_inner config rgp d objects [] = Done (Ok s) →
  tx_valid config d ∧ get_gas_status objects (tx_gas d) config rgp d = Done (Ok s) ∧
  objects_acceptable d objects.
Proof.
  intros Hread. unfold check_transaction_input_inner. rewrite try_exec_Ok.
  intros (? & Hv & H). injection Hv as Hv. destruct x. apply try_exec_Ok in H as (gas & Hgas & H).
  apply try_exec_Ok in Hgas as ([] & Hvd & [= <-]). apply try_exec_Ok in H as (s' & Hs & H).
  apply try_exec_Ok in H as ([] & Hobj & [= ->]). split_and!; [|done|].
  - apply fmap_Done in Hvd as (r & Hvd & Hr). symmetry in Hr. apply into_mgo_Ok in Hr as ->.
    apply (decides_Ok _ _ (validity_decided config d Hv)). by eexists.
  - apply fmap_Done in Hobj as (r & Hobj & Hr). symmetry in Hr. apply into_mgo_Ok in Hr as ->.
    apply (decides_Ok _ _ (objects_decided d objects Hread)). by eexists.
Qed.

Lemma checked_run_pre ms mr config rgp d objects s digest :
  is_system_tx (tx_kind d) = false →
  tx_input_objects d = Done (Ok (map input_object_kind objects)) →
  Forall read_ok objects → inputs_stored ms mr config d objects →
  config_ok config (gd_price (gas_data d)) → is_u64 (gd_budget (gas_data d)) →
  check_transaction_input_inner config rgp d objects [] = Done (Ok s) →
  ∃ first t, head (map (λ r : ObjectRef, r.1.1) (tx_gas d)) = Some first ∧
    TemporaryStore_new objects (tx_receiving_objects d) digest = Done t ∧
    run_pre (pc_max_gas_computation_bucket config) (GasCharger_new digest (tx_gas d) s config) t first ∧
    V2.gas_budget s = gd_budget (gas_data d).
Proof.
  intros Huser Hkinds Hread Hst Hcfg Hb Hcheck.
  destruct (check_inner_inv config rgp d objects s Hread Hcheck) as (Hvalid & Hgas & Hacc).
  destruct (gas_coins_found ms mr config d objects Hread Hst Huser Hkinds Hacc s rgp Hgas)
    as (os & gs & coins & Hos & Hids & Hnd & Hmap & Hmut & Hcoins & Hle).
  destruct (start_store_new ms mr config d objects Hread Hst Huser Hacc digest) as (lamport & Ht & _).
  assert (∃ first, head (gas_ids d) = Some first) as [first Hfirst].
  { pose proof (tv_gas _ _ Hvalid). unfold gas_ids. destruct (tx_gas d); [done|]. by eexists. }
  exists first, (start_store objects (tx_receiving_objects d) digest lamport).
  split; [done|]. split; [done|].
  apply check_gas_inv in Hgas as (_ & Hnew & _); [|done].
  destruct (status_prices _ _ _ _ _ Hnew) as [Hpb Hsp].
  eapply start_run_pre; try done. destruct Hcfg as (_ & _ & _ & _ & _ & ? & ?). done.
Qed.
End composition.
