(* ===== verification/Ownership.v ===== *)
(** The ownership check [check_ownership_invariants] of the temporary store:
    what it accepts, stated without the work list.  An object may be modified
    when the chain of the objects that contain or own it ends in an input the
    signature authorises; system packages are exempt at an epoch change. *)
From S2P Require Import Prelude GasTables Objects MgoGas.
From S2P Require Import TemporaryStore.

Section ownership.
Context {Hback : BackingStore}.
Context (t : TemporaryStore) (is_epoch_change : bool).

(** The object whose authentication covers another one. *)
Definition covering (id : ObjectID) : option ObjectID :=
  match wrapped_object_containers t !! id with
  | Some parent => Some parent
  | None =>
      match get_object id with
      | Ok (Some o) =>
          match owner o with ObjectOwner parent | AddressOwner parent => Some parent | _ => None end
      | _ => None
      end
  end.
Definition exempt (id : ObjectID) : bool :=
  match wrapped_object_containers t !! id, get_object id with
  | None, Ok (Some o) =>
      match owner o with Immutable => is_epoch_change && is_system_package id | _ => false end
  | _, _ => false
  end.

Inductive owned (roots : ObjectID → Prop) : ObjectID → Prop :=
  | owned_root id : roots id → owned roots id
  | owned_exempt id : exempt id = true → owned roots id
  | owned_parent id parent : covering id = Some parent → owned roots parent → owned roots id.

(** How the loop stops at an object that nothing covers. *)
Definition stuck (id : ObjectID) : exec (result unit unit) :=
  match get_object id with Err e => Done (Err e) | Ok _ => Panic end.

Lemma covering_exempt id parent : covering id = Some parent → exempt id = false.
Proof.
  unfold covering, exempt. destruct (wrapped_object_containers t !! id); [done|].
  destruct (get_object id) as [[o|]|e]; [|done..]. by destruct (owner o).
Qed.

(** One turn of the loop on an object that is not authenticated yet. *)
Lemma authenticate_step fuel auth id todo :
  id ∉ auth →
  authenticate t is_epoch_change (S fuel) auth (id :: todo) =
    match covering id with
    | Some parent => authenticate t is_epoch_change fuel ({[id]} ∪ auth) (parent :: todo)
    | None => if exempt id then authenticate t is_epoch_change fuel auth todo else stuck id
    end.
Proof.
  intros Hni. cbn [authenticate]. rewrite decide_False by done. unfold covering, exempt, stuck.
  destruct (wrapped_object_containers t !! id) as [p|]; [done|].
  destruct (get_object id) as [[o|]|e]; [|done..]. destruct (owner o); try done.
  by destruct is_epoch_change, (is_system_package id).
Qed.
Lemma authenticate_skip fuel auth id todo :
  id ∈ auth →
  authenticate t is_epoch_change (S fuel) auth (id :: todo) =
  authenticate t is_epoch_change fuel auth todo.
Proof. intros Hid. cbn [authenticate]. by rewrite decide_True. Qed.

(** The loop ends: each turn takes an object off the list or authenticates a new
    one, and the chains stay within a finite set. *)
Lemma authenticate_ends (U : gset ObjectID) :
  (∀ id parent, id ∈ U → covering id = Some parent → parent ∈ U) →
  ∀ fuel auth todo, (∀ id, id ∈ todo → id ∈ U) →
    (length todo + size (U ∖ auth) < fuel)%nat →
    authenticate t is_epoch_change fuel auth todo ≠ OutOfFuel.
Proof.
  intros Hclosed. induction fuel as [|fuel IH]; intros auth todo HU Hfuel; [lia|].
  destruct todo as [|id todo]; [done|]. simpl in Hfuel.
  assert (id ∈ U) as Hid by (apply HU; left).
  assert (∀ i, i ∈ todo → i ∈ U) as HU' by (intros; apply HU; by right).
  destruct (decide (id ∈ auth)) as [Ha|Ha].
  - rewrite authenticate_skip by done. apply IH; [done|lia].
  - rewrite authenticate_step by done. destruct (covering id) as [parent|] eqn:Hc.
    + apply IH; [intros i [->|?]%elem_of_cons; [by eapply Hclosed|by apply HU']|].
      assert (size (U ∖ ({[id]} ∪ auth)) < size (U ∖ auth))%nat; [|simpl; lia].
      apply subset_size. set_solver.
    + destruct (exempt id); [apply IH; [done|lia]|]. unfold stuck. by destruct (get_object id).
Qed.

Lemma owned_ext (P Q : ObjectID → Prop) id :
  (∀ i, P i → Q i) → owned P id → owned Q id.
Proof.
  intros HPQ. induction 1 as [id Hid|id He|id parent Hc _ IH].
  - by apply owned_root, HPQ.
  - by apply owned_exempt.
  - by eapply owned_parent.
Qed.

Section roots.
Context (roots : ObjectID → Prop).

Lemma authenticate_complete fuel auth todo :
  (∀ id, roots id → id ∈ auth) → (∀ id, id ∈ todo → owned roots id) →
  authenticate t is_epoch_change fuel auth todo = OutOfFuel ∨
  authenticate t is_epoch_change fuel auth todo = Done (Ok ()).
Proof.
  revert auth todo. induction fuel as [|fuel IH]; intros auth todo Hr Ho; [by left|].
  destruct todo as [|id todo]; [by right|].
  assert (∀ i, i ∈ todo → owned roots i) as Ho' by (intros; apply Ho; by right).
  destruct (decide (id ∈ auth)) as [Ha|Ha]; [rewrite authenticate_skip by done; by apply IH|].
  rewrite authenticate_step by done.
  destruct (Ho id ltac:(left)) as [id Hid|id Hid|id parent Hid Hp].
  - by destruct (Ha (Hr _ Hid)).
  - destruct (covering id) as [p|] eqn:Hc; [apply covering_exempt in Hc; congruence|].
    rewrite Hid. by apply IH.
  - rewrite Hid. apply IH; [set_solver|]. intros i [->|?]%elem_of_cons; [done|by apply Ho'].
Qed.

(** What the loop has seen when it accepts: a set in which every object is a
    root or is covered by another of the set, or by an exempt one. *)
Definition supported (F : gset ObjectID) (pending : ObjectID → Prop) : Prop :=
  ∀ id, id ∈ F → roots id ∨ ∃ parent, covering id = Some parent ∧ (parent ∈ F ∨ pending parent).

Lemma authenticate_accepts fuel auth todo :
  supported auth (λ id, id ∈ todo ∨ exempt id = true) →
  authenticate t is_epoch_change fuel auth todo = Done (Ok ()) →
  ∃ F, auth ⊆ F ∧ (∀ id, id ∈ todo → id ∈ F ∨ exempt id = true) ∧
    supported F (λ id, exempt id = true).
Proof.
  revert auth todo. induction fuel as [|fuel IH]; intros auth todo Hsup; [done|].
  destruct todo as [|id todo].
  { intros _. exists auth. split_and!; [done|set_solver|]. intros id Hid.
    destruct (Hsup id Hid) as [?|(p & ? & [?|[?|?]])]; set_solver. }
  destruct (decide (id ∈ auth)) as [Ha|Ha]; [rewrite authenticate_skip by done|
    rewrite authenticate_step by done; destruct (covering id) as [parent|] eqn:Hc;
    [|destruct (exempt id) eqn:He]].
  - intros (F & HF & Htodo & Hs)%IH; [exists F; set_solver|].
    intros i Hi. destruct (Hsup i Hi) as [?|(p & ? & [?|[[->|?]%elem_of_cons|?]])]; eauto 6.
  - intros (F & HF & Htodo & Hs)%IH; [exists F; set_solver|].
    intros i [->%elem_of_singleton|Hi]%elem_of_union; [right; exists parent; set_solver|].
    destruct (Hsup i Hi) as [?|(p & ? & [?|[[->|?]%elem_of_cons|?]])]; [by left|right; set_solver..].
  - intros (F & HF & Htodo & Hs)%IH; [exists F; set_solver|].
    intros i Hi. destruct (Hsup i Hi) as [?|(p & ? & [?|[[->|?]%elem_of_cons|?]])]; eauto 7.
  - unfold stuck. by destruct (get_object id).
Qed.

(** When ownership is acyclic, such a set holds only owned objects. *)
Lemma supported_owned (rank : ObjectID → nat) F :
  (∀ id parent, covering id = Some parent → (rank parent < rank id)%nat) →
  supported F (λ id, exempt id = true) → ∀ id, id ∈ F → owned roots id.
Proof.
  intros Hrank Hsup id. remember (rank id) as n eqn:Hn. revert id Hn.
  induction (lt_wf n) as [n _ IH]. intros id -> Hid.
  destruct (Hsup id Hid) as [?|(p & Hp & [HF|He])]; [by apply owned_root|..].
  - eapply owned_parent; [done|]. eapply IH; [by apply Hrank|done..].
  - eapply owned_parent; [done|]. by apply owned_exempt.
Qed.
End roots.

Lemma authenticate_exact (U auth : gset ObjectID) (rank : ObjectID → nat) fuel todo :
  (∀ id parent, id ∈ U → covering id = Some parent → parent ∈ U) →
  (∀ id parent, covering id = Some parent → (rank parent < rank id)%nat) →
  (∀ id, id ∈ todo → id ∈ U) → (length todo + size U < fuel)%nat →
  authenticate t is_epoch_change fuel auth todo ≠ OutOfFuel ∧
  (authenticate t is_epoch_change fuel auth todo = Done (Ok ()) ↔
   ∀ id, id ∈ todo → owned (λ id, id ∈ auth) id).
Proof.
  intros Hclosed Hrank HU Hfuel.
  assert (authenticate t is_epoch_change fuel auth todo ≠ OutOfFuel) as Hends.
  { apply (authenticate_ends U); [done..|].
    assert (size (U ∖ auth) ≤ size U)%nat by (apply subseteq_size; set_solver). lia. }
  split; [done|]. split.
  - intros (F & _ & Htodo & Hs)%(authenticate_accepts (λ id, id ∈ auth)); [|by left].
    intros id Hid. destruct (Htodo id Hid) as [HF|?]; [|by apply owned_exempt].
    by apply (supported_owned _ rank F).
  - intros Ho. by destruct (authenticate_complete (λ id, id ∈ auth) fuel auth todo).
Qed.

(** * The whole check *)

Section check.
Context (sender : MgoAddress) (gas_objs mutable_inputs : gset ObjectID).

(** Inputs must be the sender's, shared or immutable; the mutable ones that can
    own others are the roots. *)
Definition authorised (id : ObjectID) (o : Object) : Prop :=
  id ∈ gas_objs ∨
  match owner o with
  | AddressOwner a => a = sender
  | Shared _ | Immutable => True
  | ObjectOwner _ => False
  end.
Definition is_root (id : ObjectID) (o : Object) : Prop :=
  id ∉ gas_objs ∧ id ∈ mutable_inputs ∧ owner o ≠ Immutable.
#[global] Instance authorised_dec id o : Decision (authorised id o).
Proof. unfold authorised. destruct (owner o); apply _. Defined.

Definition add_root (acc : gset ObjectID) (kv : ObjectID * Object) : exec (gset ObjectID) :=
  if decide (kv.1 ∈ gas_objs) then Done acc
  else
    keep ← match owner kv.2 with
           | AddressOwner a => _ ← assert (sender =? a); Done true
           | Shared _ => Done true
           | Immutable => Done false
           | ObjectOwner _ => Panic
           end;
    Done (if (keep : bool) && bool_decide (kv.1 ∈ mutable_inputs) then {[kv.1]} ∪ acc else acc).

Lemma add_root_ok acc id o :
  (¬ authorised id o → add_root acc (id, o) = Panic) ∧
  (authorised id o → ∃ r, add_root acc (id, o) = Done r ∧ ∀ i, i ∈ r ↔ (i ∈ acc ∨ i = id ∧ is_root id o)).
Proof.
  unfold add_root, authorised, is_root. simpl. destruct (decide (id ∈ gas_objs)) as [Hg|Hg].
  - split; [intros []; by left|]. intros _. exists acc. set_solver.
  - destruct (owner o) as [a|p|v|]; simpl.
    + case_test (sender =? a) as Ha; simpl.
      * split; [intros []; by right|]. intros _. eexists. split; [done|]. case_bool_decide; set_solver.
      * split; [done|]. intros [?|?]; [done|congruence].
    + split; [done|]. by intros [?|?].
    + split; [intros []; by right|]. intros _. eexists. split; [done|]. case_bool_decide; set_solver.
    + split; [intros []; by right|]. intros _. exists acc. set_solver.
Qed.

Lemma roots_ok l acc :
  (¬ Forall (λ kv, authorised kv.1 kv.2) l → foldM add_root acc l = Panic) ∧
  (Forall (λ kv, authorised kv.1 kv.2) l →
   ∃ r, foldM add_root acc l = Done r ∧
     ∀ i, i ∈ r ↔ (i ∈ acc ∨ ∃ o, (i, o) ∈ l ∧ is_root i o)).
Proof.
  revert acc. induction l as [|[id o] l IH]; intros acc.
  { split; [by intros []|]. intros _. exists acc. set_solver. }
  destruct (add_root_ok acc id o) as [Hbad Hgood]. cbn [foldM].
  destruct (decide (authorised id o)) as [Ha|Ha].
  - destruct (Hgood Ha) as (r & -> & Hr). rewrite bind_ret_l. destruct (IH r) as [Hbad' Hgood']. split.
    + intros Hn. apply Hbad'. intros ?. apply Hn. by constructor.
    + intros [_ Hl]%Forall_cons. destruct (Hgood' Hl) as (r' & -> & Hr'). exists r'.
      split; [done|]. intros i. rewrite Hr', Hr. set_solver.
  - rewrite (Hbad Ha). split; [done|]. by intros [? _]%Forall_cons.
Qed.
End check.

(** The check accepts when everything that was modified is owned. *)
Lemma ownership_accepts sender g mutable_inputs (U : gset ObjectID) fuel :
  let gas_objs : gset ObjectID := list_to_set (map (λ r : ObjectRef, r.1.1) (gas_coins g)) in
  (∀ id parent, id ∈ U → covering id = Some parent → parent ∈ U) →
  modified t ⊆ U → (size (modified t) + size U < fuel)%nat →
  (∀ id o, input_objects t !! id = Some o → authorised sender gas_objs id o) →
  (∀ id, id ∈ modified t → id ∉ gas_objs →
     owned (λ i, ∃ o, input_objects t !! i = Some o ∧ is_root gas_objs mutable_inputs i o) id) →
  check_ownership_invariants t fuel sender g mutable_inputs is_epoch_change = Done (Ok ()).
Proof.
  intros gas_objs Hclosed HU Hfuel Hauth Howned. unfold check_ownership_invariants. fold gas_objs.
  change (authenticated_inputs t sender gas_objs mutable_inputs) with
    (foldM (add_root sender gas_objs mutable_inputs) ∅ (btree_iter Z.le (input_objects t))).
  destruct (roots_ok sender gas_objs mutable_inputs (btree_iter Z.le (input_objects t)) ∅) as [_ Hgood].
  destruct Hgood as (r & -> & Hr).
  { apply Forall_forall. intros [id o] Ho%elem_of_btree_iter. by apply Hauth. }
  rewrite bind_ret_l. set (todo := rev _).
  assert (∀ id, id ∈ todo ↔ id ∈ modified t ∧ id ∉ gas_objs) as Htodo.
  { intros id. subst todo. rewrite elem_of_rev, list_elem_of_filter, elem_of_bset_iter. tauto. }
  assert (length todo ≤ size (modified t))%nat as Hlen.
  { subst todo. rewrite length_rev. etransitivity; [apply length_filter|].
    unfold bset_iter. by rewrite merge_sort_Permutation. }
  destruct (authenticate_complete (λ i, ∃ o, input_objects t !! i = Some o ∧ is_root gas_objs mutable_inputs i o)
    fuel r todo) as [Hout|?]; [| |exfalso|done].
  - intros id (o & Ho & Hroot). apply Hr. right. exists o. by rewrite elem_of_btree_iter.
  - intros id [Hm Hg]%Htodo. by apply Howned.
  - revert Hout. apply (authenticate_ends U Hclosed).
    + intros id [Hm _]%Htodo. by apply HU.
    + assert (size (U ∖ r) ≤ size U)%nat by (apply subseteq_size; set_solver). lia.
Qed.

(** C25: The ownership check accepts exactly the transactions whose writes are
    authorised.  When the ownership chains are acyclic and stay in a finite set,
    [check_ownership_invariants] ends, and it returns without error if and only if
    every input is the sender's, shared or immutable, and every modified object
    other than the gas coins is owned, through containers and parents, by a
    mutable input, or is a system package replaced at an epoch change. *)
Theorem ownership_check_exact sender g mutable_inputs (U : gset ObjectID) (rank : ObjectID → nat) fuel :
  let gas_objs : gset ObjectID := list_to_set (map (λ r : ObjectRef, r.1.1) (gas_coins g)) in
  (∀ id parent, id ∈ U → covering id = Some parent → parent ∈ U) →
  (∀ id parent, covering id = Some parent → (rank parent < rank id)%nat) →
  modified t ⊆ U → (size (modified t) + size U < fuel)%nat →
  check_ownership_invariants t fuel sender g mutable_inputs is_epoch_change ≠ OutOfFuel ∧
  (check_ownership_invariants t fuel sender g mutable_inputs is_epoch_change = Done (Ok ()) ↔
   (∀ id o, input_objects t !! id = Some o → authorised sender gas_objs id o) ∧
   (∀ id, id ∈ modified t → id ∉ gas_objs →
      owned (λ i, ∃ o, input_objects t !! i = Some o ∧ is_root gas_objs mutable_inputs i o) id)).
Proof.
  intros gas_objs Hclosed Hrank HU Hfuel. unfold check_ownership_invariants. fold gas_objs.
  set (todo := rev _).
  assert (∀ id, id ∈ todo ↔ id ∈ modified t ∧ id ∉ gas_objs) as Htodo.
  { intros id. subst todo. rewrite elem_of_rev, list_elem_of_filter, elem_of_bset_iter. tauto. }
  assert (length todo ≤ size (modified t))%nat as Hlen.
  { subst todo. rewrite length_rev. etransitivity; [apply length_filter|].
    unfold bset_iter. by rewrite merge_sort_Permutation. }
  change (authenticated_inputs t sender gas_objs mutable_inputs) with
    (foldM (add_root sender gas_objs mutable_inputs) ∅ (btree_iter Z.le (input_objects t))).
  destruct (roots_ok sender gas_objs mutable_inputs (btree_iter Z.le (input_objects t)) ∅) as [Hbad Hgood].
  assert (Forall (λ kv, authorised sender gas_objs kv.1 kv.2) (btree_iter Z.le (input_objects t)) ↔
    ∀ id o, input_objects t !! id = Some o → authorised sender gas_objs id o) as Hall.
  { rewrite Forall_forall. split.
    - intros Hf id o Ho. by apply (Hf (id, o)), elem_of_btree_iter.
    - intros Hf [id o] Ho%elem_of_btree_iter. by apply Hf. }
  destruct (decide (Forall (λ kv, authorised sender gas_objs kv.1 kv.2)
    (btree_iter Z.le (input_objects t)))) as [Ha|Ha].
  - destruct (Hgood Ha) as (r & -> & Hr). rewrite bind_ret_l.
    destruct (authenticate_exact U r rank fuel todo) as [Hends Hex]; [done..| |lia|].
    { intros id. rewrite Htodo. set_solver. }
    split; [done|]. rewrite Hex. clear Hex Hends.
    split; [intros Ho; split; [by apply Hall|]|intros [_ Ho]]; intros id Hid.
    + intros Hg. eapply owned_ext; [|apply Ho, Htodo; by split]. intros i Hi%Hr. simpl in Hi.
      destruct Hi as [?|(o & ?%elem_of_btree_iter & ?)]; [set_solver|by exists o].
    + apply Htodo in Hid as [Hm Hg]. eapply owned_ext; [|by apply Ho].
      intros i (o & Hi & Hroot). apply Hr. right. exists o. by rewrite elem_of_btree_iter.
  - rewrite (Hbad Ha). split; [done|]. split; [done|]. intros [Hf _]. by apply Hall in Hf.
Qed.
End ownership.

(** Ownership does not depend on what a transaction has written so far. *)
Lemma owned_results {Hback : BackingStore} r t is_epoch_change roots id :
  owned t is_epoch_change roots id → owned (set_results r t) is_epoch_change roots id.
Proof.
  induction 1 as [id Hid|id He|id parent Hc _ IH].
  - by apply owned_root.
  - by apply owned_exempt.
  - by apply (owned_parent _ _ _ id parent).
Qed.

(** * A chain of three objects *)

Definition chain_object (id : ObjectID) (o : Owner) : Object := {|
  data := Move (coin_with id 3 0); owner := o; previous_transaction := 5; storage_rebate := 0 |}.

(** Object 3001 is a dynamic field of the sender's input 1003 and contains the
    wrapped object 3000. *)
Definition chain_backing : BackingStore := {|
  get_package_object := λ _, None;
  get_object := λ id, Ok (if id =? 3001 then Some (chain_object 3001 (ObjectOwner 1003))
                          else if id =? 1003 then Some (chain_object 1003 (AddressOwner 9))
                          else None) |}.
Definition chain_store : TemporaryStore := {|
  tx_digest := 7; input_objects := {[1003 := chain_object 1003 (AddressOwner 9)]}; store_lamport := 4;
  mutable_input_refs := {[1003 := ((3, 0), AddressOwner 9)]};
  execution_results := {| written_objects := ∅; modified_objects := {[1003; 3000]};
    created_object_ids := ∅; deleted_object_ids := {[3000]}; user_events := [] |};
  loaded_runtime_objects := ∅; wrapped_object_containers := {[3000 := 3001]};
  receiving_objects := [] |}.
Definition chain_charger : GasCharger :=
  GasCharger_new 7 [(1001, 3, 0)] sample_gas_status sample_config.
Definition chain_rank (id : ObjectID) : nat :=
  if id =? 3000 then 3 else if id =? 3001 then 2 else if id =? 1003 then 1 else 0.

Lemma chain_covering id parent :
  covering (Hback := chain_backing) chain_store id = Some parent →
  id = 3000 ∧ parent = 3001 ∨ id = 3001 ∧ parent = 1003 ∨ id = 1003 ∧ parent = 9.
Proof.
  unfold covering, chain_store. simpl. destruct (decide (id = 3000)) as [->|Hne].
  - rewrite lookup_singleton_eq. intros [= <-]. by left.
  - rewrite lookup_singleton_ne by done.
    case_test (id =? 3001) as H1; [intros [= <-]; by right; left|].
    case_test (id =? 1003) as H2; [intros [= <-]; by right; right|done].
Qed.

Lemma ownership_check_exact_witness :
  check_ownership_invariants (Hback := chain_backing) chain_store 7 9 chain_charger {[1003]} false =
    Done (Ok ()) ∧
  owned (Hback := chain_backing) chain_store false
    (λ i, ∃ o, input_objects chain_store !! i = Some o ∧ is_root {[1001]} {[1003]} i o) 3000.
Proof.
  destruct (ownership_check_exact (Hback := chain_backing) chain_store false 9 chain_charger {[1003]}
    {[3000; 3001; 1003; 9]} chain_rank 7) as [_ Hiff].
  - intros id parent _ Hc%chain_covering. set_solver.
  - intros id parent Hc%chain_covering.
    destruct Hc as [(-> & ->)|[(-> & ->)|(-> & ->)]]; vm_compute; lia.
  - unfold modified. simpl. set_solver.
  - vm_compute. lia.
  - assert (check_ownership_invariants (Hback := chain_backing) chain_store 7 9 chain_charger {[1003]}
      false = Done (Ok ())) as Hok by (vm_compute; reflexivity).
    split; [exact Hok|]. apply Hiff in Hok as [_ Hown]. simpl in Hown. rewrite right_id_L in Hown by apply _.
    apply Hown; unfold modified; simpl; set_solver.
Defined.
