(* ===== verification/CheckedEffects.v ===== *)
(** From the checks on a transaction to its effects: a user transaction that
    passed [check_transaction_input] executes, with any execution loop that
    keeps its contract, to effects that describe a store in which MGO is
    conserved. *)
From S2P Require Import Prelude MapSums Objects Errors.
From S2P Require Import MgoGas TransactionData TransactionChecks CheckedInputs.
From S2P Require Import TemporaryStore ExecutionEngine GasConservation ValueConservation.
From S2P Require Import GasTheorems Effects EffectsTheorems CheckedExecution.
From S2P Require Import Ownership.

Section stores.
Context {Hback : BackingStore} {Hhash : ObjectHash} {Hbcs : BcsSizes}.

(** * What the execution loop leaves in the store *)

(** Packages are not mutable inputs. *)
Definition move_inputs (t : TemporaryStore) : Prop :=
  ∀ id o, is_Some (mutable_input_refs t !! id) → input_objects t !! id = Some o → is_package o = false.

Record executed_ok (t : TemporaryStore) : Prop := {
  eo_inputs : move_inputs t;
  eo_created : created t ## modified t ∪ dom (mutable_input_refs t);
  eo_deleted : deleted t ## created t ∪ dom (written t);
  eo_removed : ∀ id, id ∈ deleted t → is_Some (mutable_input_refs t !! id) → id ∈ modified t;
  eo_packages : ∀ id o, written t !! id = Some o → is_package o = true →
    owner o = Immutable ∧ id ∈ modified t ∪ created t ∧ object_version o ≠ u64_max;
  eo_shared : ∀ id o v, written t !! id = Some o → owner o = Shared v → id ∈ created t → v = 0;
  eo_size : Z.of_nat (size (touched t ∪ dom (mutable_input_refs t))) ≤ 2 ^ 32;
}.

(** A store whose effects can be built. *)
Definition reportable (t : TemporaryStore) : Prop :=
  results_ok t ∧ Z.of_nat (size (touched t)) ≤ 2 ^ 32.

Lemma size_sub (X Y : gset ObjectID) n : X ⊆ Y → Z.of_nat (size Y) ≤ n → Z.of_nat (size X) ≤ n.
Proof. intros Hsub Hn. pose proof (subseteq_size X Y Hsub). lia. Qed.

Lemma ensured_reportable t : store_ok t → executed_ok t → reportable (ensured t).
Proof.
  intros Hst [Hmove Hcr Hdel Hrem Hpk Hsh Hsize].
  assert (∀ id o, written (ensured t) !! id = Some o →
    written t !! id = Some o ∨ is_Some (mutable_input_refs t !! id) ∧ (id ∉ modified t) ∧
      input_objects t !! id = Some o) as Hw.
  { intros id o. unfold ensured, written at 1. simpl. intros [Hu|[_ Ho]]%lookup_union_Some_raw; [|by left].
    right. unfold untouched in Hu. by apply map_lookup_filter_Some in Hu as [? [? ?]]. }
  split; [split|].
  - by apply ensured_store_ok.
  - unfold ensured, created, modified. simpl. fold (created t) (modified t). set_solver.
  - apply elem_of_disjoint. intros id Hd [Hc|[o Ho]%elem_of_dom]%elem_of_union; [set_solver|].
    change (id ∈ deleted t) in Hd. destruct (Hw id o Ho) as [Ho'|(Hr & Hm & _)]; [|by auto].
    apply (elem_of_dom_2 (D := gset ObjectID)) in Ho'. set_solver.
  - intros id o Ho Hp. destruct (Hw id o Ho) as [Ho'|(Hr & Hm & Hin)].
    + destruct (Hpk id o Ho' Hp) as (? & ? & ?). split_and!; [done| |done].
      unfold ensured, modified, created. simpl. fold (created t) (modified t). set_solver.
    + rewrite (Hmove id o) in Hp; done.
  - intros id o v Ho Hv Hc. change (id ∈ created t) in Hc. destruct (Hw id o Ho) as [Ho'|(Hr & _)]; [by eapply Hsh|].
    apply elem_of_dom in Hr. set_solver.
  - eapply size_sub; [|done]. unfold touched. intros id. rewrite !elem_of_union.
    intros [[[Hx|Hx]|Hx]|[o Ho]%elem_of_dom].
    + change (id ∈ created t) in Hx. auto.
    + change (id ∈ deleted t) in Hx. auto.
    + unfold ensured, modified in Hx. simpl in Hx. fold (modified t) in Hx. set_solver.
    + destruct (Hw id o Ho) as [Ho'|(Hr & _)]; [left; right; by apply elem_of_dom|right; by apply elem_of_dom].
Qed.

Lemma failed_reportable g t :
  inputs_ok t → charger_ok g t → move_inputs t →
  Z.of_nat (size (dom (mutable_input_refs t))) ≤ 2 ^ 32 → reportable (failed_store g t).
Proof.
  intros Hi Hch Hmove Hsize. destruct (failed_created g t) as (Hcr & _ & Hdel). specialize (Hdel Hch).
  assert (∀ id o, written (failed_store g t) !! id = Some o →
    (id ∉ tail (coin_ids g)) ∧ is_Some (mutable_input_refs t !! id) ∧ is_package o = false) as Hw.
  { intros id o Ho. destruct (decide (id ∈ tail (coin_ids g))) as [Htl|Htl].
    { rewrite failed_written_none in Ho by auto. done. }
    destruct (mutable_input_refs t !! id) as [ref|] eqn:Hr; [|rewrite failed_written_none in Ho by auto; done].
    destruct (io_refs t Hi id) as [o' Ho']; [by rewrite Hr|].
    destruct (failed_written_some g t id o') as (o'' & Hw & Hsame & _); [done|done|by rewrite Hr|done..|].
    assert (o'' = o) as -> by congruence. split_and!; [done|by eexists|].
    pose proof (Hmove id o' ltac:(by rewrite Hr) Ho') as Hp.
    destruct Hsame as [->|(v & _ & (m & Hd & _) & ->)]; [done|]. unfold with_balance, is_package. by rewrite Hd. }
  assert (∀ id, id ∈ coin_ids g → is_Some (mutable_input_refs t !! id)) as Hcoin.
  { intros id Hid. by destruct (co_coins g t Hch id Hid) as (_ & _ & _ & ? & _). }
  assert (∀ id, id ∈ tail (coin_ids g) → id ∈ coin_ids g) as Htail by (destruct (coin_ids g); set_solver).
  split; [split|].
  - by apply failed_store_ok.
  - rewrite Hcr. set_solver.
  - rewrite Hcr, Hdel. apply elem_of_disjoint. intros id Hd%elem_of_list_to_set [?|[o Ho]%elem_of_dom]%elem_of_union; [set_solver|].
    by destruct (Hw id o Ho).
  - intros id o Ho Hp. destruct (Hw id o Ho) as (_ & _ & ?). congruence.
  - rewrite Hcr. set_solver.
  - eapply size_sub; [|done]. unfold touched. rewrite Hcr, Hdel, failed_modified by done.
    intros id. rewrite !elem_of_union, elem_of_list_to_set. intros [[[?|?]|?]|[o Ho]%elem_of_dom]; [set_solver|..].
    + by apply elem_of_dom, Hcoin, Htail.
    + done.
    + apply elem_of_dom. by destruct (Hw id o Ho) as (_ & ? & _).
Qed.

(** Pricing the objects and paying keep a store reportable. *)
Lemma rewritten_reportable t w :
  reportable t → dom w = dom (written t) →
  (∀ id o, w !! id = Some o → object_id o = Done id) →
  (∀ id o o', w !! id = Some o → written t !! id = Some o' →
     is_package o = is_package o' ∧ owner o = owner o' ∧ object_version o = object_version o') →
  reportable (set_written w t).
Proof.
  intros [[[Hi Hst Hk] Hcr Hdel Hpk Hsh] Hsize] Hdom Hid Hsame.
  assert (∀ id o, w !! id = Some o → ∃ o', written t !! id = Some o') as Hold.
  { intros id o Ho. apply (elem_of_dom (D := gset ObjectID)). rewrite <-Hdom. apply elem_of_dom. by eexists. }
  split; [split|].
  - split; [by apply inputs_ok_results|done|done].
  - done.
  - unfold deleted, created, written. simpl. rewrite Hdom. done.
  - intros id o Ho Hp. destruct (Hold id o Ho) as [o' Ho'].
    destruct (Hsame id o o' Ho Ho') as (Hp' & -> & ->). rewrite Hp in Hp'. by apply (Hpk id o').
  - intros id o v Ho Hv. destruct (Hold id o Ho) as [o' Ho'].
    destruct (Hsame id o o' Ho Ho') as (_ & Ho'' & _). rewrite Ho'' in Hv. by apply (Hsh id o').
  - unfold touched, written, created, deleted, modified. simpl. rewrite Hdom. done.
Qed.
Lemma repriced_reportable s t : reportable t → reportable (repriced s t).
Proof.
  intros Hr. apply rewritten_reportable; [done|apply dom_fmap_L|..].
  - intros id o (o' & <- & Ho')%lookup_fmap_Some. exact (st_written _ (ro_store _ (proj1 Hr)) id o' Ho').
  - intros id o o' (o'' & <- & Ho'')%lookup_fmap_Some Ho'. by simplify_eq.
Qed.
Lemma paid_reportable t id o v :
  reportable t → written t !! id = Some o → coin_object o → is_u64 v →
  reportable (set_exec (<[id := with_balance v o]> (written t)) (modified t) t).
Proof.
  intros Hr Ho Hco Hv. destruct (with_balance_ok o v Hco Hv) as (Hid & _).
  change (set_exec ?w (modified t) t) with (set_written w t).
  apply rewritten_reportable; [done|..].
  - rewrite dom_insert_L. apply elem_of_dom_2 in Ho. set_solver.
  - intros i p [[<- <-]|[_ Hp]]%lookup_insert_Some.
    + rewrite Hid. exact (st_written _ (ro_store _ (proj1 Hr)) id o Ho).
    + exact (st_written _ (ro_store _ (proj1 Hr)) i p Hp).
  - intros i p p' [[<- <-]|[_ Hp]]%lookup_insert_Some Hp'; simplify_eq; [|done].
    destruct Hco as (m & Hd & _). unfold with_balance, is_package, object_version. rewrite Hd. simpl. done.
Qed.

(** What charging leaves behind. *)
Lemma charged_reportable mb g t id t' :
  charge_pre mb g t id → executed_ok t → charged_store g t id t' →
  reportable t' ∧ ∃ o, written t' !! id = Some o ∧ is_package o = false.
Proof.
  intros Hpre Hex (base & o & v & s & -> & Ho & Hco & Hv & Hst & Hbase).
  assert (reportable base) as Hr.
  { assert (reportable (failed_store g t)) as Hf.
    { apply failed_reportable; [apply (st_inputs _ (cp_store _ _ _ _ Hpre))|apply (cp_charger _ _ _ _ Hpre)
        |apply (eo_inputs _ Hex)|]. eapply size_sub; [|apply (eo_size _ Hex)]. set_solver. }
    destruct Hbase as [->|[->| ->]]; [|by apply repriced_reportable|done].
    apply repriced_reportable, ensured_reportable; [apply (cp_store _ _ _ _ Hpre)|done]. }
  split; [by apply paid_reportable|]. exists (with_balance v o).
  unfold written at 1. simpl. rewrite lookup_insert_eq. split; [done|].
  destruct Hco as (m & Hd & _). unfold with_balance, is_package. by rewrite Hd.
Qed.

Lemma charged_results g t id t' : charged_store g t id t' → results_of t t'.
Proof.
  intros (base & o & v & s & -> & _ & _ & _ & _ & [->|[->| ->]]); [by eexists|..];
    destruct (failed_store_of g t) as [r ->]; by eexists.
Qed.
Lemma charged_modified g t id t' :
  charger_ok g t → charged_store g t id t' → modified t' ⊆ dom (mutable_input_refs t) ∪ modified t.
Proof.
  intros Hch (base & o & v & s & -> & _ & _ & _ & _ & Hbase). change (modified base ⊆ dom (mutable_input_refs t) ∪ modified t).
  destruct Hbase as [->|[->| ->]]; [done|change (modified (repriced ?s ?x)) with (modified x)|];
    rewrite failed_modified by done; set_solver.
Qed.

(** A transaction that is not executed leaves the smashed gas coins only. *)
Lemma smashed_executed g t :
  charger_ok g t → move_inputs t → Z.of_nat (size (dom (mutable_input_refs t))) ≤ 2 ^ 32 →
  executed_ok (smashed_store g t).
Proof.
  intros Hch Hmove Hsize. destruct (smashed_store_results g t) as [r Hr].
  assert (∀ id, id ∈ coin_ids g → id ∈ dom (mutable_input_refs t)) as Hcoin.
  { intros id Hid. apply elem_of_dom. by destruct (co_coins g t Hch id Hid) as (_ & _ & _ & ? & _). }
  assert (created (smashed_store g t) = ∅ ∧ deleted (smashed_store g t) ⊆ modified (smashed_store g t) ∧
    modified (smashed_store g t) ⊆ dom (mutable_input_refs t) ∧
    ∀ id o, written (smashed_store g t) !! id = Some o →
      id ∈ dom (mutable_input_refs t) ∧ (id ∉ deleted (smashed_store g t)) ∧ is_package o = false)
    as (Hcr & Hdm & Hm & Hw).
  { unfold smashed_store. pose proof (co_nodup g t Hch) as Hnd.
    destruct (coin_ids g) as [|first [|second others]] eqn:Hids; [split_and!; set_solver..|].
    destruct (co_coins g t Hch first) as (o & -> & (m & Hd & _) & _); [rewrite Hids; left|].
    unfold created, deleted, modified, written. simpl. split_and!; [done|set_solver| |].
    - intros id Hid. apply Hcoin. set_solver.
    - intros id o' [<- <-]%lookup_singleton_Some. apply NoDup_cons in Hnd as [Hnd _].
      split_and!; [apply Hcoin; left|set_solver|]. unfold with_balance, is_package. by rewrite Hd. }
  assert (mutable_input_refs (smashed_store g t) = mutable_input_refs t) as Hrefs by by rewrite Hr.
  split.
  - unfold move_inputs. rewrite Hrefs. assert (input_objects (smashed_store g t) = input_objects t) as -> by by rewrite Hr.
    exact Hmove.
  - rewrite Hcr. set_solver.
  - rewrite Hcr. apply elem_of_disjoint. intros id Hd [?|[o Ho]%elem_of_dom]%elem_of_union; [set_solver|].
    by destruct (Hw id o Ho) as (_ & ? & _).
  - intros id Hd _. by apply Hdm.
  - intros id o Ho Hp. destruct (Hw id o Ho) as (_ & _ & ?). congruence.
  - rewrite Hcr. set_solver.
  - rewrite Hrefs. eapply size_sub; [|done]. unfold touched. rewrite Hcr. intros id.
    rewrite !elem_of_union. intros [[[[?|?]|?]|[o Ho]%elem_of_dom]|?]; [set_solver|by apply Hm, Hdm|by apply Hm| |done].
    by destruct (Hw id o Ho).
Qed.
End stores.

(** * The composition *)

Section composition.
Context {Hback : BackingStore} {Hhash : ObjectHash} {Hbcs : BcsSizes} {Hval : ObjectValues} {Hev : EventsHash}.
Context {A : Type}.

Lemma shared_inputs_ok objects :
  Forall read_ok objects →
  ∃ shared, filter_shared_objects objects = Done shared ∧
    (contains_deleted_objects objects = false →
       Forall (λ i, match i with SharedInputExisting _ => True | _ => False end) shared).
Proof.
  unfold filter_shared_objects. induction 1 as [|r objects Hr Hall IH]; [by exists []|].
  destruct IH as (shared & Hs & Hd). rewrite filter_cons.
  destruct r as [[id|[[id v] dg]|id v m] k]; cbn [input_object_kind kind_is_shared decide].
  1, 2: rewrite decide_False by done; exists shared; split; [done|]; intros Hc; apply Hd; by apply orb_false_iff in Hc as [_ ?].
  rewrite decide_True by done. destruct k as [o|w tx]; cbn [mapM to_shared_input input_object_kind read_object_kind].
  - unfold compute_object_reference. unfold read_ok in Hr. simpl in Hr. rewrite Hr. rewrite !bind_ret_l. simpl.
    rewrite Hs. simpl. eexists. split; [done|]. intros Hc. constructor; [done|by apply Hd].
  - rewrite bind_ret_l. simpl. rewrite Hs. simpl. eexists. by split.
Qed.
Lemma start_move_inputs ms mr config d objects t :
  inputs_stored ms mr config d objects → is_system_tx (tx_kind d) = false → objects_acceptable d objects →
  input_objects t = into_object_map objects → mutable_input_refs t = refs_of objects → move_inputs t.
Proof.
  intros Hst Huser Hacc Hin Href id o. rewrite Hin, Href.
  intros (r & Hr & Hid & Hm & o' & Ho')%refs_of_lookup (r' & Hr' & Hid' & Ho)%object_map_in.
  destruct (is_package o) eqn:Hp; [|done].
  pose proof (sd_package _ _ _ (is_stored _ _ _ _ _ Hst r' o Hr' Ho) Hp) as Himm.
  rewrite (is_frozen _ _ _ _ _ Hst r' r o o') in Himm by (done || congruence). exfalso.
  unfold read_mutable, as_object in *. destruct (read_object_kind r) as [x|] eqn:Hk; simplify_eq/=.
  pose proof (oa_each _ _ Hacc r o' Hr Hk) as Ha. rewrite Huser in Ha. unfold acceptable in Ha.
  unfold is_immutable in *. destruct (input_object_kind r) as [i|[[i v] dg]|i v m]; [done| |].
  - by rewrite Himm in Hm.
  - destruct (system_input i v m); [done|]. destruct Ha as [_ Ha]. by rewrite Ha in Himm.
Qed.

Lemma new_store_inputs objects receiving digest t :
  Forall read_ok objects → TemporaryStore_new objects receiving digest = Done t →
  input_objects t = into_object_map objects ∧ mutable_input_refs t = refs_of objects.
Proof.
  intros Hread. unfold TemporaryStore_new. rewrite mutable_inputs_ok by done. rewrite bind_ret_l.
  intros (lamport & _ & [= <-])%bind_Done. done.
Qed.

(** ** Ownership of the inputs *)

Section ownership.
Context (ms mr : Z) (config : ProtocolConfig) (d : TransactionData) (objects : list ObjectReadResult).
Context (Hread : Forall read_ok objects) (Hst : inputs_stored ms mr config d objects).
Context (Huser : is_system_tx (tx_kind d) = false) (Hacc : objects_acceptable d objects).

Definition gas_set : gset ObjectID := list_to_set (map (λ r : ObjectRef, r.1.1) (tx_gas d)).

Lemma inputs_authorised id o :
  into_object_map objects !! id = Some o → authorised (tx_sender d) gas_set id o.
Proof.
  intros (r & Hr & <- & Ho)%object_map_in. unfold authorised.
  destruct (decide (read_id r ∈ gas_set)) as [?|Hgas]; [by left|right].
  assert (tx_user d (read_id r) = tx_sender d) as Hsender.
  { unfold tx_user. rewrite bool_decide_false; [done|]. unfold gas_set in Hgas. by rewrite elem_of_list_to_set in Hgas. }
  unfold as_object in Ho. destruct (read_object_kind r) as [x|] eqn:Hk; simplify_eq/=.
  pose proof (oa_each _ _ Hacc r o Hr Hk) as Ha. rewrite Huser, Hsender in Ha. unfold acceptable in Ha.
  destruct (input_object_kind r) as [i|[[i v] dg]|i v m].
  - assert (is_immutable o = true) as Himm.
    { apply (sd_package ms mr); [|done]. apply (is_stored _ _ _ _ _ Hst r o Hr). unfold as_object. by rewrite Hk. }
    unfold is_immutable in Himm. by destruct (owner o).
  - destruct Ha as (_ & _ & _ & [->| ->]); done.
  - destruct (system_input i v m); [done|]. by destruct Ha as [_ ->].
Qed.
Lemma mutable_root id :
  id ∈ dom (refs_of objects) → id ∉ gas_set →
  ∃ o, into_object_map objects !! id = Some o ∧ is_root gas_set (dom (refs_of objects)) id o.
Proof.
  intros Hid Hgas. pose proof Hid as (r & Hr & <- & Hm & Ho)%elem_of_dom%refs_of_lookup.
  destruct (object_map_dom objects r Hr Ho) as [o' Ho']. exists o'. split; [done|]. split_and!; [done..|].
  apply object_map_in in Ho' as (r' & Hr' & Hid' & Ho'). destruct Ho as [o Ho].
  assert (is_immutable o' = false) as Himm; [|by intros Hi; unfold is_immutable in Himm; rewrite Hi in Himm].
  rewrite (is_frozen _ _ _ _ _ Hst r' r o' o) by done.
  unfold as_object in Ho. destruct (read_object_kind r) as [x|] eqn:Hk; simplify_eq/=.
  pose proof (oa_each _ _ Hacc r o Hr Hk) as Ha. rewrite Huser in Ha. unfold acceptable, read_mutable in *.
  rewrite Hk in Hm. destruct (input_object_kind r) as [i|[[i v] dg]|i v m]; [done| |].
  - by apply negb_true_iff in Hm.
  - destruct (system_input i v m); [done|]. unfold is_immutable. by destruct Ha as [_ ->].
Qed.
End ownership.

(** What a store modifies lies below the mutable inputs: everything but the gas
    coins is owned by them, through containers and parents, and the chains stay
    in a set small enough for [fuel]. *)
Definition writes_owned (d : TransactionData) (objects : list ObjectReadResult) (fuel : nat)
    (t : TemporaryStore) : Prop :=
  mutable_input_refs t = refs_of objects ∧
  ∃ U : gset ObjectID,
    (∀ id parent, id ∈ U → covering t id = Some parent → parent ∈ U) ∧
    dom (refs_of objects) ∪ modified t ⊆ U ∧
    (size (dom (refs_of objects) ∪ modified t) + size U < fuel)%nat ∧
    ∀ id, id ∈ modified t → id ∉ gas_set d →
      owned t false (λ i, ∃ o, input_objects t !! i = Some o ∧
        is_root (gas_set d) (dom (refs_of objects)) i o) id.

Lemma ownership_checked ms mr config d objects fuel g t g' t' id :
  inputs_stored ms mr config d objects → is_system_tx (tx_kind d) = false → objects_acceptable d objects →
  charger_ok g t → charged_store g t id t' → input_objects t = into_object_map objects →
  writes_owned d objects fuel t → coin_ids g' = map (λ r : ObjectRef, r.1.1) (tx_gas d) →
  check_ownership_invariants t' fuel (tx_sender d) g' (dom (refs_of objects)) false = Done (Ok ()).
Proof.
  intros Hst Huser Hacc Hch Hcs Hin (Href & U & Hclosed & HU & Hfuel & Hown) Hgas.
  pose proof (charged_modified g t id t' Hch Hcs) as Hmod. rewrite Href in Hmod.
  destruct (charged_results g t id t' Hcs) as [r ->].
  apply (ownership_accepts (set_results r t) false _ _ _ U); unfold coin_ids in Hgas; rewrite ?Hgas.
  - exact Hclosed.
  - set_solver.
  - assert (size (modified (set_results r t)) ≤ size (dom (refs_of objects) ∪ modified t))%nat
      by (by apply subseteq_size). lia.
  - intros i o. change (input_objects (set_results r t)) with (input_objects t). rewrite Hin.
    by eapply inputs_authorised.
  - intros i Hi Hg. change (input_objects (set_results r t)) with (input_objects t).
    destruct (decide (i ∈ dom (refs_of objects))) as [Hr|Hr].
    + apply owned_root. rewrite Hin. by eapply mutable_root.
    + apply owned_results, Hown; [set_solver|done].
Qed.

(** What the execution of the commands of a checked transaction has to keep to.
    With the expensive checks on, it must not mint or burn MGO, and outside of
    the modes that may call any function it must modify only what the inputs
    own. *)
Definition commands_contract (mode : ExecutionMode) (config : ProtocolConfig) (d : TransactionData)
    (objects : list ObjectReadResult) (s : V2.MgoGasStatus) (digest : TransactionDigest)
    (expensive : bool) (fuel : nat)
    (loop : GasCharger → TemporaryStore → exec (GasCharger * TemporaryStore * result A ExecutionError))
    : Prop :=
  ∀ first t,
    head (map (λ r : ObjectRef, r.1.1) (tx_gas d)) = Some first →
    TemporaryStore_new objects (tx_receiving_objects d) digest = Done t →
    let g := set_smashed (Some first) (GasCharger_new digest (tx_gas d) s config) in
    loop_contract (pc_max_gas_computation_bucket config) first g (smashed_store g t) loop ∧
    (∀ gs g' t' r, loop (with_meter gs g) (smashed_store g t) = Done (g', t', r) → executed_ok t') ∧
    (expensive = true → loop_keeps_mgo g (smashed_store g t) loop ∧
       (allow_arbitrary_function_calls mode = false →
          writes_owned d objects fuel (smashed_store g t) ∧
          ∀ gs g' t' r, loop (with_meter gs g) (smashed_store g t) = Done (g', t', r) →
            writes_owned d objects fuel t')).

(** C5: A checked transaction has effects.  For a user transaction that passed
    the checks before signing on the objects read for it, and for every
    execution of its commands that keeps its contract, execution neither panics
    nor loses MGO: it returns effects that describe the store it leaves, the
    storage rebates of that store balance against the gas summary in the
    effects, the sender pays at most the budget of the transaction, the status is
    a success exactly when the result is, and a failed transaction creates
    nothing.  With the expensive checks on, where the contract also asks the
    commands to keep MGO and to modify only what the inputs own, the ownership
    check passes as well, and all MGO, in objects, rebates and fees, is the same
    before and after. *)
Theorem checked_transaction_effects ms mr config rgp d objects s digest mode epoch expensive deny fuel loop :
  is_system_tx (tx_kind d) = false →
  tx_input_objects d = Done (Ok (map input_object_kind objects)) →
  Forall read_ok objects → inputs_stored ms mr config d objects →
  config_ok config (gd_price (gas_data d)) → is_u64 (gd_budget (gas_data d)) →
  (pc_enable_effects_v2 config = false → contains_deleted_objects objects = false) →
  Z.of_nat (length objects) ≤ 2 ^ 32 →
  check_transaction_input_inner config rgp d objects [] = Done (Ok s) →
  commands_contract mode config d objects s digest expensive fuel loop →
  ∃ g t res e,
    execute_transaction_to_effects mode config objects (tx_gas d) s (tx_kind d) (tx_sender d) digest
      epoch expensive deny fuel loop = Done (into_inner (updated t), gc_status g, e, res) ∧
    describes (updated t) g e ∧ check_mgo_conserved t true (eff_gas_cost_summary e) = Done (Ok ()) ∧
    (expensive = true → mgo_conserved t (eff_gas_cost_summary e)) ∧
    net_usage (eff_gas_cost_summary e) ≤ gd_budget (gas_data d) ∧
    (eff_status e = Success ↔ is_ok res = true) ∧ (is_ok res = false → eff_created e = []).
Proof.
  intros Huser Hkinds Hread Hst Hcfg Hb Hv1 Hlen Hcheck Hloop.
  destruct (checked_run_pre ms mr config rgp d objects s digest Huser Hkinds Hread Hst Hcfg Hb Hcheck)
    as (first & t & Hfirst & Ht & Hrun & Hbudget).
  destruct (check_inner_inv config rgp d objects s Hread Hcheck) as (_ & _ & Hacc).
  destruct (Hloop first t Hfirst Ht) as (Hcontract & Hexec & Hexp). clear Hloop.
  destruct (new_store_inputs objects _ digest t Hread Ht) as [Hin Href].
  destruct (shared_inputs_ok objects Hread) as (shared & Hsh & Hshared).
  set (run := {| run_deny_cert := is_certificate_denied digest deny;
    run_contains_deleted_input := contains_deleted_objects objects; run_is_genesis := false;
    run_skip_conservation := skip_conservation_checks mode; run_expensive_checks := expensive;
    run_advance_epoch := None |}).
  destruct (execute_conserves _ config run loop _ t first Hrun Hcontract) as
    (g' & t' & c & res & p & Hex & Hcons & Hvals & Hnet & _ & _ & Hfail & _ & Hsm & Hids &
     g2 & t2 & Hcs & Hpre & Hc2 & Hi2 & Hor).
  { intros Hflag. split; [done|]. by apply Hexp. }
  assert (executed_ok t2) as Hok2.
  { destruct Hor as [->|(gs & r & Hl)]; [|by eapply Hexec]. apply smashed_executed.
    - apply (cp_charger _ _ _ _ (rp_charge _ _ _ _ Hrun)).
    - by eapply start_move_inputs.
    - rewrite Href. pose proof (refs_of_size objects) as Hsz.
      rewrite <-size_dom in Hsz. lia. }
  destruct (charged_reportable _ g2 t2 first t' Hpre Hok2 Hcs) as ([Hok Hsize] & Hcoin).
  assert (expensive && negb (allow_arbitrary_function_calls mode) = true →
    check_ownership_invariants t' fuel (tx_sender d) g' (dom (refs_of objects)) false = Done (Ok ())) as Hown.
  { intros [Hflag Hmode%negb_true_iff]%andb_true_iff. destruct (Hexp Hflag) as [_ Hw].
    destruct (Hw Hmode) as [Hw0 Hw2]. eapply (ownership_checked ms mr config d objects fuel g2 t2); try done.
    - apply (cp_charger _ _ _ _ Hpre).
    - by rewrite Hi2.
    - destruct Hor as [->|(gs & r & Hl)]; [done|by eapply Hw2]. }
  destruct (into_effects_ok config t' shared digest (transaction_dependencies objects ∖ {[genesis_marker]})
    c (match res with Ok _ => Success | Err e => Failure e end) g' epoch Hok) as
    (e & Heff & Hdesc & Hstat & _ & Hsum & _); [|done|by auto|].
  { intros id. rewrite Hsm. by intros [= <-]. }
  exists g', t', res, e. rewrite Hsum, Hstat, <-Hbudget. split_and!; try done.
  - unfold execute_transaction_to_effects. rewrite mutable_inputs_ok by done.
    assert ((if expensive then refs ← Done (refs_of objects); Done (dom refs) else Done (∅ : gset ObjectID)) =
      Done (if expensive then dom (refs_of objects) else ∅)) as -> by by destruct expensive.
    rewrite bind_ret_l, Hsh, bind_ret_l.
    unfold tx_receiving_objects in Ht. rewrite Ht, bind_ret_l.
    destruct (tx_kind d) as [pt|?|?|?|?|?|?|?] eqn:Hk; try done.
    cbn [get_advance_epoch_tx_gas_summary]. rewrite bind_ret_l. cbv zeta. fold run.
    rewrite Hex, bind_ret_l. cbn beta iota zeta. cbn [is_end_of_epoch_tx].
    destruct (expensive && negb (allow_arbitrary_function_calls mode)) eqn:Hflag.
    + apply andb_true_iff in Hflag as Hflag'. destruct Hflag' as [-> _]. rewrite Hown by done. rewrite !bind_ret_l.
      by rewrite Heff, bind_ret_l.
    + rewrite bind_ret_l. by rewrite Heff, bind_ret_l.
  - intros Hflag. apply Hvals. by apply Hexp.
  - by destruct res.
  - intros Hf. destruct (Hfail Hf) as (_ & Hcr & _). rewrite (ds_created _ _ _ Hdesc).
    unfold created_outputs. change (created (updated t')) with (created t'). rewrite Hcr.
    induction (bset_iter Z.le (touched (updated t'))) as [|i l IH]; [done|]. rewrite list_omap_cons, IH.
    destruct (written (updated t') !! i); [|done]. simpl. by rewrite decide_False by set_solver.
Qed.
End composition.
