(* ===== verification/TransactionExample.v ===== *)
(** A concrete transaction from the checks before signing to its effects: the
    run of [GasExample], asked for by a programmable transaction that uses an
    owned object, a shared object read-only, and pays with two coins. *)
From S2P Require Import Prelude MapSums Objects Errors.
From S2P Require Import MgoGas TransactionData TransactionValidity TransactionChecks.
From S2P Require Import CheckedInputs TemporaryStore ExecutionEngine GasConservation.
From S2P Require Import ValueConservation GasTheorems GasExample Effects.
From S2P Require Import EffectsTheorems CheckedExecution Ownership CheckedEffects.

#[export] Instance example_events : EventsHash := λ l, Z.of_nat (length l).

(** * The transaction *)

Definition example_pt : ProgrammableTransaction := {|
  pt_inputs := [CallObject (ImmOrOwnedObject (1003, 3, 950003)); Pure (repeat 7 32)];
  pt_commands := [TransferObjects [Input 0] (Input 1)] |}.
Definition example_tx : TransactionData := {|
  tx_kind := TkProgrammableTransaction example_pt;
  tx_sender := 9;
  gas_data := {| payment := [(1001, 3, 988003); (1002, 3, 988003)]; gas_owner := 9;
                 gd_price := 1000; gd_budget := 20000000 |};
  tx_expiration := ExpirationNone |}.
Definition example_objects : list ObjectReadResult := [
  read_input 1003 (owned_input 1003);
  read_input 1001 (coin_input 1001 15000000 988000);
  read_input 1002 (coin_input 1002 20000000 988000) ].

(** ** Checks *)


Definition shared_tx : TransactionData := {|
  tx_kind := TkProgrammableTransaction {|
    pt_inputs := [CallObject (SharedObject 6 1 false); CallObject (ImmOrOwnedObject (1003, 3, 950003));
                  CallObject (SharedObject 77 4 true)];
    pt_commands := [] |};
  tx_sender := 9; gas_data := gas_data example_tx; tx_expiration := ExpirationNone |}.
Lemma shared_inputs_agree_witness :
  ∃ inputs, tx_input_objects shared_tx = Done (Ok inputs) ∧
    omap as_shared_input inputs = kind_shared_input_objects (tx_kind shared_tx) ∧
    length (kind_shared_input_objects (tx_kind shared_tx)) = 2%nat.
Proof.
  eexists. split; [vm_compute; reflexivity|]. split; [|reflexivity].
  apply (shared_inputs_agree shared_tx). vm_compute. reflexivity.
Defined.

Lemma example_objects_read : Forall read_ok example_objects.
Proof. repeat constructor. Qed.
Lemma check_objects_exact_witness :
  decides (check_objects example_tx example_objects) (objects_acceptable example_tx example_objects) ∧
  check_objects example_tx example_objects = Done (Ok ()).
Proof.
  split; [|vm_compute; reflexivity].
  apply (check_objects_exact example_tx example_objects). apply example_objects_read.
Defined.

(** ** Execution *)

Definition stored_check (max_size max_rebate : Z) (o : Object) : bool :=
  (0 <=? storage_rebate o) && (storage_rebate o <=? max_rebate) &&
  (0 <=? object_size_for_gas_metering o) && (object_size_for_gas_metering o <=? max_size) &&
  match data o with
  | Move m => forallb (λ b, (0 <=? b) && (b <? 256)) (contents m)
  | Package _ => is_immutable o
  end &&
  match object_id o with Done id => negb (id =? 0) | _ => true end.
Lemma stored_check_ok ms mr o : stored_check ms mr o = true → stored ms mr o.
Proof.
  unfold stored_check. rewrite !andb_true_iff, !Z.leb_le. intros (((((? & ?) & ?) & ?) & Hd) & Hid).
  split; [done|done| | |].
  - intros m Hm. rewrite Hm in Hd. rewrite forallb_forall in Hd. apply Forall_forall.
    intros b Hb%list_elem_of_In%Hd. rewrite andb_true_iff, Z.leb_le, Z.ltb_lt in Hb. done.
  - intros Hz. by rewrite Hz in Hid.
  - unfold is_package. destruct (data o); [done|]. by intros _.
Qed.
Lemma example_objects_stored : inputs_stored 500 1000000 sample_config example_tx example_objects.
Proof.
  assert (∀ r, r ∈ example_objects →
    match read_object_kind r with ReadObject o => stored_check 500 1000000 o && negb (is_immutable o) | _ => false end
      = true) as Hall.
  { apply Forall_forall. do 3 (constructor; [vm_compute; reflexivity|]). constructor. }
  assert (∀ r o, r ∈ example_objects → as_object r = Some o →
    stored_check 500 1000000 o = true ∧ is_immutable o = false) as Hst.
  { intros r o Hr Ho. specialize (Hall r Hr). unfold as_object in Ho.
    destruct (read_object_kind r); [|done]. injection Ho as ->.
    by rewrite andb_true_iff, negb_true_iff in Hall. }
  split.
  - intros r o Hr Ho. by apply stored_check_ok, (Hst r o).
  - intros r r' o o' Hr Hr' _ Ho Ho'. destruct (Hst r o Hr Ho) as [_ ->]. by destruct (Hst r' o' Hr' Ho') as [_ ->].
  - intros r v tx Hr Hk. specialize (Hall r Hr). by rewrite Hk in Hall.
  - intros r Hr. by apply elem_of_nil in Hr.
  - done.
  - vm_compute. discriminate.
  - vm_compute. discriminate.
  - vm_compute. discriminate.
Qed.

(** The boolean reading of [executed_ok]. *)
Definition executed_check (t : TemporaryStore) : bool :=
  bool_decide (created t ## modified t ∪ dom (mutable_input_refs t)) &&
  bool_decide (deleted t ## created t ∪ dom (written t)) &&
  bool_decide (deleted t ⊆ modified t) &&
  all_objects (λ _ o, negb (is_package o)) (input_objects t) &&
  all_objects (λ _ o, negb (is_package o) && match owner o with Shared _ => false | _ => true end) (written t) &&
  (Z.of_nat (size (touched t ∪ dom (mutable_input_refs t))) <=? 2 ^ 32).
Lemma executed_check_ok t : executed_check t = true → executed_ok t.
Proof.
  unfold executed_check. rewrite !andb_true_iff, !bool_decide_eq_true, Z.leb_le.
  intros (((((? & ?) & Hsub) & Hin) & Hw) & ?).
  assert (∀ id o, written t !! id = Some o →
    is_package o = false ∧ match owner o with Shared _ => false | _ => true end = true) as Hwr.
  { intros id o Ho. pose proof (all_objects_true _ _ Hw id o Ho) as Hc.
    by rewrite andb_true_iff, negb_true_iff in Hc. }
  split; try done.
  - intros id o _ Ho. apply negb_true_iff. exact (all_objects_true _ _ Hin id o Ho).
  - intros id Hid _. by apply Hsub.
  - intros id o Ho Hp. destruct (Hwr id o Ho). congruence.
  - intros id o v Ho Hv _. destruct (Hwr id o Ho) as [_ Hs]. by rewrite Hv in Hs.
Qed.

Definition example_ids : gset ObjectID := {[1001; 1002; 1003]}.

(** The owners of the inputs, by the identifiers the database knows. *)
Lemma example_owned t :
  results_of example_store t → modified t ⊆ example_ids → writes_owned example_tx example_objects 100 t.
Proof.
  intros [r ->] Hm. split; [vm_compute; reflexivity|].
  assert (dom (refs_of example_objects) = example_ids) as Hdom by (vm_compute; reflexivity).
  assert (gas_set example_tx = {[1001; 1002]}) as Hgas by (vm_compute; reflexivity).
  exists example_ids. rewrite Hdom. split_and!.
  - intros id parent _. unfold covering.
    assert (wrapped_object_containers (set_results r example_store) = ∅) as -> by (vm_compute; reflexivity).
    by rewrite lookup_empty.
  - set_solver.
  - assert (size (example_ids ∪ modified (set_results r example_store)) ≤ size example_ids)%nat
      by (apply subseteq_size; set_solver).
    assert (size example_ids = 3)%nat by (vm_compute; reflexivity). lia.
  - intros id Hid. rewrite Hgas. intros Hg. apply owned_root. assert (id = 1003) as -> by (unfold example_ids in Hm; set_solver).
    exists (owned_input 1003). split; [vm_compute; reflexivity|]. split_and!; [set_solver|unfold example_ids; set_solver|done].
Qed.

Lemma example_commands mode :
  commands_contract mode sample_config example_tx example_objects sample_gas_status 7 true 100 example_loop.
Proof.
  intros first t Hfirst Ht. injection Hfirst as <-.
  assert (TemporaryStore_new example_objects (tx_receiving_objects example_tx) 7 = Done example_store) as Heq
    by (vm_compute; reflexivity).
  rewrite Heq in Ht. injection Ht as <-.
  assert (∀ gs g' t' r, example_loop (with_meter gs example_smashed) (smashed_store example_smashed example_store) =
    Done (g', t', r) → t' = example_executed) as Hend.
  { intros gs g' t' r Hl.
    assert (example_effects (smashed_store example_smashed example_store) = Done example_executed) as He
      by (vm_compute; reflexivity).
    unfold example_loop in Hl. rewrite He in Hl. by injection Hl. }
  split; [exact example_loop_contract|]. split.
  - intros gs g' t' r ->%Hend. apply executed_check_ok. vm_compute. reflexivity.
  - intros _. split; [exact example_loop_keeps|]. intros _. split.
    + apply example_owned; [apply smashed_store_results|]. apply (bool_decide_unpack _). by vm_compute.
    + intros gs g' t' r ->%Hend. apply example_owned; [apply example_executed_of|].
      apply (bool_decide_unpack _). by vm_compute.
Qed.

Lemma checked_transaction_effects_witness :
  ∃ g t res e,
    execute_transaction_to_effects {| allow_arbitrary_function_calls := false; skip_conservation_checks := false |}
      sample_config example_objects (tx_gas example_tx) sample_gas_status (tx_kind example_tx)
      (tx_sender example_tx) 7 12 true ∅ 100 example_loop = Done (into_inner (updated t), gc_status g, e, res) ∧
    describes (updated t) g e ∧ check_mgo_conserved t true (eff_gas_cost_summary e) = Done (Ok ()) ∧
    mgo_conserved t (eff_gas_cost_summary e).
Proof.
  destruct (checked_transaction_effects 500 1000000 sample_config 1000 example_tx example_objects
    sample_gas_status 7 {| allow_arbitrary_function_calls := false; skip_conservation_checks := false |}
    12 true ∅ 100 example_loop) as (g & t & res & e & He & Hd & Hc & Hm & _).
  - reflexivity.
  - vm_compute. reflexivity.
  - apply example_objects_read.
  - apply example_objects_stored.
  - exact sample_config_ok.
  - split; vm_compute; discriminate.
  - discriminate.
  - vm_compute. discriminate.
  - vm_compute. reflexivity.
  - apply example_commands.
  - exists g, t, res, e. split; [exact He|]. split; [exact Hd|]. split; [exact Hc|apply Hm; reflexivity].
Defined.

Lemma example_reportable : reportable (ensured example_executed).
Proof.
  apply ensured_reportable; [apply store_check_ok|apply executed_check_ok]; vm_compute; reflexivity.
Qed.
Lemma effects_exact_witness :
  ∃ e, into_effects sample_config (ensured example_executed) [] 7 {[5]} summary_default Success
      example_smashed 12 = Done (into_inner (updated (ensured example_executed)), e) ∧
    describes (updated (ensured example_executed)) example_smashed e.
Proof.
  destruct (effects_exact sample_config (ensured example_executed) [] 7 {[5]} summary_default Success
    example_smashed 12) as (e & He & Hd & _).
  - apply example_reportable.
  - intros id [= <-]. exists example_coin. split; vm_compute; reflexivity.
  - apply example_reportable.
  - discriminate.
  - exists e. split; [exact He|exact Hd].
Defined.

(** * The version reported by the first format *)

(** A coin at version 3 and a shared object at version 20 that is only read. *)
Definition reader_inputs : list ObjectReadResult := [
  read_input 1001 (coin_input 1001 15000000 988000);
  {| input_object_kind := KSharedMoveObject 77 1 false;
     read_object_kind := ReadObject {|
       data := Move {| type_ := StakedMgo; has_public_transfer := false; mo_version := 20;
                       contents := id_to_bytes 77 |};
       owner := Shared 1; previous_transaction := 5; storage_rebate := 100 |} |} ].
Definition reader_start : TemporaryStore :=
  match TemporaryStore_new reader_inputs [] 7 with Done t => t | _ => example_store end.
Definition reader_store : TemporaryStore := ensured reader_start.

Lemma reader_reportable : reportable reader_store.
Proof.
  apply ensured_reportable; [apply store_check_ok|apply executed_check_ok]; vm_compute; reflexivity.
Qed.
Lemma v1_lamport_understated_witness :
  ∃ e w, into_effects (sample_config_with false) reader_store [SharedInputExisting (77, 20, 120)] 7 {[5]}
      summary_default Success example_smashed 12 = Done (into_inner (updated reader_store), e) ∧
    eff_lamport_version e = Done w ∧ w < 21 ∧ store_lamport reader_store = 21.
Proof.
  destruct (v1_lamport_understated (sample_config_with false) reader_store [SharedInputExisting (77, 20, 120)] 7 {[5]}
    summary_default Success example_smashed 12) as (e & w & He & Hw & Hle & Hiff & _).
  - apply reader_reportable.
  - intros id [= <-]. exists (coin_input 1001 15000000 988000). split; vm_compute; reflexivity.
  - apply reader_reportable.
  - reflexivity.
  - repeat constructor.
  - intros id Hid. assert (id = 1001) as ->; [|split; vm_compute; [discriminate|reflexivity]].
    assert (modified reader_store = {[1001]}) as Hm by (vm_compute; reflexivity).
    rewrite Hm in Hid. by apply elem_of_singleton in Hid.
  - split; vm_compute; [reflexivity|discriminate].
  - exists e, w. split; [exact He|]. split; [exact Hw|].
    assert (store_lamport reader_store = 21) as Hl by (vm_compute; reflexivity). rewrite Hl in Hle, Hiff.
    split; [|exact Hl]. apply Z.le_neq. split; [exact Hle|]. intros (id & Hid & Hv)%Hiff.
    assert (modified reader_store = {[1001]}) as Hm by (vm_compute; reflexivity).
    rewrite Hm in Hid. apply elem_of_singleton in Hid as ->. vm_compute in Hv. discriminate.
Defined.
