(* ===== verification/TransactionManager.v ===== *)
(** The transaction manager of a validator: certificates wait for their input
    objects and are handed to the execution driver when all are available
    (mgo-core/src/transaction_manager.rs).

    [enqueue_impl] of the source takes the lock twice and reads the database in
    between; it is split into the three parts that other threads can interleave
    with.  The LRU cache and the insertion-ordered map come from third-party
    crates and are classes here; metrics and map capacities have no effect on
    the results and are left out.  A critical section reads the clock once, as
    its argument [now]. *)
From S2P Require Import Prelude Objects.

(** * Input keys *)

Inductive InputKey :=
  | VersionedObject (id : ObjectID) (version : SequenceNumber)
  | PackageKey (id : ObjectID).
#[export] Instance InputKey_eq_dec : EqDecision InputKey.
Proof. solve_decision. Defined.
#[export] Instance InputKey_countable : Countable InputKey.
Proof.
  apply (inj_countable' (λ k, match k with VersionedObject i v => inl (i, v) | PackageKey i => inr i end)
    (λ s, match s with inl (i, v) => VersionedObject i v | inr i => PackageKey i end)).
  by intros [].
Defined.

Definition key_id (k : InputKey) : ObjectID :=
  match k with VersionedObject id _ => id | PackageKey id => id end.
Definition key_version (k : InputKey) : option SequenceNumber :=
  match k with VersionedObject _ v => Some v | PackageKey _ => None end.
(** The derived order of the enum: by variant, then by field. *)
Definition key_le (a b : InputKey) : Prop :=
  match a, b with
  | VersionedObject i v, VersionedObject j w => i < j ∨ i = j ∧ v ≤ w
  | VersionedObject _ _, PackageKey _ => True
  | PackageKey _, VersionedObject _ _ => False
  | PackageKey i, PackageKey j => i ≤ j
  end.
#[export] Instance key_le_dec : RelDecision key_le.
Proof. intros [] []; simpl; apply _. Defined.

Abbreviation Instant := Z (only parsing).
Abbreviation TransactionEffectsDigest := Z (only parsing).

(** * Third-party containers *)

(** An unbounded [LruCache]: [push] returns the entry it replaced, [get] makes
    an entry the most recent one, [pop_lru] drops the least recent one. *)
Class LruCache := {
  lru : Type → Type;
  lru_unbounded {V} : lru V;
  lru_push {V} : ObjectID → V → lru V → lru V * option (ObjectID * V);
  lru_put {V} : ObjectID → V → lru V → lru V;
  lru_get {V} : ObjectID → lru V → lru V * option V;
  lru_pop_lru {V} : lru V → lru V;
  lru_len {V} : lru V → nat;
}.
Class LruLaws `{!LruCache} := {
  lru_map {V} : lru V → gmap ObjectID V;
  lru_map_unbounded V : lru_map (V := V) lru_unbounded = ∅;
  lru_map_push V k (v : V) c :
    lru_map (lru_push k v c).1 = <[k := v]> (lru_map c) ∧
    (lru_push k v c).2 = pair k <$> lru_map c !! k;
  lru_map_put V k (v : V) c : lru_map (lru_put k v c) = <[k := v]> (lru_map c);
  lru_map_get V k (c : lru V) :
    lru_map (lru_get k c).1 = lru_map c ∧ (lru_get k c).2 = lru_map c !! k;
  lru_map_pop V (c : lru V) : lru_map (lru_pop_lru c) ⊆ lru_map c;
  lru_len_map V (c : lru V) : lru_len c = size (lru_map c);
  lru_len_pop V (c : lru V) : lru_len c ≠ 0%nat → S (lru_len (lru_pop_lru c)) = lru_len c;
}.

(** An [IndexMap] from transaction digests to times, in insertion order. *)
Class IndexMap := {
  index_map : Type;
  im_default : index_map;
  im_insert : TransactionDigest → Instant → index_map → index_map;
  im_shift_remove : TransactionDigest → index_map → index_map * option Instant;
  im_iter : index_map → list (TransactionDigest * Instant);
}.
Class IndexMapLaws `{!IndexMap} := {
  im_nodup m : NoDup (im_iter m).*1;
  im_iter_default : im_iter im_default = [];
  im_iter_insert k v m :
    im_iter (im_insert k v m) =
      if decide (k ∈ (im_iter m).*1)
      then map (λ e, if decide (e.1 = k) then (k, v) else e) (im_iter m)
      else im_iter m ++ [(k, v)];
  im_iter_remove k m :
    im_iter (im_shift_remove k m).1 = filter (λ e, e.1 ≠ k) (im_iter m) ∧
    (is_Some (im_shift_remove k m).2 ↔ k ∈ (im_iter m).*1);
}.

(** * The cache of available objects *)

Section manager.
Context {Hlru : LruCache} {Him : IndexMap}.

Record CacheInner := {
  versioned_cache : lru SequenceNumber;
  unversioned_cache : lru unit;
  max_size : Z;
}.
Definition CacheInner_new (max_size : Z) : CacheInner :=
  {| versioned_cache := lru_unbounded; unversioned_cache := lru_unbounded; max_size := max_size |}.

(** [while cache.len() > max_size { cache.pop_lru() }]; the length is enough
    fuel, since every turn shortens the cache. *)
Fixpoint pop_while {V} (fuel : nat) (max : Z) (c : lru V) : lru V :=
  match fuel with
  | O => c
  | S fuel => if max <? Z.of_nat (lru_len c) then pop_while fuel max (lru_pop_lru c) else c
  end.
Definition shrink (c : CacheInner) : CacheInner := {|
  versioned_cache := pop_while (lru_len (versioned_cache c)) (max_size c) (versioned_cache c);
  unversioned_cache := pop_while (lru_len (unversioned_cache c)) (max_size c) (unversioned_cache c);
  max_size := max_size c |}.

Definition cache_insert (object : InputKey) (c : CacheInner) : CacheInner :=
  match key_version object with
  | Some version =>
      let '(vc, previous) := lru_push (key_id object) version (versioned_cache c) in
      let vc :=
        match previous with
        | Some (previous_id, previous_version) =>
            if (previous_id =? key_id object) && (version <? previous_version)
            then lru_put (key_id object) previous_version vc else vc
        | None => vc
        end in
      {| versioned_cache := vc; unversioned_cache := unversioned_cache c; max_size := max_size c |}
  | None =>
      {| versioned_cache := versioned_cache c;
         unversioned_cache := (lru_push (key_id object) () (unversioned_cache c)).1;
         max_size := max_size c |}
  end.

Definition cache_is_object_available (object : InputKey) (c : CacheInner) : CacheInner * option bool :=
  match key_version object with
  | Some version =>
      let '(vc, current) := lru_get (key_id object) (versioned_cache c) in
      ({| versioned_cache := vc; unversioned_cache := unversioned_cache c; max_size := max_size c |},
       (λ current, version <=? current) <$> current)
  | None =>
      let '(uc, found) := lru_get (key_id object) (unversioned_cache c) in
      ({| versioned_cache := versioned_cache c; unversioned_cache := uc; max_size := max_size c |},
       (λ _, true) <$> found)
  end.

Record AvailableObjectsCache := { cache : CacheInner; unbounded_cache_enabled : nat }.
Definition AvailableObjectsCache_new_with_size (size : Z) : AvailableObjectsCache :=
  {| cache := CacheInner_new size; unbounded_cache_enabled := 0 |}.
Definition AvailableObjectsCache_new : AvailableObjectsCache :=
  AvailableObjectsCache_new_with_size 100000.
Definition enable_unbounded_cache (c : AvailableObjectsCache) : AvailableObjectsCache :=
  {| cache := cache c; unbounded_cache_enabled := S (unbounded_cache_enabled c) |}.
Definition disable_unbounded_cache (c : AvailableObjectsCache) : exec AvailableObjectsCache :=
  _ ← assert (0 <? unbounded_cache_enabled c)%nat;
  Done {| cache := cache c; unbounded_cache_enabled := pred (unbounded_cache_enabled c) |}.
Definition available_insert (object : InputKey) (c : AvailableObjectsCache) : AvailableObjectsCache :=
  let inner := cache_insert object (cache c) in
  {| cache := if (unbounded_cache_enabled c =? 0)%nat then shrink inner else inner;
     unbounded_cache_enabled := unbounded_cache_enabled c |}.
Definition is_object_available (object : InputKey) (c : AvailableObjectsCache)
    : AvailableObjectsCache * option bool :=
  let '(inner, r) := cache_is_object_available object (cache c) in
  ({| cache := inner; unbounded_cache_enabled := unbounded_cache_enabled c |}, r).

(** * Certificates and the manager's state *)

(** What the manager uses of an executable transaction. *)
Record Certificate := {
  cert_digest : TransactionDigest;
  cert_epoch : Z;
  cert_inputs : list InputObjectKind;
  cert_receiving : list ObjectRef;
}.
Record PendingCertificateStats := { enqueue_time : Instant; ready_time : option Instant }.
Record PendingCertificate := {
  certificate : Certificate;
  expected_effects_digest : option TransactionEffectsDigest;
  waiting_input_objects : gset InputKey;
  stats : PendingCertificateStats;
}.
Definition set_waiting (w : gset InputKey) (p : PendingCertificate) : PendingCertificate := {|
  certificate := certificate p; expected_effects_digest := expected_effects_digest p;
  waiting_input_objects := w; stats := stats p |}.
Definition set_ready_time (now : Instant) (p : PendingCertificate) : PendingCertificate := {|
  certificate := certificate p; expected_effects_digest := expected_effects_digest p;
  waiting_input_objects := waiting_input_objects p;
  stats := {| enqueue_time := enqueue_time (stats p); ready_time := Some now |} |}.

Record Inner := {
  inner_epoch : Z;
  missing_inputs : gmap InputKey (gset TransactionDigest);
  input_txns : gmap ObjectID index_map;   (* the source's [input_objects] *)
  available_objects_cache : AvailableObjectsCache;
  pending_certificates : gmap TransactionDigest PendingCertificate;
  executing_certificates : gset TransactionDigest;
}.
Definition Inner_new (epoch : Z) : Inner := {|
  inner_epoch := epoch; missing_inputs := ∅; input_txns := ∅;
  available_objects_cache := AvailableObjectsCache_new;
  pending_certificates := ∅; executing_certificates := ∅ |}.

Definition set_cache (c : AvailableObjectsCache) (i : Inner) : Inner := {|
  inner_epoch := inner_epoch i; missing_inputs := missing_inputs i; input_txns := input_txns i;
  available_objects_cache := c; pending_certificates := pending_certificates i;
  executing_certificates := executing_certificates i |}.
Definition set_missing (m : gmap InputKey (gset TransactionDigest)) (t : gmap ObjectID index_map)
    (i : Inner) : Inner := {|
  inner_epoch := inner_epoch i; missing_inputs := m; input_txns := t;
  available_objects_cache := available_objects_cache i;
  pending_certificates := pending_certificates i;
  executing_certificates := executing_certificates i |}.
Definition set_pending (p : gmap TransactionDigest PendingCertificate) (i : Inner) : Inner := {|
  inner_epoch := inner_epoch i; missing_inputs := missing_inputs i; input_txns := input_txns i;
  available_objects_cache := available_objects_cache i; pending_certificates := p;
  executing_certificates := executing_certificates i |}.
Definition set_executing (e : gset TransactionDigest) (i : Inner) : Inner := {|
  inner_epoch := inner_epoch i; missing_inputs := missing_inputs i; input_txns := input_txns i;
  available_objects_cache := available_objects_cache i;
  pending_certificates := pending_certificates i; executing_certificates := e |}.

(** What a call does besides changing the state: certificates sent to the
    execution driver, and digests removed from the recovery table. *)
Inductive TmEvent :=
  | Ready (p : PendingCertificate)
  | RemovePendingExecution (d : TransactionDigest).

(** * Waking up certificates *)

(** One waiting certificate has got [key]; it is ready if that was the last. *)
Definition wake (key : InputKey)
    (acc : gmap TransactionDigest PendingCertificate * list PendingCertificate)
    (digest : TransactionDigest)
    : exec (gmap TransactionDigest PendingCertificate * list PendingCertificate) :=
  pending_cert ← unwrap (acc.1 !! digest);
  _ ← assert (bool_decide (key ∈ waiting_input_objects pending_cert));
  let pending_cert := set_waiting (waiting_input_objects pending_cert ∖ {[key]}) pending_cert in
  if bool_decide (waiting_input_objects pending_cert = ∅)
  then Done (delete digest acc.1, acc.2 ++ [pending_cert])
  else Done (<[digest := pending_cert]> acc.1, acc.2).

Definition find_ready_transactions (input_key : InputKey) (update_cache : bool) (i : Inner)
    : exec (Inner * list PendingCertificate) :=
  let i := if update_cache
           then set_cache (available_insert input_key (available_objects_cache i)) i else i in
  match missing_inputs i !! input_key with
  | None => Done (i, [])
  | Some digests =>
      txns ← unwrap (input_txns i !! key_id input_key);
      txns ← foldM (λ m digest,
               let '(m, age_opt) := im_shift_remove digest m in
               _ ← assert (bool_decide (is_Some age_opt));
               Done m)
             txns (bset_iter Z.le digests);
      let i := set_missing (delete input_key (missing_inputs i))
        (if bool_decide (im_iter txns = []) then delete (key_id input_key) (input_txns i)
         else <[key_id input_key := txns]> (input_txns i)) i in
      '(pending, ready) ← foldM (wake input_key) (pending_certificates i, []) (bset_iter Z.le digests);
      Done (set_pending pending i, ready)
  end.

Definition certificate_ready (i : Inner) (p : PendingCertificate) : exec (Inner * TmEvent) :=
  _ ← assert (bool_decide (waiting_input_objects p = ∅));
  _ ← assert (bool_decide (cert_digest (certificate p) ∉ executing_certificates i));
  Done (set_executing ({[cert_digest (certificate p)]} ∪ executing_certificates i) i, Ready p).

Definition objects_available_locked (i : Inner) (store_epoch : Z) (input_keys : list InputKey)
    (update_cache : bool) (available_time : Instant) : exec (Inner * list TmEvent) :=
  if negb (inner_epoch i =? store_epoch) then Done (i, [])
  else
    foldM (λ acc input_key,
      '(i, ready) ← find_ready_transactions input_key update_cache acc.1;
      '(i, events) ← foldM (λ acc ready_cert,
         '(i, e) ← certificate_ready acc.1 (set_ready_time available_time ready_cert);
         Done (i, acc.2 ++ [e])) (i, []) ready;
      Done (i, acc.2 ++ events)) (i, []) input_keys.

Definition notify_commit (i : Inner) (digest : TransactionDigest) (output_object_keys : list InputKey)
    (store_epoch : Z) (commit_time : Instant) : exec (Inner * list TmEvent) :=
  if negb (inner_epoch i =? store_epoch) then Done (i, [])
  else
    '(i, events) ← objects_available_locked i store_epoch output_object_keys true commit_time;
    if bool_decide (digest ∈ executing_certificates i) then
      Done (set_executing (executing_certificates i ∖ {[digest]}) i,
            events ++ [RemovePendingExecution digest])
    else Done (i, events).

(** * Enqueueing *)

(** [AuthorityPerEpochStore::get_input_object_keys], with the versions assigned
    to the transaction's shared objects. *)
Definition get_input_object_key (shared_locks : gmap ObjectID SequenceNumber) (kind : InputObjectKind)
    : exec InputKey :=
  match kind with
  | KSharedMoveObject id _ _ =>
      version ← unwrap (shared_locks !! id);
      Done (VersionedObject id version)
  | KMovePackage id => Done (PackageKey id)
  | KImmOrOwnedMoveObject r => Done (VersionedObject r.1.1 r.1.2)
  end.
Definition get_input_object_keys (shared_locks : gmap ObjectID SequenceNumber)
    (objects : list InputObjectKind) : exec (gset InputKey) :=
  keys ← mapM (get_input_object_key shared_locks) objects;
  Done (list_to_set keys).

(** A certificate with the effects it must have and the keys it needs. *)
Abbreviation EnqueueEntry := (Certificate * option TransactionEffectsDigest * gset InputKey)%type (only parsing).
Abbreviation Availability := (gmap InputKey (option bool)) (only parsing).

Definition receiving_keys (c : Certificate) : list InputKey :=
  map (λ r : ObjectRef, VersionedObject r.1.1 r.1.2) (cert_receiving c).

(** Before the lock: executed transactions are dropped, keys are computed. *)
Definition enqueue_filter (executed : gset TransactionDigest)
    (certs : list (Certificate * option TransactionEffectsDigest))
    : list (Certificate * option TransactionEffectsDigest) * list TmEvent :=
  (filter (λ c, cert_digest c.1 ∉ executed) certs,
   map (λ c : Certificate * option TransactionEffectsDigest, RemovePendingExecution (cert_digest c.1))
     (filter (λ c, cert_digest c.1 ∈ executed) certs)).
Definition enqueue_keys (shared_locks : TransactionDigest → gmap ObjectID SequenceNumber)
    (certs : list (Certificate * option TransactionEffectsDigest))
    : exec (list EnqueueEntry * Availability * gset InputKey) :=
  entries ← mapM (λ c : Certificate * option TransactionEffectsDigest,
    keys ← get_input_object_keys (shared_locks (cert_digest c.1)) (cert_inputs c.1);
    Done (c, list_to_set (receiving_keys c.1) ∪ keys)) certs;
  Done (entries,
        foldl (λ m (e : EnqueueEntry), foldl (λ m key, <[key := None]> m) m (bset_iter key_le e.2)) ∅ entries,
        list_to_set (entries ≫= λ e : EnqueueEntry, receiving_keys e.1.1)).

(** The first critical section: ask the cache, then keep it from evicting. *)
Definition enqueue_lookup (i : Inner) (availability : Availability) : Inner * Availability :=
  let '(c, availability) := foldl (λ acc key,
    let '(c, available) := is_object_available key acc.1 in
    (c, match available with Some b => <[key := Some b]> acc.2 | None => acc.2 end))
    (available_objects_cache i, availability) (map_to_list availability).*1 in
  (set_cache (enable_unbounded_cache c) i, availability).

(** What is left to ask the database. *)
Definition cache_misses (availability : Availability) : list InputKey :=
  omap (λ kv : InputKey * option bool, match kv.2 with None => Some kv.1 | Some _ => None end)
    (map_to_list availability).

(** The second critical section starts with the answers of the database and
    looks again at what they found missing. *)
Definition merge_answers (c : AvailableObjectsCache) (availability : Availability)
    (answers : list (bool * InputKey)) : exec (AvailableObjectsCache * Availability) :=
  foldM (λ acc e,
    let '(available, key) := e in
    let c := if (available : bool) && bool_decide (key_version key = None)
             then available_insert key acc.1 else acc.1 in
    _ ← unwrap (acc.2 !! key);
    Done (c, <[key := Some available]> acc.2))
    (c, availability) answers.
Definition recheck_one (acc : AvailableObjectsCache * Availability) (kv : InputKey * option bool)
    : exec (AvailableObjectsCache * Availability) :=
  value ← unwrap kv.2;
  if (value : bool) then Done acc
  else
    let '(c, available) := is_object_available kv.1 acc.1 in
    Done (c, match available with Some true => <[kv.1 := Some true]> acc.2 | _ => acc.2 end).
Definition recheck (c : AvailableObjectsCache) (availability : Availability)
    : exec (AvailableObjectsCache * Availability) :=
  foldM recheck_one (c, availability) (map_to_list availability).

(** An input that is not available is recorded as missing. *)
Definition add_missing (availability : Availability) (digest : TransactionDigest) (now : Instant)
    (acc : Inner * gset InputKey) (key : InputKey) : exec (Inner * gset InputKey) :=
  available ← unwrap (mjoin (availability !! key));
  if (available : bool) then Done acc
  else
    let i := acc.1 in
    let digests := default ∅ (missing_inputs i !! key) in
    _ ← assert (bool_decide (digest ∉ digests));
    let txns := im_insert digest now (default im_default (input_txns i !! key_id key)) in
    Done (set_missing (<[key := {[digest]} ∪ digests]> (missing_inputs i))
            (<[key_id key := txns]> (input_txns i)) i,
          {[key]} ∪ acc.2).

Definition enqueue_one (executed : gset TransactionDigest) (availability : Availability) (now : Instant)
    (acc : Inner * list TmEvent) (e : EnqueueEntry) : exec (Inner * list TmEvent) :=
  let '(i, events) := acc in
  let '(cert, expected, keys) := e in
  let digest := cert_digest cert in
  if negb (inner_epoch i =? cert_epoch cert) then Done (i, events ++ [RemovePendingExecution digest])
  else if bool_decide (is_Some (pending_certificates i !! digest)) then Done (i, events)
  else if bool_decide (digest ∈ executing_certificates i) then Done (i, events)
  else if bool_decide (digest ∈ executed) then Done (i, events ++ [RemovePendingExecution digest])
  else
    '(i, waiting) ← foldM (add_missing availability digest now) (i, ∅) (bset_iter key_le keys);
    let p := {| certificate := cert; expected_effects_digest := expected;
                waiting_input_objects := waiting;
                stats := {| enqueue_time := now; ready_time := None |} |} in
    if bool_decide (waiting = ∅) then
      '(i, e) ← certificate_ready i (set_ready_time now p);
      Done (i, events ++ [e])
    else
      _ ← assert (bool_decide (pending_certificates i !! digest = None));
      Done (set_pending (<[digest := p]> (pending_certificates i)) i, events).

Definition enqueue_finish (i : Inner) (executed : gset TransactionDigest) (entries : list EnqueueEntry)
    (availability : Availability) (answers : list (bool * InputKey)) (now : Instant)
    : exec (Inner * list TmEvent) :=
  '(c, availability) ← merge_answers (available_objects_cache i) availability answers;
  '(c, availability) ← recheck c availability;
  c ← disable_unbounded_cache c;
  foldM (enqueue_one executed availability now) (set_cache c i, []) entries.

(** * Queries and reconfiguration *)

Definition get_missing_input (i : Inner) (digest : TransactionDigest) : option (list InputKey) :=
  (λ p, bset_iter key_le (waiting_input_objects p)) <$> pending_certificates i !! digest.
Definition objects_queue_len_and_age (i : Inner) (now : Instant) (keys : list ObjectID)
    : list (ObjectID * nat * option Z) :=
  map (λ key,
    let txns := default im_default (input_txns i !! key) in
    (key, length (im_iter txns), (λ e, now - e.2) <$> head (im_iter txns))) keys.
Definition inflight_queue_len (i : Inner) : nat :=
  (size (pending_certificates i) + size (executing_certificates i))%nat.
Definition reconfigure (i : Inner) (new_epoch : Z) : Inner := Inner_new new_epoch.

Definition MAX_TM_QUEUE_LENGTH : Z := 100000.
Definition MAX_PER_OBJECT_QUEUE_LENGTH : Z := 200.
Inductive OverloadError :=
  | TooManyTransactionsPendingExecution (queue_len : nat)
  | TooManyTransactionsPendingOnObject (id : ObjectID) (queue_len : nat)
  | TooOldTransactionPendingOnObject (id : ObjectID) (age : Z).

Fixpoint check_object_queues (queues : list (ObjectID * nat * option Z)) (txn_age_threshold : Z)
    : result unit OverloadError :=
  match queues with
  | [] => Ok ()
  | (id, queue_len, txn_age) :: queues =>
      if MAX_PER_OBJECT_QUEUE_LENGTH <=? Z.of_nat queue_len
      then Err (TooManyTransactionsPendingOnObject id queue_len)
      else
        match txn_age with
        | Some age => if txn_age_threshold <=? age then Err (TooOldTransactionPendingOnObject id age)
                      else check_object_queues queues txn_age_threshold
        | None => check_object_queues queues txn_age_threshold
        end
  end.
Definition check_execution_overload (i : Inner) (now txn_age_threshold : Z)
    (tx_inputs : list InputObjectKind) : result unit OverloadError :=
  if MAX_TM_QUEUE_LENGTH <=? Z.of_nat (inflight_queue_len i)
  then Err (TooManyTransactionsPendingExecution (inflight_queue_len i))
  else check_object_queues (objects_queue_len_and_age i now (map kind_object_id tx_inputs))
         txn_age_threshold.
End manager.
