(* ===== verification/ManagerInvariant.v ===== *)
(** The transaction manager's data-structure invariant: what each operation of
    [TransactionManager] does to the cache, to the two indexes of missing inputs
    and to the pending certificates, and that none of its assertions can fail. *)
From S2P Require Import Prelude MapSums Objects TransactionManager.

Section invariant.
Context {Hlru : LruCache} {Hlrul : LruLaws} {Him : IndexMap} {Himl : IndexMapLaws}.

(** * The cache *)

Definition versions (c : AvailableObjectsCache) : gmap ObjectID SequenceNumber :=
  lru_map (versioned_cache (cache c)).
Definition packages (c : AvailableObjectsCache) : gmap ObjectID unit :=
  lru_map (unversioned_cache (cache c)).

(** The answer the cache gives about a key. *)
Definition cached (c : AvailableObjectsCache) (k : InputKey) : option bool :=
  match k with
  | VersionedObject id v => (λ current, v <=? current) <$> versions c !! id
  | PackageKey id => (λ _, true) <$> packages c !! id
  end.
(** Nothing is forgotten and no version decreases. *)
Definition cache_grows (c c' : AvailableObjectsCache) : Prop :=
  (∀ id v, versions c !! id = Some v → ∃ w, versions c' !! id = Some w ∧ v ≤ w) ∧
  (∀ id, is_Some (packages c !! id) → is_Some (packages c' !! id)).

#[global] Instance cache_grows_refl : Reflexive cache_grows.
Proof. intros c. split; [|done]. intros id v Hv. by exists v. Qed.
#[global] Instance cache_grows_trans : Transitive cache_grows.
Proof.
  intros c c' c'' [Hv Hp] [Hv' Hp']. split; [|naive_solver]. intros id v Hid.
  destruct (Hv id v Hid) as (w & Hw & ?). destruct (Hv' id w Hw) as (x & ? & ?). exists x. split; [done|lia].
Qed.
Lemma cached_grows c c' k : cache_grows c c' → cached c k = Some true → cached c' k = Some true.
Proof.
  intros [Hv Hp]. destruct k as [id v|id]; simpl.
  - destruct (versions c !! id) as [w|] eqn:Hw; [|done]. simpl. intros [= Hle].
    destruct (Hv id w Hw) as (x & -> & ?). simpl. f_equal. bool_prop. apply Z.leb_le. lia.
  - destruct (packages c !! id) as [[]|] eqn:Hid; [|done]. intros _.
    destruct (Hp id) as [x ->]; [by rewrite Hid|done].
Qed.

Lemma is_object_available_ok k c :
  versions (is_object_available k c).1 = versions c ∧
  packages (is_object_available k c).1 = packages c ∧
  unbounded_cache_enabled (is_object_available k c).1 = unbounded_cache_enabled c ∧
  (is_object_available k c).2 = cached c k.
Proof.
  unfold is_object_available, cache_is_object_available. destruct k as [id v|id]; simpl.
  - destruct (lru_map_get _ id (versioned_cache (cache c))) as [Hm Hr].
    destruct (lru_get id (versioned_cache (cache c))) as [vc r]. simpl in *. subst r.
    split_and!; [exact Hm|done..].
  - destruct (lru_map_get _ id (unversioned_cache (cache c))) as [Hm Hr].
    destruct (lru_get id (unversioned_cache (cache c))) as [uc r]. simpl in *. subst r.
    split_and!; [done|exact Hm|done..].
Qed.

Lemma pop_while_subset {V} fuel max (c : lru V) : lru_map (pop_while fuel max c) ⊆ lru_map c.
Proof.
  revert c. induction fuel as [|fuel IH]; intros c; [done|]. simpl.
  destruct (_ <? _); [|done]. etransitivity; [apply IH|apply lru_map_pop].
Qed.
(** The loop ends with a cache that fits. *)
Lemma pop_while_len {V} max (c : lru V) :
  0 ≤ max → Z.of_nat (lru_len (pop_while (lru_len c) max c)) ≤ max.
Proof.
  intros Hmax. remember (lru_len c) as n eqn:Hn. revert c Hn.
  induction n as [|n IH]; intros c Hn; simpl; [lia|].
  case_test (max <? Z.of_nat (lru_len c)) as Hlt; [|done].
  apply IH. pose proof (lru_len_pop _ c). lia.
Qed.

Definition inserted (k : InputKey) (c : AvailableObjectsCache) : gmap ObjectID SequenceNumber :=
  match k with
  | VersionedObject id v =>
      <[id := match versions c !! id with Some w => Z.max w v | None => v end]> (versions c)
  | PackageKey _ => versions c
  end.
Definition inserted_packages (k : InputKey) (c : AvailableObjectsCache) : gmap ObjectID unit :=
  match k with VersionedObject _ _ => packages c | PackageKey id => <[id := ()]> (packages c) end.

Lemma cache_insert_ok k c :
  lru_map (versioned_cache (cache_insert k (cache c))) = inserted k c ∧
  lru_map (unversioned_cache (cache_insert k (cache c))) = inserted_packages k c.
Proof.
  unfold cache_insert, inserted, inserted_packages, versions, packages. destruct k as [id v|id]; simpl.
  - destruct (lru_map_push _ id v (versioned_cache (cache c))) as [Hm Hr].
    destruct (lru_push id v (versioned_cache (cache c))) as [vc r]. simpl in *. subst r.
    split; [|done]. destruct (lru_map (versioned_cache (cache c)) !! id) as [w|] eqn:Hw; simpl; [|done].
    rewrite Z.eqb_refl. simpl. case_test (v <? w) as Hlt.
    + rewrite lru_map_put, Hm, insert_insert_eq. f_equal. lia.
    + rewrite Hm. f_equal. lia.
  - split; [done|]. by destruct (lru_map_push _ id () (unversioned_cache (cache c))) as [-> _].
Qed.

Lemma available_insert_ok k c :
  unbounded_cache_enabled (available_insert k c) = unbounded_cache_enabled c ∧
  versions (available_insert k c) ⊆ inserted k c ∧
  packages (available_insert k c) ⊆ inserted_packages k c ∧
  (unbounded_cache_enabled c ≠ 0%nat →
     versions (available_insert k c) = inserted k c ∧ packages (available_insert k c) = inserted_packages k c).
Proof.
  destruct (cache_insert_ok k c) as [Hv Hp]. unfold available_insert, versions, packages. simpl.
  split; [done|]. destruct (Nat.eqb_spec (unbounded_cache_enabled c) 0) as [H0|H0]; simpl.
  - rewrite <-Hv, <-Hp. split_and!; [apply pop_while_subset..|done].
  - rewrite Hv, Hp. done.
Qed.

Lemma insert_grows k c :
  unbounded_cache_enabled c ≠ 0%nat →
  cache_grows c (available_insert k c) ∧ cached (available_insert k c) k = Some true.
Proof.
  intros H0. destruct (available_insert_ok k c) as (_ & _ & _ & Heq). destruct (Heq H0) as [Hv Hp].
  unfold cache_grows, cached. rewrite Hv, Hp. unfold inserted, inserted_packages.
  destruct k as [id v|id].
  - split; [split|]; [|done|].
    + intros id' w Hw. destruct (decide (id = id')) as [<-|Hne].
      * rewrite lookup_insert_eq, Hw. eexists. split; [done|lia].
      * rewrite lookup_insert_ne by done. by exists w.
    + rewrite lookup_insert_eq. simpl. f_equal. apply Z.leb_le. destruct (versions c !! id); lia.
  - split; [split|]; [|..].
    + intros id' w Hw. by exists w.
    + intros id' Hid'. destruct (decide (id = id')) as [<-|Hne]; [by rewrite lookup_insert_eq|].
      by rewrite lookup_insert_ne.
    + by rewrite lookup_insert_eq.
Qed.

(** * The indexes of missing inputs *)

(** The two indexes describe one relation, which certificate waits for which key. *)
Record index_ok (m : gmap InputKey (gset TransactionDigest)) (t : gmap ObjectID index_map)
    (W : TransactionDigest → InputKey → Prop) : Prop := {
  ix_missing : ∀ k d, (∃ ds, m !! k = Some ds ∧ d ∈ ds) ↔ W d k;
  ix_nonempty : ∀ k ds, m !! k = Some ds → ds ≠ ∅;
  ix_txns : ∀ id d, (∃ x, t !! id = Some x ∧ d ∈ (im_iter x).*1) ↔ ∃ k, W d k ∧ key_id k = id;
}.

Lemma index_ok_ext m t W W' : (∀ d k, W d k ↔ W' d k) → index_ok m t W → index_ok m t W'.
Proof.
  intros HW [Hm Hn Ht]. split; [|done|].
  - intros k d. by rewrite Hm, HW.
  - intros id d. rewrite Ht. naive_solver.
Qed.

Lemma im_insert_keys k v m d : d ∈ (im_iter (im_insert k v m)).*1 ↔ d = k ∨ d ∈ (im_iter m).*1.
Proof.
  rewrite im_iter_insert. destruct (decide (k ∈ (im_iter m).*1)) as [Hk|Hk].
  - replace ((map (λ e, if decide (e.1 = k) then (k, v) else e) (im_iter m)).*1) with (im_iter m).*1.
    + split; [by right|]. by intros [->|?].
    + clear Hk. induction (im_iter m) as [|e l IH]; [done|]. cbn.
      f_equal; [by destruct (decide (e.1 = k)) as [->|]|exact IH].
  - rewrite fmap_app, elem_of_app. simpl. rewrite list_elem_of_singleton. tauto.
Qed.
Lemma im_remove_keys k m d :
  d ∈ (im_iter (im_shift_remove k m).1).*1 ↔ d ≠ k ∧ d ∈ (im_iter m).*1.
Proof.
  destruct (im_iter_remove k m) as [-> _]. rewrite !list_elem_of_fmap. split.
  - intros (e & -> & [? ?]%list_elem_of_filter). eauto.
  - intros (Hne & e & -> & He). exists e. split; [done|]. by apply list_elem_of_filter.
Qed.

Lemma index_add m t W k d now :
  index_ok m t W →
  index_ok (<[k := {[d]} ∪ default ∅ (m !! k)]> m)
    (<[key_id k := im_insert d now (default im_default (t !! key_id k))]> t)
    (λ d' k', W d' k' ∨ d' = d ∧ k' = k).
Proof.
  intros [Hm Hn Ht]. split.
  - intros k' d'. destruct (decide (k' = k)) as [->|Hne].
    + rewrite lookup_insert_eq, <-Hm. split.
      * intros (ds & [= <-] & [->%elem_of_singleton|Hd]%elem_of_union); [by right|].
        left. destruct (m !! k) as [ds|]; [by exists ds|set_solver].
      * intros [(ds & -> & Hd)|[-> _]]; eexists; (split; [done|]); simpl; set_solver.
    + rewrite lookup_insert_ne by done. rewrite Hm. naive_solver.
  - intros k' ds [[<- <-]|[_ Hds]]%lookup_insert_Some; [set_solver|by eapply Hn].
  - intros id d'. destruct (decide (id = key_id k)) as [->|Hne].
    + rewrite lookup_insert_eq. split.
      * intros (x & [= <-] & [->|Hd]%im_insert_keys); [by exists k; split; [right|]|].
        destruct (t !! key_id k) as [x|] eqn:Hx; simpl in Hd; [|by rewrite im_iter_default in Hd; set_solver].
        assert (∃ x, t !! key_id k = Some x ∧ d' ∈ (im_iter x).*1) as (k' & ? & ?)%Ht by by exists x.
        exists k'. split; [by left|done].
      * intros (k' & [HW|[-> ->]] & Hid); eexists; (split; [done|]); apply im_insert_keys; [|by left].
        right. assert (∃ k, W d' k ∧ key_id k = key_id k') as (x & Hx & ?)%Ht by by exists k'.
        rewrite Hid in Hx. by rewrite Hx.
    + rewrite lookup_insert_ne by done. rewrite Ht. split.
      * intros (k' & ? & ?). exists k'. split; [by left|done].
      * intros (k' & [?|[-> ->]] & Hid); [by exists k'|congruence].
Qed.

(** Removing the digests that wait for a key from the list of their object. *)
Definition remove_age (m : index_map) (digest : TransactionDigest) : exec index_map :=
  let '(m, age_opt) := im_shift_remove digest m in
  _ ← assert (bool_decide (is_Some age_opt));
  Done m.
Lemma remove_ages l x :
  NoDup l → (∀ d, d ∈ l → d ∈ (im_iter x).*1) →
  ∃ x', foldM remove_age x l = Done x' ∧
    ∀ d, d ∈ (im_iter x').*1 ↔ (d ∉ l ∧ d ∈ (im_iter x).*1).
Proof.
  intros Hnd. revert x. induction Hnd as [|d l Hni Hnd IH]; intros x Hin.
  { exists x. split; [done|]. set_solver. }
  cbn [foldM]. pose proof (im_remove_keys d x) as Hkeys.
  assert (remove_age x d = Done (im_shift_remove d x).1) as ->.
  { pose proof (im_iter_remove d x) as [_ Hsome]. unfold remove_age.
    destruct (im_shift_remove d x) as [x1 age]. simpl in *.
    by rewrite bool_decide_true by (apply Hsome, Hin; left). }
  rewrite bind_ret_l. set (x1 := (im_shift_remove d x).1) in *.
  destruct (IH x1) as (x' & -> & Hx').
  { intros d' Hd'. apply Hkeys. split; [by intros ->|]. apply Hin. by right. }
  exists x'. split; [done|]. intros d'. rewrite Hx', Hkeys. set_solver.
Qed.

Lemma index_remove m t W k ds :
  index_ok m t W → m !! k = Some ds →
  (∀ d k', d ∈ ds → W d k' → key_id k' = key_id k → k' = k) →
  ∃ x x', t !! key_id k = Some x ∧ foldM remove_age x (bset_iter Z.le ds) = Done x' ∧
    index_ok (delete k m)
      (if bool_decide (im_iter x' = []) then delete (key_id k) t else <[key_id k := x']> t)
      (λ d' k', W d' k' ∧ k' ≠ k).
Proof.
  intros [Hm Hn Ht] Hk Huniq. destruct (set_choose_L ds (Hn k ds Hk)) as [d0 Hd0].
  assert (∀ d, d ∈ ds → ∃ x, t !! key_id k = Some x ∧ d ∈ (im_iter x).*1) as Hds.
  { intros d Hd. apply Ht. exists k. split; [|done]. apply Hm. by exists ds. }
  destruct (Hds d0 Hd0) as (x & Hx & _).
  destruct (remove_ages (bset_iter Z.le ds) x) as (x' & Hx' & Hkeys).
  { apply bset_iter_NoDup. }
  { intros d Hd%elem_of_bset_iter. destruct (Hds d Hd) as (? & ? & ?). congruence. }
  exists x, x'. split_and!; [done..|].
  assert (∀ d, d ∈ (im_iter x').*1 ↔ ∃ k', (W d k' ∧ k' ≠ k) ∧ key_id k' = key_id k) as Hx'W.
  { intros d. rewrite Hkeys, elem_of_bset_iter. split.
    - intros [Hnd Hd]. assert (∃ x, t !! key_id k = Some x ∧ d ∈ (im_iter x).*1) as (k' & HW & Hid)%Ht
        by by exists x. exists k'. split_and!; [done| |done]. intros ->. apply Hnd.
      apply Hm in HW as (ds' & ? & ?). congruence.
    - intros (k' & (HW & Hne) & Hid). split.
      + intros Hd. apply Hne. by apply (Huniq d k').
      + assert (∃ k, W d k ∧ key_id k = key_id k') as (x2 & ? & ?)%Ht by by exists k'. congruence. }
  split.
  - intros k' d'. destruct (decide (k' = k)) as [->|Hne].
    + rewrite lookup_delete_eq. split; [by intros (? & ? & _)|]. by intros [_ []].
    + rewrite lookup_delete_ne by done. rewrite Hm. naive_solver.
  - intros k' ds' [_ Hds']%lookup_delete_Some. by eapply Hn.
  - intros id d. case_bool_decide as Hnil; (destruct (decide (id = key_id k)) as [->|Hne];
      [rewrite ?lookup_delete_eq, ?lookup_insert_eq|
       rewrite ?lookup_delete_ne, ?lookup_insert_ne by done; rewrite Ht; naive_solver]).
    + rewrite <-Hx'W, Hnil. split; [by intros (? & ? & _)|]. set_solver.
    + rewrite <-Hx'W. split; [by intros (? & [= <-] & ?)|]. intros ?. by exists x'.
Qed.

(** * Waking up *)

Definition waits (pend : gmap TransactionDigest PendingCertificate) (d : TransactionDigest)
    (k : InputKey) : Prop :=
  ∃ p, pend !! d = Some p ∧ k ∈ waiting_input_objects p.
(** A certificate names each object once. *)
Definition distinct_ids (K : gset InputKey) : Prop :=
  ∀ k1 k2, k1 ∈ K → k2 ∈ K → key_id k1 = key_id k2 → k1 = k2.
Definition pending_ok (pend : gmap TransactionDigest PendingCertificate) (executing : gset TransactionDigest)
    : Prop :=
  ∀ d p, pend !! d = Some p →
    cert_digest (certificate p) = d ∧ waiting_input_objects p ≠ ∅ ∧
    distinct_ids (waiting_input_objects p) ∧ d ∉ executing.

(** A certificate once [k] is there: still pending, or ready. *)
Definition without (k : InputKey) (p : PendingCertificate) : PendingCertificate :=
  set_waiting (waiting_input_objects p ∖ {[k]}) p.
Definition still (k : InputKey) (p : PendingCertificate) : option PendingCertificate :=
  if decide (waiting_input_objects p ∖ {[k]} = ∅) then None else Some (without k p).
Definition done_with (k : InputKey) (p : PendingCertificate) : option PendingCertificate :=
  if decide (waiting_input_objects p ∖ {[k]} = ∅) then Some (without k p) else None.

Lemma omap_nodup {A B} (f : A → option B) (g : B → A) l :
  NoDup l → (∀ a b, a ∈ l → f a = Some b → g b = a) → NoDup (map g (omap f l)).
Proof.
  induction 1 as [|a l Hni Hnd IH]; intros Hg; [constructor|]. cbn [omap list_omap].
  specialize (IH ltac:(intros; eapply Hg; [by right|done])).
  destruct (f a) as [b|] eqn:Hf; [|done]. cbn [map]. constructor; [|done].
  rewrite (Hg a b) by (done || left). intros (b' & Hb' & (a' & Ha' & Hfa)%list_elem_of_omap)%list_elem_of_fmap.
  apply Hni. rewrite (Hg a' b') in Hb' by (done || by right). by subst.
Qed.

Lemma wake_loop k l pend acc :
  NoDup l → (∀ d, d ∈ l → waits pend d k) →
  ∃ pend', foldM (wake k) (pend, acc) l =
      Done (pend', acc ++ omap (λ d, pend !! d ≫= done_with k) l) ∧
    ∀ d, pend' !! d = if decide (d ∈ l) then pend !! d ≫= still k else pend !! d.
Proof.
  intros Hnd. revert pend acc. induction Hnd as [|d l Hni Hnd IH]; intros pend acc Hw.
  { exists pend. split; [simpl; by rewrite app_nil_r|]. intros d. by rewrite decide_False by set_solver. }
  destruct (Hw d) as (p & Hp & Hk); [left|].
  set (pend1 := match still k p with Some p' => <[d := p']> pend | None => delete d pend end).
  set (acc1 := match done_with k p with Some r => acc ++ [r] | None => acc end).
  assert (wake k (pend, acc) d = Done (pend1, acc1)) as Hstep.
  { unfold wake. simpl. rewrite Hp. simpl.
    rewrite (bool_decide_eq_true_2 (k ∈ waiting_input_objects p)) by done. simpl.
    unfold pend1, acc1, still, done_with, without. case_bool_decide as He.
    - by rewrite !decide_True by done.
    - by rewrite !decide_False by done. }
  assert (∀ d', d' ≠ d → pend1 !! d' = pend !! d') as Hne.
  { intros d' Hd'. unfold pend1. destruct (still k p); [by rewrite lookup_insert_ne|by rewrite lookup_delete_ne]. }
  destruct (IH pend1 acc1) as (pend' & Hrun & Hlook).
  { intros d' Hd'. assert (d' ≠ d) by (by intros ->). destruct (Hw d') as (p' & ? & ?); [by right|].
    exists p'. by rewrite Hne. }
  exists pend'. cbn [foldM]. rewrite Hstep, bind_ret_l, Hrun. split.
  - do 2 f_equal. cbn [omap list_omap]. rewrite Hp. simpl.
    assert (omap (λ d, pend1 !! d ≫= done_with k) l = omap (λ d, pend !! d ≫= done_with k) l) as ->.
    { apply list_omap_ext, Forall_Forall2_diag, Forall_forall. intros d' Hd'. simpl. rewrite Hne; [done|].
      by intros ->. }
    unfold acc1. destruct (done_with k p); [by rewrite <-app_assoc|done].
  - intros d'. rewrite Hlook. destruct (decide (d' = d)) as [->|Hd'].
    + rewrite decide_False by done. rewrite decide_True by left. rewrite Hp. simpl.
      unfold pend1. destruct (still k p); [by rewrite lookup_insert_eq|by rewrite lookup_delete_eq].
    + rewrite Hne by done. destruct (decide (d' ∈ l)) as [Hin|Hin].
      * rewrite decide_True by by right. done.
      * rewrite decide_False by set_solver. done.
Qed.

Record inner_ok (i : Inner) : Prop := {
  io_index : index_ok (missing_inputs i) (input_txns i) (waits (pending_certificates i));
  io_pending : pending_ok (pending_certificates i) (executing_certificates i);
}.

(** The pending certificates once [k] is available. *)
Definition after_key (k : InputKey) (p : PendingCertificate) : option PendingCertificate :=
  if decide (k ∈ waiting_input_objects p) then still k p else Some p.

Lemma after_key_waits k pend pend' :
  (∀ d, pend' !! d = pend !! d ≫= after_key k) →
  ∀ d k', waits pend' d k' ↔ (waits pend d k' ∧ k' ≠ k).
Proof.
  intros Hlook d k'. unfold waits. rewrite Hlook. unfold after_key, still, without.
  destruct (pend !! d) as [p|] eqn:Hp; simpl; [|naive_solver].
  destruct (decide (k ∈ waiting_input_objects p)) as [Hk|Hk]; [|set_solver].
  destruct (decide (waiting_input_objects p ∖ {[k]} = ∅)) as [He|He].
  - split; [by intros (? & ? & _)|]. intros ((p' & [= <-] & Hk') & Hne). set_solver.
  - split.
    + intros (p' & [= <-] & Hk'). simpl in Hk'. split; [exists p|]; set_solver.
    + intros ((p' & [= <-] & Hk') & Hne). eexists. split; [done|]. simpl. set_solver.
Qed.
Lemma after_key_pending k pend pend' executing :
  (∀ d, pend' !! d = pend !! d ≫= after_key k) → pending_ok pend executing → pending_ok pend' executing.
Proof.
  intros Hlook Hok d p. rewrite Hlook. destruct (pend !! d) as [p0|] eqn:Hp; [|done]. simpl.
  destruct (Hok d p0 Hp) as (Hd & Hne & Hdist & Hex). unfold after_key, still, without.
  destruct (decide (k ∈ _)); [|by intros [= <-]]. destruct (decide (_ = ∅)); [done|]. intros [= <-]. simpl.
  split_and!; try done. intros k1 k2 ??. apply Hdist; set_solver.
Qed.

Lemma find_ready_ok k (b : bool) i :
  inner_ok i →
  ∃ i' ready, find_ready_transactions k b i = Done (i', ready) ∧ inner_ok i' ∧
    available_objects_cache i' = (if b then available_insert k (available_objects_cache i)
                                  else available_objects_cache i) ∧
    executing_certificates i' = executing_certificates i ∧ inner_epoch i' = inner_epoch i ∧
    (∀ d, pending_certificates i' !! d = pending_certificates i !! d ≫= after_key k) ∧
    NoDup (map (λ p, cert_digest (certificate p)) ready) ∧
    (∀ r, r ∈ ready ↔ ∃ d p, pending_certificates i !! d = Some p ∧ k ∈ waiting_input_objects p ∧
       waiting_input_objects p ∖ {[k]} = ∅ ∧ r = without k p).
Proof.
  intros [Hix Hpok]. unfold find_ready_transactions.
  set (i0 := if b then _ else i).
  assert (available_objects_cache i0 = (if b then available_insert k (available_objects_cache i)
    else available_objects_cache i) ∧ executing_certificates i0 = executing_certificates i ∧
    inner_epoch i0 = inner_epoch i ∧ missing_inputs i0 = missing_inputs i ∧
    input_txns i0 = input_txns i ∧ pending_certificates i0 = pending_certificates i)
    as (Hc & Hex & Hep & -> & Ht & Hp) by by subst i0; destruct b.
  destruct (missing_inputs i !! k) as [ds|] eqn:Hk.
  - destruct (index_remove _ _ _ k ds Hix Hk) as (x & x' & Hx & Hfold & Hix').
    { intros d k' Hd (p & Hdp & Hk') Hid. destruct (Hpok d p Hdp) as (_ & _ & Hdist & _).
      apply Hdist; [done| |done]. assert (waits (pending_certificates i) d k) as (p' & ? & ?).
      { apply (ix_missing _ _ _ Hix). by exists ds. } congruence. }
    rewrite Ht, Hx. simpl unwrap. rewrite bind_ret_l.
    change (foldM _ x (bset_iter Z.le ds)) with (foldM remove_age x (bset_iter Z.le ds)).
    rewrite Hfold, bind_ret_l.
    destruct (wake_loop k (bset_iter Z.le ds) (pending_certificates i) []) as (pend' & Hwake & Hlook).
    { apply bset_iter_NoDup. }
    { intros d Hd%elem_of_bset_iter. apply (ix_missing _ _ _ Hix). by exists ds. }
    cbn [pending_certificates set_missing]. rewrite Hp, Hwake, bind_ret_l.
    assert (∀ d, d ∈ bset_iter Z.le ds ↔ waits (pending_certificates i) d k) as Hds.
    { intros d. rewrite elem_of_bset_iter, <-(ix_missing _ _ _ Hix). split; [by exists ds|].
      intros (? & ? & ?). congruence. }
    assert (∀ d, pend' !! d = pending_certificates i !! d ≫= after_key k) as Hlook'.
    { intros d. rewrite Hlook. unfold after_key. destruct (decide (d ∈ _)) as [Hd|Hd].
      - apply Hds in Hd as (p & -> & Hkp). simpl. by rewrite decide_True.
      - destruct (pending_certificates i !! d) as [p|] eqn:Hdp; [|done]. simpl.
        rewrite decide_False; [done|]. intros Hkp. apply Hd, Hds. by exists p. }
    eexists _, _. split; [done|]. simpl. split_and!; try done.
    + split; simpl; [|rewrite Hex; by eapply after_key_pending].
      rewrite ?Hp. eapply index_ok_ext; [|exact Hix']. intros d k'. simpl.
      by rewrite (after_key_waits k _ _ Hlook').
    + apply omap_nodup; [apply bset_iter_NoDup|]. intros d r _.
      destruct (pending_certificates i !! d) as [p|] eqn:Hdp; [|done]. simpl. unfold done_with.
      destruct (decide _); [|done]. intros [= <-]. simpl. by apply (Hpok d p).
    + intros r. rewrite list_elem_of_omap. unfold done_with. split.
      * intros (d & Hd & Hr). apply Hds in Hd as (p & Hdp & Hkp). rewrite Hdp in Hr. simpl in Hr.
        destruct (decide _); simplify_eq. by exists d, p.
      * intros (d & p & Hdp & Hkp & He & ->). exists d. split; [apply Hds; by exists p|].
        rewrite Hdp. simpl. by rewrite decide_True.
  - assert (∀ d p, pending_certificates i !! d = Some p → k ∉ waiting_input_objects p) as Hno.
    { intros d p Hdp Hkp. assert (∃ ds, missing_inputs i !! k = Some ds ∧ d ∈ ds) as (? & ? & ?);
        [|congruence]. apply (ix_missing _ _ _ Hix). by exists p. }
    exists i0, []. split_and!; try done.
    + split; [|by rewrite Hp, Hex]. subst i0. by destruct b.
    + intros d. rewrite Hp. destruct (pending_certificates i !! d) as [p|] eqn:Hdp; [|done]. simpl.
      unfold after_key. by rewrite decide_False by (by eapply Hno).
    + constructor.
    + intros r. split; [set_solver|]. intros (d & p & Hdp & Hkp & _). by destruct (Hno d p Hdp).
Qed.

(** * Making objects available *)

Lemma difference_nil (K : gset InputKey) k k' : K ∖ {[k]} = ∅ → k' ∈ K → k' = k.
Proof. intros He Hk'. destruct (decide (k' = k)); [done|]. set_solver. Qed.

Definition digest_of (p : PendingCertificate) : TransactionDigest := cert_digest (certificate p).

Lemma certificates_ready l i evs now :
  NoDup (map digest_of l) → (∀ r, r ∈ l → waiting_input_objects r = ∅) →
  (∀ r, r ∈ l → digest_of r ∉ executing_certificates i) →
  foldM (λ acc ready_cert,
    '(i, e) ← certificate_ready acc.1 (set_ready_time now ready_cert);
    Done (i, acc.2 ++ [e])) (i, evs) l =
  Done (set_executing (list_to_set (map digest_of l) ∪ executing_certificates i) i,
        evs ++ map (λ r, Ready (set_ready_time now r)) l).
Proof.
  revert i evs. induction l as [|r l IH]; intros i evs Hnd Hw Hex.
  - simpl. rewrite app_nil_r. do 2 f_equal. destruct i. unfold set_executing. simpl.
    by rewrite (left_id_L ∅ (∪)).
  - cbn [map] in Hnd. apply NoDup_cons in Hnd as [Hni Hnd]. cbn [foldM].
    unfold certificate_ready at 2. cbn [fst snd]. simpl.
    rewrite (bool_decide_eq_true_2 (waiting_input_objects r = ∅)) by (apply Hw; left). simpl.
    rewrite (bool_decide_eq_true_2 (_ ∉ _)) by (apply Hex; left). simpl.
    rewrite IH; [|done|set_solver|].
    + do 2 f_equal; [|by rewrite <-app_assoc]. unfold set_executing. simpl. f_equal.
      unfold digest_of at 2. set_solver.
    + intros r' Hr'. simpl. apply not_elem_of_union. split; [|apply Hex; by right].
      rewrite elem_of_singleton. intros Heq. apply Hni. apply list_elem_of_fmap. by exists r'.
Qed.

(** What a state becomes when some keys are delivered, with the certificates
    that became ready. *)
Record delivered (keys : list InputKey) (i i' : Inner) (rs : list PendingCertificate) : Prop := {
  dl_ok : inner_ok i';
  dl_epoch : inner_epoch i' = inner_epoch i;
  dl_nodup : NoDup (map digest_of rs);
  dl_executing : executing_certificates i' = list_to_set (map digest_of rs) ∪ executing_certificates i;
  dl_pending : ∀ d p', pending_certificates i' !! d = Some p' →
    ∃ p, pending_certificates i !! d = Some p ∧ certificate p' = certificate p ∧
      waiting_input_objects p' ⊆ waiting_input_objects p ∧
      (∀ k, k ∈ keys → k ∉ waiting_input_objects p') ∧
      (∀ k, k ∈ waiting_input_objects p → k ∈ waiting_input_objects p' ∨ k ∈ keys);
  dl_ready : ∀ r, r ∈ rs →
    ∃ p, pending_certificates i !! digest_of r = Some p ∧ certificate r = certificate p ∧
      (∀ k, k ∈ waiting_input_objects p → k ∈ keys);
  dl_kept : ∀ d, is_Some (pending_certificates i !! d) →
    is_Some (pending_certificates i' !! d) ∨ d ∈ map digest_of rs;
}.

Lemma delivered_nil i : inner_ok i → delivered [] i i [].
Proof.
  intros Hok. split; [done|done|simpl; constructor|simpl; by rewrite (left_id_L ∅ (∪))|..].
  - intros d p Hp. exists p. set_solver.
  - set_solver.
  - by left.
Qed.
Lemma delivered_app ks ks' i i' i'' rs rs' :
  delivered ks i i' rs → delivered ks' i' i'' rs' → delivered (ks ++ ks') i i'' (rs ++ rs').
Proof.
  intros [Hok1 He Hnd Hex Hp Hr Hk] [Hok He' Hnd' Hex' Hp' Hr' Hk'].
  assert (∀ r, r ∈ rs' → ∃ p, pending_certificates i !! digest_of r = Some p ∧
    certificate r = certificate p ∧ (∀ k, k ∈ waiting_input_objects p → k ∈ ks ++ ks')) as Hr2.
  { intros r Hrin. destruct (Hr' r Hrin) as (p & Hdp & Hc & Hw).
    destruct (Hp _ _ Hdp) as (p0 & ? & ? & _ & _ & Hs). exists p0. split_and!; [done|congruence|].
    intros k Hkin. apply elem_of_app. destruct (Hs k Hkin); [right; by apply Hw|by left]. }
  split; [done|congruence|..].
  - rewrite map_app. apply NoDup_app. split_and!; [done| |done].
    intros d (r & -> & Hrin)%list_elem_of_fmap (r' & Heq & Hrin')%list_elem_of_fmap.
    destruct (Hr' r' Hrin') as (p & Hdp & _).
    assert (digest_of r ∈ executing_certificates i') as Hin.
    { rewrite Hex. apply elem_of_union_l, elem_of_list_to_set, list_elem_of_fmap. by exists r. }
    destruct (io_pending i' Hok1 _ _ Hdp) as (_ & _ & _ & Hn). by rewrite <-Heq in Hn.
  - rewrite Hex', Hex, map_app, list_to_set_app_L. set_solver.
  - intros d p' Hdp. destruct (Hp' d p' Hdp) as (p1 & Hd1 & Hc1 & Hs1 & Hn1 & Hs1').
    destruct (Hp d p1 Hd1) as (p & Hd & Hc & Hs & Hn & Hs'). exists p.
    split_and!; [done|congruence|set_solver|..].
    + intros k [?|?]%elem_of_app; [|by apply Hn1]. intros ?. by apply (Hn k), Hs1.
    + intros k Hkin. rewrite elem_of_app. destruct (Hs' k Hkin) as [H1|]; [|by right; left].
      destruct (Hs1' k H1); [by left|by right; right].
  - intros r [Hrin|Hrin]%elem_of_app; [|by apply Hr2].
    destruct (Hr r Hrin) as (p & ? & ? & Hw). exists p. split_and!; [done..|].
    intros k Hkin. apply elem_of_app. left. by apply Hw.
  - intros d Hd. rewrite map_app, elem_of_app. destruct (Hk d Hd) as [Hd'|]; [|by right; left].
    destruct (Hk' d Hd'); [by left|by right; right].
Qed.

Definition ready_events (now : Instant) (rs : list PendingCertificate) : list TmEvent :=
  map (λ r, Ready (set_ready_time now r)) rs.

Lemma key_available k i now :
  inner_ok i →
  ∃ i' rs,
    ('(i, ready) ← find_ready_transactions k true i;
     '(i, events) ← foldM (λ acc ready_cert,
        '(i, e) ← certificate_ready acc.1 (set_ready_time now ready_cert);
        Done (i, acc.2 ++ [e])) (i, []) ready;
     Done (i, events)) = Done (i', ready_events now rs) ∧
    delivered [k] i i' rs ∧
    available_objects_cache i' = available_insert k (available_objects_cache i).
Proof.
  intros Hok. destruct (find_ready_ok k true i Hok) as
    (i1 & rs & -> & Hok1 & Hc & Hex & Hep & Hlook & Hnd & Hrs). rewrite bind_ret_l.
  assert (∀ r, r ∈ rs → ∃ p, pending_certificates i !! digest_of r = Some p ∧ certificate r = certificate p ∧
    waiting_input_objects r = ∅ ∧ k ∈ waiting_input_objects p ∧ waiting_input_objects p ∖ {[k]} = ∅) as Hr.
  { intros r (d & p & Hdp & Hk & He & ->)%Hrs. exists p. unfold digest_of. simpl.
    by destruct (io_pending i Hok d p Hdp) as (-> & _). }
  rewrite certificates_ready; [|done|..].
  2: { intros r Hin. by destruct (Hr r Hin) as (p & _ & _ & ? & _). }
  2: { intros r Hin. destruct (Hr r Hin) as (p & Hdp & _). rewrite Hex.
       by destruct (io_pending i Hok _ _ Hdp) as (_ & _ & _ & ?). }
  rewrite bind_ret_l. eexists _, rs. split; [done|]. split; [|done].
  split; simpl; [|done|done|by rewrite Hex|..].
  - split; simpl; [apply Hok1|]. intros d p Hdp. destruct (io_pending i1 Hok1 d p Hdp) as (? & ? & ? & Hn).
    split_and!; [done..|]. apply not_elem_of_union. split; [|done].
    rewrite elem_of_list_to_set, list_elem_of_fmap. intros (r & -> & Hin).
    destruct (Hr r Hin) as (p0 & Hp0 & _ & _ & Hk0 & He0). rewrite Hlook, Hp0 in Hdp. simpl in Hdp.
    unfold after_key, still in Hdp. by rewrite !decide_True in Hdp by done.
  - intros d p'. rewrite Hlook. destruct (pending_certificates i !! d) as [p|]; [|done]. simpl.
    unfold after_key, still, without. intros Hp'. exists p. destruct (decide (k ∈ _)) as [Hk|Hk].
    + destruct (decide _); simplify_eq. simpl. split_and!; [done..|set_solver| |].
      * intros k' ->%list_elem_of_singleton. set_solver.
      * intros k' Hk'. destruct (decide (k' = k)) as [->|]; [right; left|left; set_solver].
    + simplify_eq. split_and!; [done..| |by left]. intros k' ->%list_elem_of_singleton. done.
  - intros r Hin. destruct (Hr r Hin) as (p & ? & ? & _ & _ & He). exists p. split_and!; [done..|].
    intros k' Hk'. apply list_elem_of_singleton. by eapply difference_nil.
  - intros d [p Hdp]. rewrite Hlook, Hdp. simpl. unfold after_key, still.
    destruct (decide (k ∈ _)) as [Hk|Hk]; [|by left].
    destruct (decide _) as [He|He]; [right|by left]. apply list_elem_of_fmap. exists (without k p).
    split; [|apply Hrs; by exists d, p]. unfold digest_of. simpl.
    by destruct (io_pending i Hok d p Hdp) as (-> & _).
Qed.

Lemma objects_available_ok keys i now :
  inner_ok i →
  ∃ i' rs, objects_available_locked i (inner_epoch i) keys true now = Done (i', ready_events now rs) ∧
    delivered keys i i' rs ∧
    available_objects_cache i' = foldl (λ c k, available_insert k c) (available_objects_cache i) keys.
Proof.
  intros Hok. unfold objects_available_locked. rewrite Z.eqb_refl. simpl negb. cbv iota.
  assert (∃ i' rs, ∀ evs, foldM (λ acc input_key,
      '(i, ready) ← find_ready_transactions input_key true acc.1;
      '(i, events) ← foldM (λ acc ready_cert,
         '(i, e) ← certificate_ready acc.1 (set_ready_time now ready_cert);
         Done (i, acc.2 ++ [e])) (i, []) ready;
      Done (i, acc.2 ++ events)) (i, evs) keys = Done (i', evs ++ ready_events now rs) ∧
    delivered keys i i' rs ∧
    available_objects_cache i' = foldl (λ c k, available_insert k c) (available_objects_cache i) keys)
    as (i' & rs & H); [|exists i', rs; apply (H [])].
  revert i Hok. induction keys as [|k keys IH]; intros i Hok.
  - exists i, []. intros evs. simpl. rewrite app_nil_r. split_and!; [done|by apply delivered_nil|done].
  - destruct (key_available k i now Hok) as (i1 & rs1 & Hrun & Hd1 & Hc1).
    destruct (IH i1 (dl_ok _ _ _ _ Hd1)) as (i' & rs & H). exists i', (rs1 ++ rs). intros evs.
    destruct (H (evs ++ ready_events now rs1)) as (Hrun' & Hd & Hc). split_and!.
    + cbn [foldM fst snd].
      destruct (find_ready_transactions k true i) as [[i2 ready]| |]; simpl in Hrun |- *; [|done..].
      destruct (foldM _ (i2, []) ready) as [[i3 events]| |]; simpl in Hrun |- *; [|done..]. simplify_eq.
      rewrite Hrun'. unfold ready_events. by rewrite map_app, app_assoc.
    + by apply (delivered_app [k] keys i i1 i').
    + rewrite Hc, Hc1. done.
Qed.
End invariant.
