(* ===== verification/ManagerQueue.v ===== *)
(** Enqueueing certificates in the transaction manager: the effect of the two
    critical sections of [enqueue_impl] on the manager's state. *)
From S2P Require Import Prelude MapSums Objects TransactionManager.
From S2P Require Import ManagerInvariant.

Abbreviation EnqueueEntry := (Certificate * option TransactionEffectsDigest * gset InputKey)%type (only parsing).
Abbreviation Availability := (gmap InputKey (option bool)) (only parsing).

Section queue.
Context {Hlru : LruCache} {Hlrul : LruLaws} {Him : IndexMap} {Himl : IndexMapLaws}.

(** * Recording what is missing *)

(** The keys an availability map answers, and those it denies. *)
Definition answered (A : Availability) (k : InputKey) : Prop := ∃ b, A !! k = Some (Some b).
Definition denied (A : Availability) (k : InputKey) : bool :=
  match A !! k with Some (Some false) => true | _ => false end.

Definition same_but_index (i i' : Inner) : Prop :=
  inner_epoch i' = inner_epoch i ∧ available_objects_cache i' = available_objects_cache i ∧
  pending_certificates i' = pending_certificates i ∧ executing_certificates i' = executing_certificates i.

Lemma add_missing_loop A d now l i w :
  NoDup l → (∀ k, k ∈ l → k ∉ w) → (∀ k, k ∈ l → answered A k) →
  pending_certificates i !! d = None →
  index_ok (missing_inputs i) (input_txns i)
    (λ d' k', waits (pending_certificates i) d' k' ∨ d' = d ∧ k' ∈ w) →
  ∃ i', foldM (add_missing A d now) (i, w) l =
      Done (i', list_to_set (filter (λ k, denied A k = true) l) ∪ w) ∧
    same_but_index i i' ∧
    index_ok (missing_inputs i') (input_txns i')
      (λ d' k', waits (pending_certificates i) d' k' ∨
                d' = d ∧ k' ∈ (list_to_set (filter (λ k, denied A k = true) l) ∪ w : gset InputKey)).
Proof.
  intros Hnd. revert i w. induction Hnd as [|k l Hni Hnd IH]; intros i w Hw HA Hd Hix.
  { exists i. simpl. rewrite (left_id_L ∅ (∪)). done. }
  destruct (HA k) as [b Hb]; [left|]. cbn [foldM]. unfold add_missing at 2. rewrite Hb. simpl.
  assert (∀ k', k' ∈ l → answered A k') as HA' by (intros; apply HA; by right).
  destruct b; simpl.
  - destruct (IH i w) as (i' & -> & Hsame & Hix'); [intros; apply Hw; by right|done..|].
    exists i'. rewrite filter_cons_False by (unfold denied; by rewrite Hb). done.
  - rewrite (bool_decide_eq_true_2 (d ∉ _)).
    2: { intros Hin. assert (∃ ds, missing_inputs i !! k = Some ds ∧ d ∈ ds) as Hex.
         { destruct (missing_inputs i !! k) as [ds|]; [by exists ds|simpl in Hin; set_solver]. }
         apply (ix_missing _ _ _ Hix) in Hex as [(p & Hp & _)|[_ Hkw]]; [congruence|].
         apply (Hw k); [left|done]. }
    simpl. rewrite filter_cons_True by (unfold denied; by rewrite Hb).
    set (i1 := set_missing _ _ i). destruct (IH i1 ({[k]} ∪ w)) as (i' & -> & Hsame & Hix').
    + intros k' Hk'. apply not_elem_of_union. split; [|apply Hw; by right].
      rewrite elem_of_singleton. intros ->. done.
    + done.
    + done.
    + eapply index_ok_ext; [|apply (index_add _ _ _ k d now Hix)]. intros d' k'. simpl. set_solver.
    + exists i'. split_and!; [do 2 f_equal; cbn [list_to_set]; set_solver|done|].
      eapply index_ok_ext; [|exact Hix']. intros d' k'. simpl. set_solver.
Qed.

(** * One certificate *)

Definition missing_keys (A : Availability) (keys : gset InputKey) : gset InputKey :=
  list_to_set (filter (λ k, denied A k = true) (bset_iter key_le keys)).
Lemma elem_of_missing_keys A keys k : k ∈ missing_keys A keys ↔ k ∈ keys ∧ denied A k = true.
Proof.
  unfold missing_keys. rewrite elem_of_list_to_set, list_elem_of_filter, elem_of_bset_iter. tauto.
Qed.

(** A certificate is skipped, sent or recorded as pending. *)
Inductive enqueued (executed : gset TransactionDigest) (A : Availability)
    (cert : Certificate) (keys : gset InputKey) (i : Inner) : Inner → list PendingCertificate → Prop :=
  | enqueue_skip :
      inner_epoch i ≠ cert_epoch cert ∨ is_Some (pending_certificates i !! cert_digest cert) ∨
      cert_digest cert ∈ executing_certificates i ∨ cert_digest cert ∈ executed →
      enqueued executed A cert keys i i []
  | enqueue_send i' p :
      pending_certificates i !! cert_digest cert = None →
      cert_digest cert ∉ executing_certificates i → cert_digest cert ∉ executed →
      missing_keys A keys = ∅ → certificate p = cert →
      pending_certificates i' = pending_certificates i →
      executing_certificates i' = {[cert_digest cert]} ∪ executing_certificates i →
      enqueued executed A cert keys i i' [p]
  | enqueue_wait i' p :
      pending_certificates i !! cert_digest cert = None →
      cert_digest cert ∉ executing_certificates i → cert_digest cert ∉ executed →
      missing_keys A keys ≠ ∅ → certificate p = cert → waiting_input_objects p = missing_keys A keys →
      pending_certificates i' = <[cert_digest cert := p]> (pending_certificates i) →
      executing_certificates i' = executing_certificates i →
      enqueued executed A cert keys i i' [].

(** The certificates among the events. *)
Definition sent_of (evs : list TmEvent) : list PendingCertificate :=
  omap (λ e, match e with Ready p => Some p | _ => None end) evs.
Lemma sent_of_app l k : sent_of (l ++ k) = sent_of l ++ sent_of k.
Proof. apply omap_app. Qed.

Lemma inner_ok_pending_add i d p :
  inner_ok i → pending_certificates i !! d = None → cert_digest (certificate p) = d →
  waiting_input_objects p ≠ ∅ → distinct_ids (waiting_input_objects p) → d ∉ executing_certificates i →
  ∀ i1, same_but_index i i1 →
    index_ok (missing_inputs i1) (input_txns i1)
      (λ d' k', waits (pending_certificates i) d' k' ∨ d' = d ∧ k' ∈ waiting_input_objects p) →
    inner_ok (set_pending (<[d := p]> (pending_certificates i1)) i1).
Proof.
  intros [Hix Hpok] Hd Hdg Hne Hdist Hex i1 (_ & _ & Hp1 & Hex1) Hix1. split; simpl.
  - eapply index_ok_ext; [|exact Hix1]. intros d' k'. simpl. unfold waits. rewrite Hp1.
    destruct (decide (d' = d)) as [->|Hne'].
    + rewrite lookup_insert_eq, Hd. naive_solver.
    + rewrite lookup_insert_ne by done. naive_solver.
  - rewrite Hp1, Hex1. intros d' p' [[<- <-]|[Hne' Hdp]]%lookup_insert_Some; [done|by apply Hpok].
Qed.

Lemma enqueue_one_ok executed A now i evs cert expected keys :
  inner_ok i → distinct_ids keys → (∀ k, k ∈ keys → answered A k) →
  ∃ i' evs', enqueue_one executed A now (i, evs) (cert, expected, keys) = Done (i', evs ++ evs') ∧
    inner_ok i' ∧ inner_epoch i' = inner_epoch i ∧
    available_objects_cache i' = available_objects_cache i ∧
    enqueued executed A cert keys i i' (sent_of evs').
Proof.
  intros Hok Hdist HA. unfold enqueue_one. set (d := cert_digest cert).
  destruct (Z.eqb_spec (inner_epoch i) (cert_epoch cert)) as [He|He]; simpl.
  2: { eexists _, _. split; [done|]. split_and!; try done. apply enqueue_skip. by left. }
  case_bool_decide as Hp.
  { exists i, []. rewrite app_nil_r. split_and!; try done. apply enqueue_skip. by right; left. }
  case_bool_decide as Hx.
  { exists i, []. rewrite app_nil_r. split_and!; try done. apply enqueue_skip. by right; right; left. }
  case_bool_decide as Hdone.
  { eexists _, _. split; [done|]. split_and!; try done. apply enqueue_skip. by right; right; right. }
  apply eq_None_not_Some in Hp.
  destruct (add_missing_loop A d now (bset_iter key_le keys) i ∅) as (i1 & -> & Hsame & Hix).
  { apply bset_iter_NoDup. }
  { set_solver. }
  { intros k Hk%elem_of_bset_iter. by apply HA. }
  { done. }
  { eapply index_ok_ext; [|apply (io_index i Hok)]. set_solver. }
  rewrite bind_ret_l. cbn beta iota.
  rewrite (right_id_L ∅ (∪)) in Hix |- *. fold (missing_keys A keys) in Hix |- *.
  pose proof Hsame as (Hep1 & Hc1 & Hp1 & Hex1).
  case_bool_decide as Hm.
  - unfold certificate_ready. simpl. rewrite (bool_decide_eq_true_2 (missing_keys A keys = ∅)) by done. simpl.
    rewrite (bool_decide_eq_true_2 (d ∉ _)) by (by rewrite Hex1). simpl.
    eexists _, [_]. split; [done|]. simpl. split_and!; [|done|done|].
    + split; simpl.
      * eapply index_ok_ext; [|exact Hix]. rewrite Hm, Hp1. set_solver.
      * rewrite Hp1, Hex1. intros d' p' Hd'. destruct (io_pending i Hok d' p' Hd') as (? & ? & ? & ?).
        split_and!; [done..|]. apply not_elem_of_union. split; [|done].
        rewrite elem_of_singleton. intros ->. unfold d in Hp; congruence.
    + apply enqueue_send; simpl; rewrite ?Hp1, ?Hex1; done.
  - rewrite (bool_decide_eq_true_2 (_ = None)) by (by rewrite Hp1). simpl.
    eexists _, []. rewrite app_nil_r. split; [done|]. split_and!; [|done|done|].
    + eapply (inner_ok_pending_add i); simpl; try done. intros k1 k2.
      rewrite !elem_of_missing_keys. intros [? _] [? _]. by apply Hdist.
    + eapply enqueue_wait; [done..|exact Hm| | | |]; cycle 2; [simpl; by rewrite Hp1|done..].
Qed.

(** The loop over the certificates keeps whatever one certificate keeps. *)
Lemma enqueue_loop executed A now entries (P : list EnqueueEntry → Inner → list PendingCertificate → Prop) i :
  inner_ok i → (∀ e, e ∈ entries → distinct_ids e.2 ∧ ∀ k, k ∈ e.2 → answered A k) →
  (∀ done e i1 i2 s s', e ∈ entries → inner_epoch i1 = inner_epoch i → P done i1 s →
     enqueued executed A e.1.1 e.2 i1 i2 s' → P (done ++ [e]) i2 (s ++ s')) →
  P [] i [] →
  ∃ i' evs, foldM (enqueue_one executed A now) (i, []) entries = Done (i', evs) ∧
    inner_ok i' ∧ inner_epoch i' = inner_epoch i ∧
    available_objects_cache i' = available_objects_cache i ∧ P entries i' (sent_of evs).
Proof.
  intros Hok He HP H0.
  assert (∀ done l i1 evs, entries = done ++ l → inner_ok i1 → inner_epoch i1 = inner_epoch i →
    available_objects_cache i1 = available_objects_cache i → P done i1 (sent_of evs) →
    ∃ i' evs', foldM (enqueue_one executed A now) (i1, evs) l = Done (i', evs') ∧
      inner_ok i' ∧ inner_epoch i' = inner_epoch i ∧
      available_objects_cache i' = available_objects_cache i ∧ P entries i' (sent_of evs')) as Hloop;
    [|by apply (Hloop [])].
  intros done l. revert done. induction l as [|e l IH]; intros done i1 evs Heq Hok1 Hep1 Hc1 HP1.
  { rewrite app_nil_r in Heq. subst done. by exists i1, evs. }
  assert (e ∈ entries) as Hin by (rewrite Heq; set_solver).
  destruct (He e Hin) as [Hdist HA]. destruct e as [[cert expected] keys]. cbn [foldM].
  destruct (enqueue_one_ok executed A now i1 evs cert expected keys Hok1 Hdist HA)
    as (i2 & evs2 & -> & Hok2 & Hep2 & Hc2 & Henq). rewrite bind_ret_l.
  apply (IH (done ++ [(cert, expected, keys)])); [by rewrite <-app_assoc|done|congruence..|].
  rewrite sent_of_app. eapply HP; [exact Hin|exact Hep1|exact HP1|exact Henq].
Qed.

(** * The cache and the answers of the database *)

(** Asking the cache may only reorder it. *)
Definition same_content (c c' : AvailableObjectsCache) : Prop :=
  versions c' = versions c ∧ packages c' = packages c ∧
  unbounded_cache_enabled c' = unbounded_cache_enabled c.
Lemma cached_same c c' k : versions c' = versions c → packages c' = packages c → cached c' k = cached c k.
Proof. intros Hv Hp. unfold cached. by rewrite Hv, Hp. Qed.

Lemma lookup_loop l c (A : Availability) :
  NoDup l →
  let '(c', A') := foldl (λ acc key,
    let '(c, available) := is_object_available key acc.1 in
    (c, match available with Some b => <[key := Some b]> acc.2 | None => acc.2 end)) (c, A) l in
  same_content c c' ∧
  ∀ k, A' !! k = if decide (k ∈ l) then
                   match cached c k with Some b => Some (Some b) | None => A !! k end
                 else A !! k.
Proof.
  intros Hnd. revert c A. induction Hnd as [|k l Hni Hnd IH]; intros c A.
  { split; [done|]. intros k. by rewrite decide_False by set_solver. }
  destruct (is_object_available_ok k c) as (Hv & Hp & He & Hr). cbn [foldl fst snd].
  destruct (is_object_available k c) as [c1 r]. simpl in Hv, Hp, He, Hr. subst r.
  set (A1 := match cached c k with Some b => _ | None => A end). specialize (IH c1 A1).
  destruct (foldl _ (c1, A1) l) as [c' A']. destruct IH as [(Hv' & Hp' & He') Hlook].
  split; [repeat split; congruence|]. intros k'. rewrite Hlook, (cached_same c c1) by done.
  unfold A1. destruct (decide (k' = k)) as [->|Hne].
  - rewrite decide_False by done. rewrite decide_True by left.
    destruct (cached c k); [by rewrite lookup_insert_eq|done].
  - assert ((match cached c k with Some b => <[k := Some b]> A | None => A end) !! k' = A !! k') as ->.
    { destruct (cached c k); [by rewrite lookup_insert_ne|done]. }
    destruct (decide (k' ∈ l)) as [Hin|Hin].
    + by rewrite decide_True by by right.
    + by rewrite decide_False by set_solver.
Qed.

Lemma enqueue_lookup_ok i (A : Availability) :
  (∀ k v, A !! k = Some v → v = None) →
  ∃ c A', enqueue_lookup i A = (set_cache c i, A') ∧
    versions c = versions (available_objects_cache i) ∧
    packages c = packages (available_objects_cache i) ∧
    unbounded_cache_enabled c = S (unbounded_cache_enabled (available_objects_cache i)) ∧
    ∀ k, A' !! k = (λ _, cached (available_objects_cache i) k) <$> A !! k.
Proof.
  intros HA. unfold enqueue_lookup.
  pose proof (lookup_loop (map_to_list A).*1 (available_objects_cache i) A (NoDup_fst_map_to_list A)) as H.
  destruct (foldl _ _ _) as [c' A']. destruct H as [(Hv & Hp & He) Hlook].
  exists (enable_unbounded_cache c'), A'. split_and!; [done..|simpl; by rewrite He|].
  intros k. rewrite Hlook. destruct (A !! k) as [v|] eqn:Hk.
  - rewrite decide_True.
    + rewrite (HA k v Hk). simpl. by destruct (cached _ k).
    + apply list_elem_of_fmap. exists (k, v). split; [done|]. by apply elem_of_map_to_list.
  - rewrite decide_False; [done|]. intros ([k' v] & -> & Hin)%list_elem_of_fmap.
    apply elem_of_map_to_list in Hin. simpl in Hk. congruence.
Qed.

Lemma elem_of_cache_misses A k : k ∈ cache_misses A ↔ A !! k = Some None.
Proof.
  unfold cache_misses. rewrite list_elem_of_omap. split.
  - intros ([k' [b|]] & Hin & Heq); simplify_eq/=. by apply elem_of_map_to_list.
  - intros Hk. exists (k, None). split; [by apply elem_of_map_to_list|done].
Qed.
Lemma cache_misses_nodup A : NoDup (cache_misses A).
Proof.
  unfold cache_misses. pose proof (NoDup_fst_map_to_list A) as Hnd.
  induction (map_to_list A) as [|[k v] l IH]; [constructor|]. cbn in Hnd |- *.
  apply NoDup_cons in Hnd as [Hni Hnd]. destruct v; [by apply IH|]. constructor; [|by apply IH].
  intros ([k' v] & Hin & Heq)%list_elem_of_omap. destruct v; simplify_eq/=. apply Hni.
  apply list_elem_of_fmap. by exists (k, None).
Qed.

Lemma merge_answers_ok answers c (A : Availability) :
  NoDup answers.*2 → (∀ k, k ∈ answers.*2 → is_Some (A !! k)) →
  ∃ c' A', merge_answers c A answers = Done (c', A') ∧
    unbounded_cache_enabled c' = unbounded_cache_enabled c ∧
    (unbounded_cache_enabled c ≠ 0%nat → cache_grows c c' ∧ versions c' = versions c ∧
       ∀ id, is_Some (packages c' !! id) → is_Some (packages c !! id) ∨ (true, PackageKey id) ∈ answers) ∧
    (∀ b k, (b, k) ∈ answers → A' !! k = Some (Some b)) ∧
    (∀ k, k ∉ answers.*2 → A' !! k = A !! k).
Proof.
  unfold merge_answers. revert c A. induction answers as [|[b k] l IH]; intros c A Hnd Hin.
  { exists c, A. split_and!; [done|done| |set_solver|done]. intros _. split_and!; [done|done|by left]. }
  cbn in Hnd. apply NoDup_cons in Hnd as [Hni Hnd]. cbn [foldM fst snd].
  destruct (Hin k) as [v Hv]; [left|]. rewrite Hv. cbn [unwrap]. rewrite !bind_ret_l.
  set (c1 := if b && _ then _ else c).
  assert (unbounded_cache_enabled c1 = unbounded_cache_enabled c ∧
    (unbounded_cache_enabled c ≠ 0%nat → cache_grows c c1 ∧ versions c1 = versions c ∧
    ∀ id, is_Some (packages c1 !! id) → is_Some (packages c !! id) ∨ b = true ∧ k = PackageKey id))
    as (He1 & Hc1).
  { unfold c1. destruct b; [|split; [done|]; intros _; split_and!; [done|done|by left]]. destruct k as [id w|id]; simpl.
    { split; [done|]. intros _. split_and!; [done|done|by left]. }
    destruct (available_insert_ok (PackageKey id) c) as (He & _ & _ & Heq). split; [done|]. intros H0.
    destruct (insert_grows (PackageKey id) c H0) as [Hg _].
    destruct (Heq H0) as [Hvs Hps]. split_and!; [done..|]. rewrite Hps. simpl. intros id' Hid'.
    destruct (decide (id' = id)) as [->|]; [by right|left]. by rewrite lookup_insert_ne in Hid'. }
  destruct (IH c1 (<[k := Some b]> A)) as (c' & A' & -> & He & Hc & Hl & Hno).
  { done. }
  { intros k' Hk'. destruct (decide (k' = k)) as [->|]; [by rewrite lookup_insert_eq|].
    rewrite lookup_insert_ne by done. apply Hin. by right. }
  exists c', A'. split_and!; [done|congruence| | |].
  - intros H0. destruct (Hc1 H0) as (Hg1 & Hv1 & Hp1). destruct Hc as (Hg & Hv' & Hp); [congruence|].
    split_and!; [by transitivity c1|congruence|].
    intros id [Hid|Hid]%Hp; [|by right; right]. destruct (Hp1 id Hid) as [?|[-> ->]]; [by left|].
    right. left.
  - intros b' k' [[= -> ->]|?]%elem_of_cons; [|by apply Hl]. by rewrite Hno, lookup_insert_eq.
  - intros k' Hk'. cbn in Hk'. rewrite Hno by set_solver. apply lookup_insert_ne. set_solver.
Qed.

Lemma recheck_loop c0 l c (A : Availability) :
  NoDup l.*1 → versions c = versions c0 → packages c = packages c0 →
  (∀ k v, (k, v) ∈ l → v ≠ None) → (∀ k v, (k, v) ∈ l → A !! k = Some v) →
  ∃ c' A', foldM recheck_one (c, A) l = Done (c', A') ∧
    same_content c c' ∧
    ∀ k, A' !! k = if decide (k ∈ l.*1)
                   then (λ v, if decide (cached c0 k = Some true) then Some true else v) <$> A !! k
                   else A !! k.
Proof.
  revert c A. induction l as [|[k v] l IH]; intros c A Hnd Hv Hp Hsome HA.
  { exists c, A. split_and!; [done..|]. intros k. by rewrite decide_False by set_solver. }
  cbn in Hnd. apply NoDup_cons in Hnd as [Hni Hnd].
  destruct v as [b|]; [|by destruct (Hsome k None); [left|]].
  pose proof (HA k (Some b) ltac:(left)) as Hk.
  assert (∃ c1 A1, (if b then Done (c, A) else
      let '(c, available) := is_object_available k c in
      Done (c, match available with Some true => <[k := Some true]> A | _ => A end)) = Done (c1, A1) ∧
    same_content c c1 ∧ (∀ k', k' ≠ k → A1 !! k' = A !! k') ∧
    A1 !! k = Some (if decide (cached c0 k = Some true) then Some true else Some b))
    as (c1 & A1 & Hrun & Hsame1 & Hne1 & Hk1).
  { destruct b.
    - exists c, A. split_and!; try done. rewrite Hk. by destruct (decide _).
    - destruct (is_object_available_ok k c) as (Hv' & Hp' & He' & Hr).
      destruct (is_object_available k c) as [c1 r]. simpl in *. subst r.
      rewrite <-(cached_same c0 c) by done. eexists _, _. split; [done|].
      destruct (cached c k) as [[]|]; split_and!; try done; intros; by rewrite ?lookup_insert_eq, ?lookup_insert_ne. }
  destruct Hsame1 as (Hv1 & Hp1 & He1).
  destruct (IH c1 A1) as (c' & A' & Hrest & (Hv' & Hp' & He') & Hlook); [done|congruence|congruence|..].
  { intros k' v' Hin. apply (Hsome k'). by right. }
  { intros k' v' Hin. rewrite Hne1; [apply HA; by right|]. intros ->. apply Hni.
    apply list_elem_of_fmap. by exists (k, v'). }
  exists c', A'. cbn [foldM]. split_and!.
  - by replace (recheck_one (c, A) (k, Some b)) with (Done (c1, A1)).
  - repeat split; congruence.
  - intros k'. rewrite Hlook. cbn. destruct (decide (k' = k)) as [->|Hne].
    + rewrite decide_False by done. rewrite decide_True by left. by rewrite Hk1, Hk.
    + rewrite Hne1 by done. destruct (decide (k' ∈ l.*1)) as [Hin|Hin].
      * by rewrite decide_True by by right.
      * by rewrite decide_False by set_solver.
Qed.

Lemma recheck_ok c (A : Availability) :
  (∀ k v, A !! k = Some v → v ≠ None) →
  ∃ c' A', recheck c A = Done (c', A') ∧ same_content c c' ∧
    ∀ k, A' !! k = (λ v, if decide (cached c k = Some true) then Some true else v) <$> A !! k.
Proof.
  intros HA. unfold recheck.
  destruct (recheck_loop c (map_to_list A) c A) as (c' & A' & -> & Hsame & Hlook); try done.
  { apply NoDup_fst_map_to_list. }
  { intros k v Hin%elem_of_map_to_list. by eapply HA. }
  { intros k v Hin. by apply elem_of_map_to_list. }
  exists c', A'. split_and!; [done..|]. intros k. rewrite Hlook.
  destruct (A !! k) as [v|] eqn:Hk.
  - rewrite decide_True; [done|]. apply list_elem_of_fmap. exists (k, v). split; [done|].
    by apply elem_of_map_to_list.
  - by destruct (decide _).
Qed.

(** * The keys of a call *)

Lemma insert_none_loop l (A : Availability) k :
  foldl (λ m key, <[key := None]> m) A l !! k = if decide (k ∈ l) then Some None else A !! k.
Proof.
  revert A. induction l as [|x l IH]; intros A; [by rewrite decide_False by set_solver|]. cbn [foldl].
  rewrite IH. destruct (decide (k ∈ l)) as [Hin|Hin]; [by rewrite decide_True by by right|].
  destruct (decide (k = x)) as [->|Hne]; [rewrite decide_True by left; by rewrite lookup_insert_eq|].
  rewrite decide_False by set_solver. by rewrite lookup_insert_ne.
Qed.
Lemma insert_entries_loop (entries : list EnqueueEntry) (A : Availability) :
  let A' := foldl (λ m (e : EnqueueEntry), foldl (λ m key, <[key := None]> m) m (bset_iter key_le e.2)) A entries in
  (∀ k, is_Some (A !! k) → is_Some (A' !! k)) ∧
  ((∀ k v, A !! k = Some v → v = None) → ∀ k v, A' !! k = Some v → v = None) ∧
  ∀ e k, e ∈ entries → k ∈ e.2 → is_Some (A' !! k).
Proof.
  revert A. induction entries as [|e entries IH]; intros A; simpl; [split_and!; [done..|set_solver]|].
  set (A1 := foldl _ A _). assert (∀ k, A1 !! k = if decide (k ∈ e.2) then Some None else A !! k) as H1.
  { intros k. unfold A1. rewrite insert_none_loop. destruct (decide (k ∈ e.2)) as [Hin|Hin].
    - by rewrite decide_True by by apply elem_of_bset_iter.
    - rewrite decide_False; [done|]. by rewrite elem_of_bset_iter. }
  destruct (IH A1) as (Hs & Hn & Hin). split_and!.
  - intros k Hk. apply Hs. rewrite H1. by destruct (decide _).
  - intros HA. apply Hn. intros k v. rewrite H1. destruct (decide _); [by intros [= <-]|apply HA].
  - intros e' k [->|He]%elem_of_cons Hk; [|by eapply Hin]. apply Hs. rewrite H1. by rewrite decide_True.
Qed.

Lemma enqueue_keys_ok locks (certs : list (Certificate * option TransactionEffectsDigest))
    (ok : Certificate → gset InputKey → Prop) :
  (∀ c, c ∈ certs → ∃ keys, (keys ← get_input_object_keys (locks (cert_digest c.1)) (cert_inputs c.1);
     Done (list_to_set (receiving_keys c.1) ∪ keys)) = Done keys ∧ ok c.1 keys) →
  ∃ entries A receiving, enqueue_keys locks certs = Done (entries, A, receiving) ∧
    entries.*1 = certs ∧
    (∀ e, e ∈ entries → (keys ← get_input_object_keys (locks (cert_digest e.1.1)) (cert_inputs e.1.1);
       Done (list_to_set (receiving_keys e.1.1) ∪ keys)) = Done e.2 ∧ ok e.1.1 e.2 ∧
       ∀ k, k ∈ e.2 → is_Some (A !! k)) ∧
    (∀ k v, A !! k = Some v → v = None).
Proof.
  intros Hc. assert (∃ entries : list EnqueueEntry, mapM (λ c : Certificate * option TransactionEffectsDigest,
      keys ← get_input_object_keys (locks (cert_digest c.1)) (cert_inputs c.1);
      Done (c, list_to_set (receiving_keys c.1) ∪ keys)) certs = Done entries ∧
    entries.*1 = certs ∧
    (∀ e, e ∈ entries → (keys ← get_input_object_keys (locks (cert_digest e.1.1)) (cert_inputs e.1.1);
       Done (list_to_set (receiving_keys e.1.1) ∪ keys)) = Done e.2 ∧ ok e.1.1 e.2))
    as (entries & Hrun & Hfst & He).
  { induction certs as [|c certs IH]; [exists []; by split_and!; [..|set_solver]|].
    destruct IH as (entries & Hrun & Hfst & He); [intros; apply Hc; by right|].
    destruct (Hc c) as (keys & Hk & Hok); [left|]. exists ((c, keys) :: entries). split_and!.
    - apply mapM_Done. constructor; [|by apply mapM_Done].
      destruct (get_input_object_keys _ _) as [ks| |]; [|done..]. by injection Hk as <-.
    - cbn. by rewrite Hfst.
    - intros e [->|Hin]%elem_of_cons; [done|by apply He]. }
  unfold enqueue_keys. rewrite Hrun, bind_ret_l. eexists entries, _, _. split; [done|].
  destruct (insert_entries_loop entries ∅) as (_ & Hn & Hin). split_and!; [done| |].
  - intros e Hein. destruct (He e Hein). split_and!; [done..|]. intros k Hk. by eapply Hin.
  - apply Hn. intros k v. by rewrite lookup_empty.
Qed.
(** * An announcement *)

Lemma notify_commit_ok i d ks now :
  inner_ok i →
  ∃ i1 i' rs evs, notify_commit i d ks (inner_epoch i) now = Done (i', evs) ∧
    sent_of evs = map (set_ready_time now) rs ∧ delivered ks i i1 rs ∧ inner_ok i' ∧
    inner_epoch i' = inner_epoch i ∧
    available_objects_cache i' = foldl (λ c k, available_insert k c) (available_objects_cache i) ks ∧
    pending_certificates i' = pending_certificates i1 ∧
    executing_certificates i' = executing_certificates i1 ∖ {[d]}.
Proof.
  intros Hok. destruct (objects_available_ok ks i now Hok) as (i1 & rs & Hrun & Hdl & Hc).
  assert (sent_of (ready_events now rs) = map (set_ready_time now) rs) as Hsent.
  { unfold ready_events, sent_of. clear. induction rs as [|r rs IH]; [done|]. cbn. by f_equal. }
  pose proof (dl_ok _ _ _ _ Hdl) as Hok1. unfold notify_commit. rewrite Z.eqb_refl. simpl negb. cbv iota.
  rewrite Hrun, bind_ret_l. case_bool_decide as Hex.
  - exists i1. eexists _, rs, _. split; [done|]. split_and!; [|done| |apply (dl_epoch _ _ _ _ Hdl)|done..].
    + rewrite sent_of_app, Hsent. apply app_nil_r.
    + destruct Hok1 as [Hix Hpok]. split; [done|]. simpl. intros d' p Hdp.
      destruct (Hpok d' p Hdp) as (? & ? & ? & ?). split_and!; [done..|set_solver].
  - exists i1, i1, rs. eexists. split; [done|]. split_and!; [done|done|done|apply (dl_epoch _ _ _ _ Hdl)|done|done|set_solver].
Qed.
End queue.
