(* ===== verification/ObjectReads.v ===== *)
(** The reads of the execution cache that decide whether the input objects of a
    certificate are available (the trait ExecutionCacheRead of
    mgo-core/src/in_mem_execution_cache.rs, with the deletion markers of
    mgo-types/src/storage/mod.rs).  The five reads below the batched one are the
    methods the trait leaves to its implementations; a storage error ends the
    process at the caller's [expect], so reads are total here. *)
From S2P Require Import Prelude Objects TransactionManager.

Inductive MarkerValue :=
  | Received
  | OwnedDeleted
  | SharedDeleted (d : TransactionDigest).

(** What a store answers. *)
Record ExecutionCacheRead := {
  object_exists_by_key : ObjectID → SequenceNumber → bool;
  get_object_version : ObjectID → option SequenceNumber;
  get_latest_object_ref_or_tombstone : ObjectID → option ObjectRef;
  get_marker_value : ObjectID → SequenceNumber → Z → option MarkerValue;
  get_latest_marker : ObjectID → Z → option (SequenceNumber * MarkerValue);
}.

Section reads.
Context (r : ExecutionCacheRead).

Definition get_deleted_shared_object_previous_tx_digest (id : ObjectID) (version : SequenceNumber) (epoch : Z)
    : option TransactionDigest :=
  match get_marker_value r id version epoch with
  | Some (SharedDeleted digest) => Some digest
  | _ => None
  end.
Definition have_deleted_owned_object_at_version_or_after (id : ObjectID) (version : SequenceNumber)
    (epoch : Z) : bool :=
  match get_latest_marker r id epoch with
  | Some (marker_version, OwnedDeleted) => version <=? marker_version
  | _ => false
  end.

(** A key with a version: the body of the first loop. *)
Definition versioned_available (receiving_objects : gset InputKey) (epoch : Z) (input_key : InputKey)
    (version : SequenceNumber) (has_key : bool) : bool :=
  if has_key then true
  else if bool_decide (input_key ∈ receiving_objects) then
    default false ((λ v, version <=? v) <$> get_object_version r (key_id input_key)) ||
    have_deleted_owned_object_at_version_or_after (key_id input_key) version epoch
  else bool_decide (is_Some (get_deleted_shared_object_previous_tx_digest (key_id input_key) version epoch)).
(** A key without: a package. *)
Definition unversioned_available (input_key : InputKey) : bool :=
  match get_latest_object_ref_or_tombstone r (key_id input_key) with
  | None => false
  | Some entry => is_alive entry.2
  end.

Definition enumerate {A} (l : list A) : list (nat * A) := zip (seq 0 (length l)) l.
Definition result_le (a b : nat * bool) : Prop := (a.1 ≤ b.1)%nat.
#[global] Instance result_le_dec : RelDecision result_le.
Proof. intros a b. apply le_dec. Defined.

Definition multi_input_objects_available (keys : list InputKey) (receiving_objects : gset InputKey)
    (epoch : Z) : exec (list bool) :=
  let keys_with_version := filter (λ ik : nat * InputKey, is_Some (key_version ik.2)) (enumerate keys) in
  let keys_without_version := filter (λ ik : nat * InputKey, ¬ is_Some (key_version ik.2)) (enumerate keys) in
  versioned_results ← mapM (λ ik : nat * InputKey,
    version ← unwrap (key_version ik.2);
    Done (ik.1, versioned_available receiving_objects epoch ik.2 version
                  (object_exists_by_key r (key_id ik.2) version))) keys_with_version;
  let unversioned_results := map (λ ik : nat * InputKey, (ik.1, unversioned_available ik.2)) keys_without_version in
  Done (merge_sort result_le (versioned_results ++ unversioned_results)).*2.

(** The answer about one key. *)
Definition input_available (receiving_objects : gset InputKey) (epoch : Z) (k : InputKey) : bool :=
  match k with
  | VersionedObject id version =>
      versioned_available receiving_objects epoch k version (object_exists_by_key r id version)
  | PackageKey _ => unversioned_available k
  end.

(** * The batch answers each key in its place *)

#[local] Instance result_le_total : Total result_le.
Proof. intros a b. unfold result_le. lia. Qed.
#[local] Instance result_le_trans : Transitive result_le.
Proof. intros a b c. unfold result_le. lia. Qed.

Lemma seq_sorted {A} (l : list A) s :
  StronglySorted (λ a b : nat * A, (a.1 < b.1)%nat) (zip (seq s (length l)) l).
Proof.
  revert s. induction l as [|x l IH]; intros s; [constructor|]. cbn. constructor; [apply IH|].
  apply Forall_forall. intros [n y] Hin%elem_of_zip_l. apply elem_of_seq in Hin. simpl. lia.
Qed.

Lemma sorted_results (keys : list InputKey) (g : InputKey → bool) l :
  l ≡ₚ map (λ ik : nat * InputKey, (ik.1, g ik.2)) (enumerate keys) →
  merge_sort result_le l = map (λ ik : nat * InputKey, (ik.1, g ik.2)) (enumerate keys).
Proof.
  intros Hperm. pose proof (seq_sorted keys 0) as Hs. fold (enumerate keys) in Hs.
  assert (StronglySorted (λ a b : nat * bool, (a.1 < b.1)%nat)
    (map (λ ik : nat * InputKey, (ik.1, g ik.2)) (enumerate keys))) as Hs'.
  { clear Hperm. induction Hs as [|x l' Hs IH Hall]; [constructor|]. cbn. constructor; [done|].
    apply Forall_map. eapply Forall_impl; [done|]. simpl. lia. }
  symmetry. apply (StronglySorted_unique_strong result_le).
  - intros x1 x2 H1 H2 H12 H21. rewrite merge_sort_Permutation, Hperm in H2.
    clear Hs Hperm. unfold result_le in *.
    revert x1 x2 H1 H2 H12 H21. induction Hs' as [|x l' Hs' IH Hall]; [set_solver|].
    rewrite Forall_forall in Hall. intros x1 x2 [->|H1]%elem_of_cons [->|H2]%elem_of_cons H12 H21; [done|..].
    + specialize (Hall _ H2). simpl in *. lia.
    + specialize (Hall _ H1). simpl in *. lia.
    + by apply IH.
  - clear Hs Hperm. induction Hs' as [|x l' Hs' IH Hall]; constructor; [done|].
    eapply Forall_impl; [exact Hall|]. unfold result_le. simpl. lia.
  - apply (StronglySorted_merge_sort result_le).
  - by rewrite merge_sort_Permutation.
Qed.

Lemma multi_input_objects_available_exact keys receiving_objects epoch :
  multi_input_objects_available keys receiving_objects epoch =
  Done (map (input_available receiving_objects epoch) keys).
Proof.
  unfold multi_input_objects_available.
  rewrite (mapM_pure _ (λ ik : nat * InputKey, (ik.1, input_available receiving_objects epoch ik.2))).
  2: { intros [n k] [[v Hv] _]%list_elem_of_filter. simpl in *. rewrite Hv. simpl.
       by destruct k; simplify_eq/=. }
  rewrite bind_ret_l. f_equal.
  replace (map (λ ik : nat * InputKey, (ik.1, unversioned_available ik.2))
    (filter (λ ik : nat * InputKey, ¬ is_Some (key_version ik.2)) (enumerate keys)))
    with (map (λ ik : nat * InputKey, (ik.1, input_available receiving_objects epoch ik.2))
    (filter (λ ik : nat * InputKey, ¬ is_Some (key_version ik.2)) (enumerate keys))).
  2: { apply map_ext_in. intros [n k] [Hn _]%list_elem_of_In%list_elem_of_filter. simpl in *.
       destruct k; [|done]. destruct Hn. by eexists. }
  rewrite <-map_app, (sorted_results keys (input_available receiving_objects epoch)).
  - unfold enumerate. generalize 0%nat. induction keys as [|k keys IH]; intros s; [done|]. cbn.
    f_equal. apply IH.
  - apply Permutation_map. apply filter_app_complement.
Qed.
End reads.
