(* ===== verification/ManagerWorld.v ===== *)
(** The transaction manager among the threads that use it: calls of
    [enqueue_impl] that take the lock twice and read the store in between,
    transactions that commit, and commits that reach the manager later.  A
    [TmOp] is one step of one thread; [allowed] says what the callers guarantee.
    The theorems are in [ManagerSafety]. *)
From S2P Require Import Prelude Objects TransactionManager ManagerInvariant.
From S2P Require Import ManagerQueue ObjectReads.

Section world.
Context {Hlru : LruCache} {Hlrul : LruLaws} {Him : IndexMap} {Himl : IndexMapLaws}.
(** The versions assigned to shared objects, and the epoch the node is in. *)
Context (locks : TransactionDigest → gmap ObjectID SequenceNumber) (epoch : Z).

(** * States and steps *)

(** How far a call of [enqueue_impl] is; [seen] are the objects that were in the
    store when the call last asked the cache. *)
Inductive Phase :=
  | Keyed
  | Reading (seen : gset InputKey)
  | Answered (answers : list (bool * InputKey)).
Record Call := {
  call_entries : list EnqueueEntry;
  call_availability : Availability;
  call_receiving : gset InputKey;
  call_phase : Phase;
}.

Record World := {
  w_inner : Inner;
  w_calls : list Call;
  w_objects : gset InputKey;     (* what the store has, or had and deleted as shared *)
  w_tombstones : gset InputKey;  (* owned objects that were deleted *)
  w_executed : gset TransactionDigest;
  w_unnotified : list (TransactionDigest * list InputKey);
  w_sent : list PendingCertificate;
  w_enqueued : list Certificate;
}.
Definition World_new (objects tombstones : gset InputKey) (executed : gset TransactionDigest) : World := {|
  w_inner := Inner_new epoch; w_calls := []; w_objects := objects; w_tombstones := tombstones;
  w_executed := executed; w_unnotified := []; w_sent := []; w_enqueued := [] |}.

Inductive TmOp :=
  | OpBegin (certs : list (Certificate * option TransactionEffectsDigest))
  | OpLookup (n : nat)
  | OpRead (n : nat) (r : ExecutionCacheRead)
  | OpFinish (n : nat) (now : Instant)
  | OpCommit (digest : TransactionDigest) (outputs : list InputKey) (deleted : gset InputKey)
  | OpNotify (n : nat) (now : Instant).

Definition set_calls (i : Inner) (calls : list Call) (w : World) : World := {|
  w_inner := i; w_calls := calls; w_objects := w_objects w; w_tombstones := w_tombstones w;
  w_executed := w_executed w; w_unnotified := w_unnotified w; w_sent := w_sent w;
  w_enqueued := w_enqueued w |}.
Definition with_phase (A : Availability) (ph : Phase) (c : Call) : Call := {|
  call_entries := call_entries c; call_availability := A; call_receiving := call_receiving c;
  call_phase := ph |}.

Definition perform (w : World) (op : TmOp) : exec World :=
  match op with
  | OpBegin certs =>
      '(entries, availability, receiving) ← enqueue_keys locks (enqueue_filter (w_executed w) certs).1;
      Done {| w_inner := w_inner w;
              w_calls := w_calls w ++ [{| call_entries := entries; call_availability := availability;
                                          call_receiving := receiving; call_phase := Keyed |}];
              w_objects := w_objects w; w_tombstones := w_tombstones w; w_executed := w_executed w;
              w_unnotified := w_unnotified w; w_sent := w_sent w;
              w_enqueued := w_enqueued w ++ certs.*1 |}
  | OpLookup n =>
      c ← unwrap (w_calls w !! n);
      match call_phase c with
      | Keyed =>
          let '(i, A) := enqueue_lookup (w_inner w) (call_availability c) in
          Done (set_calls i (<[n := with_phase A (Reading (w_objects w)) c]> (w_calls w)) w)
      | _ => Panic
      end
  | OpRead n r =>
      c ← unwrap (w_calls w !! n);
      match call_phase c with
      | Reading _ =>
          let misses := cache_misses (call_availability c) in
          answers ← multi_input_objects_available r misses (call_receiving c) epoch;
          Done (set_calls (w_inner w)
            (<[n := with_phase (call_availability c) (Answered (zip answers misses)) c]> (w_calls w)) w)
      | _ => Panic
      end
  | OpFinish n now =>
      c ← unwrap (w_calls w !! n);
      match call_phase c with
      | Answered answers =>
          '(i, evs) ← enqueue_finish (w_inner w) (w_executed w) (call_entries c) (call_availability c)
                        answers now;
          Done {| w_inner := i; w_calls := delete n (w_calls w); w_objects := w_objects w;
                  w_tombstones := w_tombstones w; w_executed := w_executed w;
                  w_unnotified := w_unnotified w; w_sent := w_sent w ++ sent_of evs;
                  w_enqueued := w_enqueued w |}
      | _ => Panic
      end
  | OpCommit digest outputs deleted =>
      Done {| w_inner := w_inner w; w_calls := w_calls w;
              w_objects := list_to_set outputs ∪ w_objects w;
              w_tombstones := deleted ∪ w_tombstones w;
              w_executed := {[digest]} ∪ w_executed w;
              w_unnotified := w_unnotified w ++ [(digest, outputs)];
              w_sent := w_sent w; w_enqueued := w_enqueued w |}
  | OpNotify n now =>
      '(digest, outputs) ← unwrap (w_unnotified w !! n);
      '(i, evs) ← notify_commit (w_inner w) digest outputs epoch now;
      Done {| w_inner := i; w_calls := w_calls w; w_objects := w_objects w;
              w_tombstones := w_tombstones w; w_executed := w_executed w;
              w_unnotified := delete n (w_unnotified w); w_sent := w_sent w ++ sent_of evs;
              w_enqueued := w_enqueued w |}
  end.

(** * What the callers guarantee *)

(** The keys of a certificate. *)
Definition cert_keys (c : Certificate) : exec (gset InputKey) :=
  keys ← get_input_object_keys (locks (cert_digest c)) (cert_inputs c);
  Done (list_to_set (receiving_keys c) ∪ keys).

(** The object of a key is there, at its version or at a later one, or was. *)
Definition reached (objects tombstones : gset InputKey) (k : InputKey) : Prop :=
  match k with
  | VersionedObject id v => ∃ v', v ≤ v' ∧ VersionedObject id v' ∈ objects ∪ tombstones
  | PackageKey id => k ∈ objects
  end.

(** The answers of a store that has everything of [seen] and nothing but
    [objects], as those of a read that takes any time between the two. *)
Record store_view (r : ExecutionCacheRead) (receiving seen objects tombstones : gset InputKey) : Prop := {
  sv_exists : ∀ id v, object_exists_by_key r id v = true → VersionedObject id v ∈ objects;
  sv_latest : ∀ id v, get_object_version r id = Some v → VersionedObject id v ∈ objects;
  sv_shared : ∀ id v d, get_marker_value r id v epoch = Some (SharedDeleted d) →
    VersionedObject id v ∈ objects;
  sv_owned : ∀ id v, get_latest_marker r id epoch = Some (v, OwnedDeleted) →
    VersionedObject id v ∈ tombstones;
  sv_package : ∀ id ref, get_latest_object_ref_or_tombstone r id = Some ref → is_alive ref.2 = true →
    PackageKey id ∈ objects;
  sv_seen : ∀ id v, VersionedObject id v ∈ seen →
    object_exists_by_key r id v = true ∨
    (if decide (VersionedObject id v ∈ receiving) then
       (∃ v', get_object_version r id = Some v' ∧ v ≤ v') ∨
       (∃ v', get_latest_marker r id epoch = Some (v', OwnedDeleted) ∧ v ≤ v')
     else ∃ d, get_marker_value r id v epoch = Some (SharedDeleted d));
  sv_seen_package : ∀ id, PackageKey id ∈ seen →
    ∃ ref, get_latest_object_ref_or_tombstone r id = Some ref ∧ is_alive ref.2 = true;
}.

(** The keys of the commits the manager has not heard of. *)
Definition unheard (l : list (TransactionDigest * list InputKey)) : list InputKey := l ≫= snd.

(** A version is announced after the later ones only while the cache
    remembers those. *)
Fixpoint in_order (objects : gset InputKey) (rest : list InputKey) (c : AvailableObjectsCache)
    (outputs : list InputKey) : Prop :=
  match outputs with
  | [] => True
  | k :: outputs =>
      (∀ v', key_version k ≠ None → VersionedObject (key_id k) v' ∈ objects →
         v' ≤ default 0 (key_version k) ∨ VersionedObject (key_id k) v' ∈ rest ∨
         ∃ w, versions c !! key_id k = Some w ∧ v' ≤ w) ∧
      in_order objects rest (available_insert k c) outputs
  end.

Definition allowed (w : World) (op : TmOp) : Prop :=
  match op with
  | OpBegin certs =>
      (∀ c, c ∈ certs.*1 → ∃ keys, cert_keys c = Done keys ∧ distinct_ids keys) ∧
      (∀ c c', c ∈ certs.*1 → c' ∈ w_enqueued w ++ certs.*1 → cert_digest c = cert_digest c' → c = c')
  | OpLookup n => ∃ c, w_calls w !! n = Some c ∧ call_phase c = Keyed
  | OpRead n r => ∃ c seen, w_calls w !! n = Some c ∧ call_phase c = Reading seen ∧
      store_view r (call_receiving c) seen (w_objects w) (w_tombstones w)
  | OpFinish n _ => ∃ c answers, w_calls w !! n = Some c ∧ call_phase c = Answered answers
  | OpCommit _ _ _ => True
  | OpNotify n _ => ∃ d outputs, w_unnotified w !! n = Some (d, outputs) ∧
      in_order (w_objects w) (unheard (delete n (w_unnotified w)))
        (available_objects_cache (w_inner w)) outputs
  end.

Inductive reachable : World → Prop :=
  | reachable_new objects tombstones executed : reachable (World_new objects tombstones executed)
  | reachable_step w op w' : reachable w → allowed w op → perform w op = Done w' → reachable w'.
End world.
