(* ===== verification/ManagerLedger.v ===== *)
(** The transaction manager's books: its cache against the store, the waiting
    and the sent certificates against what has been announced, and how the
    critical sections keep them. *)
From S2P Require Import Prelude Objects TransactionManager ManagerInvariant.
From S2P Require Import ManagerQueue ObjectReads ManagerWorld.

Section books.
Context {Hlru : LruCache} {Hlrul : LruLaws} {Him : IndexMap} {Himl : IndexMapLaws}.
Context (locks : TransactionDigest → gmap ObjectID SequenceNumber).

(** * The cache against the store *)

(** What the cache holds is in the store. *)
Definition cache_sound (objects : gset InputKey) (c : AvailableObjectsCache) : Prop :=
  (∀ id v, versions c !! id = Some v → VersionedObject id v ∈ objects) ∧
  (∀ id, is_Some (packages c !! id) → PackageKey id ∈ objects).
(** A version the cache denies is not there, or is still to be announced. *)
Definition cache_complete (objects : gset InputKey) (U : list InputKey) (c : AvailableObjectsCache) : Prop :=
  ∀ id w v, versions c !! id = Some w → VersionedObject id v ∈ objects → v ≤ w ∨ VersionedObject id v ∈ U.
(** A key found missing is so, or will be announced, or is found in the cache. *)
Definition settled (objects : gset InputKey) (U : list InputKey) (c : AvailableObjectsCache) (k : InputKey)
    : Prop := k ∉ objects ∨ k ∈ U ∨ cached c k = Some true.

Lemma cached_reached objects T c k :
  cache_sound objects c → cached c k = Some true → reached objects T k.
Proof.
  intros [Hv Hp]. destruct k as [id v|id]; simpl.
  - destruct (versions c !! id) as [w|] eqn:Hw; [|done]. simpl. intros [= Hle]. bool_prop.
    exists w. split; [lia|]. apply elem_of_union_l. by apply Hv.
  - destruct (packages c !! id) as [[]|] eqn:Hid; [|done]. intros _. apply Hp. by rewrite Hid.
Qed.
Lemma cached_settled objects U c k :
  cache_complete objects U c → cached c k = Some false → settled objects U c k.
Proof.
  intros Hc. destruct k as [id v|id]; simpl.
  - destruct (versions c !! id) as [w|] eqn:Hw; [|done]. simpl. intros [= Hle]. bool_prop.
    destruct (decide (VersionedObject id v ∈ objects)) as [Hin|Hin]; [|by left].
    destruct (Hc id w v Hw Hin); [lia|by right; left].
  - by destruct (packages c !! id).
Qed.

Lemma reached_mono O O' T T' k : O ⊆ O' → T ⊆ T' → reached O T k → reached O' T' k.
Proof.
  intros HO HT. destruct k as [id v|id]; simpl; [|set_solver].
  intros (v' & Hle & Hin). exists v'. split; [done|set_solver].
Qed.
Lemma cache_sound_mono O O' c : O ⊆ O' → cache_sound O c → cache_sound O' c.
Proof. intros HO [Hv Hp]. split; intros; apply HO; [by apply Hv|by apply Hp]. Qed.
Lemma cache_sound_ext O c c' :
  versions c' = versions c → packages c' = packages c → cache_sound O c → cache_sound O c'.
Proof. unfold cache_sound. by intros -> ->. Qed.
Lemma cache_complete_ext O U c c' : versions c' = versions c → cache_complete O U c → cache_complete O U c'.
Proof. unfold cache_complete. by intros ->. Qed.
Lemma settled_grows O U c c' k : cache_grows c c' → settled O U c k → settled O U c' k.
Proof. intros Hg [?|[?|?]]; [by left|by right; left|right; right]. by eapply cached_grows. Qed.

(** An announcement. *)
Abbreviation announce c ks := (foldl (λ c0 k0, available_insert k0 c0) c ks).

Lemma announce_enabled ks c : unbounded_cache_enabled (announce c ks) = unbounded_cache_enabled c.
Proof.
  revert c. induction ks as [|k ks IH]; intros c; [done|]. cbn [foldl]. rewrite IH.
  apply available_insert_ok.
Qed.
Lemma announce_grows ks c :
  unbounded_cache_enabled c ≠ 0%nat →
  cache_grows c (announce c ks) ∧ ∀ k, k ∈ ks → cached (announce c ks) k = Some true.
Proof.
  revert c. induction ks as [|k ks IH]; intros c H0; [split; [done|set_solver]|]. cbn [foldl].
  destruct (insert_grows k c H0) as [Hg Hk].
  destruct (IH (available_insert k c)) as [Hg' Hks].
  { by destruct (available_insert_ok k c) as [-> _]. }
  split; [by etransitivity|]. intros k' [->|Hk']%elem_of_cons; [by eapply cached_grows|by apply Hks].
Qed.
Lemma announce_sound O ks c :
  cache_sound O c → (∀ k, k ∈ ks → k ∈ O) → cache_sound O (announce c ks).
Proof.
  revert c. induction ks as [|k ks IH]; intros c Hs Hks; [done|]. cbn [foldl].
  apply IH; [|intros; apply Hks; by right]. destruct Hs as [Hv Hp].
  destruct (available_insert_ok k c) as (_ & Hv' & Hp' & _).
  assert (k ∈ O) as Hk by (apply Hks; left). split.
  - intros id v Hid. eapply lookup_weaken in Hid; [|exact Hv']. unfold inserted in Hid.
    destruct k as [id' v'|id']; [|by apply Hv]. apply lookup_insert_Some in Hid as [[<- <-]|[_ Hid]]; [|by apply Hv].
    destruct (versions c !! id') as [w|] eqn:Hw; [|done].
    destruct (Z.max_spec w v') as [[_ ->]|[_ ->]]; [done|by apply Hv].
  - intros id [x Hid]. eapply lookup_weaken in Hid; [|exact Hp']. unfold inserted_packages in Hid.
    destruct k as [id' v'|id']; [apply Hp; by rewrite Hid|].
    apply lookup_insert_Some in Hid as [[<- _]|[_ Hid]]; [done|]. apply Hp. by rewrite Hid.
Qed.
Lemma announce_complete O rest ks c :
  cache_complete O (ks ++ rest) c → in_order O rest c ks → cache_complete O rest (announce c ks).
Proof.
  revert c. induction ks as [|k ks IH]; intros c Hc Hord; [done|]. destruct Hord as [Hk Hord].
  cbn [foldl]. apply IH; [|done]. intros id w v Hid Hv.
  destruct (available_insert_ok k c) as (_ & Hv' & _ & _). eapply lookup_weaken in Hid; [|exact Hv'].
  assert (versions c !! id = Some w → VersionedObject id v ≠ k →
    v ≤ w ∨ VersionedObject id v ∈ ks ++ rest) as Hold.
  { intros Hid' Hne. destruct (Hc id w v Hid' Hv) as [|[Heq|?]%elem_of_cons]; [by left|by destruct Hne|by right]. }
  unfold inserted in Hid. destruct k as [id' v'|id']; [|by apply Hold].
  apply lookup_insert_Some in Hid as [[<- <-]|[Hne Hid]]; [|apply Hold; [done|congruence]].
  destruct (Hk v) as [Hle|[?|(x & Hx & Hle)]]; [done|done|..]; simpl in *.
  - left. destruct (versions c !! id'); lia.
  - right. apply elem_of_app. by right.
  - left. rewrite Hx. lia.
Qed.
Lemma announce_settled O rest ks c k :
  unbounded_cache_enabled c ≠ 0%nat → settled O (ks ++ rest) c k → settled O rest (announce c ks) k.
Proof.
  intros H0. destruct (announce_grows ks c H0) as [Hg Hks].
  intros [?|[[?|?]%elem_of_app|?]]; [by left|right; right; by apply Hks|by right; left|].
  right; right. by eapply cached_grows.
Qed.

(** * The manager's books *)

(** A waiting certificate waits for some of its keys, which are not announced
    yet, and has the others. *)
Definition waiting_ok (O T : gset InputKey) (U : list InputKey) (p : PendingCertificate) : Prop :=
  (∀ k, k ∈ waiting_input_objects p → k ∉ O ∨ k ∈ U) ∧
  ∀ keys, cert_keys locks (certificate p) = Done keys →
    waiting_input_objects p ⊆ keys ∧ ∀ k, k ∈ keys → k ∈ waiting_input_objects p ∨ reached O T k.
Definition inputs_reached (O T : gset InputKey) (p : PendingCertificate) : Prop :=
  ∀ keys, cert_keys locks (certificate p) = Done keys → ∀ k, k ∈ keys → reached O T k.

Record ledger (O T : gset InputKey) (U : list InputKey) (X : gset TransactionDigest) (K : list Certificate)
    (i : Inner) (sent : list PendingCertificate) : Prop := {
  lg_pending : ∀ d p, pending_certificates i !! d = Some p →
    certificate p ∈ K ∧ d ∉ map digest_of sent ∧ waiting_ok O T U p;
  lg_nodup : NoDup (map digest_of sent);
  lg_sent : ∀ p, p ∈ sent → certificate p ∈ K ∧ inputs_reached O T p ∧
    (digest_of p ∈ executing_certificates i ∨ digest_of p ∈ X);
  lg_executing : ∀ d, d ∈ executing_certificates i → d ∈ map digest_of sent;
}.
(** Where a certificate of the right epoch is once it is enqueued. *)
Definition placed (X : gset TransactionDigest) (i : Inner) (sent : list PendingCertificate)
    (d : TransactionDigest) : Prop :=
  is_Some (pending_certificates i !! d) ∨ d ∈ map digest_of sent ∨ d ∈ X.

Lemma ledger_mono O O' T T' U U' X X' K K' i sent :
  O ⊆ O' → T ⊆ T' → X ⊆ X' → (∀ c, c ∈ K → c ∈ K') → (∀ k, k ∉ O ∨ k ∈ U → k ∉ O' ∨ k ∈ U') →
  ledger O T U X K i sent → ledger O' T' U' X' K' i sent.
Proof.
  intros HO HT HX HK HU [Hp Hnd Hs He]. split; [|done|..|done].
  - intros d p Hdp. destruct (Hp d p Hdp) as (? & ? & Hw & Hkeys). split_and!; [by apply HK|done|split].
    + intros k Hk. by apply HU, Hw.
    + intros keys Hck. destruct (Hkeys keys Hck) as [? Hr]. split; [done|]. intros k Hk.
      destruct (Hr k Hk); [by left|right]. by eapply reached_mono.
  - intros p Hin. destruct (Hs p Hin) as (? & Hr & Hx). split_and!; [by apply HK| |set_solver].
    intros keys Hck k Hk. eapply reached_mono; [done..|]. by eapply Hr.
Qed.

(** A digest not in the books has not been sent. *)
Lemma ledger_fresh O T U X K i sent d :
  ledger O T U X K i sent → d ∉ executing_certificates i → d ∉ X → d ∉ map digest_of sent.
Proof.
  intros Hl Hx HX (p & -> & Hin)%list_elem_of_fmap.
  by destruct (lg_sent _ _ _ _ _ _ _ Hl p Hin) as (_ & _ & [?|?]).
Qed.

Lemma ledger_send O T U X K i i' sent p :
  ledger O T U X K i sent → digest_of p ∉ map digest_of sent → pending_certificates i !! digest_of p = None →
  certificate p ∈ K → inputs_reached O T p → pending_certificates i' = pending_certificates i →
  executing_certificates i' = {[digest_of p]} ∪ executing_certificates i →
  ledger O T U X K i' (sent ++ [p]).
Proof.
  intros [Hp Hnd Hs He] Hni Hnone HK Hr Hpi Hei. split.
  - intros d q. rewrite Hpi. intros Hdq. destruct (Hp d q Hdq) as (? & ? & ?). split_and!; [done| |done].
    rewrite map_app, elem_of_app. intros [?|Heq%list_elem_of_singleton]; [done|congruence].
  - rewrite map_app. apply NoDup_app. split_and!; [done| |apply NoDup_singleton].
    intros d Hd ->%list_elem_of_singleton. done.
  - intros q [Hq| ->%list_elem_of_singleton]%elem_of_app; rewrite Hei.
    + destruct (Hs q Hq) as (? & ? & ?). split_and!; [done..|set_solver].
    + split_and!; [done..|set_solver].
  - intros d. rewrite Hei, map_app, elem_of_app. intros [->%elem_of_singleton|Hd]%elem_of_union; [right; left|].
    left. by apply He.
Qed.
Lemma ledger_wait O T U X K i i' sent p :
  ledger O T U X K i sent → digest_of p ∉ map digest_of sent → certificate p ∈ K → waiting_ok O T U p →
  pending_certificates i' = <[digest_of p := p]> (pending_certificates i) →
  executing_certificates i' = executing_certificates i → ledger O T U X K i' sent.
Proof.
  intros [Hp Hnd Hs He] Hni HK Hw Hpi Hei. split; [|done|rewrite Hei; done..].
  intros d q. rewrite Hpi. intros [[<- <-]|[_ Hdq]]%lookup_insert_Some; [done|by apply Hp].
Qed.

Lemma ledger_enqueued O T U X K A cert keys i i' sent s' :
  ledger O T U X K i sent → cert ∈ K → cert_keys locks cert = Done keys →
  (∀ k, k ∈ keys → if denied A k then k ∉ O ∨ k ∈ U else reached O T k) →
  enqueued X A cert keys i i' s' →
  ledger O T U X K i' (sent ++ s') ∧
  (∀ d, placed X i sent d → placed X i' (sent ++ s') d) ∧
  (cert_epoch cert = inner_epoch i → placed X i' (sent ++ s') (cert_digest cert)).
Proof.
  intros Hl HK Hck HA Henq.
  assert (∀ p : PendingCertificate, certificate p = cert → digest_of p = cert_digest cert) as Hdg by by intros p <-.
  destruct Henq as [Hskip|i' p Hnp Hnx HnX Hm Hc Hpi Hei|i' p Hnp Hnx HnX Hm Hc Hw Hpi Hei].
  - rewrite app_nil_r. split_and!; [done..|]. intros He. unfold placed.
    destruct Hskip as [?|[?|[?|?]]]; [congruence|by left| |by right; right].
    right; left. by apply (lg_executing _ _ _ _ _ _ _ Hl).
  - specialize (Hdg p Hc). split_and!.
    + apply (ledger_send _ _ _ _ _ i); rewrite ?Hdg, ?Hc; try done; [by eapply ledger_fresh|].
      intros keys'. rewrite Hc, Hck. intros [= <-] k Hk. specialize (HA k Hk).
      destruct (denied A k) eqn:Hden; [|done].
      assert (k ∈ missing_keys A keys) by by apply elem_of_missing_keys. set_solver.
    + intros d. unfold placed. rewrite Hpi, map_app, elem_of_app. naive_solver.
    + intros _. right; left. rewrite map_app, elem_of_app. right. simpl. rewrite Hdg. left.
  - specialize (Hdg p Hc). rewrite app_nil_r. split_and!.
    + apply (ledger_wait _ _ _ _ _ i _ _ p); rewrite ?Hdg, ?Hc; try done; [by eapply ledger_fresh|]. split.
      * rewrite Hw. intros k [Hk Hden]%elem_of_missing_keys. specialize (HA k Hk). by rewrite Hden in HA.
      * intros keys'. rewrite Hc, Hck, Hw. intros [= <-]. split.
        { by intros k [? _]%elem_of_missing_keys. }
        intros k Hk. rewrite elem_of_missing_keys. specialize (HA k Hk). destruct (denied A k); [by left|by right].
    + intros d. unfold placed. rewrite Hpi. destruct (decide (d = cert_digest cert)) as [->|].
      * rewrite lookup_insert_eq. by left.
      * by rewrite lookup_insert_ne.
    + intros _. left. by rewrite Hpi, lookup_insert_eq.
Qed.

Lemma ledger_delivered O T ks rest X K i i1 i' sent rs now d :
  ledger O T (ks ++ rest) X K i sent → delivered ks i i1 rs → (∀ k, k ∈ ks → k ∈ O) → d ∈ X →
  pending_certificates i' = pending_certificates i1 →
  executing_certificates i' = executing_certificates i1 ∖ {[d]} →
  ledger O T rest X K i' (sent ++ map (set_ready_time now) rs) ∧
  (∀ d', placed X i sent d' → placed X i' (sent ++ map (set_ready_time now) rs) d').
Proof.
  intros [Hp Hnd Hs He] Hdl HO HdX Hpi Hei.
  assert (map digest_of (map (set_ready_time now) rs) = map digest_of rs) as Hdg.
  { rewrite map_map. by apply map_ext. }
  assert (∀ k, k ∈ ks → reached O T k) as Hks.
  { intros [id v|id] Hk%HO; [|done]. exists v. split; [lia|set_solver]. }
  split; [split|].
  - intros d' p'. rewrite Hpi. intros Hdp'.
    destruct (dl_pending _ _ _ _ Hdl d' p' Hdp') as (p & Hdp & Hc & Hsub & Hno & Hor).
    destruct (Hp d' p Hdp) as (HK & Hns & Hw & Hkeys). rewrite Hc. split_and!; [done| |split].
    + rewrite map_app, Hdg, elem_of_app. intros [?|Hin]; [done|].
      destruct (io_pending i1 (dl_ok _ _ _ _ Hdl) d' p' Hdp') as (_ & _ & _ & Hnx). apply Hnx.
      rewrite (dl_executing _ _ _ _ Hdl). apply elem_of_union_l. by apply elem_of_list_to_set.
    + intros k Hk. destruct (Hw k (Hsub k Hk)) as [?|[Hk'|?]%elem_of_app]; [by left| |by right].
      by destruct (Hno k Hk').
    + intros keys. rewrite Hc. intros Hck. destruct (Hkeys keys Hck) as [Hwk Hr]. split; [by etransitivity|].
      intros k Hk. destruct (Hr k Hk) as [Hkw|]; [|by right].
      destruct (Hor k Hkw); [by left|right; by apply Hks].
  - rewrite map_app, Hdg. apply NoDup_app. split_and!; [done| |apply (dl_nodup _ _ _ _ Hdl)].
    intros d' Hd' (r & -> & Hr)%list_elem_of_fmap. destruct (dl_ready _ _ _ _ Hdl r Hr) as (p & Hdp & _).
    by destruct (Hp _ _ Hdp) as (_ & ? & _).
  - intros q [Hq|(r & -> & Hr)%list_elem_of_fmap]%elem_of_app.
    + destruct (Hs q Hq) as (? & ? & Hex). split_and!; [done..|]. rewrite Hei, (dl_executing _ _ _ _ Hdl).
      destruct (decide (digest_of q = d)) as [->|]; [by right|set_solver].
    + destruct (dl_ready _ _ _ _ Hdl r Hr) as (p & Hdp & Hc & Hall).
      destruct (Hp _ _ Hdp) as (HK & _ & _ & Hkeys). split_and!.
      * simpl. by rewrite Hc.
      * intros keys. simpl. rewrite Hc. intros Hck k Hk. destruct (Hkeys keys Hck) as [_ Hr'].
        destruct (Hr' k Hk); [by apply Hks, Hall|done].
      * rewrite Hei, (dl_executing _ _ _ _ Hdl). change (digest_of (set_ready_time now r)) with (digest_of r).
        destruct (decide (digest_of r = d)) as [->|]; [by right|left].
        apply elem_of_difference. split; [|set_solver]. apply elem_of_union_l, elem_of_list_to_set.
        apply list_elem_of_fmap. by exists r.
  - intros d'. rewrite Hei, (dl_executing _ _ _ _ Hdl), map_app, Hdg, elem_of_app.
    intros [[Hin%elem_of_list_to_set|Hin]%elem_of_union _]%elem_of_difference; [by right|left; by apply He].
  - intros d'. unfold placed. rewrite Hpi, map_app, Hdg, elem_of_app. intros [Hd'|[?|?]]; [|by right; left; left|by right; right].
    destruct (dl_kept _ _ _ _ Hdl d' Hd'); [by left|by right; left; right].
Qed.
End books.
