(* ===== verification/ManagerSafety.v ===== *)
(** What the transaction manager guarantees whatever the interleaving of its
    callers: no assertion fails, a certificate is sent once and only when its
    inputs are there, and no certificate is left waiting for an input that has
    been announced. *)
From S2P Require Import Prelude Objects TransactionManager ManagerInvariant.
From S2P Require Import ManagerQueue ObjectReads ManagerWorld ManagerLedger.
From S2P Require Import MapSums.

Section safety.
Context {Hlru : LruCache} {Hlrul : LruLaws} {Him : IndexMap} {Himl : IndexMapLaws}.
Context (locks : TransactionDigest → gmap ObjectID SequenceNumber) (epoch : Z).

(** * The invariant *)

(** What is known of the answers a call has, for predicates [R] of the keys
    that are there and [S] of those found missing. *)
Definition answer_ok (R S : InputKey → Prop) (b : bool) (k : InputKey) : Prop := if b then R k else S k.
Definition phase_ok (R S : InputKey → Prop) (A : Availability) (ph : Phase) : Prop :=
  match ph with
  | Keyed => ∀ k v, A !! k = Some v → v = None
  | Reading seen =>
      (∀ k b, A !! k = Some (Some b) → answer_ok R S b k) ∧
      (∀ k, A !! k = Some None → k ∉ seen → S k)
  | Answered answers =>
      (∀ k b, A !! k = Some (Some b) → answer_ok R S b k) ∧
      NoDup answers.*2 ∧ (∀ k, k ∈ answers.*2 ↔ A !! k = Some None) ∧
      (∀ b k, (b, k) ∈ answers → answer_ok R S b k)
  end.
Definition entries_ok (K : list Certificate) (A : Availability) (entries : list EnqueueEntry) : Prop :=
  ∀ e, e ∈ entries → e.1.1 ∈ K ∧ cert_keys locks e.1.1 = Done e.2 ∧ distinct_ids e.2 ∧
    ∀ k, k ∈ e.2 → is_Some (A !! k).
Definition call_ok (K : list Certificate) (R S : InputKey → Prop) (c : Call) : Prop :=
  entries_ok K (call_availability c) (call_entries c) ∧ phase_ok R S (call_availability c) (call_phase c).

(** The calls that have asked the cache and not finished. *)
Definition in_flight (c : Call) : bool := match call_phase c with Keyed => false | _ => true end.
Definition count_in_flight (calls : list Call) : nat := length (filter (λ c, in_flight c = true) calls).

Abbreviation w_cache w := (available_objects_cache (w_inner w)).
Abbreviation w_unheard w := (unheard (w_unnotified w)).
Abbreviation w_settled w := (settled (w_objects w) (w_unheard w) (w_cache w)).
Abbreviation w_reached w := (reached (w_objects w) (w_tombstones w)).

Record world_ok (w : World) : Prop := {
  wo_inner : inner_ok (w_inner w);
  wo_epoch : inner_epoch (w_inner w) = epoch;
  wo_enabled : unbounded_cache_enabled (w_cache w) = count_in_flight (w_calls w);
  wo_sound : cache_sound (w_objects w) (w_cache w);
  wo_complete : cache_complete (w_objects w) (w_unheard w) (w_cache w);
  wo_calls : ∀ c, c ∈ w_calls w → call_ok (w_enqueued w) (w_reached w) (w_settled w) c;
  wo_ledger : ledger locks (w_objects w) (w_tombstones w) (w_unheard w) (w_executed w) (w_enqueued w)
    (w_inner w) (w_sent w);
  wo_unnotified : ∀ d outputs, (d, outputs) ∈ w_unnotified w →
    d ∈ w_executed w ∧ ∀ k, k ∈ outputs → k ∈ w_objects w;
  wo_placed : ∀ c, c ∈ w_enqueued w → cert_epoch c = epoch →
    placed (w_executed w) (w_inner w) (w_sent w) (cert_digest c) ∨
    ∃ call e, call ∈ w_calls w ∧ e ∈ call_entries call ∧ e.1.1 = c;
  wo_digests : ∀ c c', c ∈ w_enqueued w → c' ∈ w_enqueued w → cert_digest c = cert_digest c' → c = c';
}.

Lemma call_ok_mono K K' (R R' S S' : InputKey → Prop) c :
  (∀ x, x ∈ K → x ∈ K') → (∀ k, R k → R' k) → (in_flight c = true → ∀ k, S k → S' k) →
  call_ok K R S c → call_ok K' R' S' c.
Proof.
  intros HK HR HS [He Hph]. split.
  - intros e Hin. destruct (He e Hin) as (? & ?). split; [by apply HK|done].
  - unfold in_flight in HS. destruct (call_phase c) as [|seen|answers]; simpl in *; [done|..];
      specialize (HS eq_refl); assert (∀ b k, answer_ok R S b k → answer_ok R' S' b k) as Ha
      by (intros []; simpl; auto).
    + destruct Hph as (? & ?). split; eauto.
    + destruct Hph as (? & ? & ? & ?). split_and!; eauto.
Qed.

Lemma count_split (calls : list Call) n c :
  calls !! n = Some c →
  (count_in_flight calls = (if in_flight c then 1 else 0) + count_in_flight (delete n calls))%nat ∧
  ∀ c', (count_in_flight (<[n := c']> calls) = (if in_flight c' then 1 else 0) +
           count_in_flight (delete n calls))%nat.
Proof.
  intros Hn. pose proof (lookup_lt_Some _ _ _ Hn) as Hlt. unfold count_in_flight.
  assert (∀ x, length (filter (λ c, in_flight c = true) (take n calls ++ x :: drop (S n) calls)) =
    (if in_flight x then 1 else 0) +
    length (filter (λ c, in_flight c = true) (delete n calls)))%nat as Hx.
  { intros x. rewrite delete_take_drop, !filter_app, filter_cons, !length_app.
    destruct (in_flight x) eqn:Hf; simpl; lia. }
  split.
  - by rewrite <-(take_drop_middle calls n c Hn) at 1.
  - intros c'. by rewrite insert_take_drop.
Qed.
Lemma in_flight_count (calls : list Call) c : c ∈ calls → in_flight c = true → count_in_flight calls ≠ 0%nat.
Proof.
  intros Hin Hf. unfold count_in_flight. assert (c ∈ filter (λ c, in_flight c = true) calls) as Hc
    by by apply list_elem_of_filter. destruct (filter _ calls); [set_solver|simpl; lia].
Qed.

(** * Steps keep it *)

Lemma world_new_ok objects tombstones executed : world_ok (World_new epoch objects tombstones executed).
Proof.
  assert (versions AvailableObjectsCache_new = ∅ ∧ packages AvailableObjectsCache_new = ∅) as [Hv Hp].
  { split; apply lru_map_unbounded. }
  split; simpl; try done; try set_solver.
  - split; [split|]; simpl.
    + intros k d. rewrite lookup_empty. unfold waits. split; [by intros (? & ? & _)|].
      intros (p & Hp' & _). by rewrite lookup_empty in Hp'.
    + intros k ds. by rewrite lookup_empty.
    + intros id d. rewrite lookup_empty. split; [by intros (? & ? & _)|].
      intros (k & (p & Hp' & _) & _). by rewrite lookup_empty in Hp'.
    + intros d p. by rewrite lookup_empty.
  - unfold cache_sound. rewrite Hv, Hp. split; intros id; rewrite lookup_empty; [done|by intros []].
  - intros id w v. rewrite Hv. by rewrite lookup_empty.
  - split; simpl; [intros d p; by rewrite lookup_empty|constructor|set_solver..].
Qed.

Lemma begin_ok w certs :
  world_ok w → allowed locks epoch w (OpBegin certs) →
  ∃ w', perform locks epoch w (OpBegin certs) = Done w' ∧ world_ok w'.
Proof.
  intros [Hi He Hn Hs Hc Hcalls Hl Hu Hp Hd] [Hkeys Huniq]. cbn [perform].
  destruct (enqueue_keys_ok locks (enqueue_filter (w_executed w) certs).1 (λ _, distinct_ids))
    as (entries & A & receiving & -> & Hfst & Hent & HA).
  { intros c [_ Hin]%list_elem_of_filter. apply Hkeys, list_elem_of_fmap. by exists c. }
  rewrite bind_ret_l. eexists. split; [done|].
  assert (∀ e, e ∈ entries → e.1.1 ∈ certs.*1) as Hsub.
  { intros e Hin. assert (e.1 ∈ entries.*1) as Hin1 by (apply list_elem_of_fmap; by exists e).
    rewrite Hfst in Hin1. apply list_elem_of_filter in Hin1 as [_ Hin1]. apply list_elem_of_fmap. by exists e.1. }
  split; simpl; try done.
  - unfold count_in_flight. rewrite filter_app. simpl. rewrite app_nil_r. exact Hn.
  - intros c [Hin| ->%list_elem_of_singleton]%elem_of_app.
    + eapply call_ok_mono; [|done|done|by apply Hcalls]. set_solver.
    + split; simpl; [|done]. intros e Hin. destruct (Hent e Hin) as (? & ? & ?).
      split_and!; [|done..]. apply elem_of_app. right. by apply Hsub.
  - eapply ledger_mono; [done..| |done|exact Hl]. set_solver.
  - intros c [Hin|Hin]%elem_of_app Hep.
    + destruct (Hp c Hin Hep) as [?|(call & e & ? & ?)]; [by left|right]. exists call, e. set_solver.
    + destruct (decide (cert_digest c ∈ w_executed w)) as [?|Hnx]; [left; by right; right|right].
      apply list_elem_of_fmap in Hin as (ce & -> & Hin).
      assert (ce ∈ entries.*1) as (e & Heq & Hine)%list_elem_of_fmap.
      { rewrite Hfst. by apply list_elem_of_filter. }
      eexists _, e. split; [apply elem_of_app; right; left|]. simpl. by rewrite Heq.
  - intros c c' [Hin|Hin]%elem_of_app [Hin'|Hin']%elem_of_app Heq; [by apply Hd|..].
    + symmetry. apply Huniq; [done|set_solver|done].
    + apply Huniq; [done|set_solver|done].
    + apply Huniq; [done|set_solver|done].
Qed.

Lemma calls_insert (P : Call → Prop) (calls : list Call) n c' :
  (∀ x, x ∈ calls → P x) → P c' → ∀ x, x ∈ <[n := c']> calls → P x.
Proof.
  intros Hall Hc' x Hin. apply list_elem_of_lookup in Hin as [j Hj].
  apply list_lookup_insert_Some in Hj as [(_ & <- & _)|[_ Hj]]; [done|].
  apply Hall, list_elem_of_lookup. by exists j.
Qed.
(** A call that only gets further keeps its certificates in the world. *)
Lemma placed_insert (calls : list Call) n c c' (Q : Prop) x :
  calls !! n = Some c → call_entries c' = call_entries c →
  (Q ∨ ∃ call e, call ∈ calls ∧ e ∈ call_entries call ∧ e.1.1 = x) →
  Q ∨ ∃ call e, call ∈ <[n := c']> calls ∧ e ∈ call_entries call ∧ e.1.1 = x.
Proof.
  intros Hn He [?|(call & e & Hin & Hine & Hx)]; [by left|right].
  apply list_elem_of_lookup in Hin as [j Hj]. pose proof (lookup_lt_Some _ _ _ Hn).
  destruct (decide (n = j)) as [<-|Hne].
  - exists c', e. split_and!; [|rewrite He; congruence|done]. apply list_elem_of_lookup. exists n.
    by apply list_lookup_insert_eq.
  - exists call, e. split_and!; [|done..]. apply list_elem_of_lookup. exists j.
    by rewrite list_lookup_insert_ne.
Qed.

Lemma lookup_ok w n :
  world_ok w → allowed locks epoch w (OpLookup n) →
  ∃ w', perform locks epoch w (OpLookup n) = Done w' ∧ world_ok w'.
Proof.
  intros [Hi He Hn Hs Hc Hcalls Hl Hu Hp Hd] (c & Hcn & Hph). simpl. rewrite Hcn. simpl. rewrite Hph.
  assert (c ∈ w_calls w) as Hin by (apply list_elem_of_lookup; by exists n).
  destruct (Hcalls c Hin) as [Hent Hkeyed]. rewrite Hph in Hkeyed. simpl in Hkeyed.
  destruct (enqueue_lookup_ok (w_inner w) (call_availability c) Hkeyed)
    as (ca & A & -> & Hv & Hpk & Hen & HA).
  eexists. split; [done|]. destruct (count_split _ _ _ Hcn) as [Hcnt Hcnt'].
  assert (in_flight c = false) as Hnf by (unfold in_flight; by rewrite Hph).
  assert (∀ k, w_settled w k → settled (w_objects w) (w_unheard w) ca k) as Hset.
  { intros k. unfold settled. by rewrite (cached_same (w_cache w) ca). }
  split; simpl; try done.
  - by destruct Hi; split.
  - rewrite Hen, Hn, Hcnt, Hcnt', Hnf. done.
  - by apply (cache_sound_ext _ (w_cache w)).
  - by apply (cache_complete_ext _ _ (w_cache w)).
  - apply calls_insert.
    + intros x Hx. eapply call_ok_mono; [done|done| |by apply Hcalls]. intros _. exact Hset.
    + split; simpl.
      * intros e Hine. destruct (Hent e Hine) as (? & ? & ? & Hk). split_and!; [done..|].
        intros k Hkin. rewrite HA. destruct (Hk k Hkin) as [v ->]. done.
      * split.
        { intros k b. rewrite HA. destruct (call_availability c !! k) as [v|]; [|done]. simpl. intros [= Hb].
          destruct b; simpl; [by eapply cached_reached|]. by apply Hset, cached_settled. }
        { intros k _ Hns. by left. }
  - by destruct Hl; split.
  - intros x Hx Hep. apply (placed_insert _ _ c); [done..|]. by apply Hp.
Qed.

Lemma view_answer r receiving seen O T k :
  store_view epoch r receiving seen O T →
  answer_ok (reached O T) (λ k, k ∉ seen) (input_available r receiving epoch k) k.
Proof.
  intros [Hex Hlat Hsh How Hpk Hseen Hseenp]. destruct k as [id v|id]; simpl.
  - specialize (Hseen id v).
    assert (∀ v', v ≤ v' → VersionedObject id v' ∈ O ∪ T → reached O T (VersionedObject id v)) as Hr
      by (intros v'; by exists v').
    unfold versioned_available. destruct (object_exists_by_key r id v) eqn:Hkey; simpl.
    { apply (Hr v); [lia|]. apply elem_of_union_l. by apply Hex. }
    unfold have_deleted_owned_object_at_version_or_after, get_deleted_shared_object_previous_tx_digest.
    case_bool_decide as Hrecv; simpl.
    + rewrite decide_True in Hseen by done. destruct (get_object_version r id) as [w|] eqn:Hw; simpl.
      * destruct (Z.leb_spec v w) as [Hle|Hgt]; simpl.
        { apply (Hr w); [done|]. apply elem_of_union_l. by apply Hlat. }
        destruct (get_latest_marker r id epoch) as [[m []]|] eqn:Hm; try (intros Hin; destruct (Hseen Hin) as [?|[(v' & ? & ?)|(v' & ? & ?)]]; simplify_eq; lia).
        destruct (Z.leb_spec v m); [|intros Hin; destruct (Hseen Hin) as [?|[(v' & ? & ?)|(v' & ? & ?)]]; simplify_eq; lia].
        apply (Hr m); [done|]. apply elem_of_union_r. by apply How.
      * destruct (get_latest_marker r id epoch) as [[m []]|] eqn:Hm; try (intros Hin; destruct (Hseen Hin) as [?|[(v' & ? & ?)|(v' & ? & ?)]]; simplify_eq; lia).
        destruct (Z.leb_spec v m); [|intros Hin; destruct (Hseen Hin) as [?|[(v' & ? & ?)|(v' & ? & ?)]]; simplify_eq; lia].
        apply (Hr m); [done|]. apply elem_of_union_r. by apply How.
    + rewrite decide_False in Hseen by done.
      destruct (get_marker_value r id v epoch) as [[]|] eqn:Hm; simpl; 
        try (intros Hin; destruct (Hseen Hin) as [?|[? ?]]; by simplify_eq).
      apply (Hr v); [lia|]. apply elem_of_union_l. by eapply Hsh.
  - unfold unversioned_available. simpl. specialize (Hseenp id).
    destruct (get_latest_object_ref_or_tombstone r id) as [ref|] eqn:Href; [|simpl; intros Hin; by destruct (Hseenp Hin) as (? & ? & _)].
    destruct (is_alive ref.2) eqn:Hal; simpl; [by eapply Hpk|]. intros Hin.
    destruct (Hseenp Hin) as (ref' & ? & ?). simplify_eq. congruence.
Qed.

Lemma read_ok w n r :
  world_ok w → allowed locks epoch w (OpRead n r) →
  ∃ w', perform locks epoch w (OpRead n r) = Done w' ∧ world_ok w'.
Proof.
  intros [Hi He Hn Hs Hc Hcalls Hl Hu Hp Hd] (c & seen & Hcn & Hph & Hview). cbn [perform].
  rewrite Hcn. cbn [unwrap]. rewrite bind_ret_l, Hph, multi_input_objects_available_exact, bind_ret_l.
  eexists. split; [done|]. destruct (count_split _ _ _ Hcn) as [Hcnt Hcnt'].
  assert (in_flight c = true) as Hf by (unfold in_flight; by rewrite Hph).
  assert (c ∈ w_calls w) as Hin by (apply list_elem_of_lookup; by exists n).
  destruct (Hcalls c Hin) as [Hent Hread]. rewrite Hph in Hread. destruct Hread as [Hans Hmiss].
  set (misses := cache_misses _). set (f := input_available r (call_receiving c) epoch).
  assert ((zip (map f misses) misses).*2 = misses) as Hsnd.
  { clear. induction misses as [|k l IH]; [done|]. cbn. by f_equal. }
  split; simpl; try done.
  - rewrite Hn, Hcnt, Hcnt', Hf. done.
  - apply calls_insert; [done|]. split; simpl; [done|]. rewrite Hsnd. split_and!; [done| | |].
    + apply cache_misses_nodup.
    + intros k. apply elem_of_cache_misses.
    + intros b k Hbk. assert (b = f k ∧ k ∈ misses) as [-> Hk].
      { clear -Hbk. induction misses as [|k' l IH]; [by apply elem_of_nil in Hbk|].
        apply elem_of_cons in Hbk as [[= -> ->]|Hbk]; [split; [done|left]|].
        destruct (IH Hbk) as [? ?]. split; [done|by right]. }
      pose proof (view_answer r _ seen _ _ k Hview) as Ha. fold f in Ha.
      destruct (f k); simpl in Ha |- *; [done|]. apply Hmiss; [by apply elem_of_cache_misses|done].
  - intros x Hx Hep. apply (placed_insert _ _ c); [done..|]. by apply Hp.
Qed.

Lemma commit_ok w d outputs deleted :
  world_ok w → ∃ w', perform locks epoch w (OpCommit d outputs deleted) = Done w' ∧ world_ok w'.
Proof.
  intros [Hi He Hn Hs Hc Hcalls Hl Hu Hp Hd]. eexists. split; [done|].
  assert (unheard (w_unnotified w ++ [(d, outputs)]) = w_unheard w ++ outputs) as Huh.
  { unfold unheard. rewrite bind_app. simpl. by rewrite app_nil_r. }
  split; simpl; rewrite ?Huh; try done.
  - eapply cache_sound_mono; [|done]. set_solver.
  - intros id v v' Hid [Hin%elem_of_list_to_set|Hin]%elem_of_union; [right; set_solver|].
    destruct (Hc id v v' Hid Hin); [by left|right; set_solver].
  - intros c Hin. eapply call_ok_mono; [done| | |by apply Hcalls].
    + intros k. apply reached_mono; set_solver.
    + intros _ k. unfold settled. rewrite elem_of_app, elem_of_union, elem_of_list_to_set.
      destruct (decide (k ∈ outputs)); naive_solver.
  - eapply ledger_mono; [..|exact Hl]; [set_solver..|].
    intros k. rewrite elem_of_app, elem_of_union, elem_of_list_to_set. destruct (decide (k ∈ outputs)); naive_solver.
  - intros d' outs [Hin|[= -> ->]%list_elem_of_singleton]%elem_of_app; [|set_solver].
    destruct (Hu d' outs Hin). set_solver.
  - intros c Hin Hep. destruct (Hp c Hin Hep) as [[?|[?|?]]|?]; [left; by left|left; by right; left| |by right].
    left; right; right. set_solver.
Qed.

Lemma unheard_delete l n d outputs k :
  l !! n = Some (d, outputs) → k ∈ unheard l ↔ k ∈ outputs ++ unheard (delete n l).
Proof.
  intros Hn. rewrite <-(take_drop_middle l n _ Hn) at 1. rewrite delete_take_drop. unfold unheard.
  rewrite !bind_app. cbn. rewrite !elem_of_app. tauto.
Qed.

Lemma notify_ok w n now :
  world_ok w → allowed locks epoch w (OpNotify n now) →
  ∃ w', perform locks epoch w (OpNotify n now) = Done w' ∧ world_ok w'.
Proof.
  intros [Hi He Hn Hs Hc Hcalls Hl Hu Hp Hd] (d & outs & Hlook & Hord). cbn [perform].
  rewrite Hlook. cbn [unwrap]. rewrite bind_ret_l.
  destruct (notify_commit_ok (w_inner w) d outs now Hi)
    as (i1 & i' & rs & evs & Hrun & Hsent & Hdl & Hi' & He' & Hca & Hpi & Hei).
  rewrite He in Hrun. rewrite Hrun, bind_ret_l. eexists. split; [done|].
  destruct (Hu d outs) as [HdX Houts]; [by eapply list_elem_of_lookup_2|].
  pose proof (λ k, unheard_delete (w_unnotified w) n d outs k Hlook) as Huh.
  assert (ledger locks (w_objects w) (w_tombstones w) (outs ++ unheard (delete n (w_unnotified w)))
    (w_executed w) (w_enqueued w) (w_inner w) (w_sent w)) as Hl1.
  { eapply ledger_mono; [done..| |exact Hl]. intros k. by rewrite Huh. }
  destruct (ledger_delivered locks _ _ _ _ _ _ _ _ i' _ _ now d Hl1 Hdl Houts HdX Hpi Hei) as [Hl' Hplaced].
  split; simpl; rewrite ?Hsent, ?Hca; try done.
  - by rewrite He'.
  - by rewrite announce_enabled.
  - by apply announce_sound.
  - apply announce_complete; [|done]. intros id v v' Hid Hin. rewrite <-Huh. by eapply Hc.
  - intros c Hin. eapply call_ok_mono; [done|done| |by apply Hcalls]. intros Hf k Hset.
    apply announce_settled; [rewrite Hn; by eapply in_flight_count|].
    unfold settled. by rewrite <-Huh.
  - intros d' outs' Hin. apply Hu. rewrite delete_take_drop in Hin.
    rewrite <-(take_drop_middle _ _ _ Hlook). set_solver.
  - intros c Hin Hep. destruct (Hp c Hin Hep) as [?|?]; [left; by apply Hplaced|by right].
Qed.

(** The second critical section of a call. *)
Lemma finish_answers R S A answers c :
  phase_ok R S A (Answered answers) → unbounded_cache_enabled c ≠ 0%nat →
  ∃ c1 A1 c2 A2, merge_answers c A answers = Done (c1, A1) ∧ recheck c1 A1 = Done (c2, A2) ∧
    cache_grows c c2 ∧ versions c2 = versions c ∧
    unbounded_cache_enabled c2 = unbounded_cache_enabled c ∧
    (∀ id, is_Some (packages c2 !! id) → is_Some (packages c !! id) ∨ R (PackageKey id)) ∧
    (∀ k, is_Some (A !! k) → answered A2 k ∧
       if denied A2 k then S k ∧ cached c2 k ≠ Some true else R k ∨ cached c2 k = Some true).
Proof.
  intros (HA & Hnd & Hkeys & Hans) H0.
  destruct (merge_answers_ok answers c A Hnd) as (c1 & A1 & Hm & He & Hc1 & Hin & Hno).
  { intros k Hk%Hkeys. by rewrite Hk. }
  destruct (Hc1 H0) as (Hg & Hv & Hpk).
  assert (∀ k, is_Some (A !! k) → ∃ b, A1 !! k = Some (Some b) ∧ answer_ok R S b k) as Hall.
  { intros k [[b|] Hk].
    - exists b. rewrite Hno; [split; [done|by apply HA]|]. rewrite Hkeys. congruence.
    - apply Hkeys in Hk as ([b k'] & -> & Hbk)%list_elem_of_fmap. exists b. split; [by apply Hin|by apply Hans]. }
  destruct (recheck_ok c1 A1) as (c2 & A2 & Hr & (Hv2 & Hp2 & He2) & HA2).
  { intros k v Hk. destruct (decide (k ∈ answers.*2)) as [Hk'|Hk'].
    - apply Hkeys in Hk'. destruct (Hall k) as (b & ? & _); [by rewrite Hk'|]. congruence.
    - rewrite Hno in Hk by done. destruct (Hall k) as (b & ? & _); [by rewrite Hk|].
      rewrite Hno in H by done. congruence. }
  exists c1, A1, c2, A2. split_and!; [done..| |congruence|congruence| |].
  - transitivity c1; [done|]. split; [|by rewrite Hp2]. rewrite Hv2. intros id v Hid. by exists v.
  - intros id. rewrite Hp2. intros [?|Hid]%Hpk; [by left|right]. by apply (Hans true).
  - intros k Hk. destruct (Hall k Hk) as (b & Hb & Hok). rewrite (cached_same c1 c2) by done.
    unfold answered, denied. rewrite HA2, Hb. simpl.
    destruct (decide (cached c1 k = Some true)) as [Hc|Hc]; simpl; [split; [by exists true|by right]|].
    split; [by exists b|]. destruct b; simpl in Hok; [by left|done].
Qed.

Lemma finish_call_ok w n now :
  world_ok w → allowed locks epoch w (OpFinish n now) →
  ∃ w', perform locks epoch w (OpFinish n now) = Done w' ∧ world_ok w'.
Proof.
  intros [Hi He Hn Hs Hc Hcalls Hl Hu Hp Hd] (c & answers & Hcn & Hph). cbn [perform].
  rewrite Hcn. cbn [unwrap]. rewrite bind_ret_l, Hph. unfold enqueue_finish.
  assert (c ∈ w_calls w) as Hin by by eapply list_elem_of_lookup_2.
  assert (in_flight c = true) as Hf by (unfold in_flight; by rewrite Hph).
  destruct (Hcalls c Hin) as [Hent Hphase]. rewrite Hph in Hphase.
  destruct (finish_answers _ _ _ _ (w_cache w) Hphase)
    as (c1 & A1 & c2 & A2 & -> & Hrecheck & Hg & Hv & Hen & Hpk & HA).
  { rewrite Hn. by eapply in_flight_count. }
  rewrite bind_ret_l, Hrecheck, bind_ret_l. destruct (count_split _ _ _ Hcn) as [Hcnt _].
  rewrite Hf in Hcnt. unfold disable_unbounded_cache.
  rewrite (proj2 (Nat.ltb_lt 0 (unbounded_cache_enabled c2))) by (rewrite Hen, Hn, Hcnt; lia).
  cbn [assert]. rewrite !bind_ret_l. set (c3 := {| cache := cache c2; unbounded_cache_enabled := _ |}).
  assert (cache_sound (w_objects w) c3) as Hs3.
  { destruct Hs as [Hsv Hsp]. split.
    - intros id v. unfold c3, versions. simpl. fold (versions c2). rewrite Hv. apply Hsv.
    - intros id [?|?]%Hpk; [by apply Hsp|done]. }
  destruct (enqueue_loop (w_executed w) A2 now (call_entries c)
    (λ done i s, ledger locks (w_objects w) (w_tombstones w) (w_unheard w) (w_executed w) (w_enqueued w)
                   i (w_sent w ++ s) ∧
       (∀ d, placed (w_executed w) (w_inner w) (w_sent w) d → placed (w_executed w) i (w_sent w ++ s) d) ∧
       ∀ e, e ∈ done → cert_epoch e.1.1 = epoch → placed (w_executed w) i (w_sent w ++ s) (cert_digest e.1.1))
    (set_cache c3 (w_inner w))) as (i' & evs & -> & Hi' & He' & Hc' & Hl' & Hpl & Hdone).
  { by destruct Hi; split. }
  { intros e Hine. destruct (Hent e Hine) as (_ & _ & Hdist & Hk). split; [done|].
    intros k Hkin. apply HA. by apply Hk. }
  { intros done e i1 i2 s s' Hine Hei (Hli & Hpi & Hdi) Henq. rewrite app_assoc.
    destruct (Hent e Hine) as (HK & Hck & _ & Hk).
    assert (∀ k, k ∈ e.2 → if denied A2 k then k ∉ w_objects w ∨ k ∈ w_unheard w else w_reached w k) as Hden2.
    { intros k Hkin. destruct (HA k (Hk k Hkin)) as [_ Hden]. destruct (denied A2 k).
      - destruct Hden as [[?|[?|Htrue]] Hnot]; [by left|by right|]. destruct Hnot. by eapply cached_grows.
      - destruct Hden as [?|Htrue]; [done|]. by eapply (cached_reached _ _ c3). }
    destruct (ledger_enqueued locks _ _ _ _ _ _ _ _ _ _ _ _ Hli HK Hck Hden2 Henq) as (Hl2 & Hp2 & He2).
    split_and!; [done|by intros d Hpd; apply Hp2, Hpi|].
    intros e' [He''| ->%list_elem_of_singleton]%elem_of_app Hep; [by apply Hp2, Hdi|].
    apply He2. rewrite Hei. simpl. congruence. }
  { rewrite app_nil_r. split_and!; [by destruct Hl; split|done|set_solver]. }
  rewrite bind_ret_l. eexists. split; [done|].
  assert (∀ x, x ∈ delete n (w_calls w) → x ∈ w_calls w) as Hdel.
  { intros x Hx. rewrite delete_take_drop in Hx. rewrite <-(take_drop_middle _ _ _ Hcn).
    apply elem_of_app. apply elem_of_app in Hx as [?|?]; [by left|by right; right]. }
  split; simpl; rewrite ?Hc'; try done.
  - by rewrite He'.
  - simpl. rewrite Hen, Hn, Hcnt. done.
  - by apply (cache_complete_ext _ _ (w_cache w)).
  - intros x Hx. eapply call_ok_mono; [done|done| |by apply Hcalls, Hdel].
    intros _ k Hset. by eapply settled_grows.
  - intros x Hx Hep. destruct (Hp x Hx Hep) as [?|(call & e & Hincall & Hine & Hx1)]; [left; by apply Hpl|].
    rewrite <-(take_drop_middle _ _ _ Hcn) in Hincall. rewrite delete_take_drop.
    apply elem_of_app in Hincall as [?|[->|?]%elem_of_cons]; [right; exists call, e; set_solver| |].
    + left. subst x. by apply Hdone.
    + right. exists call, e. set_solver.
Qed.

Lemma step_ok w op :
  world_ok w → allowed locks epoch w op → ∃ w', perform locks epoch w op = Done w' ∧ world_ok w'.
Proof.
  intros Hok Hall.
  destruct op; [by apply begin_ok|by apply lookup_ok|by apply read_ok|by apply finish_call_ok|
                by apply commit_ok|by apply notify_ok].
Qed.
Lemma reachable_world_ok w : reachable locks epoch w → world_ok w.
Proof.
  induction 1 as [objects tombstones executed|w op w' _ IH Hall Hrun]; [apply world_new_ok|].
  destruct (step_ok w op IH Hall) as (w'' & Hrun' & Hok). congruence.
Qed.

(** * The theorems *)

(** C6: Whatever the callers of the transaction manager have done before, a step of
    any of them returns: none of the manager's assertions and unwraps can fail.
    Afterwards no certificate has been handed to the execution driver twice,
    and each one that was had all its input objects in the store, at the
    version it names or a later one, or deleted since.  The callers guarantee what
    [allowed] says: the steps of a call come in order, the store answers for what
    it has, digests identify certificates, and a certificate names no object in
    two versions ([two_versions_panic] shows what happens otherwise). *)
Theorem manager_safe w op :
  reachable locks epoch w → allowed locks epoch w op →
  ∃ w', perform locks epoch w op = Done w' ∧ NoDup (map digest_of (w_sent w')) ∧
    ∀ p, p ∈ w_sent w' → certificate p ∈ w_enqueued w' ∧
      ∀ keys, cert_keys locks (certificate p) = Done keys →
        ∀ k, k ∈ keys → reached (w_objects w') (w_tombstones w') k.
Proof.
  intros Hr Hall. destruct (step_ok w op (reachable_world_ok w Hr) Hall) as (w' & Hrun & Hok).
  exists w'. pose proof (wo_ledger _ Hok) as Hl. split_and!; [done|by eapply lg_nodup|].
  intros p Hin. destruct (lg_sent _ _ _ _ _ _ _ _ Hl p Hin) as (? & Hreach & _).
  split; [done|]. intros keys Hck. by apply Hreach.
Qed.

(** C7: No wake-up is lost.  When no call is under way and every commit has been
    announced, a certificate of the current epoch that was enqueued has been
    sent or executed, or it waits, and every key it waits for is one of its
    own inputs that the store really does not have. *)
Theorem no_lost_wakeup w c keys :
  reachable locks epoch w → w_calls w = [] → w_unnotified w = [] →
  c ∈ w_enqueued w → cert_epoch c = epoch → cert_keys locks c = Done keys →
  cert_digest c ∈ map digest_of (w_sent w) ∨ cert_digest c ∈ w_executed w ∨
  ∃ p, pending_certificates (w_inner w) !! cert_digest c = Some p ∧ certificate p = c ∧
    waiting_input_objects p ≠ ∅ ∧ waiting_input_objects p ⊆ keys ∖ w_objects w.
Proof.
  intros Hr Hcalls Hun Hin Hep Hck. pose proof (reachable_world_ok w Hr) as Hok.
  destruct (wo_placed _ Hok c Hin Hep) as [[[p Hp]|[?|?]]|(call & e & Hcall & _)];
    [|by left|by right; left|by rewrite Hcalls in Hcall; apply elem_of_nil in Hcall].
  right; right. exists p. destruct (lg_pending _ _ _ _ _ _ _ _ (wo_ledger _ Hok) _ p Hp) as (HpK & _ & Hw & Hkeys).
  destruct (io_pending _ (wo_inner _ Hok) _ p Hp) as (Hdg & Hne & _).
  assert (certificate p = c) as Hpc by by apply (wo_digests _ Hok). split_and!; [done..|].
  rewrite Hpc in Hkeys. destruct (Hkeys keys Hck) as [Hsub _]. rewrite Hun in Hw. cbn in Hw.
  intros k Hk. apply elem_of_difference. split; [by apply Hsub|].
  destruct (Hw k Hk) as [?|Hnil]; [done|]. by apply elem_of_nil in Hnil.
Qed.

(** * Overload *)

(** The pending certificates that wait for some version of an object. *)
Definition waiting_on (i : Inner) (id : ObjectID) : gset TransactionDigest :=
  dom (filter (λ dp : TransactionDigest * PendingCertificate,
    Exists (λ k, key_id k = id) (elements (waiting_input_objects dp.2))) (pending_certificates i)).
Lemma elem_of_waiting_on i id d : d ∈ waiting_on i id ↔ ∃ k, waits (pending_certificates i) d k ∧ key_id k = id.
Proof.
  unfold waiting_on, waits. rewrite elem_of_dom. split.
  - intros [p [Hp (k & Hk%elem_of_elements & Hid)%Exists_exists]%map_lookup_filter_Some].
    exists k. split; [by exists p|done].
  - intros (k & (p & Hp & Hk) & Hid). exists p. apply map_lookup_filter_Some. split; [done|].
    apply Exists_exists. exists k. split; [by apply elem_of_elements|done].
Qed.
Lemma queue_len_exact i id :
  inner_ok i → length (im_iter (default im_default (input_txns i !! id))) = size (waiting_on i id).
Proof.
  intros [Hix _]. rewrite <-(length_fmap fst). rewrite <-(size_list_to_set (C := gset TransactionDigest)) by apply im_nodup.
  f_equal. apply set_eq. intros d. rewrite elem_of_list_to_set, elem_of_waiting_on, <-(ix_txns _ _ _ Hix id d).
  destruct (input_txns i !! id) as [x|]; simpl; [naive_solver|].
  rewrite im_iter_default. simpl. split; [by intros ?%elem_of_nil|by intros (? & ? & _)].
Qed.
Lemma check_object_queues_ok queues threshold :
  check_object_queues queues threshold = Ok () ↔
  ∀ id n age, (id, n, age) ∈ queues → Z.of_nat n < MAX_PER_OBJECT_QUEUE_LENGTH ∧
    ∀ a, age = Some a → a < threshold.
Proof.
  induction queues as [|[[id n] age] queues IH]; simpl; [split; [by intros _ ? ? ? ?%elem_of_nil|done]|].
  destruct (Z.leb_spec MAX_PER_OBJECT_QUEUE_LENGTH (Z.of_nat n)) as [Hn|Hn].
  { split; [done|]. intros Hall. destruct (Hall id n age) as [? _]; [left|lia]. }
  assert ((∀ a, age = Some a → a < threshold) →
    check_object_queues queues threshold = Ok () ↔ ∀ id' n' age', (id', n', age') ∈ (id, n, age) :: queues →
      Z.of_nat n' < MAX_PER_OBJECT_QUEUE_LENGTH ∧ ∀ a, age' = Some a → a < threshold) as Hrest.
  { intros Hage. rewrite IH. split; intros Hall id' n' age' Hin; [|apply (Hall id'); by right].
    apply elem_of_cons in Hin as [[= -> -> ->]|Hin]; [done|by eapply Hall]. }
  destruct age as [a|]; [|by apply Hrest]. destruct (Z.leb_spec threshold a) as [Ha|Ha].
  - split; [done|]. intros Hall. destruct (Hall id n (Some a)) as [_ Hlt]; [left|]. specialize (Hlt a eq_refl). lia.
  - apply Hrest. by intros ? [= <-].
Qed.

(** The manager accepts a new transaction exactly when fewer than the limit of
    certificates are pending or executing and, for each input object, fewer
    than the limit of pending certificates wait for a version of it and the
    first of them has not waited too long: the queue lengths it looks up are
    the numbers of certificates that wait. *)
Theorem overload_exact w now threshold inputs :
  reachable locks epoch w →
  check_execution_overload (w_inner w) now threshold inputs = Ok () ↔
  Z.of_nat (size (pending_certificates (w_inner w)) + size (executing_certificates (w_inner w)))
    < MAX_TM_QUEUE_LENGTH ∧
  ∀ id, id ∈ map kind_object_id inputs →
    Z.of_nat (size (waiting_on (w_inner w) id)) < MAX_PER_OBJECT_QUEUE_LENGTH ∧
    ∀ e, head (im_iter (default im_default (input_txns (w_inner w) !! id))) = Some e → now - e.2 < threshold.
Proof.
  intros Hr%reachable_world_ok. pose proof (wo_inner _ Hr) as Hi. unfold check_execution_overload.
  fold (inflight_queue_len (w_inner w)).
  destruct (Z.leb_spec MAX_TM_QUEUE_LENGTH (Z.of_nat (inflight_queue_len (w_inner w)))) as [Hle|Hlt].
  { split; [done|]. intros [? _]. lia. }
  rewrite check_object_queues_ok. unfold objects_queue_len_and_age. split.
  - intros Hall. split; [done|]. intros id Hid. rewrite <-queue_len_exact by done.
    edestruct Hall as [Hn Hage]; [apply list_elem_of_fmap; exists id; split; [done|exact Hid]|].
    split; [done|]. intros e He. apply Hage. by rewrite He.
  - intros [_ Hall] id n age (id' & [= -> -> ->] & Hid)%list_elem_of_fmap.
    destruct (Hall id' Hid) as [Hn Hage]. rewrite queue_len_exact by done. split; [done|].
    intros a. destruct (head _) as [e|]; simpl; [|done]. intros [= <-]. by apply Hage.
Qed.
End safety.

(** C35: A call of [enqueue] that is between its two critical sections when the manager
    is reconfigured ends the process: reconfiguration replaces the cache and
    with it the count of calls in flight, and the call then asserts that the
    count is positive. *)
Theorem reconfigure_during_enqueue {Hlru : LruCache} {Hlrul : LruLaws} {Him : IndexMap} {Himl : IndexMapLaws}
    (i i1 : Inner) (A A1 : Availability) bs new_epoch executed entries now :
  (∀ k v, A !! k = Some v → v = None) → enqueue_lookup i A = (i1, A1) →
  length bs = length (cache_misses A1) →
  enqueue_finish (reconfigure i1 new_epoch) executed entries A1 (zip bs (cache_misses A1)) now = Panic.
Proof.
  intros HA Hlook Hlen. unfold enqueue_finish.
  assert ((zip bs (cache_misses A1)).*2 = cache_misses A1) as Hsnd by (apply snd_zip; lia).
  destruct (merge_answers_ok (zip bs (cache_misses A1)) (available_objects_cache (reconfigure i1 new_epoch)) A1)
    as (c & A2 & -> & He & _ & Hin & Hno).
  { rewrite Hsnd. apply cache_misses_nodup. }
  { intros k. rewrite Hsnd. intros Hk%elem_of_cache_misses. by rewrite Hk. }
  rewrite bind_ret_l. destruct (recheck_ok c A2) as (c2 & A3 & -> & (_ & _ & He2) & _).
  { intros k v Hk. destruct (decide (k ∈ cache_misses A1)) as [Hmiss|Hmiss].
    - assert (k ∈ (zip bs (cache_misses A1)).*2) as ([b k'] & -> & Hbk)%list_elem_of_fmap by by rewrite Hsnd.
      apply Hin in Hbk. simpl in Hk. congruence.
    - rewrite Hno in Hk by by rewrite Hsnd. intros ->. by apply Hmiss, elem_of_cache_misses. }
  rewrite bind_ret_l. unfold disable_unbounded_cache. by rewrite He2, He.
Qed.

(** * Two versions of one object *)

#[export] Instance key_le_trans : Transitive key_le.
Proof. intros [] [] []; simpl; lia. Qed.
#[export] Instance key_le_total : Total key_le.
Proof. intros [] []; simpl; lia. Qed.
#[export] Instance key_le_antisymm : AntiSymm (=) key_le.
Proof. intros [] []; simpl; intros; f_equal; lia. Qed.

Section two_versions.
Context {Hlru : LruCache} {Him : IndexMap} {Himl : IndexMapLaws}.
Context (d : TransactionDigest) (id : ObjectID) (v1 v2 : SequenceNumber) (Hlt : v1 < v2).
Abbreviation k1 := (VersionedObject id v1) (only parsing).
Abbreviation k2 := (VersionedObject id v2) (only parsing).

Lemma versions_iter : bset_iter key_le ({[k1; k2]} : gset InputKey) = [k1; k2].
Proof using Hlt.
  apply (bset_iter_unique key_le).
  - apply Sorted_cons; [by apply Sorted_cons|]. constructor. right. lia.
  - apply NoDup_cons. split; [|apply NoDup_singleton]. rewrite list_elem_of_singleton. intros [= ?]. lia.
  - intros x. rewrite !elem_of_cons, elem_of_nil, elem_of_union, !elem_of_singleton. tauto.
Qed.
Lemma digest_iter : bset_iter Z.le ({[d]} : gset TransactionDigest) = [d].
Proof. unfold bset_iter. by rewrite elements_singleton. Qed.

(** The certificate waits for both versions, and the object has one entry. *)
Record waits_twice (i : Inner) : Prop := {
  wt_first : missing_inputs i !! k1 = Some {[d]};
  wt_second : missing_inputs i !! k2 = Some {[d]};
  wt_entry : ∃ m now, input_txns i !! id = Some m ∧ im_iter m = [(d, now)];
  wt_pending : ∃ p, pending_certificates i !! d = Some p ∧ waiting_input_objects p = {[k1; k2]};
}.

Lemma first_arrives i : waits_twice i → ∃ i',
  find_ready_transactions k1 true i = Done (i', []) ∧ inner_epoch i' = inner_epoch i ∧
  missing_inputs i' !! k2 = Some {[d]} ∧ input_txns i' !! id = None.
Proof using Hlt Himl.
  intros [H1 H2 (m & now & Hm & Hi) (p & Hp & Hw)]. unfold find_ready_transactions. cbn [set_cache missing_inputs input_txns key_id].
  rewrite H1, Hm. cbn. rewrite digest_iter. cbn. destruct (im_shift_remove d m) as [m' a] eqn:Hr.
  pose proof (im_iter_remove d m) as [Hit Ha]. rewrite Hr, Hi in Hit, Ha. simpl in Hit, Ha.
  rewrite bool_decide_eq_true_2 by (apply Ha; left). simpl.
  assert (im_iter m' = []) as -> by (rewrite Hit, filter_cons_False by tauto; done).
  unfold wake. cbn. rewrite Hp. cbn. rewrite Hw. rewrite (bool_decide_eq_true_2 (k1 ∈ _)) by set_solver. cbn.
  rewrite bool_decide_eq_false_2.
  2: { assert (k2 ≠ k1) as Hne by (intros [= ?]; lia). set_solver. }
  simpl. eexists. split_and!; [reflexivity|done|..]; simpl.
  - by rewrite lookup_delete_ne by (intros [= ?]; lia).
  - apply lookup_delete_eq.
Qed.

Lemma both_wait i cert expected executed (A : Availability) now :
  cert_digest cert = d → inner_epoch i = cert_epoch cert → pending_certificates i !! d = None →
  d ∉ executing_certificates i → d ∉ executed →
  A !! k1 = Some (Some false) → A !! k2 = Some (Some false) →
  missing_inputs i !! k1 = None → missing_inputs i !! k2 = None → input_txns i !! id = None →
  ∃ i', enqueue_one executed A now (i, []) (cert, expected, {[k1; k2]}) = Done (i', []) ∧
    inner_epoch i' = inner_epoch i ∧ waits_twice i'.
Proof using Hlt Himl.
  intros Hd Hep Hp Hx He HA1 HA2 Hm1 Hm2 Ht. assert (k1 ≠ k2) as Hne by (intros [= ?]; lia).
  unfold enqueue_one. rewrite Hd, Hep, Z.eqb_refl, Hp. simpl.
  rewrite (bool_decide_eq_false_2 (d ∈ executing_certificates i)), (bool_decide_eq_false_2 (d ∈ executed)) by done.
  rewrite versions_iter. cbn [foldM]. unfold add_missing. rewrite HA1. cbn. rewrite HA2. cbn.
  rewrite Hm1, Ht. cbn. rewrite (bool_decide_eq_true_2 (d ∉ ∅)) by set_solver. cbn.
  rewrite lookup_insert_ne, Hm2 by done. cbn. rewrite (bool_decide_eq_true_2 (d ∉ ∅)) by set_solver. cbn.
  rewrite lookup_insert_eq. cbn.
  rewrite bool_decide_eq_false_2 by set_solver. rewrite Hp. cbn.
  eexists. split_and!; [reflexivity|done|]. split; cbn.
  - rewrite lookup_insert_ne, lookup_insert_eq by done. by rewrite (right_id_L ∅ (∪)).
  - rewrite lookup_insert_eq. by rewrite (right_id_L ∅ (∪)).
  - eexists _, now. rewrite lookup_insert_eq. split; [done|].
    rewrite !im_iter_insert, im_iter_default. simpl.
    destruct (decide _) as [_|Hn]; [by rewrite decide_True|]. destruct Hn. left.
  - eexists. rewrite lookup_insert_eq. split; [done|]. simpl. set_solver.
Qed.

(** A certificate that names two versions of one object, as the check on receiving
    objects lets it when one of them was received before, ends the process when it
    has to wait for both: the manager keeps one entry for the object, removes it
    with the first version that arrives and fails on the second one. *)
Theorem two_versions_panic i cert expected executed (A : Availability) now d1 d2 :
  cert_digest cert = d → inner_epoch i = cert_epoch cert → pending_certificates i !! d = None →
  d ∉ executing_certificates i → d ∉ executed →
  A !! k1 = Some (Some false) → A !! k2 = Some (Some false) →
  missing_inputs i !! k1 = None → missing_inputs i !! k2 = None → input_txns i !! id = None →
  ∃ i1 i2 events,
    enqueue_one executed A now (i, []) (cert, expected, {[k1; k2]}) = Done (i1, []) ∧
    notify_commit i1 d1 [k1] (inner_epoch i) now = Done (i2, events) ∧
    notify_commit i2 d2 [k2] (inner_epoch i) now = Panic.
Proof using Hlt Himl.
  intros Hd Hep Hp Hx He HA1 HA2 Hm1 Hm2 Ht.
  destruct (both_wait i cert expected executed A now) as (i1 & H1 & Hep1 & Hw); [done..|].
  destruct (first_arrives i1 Hw) as (i2 & H2 & Hep2 & Hmiss & Hnone). exists i1. unfold notify_commit, objects_available_locked.
  rewrite H1, Hep1, Z.eqb_refl. cbn. rewrite H2. cbn. case_bool_decide; cbn.
  all: eexists _, _; split_and!; [done|reflexivity|]; cbn.
  all: rewrite Hep2, Hep1, Z.eqb_refl; cbn; unfold find_ready_transactions; cbn; by rewrite Hmiss, Hnone.
Qed.
End two_versions.
