(* ===== verification/ManagerExample.v ===== *)
(** A concrete run of the transaction manager, with an LRU cache of time stamps
    and an insertion-ordered list in the place of the third-party containers:
    an input object is committed and announced while the call that enqueues its
    consumer is between its two critical sections. *)
From S2P Require Import Prelude Objects TransactionManager ManagerInvariant.
From S2P Require Import ManagerQueue ObjectReads ManagerWorld ManagerSafety.

(** * Containers *)

(** Each slot carries the time of its last use. *)
Record stamped (V : Type) := { clock : nat; slots : gmap ObjectID (nat * V) }.
Arguments clock {V} _.
Arguments slots {V} _.
Definition touch {V} (k : ObjectID) (v : V) (c : stamped V) : stamped V :=
  {| clock := S (clock c); slots := <[k := (clock c, v)]> (slots c) |}.
(** The least recently used slot. *)
Fixpoint oldest {V} (l : list (ObjectID * (nat * V))) : option (ObjectID * nat) :=
  match l with
  | [] => None
  | (k, (t, _)) :: l =>
      match oldest l with
      | Some (k', t') => if (t' <? t)%nat then Some (k', t') else Some (k, t)
      | None => Some (k, t)
      end
  end.
Lemma oldest_in {V} (l : list (ObjectID * (nat * V))) :
  match oldest l with Some (k, _) => k ∈ l.*1 | None => l = [] end.
Proof.
  induction l as [|[k [t v]] l IH]; [done|]. simpl. destruct (oldest l) as [[k' t']|]; [|left].
  destruct (t' <? t)%nat; [by right|left].
Qed.
Definition pop_oldest {V} (c : stamped V) : stamped V :=
  match oldest (map_to_list (slots c)) with
  | Some (k, _) => {| clock := clock c; slots := delete k (slots c) |}
  | None => c
  end.

#[export] Instance stamped_lru : LruCache := {|
  lru := stamped;
  lru_unbounded V := {| clock := 0; slots := ∅ |};
  lru_push V k v c := (touch k v c, (λ e, (k, e.2)) <$> slots c !! k);
  lru_put V := touch;
  lru_get V k c := match slots c !! k with Some (_, v) => (touch k v c, Some v) | None => (c, None) end;
  lru_pop_lru V := pop_oldest;
  lru_len V c := size (slots c) |}.

Lemma touch_map {V} k (v : V) c : snd <$> slots (touch k v c) = <[k := v]> (snd <$> slots c).
Proof. unfold touch. simpl. by rewrite fmap_insert. Qed.

#[export, program] Instance stamped_laws : LruLaws := {| lru_map V (c : stamped V) := snd <$> slots c |}.
Next Obligation. done. Qed.
Next Obligation.
  intros V k v c. split; [apply touch_map|]. simpl. rewrite lookup_fmap. by destruct (slots c !! k).
Qed.
Next Obligation. intros V k v c. apply touch_map. Qed.
Next Obligation.
  intros V k c. simpl. rewrite lookup_fmap. destruct (slots c !! k) as [[t v]|] eqn:Hk; [|done].
  split; [|done]. cbn [fst]. rewrite touch_map. apply insert_id. by rewrite lookup_fmap, Hk.
Qed.
Next Obligation.
  intros V c. simpl. unfold pop_oldest. destruct (oldest _) as [[k t]|]; [|done]. simpl.
  rewrite fmap_delete. apply delete_subseteq.
Qed.
Next Obligation. intros V c. simpl. by rewrite map_size_fmap. Qed.
Next Obligation.
  intros V c. simpl. unfold pop_oldest. pose proof (oldest_in (map_to_list (slots c))) as Hin.
  destruct (oldest _) as [[k t]|]; intros Hlen.
  - simpl. apply list_elem_of_fmap in Hin as ([k' v] & -> & Hin%elem_of_map_to_list).
    rewrite map_size_delete_Some by (simpl; by rewrite Hin). lia.
  - destruct Hlen. by rewrite <-length_map_to_list, Hin.
Qed.

(** Digests with times, each digest once. *)
Definition ages : Type := dsig (λ l : list (TransactionDigest * Instant), NoDup l.*1).
Lemma ages_insert_nodup k v (m : ages) :
  NoDup (if decide (k ∈ (`m).*1) then map (λ e, if decide (e.1 = k) then (k, v) else e) (`m) else `m ++ [(k, v)]).*1.
Proof.
  pose proof (proj2_dsig m) as Hnd. simpl in Hnd. destruct (decide (k ∈ (`m).*1)) as [Hin|Hni].
  - replace ((map (λ e, if decide (e.1 = k) then (k, v) else e) (`m)).*1) with ((`m).*1); [done|].
    clear. induction (`m) as [|e l IH]; [done|]. cbn. f_equal; [by destruct (decide (e.1 = k))|exact IH].
  - rewrite fmap_app. apply NoDup_app. split_and!; [done| |apply NoDup_singleton].
    intros d Hd ->%list_elem_of_singleton. done.
Qed.
Lemma ages_remove_nodup k (m : ages) : NoDup (filter (λ e, e.1 ≠ k) (`m)).*1.
Proof.
  pose proof (proj2_dsig m) as Hnd. simpl in Hnd. revert Hnd. induction (`m) as [|e l IH]; [done|].
  rewrite fmap_cons. intros [Hni Hnd]%NoDup_cons. rewrite filter_cons. destruct (decide (e.1 ≠ k)); [|by apply IH].
  cbn. apply NoDup_cons. split; [|by apply IH]. intros (e' & He & [_ Hin]%list_elem_of_filter)%list_elem_of_fmap.
  apply Hni. rewrite He. apply list_elem_of_fmap. by exists e'.
Qed.

#[export] Instance ages_index : IndexMap := {|
  index_map := ages;
  im_default := dexist [] (NoDup_nil_2 (A := TransactionDigest));
  im_insert k v m := dexist _ (ages_insert_nodup k v m);
  im_shift_remove k m := (dexist _ (ages_remove_nodup k m), snd <$> head (filter (λ e, e.1 = k) (`m)));
  im_iter m := `m |}.

#[export] Instance ages_laws : IndexMapLaws.
Proof.
  split.
  - intros m. apply (proj2_dsig m).
  - done.
  - done.
  - intros k m. split; [done|]. simpl. rewrite fmap_is_Some. split.
    + intros [e He]. destruct (filter _ (`m)) as [|e' l] eqn:Hf; [done|].
      assert (e' ∈ filter (λ e, e.1 = k) (`m)) as [<- Hin]%list_elem_of_filter by (rewrite Hf; left).
      apply list_elem_of_fmap. by exists e'.
    + intros (e & -> & Hin)%list_elem_of_fmap.
      assert (e ∈ filter (λ e', e'.1 = e.1) (`m)) as Hf by by apply list_elem_of_filter.
      destruct (filter _ _); [by apply elem_of_nil in Hf|done].
Qed.

(** * The run *)

(** Certificate 7 of epoch 2 consumes version 5 of the owned object 1. *)
Definition ex_cert : Certificate := {|
  cert_digest := 7; cert_epoch := 2;
  cert_inputs := [KImmOrOwnedMoveObject (1, 5, 100)]; cert_receiving := [] |}.
Definition ex_locks (d : TransactionDigest) : gmap ObjectID SequenceNumber := ∅.
(** A store that has nothing. *)
Definition ex_store : ExecutionCacheRead := {|
  object_exists_by_key _ _ := false; get_object_version _ := None;
  get_latest_object_ref_or_tombstone _ := None; get_marker_value _ _ _ := None;
  get_latest_marker _ _ := None |}.
Definition ex_key : InputKey := VersionedObject 1 5.

Definition ex_ops : list TmOp :=
  [OpBegin [(ex_cert, None)]; OpLookup 0; OpRead 0 ex_store; OpCommit 3 [ex_key] ∅; OpNotify 0 40; OpFinish 0 50].
Definition is_done {A} (e : exec A) : bool := match e with Done _ => true | _ => false end.
Definition ex_world (n : nat) : World :=
  match foldM (perform ex_locks 2) (World_new 2 ∅ ∅ ∅) (take n ex_ops) with
  | Done w => w
  | _ => World_new 2 ∅ ∅ ∅
  end.


Lemma ex_begin_allowed : allowed ex_locks 2 (ex_world 0) (OpBegin [(ex_cert, None)]).
Proof.
  split.
  - intros c ->%list_elem_of_singleton. eexists. split; [reflexivity|]. cbn. intros k1 k2. set_solver.
  - intros c c' ->%list_elem_of_singleton ->%list_elem_of_singleton. done.
Qed.
Lemma ex_read_allowed : allowed ex_locks 2 (ex_world 2) (OpRead 0 ex_store).
Proof.
  eexists _, _. split; [vm_compute; reflexivity|]. split; [reflexivity|].
  split; intros; simpl in *; try done; set_solver.
Qed.
Lemma ex_notify_allowed : allowed ex_locks 2 (ex_world 4) (OpNotify 0 40).
Proof.
  exists 3, [ex_key]. split; [vm_compute; reflexivity|]. split; [|done]. intros v' _.
  assert (w_objects (ex_world 4) = {[ex_key]}) as -> by (vm_compute; reflexivity).
  intros [= ->]%elem_of_singleton. by left.
Qed.

Lemma ex_step n op :
  reachable ex_locks 2 (ex_world n) → allowed ex_locks 2 (ex_world n) op →
  perform ex_locks 2 (ex_world n) op = Done (ex_world (S n)) → reachable ex_locks 2 (ex_world (S n)).
Proof. intros. by eapply reachable_step. Qed.

Lemma ex_reachable_5 : reachable ex_locks 2 (ex_world 5).
Proof.
  apply (ex_step 4 (OpNotify 0 40)); [|exact ex_notify_allowed|vm_compute; reflexivity].
  apply (ex_step 3 (OpCommit 3 [ex_key] ∅)); [|done|vm_compute; reflexivity].
  apply (ex_step 2 (OpRead 0 ex_store)); [|exact ex_read_allowed|vm_compute; reflexivity].
  apply (ex_step 1 (OpLookup 0)); [|eexists; split; vm_compute; reflexivity|vm_compute; reflexivity].
  apply (ex_step 0 (OpBegin [(ex_cert, None)])); [|exact ex_begin_allowed|vm_compute; reflexivity].
  apply reachable_new.
Qed.
Lemma ex_finish_allowed : allowed ex_locks 2 (ex_world 5) (OpFinish 0 50).
Proof. eexists _, _. split; vm_compute; reflexivity. Qed.
Lemma ex_reachable_6 : reachable ex_locks 2 (ex_world 6).
Proof.
  apply (ex_step 5 (OpFinish 0 50)); [exact ex_reachable_5|exact ex_finish_allowed|vm_compute; reflexivity].
Qed.

Lemma manager_safe_witness :
  ∃ w', perform ex_locks 2 (ex_world 5) (OpFinish 0 50) = Done w' ∧ NoDup (map digest_of (w_sent w')).
Proof.
  destruct (manager_safe ex_locks 2 (ex_world 5) (OpFinish 0 50) ex_reachable_5 ex_finish_allowed)
    as (w' & Hrun & Hnd & _).
  exists w'. split; [exact Hrun|exact Hnd].
Defined.

Lemma no_lost_wakeup_witness :
  map digest_of (w_sent (ex_world 6)) = [7] ∧
  (cert_digest ex_cert ∈ map digest_of (w_sent (ex_world 6)) ∨ cert_digest ex_cert ∈ w_executed (ex_world 6) ∨
   ∃ p, pending_certificates (w_inner (ex_world 6)) !! cert_digest ex_cert = Some p ∧ certificate p = ex_cert ∧
     waiting_input_objects p ≠ ∅ ∧ waiting_input_objects p ⊆ {[ex_key]} ∖ w_objects (ex_world 6)).
Proof.
  split; [vm_compute; reflexivity|].
  apply (no_lost_wakeup ex_locks 2 (ex_world 6) ex_cert {[ex_key]} ex_reachable_6).
  - vm_compute. reflexivity.
  - vm_compute. reflexivity.
  - assert (w_enqueued (ex_world 6) = [ex_cert]) as -> by (vm_compute; reflexivity). left.
  - reflexivity.
  - vm_compute. reflexivity.
Defined.

Lemma overload_exact_witness :
  check_execution_overload (w_inner (ex_world 6)) 60 1000 [KImmOrOwnedMoveObject (1, 5, 100)] = Ok () ∧
  Z.of_nat (size (waiting_on (w_inner (ex_world 6)) 1)) < MAX_PER_OBJECT_QUEUE_LENGTH.
Proof.
  assert (check_execution_overload (w_inner (ex_world 6)) 60 1000 [KImmOrOwnedMoveObject (1, 5, 100)] = Ok ())
    as Hok by (vm_compute; reflexivity).
  split; [exact Hok|].
  apply (overload_exact ex_locks 2 (ex_world 6) 60 1000 [KImmOrOwnedMoveObject (1, 5, 100)] ex_reachable_6) in Hok
    as [_ Hall].
  apply (Hall 1). left.
Defined.

Definition ex_lookup : Inner * gmap InputKey (option bool) := enqueue_lookup (Inner_new 2) {[ex_key := None]}.
Lemma reconfigure_during_enqueue_witness :
  cache_misses ex_lookup.2 = [ex_key] ∧
  enqueue_finish (reconfigure ex_lookup.1 3) ∅ [(ex_cert, None, {[ex_key]})] ex_lookup.2
    (zip [false] (cache_misses ex_lookup.2)) 50 = Panic.
Proof.
  split; [vm_compute; reflexivity|].
  apply (reconfigure_during_enqueue (Inner_new 2) ex_lookup.1 {[ex_key := None]} ex_lookup.2 [false] 3).
  - intros k v [_ <-]%lookup_singleton_Some. reflexivity.
  - vm_compute. reflexivity.
  - vm_compute. reflexivity.
Defined.
