(* ===== verification/ObjectLocks.v ===== *)
(** The locks on owned objects (mgo-core/src/authority/authority_store.rs): a
    validator signs a transaction after it has locked its owned inputs, and a
    commit deletes the locks of the versions it consumes and initialises those
    of the versions it creates.  The lock table is the map the store keeps; a
    storage error is not modelled.

    The first theorems are about calls that run one after the other.  The part
    on interleaved calls splits a call at its reads and its write: the mutexes
    of [acquire_locks] keep two calls to [acquire_transaction_locks] on the same
    object apart, but a commit takes none of them. *)
From S2P Require Import Prelude Objects Errors.
From S2P Require Import TransactionManager ObjectReads.

(** * Definitions *)

Record LockDetails := { lock_epoch : Z; lock_tx_digest : TransactionDigest }.
#[export] Instance LockDetails_eq_dec : EqDecision LockDetails.
Proof. solve_decision. Defined.
(** A missing entry, an initialised lock, or a lock held by a transaction. *)
Abbreviation LockTable := (gmap ObjectRef (option LockDetails)) (only parsing).

Inductive ObjectLockStatus :=
  | Initialized
  | LockedToTx (locked_by_tx : LockDetails)
  | LockedAtDifferentVersion (locked_ref : ObjectRef).

(** [skip_prior_to] moves to the given key or, if it is not there, to the one
    before it. *)
Definition get_latest_lock_for_object_id (t : LockTable) (object_id : ObjectID) : result ObjectRef MgoError :=
  match last (btree_range oref_le
          (λ k, bool_decide (oref_le k (object_id, SEQUENCE_NUMBER_MAX, OBJECT_DIGEST_MAX))) t) with
  | Some (k, _) => if k.1.1 =? object_id then Ok k else Err (UserInput (ObjectNotFound object_id None))
  | None => Err (UserInput (ObjectNotFound object_id None))
  end.
Definition unavailable {A : Type} (t : LockTable) (r : ObjectRef) : result A MgoError :=
  match get_latest_lock_for_object_id t r.1.1 with
  | Ok latest_lock => Err (UserInput (ObjectVersionUnavailableForConsumption r latest_lock.1.2))
  | Err e => Err e
  end.

(** The locks to write, as the loop over the inputs collects them. *)
Fixpoint locks_to_write (t : LockTable) (epoch : Z) (owned_input_objects : list ObjectRef)
    (tx_digest : TransactionDigest) (refs : list ObjectRef) : result (list (ObjectRef * LockDetails)) MgoError :=
  match refs with
  | [] => Ok []
  | obj_ref :: refs =>
      let write :=
        match locks_to_write t epoch owned_input_objects tx_digest refs with
        | Ok l => Ok ((obj_ref, {| lock_epoch := epoch; lock_tx_digest := tx_digest |}) :: l)
        | Err e => Err e
        end in
      match t !! obj_ref with
      | None => unavailable t obj_ref
      | Some None => write
      | Some (Some previous) =>
          if epoch <? lock_epoch previous then
            Err (ObjectLockedAtFutureEpoch owned_input_objects (lock_epoch previous) epoch (lock_tx_digest previous))
          else if (lock_epoch previous =? epoch) && negb (lock_tx_digest previous =? tx_digest) then
            Err (ObjectLockConflict obj_ref (lock_tx_digest previous))
          else if epoch =? lock_epoch previous then
            locks_to_write t epoch owned_input_objects tx_digest refs
          else write
      end
  end.
Definition write_locks (t : LockTable) (l : list (ObjectRef * LockDetails)) : LockTable :=
  foldl (λ t rl, <[rl.1 := Some rl.2]> t) t l.
Definition acquire_transaction_locks (t : LockTable) (epoch : Z) (owned_input_objects : list ObjectRef)
    (tx_digest : TransactionDigest) : result LockTable MgoError :=
  match locks_to_write t epoch owned_input_objects tx_digest owned_input_objects with
  | Ok l => Ok (write_locks t l)
  | Err e => Err e
  end.

Definition get_lock (t : LockTable) (obj_ref : ObjectRef) (epoch_id : Z) : result ObjectLockStatus MgoError :=
  match t !! obj_ref with
  | Some (Some lock_info) =>
      match lock_epoch lock_info ?= epoch_id with
      | Lt => Ok Initialized
      | Eq => Ok (LockedToTx lock_info)
      | Gt => Err (ObjectLockedAtFutureEpoch [obj_ref] (lock_epoch lock_info) epoch_id (lock_tx_digest lock_info))
      end
  | Some None => Ok Initialized
  | None =>
      match get_latest_lock_for_object_id t obj_ref.1.1 with
      | Ok locked_ref => Ok (LockedAtDifferentVersion locked_ref)
      | Err e => Err e
      end
  end.

Fixpoint check_owned_object_locks_exist (t : LockTable) (objects : list ObjectRef) : result unit MgoError :=
  match objects with
  | [] => Ok ()
  | obj_ref :: objects =>
      match t !! obj_ref with
      | None => unavailable t obj_ref
      | Some _ => check_owned_object_locks_exist t objects
      end
  end.
Definition initialize_locks (t : LockTable) (objects : list ObjectRef) (is_force_reset : bool)
    : result LockTable MgoError :=
  let existing_locks := filter (λ r, is_Some (mjoin (t !! r))) objects in
  if negb is_force_reset && negb (bool_decide (existing_locks = []))
  then Err (ObjectLockAlreadyInitialized existing_locks)
  else Ok (foldl (λ t r, <[r := None]> t) t objects).
Definition delete_locks (t : LockTable) (objects : list ObjectRef) : LockTable :=
  foldl (λ t r, delete r t) t objects.

(** What a commit does to the locks ([write_transaction_outputs]). *)
Definition commit_locks (t : LockTable) (locks_to_delete new_locks_to_init : list ObjectRef)
    : result LockTable MgoError :=
  match check_owned_object_locks_exist t locks_to_delete with
  | Err e => Err e
  | Ok _ =>
      match initialize_locks t new_locks_to_init false with
      | Err e => Err e
      | Ok t => Ok (delete_locks t locks_to_delete)
      end
  end.

(** * What each operation does *)

(** References the store can hold. *)
Definition oref_ok (r : ObjectRef) : Prop := r.1.2 ≤ SEQUENCE_NUMBER_MAX ∧ r.2 ≤ OBJECT_DIGEST_MAX.

Lemma latest_lock_spec (t : LockTable) id :
  (∀ r, is_Some (t !! r) → oref_ok r) →
  match get_latest_lock_for_object_id t id with
  | Ok r => r.1.1 = id ∧ is_Some (t !! r) ∧ ∀ r', is_Some (t !! r') → r'.1.1 = id → oref_le r' r
  | Err e => e = UserInput (ObjectNotFound id None) ∧ ∀ r, is_Some (t !! r) → r.1.1 ≠ id
  end.
Proof.
  intros Hok. unfold get_latest_lock_for_object_id. set (P := λ k, bool_decide _).
  assert (∀ r, is_Some (t !! r) → r.1.1 = id → P r = true) as HP.
  { intros r Hr <-. apply bool_decide_eq_true_2. unfold oref_le. simpl. destruct (Hok r Hr). lia. }
  destruct (last (btree_range oref_le P t)) as [[k v]|] eqn:Hlast.
  - apply btree_range_last_Some in Hlast as (Hk & Hkv & Hmax); [|apply _..].
    destruct (Z.eqb_spec k.1.1 id) as [Hid|Hid]; split; [done|split; [by rewrite Hkv|]|done|].
    + intros r' Hr' Hid'. apply Hmax; [done|by apply HP].
    + intros r Hr Hrid. pose proof (Hmax r Hr (HP r Hr Hrid)) as Hle.
      apply bool_decide_eq_true_1 in Hk. unfold oref_le in *. simpl in *. lia.
  - split; [done|]. intros r [v Hr] Hid. rewrite last_None in Hlast.
    assert ((r, v) ∈ btree_range oref_le P t) as Hin 
      by (apply elem_of_btree_range; split; [apply HP; by rewrite ?Hr|done]).
    rewrite Hlast in Hin. by apply elem_of_nil in Hin.
Qed.

(** A transaction may lock a version that is initialised, locked in an earlier
    epoch, or its own already. *)
Definition can_lock (t : LockTable) (epoch : Z) (tx : TransactionDigest) (r : ObjectRef) : Prop :=
  match t !! r with
  | None => False
  | Some None => True
  | Some (Some l) => lock_epoch l < epoch ∨ (lock_epoch l = epoch ∧ lock_tx_digest l = tx)
  end.

Lemma locks_to_write_spec (t : LockTable) epoch owned tx refs :
  match locks_to_write t epoch owned tx refs with
  | Ok l => (∀ r, r ∈ refs → can_lock t epoch tx r) ∧
      (∀ r d, (r, d) ∈ l → r ∈ refs ∧ d = {| lock_epoch := epoch; lock_tx_digest := tx |}) ∧
      (∀ r, r ∈ refs → r ∈ l.*1 ∨ t !! r = Some (Some {| lock_epoch := epoch; lock_tx_digest := tx |}))
  | Err _ => ∃ r, r ∈ refs ∧ ¬ can_lock t epoch tx r
  end.
Proof.
  induction refs as [|r refs IH]; [split_and!; set_solver|]. cbn [locks_to_write].
  set (rest := locks_to_write t epoch owned tx refs) in *. set (d := {| lock_epoch := epoch; lock_tx_digest := tx |}) in *.
  assert (can_lock t epoch tx r →
    match (match rest with Ok l => Ok ((r, d) :: l) | Err e => Err e end) with
    | Ok l => (∀ r', r' ∈ r :: refs → can_lock t epoch tx r') ∧
        (∀ r' d', (r', d') ∈ l → r' ∈ r :: refs ∧ d' = d) ∧
        (∀ r', r' ∈ r :: refs → r' ∈ l.*1 ∨ t !! r' = Some (Some d))
    | Err _ => ∃ r', r' ∈ r :: refs ∧ ¬ can_lock t epoch tx r'
    end) as Hwrite.
  { intros Hr. destruct rest as [l|e]; [|destruct IH as (r' & ? & ?); exists r'; split; [by right|done]].
    destruct IH as (Hcan & Hin & Hall). split_and!.
    - intros r' [->|?]%elem_of_cons; [done|by apply Hcan].
    - intros r' d' [[= -> ->]|Hin']%elem_of_cons; [split; [left|done]|].
      destruct (Hin r' d' Hin'). split; [by right|done].
    - intros r' [->|Hr']%elem_of_cons; [left; left|]. destruct (Hall r' Hr'); [left; by right|by right]. }
  unfold can_lock in Hwrite at 1. destruct (t !! r) as [[l|]|] eqn:Ht.
  - destruct (Z.ltb_spec epoch (lock_epoch l)) as [Hlt|Hge].
    { exists r. split; [left|]. unfold can_lock. rewrite Ht. lia. }
    destruct (Z.eqb_spec (lock_epoch l) epoch) as [He|He]; simpl.
    + destruct (Z.eqb_spec (lock_tx_digest l) tx) as [Hx|Hx]; simpl.
      * rewrite (proj2 (Z.eqb_eq epoch (lock_epoch l))) by done.
        assert (t !! r = Some (Some d)) as Hd by (rewrite Ht; unfold d; by destruct l; simplify_eq/=).
        assert (can_lock t epoch tx r) as Hr by (unfold can_lock; rewrite Ht; by right).
        destruct rest as [l'|e]; [|destruct IH as (r' & ? & ?); exists r'; split; [by right|done]].
        destruct IH as (Hcan & Hin & Hall). split_and!.
        { intros r' [->|?]%elem_of_cons; [done|by apply Hcan]. }
        { intros r' d' Hin'. destruct (Hin r' d' Hin'). split; [by right|done]. }
        { intros r' [->|Hr']%elem_of_cons; [by right|by apply Hall]. }
      * exists r. split; [left|]. unfold can_lock. rewrite Ht. lia.
    + rewrite (proj2 (Z.eqb_neq epoch (lock_epoch l))) by lia. apply Hwrite. left. lia.
  - by apply Hwrite.
  - unfold unavailable. destruct (get_latest_lock_for_object_id t r.1.1); exists r; (split; [left|]);
      unfold can_lock; rewrite Ht; tauto.
Qed.

Lemma write_locks_lookup (t : LockTable) l d r :
  (∀ r' d', (r', d') ∈ l → d' = d) →
  write_locks t l !! r = if decide (r ∈ l.*1) then Some (Some d) else t !! r.
Proof.
  unfold write_locks. revert t. induction l as [|[k d'] l IH]; intros t Hd; [done|]. cbn.
  rewrite IH by (intros r' d'' Hin; apply (Hd r'); by right). rewrite (Hd k d') by left.
  destruct (decide (r ∈ l.*1)) as [Hin|Hin]; [by rewrite decide_True by by right|].
  destruct (decide (r = k)) as [->|Hne]; [rewrite decide_True by left; by rewrite lookup_insert_eq|].
  rewrite decide_False by (by intros [?|?]%elem_of_cons). by rewrite lookup_insert_ne.
Qed.

Lemma acquire_spec (t : LockTable) epoch refs tx :
  match acquire_transaction_locks t epoch refs tx with
  | Ok t' => (∀ r, r ∈ refs → can_lock t epoch tx r) ∧
      ∀ r, t' !! r = if decide (r ∈ refs) then Some (Some {| lock_epoch := epoch; lock_tx_digest := tx |}) else t !! r
  | Err _ => ∃ r, r ∈ refs ∧ ¬ can_lock t epoch tx r
  end.
Proof.
  unfold acquire_transaction_locks. pose proof (locks_to_write_spec t epoch refs tx refs) as Hspec.
  destruct (locks_to_write t epoch refs tx refs) as [l|e]; [|done]. destruct Hspec as (Hcan & Hin & Hall).
  split; [done|]. intros r. rewrite (write_locks_lookup t l {| lock_epoch := epoch; lock_tx_digest := tx |});
    [|intros r' d' Hin'; by apply (Hin r' d' Hin')].
  destruct (decide (r ∈ l.*1)) as [Hl|Hl].
  - rewrite decide_True; [done|]. apply list_elem_of_fmap in Hl as ([r' d] & -> & Hl). by destruct (Hin r' d Hl).
  - destruct (decide (r ∈ refs)) as [Hr|Hr]; [|done]. by destruct (Hall r Hr).
Qed.

Lemma exist_check_spec (t : LockTable) objects :
  match check_owned_object_locks_exist t objects with
  | Ok _ => ∀ r, r ∈ objects → is_Some (t !! r)
  | Err _ => ∃ r, r ∈ objects ∧ t !! r = None
  end.
Proof.
  induction objects as [|r objects IH]; simpl; [set_solver|]. destruct (t !! r) as [l|] eqn:Ht.
  - destruct (check_owned_object_locks_exist t objects).
    + intros r' [->|?]%elem_of_cons; [by rewrite Ht|by apply IH].
    + destruct IH as (r' & ? & ?). exists r'. split; [by right|done].
  - unfold unavailable. destruct (get_latest_lock_for_object_id t r.1.1); exists r; (split; [left|done]).
Qed.
Lemma foldl_init_lookup (objects : list ObjectRef) (t : LockTable) (r : ObjectRef) :
  foldl (λ t r, <[r := None]> t) t objects !! r = if decide (r ∈ objects) then Some None else t !! r.
Proof.
  revert t. induction objects as [|k objects IH]; intros t; [done|]. cbn. rewrite IH.
  destruct (decide (r ∈ objects)) as [Hin|Hin]; [by rewrite decide_True by by right|].
  destruct (decide (r = k)) as [->|Hne]; [rewrite decide_True by left; by rewrite lookup_insert_eq|].
  rewrite decide_False by (by intros [?|?]%elem_of_cons). by rewrite lookup_insert_ne.
Qed.
Lemma delete_locks_lookup (objects : list ObjectRef) (t : LockTable) (r : ObjectRef) :
  delete_locks t objects !! r = if decide (r ∈ objects) then None else t !! r.
Proof.
  unfold delete_locks. revert t. induction objects as [|k objects IH]; intros t; [done|]. cbn. rewrite IH.
  destruct (decide (r ∈ objects)) as [Hin|Hin]; [by rewrite decide_True by by right|].
  destruct (decide (r = k)) as [->|Hne]; [rewrite decide_True by left; by rewrite lookup_delete_eq|].
  rewrite decide_False by (by intros [?|?]%elem_of_cons). by rewrite lookup_delete_ne.
Qed.
Lemma commit_spec (t : LockTable) del new :
  match commit_locks t del new with
  | Ok t' => (∀ r, r ∈ del → is_Some (t !! r)) ∧ (∀ r, r ∈ new → mjoin (t !! r) = None) ∧
      ∀ r, t' !! r = if decide (r ∈ del) then None else if decide (r ∈ new) then Some None else t !! r
  | Err _ => (∃ r, r ∈ del ∧ t !! r = None) ∨ (∃ r, r ∈ new ∧ is_Some (mjoin (t !! r)))
  end.
Proof.
  unfold commit_locks. pose proof (exist_check_spec t del) as Hex.
  destruct (check_owned_object_locks_exist t del); [|by left]. unfold initialize_locks. simpl negb.
  case_bool_decide as Hnil; simpl.
  - split_and!; [done| |].
    + intros r Hr. destruct (mjoin (t !! r)) as [l|] eqn:Hl; [|done].
      assert (r ∈ filter (λ r, is_Some (mjoin (t !! r))) new) as Hin by (apply list_elem_of_filter; by rewrite Hl).
      rewrite Hnil in Hin. by apply elem_of_nil in Hin.
    + intros r. by rewrite delete_locks_lookup, foldl_init_lookup.
  - right. destruct (filter _ new) as [|r l] eqn:Hf; [done|].
    assert (r ∈ filter (λ r, is_Some (mjoin (t !! r))) new) as [? ?]%list_elem_of_filter by (rewrite Hf; left).
    by exists r.
Qed.

(** * Runs *)

Inductive LockOp :=
  | LockAcquire (epoch : Z) (refs : list ObjectRef) (tx : TransactionDigest)
  | LockCommit (locks_to_delete new_locks_to_init : list ObjectRef)
  | LockReset (refs : list ObjectRef).
Definition lock_step (t : LockTable) (op : LockOp) : result LockTable MgoError :=
  match op with
  | LockAcquire epoch refs tx => acquire_transaction_locks t epoch refs tx
  | LockCommit del new => commit_locks t del new
  | LockReset refs => initialize_locks t refs true
  end.
Definition lock_run (t : LockTable) (ops : list LockOp) : LockTable :=
  foldl (λ t op, match lock_step t op with Ok t' => t' | Err _ => t end) t ops.

(** The epoch goes no further than [epoch], and [r] is not created again. *)
Definition keeps_version (epoch : Z) (r : ObjectRef) (op : LockOp) : Prop :=
  match op with
  | LockAcquire e _ _ => e ≤ epoch
  | LockCommit _ new => r ∉ new
  | LockReset refs => r ∉ refs
  end.

Lemma step_keeps (t t' : LockTable) op r epoch :
  keeps_version epoch r op → lock_step t op = Ok t' →
  (t !! r = None → t' !! r = None) ∧
  ∀ tx, let held := Some (Some {| lock_epoch := epoch; lock_tx_digest := tx |}) in
    t !! r = held → t' !! r = held ∨ t' !! r = None.
Proof.
  destruct op as [e refs tx|del new|refs]; simpl; intros Hop Hrun.
  - pose proof (acquire_spec t e refs tx) as Hspec. rewrite Hrun in Hspec. destruct Hspec as [Hcan Hl].
    rewrite Hl. destruct (decide (r ∈ refs)) as [Hin|]; [|split; [done|by left]].
    specialize (Hcan r Hin). unfold can_lock in Hcan. split; [by intros Ht; rewrite Ht in Hcan|].
    intros tx' Ht. rewrite Ht in Hcan. simpl in Hcan. left. repeat f_equal; lia.
  - pose proof (commit_spec t del new) as Hspec. rewrite Hrun in Hspec. destruct Hspec as (_ & _ & Hl).
    rewrite Hl. destruct (decide (r ∈ del)); [split; [done|by right]|]. rewrite decide_False by done.
    split; [done|by left].
  - unfold initialize_locks in Hrun. simpl in Hrun. injection Hrun as <-. rewrite foldl_init_lookup.
    rewrite decide_False by done. split; [done|by left].
Qed.
Lemma run_keeps (t : LockTable) ops r epoch :
  (∀ op, op ∈ ops → keeps_version epoch r op) →
  (t !! r = None → lock_run t ops !! r = None) ∧
  ∀ tx, let held := Some (Some {| lock_epoch := epoch; lock_tx_digest := tx |}) in
    t !! r = held → lock_run t ops !! r = held ∨ lock_run t ops !! r = None.
Proof.
  unfold lock_run. revert t. induction ops as [|op ops IH]; intros t Hops; [split; [done|by left]|]. cbn.
  pose proof (Hops op ltac:(left)) as Hop.
  destruct (lock_step t op) as [t'|] eqn:Hrun; [|apply IH; intros; apply Hops; by right].
  destruct (IH t' ltac:(intros; apply Hops; by right)) as [Hnone Hheld].
  destruct (step_keeps t t' op r epoch Hop Hrun) as [Hn Hh].
  split; [by intros Ht; apply Hnone, Hn|]. intros tx Ht. destruct (Hh tx Ht) as [Ht'|Ht']; [by apply Hheld|].
  right. by apply Hnone.
Qed.

(** * The theorems *)

(** Locking is all or nothing: a transaction gets the locks of its owned inputs
    exactly when each of them is at a version that is initialised, locked in
    an earlier epoch, or locked by this transaction already; then all of them
    and nothing else are locked to it, and [get_lock] says so. *)
Theorem acquire_exact (t : LockTable) epoch refs tx :
  (is_ok (acquire_transaction_locks t epoch refs tx) = true ↔ ∀ r, r ∈ refs → can_lock t epoch tx r) ∧
  ∀ t', acquire_transaction_locks t epoch refs tx = Ok t' →
    (∀ r, r ∉ refs → t' !! r = t !! r) ∧
    ∀ r, r ∈ refs → get_lock t' r epoch = Ok (LockedToTx {| lock_epoch := epoch; lock_tx_digest := tx |}).
Proof.
  pose proof (acquire_spec t epoch refs tx) as Hspec.
  destruct (acquire_transaction_locks t epoch refs tx) as [t1|e]; simpl.
  - destruct Hspec as [Hcan Hl]. split; [done|]. intros t' [= <-]. split.
    + intros r Hr. rewrite Hl. by rewrite decide_False.
    + intros r Hr. unfold get_lock. rewrite Hl, decide_True by done. simpl. by rewrite Z.compare_refl.
  - split; [|done]. split; [done|]. intros Hall. destruct Hspec as (r & Hr & Hn). by destruct Hn; apply Hall.
Qed.

(** C26: No equivocation on owned objects: once a transaction has locked a version,
    whatever transactions are locked, committed or refused afterwards in that
    epoch, no other transaction gets a lock on that version; the lock stays
    until a commit consumes the version. *)
Theorem lock_exclusive (t t1 : LockTable) epoch refs tx ops r refs2 tx2 :
  acquire_transaction_locks t epoch refs tx = Ok t1 → r ∈ refs →
  (∀ op, op ∈ ops → keeps_version epoch r op) → r ∈ refs2 → tx2 ≠ tx →
  is_ok (acquire_transaction_locks (lock_run t1 ops) epoch refs2 tx2) = false ∧
  (lock_run t1 ops !! r = Some (Some {| lock_epoch := epoch; lock_tx_digest := tx |}) ∨ lock_run t1 ops !! r = None).
Proof.
  intros Hacq Hr Hops Hr2 Hne. pose proof (acquire_spec t epoch refs tx) as Hspec. rewrite Hacq in Hspec.
  destruct Hspec as [_ Hl]. specialize (Hl r). rewrite decide_True in Hl by done.
  destruct (run_keeps t1 ops r epoch Hops) as [_ Hheld]. specialize (Hheld tx Hl). split; [|done].
  pose proof (acquire_spec (lock_run t1 ops) epoch refs2 tx2) as Hspec2.
  destruct (acquire_transaction_locks (lock_run t1 ops) epoch refs2 tx2) as [t2|]; [|done].
  destruct Hspec2 as [Hcan _]. specialize (Hcan r Hr2). unfold can_lock in Hcan.
  destruct Hheld as [Hh|Hh]; rewrite Hh in Hcan; [|done]. simpl in Hcan. lia.
Qed.

(** For a version without a lock, the query names the greatest version of the
    object that has one; if none has, it reports the object as not found. *)
Theorem latest_lock_exact (t : LockTable) r epoch :
  (∀ r', is_Some (t !! r') → oref_ok r') → t !! r = None →
  match get_lock t r epoch with
  | Ok (LockedAtDifferentVersion r') =>
      r'.1.1 = r.1.1 ∧ is_Some (t !! r') ∧ ∀ r'', is_Some (t !! r'') → r''.1.1 = r.1.1 → oref_le r'' r'
  | Ok _ => False
  | Err e => e = UserInput (ObjectNotFound r.1.1 None) ∧ ∀ r', is_Some (t !! r') → r'.1.1 ≠ r.1.1
  end.
Proof.
  intros Hok Hr. unfold get_lock. rewrite Hr. pose proof (latest_lock_spec t r.1.1 Hok) as Hspec.
  by destruct (get_latest_lock_for_object_id t r.1.1).
Qed.

(** * Interleaved calls *)

(** A call that has read the table and not yet written its batch: a call to
    [acquire_transaction_locks] holds the mutexes of its objects; a commit has
    passed the check that its locks exist, and then the one on the locks it
    initialises. *)
Inductive LockThread :=
  | AcquireRead (refs : list ObjectRef) (locks_to_write : list (ObjectRef * LockDetails))
  | CommitChecked (locks_to_delete new_locks_to_init : list ObjectRef)
  | CommitReady (locks_to_delete new_locks_to_init : list ObjectRef).
Record LockWorld := { lw_table : LockTable; lw_threads : list LockThread }.

(** What can happen next; a number selects a call. *)
Inductive LockEvent :=
  | EvAcquireRead (epoch : Z) (refs : list ObjectRef) (tx : TransactionDigest)
  | EvAcquireWrite (n : nat)
  | EvCommitCheck (locks_to_delete new_locks_to_init : list ObjectRef)
  | EvCommitInit (n : nat)
  | EvCommitWrite (n : nat)
  | EvRevert (old_locks new_locks : list ObjectRef).

Definition holds_mutex (refs : list ObjectRef) (th : LockThread) : bool :=
  match th with
  | AcquireRead refs' _ => existsb (λ r, bool_decide (r ∈ refs')) refs
  | _ => false
  end.
Definition start (w : LockWorld) (th : LockThread) : LockWorld :=
  {| lw_table := lw_table w; lw_threads := lw_threads w ++ [th] |}.
Definition finish (w : LockWorld) (n : nat) (t : LockTable) : LockWorld :=
  {| lw_table := t; lw_threads := delete n (lw_threads w) |}.

(** [None]: the event cannot happen, because the call waits for a mutex or is
    elsewhere.  A call that is refused ends and leaves the table as it is. *)
Definition lw_step (w : LockWorld) (ev : LockEvent) : option LockWorld :=
  match ev with
  | EvAcquireRead epoch refs tx =>
      if existsb (holds_mutex refs) (lw_threads w) then None
      else match locks_to_write (lw_table w) epoch refs tx refs with
           | Ok l => Some (start w (AcquireRead refs l))
           | Err _ => Some w
           end
  | EvAcquireWrite n =>
      match lw_threads w !! n with
      | Some (AcquireRead _ l) => Some (finish w n (write_locks (lw_table w) l))
      | _ => None
      end
  | EvCommitCheck del new =>
      match check_owned_object_locks_exist (lw_table w) del with
      | Ok _ => Some (start w (CommitChecked del new))
      | Err _ => Some w
      end
  | EvCommitInit n =>
      match lw_threads w !! n with
      | Some (CommitChecked del new) =>
          match initialize_locks (lw_table w) new false with
          | Ok _ => Some {| lw_table := lw_table w; lw_threads := <[n := CommitReady del new]> (lw_threads w) |}
          | Err _ => Some (finish w n (lw_table w))
          end
      | _ => None
      end
  | EvCommitWrite n =>
      match lw_threads w !! n with
      | Some (CommitReady del new) =>
          Some (finish w n (delete_locks (foldl (λ t r, <[r := None]> t) (lw_table w) new) del))
      | _ => None
      end
  | EvRevert old new =>
      Some {| lw_table := delete_locks (foldl (λ t r, <[r := None]> t) (lw_table w) old) new;
              lw_threads := lw_threads w |}
  end.
Fixpoint lw_run (w : LockWorld) (evs : list LockEvent) : option LockWorld :=
  match evs with
  | [] => Some w
  | ev :: evs => w ← lw_step w ev; lw_run w evs
  end.

(** A call that neither locks, consumes nor creates the version [r]. *)
Definition clear_of (r : ObjectRef) (th : LockThread) : Prop :=
  match th with
  | AcquireRead _ l => r ∉ l.*1
  | CommitChecked del new | CommitReady del new => (r ∉ del) ∧ (r ∉ new)
  end.
(** An event that does not create the version [r], as a commit or a revert of
    the transaction that consumed it would. *)
Definition not_recreated (r : ObjectRef) (ev : LockEvent) : Prop :=
  match ev with
  | EvCommitCheck _ new => r ∉ new
  | EvRevert old _ => r ∉ old
  | _ => True
  end.

(** The version has no lock and no call is past its reads with it. *)
Record version_gone (r : ObjectRef) (w : LockWorld) : Prop := {
  vg_table : lw_table w !! r = None;
  vg_threads : ∀ th, th ∈ lw_threads w → clear_of r th;
}.
Lemma gone_refused (r : ObjectRef) (t : LockTable) :
  t !! r = None →
  (∀ del, r ∈ del → is_ok (check_owned_object_locks_exist t del) = false) ∧
  ∀ e refs tx, r ∈ refs → is_ok (locks_to_write t e refs tx refs) = false.
Proof.
  intros Ht. split.
  - intros del Hr. pose proof (exist_check_spec t del) as Hspec.
    destruct (check_owned_object_locks_exist t del); [|done]. destruct (Hspec r Hr). congruence.
  - intros e refs tx Hr. pose proof (locks_to_write_spec t e refs tx refs) as Hspec.
    destruct (locks_to_write t e refs tx refs); [|done]. destruct Hspec as [Hcan _].
    specialize (Hcan r Hr). unfold can_lock in Hcan. by rewrite Ht in Hcan.
Qed.
Lemma gone_start r w th : version_gone r w → clear_of r th → version_gone r (start w th).
Proof.
  intros [Ht Hth] Hc. split; [done|]. intros th' [Hin|Hin]%elem_of_app; [by apply Hth|].
  by apply list_elem_of_singleton in Hin as ->.
Qed.
Lemma gone_finish r w n t : version_gone r w → t !! r = None → version_gone r (finish w n t).
Proof.
  intros [_ Hth] Ht. split; [done|]. intros th [m Hm]%list_elem_of_lookup_1.
  simpl in Hm. rewrite list_lookup_delete in Hm. case_match; by eapply Hth, list_elem_of_lookup_2.
Qed.
Lemma write_locks_other (t : LockTable) l (r : ObjectRef) : r ∉ l.*1 → write_locks t l !! r = t !! r.
Proof.
  unfold write_locks. revert t. induction l as [|[k d] l IH]; intros t Hr; [done|]. simpl in *.
  rewrite IH by set_solver. rewrite lookup_insert_ne; [done|]. set_solver.
Qed.
Lemma batch_lookup (t : LockTable) new del (r : ObjectRef) :
  delete_locks (foldl (λ t r, <[r := None]> t) t new) del !! r =
  if decide (r ∈ del) then None else if decide (r ∈ new) then Some None else t !! r.
Proof. by rewrite delete_locks_lookup, foldl_init_lookup. Qed.
Lemma gone_step r w ev w' :
  version_gone r w → not_recreated r ev → lw_step w ev = Some w' → version_gone r w'.
Proof.
  intros Hg Hev Hstep. pose proof Hg as [Ht Hth]. destruct (gone_refused r (lw_table w) Ht) as [Hcheck Hlocks].
  destruct ev as [e refs tx|n|del new|n|n|old new]; simpl in Hstep.
  - destruct (existsb _ _); [done|]. specialize (Hlocks e refs tx).
    pose proof (locks_to_write_spec (lw_table w) e refs tx refs) as Hspec.
    destruct (locks_to_write (lw_table w) e refs tx refs) as [l|]; simplify_eq; [|done]. apply gone_start; [done|].
    simpl. intros Hin'. apply list_elem_of_fmap in Hin' as ([r' d] & -> & Hin). destruct Hspec as (_ & Hl & _).
    destruct (Hl _ _ Hin) as [Hr _]. specialize (Hlocks Hr). done.
  - destruct (lw_threads w !! n) as [[refs l|? ?|? ?]|] eqn:Hn; simplify_eq. apply gone_finish; [done|].
    rewrite write_locks_other; [done|]. by apply (Hth (AcquireRead refs l)), list_elem_of_lookup_2 with n.
  - specialize (Hcheck del). destruct (check_owned_object_locks_exist (lw_table w) del); simplify_eq; [|done].
    apply gone_start; [done|]. split; [|done]. intros Hin. by specialize (Hcheck Hin).
  - destruct (lw_threads w !! n) as [[? ?|del new|? ?]|] eqn:Hn; simplify_eq.
    apply list_elem_of_lookup_2 in Hn as Hin. destruct (initialize_locks _ _ _); simplify_eq; [|by apply gone_finish].
    split; [done|]. intros th Hin'. apply list_elem_of_lookup_1 in Hin' as [i Hi].
    apply list_lookup_insert_Some in Hi as [(_ & <- & _)|[_ Hi]]; [exact (Hth _ Hin)|].
    by eapply Hth, list_elem_of_lookup_2.
  - destruct (lw_threads w !! n) as [[? ?|? ?|del new]|] eqn:Hn; simplify_eq. apply gone_finish; [done|].
    destruct (Hth (CommitReady del new)) as [Hd Hne]; [by eapply list_elem_of_lookup_2|].
    by rewrite batch_lookup, !decide_False.
  - simplify_eq. split; [|done]. simpl in *. rewrite batch_lookup. rewrite (decide_False (P := r ∈ old)) by done.
    by case_decide.
Qed.

(** C32: A version is consumed once, whatever the interleaving of the calls.  When
    a commit that consumes a version writes its batch while no other call that
    has already read the version is under way, its lock is gone for good: as
    long as no commit and no revert creates the version again, every later commit that
    would consume it fails its check, every attempt to lock it is refused,
    and no call gets past its reads with it.  (Both conditions are needed:
    [late_acquire_revives_lock].) *)
Theorem version_consumed_once w n del new w1 evs w2 r :
  lw_threads w !! n = Some (CommitReady del new) → r ∈ del →
  (∀ m th, m ≠ n → lw_threads w !! m = Some th → clear_of r th) →
  lw_step w (EvCommitWrite n) = Some w1 →
  (∀ ev, ev ∈ evs → not_recreated r ev) → lw_run w1 evs = Some w2 →
  lw_table w2 !! r = None ∧
  (∀ del2, r ∈ del2 → is_ok (check_owned_object_locks_exist (lw_table w2) del2) = false) ∧
  (∀ e refs tx, r ∈ refs → is_ok (acquire_transaction_locks (lw_table w2) e refs tx) = false) ∧
  ∀ th, th ∈ lw_threads w2 → clear_of r th.
Proof.
  intros Hn Hr Hclear Hstep Hevs Hrun.
  assert (version_gone r w1) as Hgone.
  { simpl in Hstep. rewrite Hn in Hstep. injection Hstep as <-. split; simpl.
    - by rewrite batch_lookup, decide_True.
    - intros th [m Hm]%list_elem_of_lookup_1. rewrite list_lookup_delete in Hm.
      case_match; eapply Hclear; [|done| |done]; lia. }
  assert (version_gone r w2) as [Ht Hth].
  { clear -Hgone Hevs Hrun. revert w1 Hgone Hrun. induction evs as [|ev evs IH]; intros w1 Hgone Hrun; simpl in Hrun.
    - by injection Hrun as <-.
    - apply bind_Some in Hrun as (w' & Hw' & Hrun). apply (IH ltac:(intros; apply Hevs; by right) w'); [|done].
      eapply gone_step; [done|apply Hevs; by left|done]. }
  destruct (gone_refused r _ Ht) as [Hcheck Hlocks]. split_and!; [done|done| |done].
  intros e refs tx Hin. specialize (Hlocks e refs tx Hin). unfold acquire_transaction_locks.
  by destruct (locks_to_write (lw_table w2) e refs tx refs).
Qed.

(** A transaction that has read the lock of a version before a commit consumes
    it, and writes it afterwards, brings the lock back: commits take no mutex,
    so nothing keeps the two apart, and the check of a second commit that
    consumes the version passes. *)
Theorem late_acquire_revives_lock (t : LockTable) (r : ObjectRef) epoch tx del new :
  t !! r = Some None → r ∈ del →
  check_owned_object_locks_exist t del = Ok () → is_ok (initialize_locks t new false) = true →
  ∃ t', lw_run {| lw_table := t; lw_threads := [] |}
    [EvAcquireRead epoch [r] tx; EvCommitCheck del new; EvCommitInit 1; EvCommitWrite 1; EvAcquireWrite 0] =
      Some {| lw_table := t'; lw_threads := [] |} ∧
    t' !! r = Some (Some {| lock_epoch := epoch; lock_tx_digest := tx |}) ∧
    check_owned_object_locks_exist t' [r] = Ok ().
Proof.
  intros Ht Hr Hdel Hnew. simpl. rewrite Ht. simpl. rewrite Hdel. simpl.
  destruct (initialize_locks t new false); [|done]. simpl. eexists. split; [reflexivity|].
  unfold write_locks. simpl. by rewrite lookup_insert_eq.
Qed.

(** * An example *)

Definition ex_ref : ObjectRef := (1, 5, 100).
Definition ex_table : LockTable := {[ex_ref := None]}.
Definition ex_locked : LockTable := {[ex_ref := Some {| lock_epoch := 2; lock_tx_digest := 7 |}]}.

Lemma lock_exclusive_witness :
  is_ok (acquire_transaction_locks (lock_run ex_locked [LockAcquire 2 [ex_ref] 8; LockCommit [ex_ref] [(1, 6, 101)]])
    2 [ex_ref] 9) = false.
Proof.
  apply (lock_exclusive ex_table ex_locked 2 [ex_ref] 7 [LockAcquire 2 [ex_ref] 8; LockCommit [ex_ref] [(1, 6, 101)]]
    ex_ref [ex_ref] 9).
  - vm_compute. reflexivity.
  - left.
  - intros op [->| ->%list_elem_of_singleton]%elem_of_cons; simpl; [lia|].
    rewrite list_elem_of_singleton. discriminate.
  - left.
  - discriminate.
Defined.
(** A commit of the version, while a call on another object is under way, and
    two attempts to use the version afterwards. *)
Definition ex_world : LockWorld := {|
  lw_table := {[ex_ref := None; (2, 5, 200) := None]};
  lw_threads := [AcquireRead [(2, 5, 200)] [((2, 5, 200), {| lock_epoch := 2; lock_tx_digest := 6 |})];
                 CommitReady [ex_ref] [(1, 6, 101)]] |}.
Definition ex_events : list LockEvent :=
  [EvAcquireRead 2 [ex_ref] 8; EvAcquireWrite 0; EvCommitCheck [ex_ref] [(1, 7, 102)]].
Lemma version_consumed_once_witness :
  ∃ w2, (w ← lw_step ex_world (EvCommitWrite 1); lw_run w ex_events) = Some w2 ∧
    is_ok (check_owned_object_locks_exist (lw_table w2) [ex_ref]) = false.
Proof.
  destruct (lw_step ex_world (EvCommitWrite 1)) as [w1|] eqn:Hw1; [|vm_compute in Hw1; discriminate].
  destruct (lw_run w1 ex_events) as [w2|] eqn:Hw2; [|vm_compute in Hw1; injection Hw1 as <-; vm_compute in Hw2; discriminate].
  exists w2. split; [exact Hw2|].
  apply (version_consumed_once ex_world 1 [ex_ref] [(1, 6, 101)] w1 ex_events w2 ex_ref).
  - reflexivity.
  - left.
  - intros [|[|m]] th Hm Hth; [|done|done]. injection Hth as <-. simpl. rewrite list_elem_of_singleton. discriminate.
  - exact Hw1.
  - intros ev [->|[->| ->%list_elem_of_singleton]%elem_of_cons]%elem_of_cons; [exact I|exact I|].
    simpl. rewrite list_elem_of_singleton. discriminate.
  - exact Hw2.
  - left.
Defined.
Lemma latest_lock_exact_witness :
  get_lock ex_table (1, 4, 99) 2 = Ok (LockedAtDifferentVersion ex_ref) ∧
  match get_lock ex_table (1, 4, 99) 2 with
  | Ok (LockedAtDifferentVersion r') => r'.1.1 = 1 ∧ is_Some (ex_table !! r')
  | _ => False
  end.
Proof.
  split; [vm_compute; reflexivity|].
  assert (∀ r', is_Some (ex_table !! r') → oref_ok r') as Hok.
  { intros r' [x Hx]. unfold ex_table in Hx. apply lookup_singleton_Some in Hx as [<- _].
    vm_compute. split; discriminate. }
  pose proof (latest_lock_exact ex_table (1, 4, 99) 2 Hok ltac:(vm_compute; reflexivity)) as H.
  destruct (get_lock ex_table (1, 4, 99) 2) as [[| |r']|e] eqn:Hg; [destruct H..| |vm_compute in Hg; discriminate].
  destruct H as (H1 & H2 & _). split; [exact H1|exact H2].
Defined.
