(* ===== verification/StoreObjects.v ===== *)
(** How objects are stored (mgo-core/src/authority/authority_store_types.rs): a
    gas coin as its balance, a large Move object by the hash of its contents in
    a table of its own, everything else as it is.  The enums that carry the
    storage version have one variant and are left out; the hash of the contents
    is a parameter. *)
From S2P Require Import Prelude Objects Errors.

(** * Definitions *)

Abbreviation ObjectKey := (Z * Z)%type (only parsing).   (* identifier, version *)

(** A Move object without its version, and the number of objects that refer to it. *)
Record StoreMoveObject := {
  smo_type : MoveObjectType;
  smo_has_public_transfer : bool;
  smo_contents : list Z;
  smo_ref_count : Z;
}.
Inductive StoreData :=
  | StoreMove (m : MoveObject)
  | StorePackage (p : MovePackage)
  | IndirectObject (version : SequenceNumber) (digest : ObjectDigest)
  | StoreCoin (balance : Z).
Record StoreObjectValue := {
  sov_data : StoreData;
  sov_owner : Owner;
  sov_previous_transaction : TransactionDigest;
  sov_storage_rebate : Z;
}.
Inductive StoreObject :=
  | StoreValue (v : StoreObjectValue)
  | StoreDeleted
  | StoreWrapped.

Class ContentHash := content_hash : StoreMoveObject → ObjectDigest.

(** [bcs::from_bytes] for a coin, an identifier and a balance. *)
Definition coin_from_bcs_bytes (contents : list Z) : option (ObjectID * Z) :=
  if (length contents =? ID_END_INDEX + 8)%nat
  then Some (id_from_bytes (take ID_END_INDEX contents), from_le_bytes (drop ID_END_INDEX contents))
  else None.
Definition coin_to_bcs_bytes (id : ObjectID) (balance : Z) : list Z :=
  id_to_bytes id ++ to_le_bytes 8 balance.

Section store.
Context {Hcontent : ContentHash}.

Definition store_move_digest (m : StoreMoveObject) : exec ObjectDigest :=
  _ ← assert (smo_ref_count m =? 1); Done (content_hash m).

Definition get_store_object_pair (object : Object) (indirect_objects_threshold : Z)
    : exec (StoreObject * option StoreMoveObject) :=
  '(d, indirect_object) ←
    match data object with
    | Package package => Done (StorePackage package, None)
    | Move move_obj =>
        if (0 <? indirect_objects_threshold) &&
           (indirect_objects_threshold <=? Z.of_nat (length (contents move_obj)))
        then
          let move_object := {|
            smo_type := type_ move_obj; smo_has_public_transfer := has_public_transfer move_obj;
            smo_contents := contents move_obj; smo_ref_count := 1 |} in
          digest ← store_move_digest move_object;
          Done (IndirectObject (mo_version move_obj) digest, Some move_object)
        else if is_gas_coin_type (type_ move_obj) then
          coin ← unwrap (coin_from_bcs_bytes (contents move_obj));
          Done (StoreCoin coin.2, None)
        else Done (StoreMove move_obj, None)
    end;
  Done (StoreValue {| sov_data := d; sov_owner := owner object;
                      sov_previous_transaction := previous_transaction object;
                      sov_storage_rebate := storage_rebate object |}, indirect_object).

Definition new_from_execution_with_limit (type : MoveObjectType) (has_public_transfer : bool)
    (version : SequenceNumber) (contents : list Z) (max_move_object_size : Z)
    : result MoveObject MgoError :=
  if max_move_object_size <? Z.of_nat (length contents) then
    Err (MoveObjectTooBig (Z.of_nat (length contents)) max_move_object_size)
  else Ok {| type_ := type; has_public_transfer := has_public_transfer; mo_version := version;
             contents := contents |}.

Definition try_construct_object (object_key : ObjectKey) (store_object : StoreObjectValue)
    (indirect_object : option StoreMoveObject) : result Object MgoError :=
  d ←! match sov_data store_object, indirect_object with
       | StoreMove object, None => Ok (Move object)
       | StorePackage package, None => Ok (Package package)
       | IndirectObject version _, Some indirect_obj =>
           m ←! new_from_execution_with_limit (smo_type indirect_obj)
                  (smo_has_public_transfer indirect_obj) version (smo_contents indirect_obj) u64_max;
           Ok (Move m)
       | StoreCoin balance, None =>
           m ←! new_from_execution_with_limit GasCoin true object_key.2
                  (coin_to_bcs_bytes object_key.1 balance) u64_max;
           Ok (Move m)
       | _, _ => Err StorageError
       end;
  Ok {| data := d; owner := sov_owner store_object;
        previous_transaction := sov_previous_transaction store_object;
        storage_rebate := sov_storage_rebate store_object |}.

(** * Storing an object and reading it back *)

(** Objects the store is given: their contents are bytes, and gas coins are
    coins with the ability to be transferred. *)
Record storable (key : ObjectKey) (o : Object) : Prop := {
  sb_id : object_id o = Done key.1;
  sb_version : object_version o = key.2;
  sb_bytes : ∀ m, data o = Move m →
    Forall (λ b, 0 ≤ b < 256) (contents m) ∧ Z.of_nat (length (contents m)) ≤ u64_max;
  sb_coin : ∀ m, data o = Move m → type_ m = GasCoin →
    length (contents m) = (ID_END_INDEX + 8)%nat ∧ has_public_transfer m = true;
}.

Lemma to_from_le_bytes l : Forall (λ b, 0 ≤ b < 256) l → to_le_bytes (length l) (from_le_bytes l) = l.
Proof.
  induction 1 as [|b l Hb Hl IH]; [done|]. cbn [length from_le_bytes].
  change (to_le_bytes (S (length l)) ?v) with (v mod 256 :: to_le_bytes (length l) (v / 256)).
  set (f := from_le_bytes l) in *.
  rewrite <-(Z.mod_unique (b + 256 * f) 256 f b), <-(Z.div_unique (b + 256 * f) 256 f b) by lia.
  by rewrite IH.
Qed.
Lemma coin_bytes_roundtrip contents :
  Forall (λ b, 0 ≤ b < 256) contents → length contents = (ID_END_INDEX + 8)%nat →
  ∃ coin, coin_from_bcs_bytes contents = Some coin ∧ coin_to_bcs_bytes coin.1 coin.2 = contents ∧
    move_id_opt contents = Some coin.1.
Proof.
  intros Hb Hlen. unfold coin_from_bcs_bytes. rewrite (proj2 (Nat.eqb_eq _ _)) by done.
  eexists. split; [done|]. cbn [fst snd]. split.
  - unfold coin_to_bcs_bytes, id_to_bytes, id_from_bytes. rewrite <-(take_drop ID_END_INDEX contents) at 3. f_equal.
    + rewrite <-(rev_involutive (take _ _)) at 2. f_equal.
      assert (OBJECT_ID_LENGTH = length (rev (take ID_END_INDEX contents))) as ->.
      { rewrite length_rev, length_take, Hlen. done. }
      apply to_from_le_bytes, Forall_rev. by apply Forall_take.
    + assert (8%nat = length (drop ID_END_INDEX contents)) as -> by (rewrite length_drop, Hlen; done).
      apply to_from_le_bytes. by apply Forall_drop.
  - unfold move_id_opt. by rewrite (proj2 (Nat.ltb_ge _ _)) by (rewrite Hlen; lia).
Qed.

Lemma new_from_execution_ok t pt v c :
  Z.of_nat (length c) ≤ u64_max →
  new_from_execution_with_limit t pt v c u64_max =
    Ok {| type_ := t; has_public_transfer := pt; mo_version := v; contents := c |}.
Proof. intros Hl. unfold new_from_execution_with_limit. by rewrite (proj2 (Z.ltb_ge _ _)). Qed.

Lemma store_pair_roundtrip key o threshold :
  storable key o →
  ∃ v ind, get_store_object_pair o threshold = Done (StoreValue v, ind) ∧
    try_construct_object key v ind = Ok o ∧
    match sov_data v, ind with
    | IndirectObject _ d, Some m => d = content_hash m ∧ smo_ref_count m = 1
    | IndirectObject _ _, None => False
    | _, Some _ => False
    | _, None => True
    end.
Proof.
  intros [Hid Hv Hb Hc]. unfold get_store_object_pair.
  destruct (data o) as [m|p] eqn:Hd.
  2: { simpl. eexists _, None. split; [done|]. split; [|done]. destruct o; by simplify_eq/=. }
  destruct (Hb m eq_refl) as [Hbytes Hlen]. unfold object_version in Hv. rewrite Hd in Hv.
  destruct (_ && _).
  { simpl. eexists _, (Some _). split; [done|]. split; [|done]. unfold try_construct_object.
    cbn [sov_data smo_type smo_has_public_transfer smo_contents]. rewrite new_from_execution_ok by done.
    simpl. do 2 f_equal. destruct o, m; by simplify_eq/=. }
  destruct (is_gas_coin_type (type_ m)) eqn:Hg.
  - assert (type_ m = GasCoin) as Hty by (by destruct (type_ m)).
    destruct (Hc m eq_refl Hty) as [Hl Hpt].
    destruct (coin_bytes_roundtrip (contents m) Hbytes Hl) as (coin & -> & Hcoin & Hmid). simpl.
    eexists _, None. split; [done|]. split; [|done]. unfold try_construct_object. cbn [sov_data].
    unfold object_id, move_id in Hid. rewrite Hd, Hmid in Hid. simpl in Hid. injection Hid as <-. rewrite Hcoin.
    rewrite new_from_execution_ok by done. simpl.
    rewrite <-Hv. do 2 f_equal. destruct o, m; by simplify_eq/=.
  - simpl. eexists _, None. split; [done|]. split; [|done]. destruct o; by simplify_eq/=.
Qed.

(** Objects survive storage.  For every object the store is given, whatever
    the threshold for storing contents separately, taking it apart does not
    panic, and putting the parts together again under its key gives the same
    object; the part stored separately is stored under its hash. *)
Theorem store_object_roundtrip key o threshold :
  storable key o →
  ∃ v ind, get_store_object_pair o threshold = Done (StoreValue v, ind) ∧
    try_construct_object key v ind = Ok o ∧
    match ind with
    | Some m => ∃ version, sov_data v = IndirectObject version (content_hash m)
    | None => True
    end.
Proof.
  intros Hst. destruct (store_pair_roundtrip key o threshold Hst) as (v & ind & Hp & Hr & Hi).
  exists v, ind. split_and!; [done..|]. destruct ind as [m|]; [|done].
  destruct (sov_data v); try done. destruct Hi as [-> _]. by eexists.
Qed.
End store.

#[local] Instance sample_hash : ContentHash := λ m, Z.of_nat (length (smo_contents m)).
Lemma store_object_roundtrip_witness :
  let coin := {| data := Move (coin_with 77 3 1000); owner := AddressOwner 9;
                 previous_transaction := 5; storage_rebate := 100 |} in
  (∃ v, get_store_object_pair coin 0 = Done (StoreValue v, None) ∧ sov_data v = StoreCoin 1000) ∧
  ∃ v ind, get_store_object_pair coin 0 = Done (StoreValue v, ind) ∧
    try_construct_object (77, 3) v ind = Ok coin.
Proof.
  intros coin. split; [eexists; split; vm_compute; reflexivity|].
  destruct (store_object_roundtrip (77, 3) coin 0) as (v & ind & Hp & Hc & _).
  - split; [vm_compute; reflexivity|reflexivity| |].
    + intros m [= <-]. split; [|vm_compute; discriminate].
      apply Forall_forall. intros b Hb.
      assert (forallb (λ b, (0 <=? b) && (b <? 256)) (contents (coin_with 77 3 1000)) = true) as Hall
        by (vm_compute; reflexivity).
      rewrite forallb_forall in Hall. apply list_elem_of_In, Hall in Hb.
      rewrite andb_true_iff, Z.leb_le, Z.ltb_lt in Hb. exact Hb.
    + intros m [= <-] _. split; vm_compute; reflexivity.
  - exists v, ind. split; [exact Hp|exact Hc].
Defined.
