(* ===== verification/AuthorityTables.v ===== *)
(** The tables of a validator's database that hold objects, and the reads on
    them (mgo-core/src/authority/authority_store_tables.rs and the reads of
    authority_store.rs), with the reference counts of separately stored
    contents (typed-store/src/rocks/util.rs).

    A table is a finite map; the iterations the code does on it follow the order
    of its keys.  Errors of the database itself are not modelled.  [Bcs] is the
    serialization of separately stored contents without the count, which comes
    last. *)
From S2P Require Import Prelude Objects Errors Effects.
From S2P Require Import TransactionData TransactionManager ObjectReads ObjectLocks.
From S2P Require Import StoreObjects.

Class Bcs := {
  bcs_content : StoreMoveObject → list Z;
  bcs_parse : list Z → option (MoveObjectType * bool * list Z);
}.
Class BcsLaws `{!Bcs} := {
  bcs_parse_content m :
    bcs_parse (bcs_content m) = Some (smo_type m, smo_has_public_transfer m, smo_contents m);
  bcs_content_nonempty m : bcs_content m ≠ [];
}.

(** * Reference counts *)

Definition to_i64 (z : Z) : Z := let u := wrap64 z in if u <? 2 ^ 63 then u else u - 2 ^ 64.
Definition count_bytes (n : Z) : list Z := to_le_bytes 8 (wrap64 n).

Definition deserialize_ref_count_value (bytes : list Z) : exec (option (list Z) * Z) :=
  match bytes with
  | [] => Done (None, 0)
  | _ =>
      _ ← assert (8 <=? length bytes)%nat;
      let value := take (length bytes - 8) bytes in
      let rc_bytes := drop (length bytes - 8) bytes in
      Done (match value with [] => None | _ => Some value end, to_i64 (from_le_bytes rc_bytes))
  end.
Definition is_ref_count_value (value : list Z) : bool :=
  (length value =? 0)%nat || (length value =? 8)%nat.

Definition reference_count_merge_operator (stored_value : option (list Z)) (operands : list (list Z))
    : exec (list Z) :=
  start ← match stored_value with None => Done (None, 0) | Some v => deserialize_ref_count_value v end;
  '(value, ref_count) ← foldM (λ (acc : option (list Z) * Z) operand,
    '(new_value, delta) ← deserialize_ref_count_value operand;
    _ ← assert (match acc.1, new_value with Some v, Some w => bool_decide (v = w) | _, _ => true end);
    Done (match acc.1 with None => new_value | Some v => Some v end, to_i64 (acc.2 + delta)))
    start operands;
  Done (match ref_count ?= 0 with
        | Gt => default [] value ++ count_bytes ref_count
        | Eq => []
        | Lt => count_bytes ref_count
        end).

(** * The tables *)

(** The derived order of an object's key, and of the key of a marker: epoch,
    identifier, version. *)
Definition okey_le (a b : ObjectKey) : Prop := a.1 < b.1 ∨ (a.1 = b.1 ∧ a.2 ≤ b.2).
#[export] Instance okey_le_dec : RelDecision okey_le.
Proof. intros a b. unfold okey_le. apply _. Defined.
#[export] Instance okey_le_trans : Transitive okey_le.
Proof. intros a b c. unfold okey_le. lia. Qed.
#[export] Instance okey_le_total : Total okey_le.
Proof. intros a b. unfold okey_le. lia. Qed.
#[export] Instance okey_le_antisymm : AntiSymm (=) okey_le.
Proof. intros [i v] [j w]. unfold okey_le. simpl. intros ??. f_equal; lia. Qed.

Record AuthorityPerpetualTables := {
  tb_objects : gmap ObjectKey StoreObject;
  tb_indirect : gmap ObjectDigest (list Z);
  tb_locks : gmap ObjectRef (option LockDetails);
  tb_transactions : gmap TransactionDigest TransactionData;
  tb_effects : gmap Z TransactionEffects;
  tb_executed_effects : gmap TransactionDigest Z;
  tb_events : gmap (Z * Z) Z;
  tb_markers : gmap (Z * Z * Z) MarkerValue;
}.

Section reads.
Context {Hbcs : Bcs} {Hhash : ObjectHash}.
Context (tables : AuthorityPerpetualTables).

(** [indirect_move_objects.get]: the count is the last field. *)
Definition get_indirect (digest : ObjectDigest) : result (option StoreMoveObject) MgoError :=
  match tb_indirect tables !! digest with
  | None => Ok None
  | Some bytes =>
      match bcs_parse (take (length bytes - 8) bytes) with
      | Some (ty, transfer, contents) =>
          if (length bytes <? 8)%nat then Err StorageError
          else Ok (Some {| smo_type := ty; smo_has_public_transfer := transfer; smo_contents := contents;
                           smo_ref_count := from_le_bytes (drop (length bytes - 8) bytes) |})
      | None => Err StorageError
      end
  end.
Definition construct_object (object_key : ObjectKey) (store_object : StoreObjectValue)
    : result Object MgoError :=
  indirect_object ←! match sov_data store_object with
                     | IndirectObject _ digest => get_indirect digest
                     | _ => Ok None
                     end;
  try_construct_object object_key store_object indirect_object.
Definition table_object (object_key : ObjectKey) (store_object : StoreObject)
    : result (option Object) MgoError :=
  match store_object with
  | StoreValue v => o ←! construct_object object_key v; Ok (Some o)
  | StoreDeleted | StoreWrapped => Ok None
  end.
Definition object_reference (object_key : ObjectKey) (store_object : StoreObject)
    : exec (result ObjectRef MgoError) :=
  match store_object with
  | StoreValue v =>
      o ←? Done (construct_object object_key v);
      r ← compute_object_reference o;
      Done (Ok r)
  | StoreDeleted => Done (Ok (object_key, OBJECT_DIGEST_DELETED))
  | StoreWrapped => Done (Ok (object_key, OBJECT_DIGEST_WRAPPED))
  end.
Definition tombstone_reference (object_key : ObjectKey) (store_object : StoreObject) : option ObjectRef :=
  match store_object with
  | StoreValue _ => None
  | StoreDeleted => Some (object_key, OBJECT_DIGEST_DELETED)
  | StoreWrapped => Some (object_key, OBJECT_DIGEST_WRAPPED)
  end.

(** The entry [skip_prior_to] lands on: the last one that is not after the key. *)
Definition entry_prior_to (key : ObjectKey) : option (ObjectKey * StoreObject) :=
  last (btree_range okey_le (λ k, bool_decide (okey_le k key)) (tb_objects tables)).
Definition max_for_id (id : ObjectID) : ObjectKey := (id, SEQUENCE_NUMBER_MAX).

Definition get_latest_object_or_tombstone (object_id : ObjectID) : option (ObjectKey * StoreObject) :=
  match entry_prior_to (max_for_id object_id) with
  | Some (object_key, value) => if object_key.1 =? object_id then Some (object_key, value) else None
  | None => None
  end.
Definition latest_object_ref_or_tombstone (object_id : ObjectID) : exec (result (option ObjectRef) MgoError) :=
  match get_latest_object_or_tombstone object_id with
  | Some (object_key, value) => r ←? object_reference object_key value; Done (Ok (Some r))
  | None => Done (Ok None)
  end.
Definition store_get_object (object_id : ObjectID) : result (option Object) MgoError :=
  match get_latest_object_or_tombstone object_id with
  | Some (object_key, value) => table_object object_key value
  | None => Ok None
  end.
Definition store_get_object_by_key (object_id : ObjectID) (version : SequenceNumber)
    : result (option Object) MgoError :=
  match tb_objects tables !! (object_id, version) with
  | Some value => table_object (object_id, version) value
  | None => Ok None
  end.
Fixpoint multi_get_object_by_key (object_keys : list ObjectKey) : result (list (option Object)) MgoError :=
  match object_keys with
  | [] => Ok []
  | key :: keys =>
      o ←! store_get_object_by_key key.1 key.2;
      os ←! multi_get_object_by_key keys;
      Ok (o :: os)
  end.
Definition get_object_ref_prior_to_key (object_id : ObjectID) (version : SequenceNumber)
    : exec (result (option ObjectRef) MgoError) :=
  if version =? 0 then Done (Ok None)
  else match entry_prior_to (object_id, version - 1) with
       | Some (object_key, value) =>
           if object_key.1 =? object_id
           then r ←? object_reference object_key value; Done (Ok (Some r))
           else Done (Ok None)
       | None => Done (Ok None)
       end.
Definition store_object_exists_by_key (object_id : ObjectID) (version : SequenceNumber) : bool :=
  bool_decide (is_Some (tb_objects tables !! (object_id, version))).

Definition store_get_marker_value (object_id : ObjectID) (version : SequenceNumber) (epoch_id : Z)
    : option MarkerValue :=
  tb_markers tables !! (epoch_id, object_id, version).
Definition store_get_latest_marker (object_id : ObjectID) (epoch_id : Z)
    : option (SequenceNumber * MarkerValue) :=
  (λ kv : (Z * Z * Z) * MarkerValue, (kv.1.2, kv.2)) <$>
  last (btree_range oref_le
    (λ k, bool_decide (oref_le (epoch_id, object_id, 0) k) &&
          bool_decide (oref_le k (epoch_id, object_id, SEQUENCE_NUMBER_MAX))) (tb_markers tables)).

Definition get_executed_effects (tx_digest : TransactionDigest) : option TransactionEffects :=
  match tb_executed_effects tables !! tx_digest with
  | Some digest => tb_effects tables !! digest
  | None => None
  end.
Definition is_tx_already_executed (digest : TransactionDigest) : bool :=
  bool_decide (is_Some (tb_executed_effects tables !! digest)).
End reads.
