(* ===== verification/TransactionOutputs.v ===== *)
(** What a transaction writes to the database: [TransactionOutputs]
    (mgo-core/src/transaction_outputs.rs), the keys it announces to the
    transaction manager ([get_output_keys] of
    mgo-types/src/inner_temporary_store.rs), and the writes of
    mgo-core/src/authority/authority_store.rs: committing the outputs and
    reverting them at the end of an epoch.

    A batch is applied as a whole, its operations in order, and what is checked
    before it is written is checked on the tables as they are.  The hash of the
    effects is a parameter. *)
From S2P Require Import Prelude Objects Errors TransactionData.
From S2P Require Import TemporaryStore Effects TransactionManager ObjectReads.
From S2P Require Import ObjectLocks StoreObjects AuthorityTables.

Class EffectsHash := effects_hash : TransactionEffects → Z.

Definition object_is_shared (o : Object) : bool :=
  match owner o with Shared _ => true | _ => false end.
Definition ref_key (r : ObjectRef) : ObjectKey := r.1.

(** * Outputs *)

Record TransactionOutputs := {
  out_transaction : TransactionDigest * TransactionData;
  out_effects : TransactionEffects;
  out_events : list Z;
  out_markers : list (ObjectKey * MarkerValue);
  out_wrapped : list ObjectKey;
  out_deleted : list ObjectKey;
  out_locks_to_delete : list ObjectRef;
  out_new_locks_to_init : list ObjectRef;
  out_written : gmap ObjectID Object;
}.

Definition output_is_shared (inner : InnerTemporaryStore) (id : ObjectID) : bool :=
  match inner_input_objects inner !! id with Some object => object_is_shared object | None => false end.

(** The order of the entries of a [HashMap] does not matter: their keys differ. *)
Definition build_transaction_outputs {Hhash : ObjectHash} (transaction : TransactionDigest * TransactionData)
    (effects : TransactionEffects) (inner : InnerTemporaryStore) : exec TransactionOutputs :=
  let tx_digest := transaction.1 in
  let deleted := btree_collect (all_tombstones effects) in
  let modified_at := eff_modified_at_versions effects in
  let received_objects :=
    filter (λ r : ObjectRef, r.1 ∈ modified_at) (tx_receiving_objects transaction.2) in
  let markers :=
    map (λ r : ObjectRef, (ref_key r, Received)) received_objects ++
    map (λ k : ObjectKey, (k, if output_is_shared inner k.1 then SharedDeleted tx_digest else OwnedDeleted))
      (btree_iter Z.le deleted) ++
    map (λ id, ((id, inner_lamport_version inner), SharedDeleted tx_digest))
      (deleted_mutably_accessed_shared_objects effects) in
  let locks_to_delete :=
    omap (λ e : ObjectID * ((SequenceNumber * ObjectDigest) * Owner),
      match e.2.2 with AddressOwner _ => Some (e.1, e.2.1.1, e.2.1.2) | _ => None end)
      (btree_iter Z.le (inner_mutable_inputs inner)) ++ received_objects in
  new_locks_to_init ← mapM compute_object_reference
    (filter (λ o, is_address_owned o = true) (btree_iter Z.le (inner_written inner)).*2);
  Done {|
    out_transaction := transaction; out_effects := effects; out_events := inner_events inner;
    out_markers := markers;
    out_wrapped := map ref_key (eff_wrapped effects);
    out_deleted := map ref_key (eff_deleted effects ++ eff_unwrapped_then_deleted effects);
    out_locks_to_delete := locks_to_delete; out_new_locks_to_init := new_locks_to_init;
    out_written := inner_written inner |}.

(** The keys that become available. *)
Definition get_output_keys (inner : InnerTemporaryStore) (effects : TransactionEffects) : list InputKey :=
  let deleted := btree_collect (map fst (eff_deleted effects)) in
  map (λ kv : ObjectID * Object,
    if is_package kv.2 then PackageKey kv.1 else VersionedObject kv.1 (object_version kv.2))
    (btree_iter Z.le (inner_written inner)) ++
  map (λ k : ObjectKey, VersionedObject k.1 k.2)
    (filter (λ k : ObjectKey, output_is_shared inner k.1 = true) (btree_iter Z.le deleted)) ++
  map (λ id, VersionedObject id (inner_lamport_version inner))
    (deleted_mutably_accessed_shared_objects effects).

(** * Writing them *)

Definition insert_all `{Countable K} {V} (entries : list (K * V)) (m : gmap K V) : gmap K V :=
  foldl (λ m kv, <[kv.1 := kv.2]> m) m entries.
Definition delete_all_keys `{Countable K} {V} (keys : list K) (m : gmap K V) : gmap K V :=
  foldl (λ m k, delete k m) m keys.
(** [merge_batch] and [partial_merge_batch]. *)
Definition merge_all (entries : list (ObjectDigest * list Z)) (m : gmap ObjectDigest (list Z))
    : exec (gmap ObjectDigest (list Z)) :=
  foldM (λ m kv, v ← reference_count_merge_operator (m !! kv.1) [kv.2]; Done (<[kv.1 := v]> m)) m entries.

Section writes.
Context {Hbcs : Bcs} {Hhash : ObjectHash} {Hcontent : ContentHash} {Heff : EventsHash} {Heh : EffectsHash}.
Context (indirect_objects_threshold : Z).

Definition stored_pair (kv : ObjectID * Object)
    : exec ((ObjectKey * StoreObject) * option (ObjectDigest * StoreMoveObject)) :=
  '(store_object, indirect_object) ← get_store_object_pair kv.2 indirect_objects_threshold;
  indirect ← match indirect_object with
             | Some obj => d ← store_move_digest obj; Done (Some (d, obj))
             | None => Done None
             end;
  Done (((kv.1, object_version kv.2), store_object), indirect).

Definition write_transaction_outputs (tables : AuthorityPerpetualTables) (epoch_id : Z)
    (outputs : TransactionOutputs) : exec (result AuthorityPerpetualTables MgoError) :=
  pairs ← mapM stored_pair (btree_iter Z.le (out_written outputs));
  let indirect_objects := omap snd pairs in
  let is_existing (dm : ObjectDigest * StoreMoveObject) :=
    match tb_indirect tables !! dm.1 with Some value => negb (is_ref_count_value value) | None => false end in
  let existing_indirect_objects := filter (λ dm, is_existing dm = true) indirect_objects in
  let new_indirect_objects := filter (λ dm, is_existing dm = false) indirect_objects in
  indirect ← merge_all
    (map (λ dm, (dm.1, bcs_content dm.2 ++ count_bytes (smo_ref_count dm.2))) new_indirect_objects ++
     map (λ dm, (dm.1, count_bytes 1)) existing_indirect_objects) (tb_indirect tables);
  let transaction_digest := (out_transaction outputs).1 in
  let effects_digest := effects_hash (out_effects outputs) in
  let event_digest := events_hash (out_events outputs) in
  locks ←? Done (commit_locks (tb_locks tables) (out_locks_to_delete outputs) (out_new_locks_to_init outputs));
  Done (Ok {|
    tb_objects :=
      insert_all (map fst pairs)
        (insert_all (map (λ key, (key, StoreDeleted)) (out_deleted outputs) ++
                     map (λ key, (key, StoreWrapped)) (out_wrapped outputs)) (tb_objects tables));
    tb_indirect := indirect;
    tb_locks := locks;
    tb_transactions := <[transaction_digest := (out_transaction outputs).2]> (tb_transactions tables);
    tb_effects := <[effects_digest := out_effects outputs]> (tb_effects tables);
    tb_executed_effects := <[transaction_digest := effects_digest]> (tb_executed_effects tables);
    tb_events := insert_all (imap (λ i e, ((event_digest, Z.of_nat i), e)) (out_events outputs)) (tb_events tables);
    tb_markers :=
      insert_all (map (λ km : ObjectKey * MarkerValue, ((epoch_id, km.1.1, km.1.2), km.2)) (out_markers outputs))
        (tb_markers tables) |}).

(** * Reverting them *)

(** The macro [get_objects_and_locks]: the locks of the objects under the given
    keys, [None] for those that are not locked; immutable objects and tombstones
    are skipped. *)
Definition object_and_lock (tables : AuthorityPerpetualTables) (key : ObjectKey)
    : exec (option (option ObjectRef)) :=
  store_object ← unwrap (tb_objects tables !! key);
  match table_object tables key store_object with
  | Err _ => Panic
  | Ok None => Done None
  | Ok (Some obj) =>
      if is_immutable obj then Done None
      else r ← compute_object_reference obj;
           Done (Some (if is_address_owned obj then Some r else None))
  end.
Definition get_objects_and_locks (tables : AuthorityPerpetualTables) (keys : list ObjectKey)
    : exec (list ObjectRef) :=
  l ← mapM (object_and_lock tables) keys;
  Done (omap id (omap id l)).

Definition revert_state_update (tables : AuthorityPerpetualTables) (tx_digest : TransactionDigest)
    : exec (result AuthorityPerpetualTables MgoError) :=
  match get_executed_effects tables tx_digest with
  | None => Done (Ok tables)
  | Some effects =>
      _ ← assert (match eff_input_shared_objects effects with [] => true | _ => false end);
      let tombstones := all_tombstones effects in
      let all_new_object_keys := map (λ o : ObjectRef * Owner * WriteKind, ref_key o.1.1) (all_changed_objects effects) in
      let modified_object_keys := eff_modified_at_versions effects in
      old_locks ← get_objects_and_locks tables modified_object_keys;
      new_locks ← get_objects_and_locks tables all_new_object_keys;
      locks ←? Done (initialize_locks (tb_locks tables) old_locks true);
      Done (Ok {|
        tb_objects := delete_all_keys all_new_object_keys (delete_all_keys tombstones (tb_objects tables));
        tb_indirect := tb_indirect tables;
        tb_locks := delete_locks locks new_locks;
        tb_transactions := tb_transactions tables;
        tb_effects := tb_effects tables;
        tb_executed_effects := delete tx_digest (tb_executed_effects tables);
        tb_events :=
          match eff_events_digest effects with
          | Some d => filter (λ kv : (Z * Z) * Z, ¬ (kv.1.1 = d ∧ kv.1.2 < u64_max)) (tb_events tables)
          | None => tb_events tables
          end;
        tb_markers := tb_markers tables |})
  end.
End writes.

(** * The reads of the execution cache *)

(** [PassthroughCache]: what the transaction manager asks, answered from the
    tables.  A read that fails ends the process at its caller. *)
Definition store_reads {Hbcs : Bcs} {Hhash : ObjectHash} (tables : AuthorityPerpetualTables)
    : ExecutionCacheRead := {|
  object_exists_by_key := store_object_exists_by_key tables;
  get_object_version := λ id,
    match store_get_object tables id with Ok (Some o) => Some (object_version o) | _ => None end;
  get_latest_object_ref_or_tombstone := λ id,
    match latest_object_ref_or_tombstone tables id with Done (Ok r) => r | _ => None end;
  get_marker_value := store_get_marker_value tables;
  get_latest_marker := store_get_latest_marker tables |}.
