(* ===== verification/StoreCommit.v ===== *)
(** Committing the outputs of a transaction to the database and reading them
    back: what [write_transaction_outputs] leaves in the tables.  [committable]
    collects what execution and the locks guarantee. *)
From S2P Require Import Prelude MapSums Objects Errors.
From S2P Require Import TransactionData MgoGas TemporaryStore GasConservation.
From S2P Require Import Effects EffectsTheorems TransactionManager ObjectReads.
From S2P Require Import ObjectLocks StoreObjects AuthorityTables TransactionOutputs.

(** * Reference counts *)

(** Contents with [n] references. *)
Definition counted (c : list Z) (n : Z) (bytes : list Z) : Prop := 0 < n < 2 ^ 63 ∧ bytes = c ++ count_bytes n.

Lemma count_bytes_length n : length (count_bytes n) = 8%nat.
Proof. apply to_le_bytes_length. Qed.
Lemma count_bytes_value n : 0 ≤ n < 2 ^ 63 → to_i64 (from_le_bytes (count_bytes n)) = n.
Proof.
  intros Hn. unfold count_bytes. rewrite wrap64_small by width. rewrite from_to_le_bytes.
  - unfold to_i64. rewrite wrap64_small by width. by rewrite (proj2 (Z.ltb_lt _ _)) by lia.
  - change (256 ^ Z.of_nat 8) with (2 ^ 64). lia.
Qed.
Lemma deserialize_counted c n bytes :
  counted c n bytes → deserialize_ref_count_value bytes = Done (match c with [] => None | _ => Some c end, n).
Proof.
  intros [Hn ->]. unfold deserialize_ref_count_value.
  pose proof (count_bytes_length n) as Hl.
  assert (length (c ++ count_bytes n) = (length c + 8)%nat) as Hlen by (rewrite length_app; lia).
  destruct (c ++ count_bytes n) as [|b l] eqn:Hb; [simpl in Hlen; lia|]. rewrite <-Hb in *. clear Hb b l.
  rewrite Hlen, (proj2 (Nat.leb_le _ _)) by lia. simpl assert. rewrite bind_ret_l.
  replace (length c + 8 - 8)%nat with (length c) by lia.
  rewrite take_app_length, drop_app_length. by rewrite count_bytes_value by lia.
Qed.

Definition uncounted (stored : option (list Z)) : Prop := stored = None ∨ stored = Some [].
Lemma merge_first c stored :
  c ≠ [] → uncounted stored →
  ∃ bytes, reference_count_merge_operator stored [c ++ count_bytes 1] = Done bytes ∧ counted c 1 bytes.
Proof.
  intros Hc Hst. exists (c ++ count_bytes 1). split; [|by split; [lia|]].
  assert (match stored with None => Done (None, 0) | Some v => deserialize_ref_count_value v end = Done (None, 0)) as Hs
    by by destruct Hst as [->| ->].
  unfold reference_count_merge_operator. rewrite Hs, bind_ret_l. cbn [foldM].
  rewrite (deserialize_counted c 1) by (split; [lia|done]). rewrite bind_ret_l. destruct c as [|b c]; [done|].
  simpl assert. rewrite !bind_ret_l. reflexivity.
Qed.
Lemma merge_next c n bytes operand :
  c ≠ [] → counted c n bytes → n + 1 < 2 ^ 63 → operand = c ++ count_bytes 1 ∨ operand = count_bytes 1 →
  ∃ bytes', reference_count_merge_operator (Some bytes) [operand] = Done bytes' ∧ counted c (n + 1) bytes'.
Proof.
  intros Hc Hcn Hn Hop. exists (c ++ count_bytes (n + 1)). destruct Hcn as [Hn0 Hb].
  split; [|split; [lia|done]].
  unfold reference_count_merge_operator. rewrite (deserialize_counted c n) by by split. rewrite bind_ret_l. cbn [foldM].
  assert (∃ v, deserialize_ref_count_value operand = Done (v, 1) ∧ (v = None ∨ v = Some c)) as (v & -> & Hv).
  { destruct Hop as [->| ->]; eexists.
    - split; [apply (deserialize_counted c 1); split; [lia|done]|]. right. by destruct c.
    - split; [apply (deserialize_counted [] 1); split; [lia|done]|]. by left. }
  rewrite bind_ret_l. destruct c as [|b c]; [done|]. cbn [fst snd].
  assert (assert (match v with Some w => bool_decide (b :: c = w) | None => true end) = Done ()) as ->.
  { destruct Hv as [->| ->]; [done|]. by rewrite bool_decide_eq_true_2. }
  rewrite !bind_ret_l. cbn [default]. unfold to_i64. rewrite wrap64_small by width.
  rewrite (proj2 (Z.ltb_lt _ _)) by lia. by rewrite (proj2 (Z.compare_gt_iff _ _)) by lia.
Qed.

(** Merging a batch: [content] is what is stored under each hash. *)
Lemma merge_all_ok (content : ObjectDigest → list Z) entries : ∀ m,
  (∀ d, content d ≠ []) →
  (∀ d v, (d, v) ∈ entries →
     (uncounted (m !! d) ∧ v = content d ++ count_bytes 1) ∨
     (∃ n bytes, m !! d = Some bytes ∧ counted (content d) n bytes ∧ n + Z.of_nat (length entries) < 2 ^ 63 ∧
        (v = content d ++ count_bytes 1 ∨ v = count_bytes 1))) →
  Z.of_nat (length entries) < 2 ^ 63 →
  ∃ m', merge_all entries m = Done m' ∧
    (∀ d, d ∈ entries.*1 → ∃ n bytes, m' !! d = Some bytes ∧ counted (content d) n bytes) ∧
    (∀ d, d ∉ entries.*1 → m' !! d = m !! d).
Proof.
  induction entries as [|[k v] entries IH]; intros m Hc Hin Hlen.
  { exists m. split; [done|]. split; [by intros ? ?%elem_of_nil|done]. }
  assert (∃ n bytes, reference_count_merge_operator (m !! k) [v] = Done bytes ∧ counted (content k) n bytes ∧
    n + Z.of_nat (length entries) < 2 ^ 63) as (n & bytes & Hm & Hn & Hb).
  { cbn [length] in Hin, Hlen. destruct (Hin k v ltac:(left)) as [[Hu ->]|(n & bytes & Hk & Hn & Hb & Hv)].
    - destruct (merge_first (content k) (m !! k) (Hc k) Hu) as (bytes & ? & ?). exists 1, bytes.
      split_and!; [done..|lia].
    - rewrite Hk. destruct (merge_next (content k) n bytes v (Hc k) Hn) as (bytes' & ? & ?); [lia|done|].
      exists (n + 1), bytes'. split_and!; [done..|lia]. }
  destruct (IH (<[k := bytes]> m)) as (m' & Hm' & Hall & Hrest); [done| |cbn [length] in Hlen; lia|].
  - intros d w Hdw. destruct (decide (d = k)) as [->|Hne].
    + right. exists n, bytes. rewrite lookup_insert_eq. split_and!; [done..|].
      destruct (Hin k w ltac:(by right)) as [[_ ->]|(? & ? & _ & _ & _ & ?)]; [by left|done].
    + rewrite lookup_insert_ne by done. destruct (Hin d w ltac:(by right)) as [?|(n' & b' & ? & ? & ? & ?)]; [by left|].
      right. exists n', b'. split_and!; [done..| |done]. cbn [length] in *. lia.
  - exists m'. unfold merge_all. cbn [foldM fst snd]. rewrite Hm, !bind_ret_l. split; [exact Hm'|]. split.
    + intros d [->|Hd]%elem_of_cons; [|by apply Hall].
      destruct (decide (k ∈ entries.*1)) as [?|Hk]; [by apply Hall|]. exists n, bytes.
      rewrite Hrest by done. by rewrite lookup_insert_eq.
    + intros d [Hne Hd]%not_elem_of_cons. rewrite Hrest by done. by rewrite lookup_insert_ne.
Qed.

(** * Tables *)

Lemma insert_all_union `{Countable K} {V} (entries : list (K * V)) (m : gmap K V) :
  insert_all entries m = btree_collect entries ∪ m.
Proof.
  unfold insert_all. induction entries as [|[k v] l IH] using rev_ind.
  { unfold btree_collect. simpl. by rewrite (left_id_L ∅ (∪)). }
  rewrite foldl_app, btree_collect_snoc. simpl. by rewrite IH, insert_union_l.
Qed.
Lemma delete_all_lookup `{Countable K} {V} (keys : list K) (m : gmap K V) k :
  delete_all_keys keys m !! k = if decide (k ∈ keys) then None else m !! k.
Proof.
  unfold delete_all_keys. revert m. induction keys as [|x keys IH]; intros m; [done|]. cbn. rewrite IH.
  destruct (decide (k ∈ keys)) as [Hin|Hin]; [by rewrite decide_True by by right|].
  destruct (decide (k = x)) as [->|Hne]; [rewrite decide_True by left; by rewrite lookup_delete_eq|].
  rewrite decide_False by (by intros [?|?]%elem_of_cons). by rewrite lookup_delete_ne.
Qed.

Section commit.
Context {Hbcs : Bcs} {Hlaws : BcsLaws} {Hhash : ObjectHash} {Hcontent : ContentHash}.
Context {Hback : BackingStore} {Heff : EventsHash} {Heh : EffectsHash} (threshold : Z).

(** The part of an object that is stored separately. *)
Definition indirect_of (o : Object) : option StoreMoveObject :=
  match data o with
  | Move m =>
      if (0 <? threshold) && (threshold <=? Z.of_nat (length (contents m))) then
        Some {| smo_type := type_ m; smo_has_public_transfer := has_public_transfer m;
                smo_contents := contents m; smo_ref_count := 1 |}
      else None
  | Package _ => None
  end.
Lemma pair_indirect o so ind : get_store_object_pair o threshold = Done (so, ind) → ind = indirect_of o.
Proof.
  unfold get_store_object_pair, indirect_of. destruct (data o) as [m|p]; [|by intros [= _ <-]].
  destruct (_ && _); [by intros [= _ <-]|]. destruct (is_gas_coin_type (type_ m)); [|by intros [= _ <-]].
  destruct (coin_from_bcs_bytes (contents m)); [|done]. by intros [= _ <-].
Qed.

Definition content_readable (tables : AuthorityPerpetualTables) (o : Object) : Prop :=
  ∀ m, indirect_of o = Some m →
    ∃ n bytes, tb_indirect tables !! content_hash m = Some bytes ∧ counted (bcs_content m) n bytes.

Lemma get_indirect_ok tables m n bytes :
  tb_indirect tables !! content_hash m = Some bytes → counted (bcs_content m) n bytes →
  ∃ m', get_indirect tables (content_hash m) = Ok (Some m') ∧ smo_type m' = smo_type m ∧
    smo_has_public_transfer m' = smo_has_public_transfer m ∧ smo_contents m' = smo_contents m.
Proof.
  intros Hb [Hn ->]. unfold get_indirect. rewrite Hb, length_app, count_bytes_length.
  replace (length (bcs_content m) + 8 - 8)%nat with (length (bcs_content m)) by lia.
  rewrite take_app_length, bcs_parse_content. rewrite (proj2 (Nat.ltb_ge _ _)) by lia. by eexists.
Qed.

(** What is stored for a written object, and what is read back from it. *)
Definition stored_value (o : Object) : StoreObject :=
  match get_store_object_pair o threshold with Done (so, _) => so | _ => StoreDeleted end.
Definition stored_entry (kv : ObjectID * Object) : (ObjectKey * StoreObject) * option (ObjectDigest * StoreMoveObject) :=
  (((kv.1, object_version kv.2), stored_value kv.2), (λ m, (content_hash m, m)) <$> indirect_of kv.2).
Lemma stored_pair_ok id o :
  storable (id, object_version o) o →
  stored_pair threshold (id, o) = Done (stored_entry (id, o)) ∧
  ∀ tables, content_readable tables o → table_object tables (id, object_version o) (stored_value o) = Ok (Some o).
Proof.
  intros Hst. destruct (store_pair_roundtrip _ o threshold Hst) as (v & ind & Hp & Hr & Hi).
  pose proof (pair_indirect o _ _ Hp) as ->.
  unfold stored_pair, stored_entry, stored_value. cbn [fst snd]. rewrite Hp, bind_ret_l.
  split.
  - destruct (indirect_of o) as [m|]; [|done]. unfold store_move_digest. destruct (sov_data v); try done.
    destruct Hi as [_ ->]. done.
  - intros tables Hread. unfold table_object, construct_object. destruct (indirect_of o) as [m|] eqn:Ho.
    + destruct (sov_data v) as [| |w dg|] eqn:Hd; try done. destruct Hi as [-> _].
      destruct (Hread m Ho) as (n & bytes & Hb & Hn).
      destruct (get_indirect_ok tables m n bytes Hb Hn) as (m' & -> & Ht & Hpt & Hc). simpl.
      unfold try_construct_object in *. rewrite Hd in *. rewrite Ht, Hpt, Hc. by rewrite Hr.
    + destruct (sov_data v) as [| |w dg|] eqn:Hd; simpl; by rewrite ?Hr.
Qed.

(** ** What execution and the locks guarantee *)

Section outputs.
Context (tables : AuthorityPerpetualTables) (t : TemporaryStore) (g : GasCharger) (e : TransactionEffects).
Context (tx : TransactionDigest * TransactionData).

Definition received : list ObjectRef :=
  filter (λ r : ObjectRef, r.1 ∈ eff_modified_at_versions e) (tx_receiving_objects tx.2).
Definition consumed_locks : list ObjectRef :=
  omap (λ e : ObjectID * ((SequenceNumber * ObjectDigest) * Owner),
    match e.2.2 with AddressOwner _ => Some (e.1, e.2.1.1, e.2.1.2) | _ => None end)
    (btree_iter Z.le (mutable_input_refs t)) ++ received.
Definition created_locks : list ObjectRef :=
  map (λ kv : ObjectID * Object, (kv.1, object_version kv.2, object_digest kv.2))
    (filter (λ kv, is_address_owned kv.2 = true) (btree_iter Z.le (written t))).

Record committable : Prop := {
  cm_stamped : stamped t;
  cm_describes : describes t g e;
  cm_storable : ∀ id o, written t !! id = Some o → storable (id, object_version o) o;
  cm_contents : ∀ id o m, written t !! id = Some o → indirect_of o = Some m →
    uncounted (tb_indirect tables !! content_hash m) ∨
    ∃ n bytes, tb_indirect tables !! content_hash m = Some bytes ∧ counted (bcs_content m) n bytes ∧
      n + Z.of_nat (size (written t)) < 2 ^ 63;
  cm_hashes : ∀ id id' o o' m m', written t !! id = Some o → written t !! id' = Some o' →
    indirect_of o = Some m → indirect_of o' = Some m' → content_hash m = content_hash m' →
    bcs_content m = bcs_content m';
  cm_size : Z.of_nat (size (written t)) < 2 ^ 63;
  cm_held : ∀ r, r ∈ consumed_locks → is_Some (tb_locks tables !! r);
  cm_free : ∀ r, r ∈ created_locks → mjoin (tb_locks tables !! r) = None;
}.

Definition expected_outputs : TransactionOutputs := {|
  out_transaction := tx; out_effects := e; out_events := user_events (execution_results t);
  out_markers :=
    map (λ r : ObjectRef, (ref_key r, Received)) received ++
    map (λ k : ObjectKey, (k, if output_is_shared (into_inner t) k.1 then SharedDeleted tx.1 else OwnedDeleted))
      (btree_iter Z.le (btree_collect (all_tombstones e))) ++
    map (λ id, ((id, store_lamport t), SharedDeleted tx.1)) (deleted_mutably_accessed_shared_objects e);
  out_wrapped := map ref_key (eff_wrapped e);
  out_deleted := map ref_key (eff_deleted e ++ eff_unwrapped_then_deleted e);
  out_locks_to_delete := consumed_locks; out_new_locks_to_init := created_locks;
  out_written := written t |}.
Lemma build_outputs_ok : stamped t → build_transaction_outputs tx e (into_inner t) = Done expected_outputs.
Proof.
  intros Hst. unfold build_transaction_outputs, expected_outputs, created_locks.
  cbn [inner_written into_inner].
  assert (mapM compute_object_reference
      (filter (λ o, is_address_owned o = true) (btree_iter Z.le (written t)).*2) =
    Done (map (λ kv : ObjectID * Object, (kv.1, object_version kv.2, object_digest kv.2))
      (filter (λ kv, is_address_owned kv.2 = true) (btree_iter Z.le (written t))))) as Hl; [|by rewrite Hl].
  assert (∀ kv, kv ∈ btree_iter Z.le (written t) → written t !! kv.1 = Some kv.2) as Hin
    by (intros [k v]; by rewrite elem_of_btree_iter).
  induction (btree_iter Z.le (written t)) as [|[k o] l IH]; [done|].
  specialize (IH ltac:(intros; apply Hin; by right)). rewrite fmap_cons, !filter_cons. cbn [fst snd].
  destruct (decide (is_address_owned o = true)); [|done]. cbn [mapM map fst snd]. rewrite IH.
  unfold compute_object_reference. pose proof (st_written t (sp_store t Hst) k o (Hin (k, o) ltac:(left))) as ->.
  done.
Qed.

(** ** The writes *)

Definition written_indirect : list (ObjectDigest * StoreMoveObject) :=
  omap (λ kv, (λ m, (content_hash m, m)) <$> indirect_of kv.2) (btree_iter Z.le (written t)).
Definition content_at (d : ObjectDigest) : list Z :=
  match list_find (λ dm : ObjectDigest * StoreMoveObject, dm.1 = d) written_indirect with
  | Some (_, dm) => bcs_content dm.2
  | None => [0]
  end.
Lemma elem_of_written_indirect dm :
  dm ∈ written_indirect ↔ ∃ id o, written t !! id = Some o ∧ indirect_of o = Some dm.2 ∧ dm.1 = content_hash dm.2.
Proof.
  unfold written_indirect. rewrite list_elem_of_omap. split.
  - intros ([id o] & Hin%elem_of_btree_iter & (m & Hm & ->)%fmap_Some). by exists id, o.
  - intros (id & o & Ho & Hi & Hd). exists (id, o). rewrite elem_of_btree_iter. split; [done|]. simpl.
    rewrite Hi. simpl. rewrite <-Hd. by destruct dm.
Qed.
Lemma content_at_nonempty d : content_at d ≠ [].
Proof. unfold content_at. destruct (list_find _ _) as [[? [? m]]|]; [apply bcs_content_nonempty|done]. Qed.
Lemma content_at_ok dm : committable → dm ∈ written_indirect → content_at dm.1 = bcs_content dm.2.
Proof.
  intros Hcm Hin. unfold content_at.
  destruct (list_find_elem_of (λ x : ObjectDigest * StoreMoveObject, x.1 = dm.1) written_indirect dm Hin eq_refl)
    as [[i dm'] Hf].
  rewrite Hf. apply list_find_Some in Hf as (Hl & Hd & _). apply list_elem_of_lookup_2 in Hl.
  apply elem_of_written_indirect in Hin as (id & o & Ho & Hi & Hh).
  apply elem_of_written_indirect in Hl as (id' & o' & Ho' & Hi' & Hh').
  apply (cm_hashes Hcm id' id o' o dm'.2 dm.2); try done. congruence.
Qed.
Lemma written_indirect_length : (length written_indirect ≤ size (written t))%nat.
Proof.
  assert (length (btree_iter Z.le (written t)) = size (written t)) as <-
    by (unfold btree_iter; rewrite merge_sort_Permutation; apply length_map_to_list).
  unfold written_indirect. induction (btree_iter Z.le (written t)) as [|x l IH]; [simpl; lia|].
  csimpl. destruct (indirect_of x.2); simpl; lia.
Qed.

(** The operands that are merged into the table of contents. *)
Definition is_existing (dm : ObjectDigest * StoreMoveObject) : bool :=
  match tb_indirect tables !! dm.1 with Some value => negb (is_ref_count_value value) | None => false end.
Definition merge_operands : list (ObjectDigest * list Z) :=
  map (λ dm, (dm.1, bcs_content dm.2 ++ count_bytes (smo_ref_count dm.2)))
    (filter (λ dm, is_existing dm = false) written_indirect) ++
  map (λ dm : ObjectDigest * StoreMoveObject, (dm.1, count_bytes 1))
    (filter (λ dm, is_existing dm = true) written_indirect).
Lemma merge_operands_keys d : d ∈ merge_operands.*1 ↔ d ∈ written_indirect.*1.
Proof.
  unfold merge_operands. rewrite fmap_app, elem_of_app. rewrite !list_elem_of_fmap. split.
  - intros [(x & -> & (dm & -> & [_ ?]%list_elem_of_filter)%list_elem_of_fmap)|
            (x & -> & (dm & -> & [_ ?]%list_elem_of_filter)%list_elem_of_fmap)]; by exists dm.
  - intros (dm & -> & Hin). destruct (is_existing dm) eqn:He; [right|left]; eexists (dm.1, _);
      (split; [done|]; apply list_elem_of_fmap; exists dm; split; [done|]; by apply list_elem_of_filter).
Qed.
Lemma merge_operands_length : length merge_operands = length written_indirect.
Proof.
  unfold merge_operands. rewrite length_app, !length_map.
  induction written_indirect as [|dm l IH]; [done|]. rewrite !filter_cons.
  destruct (is_existing dm); simpl; lia.
Qed.
Lemma counted_existing c n bytes : c ≠ [] → counted c n bytes → is_ref_count_value bytes = false.
Proof.
  intros Hc [_ ->]. unfold is_ref_count_value. rewrite length_app, count_bytes_length. destruct c; [done|].
  simpl. apply Nat.eqb_neq. lia.
Qed.
Lemma merge_ok :
  committable → ∃ m', merge_all merge_operands (tb_indirect tables) = Done m' ∧
    (∀ d, d ∈ written_indirect.*1 → ∃ n bytes, m' !! d = Some bytes ∧ counted (content_at d) n bytes) ∧
    (∀ d, d ∉ written_indirect.*1 → m' !! d = tb_indirect tables !! d).
Proof.
  intros Hcm. pose proof written_indirect_length. pose proof (cm_size Hcm).
  destruct (merge_all_ok content_at merge_operands (tb_indirect tables)) as (m' & Hm & Hin & Hout);
    [apply content_at_nonempty| |rewrite merge_operands_length; lia|].
  - rewrite merge_operands_length. intros d v Hdv.
    assert (∃ dm, dm ∈ written_indirect ∧ d = dm.1 ∧
      (is_existing dm = false ∧ v = content_at d ++ count_bytes 1 ∨ is_existing dm = true ∧ v = count_bytes 1))
      as (dm & Hdm & -> & Hv).
    { unfold merge_operands in Hdv. apply elem_of_app in Hdv as [Hdv|Hdv];
        apply list_elem_of_fmap in Hdv as (dm & [= -> ->] & [He Hdm]%list_elem_of_filter); exists dm;
        (split_and!; [done..|]); [left|by right].
      rewrite (content_at_ok dm Hcm Hdm). split; [done|].
      apply elem_of_written_indirect in Hdm as (? & o & _ & Hi & _). unfold indirect_of in Hi.
      destruct (data o); [|done]. destruct (_ && _); [|done]. by injection Hi as <-. }
    pose proof Hdm as (id & o & Ho & Hi & Hd)%elem_of_written_indirect.
    pose proof (content_at_ok dm Hcm Hdm) as Hcd. unfold is_existing in Hv.
    destruct (cm_contents Hcm id o dm.2 Ho Hi) as [Hu|(n & bytes & Hb & Hn & Hlim)].
    + left. rewrite <-Hd in Hu. split; [done|].
      destruct Hv as [[_ ?]|[He _]]; [done|]. by destruct Hu as [Hu|Hu]; rewrite Hu in He.
    + right. exists n, bytes. rewrite <-Hd in Hb. rewrite Hcd. split_and!; [done..|lia|].
      rewrite Hb, (counted_existing _ _ _ (bcs_content_nonempty dm.2) Hn) in Hv. right. by destruct Hv as [[? _]|[_ ?]].
  - exists m'. split; [done|]. split; intros d Hd; [apply Hin|apply Hout]; by rewrite merge_operands_keys.
Qed.

(** What the tables hold after the commit. *)
Record committed (tables' : AuthorityPerpetualTables) (epoch : Z) : Prop := {
  ct_written : ∀ id o, written t !! id = Some o →
    tb_objects tables' !! (id, object_version o) = Some (stored_value o);
  ct_tombstones : ∀ key, key ∈ all_tombstones e →
    tb_objects tables' !! key = Some StoreDeleted ∨ tb_objects tables' !! key = Some StoreWrapped;
  ct_other : ∀ key, (∀ o, written t !! key.1 = Some o → key.2 ≠ object_version o) → key ∉ all_tombstones e →
    tb_objects tables' !! key = tb_objects tables !! key;
  ct_contents : ∀ d, d ∈ written_indirect.*1 →
    ∃ n bytes, tb_indirect tables' !! d = Some bytes ∧ counted (content_at d) n bytes;
  ct_other_contents : ∀ d, d ∉ written_indirect.*1 → tb_indirect tables' !! d = tb_indirect tables !! d;
  ct_locks : ∀ r, tb_locks tables' !! r =
    if decide (r ∈ consumed_locks) then None else if decide (r ∈ created_locks) then Some None
    else tb_locks tables !! r;
  ct_markers : tb_markers tables' =
    insert_all (map (λ km : ObjectKey * MarkerValue, ((epoch, km.1.1, km.1.2), km.2)) (out_markers expected_outputs))
      (tb_markers tables);
  ct_events : tb_events tables' =
    insert_all (imap (λ i ev, ((events_hash (user_events (execution_results t)), Z.of_nat i), ev))
      (user_events (execution_results t))) (tb_events tables);
  ct_executed : tb_executed_effects tables' = <[tx.1 := effects_hash e]> (tb_executed_effects tables);
  ct_effects : get_executed_effects tables' tx.1 = Some e;
}.

Lemma written_entries_lookup key :
  btree_collect (map (λ kv, (stored_entry kv).1) (btree_iter Z.le (written t))) !! key =
  o ← written t !! key.1; if decide (key.2 = object_version o) then Some (stored_value o) else None.
Proof.
  set (l := map _ _).
  assert (NoDup l.*1) as Hnd.
  { unfold l. change (map ?f ?k) with (f <$> k). rewrite <-list_fmap_compose.
    apply (NoDup_fmap_1 fst). rewrite <-list_fmap_compose. simpl. apply btree_iter_NoDup. }
  apply option_eq. intros so. rewrite btree_collect_nodup by done. unfold l.
  change (map ?f ?k) with (f <$> k). rewrite list_elem_of_fmap. split.
  - intros ([id o] & [= -> ->] & Hin%elem_of_btree_iter). simpl. rewrite Hin. simpl. by rewrite decide_True.
  - intros (o & Ho & Hk)%bind_Some. case_decide as Hv; [|done]. injection Hk as <-. exists (key.1, o).
    rewrite elem_of_btree_iter. split; [|done]. unfold stored_entry. simpl. rewrite <-Hv. by destruct key.
Qed.
Lemma tombstones_lookup key :
  let l := map (λ key, (key, StoreDeleted)) (out_deleted expected_outputs) ++
           map (λ key, (key, StoreWrapped)) (out_wrapped expected_outputs) in
  (key ∈ all_tombstones e → btree_collect l !! key = Some StoreDeleted ∨ btree_collect l !! key = Some StoreWrapped) ∧
  (key ∉ all_tombstones e → btree_collect l !! key = None).
Proof.
  intros l.
  assert (l.*1 = all_tombstones e) as Hl.
  { unfold l, all_tombstones. rewrite fmap_app. change (map ?f ?k) with (f <$> k).
    rewrite <-!list_fmap_compose, !list_fmap_id. cbn [out_deleted out_wrapped expected_outputs].
    unfold ref_key. rewrite !map_app. by rewrite app_assoc. }
  rewrite <-Hl. split.
  - intros Hk. apply btree_collect_dom in Hk as [so Hso]. rewrite Hso. apply btree_collect_in in Hso.
    unfold l in Hso. apply elem_of_app in Hso as [Hso|Hso];
      apply list_elem_of_fmap in Hso as (k & [= _ ->] & _); [by left|by right].
  - intros Hk. destruct (btree_collect l !! key) eqn:Hs; [|done]. destruct Hk. apply btree_collect_dom. by rewrite Hs.
Qed.

Lemma commit_writes epoch :
  committable → ∃ tables', write_transaction_outputs threshold tables epoch expected_outputs = Done (Ok tables') ∧
    committed tables' epoch.
Proof.
  intros Hcm. unfold write_transaction_outputs. cbn [out_written expected_outputs].
  rewrite (mapM_pure _ stored_entry), bind_ret_l.
  2: { intros [id o] Hin%elem_of_btree_iter. by apply stored_pair_ok, (cm_storable Hcm). }
  assert (omap snd (map stored_entry (btree_iter Z.le (written t))) = written_indirect) as ->.
  { unfold written_indirect. induction (btree_iter Z.le (written t)) as [|kv l IH]; [done|]. csimpl. by rewrite IH. }
  destruct (merge_ok Hcm) as (m' & Hm & Hin & Hout). unfold merge_operands, is_existing in Hm. rewrite Hm, !bind_ret_l.
  pose proof (commit_spec (tb_locks tables) consumed_locks created_locks) as Hlocks.
  cbn [out_locks_to_delete out_new_locks_to_init expected_outputs].
  destruct (commit_locks (tb_locks tables) consumed_locks created_locks) as [locks'|err].
  2: { exfalso. destruct Hlocks as [(r & Hr & Hn)|(r & Hr & Hs)].
       - destruct (cm_held Hcm r Hr). congruence.
       - rewrite (cm_free Hcm r Hr) in Hs. by destruct Hs. }
  destruct Hlocks as (_ & _ & Hlocks). rewrite (map_map stored_entry). eexists. split; [reflexivity|].
  split; cbn [tb_objects tb_indirect tb_locks tb_markers tb_events tb_executed_effects];
    try rewrite !insert_all_union; try done.
  - intros id o Ho. apply lookup_union_Some_l. rewrite written_entries_lookup. simpl. rewrite Ho. simpl.
    by rewrite decide_True.
  - intros key Hk. pose proof Hk as Hk'. destruct key as [id v].
    apply (tombstones_exact t g e id v (cm_stamped Hcm) (cm_describes Hcm)) in Hk' as [-> Hid].
    assert (written t !! id = None) as Hw.
    { destruct Hid as [Hid|[_ ?]]; [|done]. apply not_elem_of_dom. pose proof (sp_deleted t (cm_stamped Hcm)). set_solver. }
    rewrite lookup_union_r by (rewrite written_entries_lookup; simpl; by rewrite Hw).
    destruct (proj1 (tombstones_lookup (id, store_lamport t)) Hk) as [Hs|Hs];
      [left|right]; by apply lookup_union_Some_l.
  - intros key Hk Ht. rewrite lookup_union_r.
    + rewrite lookup_union_r; [done|]. by apply tombstones_lookup.
    + rewrite written_entries_lookup. destruct (written t !! key.1) as [o|] eqn:Ho; [|done]. simpl.
      by rewrite decide_False by by apply Hk.
  - unfold get_executed_effects. simpl. by rewrite !lookup_insert_eq.
Qed.

(** Written objects are read back, and what could be read before still can. *)
Lemma committed_readable tables' epoch id o :
  committable → committed tables' epoch → written t !! id = Some o →
  table_object tables' (id, object_version o) (stored_value o) = Ok (Some o).
Proof.
  intros Hcm Hct Ho. apply stored_pair_ok; [by apply (cm_storable Hcm)|]. intros m Hm.
  assert ((content_hash m, m) ∈ written_indirect) as Hin by (apply elem_of_written_indirect; by exists id, o).
  destruct (ct_contents _ _ Hct (content_hash m)) as (n & bytes & Hb & Hn); [apply list_elem_of_fmap; by exists (content_hash m, m)|].
  exists n, bytes. split; [done|]. pose proof (content_at_ok _ Hcm Hin) as Hat. simpl in Hat. by rewrite <-Hat.
Qed.
Lemma get_indirect_kept tables' epoch d m :
  committable → committed tables' epoch → get_indirect tables d = Ok (Some m) →
  ∃ m', get_indirect tables' d = Ok (Some m') ∧ smo_type m' = smo_type m ∧
    smo_has_public_transfer m' = smo_has_public_transfer m ∧ smo_contents m' = smo_contents m.
Proof.
  intros Hcm Hct Hg. destruct (decide (d ∈ written_indirect.*1)) as [Hd|Hd].
  - pose proof Hd as (dm & -> & Hdm)%list_elem_of_fmap.
    destruct (ct_contents _ _ Hct dm.1 Hd) as (n' & bytes' & Hb' & Hn'). rewrite (content_at_ok _ Hcm Hdm) in Hn'.
    apply elem_of_written_indirect in Hdm as (id & o & Ho & Hi & Hh). rewrite Hh in *.
    destruct (get_indirect_ok tables' dm.2 n' bytes' Hb' Hn') as (m' & Hm' & Ht' & Hp' & Hc').
    exists m'. split; [done|]. destruct (cm_contents Hcm id o dm.2 Ho Hi) as [[Hu|Hu]|(n & bytes & Hb & Hn & _)].
    + unfold get_indirect in Hg. by rewrite Hu in Hg.
    + unfold get_indirect in Hg. rewrite Hu in Hg. simpl in Hg. by destruct (bcs_parse []) as [[[??]?]|].
    + destruct (get_indirect_ok tables dm.2 n bytes Hb Hn) as (m0 & Hm0 & Ht0 & Hp0 & Hc0).
      rewrite Hm0 in Hg. injection Hg as <-. by rewrite Ht0, Hp0, Hc0.
  - exists m. unfold get_indirect in *. by rewrite (ct_other_contents _ _ Hct d Hd).
Qed.
Lemma table_object_kept tables' epoch key so o :
  committable → committed tables' epoch → table_object tables key so = Ok (Some o) →
  table_object tables' key so = Ok (Some o).
Proof.
  intros Hcm Hct. destruct so as [v| |]; try done. unfold table_object, construct_object.
  destruct (sov_data v) as [| |w d|] eqn:Hv; try done.
  destruct (get_indirect tables d) as [[m|]|] eqn:Hg; simpl; try done.
  - destruct (get_indirect_kept tables' epoch d m Hcm Hct Hg) as (m' & -> & Ht & Hp & Hc). simpl.
    unfold try_construct_object. by rewrite Hv, Ht, Hp, Hc.
  - unfold try_construct_object. rewrite Hv. discriminate.
Qed.
End outputs.
End commit.
