(* ===== verification/StoreTheorems.v ===== *)
(** What a validator's database guarantees around a commit: committed outputs
    can be read and are available to the transactions that wait for them, and
    reverting a committed transaction restores the objects and the locks. *)
From S2P Require Import Prelude MapSums Objects Errors.
From S2P Require Import TransactionData TemporaryStore GasConservation MgoGas.
From S2P Require Import Effects EffectsTheorems TransactionManager ObjectReads.
From S2P Require Import ObjectLocks StoreObjects AuthorityTables TransactionOutputs.
From S2P Require Import StoreCommit.

(** * The latest version of an object *)

Lemma entry_prior_to_spec tables (id : ObjectID) v key so :
  entry_prior_to tables (id, v) = Some (key, so) →
  okey_le key (id, v) ∧ tb_objects tables !! key = Some so ∧
  ∀ k, is_Some (tb_objects tables !! k) → okey_le k (id, v) → okey_le k key.
Proof.
  unfold entry_prior_to. intros (Hk & Hs & Hmax)%btree_range_last_Some; [|apply _..].
  apply bool_decide_eq_true_1 in Hk. split_and!; [done..|]. intros k Hin Hle. apply Hmax; [done|].
  by apply bool_decide_eq_true_2.
Qed.
Lemma entry_prior_to_None tables key :
  entry_prior_to tables key = None → ∀ k, is_Some (tb_objects tables !! k) → ¬ okey_le k key.
Proof.
  unfold entry_prior_to. rewrite last_None. intros Hnil k [so Hso] Hle.
  assert ((k, so) ∈ btree_range okey_le (λ k, bool_decide (okey_le k key)) (tb_objects tables)) as Hin
    by (apply elem_of_btree_range; split; [by apply bool_decide_eq_true_2|done]).
  rewrite Hnil in Hin. by apply elem_of_nil in Hin.
Qed.

(** The latest entry of an object is the one with the greatest version. *)
Lemma latest_entry tables id v so :
  v ≤ SEQUENCE_NUMBER_MAX → tb_objects tables !! (id, v) = Some so →
  (∀ w, is_Some (tb_objects tables !! (id, w)) → w ≤ v) →
  get_latest_object_or_tombstone tables id = Some ((id, v), so).
Proof.
  intros Hv Hso Hmax. unfold get_latest_object_or_tombstone, max_for_id.
  destruct (entry_prior_to tables (id, SEQUENCE_NUMBER_MAX)) as [[[id' w] so']|] eqn:He.
  - apply entry_prior_to_spec in He as (Hle & Hso' & Hlast).
    specialize (Hlast (id, v) ltac:(by rewrite Hso)). unfold okey_le in *. simpl in *.
    assert (id' = id) as -> by lia. assert (w = v) as ->.
    { pose proof (Hmax w ltac:(by rewrite Hso')). lia. }
    rewrite Z.eqb_refl. congruence.
  - exfalso. apply (entry_prior_to_None _ _ He (id, v)); [by rewrite Hso|]. unfold okey_le. simpl. lia.
Qed.

Section store.
Context {Hbcs : Bcs} {Hlaws : BcsLaws} {Hhash : ObjectHash} {Hcontent : ContentHash}.
Context {Hback : BackingStore} {Heff : EventsHash} {Heh : EffectsHash}.

(** * Reading what was committed *)

(** C14: Committed outputs are what is read.  The outputs of a transaction are
    built and written without a panic or an error, and afterwards the database
    returns every written object under its key, has no object under the keys of
    those that were removed, still returns every object it returned under a key
    that is not one of the outputs, and knows the transaction as executed with
    its effects. *)
Theorem commit_reads_back threshold tables t g e tx epoch :
  committable threshold tables t g e tx →
  ∃ outputs tables', build_transaction_outputs tx e (into_inner t) = Done outputs ∧
    write_transaction_outputs threshold tables epoch outputs = Done (Ok tables') ∧
    (∀ id o, written t !! id = Some o → store_get_object_by_key tables' id (object_version o) = Ok (Some o)) ∧
    (∀ id v, (id, v) ∈ all_tombstones e → store_object_exists_by_key tables' id v = true ∧
       store_get_object_by_key tables' id v = Ok None) ∧
    (∀ id v o, (∀ o', written t !! id = Some o' → v ≠ object_version o') → (id, v) ∉ all_tombstones e →
       store_get_object_by_key tables id v = Ok (Some o) → store_get_object_by_key tables' id v = Ok (Some o)) ∧
    is_tx_already_executed tables' tx.1 = true ∧ get_executed_effects tables' tx.1 = Some e.
Proof.
  intros Hcm. exists (expected_outputs t e tx).
  destruct (commit_writes threshold tables t g e tx epoch Hcm) as (tables' & Hw & Hct). exists tables'.
  split_and!; [by apply build_outputs_ok, (cm_stamped _ _ _ _ _ _ Hcm)|done|..].
  - intros id o Ho. unfold store_get_object_by_key. rewrite (ct_written _ _ _ _ _ _ _ Hct id o Ho).
    by apply (committed_readable threshold tables t g e tx tables' epoch).
  - intros id v Hk. unfold store_object_exists_by_key, store_get_object_by_key.
    by destruct (ct_tombstones _ _ _ _ _ _ _ Hct (id, v) Hk) as [-> | ->].
  - intros id v o Hv Hk. unfold store_get_object_by_key. rewrite (ct_other _ _ _ _ _ _ _ Hct (id, v) Hv Hk).
    destruct (tb_objects tables !! (id, v)) as [so|]; [|done].
    by apply (table_object_kept threshold tables t g e tx tables' epoch).
  - unfold is_tx_already_executed. rewrite (ct_executed _ _ _ _ _ _ _ Hct), lookup_insert_eq. done.
  - by apply (ct_effects _ _ _ _ _ _ _ Hct).
Qed.

(** * Availability *)

(** Packages are published or upgraded to a version above all that are stored. *)
Definition packages_fresh (tables : AuthorityPerpetualTables) (t : TemporaryStore) : Prop :=
  ∀ id o, written t !! id = Some o → is_package o = true →
    is_alive (object_digest o) = true ∧ object_version o ≤ SEQUENCE_NUMBER_MAX ∧
    ∀ v, is_Some (tb_objects tables !! (id, v)) → v ≤ object_version o.

Lemma deleted_marker threshold tables t e tx epoch tables' id :
  committed threshold tables t e tx tables' epoch → id ∈ deleted_mutably_accessed_shared_objects e →
  store_get_marker_value tables' id (store_lamport t) epoch = Some (SharedDeleted tx.1).
Proof.
  intros Hct Hid. unfold store_get_marker_value. rewrite (ct_markers _ _ _ _ _ _ _ Hct), insert_all_union.
  apply lookup_union_Some_l. cbn [out_markers expected_outputs]. rewrite !map_app, !btree_collect_app.
  set (l := map _ (map _ (deleted_mutably_accessed_shared_objects e))).
  assert (btree_collect l !! (epoch, id, store_lamport t) = Some (SharedDeleted tx.1)) as Hl.
  { assert ((epoch, id, store_lamport t) ∈ l.*1) as [m Hm]%btree_collect_dom.
    { apply list_elem_of_fmap. exists ((epoch, id, store_lamport t), SharedDeleted tx.1). split; [done|].
      apply list_elem_of_fmap. exists ((id, store_lamport t), SharedDeleted tx.1). split; [done|].
      apply list_elem_of_fmap. by exists id. }
    rewrite Hm. apply btree_collect_in in Hm. apply list_elem_of_fmap in Hm as (km & [= -> _ ->] & Hkm).
    by apply list_elem_of_fmap in Hkm as (id' & -> & _). }
  by apply lookup_union_Some_l, lookup_union_Some_l.
Qed.
Lemma package_latest threshold tables t g e tx epoch tables' id o :
  committable threshold tables t g e tx → committed threshold tables t e tx tables' epoch →
  packages_fresh tables t → written t !! id = Some o → is_package o = true →
  latest_object_ref_or_tombstone tables' id = Done (Ok (Some (id, object_version o, object_digest o))).
Proof.
  intros Hcm Hct Hpk Ho Hp. destruct (Hpk id o Ho Hp) as (_ & Hv & Hmax).
  pose proof (ct_written _ _ _ _ _ _ _ Hct id o Ho) as Hso. unfold latest_object_ref_or_tombstone.
  rewrite (latest_entry tables' id (object_version o) (stored_value threshold o) Hv Hso).
  - pose proof (committed_readable _ _ _ _ _ _ _ _ _ _ Hcm Hct Ho) as Hr. unfold object_reference.
    destruct (stored_value threshold o) as [v| |]; try done. unfold table_object in Hr.
    destruct (construct_object tables' _ v) as [o'|]; simpl in Hr; [|done]. injection Hr as ->.
    assert (compute_object_reference o = Done (id, object_version o, object_digest o)) as Hc.
    { unfold compute_object_reference. by rewrite (st_written t (sp_store t (cm_stamped _ _ _ _ _ _ Hcm)) id o Ho). }
    unfold try_exec. rewrite bind_ret_l, Hc. done.
  - intros w Hw. destruct (decide (w = object_version o)) as [->|Hne]; [done|].
    rewrite (ct_other _ _ _ _ _ _ _ Hct) in Hw; [by apply Hmax| |].
    + intros o' Ho'. simpl in *. congruence.
    + intros Hk. apply (tombstones_exact t g e id w (cm_stamped _ _ _ _ _ _ Hcm) (cm_describes _ _ _ _ _ _ Hcm)) in Hk
        as [_ [Hd|[_ Hn]]]; [|congruence].
      pose proof (sp_deleted t (cm_stamped _ _ _ _ _ _ Hcm)) as Hdis. apply (Hdis id Hd), elem_of_union_r.
      by apply elem_of_dom_2 in Ho.
Qed.

(** C13: What the transaction manager is told to be available is.  After the
    outputs of a transaction are written, the availability check of the manager
    on the keys the transaction announces answers yes for each of them: written
    objects and packages, deleted shared objects, and the ones it used mutably
    after they had been deleted. *)
Theorem outputs_available threshold tables t g e tx epoch receiving :
  committable threshold tables t g e tx → packages_fresh tables t →
  (∀ id, id ∈ deleted_mutably_accessed_shared_objects e → VersionedObject id (store_lamport t) ∉ receiving) →
  let keys := get_output_keys (into_inner t) e in
  ∃ outputs tables', build_transaction_outputs tx e (into_inner t) = Done outputs ∧
    write_transaction_outputs threshold tables epoch outputs = Done (Ok tables') ∧
    multi_input_objects_available (store_reads tables') keys receiving epoch = Done (map (λ _, true) keys).
Proof.
  intros Hcm Hpk Hrec keys. exists (expected_outputs t e tx).
  destruct (commit_writes threshold tables t g e tx epoch Hcm) as (tables' & Hw & Hct). exists tables'.
  split_and!; [by apply build_outputs_ok, (cm_stamped _ _ _ _ _ _ Hcm)|done|].
  rewrite multi_input_objects_available_exact. f_equal. apply map_ext_in. intros k Hk%list_elem_of_In.
  unfold keys, get_output_keys in Hk. rewrite !elem_of_app in Hk. destruct Hk as [Hk|[Hk|Hk]];
    apply list_elem_of_fmap in Hk as (x & -> & Hx).
  - destruct x as [id o]. apply elem_of_btree_iter in Hx. cbn [inner_written into_inner fst snd] in *.
    destruct (is_package o) eqn:Hp.
    + unfold input_available, unversioned_available. cbn [get_latest_object_ref_or_tombstone store_reads key_id].
      rewrite (package_latest _ _ _ _ _ _ _ _ _ _ Hcm Hct Hpk Hx Hp). by apply (Hpk id o).
    + unfold input_available, versioned_available. cbn [object_exists_by_key store_reads].
      unfold store_object_exists_by_key. rewrite (ct_written _ _ _ _ _ _ _ Hct id o Hx). done.
  - destruct x as [id v]. apply list_elem_of_filter in Hx as [_ Hx%elem_of_btree_iter%btree_collect_in].
    assert ((id, v) ∈ all_tombstones e) as Ht.
    { unfold all_tombstones. rewrite map_app, elem_of_app. by left. }
    unfold input_available, versioned_available. cbn [object_exists_by_key store_reads fst snd].
    unfold store_object_exists_by_key. by destruct (ct_tombstones _ _ _ _ _ _ _ Hct (id, v) Ht) as [-> | ->].
  - unfold input_available, versioned_available. destruct (object_exists_by_key _ _ _); [done|].
    rewrite bool_decide_eq_false_2 by by apply Hrec. unfold get_deleted_shared_object_previous_tx_digest.
    cbn [get_marker_value store_reads key_id]. change (inner_lamport_version (into_inner t)) with (store_lamport t).
    by rewrite (deleted_marker _ _ _ _ _ _ _ _ Hct Hx).
Qed.
(** * Reverting a commit *)

(** The table has the object under the key. *)
Definition holds (tables : AuthorityPerpetualTables) (key : ObjectKey) (o : Object) : Prop :=
  ∃ so, tb_objects tables !! key = Some so ∧ table_object tables key so = Ok (Some o) ∧
    object_id o = Done key.1 ∧ object_version o = key.2.

Lemma object_and_lock_ok tables key o :
  holds tables key o →
  object_and_lock tables key =
    Done (if is_immutable o then None else Some (if is_address_owned o then Some (key, object_digest o) else None)).
Proof.
  intros (so & Hso & Ho & Hid & Hv). unfold object_and_lock. rewrite Hso. simpl unwrap. rewrite bind_ret_l, Ho.
  destruct (is_immutable o); [done|]. unfold compute_object_reference. rewrite Hid, bind_ret_l, Hv.
  rewrite bind_ret_l. by destruct key.
Qed.
Lemma objects_and_locks_ok tables keys :
  (∀ key, key ∈ keys → ∃ o, holds tables key o) →
  ∃ l, get_objects_and_locks tables keys = Done l ∧
    ∀ r, r ∈ l ↔ ∃ o, r.1 ∈ keys ∧ holds tables r.1 o ∧ is_address_owned o = true ∧ r.2 = object_digest o.
Proof.
  induction keys as [|key keys IH]; intros Hin.
  { exists []. split; [done|]. intros r. split; [by intros ?%elem_of_nil|]. by intros (? & ?%elem_of_nil & _). }
  destruct IH as (l & Hl & Hr); [intros; apply Hin; by right|]. destruct (Hin key ltac:(left)) as [o Ho].
  unfold get_objects_and_locks in Hl |- *. cbn [mapM]. rewrite (object_and_lock_ok _ _ _ Ho), bind_ret_l.
  apply bind_Done in Hl as (l' & -> & [= <-]). rewrite !bind_ret_l. eexists. split; [done|].
  assert (∀ o', holds tables key o' → o' = o) as Huniq.
  { intros o' (so' & Hso' & Ho' & _). destruct Ho as (so & Hso & Ho & _). congruence. }
  assert (∀ r, (∃ o', r.1 ∈ key :: keys ∧ holds tables r.1 o' ∧ is_address_owned o' = true ∧ r.2 = object_digest o') ↔
    (r = (key, object_digest o) ∧ is_address_owned o = true) ∨ r ∈ omap id (omap id l')) as Hiff.
  { intros r. rewrite Hr. split.
    - intros (o' & [Hk|Hk]%elem_of_cons & Hh & Ha & Hd); [left|right; by exists o'].
      rewrite Hk in Hh. rewrite (Huniq o' Hh) in *. split; [|done]. destruct r as [k d]. simpl in *. congruence.
    - intros [[-> Ha]|(o' & ? & ?)]; [exists o|exists o']; (split; [|done]); [left|by right]. }
  intros r. rewrite Hiff. unfold is_address_owned, is_immutable in *.
  destruct (owner o); csimpl; rewrite ?elem_of_cons; intuition congruence.
Qed.

Lemma changed_keys t g e key :
  stamped t → describes t g e →
  key ∈ map (λ o : ObjectRef * Owner * WriteKind, ref_key o.1.1) (all_changed_objects e) ↔
  ∃ o, written t !! key.1 = Some o ∧ key.2 = object_version o.
Proof.
  intros Hst Hd.
  assert (map (λ o : ObjectRef * Owner * WriteKind, ref_key o.1.1) (all_changed_objects e) =
    map (λ o : ObjectRef * Owner, ref_key o.1) (all_changed_objects e).*1) as ->
    by (change (map ?f ?k) with (f <$> k); by rewrite <-list_fmap_compose).
  rewrite (changed_objects_exact t g e Hst Hd), map_map. change (map ?f ?k) with (f <$> k).
  rewrite list_elem_of_fmap. split.
  - intros ([id o] & -> & Hin%elem_of_btree_iter). by exists o.
  - intros (o & Ho & Hv). exists (key.1, o). rewrite elem_of_btree_iter. split; [|done]. destruct key. simpl in *.
    by rewrite Hv.
Qed.
Lemma modified_keys t g e key :
  stamped t → describes t g e →
  key ∈ eff_modified_at_versions e ↔ ∃ m, old_metadata t key.1 = Some m ∧ key.2 = dl_version m.
Proof.
  intros Hst Hd. rewrite (ds_modified _ _ _ Hd). unfold modified_versions. rewrite list_elem_of_omap. split.
  - intros (id & _ & (m & Hm & ->)%fmap_Some). by exists m.
  - intros (m & Hm & Hv). exists key.1. rewrite elem_of_bset_iter, Hm. split.
    + unfold touched. apply elem_of_union_l, elem_of_union_r, (old_metadata_ok t key.1 (sp_store t Hst)). by rewrite Hm.
    + simpl. rewrite <-Hv. by destruct key.
Qed.

(** What the store guarantees of a transaction that may be reverted: its outputs
    are new, what it modified is stored, the locks it consumed are those of the
    owned objects it modified, and it used no shared object. *)
Record revertible (tables : AuthorityPerpetualTables) (t : TemporaryStore) (e : TransactionEffects)
    (tx : TransactionDigest * TransactionData) : Prop := {
  rv_written : ∀ id o, written t !! id = Some o → tb_objects tables !! (id, object_version o) = None;
  rv_tombstones : ∀ key, key ∈ all_tombstones e → tb_objects tables !! key = None;
  rv_old : ∀ id m, old_metadata t id = Some m →
    ∃ o, holds tables (id, dl_version m) o ∧ object_digest o = dl_digest m ∧ owner o = dl_owner m;
  rv_consumed : ∀ r : ObjectRef, r ∈ consumed_locks t e tx ↔
    ∃ m a, old_metadata t r.1.1 = Some m ∧ dl_owner m = AddressOwner a ∧ r.1.2 = dl_version m ∧ r.2 = dl_digest m;
  rv_created : ∀ r, r ∈ created_locks t → tb_locks tables !! r = None;
  rv_shared : eff_input_shared_objects e = [];
  rv_events_digest : eff_events_digest e = events_digest_of (user_events (execution_results t));
  rv_events_length : Z.of_nat (length (user_events (execution_results t))) ≤ u64_max;
  rv_executed : tb_executed_effects tables !! tx.1 = None;
}.

Section revert.
Context (threshold epoch : Z) (tables tables' : AuthorityPerpetualTables) (t : TemporaryStore) (g : GasCharger).
Context (e : TransactionEffects) (tx : TransactionDigest * TransactionData).
Context (Hcm : committable threshold tables t g e tx) (Hrv : revertible tables t e tx).
Context (Hct : committed threshold tables t e tx tables' epoch).
Let Hst := cm_stamped _ _ _ _ _ _ Hcm.
Let Hds := cm_describes _ _ _ _ _ _ Hcm.

Lemma kept_holds key o : holds tables key o → holds tables' key o.
Proof.
  intros (so & Hso & Ho & Hid & Hv). exists so. split_and!; [|by eapply table_object_kept|done..].
  rewrite (ct_other _ _ _ _ _ _ _ Hct); [done| |].
  - intros o' Ho' Hk. pose proof (rv_written _ _ _ _ Hrv key.1 o' Ho') as Hn. rewrite <-Hk in Hn.
    rewrite <-surjective_pairing in Hn. congruence.
  - intros Hk%(rv_tombstones _ _ _ _ Hrv). congruence.
Qed.
Lemma old_locks_ok :
  ∃ l, get_objects_and_locks tables' (eff_modified_at_versions e) = Done l ∧ ∀ r, r ∈ l ↔ r ∈ consumed_locks t e tx.
Proof.
  destruct (objects_and_locks_ok tables' (eff_modified_at_versions e)) as (l & Hl & Hr).
  { intros key (m & Hm & Hv)%(modified_keys t g e key Hst Hds). destruct (rv_old _ _ _ _ Hrv _ _ Hm) as (o & Ho & _).
    exists o. apply kept_holds. rewrite <-Hv in Ho. by destruct key. }
  exists l. split; [done|]. intros [key d]. rewrite Hr, (rv_consumed _ _ _ _ Hrv). cbn [fst snd].
  setoid_rewrite (modified_keys t g e key Hst Hds). split.
  - intros (o & (m & Hm & Hv) & (so & Hso & Ho & _) & Ha & ->). destruct (rv_old _ _ _ _ Hrv _ _ Hm) as (o' & Hh & Hd & Hw).
    apply kept_holds in Hh as (so' & Hso' & Ho' & _). rewrite <-Hv, <-surjective_pairing in *.
    assert (o' = o) as -> by congruence. unfold is_address_owned in Ha. destruct (owner o) as [a| | |] eqn:Ha'; try done.
    exists m, a. split_and!; congruence.
  - intros (m & a & Hm & Ha & Hv & ->). destruct (rv_old _ _ _ _ Hrv _ _ Hm) as (o & Hh & Hd & Hw).
    apply kept_holds in Hh. rewrite <-Hv, <-surjective_pairing in Hh. exists o.
    split_and!; [by exists m|done| |done]. unfold is_address_owned. by rewrite Hw, Ha.
Qed.
Lemma new_locks_ok :
  ∃ l, get_objects_and_locks tables'
      (map (λ o : ObjectRef * Owner * WriteKind, ref_key o.1.1) (all_changed_objects e)) = Done l ∧
    ∀ r, r ∈ l ↔ r ∈ created_locks t.
Proof.
  assert (∀ id o, written t !! id = Some o → holds tables' (id, object_version o) o) as Hh.
  { intros id o Ho. exists (stored_value threshold o).
    split_and!; [by apply (ct_written _ _ _ _ _ _ _ Hct)|by eapply committed_readable| |done].
    by apply (st_written t (sp_store t Hst)). }
  set (keys := map _ _). destruct (objects_and_locks_ok tables' keys) as (l & Hl & Hr).
  { intros [id v] (o & Ho & Hv)%(changed_keys t g e _ Hst Hds). simpl in *. subst v. exists o. by apply Hh. }
  exists l. split; [done|]. intros [[id v] d]. rewrite Hr. unfold keys. cbn [fst snd].
  setoid_rewrite (changed_keys t g e (id, v) Hst Hds). unfold created_locks. change (map ?f ?k) with (f <$> k).
  rewrite list_elem_of_fmap. simpl. split.
  - intros (o & (o' & Ho & ->) & (so & Hso & Hro & _) & Ha & ->).
    destruct (Hh id o' Ho) as (so' & Hso' & Hro' & _). assert (o' = o) as -> by congruence.
    exists (id, o). split; [done|]. rewrite list_elem_of_filter, elem_of_btree_iter. done.
  - intros ([id' o] & [= -> -> ->] & [Ha Ho%elem_of_btree_iter]%list_elem_of_filter). exists o.
    split_and!; [by exists o|by apply Hh|done..].
Qed.

Lemma objects_restored :
  delete_all_keys (map (λ o : ObjectRef * Owner * WriteKind, ref_key o.1.1) (all_changed_objects e))
    (delete_all_keys (all_tombstones e) (tb_objects tables')) = tb_objects tables.
Proof.
  apply map_eq. intros key. rewrite !delete_all_lookup. case_decide as Hk.
  { apply (changed_keys t g e key Hst Hds) in Hk as (o & Ho & Hv). symmetry.
    pose proof (rv_written _ _ _ _ Hrv _ _ Ho) as Hn. by rewrite <-Hv, <-surjective_pairing in Hn. }
  case_decide as Ht; [symmetry; by apply (rv_tombstones _ _ _ _ Hrv)|].
  apply (ct_other _ _ _ _ _ _ _ Hct); [|done]. intros o Ho Hv. apply Hk, (changed_keys t g e key Hst Hds). by exists o.
Qed.
(** The entries of the events table under the digest of the effects. *)
Definition own_events (k : Z * Z) : Prop := eff_events_digest e = Some k.1 ∧ k.2 < u64_max.
Lemma events_reverted k x :
  match eff_events_digest e with
  | Some d => filter (λ kv : (Z * Z) * Z, ¬ (kv.1.1 = d ∧ kv.1.2 < u64_max)) (tb_events tables')
  | None => tb_events tables'
  end !! k = Some x ↔ ¬ own_events k ∧ tb_events tables !! k = Some x.
Proof.
  unfold own_events. rewrite (rv_events_digest _ _ _ _ Hrv), (ct_events _ _ _ _ _ _ _ Hct), insert_all_union.
  pose proof (rv_events_length _ _ _ _ Hrv) as Hlen.
  set (events := user_events (execution_results t)) in *. unfold events_digest_of.
  destruct events as [|ev evs] eqn:Hev; [change (imap _ []) with ([] : list (Z * Z * Z)); change (btree_collect []) with (∅ : gmap (Z * Z) Z);
    rewrite (left_id_L ∅ (∪)); naive_solver|].
  rewrite <-Hev in *. clear Hev. set (l := imap _ events).
  assert (∀ k, is_Some (btree_collect l !! k) → k.1 = events_hash events ∧ k.2 < u64_max) as Hnew.
  { intros k' [y' Hx%btree_collect_in%elem_of_lookup_imap_1]. destruct Hx as (i & y & Hk & Hi%lookup_lt_Some).
    injection Hk as -> _. simpl. split; [done|lia]. }
  rewrite map_lookup_filter_Some, lookup_union_Some_raw. simpl. split.
  - intros [[Hx|[_ Hx]] Hk]; [|split; [|done]].
    + destruct Hk. exact (Hnew k (mk_is_Some _ _ Hx)).
    + intros [[= Hk1] ?]. by destruct Hk.
  - intros [Hk Hx]. split; [right; split; [|done]|].
    + destruct (btree_collect l !! k) eqn:Hl; [|done]. destruct (Hnew k ltac:(by rewrite Hl)) as [Hk1 ?].
      destruct Hk. by rewrite Hk1.
    + intros [Hk1 ?]. destruct Hk. by rewrite Hk1.
Qed.
Lemma revert_ok :
  ∃ tables'', revert_state_update tables' tx.1 = Done (Ok tables'') ∧
    tb_objects tables'' = tb_objects tables ∧ tb_indirect tables'' = tb_indirect tables' ∧
    (∀ r, tb_locks tables'' !! r =
       if decide (r ∈ consumed_locks t e tx) then Some None else tb_locks tables !! r) ∧
    tb_executed_effects tables'' = tb_executed_effects tables ∧
    ∀ k x, tb_events tables'' !! k = Some x ↔ ¬ own_events k ∧ tb_events tables !! k = Some x.
Proof.
  destruct old_locks_ok as (old & Hold & Ho). destruct new_locks_ok as (new & Hnew & Hn).
  unfold revert_state_update. rewrite (ct_effects _ _ _ _ _ _ _ Hct), (rv_shared _ _ _ _ Hrv).
  simpl assert. rewrite bind_ret_l, Hold, bind_ret_l, Hnew, bind_ret_l. unfold initialize_locks, try_exec.
  rewrite bind_ret_l. eexists. split; [reflexivity|].
  cbn [tb_objects tb_indirect tb_locks tb_executed_effects tb_events].
  split_and!; [exact objects_restored|done| |..|exact events_reverted].
  - intros r. rewrite delete_locks_lookup, foldl_init_lookup, (ct_locks _ _ _ _ _ _ _ Hct).
    destruct (decide (r ∈ created_locks t)) as [Hc|Hc].
    + pose proof (rv_created _ _ _ _ Hrv r Hc) as Hnone. rewrite decide_True by by apply Hn. rewrite decide_False; [done|].
      intros Hdel. destruct (cm_held _ _ _ _ _ _ Hcm r Hdel). congruence.
    + rewrite decide_False by by rewrite Hn. destruct (decide (r ∈ consumed_locks t e tx)) as [Hd|Hd].
      * by rewrite decide_True by by apply Ho.
      * by rewrite decide_False by by rewrite Ho.
  - rewrite (ct_executed _ _ _ _ _ _ _ Hct), delete_insert_eq. apply delete_id, (rv_executed _ _ _ _ Hrv).
Qed.
End revert.

(** C12: Reverting undoes a commit.  After the outputs of a transaction without
    shared inputs are written, [revert_state_update] succeeds and leaves the
    objects as they were before, each of them readable; the locks are those of
    before, the consumed ones free to be locked again; and the transaction
    counts as not executed.  The events are those of before without the entries
    under the events digest of the transaction: all of them are restored if no
    other transaction emitted the same events, and its events are deleted too if
    one did, since the digest is a hash of nothing but the events. *)
Theorem revert_restores threshold tables t g e tx epoch :
  committable threshold tables t g e tx → revertible tables t e tx →
  ∃ outputs tables' tables'', build_transaction_outputs tx e (into_inner t) = Done outputs ∧
    write_transaction_outputs threshold tables epoch outputs = Done (Ok tables') ∧
    revert_state_update tables' tx.1 = Done (Ok tables'') ∧
    tb_objects tables'' = tb_objects tables ∧
    (∀ id v o, store_get_object_by_key tables id v = Ok (Some o) →
       store_get_object_by_key tables'' id v = Ok (Some o)) ∧
    (∀ r, tb_locks tables'' !! r =
       if decide (r ∈ out_locks_to_delete outputs) then Some None else tb_locks tables !! r) ∧
    (∀ r, is_Some (tb_locks tables'' !! r) ↔ is_Some (tb_locks tables !! r)) ∧
    is_tx_already_executed tables'' tx.1 = false ∧
    (∀ d i, i < u64_max → tb_events tables'' !! (d, i) =
       if decide (eff_events_digest e = Some d) then None else tb_events tables !! (d, i)) ∧
    ((∀ d i, eff_events_digest e = Some d → tb_events tables !! (d, i) = None) →
       tb_events tables'' = tb_events tables).
Proof.
  intros Hcm Hrv. exists (expected_outputs t e tx).
  destruct (commit_writes threshold tables t g e tx epoch Hcm) as (tables' & Hw & Hct).
  destruct (revert_ok threshold epoch tables tables' t g e tx Hcm Hrv Hct) as (tables'' & Hr & Hobj & Hind & Hl & Hx & Hev).
  exists tables', tables''. split_and!; [by apply build_outputs_ok, (cm_stamped _ _ _ _ _ _ Hcm)|done..| | | | | |].
  - intros id v o. unfold store_get_object_by_key. rewrite Hobj. destruct (tb_objects tables !! (id, v)) as [so|]; [|done].
    intros Ho. pose proof (table_object_kept _ _ _ _ _ _ _ _ _ _ _ Hcm Hct Ho) as Hk. revert Hk.
    unfold table_object, construct_object, get_indirect. by rewrite Hind.
  - exact Hl.
  - intros r. rewrite Hl. case_decide as Hd; [|done]. split; [|done]. intros _. by apply (cm_held _ _ _ _ _ _ Hcm).
  - unfold is_tx_already_executed. by rewrite Hx, (rv_executed _ _ _ _ Hrv).
  - intros d i Hi. apply option_eq. intros x. rewrite Hev. unfold own_events. simpl. case_decide; naive_solver.
  - intros Hno. apply map_eq. intros [d i]. apply option_eq. intros x. rewrite Hev. split; [tauto|].
    intros Hx'. split; [|done]. intros [Hd _]. simpl in Hd. by rewrite (Hno d i Hd) in Hx'.
Qed.

(** * Every entry can be read *)

Definition sound (tables : AuthorityPerpetualTables) : Prop :=
  ∀ key v, tb_objects tables !! key = Some (StoreValue v) → ∃ o, holds tables key o.

Lemma committed_sound threshold tables t g e tx epoch tables' :
  committable threshold tables t g e tx → committed threshold tables t e tx tables' epoch →
  sound tables → sound tables'.
Proof.
  intros Hcm Hct Hs key v Hv. destruct (decide (key ∈ all_tombstones e)) as [Ht|Ht].
  { by destruct (ct_tombstones _ _ _ _ _ _ _ Hct key Ht) as [Hn|Hn]; rewrite Hn in Hv. }
  destruct (written t !! key.1) as [o|] eqn:Ho; [destruct (decide (key.2 = object_version o)) as [Hk|Hk]|].
  - exists o, (stored_value threshold o). rewrite (surjective_pairing key), Hk.
    split_and!; [by apply (ct_written _ _ _ _ _ _ _ Hct)|by eapply committed_readable| |done].
    by apply (st_written t (sp_store t (cm_stamped _ _ _ _ _ _ Hcm))).
  - rewrite (ct_other _ _ _ _ _ _ _ Hct) in Hv by (by intros ? [= <-]%(eq_trans (eq_sym Ho))|| done).
    destruct (Hs key v Hv) as (o' & so & Hso & Hr & ?). exists o', (StoreValue v).
    split_and!; [|eapply table_object_kept; [done..|]; congruence|tauto..].
    by rewrite (ct_other _ _ _ _ _ _ _ Hct) by (by intros ? [= <-]%(eq_trans (eq_sym Ho))|| done).
  - rewrite (ct_other _ _ _ _ _ _ _ Hct) in Hv by (by rewrite Ho || done).
    destruct (Hs key v Hv) as (o' & so & Hso & Hr & ?). exists o', (StoreValue v).
    split_and!; [|eapply table_object_kept; [done..|]; congruence|tauto..].
    by rewrite (ct_other _ _ _ _ _ _ _ Hct) by (by rewrite Ho || done).
Qed.
Lemma reverted_sound tables digest tables' :
  revert_state_update tables digest = Done (Ok tables') → sound tables → sound tables'.
Proof.
  unfold revert_state_update. destruct (get_executed_effects tables digest) as [e|]; [|by intros [= <-]].
  intros (? & _ & (old & _ & (new & _ & Hr)%bind_Done)%bind_Done)%bind_Done Hs.
  apply try_exec_Ok in Hr as (locks & _ & [= <-]). intros key v. cbn [tb_objects]. rewrite !delete_all_lookup.
  repeat case_decide; try done. intros Hv. destruct (Hs key v Hv) as (o & so & Hso & Hr & Hid).
  exists o, so. cbn [tb_objects]. rewrite !delete_all_lookup. by repeat case_decide.
Qed.

(** A database that starts with entries that can be read, and is changed by the
    commits and reverts of a validator. *)
Inductive database : AuthorityPerpetualTables → Prop :=
  | database_init tables : sound tables → database tables
  | database_commit threshold tables t g e tx epoch outputs tables' :
      database tables → committable threshold tables t g e tx →
      build_transaction_outputs tx e (into_inner t) = Done outputs →
      write_transaction_outputs threshold tables epoch outputs = Done (Ok tables') → database tables'
  | database_revert tables digest tables' :
      database tables → revert_state_update tables digest = Done (Ok tables') → database tables'.
Lemma database_is_sound tables : database tables → sound tables.
Proof.
  induction 1 as [|threshold tables t g e tx epoch outputs tables' _ IH Hcm Hb Hw|tables digest tables' _ IH Hr];
    [done| |by eapply reverted_sound].
  rewrite build_outputs_ok in Hb by apply (cm_stamped _ _ _ _ _ _ Hcm). injection Hb as <-.
  destruct (commit_writes threshold tables t g e tx epoch Hcm) as (tables'' & Hw' & Hct).
  rewrite Hw in Hw'. injection Hw' as <-. by eapply committed_sound.
Qed.
Lemma sound_entry tables key so :
  sound tables → tb_objects tables !! key = Some so →
  ∃ r, table_object tables key so = Ok r ∧ ∀ o, r = Some o → object_id o = Done key.1 ∧ object_version o = key.2.
Proof.
  intros Hs Hso. destruct so as [v| |]; try (by exists None; split).
  destruct (Hs _ _ Hso) as (o & so & Hso' & Ho & Hid). rewrite Hso in Hso'. injection Hso' as <-.
  exists (Some o). split; [done|]. by intros ? [= <-].
Qed.
Lemma latest_lookup tables id key so :
  get_latest_object_or_tombstone tables id = Some (key, so) → key.1 = id ∧ tb_objects tables !! key = Some so.
Proof.
  unfold get_latest_object_or_tombstone, max_for_id.
  destruct (entry_prior_to tables (id, SEQUENCE_NUMBER_MAX)) as [[k v]|] eqn:He; [|done].
  destruct (Z.eqb_spec k.1 id) as [Hk|]; [|done]. intros [= <- <-]. split; [done|].
  by apply entry_prior_to_spec in He as (_ & ? & _).
Qed.
Lemma sound_by_key tables id v :
  sound tables → ∃ r, store_get_object_by_key tables id v = Ok r ∧
    ∀ o, r = Some o → object_id o = Done id ∧ object_version o = v.
Proof.
  intros Hs. unfold store_get_object_by_key. destruct (tb_objects tables !! (id, v)) as [so|] eqn:Hso.
  - apply (sound_entry tables (id, v) so Hs Hso).
  - exists None. by split.
Qed.
Lemma sound_latest tables id :
  sound tables → ∃ r, store_get_object tables id = Ok r ∧ ∀ o, r = Some o → object_id o = Done id.
Proof.
  intros Hs. unfold store_get_object. destruct (get_latest_object_or_tombstone tables id) as [[key so]|] eqn:He.
  - apply latest_lookup in He as [Hk Hso]. destruct (sound_entry tables key so Hs Hso) as (r & Hr & Hid).
    exists r. split; [done|]. intros o Ho. rewrite <-Hk. by apply Hid.
  - exists None. by split.
Qed.

(** C23: Reads of the database do not fail.  In every database reached from one
    whose entries can be read, by committing and reverting transactions, reading
    an object by key and reading the latest version of an object return without
    an error, and what they return is the object that was asked for. *)
Theorem database_reads_succeed tables :
  database tables →
  (∀ id v, ∃ r, store_get_object_by_key tables id v = Ok r ∧
     ∀ o, r = Some o → object_id o = Done id ∧ object_version o = v) ∧
  (∀ id, ∃ r, store_get_object tables id = Ok r ∧ ∀ o, r = Some o → object_id o = Done id).
Proof.
  intros Hs%database_is_sound. split; [intros id v; by apply sound_by_key|intros id; by apply sound_latest].
Qed.
End store.
