(* ===== verification/InputLoader.v ===== *)
(** Reading the objects a transaction names: [TransactionInputLoader]
    (mgo-core/src/transaction_input_loader.rs), the reads of the trait
    ExecutionCacheRead it uses (mgo-core/src/in_mem_execution_cache.rs), and the
    cache of packages (mgo-storage/src/package_object_cache.rs).

    [InputReads] is the part of the trait that is left to implementations;
    [table_reads] answers it from the tables of the database.  The map of the
    package cache is the third-party [LruCache], a parameter: pushing an entry
    may drop others. *)
From S2P Require Import Prelude MapSums Objects Errors.
From S2P Require Import TransactionData TransactionManager ObjectReads.
From S2P Require Import ObjectLocks StoreObjects AuthorityTables.

(** * The package cache *)

Class LruCache := {
  lru : Type;
  lru_peek : lru → ObjectID → option Object;
  lru_push : lru → ObjectID → Object → lru;
}.
Class LruCacheLaws `{!LruCache} := {
  lru_push_same c id o : lru_peek (lru_push c id o) id = Some o;
  lru_push_other c id o id' : id ≠ id' →
    lru_peek (lru_push c id o) id' = lru_peek c id' ∨ lru_peek (lru_push c id o) id' = None;
}.

Section package_cache.
Context {Hlru : LruCache}.

Definition cache_get_package_object (get_object : ObjectID → result (option Object) MgoError)
    (cache : lru) (package_id : ObjectID) : result (option Object) MgoError * lru :=
  match lru_peek cache package_id with
  | Some p => (Ok (Some p), cache)
  | None =>
      match get_object package_id with
      | Err e => (Err e, cache)
      | Ok None => (Ok None, cache)
      | Ok (Some p) =>
          if is_package p then (Ok (Some p), lru_push cache package_id p)
          else (Err (UserInput (MoveObjectAsPackage package_id)), cache)
      end
  end.
Definition force_reload_system_packages (get_object : ObjectID → result (option Object) MgoError)
    (cache : lru) (system_package_ids : list ObjectID) : exec lru :=
  foldM (λ cache package_id,
    match get_object package_id with
    | Err _ => Panic
    | Ok (Some p) => _ ← assert (is_package p); Done (lru_push cache package_id p)
    | Ok None => Done cache
    end) cache system_package_ids.
End package_cache.

(** * Reads *)

Record InputReads := {
  ir_get_package_object : ObjectID → result (option Object) MgoError;
  ir_get_object : ObjectID → result (option Object) MgoError;
  ir_get_object_by_key : ObjectID → SequenceNumber → result (option Object) MgoError;
  ir_multi_get_object_by_key : list ObjectKey → result (list (option Object)) MgoError;
  ir_get_marker_value : ObjectID → SequenceNumber → Z → option MarkerValue;
  ir_get_latest_marker : ObjectID → Z → option (SequenceNumber * MarkerValue);
  ir_get_latest_lock : ObjectID → result ObjectRef MgoError;
}.

(** A loop stopped by the first error, [vec[i] = x] and [unwrap] on each entry. *)
Fixpoint try_foldM {A S E : Type} (f : S → A → exec (result S E)) (s : S) (l : list A) : exec (result S E) :=
  match l with
  | [] => Done (Ok s)
  | x :: l => s ←? f s x; try_foldM f s l
  end.
Definition vec_set {A} (l : list A) (i : nat) (x : A) : exec (list A) :=
  _ ← assert (i <? length l)%nat; Done (<[i := x]> l).

Section loader.
Context (cache : InputReads).

Definition get_last_shared_object_deletion_info (object_id : ObjectID) (epoch_id : Z)
    : option (SequenceNumber * TransactionDigest) :=
  match ir_get_latest_marker cache object_id epoch_id with
  | Some (version, SharedDeleted digest) => Some (version, digest)
  | _ => None
  end.
Definition deleted_shared_object_previous_tx_digest (object_id : ObjectID) (version : SequenceNumber)
    (epoch_id : Z) : option TransactionDigest :=
  match ir_get_marker_value cache object_id version epoch_id with
  | Some (SharedDeleted digest) => Some digest
  | _ => None
  end.
Definition have_received_object_at_version (object_id : ObjectID) (version : SequenceNumber) (epoch_id : Z) : bool :=
  match ir_get_marker_value cache object_id version epoch_id with
  | Some Received => true
  | _ => false
  end.

(** The best error for a version that is not there. *)
Definition missing_object_error (object_ref : ObjectRef) : MgoError :=
  match ir_get_latest_lock cache object_ref.1.1 with
  | Err e => e
  | Ok lock =>
      if object_ref.1.2 <=? lock.1.2
      then UserInput (ObjectVersionUnavailableForConsumption object_ref lock.1.2)
      else UserInput (ObjectNotFound object_ref.1.1 (Some object_ref.1.2))
  end.
Fixpoint found_objects (l : list (option Object * ObjectRef)) : result (list Object) MgoError :=
  match l with
  | [] => Ok []
  | (None, object_ref) :: _ => Err (missing_object_error object_ref)
  | (Some object, _) :: l => objects ←! found_objects l; Ok (object :: objects)
  end.
Definition multi_get_object_with_more_accurate_error_return (object_refs : list ObjectRef)
    : exec (result (list Object) MgoError) :=
  objects ←? Done (ir_multi_get_object_by_key cache (map fst object_refs));
  result ←? Done (found_objects (zip objects object_refs));
  _ ← assert (length result =? length object_refs)%nat;
  Done (Ok result).

(** * Receiving objects *)

Fixpoint read_receiving_objects (receiving_objects : list ObjectRef) (epoch_id : Z)
    : result (list ReceivingObjectReadResult) MgoError :=
  match receiving_objects with
  | [] => Ok []
  | objref :: receiving_objects =>
      read ←!
        (if have_received_object_at_version objref.1.1 objref.1.2 epoch_id then
           Ok {| rr_object_ref := objref; rr_object := PreviouslyReceivedObject |}
         else
           object ←! ir_get_object cache objref.1.1;
           match object with
           | None => Err (UserInput (ObjectNotFound objref.1.1 (Some objref.1.2)))
           | Some object => Ok {| rr_object_ref := objref; rr_object := ReceivingObject object |}
           end);
      rest ←! read_receiving_objects receiving_objects epoch_id;
      Ok (read :: rest)
  end.

(** * For signing *)

Definition read_for_signing_step (epoch_id : Z)
    (st : list (option ObjectReadResult) * list ObjectRef * list nat) (ik : nat * InputObjectKind)
    : exec (result (list (option ObjectReadResult) * list ObjectRef * list nat) MgoError) :=
  let '(input_results, object_refs, fetch_indices) := st in
  let '(i, kind) := ik in
  match kind with
  | KMovePackage id =>
      package ←? Done (ir_get_package_object cache id);
      match package with
      | None => Done (Err (UserInput (object_not_found_error kind)))
      | Some package =>
          input_results ← vec_set input_results i
            (Some {| input_object_kind := kind; read_object_kind := ReadObject package |});
          Done (Ok (input_results, object_refs, fetch_indices))
      end
  | KSharedMoveObject id _ _ =>
      object ←? Done (ir_get_object cache id);
      match object with
      | Some object =>
          r ← ObjectReadResult_new kind (ReadObject object);
          input_results ← vec_set input_results i (Some r);
          Done (Ok (input_results, object_refs, fetch_indices))
      | None =>
          match get_last_shared_object_deletion_info id epoch_id with
          | Some (version, digest) =>
              input_results ← vec_set input_results i
                (Some {| input_object_kind := kind; read_object_kind := DeletedSharedObject version digest |});
              Done (Ok (input_results, object_refs, fetch_indices))
          | None => Done (Err (UserInput (object_not_found_error kind)))
          end
      end
  | KImmOrOwnedMoveObject objref =>
      Done (Ok (input_results, object_refs ++ [objref], fetch_indices ++ [i]))
  end.
Definition read_objects_for_signing (input_object_kinds : list InputObjectKind)
    (receiving_objects : list ObjectRef) (epoch_id : Z)
    : exec (result (list ObjectReadResult * list ReceivingObjectReadResult) MgoError) :=
  st ←? try_foldM (read_for_signing_step epoch_id)
          (replicate (length input_object_kinds) None, [], []) (enumerate input_object_kinds);
  let '(input_results, object_refs, fetch_indices) := st in
  objects ←? multi_get_object_with_more_accurate_error_return object_refs;
  _ ← assert (length objects =? length object_refs)%nat;
  input_results ← foldM (λ input_results (io : nat * Object),
    kind ← unwrap (input_object_kinds !! io.1);
    vec_set input_results io.1 (Some {| input_object_kind := kind; read_object_kind := ReadObject io.2 |}))
    input_results (zip fetch_indices objects);
  receiving_results ←? Done (read_receiving_objects receiving_objects epoch_id);
  results ← mapM unwrap input_results;
  Done (Ok (results, receiving_results)).

(** * For execution *)

(** [shared_locks] is what the store of shared locks answers for the transaction;
    it is asked when the first shared input is met. *)
Section execution.
Context (shared_locks : result (list (ObjectID * SequenceNumber)) MgoError).

Definition read_for_execution_step
    (st : list (option ObjectReadResult) * list ObjectKey * list (nat * InputObjectKind))
    (input : nat * InputObjectKind)
    : exec (result (list (option ObjectReadResult) * list ObjectKey * list (nat * InputObjectKind)) MgoError) :=
  let '(results, object_keys, fetches) := st in
  match input.2 with
  | KMovePackage id =>
      package ←? Done (ir_get_package_object cache id);
      package ← unwrap package;
      results ← vec_set results input.1
        (Some {| input_object_kind := input.2; read_object_kind := ReadObject package |});
      Done (Ok (results, object_keys, fetches))
  | KImmOrOwnedMoveObject objref => Done (Ok (results, object_keys ++ [objref.1], fetches ++ [input]))
  | KSharedMoveObject id _ _ =>
      locks ←? Done shared_locks;
      version ← unwrap (btree_collect locks !! id);
      Done (Ok (results, object_keys ++ [(id, version)], fetches ++ [input]))
  end.
Definition fetched_result (epoch_id : Z) (object : option Object) (key : ObjectKey) (input : InputObjectKind)
    : exec ObjectReadResult :=
  match object, input with
  | Some obj, _ => Done {| input_object_kind := input; read_object_kind := ReadObject obj |}
  | None, KSharedMoveObject id _ _ =>
      dependency ← unwrap (deleted_shared_object_previous_tx_digest id key.2 epoch_id);
      Done {| input_object_kind := input; read_object_kind := DeletedSharedObject key.2 dependency |}
  | None, _ => Panic
  end.
Definition read_objects_for_execution (input_object_kinds : list InputObjectKind) (epoch_id : Z)
    : exec (result (list ObjectReadResult) MgoError) :=
  st ←? try_foldM read_for_execution_step
          (replicate (length input_object_kinds) None, [], []) (enumerate input_object_kinds);
  let '(results, object_keys, fetches) := st in
  objects ←? Done (ir_multi_get_object_by_key cache object_keys);
  _ ← assert ((length objects =? length object_keys)%nat && (length objects =? length fetches)%nat);
  results ← foldM (λ results (f : option Object * ObjectKey * (nat * InputObjectKind)),
    r ← fetched_result epoch_id f.1.1 f.1.2 f.2.2;
    vec_set results f.2.1 (Some r)) results (zip (zip objects object_keys) fetches);
  results ← mapM unwrap results;
  Done (Ok results).
End execution.

(** * For execution without assigned versions *)

Definition read_latest (kind : InputObjectKind) : exec (result ObjectReadResult MgoError) :=
  obj ←? Done match kind with
              | KMovePackage id => ir_get_package_object cache id
              | KSharedMoveObject id _ _ => ir_get_object cache id
              | KImmOrOwnedMoveObject objref => ir_get_object_by_key cache objref.1.1 objref.1.2
              end;
  match obj with
  | None => Done (Err (UserInput (object_not_found_error kind)))
  | Some obj => r ← ObjectReadResult_new kind (ReadObject obj); Done (Ok r)
  end.
(** The markers of receiving objects are those of epoch 0. *)
Definition read_objects_for_synchronous_execution_impl (input_object_kinds : list InputObjectKind)
    (receiving_objects : list ObjectRef)
    : exec (result (list ObjectReadResult * list ReceivingObjectReadResult) MgoError) :=
  results ←? try_foldM (λ results kind, r ←? read_latest kind; Done (Ok (results ++ [r]))) [] input_object_kinds;
  receiving_results ←? Done (read_receiving_objects receiving_objects 0);
  Done (Ok (results, receiving_results)).
Definition read_objects_for_synchronous_execution (input_object_kinds : list InputObjectKind)
    : exec (result (list ObjectReadResult) MgoError) :=
  r ←? read_objects_for_synchronous_execution_impl input_object_kinds [];
  Done (Ok r.1).
Definition read_objects_for_dry_run_exec := read_objects_for_synchronous_execution_impl.
Definition read_objects_for_dev_inspect := read_objects_for_synchronous_execution_impl.
End loader.

(** * From the tables *)

(** What the package cache returns: the latest version, if it is a package. *)
Definition package_from_store (get_object : ObjectID → result (option Object) MgoError) (package_id : ObjectID)
    : result (option Object) MgoError :=
  p ←! get_object package_id;
  match p with
  | Some p => if is_package p then Ok (Some p) else Err (UserInput (MoveObjectAsPackage package_id))
  | None => Ok None
  end.
Definition table_reads {Hbcs : Bcs} {Hhash : ObjectHash} (tables : AuthorityPerpetualTables) : InputReads := {|
  ir_get_package_object := package_from_store (store_get_object tables);
  ir_get_object := store_get_object tables;
  ir_get_object_by_key := store_get_object_by_key tables;
  ir_multi_get_object_by_key := multi_get_object_by_key tables;
  ir_get_marker_value := store_get_marker_value tables;
  ir_get_latest_marker := store_get_latest_marker tables;
  ir_get_latest_lock := get_latest_lock_for_object_id (tb_locks tables) |}.
