(* ===== verification/LoaderTheorems.v ===== *)
(** What is loaded for a transaction: each input as if it were read by itself,
    in the order of the inputs, and without a panic when the transaction manager
    has found the inputs available. *)
From S2P Require Import Prelude MapSums Objects Errors.
From S2P Require Import TransactionData CheckedInputs TransactionManager ObjectReads.
From S2P Require Import ObjectLocks StoreObjects AuthorityTables TransactionOutputs.
From S2P Require Import StoreTheorems InputLoader.

(** * Two passes over a vector of results *)

Fixpoint try_map {A B E : Type} (f : A → result B E) (l : list A) : result (list B) E :=
  match l with
  | [] => Ok []
  | x :: l => y ←! f x; ys ←! try_map f l; Ok (y :: ys)
  end.
Fixpoint try_mapM {A B E : Type} (f : A → exec (result B E)) (l : list A) : exec (result (list B) E) :=
  match l with
  | [] => Done (Ok [])
  | x :: l => y ←? f x; ys ←? try_mapM f l; Done (Ok (y :: ys))
  end.
Lemma try_exec_assoc {A B C E : Type} (m : exec (result A E)) (f : A → exec (result B E)) (g : B → exec (result C E)) :
  try_exec (try_exec m f) g = try_exec m (λ x, try_exec (f x) g).
Proof. unfold try_exec. by destruct m as [[]| |]. Qed.
Lemma try_exec_ok {A B E : Type} (a : A) (k : A → exec (result B E)) : try_exec (Done (Ok a)) k = k a.
Proof. done. Qed.
Lemma try_map_spec {A B E : Type} (f : A → result B E) l :
  match try_map f l with
  | Ok ys => Forall2 (λ x y, f x = Ok y) l ys
  | Err e => ∃ x, x ∈ l ∧ f x = Err e
  end.
Proof.
  induction l as [|x l IH]; simpl; [constructor|]. destruct (f x) as [y|e] eqn:Hx; simpl.
  - destruct (try_map f l); simpl; [by constructor|]. destruct IH as (z & ? & ?). exists z. split; [by right|done].
  - exists x. split; [left|done].
Qed.

Section vectors.
Context {K R X O I E : Type}.

Definition slots (os : list (R + X)) : list (option R) :=
  map (λ o, match o with inl r => Some r | inr _ => None end) os.
Definition fetched (os : list (R + X)) : list X :=
  omap (λ o, match o with inl _ => None | inr x => Some x end) os.
Fixpoint positions (mk : nat → K → I) (s : nat) (ks : list K) (os : list (R + X)) : list I :=
  match ks, os with
  | k :: ks, inl _ :: os => positions mk (S s) ks os
  | k :: ks, inr _ :: os => mk s k :: positions mk (S s) ks os
  | _, _ => []
  end.

Lemma vec_set_at {A} (front rest : list A) (x y : A) :
  vec_set (front ++ x :: rest) (length front) y = Done (front ++ y :: rest).
Proof.
  unfold vec_set. rewrite length_app. simpl length. rewrite (proj2 (Nat.ltb_lt _ _)) by lia. simpl.
  by rewrite <-(Nat.add_0_r (length front)), insert_app_r.
Qed.

(** The first pass puts what it can read in its place and collects the rest. *)
Lemma fold_pass (step : list (option R) * list X * list I → nat * K → exec (result _ E))
    (pass : K → exec (result (R + X) E)) (mk : nat → K → I) :
  (∀ front rest xs idx k, step (front ++ None :: rest, xs, idx) (length front, k) =
    (o ←? pass k; Done (Ok match o with
       | inl r => (front ++ Some r :: rest, xs, idx)
       | inr x => (front ++ None :: rest, xs ++ [x], idx ++ [mk (length front) k])
       end))) →
  ∀ ks front xs idx,
    try_foldM step (front ++ replicate (length ks) None, xs, idx) (zip (seq (length front) (length ks)) ks) =
    (os ←? try_mapM pass ks;
     Done (Ok (front ++ slots os, xs ++ fetched os, idx ++ positions mk (length front) ks os))).
Proof.
  intros Hstep. induction ks as [|k ks IH]; intros front xs idx; [cbn; rewrite try_exec_ok; cbn; by rewrite !app_nil_r|].
  cbn [length replicate seq zip zip_with try_foldM try_mapM]. rewrite Hstep, !try_exec_assoc.
  destruct (pass k) as [[[r|x]|e]| |]; try done; rewrite !try_exec_ok.
  - specialize (IH (front ++ [Some r]) xs idx). rewrite length_app, Nat.add_1_r, <-!app_assoc in IH. simpl in IH.
    rewrite IH, !try_exec_assoc. unfold try_exec at 1 3. destruct (try_mapM pass ks) as [[os|]| |]; try done. simpl.
    by rewrite <-app_assoc.
  - specialize (IH (front ++ [None]) (xs ++ [x]) (idx ++ [mk (length front) k])).
    rewrite length_app, Nat.add_1_r, <-!app_assoc in IH. simpl in IH.
    rewrite IH, !try_exec_assoc. unfold try_exec at 1 3. destruct (try_mapM pass ks) as [[os|]| |]; try done. simpl.
    by rewrite <-!app_assoc.
Qed.

(** The second pass fills the places that were left. *)
Inductive loaded (F : K → X → O → R → Prop) : list K → list (R + X) → list O → list R → Prop :=
  | loaded_nil : loaded F [] [] [] []
  | loaded_direct k r ks os objs rs : loaded F ks os objs rs → loaded F (k :: ks) (inl r :: os) objs (r :: rs)
  | loaded_fetch k x o r ks os objs rs :
      F k x o r → loaded F ks os objs rs → loaded F (k :: ks) (inr x :: os) (o :: objs) (r :: rs).
Fixpoint items {Y} (mk : nat → K → X → O → Y) (s : nat) (ks : list K) (os : list (R + X)) (objs : list O) : list Y :=
  match ks, os, objs with
  | k :: ks, inl _ :: os, objs => items mk (S s) ks os objs
  | k :: ks, inr x :: os, o :: objs => mk s k x o :: items mk (S s) ks os objs
  | _, _, _ => []
  end.
Lemma fold_fill {Y} F (all : list K) (step : list (option R) → Y → exec (list (option R)))
    (mk : nat → K → X → O → Y) :
  (∀ k x o r front rest, F k x o r → all !! length front = Some k →
     step (front ++ None :: rest) (mk (length front) k x o) = Done (front ++ Some r :: rest)) →
  ∀ ks os objs rs, loaded F ks os objs rs → ∀ pre front, all = pre ++ ks → length front = length pre →
    foldM step (front ++ slots os) (items mk (length front) ks os objs) = Done (front ++ map Some rs).
Proof.
  intros Hstep ks os objs rs. induction 1 as [|k r ks os objs rs H IH|k x o r ks os objs rs HF H IH];
    intros pre front Hall Hlen; cbn [items slots map foldM]; [done|..].
  - specialize (IH (pre ++ [k]) (front ++ [Some r])). rewrite <-!app_assoc in IH. simpl in IH.
    rewrite !length_app, Nat.add_1_r in IH. apply IH; [done|]. simpl. lia.
  - rewrite (Hstep k x o r front) by (rewrite ?Hlen, ?Hall, ?lookup_app_r, ?Nat.sub_diag by done; done).
    rewrite bind_ret_l. specialize (IH (pre ++ [k]) (front ++ [Some r])). rewrite <-!app_assoc in IH. simpl in IH.
    rewrite !length_app, Nat.add_1_r in IH. apply IH; [done|]. simpl. lia.
Qed.
Lemma unwrap_all (rs : list R) : mapM unwrap (map Some rs) = Done rs.
Proof. induction rs as [|r rs IH]; [done|]. simpl. by rewrite IH. Qed.
End vectors.

(** * For signing *)

Definition multi_get_ok (cache : InputReads) : Prop :=
  ∀ keys, ir_multi_get_object_by_key cache keys = try_map (λ k : ObjectKey, ir_get_object_by_key cache k.1 k.2) keys.

Section signing.
Context (cache : InputReads) (Hmulti : multi_get_ok cache) (epoch : Z).

(** Each input by itself. *)
Definition owned_one (r : ObjectRef) : result Object MgoError :=
  o ←! ir_get_object_by_key cache r.1.1 r.1.2;
  match o with Some o => Ok o | None => Err (missing_object_error cache r) end.
Definition signing_pass (k : InputObjectKind) : result (ObjectReadResult + ObjectRef) MgoError :=
  match k with
  | KMovePackage id =>
      p ←! ir_get_package_object cache id;
      match p with
      | Some p => Ok (inl {| input_object_kind := k; read_object_kind := ReadObject p |})
      | None => Err (UserInput (object_not_found_error k))
      end
  | KSharedMoveObject id _ _ =>
      o ←! ir_get_object cache id;
      match o with
      | Some o => Ok (inl {| input_object_kind := k; read_object_kind := ReadObject o |})
      | None =>
          match get_last_shared_object_deletion_info cache id epoch with
          | Some (v, d) => Ok (inl {| input_object_kind := k; read_object_kind := DeletedSharedObject v d |})
          | None => Err (UserInput (object_not_found_error k))
          end
      end
  | KImmOrOwnedMoveObject r => Ok (inr r)
  end.
Definition read_one (k : InputObjectKind) : result ObjectReadResult MgoError :=
  s ←! signing_pass k;
  match s with
  | inl r => Ok r
  | inr r => o ←! owned_one r; Ok {| input_object_kind := k; read_object_kind := ReadObject o |}
  end.
Definition receiving_one (r : ObjectRef) : result ReceivingObjectReadResult MgoError :=
  if have_received_object_at_version cache r.1.1 r.1.2 epoch then
    Ok {| rr_object_ref := r; rr_object := PreviouslyReceivedObject |}
  else
    o ←! ir_get_object cache r.1.1;
    match o with
    | Some o => Ok {| rr_object_ref := r; rr_object := ReceivingObject o |}
    | None => Err (UserInput (ObjectNotFound r.1.1 (Some r.1.2)))
    end.

Lemma found_objects_spec refs objs :
  Forall2 (λ (r : ObjectRef) o, ir_get_object_by_key cache r.1.1 r.1.2 = Ok o) refs objs →
  match found_objects cache (zip objs refs) with
  | Ok os => Forall2 (λ r o, owned_one r = Ok o) refs os
  | Err e => ∃ r, r ∈ refs ∧ owned_one r = Err e
  end.
Proof.
  induction 1 as [|r [o|] refs objs Hr Hall IH]; cbn [zip zip_with found_objects]; [constructor| |].
  - destruct (found_objects cache _); simpl.
    + constructor; [|done]. unfold owned_one. by rewrite Hr.
    + destruct IH as (r' & ? & ?). exists r'. split; [by right|done].
  - exists r. split; [left|]. unfold owned_one. by rewrite Hr.
Qed.
Lemma multi_get_spec refs :
  ∃ res, multi_get_object_with_more_accurate_error_return cache refs = Done res ∧
    match res with
    | Ok os => Forall2 (λ r o, owned_one r = Ok o) refs os
    | Err e => ∃ r, r ∈ refs ∧ owned_one r = Err e
    end.
Proof.
  unfold multi_get_object_with_more_accurate_error_return. rewrite Hmulti.
  pose proof (try_map_spec (λ k : ObjectKey, ir_get_object_by_key cache k.1 k.2) (map fst refs)) as Hm.
  destruct (try_map _ (map fst refs)) as [objs|e].
  - change (map ?f ?l) with (f <$> l) in Hm. rewrite Forall2_fmap_l in Hm. rewrite try_exec_ok.
    pose proof (found_objects_spec refs objs Hm) as Hf. destruct (found_objects cache (zip objs refs)) as [os|e].
    + rewrite try_exec_ok, (Forall2_length _ _ _ Hf), Nat.eqb_refl. by eexists.
    + by eexists.
  - eexists. split; [done|]. destruct Hm as (k & Hk & He). apply list_elem_of_fmap in Hk as (r & -> & Hr).
    exists r. split; [done|]. unfold owned_one. by rewrite He.
Qed.
Lemma receiving_spec refs :
  match read_receiving_objects cache refs epoch with
  | Ok l => Forall2 (λ r o, receiving_one r = Ok o) refs l
  | Err e => ∃ r, r ∈ refs ∧ receiving_one r = Err e
  end.
Proof.
  assert (read_receiving_objects cache refs epoch = try_map receiving_one refs) as ->.
  { induction refs as [|r refs IH]; [done|]. cbn [read_receiving_objects try_map]. rewrite IH.
    unfold receiving_one. by destruct (have_received_object_at_version cache r.1.1 r.1.2 epoch), (ir_get_object cache r.1.1) as [[]|]. }
  apply try_map_spec.
Qed.
Lemma signing_fold kinds :
  try_foldM (read_for_signing_step cache epoch) (replicate (length kinds) None, [], []) (enumerate kinds) =
  (os ←? Done (try_map signing_pass kinds);
   Done (Ok (slots os, fetched os, positions (λ i _, i) 0 kinds os))).
Proof.
  pose proof (fold_pass (read_for_signing_step cache epoch) (λ k, Done (signing_pass k)) (λ i _, i)) as Hf.
  assert (∀ l, try_mapM (λ k, Done (signing_pass k)) l = Done (try_map signing_pass l)) as Hm.
  { induction l as [|k l IH]; [done|]. cbn [try_mapM try_map]. rewrite IH. unfold try_exec.
    destruct (signing_pass k); [|done]. simpl. by destruct (try_map signing_pass l). }
  specialize (λ H, Hf H kinds [] [] []). simpl in Hf. rewrite Hm in Hf. apply Hf.
  intros front rest xs idx [id|r|id v m]; simpl; unfold try_exec; rewrite !bind_ret_l.
  - destruct (ir_get_package_object cache id) as [[p|]|]; simpl; try done. by rewrite vec_set_at.
  - done.
  - destruct (ir_get_object cache id) as [[p|]|]; simpl; try done; [by rewrite vec_set_at|].
    destruct (get_last_shared_object_deletion_info cache id epoch) as [[]|]; simpl; [by rewrite vec_set_at|done].
Qed.

Definition fetched_owned (k : InputObjectKind) (x : ObjectRef) (o : Object) (r : ObjectReadResult) : Prop :=
  r = {| input_object_kind := k; read_object_kind := ReadObject o |}.
Lemma signing_loaded kinds os :
  Forall2 (λ k s, signing_pass k = Ok s) kinds os → ∀ objs,
  Forall2 (λ r o, owned_one r = Ok o) (fetched os) objs →
  ∃ rs, loaded fetched_owned kinds os objs rs ∧ Forall2 (λ k r, read_one k = Ok r) kinds rs ∧
    zip (positions (λ i _, i) 0 kinds os) objs = items (λ i _ _ o, (i, o)) 0 kinds os objs.
Proof.
  generalize 0%nat. intros s H. revert s. induction H as [|k o kinds os Hk Hall IH]; intros s objs Hobjs.
  { exists []. apply Forall2_nil_inv_l in Hobjs as ->. split_and!; constructor. }
  destruct o as [r|x]; cbn [fetched list_omap omap positions items] in *.
  - destruct (IH (S s) objs Hobjs) as (rs & Hl & Hr & Hz). exists (r :: rs). split_and!; [by constructor| |done].
    constructor; [|done]. unfold read_one. by rewrite Hk.
  - change (omap _ (inr x :: os)) with (x :: fetched os) in Hobjs.
    apply Forall2_cons_inv_l in Hobjs as (o & objs' & Ho & Hobjs & ->).
    destruct (IH (S s) objs' Hobjs) as (rs & Hl & Hr & Hz).
    exists ({| input_object_kind := k; read_object_kind := ReadObject o |} :: rs). split_and!.
    + by constructor.
    + constructor; [|done]. unfold read_one. rewrite Hk. simpl. by rewrite Ho.
    + cbn [zip zip_with]. by f_equal.
Qed.
Lemma fetched_error kinds os x e :
  Forall2 (λ k s, signing_pass k = Ok s) kinds os → x ∈ fetched os → owned_one x = Err e →
  ∃ k, k ∈ kinds ∧ read_one k = Err e.
Proof.
  intros Hall Hx He. unfold fetched in Hx. apply list_elem_of_omap in Hx as ([|x'] & Hin & [= ->]).
  apply list_elem_of_lookup in Hin as [i Hi]. destruct (Forall2_lookup_r _ _ _ _ _ Hall Hi) as (k & Hk & Hp).
  exists k. split; [by eapply list_elem_of_lookup_2|]. unfold read_one. rewrite Hp. simpl. by rewrite He.
Qed.
Lemma signing_reads kinds refs :
  ∃ res, read_objects_for_signing cache kinds refs epoch = Done res ∧
    match res with
    | Ok (l, received) => Forall2 (λ k r, read_one k = Ok r) kinds l ∧
        Forall2 (λ r o, receiving_one r = Ok o) refs received
    | Err e => (∃ k, k ∈ kinds ∧ read_one k = Err e) ∨ (∃ r, r ∈ refs ∧ receiving_one r = Err e)
    end.
Proof.
  unfold read_objects_for_signing. rewrite signing_fold, try_exec_assoc.
  pose proof (try_map_spec signing_pass kinds) as Hp. destruct (try_map signing_pass kinds) as [os|e].
  2: { eexists. split; [done|]. left. destruct Hp as (k & Hk & He). exists k. split; [done|].
       unfold read_one. by rewrite He. }
  rewrite !try_exec_ok. destruct (multi_get_spec (fetched os)) as ([objs|e] & -> & Hm).
  2: { eexists. split; [done|]. left. destruct Hm as (x & Hx & He). by eapply fetched_error. }
  rewrite try_exec_ok, (Forall2_length _ _ _ Hm), Nat.eqb_refl. simpl assert. rewrite bind_ret_l.
  destruct (signing_loaded kinds os Hp objs Hm) as (rs & Hl & Hr & ->).
  pose proof (fold_fill fetched_owned kinds (λ input_results (io : nat * Object),
    kind ← unwrap (kinds !! io.1);
    vec_set input_results io.1 (Some {| input_object_kind := kind; read_object_kind := ReadObject io.2 |}))
    (λ i _ _ o, (i, o))) as Hfill.
  specialize (λ H, Hfill H kinds os objs rs Hl [] [] eq_refl eq_refl). simpl app in Hfill. simpl length in Hfill. rewrite Hfill, bind_ret_l.
  2: { intros k x o r front rest -> Hk. cbn [fst snd]. rewrite Hk. simpl unwrap. rewrite bind_ret_l. apply vec_set_at. }
  pose proof (receiving_spec refs) as Hrec. destruct (read_receiving_objects cache refs epoch) as [l|e].
  - rewrite try_exec_ok. simpl app. rewrite unwrap_all, bind_ret_l. by eexists.
  - eexists. split; [done|]. by right.
Qed.
End signing.

(** * For execution *)

Section execution.
Context (cache : InputReads) (Hmulti : multi_get_ok cache) (epoch : Z).
Context (shared_locks : list (ObjectID * SequenceNumber)).

(** What an input is read as, when it can be. *)
Definition reads_as (k : InputObjectKind) (r : ObjectReadResult) : Prop :=
  input_object_kind r = k ∧
  match k with
  | KMovePackage id => ∃ p, ir_get_package_object cache id = Ok (Some p) ∧ read_object_kind r = ReadObject p
  | KImmOrOwnedMoveObject ref =>
      ∃ o, ir_get_object_by_key cache ref.1.1 ref.1.2 = Ok (Some o) ∧ read_object_kind r = ReadObject o
  | KSharedMoveObject id _ _ =>
      ∃ v o, btree_collect shared_locks !! id = Some v ∧ ir_get_object_by_key cache id v = Ok o ∧
        match o with
        | Some o => read_object_kind r = ReadObject o
        | None => ∃ d, deleted_shared_object_previous_tx_digest cache id v epoch = Some d ∧
            read_object_kind r = DeletedSharedObject v d
        end
  end.
Definition execution_pass (k : InputObjectKind) : exec (result (ObjectReadResult + ObjectKey) MgoError) :=
  match k with
  | KMovePackage id =>
      p ←? Done (ir_get_package_object cache id);
      p ← unwrap p;
      Done (Ok (inl {| input_object_kind := k; read_object_kind := ReadObject p |}))
  | KImmOrOwnedMoveObject r => Done (Ok (inr r.1))
  | KSharedMoveObject id _ _ =>
      v ← unwrap (btree_collect shared_locks !! id);
      Done (Ok (inr (id, v)))
  end.
Definition fetched_as (k : InputObjectKind) (key : ObjectKey) (o : option Object) (r : ObjectReadResult) : Prop :=
  fetched_result cache epoch o key k = Done r.

Lemma execution_fold kinds :
  try_foldM (read_for_execution_step cache (Ok shared_locks)) (replicate (length kinds) None, [], []) (enumerate kinds) =
  (os ←? try_mapM execution_pass kinds; Done (Ok (slots os, fetched os, positions pair 0 kinds os))).
Proof.
  pose proof (fold_pass (read_for_execution_step cache (Ok shared_locks)) execution_pass pair) as Hf.
  specialize (λ H, Hf H kinds [] [] []). simpl in Hf. apply Hf.
  intros front rest xs idx [id|r|id v m]; simpl; unfold try_exec; rewrite ?bind_ret_l.
  - destruct (ir_get_package_object cache id) as [[p|]|]; simpl; try done. by rewrite vec_set_at.
  - done.
  - destruct (btree_collect shared_locks !! id); done.
Qed.
(** What the two passes meet on inputs that can be read. *)
Definition prepared (s : nat) (kinds : list InputObjectKind) (rs : list ObjectReadResult) : Prop :=
  ∃ os objs, try_mapM execution_pass kinds = Done (Ok os) ∧
    try_map (λ k : ObjectKey, ir_get_object_by_key cache k.1 k.2) (fetched os) = Ok objs ∧
    loaded fetched_as kinds os objs rs ∧
    length objs = length (fetched os) ∧ length objs = length (positions pair s kinds os) ∧
    zip (zip objs (fetched os)) (positions pair s kinds os) =
      items (λ i k x o, ((o, x), (i, k))) s kinds os objs.
Lemma prepared_direct s k r kinds rs :
  execution_pass k = Done (Ok (inl r)) → prepared (S s) kinds rs → prepared s (k :: kinds) (r :: rs).
Proof.
  intros Hpass (os & objs & Hp & Hm & Hl & Hlen & Hlen' & Hz). exists (inl r :: os), objs. cbn [try_mapM].
  rewrite Hpass, try_exec_ok, Hp, try_exec_ok. split_and!; try done. by constructor.
Qed.
Lemma prepared_fetch s k x o r kinds rs :
  execution_pass k = Done (Ok (inr x)) → ir_get_object_by_key cache x.1 x.2 = Ok o → fetched_as k x o r →
  prepared (S s) kinds rs → prepared s (k :: kinds) (r :: rs).
Proof.
  intros Hpass Ho Hf (os & objs & Hp & Hm & Hl & Hlen & Hlen' & Hz). exists (inr x :: os), (o :: objs).
  cbn [try_mapM]. rewrite Hpass, try_exec_ok, Hp, try_exec_ok.
  change (fetched (inr x :: os)) with (x :: fetched os). cbn [try_map]. rewrite Ho, Hm.
  split_and!; try done; [by constructor|simpl; lia..|]. cbn [zip zip_with positions items]. by f_equal.
Qed.
Lemma execution_prepared kinds rs : Forall2 reads_as kinds rs → ∀ s, prepared s kinds rs.
Proof.
  induction 1 as [|k [k' rk] kinds rs [Hk Hr] Hall IH]; intros s.
  { exists [], []. split_and!; constructor. }
  simpl in Hk. subst k'. specialize (IH (S s)). destruct k as [id|ref|id iv m]; cbn [read_object_kind] in Hr.
  - destruct Hr as (p & Hpk & ->). apply prepared_direct; [|done]. cbn. by rewrite Hpk.
  - destruct Hr as (o & Ho & ->). by apply (prepared_fetch s _ ref.1 (Some o)).
  - destruct Hr as (v & o & Hv & Ho & Hrk). apply (prepared_fetch s _ (id, v) o); [cbn; by rewrite Hv|done| |done].
    unfold fetched_as, fetched_result. destruct o as [o|]; [by rewrite Hrk|]. destruct Hrk as (d & Hd & ->).
    cbn [snd]. by rewrite Hd.
Qed.
Lemma execution_reads kinds rs :
  Forall2 reads_as kinds rs → read_objects_for_execution cache (Ok shared_locks) kinds epoch = Done (Ok rs).
Proof.
  intros Hall. destruct (execution_prepared kinds rs Hall 0) as (os & objs & Hp & Hm & Hl & Hlen & Hlen' & Hz).
  unfold read_objects_for_execution. rewrite execution_fold, Hp, !try_exec_ok, Hmulti, Hm, try_exec_ok.
  rewrite <-Hlen, <-Hlen', Nat.eqb_refl. simpl assert. rewrite bind_ret_l, Hz.
  pose proof (fold_fill fetched_as kinds (λ results (f : option Object * ObjectKey * (nat * InputObjectKind)),
    r ← fetched_result cache epoch f.1.1 f.1.2 f.2.2; vec_set results f.2.1 (Some r))
    (λ i k x o, ((o, x), (i, k)))) as Hfill.
  specialize (λ H, Hfill H kinds os objs rs Hl [] [] eq_refl eq_refl). simpl app in Hfill. simpl length in Hfill.
  rewrite Hfill, bind_ret_l; [by rewrite unwrap_all|].
  intros k x o r front rest Hf _. cbn [fst snd]. rewrite Hf, bind_ret_l. apply vec_set_at.
Qed.
End execution.

(** * From the database *)

Section tables.
Context {Hbcs : Bcs} {Hhash : ObjectHash}.

Lemma table_reads_multi tables : multi_get_ok (table_reads tables).
Proof.
  intros keys. cbn [ir_multi_get_object_by_key ir_get_object_by_key table_reads].
  induction keys as [|k keys IH]; [done|]. cbn [multi_get_object_by_key try_map]. by rewrite IH.
Qed.
Lemma package_from_store_ok tables id p :
  sound tables → package_from_store (store_get_object tables) id = Ok (Some p) → object_id p = Done id.
Proof.
  intros Hs. destruct (sound_latest tables id Hs) as (r & Hr & Hid). unfold package_from_store. rewrite Hr. simpl.
  destruct r as [o|]; [|done]. destruct (is_package o); [|done]. intros [= <-]. by apply Hid.
Qed.
Lemma read_one_ok tables epoch k r :
  sound tables → read_one (table_reads tables) epoch k = Ok r → input_object_kind r = k ∧ read_ok r.
Proof.
  intros Hs Hr. unfold read_one in Hr. apply and_then_Ok in Hr as (s & Hp & Hr). destruct k as [id|[[id v] d]|id v m]; simpl in Hp.
  - apply and_then_Ok in Hp as ([p|] & Hp & Hs'); [|done]. injection Hs' as <-. injection Hr as <-.
    split; [done|]. cbn. by eapply package_from_store_ok.
  - injection Hp as <-. apply and_then_Ok in Hr as (o & Ho & [= <-]). split; [done|].
    unfold owned_one in Ho. apply and_then_Ok in Ho as ([o'|] & Ho & Hs'); [|done]. injection Hs' as ->. cbn in *.
    destruct (sound_by_key tables id v Hs) as (r & Hr & Hid). rewrite Ho in Hr. injection Hr as <-. by apply Hid.
  - apply and_then_Ok in Hp as ([o|] & Ho & Hs'); cbn in Ho.
    + injection Hs' as <-. injection Hr as <-. split; [done|]. cbn.
      destruct (sound_latest tables id Hs) as (r & Hr & Hid). rewrite Ho in Hr. injection Hr as <-. by apply Hid.
    + destruct (get_last_shared_object_deletion_info _ _ _) as [[]|]; [|done]. injection Hs' as <-.
      by injection Hr as <-.
Qed.

(** C20: Loading a transaction's inputs for signing.  On a database whose entries
    can be read it does not panic.  If it succeeds, there is one result for each
    input, in the order of the inputs, each what reading that input by itself
    gives, with the identifier and for owned objects the version that was asked
    for; if it fails, the error is that of reading one of the inputs, or one of
    the objects to be received. *)
Theorem signing_loads_inputs tables epoch kinds refs :
  sound tables →
  ∃ res, read_objects_for_signing (table_reads tables) kinds refs epoch = Done res ∧
    match res with
    | Ok (l, received) =>
        map input_object_kind l = kinds ∧ Forall read_ok l ∧
        Forall2 (λ k r, read_one (table_reads tables) epoch k = Ok r) kinds l ∧
        Forall2 (λ r o, receiving_one (table_reads tables) epoch r = Ok o) refs received
    | Err e => (∃ k, k ∈ kinds ∧ read_one (table_reads tables) epoch k = Err e) ∨
        (∃ r, r ∈ refs ∧ receiving_one (table_reads tables) epoch r = Err e)
    end.
Proof.
  intros Hs. destruct (signing_reads (table_reads tables) (table_reads_multi tables) epoch kinds refs) as (res & -> & Hres).
  exists res. split; [done|]. destruct res as [[l received]|]; [|done]. destruct Hres as [Hl Hr].
  split_and!; [..|done|done]; clear Hr received.
  - induction Hl as [|k r kinds l Hk Hl IH]; [done|]. simpl. f_equal; [|done]. by eapply read_one_ok.
  - induction Hl as [|k r kinds l Hk Hl IH]; constructor; [|done]. by eapply read_one_ok.
Qed.

(** The keys of the inputs are available, as the transaction manager has it; the
    owned versions a certificate names have not been removed, its packages are
    packages, and a shared object that was removed at the version assigned to
    the transaction carries the marker of its deletion. *)
Record loadable (tables : AuthorityPerpetualTables) (epoch : Z) (locks : list (ObjectID * SequenceNumber))
    (kinds : list InputObjectKind) (keys receiving : gset InputKey) : Prop := {
  ld_sound : sound tables;
  ld_keys : get_input_object_keys (btree_collect locks) kinds = Done keys;
  ld_available : ∀ key, key ∈ keys → input_available (store_reads tables) receiving epoch key = true;
  ld_receiving : keys ## receiving;
  ld_owned : ∀ r : ObjectRef, KImmOrOwnedMoveObject r ∈ kinds →
    tb_objects tables !! r.1 ≠ Some StoreDeleted ∧ tb_objects tables !! r.1 ≠ Some StoreWrapped ∧
    ∀ d, store_get_marker_value tables r.1.1 r.1.2 epoch ≠ Some (SharedDeleted d);
  ld_packages : ∀ id o, KMovePackage id ∈ kinds → store_get_object tables id = Ok (Some o) → is_package o = true;
  ld_removed : ∀ id iv m v, KSharedMoveObject id iv m ∈ kinds → btree_collect locks !! id = Some v →
    tb_objects tables !! (id, v) = Some StoreDeleted ∨ tb_objects tables !! (id, v) = Some StoreWrapped →
    ∃ d, store_get_marker_value tables id v epoch = Some (SharedDeleted d);
}.

Lemma loadable_key tables epoch locks kinds keys receiving k :
  loadable tables epoch locks kinds keys receiving → k ∈ kinds →
  ∃ key, get_input_object_key (btree_collect locks) k = Done key ∧
    input_available (store_reads tables) receiving epoch key = true ∧ (key ∉ receiving).
Proof.
  intros Hld Hk. pose proof (ld_keys _ _ _ _ _ _ Hld) as Hkeys. unfold get_input_object_keys in Hkeys.
  apply bind_Done in Hkeys as (l & Hl%mapM_Done & [= <-]). apply list_elem_of_lookup in Hk as [i Hi].
  destruct (Forall2_lookup_l _ _ _ _ _ Hl Hi) as (key & Hkey & Hg). exists key.
  assert (key ∈ (list_to_set l : gset InputKey)) as Hin by (apply elem_of_list_to_set; by eapply list_elem_of_lookup_2).
  split_and!; [done|by apply (ld_available _ _ _ _ _ _ Hld)|].
  intros Hr. by apply (ld_receiving _ _ _ _ _ _ Hld key).
Qed.
(** A versioned key that is available: there is an entry, or a marker. *)
Lemma versioned_available_cases tables receiving epoch id v :
  VersionedObject id v ∉ receiving → input_available (store_reads tables) receiving epoch (VersionedObject id v) = true →
  is_Some (tb_objects tables !! (id, v)) ∨ ∃ d, store_get_marker_value tables id v epoch = Some (SharedDeleted d).
Proof.
  intros Hr. unfold input_available, versioned_available. cbn [object_exists_by_key store_reads].
  unfold store_object_exists_by_key. case_bool_decide as Hso; [by left|].
  rewrite bool_decide_eq_false_2 by done. unfold get_deleted_shared_object_previous_tx_digest.
  cbn [get_marker_value store_reads key_id]. intros [d Hd]%bool_decide_eq_true_1. right.
  destruct (store_get_marker_value tables id v epoch) as [[| |d']|]; try done. by exists d'.
Qed.
Lemma package_available tables receiving epoch id :
  sound tables → input_available (store_reads tables) receiving epoch (PackageKey id) = true →
  ∃ o, store_get_object tables id = Ok (Some o) ∧ object_id o = Done id.
Proof.
  intros Hs. unfold input_available, unversioned_available, store_get_object.
  cbn [get_latest_object_ref_or_tombstone store_reads key_id]. unfold latest_object_ref_or_tombstone.
  destruct (get_latest_object_or_tombstone tables id) as [[key so]|] eqn:He; [|done].
  apply latest_lookup in He as [Hk Hso]. destruct so as [v| |]; [|vm_compute; discriminate..].
  intros _. destruct (sound_entry tables key (StoreValue v) Hs Hso) as (r & Hr & Hid). rewrite Hr.
  destruct r as [o|].
  - exists o. split; [done|]. rewrite <-Hk. by apply Hid.
  - unfold table_object in Hr. by destruct (construct_object tables key v).
Qed.
Lemma loadable_reads tables epoch locks kinds keys receiving k :
  loadable tables epoch locks kinds keys receiving → k ∈ kinds →
  ∃ r, reads_as (table_reads tables) epoch locks k r ∧ read_ok r.
Proof.
  intros Hld Hin. destruct (loadable_key _ _ _ _ _ _ _ Hld Hin) as (key & Hkey & Ha & Hnr).
  pose proof (ld_sound _ _ _ _ _ _ Hld) as Hs. destruct k as [id|[[id v] d]|id iv m]; cbn [get_input_object_key] in Hkey.
  - injection Hkey as <-. destruct (package_available _ _ _ _ Hs Ha) as (o & Ho & Hid).
    exists {| input_object_kind := KMovePackage id; read_object_kind := ReadObject o |}. split; [|done].
    split; [done|]. exists o. split; [|done]. cbn. unfold package_from_store. rewrite Ho. simpl.
    by rewrite (ld_packages _ _ _ _ _ _ Hld id o Hin Ho).
  - injection Hkey as <-. cbn [fst snd] in *.
    destruct (ld_owned _ _ _ _ _ _ Hld _ Hin) as (Hnd & Hnw & Hnm). cbn [fst snd] in Hnd, Hnw, Hnm.
    destruct (versioned_available_cases _ _ _ _ _ Hnr Ha) as [[so Hso]|Hmark].
    + destruct so as [sv| |]; try done. destruct (Hs _ _ Hso) as (o & so & Hso' & Ho & Hid). rewrite Hso in Hso'.
      injection Hso' as <-. exists {| input_object_kind := KImmOrOwnedMoveObject (id, v, d); read_object_kind := ReadObject o |}.
      split; [|done]. split; [done|]. exists o. split; [|done]. cbn. unfold store_get_object_by_key. by rewrite Hso.
    + destruct Hmark as [d' Hd']. by destruct (Hnm d').
  - destruct (btree_collect locks !! id) as [v|] eqn:Hv; [|done]. injection Hkey as <-.
    assert (∀ o, store_get_object_by_key tables id v = Ok (Some o) → object_id o = Done id →
      ∃ r, reads_as (table_reads tables) epoch locks (KSharedMoveObject id iv m) r ∧ read_ok r) as Hread.
    { intros o Ho Hid. exists {| input_object_kind := KSharedMoveObject id iv m; read_object_kind := ReadObject o |}.
      split; [|done]. split; [done|]. by exists v, (Some o). }
    assert (∀ d, store_get_object_by_key tables id v = Ok None → store_get_marker_value tables id v epoch = Some (SharedDeleted d) →
      ∃ r, reads_as (table_reads tables) epoch locks (KSharedMoveObject id iv m) r ∧ read_ok r) as Hdel.
    { intros d Ho Hd. exists {| input_object_kind := KSharedMoveObject id iv m; read_object_kind := DeletedSharedObject v d |}.
      split; [|done]. split; [done|]. exists v, None. split_and!; [done..|]. exists d. split; [|done].
      unfold deleted_shared_object_previous_tx_digest. cbn. by rewrite Hd. }
    unfold store_get_object_by_key in Hread, Hdel. destruct (tb_objects tables !! (id, v)) as [[sv| |]|] eqn:Hso.
    + destruct (Hs _ _ Hso) as (o & so & Hso' & Ho & Hid & _). rewrite Hso in Hso'. injection Hso' as <-. by apply (Hread o).
    + destruct (ld_removed _ _ _ _ _ _ Hld id iv m v Hin Hv) as [d Hd]; [by left|]. by apply (Hdel d).
    + destruct (ld_removed _ _ _ _ _ _ Hld id iv m v Hin Hv) as [d Hd]; [by right|]. by apply (Hdel d).
    + destruct (versioned_available_cases _ _ _ _ _ Hnr Ha) as [[? Hso']|[d Hd]]; [congruence|]. by apply (Hdel d).
Qed.

(** C19: A transaction the manager has found ready can be loaded.  If the keys of
    its inputs are available by the manager's own check, reading the inputs for
    execution does not panic and gives one result for each input, in order: the
    latest package, the version that was named or assigned, or for a shared
    object that has been deleted the transaction that deleted it. *)
Theorem available_inputs_load tables epoch locks kinds keys receiving :
  loadable tables epoch locks kinds keys receiving →
  ∃ rs, read_objects_for_execution (table_reads tables) (Ok locks) kinds epoch = Done (Ok rs) ∧
    map input_object_kind rs = kinds ∧ Forall read_ok rs ∧
    Forall2 (reads_as (table_reads tables) epoch locks) kinds rs.
Proof.
  intros Hld.
  assert (∃ rs, Forall2 (λ k r, reads_as (table_reads tables) epoch locks k r ∧ read_ok r) kinds rs) as [rs Hrs].
  { assert (∀ k, k ∈ kinds → ∃ r, reads_as (table_reads tables) epoch locks k r ∧ read_ok r) as Hex
      by (intros k Hk; by eapply loadable_reads).
    clear Hld. induction kinds as [|k kinds IH]; [by exists []|].
    destruct IH as [rs Hrs]; [intros; apply Hex; by right|]. destruct (Hex k ltac:(left)) as [r Hr].
    exists (r :: rs). by constructor. }
  exists rs. assert (Forall2 (reads_as (table_reads tables) epoch locks) kinds rs) as Hall
    by (eapply Forall2_impl; [exact Hrs|]; by intros k r [? _]).
  split_and!; [|..|done].
  - apply execution_reads; [apply table_reads_multi|done].
  - clear Hrs Hld. induction Hall as [|k r kinds rs [Hk _] Hall IH]; [done|]. simpl. by f_equal.
  - clear Hall Hld. induction Hrs as [|k r kinds rs [_ Hk] Hrs IH]; by constructor.
Qed.
End tables.

(** * The package cache *)

Section package_cache.
Context {Hlru : LruCache} {Hlaws : LruCacheLaws}.

Definition coherent (get_object : ObjectID → result (option Object) MgoError) (cache : lru) : Prop :=
  ∀ id p, lru_peek cache id = Some p → get_object id = Ok (Some p) ∧ is_package p = true.

Lemma push_coherent (get_object : ObjectID → result (option Object) MgoError) cache id p :
  get_object id = Ok (Some p) → is_package p = true →
  ∀ stale : list ObjectID, (∀ id' p', lru_peek cache id' = Some p' → id' = id ∨ id' ∈ stale ∨ get_object id' = Ok (Some p') ∧ is_package p' = true) →
  ∀ id' p', lru_peek (lru_push cache id p) id' = Some p' → id' ∈ stale ∨ get_object id' = Ok (Some p') ∧ is_package p' = true.
Proof.
  intros Hget Hp stale Hall id' p' Hpeek. destruct (decide (id = id')) as [<-|Hne].
  - rewrite lru_push_same in Hpeek. injection Hpeek as <-. by right.
  - destruct (lru_push_other cache id p id' Hne) as [Hk|Hk]; rewrite Hk in Hpeek; [|done].
    destruct (Hall id' p' Hpeek) as [->|?]; [done|done].
Qed.
Lemma cache_get_ok get_object cache id :
  coherent get_object cache →
  let '(r, cache') := cache_get_package_object get_object cache id in
  r = package_from_store get_object id ∧ coherent get_object cache'.
Proof.
  intros Hc. unfold cache_get_package_object, package_from_store. destruct (lru_peek cache id) as [p|] eqn:Hpeek.
  - destruct (Hc id p Hpeek) as [-> Hp]. simpl. by rewrite Hp.
  - destruct (get_object id) as [[p|]|] eqn:Hget; simpl; try done. destruct (is_package p) eqn:Hp; [|done].
    split; [done|]. intros id' p' Hp'. destruct (push_coherent get_object cache id p Hget Hp [] ) with id' p' as [Hn|?]; try done.
    + intros i q Hq. right. right. by apply Hc.
    + by apply elem_of_nil in Hn.
Qed.
Lemma reload_ok (get_object : ObjectID → result (option Object) MgoError) (ids : list ObjectID) : ∀ cache,
  (∀ id p, lru_peek cache id = Some p → id ∈ ids ∨ get_object id = Ok (Some p) ∧ is_package p = true) →
  (∀ id, id ∈ ids → match get_object id with
     | Ok (Some p) => is_package p = true
     | Ok None => lru_peek cache id = None
     | Err _ => False
     end) →
  ∃ cache', force_reload_system_packages get_object cache ids = Done cache' ∧ coherent get_object cache'.
Proof.
  unfold force_reload_system_packages. induction ids as [|id ids IH]; intros cache Hall Hids.
  { exists cache. split; [done|]. intros id p Hp. by destruct (Hall id p Hp) as [?%elem_of_nil|?]. }
  cbn [foldM]. pose proof (Hids id ltac:(left)) as Hid. destruct (get_object id) as [[p|]|] eqn:Hget; [|..|done].
  - rewrite Hid. simpl assert. rewrite !bind_ret_l. apply IH.
    + apply push_coherent; [done..|]. intros id' p' Hp'. destruct (Hall id' p' Hp') as [[->|?]%elem_of_cons|?]; tauto.
    + intros id' Hin. specialize (Hids id' ltac:(by right)). destruct (get_object id') as [[p'|]|] eqn:Hget'; try done.
      destruct (lru_push_other cache id p id') as [->| ->]; [congruence|done|done].
  - rewrite bind_ret_l. apply IH; [|intros; apply Hids; by right].
    intros id' p' Hp'. destruct (Hall id' p' Hp') as [[->|?]%elem_of_cons|?]; [|tauto..]. congruence.
Qed.

(** C33: The package cache answers what the store would.  When the packages in
    the store change only at the identifiers that are reloaded, reloading them
    does not panic, and from then on every lookup through the cache returns what
    reading the store returns, whatever the cache has dropped, and keeps it so. *)
Theorem package_cache_coherent (get_old get_new : ObjectID → result (option Object) MgoError) cache (ids : list ObjectID) :
  coherent get_old cache →
  (∀ id p, id ∉ ids → get_old id = Ok (Some p) → is_package p = true → get_new id = Ok (Some p)) →
  (∀ id, id ∈ ids → match get_new id with
     | Ok (Some p) => is_package p = true
     | Ok None => lru_peek cache id = None
     | Err _ => False
     end) →
  ∃ cache', force_reload_system_packages get_new cache ids = Done cache' ∧ coherent get_new cache' ∧
    ∀ id, let '(r, cache'') := cache_get_package_object get_new cache' id in
      r = package_from_store get_new id ∧ coherent get_new cache''.
Proof.
  intros Hc Hsame Hids. destruct (reload_ok get_new ids cache) as (cache' & Hr & Hc'); [|done|].
  - intros id p Hp. destruct (decide (id ∈ ids)) as [|Hn]; [by left|]. destruct (Hc id p Hp). right. split; [|done].
    by apply Hsame.
  - exists cache'. split_and!; [done..|]. intros id. by apply cache_get_ok.
Qed.
End package_cache.
