(* ===== verification/StoreExample.v ===== *)
(** The database of [StoreTheorems] around the transaction of
    [TransactionExample]: it deletes an object and a coin, changes a coin and
    creates an object; contents are stored separately. *)
From stdpp Require Import countable strings.
From S2P Require Import Prelude MapSums Objects Errors.
From S2P Require Import MgoGas TransactionData TemporaryStore ExecutionEngine.
From S2P Require Import GasConservation GasExample Effects EffectsTheorems.
From S2P Require Import CheckedEffects TransactionExample TransactionManager ObjectReads.
From S2P Require Import ObjectLocks StoreObjects AuthorityTables TransactionOutputs.
From S2P Require Import StoreCommit StoreTheorems InputLoader LoaderTheorems.
From S2P Require Import CheckedInputs.

(** * A serialization *)

Fixpoint tag_tree (t : Tag.TypeTag) : gen_tree (Z + string) :=
  match t with
  | Tag.Bool => GenNode 0 [] | Tag.U8 => GenNode 1 [] | Tag.U64 => GenNode 2 []
  | Tag.U128 => GenNode 3 [] | Tag.Address => GenNode 4 [] | Tag.Signer => GenNode 5 []
  | Tag.Vector t => GenNode 6 [tag_tree t]
  | Tag.Struct (Tag.mkStructTag a m n ps) =>
      GenNode 7 (GenLeaf (inl a) :: GenLeaf (inr m) :: GenLeaf (inr n) :: map tag_tree ps)
  | Tag.U16 => GenNode 8 [] | Tag.U32 => GenNode 9 [] | Tag.U256 => GenNode 10 []
  end.
Fixpoint tree_tag (g : gen_tree (Z + string)) : Tag.TypeTag :=
  match g with
  | GenNode 0 _ => Tag.Bool | GenNode 1 _ => Tag.U8 | GenNode 2 _ => Tag.U64
  | GenNode 3 _ => Tag.U128 | GenNode 4 _ => Tag.Address | GenNode 5 _ => Tag.Signer
  | GenNode 6 [t] => Tag.Vector (tree_tag t)
  | GenNode 7 (GenLeaf (inl a) :: GenLeaf (inr m) :: GenLeaf (inr n) :: ps) =>
      Tag.Struct (Tag.mkStructTag a m n (map tree_tag ps))
  | GenNode 8 _ => Tag.U16 | GenNode 9 _ => Tag.U32 | _ => Tag.U256
  end.
Lemma tag_tree_roundtrip : ∀ t, tree_tag (tag_tree t) = t.
Proof.
  fix IH 1. intros [| | | | | |t|[a m n ps]| | |]; try reflexivity; simpl.
  - by rewrite IH.
  - do 2 f_equal. induction ps as [|p ps IHps]; [done|]. simpl. by rewrite IH, IHps.
Qed.
Definition type_tree (ty : MoveObjectType) : gen_tree (Z + string) :=
  match ty with
  | Other s => GenNode 0 [tag_tree (Tag.Struct s)] | GasCoin => GenNode 1 [] | StakedMgo => GenNode 2 []
  | Coin t => GenNode 3 [tag_tree t]
  end.
Definition tree_type (g : gen_tree (Z + string)) : MoveObjectType :=
  match g with
  | GenNode 0 [t] => match tree_tag t with Tag.Struct s => Other s | _ => GasCoin end
  | GenNode 2 _ => StakedMgo
  | GenNode 3 [t] => Coin (tree_tag t)
  | _ => GasCoin
  end.
Lemma type_tree_roundtrip ty : tree_type (type_tree ty) = ty.
Proof. destruct ty; try done; unfold type_tree, tree_type; by rewrite tag_tree_roundtrip. Qed.

#[export] Instance example_bcs : Bcs := {|
  bcs_content m :=
    Z.pos (encode (type_tree (smo_type m))) :: Z.b2z (smo_has_public_transfer m) :: smo_contents m;
  bcs_parse l :=
    match l with
    | Z.pos p :: b :: c => t ← decode p; Some (tree_type t, b =? 1, c)
    | _ => None
    end |}.
#[export] Instance example_bcs_laws : BcsLaws.
Proof.
  split; [|done]. intros m. simpl. rewrite decode_encode. simpl. rewrite type_tree_roundtrip.
  by destruct (smo_has_public_transfer m).
Qed.
#[export] Instance example_content : ContentHash := λ m, from_le_bytes (smo_contents m).
#[export] Instance example_effects_hash : EffectsHash := λ e, Z.of_nat (length (eff_created e)).

(** * The database before the transaction *)

Definition example_old : list (ObjectID * Object) :=
  [(1001, coin_input 1001 15000000 988000); (1002, coin_input 1002 20000000 988000); (1003, owned_input 1003)].
Definition example_tables : AuthorityPerpetualTables := {|
  tb_objects := btree_collect (map (λ kv, (stored_entry 40 kv).1) example_old);
  tb_indirect := btree_collect
    (omap (λ kv, (λ m, (content_hash m, bcs_content m ++ count_bytes 1)) <$> indirect_of 40 kv.2) example_old);
  tb_locks := btree_collect
    (map (λ kv, ((kv.1, 3, object_digest kv.2), Some {| lock_epoch := 12; lock_tx_digest := 7 |})) example_old);
  tb_transactions := ∅; tb_effects := ∅; tb_executed_effects := ∅; tb_events := ∅; tb_markers := ∅ |}.

Definition example_final : TemporaryStore := updated (ensured example_executed).
Definition example_commit : TransactionDigest * TransactionData := (7, example_tx).
Definition example_into_effects : exec (InnerTemporaryStore * TransactionEffects) :=
  into_effects sample_config (ensured example_executed) [] 7 {[5]} summary_default Success example_smashed 12.

Definition storable_check (id : ObjectID) (o : Object) : bool :=
  has_id id o &&
  match data o with
  | Move m =>
      forallb (λ b, (0 <=? b) && (b <? 256)) (contents m) && (Z.of_nat (length (contents m)) <=? u64_max) &&
      (length (contents m) =? ID_END_INDEX + 8)%nat && has_public_transfer m
  | Package _ => false
  end.
Lemma storable_check_ok id o : storable_check id o = true → storable (id, object_version o) o.
Proof.
  unfold storable_check. intros [Hid Hd]%andb_true_iff. split; [by apply has_id_true|done|..]; intros m Hm;
    rewrite Hm, !andb_true_iff, Z.leb_le, Nat.eqb_eq in Hd; destruct Hd as (((Hb & Hl) & Hlen) & Ht).
  - split; [|done]. rewrite forallb_forall in Hb. apply Forall_forall. intros b Hin%list_elem_of_In%Hb.
    rewrite andb_true_iff, Z.leb_le, Z.ltb_lt in Hin. done.
  - done.
Qed.
(** What is written has contents that are new, each with a hash of its own. *)
Definition contents_check (tables : AuthorityPerpetualTables) (t : TemporaryStore) : bool :=
  forallb (λ dm : ObjectDigest * StoreMoveObject, is_none (tb_indirect tables !! dm.1)) (written_indirect 40 t) &&
  forallb (λ dm, forallb (λ dm' : ObjectDigest * StoreMoveObject,
    negb (dm.1 =? dm'.1) || bool_decide (bcs_content dm.2 = bcs_content dm'.2)) (written_indirect 40 t))
    (written_indirect 40 t).
Lemma contents_check_ok tables t :
  contents_check tables t = true →
  (∀ id o m, written t !! id = Some o → indirect_of 40 o = Some m → tb_indirect tables !! content_hash m = None) ∧
  (∀ id id' o o' m m', written t !! id = Some o → written t !! id' = Some o' →
    indirect_of 40 o = Some m → indirect_of 40 o' = Some m' → content_hash m = content_hash m' →
    bcs_content m = bcs_content m').
Proof.
  unfold contents_check. rewrite andb_true_iff, !forallb_forall. intros [Hn Hh].
  assert (∀ id o m, written t !! id = Some o → indirect_of 40 o = Some m →
    In (content_hash m, m) (written_indirect 40 t)) as Hin.
  { intros id o m Ho Hm. apply list_elem_of_In, elem_of_written_indirect. by exists id, o. }
  split.
  - intros id o m Ho Hm. specialize (Hn _ (Hin id o m Ho Hm)). simpl in Hn.
    by destruct (tb_indirect tables !! content_hash m).
  - intros id id' o o' m m' Ho Ho' Hm Hm' Heq. specialize (Hh _ (Hin id o m Ho Hm)). rewrite forallb_forall in Hh.
    specialize (Hh _ (Hin id' o' m' Ho' Hm')). simpl in Hh. rewrite Heq, Z.eqb_refl in Hh. simpl in Hh.
    by apply bool_decide_eq_true_1 in Hh.
Qed.

Lemma example_final_ok : results_ok (ensured example_executed).
Proof. apply example_reportable. Qed.
Lemma example_commit_effects :
  ∃ e, example_into_effects = Done (into_inner example_final, e) ∧ describes example_final example_smashed e.
Proof.
  destruct (into_effects_ok sample_config (ensured example_executed) [] 7 {[5]} summary_default Success
    example_smashed 12) as (e & He & Hd & _).
  - apply example_final_ok.
  - intros id [= <-]. exists example_coin. split; vm_compute; reflexivity.
  - apply example_reportable.
  - discriminate.
  - exists e. split; [exact He|exact Hd].
Qed.
Lemma example_committable e :
  describes example_final example_smashed e →
  committable 40 example_tables example_final example_smashed e example_commit.
Proof.
  intros Hd. destruct (contents_check_ok example_tables example_final) as [Hnew Hh]; [vm_compute; reflexivity|].
  split.
  - apply updated_stamped, example_final_ok.
  - exact Hd.
  - intros id o Ho. apply storable_check_ok.
    refine (all_objects_true storable_check (written example_final) _ id o Ho). vm_compute. reflexivity.
  - intros id o m Ho Hm. left. left. by apply (Hnew id o m).
  - exact Hh.
  - vm_compute. reflexivity.
  - apply Forall_forall. repeat constructor; vm_compute; by eexists.
  - apply Forall_forall. repeat constructor; vm_compute; reflexivity.
Qed.

Lemma commit_reads_back_witness :
  ∃ e outputs tables', build_transaction_outputs example_commit e (into_inner example_final) = Done outputs ∧
    write_transaction_outputs 40 example_tables 12 outputs = Done (Ok tables') ∧
    get_executed_effects tables' 7 = Some e.
Proof.
  destruct example_commit_effects as (e & _ & Hd).
  destruct (commit_reads_back 40 example_tables example_final example_smashed e example_commit 12)
    as (outputs & tables' & Hb & Hw & _ & _ & _ & _ & Hx).
  - exact (example_committable e Hd).
  - exists e, outputs, tables'. split; [exact Hb|]. split; [exact Hw|exact Hx].
Defined.

Lemma example_no_packages id o : written example_final !! id = Some o → is_package o = false.
Proof.
  intros Ho. apply negb_true_iff.
  refine (all_objects_true (λ _ o, negb (is_package o)) (written example_final) _ id o Ho). vm_compute. reflexivity.
Qed.
Lemma example_no_shared e :
  example_into_effects = Done (into_inner example_final, e) →
  eff_input_shared_objects e = [] ∧ eff_events_digest e = None ∧ all_tombstones e = [(1002, 4); (1003, 4)].
Proof.
  intros He.
  assert (match example_into_effects with
    | Done (_, e) => bool_decide (length (eff_input_shared_objects e) = 0%nat) && is_none (eff_events_digest e) &&
        bool_decide (all_tombstones e = [(1002, 4); (1003, 4)])
    | _ => false
    end = true) as Hc by (vm_compute; reflexivity).
  rewrite He in Hc. rewrite !andb_true_iff, !bool_decide_eq_true in Hc. destruct Hc as ((Hs & Hn) & Ht).
  split_and!; [by apply nil_length_inv|by destruct (eff_events_digest e)|done].
Qed.
Lemma outputs_available_witness :
  ∃ e outputs tables', build_transaction_outputs example_commit e (into_inner example_final) = Done outputs ∧
    write_transaction_outputs 40 example_tables 12 outputs = Done (Ok tables') ∧
    multi_input_objects_available (store_reads tables') (get_output_keys (into_inner example_final) e) ∅ 12 =
      Done (map (λ _, true) (get_output_keys (into_inner example_final) e)).
Proof.
  destruct example_commit_effects as (e & He & Hd).
  destruct (outputs_available 40 example_tables example_final example_smashed e example_commit 12 ∅)
    as (outputs & tables' & Hb & Hw & Ha).
  - exact (example_committable e Hd).
  - intros id o Ho Hp. rewrite (example_no_packages id o Ho) in Hp. discriminate.
  - intros id _. apply not_elem_of_empty.
  - exists e, outputs, tables'. split; [exact Hb|]. split; [exact Hw|exact Ha].
Defined.

(** The state of the modified objects in the tables. *)
Definition old_check (id : ObjectID) : bool :=
  match old_metadata example_final id, tb_objects example_tables !! (id, 3) with
  | Some m, Some so =>
      match table_object example_tables (id, 3) so with
      | Ok (Some o) =>
          (dl_version m =? 3) && has_id id o && (object_version o =? 3) && (object_digest o =? dl_digest m) &&
          match owner o, dl_owner m with AddressOwner a, AddressOwner b => a =? b | _, _ => false end &&
          bool_decide ((id, dl_digest m) ∈ [(1001, 988003); (1002, 988003); (1003, 950003)])
      | _ => false
      end
  | _, _ => false
  end.
Lemma old_check_ok id m :
  old_metadata example_final id = Some m →
  ∃ o a, holds example_tables (id, 3) o ∧ dl_version m = 3 ∧ object_digest o = dl_digest m ∧
    owner o = AddressOwner a ∧ dl_owner m = AddressOwner a ∧
    (id, dl_digest m) ∈ [(1001, 988003); (1002, 988003); (1003, 950003)].
Proof.
  intros Hm. assert (old_check id = true) as Hc.
  { apply (forallb_elements old_check (modified example_final)); [vm_compute; reflexivity|].
    apply (old_metadata_ok example_final id); [|by rewrite Hm].
    apply (sp_store _ (updated_stamped _ example_final_ok)). }
  unfold old_check in Hc. rewrite Hm in Hc. unfold holds.
  destruct (tb_objects example_tables !! (id, 3)) as [so|]; [|done].
  destruct (table_object example_tables (id, 3) so) as [[o|]|] eqn:Ho; try done.
  rewrite !andb_true_iff, !Z.eqb_eq, bool_decide_eq_true in Hc.
  destruct Hc as (((((Hv & Hid) & Hov) & Hdg) & How) & Hin).
  destruct (owner o) as [a| | |] eqn:Hoo, (dl_owner m) as [b| | |] eqn:Hmo; try done. apply Z.eqb_eq in How as <-.
  exists o, a. split_and!; try done. exists so. split_and!; try done. by apply has_id_true.
Qed.
Lemma example_consumed e :
  consumed_locks example_final e example_commit = [(1001, 3, 988003); (1002, 3, 988003); (1003, 3, 950003)].
Proof. vm_compute. reflexivity. Qed.
Lemma example_revertible e :
  example_into_effects = Done (into_inner example_final, e) → revertible example_tables example_final e example_commit.
Proof.
  intros He. destruct (example_no_shared e He) as (Hs & Hev & Ht). split.
  - intros id o Ho.
    assert (all_objects (λ id o, is_none (tb_objects example_tables !! (id, object_version o)))
      (written example_final) = true) as Hall by (vm_compute; reflexivity).
    pose proof (all_objects_true _ _ Hall id o Ho) as Hc. cbn beta in Hc.
    by destruct (tb_objects example_tables !! (id, object_version o)).
  - rewrite Ht. apply Forall_forall. repeat constructor; vm_compute; reflexivity.
  - intros id m Hm. destruct (old_check_ok id m Hm) as (o & a & Hh & -> & Hdg & Hoo & Hmo & _). exists o.
    split_and!; congruence.
  - intros [[id v] d]. rewrite example_consumed. cbn [fst snd]. split.
    + intros Hin. rewrite !elem_of_cons in Hin.
      assert (is_Some (old_metadata example_final id)) as [m Hm].
      { destruct Hin as [[= -> _ _]|[[= -> _ _]|[[= -> _ _]|[]%elem_of_nil]]]; vm_compute; eexists; reflexivity. }
      destruct (old_check_ok id m Hm) as (o & a & _ & Hv & _ & _ & Ha & Hd). exists m, a.
      clear He Hs Hev Ht. rewrite !elem_of_cons in Hd. rewrite Hv. split; [exact Hm|]. split; [exact Ha|].
      destruct Hin as [[= -> -> ->]|[[= -> -> ->]|[[= -> -> ->]|[]%elem_of_nil]]]; (split; [reflexivity|]); symmetry.
      * by destruct Hd as [[= Hd]|[[=]|[[=]|[]%elem_of_nil]]].
      * by destruct Hd as [[=]|[[= Hd]|[[=]|[]%elem_of_nil]]].
      * by destruct Hd as [[=]|[[=]|[[= Hd]|[]%elem_of_nil]]].
    + intros (m & a & Hm & _ & -> & ->). destruct (old_check_ok id m Hm) as (o & a' & _ & -> & _ & _ & _ & Hd).
      rewrite !elem_of_cons in *. destruct Hd as [[= -> ->]|[[= -> ->]|[[= -> ->]|?%elem_of_nil]]]; tauto.
  - apply Forall_forall. repeat constructor; vm_compute; reflexivity.
  - done.
  - rewrite Hev. vm_compute. reflexivity.
  - vm_compute. discriminate.
  - apply lookup_empty.
Qed.
Lemma revert_restores_witness :
  ∃ e outputs tables' tables'', build_transaction_outputs example_commit e (into_inner example_final) = Done outputs ∧
    write_transaction_outputs 40 example_tables 12 outputs = Done (Ok tables') ∧
    revert_state_update tables' 7 = Done (Ok tables'') ∧ tb_objects tables'' = tb_objects example_tables.
Proof.
  destruct example_commit_effects as (e & He & Hd).
  destruct (revert_restores 40 example_tables example_final example_smashed e example_commit 12)
    as (outputs & tables' & tables'' & Hb & Hw & Hr & Ho & _).
  - exact (example_committable e Hd).
  - exact (example_revertible e He).
  - exists e, outputs, tables', tables''. split; [exact Hb|]. split; [exact Hw|]. split; [exact Hr|exact Ho].
Defined.

(** * Reading the database *)

Definition entry_check (tables : AuthorityPerpetualTables) (kv : ObjectKey * StoreObject) : bool :=
  match table_object tables kv.1 kv.2 with
  | Ok (Some o) => has_id kv.1.1 o && (object_version o =? kv.1.2)
  | _ => false
  end.
Lemma sound_check tables :
  forallb (entry_check tables) (map_to_list (tb_objects tables)) = true → sound tables.
Proof.
  rewrite forallb_forall. intros Hall key v Hv.
  assert (entry_check tables (key, StoreValue v) = true) as Hc
    by (apply Hall, list_elem_of_In; by apply elem_of_map_to_list).
  unfold entry_check in Hc. cbn [fst snd] in Hc.
  destruct (table_object tables key (StoreValue v)) as [[o|]|] eqn:Ho; try done.
  apply andb_true_iff in Hc as [Hid Hver%Z.eqb_eq]. exists o, (StoreValue v). split_and!; try done.
  by apply has_id_true.
Qed.
Lemma example_sound : sound example_tables.
Proof. apply sound_check. vm_compute. reflexivity. Qed.

Lemma database_reads_succeed_witness :
  ∃ tables, is_Some (tb_objects tables !! (1001, 4)) ∧
    ∀ id v, ∃ r, store_get_object_by_key tables id v = Ok r ∧
      ∀ o, r = Some o → object_id o = Done id ∧ object_version o = v.
Proof.
  destruct example_commit_effects as (e & He & Hd).
  pose proof (example_committable e Hd) as Hcm.
  destruct (commit_writes 40 example_tables example_final example_smashed e example_commit 12 Hcm) as (tables & Hw & Hct).
  exists tables. split.
  - eapply mk_is_Some. apply (ct_written _ _ _ _ _ _ _ Hct 1001 (updated_object (ensured example_executed) 1001 example_coin)).
    vm_compute. reflexivity.
  - apply (database_reads_succeed tables).
    eapply database_commit; [apply database_init, example_sound|exact Hcm| |exact Hw].
    apply build_outputs_ok. exact (cm_stamped _ _ _ _ _ _ Hcm).
Defined.

(** A shared object that was deleted in epoch 12. *)
Definition loader_tables : AuthorityPerpetualTables := {|
  tb_objects := tb_objects example_tables; tb_indirect := tb_indirect example_tables;
  tb_locks := tb_locks example_tables; tb_transactions := ∅; tb_effects := ∅; tb_executed_effects := ∅;
  tb_events := ∅; tb_markers := {[ (12, 77, 5) := SharedDeleted 6 ]} |}.
Definition loader_kinds : list InputObjectKind :=
  [KSharedMoveObject 77 1 true; KImmOrOwnedMoveObject (1003, 3, 950003)].
Lemma loader_sound : sound loader_tables.
Proof. apply sound_check. vm_compute. reflexivity. Qed.
Lemma signing_loads_inputs_witness :
  ∃ l received, read_objects_for_signing (table_reads loader_tables) loader_kinds [(1001, 3, 0)] 12 = Done (Ok (l, received)) ∧
    map input_object_kind l = loader_kinds ∧ Forall read_ok l.
Proof.
  destruct (signing_loads_inputs loader_tables 12 loader_kinds [(1001, 3, 0)]) as (res & Hr & Hres);
    [exact loader_sound|].
  assert (match read_objects_for_signing (table_reads loader_tables) loader_kinds [(1001, 3, 0)] 12 with
    | Done (Ok _) => true | _ => false end = true) as Hok by (vm_compute; reflexivity).
  rewrite Hr in Hok. destruct res as [[l received]|]; [|discriminate]. destruct Hres as (Hk & Hro & _).
  exists l, received. split; [exact Hr|]. split; [exact Hk|exact Hro].
Defined.

Lemma loader_loadable :
  loadable loader_tables 12 [(77, 5)] loader_kinds {[VersionedObject 77 5; VersionedObject 1003 3]} ∅.
Proof.
  split.
  - exact loader_sound.
  - vm_compute. reflexivity.
  - intros key [->%elem_of_singleton| ->%elem_of_singleton]%elem_of_union; vm_compute; reflexivity.
  - apply disjoint_empty_r.
  - intros r [Hr|[[= ->]|[]%elem_of_nil]%elem_of_cons]%elem_of_cons; [discriminate Hr|].
    split_and!; [vm_compute; discriminate..|]. intros d. vm_compute. discriminate.
  - intros id o [Hr|[Hr|[]%elem_of_nil]%elem_of_cons]%elem_of_cons; discriminate Hr.
  - intros id iv m v Hin Hv.
    apply elem_of_cons in Hin as [[= -> -> ->]|[Hr|[]%elem_of_nil]%elem_of_cons]; [|discriminate Hr].
    assert (v = 5) as -> by (vm_compute in Hv; congruence). intros _. exists 6. vm_compute. reflexivity.
Qed.
Lemma available_inputs_load_witness :
  ∃ rs, read_objects_for_execution (table_reads loader_tables) (Ok [(77, 5)]) loader_kinds 12 = Done (Ok rs) ∧
    map input_object_kind rs = loader_kinds ∧ map read_object_kind rs = [DeletedSharedObject 5 6; ReadObject (owned_input 1003)].
Proof.
  destruct (available_inputs_load loader_tables 12 [(77, 5)] loader_kinds
    {[VersionedObject 77 5; VersionedObject 1003 3]} ∅) as (rs & Hr & Hk & _); [exact loader_loadable|].
  exists rs. split; [exact Hr|]. split; [exact Hk|].
  assert (match read_objects_for_execution (table_reads loader_tables) (Ok [(77, 5)]) loader_kinds 12 with
    | Done (Ok rs) => map read_object_kind rs | _ => [] end = [DeletedSharedObject 5 6; ReadObject (owned_input 1003)]) as Hv
    by (vm_compute; reflexivity).
  rewrite Hr in Hv. exact Hv.
Defined.

(** A package cache that keeps everything. *)
#[local] Instance example_lru : LruCache := {|
  lru := gmap ObjectID Object; lru_peek c id := c !! id; lru_push c id o := <[id := o]> c |}.
#[local] Instance example_lru_laws : LruCacheLaws.
Proof.
  split; [intros; apply lookup_insert_eq|]. intros c id o id' Hne. left. by apply lookup_insert_ne.
Qed.
Definition example_package (id version : Z) : Object := {|
  data := Package {| mp_id := id; mp_version := version; module_map := []; type_origin_table := []; linkage_table := [] |};
  owner := Immutable; previous_transaction := 5; storage_rebate := 0 |}.
Definition packages_at (version : Z) (id : ObjectID) : result (option Object) MgoError :=
  if id =? 2 then Ok (Some (example_package 2 version)) else Ok None.
Definition example_cache : @lru example_lru := ({[ 2 := example_package 2 1 ]} : gmap ObjectID Object).
Lemma package_cache_coherent_witness :
  ∃ cache', force_reload_system_packages (packages_at 2) example_cache [2; 3] = Done cache' ∧
    (cache_get_package_object (packages_at 2) cache' 2).1 = Ok (Some (example_package 2 2)).
Proof.
  destruct (package_cache_coherent (packages_at 1) (packages_at 2) example_cache [2; 3])
    as (cache' & Hr & _ & Hg).
  - intros id p Hp. change (({[ 2 := example_package 2 1 ]} : gmap ObjectID Object) !! id = Some p) in Hp. apply lookup_singleton_Some in Hp as [<- <-].
    split; reflexivity.
  - intros id p Hid. unfold packages_at. destruct (Z.eqb_spec id 2) as [->|]; [|done]. destruct Hid. left.
  - intros id [->|[->|Hn%elem_of_nil]%elem_of_cons]%elem_of_cons; [reflexivity|reflexivity|done].
  - exists cache'. split; [exact Hr|]. specialize (Hg 2).
    destruct (cache_get_package_object (packages_at 2) cache' 2) as [r c]. destruct Hg as [-> _]. reflexivity.
Defined.
