(* ===== verification/CausalOrder.v ===== *)
(** The causal sort of a checkpoint's transactions
    (mgo-core/src/checkpoints/causal_order.rs): dependencies with the edges
    added for shared objects, and a depth-first traversal on an explicit stack.
    A [Vec] used as a stack is a list with its top first; both loops carry fuel,
    which [causal_sort] bounds by the number of transactions. *)
From S2P Require Import Prelude MapSums Objects.

(** * Definitions *)

(** Key of an object version, [ObjectKey]. *)
Abbreviation ObjectKey := (ObjectID * SequenceNumber)%type (only parsing).

Inductive InputSharedObject :=
  | Mutate (r : ObjectRef)
  | ReadOnly (r : ObjectRef)
  | ReadDeleted (id : ObjectID) (version : SequenceNumber)
  | MutateDeleted (id : ObjectID) (version : SequenceNumber).
(** What the sort reads of the effects of a transaction. *)
Record TransactionEffects := {
  transaction_digest : TransactionDigest;
  effects_dependencies : list TransactionDigest;
  input_shared_objects : list InputSharedObject;
}.

Record RWLockDependencyBuilder := {
  read_version : gmap ObjectKey (list TransactionDigest);
  overwrite_versions : gmap TransactionDigest (list ObjectKey);
}.
(** [map.entry(k).or_default().push(x)]. *)
Definition push_at `{Countable K} {A} (k : K) (x : A) (m : gmap K (list A)) : gmap K (list A) :=
  <[k := default [] (m !! k) ++ [x]]> m.
Definition rwlock_kind (digest : TransactionDigest) (b : RWLockDependencyBuilder) (kind : InputSharedObject)
    : RWLockDependencyBuilder :=
  match kind with
  | ReadOnly r => {| read_version := push_at (r.1.1, r.1.2) digest (read_version b);
                     overwrite_versions := overwrite_versions b |}
  | Mutate r => {| read_version := read_version b;
                   overwrite_versions := push_at digest (r.1.1, r.1.2) (overwrite_versions b) |}
  | ReadDeleted oid version => {| read_version := push_at (oid, version) digest (read_version b);
                                  overwrite_versions := overwrite_versions b |}
  | MutateDeleted oid version => {| read_version := read_version b;
                                    overwrite_versions := push_at digest (oid, version) (overwrite_versions b) |}
  end.
Definition rwlock_from_effects (effects : list TransactionEffects) : RWLockDependencyBuilder :=
  foldl (λ b effect, foldl (rwlock_kind (transaction_digest effect)) b (input_shared_objects effect))
    {| read_version := ∅; overwrite_versions := ∅ |} effects.
Definition add_dependencies_for (b : RWLockDependencyBuilder) (digest : TransactionDigest)
    (v : gset TransactionDigest) : gset TransactionDigest :=
  match overwrite_versions b !! digest with
  | None => v
  | Some overwrites =>
      foldl (λ v obj_ver,
        match read_version b !! obj_ver with
        | None => v
        | Some reads => foldl (λ v dep, {[dep]} ∪ v) v reads
        end) v overwrites
  end.

Record TransactionDependencies := {
  td_digest : TransactionDigest;
  td_dependencies : gset TransactionDigest;
  td_effects : TransactionEffects;
}.
Definition td_from_effects (b : RWLockDependencyBuilder) (effects : TransactionEffects)
    : TransactionDependencies := {|
  td_digest := transaction_digest effects;
  td_dependencies := add_dependencies_for b (transaction_digest effects)
    (list_to_set (effects_dependencies effects));
  td_effects := effects |}.

Record CausalOrder := {
  not_seen : gmap TransactionDigest TransactionDependencies;
  output : list TransactionEffects;
}.
Definition causal_from_vec (effects : list TransactionEffects) : CausalOrder :=
  let rwlock_builder := rwlock_from_effects effects in
  let dependencies := map (td_from_effects rwlock_builder) effects in
  {| not_seen := btree_collect (map (λ e, (td_digest e, e)) dependencies); output := [] |}.
Definition pop_first (o : CausalOrder) : option (TransactionDependencies * CausalOrder) :=
  match btree_iter Z.le (not_seen o) with
  | [] => None
  | (key, t) :: _ => Some (t, {| not_seen := delete key (not_seen o); output := output o |})
  end.

Record InsertState := {
  is_dependencies : list TransactionDigest;
  is_transaction : option TransactionDependencies;
}.
Definition InsertState_new (t : TransactionDependencies) : InsertState :=
  {| is_dependencies := rev (bset_iter Z.le (td_dependencies t)); is_transaction := Some t |}.

(** The loop of [process]: the dependencies that are left and, if one of them
    has not been seen, its transaction. *)
Fixpoint next_dependency (deps : list TransactionDigest) (o : CausalOrder)
    : list TransactionDigest * option (TransactionDependencies * CausalOrder) :=
  match deps with
  | [] => ([], None)
  | dep :: deps =>
      match not_seen o !! dep with
      | Some dep_transaction =>
          (deps, Some (dep_transaction, {| not_seen := delete dep (not_seen o); output := output o |}))
      | None => next_dependency deps o
      end
  end.
Definition process (s : InsertState) (o : CausalOrder) : exec (InsertState * CausalOrder * option InsertState) :=
  let '(deps, found) := next_dependency (is_dependencies s) o in
  match found with
  | Some (dep_transaction, o) =>
      Done ({| is_dependencies := deps; is_transaction := is_transaction s |}, o,
            Some (InsertState_new dep_transaction))
  | None =>
      transaction ← unwrap (is_transaction s);
      Done ({| is_dependencies := deps; is_transaction := None |},
            {| not_seen := not_seen o; output := output o ++ [td_effects transaction] |}, None)
  end.

Fixpoint insert_loop (fuel : nat) (states : list InsertState) (o : CausalOrder) : exec CausalOrder :=
  match fuel, states with
  | _, [] => Done o
  | O, _ => OutOfFuel
  | S fuel, state :: states =>
      '(state, o, new_state) ← process state o;
      match new_state with
      | Some new_state => insert_loop fuel (new_state :: state :: states) o
      | None => insert_loop fuel states o
      end
  end.
Definition causal_insert (o : CausalOrder) (t : TransactionDependencies) : exec CausalOrder :=
  insert_loop (S (2 * size (not_seen o))) [InsertState_new t] o.

Fixpoint sort_loop (fuel : nat) (o : CausalOrder) : exec CausalOrder :=
  match pop_first o with
  | None => Done o
  | Some (item, o) =>
      match fuel with
      | O => OutOfFuel
      | S fuel => o ← causal_insert o item; sort_loop fuel o
      end
  end.
Definition causal_sort (effects : list TransactionEffects) : exec (list TransactionEffects) :=
  let o := causal_from_vec effects in
  o ← sort_loop (size (not_seen o)) o;
  Done (output o).

(** * The traversal ends *)

Lemma next_dependency_spec deps o :
  match next_dependency deps o with
  | (rest, Some (t, o')) =>
      ∃ skipped d, deps = skipped ++ d :: rest ∧ (∀ x, x ∈ skipped → not_seen o !! x = None) ∧
        not_seen o !! d = Some t ∧ o' = {| not_seen := delete d (not_seen o); output := output o |}
  | (rest, None) => rest = [] ∧ ∀ x, x ∈ deps → not_seen o !! x = None
  end.
Proof.
  induction deps as [|dep deps IH]; simpl; [split; [done|set_solver]|].
  destruct (not_seen o !! dep) as [t|] eqn:Hd.
  - exists [], dep. split_and!; [done|set_solver|done..].
  - destruct (next_dependency deps o) as [rest [[t o']|]].
    + destruct IH as (sk & d & -> & Hsk & Ht & ->). exists (dep :: sk), d. split_and!; [done| |done..].
      intros x [->|?]%elem_of_cons; [done|by apply Hsk].
    + destruct IH as [-> Hall]. split; [done|]. intros x [->|?]%elem_of_cons; [done|by apply Hall].
Qed.

(** A property of stack and order that each call of [process] keeps. *)
Definition process_keeps (I : list InsertState → CausalOrder → Prop) : Prop :=
  ∀ s ss o, I (s :: ss) o → ∃ s' o' new, process s o = Done (s', o', new) ∧
    match new with
    | Some n => I (n :: s' :: ss) o' ∧ S (size (not_seen o')) = size (not_seen o)
    | None => I ss o' ∧ not_seen o' = not_seen o
    end.

Lemma insert_loop_keeps I fuel ss o :
  process_keeps I → I ss o → (2 * size (not_seen o) + length ss ≤ fuel)%nat →
  ∃ o', insert_loop fuel ss o = Done o' ∧ I [] o' ∧ (size (not_seen o') ≤ size (not_seen o))%nat.
Proof.
  intros Hkeep. revert ss o. induction fuel as [|fuel IH]; intros [|s ss] o HI Hfuel; simpl in Hfuel;
    [by exists o|lia|by exists o|].
  cbn [insert_loop]. destruct (Hkeep s ss o HI) as (s' & o' & new & -> & Hnew). rewrite bind_ret_l. cbn beta iota.
  destruct new as [n|]; destruct Hnew as [HI' Hsize].
  - destruct (IH (n :: s' :: ss) o' HI') as (o'' & -> & ? & ?); [simpl; lia|]. exists o''. split_and!; [done..|lia].
  - destruct (IH ss o' HI') as (o'' & -> & ? & Hle); [rewrite Hsize; lia|]. rewrite Hsize in Hle.
    by exists o''.
Qed.

Lemma pop_first_spec o :
  match pop_first o with
  | None => not_seen o = ∅
  | Some (t, o') => ∃ d, not_seen o !! d = Some t ∧ o' = {| not_seen := delete d (not_seen o); output := output o |}
  end.
Proof.
  unfold pop_first. destruct (btree_iter Z.le (not_seen o)) as [|[d t] l] eqn:Hl.
  - apply map_empty. intros d. destruct (not_seen o !! d) as [t|] eqn:Hd; [|done].
    apply (elem_of_btree_iter Z.le) in Hd. rewrite Hl in Hd. by apply elem_of_nil in Hd.
  - exists d. split; [|done]. apply (elem_of_btree_iter Z.le). rewrite Hl. left.
Qed.

Lemma sort_loop_keeps I fuel o :
  process_keeps I →
  (∀ o d t, I [] o → not_seen o !! d = Some t →
     I [InsertState_new t] {| not_seen := delete d (not_seen o); output := output o |}) →
  I [] o → (size (not_seen o) ≤ fuel)%nat →
  ∃ o', sort_loop fuel o = Done o' ∧ I [] o' ∧ not_seen o' = ∅.
Proof.
  intros Hkeep Hpop. revert o. induction fuel as [|fuel IH]; intros o HI Hfuel; cbn [sort_loop];
    pose proof (pop_first_spec o) as Hspec; destruct (pop_first o) as [[t o1]|]; try (by exists o);
    destruct Hspec as (d & Hd & ->).
  all: assert (size (not_seen o) ≠ 0)%nat as Hne by (apply map_size_ne_0_lookup; by exists d; rewrite Hd).
  { lia. }
  assert (S (size (delete d (not_seen o))) = size (not_seen o)) as Hsz.
  { rewrite map_size_delete_Some by by rewrite Hd. lia. }
  unfold causal_insert. cbn [not_seen].
  destruct (insert_loop_keeps I (S (2 * size (delete d (not_seen o)))) [InsertState_new t] _ Hkeep (Hpop o d t HI Hd))
    as (o' & -> & HI' & Hle); [simpl; lia|]. rewrite bind_ret_l. simpl in Hle. apply IH; [done|lia].
Qed.

(** * What the traversal keeps *)

Section traversal.
Context (all : list TransactionEffects) (depsof : TransactionDigest → gset TransactionDigest).

Definition td_ok (t : TransactionDependencies) : Prop :=
  transaction_digest (td_effects t) = td_digest t ∧ td_dependencies t = depsof (td_digest t).
Definition held (s : InsertState) : list TransactionEffects :=
  match is_transaction s with Some t => [td_effects t] | None => [] end.
Definition unseen (N : gmap TransactionDigest TransactionDependencies) : list TransactionEffects :=
  map (λ kv, td_effects kv.2) (map_to_list N).

(** Each transaction is in the output, on the stack or not seen; a state has
    left only dependencies that were seen. *)
Record traversal_ok (ss : list InsertState) (o : CausalOrder) : Prop := {
  tr_unseen : ∀ d t, not_seen o !! d = Some t → td_digest t = d ∧ td_ok t;
  tr_states : ∀ s, s ∈ ss → ∃ t, is_transaction s = Some t ∧ td_ok t ∧
    (∀ d, d ∈ is_dependencies s → d ∈ depsof (td_digest t)) ∧
    (∀ d, d ∈ depsof (td_digest t) → d ∈ is_dependencies s ∨ not_seen o !! d = None);
  tr_all : output o ++ (ss ≫= held) ++ unseen (not_seen o) ≡ₚ all;
}.

Lemma unseen_delete N d t : N !! d = Some t → unseen N ≡ₚ td_effects t :: unseen (delete d N).
Proof.
  intros Hd. unfold unseen. change (td_effects t) with ((λ kv : Z * TransactionDependencies, td_effects kv.2) (d, t)).
  rewrite <-map_cons. apply Permutation_map. symmetry. by apply map_to_list_delete.
Qed.

Lemma new_state_ok t (N : gmap TransactionDigest TransactionDependencies) :
  td_ok t →
  ∃ t', is_transaction (InsertState_new t) = Some t' ∧ td_ok t' ∧
    (∀ d, d ∈ is_dependencies (InsertState_new t) → d ∈ depsof (td_digest t')) ∧
    (∀ d, d ∈ depsof (td_digest t') → d ∈ is_dependencies (InsertState_new t) ∨ N !! d = None).
Proof.
  intros [Hd Hdeps]. exists t. split; [done|]. split; [done|]. simpl. rewrite <-Hdeps.
  split; intros d; rewrite elem_of_rev, elem_of_bset_iter; [done|by left].
Qed.

Lemma process_traversal : process_keeps traversal_ok.
Proof.
  intros s ss o [Hun Hst Hall]. destruct (Hst s) as (t & Ht & Hok & Hin & Hseen); [left|].
  unfold process. pose proof (next_dependency_spec (is_dependencies s) o) as Hnext.
  destruct (next_dependency (is_dependencies s) o) as [rest [[t' o']|]].
  - destruct Hnext as (sk & d & Hdeps & Hsk & Hd & ->). eexists _, _, _. split; [done|].
    assert (S (size (delete d (not_seen o))) = size (not_seen o)) as Hsize.
    { rewrite map_size_delete_Some by by rewrite Hd.
      assert (size (not_seen o) ≠ 0)%nat by (apply map_size_ne_0_lookup; by exists d; rewrite Hd). lia. }
    split; [|done].
    assert (∀ x, not_seen o !! x = None → delete d (not_seen o) !! x = None) as Hmono.
    { intros x Hx. apply lookup_delete_None. by right. }
    destruct (Hun d t' Hd) as [Hdig Hok']. split; simpl.
    + intros x y [_ Hx]%lookup_delete_Some. by apply Hun.
    + intros x [->|[->|Hx]%elem_of_cons]%elem_of_cons.
      * by apply new_state_ok.
      * exists t. split_and!; [done..| |].
        { intros x Hx. apply Hin. rewrite Hdeps. set_solver. }
        intros x Hx. simpl. destruct (Hseen x Hx) as [Hx'|?]; [|right; by apply Hmono].
        rewrite Hdeps in Hx'. apply elem_of_app in Hx' as [?|[->|?]%elem_of_cons];
          [right; by apply Hmono, Hsk|right; apply lookup_delete_eq|by left].
      * destruct (Hst x) as (y & ? & ? & ? & Hy); [by right|]. exists y. split_and!; [done..|].
        intros z Hz. destruct (Hy z Hz); [by left|right; by apply Hmono].
    + rewrite <-Hall, (unseen_delete _ _ _ Hd). cbn. unfold held at 1 3. simpl. rewrite Ht. simpl.
      solve_Permutation.
  - destruct Hnext as [-> Hnone]. rewrite Ht. eexists _, _, _. split; [done|]. split; [|done].
    split; simpl; [done|..].
    + intros x Hx. apply Hst. by right.
    + rewrite <-Hall. cbn. unfold held at 2. rewrite Ht. simpl. solve_Permutation.
Qed.

Lemma pop_traversal o d t :
  traversal_ok [] o → not_seen o !! d = Some t →
  traversal_ok [InsertState_new t] {| not_seen := delete d (not_seen o); output := output o |}.
Proof.
  intros [Hun _ Hall] Hd. destruct (Hun d t Hd) as [_ Hok]. split; simpl.
  - intros x y [_ Hx]%lookup_delete_Some. by apply Hun.
  - intros s ->%list_elem_of_singleton. by apply new_state_ok.
  - rewrite <-Hall, (unseen_delete _ _ _ Hd). cbn. solve_Permutation.
Qed.

(** * The order of the output *)

Definition ordered (out : list TransactionEffects) : Prop :=
  ∀ i e d, out !! i = Some e → d ∈ depsof (transaction_digest e) → d ≠ transaction_digest e →
    d ∈ map transaction_digest all →
    ∃ j e', (j < i)%nat ∧ out !! j = Some e' ∧ transaction_digest e' = d.

Context (rank : TransactionDigest → nat).
Hypothesis Hnodup : NoDup (map transaction_digest all).
Hypothesis Hrank : ∀ d d', d ∈ map transaction_digest all → d' ∈ depsof d → d' ≠ d →
  d' ∈ map transaction_digest all → (rank d' < rank d)%nat.

(** A state on the stack waits for the one above it. *)
Definition below (s s' : InsertState) : Prop :=
  ∀ t t', is_transaction s = Some t → is_transaction s' = Some t' → (rank (td_digest t) < rank (td_digest t'))%nat.
Definition sorted_ok (ss : list InsertState) (o : CausalOrder) : Prop :=
  traversal_ok ss o ∧ StronglySorted below ss ∧ ordered (output o).

Lemma traversal_digest ss o d :
  traversal_ok ss o →
  d ∈ map transaction_digest all ↔
  d ∈ map transaction_digest (output o) ∨
  (∃ s t, s ∈ ss ∧ is_transaction s = Some t ∧ td_digest t = d) ∨ is_Some (not_seen o !! d).
Proof.
  intros [Hun Hst Hall]. rewrite <-Hall, !map_app, !elem_of_app. f_equiv. f_equiv.
  - rewrite list_elem_of_fmap. split.
    + intros (e & -> & (s & He & Hs)%list_elem_of_bind). destruct (Hst s Hs) as (t & Ht & Hok & _).
      unfold held in He. rewrite Ht in He. apply list_elem_of_singleton in He as ->.
      exists s, t. split_and!; [done..|]. by destruct Hok.
    + intros (s & t & Hs & Ht & <-). destruct (Hst s Hs) as (t' & Ht' & Hok & _). simplify_eq.
      exists (td_effects t). split; [by destruct Hok|]. apply list_elem_of_bind. exists s.
      split; [|done]. unfold held. rewrite Ht. left.
  - unfold unseen. rewrite map_map, list_elem_of_fmap. split.
    + intros ([k t] & -> & Hk%elem_of_map_to_list). destruct (Hun k t Hk) as [<- [Hd _]]. simpl. rewrite Hd. eauto.
    + intros [t Hd]. destruct (Hun d t Hd) as [<- [Hdig _]]. exists (td_digest t, t).
      split; [done|]. by apply elem_of_map_to_list.
Qed.

Lemma process_spec s o t :
  is_transaction s = Some t →
  (∃ rest d t', process s o = Done ({| is_dependencies := rest; is_transaction := Some t |},
       {| not_seen := delete d (not_seen o); output := output o |}, Some (InsertState_new t')) ∧
     d ∈ is_dependencies s ∧ not_seen o !! d = Some t') ∨
  (process s o = Done ({| is_dependencies := []; is_transaction := None |},
       {| not_seen := not_seen o; output := output o ++ [td_effects t] |}, None) ∧
     ∀ x, x ∈ is_dependencies s → not_seen o !! x = None).
Proof.
  intros Ht. unfold process. pose proof (next_dependency_spec (is_dependencies s) o) as Hnext.
  destruct (next_dependency (is_dependencies s) o) as [rest [[t' o']|]]; rewrite Ht.
  - destruct Hnext as (sk & d & Hdeps & _ & Hd & ->). left. exists rest, d, t'. split_and!; [done| |done].
    rewrite Hdeps. set_solver.
  - destruct Hnext as [-> Hnone]. by right.
Qed.

(** A transaction is on the stack or not seen, never both. *)
Lemma stack_unseen ss o s t t' :
  traversal_ok ss o → s ∈ ss → is_transaction s = Some t → not_seen o !! td_digest t = Some t' → False.
Proof.
  intros Htr Hs Ht Hd. pose proof Htr as [Hun Hst Hall].
  destruct (Hst s Hs) as (t1 & Ht1 & [Hdig _] & _). simplify_eq.
  destruct (Hun _ _ Hd) as [_ [Hdig' _]]. rewrite <-Hall, !map_app in Hnodup.
  apply NoDup_app in Hnodup as (_ & _ & Hnd). apply NoDup_app in Hnd as (_ & Hdis & _).
  apply (Hdis (td_digest t)).
  - apply list_elem_of_fmap. exists (td_effects t). split; [done|]. apply list_elem_of_bind. exists s.
    split; [|done]. unfold held. rewrite Ht. left.
  - unfold unseen. rewrite map_map. apply list_elem_of_fmap. exists (td_digest t, t').
    split; [simpl; rewrite Hdig'; by destruct (Hun _ _ Hd)|by apply elem_of_map_to_list].
Qed.

Lemma process_sorted : process_keeps sorted_ok.
Proof.
  intros s ss o (Htr & Hsort & Hord). pose proof Htr as [Hun Hst Hall].
  destruct (process_traversal s ss o Htr) as (s' & o' & new & Hrun & Hnew).
  destruct (Hst s) as (t & Ht & [Hdig Hdeps] & Hin & Hseen); [left|].
  apply StronglySorted_inv in Hsort as [Hsort Hbelow].
  assert (td_digest t ∈ map transaction_digest all) as Htin.
  { apply (traversal_digest (s :: ss) o); [done|]. right; left. exists s, t. split_and!; [left|done..]. }
  exists s', o', new. split; [done|].
  destruct (process_spec s o t Ht) as [(rest & d & t' & Hrun' & Hd & Ht')|[Hrun' Hnone]];
    rewrite Hrun' in Hrun; simplify_eq; destruct Hnew as [Hnew Hsize]; (split; [|done]); (split; [done|]); split.
  - destruct (Hun d t' Ht') as [Hd' _].
    assert (d ≠ td_digest t) as Hne by (intros ->; by eapply (stack_unseen (s :: ss) o s t); [done|left|..]).
    assert (rank d < rank (td_digest t))%nat as Hlt.
    { apply Hrank; [done|by apply Hin|done|]. apply (traversal_digest (s :: ss) o); [done|].
      right; right. by rewrite Ht'. }
    constructor; [constructor; [done|]|constructor].
    + eapply Forall_impl; [exact Hbelow|]. intros s2 Hb t1 t2 [= <-] Ht2. by apply Hb.
    + intros t1 t2 [= <-] [= <-]. by rewrite Hd'.
    + eapply Forall_impl; [exact Hbelow|]. intros s2 Hb t1 t2 [= <-] Ht2. rewrite Hd'.
      specialize (Hb t t2 Ht Ht2). lia.
  - done.
  - done.
  - intros i e d [Hi|[Hge He]]%lookup_app_Some Hd Hne Hall_d.
    + destruct (Hord i e d Hi Hd Hne Hall_d) as (j & e' & Hj & He' & ?). exists j, e'. split_and!; [done| |done].
      by apply lookup_app_l_Some.
    + apply list_lookup_singleton_Some in He as [Hi0 <-]. rewrite Hdig in Hd, Hne.
      assert (not_seen o !! d = None) as Hdn by by destruct (Hseen d Hd) as [?|?]; [apply Hnone|].
      destruct (proj1 (traversal_digest (s :: ss) o d Htr) Hall_d) as [Hout|[(s2 & t2 & Hs2 & Ht2 & Hd2)|[? ?]]];
        [| |by rewrite Hdn in *].
      * apply list_elem_of_fmap in Hout as (e' & -> & (j & Hj)%list_elem_of_lookup). exists j, e'.
        pose proof (lookup_lt_Some _ _ _ Hj). split_and!; [lia| |done]. by apply lookup_app_l_Some.
      * exfalso. apply elem_of_cons in Hs2 as [->|Hs2]; [congruence|].
        rewrite Forall_forall in Hbelow. specialize (Hbelow s2 Hs2 t t2 Ht Ht2).
        specialize (Hrank (td_digest t) d Htin Hd Hne Hall_d). rewrite Hd2 in Hbelow. lia.
Qed.
End traversal.

(** * The dependencies *)

Definition kind_read (kind : InputSharedObject) : option ObjectKey :=
  match kind with
  | ReadOnly r => Some (r.1.1, r.1.2)
  | ReadDeleted id version => Some (id, version)
  | _ => None
  end.
Definition kind_write (kind : InputSharedObject) : option ObjectKey :=
  match kind with
  | Mutate r => Some (r.1.1, r.1.2)
  | MutateDeleted id version => Some (id, version)
  | _ => None
  end.
Definition reads (e : TransactionEffects) (k : ObjectKey) : Prop := Some k ∈ map kind_read (input_shared_objects e).
Definition writes (e : TransactionEffects) (k : ObjectKey) : Prop := Some k ∈ map kind_write (input_shared_objects e).

(** [e] comes after [d]: its effects say so, or it overwrites a version of a
    shared object that [d] reads. *)
Definition causal_dep (effects : list TransactionEffects) (e : TransactionEffects) (d : TransactionDigest) : Prop :=
  d ∈ effects_dependencies e ∨ ∃ e' k, e' ∈ effects ∧ transaction_digest e' = d ∧ writes e k ∧ reads e' k.

Lemma elem_of_push_at `{Countable K} {A} k (x : A) (m : gmap K (list A)) k' y :
  y ∈ default [] (push_at k x m !! k') ↔ y ∈ default [] (m !! k') ∨ (k' = k ∧ y = x).
Proof.
  unfold push_at. destruct (decide (k' = k)) as [->|Hne].
  - rewrite lookup_insert_eq. simpl. rewrite elem_of_app, list_elem_of_singleton. tauto.
  - rewrite lookup_insert_ne by done. tauto.
Qed.

Lemma rwlock_kinds_spec digest kinds b :
  let b' := foldl (rwlock_kind digest) b kinds in
  (∀ k d, d ∈ default [] (read_version b' !! k) ↔
     d ∈ default [] (read_version b !! k) ∨ (d = digest ∧ Some k ∈ map kind_read kinds)) ∧
  (∀ d k, k ∈ default [] (overwrite_versions b' !! d) ↔
     k ∈ default [] (overwrite_versions b !! d) ∨ (d = digest ∧ Some k ∈ map kind_write kinds)).
Proof.
  revert b. induction kinds as [|kind kinds IH]; intros b; simpl.
  { split; intros; rewrite elem_of_nil; tauto. }
  destruct (IH (rwlock_kind digest b kind)) as [Hr Hw].
  split; intros; rewrite ?Hr, ?Hw, elem_of_cons; destruct kind; simpl; rewrite ?elem_of_push_at; naive_solver.
Qed.
Lemma rwlock_from_effects_spec effects :
  (∀ k d, d ∈ default [] (read_version (rwlock_from_effects effects) !! k) ↔
     ∃ e, e ∈ effects ∧ transaction_digest e = d ∧ reads e k) ∧
  (∀ d k, k ∈ default [] (overwrite_versions (rwlock_from_effects effects) !! d) ↔
     ∃ e, e ∈ effects ∧ transaction_digest e = d ∧ writes e k).
Proof.
  unfold rwlock_from_effects. induction effects as [|e effects IH] using rev_ind.
  { simpl. split; intros; rewrite lookup_empty; simpl; split; [by intros ?%elem_of_nil|set_solver..]. }
  rewrite foldl_app. simpl. set (b := foldl _ _ effects) in *. destruct IH as [IHr IHw].
  destruct (rwlock_kinds_spec (transaction_digest e) (input_shared_objects e) b) as [Hr Hw].
  split; intros; rewrite ?Hr, ?Hw, ?IHr, ?IHw; (split;
    [intros [(x & ? & ? & ?)|[-> ?]]; [exists x|exists e]; rewrite elem_of_app, ?list_elem_of_singleton; tauto
    |intros (x & [?| ->%list_elem_of_singleton]%elem_of_app & <- & ?); [left; by exists x|by right]]).
Qed.

Lemma add_dependencies_spec b digest v d :
  d ∈ add_dependencies_for b digest v ↔
  d ∈ v ∨ ∃ k, k ∈ default [] (overwrite_versions b !! digest) ∧ d ∈ default [] (read_version b !! k).
Proof.
  unfold add_dependencies_for. destruct (overwrite_versions b !! digest) as [ks|]; simpl; [|set_solver].
  assert (∀ l (v : gset TransactionDigest), d ∈ foldl (λ v dep, {[dep]} ∪ v) v l ↔ d ∈ v ∨ d ∈ l) as Hadd.
  { clear. intros l. induction l as [|x l IH]; intros v; simpl; [set_solver|]. rewrite IH. set_solver. }
  revert v. induction ks as [|k ks IH]; intros v; simpl; [set_solver|]. rewrite IH.
  destruct (read_version b !! k) as [l|] eqn:Hk; rewrite ?Hadd.
  - split.
    + intros [[?|?]|(k' & ? & ?)]; [by left|right; exists k; rewrite Hk; set_solver|right; set_solver].
    + intros [?|(k' & [->|?]%elem_of_cons & Hd)]; [by left; left|rewrite Hk in Hd; by left; right|].
      right. by exists k'.
  - split.
    + intros [?|(k' & ? & ?)]; [by left|right; set_solver].
    + intros [?|(k' & [->|?]%elem_of_cons & Hd)]; [by left|rewrite Hk in Hd; by apply elem_of_nil in Hd|].
      right. by exists k'.
Qed.

Lemma digest_inj (effects : list TransactionEffects) e e' :
  NoDup (map transaction_digest effects) → e ∈ effects → e' ∈ effects →
  transaction_digest e = transaction_digest e' → e = e'.
Proof.
  intros Hnd He He' Hd. apply list_elem_of_lookup in He as [i Hi], He' as [j Hj].
  assert (i = j) as ->; [|congruence]. eapply NoDup_lookup; [exact Hnd|..]; apply list_lookup_fmap_Some; eauto.
Qed.
Lemma td_dependencies_spec effects e d :
  NoDup (map transaction_digest effects) → e ∈ effects →
  d ∈ td_dependencies (td_from_effects (rwlock_from_effects effects) e) ↔ causal_dep effects e d.
Proof.
  intros Hnd He. simpl. destruct (rwlock_from_effects_spec effects) as [Hr Hw].
  rewrite add_dependencies_spec, elem_of_list_to_set. unfold causal_dep. f_equiv. split.
  - intros (k & (e1 & He1 & Hd1 & Hw1)%Hw & (e2 & He2 & Hd2 & Hr2)%Hr).
    assert (e1 = e) as -> by by eapply digest_inj. by exists e2, k.
  - intros (e' & k & He' & Hd' & Hwk & Hrk). exists k. split; [apply Hw; by exists e|apply Hr; by exists e'].
Qed.

(** * The start of the sort *)

Definition start_deps (effects : list TransactionEffects) (d : TransactionDigest) : gset TransactionDigest :=
  default ∅ (td_dependencies <$> not_seen (causal_from_vec effects) !! d).

Lemma from_vec_lookup effects d t :
  not_seen (causal_from_vec effects) !! d = Some t →
  ∃ e, e ∈ effects ∧ transaction_digest e = d ∧ t = td_from_effects (rwlock_from_effects effects) e.
Proof.
  intros Hin%btree_collect_in. apply list_elem_of_fmap in Hin as (t' & Heq & Hin). simplify_eq.
  apply list_elem_of_fmap in Hin as (e & -> & He). by exists e.
Qed.
Lemma start_ok effects :
  traversal_ok (unseen (not_seen (causal_from_vec effects))) (start_deps effects) [] (causal_from_vec effects).
Proof.
  split; [|set_solver|done]. intros d t Hd. pose proof Hd as (e & _ & <- & ->)%from_vec_lookup.
  split; [done|]. split; [done|]. unfold start_deps.
  change (td_digest (td_from_effects (rwlock_from_effects effects) e)) with (transaction_digest e). by rewrite Hd.
Qed.
Lemma start_digests effects d :
  d ∈ map transaction_digest (unseen (not_seen (causal_from_vec effects))) ↔ d ∈ map transaction_digest effects.
Proof.
  rewrite (traversal_digest _ _ _ _ d (start_ok effects)). simpl.
  assert (is_Some (not_seen (causal_from_vec effects) !! d) ↔ d ∈ map transaction_digest effects) as Hdom.
  { unfold causal_from_vec. simpl. rewrite btree_collect_dom. rewrite <-!list_fmap_compose. done. }
  rewrite <-Hdom. split; [|by right; right].
  intros [?%elem_of_nil|[(s & t & ?%elem_of_nil & _)|?]]; done.
Qed.
Lemma start_nodup effects : NoDup (map transaction_digest (unseen (not_seen (causal_from_vec effects)))).
Proof.
  unfold unseen. rewrite map_map.
  assert (map (λ kv, transaction_digest (td_effects kv.2)) (map_to_list (not_seen (causal_from_vec effects))) =
    (map_to_list (not_seen (causal_from_vec effects))).*1) as ->; [|apply NoDup_fst_map_to_list].
  apply map_ext_in. intros [d t] Hin%list_elem_of_In%elem_of_map_to_list.
  apply from_vec_lookup in Hin as (e & _ & <- & ->). done.
Qed.
Lemma start_perm effects :
  NoDup (map transaction_digest effects) → unseen (not_seen (causal_from_vec effects)) ≡ₚ effects.
Proof.
  intros Hnd. apply NoDup_Permutation.
  - eapply NoDup_fmap_1, start_nodup.
  - by eapply NoDup_fmap_1.
  - intros e. unfold unseen. rewrite list_elem_of_fmap. split.
    + intros ([d t] & -> & (e' & He' & _ & ->)%elem_of_map_to_list%from_vec_lookup). done.
    + intros He. exists (transaction_digest e, td_from_effects (rwlock_from_effects effects) e).
      split; [done|]. apply elem_of_map_to_list, btree_collect_nodup.
      * rewrite <-!list_fmap_compose. done.
      * apply list_elem_of_fmap. eexists. split; [|apply list_elem_of_fmap; by exists e]. done.
Qed.
Lemma start_deps_spec effects e d :
  NoDup (map transaction_digest effects) → e ∈ effects →
  d ∈ start_deps effects (transaction_digest e) ↔ causal_dep effects e d.
Proof.
  intros Hnd He. rewrite <-td_dependencies_spec by done. unfold start_deps.
  assert (is_Some (not_seen (causal_from_vec effects) !! transaction_digest e)) as [t Ht].
  { unfold causal_from_vec. simpl. apply btree_collect_dom. rewrite <-!list_fmap_compose.
    apply list_elem_of_fmap. by exists e. }
  rewrite Ht. apply from_vec_lookup in Ht as (e' & He' & Hd' & ->).
  by assert (e' = e) as -> by by eapply digest_inj.
Qed.

(** * The theorems *)

(** C34: The sort ends on every list of effects, cyclic dependencies and repeated
    digests included, without a panic, and lists one of the effects of each
    transaction once. *)
Theorem causal_sort_total effects :
  ∃ out, causal_sort effects = Done out ∧ NoDup (map transaction_digest out) ∧
    (∀ e, e ∈ out → e ∈ effects) ∧
    ∀ d, d ∈ map transaction_digest out ↔ d ∈ map transaction_digest effects.
Proof.
  unfold causal_sort. pose proof (start_ok effects) as Hstart.
  destruct (sort_loop_keeps _ (size (not_seen (causal_from_vec effects))) _
    (process_traversal _ _) (pop_traversal _ _) Hstart ltac:(done)) as (o & -> & [_ _ Hall] & Hnil).
  rewrite bind_ret_l. exists (output o). rewrite Hnil in Hall. cbn in Hall. rewrite app_nil_r in Hall.
  split; [done|]. split; [rewrite Hall; apply start_nodup|]. split; [|intros d; rewrite Hall; apply start_digests].
  intros e. rewrite Hall. unfold unseen. intros ([d t] & -> & Hin%elem_of_map_to_list)%list_elem_of_fmap.
  by apply from_vec_lookup in Hin as (e & He & _ & ->).
Qed.

(** C27: When the dependencies have no cycle, the output is a permutation of the
    effects in which each transaction comes after every other one of the
    checkpoint it depends on, and after every one that reads a version of a
    shared object it overwrites. *)
Theorem causal_sort_causal effects (rank : TransactionDigest → nat) :
  NoDup (map transaction_digest effects) →
  (∀ e d, e ∈ effects → causal_dep effects e d → d ≠ transaction_digest e →
     d ∈ map transaction_digest effects → (rank d < rank (transaction_digest e))%nat) →
  ∃ out, causal_sort effects = Done out ∧ out ≡ₚ effects ∧
    ∀ i e d, out !! i = Some e → causal_dep effects e d → d ≠ transaction_digest e →
      d ∈ map transaction_digest effects →
      ∃ j e', (j < i)%nat ∧ out !! j = Some e' ∧ transaction_digest e' = d.
Proof.
  intros Hnd Hrank. set (all := unseen (not_seen (causal_from_vec effects))).
  assert (∀ d, d ∈ map transaction_digest all ↔ d ∈ map transaction_digest effects) as Hdig by apply start_digests.
  assert (∀ d d', d ∈ map transaction_digest all → d' ∈ start_deps effects d → d' ≠ d →
    d' ∈ map transaction_digest all → (rank d' < rank d)%nat) as Hrank'.
  { intros d d' (e & -> & He)%Hdig%list_elem_of_fmap Hd' Hne Hin%Hdig.
    apply Hrank; [done|by apply start_deps_spec|done|done]. }
  unfold causal_sort.
  destruct (sort_loop_keeps (sorted_ok all (start_deps effects) rank)
    (size (not_seen (causal_from_vec effects))) (causal_from_vec effects)) as (o & -> & ([_ _ Hall] & _ & Hord) & Hnil).
  - apply process_sorted; [apply start_nodup|done].
  - intros o d t (Htr & _ & Hord) Hd. split; [by apply pop_traversal|]. split; [|done].
    repeat constructor.
  - split; [apply start_ok|]. split; [constructor|]. intros i e d. simpl. by rewrite lookup_nil.
  - done.
  - rewrite bind_ret_l. exists (output o). rewrite Hnil in Hall. cbn in Hall. rewrite app_nil_r in Hall.
    assert (output o ≡ₚ effects) as Hperm by (rewrite Hall; by apply start_perm). split_and!; [done..|].
    intros i e d Hi Hdep Hne Hin. apply (Hord i e d); [done| |done|by apply Hdig].
    apply start_deps_spec; [done| |done]. rewrite <-Hperm. by eapply list_elem_of_lookup_2.
Qed.

(** The order of the result does not depend on the order of the effects in the
    supplied vector. *)
Theorem causal_sort_deterministic effects effects' :
  NoDup (map transaction_digest effects) → effects' ≡ₚ effects → causal_sort effects' = causal_sort effects.
Proof.
  intros Hnd Hperm. assert (NoDup (map transaction_digest effects')) as Hnd' by by rewrite Hperm.
  assert (causal_from_vec effects' = causal_from_vec effects) as Heq; [|unfold causal_sort; by rewrite Heq].
  assert (∀ e, e ∈ effects → td_from_effects (rwlock_from_effects effects') e =
    td_from_effects (rwlock_from_effects effects) e) as Htd.
  { intros e He. unfold td_from_effects. f_equal. apply set_eq. intros d.
    pose proof (td_dependencies_spec effects e d Hnd He) as H1.
    pose proof (td_dependencies_spec effects' e d Hnd' ltac:(by rewrite Hperm)) as H2.
    simpl in H1, H2. rewrite H1, H2. unfold causal_dep. by setoid_rewrite Hperm. }
  unfold causal_from_vec. f_equal. apply map_eq. intros d. apply option_eq. intros t.
  rewrite !btree_collect_nodup by (rewrite <-!list_fmap_compose; done).
  rewrite !list_elem_of_fmap. split; intros (t' & -> & (e & -> & He)%list_elem_of_fmap).
  - rewrite Hperm in He. eexists. split; [reflexivity|]. apply list_elem_of_fmap. exists e. by rewrite Htd.
  - eexists. split; [reflexivity|]. apply list_elem_of_fmap. exists e. rewrite Htd by done. by rewrite Hperm.
Qed.

(** * An example *)

(** Transaction 1 writes version 5 of the shared object 9, which 3 reads; 2
    depends on 1, and 4 on a transaction of another checkpoint. *)
Definition ex_effects : list TransactionEffects :=
  [{| transaction_digest := 1; effects_dependencies := []; input_shared_objects := [Mutate (9, 5, 0)] |};
   {| transaction_digest := 2; effects_dependencies := [1]; input_shared_objects := [] |};
   {| transaction_digest := 3; effects_dependencies := []; input_shared_objects := [ReadOnly (9, 5, 0)] |};
   {| transaction_digest := 4; effects_dependencies := [77]; input_shared_objects := [] |}].
Definition ex_rank (d : TransactionDigest) : nat := if d =? 3 then 0%nat else if d =? 1 then 1%nat else 2%nat.

Lemma ex_acyclic e d :
  e ∈ ex_effects → causal_dep ex_effects e d → d ≠ transaction_digest e →
  d ∈ map transaction_digest ex_effects → (ex_rank d < ex_rank (transaction_digest e))%nat.
Proof.
  intros He [Hd|(e' & k & He' & <- & Hw & Hr)] Hne Hin.
  - repeat (apply elem_of_cons in He as [->|He]; [simpl in *; try by apply elem_of_nil in Hd|]);
      [apply list_elem_of_singleton in Hd as ->; vm_compute; lia| |by apply elem_of_nil in He].
    apply list_elem_of_singleton in Hd as ->. exfalso. cbn in Hin. set_solver.
  - repeat (apply elem_of_cons in He as [->|He]; [cbn in Hw; try by apply elem_of_nil in Hw|]);
      [|apply list_elem_of_singleton in Hw; done|by apply elem_of_nil in He].
    repeat (apply elem_of_cons in He' as [->|He']; [cbn in Hr; try by apply elem_of_nil in Hr|]);
      [apply list_elem_of_singleton in Hr; done|vm_compute; lia|by apply elem_of_nil in He'].
Qed.

Lemma causal_sort_causal_witness :
  map transaction_digest <$> causal_sort ex_effects = Done [3; 1; 2; 4] ∧
  ∃ out, causal_sort ex_effects = Done out ∧ out ≡ₚ ex_effects.
Proof.
  split; [vm_compute; reflexivity|].
  destruct (causal_sort_causal ex_effects ex_rank) as (out & Hrun & Hperm & _).
  - apply (bool_decide_unpack _). vm_compute. exact I.
  - exact ex_acyclic.
  - exists out. split; [exact Hrun|exact Hperm].
Defined.
Lemma causal_sort_deterministic_witness : causal_sort (rev ex_effects) = causal_sort ex_effects.
Proof.
  apply (causal_sort_deterministic ex_effects (rev ex_effects)).
  - apply (bool_decide_unpack _). vm_compute. exact I.
  - symmetry. apply Permutation_rev.
Defined.
