(* ===== verification/MoveIntegers.v ===== *)
(** Integers of the Move VM: [IntegerValue] of
    [move-vm-types/src/values/values_impl.rs], its checked arithmetic, bit
    operations, shifts, comparisons and casts, and the errors of the VM.

    Integers keep their width as the constructor that holds them; a value is a
    [Z] in the range of its width.  The 256-bit integers are the ones of
    [move-core-types/src/u256.rs], whose operations are documented to be those
    of the machine integers at width 256. *)
From S2P Require Import Prelude GasTables MoveValues.

(** * Errors *)

(** A [PartialVMError]: the status code, with the sub-status where the code
    sets one.  [Gas] is an error of the gas meter. *)
Module Vm.
Inductive PartialVMError :=
  (* execution *)
  | ARITHMETIC_ERROR
  | ABORTED (sub_status : Z)
  | VECTOR_OPERATION_ERROR (sub_status : Z)
  | EXECUTION_STACK_OVERFLOW
  | CALL_STACK_OVERFLOW
  | VM_MAX_VALUE_DEPTH_REACHED
  | Gas (e : StatusCode)
  (* invariant violations *)
  | INTERNAL_TYPE_ERROR
  | EMPTY_VALUE_STACK
  | PC_OVERFLOW
  | UNKNOWN_INVARIANT_VIOLATION_ERROR
  | VERIFIER_INVARIANT_VIOLATION
  | TYPE_RESOLUTION_FAILURE
  | FUNCTION_RESOLUTION_FAILURE
  | UNREACHABLE
  (* verification *)
  | CONSTRAINT_NOT_SATISFIED
  | INDEX_OUT_OF_BOUNDS
  | TOO_MANY_LOCALS
  | NUMBER_OF_TYPE_ARGUMENTS_MISMATCH
  | DUPLICATE_ELEMENT
  | ZERO_SIZED_STRUCT
  | INVALID_MODULE_HANDLE
  | UNIMPLEMENTED_HANDLE
  | INVALID_SIGNATURE_TOKEN
  | GENERIC_MEMBER_OPCODE_MISMATCH | INVALID_PHANTOM_TYPE_PARAM_POSITION
  | RECURSIVE_STRUCT_DEFINITION | MISSING_DEPENDENCY
  | EMPTY_CODE_UNIT
  | INVALID_FALL_THROUGH
  | TOO_MANY_BASIC_BLOCKS
  | TOO_MANY_BACK_EDGES
  | VALUE_STACK_PUSH_OVERFLOW
  | VALUE_STACK_OVERFLOW
  | NEGATIVE_STACK_SIZE_WITHIN_BLOCK
  | POSITIVE_STACK_SIZE_AT_BLOCK_END
  | POP_WITHOUT_DROP_ABILITY
  | BR_TYPE_MISMATCH_ERROR
  | STLOC_TYPE_MISMATCH_ERROR
  | ABORT_TYPE_MISMATCH_ERROR
  | RET_TYPE_MISMATCH_ERROR
  | COPYLOC_WITHOUT_COPY_ABILITY
  | CALL_TYPE_MISMATCH_ERROR
  | PACK_TYPE_MISMATCH_ERROR
  | UNPACK_TYPE_MISMATCH_ERROR
  | INTEGER_OP_TYPE_MISMATCH_ERROR
  | BOOLEAN_OP_TYPE_MISMATCH_ERROR
  | EQUALITY_OP_TYPE_MISMATCH_ERROR
  | TYPE_MISMATCH
  | STLOC_UNSAFE_TO_DESTROY_ERROR
  | MOVELOC_UNAVAILABLE_ERROR
  | COPYLOC_UNAVAILABLE_ERROR
  | UNSAFE_RET_UNUSED_VALUES_WITHOUT_DROP.
End Vm.

(** [PartialVMResult]. *)
Notation vmresult A := (result A Vm.PartialVMError).

(** [Option::ok_or_else]. *)
Definition ok_or {A E} (o : option A) (e : E) : result A E :=
  match o with Some a => Ok a | None => Err e end.

(** * Machine integers of any width *)

(** The [checked_*] methods at width [w]. *)
Definition checked_add (w l r : Z) : option Z := if l + r <? 2 ^ w then Some (l + r) else None.
Definition checked_sub (w l r : Z) : option Z := if r <=? l then Some (l - r) else None.
Definition checked_mul (w l r : Z) : option Z := if l * r <? 2 ^ w then Some (l * r) else None.
Definition checked_div (w l r : Z) : option Z := if r =? 0 then None else Some (l / r).
Definition checked_rem (w l r : Z) : option Z := if r =? 0 then None else Some (l mod r).
(** [<<] and [>>] by less than the width: bits shifted out are lost. *)
Definition shl (w x n : Z) : Z := Z.shiftl x n mod 2 ^ w.
Definition shr (w x n : Z) : Z := Z.shiftr x n.

(** * [IntegerValue] *)
Module I.
Inductive IntegerValue :=
  | U8 (x : Z) | U16 (x : Z) | U32 (x : Z) | U64 (x : Z) | U128 (x : Z) | U256 (x : Z).
End I.
Notation IntegerValue := I.IntegerValue.

Definition add_checked (self other : IntegerValue) : vmresult IntegerValue :=
  match self, other with
  | I.U8 l, I.U8 r => ok_or (I.U8 <$> checked_add 8 l r) Vm.ARITHMETIC_ERROR
  | I.U16 l, I.U16 r => ok_or (I.U16 <$> checked_add 16 l r) Vm.ARITHMETIC_ERROR
  | I.U32 l, I.U32 r => ok_or (I.U32 <$> checked_add 32 l r) Vm.ARITHMETIC_ERROR
  | I.U64 l, I.U64 r => ok_or (I.U64 <$> checked_add 64 l r) Vm.ARITHMETIC_ERROR
  | I.U128 l, I.U128 r => ok_or (I.U128 <$> checked_add 128 l r) Vm.ARITHMETIC_ERROR
  | I.U256 l, I.U256 r => ok_or (I.U256 <$> checked_add 256 l r) Vm.ARITHMETIC_ERROR
  | _, _ => Err Vm.INTERNAL_TYPE_ERROR
  end.
Definition sub_checked (self other : IntegerValue) : vmresult IntegerValue :=
  match self, other with
  | I.U8 l, I.U8 r => ok_or (I.U8 <$> checked_sub 8 l r) Vm.ARITHMETIC_ERROR
  | I.U16 l, I.U16 r => ok_or (I.U16 <$> checked_sub 16 l r) Vm.ARITHMETIC_ERROR
  | I.U32 l, I.U32 r => ok_or (I.U32 <$> checked_sub 32 l r) Vm.ARITHMETIC_ERROR
  | I.U64 l, I.U64 r => ok_or (I.U64 <$> checked_sub 64 l r) Vm.ARITHMETIC_ERROR
  | I.U128 l, I.U128 r => ok_or (I.U128 <$> checked_sub 128 l r) Vm.ARITHMETIC_ERROR
  | I.U256 l, I.U256 r => ok_or (I.U256 <$> checked_sub 256 l r) Vm.ARITHMETIC_ERROR
  | _, _ => Err Vm.INTERNAL_TYPE_ERROR
  end.
Definition mul_checked (self other : IntegerValue) : vmresult IntegerValue :=
  match self, other with
  | I.U8 l, I.U8 r => ok_or (I.U8 <$> checked_mul 8 l r) Vm.ARITHMETIC_ERROR
  | I.U16 l, I.U16 r => ok_or (I.U16 <$> checked_mul 16 l r) Vm.ARITHMETIC_ERROR
  | I.U32 l, I.U32 r => ok_or (I.U32 <$> checked_mul 32 l r) Vm.ARITHMETIC_ERROR
  | I.U64 l, I.U64 r => ok_or (I.U64 <$> checked_mul 64 l r) Vm.ARITHMETIC_ERROR
  | I.U128 l, I.U128 r => ok_or (I.U128 <$> checked_mul 128 l r) Vm.ARITHMETIC_ERROR
  | I.U256 l, I.U256 r => ok_or (I.U256 <$> checked_mul 256 l r) Vm.ARITHMETIC_ERROR
  | _, _ => Err Vm.INTERNAL_TYPE_ERROR
  end.
Definition div_checked (self other : IntegerValue) : vmresult IntegerValue :=
  match self, other with
  | I.U8 l, I.U8 r => ok_or (I.U8 <$> checked_div 8 l r) Vm.ARITHMETIC_ERROR
  | I.U16 l, I.U16 r => ok_or (I.U16 <$> checked_div 16 l r) Vm.ARITHMETIC_ERROR
  | I.U32 l, I.U32 r => ok_or (I.U32 <$> checked_div 32 l r) Vm.ARITHMETIC_ERROR
  | I.U64 l, I.U64 r => ok_or (I.U64 <$> checked_div 64 l r) Vm.ARITHMETIC_ERROR
  | I.U128 l, I.U128 r => ok_or (I.U128 <$> checked_div 128 l r) Vm.ARITHMETIC_ERROR
  | I.U256 l, I.U256 r => ok_or (I.U256 <$> checked_div 256 l r) Vm.ARITHMETIC_ERROR
  | _, _ => Err Vm.INTERNAL_TYPE_ERROR
  end.
Definition rem_checked (self other : IntegerValue) : vmresult IntegerValue :=
  match self, other with
  | I.U8 l, I.U8 r => ok_or (I.U8 <$> checked_rem 8 l r) Vm.ARITHMETIC_ERROR
  | I.U16 l, I.U16 r => ok_or (I.U16 <$> checked_rem 16 l r) Vm.ARITHMETIC_ERROR
  | I.U32 l, I.U32 r => ok_or (I.U32 <$> checked_rem 32 l r) Vm.ARITHMETIC_ERROR
  | I.U64 l, I.U64 r => ok_or (I.U64 <$> checked_rem 64 l r) Vm.ARITHMETIC_ERROR
  | I.U128 l, I.U128 r => ok_or (I.U128 <$> checked_rem 128 l r) Vm.ARITHMETIC_ERROR
  | I.U256 l, I.U256 r => ok_or (I.U256 <$> checked_rem 256 l r) Vm.ARITHMETIC_ERROR
  | _, _ => Err Vm.INTERNAL_TYPE_ERROR
  end.

Definition bit_or (self other : IntegerValue) : vmresult IntegerValue :=
  match self, other with
  | I.U8 l, I.U8 r => Ok (I.U8 (Z.lor l r))
  | I.U16 l, I.U16 r => Ok (I.U16 (Z.lor l r))
  | I.U32 l, I.U32 r => Ok (I.U32 (Z.lor l r))
  | I.U64 l, I.U64 r => Ok (I.U64 (Z.lor l r))
  | I.U128 l, I.U128 r => Ok (I.U128 (Z.lor l r))
  | I.U256 l, I.U256 r => Ok (I.U256 (Z.lor l r))
  | _, _ => Err Vm.INTERNAL_TYPE_ERROR
  end.
Definition bit_and (self other : IntegerValue) : vmresult IntegerValue :=
  match self, other with
  | I.U8 l, I.U8 r => Ok (I.U8 (Z.land l r))
  | I.U16 l, I.U16 r => Ok (I.U16 (Z.land l r))
  | I.U32 l, I.U32 r => Ok (I.U32 (Z.land l r))
  | I.U64 l, I.U64 r => Ok (I.U64 (Z.land l r))
  | I.U128 l, I.U128 r => Ok (I.U128 (Z.land l r))
  | I.U256 l, I.U256 r => Ok (I.U256 (Z.land l r))
  | _, _ => Err Vm.INTERNAL_TYPE_ERROR
  end.
Definition bit_xor (self other : IntegerValue) : vmresult IntegerValue :=
  match self, other with
  | I.U8 l, I.U8 r => Ok (I.U8 (Z.lxor l r))
  | I.U16 l, I.U16 r => Ok (I.U16 (Z.lxor l r))
  | I.U32 l, I.U32 r => Ok (I.U32 (Z.lxor l r))
  | I.U64 l, I.U64 r => Ok (I.U64 (Z.lxor l r))
  | I.U128 l, I.U128 r => Ok (I.U128 (Z.lxor l r))
  | I.U256 l, I.U256 r => Ok (I.U256 (Z.lxor l r))
  | _, _ => Err Vm.INTERNAL_TYPE_ERROR
  end.

Definition shl_checked (self : IntegerValue) (n_bits : Z) : vmresult IntegerValue :=
  match self with
  | I.U8 x => if 8 <=? n_bits then Err Vm.ARITHMETIC_ERROR else Ok (I.U8 (shl 8 x n_bits))
  | I.U16 x => if 16 <=? n_bits then Err Vm.ARITHMETIC_ERROR else Ok (I.U16 (shl 16 x n_bits))
  | I.U32 x => if 32 <=? n_bits then Err Vm.ARITHMETIC_ERROR else Ok (I.U32 (shl 32 x n_bits))
  | I.U64 x => if 64 <=? n_bits then Err Vm.ARITHMETIC_ERROR else Ok (I.U64 (shl 64 x n_bits))
  | I.U128 x => if 128 <=? n_bits then Err Vm.ARITHMETIC_ERROR else Ok (I.U128 (shl 128 x n_bits))
  | I.U256 x => Ok (I.U256 (shl 256 x n_bits))
  end.
Definition shr_checked (self : IntegerValue) (n_bits : Z) : vmresult IntegerValue :=
  match self with
  | I.U8 x => if 8 <=? n_bits then Err Vm.ARITHMETIC_ERROR else Ok (I.U8 (shr 8 x n_bits))
  | I.U16 x => if 16 <=? n_bits then Err Vm.ARITHMETIC_ERROR else Ok (I.U16 (shr 16 x n_bits))
  | I.U32 x => if 32 <=? n_bits then Err Vm.ARITHMETIC_ERROR else Ok (I.U32 (shr 32 x n_bits))
  | I.U64 x => if 64 <=? n_bits then Err Vm.ARITHMETIC_ERROR else Ok (I.U64 (shr 64 x n_bits))
  | I.U128 x => if 128 <=? n_bits then Err Vm.ARITHMETIC_ERROR else Ok (I.U128 (shr 128 x n_bits))
  | I.U256 x => Ok (I.U256 (shr 256 x n_bits))
  end.

Definition int_lt (self other : IntegerValue) : vmresult bool :=
  match self, other with
  | I.U8 l, I.U8 r | I.U16 l, I.U16 r | I.U32 l, I.U32 r
  | I.U64 l, I.U64 r | I.U128 l, I.U128 r | I.U256 l, I.U256 r => Ok (l <? r)
  | _, _ => Err Vm.INTERNAL_TYPE_ERROR
  end.
Definition int_le (self other : IntegerValue) : vmresult bool :=
  match self, other with
  | I.U8 l, I.U8 r | I.U16 l, I.U16 r | I.U32 l, I.U32 r
  | I.U64 l, I.U64 r | I.U128 l, I.U128 r | I.U256 l, I.U256 r => Ok (l <=? r)
  | _, _ => Err Vm.INTERNAL_TYPE_ERROR
  end.
Definition int_gt (self other : IntegerValue) : vmresult bool :=
  match self, other with
  | I.U8 l, I.U8 r | I.U16 l, I.U16 r | I.U32 l, I.U32 r
  | I.U64 l, I.U64 r | I.U128 l, I.U128 r | I.U256 l, I.U256 r => Ok (r <? l)
  | _, _ => Err Vm.INTERNAL_TYPE_ERROR
  end.
Definition int_ge (self other : IntegerValue) : vmresult bool :=
  match self, other with
  | I.U8 l, I.U8 r | I.U16 l, I.U16 r | I.U32 l, I.U32 r
  | I.U64 l, I.U64 r | I.U128 l, I.U128 r | I.U256 l, I.U256 r => Ok (r <=? l)
  | _, _ => Err Vm.INTERNAL_TYPE_ERROR
  end.

Definition into_value (self : IntegerValue) : ValueImpl :=
  match self with
  | I.U8 x => U8 x | I.U16 x => U16 x | I.U32 x => U32 x
  | I.U64 x => U64 x | I.U128 x => U128 x | I.U256 x => U256 x
  end.

(** A cast to a narrower width: an error above the greatest value of it. *)
Definition narrow (max x : Z) : vmresult Z :=
  if max <? x then Err Vm.ARITHMETIC_ERROR else Ok x.
Definition u16_max : Z := 2 ^ 16 - 1.

Definition cast_u8 (self : IntegerValue) : vmresult Z :=
  match self with
  | I.U8 x => Ok x
  | I.U16 x | I.U32 x | I.U64 x | I.U128 x | I.U256 x => narrow u8_max x
  end.
Definition cast_u16 (self : IntegerValue) : vmresult Z :=
  match self with
  | I.U8 x | I.U16 x => Ok x
  | I.U32 x | I.U64 x | I.U128 x | I.U256 x => narrow u16_max x
  end.
Definition cast_u32 (self : IntegerValue) : vmresult Z :=
  match self with
  | I.U8 x | I.U16 x | I.U32 x => Ok x
  | I.U64 x | I.U128 x | I.U256 x => narrow u32_max x
  end.
Definition cast_u64 (self : IntegerValue) : vmresult Z :=
  match self with
  | I.U8 x | I.U16 x | I.U32 x | I.U64 x => Ok x
  | I.U128 x | I.U256 x => narrow u64_max x
  end.
Definition cast_u128 (self : IntegerValue) : vmresult Z :=
  match self with
  | I.U8 x | I.U16 x | I.U32 x | I.U64 x | I.U128 x => Ok x
  | I.U256 x => narrow u128_max x
  end.
Definition cast_u256 (self : IntegerValue) : vmresult Z :=
  match self with
  | I.U8 x | I.U16 x | I.U32 x | I.U64 x | I.U128 x | I.U256 x => Ok x
  end.

(** * What the operations compute *)

(** The width of an integer, its value, and another integer of its width. *)
Definition int_bits (v : IntegerValue) : Z :=
  match v with
  | I.U8 _ => 8 | I.U16 _ => 16 | I.U32 _ => 32 | I.U64 _ => 64 | I.U128 _ => 128 | I.U256 _ => 256
  end.
Definition int_val (v : IntegerValue) : Z :=
  match v with I.U8 x | I.U16 x | I.U32 x | I.U64 x | I.U128 x | I.U256 x => x end.
Definition int_of (v : IntegerValue) (z : Z) : IntegerValue :=
  match v with
  | I.U8 _ => I.U8 z | I.U16 _ => I.U16 z | I.U32 _ => I.U32 z
  | I.U64 _ => I.U64 z | I.U128 _ => I.U128 z | I.U256 _ => I.U256 z
  end.
Definition int_ok (v : IntegerValue) : Prop := 0 ≤ int_val v < 2 ^ int_bits v.

(** The exact result [z] when it fits the width, an arithmetic error otherwise. *)
Definition fits (v : IntegerValue) (z : Z) : vmresult IntegerValue :=
  if (0 <=? z) && (z <? 2 ^ int_bits v) then Ok (int_of v z) else Err Vm.ARITHMETIC_ERROR.

(** The binary operations, by what they compute on operands of one width. *)
Inductive int_op : (IntegerValue → IntegerValue → vmresult IntegerValue) → Type :=
  | op_add : int_op add_checked
  | op_sub : int_op sub_checked
  | op_mul : int_op mul_checked
  | op_div : int_op div_checked
  | op_rem : int_op rem_checked
  | op_or : int_op bit_or
  | op_and : int_op bit_and
  | op_xor : int_op bit_xor.
Definition op_result {f} (o : int_op f) (l r : IntegerValue) : vmresult IntegerValue :=
  let x := int_val l in let y := int_val r in
  match o with
  | op_add => fits l (x + y)
  | op_sub => fits l (x - y)
  | op_mul => fits l (x * y)
  | op_div => if y =? 0 then Err Vm.ARITHMETIC_ERROR else Ok (int_of l (x / y))
  | op_rem => if y =? 0 then Err Vm.ARITHMETIC_ERROR else Ok (int_of l (x mod y))
  | op_or => Ok (int_of l (Z.lor x y))
  | op_and => Ok (int_of l (Z.land x y))
  | op_xor => Ok (int_of l (Z.lxor x y))
  end.

Lemma int_bits_pos v : 0 < int_bits v.
Proof. by destruct v. Qed.
Lemma int_of_bits v z : int_bits (int_of v z) = int_bits v.
Proof. by destruct v. Qed.
Lemma int_of_val v z : int_val (int_of v z) = z.
Proof. by destruct v. Qed.
Lemma int_of_ok v z : int_ok (int_of v z) ↔ 0 ≤ z < 2 ^ int_bits v.
Proof. unfold int_ok. by rewrite int_of_bits, int_of_val. Qed.

(** Bits outside of the width stay clear. *)
Lemma bits_below w z : 0 ≤ w → 0 ≤ z → (z < 2 ^ w ↔ ∀ i, w ≤ i → Z.testbit z i = false).
Proof.
  intros Hw Hz. split.
  - intros Hlt i Hi. destruct (decide (z = 0)) as [->|]; [apply Z.testbit_0_l|].
    apply Z.bits_above_log2; [done|]. apply Z.log2_lt_pow2 in Hlt; lia.
  - intros Hbits. rewrite <-(Z.mod_small z (2 ^ w)) at 1.
    + apply Z.mod_pos_bound. lia.
    + enough (z = z mod 2 ^ w) as -> by (apply Z.mod_pos_bound; lia).
      apply Z.bits_inj'. intros i Hi. destruct (decide (i < w)).
      * by rewrite Z.mod_pow2_bits_low.
      * rewrite Z.mod_pow2_bits_high, Hbits by lia. done.
Qed.
Lemma bitwise_below (f : Z → Z → Z) (g : bool → bool → bool) w x y :
  (∀ i, Z.testbit (f x y) i = g (Z.testbit x i) (Z.testbit y i)) → g false false = false →
  (0 ≤ x → 0 ≤ y → 0 ≤ f x y) → 0 ≤ w →
  0 ≤ x < 2 ^ w → 0 ≤ y < 2 ^ w → 0 ≤ f x y < 2 ^ w.
Proof.
  intros Hf Hg Hpos Hw [Hx0 Hx] [Hy0 Hy]. specialize (Hpos Hx0 Hy0). split; [done|].
  apply bits_below; [done..|]. intros i Hi. rewrite Hf.
  by rewrite (proj1 (bits_below w x Hw Hx0) Hx i Hi), (proj1 (bits_below w y Hw Hy0) Hy i Hi).
Qed.

(** What an operation returns on operands of one width stays in range. *)
Lemma op_result_ok {f} (o : int_op f) l r v :
  int_ok l → int_ok r → int_bits l = int_bits r →
  op_result o l r = Ok v → int_bits v = int_bits l ∧ int_ok v.
Proof.
  unfold int_ok at 1 2. intros Hl Hr Hb Hv. pose proof (int_bits_pos l) as Hpos. rewrite <-Hb in Hr.
  assert (∃ z, v = int_of l z ∧ 0 ≤ z < 2 ^ int_bits l) as (z & -> & Hz);
    [|by rewrite int_of_bits, int_of_ok].
  destruct o; simpl in Hv; unfold fits in Hv.
  1-3: case_match eqn:Hfit; bool_prop; simplify_eq; eauto.
  1,2: case_test (int_val r =? 0) as Hz; simplify_eq; eexists; (split; [done|]).
  - pose proof (Z.div_le_upper_bound (int_val l) (int_val r) (int_val l)).
    pose proof (Z.div_pos (int_val l) (int_val r)). nia.
  - pose proof (Z.mod_pos_bound (int_val l) (int_val r)). lia.
  - simplify_eq. eexists. split; [done|].
    apply (bitwise_below Z.lor orb); [apply Z.lor_spec|done| |lia|done..]. by rewrite Z.lor_nonneg.
  - simplify_eq. eexists. split; [done|].
    apply (bitwise_below Z.land andb); [apply Z.land_spec|done| |lia|done..].
    rewrite Z.land_nonneg. by left.
  - simplify_eq. eexists. split; [done|].
    apply (bitwise_below Z.lxor xorb); [apply Z.lxor_spec|done| |lia|done..].
    by rewrite Z.lxor_nonneg.
Qed.

Lemma binary_op_exact {f} (o : int_op f) l r :
  int_ok l → int_ok r →
  f l r = if int_bits l =? int_bits r then op_result o l r else Err Vm.INTERNAL_TYPE_ERROR.
Proof.
  unfold int_ok. intros Hl Hr. destruct o, l as [x|x|x|x|x|x], r as [y|y|y|y|y|y]; simpl in *; try done;
    unfold checked_add, checked_sub, checked_mul, checked_div, checked_rem, fits; simpl int_bits.
  1-6: rewrite (proj2 (Z.leb_le 0 _)) by lia; simpl; by case_match.
  1-6: rewrite (proj2 (Z.ltb_lt (x - y) _)) by lia; rewrite andb_true_r;
    case_test (y <=? x) as Hc; [rewrite (proj2 (Z.leb_le _ _)) by lia; done|];
    rewrite (proj2 (Z.leb_gt _ _)) by lia; done.
  1-6: rewrite (proj2 (Z.leb_le 0 _)) by nia; simpl; by case_match.
  all: by case_match.
Qed.

(** A [u8] shifts by less than 256. *)
Definition is_u8 (z : Z) : Prop := 0 ≤ z ≤ u8_max.

Lemma shl_exact v n : int_ok v → is_u8 n →
  shl_checked v n =
    if int_bits v <=? n then Err Vm.ARITHMETIC_ERROR
    else Ok (int_of v ((int_val v * 2 ^ n) mod 2 ^ int_bits v)).
Proof.
  unfold is_u8, u8_max. intros Hv Hn. rewrite <-Z.shiftl_mul_pow2 by lia.
  destruct v; simpl; try (by case_match). by rewrite (proj2 (Z.leb_gt _ _)) by lia.
Qed.
Lemma shr_exact v n : int_ok v → is_u8 n →
  shr_checked v n =
    if int_bits v <=? n then Err Vm.ARITHMETIC_ERROR else Ok (int_of v (int_val v / 2 ^ n)).
Proof.
  unfold is_u8, u8_max. intros Hv Hn. rewrite <-Z.shiftr_div_pow2 by lia.
  destruct v; simpl; try (by case_match). by rewrite (proj2 (Z.leb_gt _ _)) by lia.
Qed.
Lemma shl_ok v n w : int_ok v → is_u8 n → shl_checked v n = Ok w → int_bits w = int_bits v ∧ int_ok w.
Proof.
  intros Hv Hn. rewrite shl_exact by done. case_match; [done|]. intros [= <-].
  rewrite int_of_bits, int_of_ok. split; [done|]. apply Z.mod_pos_bound. pose proof (int_bits_pos v). lia.
Qed.
Lemma shr_ok v n w : int_ok v → is_u8 n → shr_checked v n = Ok w → int_bits w = int_bits v ∧ int_ok w.
Proof.
  intros Hv Hn. rewrite shr_exact by done. case_match; [done|]. intros [= <-].
  rewrite int_of_bits, int_of_ok. split; [done|]. unfold is_u8, int_ok in *.
  pose proof (Z.pow_pos_nonneg 2 n).
  pose proof (Z.div_pos (int_val v) (2 ^ n)).
  pose proof (Z.div_le_upper_bound (int_val v) (2 ^ n) (int_val v)). nia.
Qed.

(** The casts, each with the width it casts to. *)
Inductive int_cast : (IntegerValue → vmresult Z) → Z → Type :=
  | to_u8 : int_cast cast_u8 8
  | to_u16 : int_cast cast_u16 16
  | to_u32 : int_cast cast_u32 32
  | to_u64 : int_cast cast_u64 64
  | to_u128 : int_cast cast_u128 128
  | to_u256 : int_cast cast_u256 256.
Lemma cast_exact {f w} (c : int_cast f w) v : int_ok v →
  f v = if int_val v <? 2 ^ w then Ok (int_val v) else Err Vm.ARITHMETIC_ERROR.
Proof.
  unfold int_ok. intros Hv.
  destruct c, v as [x|x|x|x|x|x]; simpl in *; unfold narrow, u8_max, u16_max, u32_max, u64_max, u128_max;
    try (rewrite (proj2 (Z.ltb_lt x _)) by lia; done).
  all: repeat case_match; bool_prop; done || lia.
Qed.

(** The comparisons. *)
Inductive int_cmp : (IntegerValue → IntegerValue → vmresult bool) → (Z → Z → bool) → Type :=
  | cmp_lt : int_cmp int_lt Z.ltb
  | cmp_le : int_cmp int_le Z.leb
  | cmp_gt : int_cmp int_gt (λ x y, y <? x)
  | cmp_ge : int_cmp int_ge (λ x y, y <=? x).
Lemma compare_exact {f g} (c : int_cmp f g) l r :
  f l r = if int_bits l =? int_bits r then Ok (g (int_val l) (int_val r)) else Err Vm.INTERNAL_TYPE_ERROR.
Proof. by destruct c, l, r. Qed.

(** C30: The integer operations of the VM compute exactly what they should at
    every width.  On in-range operands of one width, addition, subtraction and
    multiplication return the mathematical result when it fits the width and
    an arithmetic error otherwise; division and remainder fail exactly on
    zero; the bit operations act bit by bit.  A shift fails exactly when it is
    by the width or more, so never at 256 bits, and otherwise multiplies
    modulo the width or divides; a cast fails exactly when the value does not
    fit.  Operands of different widths are an internal type error, and every
    integer that is returned has the width of its operand and is in range. *)
Theorem integer_operations_exact (l r : IntegerValue) (n : Z) :
  int_ok l → int_ok r → is_u8 n →
  (∀ f (o : int_op f),
     f l r = (if int_bits l =? int_bits r then op_result o l r else Err Vm.INTERNAL_TYPE_ERROR) ∧
     (∀ v, f l r = Ok v → int_bits v = int_bits l ∧ int_ok v)) ∧
  (∀ f g (c : int_cmp f g),
     f l r = if int_bits l =? int_bits r then Ok (g (int_val l) (int_val r))
             else Err Vm.INTERNAL_TYPE_ERROR) ∧
  shl_checked l n =
    (if int_bits l <=? n then Err Vm.ARITHMETIC_ERROR
     else Ok (int_of l ((int_val l * 2 ^ n) mod 2 ^ int_bits l))) ∧
  shr_checked l n =
    (if int_bits l <=? n then Err Vm.ARITHMETIC_ERROR else Ok (int_of l (int_val l / 2 ^ n))) ∧
  (∀ v, shl_checked l n = Ok v ∨ shr_checked l n = Ok v → int_bits v = int_bits l ∧ int_ok v) ∧
  (∀ f w (c : int_cast f w),
     f l = if int_val l <? 2 ^ w then Ok (int_val l) else Err Vm.ARITHMETIC_ERROR).
Proof.
  intros Hl Hr Hn. split_and!.
  - intros f o. rewrite (binary_op_exact o) by done. split; [done|].
    case_test (int_bits l =? int_bits r) as Hb; [|done]. intros v. by apply op_result_ok.
  - intros f g c. exact (compare_exact c l r).
  - by apply shl_exact.
  - by apply shr_exact.
  - intros v [H|H]; [by apply (shl_ok l n)|by apply (shr_ok l n)].
  - intros f w c. by apply (cast_exact c).
Qed.

Lemma integer_operations_exact_witness :
  add_checked (I.U8 200) (I.U8 100) = Err Vm.ARITHMETIC_ERROR ∧
  add_checked (I.U8 200) (I.U8 55) = Ok (I.U8 255) ∧
  shl_checked (I.U8 200) 3 = Ok (I.U8 64) ∧
  cast_u8 (I.U8 200) = Ok 200.
Proof.
  assert (∀ x, 0 ≤ x ≤ 255 → int_ok (I.U8 x)) as Hok by (intros x ?; unfold int_ok; simpl; lia).
  destruct (integer_operations_exact (I.U8 200) (I.U8 100) 3) as (Hop & _ & Hshl & _ & _ & Hcast);
    [apply Hok; lia|apply Hok; lia|split; vm_compute; discriminate|].
  destruct (integer_operations_exact (I.U8 200) (I.U8 55) 3) as (Hop' & _);
    [apply Hok; lia|apply Hok; lia|split; vm_compute; discriminate|].
  split_and!; [exact (proj1 (Hop _ op_add))|exact (proj1 (Hop' _ op_add))|exact Hshl|exact (Hcast _ _ to_u8)].
Defined.
