(* ===== verification/MoveModule.v ===== *)
(** Compiled Move modules: [move-binary-format/src/file_format.rs] (types,
    abilities, instructions, the tables of a module),
    [move-binary-format/src/binary_views.rs] (the abilities of a type),
    [move-binary-format/src/check_bounds.rs] (the bounds checker),
    [move-bytecode-verifier/src/check_duplication.rs] and
    [move-bytecode-verifier/src/signature.rs] (the signature checker).

    The instructions are those of programs without references, type
    arguments, constants from the constant pool and the deprecated global
    storage; the tables those need (field handles, instantiations, constants,
    friends) are left out with them.  Indexes into tables and offsets into
    code are naturals: [u16] bounds every one of them, since a module with
    more is not deserialized. *)
From S2P Require Import Prelude Objects Errors MoveIntegers.

(** * Types *)

Module ST.
Inductive SignatureToken : Type :=
  | Bool | U8 | U64 | U128 | Address | Signer
  | Vector (ty : SignatureToken)
  | Struct (idx : nat)
  | StructInstantiation (idx : nat) (tys : list SignatureToken)
  | Reference (ty : SignatureToken)
  | MutableReference (ty : SignatureToken)
  | TypeParameter (idx : nat)
  | U16 | U32 | U256.
End ST.
Notation SignatureToken := ST.SignatureToken.
(** A [Signature] is its list of types. *)
Notation Signature := (list SignatureToken).

Fixpoint token_eqb (s t : SignatureToken) : bool :=
  match s, t with
  | ST.Bool, ST.Bool | ST.U8, ST.U8 | ST.U16, ST.U16 | ST.U32, ST.U32 | ST.U64, ST.U64
  | ST.U128, ST.U128 | ST.U256, ST.U256 | ST.Address, ST.Address | ST.Signer, ST.Signer => true
  | ST.Vector s, ST.Vector t | ST.Reference s, ST.Reference t
  | ST.MutableReference s, ST.MutableReference t => token_eqb s t
  | ST.Struct i, ST.Struct j | ST.TypeParameter i, ST.TypeParameter j => (i =? j)%nat
  | ST.StructInstantiation i ss, ST.StructInstantiation j ts =>
      (i =? j)%nat &&
      (fix tokens_eqb (ss ts : list SignatureToken) : bool :=
         match ss, ts with
         | [], [] => true
         | s :: ss, t :: ts => token_eqb s t && tokens_eqb ss ts
         | _, _ => false
         end) ss ts
  | _, _ => false
  end.

Fixpoint token_eqb_eq (s t : SignatureToken) {struct s} : token_eqb s t = true ↔ s = t.
Proof.
  destruct s as [| | | | | |s|i|i ss|s|s|i| | |], t as [| | | | | |t|j|j ts|t|t|j| | |]; simpl;
    try (split; [discriminate 1|discriminate 1]); try (split; done).
  1,4,5: rewrite token_eqb_eq; split; [by intros ->|by intros [= ->]].
  1,3: rewrite Nat.eqb_eq; split; [by intros ->|by intros [= ->]].
  rewrite andb_true_iff, Nat.eqb_eq.
  assert ((fix tokens_eqb (ss ts : list SignatureToken) : bool :=
    match ss, ts with
    | [], [] => true
    | s :: ss, t :: ts => token_eqb s t && tokens_eqb ss ts
    | _, _ => false
    end) ss ts = true ↔ ss = ts) as ->.
  { revert ts. induction ss as [|s ss IH]; intros [|t ts]; try (split; done).
    rewrite andb_true_iff, token_eqb_eq, IH. split; [by intros [-> ->]|by intros [= -> ->]]. }
  split; [by intros [-> ->]|by intros [= -> ->]].
Qed.
#[export] Instance SignatureToken_eq_dec : EqDecision SignatureToken.
Proof.
  intros s t. destruct (token_eqb s t) eqn:H; [left; by apply token_eqb_eq|right].
  intros Heq. by apply token_eqb_eq in Heq; rewrite H in Heq.
Defined.

Definition is_integer (t : SignatureToken) : bool :=
  match t with
  | ST.U8 | ST.U16 | ST.U32 | ST.U64 | ST.U128 | ST.U256 => true
  | _ => false
  end.

(** The tokens of a type, root first. *)
Fixpoint preorder_traversal (t : SignatureToken) : list SignatureToken :=
  t :: match t with
       | ST.Reference t | ST.MutableReference t | ST.Vector t => preorder_traversal t
       | ST.StructInstantiation _ ts => flat_map preorder_traversal ts
       | _ => []
       end.

(** * Abilities *)

(** [Ability] as its bit, [AbilitySet] as the bits of its members. *)
Definition ABILITY_COPY : Z := 1.
Definition ABILITY_DROP : Z := 2.
Definition ABILITY_STORE : Z := 4.
Definition ABILITY_KEY : Z := 8.
Definition AbilitySet : Type := Z.
Definition ABILITIES_EMPTY : AbilitySet := 0.
Definition ABILITIES_PRIMITIVES : AbilitySet := Z.lor (Z.lor ABILITY_COPY ABILITY_DROP) ABILITY_STORE.
Definition ABILITIES_REFERENCES : AbilitySet := Z.lor ABILITY_COPY ABILITY_DROP.
Definition ABILITIES_SIGNER : AbilitySet := ABILITY_DROP.
Definition ABILITIES_VECTOR : AbilitySet := Z.lor (Z.lor ABILITY_COPY ABILITY_DROP) ABILITY_STORE.

Definition has_ability (s : AbilitySet) (a : Z) : bool := Z.land a s =? a.
Definition has_copy (s : AbilitySet) : bool := has_ability s ABILITY_COPY.
Definition has_drop (s : AbilitySet) : bool := has_ability s ABILITY_DROP.

Definition required_by (a : Z) : AbilitySet :=
  if a =? ABILITY_COPY then ABILITY_COPY
  else if a =? ABILITY_DROP then ABILITY_DROP
  else if a =? ABILITY_STORE then Z.lor ABILITY_STORE ABILITY_KEY
  else ABILITIES_EMPTY.
(** The members of a set, in the order of [AbilitySetIterator]. *)
Definition ability_iter (s : AbilitySet) : list Z :=
  filter (λ a, Z.land s a = a) [ABILITY_COPY; ABILITY_DROP; ABILITY_STORE; ABILITY_KEY].
Definition polymorphic_abilities (declared : AbilitySet) (phantom : list bool)
    (type_arguments : list AbilitySet) : vmresult AbilitySet :=
  if negb (length phantom =? length type_arguments)%nat then Err Vm.VERIFIER_INVARIANT_VIOLATION
  else
    let required := map (λ p : AbilitySet * bool,
      foldl Z.lor ABILITIES_EMPTY (map required_by (ability_iter p.1)))
      (filter (λ p : AbilitySet * bool, p.2 = false) (zip type_arguments phantom)) in
    Ok (foldl Z.land declared required).

(** * Instructions *)

Module Bc.
Inductive Bytecode :=
  | Pop | Ret
  | BrTrue (offset : nat) | BrFalse (offset : nat) | Branch (offset : nat)
  | LdU8 (n : Z) | LdU64 (n : Z) | LdU128 (n : Z)
  | CastU8 | CastU64 | CastU128
  | LdTrue | LdFalse
  | CopyLoc (idx : nat) | MoveLoc (idx : nat) | StLoc (idx : nat)
  | Call (idx : nat)
  | Pack (idx : nat) | Unpack (idx : nat)
  | Add | Sub | Mul | Mod | Div
  | BitOr | BitAnd | Xor
  | Or | And | Not
  | Eq | Neq | Lt | Gt | Le | Ge
  | Abort | Nop
  | Shl | Shr
  | VecPack (idx : nat) (num : Z) | VecUnpack (idx : nat) (num : Z)
  | LdU16 (n : Z) | LdU32 (n : Z) | LdU256 (n : Z)
  | CastU16 | CastU32 | CastU256.
End Bc.
Notation Bytecode := Bc.Bytecode.

Definition is_unconditional_branch (b : Bytecode) : bool :=
  match b with Bc.Ret | Bc.Abort | Bc.Branch _ => true | _ => false end.
Definition is_conditional_branch (b : Bytecode) : bool :=
  match b with Bc.BrFalse _ | Bc.BrTrue _ => true | _ => false end.
Definition is_branch (b : Bytecode) : bool := is_conditional_branch b || is_unconditional_branch b.
Definition branch_offset (b : Bytecode) : option nat :=
  match b with
  | Bc.BrFalse offset | Bc.BrTrue offset | Bc.Branch offset => Some offset
  | _ => None
  end.
Definition u16_MAX : nat := 65535.
Definition get_successors (pc : nat) (code : list Bytecode) : exec (list nat) :=
  assert ((pc <? u16_MAX) && (pc <? length code))%nat;;
  bytecode ← unwrap (code !! pc);
  let v := match branch_offset bytecode with Some offset => [offset] | None => [] end in
  let next_pc := S pc in
  if (length code <=? next_pc)%nat then Done v
  else
    let v := if negb (is_unconditional_branch bytecode) && negb (bool_decide (next_pc ∈ v))
             then v ++ [next_pc] else v in
    Done (match v with
          | [a; b] => if (b <? a)%nat then [b; a] else v
          | _ => v
          end).

(** * The tables of a module *)

Record ModuleHandle := { mh_address : nat; mh_name : nat }.
Record StructTypeParameter := { tp_constraints : AbilitySet; tp_is_phantom : bool }.
Record StructHandle := {
  sh_module : nat;
  sh_name : nat;
  sh_abilities : AbilitySet;
  sh_type_parameters : list StructTypeParameter;
}.
Record FunctionHandle := {
  fh_module : nat;
  fh_name : nat;
  fh_parameters : nat;
  fh_return : nat;
  fh_type_parameters : list AbilitySet;
}.
Record FieldDefinition := { fd_name : nat; fd_signature : SignatureToken }.
Inductive StructFieldInformation := Native | Declared (fields : list FieldDefinition).
Record StructDefinition := { sd_struct_handle : nat; sd_field_information : StructFieldInformation }.
Record CodeUnit := { cu_locals : nat; cu_code : list Bytecode }.
Record FunctionDefinition := { def_function : nat; def_code : option CodeUnit }.
Record CompiledModule := {
  cm_version : Z;
  cm_self_module_handle_idx : nat;
  cm_module_handles : list ModuleHandle;
  cm_struct_handles : list StructHandle;
  cm_function_handles : list FunctionHandle;
  cm_signatures : list Signature;
  cm_identifiers : list string;
  cm_address_identifiers : list Z;
  cm_struct_defs : list StructDefinition;
  cm_function_defs : list FunctionDefinition;
}.

#[export] Instance ModuleHandle_eq_dec : EqDecision ModuleHandle.
Proof. solve_decision. Defined.

(** [BinaryIndexedView]: an index out of range panics. *)
Definition signature_at (m : CompiledModule) (idx : nat) : exec Signature :=
  unwrap (cm_signatures m !! idx).
Definition struct_handle_at (m : CompiledModule) (idx : nat) : exec StructHandle :=
  unwrap (cm_struct_handles m !! idx).
Definition function_handle_at (m : CompiledModule) (idx : nat) : exec FunctionHandle :=
  unwrap (cm_function_handles m !! idx).
Definition struct_def_at (m : CompiledModule) (idx : nat) : exec StructDefinition :=
  unwrap (cm_struct_defs m !! idx).

(** [BinaryIndexedView::abilities]. *)
Fixpoint abilities (m : CompiledModule) (constraints : list AbilitySet) (t : SignatureToken)
    : exec (vmresult AbilitySet) :=
  match t with
  | ST.Bool | ST.U8 | ST.U16 | ST.U32 | ST.U64 | ST.U128 | ST.U256 | ST.Address =>
      Done (Ok ABILITIES_PRIMITIVES)
  | ST.Reference _ | ST.MutableReference _ => Done (Ok ABILITIES_REFERENCES)
  | ST.Signer => Done (Ok ABILITIES_SIGNER)
  | ST.TypeParameter idx => a ← unwrap (constraints !! idx); Done (Ok a)
  | ST.Vector t =>
      a ←? abilities m constraints t;
      Done (polymorphic_abilities ABILITIES_VECTOR [false] [a])
  | ST.Struct idx => sh ← struct_handle_at m idx; Done (Ok (sh_abilities sh))
  | ST.StructInstantiation idx ts =>
      sh ← struct_handle_at m idx;
      args ←? (fix go (ts : list SignatureToken) : exec (vmresult (list AbilitySet)) :=
                 match ts with
                 | [] => Done (Ok [])
                 | t :: ts => a ←? abilities m constraints t; l ←? go ts; Done (Ok (a :: l))
                 end) ts;
      Done (polymorphic_abilities (sh_abilities sh) (map tp_is_phantom (sh_type_parameters sh)) args)
  end.

(** * The bounds checker *)

Definition check_bounds_impl {A} (pool : list A) (idx : nat) : vmresult unit :=
  ensure (idx <? length pool)%nat Vm.INDEX_OUT_OF_BOUNDS.

Definition check_type (m : CompiledModule) (ty : SignatureToken) : vmresult unit :=
  try_for_each (λ ty,
    match ty with
    | ST.Struct idx =>
        _ ←! check_bounds_impl (cm_struct_handles m) idx;
        match cm_struct_handles m !! idx with
        | Some sh => ensure (length (sh_type_parameters sh) =? 0)%nat Vm.NUMBER_OF_TYPE_ARGUMENTS_MISMATCH
        | None => Ok ()
        end
    | ST.StructInstantiation idx type_params =>
        _ ←! check_bounds_impl (cm_struct_handles m) idx;
        match cm_struct_handles m !! idx with
        | Some sh =>
            ensure (length (sh_type_parameters sh) =? length type_params)%nat
              Vm.NUMBER_OF_TYPE_ARGUMENTS_MISMATCH
        | None => Ok ()
        end
    | _ => Ok ()
    end) (preorder_traversal ty).
Definition check_type_parameter (type_param_count : nat) (ty : SignatureToken) : vmresult unit :=
  try_for_each (λ ty,
    match ty with
    | ST.TypeParameter idx => ensure (idx <? type_param_count)%nat Vm.INDEX_OUT_OF_BOUNDS
    | _ => Ok ()
    end) (preorder_traversal ty).
(** [if let Some(sig) = signatures.get(idx) { for ty in sig { .. } }]. *)
Definition check_signature_parameters (m : CompiledModule) (type_param_count idx : nat) : vmresult unit :=
  match cm_signatures m !! idx with
  | Some sig => try_for_each (check_type_parameter type_param_count) sig
  | None => Ok ()
  end.

Definition bounds_check_struct_handle (m : CompiledModule) (sh : StructHandle) : vmresult unit :=
  _ ←! check_bounds_impl (cm_module_handles m) (sh_module sh);
  check_bounds_impl (cm_identifiers m) (sh_name sh).
Definition bounds_check_function_handle (m : CompiledModule) (fh : FunctionHandle) : vmresult unit :=
  _ ←! check_bounds_impl (cm_module_handles m) (fh_module fh);
  _ ←! check_bounds_impl (cm_identifiers m) (fh_name fh);
  _ ←! check_bounds_impl (cm_signatures m) (fh_parameters fh);
  _ ←! check_bounds_impl (cm_signatures m) (fh_return fh);
  let type_param_count := length (fh_type_parameters fh) in
  _ ←! check_signature_parameters m type_param_count (fh_parameters fh);
  check_signature_parameters m type_param_count (fh_return fh).
Definition bounds_check_struct_def (m : CompiledModule) (sd : StructDefinition) : vmresult unit :=
  _ ←! check_bounds_impl (cm_struct_handles m) (sd_struct_handle sd);
  match sd_field_information sd with
  | Declared fields =>
      let type_param_count :=
        match cm_struct_handles m !! sd_struct_handle sd with
        | Some sh => length (sh_type_parameters sh)
        | None => 0%nat
        end in
      try_for_each (λ field,
        _ ←! check_bounds_impl (cm_identifiers m) (fd_name field);
        _ ←! check_type m (fd_signature field);
        check_type_parameter type_param_count (fd_signature field)) fields
  | Native => Ok ()
  end.

(** One instruction of [check_code]. *)
Definition check_bytecode (m : CompiledModule) (type_param_count locals_count code_len : nat)
    (bytecode : Bytecode) : vmresult unit :=
  match bytecode with
  | Bc.Call idx => check_bounds_impl (cm_function_handles m) idx
  | Bc.Pack idx | Bc.Unpack idx => check_bounds_impl (cm_struct_defs m) idx
  | Bc.BrTrue offset | Bc.BrFalse offset | Bc.Branch offset =>
      ensure (offset <? code_len)%nat Vm.INDEX_OUT_OF_BOUNDS
  | Bc.CopyLoc idx | Bc.MoveLoc idx | Bc.StLoc idx =>
      ensure (idx <? locals_count)%nat Vm.INDEX_OUT_OF_BOUNDS
  | Bc.VecPack idx _ | Bc.VecUnpack idx _ =>
      _ ←! check_bounds_impl (cm_signatures m) idx;
      check_signature_parameters m type_param_count idx
  | _ => Ok ()
  end.
Definition LOCAL_INDEX_MAX : nat := 255.
Definition check_code (m : CompiledModule) (code_unit : CodeUnit) (type_parameters : list AbilitySet)
    (parameters : Signature) : vmresult unit :=
  _ ←! check_bounds_impl (cm_signatures m) (cu_locals code_unit);
  locals ←! ok_or (cm_signatures m !! cu_locals code_unit) Vm.INDEX_OUT_OF_BOUNDS;
  let locals_count := (length locals + length parameters)%nat in
  _ ←! ensure (locals_count <=? LOCAL_INDEX_MAX)%nat Vm.TOO_MANY_LOCALS;
  let type_param_count := length type_parameters in
  _ ←! try_for_each (check_type_parameter type_param_count) locals;
  try_for_each (check_bytecode m type_param_count locals_count (length (cu_code code_unit)))
    (cu_code code_unit).
Definition bounds_check_function_def (m : CompiledModule) (def : FunctionDefinition) : vmresult unit :=
  _ ←! check_bounds_impl (cm_function_handles m) (def_function def);
  match def_code def with
  | None => Ok ()
  | Some code_unit =>
      fh ←! ok_or (cm_function_handles m !! def_function def) Vm.INDEX_OUT_OF_BOUNDS;
      parameters ←! ok_or (cm_signatures m !! fh_parameters fh) Vm.INDEX_OUT_OF_BOUNDS;
      check_code m code_unit (fh_type_parameters fh) parameters
  end.

(** [BoundsChecker::verify_module]. *)
Definition BoundsChecker_verify (m : CompiledModule) : vmresult unit :=
  _ ←! try_for_each (λ sig, try_for_each (check_type m) sig) (cm_signatures m);
  _ ←! try_for_each (λ mh,
         _ ←! check_bounds_impl (cm_address_identifiers m) (mh_address mh);
         check_bounds_impl (cm_identifiers m) (mh_name mh)) (cm_module_handles m);
  _ ←! check_bounds_impl (cm_module_handles m) (cm_self_module_handle_idx m);
  _ ←! try_for_each (bounds_check_struct_handle m) (cm_struct_handles m);
  _ ←! try_for_each (bounds_check_function_handle m) (cm_function_handles m);
  _ ←! try_for_each (bounds_check_struct_def m) (cm_struct_defs m);
  try_for_each (bounds_check_function_def m) (cm_function_defs m).

(** * The duplication checker *)

(** [first_duplicate_element], over the elements already seen. *)
Fixpoint first_duplicate {A} `{EqDecision A} (uniq : list A) (l : list A) (i : nat) : option nat :=
  match l with
  | [] => None
  | x :: l => if bool_decide (x ∈ uniq) then Some i else first_duplicate (x :: uniq) l (S i)
  end.
Definition first_duplicate_element {A} `{EqDecision A} (l : list A) : option nat :=
  first_duplicate [] l 0.
Definition check_unique {A} `{EqDecision A} (l : list A) : vmresult unit :=
  match first_duplicate_element l with Some _ => Err Vm.DUPLICATE_ELEMENT | None => Ok () end.

(** [(0..handles.len()).position(|x| ..)]: a handle of this module that no definition implements. *)
Definition unimplemented_handle (modules implemented : list nat) (self : nat) : bool :=
  existsb (λ p : nat * nat, bool_decide (p.2 = self) && negb (bool_decide (p.1 ∈ implemented)))
    (imap pair modules).

(** The definitions of one kind all belong to this module: [position(|x| handle(x).module != self)]. *)
Definition foreign_definition (modules : list nat) (self : nat) (defs : list nat) : exec bool :=
  mods ← mapM (λ idx, unwrap (modules !! idx)) defs;
  Done (existsb (λ x, negb (x =? self)%nat) mods).

Definition check_struct_definitions (m : CompiledModule) : exec (vmresult unit) :=
  let handles := map sd_struct_handle (cm_struct_defs m) in
  _ ←? Done (check_unique handles);
  _ ←? Done (try_for_each (λ sd,
         match sd_field_information sd with
         | Native => Ok ()
         | Declared fields =>
             _ ←! ensure (negb (length fields =? 0)%nat) Vm.ZERO_SIZED_STRUCT;
             check_unique (map fd_name fields)
         end) (cm_struct_defs m));
  let modules := map sh_module (cm_struct_handles m) in
  foreign ← foreign_definition modules (cm_self_module_handle_idx m) handles;
  _ ←? Done (ensure (negb foreign) Vm.INVALID_MODULE_HANDLE);
  Done (ensure (negb (unimplemented_handle modules handles (cm_self_module_handle_idx m)))
    Vm.UNIMPLEMENTED_HANDLE).

Definition check_function_definitions (m : CompiledModule) : exec (vmresult unit) :=
  let handles := map def_function (cm_function_defs m) in
  _ ←? Done (check_unique handles);
  let modules := map fh_module (cm_function_handles m) in
  foreign ← foreign_definition modules (cm_self_module_handle_idx m) handles;
  _ ←? Done (ensure (negb foreign) Vm.INVALID_MODULE_HANDLE);
  Done (ensure (negb (unimplemented_handle modules handles (cm_self_module_handle_idx m)))
    Vm.UNIMPLEMENTED_HANDLE).

(** [DuplicationChecker::verify_module]. *)
Definition DuplicationChecker_verify (m : CompiledModule) : exec (vmresult unit) :=
  _ ←? Done (check_unique (cm_identifiers m));
  _ ←? Done (check_unique (cm_address_identifiers m));
  _ ←? Done (check_unique (cm_signatures m));
  _ ←? Done (check_unique (cm_module_handles m));
  _ ←? Done (check_unique (map (λ h, (sh_module h, sh_name h)) (cm_struct_handles m)));
  _ ←? Done (check_unique (map (λ h, (fh_module h, fh_name h)) (cm_function_handles m)));
  _ ←? check_function_definitions m;
  check_struct_definitions m.

(** * The signature checker *)

(** [SignatureChecker::check_signature_token]: no references. *)
Fixpoint check_signature_token (t : SignatureToken) : vmresult unit :=
  match t with
  | ST.Reference _ | ST.MutableReference _ => Err Vm.INVALID_SIGNATURE_TOKEN
  | ST.Vector t => check_signature_token t
  | ST.StructInstantiation _ ts =>
      (fix go (ts : list SignatureToken) : vmresult unit :=
         match ts with
         | [] => Ok ()
         | t :: ts => _ ←! check_signature_token t; go ts
         end) ts
  | _ => Ok ()
  end.
Definition check_signature_tokens (ts : list SignatureToken) : vmresult unit :=
  try_for_each check_signature_token ts.
(** [check_signature]: references at the top only. *)
Definition check_signature (sig : Signature) : vmresult unit :=
  try_for_each (λ t,
    match t with
    | ST.Reference inner | ST.MutableReference inner => check_signature_token inner
    | _ => check_signature_token t
    end) sig.

(** ** Type arguments *)

(** A loop whose body may panic or return an error. *)
Fixpoint for_each {A} (f : A → exec (vmresult unit)) (l : list A) : exec (vmresult unit) :=
  match l with
  | [] => Done (Ok ())
  | x :: l => _ ←? f x; for_each f l
  end.
(** The same, with a value carried along. *)
Fixpoint fold_try {A B} (f : A → B → exec (vmresult A)) (acc : A) (l : list B) : exec (vmresult A) :=
  match l with
  | [] => Done (Ok acc)
  | x :: l => acc ←? f acc x; fold_try f acc l
  end.
Definition VERSION_6 : Z := 6.
Definition type_param_constraints (sh : StructHandle) : list AbilitySet :=
  map tp_constraints (sh_type_parameters sh).
Definition is_subset (a b : AbilitySet) : bool := Z.land a b =? a.

Definition check_generic_instance (m : CompiledModule) (type_arguments : list SignatureToken)
    (constraints global_abilities : list AbilitySet) : exec (vmresult unit) :=
  _ ←? Done (ensure (length type_arguments =? length constraints)%nat Vm.NUMBER_OF_TYPE_ARGUMENTS_MISMATCH);
  for_each (λ p : AbilitySet * SignatureToken,
    given ←? abilities m global_abilities p.2;
    Done (ensure (is_subset p.1 given) Vm.CONSTRAINT_NOT_SATISFIED)) (zip constraints type_arguments).
Definition check_type_instantiation_ (m : CompiledModule) (s : SignatureToken) (type_parameters : list AbilitySet)
    : exec (vmresult unit) :=
  match s with
  | ST.StructInstantiation idx type_arguments =>
      sh ← struct_handle_at m idx;
      check_generic_instance m type_arguments (type_param_constraints sh) type_parameters
  | _ => Done (Ok ())
  end.
Definition check_type_instantiation (m : CompiledModule) (s : SignatureToken) (type_parameters : list AbilitySet)
    : exec (vmresult unit) :=
  if VERSION_6 <=? cm_version m
  then for_each (λ ty, check_type_instantiation_ m ty type_parameters) (preorder_traversal s)
  else check_type_instantiation_ m s type_parameters.
(** The signatures already checked, with the type parameters they were checked
    for. *)
Definition AbilitiesCache : Type := gmap nat (gset (list AbilitySet)).
Definition check_instantiation (m : CompiledModule) (abilities_cache : AbilitiesCache) (idx : nat)
    (type_parameters : list AbilitySet) : exec (vmresult AbilitiesCache) :=
  if bool_decide (type_parameters ∈ default ∅ (abilities_cache !! idx)) then Done (Ok abilities_cache)
  else
    sig ← signature_at m idx;
    _ ←? for_each (λ ty, check_type_instantiation m ty type_parameters) sig;
    Done (Ok (<[idx := {[type_parameters]} ∪ default ∅ (abilities_cache !! idx)]> abilities_cache)).

(** Phantom type parameters stay in phantom positions; an index out of range
    panics. *)
Fixpoint check_phantom_params (m : CompiledModule) (type_parameters : list StructTypeParameter)
    (ty : SignatureToken) (is_phantom_pos : bool) : exec (vmresult unit) :=
  match ty with
  | ST.Vector ty => check_phantom_params m type_parameters ty false
  | ST.StructInstantiation idx type_arguments =>
      sh ← struct_handle_at m idx;
      (fix go (i : nat) (tys : list SignatureToken) : exec (vmresult unit) :=
         match tys with
         | [] => Done (Ok ())
         | ty :: tys =>
             tp ← unwrap (sh_type_parameters sh !! i);
             _ ←? check_phantom_params m type_parameters ty (tp_is_phantom tp);
             go (S i) tys
         end) 0%nat type_arguments
  | ST.TypeParameter idx =>
      tp ← unwrap (type_parameters !! idx);
      Done (ensure (negb (tp_is_phantom tp && negb is_phantom_pos)) Vm.INVALID_PHANTOM_TYPE_PARAM_POSITION)
  | _ => Done (Ok ())
  end.

(** ** The pass *)

Definition verify_function_signatures (m : CompiledModule) (abilities_cache : AbilitiesCache)
    : exec (vmresult AbilitiesCache) :=
  fold_try (λ abilities_cache fh,
    abilities_cache ←? check_instantiation m abilities_cache (fh_return fh) (fh_type_parameters fh);
    check_instantiation m abilities_cache (fh_parameters fh) (fh_type_parameters fh))
    abilities_cache (cm_function_handles m).
Definition verify_fields (m : CompiledModule) : exec (vmresult unit) :=
  for_each (λ struct_def,
    match sd_field_information struct_def with
    | Native => Done (Ok ())
    | Declared fields =>
        struct_handle ← struct_handle_at m (sd_struct_handle struct_def);
        for_each (λ field_def,
          _ ←? Done (check_signature_token (fd_signature field_def));
          _ ←? check_type_instantiation m (fd_signature field_def) (type_param_constraints struct_handle);
          check_phantom_params m (sh_type_parameters struct_handle) (fd_signature field_def) false) fields
    end) (cm_struct_defs m).
(** [verify_code] on the instructions of [Bytecode]; the arms of the generic
    calls, structs and fields and of the other vector operations are outside
    the fragment. *)
Definition signature_verify_instruction (m : CompiledModule) (instr : Bytecode) : exec (vmresult unit) :=
  match instr with
  | Bc.VecPack idx _ | Bc.VecUnpack idx _ =>
      type_arguments ← signature_at m idx;
      Done (_ ←! ensure (length type_arguments =? 1)%nat Vm.NUMBER_OF_TYPE_ARGUMENTS_MISMATCH;
            check_signature_tokens type_arguments)
  | _ => Done (Ok ())
  end.
Definition signature_verify_code (m : CompiledModule) (abilities_cache : AbilitiesCache) (code : CodeUnit)
    (type_parameters : list AbilitySet) : exec (vmresult AbilitiesCache) :=
  abilities_cache ←? check_instantiation m abilities_cache (cu_locals code) type_parameters;
  _ ←? for_each (signature_verify_instruction m) (cu_code code);
  Done (Ok abilities_cache).
Definition verify_code_units (m : CompiledModule) (abilities_cache : AbilitiesCache)
    : exec (vmresult AbilitiesCache) :=
  fold_try (λ abilities_cache func_def,
    match def_code func_def with
    | None => Done (Ok abilities_cache)
    | Some code =>
        func_handle ← function_handle_at m (def_function func_def);
        signature_verify_code m abilities_cache code (fh_type_parameters func_handle)
    end) abilities_cache (cm_function_defs m).
(** [SignatureChecker::verify_module]. *)
Definition SignatureChecker_verify (m : CompiledModule) : exec (vmresult unit) :=
  _ ←? Done (try_for_each check_signature (cm_signatures m));
  abilities_cache ←? verify_function_signatures m ∅;
  _ ←? verify_fields m;
  _ ←? verify_code_units m abilities_cache;
  Done (Ok ()).
