(* ===== verification/VmMonad.v ===== *)
(** The monad of the Move VM and of its verifier: code that reads and writes a
    state, may return a [PartialVMError], and may panic.  A total weakest
    precondition [wp] says that code returns, with a value that satisfies a
    postcondition or an error among the ones allowed. *)
From S2P Require Import Prelude Objects Errors MoveIntegers.

Definition sem (S A : Type) : Type := S → exec (S * vmresult A).

Section sem.
Context {S : Type}.
Implicit Types s : S.

Definition sret {A} (a : A) : sem S A := λ s, Done (s, Ok a).
Definition serr {A} (e : Vm.PartialVMError) : sem S A := λ s, Done (s, Err e).
(** The [?] operator between two statements. *)
Definition sbind {A B} (m : sem S A) (f : A → sem S B) : sem S B := λ s,
  out ← m s;
  match out with
  | (s', Ok a) => f a s'
  | (s', Err e) => Done (s', Err e)
  end.
(** A result, and code that may panic, that leave the state alone. *)
Definition sresult {A} (r : vmresult A) : sem S A := λ s, Done (s, r).
Definition sexec {A} (m : exec A) : sem S A := λ s, a ← m; Done (s, Ok a).
Definition sget {A} (f : S → A) : sem S A := λ s, Done (s, Ok (f s)).
Definition smodify (f : S → S) : sem S unit := λ s, Done (f s, Ok ()).
Definition sensure (cond : bool) (e : Vm.PartialVMError) : sem S unit := sresult (ensure cond e).

(** A loop over a list. *)
Fixpoint sfor {A} (f : A → sem S unit) (l : list A) : sem S unit :=
  match l with
  | [] => sret ()
  | x :: l => sbind (f x) (λ _, sfor f l)
  end.

Lemma sbind_Ok {A B} (m : sem S A) (f : A → sem S B) s s'' b :
  sbind m f s = Done (s'', Ok b) ↔ ∃ a s', m s = Done (s', Ok a) ∧ f a s' = Done (s'', Ok b).
Proof.
  unfold sbind. rewrite bind_Done. split.
  - intros ([s' [a|e]] & Hm & Hf); [by exists a, s'|done].
  - intros (a & s' & -> & Hf). by exists (s', Ok a).
Qed.
Lemma sret_Ok {A} (a b : A) s s' : sret a s = Done (s', Ok b) ↔ s' = s ∧ b = a.
Proof. unfold sret. split; [by intros [= -> ->]|by intros [-> ->]]. Qed.
Lemma serr_Ok {A} e (b : A) s s' : serr e s = Done (s', Ok b) ↔ False.
Proof. by unfold serr. Qed.
Lemma sresult_Ok {A} (r : vmresult A) b s s' : sresult r s = Done (s', Ok b) ↔ s' = s ∧ r = Ok b.
Proof. unfold sresult. split; [by intros [= -> ->]|by intros [-> ->]]. Qed.
Lemma sexec_Ok {A} (m : exec A) b s s' : sexec m s = Done (s', Ok b) ↔ s' = s ∧ m = Done b.
Proof. unfold sexec. destruct m; simpl; naive_solver. Qed.
Lemma sget_Ok {A} (f : S → A) b s s' : sget f s = Done (s', Ok b) ↔ s' = s ∧ b = f s.
Proof. unfold sget. split; [by intros [= -> <-]|by intros [-> ->]]. Qed.
Lemma smodify_Ok (f : S → S) u s s' : smodify f s = Done (s', Ok u) ↔ s' = f s.
Proof. unfold smodify. destruct u. split; [by intros [= ->]|by intros ->]. Qed.
Lemma sensure_Ok c e u s s' : sensure c e s = Done (s', Ok u) ↔ s' = s ∧ c = true.
Proof. unfold sensure. by rewrite sresult_Ok, ensure_Ok. Qed.

(** A loop that keeps an invariant indexed by what is left of the list. *)
Lemma sfor_Ok {A} (f : A → sem S unit) l s s' u :
  sfor f l s = Done (s', Ok u) → ∀ (P : list A → S → Prop),
  (∀ x k s1 s2 v, P (x :: k) s1 → f x s1 = Done (s2, Ok v) → P k s2) → P l s → P [] s'.
Proof.
  revert s. induction l as [|x l IH]; intros s Hf P Hstep HP; simpl in Hf.
  - by apply sret_Ok in Hf as [-> _].
  - apply sbind_Ok in Hf as (v & s1 & Hx & Hl). eapply IH; [done|done|]. by eapply Hstep.
Qed.

(** ** Total correctness *)

Definition wp {A} (E : Vm.PartialVMError → Prop) (m : sem S A) (s : S) (Q : A → S → Prop) : Prop :=
  match m s with
  | Done (s', Ok a) => Q a s'
  | Done (_, Err e) => E e
  | Panic | OutOfFuel => False
  end.

Context (E : Vm.PartialVMError → Prop).

Lemma wp_bind {A B} (m : sem S A) (f : A → sem S B) s Q :
  wp E m s (λ a s', wp E (f a) s' Q) → wp E (sbind m f) s Q.
Proof. unfold wp, sbind. destruct (m s) as [[s' [a|e]]| |]; simpl; done. Qed.
Lemma wp_mono {A} (m : sem S A) s (P Q : A → S → Prop) :
  wp E m s P → (∀ a s', P a s' → Q a s') → wp E m s Q.
Proof. unfold wp. destruct (m s) as [[s' [a|e]]| |]; auto. Qed.
Lemma wp_ret {A} (a : A) s (Q : A → S → Prop) : Q a s → wp E (sret a) s Q.
Proof. done. Qed.
Lemma wp_err {A} e s (Q : A → S → Prop) : E e → wp E (serr e) s Q.
Proof. done. Qed.
Lemma wp_result {A} (r : vmresult A) s (Q : A → S → Prop) :
  match r with Ok a => Q a s | Err e => E e end → wp E (sresult r) s Q.
Proof. unfold wp, sresult. by destruct r. Qed.
Lemma wp_exec {A} (m : exec A) a s (Q : A → S → Prop) : m = Done a → Q a s → wp E (sexec m) s Q.
Proof. unfold wp, sexec. by intros ->. Qed.
Lemma wp_get {A} (f : S → A) s (Q : A → S → Prop) : Q (f s) s → wp E (sget f) s Q.
Proof. done. Qed.
Lemma wp_modify f s (Q : unit → S → Prop) : Q () (f s) → wp E (smodify f) s Q.
Proof. done. Qed.
Lemma wp_ensure c e s (Q : unit → S → Prop) :
  (c = false → E e) → (c = true → Q () s) → wp E (sensure c e) s Q.
Proof. unfold wp, sensure, sresult. destruct c; simpl; auto. Qed.
End sem.

#[global] Arguments sbind : simpl never.
#[global] Arguments wp : simpl never.

Declare Scope sem_scope.
Delimit Scope sem_scope with sem.
Notation "x ← m ; k" := (sbind m (λ x, k)) (at level 20, m at level 100, k at level 200,
  right associativity) : sem_scope.
Notation "m ;; k" := (sbind m (λ _, k)) (at level 100, k at level 200,
  right associativity) : sem_scope.
#[export] Hint Rewrite @sbind_Ok @sret_Ok @serr_Ok @sresult_Ok @sexec_Ok @sget_Ok @smodify_Ok
  @sensure_Ok : mango_rw.

(** Split a run that returned into the runs of its statements. *)
Ltac sem_inv :=
  repeat match goal with
    | H : sbind _ _ _ = Done (_, Ok _) |- _ =>
        let a := fresh "a" in let st := fresh "st" in let Hm := fresh "Hm" in
        apply sbind_Ok in H as (a & st & Hm & H)
    | H : sret _ _ = Done (_, Ok _) |- _ => apply sret_Ok in H as [? ?]
    | H : serr _ _ = Done (_, Ok _) |- _ => by apply serr_Ok in H
    | H : sresult _ _ = Done (_, Ok _) |- _ => apply sresult_Ok in H as [? ?]
    | H : sexec _ _ = Done (_, Ok _) |- _ => apply sexec_Ok in H as [? ?]
    | H : sget _ _ = Done (_, Ok _) |- _ => apply sget_Ok in H as [? ?]
    | H : smodify _ _ = Done (_, Ok _) |- _ => apply smodify_Ok in H
    | H : sensure _ _ _ = Done (_, Ok _) |- _ => apply sensure_Ok in H as [? ?]
    end; simplify_eq/=.
