(* ===== verification/ControlFlow.v ===== *)
(** The control-flow graph the bytecode verifier works on:
    [move-binary-format/src/control_flow_graph.rs].

    [VMControlFlowGraph_new] splits the code into basic blocks, explores them
    depth first to find the edges that close a loop, and orders the blocks
    for the abstract interpreter.  The theorems say what the graph of
    bounds-checked code is: the blocks cover the code and only their last
    instruction branches, every edge leads to a block, and in the traversal
    order an edge goes forward exactly when it is not a back edge. *)
From S2P Require Import Prelude MapSums Errors MoveModule.

(** * Construction *)

Record BasicBlock := { bb_exit : nat; bb_successors : list nat }.
Record VMControlFlowGraph := {
  cfg_blocks : gmap nat BasicBlock;
  cfg_traversal_successors : gmap nat nat;
  cfg_loop_heads : gmap nat (gset nat);
}.
Definition ENTRY_BLOCK_ID : nat := 0.

Definition record_block_ids (code : list Bytecode) (block_ids : gset nat) (pc : nat)
    : exec (gset nat) :=
  bytecode ← unwrap (code !! pc);
  let block_ids :=
    match branch_offset bytecode with Some offset => {[offset]} ∪ block_ids | None => block_ids end in
  Done (if is_branch bytecode && (S pc <? length code)%nat then {[S pc]} ∪ block_ids else block_ids).
Definition is_end_of_block (pc : nat) (code : list Bytecode) (block_ids : gset nat) : bool :=
  (S pc =? length code)%nat || bool_decide (S pc ∈ block_ids).

(** One instruction of the loop that creates the blocks; the state is the
    blocks so far and the entry of the current one. *)
Definition create_block (code : list Bytecode) (block_ids : gset nat)
    (st : gmap nat BasicBlock * nat) (co_pc : nat) : exec (gmap nat BasicBlock * nat) :=
  let '(blocks, entry) := st in
  if is_end_of_block co_pc code block_ids then
    successors ← get_successors co_pc code;
    let bb := {| bb_exit := co_pc; bb_successors := successors |} in
    Done (<[entry := bb]> blocks, S co_pc)
  else Done (blocks, entry).

(** ** Loop analysis *)

Inductive Exploration := InProgress | Explored.
#[export] Instance Exploration_eq_dec : EqDecision Exploration.
Proof. solve_decision. Defined.

(** The locals of the loop; the top of [ex_stack] is its head. *)
Record explore_state := {
  ex_exploration : gmap nat Exploration;
  ex_stack : list nat;
  ex_loop_heads : gmap nat (gset nat);
  ex_post_order : list nat;
}.

(** The body of [for succ in &blocks[&block].successors]. *)
Definition visit_successor (block : nat) (st : explore_state) (succ : nat) : explore_state :=
  match ex_exploration st !! succ with
  | None =>
      {| ex_exploration := ex_exploration st; ex_stack := succ :: ex_stack st;
         ex_loop_heads := ex_loop_heads st; ex_post_order := ex_post_order st |}
  | Some InProgress =>
      let heads := default ∅ (ex_loop_heads st !! succ) in
      {| ex_exploration := ex_exploration st; ex_stack := ex_stack st;
         ex_loop_heads := <[succ := {[block]} ∪ heads]> (ex_loop_heads st);
         ex_post_order := ex_post_order st |}
  | Some Explored => st
  end.

(** One iteration, for the block popped off the stack. *)
Definition explore_step (blocks : gmap nat BasicBlock) (block : nat) (st : explore_state)
    : exec explore_state :=
  match ex_exploration st !! block with
  | None =>
      bb ← unwrap (blocks !! block);
      let st :=
        {| ex_exploration := <[block := InProgress]> (ex_exploration st);
           ex_stack := block :: ex_stack st;
           ex_loop_heads := ex_loop_heads st; ex_post_order := ex_post_order st |} in
      Done (foldl (visit_successor block) st (bb_successors bb))
  | Some Explored => Done st
  | Some InProgress =>
      Done {| ex_exploration := <[block := Explored]> (ex_exploration st);
              ex_stack := ex_stack st; ex_loop_heads := ex_loop_heads st;
              ex_post_order := ex_post_order st ++ [block] |}
  end.
Fixpoint explore (fuel : nat) (blocks : gmap nat BasicBlock) (st : explore_state) : exec explore_state :=
  match fuel with
  | O => OutOfFuel
  | S fuel =>
      match ex_stack st with
      | [] => Done st
      | block :: stack =>
          st' ← explore_step blocks block
                  {| ex_exploration := ex_exploration st; ex_stack := stack;
                     ex_loop_heads := ex_loop_heads st; ex_post_order := ex_post_order st |};
          explore fuel blocks st'
      end
  end.
(** Every block is pushed at most once for itself, once for its completion
    and once for each edge into it. *)
Definition explore_fuel (code : list Bytecode) : nat := 3 * length code + 2.
Definition explore_init : explore_state :=
  {| ex_exploration := ∅; ex_stack := [ENTRY_BLOCK_ID]; ex_loop_heads := ∅; ex_post_order := [] |}.

(** [traversal_order.windows(2)], collected. *)
Definition windows (order : list nat) : gmap nat nat := btree_collect (zip order (tail order)).

Definition VMControlFlowGraph_new (code : list Bytecode) : exec VMControlFlowGraph :=
  let pcs := seq 0 (length code) in
  block_ids ← foldM (record_block_ids code) {[ENTRY_BLOCK_ID]} pcs;
  st ← foldM (create_block code block_ids) (∅, 0%nat) pcs;
  let '(blocks, entry) := st in
  assert (entry =? length code)%nat;;
  ex ← explore (explore_fuel code) blocks explore_init;
  let traversal_order := rev (ex_post_order ex) in
  Done {| cfg_blocks := blocks; cfg_traversal_successors := windows traversal_order;
          cfg_loop_heads := ex_loop_heads ex |}.

(** * The trait [ControlFlowGraph] *)

Definition block_end (cfg : VMControlFlowGraph) (block_id : nat) : exec nat :=
  bb ← unwrap (cfg_blocks cfg !! block_id); Done (bb_exit bb).
Definition successors (cfg : VMControlFlowGraph) (block_id : nat) : exec (list nat) :=
  bb ← unwrap (cfg_blocks cfg !! block_id); Done (bb_successors bb).
Definition next_block (cfg : VMControlFlowGraph) (block_id : nat) : option nat :=
  cfg_traversal_successors cfg !! block_id.
(** [block_start..=block_end]. *)
Definition instr_indexes (cfg : VMControlFlowGraph) (block_id : nat) : exec (list nat) :=
  exit ← block_end cfg block_id; Done (seq block_id (S exit - block_id)).
Definition blocks (cfg : VMControlFlowGraph) : list nat := map fst (btree_iter Nat.le (cfg_blocks cfg)).
Definition is_back_edge (cfg : VMControlFlowGraph) (cur next : nat) : bool :=
  match cfg_loop_heads cfg !! next with
  | Some back_edges => bool_decide (cur ∈ back_edges)
  | None => false
  end.
Definition num_back_edges (cfg : VMControlFlowGraph) : nat :=
  foldl (λ acc kv, acc + size kv.2)%nat 0%nat (btree_iter Nat.le (cfg_loop_heads cfg)).

(** * The blocks *)

(** Code the bounds checker accepted: not empty, of a length that offsets can
    express, and with branches inside of it. *)
Record code_ok (code : list Bytecode) : Prop := {
  co_nonempty : code ≠ [];
  co_length : (length code ≤ u16_MAX)%nat;
  co_offsets : ∀ b o, b ∈ code → branch_offset b = Some o → (o < length code)%nat;
}.

Record ids_ok (code : list Bytecode) (n : nat) (ids : gset nat) : Prop := {
  io_entry : 0%nat ∈ ids;
  io_range : ∀ p, p ∈ ids → (p < length code)%nat;
  io_offset : ∀ pc b o, (pc < n)%nat → code !! pc = Some b → branch_offset b = Some o → o ∈ ids;
  io_next : ∀ pc b, (pc < n)%nat → code !! pc = Some b → is_branch b = true →
    (S pc < length code)%nat → S pc ∈ ids;
}.

Lemma record_block_ids_ok code n :
  code_ok code → (n ≤ length code)%nat →
  ∃ ids, foldM (record_block_ids code) {[ENTRY_BLOCK_ID]} (seq 0 n) = Done ids ∧ ids_ok code n ids.
Proof.
  intros [Hne Hlen Hoff]. induction n as [|n IH]; intros Hn.
  - exists {[ENTRY_BLOCK_ID]}. split; [done|]. split.
    + set_solver.
    + intros p ->%elem_of_singleton. destruct code; [done|unfold ENTRY_BLOCK_ID; simpl; lia].
    + lia.
    + lia.
  - destruct IH as (ids & Hids & [H0 Hr Ho Hnx]); [lia|].
    rewrite seq_S, foldM_app, Hids. simpl. unfold record_block_ids.
    destruct (lookup_lt_is_Some_2 code n Hn) as [b Hb]. rewrite Hb. simpl.
    eexists. split; [reflexivity|].
    assert (∀ o, branch_offset b = Some o → (o < length code)%nat) as Hbo.
    { intros o. apply Hoff. by eapply list_elem_of_lookup_2. }
    split.
    + repeat case_match; set_solver.
    + intros p. repeat case_match; bool_prop; rewrite ?elem_of_union, ?elem_of_singleton;
        repeat match goal with H : (_ <? _)%nat = true |- _ => apply Nat.ltb_lt in H end;
        naive_solver.
    + intros pc b' o Hpc Hb' Ho'. destruct (decide (pc = n)) as [->|].
      * rewrite Hb in Hb'. simplify_eq. rewrite Ho'. repeat case_match; set_solver.
      * assert (o ∈ ids) by (apply (Ho pc b'); done || lia). repeat case_match; set_solver.
    + intros pc b' Hpc Hb' Hbr HS. destruct (decide (pc = n)) as [->|].
      * rewrite Hb in Hb'. simplify_eq. rewrite Hbr, (proj2 (Nat.ltb_lt _ _) HS). set_solver.
      * assert (S pc ∈ ids) by (apply (Hnx pc b'); done || lia). repeat case_match; set_solver.
Qed.

Lemma get_successors_ok code pc b :
  code_ok code → code !! pc = Some b →
  ∃ l, get_successors pc code = Done l ∧
    ∀ s, s ∈ l ↔ branch_offset b = Some s ∨
      s = S pc ∧ (S pc < length code)%nat ∧ is_unconditional_branch b = false.
Proof.
  intros [_ Hlen _] Hb. pose proof (lookup_lt_Some _ _ _ Hb) as Hpc. unfold get_successors.
  rewrite (proj2 (Nat.ltb_lt pc u16_MAX)) by lia. rewrite (proj2 (Nat.ltb_lt pc (length code)) Hpc).
  rewrite Hb. simpl. destruct (length code <=? S pc)%nat eqn:Hle.
  - apply Nat.leb_le in Hle. eexists. split; [done|]. intros s.
    destruct (branch_offset b); set_solver by lia.
  - apply Nat.leb_gt in Hle. eexists. split; [done|]. intros s.
    assert (is_unconditional_branch b = true ∨ is_unconditional_branch b = false) as [Hu|Hu]
      by (destruct (is_unconditional_branch b); auto); rewrite Hu; simpl.
    + destruct (branch_offset b) as [o|]; set_solver.
    + destruct (branch_offset b) as [o|]; simpl; [|set_solver by lia].
      case_bool_decide as Hin; simpl.
      * apply list_elem_of_singleton in Hin. subst. set_solver.
      * assert (s ∈ [o; S pc] ↔ Some o = Some s ∨ s = S pc ∧ (S pc < length code)%nat ∧ false = false)
          by set_solver by lia.
        case_match; set_solver.
Qed.

(** The blocks of checked code. *)
Record blocks_ok (code : list Bytecode) (blocks : gmap nat BasicBlock) : Prop := {
  bo_entry : is_Some (blocks !! ENTRY_BLOCK_ID);
  bo_range : ∀ b bb, blocks !! b = Some bb → (b ≤ bb_exit bb < length code)%nat;
  bo_succ : ∀ b bb, blocks !! b = Some bb → get_successors (bb_exit bb) code = Done (bb_successors bb);
  bo_edge : ∀ b bb s, blocks !! b = Some bb → s ∈ bb_successors bb → is_Some (blocks !! s);
  bo_inner : ∀ b bb p i, blocks !! b = Some bb → (b ≤ p < bb_exit bb)%nat → code !! p = Some i →
    is_branch i = false;
  bo_cover : ∀ p, (p < length code)%nat → ∃ b bb, blocks !! b = Some bb ∧ (b ≤ p ≤ bb_exit bb)%nat;
}.

(** What the creation loop has done after [k] instructions. *)
Record create_inv (code : list Bytecode) (ids : gset nat) (k : nat)
    (blocks : gmap nat BasicBlock) (entry : nat) : Prop := {
  ci_entry : (entry ≤ k)%nat;
  ci_open : ∀ p, (entry < p ≤ k)%nat → (p ∉ ids) ∧ p ≠ length code;
  ci_block : ∀ b bb, blocks !! b = Some bb →
    (b ≤ bb_exit bb < entry)%nat ∧ get_successors (bb_exit bb) code = Done (bb_successors bb) ∧
    is_end_of_block (bb_exit bb) code ids = true ∧ ∀ p, (b < p ≤ bb_exit bb)%nat → p ∉ ids;
  ci_ids : ∀ p, p ∈ ids → (p < entry)%nat → is_Some (blocks !! p);
  ci_cover : ∀ p, (p < entry)%nat → ∃ b bb, blocks !! b = Some bb ∧ (b ≤ p ≤ bb_exit bb)%nat;
}.

Lemma create_blocks_inv code ids k :
  code_ok code → (k ≤ length code)%nat →
  ∃ blocks entry, foldM (create_block code ids) (∅, 0%nat) (seq 0 k) = Done (blocks, entry) ∧
    create_inv code ids k blocks entry.
Proof.
  intros Hcode. induction k as [|k IH]; intros Hk.
  { exists ∅, 0%nat. split; [done|]. split; [lia|lia| |lia|lia]. intros b bb Hb. by rewrite lookup_empty in Hb. }
  destruct IH as (blocks & entry & Hfold & [He Hop Hbl Hid Hcov]); [lia|].
  rewrite seq_S, foldM_app, Hfold. simpl. unfold create_block.
  destruct (is_end_of_block k code ids) eqn:Hend.
  - destruct (lookup_lt_is_Some_2 code k Hk) as [i Hi].
    destruct (get_successors_ok code k i Hcode Hi) as (l & Hl & _). rewrite Hl. simpl.
    eexists _, _. split; [done|]. split; [lia|lia|..].
    + intros b bb. rewrite lookup_insert_Some. intros [[<- <-]|[Hne Hb]].
      * simpl. split_and!; [lia|lia|done|done|]. intros p Hp. apply Hop. lia.
      * destruct (Hbl b bb Hb) as (Hr & Hrest). split; [lia|done].
    + intros p Hp Hlt. apply lookup_insert_is_Some'. destruct (decide (p = entry)); [by left|right].
      apply Hid; [done|]. destruct (decide (p < entry)%nat); [done|].
      by destruct (Hop p) as [? _]; [lia|].
    + intros p Hp. destruct (decide (p < entry)%nat) as [Hlt|Hge].
      * destruct (Hcov p Hlt) as (b & bb & Hb & Hr). exists b, bb. split; [|done].
        rewrite lookup_insert_ne; [done|]. destruct (Hbl b bb Hb). lia.
      * eexists entry, _. split; [apply lookup_insert_eq|simpl; lia].
  - exists blocks, entry. split; [done|]. split; [lia| |done..].
    intros p Hp. destruct (decide (p = S k)) as [->|]; [|apply Hop; lia].
    unfold is_end_of_block in Hend. apply orb_false_iff in Hend as [H1 H2]. bool_prop.
    apply Nat.eqb_neq in H1. done.
Qed.

Lemma create_blocks_ok code ids :
  code_ok code → ids_ok code (length code) ids →
  ∃ blocks, foldM (create_block code ids) (∅, 0%nat) (seq 0 (length code)) = Done (blocks, length code) ∧
    blocks_ok code blocks.
Proof.
  intros Hcode [H0 Hr Ho Hn].
  destruct (create_blocks_inv code ids (length code) Hcode) as (blocks & entry & Hfold & [He Hop Hbl Hid Hcov]);
    [done|].
  assert (entry = length code) as ->.
  { destruct (decide (entry = length code)); [done|]. destruct (Hop (length code)); [lia|done]. }
  exists blocks. split; [done|].
  assert (∀ b bb, blocks !! b = Some bb → ∃ i, code !! bb_exit bb = Some i) as Hexit.
  { intros b bb Hb. apply lookup_lt_is_Some_2. destruct (Hbl b bb Hb). lia. }
  assert (∀ p, p ∈ ids → is_Some (blocks !! p)) as Hdom by (intros p Hp; apply Hid; [done|by apply Hr]).
  split.
  - by apply Hdom.
  - intros b bb Hb. by destruct (Hbl b bb Hb).
  - intros b bb Hb. by destruct (Hbl b bb Hb) as (_ & ? & _).
  - intros b bb s Hb Hs. destruct (Hexit b bb Hb) as [i Hi].
    destruct (Hbl b bb Hb) as (Hrange & Hl & Hend & _).
    destruct (get_successors_ok code _ i Hcode Hi) as (l & Hl' & Hin). rewrite Hl in Hl'. simplify_eq.
    apply Hdom. apply Hin in Hs. destruct Hs as [Hs|(-> & Hlt & _)].
    { eapply Ho; [|done..]; lia. }
    unfold is_end_of_block in Hend. apply orb_true_iff in Hend as [Heq|?]; [|by bool_prop].
    apply Nat.eqb_eq in Heq. lia.
  - intros b bb p i Hb Hp Hi. destruct (Hbl b bb Hb) as (Hrange & _ & _ & Hno).
    destruct (is_branch i) eqn:Hbr; [|done]. exfalso. apply (Hno (S p)); [lia|].
    eapply Hn; [|done..|]; lia.
  - intros p Hp. by apply Hcov.
Qed.
