(* ===== verification/TraversalOrder.v ===== *)
(** The depth-first exploration of [ControlFlow]: it ends, and the order it
    gives the blocks puts the target of every edge after its source unless
    the edge was recorded as a back edge, whose target is never after its
    source.  The abstract interpreter relies on exactly this. *)
From S2P Require Import Prelude MapSums Errors MoveModule.
From S2P Require Import ControlFlow.

(** [x] comes before [y] in [l]. *)
Definition precedes (l : list nat) (x y : nat) : Prop := ∃ l1 l2, l = l1 ++ x :: l2 ∧ y ∈ l2.

Lemma precedes_snoc l x y z : precedes l x y → precedes (l ++ [z]) x y.
Proof.
  intros (l1 & l2 & -> & Hy). exists l1, (l2 ++ [z]). rewrite <-app_assoc. split; [done|].
  apply elem_of_app. by left.
Qed.
Lemma precedes_last l x z : x ∈ l → precedes (l ++ [z]) x z.
Proof.
  intros (l1 & l2 & ->)%list_elem_of_split. exists l1, (l2 ++ [z]). rewrite <-app_assoc.
  split; [done|]. apply elem_of_app. right. by left.
Qed.
Lemma precedes_rev l x y : precedes l x y → precedes (rev l) y x.
Proof.
  intros (l1 & l2 & -> & Hy). rewrite rev_app_distr. simpl.
  apply list_elem_of_split in Hy as (k1 & k2 & ->). rewrite rev_app_distr. simpl.
  exists (rev k2), (rev k1 ++ [x] ++ rev l1). rewrite <-!app_assoc. split; [done|].
  apply elem_of_app. right. by left.
Qed.
Lemma precedes_lookup l x y i j :
  NoDup l → precedes l x y → l !! i = Some x → l !! j = Some y → (i < j)%nat.
Proof.
  intros Hnd (l1 & l2 & -> & Hy) Hi Hj.
  assert (i = length l1) as ->.
  { eapply NoDup_lookup; [done..|]. by rewrite list_lookup_middle. }
  apply list_elem_of_lookup in Hy as [k Hk].
  assert (j = length l1 + S k)%nat as ->; [|lia].
  eapply NoDup_lookup; [done..|]. rewrite lookup_app_r by lia.
  replace (length l1 + S k - length l1)%nat with (S k) by lia. done.
Qed.

Section exploration.
Context (code : list Bytecode) (blocks : gmap nat BasicBlock) (Hblocks : blocks_ok code blocks).

Definition succs (b : nat) : list nat :=
  match blocks !! b with Some bb => bb_successors bb | None => [] end.
Definition back (heads : gmap nat (gset nat)) (x y : nat) : Prop :=
  ∃ from, heads !! y = Some from ∧ x ∈ from.

Lemma visit_successors st b l :
  let st' := foldl (visit_successor b) st l in
  ex_exploration st' = ex_exploration st ∧ ex_post_order st' = ex_post_order st ∧
  ex_stack st' = rev (filter (λ s, ex_exploration st !! s = None) l) ++ ex_stack st ∧
  ∀ x y, back (ex_loop_heads st') x y ↔
    back (ex_loop_heads st) x y ∨ x = b ∧ y ∈ l ∧ ex_exploration st !! y = Some InProgress.
Proof.
  revert st. induction l as [|s l IH]; intros st; simpl.
  { split_and!; [done..|]. intros x y. set_solver. }
  destruct (IH (visit_successor b st s)) as (-> & -> & -> & Hback). clear IH.
  assert (ex_exploration (visit_successor b st s) = ex_exploration st) as Hex.
  { unfold visit_successor. by repeat case_match. }
  rewrite Hex in *. split_and!.
  - done.
  - unfold visit_successor. by repeat case_match.
  - unfold visit_successor. destruct (ex_exploration st !! s) as [[]|] eqn:Hs; simpl.
    + by rewrite filter_cons_False by (by rewrite Hs).
    + by rewrite filter_cons_False by (by rewrite Hs).
    + rewrite filter_cons_True by done. simpl. by rewrite <-app_assoc.
  - intros x y. rewrite Hback. clear Hback. unfold visit_successor.
    destruct (ex_exploration st !! s) as [[]|] eqn:Hs; simpl; unfold back; simpl.
    + destruct (decide (y = s)) as [->|Hne].
      * rewrite lookup_insert_eq.
        assert (∀ S : gset nat, (∃ from, Some S = Some from ∧ x ∈ from) ↔ x ∈ S) as Hsome by naive_solver.
        assert ((∃ from : gset nat, None = Some from ∧ x ∈ from) ↔ False) as Hnone by naive_solver.
        rewrite Hsome. destruct (ex_loop_heads st !! s); simpl; rewrite ?Hsome, ?Hnone; set_solver.
      * rewrite lookup_insert_ne by done. set_solver.
    + split; [set_solver|]. intros [?|(-> & [->|?]%elem_of_cons & Hy)]; [by left|congruence|by right].
    + split; [set_solver|]. intros [?|(-> & [->|?]%elem_of_cons & Hy)]; [by left|congruence|by right].
Qed.

(** The invariant of the loop. *)
Record explore_inv (st : explore_state) : Prop := {
  ei_stack : ∀ b, b ∈ ex_stack st → is_Some (blocks !! b);
  ei_dom : ∀ b, is_Some (ex_exploration st !! b) → is_Some (blocks !! b);
  ei_source : ∀ x y, back (ex_loop_heads st) x y → is_Some (ex_exploration st !! x);
  ei_progress : ∀ x, ex_exploration st !! x = Some InProgress →
    ∃ pre post, ex_stack st = pre ++ x :: post ∧ (x ∉ pre) ∧
      (∀ y, y ∈ succs x → back (ex_loop_heads st) x y ∨
         ex_exploration st !! y = Some Explored ∨ y ∈ pre) ∧
      (∀ y, back (ex_loop_heads st) x y →
         ex_exploration st !! y = Some InProgress ∧ y ∉ pre) ∧
      (x = ENTRY_BLOCK_ID ∨
       ∃ w, x ∈ succs w ∧ ex_exploration st !! w = Some InProgress ∧ (w ∉ pre) ∧ w ≠ x);
  ei_vacant : ∀ pre y post, ex_stack st = pre ++ y :: post → ex_exploration st !! y = None →
    ex_exploration st = ∅ ∨ ∃ w, w ∈ post ∧ ex_exploration st !! w = Some InProgress ∧ y ∈ succs w;
  ei_tree : ∀ x, ex_exploration st !! x = Some Explored → x = ENTRY_BLOCK_ID ∨
    ∃ w, x ∈ succs w ∧ (ex_exploration st !! w = Some InProgress ∨ precedes (ex_post_order st) x w);
  ei_explored : ∀ x, ex_exploration st !! x = Some Explored ↔ x ∈ ex_post_order st;
  ei_nodup : NoDup (ex_post_order st);
  ei_edge : ∀ x y, x ∈ ex_post_order st → y ∈ succs x →
    back (ex_loop_heads st) x y ∨ precedes (ex_post_order st) y x;
  ei_back : ∀ x y, x ∈ ex_post_order st → back (ex_loop_heads st) x y →
    y = x ∨ ex_exploration st !! y = Some InProgress ∨ precedes (ex_post_order st) x y;
  ei_entry :
    (ex_exploration st = ∅ ∧ ex_stack st = [ENTRY_BLOCK_ID]) ∨
    (ex_exploration st !! ENTRY_BLOCK_ID = Some InProgress ∧
       ∃ pre, ex_stack st = pre ++ [ENTRY_BLOCK_ID] ∧ ENTRY_BLOCK_ID ∉ pre) ∨
    (ex_stack st = [] ∧ ∃ l, ex_post_order st = l ++ [ENTRY_BLOCK_ID]);
}.

Lemma explore_init_inv : explore_inv explore_init.
Proof.
  assert (∀ x y, ¬ back ∅ x y) as Hnb by (intros x y (? & H & _); by rewrite lookup_empty in H).
  split; simpl.
  - intros b ->%list_elem_of_singleton. apply (bo_entry _ _ Hblocks).
  - intros b []. by rewrite lookup_empty in *.
  - by intros x y []%Hnb.
  - intros x H. by rewrite lookup_empty in H.
  - by left.
  - intros x H. by rewrite lookup_empty in H.
  - intros x. rewrite lookup_empty. split; [done|by intros ?%elem_of_nil].
  - constructor.
  - by intros x y ?%elem_of_nil.
  - by intros x y ?%elem_of_nil.
  - by left.
Qed.

(** A block in progress below the top of the stack stays where it is. *)
Lemma below_top (b z : nat) rest pre post :
  b :: rest = pre ++ z :: post → z ≠ b → ∃ pre', pre = b :: pre' ∧ rest = pre' ++ z :: post.
Proof. destruct pre as [|c pre]; intros [= -> ->] Hne; [done|]. by exists pre. Qed.

(** The state with the top of the stack removed. *)
Definition popped (st : explore_state) (rest : list nat) : explore_state :=
  {| ex_exploration := ex_exploration st; ex_stack := rest;
     ex_loop_heads := ex_loop_heads st; ex_post_order := ex_post_order st |}.

Lemma explored_inv st b rest :
  explore_inv st → ex_stack st = b :: rest → ex_exploration st !! b = Some Explored →
  explore_inv (popped st rest).
Proof.
  intros [Hst Hdom Hsrc Hprog Hvac Htree Hexp Hnd Hedge Hback Hent] Hstack Hb. rewrite Hstack in *.
  split; simpl; try done.
  - intros c Hc. apply Hst. by right.
  - intros z Hz. destruct (Hprog z Hz) as (pre & post & Heq & Hnin & Hsucc & Hbk & Hpar).
    destruct (below_top b z rest pre post Heq) as (pre' & -> & ->); [congruence|].
    exists pre', post. split_and!; [done|set_solver| | |].
    + intros y Hy. destruct (Hsucc y Hy) as [?|[?|[->|?]%elem_of_cons]]; auto.
    + intros y Hy. destruct (Hbk y Hy). set_solver.
    + destruct Hpar as [?|(w & ? & ? & ? & ?)]; [by left|right]. exists w. set_solver.
  - intros pre y post Heq Hy. apply (Hvac (b :: pre) y post); [by rewrite Heq|done].
  - destruct Hent as [[He _]|[(He & pre & Hpre & Hnin)|[? _]]]; [|right; left|done].
    + by rewrite He, lookup_empty in Hb.
    + split; [done|]. destruct pre as [|c pre]; simplify_eq/=.
      exists pre. split; [done|set_solver].
Qed.

Lemma finish_inv st b rest :
  explore_inv st → ex_stack st = b :: rest → ex_exploration st !! b = Some InProgress →
  explore_inv {| ex_exploration := <[b := Explored]> (ex_exploration st); ex_stack := rest;
    ex_loop_heads := ex_loop_heads st; ex_post_order := ex_post_order st ++ [b] |}.
Proof.
  intros [Hst Hdom Hsrc Hprog Hvac Htree Hexp Hnd Hedge Hback Hent] Hstack Hb. rewrite Hstack in *.
  destruct (Hprog b Hb) as (pre & post & Heq & Hnin & Hsucc & Hbk & Hpar).
  assert (pre = []) as ->; [|simplify_eq/=].
  { destruct pre as [|c pre]; [done|]. simplify_eq/=. set_solver. }
  assert (b ∉ ex_post_order st) as Hfresh by (rewrite <-Hexp; congruence).
  split; simpl.
  - intros c Hc. apply Hst. by right.
  - intros c Hc. destruct (decide (c = b)) as [->|]; [apply Hst; by left|].
    apply Hdom. by rewrite lookup_insert_ne in Hc.
  - intros x y Hxy. apply lookup_insert_is_Some'. right. by apply (Hsrc x y).
  - intros z Hz. apply lookup_insert_Some in Hz as [[_ ?]|[Hne Hz]]; [done|].
    destruct (Hprog z Hz) as (pre & post' & Heq' & Hnin' & Hsucc' & Hbk' & Hpar').
    destruct (below_top b z post pre post' Heq') as (pre' & -> & ->); [done|].
    exists pre', post'. split_and!; [done|set_solver| | |].
    + intros y Hy. destruct (decide (y = b)) as [->|]; [right; left; by rewrite lookup_insert_eq|].
      rewrite lookup_insert_ne by done.
      destruct (Hsucc' y Hy) as [?|[?|[?|?]%elem_of_cons]]; [auto..|done|auto].
    + intros y Hy. destruct (Hbk' y Hy) as [Hy1 Hy2].
      rewrite lookup_insert_ne by set_solver. set_solver.
    + destruct Hpar' as [?|(w & ? & ? & ? & ?)]; [by left|right]. exists w.
      rewrite lookup_insert_ne by set_solver. set_solver.
  - intros pre y post' -> Hy. destruct (decide (y = b)) as [->|Hyb]; [by rewrite lookup_insert_eq in Hy|].
    rewrite lookup_insert_ne in Hy by done. right.
    destruct (Hvac (b :: pre) y post') as [He|(w & Hw & Hwp & Hys)]; [done|done| |].
    { by rewrite He, lookup_empty in Hb. }
    exists w. rewrite lookup_insert_ne; [done|]. intros <-.
    destruct (Hsucc y Hys) as [Hby|[Hy'|[]%elem_of_nil]]; [|congruence].
    destruct (Hbk y Hby). congruence.
  - intros x Hx. destruct (decide (x = b)) as [->|Hxb].
    + destruct Hpar as [?|(w & ? & ? & ? & ?)]; [by left|right]. exists w. split; [done|left].
      by rewrite lookup_insert_ne.
    + rewrite lookup_insert_ne in Hx by done.
      destruct (Htree x Hx) as [?|(w & ? & [Hw|?])]; [by left|right|right].
      * exists w. split; [done|]. destruct (decide (w = b)) as [->|].
        -- right. apply precedes_last. by apply Hexp.
        -- left. by rewrite lookup_insert_ne.
      * exists w. split; [done|right]. by apply precedes_snoc.
  - intros x. rewrite elem_of_app, list_elem_of_singleton, <-Hexp.
    destruct (decide (x = b)) as [->|]; [rewrite lookup_insert_eq; naive_solver|].
    rewrite lookup_insert_ne by done. naive_solver.
  - apply NoDup_app. split_and!; [done|set_solver|apply NoDup_singleton].
  - intros x y [Hx| ->%list_elem_of_singleton]%elem_of_app Hy.
    + destruct (Hedge x y Hx Hy); [by left|right; by apply precedes_snoc].
    + destruct (Hsucc y Hy) as [?|[Hy'|[]%elem_of_nil]]; [by left|right].
      apply precedes_last. by apply Hexp.
  - intros x y [Hx| ->%list_elem_of_singleton]%elem_of_app Hxy.
    + destruct (Hback x y Hx Hxy) as [?|[Hy|?]]; [by left| |right; right; by apply precedes_snoc].
      destruct (decide (y = b)) as [->|]; [right; right; by apply precedes_last|].
      right; left. by rewrite lookup_insert_ne.
    + destruct (Hbk y Hxy) as [Hy _]. destruct (decide (y = b)); [by left|].
      right; left. by rewrite lookup_insert_ne.
  - destruct Hent as [[He _]|[(He & pre & Hpre & Hn)|[? _]]]; [|right|done].
    + by rewrite He, lookup_empty in Hb.
    + destruct pre as [|c pre]; simplify_eq/=; [right; eauto|left].
      rewrite lookup_insert_ne by set_solver. split; [done|]. exists pre. set_solver.
Qed.

Lemma open_inv st b rest bb :
  explore_inv st → ex_stack st = b :: rest → ex_exploration st !! b = None → blocks !! b = Some bb →
  let st0 := {| ex_exploration := <[b := InProgress]> (ex_exploration st); ex_stack := b :: rest;
    ex_loop_heads := ex_loop_heads st; ex_post_order := ex_post_order st |} in
  explore_inv (foldl (visit_successor b) st0 (bb_successors bb)).
Proof.
  intros [Hst Hdom Hsrc Hprog Hvac Htree Hexp Hnd Hedge Hback Hent] Hstack Hb Hbb st0. rewrite Hstack in *.
  destruct (visit_successors st0 b (bb_successors bb)) as (Hex' & Hpo' & Hst' & Hbk').
  revert Hex' Hpo' Hst' Hbk'. generalize (foldl (visit_successor b) st0 (bb_successors bb)). subst st0.
  simpl. intros st' Hex' Hpo' Hst' Hbk'.
  assert (∀ x, x ≠ b → ex_exploration st' !! x = ex_exploration st !! x) as Hother
    by (intros x ?; rewrite Hex', lookup_insert_ne by done; done).
  assert (ex_exploration st' !! b = Some InProgress) as Hself by by rewrite Hex', lookup_insert_eq.
  rewrite <-Hex' in Hst', Hbk'. rewrite <-Hpo' in *.
  assert (∀ y, y ∈ rev (filter (λ s, ex_exploration st' !! s = None) (bb_successors bb)) ↔
    ex_exploration st' !! y = None ∧ y ∈ bb_successors bb) as Hpush
    by (intros y; by rewrite elem_of_rev, list_elem_of_filter).
  revert Hst' Hpush. generalize (rev (filter (λ s, ex_exploration st' !! s = None) (bb_successors bb))).
  intros pushes Hst' Hpush. clear Hex'.
  assert (succs b = bb_successors bb) as Hsuccs by (unfold succs; by rewrite Hbb).
  assert (∀ y, ¬ back (ex_loop_heads st) b y) as Hnone.
  { intros y [? ?]%Hsrc. congruence. }
  assert (b ∉ ex_post_order st') as Hfresh by (rewrite <-Hexp; congruence).
  split.
  - intros c. rewrite Hst', elem_of_app, Hpush. intros [[_ Hc]|Hc]; [|by apply Hst].
    by apply (bo_edge _ _ Hblocks b bb).
  - intros c. destruct (decide (c = b)) as [->|]; [eauto|]. rewrite Hother by done. apply Hdom.
  - intros x y [Hxy|(-> & _)]%Hbk'; [|eauto].
    destruct (decide (x = b)) as [->|]; [eauto|]. rewrite Hother by done. by apply (Hsrc x y).
  - intros z Hz. destruct (decide (z = b)) as [->|Hne].
    + exists pushes, rest. split_and!; [done|rewrite Hpush, Hself; naive_solver| | |].
      * rewrite Hsuccs. intros y Hy. rewrite Hbk', Hpush.
        destruct (ex_exploration st' !! y) as [[]|]; naive_solver.
      * intros y [?%Hnone|(_ & _ & Hy)]%Hbk'; [done|]. rewrite Hpush, Hy. naive_solver.
      * destruct (Hvac [] b rest) as [He|(w & Hw & Hwp & Hws)]; [done..| |].
        { left. destruct Hent as [[_ ?]|[[He' _]|[? _]]]; [congruence| |done].
          by rewrite He, lookup_empty in He'. }
        right. exists w. assert (w ≠ b) by congruence.
        rewrite Hpush, Hother by done. naive_solver.
    + rewrite Hother in Hz by done. destruct (Hprog z Hz) as (pre & post & Heq & Hnin & Hsu & Hbk & Hpar).
      destruct (below_top b z rest pre post Heq) as (pre' & -> & ->); [done|].
      exists (pushes ++ b :: pre'), post. split_and!.
      * by rewrite Hst', <-app_assoc.
      * rewrite elem_of_app, Hpush, Hother, Hz by done. set_solver.
      * intros y Hy. rewrite Hbk', elem_of_app. destruct (Hsu y Hy) as [?|[Hy'|?]]; [auto| |auto].
        rewrite Hother by congruence. auto.
      * intros y [Hy|[? _]]%Hbk'; [|done]. destruct (Hbk y Hy) as [Hy1 Hy2].
        rewrite Hother by set_solver. split; [done|].
        rewrite elem_of_app, Hpush, Hother, Hy1 by set_solver. set_solver.
      * destruct Hpar as [?|(w & ? & Hw & ? & ?)]; [by left|right]. exists w.
        rewrite elem_of_app, Hpush, Hother by congruence. rewrite Hw. set_solver.
  - intros pre y post Heq Hy. right. assert (y ≠ b) as Hyb by congruence.
    rewrite Hst' in Heq. apply app_eq_inv in Heq as [(k & Hp & Heq)|(k & -> & Heq)].
    + destruct k as [|c k]; simplify_eq/=. exists b. rewrite Hself, Hsuccs.
      assert (c ∈ pre ++ c :: k) as [_ ?]%Hpush by set_solver. set_solver.
    + destruct k as [|c k]; simplify_eq/=.
      assert (ex_exploration st !! y = None) as Hy' by by rewrite <-Hother.
      destruct (Hvac (c :: k) y post) as [He|(w & Hw & Hwp & Hys)]; [done..| |].
      { destruct Hent as [[_ ?]|[[He' _]|[? _]]]; [|by rewrite He, lookup_empty in He'|done].
        simplify_eq. by destruct k. }
      exists w. by rewrite Hother by congruence.
  - intros x Hx. rewrite Hother in Hx by congruence.
    destruct (Htree x Hx) as [?|(w & ? & [Hw|?])]; [by left|right|right]; exists w; [|by auto].
    rewrite Hother by congruence. auto.
  - intros x. destruct (decide (x = b)) as [->|]; [rewrite Hself; naive_solver|].
    by rewrite Hother.
  - done.
  - intros x y Hx Hy. rewrite Hbk'. destruct (Hedge x y Hx Hy); auto.
  - intros x y Hx [Hxy|[-> _]]%Hbk'; [|done].
    destruct (Hback x y Hx Hxy) as [?|[Hy|?]]; [auto| |auto]. rewrite Hother by congruence. auto.
  - right; left. destruct Hent as [[_ He]|[(He & pre & Hpre & Hn)|[? _]]]; [| |done].
    + simplify_eq. split; [done|]. exists pushes. split; [done|]. rewrite Hpush, Hself. naive_solver.
    + destruct pre as [|c pre]; simplify_eq/=. rewrite Hother by set_solver. split; [done|].
      exists (pushes ++ c :: pre). rewrite Hst', <-app_assoc. split; [done|].
      rewrite elem_of_app, Hpush, Hother, He by set_solver. set_solver.
Qed.

(** The pushes that are still to come, with those on the stack. *)
Definition unexplored (ex : gmap nat Exploration) (b : nat) : Z :=
  match ex !! b with None => 1 + Z.of_nat (length (succs b)) | Some _ => 0 end.
Definition pending (st : explore_state) : Z :=
  Z.of_nat (length (ex_stack st)) + set_sum (unexplored (ex_exploration st)) (dom blocks).

Lemma set_sum_update (f g : nat → Z) (X : gset nat) b :
  b ∈ X → (∀ x, x ≠ b → g x = f x) → set_sum g X = set_sum f X - f b + g b.
Proof.
  intros Hb Hfg. rewrite (set_sum_split f X {[b]}), (set_sum_split g X {[b]}).
  replace (X ∩ {[b]}) with ({[b]} : gset nat) by set_solver.
  unfold set_sum at 1 3. rewrite elements_singleton. simpl.
  rewrite (set_sum_ext g f (X ∖ {[b]})); [lia|]. intros x Hx. apply Hfg. set_solver.
Qed.
Lemma pending_nonneg st : 0 ≤ pending st.
Proof.
  unfold pending. pose proof (set_sum_nonneg (unexplored (ex_exploration st)) (dom blocks)).
  assert (∀ x, x ∈ dom blocks → 0 ≤ unexplored (ex_exploration st) x); [|naive_solver lia].
  intros x _. unfold unexplored. case_match; lia.
Qed.

Lemma explore_step_ok st b rest :
  explore_inv st → ex_stack st = b :: rest →
  ∃ st', explore_step blocks b (popped st rest) = Done st' ∧ explore_inv st' ∧ pending st' < pending st.
Proof.
  intros Hinv Hstack. unfold explore_step. simpl.
  destruct (ex_exploration st !! b) as [[]|] eqn:Hb.
  - eexists. split; [done|]. split; [by apply finish_inv|]. unfold pending. rewrite Hstack. simpl.
    rewrite (set_sum_ext _ (unexplored (ex_exploration st))); [lia|].
    intros x _. unfold unexplored. destruct (decide (x = b)) as [->|]; [by rewrite lookup_insert_eq, Hb|].
    by rewrite lookup_insert_ne.
  - eexists. split; [done|]. split; [by eapply explored_inv|]. unfold pending. rewrite Hstack. simpl. lia.
  - destruct (ei_stack _ Hinv b) as [bb Hbb]; [rewrite Hstack; by left|]. rewrite Hbb. simpl.
    eexists. split; [done|]. split; [by eapply open_inv|]. unfold pending.
    match goal with |- context [foldl _ ?s _] => destruct (visit_successors s b (bb_successors bb))
      as (-> & _ & -> & _) end. simpl. rewrite Hstack, length_app, length_rev. simpl.
    rewrite (set_sum_update (unexplored (ex_exploration st)) _ _ b).
    + unfold unexplored at 2 3. rewrite Hb, lookup_insert_eq. unfold succs. rewrite Hbb.
      pose proof (length_filter (λ s, <[b:=InProgress]> (ex_exploration st) !! s = None) (bb_successors bb)).
      lia.
    + apply elem_of_dom. eauto.
    + intros x Hx. unfold unexplored. by rewrite lookup_insert_ne.
Qed.

Lemma explore_ok fuel st :
  explore_inv st → pending st < Z.of_nat fuel →
  ∃ st', explore fuel blocks st = Done st' ∧ explore_inv st' ∧ ex_stack st' = [].
Proof.
  revert st. induction fuel as [|fuel IH]; intros st Hinv Hfuel; simpl.
  { pose proof (pending_nonneg st). lia. }
  destruct (ex_stack st) as [|b rest] eqn:Hstack; [by exists st|].
  destruct (explore_step_ok st b rest Hinv Hstack) as (st1 & Hstep & Hinv1 & Hlt).
  unfold popped in Hstep. rewrite Hstep. simpl. apply IH; [done|lia].
Qed.
End exploration.

(** * The graph of checked code *)

Lemma get_successors_length code pc l : get_successors pc code = Done l → (length l ≤ 2)%nat.
Proof.
  unfold get_successors. intros H. exec_inv.
  destruct (branch_offset _), (_ <=? _)%nat; simplify_eq/=; try lia;
    repeat case_match; simplify_eq/=; lia.
Qed.
Lemma blocks_size code blocks : blocks_ok code blocks → (size blocks ≤ length code)%nat.
Proof.
  intros Hok. rewrite <-(size_dom blocks). transitivity (size (set_seq (C:=gset nat) 0 (length code))).
  - apply subseteq_size. intros b [bb Hb]%elem_of_dom. apply elem_of_set_seq.
    pose proof (bo_range _ _ Hok b bb Hb). lia.
  - by rewrite size_set_seq.
Qed.
Lemma explore_enough code blocks :
  blocks_ok code blocks → pending blocks explore_init < Z.of_nat (explore_fuel code).
Proof.
  intros Hok. unfold pending, explore_fuel. simpl.
  pose proof (set_sum_le_const (unexplored blocks ∅) (dom blocks) 3) as Hsum.
  rewrite size_dom in Hsum. pose proof (blocks_size code blocks Hok).
  enough (∀ x, x ∈ dom blocks → unexplored blocks ∅ x ≤ 3) by naive_solver lia.
  intros x [bb Hx]%elem_of_dom. unfold unexplored, succs. rewrite lookup_empty, Hx.
  pose proof (get_successors_length _ _ _ (bo_succ _ _ Hok x bb Hx)). lia.
Qed.

Lemma windows_next order i b :
  NoDup order → order !! i = Some b → windows order !! b = order !! S i.
Proof.
  intros Hnd Hi. unfold windows.
  assert ((zip order (tail order)).*1 = take (length (tail order)) order) as Hfst.
  { destruct order as [|c l]; [done|]. simpl tail. clear. revert c.
    induction l as [|d l IH]; intros c; [done|]. simpl. f_equal. apply (IH d). }
  assert (NoDup (zip order (tail order)).*1) as Hnd'.
  { rewrite Hfst. eapply sublist_NoDup; [done|]. apply sublist_take. }
  assert (∀ v, (b, v) ∈ zip order (tail order) ↔ order !! S i = Some v) as Hin.
  { intros v. rewrite list_elem_of_lookup. setoid_rewrite lookup_zip_Some.
    setoid_rewrite lookup_tail. split; [|by exists i].
    intros (j & Hj & Hv). by rewrite (NoDup_lookup _ _ _ _ Hnd Hi Hj). }
  apply option_eq. intros v. by rewrite btree_collect_nodup, Hin.
Qed.

(** The order in which the abstract interpreter visits blocks. *)
Record traversal_ok (cfg : VMControlFlowGraph) (order : list nat) : Prop := {
  to_nodup : NoDup order;
  to_head : order !! 0%nat = Some ENTRY_BLOCK_ID;
  to_block : ∀ b, b ∈ order → is_Some (cfg_blocks cfg !! b);
  to_next : ∀ i b, order !! i = Some b → next_block cfg b = order !! S i;
  to_edge : ∀ i b bb s, order !! i = Some b → cfg_blocks cfg !! b = Some bb → s ∈ bb_successors bb →
    ∃ j, order !! j = Some s ∧ if is_back_edge cfg b s then (j ≤ i)%nat else (i < j)%nat;
  to_tree : ∀ i b, order !! S i = Some b → ∃ j w bb, (j ≤ i)%nat ∧ order !! j = Some w ∧
    cfg_blocks cfg !! w = Some bb ∧ b ∈ bb_successors bb;
}.

Lemma is_back_edge_back cfg x y : is_back_edge cfg x y = true ↔ back (cfg_loop_heads cfg) x y.
Proof.
  unfold is_back_edge, back. destruct (cfg_loop_heads cfg !! y) as [from|].
  - rewrite bool_decide_eq_true. naive_solver.
  - naive_solver.
Qed.

Lemma explored_traversal code blocks st succ_map :
  blocks_ok code blocks → explore_inv blocks st → ex_stack st = [] →
  succ_map = windows (rev (ex_post_order st)) →
  traversal_ok {| cfg_blocks := blocks; cfg_traversal_successors := succ_map;
    cfg_loop_heads := ex_loop_heads st |} (rev (ex_post_order st)).
Proof.
  intros Hok [Hst Hdom Hsrc Hprog Hvac Htree Hexp Hnd Hedge Hback Hent] Hempty ->.
  assert (∀ x, ex_exploration st !! x ≠ Some InProgress) as Hnone.
  { intros x Hx. destruct (Hprog x Hx) as (pre & post & Heq & _). rewrite Hempty in Heq.
    by destruct pre. }
  assert (NoDup (rev (ex_post_order st))) as Hnd' by by rewrite <-Permutation_rev.
  split; simpl.
  - done.
  - destruct Hent as [[_ He]|[[He _]|[_ [l Hl]]]]; [by rewrite Hempty in He|by destruct (Hnone 0%nat)|].
    by rewrite Hl, rev_app_distr.
  - intros b Hb. apply Hdom. rewrite elem_of_rev, <-Hexp in Hb. by rewrite Hb.
  - intros i b Hi. unfold next_block. simpl. by apply windows_next.
  - intros i b bb s Hi Hbb Hs.
    assert (b ∈ ex_post_order st) as Hb.
    { rewrite <-elem_of_rev. by apply list_elem_of_lookup_2 in Hi. }
    assert (s ∈ succs blocks b) as Hs' by (unfold succs; by rewrite Hbb).
    assert (∃ j, rev (ex_post_order st) !! j = Some s) as [j Hj].
    { apply list_elem_of_lookup. rewrite elem_of_rev.
      destruct (Hedge b s Hb Hs') as [Hbk|(l1 & l2 & -> & _)]; [|set_solver].
      destruct (Hback b s Hb Hbk) as [->|[?%Hnone|(l1 & l2 & -> & ?)]]; [done..|set_solver]. }
    exists j. split; [done|]. case_match eqn:Hbe.
    + apply is_back_edge_back in Hbe.
      destruct (Hback b s Hb Hbe) as [->|[?%Hnone|Hp]]; [|done|].
      * by rewrite (NoDup_lookup _ _ _ _ Hnd' Hi Hj).
      * apply precedes_rev in Hp. pose proof (precedes_lookup _ _ _ _ _ Hnd' Hp Hj Hi). lia.
    + destruct (Hedge b s Hb Hs') as [Hbk|Hp].
      * rewrite (proj2 (is_back_edge_back _ _ _)) in Hbe; done.
      * apply precedes_rev in Hp. by apply (precedes_lookup _ _ _ _ _ Hnd' Hp).
  - intros i b Hi.
    assert (ex_exploration st !! b = Some Explored) as Hb.
    { apply Hexp. rewrite <-elem_of_rev. by apply list_elem_of_lookup_2 in Hi. }
    destruct (Htree b Hb) as [->|(w & Hbw & [?%Hnone|Hp])]; [|done|].
    { exfalso. destruct Hent as [[_ He]|[[He _]|[_ [l Hl]]]]; [by rewrite Hempty in He|by destruct (Hnone 0%nat)|].
      assert (rev (ex_post_order st) !! 0%nat = Some ENTRY_BLOCK_ID) as H0 by by rewrite Hl, rev_app_distr.
      by pose proof (NoDup_lookup _ _ _ _ Hnd' Hi H0). }
    unfold succs in Hbw. destruct (blocks !! w) as [bb|] eqn:Hw; [|by apply elem_of_nil in Hbw].
    apply precedes_rev in Hp. pose proof Hp as (l1 & l2 & Hl & _).
    assert (rev (ex_post_order st) !! length l1 = Some w) as Hj by by rewrite Hl, list_lookup_middle.
    exists (length l1), w, bb. split_and!; [|done..].
    pose proof (precedes_lookup _ _ _ _ _ Hnd' Hp Hj Hi). lia.
Qed.

Lemma cfg_new_ok code :
  code_ok code →
  ∃ cfg order, VMControlFlowGraph_new code = Done cfg ∧ blocks_ok code (cfg_blocks cfg) ∧
    traversal_ok cfg order.
Proof.
  intros Hcode. unfold VMControlFlowGraph_new.
  destruct (record_block_ids_ok code (length code) Hcode) as (ids & -> & Hids); [done|]. simpl.
  destruct (create_blocks_ok code ids Hcode Hids) as (blocks & -> & Hblocks). simpl.
  rewrite Nat.eqb_refl. simpl.
  destruct (explore_ok code blocks Hblocks (explore_fuel code) explore_init) as (st & -> & Hinv & Hst);
    [by eapply explore_init_inv|by apply explore_enough|].
  simpl. eexists _, (rev (ex_post_order st)). split; [done|]. split; [done|]. by eapply explored_traversal.
Qed.

(** An edge of the graph. *)
Definition cfg_edge (cfg : VMControlFlowGraph) (b s : nat) : Prop :=
  ∃ bb, cfg_blocks cfg !! b = Some bb ∧ s ∈ bb_successors bb.
Lemma traversal_reachable cfg order b :
  traversal_ok cfg order → b ∈ order ↔ rtc (cfg_edge cfg) ENTRY_BLOCK_ID b.
Proof.
  intros Hok. split.
  - intros [i Hi]%list_elem_of_lookup. revert b Hi. induction (lt_wf i) as [i _ IH]. intros b Hi.
    destruct i as [|i]; [rewrite (to_head _ _ Hok) in Hi; simplify_eq; done|].
    destruct (to_tree _ _ Hok _ _ Hi) as (j & w & bb & Hji & Hj & Hw & Hb).
    eapply rtc_r; [apply (IH j ltac:(lia) w Hj)|]. by exists bb.
  - intros Hr. apply rtc_ind_r with (P := λ b, b ∈ order) in Hr; [done| |].
    + eapply list_elem_of_lookup_2, (to_head _ _ Hok).
    + intros x y _ (bb & Hx & Hy) [i Hi]%list_elem_of_lookup.
      destruct (to_edge _ _ Hok _ _ _ _ Hi Hx Hy) as (j & Hj & _). by eapply list_elem_of_lookup_2.
Qed.

(** C28: The control-flow graph of bounds-checked code.  Its construction ends
    without a panic.  The blocks cover the code, only the last instruction
    of a block branches, and the successors of a block are the places its last
    instruction can go to.  The traversal order starts at the entry and lists
    exactly the blocks that can be reached from it, each once; an edge leads
    forward in the order exactly when it is not reported as a back edge, and
    [next_block] steps through the order. *)
Theorem control_flow_graph_exact (code : list Bytecode) :
  code_ok code →
  ∃ cfg order, VMControlFlowGraph_new code = Done cfg ∧ blocks_ok code (cfg_blocks cfg) ∧
    traversal_ok cfg order ∧
    ∀ b, b ∈ order ↔ rtc (cfg_edge cfg) ENTRY_BLOCK_ID b.
Proof.
  intros Hcode. destruct (cfg_new_ok code Hcode) as (cfg & order & Hcfg & Hblocks & Horder).
  exists cfg, order. split_and!; [done..|]. intros b. by apply traversal_reachable.
Qed.

(** A loop from 2 back to 0 with an exit at 3. *)
Lemma control_flow_graph_exact_witness :
  ∃ cfg order, VMControlFlowGraph_new [Bc.LdTrue; Bc.BrTrue 3; Bc.Branch 0; Bc.Ret] = Done cfg ∧
    traversal_ok cfg order ∧ ∀ b, b ∈ order ↔ rtc (cfg_edge cfg) ENTRY_BLOCK_ID b.
Proof.
  destruct (control_flow_graph_exact [Bc.LdTrue; Bc.BrTrue 3; Bc.Branch 0; Bc.Ret])
    as (cfg & order & Hcfg & _ & Horder & Hreach).
  - split; [done|by apply Nat.leb_le|]. intros b o Hb Ho.
    repeat (apply elem_of_cons in Hb as [->|Hb]; [simpl in *; simplify_eq; lia|]).
    by apply elem_of_nil in Hb.
  - exists cfg, order. exact (conj Hcfg (conj Horder Hreach)).
Defined.
