(* ===== verification/AbstractInterp.v ===== *)
(** The abstract interpreter of the bytecode verifier
    ([move-bytecode-verifier/src/absint.rs]) and the meters that bound its
    work ([meter.rs]).

    The analysis is generic in the abstract domain and in the transfer
    function of an instruction; [analyze_function] visits blocks in the
    traversal order of the control-flow graph, joins what leaves a block into
    its successors, and goes back when a join changed the target of a back
    edge.  The theorems: what it accepts is a post-fixpoint that covers every
    reachable block, and it ends whenever joins can change a state only
    finitely often. *)
From S2P Require Import Prelude MapSums Objects Errors.
From S2P Require Import MoveIntegers MoveModule VmMonad.
From S2P Require Import ControlFlow TraversalOrder.

(** * Meters *)

Inductive Scope := ScopeTransaction | ScopePackage | ScopeModule | ScopeFunction.
#[export] Instance Scope_eq_dec : EqDecision Scope.
Proof. solve_decision. Defined.

(** The trait [Meter].  [transfer] is only ever called with the factor 1. *)
Class Meter (M : Type) := {
  enter_scope : string → Scope → sem M unit;
  transfer : Scope → Scope → sem M unit;
  meter_add : Scope → Z → sem M unit;
}.
Definition saturating_mul128 (a b : Z) : Z := Z.min u128_max (a * b).
Definition saturating_add128 (a b : Z) : Z := Z.min u128_max (a + b).
Definition add_items {M} `{Meter M} (scope : Scope) (units_per_item : Z) (items : nat) : sem M unit :=
  if (items =? 0)%nat then sret ()
  else meter_add scope (saturating_mul128 units_per_item (Z.of_nat items)).

Record Bounds := { bd_name : string; bd_units : Z; bd_max : option Z }.
Record BoundMeter := { mod_bounds : Bounds; fun_bounds : Bounds }.
Definition get_bounds (b : BoundMeter) (scope : Scope) : Bounds :=
  if decide (scope = ScopeModule) then mod_bounds b else fun_bounds b.
(** [get_bounds_mut]. *)
Definition set_bounds (b : BoundMeter) (scope : Scope) (x : Bounds) : BoundMeter :=
  if decide (scope = ScopeModule) then {| mod_bounds := x; fun_bounds := fun_bounds b |}
  else {| mod_bounds := mod_bounds b; fun_bounds := x |}.
Definition Bounds_add (b : Bounds) (units : Z) : vmresult Bounds :=
  match bd_max b with
  | Some max =>
      let new_units := saturating_add128 (bd_units b) units in
      if max <? new_units then Err Vm.CONSTRAINT_NOT_SATISFIED
      else Ok {| bd_name := bd_name b; bd_units := new_units; bd_max := bd_max b |}
  | None => Ok b
  end.
Definition BoundMeter_add (scope : Scope) (units : Z) : sem BoundMeter unit := λ m,
  match Bounds_add (get_bounds m scope) units with
  | Ok b => Done (set_bounds m scope b, Ok ())
  | Err e => Done (m, Err e)
  end.
(** [units as f32 as u128]: rounding to 24 significant bits, ties to even. *)
Definition round_f32 (z : Z) : Z :=
  if z <? 2 ^ 24 then z
  else
    let e := Z.log2 z - 23 in
    let q := z / 2 ^ e in
    let r := z mod 2 ^ e in
    let up := (2 ^ (e - 1) <? r) || (r =? 2 ^ (e - 1)) && Z.odd q in
    Z.min u128_max ((if up then q + 1 else q) * 2 ^ e).
#[export] Instance BoundMeter_Meter : Meter BoundMeter := {|
  enter_scope name scope := smodify (λ m,
    set_bounds m scope {| bd_name := name; bd_units := 0; bd_max := bd_max (get_bounds m scope) |});
  transfer from to := λ m, BoundMeter_add to (round_f32 (bd_units (get_bounds m from))) m;
  meter_add := BoundMeter_add;
|}.
(** [DummyMeter]. *)
#[export] Instance DummyMeter_Meter : Meter unit := {|
  enter_scope _ _ := sret ();
  transfer _ _ := sret ();
  meter_add _ _ := sret ();
|}.

Definition ANALYZE_FUNCTION_BASE_COST : Z := 10.
Definition EXECUTE_BLOCK_BASE_COST : Z := 10.
Definition PER_BACKEDGE_COST : Z := 10.
Definition PER_SUCCESSOR_COST : Z := 10.

(** * The interpreter *)

Inductive JoinResult := Changed | Unchanged.

Section interpreter.
Context {M State : Type} `{Meter M}.
(** [AbstractDomain::join] and [TransferFunctions::execute]: the state before,
    the instruction, its offset and the end of its block. *)
Context (join : State → State → sem M (State * JoinResult)).
Context (execute : State → Bytecode → nat → nat → sem M State).
Context (code : list Bytecode) (cfg : VMControlFlowGraph).

Fixpoint execute_offsets (block_end : nat) (offsets : list nat) (state_acc : State) : sem M State :=
  match offsets with
  | [] => sret state_acc
  | offset :: offsets =>
      (instr ← sexec (unwrap (code !! offset));
       state_acc ← execute state_acc instr offset block_end;
       execute_offsets block_end offsets state_acc)%sem
  end.
Definition execute_block (block_id : nat) (pre_state : State) : sem M State :=
  (meter_add ScopeFunction EXECUTE_BLOCK_BASE_COST;;
   block_end ← sexec (block_end cfg block_id);
   offsets ← sexec (instr_indexes cfg block_id);
   execute_offsets block_end offsets pre_state)%sem.

(** The loop over the successors of a block: the new invariants and the block
    to go to next. *)
Fixpoint propagate (block_id : nat) (post_state : State) (succs : list nat)
    (inv_map : gmap nat State) (candidate : option nat) : sem M (gmap nat State * option nat) :=
  match succs with
  | [] => sret (inv_map, candidate)
  | succ :: succs =>
      (meter_add ScopeFunction PER_SUCCESSOR_COST;;
       match inv_map !! succ with
       | Some old_pre =>
           r ← join old_pre post_state;
           let inv_map := <[succ := r.1]> inv_map in
           match r.2 with
           | Unchanged => propagate block_id post_state succs inv_map candidate
           | Changed =>
               if is_back_edge cfg block_id succ then
                 meter_add ScopeFunction PER_BACKEDGE_COST;;
                 sret (inv_map, Some succ)
               else propagate block_id post_state succs inv_map candidate
           end
       | None => propagate block_id post_state succs (<[succ := post_state]> inv_map) candidate
       end)%sem
  end.

(** [while let Some(block_id) = next_block]; returns the invariants it ends with. *)
Fixpoint analyze_loop (fuel : nat) (inv_map : gmap nat State) (next : option nat)
    : sem M (gmap nat State) :=
  match next with
  | None => sret inv_map
  | Some block_id =>
      match fuel with
      | O => λ _, OutOfFuel
      | S fuel =>
          match inv_map !! block_id with
          | None => analyze_loop fuel inv_map (next_block cfg block_id)
          | Some pre_state =>
              (post_state ← execute_block block_id pre_state;
               succs ← sexec (successors cfg block_id);
               out ← propagate block_id post_state succs inv_map (next_block cfg block_id);
               analyze_loop fuel out.1 out.2)%sem
          end
      end
  end.
Definition analyze_function (fuel : nat) (initial_state : State) : sem M (gmap nat State) :=
  (meter_add ScopeFunction ANALYZE_FUNCTION_BASE_COST;;
   analyze_loop fuel {[ENTRY_BLOCK_ID := initial_state]} (Some ENTRY_BLOCK_ID))%sem.
End interpreter.

(** * What is accepted is a post-fixpoint *)

Section soundness.
Context {M State : Type} `{Meter M}.
Context (join : State → State → sem M (State * JoinResult)).
Context (execute : State → Bytecode → nat → nat → sem M State).
Context (code : list Bytecode) (cfg : VMControlFlowGraph) (order : list nat).
Context (Horder : traversal_ok cfg order).
Context (leq : State → State → Prop) `{!PreOrder leq}.
Context (Hjoin : ∀ s t m m' s' r, join s t m = Done (m', Ok (s', r)) →
  leq s s' ∧ leq t s' ∧ (r = Unchanged → s' = s)).

(** Block [u] runs from its invariant and what leaves it is below the
    invariants of its successors. *)
Definition settled (inv : gmap nat State) (u : nat) : Prop :=
  ∃ pre post m m' bb, inv !! u = Some pre ∧ cfg_blocks cfg !! u = Some bb ∧
    execute_block execute code cfg u pre m = Done (m', Ok post) ∧
    ∀ s, s ∈ bb_successors bb → ∃ pre', inv !! s = Some pre' ∧ leq post pre'.

(** Position [i] comes before the block to visit next. *)
Definition visited (next : option nat) (i : nat) : Prop :=
  match next with
  | Some b => ∃ p, order !! p = Some b ∧ (i < p)%nat
  | None => True
  end.

Record loop_inv (init : State) (inv : gmap nat State) (next : option nat) : Prop := {
  li_dom : ∀ u, is_Some (inv !! u) → u ∈ order;
  li_entry : ∃ pre, inv !! ENTRY_BLOCK_ID = Some pre ∧ leq init pre;
  li_next : ∀ b, next = Some b → b ∈ order;
  li_settled : ∀ i u, order !! i = Some u → visited next i → settled inv u;
}.

Lemma propagate_ok b post succs inv cand m m' inv' next' :
  propagate join cfg b post succs inv cand m = Done (m', Ok (inv', next')) →
  (∀ s p, inv !! s = Some p → ∃ p', inv' !! s = Some p' ∧ leq p p') ∧
  (∀ s, inv' !! s = inv !! s ∨
     s ∈ succs ∧ (inv !! s = None ∨ is_back_edge cfg b s = false ∨ next' = Some s)) ∧
  ((next' = cand ∧ ∀ s, s ∈ succs → ∃ p', inv' !! s = Some p' ∧ leq post p') ∨
   (∃ s, s ∈ succs ∧ next' = Some s ∧ is_back_edge cfg b s = true)).
Proof.
  revert inv m. induction succs as [|s0 succs IH]; intros inv m Hrun; simpl in Hrun; sem_inv.
  { split_and!; [by intros s p Hs; exists p; split|by left|]. left. split; [done|]. by intros s ?%elem_of_nil. }
  destruct (inv !! s0) as [p0|] eqn:Hs0.
  - sem_inv. destruct a0 as [s' r]. simpl in Hrun.
    destruct (Hjoin _ _ _ _ _ _ Hm0) as (Hl1 & Hl2 & Hun).
    assert (∀ s p, inv !! s = Some p → ∃ p', <[s0:=s']> inv !! s = Some p' ∧ leq p p') as Hgrow.
    { intros s p Hs. destruct (decide (s = s0)) as [->|].
      - rewrite lookup_insert_eq. exists s'. by simplify_eq.
      - rewrite lookup_insert_ne by done. by exists p. }
    assert (r = Changed ∧ is_back_edge cfg b s0 = true ∧ inv' = <[s0:=s']> inv ∧ next' = Some s0 ∨
      (r = Unchanged ∨ is_back_edge cfg b s0 = false) ∧
      ∃ m1, propagate join cfg b post succs (<[s0:=s']> inv) cand m1 = Done (m', Ok (inv', next')))
      as [(_ & Hbe & -> & ->)|(Hwhy & m1 & Hrun')].
    { destruct r; [destruct (is_back_edge cfg b s0) eqn:Hbe|].
      - sem_inv. by left.
      - right. split; [by right|]. by eexists.
      - right. split; [by left|]. by eexists. }
    + split_and!; [done| |].
      * intros s. destruct (decide (s = s0)) as [->|]; [right|left; by rewrite lookup_insert_ne].
        split; [by left|]. by right; right.
      * right. exists s0. split; [by left|done].
    + destruct (IH _ _ Hrun') as (Hg & Hch & Hend). split_and!.
      * intros s p Hs. destruct (Hgrow s p Hs) as (p1 & H1 & Hle1).
        destruct (Hg s p1 H1) as (p2 & H2 & Hle2). exists p2. split; [done|]. by etrans.
      * intros s. destruct (decide (s = s0)) as [->|Hne].
        -- destruct (Hch s0) as [Heq|[Hin Hw]]; rewrite lookup_insert_eq in *.
           ++ destruct Hwhy as [->|?]; [|right; split; [by left|by right; left]].
              left. rewrite Heq, Hun by done. by rewrite Hs0.
           ++ right. split; [by right|]. right. by destruct Hw.
        -- destruct (Hch s) as [Heq|[Hin Hw]]; rewrite lookup_insert_ne in * by done; [by left|].
           right. by split; [right|].
      * destruct Hend as [[-> Hall]|(s & Hin & Hs)]; [left|right; exists s; by split; [right|]].
        split; [done|]. intros s [->|Hin]%elem_of_cons; [|by apply Hall].
        destruct (Hg s0 s') as (p' & Hp' & Hle); [by rewrite lookup_insert_eq|].
        exists p'. split; [done|]. by etrans.
  - destruct (IH _ _ Hrun) as (Hg & Hch & Hend). split_and!.
    + intros s p Hs. apply Hg. rewrite lookup_insert_ne by congruence. done.
    + intros s. destruct (decide (s = s0)) as [->|Hne].
      * right. split; [by left|]. by left.
      * destruct (Hch s) as [Heq|[Hin Hw]]; rewrite lookup_insert_ne in * by done; [by left|].
        right. by split; [right|].
    + destruct Hend as [[-> Hall]|(s & Hin & Hs)]; [left|right; exists s; by split; [right|]].
      split; [done|]. intros s [->|Hin]%elem_of_cons; [|by apply Hall].
      destruct (Hg s0 post) as (p' & Hp' & Hle); [by rewrite lookup_insert_eq|]. eauto.
Qed.

(** Every block up to the next one has an invariant. *)
Lemma next_has_invariant init inv b :
  loop_inv init inv (Some b) → is_Some (inv !! b).
Proof.
  intros [Hdom (pre & Hpre & _) Hnext Hset].
  destruct (list_elem_of_lookup_1 _ _ (Hnext b eq_refl)) as [[|p] Hp].
  - rewrite (to_head _ _ Horder) in Hp. simplify_eq. eauto.
  - destruct (to_tree _ _ Horder p b Hp) as (j & w & bb & Hj & Hw & Hbb & Hin).
    destruct (Hset j w Hw) as (? & ? & ? & ? & bb' & _ & Hbb' & _ & Hs).
    { exists (S p). split; [done|lia]. }
    simplify_eq. destruct (Hs b Hin) as (? & ? & _). eauto.
Qed.

Lemma settled_grow inv inv' u :
  settled inv u → inv' !! u = inv !! u →
  (∀ s p, inv !! s = Some p → ∃ p', inv' !! s = Some p' ∧ leq p p') → settled inv' u.
Proof.
  intros (pre & post & m & m' & bb & Hpre & Hbb & Hex & Hs) Heq Hg.
  exists pre, post, m, m', bb. rewrite Heq. split_and!; [done..|].
  intros s Hin. destruct (Hs s Hin) as (p & Hp & Hle). destruct (Hg s p Hp) as (p' & Hp' & Hle').
  exists p'. split; [done|]. by etrans.
Qed.

Lemma iteration_inv init inv b pre post bb m m1 m2 m3 inv' next' :
  loop_inv init inv (Some b) → inv !! b = Some pre → cfg_blocks cfg !! b = Some bb →
  execute_block execute code cfg b pre m = Done (m1, Ok post) →
  propagate join cfg b post (bb_successors bb) inv (next_block cfg b) m2 = Done (m3, Ok (inv', next')) →
  loop_inv init inv' next'.
Proof.
  intros [Hdom (pre0 & Hpre0 & Hle0) Hnext Hset] Hpre Hbb Hex Hprop.
  destruct (propagate_ok _ _ _ _ _ _ _ _ _ Hprop) as (Hg & Hch & Hend).
  destruct (list_elem_of_lookup_1 _ _ (Hnext b eq_refl)) as [p Hp].
  assert (∀ s, s ∈ bb_successors bb → ∃ j, order !! j = Some s ∧
    if is_back_edge cfg b s then (j ≤ p)%nat else (p < j)%nat) as Hedge
    by (intros s; by apply (to_edge _ _ Horder p b bb)).
  assert (∀ i u, order !! i = Some u → is_Some (inv !! u) → (i ≤ p)%nat →
    next' ≠ Some u → inv' !! u = inv !! u) as Hsame.
  { intros i u Hi [pu Hu] Hip Hno.
    destruct (Hch u) as [?|(Hin & [?|[Hbe|?]])]; [done|congruence| |done].
    destruct (Hedge u Hin) as (j & Hj & Hlt). rewrite Hbe in Hlt.
    pose proof (NoDup_lookup _ _ _ _ (to_nodup _ _ Horder) Hi Hj). lia. }
  split.
  - intros u Hu. destruct (Hch u) as [Heq|[Hin _]]; [apply Hdom; by rewrite <-Heq|].
    destruct (Hedge u Hin) as (j & Hj & _).
    by eapply list_elem_of_lookup_2.
  - destruct (Hg _ _ Hpre0) as (p' & Hp' & Hle). exists p'. split; [done|]. by etrans.
  - intros c ->. destruct Hend as [[Hc _]|(s & Hin & [= ->] & _)].
    + rewrite (to_next _ _ Horder p b Hp) in Hc. by eapply list_elem_of_lookup_2.
    + destruct (Hedge s Hin) as (j & Hj & _). by eapply list_elem_of_lookup_2.
  - intros i u Hi Hvis.
    assert ((i ≤ p)%nat ∧ ∀ q, next' = Some u → order !! q = Some u → (i < q)%nat) as [Hip Hnx].
    { split.
      - destruct Hend as [[-> _]|(s & Hin & -> & Hbe)].
        + rewrite (to_next _ _ Horder p b Hp) in Hvis. destruct (order !! S p) as [c|] eqn:Hc.
          * destruct Hvis as (q & Hq & Hlt). pose proof (NoDup_lookup _ _ _ _ (to_nodup _ _ Horder) Hc Hq). lia.
          * apply lookup_ge_None in Hc. apply lookup_lt_Some in Hi. lia.
        + destruct Hvis as (q & Hq & Hlt). destruct (Hedge s Hin) as (j & Hj & Hjp). rewrite Hbe in Hjp.
          pose proof (NoDup_lookup _ _ _ _ (to_nodup _ _ Horder) Hj Hq). lia.
      - intros q -> Hq. destruct Hvis as (q' & Hq' & Hlt).
        by rewrite (NoDup_lookup _ _ _ _ (to_nodup _ _ Horder) Hq Hq'). }
    assert (next' ≠ Some u) as Hnu.
    { intros ->. specialize (Hnx i eq_refl Hi). lia. }
    destruct (decide (i = p)) as [->|Hne].
    + rewrite Hp in Hi. simplify_eq. destruct Hend as [[-> Hall]|(s & Hin & -> & Hbe)].
      * exists pre, post, m, m1, bb. split_and!; [|done..].
        by rewrite (Hsame p u) by eauto.
      * destruct Hvis as (q & Hq & Hlt). destruct (Hedge s Hin) as (j & Hj & Hjp). rewrite Hbe in Hjp.
        pose proof (NoDup_lookup _ _ _ _ (to_nodup _ _ Horder) Hj Hq). lia.
    + assert (settled inv u) as Hu by (apply (Hset i u Hi); exists p; split; [done|lia]).
      apply (settled_grow inv); [done| |done].
      apply (Hsame i u); [done| |lia|done]. destruct Hu as (? & ? & ? & ? & ? & ? & _). eauto.
Qed.

Lemma analyze_loop_sound fuel init inv next m m' inv' :
  loop_inv init inv next →
  analyze_loop join execute code cfg fuel inv next m = Done (m', Ok inv') → loop_inv init inv' None.
Proof.
  revert inv next m. induction fuel as [|fuel IH]; intros inv next m Hinv Hrun; simpl in Hrun;
    (destruct next as [b|]; [|by sem_inv]); [done|].
  destruct (next_has_invariant _ _ _ Hinv) as [pre Hpre]. rewrite Hpre in Hrun. sem_inv.
  unfold successors in *. exec_inv. destruct a1 as [inv1 next1]. simpl in Hrun.
  eapply IH; [|done]. by eapply iteration_inv.
Qed.

Lemma analyze_sound fuel init m m' inv :
  analyze_function join execute code cfg fuel init m = Done (m', Ok inv) → loop_inv init inv None.
Proof.
  unfold analyze_function. intros Hrun. sem_inv. eapply analyze_loop_sound; [|done]. split.
  - intros u. intros <-%lookup_singleton_is_Some.
    eapply list_elem_of_lookup_2. apply (to_head _ _ Horder).
  - exists init. split; [apply lookup_singleton_eq|done].
  - intros b [= <-]. eapply list_elem_of_lookup_2. apply (to_head _ _ Horder).
  - intros i u Hi (p & Hp & Hlt).
    pose proof (NoDup_lookup _ _ _ _ (to_nodup _ _ Horder) Hp (to_head _ _ Horder)). lia.
Qed.
End soundness.

(** * The analysis ends *)

(** Code that neither panics nor runs out of fuel, whatever error it returns. *)
Notation returns := (wp (λ _, True)).

(** The contract of a meter: charging it returns. *)
Class MeterTotal (M : Type) `{Meter M} : Prop := {
  enter_returns name sc m : returns (enter_scope name sc) m (λ _ _, True);
  transfer_returns from to m : returns (transfer from to) m (λ _ _, True);
  add_returns sc units m : returns (meter_add sc units) m (λ _ _, True);
}.
#[export] Instance DummyMeter_total : MeterTotal unit.
Proof. by split. Qed.
Lemma BoundMeter_add_returns sc units m : returns (BoundMeter_add sc units) m (λ _ _, True).
Proof. unfold wp, BoundMeter_add. by destruct (Bounds_add _ _). Qed.
#[export] Instance BoundMeter_total : MeterTotal BoundMeter.
Proof. split; intros; [done|apply BoundMeter_add_returns..]. Qed.
Lemma add_items_returns {M} `{MeterTotal M} sc units n m :
  returns (add_items sc units n) m (λ _ _, True).
Proof. unfold add_items. case_match; [done|]. apply add_returns. Qed.

Lemma sum_list_update {A} (f g : A → nat) (l : list A) x :
  NoDup l → x ∈ l → (∀ y, y ≠ x → g y = f y) →
  (sum_list (map g l) + f x = sum_list (map f l) + g x)%nat.
Proof.
  intros Hnd Hx Heq. induction Hnd as [|y l Hy Hnd IH]; [by apply elem_of_nil in Hx|].
  simpl. apply elem_of_cons in Hx as [->|Hx].
  - assert (map g l = map f l) as ->; [|lia].
    apply map_ext_in. intros z ?%list_elem_of_In. apply Heq. by intros ->.
  - rewrite (Heq y) by (by intros ->). specialize (IH Hx). lia.
Qed.
Lemma sum_list_bound {A} (f : A → nat) (l : list A) c :
  (∀ x, (f x ≤ c)%nat) → (sum_list (map f l) ≤ length l * c)%nat.
Proof. intros Hf. induction l as [|x l IH]; simpl; [lia|]. specialize (Hf x). lia. Qed.

Section termination.
Context {M State : Type} `{MeterTotal M}.
Context (join : State → State → sem M (State * JoinResult)).
Context (execute : State → Bytecode → nat → nat → sem M State).
Context (code : list Bytecode) (cfg : VMControlFlowGraph) (order : list nat).
Context (Hblocks : blocks_ok code (cfg_blocks cfg)) (Horder : traversal_ok cfg order).
(** The shape of the states, and how often a join can still change one. *)
Context (good : State → Prop) (rank : State → nat) (height : nat).
Context (Hrank : ∀ s, good s → (rank s ≤ height)%nat).
Context (Hexec : ∀ s instr offset block_end m, good s → code !! offset = Some instr →
  returns (execute s instr offset block_end) m (λ s' _, good s')).
Context (Hjoin : ∀ s t m, good s → good t →
  returns (join s t) m (λ out _, good out.1 ∧ (rank out.1 ≤ rank s)%nat ∧
    (out.2 = Changed → (rank out.1 < rank s)%nat))).

Lemma execute_block_returns b bb pre m :
  cfg_blocks cfg !! b = Some bb → good pre →
  returns (execute_block execute code cfg b pre) m (λ post _, good post).
Proof.
  intros Hbb Hpre. unfold execute_block, instr_indexes, block_end. rewrite Hbb.
  apply wp_bind. eapply wp_mono; [apply add_returns|]. intros _ m1 _.
  eapply wp_bind, wp_exec; [done|]. eapply wp_bind, wp_exec; [done|].
  pose proof (bo_range _ _ Hblocks _ _ Hbb) as Hr. clear Hbb.
  assert (∀ p, p ∈ seq b (S (bb_exit bb) - b) → (p < length code)%nat) as Hin.
  { intros p Hp%elem_of_seq. lia. }
  revert pre m1 Hpre Hin. induction (seq b _) as [|p offs IH]; intros pre m1 Hpre Hin; [done|].
  simpl. destruct (lookup_lt_is_Some_2 code p) as [i Hi]; [apply Hin; by left|].
  rewrite Hi. eapply wp_bind, wp_exec; [done|]. apply wp_bind.
  eapply wp_mono; [by apply Hexec|]. intros s' m2 Hs'. apply IH; [done|].
  intros q Hq. apply Hin. by right.
Qed.

(** How many changes the invariants still allow. *)
Definition weight (inv : gmap nat State) : nat :=
  sum_list (map (λ u, match inv !! u with Some s => rank s | None => height end) order).
Definition all_good (inv : gmap nat State) : Prop := ∀ u s, inv !! u = Some s → good s.

Lemma weight_insert inv u s :
  u ∈ order →
  (weight (<[u:=s]> inv) + match inv !! u with Some s => rank s | None => height end =
   weight inv + rank s)%nat.
Proof.
  intros Hu. unfold weight.
  rewrite (sum_list_update (λ u, match inv !! u with Some s => rank s | None => height end)
    _ order u (to_nodup _ _ Horder) Hu); [by rewrite lookup_insert_eq|].
  intros y Hy. by rewrite lookup_insert_ne.
Qed.
Lemma all_good_insert inv u s : all_good inv → good s → all_good (<[u:=s]> inv).
Proof. intros Hall Hs v t [[_ <-]|[_ ?]]%lookup_insert_Some; [done|by eapply Hall]. Qed.

Lemma propagate_returns b post succs inv cand m :
  all_good inv → good post → (∀ s, s ∈ succs → s ∈ order) →
  returns (propagate join cfg b post succs inv cand) m (λ out _, all_good out.1 ∧
    (weight out.1 ≤ weight inv)%nat ∧
    (out.2 = cand ∨ (weight out.1 < weight inv)%nat ∧
      ∃ s, s ∈ succs ∧ is_back_edge cfg b s = true ∧ out.2 = Some s)).
Proof.
  revert inv m. induction succs as [|s0 succs IH]; intros inv m Hall Hpost Hin; simpl; [by split_and!; [| |left]|].
  apply wp_bind. eapply wp_mono; [apply add_returns|]. intros _ m1 _.
  assert (∀ inv1 m2, all_good inv1 → (weight inv1 ≤ weight inv)%nat →
    returns (propagate join cfg b post succs inv1 cand) m2 (λ out _, all_good out.1 ∧
      (weight out.1 ≤ weight inv)%nat ∧
      (out.2 = cand ∨ (weight out.1 < weight inv)%nat ∧
        ∃ s, s ∈ s0 :: succs ∧ is_back_edge cfg b s = true ∧ out.2 = Some s))) as Hrest.
  { intros inv1 m2 Hall1 Hw. eapply wp_mono; [apply IH; [done|done|]|].
    { intros s Hs. apply Hin. by right. }
    intros out m3 (Hg & Hle & Hend). split_and!; [done|lia|].
    destruct Hend as [?|(? & s & Hs & ?)]; [by left|right]. split; [lia|].
    exists s. by split; [right|]. }
  assert (s0 ∈ order) as Hs0 by (apply Hin; by left).
  destruct (inv !! s0) as [p0|] eqn:Hp0.
  - apply wp_bind. eapply wp_mono; [apply Hjoin; [by eapply Hall|done]|].
    intros [s' r] m2 (Hg & Hle & Hlt). simpl in *.
    pose proof (weight_insert inv s0 s' Hs0) as Hw. rewrite Hp0 in Hw.
    assert (all_good (<[s0:=s']> inv)) as Hall' by by apply all_good_insert.
    destruct r; [|apply Hrest; [done|lia]].
    destruct (is_back_edge cfg b s0) eqn:Hbe; [|apply Hrest; [done|lia]].
    specialize (Hlt eq_refl).
    apply wp_bind. eapply wp_mono; [apply add_returns|]. intros _ m3 _. apply wp_ret. simpl.
    split_and!; [done|lia|]. right. split; [lia|]. exists s0. by split; [left|].
  - apply Hrest; [by apply all_good_insert|].
    pose proof (weight_insert inv s0 post Hs0) as Hw. rewrite Hp0 in Hw. specialize (Hrank post Hpost). lia.
Qed.

Lemma analyze_loop_returns fuel inv next p m :
  all_good inv → next = order !! p →
  (weight inv * length order + (length order - p) < fuel)%nat →
  returns (analyze_loop join execute code cfg fuel inv next) m (λ inv' _, all_good inv').
Proof.
  revert inv next p m. induction fuel as [|fuel IH]; intros inv next p m Hall -> Hfuel; [lia|].
  simpl. destruct (order !! p) as [b|] eqn:Hp; [|done].
  pose proof (lookup_lt_Some _ _ _ Hp) as Hlt.
  destruct (inv !! b) as [pre|] eqn:Hpre.
  2:{ apply (IH _ _ (S p)); [done|by apply (to_next _ _ Horder)|lia]. }
  destruct (to_block _ _ Horder b) as [bb Hbb]; [by eapply list_elem_of_lookup_2|].
  apply wp_bind. eapply wp_mono; [eapply execute_block_returns; [done|by eapply Hall]|].
  intros post m1 Hpost. apply wp_bind. eapply wp_exec; [unfold successors; by rewrite Hbb|].
  apply wp_bind. eapply wp_mono; [apply propagate_returns; [done|done|]|].
  { intros s Hs. destruct (to_edge _ _ Horder p b bb s Hp Hbb Hs) as (j & Hj & _).
    by eapply list_elem_of_lookup_2. }
  intros [inv' next'] m2 (Hall' & Hw & Hnext). simpl in *.
  destruct Hnext as [->|(Hw' & s & Hs & Hbe & ->)].
  - apply (IH _ _ (S p)); [done|by apply (to_next _ _ Horder)|]. nia.
  - destruct (to_edge _ _ Horder p b bb s Hp Hbb Hs) as (j & Hj & Hjp).
    apply (IH _ _ j); [done|done|]. nia.
Qed.

(** Enough fuel for any code of [n] blocks. *)
Definition analysis_fuel (n : nat) : nat := S (n * height * n + n).

Lemma analyze_returns fuel init m :
  good init → (analysis_fuel (length order) ≤ fuel)%nat →
  returns (analyze_function join execute code cfg fuel init) m (λ inv' _, all_good inv').
Proof.
  intros Hinit Hfuel. unfold analyze_function, analysis_fuel in *.
  apply wp_bind. eapply wp_mono; [apply add_returns|]. intros _ m1 _.
  apply (analyze_loop_returns _ _ _ 0).
  - by intros u s [<- <-]%lookup_singleton_Some.
  - by rewrite (to_head _ _ Horder).
  - assert (weight {[ENTRY_BLOCK_ID := init]} ≤ length order * height)%nat.
    { apply sum_list_bound. intros u. case_match eqn:Hu; [|lia].
      apply lookup_singleton_Some in Hu as [_ <-]. by apply Hrank. }
    nia.
Qed.
End termination.

Lemma analysis_fuel_mono height n k :
  (n ≤ k)%nat → (analysis_fuel height n ≤ analysis_fuel height k)%nat.
Proof.
  intros Hnk. unfold analysis_fuel.
  assert (n * height * n ≤ k * height * k)%nat; [|lia].
  apply Nat.mul_le_mono; [by apply Nat.mul_le_mono_r|done].
Qed.
