(* ===== verification/AbstractStack.v ===== *)
(** The stack of the verifier's passes ([move-abstract-stack/src/lib.rs]): runs
    of equal values are stored once with their length.  It is shown to refine a
    plain stack of values, whatever the order of the operations. *)
From S2P Require Import Prelude Objects Errors.

Inductive AbsStackError := ElementNotEqual | Underflow | Overflow.

(** [values] holds the runs with the top of the stack first. *)
Record AbstractStack (T : Type) := { as_values : list (Z * T); as_len : Z }.
Arguments as_values {T}.
Arguments as_len {T}.
Arguments Build_AbstractStack {T}.

Section stack.
Context {T : Type} `{EqDecision T}.
Implicit Types (s : AbstractStack T) (t : T) (n : Z).

Definition stack_new : AbstractStack T := {| as_values := []; as_len := 0 |}.
Definition is_empty s : bool := match as_values s with [] => true | _ => false end.
(** The sum of a run is at most the new length, which was checked. *)
Definition push_n s t n : result (AbstractStack T) AbsStackError :=
  if n =? 0 then Ok s
  else
    match checked_add64 (as_len s) n with
    | None => Err Overflow
    | Some new_len =>
        Ok {| as_len := new_len;
              as_values :=
                match as_values s with
                | (count, last_item) :: rest =>
                    if decide (t = last_item) then (count + n, last_item) :: rest
                    else (n, t) :: as_values s
                | [] => [(n, t)]
                end |}
    end.
Definition push s t : result (AbstractStack T) AbsStackError := push_n s t 1.
(** [n] is not zero ([NonZeroU64]). *)
Definition pop_eq_n s n : result (T * AbstractStack T) AbsStackError :=
  if is_empty s || (as_len s <? n) then Err Underflow
  else
    match as_values s with
    | [] => Err Underflow (* is_empty *)
    | (count, last) :: rest =>
        match count ?= n with
        | Lt => Err ElementNotEqual
        | Eq => Ok (last, {| as_values := rest; as_len := as_len s - n |})
        | Gt => Ok (last, {| as_values := (count - n, last) :: rest; as_len := as_len s - n |})
        end
    end.
Definition pop s : result (T * AbstractStack T) AbsStackError := pop_eq_n s 1.
(** The loop of [pop_any_n]; [unwrap] panics when the runs end early. *)
Fixpoint pop_runs (values : list (Z * T)) (rem : Z) : exec (list (Z * T)) :=
  if 0 <? rem then
    match values with
    | [] => Panic
    | (count, last) :: rest =>
        if count <=? rem then pop_runs rest (rem - count)
        else Done ((count - rem, last) :: rest)
    end
  else Done values.
Definition pop_any_n s n : exec (result (AbstractStack T) AbsStackError) :=
  if is_empty s || (as_len s <? n) then Done (Err Underflow)
  else
    values ← pop_runs (as_values s) n;
    Done (Ok {| as_values := values; as_len := as_len s - n |}).

(** * The plain stack it stands for *)

Fixpoint expand (values : list (Z * T)) : list T :=
  match values with
  | [] => []
  | (n, t) :: rest => replicate (Z.to_nat n) t ++ expand rest
  end.
Definition stack_of s : list T := expand (as_values s).

(** Runs are not empty and neighbours differ. *)
Fixpoint runs_ok (values : list (Z * T)) : Prop :=
  match values with
  | [] => True
  | (n, t) :: rest =>
      0 < n ∧ match rest with [] => True | (_, u) :: _ => t ≠ u end ∧ runs_ok rest
  end.
Record stack_ok s : Prop := {
  so_runs : runs_ok (as_values s);
  so_len : as_len s = Z.of_nat (length (stack_of s));
  so_max : as_len s ≤ u64_max;
}.

Lemma stack_new_ok : stack_ok stack_new.
Proof. by split. Qed.

Lemma is_empty_expand s : stack_ok s → is_empty s = true ↔ stack_of s = [].
Proof.
  intros [Hr _ _]. unfold is_empty, stack_of. destruct (as_values s) as [|[n t] rest]; [done|].
  destruct Hr as (Hn & _). simpl. destruct (Z.to_nat n) eqn:Hz; [lia|]. done.
Qed.

Lemma push_n_refines s t n :
  stack_ok s → 0 ≤ n →
  match push_n s t n with
  | Ok s' => stack_ok s' ∧ stack_of s' = replicate (Z.to_nat n) t ++ stack_of s
  | Err e => e = Overflow ∧ u64_max < as_len s + n
  end.
Proof.
  intros [Hr Hl Hm] Hn. unfold push_n, checked_add64. case_test (n =? 0) as H0.
  { subst n. by split; [split|]. }
  case_test (as_len s + n <=? u64_max) as Hadd; [|split; [done|lia]].
  assert (∀ vs, runs_ok vs → expand vs = replicate (Z.to_nat n) t ++ stack_of s →
    stack_ok {| as_values := vs; as_len := as_len s + n |} ∧
    stack_of {| as_values := vs; as_len := as_len s + n |} = replicate (Z.to_nat n) t ++ stack_of s)
    as Hmk.
  { intros vs Hvs Hexp. split; [|done]. split; [done| |simpl; lia].
    unfold stack_of. simpl. rewrite Hexp, length_app, length_replicate. lia. }
  apply Hmk; unfold stack_of; destruct (as_values s) as [|[c u] rest]; simpl in *.
  - split_and!; [lia|done|done].
  - case_decide; simpl; split_and!; naive_solver lia.
  - done.
  - case_decide; [subst|done]. simpl. rewrite app_assoc, <-replicate_add. f_equal. f_equal. lia.
Qed.

(** What [n] pops of equal values do to a plain stack. *)
Definition pop_equal (l : list T) (n : nat) : result (T * list T) AbsStackError :=
  match l with
  | [] => Err Underflow
  | t :: _ =>
      if (length l <? n)%nat then Err Underflow
      else if forallb (λ u, bool_decide (u = t)) (take n l) then Ok (t, drop n l)
      else Err ElementNotEqual
  end.

Lemma forallb_replicate (f : T → bool) (n : nat) t : f t = true → forallb f (replicate n t) = true.
Proof. intros Hf. induction n as [|n IH]; simpl; [done|]. by rewrite Hf. Qed.

Lemma pop_eq_n_refines s n :
  stack_ok s → 0 < n →
  match pop_eq_n s n, pop_equal (stack_of s) (Z.to_nat n) with
  | Ok (t, s'), Ok (t', l) => t' = t ∧ stack_ok s' ∧ stack_of s' = l
  | Err e, Err e' => e = e'
  | _, _ => False
  end.
Proof.
  intros Hok Hn. pose proof Hok as [Hr Hl Hm]. unfold pop_eq_n, is_empty, stack_of in *.
  destruct (as_values s) as [|[c t] rest] eqn:Hv; simpl in *; [done|].
  destruct Hr as (Hc & Hne & Hr). rewrite length_app, length_replicate in Hl.
  destruct (Z.to_nat c) as [|c'] eqn:Hc'; [lia|]. simpl pop_equal.
  replace (t :: replicate c' t ++ expand rest) with (replicate (Z.to_nat c) t ++ expand rest) by by rewrite Hc'.
  rewrite length_app, length_replicate.
  case_test (as_len s <? n) as Hlt.
  { destruct (Nat.ltb_spec (S (c' + length (expand rest))) (Z.to_nat n)); [done|lia]. }
  destruct (Nat.ltb_spec (S (c' + length (expand rest))) (Z.to_nat n)); [lia|].
  destruct (Z.compare_spec c n) as [->|Hcn|Hcn].
  - rewrite take_app_length' by by rewrite length_replicate.
    rewrite forallb_replicate by by apply bool_decide_eq_true.
    rewrite drop_app_length' by by rewrite length_replicate.
    split_and!; [done| |done]. split; [done| |simpl; lia]. unfold stack_of. simpl. lia.
  - destruct rest as [|[d u] rest]; simpl in *; [lia|].
    destruct Hr as (Hd & _ & Hr).
    rewrite take_app_ge by (rewrite length_replicate; lia). rewrite length_replicate.
    destruct (Z.to_nat d) as [|d'] eqn:Hd'; [lia|].
    destruct (Z.to_nat n - Z.to_nat c)%nat as [|k] eqn:Hk; [lia|].
    rewrite forallb_app. simpl. rewrite bool_decide_eq_false_2 by done.
    by rewrite andb_false_r.
  - assert (Z.to_nat c = Z.to_nat n + Z.to_nat (c - n))%nat as -> by lia.
    rewrite replicate_add, <-app_assoc.
    rewrite take_app_length' by by rewrite length_replicate.
    rewrite forallb_replicate by by apply bool_decide_eq_true.
    rewrite drop_app_length' by by rewrite length_replicate.
    split_and!; [done| |done]. split; [split_and!; [lia|done|done]| |simpl; lia].
    unfold stack_of. simpl. rewrite length_app, length_replicate. lia.
Qed.

Lemma pop_runs_drop values n :
  runs_ok values → 0 ≤ n ≤ Z.of_nat (length (expand values)) →
  ∃ rest, pop_runs values n = Done rest ∧ runs_ok rest ∧
    expand rest = drop (Z.to_nat n) (expand values).
Proof.
  revert n. induction values as [|[c t] values IH]; intros n Hr Hn; simpl in *.
  { replace n with 0 by lia. simpl. eauto. }
  case_test (0 <? n) as Hpos; [|replace n with 0 by lia; simpl; eauto].
  destruct Hr as (Hc & Hne & Hr). rewrite length_app, length_replicate in Hn.
  case_test (c <=? n) as Hcn.
  - destruct (IH (n - c)) as (rest & Hrun & Hrr & Hexp); [done|lia|].
    exists rest. split_and!; [done|done|]. rewrite drop_app_ge by (rewrite length_replicate; lia).
    rewrite length_replicate, Hexp. f_equal. lia.
  - eexists. split_and!; [done|by split_and!; [lia|..]|]. simpl.
    assert (Z.to_nat c = Z.to_nat n + Z.to_nat (c - n))%nat as -> by lia.
    rewrite replicate_add, <-app_assoc. by rewrite drop_app_length' by by rewrite length_replicate.
Qed.

Lemma pop_any_n_refines s n :
  stack_ok s → 0 < n →
  ∃ r, pop_any_n s n = Done r ∧
    match r with
    | Ok s' => stack_ok s' ∧ stack_of s' = drop (Z.to_nat n) (stack_of s)
    | Err e => e = Underflow ∧ Z.of_nat (length (stack_of s)) < n
    end.
Proof.
  intros Hok Hn. pose proof Hok as [Hr Hl Hm]. unfold pop_any_n.
  destruct (is_empty s || (as_len s <? n)) eqn:Hu.
  - eexists. split; [done|]. split; [done|]. apply orb_true_iff in Hu as [He|?]; [|bool_prop; lia].
    apply is_empty_expand in He; [|done]. rewrite He. simpl. lia.
  - apply orb_false_iff in Hu as [_ Hlt]. bool_prop.
    destruct (pop_runs_drop (as_values s) n) as (rest & Hrun & Hrr & Hexp); [done|unfold stack_of in *; lia|].
    rewrite Hrun. eexists. split; [done|]. unfold stack_of at 1. simpl. split; [|done].
    split; [done| |simpl; lia]. unfold stack_of in *. simpl. rewrite Hexp, length_drop. lia.
Qed.
End stack.

(** C29: the run-length stack of the verifier refines a plain stack.  Pushing
    [n] copies of a value puts [n] copies on top, and fails only when the
    length would not fit in 64 bits; popping [n] equal values returns the value
    exactly when the top [n] values exist and are equal, and reports underflow
    or inequality as the plain stack would; popping any [n] values drops them,
    and fails only when there are fewer.  The representation stays canonical:
    no empty run and no two equal neighbours. *)
Theorem abstract_stack_refines {T} `{EqDecision T} (s : AbstractStack T) (t : T) (n : Z) :
  stack_ok s → 0 < n →
  match push_n s t n with
  | Ok s' => stack_ok s' ∧ stack_of s' = replicate (Z.to_nat n) t ++ stack_of s
  | Err e => e = Overflow ∧ u64_max < Z.of_nat (length (stack_of s)) + n
  end ∧
  match pop_eq_n s n, pop_equal (stack_of s) (Z.to_nat n) with
  | Ok (u, s'), Ok (u', l) => u' = u ∧ stack_ok s' ∧ stack_of s' = l
  | Err e, Err e' => e = e'
  | _, _ => False
  end ∧
  ∃ r, pop_any_n s n = Done r ∧
    match r with
    | Ok s' => stack_ok s' ∧ stack_of s' = drop (Z.to_nat n) (stack_of s)
    | Err e => e = Underflow ∧ Z.of_nat (length (stack_of s)) < n
    end.
Proof.
  intros Hok Hn. split_and!; [|by apply pop_eq_n_refines|by apply pop_any_n_refines].
  rewrite <-(so_len s Hok). apply push_n_refines; [done|lia].
Qed.

Definition sample_stack : AbstractStack nat := {| as_values := [(2, 7%nat); (1, 5%nat)]; as_len := 3 |}.
Lemma abstract_stack_refines_witness :
  stack_of sample_stack = [7; 7; 5]%nat ∧
  pop_eq_n sample_stack 2 = Ok (7%nat, {| as_values := [(1, 5%nat)]; as_len := 1 |}) ∧
  ∃ r, pop_any_n sample_stack 2 = Done r.
Proof.
  assert (stack_ok sample_stack) as Hok by by split; [repeat split; lia| |].
  pose proof (abstract_stack_refines sample_stack 7%nat 2 Hok eq_refl) as (_ & _ & r & Hr & _).
  split_and!; [done|done|by exists r].
Defined.
