(* ===== verification/LocalsSafety.v ===== *)
(** Locals safety: [move-bytecode-verifier/src/locals_safety/] (the abstract
    state and the transfer function) and the view of a function the passes
    share ([FunctionView] of [move-binary-format/src/binary_views.rs]).

    The analysis tracks which locals hold a value.  The theorems: it returns,
    with fuel that depends only on the numbers of blocks and locals; and on
    code it accepts every reachable block has an invariant that describes the
    locals at its start whatever path led there. *)
From S2P Require Import Prelude MapSums Objects Errors.
From S2P Require Import MoveIntegers MoveModule VmMonad.
From S2P Require Import ControlFlow TraversalOrder AbstractInterp.

Record FunctionView := {
  fv_index : nat;
  fv_code : list Bytecode;
  fv_parameters : Signature;
  fv_return : Signature;
  fv_locals : Signature;
  fv_type_parameters : list AbilitySet;
  fv_cfg : VMControlFlowGraph;
}.
(** [FunctionView::function]. *)
Definition FunctionView_function (m : CompiledModule) (index : nat) (code : CodeUnit)
    (function_handle : FunctionHandle) : exec FunctionView :=
  parameters ← signature_at m (fh_parameters function_handle);
  return_ ← signature_at m (fh_return function_handle);
  locals ← signature_at m (cu_locals code);
  cfg ← VMControlFlowGraph_new (cu_code code);
  Done {| fv_index := index; fv_code := cu_code code; fv_parameters := parameters;
          fv_return := return_; fv_locals := locals;
          fv_type_parameters := fh_type_parameters function_handle; fv_cfg := cfg |}.

(** * The abstract state *)

Inductive LocalState := Unavailable | MaybeAvailable | Available.
#[export] Instance LocalState_eq_dec : EqDecision LocalState.
Proof. solve_decision. Defined.

Definition STEP_BASE_COST : Z := 15.
Definition RET_PER_LOCAL_COST : Z := 30.
Definition JOIN_BASE_COST : Z := 10.
Definition JOIN_PER_LOCAL_COST : Z := 5.

Record AbstractState := {
  ls_current_function : nat;
  ls_all_local_abilities : list AbilitySet;
  ls_local_states : list LocalState;
}.
(** [iter().map(abilities).collect()]. *)
Fixpoint collect_abilities (m : CompiledModule) (constraints : list AbilitySet)
    (sts : list SignatureToken) : exec (vmresult (list AbilitySet)) :=
  match sts with
  | [] => Done (Ok [])
  | st :: sts =>
      a ←? abilities m constraints st; l ←? collect_abilities m constraints sts; Done (Ok (a :: l))
  end.
Definition AbstractState_new (m : CompiledModule) (f : FunctionView)
    : exec (vmresult AbstractState) :=
  let num_args := length (fv_parameters f) in
  let num_locals := (num_args + length (fv_locals f))%nat in
  let local_states := map (λ i, if (i <? num_args)%nat then Available else Unavailable)
    (seq 0 num_locals) in
  all_local_abilities ←?
    collect_abilities m (fv_type_parameters f) (fv_parameters f ++ fv_locals f);
  Done (Ok {| ls_current_function := fv_index f; ls_local_states := local_states;
              ls_all_local_abilities := all_local_abilities |}).

Definition local_abilities (s : AbstractState) (idx : nat) : exec AbilitySet :=
  unwrap (ls_all_local_abilities s !! idx).
Definition local_state (s : AbstractState) (idx : nat) : exec LocalState :=
  unwrap (ls_local_states s !! idx).
Definition set_local_state (s : AbstractState) (idx : nat) (x : LocalState) : AbstractState :=
  {| ls_current_function := ls_current_function s; ls_all_local_abilities := ls_all_local_abilities s;
     ls_local_states := <[idx := x]> (ls_local_states s) |}.
Definition set_available (s : AbstractState) (idx : nat) : exec AbstractState :=
  _ ← unwrap (ls_local_states s !! idx); Done (set_local_state s idx Available).
Definition set_unavailable (s : AbstractState) (idx : nat) : exec AbstractState :=
  x ← unwrap (ls_local_states s !! idx);
  assert (bool_decide (x = Available));;
  Done (set_local_state s idx Unavailable).

Definition join_local (a b : LocalState) : LocalState :=
  match a, b with
  | Unavailable, Unavailable => Unavailable
  | Available, Available => Available
  | _, _ => MaybeAvailable
  end.
Definition join_ (s t : AbstractState) : exec AbstractState :=
  assert (ls_current_function s =? ls_current_function t)%nat;;
  assert (length (ls_all_local_abilities s) =? length (ls_all_local_abilities t))%nat;;
  assert (length (ls_local_states s) =? length (ls_local_states t))%nat;;
  Done {| ls_current_function := ls_current_function s;
          ls_all_local_abilities := ls_all_local_abilities s;
          ls_local_states := zip_with join_local (ls_local_states s) (ls_local_states t) |}.

Section analysis.
Context {M : Type} `{Meter M}.

(** [AbstractDomain::join]. *)
Definition locals_join (s state : AbstractState) : sem M (AbstractState * JoinResult) :=
  (meter_add ScopeFunction JOIN_BASE_COST;;
   add_items ScopeFunction JOIN_PER_LOCAL_COST (length (ls_local_states state));;
   joined ← sexec (join_ s state);
   sexec (assert (length (ls_local_states s) =? length (ls_local_states joined))%nat);;
   if forallb (λ p : LocalState * LocalState, bool_decide (p.1 = p.2))
        (zip (ls_local_states s) (ls_local_states joined))
   then sret (s, Unchanged) else sret (joined, Changed))%sem.

(** The loop of [Ret]. *)
Definition check_drops (s : AbstractState) : vmresult unit :=
  try_for_each (λ p : LocalState * AbilitySet,
    match p.1 with
    | MaybeAvailable | Available =>
        ensure (has_drop p.2) Vm.UNSAFE_RET_UNUSED_VALUES_WITHOUT_DROP
    | Unavailable => Ok ()
    end) (zip (ls_local_states s) (ls_all_local_abilities s)).

Definition execute_inner (s : AbstractState) (bytecode : Bytecode) : sem M AbstractState :=
  (meter_add ScopeFunction STEP_BASE_COST;;
   match bytecode with
   | Bc.StLoc idx =>
       x ← sexec (local_state s idx);
       match x with
       | MaybeAvailable | Available =>
           a ← sexec (local_abilities s idx);
           if negb (has_drop a) then serr Vm.STLOC_UNSAFE_TO_DESTROY_ERROR
           else sexec (set_available s idx)
       | Unavailable => sexec (set_available s idx)
       end
   | Bc.MoveLoc idx =>
       x ← sexec (local_state s idx);
       match x with
       | MaybeAvailable | Unavailable => serr Vm.MOVELOC_UNAVAILABLE_ERROR
       | Available => sexec (set_unavailable s idx)
       end
   | Bc.CopyLoc idx =>
       x ← sexec (local_state s idx);
       match x with
       | MaybeAvailable | Unavailable => serr Vm.COPYLOC_UNAVAILABLE_ERROR
       | Available => sret s
       end
   | Bc.Ret =>
       add_items ScopeFunction RET_PER_LOCAL_COST (length (ls_local_states s));;
       sexec (assert (length (ls_local_states s) =? length (ls_all_local_abilities s))%nat);;
       sresult (check_drops s);;
       sret s
   | _ => sret s
   end)%sem.

(** [locals_safety::verify]; returns the invariants of the blocks.  The fuel is
    proved enough below. *)
Definition locals_execute (s : AbstractState) (bytecode : Bytecode) (offset block_end : nat)
    : sem M AbstractState := execute_inner s bytecode.
Definition locals_fuel (f : FunctionView) : nat :=
  analysis_fuel (length (fv_parameters f) + length (fv_locals f)) (length (fv_code f)).
Definition locals_verify (m : CompiledModule) (f : FunctionView) : sem M (gmap nat AbstractState) :=
  (initial ← sexec (AbstractState_new m f);
   initial_state ← sresult initial;
   analyze_function locals_join locals_execute (fv_code f) (fv_cfg f) (locals_fuel f) initial_state)%sem.
End analysis.

(** * The order on states *)

Definition local_leq (a b : LocalState) : Prop := b = MaybeAvailable ∨ a = b.
Definition locals_leq (s t : AbstractState) : Prop :=
  Forall2 local_leq (ls_local_states s) (ls_local_states t).
(** How many locals a join can still change. *)
Definition definite (a : LocalState) : nat := match a with MaybeAvailable => 0 | _ => 1 end.
Definition locals_rank (s : AbstractState) : nat := sum_list (map definite (ls_local_states s)).
(** The states of one function. *)
Record locals_good (f : nat) (abil : list AbilitySet) (s : AbstractState) : Prop := {
  lg_function : ls_current_function s = f;
  lg_abilities : ls_all_local_abilities s = abil;
  lg_length : length (ls_local_states s) = length abil;
}.

#[export] Instance local_leq_preorder : PreOrder local_leq.
Proof. split; [by right|]. unfold local_leq. intros a b c. naive_solver. Qed.
#[export] Instance locals_leq_preorder : PreOrder locals_leq.
Proof. unfold locals_leq. split; [intros s; reflexivity|intros s t u Hst Htu; by etrans]. Qed.

Lemma join_local_spec a b :
  local_leq a (join_local a b) ∧ local_leq b (join_local a b) ∧
  (definite (join_local a b) ≤ definite a)%nat ∧
  (a ≠ join_local a b → (definite (join_local a b) < definite a)%nat).
Proof. unfold local_leq. destruct a, b; simpl; split_and!; auto with lia; done. Qed.

Lemma join_states_spec l k :
  length l = length k →
  Forall2 local_leq l (zip_with join_local l k) ∧ Forall2 local_leq k (zip_with join_local l k) ∧
  (sum_list (map definite (zip_with join_local l k)) ≤ sum_list (map definite l))%nat ∧
  if forallb (λ p : LocalState * LocalState, bool_decide (p.1 = p.2)) (zip l (zip_with join_local l k))
  then zip_with join_local l k = l
  else (sum_list (map definite (zip_with join_local l k)) < sum_list (map definite l))%nat.
Proof.
  revert k. induction l as [|a l IH]; intros [|b k] Hl; simplify_eq/=; [done|].
  destruct (IH k Hl) as (H1 & H2 & H3 & H4). destruct (join_local_spec a b) as (J1 & J2 & J3 & J4).
  split_and!; [by constructor|by constructor|lia|].
  case_bool_decide as Heq; simpl.
  - rewrite <-Heq. case_match; [by f_equal|lia].
  - specialize (J4 Heq). lia.
Qed.

Section theory.
Context {M : Type} `{MeterTotal M}.

Lemma locals_join_sound s t (m m' : M) s' r :
  locals_join s t m = Done (m', Ok (s', r)) →
  locals_leq s s' ∧ locals_leq t s' ∧ (r = Unchanged → s' = s).
Proof.
  unfold locals_join, join_, locals_leq. intros Hrun. sem_inv. exec_inv. bool_prop.
  destruct (join_states_spec (ls_local_states s) (ls_local_states t)) as (Hj1 & Hj2 & _ & Hj4).
  { by apply Nat.eqb_eq. }
  case_match; sem_inv; [|done]. rewrite Hj4 in Hj2. done.
Qed.

Lemma locals_join_returns f abil s t (m : M) :
  locals_good f abil s → locals_good f abil t →
  wp (λ _, True) (locals_join s t) m (λ out _, locals_good f abil out.1 ∧
    (locals_rank out.1 ≤ locals_rank s)%nat ∧
    (out.2 = Changed → (locals_rank out.1 < locals_rank s)%nat)).
Proof.
  intros [Hsf Hsa Hsl] [Htf Hta Htl]. unfold locals_join.
  apply wp_bind. eapply wp_mono; [apply add_returns|]. intros _ m1 _.
  apply wp_bind. eapply wp_mono; [apply add_items_returns|]. intros _ m2 _.
  destruct (join_states_spec (ls_local_states s) (ls_local_states t)) as (_ & _ & Hj3 & Hj4); [congruence|].
  eapply wp_bind, wp_exec.
  { unfold join_. rewrite Hsf, Htf, Hsa, Hta, Hsl, Htl, !Nat.eqb_refl. done. }
  simpl. eapply wp_bind, wp_exec.
  { rewrite length_zip_with_l_eq by congruence. by rewrite Nat.eqb_refl. }
  case_match; apply wp_ret; simpl; (split_and!; [by split; simpl; rewrite ?length_zip_with_l_eq by congruence| |]);
    unfold locals_rank; simpl; [lia|done|lia|done].
Qed.

(** What a step does to the states of the locals. *)
Definition local_step (abil : list AbilitySet) (bytecode : Bytecode) (l : list LocalState)
    : option (list LocalState) :=
  match bytecode with
  | Bc.StLoc idx =>
      x ← l !! idx; a ← abil !! idx;
      if bool_decide (x = Unavailable) || has_drop a then Some (<[idx := Available]> l) else None
  | Bc.MoveLoc idx =>
      x ← l !! idx; if bool_decide (x = Available) then Some (<[idx := Unavailable]> l) else None
  | Bc.CopyLoc idx => x ← l !! idx; if bool_decide (x = Available) then Some l else None
  | Bc.Ret =>
      if forallb (λ p : LocalState * AbilitySet, bool_decide (p.1 = Unavailable) || has_drop p.2)
           (zip l abil) then Some l else None
  | _ => Some l
  end.
Fixpoint local_steps (abil : list AbilitySet) (code : list Bytecode) (offsets : list nat)
    (l : list LocalState) : option (list LocalState) :=
  match offsets with
  | [] => Some l
  | p :: offsets => i ← code !! p; l' ← local_step abil i l; local_steps abil code offsets l'
  end.
(** The local an instruction names exists. *)
Definition locals_in_range (n : nat) (bytecode : Bytecode) : Prop :=
  match bytecode with
  | Bc.CopyLoc idx | Bc.MoveLoc idx | Bc.StLoc idx => (idx < n)%nat
  | _ => True
  end.

Lemma check_drops_step s :
  check_drops s = Ok () ↔
  forallb (λ p : LocalState * AbilitySet, bool_decide (p.1 = Unavailable) || has_drop p.2)
    (zip (ls_local_states s) (ls_all_local_abilities s)) = true.
Proof.
  unfold check_drops. rewrite try_for_each_Ok, forallb_forall.
  setoid_rewrite list_elem_of_In. split; intros Hall [x a] Hin; specialize (Hall _ Hin); simpl in *.
  - destruct x; simpl; [done|by apply ensure_Ok in Hall..].
  - destruct x; simpl in *; [done|by apply ensure_Ok..].
Qed.

Lemma execute_inner_step f abil s bytecode (m m' : M) s' :
  locals_good f abil s → execute_inner s bytecode m = Done (m', Ok s') →
  locals_good f abil s' ∧ local_step abil bytecode (ls_local_states s) = Some (ls_local_states s').
Proof.
  intros Hg Hrun. pose proof Hg as [Hf Ha Hl]. unfold execute_inner in Hrun. sem_inv.
  assert (∀ idx x, locals_good (ls_current_function s) (ls_all_local_abilities s) (set_local_state s idx x)) as Hset.
  { intros idx x. split; [done|done|]. simpl. by rewrite length_insert. }
  destruct bytecode; simpl; try (by sem_inv); unfold local_state, local_abilities in *; sem_inv; exec_inv.
  - select (check_drops s = _) (fun E => destruct a2; apply check_drops_step in E; rewrite E). done.
  - select (_ !! idx = Some _) (fun E => rewrite E; destruct a0; sem_inv). done.
  - unfold set_unavailable in *. select (_ !! idx = Some _) (fun E => rewrite E; destruct a0; sem_inv).
    exec_inv. done.
  - unfold set_available in *. select (_ !! idx = Some _) (fun E => rewrite E).
    destruct (lookup_lt_is_Some_2 (ls_all_local_abilities s) idx) as [ab Hab].
    { rewrite <-Hl. by eapply lookup_lt_Some. }
    rewrite Hab. simpl. destruct a0; sem_inv; exec_inv; [done| |];
      destruct (has_drop _); simpl in *; sem_inv; exec_inv; done.
Qed.

Lemma execute_inner_returns f abil s bytecode (m : M) :
  locals_good f abil s → locals_in_range (length abil) bytecode →
  wp (λ _, True) (execute_inner s bytecode) m (λ s' _, locals_good f abil s').
Proof.
  intros Hg Hin. pose proof Hg as [Hf Ha Hl]. unfold execute_inner.
  assert (∀ idx x, locals_good f abil (set_local_state s idx x)) as Hset.
  { intros idx x. split; [done|done|]. simpl. by rewrite length_insert. }
  apply wp_bind. eapply wp_mono; [apply add_returns|]. intros _ m1 _.
  destruct bytecode; try done; simpl in Hin.
  - apply wp_bind. eapply wp_mono; [apply add_items_returns|]. intros _ m2 _.
    eapply wp_bind, wp_exec; [by rewrite Hl, <-Ha, Nat.eqb_refl|].
    apply wp_bind, wp_result. by case_match.
  - destruct (lookup_lt_is_Some_2 (ls_local_states s) idx) as [x Hx]; [lia|].
    eapply wp_bind, wp_exec; [unfold local_state; by rewrite Hx|]. by destruct x.
  - destruct (lookup_lt_is_Some_2 (ls_local_states s) idx) as [x Hx]; [lia|].
    eapply wp_bind, wp_exec; [unfold local_state; by rewrite Hx|]. destruct x; [done..|].
    eapply wp_exec; [unfold set_unavailable; by rewrite Hx|]. apply Hset.
  - destruct (lookup_lt_is_Some_2 (ls_local_states s) idx) as [x Hx]; [lia|].
    destruct (lookup_lt_is_Some_2 (ls_all_local_abilities s) idx) as [ab Hab]; [by rewrite Ha|].
    eapply wp_bind, wp_exec; [unfold local_state; by rewrite Hx|].
    assert (wp (λ _, True) (sexec (set_available s idx)) m1 (λ s' _, locals_good f abil s')) as Hav.
    { eapply wp_exec; [unfold set_available; by rewrite Hx|]. apply Hset. }
    destruct x; [done| |]; (eapply wp_bind, wp_exec; [unfold local_abilities; by rewrite Hab|]);
      by destruct (has_drop ab).
Qed.

(** The abilities of the locals, and the states at the entry. *)
Lemma collect_abilities_Ok m tps sts l :
  collect_abilities m tps sts = Done (Ok l) →
  Forall2 (λ t a, abilities m tps t = Done (Ok a)) sts l.
Proof.
  revert l. induction sts as [|st sts IH]; intros l Hrun; simpl in Hrun; [by simplify_eq|].
  apply try_exec_Ok in Hrun as (a & Ha & (l' & Hl' & [= <-])%try_exec_Ok).
  constructor; [done|]. by apply IH.
Qed.
Definition initial_locals (f : FunctionView) : list LocalState :=
  map (λ i, if (i <? length (fv_parameters f))%nat then Available else Unavailable)
    (seq 0 (length (fv_parameters f) + length (fv_locals f))).
Lemma AbstractState_new_Ok m f s :
  AbstractState_new m f = Done (Ok s) →
  Forall2 (λ t a, abilities m (fv_type_parameters f) t = Done (Ok a))
    (fv_parameters f ++ fv_locals f) (ls_all_local_abilities s) ∧
  ls_local_states s = initial_locals f ∧
  locals_good (fv_index f) (ls_all_local_abilities s) s.
Proof.
  unfold AbstractState_new. intros (l & Hl%collect_abilities_Ok & [= <-])%try_exec_Ok. simpl.
  split_and!; [done|done|]. split; [done|done|]. simpl. rewrite length_map, length_seq, <-length_app.
  by eapply Forall2_length.
Qed.

(** What the analysis leaves behind for a function it accepts. *)
Record locals_safe (m : CompiledModule) (f : FunctionView) (order : list nat) (abil : list AbilitySet)
    (inv : gmap nat (list LocalState)) : Prop := {
  lf_abilities : Forall2 (λ t a, abilities m (fv_type_parameters f) t = Done (Ok a))
    (fv_parameters f ++ fv_locals f) abil;
  lf_entry : ∃ l, inv !! ENTRY_BLOCK_ID = Some l ∧ Forall2 local_leq (initial_locals f) l;
  lf_block : ∀ b, b ∈ order → ∃ bb pre post,
    cfg_blocks (fv_cfg f) !! b = Some bb ∧ inv !! b = Some pre ∧ length pre = length abil ∧
    local_steps abil (fv_code f) (seq b (S (bb_exit bb) - b)) pre = Some post ∧
    ∀ s, s ∈ bb_successors bb → ∃ pre', inv !! s = Some pre' ∧ Forall2 local_leq post pre';
}.

Lemma execute_offsets_steps f abil code last offsets s (m m' : M) s' :
  locals_good f abil s →
  execute_offsets locals_execute code last offsets s m = Done (m', Ok s') →
  locals_good f abil s' ∧ local_steps abil code offsets (ls_local_states s) = Some (ls_local_states s').
Proof.
  revert s m. induction offsets as [|p offsets IH]; intros s m Hg Hrun; simpl in Hrun; sem_inv; [done|].
  exec_inv. select (code !! p = _) (fun E => rewrite E). simpl.
  select (locals_execute _ _ _ _ _ = _) (fun E => eapply execute_inner_step in E as [Hg' Hst]; [|exact Hg]).
  rewrite Hst. simpl. by eapply IH.
Qed.

(** The code of the function is well formed and its graph was built from it. *)
Record view_ok (f : FunctionView) (order : list nat) : Prop := {
  vo_code : code_ok (fv_code f);
  vo_blocks : blocks_ok (fv_code f) (cfg_blocks (fv_cfg f));
  vo_order : traversal_ok (fv_cfg f) order;
  vo_locals : ∀ p i, fv_code f !! p = Some i →
    locals_in_range (length (fv_parameters f) + length (fv_locals f)) i;
}.

Lemma order_length f order : view_ok f order → (length order ≤ length (fv_code f))%nat.
Proof.
  intros [_ Hb Ho _]. rewrite <-(length_seq (length (fv_code f)) 0).
  apply submseteq_length, NoDup_submseteq; [apply (to_nodup _ _ Ho)|].
  intros b Hin. destruct (to_block _ _ Ho b Hin) as [bb Hbb].
  apply elem_of_seq. pose proof (bo_range _ _ Hb _ _ Hbb). lia.
Qed.
Lemma rank_bound f abil s : locals_good f abil s → (locals_rank s ≤ length abil)%nat.
Proof.
  intros [_ _ <-]. unfold locals_rank. etrans; [apply (sum_list_bound _ _ 1)|lia].
  intros []; simpl; lia.
Qed.

Section function.
Context (m : CompiledModule) (f : FunctionView) (order : list nat) (Hview : view_ok f order).

Lemma init_abilities s :
  AbstractState_new m f = Done (Ok s) →
  length (ls_all_local_abilities s) = (length (fv_parameters f) + length (fv_locals f))%nat.
Proof. intros (Ha & _)%AbstractState_new_Ok. apply Forall2_length in Ha. by rewrite <-Ha, length_app. Qed.

(** The analysis of a state of this function returns, with states of its shape. *)
Lemma locals_analysis_returns s (μ : M) :
  AbstractState_new m f = Done (Ok s) →
  wp (λ _, True) (analyze_function locals_join locals_execute (fv_code f) (fv_cfg f) (locals_fuel f) s) μ
    (λ inv _, all_good (locals_good (fv_index f) (ls_all_local_abilities s)) inv).
Proof.
  intros Hs. pose proof (init_abilities s Hs) as Hlen.
  apply AbstractState_new_Ok in Hs as (_ & _ & Hg).
  eapply (analyze_returns _ _ _ _ order (vo_blocks _ _ Hview) (vo_order _ _ Hview) _ locals_rank).
  - intros t Ht. by eapply rank_bound.
  - intros t i off last μ' Ht Hi. apply execute_inner_returns; [done|].
    rewrite Hlen. by eapply (vo_locals _ _ Hview).
  - intros t u μ'. apply locals_join_returns.
  - done.
  - unfold locals_fuel. rewrite Hlen. apply analysis_fuel_mono. by apply order_length.
Qed.

Lemma locals_verify_safe (μ μ' : M) inv :
  locals_verify m f μ = Done (μ', Ok inv) →
  ∃ s, AbstractState_new m f = Done (Ok s) ∧
    locals_safe m f order (ls_all_local_abilities s) (ls_local_states <$> inv).
Proof.
  unfold locals_verify. intros Hrun. sem_inv. rename a0 into s.
  select (AbstractState_new m f = _) (fun E => rename E into Hs). exists s. split; [done|].
  pose proof (AbstractState_new_Ok _ _ _ Hs) as (Habil & Hst & Hg).
  pose proof (locals_analysis_returns s μ Hs) as Hgood. unfold wp in Hgood. rewrite Hrun in Hgood.
  pose proof (analyze_sound _ _ _ _ _ (vo_order _ _ Hview) _ locals_join_sound _ _ _ _ _ Hrun)
    as [Hdom (pre0 & Hpre0 & Hle0) _ Hset].
  split; [done| |].
  - exists (ls_local_states pre0). by rewrite lookup_fmap, Hpre0, <-Hst.
  - intros b [i Hi]%list_elem_of_lookup_1. destruct (Hset i b Hi I) as (pre & post & ? & ? & bb & Hpre & Hbb & Hex & Hsucc).
    exists bb, (ls_local_states pre), (ls_local_states post). rewrite lookup_fmap, Hpre.
    pose proof (Hgood _ _ Hpre) as Hgp. split_and!; [done|done|apply Hgp| |].
    + unfold execute_block, instr_indexes, block_end in Hex. rewrite Hbb in Hex. sem_inv. exec_inv.
      by eapply execute_offsets_steps.
    + intros t Ht. destruct (Hsucc t Ht) as (pre' & Hpre' & Hle).
      exists (ls_local_states pre'). by rewrite lookup_fmap, Hpre'.
Qed.

Lemma locals_verify_returns (μ : M) :
  (∃ r, AbstractState_new m f = Done r) → wp (λ _, True) (locals_verify m f) μ (λ _ _, True).
Proof.
  intros [r Hr]. unfold locals_verify. eapply wp_bind, wp_exec; [done|].
  apply wp_bind, wp_result. destruct r as [s|e]; [|done].
  eapply wp_mono; [by apply locals_analysis_returns|done].
Qed.
End function.
End theory.

(** * Every path uses its locals safely *)

(** Which locals hold a value, and what an instruction does to that; [None] when
    it would read a local that holds none, or drop a value without the
    ability. *)
Definition use_step (abil : list AbilitySet) (bytecode : Bytecode) (l : list bool)
    : option (list bool) :=
  match bytecode with
  | Bc.StLoc idx =>
      x ← l !! idx; a ← abil !! idx;
      if negb x || has_drop a then Some (<[idx := true]> l) else None
  | Bc.MoveLoc idx => x ← l !! idx; if x : bool then Some (<[idx := false]> l) else None
  | Bc.CopyLoc idx => x ← l !! idx; if x : bool then Some l else None
  | Bc.Ret =>
      if forallb (λ p : bool * AbilitySet, negb p.1 || has_drop p.2) (zip l abil) then Some l else None
  | _ => Some l
  end.
Fixpoint use_steps (abil : list AbilitySet) (code : list Bytecode) (offsets : list nat)
    (l : list bool) : option (list bool) :=
  match offsets with
  | [] => Some l
  | p :: offsets => i ← code !! p; l' ← use_step abil i l; use_steps abil code offsets l'
  end.
(** The locals some path from the entry brings to the start of a block. *)
Inductive reaches (f : FunctionView) (abil : list AbilitySet) : nat → list bool → Prop :=
  | reaches_entry :
      reaches f abil ENTRY_BLOCK_ID (map (λ i, i <? length (fv_parameters f))%nat
        (seq 0 (length (fv_parameters f) + length (fv_locals f))))
  | reaches_edge b bb l l' s :
      reaches f abil b l → cfg_blocks (fv_cfg f) !! b = Some bb →
      use_steps abil (fv_code f) (seq b (S (bb_exit bb) - b)) l = Some l' →
      s ∈ bb_successors bb → reaches f abil s l'.

Definition described (x : bool) (a : LocalState) : Prop :=
  match a with Available => x = true | Unavailable => x = false | MaybeAvailable => True end.

Lemma described_leq l k k' : Forall2 described l k → Forall2 local_leq k k' → Forall2 described l k'.
Proof. apply Forall2_trans. intros x a b Hx [->|<-]; done. Qed.

Lemma described_step abil i l k k' :
  Forall2 described l k → local_step abil i k = Some k' →
  ∃ l', use_step abil i l = Some l' ∧ Forall2 described l' k'.
Proof.
  intros Hl Hstep. destruct i; simpl in *; try (simplify_eq; by eauto).
  - case_match eqn:Hdrop; simplify_eq. exists l. split; [|done].
    assert (forallb (λ p : bool * AbilitySet, negb p.1 || has_drop p.2) (zip l abil) = true) as ->; [|done].
    revert abil Hdrop. induction Hl as [|x a l k Hx Hl IH]; intros [|ab abil] Hdrop; simpl in *; [done..|].
    apply andb_true_iff in Hdrop as [Ha Hdrop]. rewrite IH, andb_true_r by done.
    destruct a; simpl in Hx; simpl in Ha; [by rewrite Hx|rewrite Ha; apply orb_true_r..].
  - destruct (k !! idx) as [a|] eqn:Ha; simpl in Hstep; [|done]. case_bool_decide; simplify_eq.
    destruct (Forall2_lookup_r _ _ _ _ _ Hl Ha) as (x & Hx & Hd). simpl in Hd. subst x. rewrite Hx. simpl. eauto.
  - destruct (k !! idx) as [a|] eqn:Ha; simpl in Hstep; [|done]. case_bool_decide; simplify_eq.
    destruct (Forall2_lookup_r _ _ _ _ _ Hl Ha) as (x & Hx & Hd). simpl in Hd. subst x. rewrite Hx. simpl. eexists. split; [done|]. by apply Forall2_insert.
  - destruct (k !! idx) as [a|] eqn:Ha; simpl in Hstep; [|done].
    destruct (abil !! idx) as [ab|] eqn:Hab; simpl in *; [|done].
    destruct (Forall2_lookup_r _ _ _ _ _ Hl Ha) as (x & Hx & Hd). rewrite Hx. simpl.
    case_match eqn:Hok; simplify_eq.
    assert (negb x || has_drop ab = true) as ->.
    { apply orb_true_iff in Hok as [->%bool_decide_eq_true| ->]; [by rewrite Hd|apply orb_true_r]. }
    eexists. split; [done|]. by apply Forall2_insert.
Qed.
Lemma described_steps abil code offsets l k k' :
  Forall2 described l k → local_steps abil code offsets k = Some k' →
  ∃ l', use_steps abil code offsets l = Some l' ∧ Forall2 described l' k'.
Proof.
  revert l k. induction offsets as [|p offsets IH]; intros l k Hl Hsteps; simpl in *; [simplify_eq; by eauto|].
  destruct (code !! p) as [i|]; simpl in *; [|done].
  destruct (local_step abil i k) as [k1|] eqn:Hk1; simpl in *; [|done].
  destruct (described_step _ _ _ _ _ Hl Hk1) as (l1 & -> & Hl1). by apply (IH l1 k1).
Qed.

Lemma initial_described f :
  Forall2 described (map (λ i, i <? length (fv_parameters f))%nat
    (seq 0 (length (fv_parameters f) + length (fv_locals f)))) (initial_locals f).
Proof.
  unfold initial_locals. apply Forall2_fmap_2, Forall2_same_length_lookup_2; [done|].
  intros j x y Hx Hy. simplify_eq. by destruct (x <? _)%nat.
Qed.

Lemma reaches_described m f order abil inv b l :
  view_ok f order → locals_safe m f order abil inv → reaches f abil b l →
  b ∈ order ∧ ∃ k, inv !! b = Some k ∧ Forall2 described l k.
Proof.
  intros Hview Hsafe. induction 1 as [|b bb l l' s _ [Hb (k & Hk & Hl)] Hbb Hsteps Hs].
  - split; [eapply list_elem_of_lookup_2, (to_head _ _ (vo_order _ _ Hview))|].
    destruct (lf_entry _ _ _ _ _ Hsafe) as (k & Hk & Hle). exists k. split; [done|].
    eapply described_leq; [apply initial_described|done].
  - destruct (lf_block _ _ _ _ _ Hsafe b Hb) as (bb' & pre & post & Hbb' & Hpre & _ & Hst & Hsucc).
    simplify_eq. destruct (described_steps _ _ _ _ _ _ Hl Hst) as (l2 & Hl2 & Hd). simplify_eq.
    destruct (Hsucc s Hs) as (k' & Hk' & Hle). apply list_elem_of_lookup_1 in Hb as [i Hi].
    destruct (to_edge _ _ (vo_order _ _ Hview) i b bb s Hi Hbb Hs) as (j & Hj & _).
    split; [by eapply list_elem_of_lookup_2|]. exists k'. split; [done|]. by eapply described_leq.
Qed.

(** C11: the locals-safety analysis of the bytecode verifier always returns,
    whatever the meter; and when it accepts a function, then on every path of
    its control-flow graph from the entry, through any number of loop
    iterations, each instruction of each block moves or copies only locals that
    hold a value, and no value without the drop ability is overwritten or left
    behind by a return. *)
Theorem locals_safety_sound {M} `{MeterTotal M} (m : CompiledModule) (f : FunctionView)
    (s : AbstractState) (μ : M) :
  code_ok (fv_code f) → VMControlFlowGraph_new (fv_code f) = Done (fv_cfg f) →
  (∀ p i, fv_code f !! p = Some i →
     locals_in_range (length (fv_parameters f) + length (fv_locals f)) i) →
  AbstractState_new m f = Done (Ok s) →
  (∃ μ' r, locals_verify m f μ = Done (μ', r)) ∧
  ∀ μ' inv b l, locals_verify m f μ = Done (μ', Ok inv) →
    reaches f (ls_all_local_abilities s) b l →
    ∃ bb l', cfg_blocks (fv_cfg f) !! b = Some bb ∧
      use_steps (ls_all_local_abilities s) (fv_code f) (seq b (S (bb_exit bb) - b)) l = Some l'.
Proof.
  intros Hcode Hcfg Hloc Hs.
  destruct (cfg_new_ok _ Hcode) as (cfg & order & Hcfg' & Hblocks & Horder).
  rewrite Hcfg in Hcfg'. injection Hcfg' as <-.
  assert (view_ok f order) as Hview by (by split). split.
  - pose proof (locals_verify_returns m f order Hview μ) as Hret. unfold wp in Hret.
    destruct (locals_verify m f μ) as [[μ' r]| |]; [by eauto|naive_solver..].
  - intros μ' inv b l Hrun Hreach.
    destruct (locals_verify_safe m f order Hview _ _ _ Hrun) as (s' & Hs' & Hsafe).
    rewrite Hs in Hs'. injection Hs' as <-.
    destruct (reaches_described _ _ _ _ _ _ _ Hview Hsafe Hreach) as (Hb & k & Hk & Hl).
    destruct (lf_block _ _ _ _ _ Hsafe b Hb) as (bb & pre & post & Hbb & Hpre & _ & Hst & _). simplify_eq.
    destruct (described_steps _ _ _ _ _ _ Hl Hst) as (l' & Hl' & _). eauto.
Qed.

Definition sample_code : list Bytecode :=
  [Bc.LdU64 5; Bc.StLoc 1; Bc.CopyLoc 0; Bc.BrFalse 7; Bc.CopyLoc 1; Bc.StLoc 1; Bc.Branch 2; Bc.Ret].
Definition sample_cfg : VMControlFlowGraph := Eval vm_compute in
  match VMControlFlowGraph_new sample_code with
  | Done cfg => cfg
  | _ => {| cfg_blocks := ∅; cfg_traversal_successors := ∅; cfg_loop_heads := ∅ |}
  end.
Definition sample_view : FunctionView := {|
  fv_index := 0; fv_code := sample_code; fv_parameters := [ST.Bool]; fv_return := [];
  fv_locals := [ST.U64]; fv_type_parameters := []; fv_cfg := sample_cfg |}.
Definition empty_module : CompiledModule := {|
  cm_version := VERSION_6; cm_self_module_handle_idx := 0; cm_module_handles := []; cm_struct_handles := [];
  cm_function_handles := []; cm_signatures := []; cm_identifiers := [];
  cm_address_identifiers := []; cm_struct_defs := []; cm_function_defs := [] |}.
Lemma sample_code_ok : code_ok sample_code.
Proof.
  split; [done|by apply Nat.leb_le|]. intros b o Hb Ho.
  repeat (apply elem_of_cons in Hb as [->|Hb]; [simpl in *; simplify_eq; lia|]).
  by apply elem_of_nil in Hb.
Qed.
Lemma locals_safety_sound_witness :
  ∃ s inv, AbstractState_new empty_module sample_view = Done (Ok s) ∧
    locals_verify empty_module sample_view () = Done ((), Ok inv) ∧
    ∃ bb l', sample_cfg.(cfg_blocks) !! 2%nat = Some bb ∧
      use_steps (ls_all_local_abilities s) sample_code (seq 2 (S (bb_exit bb) - 2)) [true; true] = Some l'.
Proof.
  eexists _, _. split; [vm_compute; reflexivity|]. split; [vm_compute; reflexivity|].
  eapply (locals_safety_sound empty_module sample_view _ ()); [apply sample_code_ok|vm_compute; reflexivity| |
    vm_compute; reflexivity|vm_compute; reflexivity|].
  - intros p i Hi. apply list_elem_of_lookup_2 in Hi.
    repeat (apply elem_of_cons in Hi as [->|Hi]; [simpl; lia || done|]). by apply elem_of_nil in Hi.
  - eapply (reaches_edge _ _ 0); [apply reaches_entry|vm_compute; reflexivity|vm_compute; reflexivity|by left].
Defined.
