(* ===== verification/StructDefs.v ===== *)
(** The pass that rejects recursive structs:
    [move-bytecode-verifier/src/struct_defs.rs].

    The graph of the struct definitions is built as in the source; the
    topological sort is that of the petgraph crate and is an argument, with its
    documented behaviour as [toposort_ok]: the order it returns has every node
    once, and the source of an edge before its target.  A module that passes has
    structs that are nested in one another to a bounded depth
    ([accepted_structs_ranked]); the end of the file has a sort that behaves so. *)
From S2P Require Import Prelude Objects Errors MoveIntegers.
From S2P Require Import MoveModule VmMonad MapSums.

(** [petgraph::algo::toposort] on the edges of a graph: the nodes in order, or
    a node on a cycle. *)
Definition Toposort : Type := list (nat * nat) → result (list nat) nat.

(** * The graph *)

Abbreviation Neighbors := (gmap nat (gset nat)) (only parsing).

(** [StructDefGraphBuilder::new]. *)
Definition handle_to_def (m : CompiledModule) : gmap nat nat :=
  foldl (λ (h : gmap nat nat) (p : nat * StructDefinition), <[sd_struct_handle p.2 := p.1]> h) ∅
    (imap pair (cm_struct_defs m)).
(** [neighbors.entry(cur_idx).or_default().insert(struct_def_idx)]. *)
Definition add_neighbor (handles : gmap nat nat) (neighbors : Neighbors) (cur_idx sh_idx : nat) : Neighbors :=
  match handles !! sh_idx with
  | Some struct_def_idx =>
      <[cur_idx := {[struct_def_idx]} ∪ default ∅ (neighbors !! cur_idx)]> neighbors
  | None => neighbors
  end.
Fixpoint add_signature_token (handles : gmap nat nat) (neighbors : Neighbors) (cur_idx : nat)
    (token : SignatureToken) : vmresult Neighbors :=
  match token with
  | ST.Bool | ST.U8 | ST.U16 | ST.U32 | ST.U64 | ST.U128 | ST.U256 | ST.Address | ST.Signer
  | ST.TypeParameter _ => Ok neighbors
  | ST.Reference _ | ST.MutableReference _ => Err Vm.UNKNOWN_INVARIANT_VIOLATION_ERROR
  | ST.Vector inner => add_signature_token handles neighbors cur_idx inner
  | ST.Struct sh_idx => Ok (add_neighbor handles neighbors cur_idx sh_idx)
  | ST.StructInstantiation sh_idx inners =>
      (fix go (neighbors : Neighbors) (ts : list SignatureToken) : vmresult Neighbors :=
         match ts with
         | [] => Ok neighbors
         | t :: ts => neighbors ←! add_signature_token handles neighbors cur_idx t; go neighbors ts
         end) (add_neighbor handles neighbors cur_idx sh_idx) inners
  end.
Fixpoint add_signature_tokens (handles : gmap nat nat) (neighbors : Neighbors) (cur_idx : nat)
    (tokens : list SignatureToken) : vmresult Neighbors :=
  match tokens with
  | [] => Ok neighbors
  | t :: tokens =>
      neighbors ←! add_signature_token handles neighbors cur_idx t;
      add_signature_tokens handles neighbors cur_idx tokens
  end.
(** [add_struct_defs]: the fields of one definition, none for a native struct. *)
Definition add_struct_defs (handles : gmap nat nat) (neighbors : Neighbors) (p : nat * StructDefinition)
    : vmresult Neighbors :=
  add_signature_tokens handles neighbors p.1
    (match sd_field_information p.2 with Native => [] | Declared fields => map fd_signature fields end).
Fixpoint add_all_struct_defs (handles : gmap nat nat) (neighbors : Neighbors)
    (defs : list (nat * StructDefinition)) : vmresult Neighbors :=
  match defs with
  | [] => Ok neighbors
  | p :: defs => neighbors ←! add_struct_defs handles neighbors p; add_all_struct_defs handles neighbors defs
  end.
(** [build]: the edges, by parent and then by child. *)
Definition build_graph (m : CompiledModule) : vmresult (list (nat * nat)) :=
  neighbors ←! add_all_struct_defs (handle_to_def m) ∅ (imap pair (cm_struct_defs m));
  Ok (flat_map (λ p : nat * gset nat, map (pair p.1) (bset_iter Nat.le p.2)) (btree_iter Nat.le neighbors)).

(** [RecursiveStructDefChecker::verify_module]. *)
Definition RecursiveStructDefChecker (toposort : Toposort) (m : CompiledModule) : vmresult unit :=
  graph ←! build_graph m;
  match toposort graph with
  | Ok _ => Ok ()
  | Err _ => Err Vm.RECURSIVE_STRUCT_DEFINITION
  end.

(** * What an accepted module has *)

Definition token_nested_ind (P : SignatureToken → Prop)
    (Hvec : ∀ t, P t → P (ST.Vector t)) (Href : ∀ t, P t → P (ST.Reference t))
    (Hmut : ∀ t, P t → P (ST.MutableReference t))
    (Hinst : ∀ i ts, Forall P ts → P (ST.StructInstantiation i ts))
    (Hatom : ∀ t, match t with
                  | ST.Vector _ | ST.Reference _ | ST.MutableReference _ | ST.StructInstantiation _ _ => False
                  | _ => True
                  end → P t) : ∀ t, P t :=
  fix rec (t : SignatureToken) : P t :=
    match t with
    | ST.Vector t => Hvec t (rec t)
    | ST.Reference t => Href t (rec t)
    | ST.MutableReference t => Hmut t (rec t)
    | ST.StructInstantiation i ts =>
        Hinst i ts ((fix all (l : list SignatureToken) : Forall P l :=
          match l with [] => Forall_nil_2 P | t :: l => Forall_cons_2 P t l (rec t) (all l) end) ts)
    | t => Hatom t I
    end.

(** The struct handles a type names. *)
Definition names_struct (t : SignatureToken) (h : nat) : Prop :=
  ∃ u, u ∈ preorder_traversal t ∧ (u = ST.Struct h ∨ ∃ ts, u = ST.StructInstantiation h ts).

Section edges.
Context (handles : gmap nat nat).

Definition edge (nb : Neighbors) (i j : nat) : Prop := ∃ s, nb !! i = Some s ∧ j ∈ s.
(** One step of the construction: edges stay, those to the structs in [named]
    are there, and all new ones start at [cur]. *)
Record extends (cur : nat) (named : nat → Prop) (nb nb' : Neighbors) : Prop := {
  ex_keep : ∀ i j, edge nb i j → edge nb' i j;
  ex_named : ∀ h j, named h → handles !! h = Some j → edge nb' cur j;
  ex_only : ∀ i j, edge nb' i j → edge nb i j ∨ i = cur ∧ ∃ h, handles !! h = Some j;
}.
Lemma extends_refl cur (named : nat → Prop) nb : (∀ h, ¬ named h) → extends cur named nb nb.
Proof. intros Hn. split; [done|by intros h j ?%Hn|by left]. Qed.
Lemma extends_trans cur (P Q R : nat → Prop) nb nb' nb'' :
  (∀ h, R h → P h ∨ Q h) → extends cur P nb nb' → extends cur Q nb' nb'' → extends cur R nb nb''.
Proof.
  intros HR [K1 N1 O1] [K2 N2 O2]. split; [by auto| |].
  - intros h j [Hh|Hh]%HR Hj; eauto.
  - intros i j [Hij|?]%O2; [|by right]. by apply O1.
Qed.
Lemma add_neighbor_extends cur h nb : extends cur (eq h) nb (add_neighbor handles nb cur h).
Proof.
  unfold add_neighbor. destruct (handles !! h) as [d|] eqn:Hd; last first.
  { split; [done|intros ? j <-; congruence|by left]. }
  split.
  - intros i j (s & Hs & Hj). destruct (decide (cur = i)) as [->|Hne].
    + eexists. rewrite lookup_insert_eq, Hs. split; [done|]. set_solver.
    + exists s. by rewrite lookup_insert_ne.
  - intros ? j <- Hj. simplify_eq. eexists. rewrite lookup_insert_eq. split; [done|]. set_solver.
  - intros i j (s & Hs & Hj). apply lookup_insert_Some in Hs as [[<- <-]|[Hne Hs]]; [|left; by exists s].
    apply elem_of_union in Hj as [->%elem_of_singleton|Hj]; [right; eauto|left].
    destruct (nb !! cur) as [s|] eqn:Hcur; [by exists s|]. by apply elem_of_empty in Hj.
Qed.
Lemma add_signature_token_extends cur t nb nb' :
  add_signature_token handles nb cur t = Ok nb' → extends cur (names_struct t) nb nb'.
Proof.
  revert nb nb'. induction t as [t IH|t IH|t IH|h ts IH|t Ht] using token_nested_ind; intros nb nb' Hrun; [|done|done|..].
  - apply IH in Hrun. eapply (extends_trans _ _ (λ _, False)); [|exact Hrun|apply extends_refl; tauto].
    intros h (u & [->|Hu]%elem_of_cons & Hh); [destruct Hh as [Hh|[? Hh]]; discriminate Hh|left; by exists u].
  - cbn [add_signature_token] in Hrun. pose proof (add_neighbor_extends cur h nb) as Hfirst.
    assert (extends cur (λ h', ∃ t, t ∈ ts ∧ names_struct t h') (add_neighbor handles nb cur h) nb') as Hrest.
    { clear Hfirst. revert Hrun. generalize (add_neighbor handles nb cur h) as nb1.
      induction IH as [|t ts Ht IH IHts]; intros nb1 Hrun.
      - injection Hrun as <-. apply extends_refl. by intros h' (t & ?%elem_of_nil & _).
      - apply and_then_Ok in Hrun as (nb2 & Hnb2 & Hrun).
        eapply extends_trans; [|exact (Ht _ _ Hnb2)|exact (IHts _ Hrun)].
        intros h' (t' & [->|Ht']%elem_of_cons & Hn); [by left|right; by eauto]. }
    eapply extends_trans; [|exact Hfirst|exact Hrest].
    intros h' (u & [->|Hu]%elem_of_cons & Hh); [left; by destruct Hh as [|[? [=]]]|right].
    apply list_elem_of_In, in_flat_map in Hu as (t & Ht%list_elem_of_In & Hu%list_elem_of_In). exists t. split; [done|by exists u].
  - destruct t; try done; simpl in Hrun; injection Hrun as <-.
    all: try (apply extends_refl; intros h (u & Hu & Hh); apply list_elem_of_singleton in Hu; subst u; destruct Hh as [Hh|[? Hh]]; discriminate Hh).
    eapply (extends_trans _ _ (λ _, False)); [|apply add_neighbor_extends|apply extends_refl; tauto].
    intros h (u & Hu & Hh). apply list_elem_of_singleton in Hu. subst u. left. by destruct Hh as [[= ->]|[? [=]]].
Qed.
Lemma add_signature_tokens_extends cur ts nb nb' :
  add_signature_tokens handles nb cur ts = Ok nb' → extends cur (λ h, ∃ t, t ∈ ts ∧ names_struct t h) nb nb'.
Proof.
  revert nb. induction ts as [|t ts IH]; intros nb Hrun.
  - injection Hrun as <-. apply extends_refl. by intros h (t & ?%elem_of_nil & _).
  - apply and_then_Ok in Hrun as (nb1 & H1 & Hrun).
    eapply extends_trans; [|exact (add_signature_token_extends _ _ _ _ H1)|exact (IH _ Hrun)].
    intros h (t' & [->|Ht']%elem_of_cons & Hn); [by left|right; by eauto].
Qed.

(** The types of the fields of a definition. *)
Definition field_tokens (sd : StructDefinition) : list SignatureToken :=
  match sd_field_information sd with Native => [] | Declared fields => map fd_signature fields end.
Lemma add_all_extends defs nb nb' :
  add_all_struct_defs handles nb defs = Ok nb' →
  (∀ i j, edge nb i j → edge nb' i j) ∧
  (∀ i sd t h j, (i, sd) ∈ defs → t ∈ field_tokens sd → names_struct t h → handles !! h = Some j → edge nb' i j) ∧
  (∀ i j, edge nb' i j → edge nb i j ∨ (∃ sd, (i, sd) ∈ defs) ∧ ∃ h, handles !! h = Some j).
Proof.
  revert nb. induction defs as [|[i sd] defs IH]; intros nb Hrun.
  - injection Hrun as <-. split_and!; [done| |by left]. by intros i sd t h j ?%elem_of_nil.
  - apply and_then_Ok in Hrun as (nb1 & H1 & Hrun). apply add_signature_tokens_extends in H1 as [K N O].
    destruct (IH _ Hrun) as (K' & N' & O'). split_and!.
    + auto.
    + intros i' sd' t h j [[= -> ->]|Hin]%elem_of_cons Ht Hn Hj; [|by eauto]. apply K', (N h); [by exists t|done].
    + intros i' j [[Hij|[-> ?]]%O|[[sd' Hsd'] ?]]%O'; [by left|right..].
      * split; [exists sd; by left|done].
      * split; [exists sd'; by right|done].
Qed.
End edges.

Lemma handle_to_def_app (defs : list StructDefinition) k (acc : gmap nat nat) h j :
  foldl (λ (h : gmap nat nat) (p : nat * StructDefinition), <[sd_struct_handle p.2 := p.1]> h) acc
    (imap (λ i, pair (k + i)%nat) defs) !! h = Some j →
  acc !! h = Some j ∨ ∃ i sd, defs !! i = Some sd ∧ sd_struct_handle sd = h ∧ j = (k + i)%nat.
Proof.
  revert k acc. induction defs as [|sd defs IH]; intros k acc Hj; [by left|]. simpl in Hj.
  assert (imap ((λ i, pair (k + i)%nat) ∘ S) defs = imap (λ i, pair (S k + i)%nat) defs) as Himap.
  { apply imap_ext. intros i x _. simpl. by rewrite Nat.add_succ_r. }
  rewrite Himap in Hj. apply IH in Hj as [Hj|(i & sd' & Hi & Hh & ->)].
  - apply lookup_insert_Some in Hj as [[Hh Hj]|[_ Hj]]; [|by left].
    right. exists 0%nat, sd. by split_and!.
  - right. exists (S i), sd'. split_and!; [done..|lia].
Qed.
Lemma handle_to_def_Some m h j :
  handle_to_def m !! h = Some j → ∃ sd, cm_struct_defs m !! j = Some sd ∧ sd_struct_handle sd = h.
Proof.
  intros Hj. apply (handle_to_def_app _ 0) in Hj as [Hj|(i & sd & Hi & Hh & ->)]; [done|by eauto].
Qed.
Lemma handle_to_def_is_Some m j sd :
  cm_struct_defs m !! j = Some sd → is_Some (handle_to_def m !! sd_struct_handle sd).
Proof.
  unfold handle_to_def. intros Hj.
  assert (∀ l (acc : gmap nat nat) h, is_Some (acc !! h) ∨ (∃ p : nat * StructDefinition, p ∈ l ∧ sd_struct_handle p.2 = h) →
    is_Some (foldl (λ (h : gmap nat nat) (p : nat * StructDefinition), <[sd_struct_handle p.2 := p.1]> h) acc l !! h)) as Hfold.
  { induction l as [|p l IH]; intros acc h [Hacc|(q & Hq & Hh)]; simpl; [done|by apply elem_of_nil in Hq|..]; apply IH.
    - left. destruct (decide (sd_struct_handle p.2 = h)) as [->|]; [by rewrite lookup_insert_eq|by rewrite lookup_insert_ne].
    - apply elem_of_cons in Hq as [->|Hq]; [left; rewrite Hh, lookup_insert_eq; eauto|right; eauto]. }
  apply Hfold. right. exists (j, sd). split; [|done]. apply elem_of_lookup_imap. eauto.
Qed.
Lemma handle_to_def_ok m j sd :
  NoDup (map sd_struct_handle (cm_struct_defs m)) → cm_struct_defs m !! j = Some sd →
  handle_to_def m !! sd_struct_handle sd = Some j.
Proof.
  intros Hnd Hj. destruct (handle_to_def_is_Some m j sd Hj) as [i Hi]. rewrite Hi. f_equal.
  apply handle_to_def_Some in Hi as (sd' & Hi & Hh).
  eapply NoDup_lookup; [exact Hnd|by rewrite list_lookup_fmap, Hi|]. by rewrite list_lookup_fmap, Hj, Hh.
Qed.

(** The edges of the graph: from a definition to the ones its fields name. *)
Lemma build_graph_ok m edges :
  build_graph m = Ok edges →
  (∀ i sd t j sd', NoDup (map sd_struct_handle (cm_struct_defs m)) → cm_struct_defs m !! i = Some sd →
    t ∈ field_tokens sd → cm_struct_defs m !! j = Some sd' → names_struct t (sd_struct_handle sd') →
    (i, j) ∈ edges) ∧
  ∀ i j, (i, j) ∈ edges → (i < length (cm_struct_defs m))%nat ∧ (j < length (cm_struct_defs m))%nat.
Proof.
  unfold build_graph. intros Hg. apply and_then_Ok in Hg as (nb & Hnb & [= <-]).
  apply add_all_extends in Hnb as (_ & Hnamed & Honly).
  assert (∀ i j, (i, j) ∈ flat_map (λ p : nat * gset nat, map (pair p.1) (bset_iter Nat.le p.2)) (btree_iter Nat.le nb)
    ↔ edge nb i j) as Hin.
  { intros i j. rewrite list_elem_of_In, in_flat_map. setoid_rewrite <-list_elem_of_In. split.
    - intros ([i' s] & Hs%elem_of_btree_iter & (j' & [= -> ->] & Hj%elem_of_bset_iter)%list_elem_of_fmap). by exists s.
    - intros (s & Hs & Hj). exists (i, s). rewrite elem_of_btree_iter. split; [done|].
      apply list_elem_of_fmap. exists j. by rewrite elem_of_bset_iter. }
  split.
  - intros i sd t j sd' Hnd Hi Ht Hj Hn. apply Hin, (Hnamed i sd t (sd_struct_handle sd')); [|done|done|by apply handle_to_def_ok].
    apply elem_of_lookup_imap. eauto.
  - intros i j [(s & Hs & _)|[[sd Hsd] [h Hh]]]%Hin%Honly; [by rewrite lookup_empty in Hs|].
    apply elem_of_lookup_imap in Hsd as (i' & ? & [= <- <-] & Hi). apply handle_to_def_Some in Hh as (? & Hj & _).
    split; by eapply lookup_lt_Some.
Qed.

(** * Topological orders *)

(** What petgraph documents of [toposort]. *)
Definition topological (edges : list (nat * nat)) (order : list nat) : Prop :=
  NoDup order ∧ (∀ x, x ∈ order → ∃ e, e ∈ edges ∧ (x = e.1 ∨ x = e.2)) ∧
  ∀ a b, (a, b) ∈ edges → ∃ i j, order !! i = Some a ∧ order !! j = Some b ∧ (i < j)%nat.
Definition toposort_ok (toposort : Toposort) : Prop := ∀ edges order,
  toposort edges = Ok order → topological edges order.

(** How deep the structs below a definition can be nested. *)
Definition rank_in (order : list nat) (i : nat) : nat :=
  match list_find (λ x, x = i) order with Some (p, _) => length order - p | None => 0 end.
Lemma rank_at order p i : NoDup order → order !! p = Some i → rank_in order i = (length order - p)%nat.
Proof.
  intros Hnd Hp. unfold rank_in. destruct (list_find (λ x, x = i) order) as [[q x]|] eqn:Hf.
  - apply list_find_Some in Hf as (Hq & -> & _). by rewrite (NoDup_lookup _ _ _ _ Hnd Hq Hp).
  - apply list_find_None in Hf. rewrite Forall_forall in Hf. by destruct (Hf i); [eapply list_elem_of_lookup_2|].
Qed.

(** The structs of an accepted module are nested to a depth that the number of
    definitions bounds. *)
Lemma accepted_structs_ranked toposort m u :
  toposort_ok toposort → RecursiveStructDefChecker toposort m = Ok u →
  NoDup (map sd_struct_handle (cm_struct_defs m)) →
  ∃ rank : nat → nat, (∀ i, rank i ≤ length (cm_struct_defs m))%nat ∧
    ∀ i sd t j sd', cm_struct_defs m !! i = Some sd → t ∈ field_tokens sd →
      cm_struct_defs m !! j = Some sd' → names_struct t (sd_struct_handle sd') → (rank j < rank i)%nat.
Proof.
  intros Hsort Hrun Hnd. unfold RecursiveStructDefChecker in Hrun. apply and_then_Ok in Hrun as (edges & Hedges & Hrun).
  destruct (toposort edges) as [order|] eqn:Horder; [|done].
  destruct (Hsort _ _ Horder) as (Hno & Hnodes & Htop). destruct (build_graph_ok _ _ Hedges) as [Hin Hbound].
  exists (rank_in order). split.
  - intros i. trans (length order).
    { unfold rank_in. destruct (list_find _ _) as [[? ?]|]; lia. }
    rewrite <-(length_seq (length (cm_struct_defs m)) 0). apply submseteq_length, NoDup_submseteq; [done|].
    intros x ([a b] & He & Hx)%Hnodes. destruct (Hbound _ _ He) as [? ?]. apply elem_of_seq. simpl in Hx. lia.
  - intros i sd t j sd' Hi Ht Hj Hn. destruct (Htop i j) as (p & q & Hp & Hq & Hlt); [by eapply Hin|].
    rewrite (rank_at _ _ _ Hno Hp), (rank_at _ _ _ Hno Hq). apply lookup_lt_Some in Hp, Hq. lia.
Qed.

(** ** A topological sort *)

(** Take out, one at a time, a node that no edge enters. *)
Definition entered (edges : list (nat * nat)) (nodes : list nat) (x : nat) : bool :=
  existsb (λ e : nat * nat, (e.2 =? x)%nat && bool_decide (e.1 ∈ nodes)) edges.
Fixpoint sort_nodes (fuel : nat) (edges : list (nat * nat)) (nodes : list nat) : option (list nat) :=
  match fuel, nodes with
  | _, [] => Some []
  | O, _ => None
  | S fuel, _ =>
      '(_, x) ← list_find (λ x, entered edges nodes x = false) nodes;
      l ← sort_nodes fuel edges (filter (λ y, y ≠ x) nodes);
      Some (x :: l)
  end.
Definition sort_graph (edges : list (nat * nat)) : result (list nat) nat :=
  let nodes := remove_dups (edges.*1 ++ edges.*2) in
  match sort_nodes (length nodes) edges nodes with Some l => Ok l | None => Err (default 0%nat (head nodes)) end.

Lemma sort_nodes_ok fuel edges nodes l :
  sort_nodes fuel edges nodes = Some l → NoDup nodes →
  NoDup l ∧ (∀ x, x ∈ l ↔ x ∈ nodes) ∧
  ∀ a b, (a, b) ∈ edges → a ∈ nodes → b ∈ nodes → ∃ i j, l !! i = Some a ∧ l !! j = Some b ∧ (i < j)%nat.
Proof.
  revert nodes l. induction fuel as [|fuel IH]; intros [|y nodes] l Hrun Hnd.
  1,3: injection Hrun as <-; split_and!; [constructor|done|]; by intros a b _ ?%elem_of_nil.
  { done. }
  set (all := y :: nodes) in *. change (sort_nodes (S fuel) edges all) with
    ('(_, x) ← list_find (λ x, entered edges all x = false) all;
     l ← sort_nodes fuel edges (filter (λ y, y ≠ x) all); Some (x :: l)) in Hrun. apply bind_Some in Hrun as ([p x] & Hx%list_find_Some & Hrun).
  destruct Hx as (Hp & Hfree & _). apply list_elem_of_lookup_2 in Hp.
  apply bind_Some in Hrun as (k & Hk & [= <-]).
  destruct (IH _ _ Hk) as (Hndk & Hmem & Hord); [by apply NoDup_filter|].
  assert (∀ z, z ∈ k ↔ z ≠ x ∧ z ∈ all) as Hk' by (intros z; by rewrite Hmem, list_elem_of_filter).
  assert (∀ a, (a, x) ∈ edges → a ∉ all) as Hin.
  { intros a Ha Hall. assert (entered edges all x = true); [|congruence].
    apply existsb_exists. exists (a, x). rewrite <-list_elem_of_In. split; [done|]. simpl.
    by rewrite Nat.eqb_refl, bool_decide_eq_true_2. }
  split_and!.
  - constructor; [rewrite Hk'; tauto|done].
  - intros z. rewrite elem_of_cons, Hk'. destruct (decide (z = x)) as [->|]; naive_solver.
  - intros a b Hab Ha Hb. assert (b ≠ x) as Hbx by (intros ->; by apply (Hin a)).
    destruct (decide (a = x)) as [->|Hax].
    + destruct (list_elem_of_lookup_1 k b) as [j Hj]; [by apply Hk'|]. exists 0%nat, (S j). split_and!; [done..|lia].
    + destruct (Hord a b Hab) as (i & j & ? & ? & ?); [by apply list_elem_of_filter..|].
      exists (S i), (S j). split_and!; [done..|lia].
Qed.
Lemma sort_graph_ok : toposort_ok sort_graph.
Proof.
  intros edges order Hrun. unfold sort_graph in Hrun. set (nodes := remove_dups _) in *.
  destruct (sort_nodes _ _ _) as [l|] eqn:Hl; [|done]. injection Hrun as <-.
  apply sort_nodes_ok in Hl as (Hnd & Hmem & Hord); [|apply NoDup_remove_dups].
  assert (∀ x, x ∈ nodes ↔ ∃ e, e ∈ edges ∧ (x = e.1 ∨ x = e.2)) as Hnodes.
  { intros x. unfold nodes. rewrite elem_of_remove_dups, elem_of_app, !list_elem_of_fmap. naive_solver. }
  split_and!; [done|intros x Hx; by apply Hnodes, Hmem|].
  intros a b Hab. apply Hord; [done|apply Hnodes; exists (a, b); tauto..].
Qed.
