(* ===== verification/CodeVerifier.v ===== *)
(** The passes of the bytecode verifier on function bodies and their
    composition: [move-bytecode-verifier/src/instruction_consistency.rs],
    [stack_usage_verifier.rs], [type_safety.rs], the fall-through check of
    [control_flow.rs], [code_unit_verifier.rs] and [verifier.rs], on the
    instructions of [MoveModule].

    Passes that are not modelled can only reject more modules; they enter as
    the arbitrary functions of [OtherPasses], so that what is shown of an
    accepted module holds whatever they check. *)
From S2P Require Import Prelude Objects Errors MoveIntegers.
From S2P Require Import MoveModule VmMonad ControlFlow TraversalOrder.
From S2P Require Import AbstractInterp LocalsSafety AbstractStack StructDefs.

Record VerifierConfig := {
  max_basic_blocks : option nat;
  max_value_stack_size : Z;
  max_push_size : option Z;
  max_back_edges_per_function : option nat;
  max_back_edges_per_module : option nat;
}.
(** A limit that may be absent. *)
Definition check_limit {A} (limit : option A) (exceeded : A → bool) (e : Vm.PartialVMError) : vmresult unit :=
  match limit with Some l => ensure (negb (exceeded l)) e | None => Ok () end.

(** * Instruction consistency *)

Definition check_type_op (m : CompiledModule) (struct_def_index : nat) (generic : bool)
    : exec (vmresult unit) :=
  struct_def ← struct_def_at m struct_def_index;
  struct_handle ← struct_handle_at m (sd_struct_handle struct_def);
  Done (ensure (negb (Bool.eqb (length (sh_type_parameters struct_handle) =? 0)%nat generic))
    Vm.GENERIC_MEMBER_OPCODE_MISMATCH).
Definition check_function_op (m : CompiledModule) (func_handle_index : nat) (generic : bool)
    : exec (vmresult unit) :=
  function_handle ← function_handle_at m func_handle_index;
  Done (ensure (negb (Bool.eqb (length (fh_type_parameters function_handle) =? 0)%nat generic))
    Vm.GENERIC_MEMBER_OPCODE_MISMATCH).
Definition check_instruction (m : CompiledModule) (instr : Bytecode) : exec (vmresult unit) :=
  match instr with
  | Bc.Call idx => check_function_op m idx false
  | Bc.Pack idx | Bc.Unpack idx => check_type_op m idx false
  | Bc.VecPack _ num | Bc.VecUnpack _ num => Done (ensure (num <=? 65535) Vm.CONSTRAINT_NOT_SATISFIED)
  | _ => Done (Ok ())
  end.
Definition InstructionConsistency_verify (m : CompiledModule) : exec (vmresult unit) :=
  for_each (λ func_def,
    match def_code func_def with
    | None => Done (Ok ())
    | Some code => for_each (check_instruction m) (cu_code code)
    end) (cm_function_defs m).

(** * Stack usage *)

Definition field_count_of (sd : StructDefinition) : Z :=
  match sd_field_information sd with
  | Native => 0
  | Declared fields => Z.of_nat (length fields)
  end.
(** The values an instruction pops, and those it pushes. *)
Definition instruction_effect (m : CompiledModule) (return_ : Signature) (instruction : Bytecode)
    : exec (Z * Z) :=
  match instruction with
  | Bc.Pop | Bc.BrTrue _ | Bc.BrFalse _ | Bc.StLoc _ | Bc.Abort => Done (1, 0)
  | Bc.LdU8 _ | Bc.LdU16 _ | Bc.LdU32 _ | Bc.LdU64 _ | Bc.LdU128 _ | Bc.LdU256 _
  | Bc.LdTrue | Bc.LdFalse | Bc.CopyLoc _ | Bc.MoveLoc _ => Done (0, 1)
  | Bc.Not | Bc.CastU8 | Bc.CastU16 | Bc.CastU32 | Bc.CastU64 | Bc.CastU128 | Bc.CastU256 =>
      Done (1, 1)
  | Bc.Add | Bc.Sub | Bc.Mul | Bc.Mod | Bc.Div | Bc.BitOr | Bc.BitAnd | Bc.Xor | Bc.Shl | Bc.Shr
  | Bc.Or | Bc.And | Bc.Eq | Bc.Neq | Bc.Lt | Bc.Gt | Bc.Le | Bc.Ge => Done (2, 1)
  | Bc.VecPack _ num => Done (num, 1)
  | Bc.VecUnpack _ num => Done (1, num)
  | Bc.Branch _ | Bc.Nop => Done (0, 0)
  | Bc.Ret => Done (Z.of_nat (length return_), 0)
  | Bc.Call idx =>
      function_handle ← function_handle_at m idx;
      args ← signature_at m (fh_parameters function_handle);
      rets ← signature_at m (fh_return function_handle);
      Done (Z.of_nat (length args), Z.of_nat (length rets))
  | Bc.Pack idx => sd ← struct_def_at m idx; Done (field_count_of sd, 1)
  | Bc.Unpack idx => sd ← struct_def_at m idx; Done (1, field_count_of sd)
  end.
(** The loop of [verify_block] over the offsets of a block. *)
Fixpoint stack_usage_loop (config : VerifierConfig) (m : CompiledModule) (f : FunctionView)
    (offsets : list nat) (overall_push stack_size_increment : Z) : exec (vmresult Z) :=
  match offsets with
  | [] => Done (Ok stack_size_increment)
  | i :: offsets =>
      instr ← unwrap (fv_code f !! i);
      effect ← instruction_effect m (fv_return f) instr;
      let '(num_pops, num_pushes) := effect in
      let overall_push :=
        match checked_add64 overall_push num_pushes with Some n => n | None => overall_push end in
      _ ←? Done (check_limit (max_push_size config) (λ max, max <? overall_push)
             Vm.VALUE_STACK_PUSH_OVERFLOW);
      _ ←? Done (ensure (negb (stack_size_increment <? num_pops)) Vm.NEGATIVE_STACK_SIZE_WITHIN_BLOCK);
      after_pops ←? Done (ok_or (checked_sub64 stack_size_increment num_pops)
                            Vm.NEGATIVE_STACK_SIZE_WITHIN_BLOCK);
      after_pushes ←? Done (ok_or (checked_add64 after_pops num_pushes)
                              Vm.POSITIVE_STACK_SIZE_AT_BLOCK_END);
      _ ←? Done (ensure (negb (max_value_stack_size config <? after_pushes)) Vm.VALUE_STACK_OVERFLOW);
      stack_usage_loop config m f offsets overall_push after_pushes
  end.
Definition verify_block (config : VerifierConfig) (m : CompiledModule) (f : FunctionView)
    (block_id : nat) : exec (vmresult unit) :=
  offsets ← instr_indexes (fv_cfg f) block_id;
  increment ←? stack_usage_loop config m f offsets 0 0;
  Done (ensure (increment =? 0) Vm.POSITIVE_STACK_SIZE_AT_BLOCK_END).
Definition StackUsageVerifier_verify (config : VerifierConfig) (m : CompiledModule) (f : FunctionView)
    : exec (vmresult unit) :=
  for_each (verify_block config m f) (blocks (fv_cfg f)).

(** * Type safety *)

Definition TYPE_NODE_COST : Z := 30.

(** [Locals::local_at]. *)
Definition local_at (f : FunctionView) (idx : nat) : exec SignatureToken :=
  if (idx <? length (fv_parameters f))%nat then unwrap (fv_parameters f !! idx)
  else unwrap (fv_locals f !! (idx - length (fv_parameters f))%nat).

Definition materialize_type (struct_handle : nat) (type_args : Signature) : SignatureToken :=
  match type_args with
  | [] => ST.Struct struct_handle
  | _ => ST.StructInstantiation struct_handle type_args
  end.
(** The match of [instantiate]: a type parameter out of range panics. *)
Fixpoint instantiate_token (subst : Signature) (token : SignatureToken) : exec SignatureToken :=
  match token with
  | ST.Vector ty => t ← instantiate_token subst ty; Done (ST.Vector t)
  | ST.Reference ty => t ← instantiate_token subst ty; Done (ST.Reference t)
  | ST.MutableReference ty => t ← instantiate_token subst ty; Done (ST.MutableReference t)
  | ST.StructInstantiation idx tys =>
      ts ← (fix go (tys : list SignatureToken) : exec (list SignatureToken) :=
              match tys with
              | [] => Done []
              | ty :: tys => t ← instantiate_token subst ty; ts ← go tys; Done (t :: ts)
              end) tys;
      Done (ST.StructInstantiation idx ts)
  | ST.TypeParameter idx => unwrap (subst !! idx)
  | _ => Done token
  end.
Definition instantiate (token : SignatureToken) (subst : Signature) : exec SignatureToken :=
  match subst with [] => Done token | _ => instantiate_token subst token end.

Section type_safety.
Context {M : Type} `{Meter M}.
Context (m : CompiledModule) (f : FunctionView).

(** The state of [TypeSafetyChecker] that changes, and the meter. *)
Definition tsem (A : Type) : Type := sem (AbstractStack SignatureToken * M) A.
Definition metered {A} (c : sem M A) : tsem A := λ s,
  out ← c s.2; Done ((s.1, out.1), out.2).
(** [safe_unwrap_err!] around an operation of the stack. *)
Definition stack_op (op : AbstractStack SignatureToken → result (AbstractStack SignatureToken) AbsStackError)
    : tsem unit := λ s,
  Done (match op s.1 with
        | Ok stack => ((stack, s.2), Ok ())
        | Err _ => (s, Err Vm.UNKNOWN_INVARIANT_VIOLATION_ERROR)
        end).
Definition stack_pop : tsem SignatureToken := λ s,
  Done (match pop s.1 with
        | Ok (t, stack) => ((stack, s.2), Ok t)
        | Err _ => (s, Err Vm.UNKNOWN_INVARIANT_VIOLATION_ERROR)
        end).

Definition charge_ty_ (ty : SignatureToken) (n : nat) : tsem unit :=
  metered (add_items ScopeFunction TYPE_NODE_COST (length (preorder_traversal ty) * n)).
Definition charge_ty (ty : SignatureToken) : tsem unit := charge_ty_ ty 1.
Definition type_push (ty : SignatureToken) : tsem unit :=
  (charge_ty ty;; stack_op (λ s, push s ty))%sem.
Definition type_push_n (ty : SignatureToken) (n : Z) : tsem unit :=
  (charge_ty ty;; stack_op (λ s, push_n s ty n))%sem.
Definition type_abilities (t : SignatureToken) : tsem AbilitySet :=
  (r ← sexec (abilities m (fv_type_parameters f) t); sresult r)%sem.

(** Pop one value per type of [types], the last first. *)
Definition pop_types (e : Vm.PartialVMError) (type_args : Signature) (types : list SignatureToken)
    : tsem unit :=
  sfor (λ ty,
    arg ← stack_pop;
    expected ← sexec (instantiate ty type_args);
    sensure (bool_decide (arg = expected)) e)%sem (rev types).

(** [call]. *)
Definition type_call (function_handle : FunctionHandle) (type_actuals : Signature) : tsem unit :=
  (parameters ← sexec (signature_at m (fh_parameters function_handle));
   pop_types Vm.CALL_TYPE_MISMATCH_ERROR type_actuals parameters;;
   returns ← sexec (signature_at m (fh_return function_handle));
   sfor (λ return_type, ty ← sexec (instantiate return_type type_actuals); type_push ty) returns)%sem.
Definition type_fields_signature (struct_def : StructDefinition) (type_args : Signature)
    : tsem Signature :=
  match sd_field_information struct_def with
  | Native => serr Vm.PACK_TYPE_MISMATCH_ERROR
  | Declared fields => sexec (mapM (λ fd, instantiate (fd_signature fd) type_args) fields)
  end.
Definition type_pack (struct_def : StructDefinition) (type_args : Signature) : tsem unit :=
  (field_sig ← type_fields_signature struct_def type_args;
   pop_types Vm.PACK_TYPE_MISMATCH_ERROR [] field_sig;;
   type_push (materialize_type (sd_struct_handle struct_def) type_args))%sem.
Definition type_unpack (struct_def : StructDefinition) (type_args : Signature) : tsem unit :=
  (arg ← stack_pop;
   sensure (bool_decide (arg = materialize_type (sd_struct_handle struct_def) type_args))
     Vm.UNPACK_TYPE_MISMATCH_ERROR;;
   field_sig ← type_fields_signature struct_def type_args;
   sfor type_push field_sig)%sem.

(** Instructions that take an integer and return one of a given width. *)
Definition type_cast (ty : SignatureToken) : tsem unit :=
  (operand ← stack_pop;
   sensure (is_integer operand) Vm.INTEGER_OP_TYPE_MISMATCH_ERROR;;
   type_push ty)%sem.
Definition pop_two : tsem (SignatureToken * SignatureToken) :=
  (operand1 ← stack_pop; operand2 ← stack_pop; sret (operand1, operand2))%sem.
Definition pop_expect (ty : SignatureToken) (e : Vm.PartialVMError) : tsem unit :=
  (operand ← stack_pop; sensure (bool_decide (operand = ty)) e)%sem.

(** [&signature_at(idx).0[0]]. *)
Definition element_type_at (idx : nat) : tsem SignatureToken :=
  (sig ← sexec (signature_at m idx); sexec (unwrap (sig !! 0%nat)))%sem.
(** [pop_eq_n(num).map(|t| element_type != &t).unwrap_or(true)]. *)
Definition pop_eq (element_type : SignatureToken) (num : Z) : tsem unit := λ s,
  Done (match pop_eq_n s.1 num with
        | Ok (t, stack) =>
            ((stack, s.2), ensure (bool_decide (element_type = t)) Vm.TYPE_MISMATCH)
        | Err _ => (s, Err Vm.TYPE_MISMATCH)
        end).

Definition verify_instr (bytecode : Bytecode) : tsem unit :=
  (match bytecode with
   | Bc.Pop =>
       operand ← stack_pop;
       abilities ← type_abilities operand;
       sensure (has_drop abilities) Vm.POP_WITHOUT_DROP_ABILITY
   | Bc.BrTrue _ | Bc.BrFalse _ => pop_expect ST.Bool Vm.BR_TYPE_MISMATCH_ERROR
   | Bc.StLoc idx =>
       operand ← stack_pop;
       ty ← sexec (local_at f idx);
       sensure (bool_decide (operand = ty)) Vm.STLOC_TYPE_MISMATCH_ERROR
   | Bc.Abort => pop_expect ST.U64 Vm.ABORT_TYPE_MISMATCH_ERROR
   | Bc.Ret => pop_types Vm.RET_TYPE_MISMATCH_ERROR [] (fv_return f)
   | Bc.Branch _ | Bc.Nop => sret ()
   | Bc.LdU8 _ => type_push ST.U8
   | Bc.LdU16 _ => type_push ST.U16
   | Bc.LdU32 _ => type_push ST.U32
   | Bc.LdU64 _ => type_push ST.U64
   | Bc.LdU128 _ => type_push ST.U128
   | Bc.LdU256 _ => type_push ST.U256
   | Bc.LdTrue | Bc.LdFalse => type_push ST.Bool
   | Bc.CopyLoc idx =>
       local_signature ← sexec (local_at f idx);
       abilities ← type_abilities local_signature;
       sensure (has_copy abilities) Vm.COPYLOC_WITHOUT_COPY_ABILITY;;
       type_push local_signature
   | Bc.MoveLoc idx => local_signature ← sexec (local_at f idx); type_push local_signature
   | Bc.Call idx => function_handle ← sexec (function_handle_at m idx); type_call function_handle []
   | Bc.Pack idx => struct_definition ← sexec (struct_def_at m idx); type_pack struct_definition []
   | Bc.Unpack idx => struct_definition ← sexec (struct_def_at m idx); type_unpack struct_definition []
   | Bc.CastU8 => type_cast ST.U8
   | Bc.CastU16 => type_cast ST.U16
   | Bc.CastU32 => type_cast ST.U32
   | Bc.CastU64 => type_cast ST.U64
   | Bc.CastU128 => type_cast ST.U128
   | Bc.CastU256 => type_cast ST.U256
   | Bc.Add | Bc.Sub | Bc.Mul | Bc.Mod | Bc.Div | Bc.BitOr | Bc.BitAnd | Bc.Xor =>
       o ← pop_two;
       sensure (is_integer o.1 && bool_decide (o.1 = o.2)) Vm.INTEGER_OP_TYPE_MISMATCH_ERROR;;
       type_push o.1
   | Bc.Shl | Bc.Shr =>
       o ← pop_two;
       sensure (is_integer o.2 && bool_decide (o.1 = ST.U8)) Vm.INTEGER_OP_TYPE_MISMATCH_ERROR;;
       type_push o.2
   | Bc.Or | Bc.And =>
       o ← pop_two;
       sensure (bool_decide (o.1 = ST.Bool) && bool_decide (o.2 = ST.Bool))
         Vm.BOOLEAN_OP_TYPE_MISMATCH_ERROR;;
       type_push ST.Bool
   | Bc.Not => pop_expect ST.Bool Vm.BOOLEAN_OP_TYPE_MISMATCH_ERROR;; type_push ST.Bool
   | Bc.Eq | Bc.Neq =>
       o ← pop_two;
       abilities ← type_abilities o.1;
       sensure (has_drop abilities && bool_decide (o.1 = o.2)) Vm.EQUALITY_OP_TYPE_MISMATCH_ERROR;;
       type_push ST.Bool
   | Bc.Lt | Bc.Gt | Bc.Le | Bc.Ge =>
       o ← pop_two;
       sensure (is_integer o.1 && bool_decide (o.1 = o.2)) Vm.INTEGER_OP_TYPE_MISMATCH_ERROR;;
       type_push ST.Bool
   | Bc.VecPack idx num =>
       element_type ← element_type_at idx;
       (if num =? 0 then sret () else pop_eq element_type num);;
       type_push (ST.Vector element_type)
   | Bc.VecUnpack idx num =>
       operand_vec ← stack_pop;
       declared_element_type ← element_type_at idx;
       sensure (bool_decide (operand_vec = ST.Vector declared_element_type)) Vm.TYPE_MISMATCH;;
       type_push_n declared_element_type num
   end)%sem.

(** [type_safety::verify]: one stack for all the blocks. *)
Definition type_verify_block (block_id : nat) : tsem unit :=
  (offsets ← sexec (instr_indexes (fv_cfg f) block_id);
   sfor (λ offset, instr ← sexec (unwrap (fv_code f !! offset)); verify_instr instr) offsets)%sem.
Definition type_safety_verify : sem M unit := λ μ,
  out ← sfor type_verify_block (blocks (fv_cfg f)) (stack_new, μ);
  Done (out.1.2, out.2).
End type_safety.

(** * The passes together *)

(** The passes that are not modelled, in the order the verifier runs them: on
    the module, and on a function. *)
Record OtherPasses := {
  LimitsVerifier : CompiledModule → vmresult unit;
  constants_and_friends : CompiledModule → vmresult unit;
  ability_field_requirements : CompiledModule → vmresult unit;
  toposort : Toposort;
  InstantiationLoopChecker : CompiledModule → vmresult unit;
  verify_reducibility : FunctionView → vmresult unit;
  check_jumps_v5 : list Bytecode → vmresult unit;
  reference_safety : FunctionView → vmresult unit;
  AcquiresVerifier : nat → FunctionDefinition → vmresult unit;
  script_signature : CompiledModule → vmresult unit;
}.

(** [control_flow::verify_fallthrough]. *)
Definition verify_fallthrough (code : list Bytecode) : vmresult unit :=
  match last code with
  | None => Err Vm.EMPTY_CODE_UNIT
  | Some last => ensure (is_unconditional_branch last) Vm.INVALID_FALL_THROUGH
  end.

Section code_unit.
Context {M : Type} `{Meter M}.
Context (passes : OtherPasses) (config : VerifierConfig).

(** [control_flow_v5::verify]. *)
Definition control_flow_v5_verify (code : CodeUnit) : exec (vmresult unit) :=
  _ ←? Done (verify_fallthrough (cu_code code));
  Done (check_jumps_v5 passes (cu_code code)).
(** [control_flow::verify_function]; modules up to version 5 of the binary
    format have a check of their own on jumps. *)
Definition control_flow_verify (m : CompiledModule) (index : nat) (def : FunctionDefinition)
    (code : CodeUnit) : exec (vmresult FunctionView) :=
  function_handle ← function_handle_at m (def_function def);
  if cm_version m <=? 5 then
    _ ←? control_flow_v5_verify code;
    view ← FunctionView_function m index code function_handle;
    Done (Ok view)
  else
    _ ←? Done (verify_fallthrough (cu_code code));
    view ← FunctionView_function m index code function_handle;
    _ ←? Done (verify_reducibility passes view);
    Done (Ok view).

Definition verify_common (m : CompiledModule) (f : FunctionView) : sem M unit :=
  (stack_usage ← sexec (StackUsageVerifier_verify config m f);
   sresult stack_usage;;
   type_safety_verify m f;;
   locals_verify m f;;
   sresult (reference_safety passes f))%sem.

Definition verify_function (m : CompiledModule) (index : nat) (def : FunctionDefinition) : sem M nat :=
  (function_handle ← sexec (function_handle_at m (def_function def));
   name ← sexec (unwrap (cm_identifiers m !! fh_name function_handle));
   enter_scope name ScopeFunction;;
   match def_code def with
   | None => sret 0%nat
   | Some code =>
       checked ← sexec (control_flow_verify m index def code);
       view ← sresult checked;
       sresult (check_limit (max_basic_blocks config) (λ limit, limit <? length (blocks (fv_cfg view)))%nat
         Vm.TOO_MANY_BASIC_BLOCKS);;
       let num_back_edges := num_back_edges (fv_cfg view) in
       sresult (check_limit (max_back_edges_per_function config) (λ limit, limit <? num_back_edges)%nat
         Vm.TOO_MANY_BACK_EDGES);;
       verify_common m view;;
       sresult (AcquiresVerifier passes index def);;
       transfer ScopeFunction ScopeModule;;
       sret num_back_edges
   end)%sem.

(** [CodeUnitVerifier::verify_module_impl]: the loop over the functions sums
    their back edges. *)
Fixpoint verify_functions (m : CompiledModule) (defs : list (nat * FunctionDefinition))
    (total_back_edges : nat) : sem M nat :=
  match defs with
  | [] => sret total_back_edges
  | (idx, def) :: defs =>
      (num_back_edges ← verify_function m idx def;
       verify_functions m defs (total_back_edges + num_back_edges))%sem
  end.
Definition CodeUnitVerifier_verify (m : CompiledModule) : sem M unit :=
  (total ← verify_functions m (imap pair (cm_function_defs m)) 0;
   sresult (check_limit (max_back_edges_per_module config) (λ limit, limit <? total)%nat
     Vm.TOO_MANY_BACK_EDGES))%sem.

Definition verify_module_with_config_metered (m : CompiledModule) : sem M unit :=
  (sresult (BoundsChecker_verify m);;
   sresult (LimitsVerifier passes m);;
   duplication ← sexec (DuplicationChecker_verify m);
   sresult duplication;;
   signatures ← sexec (SignatureChecker_verify m);
   sresult signatures;;
   instructions ← sexec (InstructionConsistency_verify m);
   sresult instructions;;
   sresult (constants_and_friends passes m);;
   sresult (ability_field_requirements passes m);;
   sresult (RecursiveStructDefChecker (toposort passes) m);;
   sresult (InstantiationLoopChecker passes m);;
   CodeUnitVerifier_verify m;;
   sresult (script_signature passes m))%sem.
End code_unit.
