(* ===== verification/VerifierFacts.v ===== *)
(** What the verifier establishes of a module it accepts: the effect of every
    instruction on the types of the stack ([type_step]), blocks that start and
    end with an empty stack, and per function the facts execution relies on
    ([verified_function]). *)
From S2P Require Import Prelude Objects Errors MoveIntegers.
From S2P Require Import MoveModule VmMonad ControlFlow TraversalOrder.
From S2P Require Import AbstractInterp LocalsSafety AbstractStack CodeVerifier.

(** * The effect of an instruction on the types of the stack *)

Definition local_types (f : FunctionView) : list SignatureToken := fv_parameters f ++ fv_locals f.
Definition is_arith (i : Bytecode) : bool :=
  match i with
  | Bc.Add | Bc.Sub | Bc.Mul | Bc.Mod | Bc.Div | Bc.BitOr | Bc.BitAnd | Bc.Xor => true
  | _ => false
  end.
Definition is_shift (i : Bytecode) : bool := match i with Bc.Shl | Bc.Shr => true | _ => false end.
Definition is_comparison (i : Bytecode) : bool :=
  match i with Bc.Lt | Bc.Gt | Bc.Le | Bc.Ge => true | _ => false end.
Definition cast_target (i : Bytecode) : option SignatureToken :=
  match i with
  | Bc.CastU8 => Some ST.U8 | Bc.CastU16 => Some ST.U16 | Bc.CastU32 => Some ST.U32
  | Bc.CastU64 => Some ST.U64 | Bc.CastU128 => Some ST.U128 | Bc.CastU256 => Some ST.U256
  | _ => None
  end.
Definition load_type (i : Bytecode) : option SignatureToken :=
  match i with
  | Bc.LdU8 _ => Some ST.U8 | Bc.LdU16 _ => Some ST.U16 | Bc.LdU32 _ => Some ST.U32
  | Bc.LdU64 _ => Some ST.U64 | Bc.LdU128 _ => Some ST.U128 | Bc.LdU256 _ => Some ST.U256
  | Bc.LdTrue | Bc.LdFalse => Some ST.Bool
  | _ => None
  end.

(** Stacks have their top first. *)
Inductive type_step (m : CompiledModule) (f : FunctionView)
    : Bytecode → list SignatureToken → list SignatureToken → Prop :=
  | ts_pop t k : type_step m f Bc.Pop (t :: k) k
  | ts_br_true o k : type_step m f (Bc.BrTrue o) (ST.Bool :: k) k
  | ts_br_false o k : type_step m f (Bc.BrFalse o) (ST.Bool :: k) k
  | ts_branch o k : type_step m f (Bc.Branch o) k k
  | ts_nop k : type_step m f Bc.Nop k k
  | ts_abort k : type_step m f Bc.Abort (ST.U64 :: k) k
  | ts_ret k : type_step m f Bc.Ret (rev (fv_return f) ++ k) k
  | ts_load i t k : load_type i = Some t → type_step m f i k (t :: k)
  | ts_st_loc idx t k : local_types f !! idx = Some t → type_step m f (Bc.StLoc idx) (t :: k) k
  | ts_copy_loc idx t k : local_types f !! idx = Some t → type_step m f (Bc.CopyLoc idx) k (t :: k)
  | ts_move_loc idx t k : local_types f !! idx = Some t → type_step m f (Bc.MoveLoc idx) k (t :: k)
  | ts_call idx fh params rets k :
      cm_function_handles m !! idx = Some fh → cm_signatures m !! fh_parameters fh = Some params →
      cm_signatures m !! fh_return fh = Some rets →
      type_step m f (Bc.Call idx) (rev params ++ k) (rev rets ++ k)
  | ts_pack idx sd fields k :
      cm_struct_defs m !! idx = Some sd → sd_field_information sd = Declared fields →
      type_step m f (Bc.Pack idx) (rev (map fd_signature fields) ++ k) (ST.Struct (sd_struct_handle sd) :: k)
  | ts_unpack idx sd fields k :
      cm_struct_defs m !! idx = Some sd → sd_field_information sd = Declared fields →
      type_step m f (Bc.Unpack idx) (ST.Struct (sd_struct_handle sd) :: k) (rev (map fd_signature fields) ++ k)
  | ts_cast i t u k : cast_target i = Some u → is_integer t = true → type_step m f i (t :: k) (u :: k)
  | ts_arith i t k : is_arith i = true → is_integer t = true → type_step m f i (t :: t :: k) (t :: k)
  | ts_shift i t k : is_shift i = true → is_integer t = true → type_step m f i (ST.U8 :: t :: k) (t :: k)
  | ts_compare i t k : is_comparison i = true → is_integer t = true → type_step m f i (t :: t :: k) (ST.Bool :: k)
  | ts_or k : type_step m f Bc.Or (ST.Bool :: ST.Bool :: k) (ST.Bool :: k)
  | ts_and k : type_step m f Bc.And (ST.Bool :: ST.Bool :: k) (ST.Bool :: k)
  | ts_not k : type_step m f Bc.Not (ST.Bool :: k) (ST.Bool :: k)
  | ts_eq t k : type_step m f Bc.Eq (t :: t :: k) (ST.Bool :: k)
  | ts_neq t k : type_step m f Bc.Neq (t :: t :: k) (ST.Bool :: k)
  | ts_vec_pack idx num sig t k :
      cm_signatures m !! idx = Some sig → sig !! 0%nat = Some t →
      type_step m f (Bc.VecPack idx num) (replicate (Z.to_nat num) t ++ k) (ST.Vector t :: k)
  | ts_vec_unpack idx num sig t k :
      cm_signatures m !! idx = Some sig → sig !! 0%nat = Some t →
      type_step m f (Bc.VecUnpack idx num) (ST.Vector t :: k) (replicate (Z.to_nat num) t ++ k).

Inductive type_steps (m : CompiledModule) (f : FunctionView)
    : list nat → list SignatureToken → list SignatureToken → Prop :=
  | type_steps_nil k : type_steps m f [] k k
  | type_steps_cons p i ps k1 k2 k3 :
      fv_code f !! p = Some i → type_step m f i k1 k2 → type_steps m f ps k2 k3 →
      type_steps m f (p :: ps) k1 k3.

(** The count of an instruction on vectors is a [u64]. *)
Definition counts_ok (i : Bytecode) : Prop :=
  match i with Bc.VecPack _ num | Bc.VecUnpack _ num => 0 ≤ num | _ => True end.

Section type_safety.
Context {M : Type} `{Meter M}.
Context (m : CompiledModule) (f : FunctionView).
Implicit Types s : AbstractStack SignatureToken * M.

Lemma stack_pop_Ok s s' t :
  stack_ok s.1 → stack_pop s = Done (s', Ok t) → stack_ok s'.1 ∧ stack_of s.1 = t :: stack_of s'.1.
Proof.
  intros Hok Hrun. unfold stack_pop, pop in Hrun.
  pose proof (pop_eq_n_refines s.1 1 Hok) as Hr. specialize (Hr ltac:(lia)).
  destruct (pop_eq_n s.1 1) as [[u k]|e]; simplify_eq. simpl.
  unfold pop_equal in Hr. destruct (stack_of s.1) as [|v l]; [done|].
  simpl in Hr. rewrite bool_decide_eq_true_2 in Hr by done. simpl in Hr. rewrite drop_0 in Hr.
  by destruct Hr as (-> & ? & ->).
Qed.
Lemma metered_Ok {A} (c : sem M A) s s' a : metered c s = Done (s', Ok a) → s'.1 = s.1.
Proof. unfold metered. intros Hrun. exec_inv. done. Qed.
Lemma type_push_n_Ok ty n s s' u :
  stack_ok s.1 → 0 ≤ n → type_push_n ty n s = Done (s', Ok u) →
  stack_ok s'.1 ∧ stack_of s'.1 = replicate (Z.to_nat n) ty ++ stack_of s.1.
Proof.
  intros Hok Hn Hrun. unfold type_push_n in Hrun. sem_inv. apply metered_Ok in Hm.
  unfold stack_op in Hrun. rewrite Hm in Hrun.
  pose proof (push_n_refines s.1 ty n Hok Hn) as Hr.
  destruct (push_n s.1 ty n) as [k|e]; by simplify_eq.
Qed.
Lemma type_push_Ok ty s s' u :
  stack_ok s.1 → type_push ty s = Done (s', Ok u) → stack_ok s'.1 ∧ stack_of s'.1 = ty :: stack_of s.1.
Proof. intros Hok Hrun. by apply (type_push_n_Ok ty 1 s s' u). Qed.
Lemma pops_Ok e types s s' u :
  stack_ok s.1 → sfor (λ ty, arg ← stack_pop; expected ← sexec (instantiate ty []);
    sensure (bool_decide (arg = expected)) e)%sem types s = Done (s', Ok u) →
  stack_ok s'.1 ∧ stack_of s.1 = types ++ stack_of s'.1.
Proof.
  revert s. induction types as [|ty types IH]; intros s Hok Hrun; simpl in Hrun; sem_inv; [done|].
  bool_prop. apply stack_pop_Ok in Hm0 as [Hok1 Hst]; [|done].
  destruct (IH _ Hok1 Hrun) as [? Heq]. split; [done|]. rewrite Hst, Heq. simpl in *. by simplify_eq.
Qed.
Lemma pop_types_Ok e types s s' u :
  stack_ok s.1 → pop_types e [] types s = Done (s', Ok u) →
  stack_ok s'.1 ∧ stack_of s.1 = rev types ++ stack_of s'.1.
Proof. apply pops_Ok. Qed.
Lemma pushes_Ok {A} (g : A → SignatureToken) (c : A → tsem unit) types s s' u :
  (∀ a s s' u, stack_ok s.1 → c a s = Done (s', Ok u) → stack_ok s'.1 ∧ stack_of s'.1 = g a :: stack_of s.1) →
  stack_ok s.1 → sfor c types s = Done (s', Ok u) →
  stack_ok s'.1 ∧ stack_of s'.1 = rev (map g types) ++ stack_of s.1.
Proof.
  intros Hc. revert s. induction types as [|ty types IH]; intros s Hok Hrun; simpl in Hrun; sem_inv; [done|].
  destruct (Hc _ _ _ _ Hok Hm) as [Hok1 Hst]. destruct (IH _ Hok1 Hrun) as [? Heq].
  split; [done|]. rewrite Heq, Hst. simpl. by rewrite <-app_assoc.
Qed.

Lemma local_at_Ok idx t : local_at f idx = Done t → local_types f !! idx = Some t.
Proof.
  unfold local_at, local_types. intros Hrun. destruct (Nat.ltb_spec idx (length (fv_parameters f))); exec_inv.
  - by rewrite lookup_app_l.
  - by rewrite lookup_app_r.
Qed.
Lemma type_abilities_Ok t s s' a : type_abilities m f t s = Done (s', Ok a) → s' = s.
Proof. unfold type_abilities. intros Hrun. by sem_inv. Qed.
Lemma pop_two_Ok s s' o :
  stack_ok s.1 → pop_two s = Done (s', Ok o) →
  ∃ a b, o = (a, b) ∧ stack_ok s'.1 ∧ stack_of s.1 = a :: b :: stack_of s'.1.
Proof.
  intros Hok Hrun. unfold pop_two in Hrun. sem_inv.
  apply stack_pop_Ok in Hm as [Hok1 Hst1]; [|done]. apply stack_pop_Ok in Hm0 as [Hok2 Hst2]; [|done].
  eexists _, _. split_and!; [done|done|]. by rewrite Hst1, Hst2.
Qed.
Lemma pop_expect_Ok ty e s s' u :
  stack_ok s.1 → pop_expect ty e s = Done (s', Ok u) → stack_ok s'.1 ∧ stack_of s.1 = ty :: stack_of s'.1.
Proof.
  intros Hok Hrun. unfold pop_expect in Hrun. sem_inv. bool_prop. subst. by apply stack_pop_Ok in Hm.
Qed.
Lemma type_cast_Ok ty s s' u :
  stack_ok s.1 → type_cast ty s = Done (s', Ok u) →
  stack_ok s'.1 ∧ ∃ t k, is_integer t = true ∧ stack_of s.1 = t :: k ∧ stack_of s'.1 = ty :: k.
Proof.
  intros Hok Hrun. unfold type_cast in Hrun. sem_inv.
  apply stack_pop_Ok in Hm as [Hok1 Hst1]; [|done]. apply type_push_Ok in Hrun as [Hok2 Hst2]; [|done].
  split; [done|]. eauto.
Qed.
Lemma element_type_at_Ok idx s s' t :
  element_type_at m idx s = Done (s', Ok t) →
  s' = s ∧ ∃ sig, cm_signatures m !! idx = Some sig ∧ sig !! 0%nat = Some t.
Proof. unfold element_type_at, signature_at. intros Hrun. sem_inv. exec_inv. eauto. Qed.
Lemma pop_equal_Ok (l : list SignatureToken) n t k :
  (0 < n)%nat → pop_equal l n = Ok (t, k) → l = replicate n t ++ k.
Proof.
  intros Hn Hpop. unfold pop_equal in Hpop. destruct l as [|u l]; [done|].
  destruct (Nat.ltb_spec (length (u :: l)) n); [done|]. case_match eqn:Hall; simplify_eq.
  rewrite <-(take_drop n (t :: l)) at 1. f_equal.
  assert (length (take n (t :: l)) = n) as Hlen by (rewrite length_take; lia).
  rewrite <-Hlen at 2. revert Hall. generalize (take n (t :: l)). clear.
  induction l as [|v l IH]; simpl; [done|]. intros [->%bool_decide_eq_true ?]%andb_true_iff. f_equal. auto.
Qed.
Lemma pop_eq_Ok t num s s' u :
  stack_ok s.1 → 0 < num → pop_eq t num s = Done (s', Ok u) →
  stack_ok s'.1 ∧ stack_of s.1 = replicate (Z.to_nat num) t ++ stack_of s'.1.
Proof.
  intros Hok Hn Hrun. unfold pop_eq in Hrun. pose proof (pop_eq_n_refines s.1 num Hok Hn) as Hr.
  destruct (pop_eq_n s.1 num) as [[v k]|e]; [|done]. injection Hrun as <- Hens.
  apply ensure_Ok in Hens. bool_prop. subst v. simpl.
  destruct (pop_equal _ _) as [[v l]|e] eqn:Hp; [|done]. destruct Hr as (-> & Hk & Hl).
  split; [done|]. apply pop_equal_Ok in Hp; [|lia]. by rewrite Hp, Hl.
Qed.

Lemma fields_Ok (fields : list FieldDefinition) l :
  mapM (λ fd, instantiate (fd_signature fd) []) fields = Done l → l = map fd_signature fields.
Proof. revert l. induction fields as [|fd fields IH]; intros l Hl; simpl in Hl; exec_inv; [done|]. by f_equal; eauto. Qed.
Lemma type_call_Ok idx fh s s' u :
  stack_ok s.1 → function_handle_at m idx = Done fh → type_call m fh [] s = Done (s', Ok u) →
  stack_ok s'.1 ∧ type_step m f (Bc.Call idx) (stack_of s.1) (stack_of s'.1).
Proof.
  unfold type_call, function_handle_at, signature_at. intros Hok Hfh Hrun. sem_inv. exec_inv.
  apply pop_types_Ok in Hm0 as [Hok1 ->]; [|done].
  apply (pushes_Ok id) in Hrun as [Hok2 ->]; [| |done].
  - split; [done|]. rewrite map_id. by econstructor.
  - intros t s1 s2 v Hs1 Hr. sem_inv. by apply type_push_Ok in Hr.
Qed.
Lemma type_pack_Ok idx sd s s' u :
  stack_ok s.1 → struct_def_at m idx = Done sd → type_pack sd [] s = Done (s', Ok u) →
  stack_ok s'.1 ∧ type_step m f (Bc.Pack idx) (stack_of s.1) (stack_of s'.1).
Proof.
  unfold type_pack, type_fields_signature, struct_def_at. intros Hok Hsd Hrun. sem_inv. exec_inv.
  destruct (sd_field_information sd) as [|fields] eqn:Hf; sem_inv.
  match goal with E : mapM _ _ = _ |- _ => apply fields_Ok in E as -> end.
  apply pop_types_Ok in Hm0 as [Hok1 ->]; [|done]. apply type_push_Ok in Hrun as [Hok2 ->]; [|done].
  split; [done|]. by econstructor.
Qed.
Lemma type_unpack_Ok idx sd s s' u :
  stack_ok s.1 → struct_def_at m idx = Done sd → type_unpack sd [] s = Done (s', Ok u) →
  stack_ok s'.1 ∧ type_step m f (Bc.Unpack idx) (stack_of s.1) (stack_of s'.1).
Proof.
  unfold type_unpack, type_fields_signature, struct_def_at. intros Hok Hsd Hrun. sem_inv. exec_inv. bool_prop. subst.
  destruct (sd_field_information sd) as [|fields] eqn:Hf; sem_inv.
  match goal with E : mapM _ _ = _ |- _ => apply fields_Ok in E as -> end.
  apply stack_pop_Ok in Hm as [Hok1 ->]; [|done].
  apply (pushes_Ok id) in Hrun as [Hok2 ->]; [|intros a s1 s2 v; apply type_push_Ok|done].
  split; [done|]. rewrite map_id. by econstructor.
Qed.
Lemma vec_pack_Ok idx num s s' u :
  stack_ok s.1 → 0 ≤ num → verify_instr m f (Bc.VecPack idx num) s = Done (s', Ok u) →
  stack_ok s'.1 ∧ type_step m f (Bc.VecPack idx num) (stack_of s.1) (stack_of s'.1).
Proof.
  intros Hok Hn Hrun. simpl in Hrun. sem_inv.
  apply element_type_at_Ok in Hm as (-> & sig & Hsig & Ht).
  assert (stack_ok st0.1 ∧ stack_of s.1 = replicate (Z.to_nat num) a ++ stack_of st0.1) as [Hok1 ->].
  { case_test (num =? 0) as Hz; [subst; by sem_inv|]. eapply pop_eq_Ok; [done|lia|done]. }
  apply type_push_Ok in Hrun as [Hok2 ->]; [|done]. split; [done|]. by econstructor.
Qed.

Lemma verify_instr_step i s s' u :
  stack_ok s.1 → counts_ok i → verify_instr m f i s = Done (s', Ok u) →
  stack_ok s'.1 ∧ type_step m f i (stack_of s.1) (stack_of s'.1).
Proof.
  intros Hok Hcount Hrun. destruct i; try (by apply (vec_pack_Ok _ _ _ _ u)); simpl in Hrun; sem_inv.
  all: repeat match goal with
    | E : stack_pop _ = _ |- _ => apply stack_pop_Ok in E as [? E]; [|done]
    | E : pop_two _ = _ |- _ => apply pop_two_Ok in E as (? & ? & -> & ? & E); [|done]
    | E : pop_expect _ _ _ = _ |- _ => apply pop_expect_Ok in E as [? E]; [|done]
    | E : type_push _ _ = _ |- _ => apply type_push_Ok in E as [? E]; [|done]
    | E : type_cast _ _ = _ |- _ => apply type_cast_Ok in E as (? & ? & ? & ? & E & ?); [|done]
    | E : type_abilities _ _ _ _ = _ |- _ => apply type_abilities_Ok in E as ->
    | E : local_at _ _ = _ |- _ => apply local_at_Ok in E
    | E : pop_types _ _ _ _ = _ |- _ => apply pop_types_Ok in E as [? E]; [|done]
    | E : element_type_at _ _ _ = _ |- _ => apply element_type_at_Ok in E as (-> & ? & ? & ?)
    | E : type_push_n _ _ _ = _ |- _ => apply type_push_n_Ok in E as [? E]; [|done..]
    end.
  all: try (split; [done|]; bool_prop;
    repeat match goal with E : stack_of _ = _ |- _ => rewrite E; clear E end; simpl in *; subst;
    first [by econstructor|by econstructor; eassumption]).
  all: eauto using type_call_Ok, type_pack_Ok, type_unpack_Ok.
Qed.

(** * Blocks start and end with an empty stack *)

Lemma effect_length i k k' pops pushes :
  type_step m f i k k' → counts_ok i → instruction_effect m (fv_return f) i = Done (pops, pushes) →
  Z.of_nat (length k') = Z.of_nat (length k) - pops + pushes.
Proof.
  unfold instruction_effect, function_handle_at, struct_def_at, signature_at, field_count_of.
  intros Hstep Hcount Heff.
  destruct Hstep; simpl in *; first [destruct i; simplify_eq/=; exec_inv; simpl; lia|idtac];
    repeat match goal with E : _ = Some _ |- _ => rewrite E in Heff; clear E; simpl in Heff end;
    repeat match goal with E : sd_field_information _ = _ |- _ => rewrite E in Heff; clear E end; exec_inv;
    rewrite ?length_app, ?length_rev, ?length_map, ?length_replicate; simpl; lia.
Qed.

Lemma stack_usage_length config offsets overall inc r k k' :
  type_steps m f offsets k k' → (∀ p i, fv_code f !! p = Some i → counts_ok i) →
  Z.of_nat (length k) = inc →
  stack_usage_loop config m f offsets overall inc = Done (Ok r) → r = Z.of_nat (length k').
Proof.
  intros Hsteps Hcounts. revert overall inc. induction Hsteps as [|p i ps k1 k2 k3 Hi Hstep _ IH];
    intros overall inc Hinc Hrun; simpl in Hrun; [by simplify_eq|].
  rewrite Hi in Hrun. simpl in Hrun. exec_inv. destruct v as [pops pushes].
  apply try_exec_Ok in Hrun as ([] & _ & Hrun). apply try_exec_Ok in Hrun as ([] & _ & Hrun).
  apply try_exec_Ok in Hrun as (ap & Hap & Hrun). apply try_exec_Ok in Hrun as (apu & Hapu & Hrun).
  apply try_exec_Ok in Hrun as ([] & _ & Hrun).
  eapply IH; [|done]. rewrite (effect_length _ _ _ _ _ Hstep (Hcounts _ _ Hi) Hv).
  unfold ok_or, checked_sub64, checked_add64 in *. repeat case_match; simplify_eq; lia.
Qed.

Lemma verify_offsets_steps offsets s s' u :
  (∀ p i, fv_code f !! p = Some i → counts_ok i) → stack_ok s.1 →
  sfor (λ offset, instr ← sexec (unwrap (fv_code f !! offset)); verify_instr m f instr)%sem offsets s =
    Done (s', Ok u) →
  stack_ok s'.1 ∧ type_steps m f offsets (stack_of s.1) (stack_of s'.1).
Proof.
  intros Hcounts. revert s. induction offsets as [|p offsets IH]; intros s Hok Hrun; simpl in Hrun; sem_inv.
  { split; [done|constructor]. }
  exec_inv. match goal with E : fv_code f !! p = Some ?i |- _ => rename E into Hi; rename i into i end.
  apply verify_instr_step in Hm as [Hok1 Hstep]; [|done|by eapply Hcounts].
  destruct (IH _ Hok1 Hrun) as [Hok2 Hsteps]. split; [done|]. by econstructor.
Qed.

Lemma for_each_Ok {A} (g : A → exec (vmresult unit)) l u :
  for_each g l = Done (Ok u) ↔ ∀ x, x ∈ l → g x = Done (Ok ()).
Proof.
  destruct u. induction l as [|x l IH]; simpl.
  - split; [|done]. intros _ x Hx. by apply not_elem_of_nil in Hx.
  - rewrite try_exec_Ok. setoid_rewrite elem_of_cons. split.
    + intros ([] & Hx & Hl) y [->|Hy]; [done|]. by apply IH.
    + intros Hall. exists (). split; [by auto|]. apply IH. auto.
Qed.

(** Every block takes an empty stack to an empty stack. *)
Definition blocks_typed : Prop := ∀ b bb, cfg_blocks (fv_cfg f) !! b = Some bb →
  type_steps m f (seq b (S (bb_exit bb) - b)) [] [].

Lemma type_safety_blocks config (μ μ' : M) u :
  (∀ p i, fv_code f !! p = Some i → counts_ok i) →
  StackUsageVerifier_verify config m f = Done (Ok u) →
  type_safety_verify m f μ = Done (μ', Ok ()) → blocks_typed.
Proof.
  intros Hcounts Hstack Hrun b bb Hbb. unfold StackUsageVerifier_verify in Hstack. rewrite for_each_Ok in Hstack.
  unfold type_safety_verify in Hrun. exec_inv. destruct v as [s' r]; simplify_eq/=.
  assert (b ∈ blocks (fv_cfg f)) as Hb.
  { unfold blocks. apply list_elem_of_fmap. exists (b, bb). by rewrite elem_of_btree_iter. }
  assert (∀ bs s, (∀ x, x ∈ bs → x ∈ blocks (fv_cfg f)) → stack_ok s.1 → stack_of s.1 = [] →
    sfor (type_verify_block m f) bs s = Done (s', Ok ()) → b ∈ bs →
    type_steps m f (seq b (S (bb_exit bb) - b)) [] []) as Hloop; [|by apply (Hloop _ (stack_new, μ) (λ _, id) stack_new_ok)].
  clear Hv Hb. intros bs. induction bs as [|x bs IH]; intros s Hsub Hok Hs Hrun Hin; [by apply elem_of_nil in Hin|].
  simpl in Hrun. sem_inv. unfold type_verify_block in Hm. sem_inv.
  apply verify_offsets_steps in Hm as [Hok1 Hsteps]; [|done..].
  specialize (Hstack x (Hsub x ltac:(by left))). unfold verify_block in Hstack.
  match goal with E : instr_indexes _ x = Done ?l |- _ => rename E into Hidx; rename l into offsets end.
  rewrite Hidx in Hstack. simpl in Hstack. apply try_exec_Ok in Hstack as (inc & Hinc & Hz%Done_Ok_inj).
  apply ensure_Ok in Hz. bool_prop. subst inc.
  rewrite Hs in Hsteps. pose proof (stack_usage_length _ _ _ _ _ _ _ Hsteps Hcounts eq_refl Hinc) as Hlen.
  destruct (stack_of _) as [|? ?] eqn:Hst in Hsteps; [|rewrite Hst in Hlen; simpl in Hlen; lia].
  apply elem_of_cons in Hin as [->|Hin].
  - unfold instr_indexes, block_end in Hidx. rewrite Hbb in Hidx. simpl in Hidx. exec_inv. done.
  - eapply IH; [|done..]. intros y Hy. apply Hsub. by right.
Qed.
End type_safety.
