(* ===== verification/VerifiedModule.v ===== *)
(** What a verified module offers to the interpreter: every function with a
    body has a [verified_function], and at every program point of it the types
    of the stack and the states of the locals are known ([at_pc]) and follow
    the control flow ([at_pc_step]). *)
From S2P Require Import Prelude Objects Errors MoveIntegers.
From S2P Require Import MoveModule VmMonad ControlFlow TraversalOrder.
From S2P Require Import AbstractInterp LocalsSafety AbstractStack CodeVerifier.
From S2P Require Import VerifierFacts StructDefs.

(** What the deserializer guarantees of the sizes in a module: the operands of
    instructions fit their width, offsets can express the length of any code,
    and a struct has at most 255 fields. *)
Definition operands_ok (i : Bytecode) : Prop :=
  match i with
  | Bc.LdU8 n => 0 ≤ n < 2 ^ 8
  | Bc.LdU16 n => 0 ≤ n < 2 ^ 16
  | Bc.LdU32 n => 0 ≤ n < 2 ^ 32
  | Bc.LdU64 n => 0 ≤ n < 2 ^ 64
  | Bc.LdU128 n => 0 ≤ n < 2 ^ 128
  | Bc.LdU256 n => 0 ≤ n < 2 ^ 256
  | Bc.VecPack _ num | Bc.VecUnpack _ num => 0 ≤ num < 2 ^ 64
  | _ => True
  end.
Record module_sized (m : CompiledModule) : Prop := {
  ms_code : ∀ def code, def ∈ cm_function_defs m → def_code def = Some code →
    (length (cu_code code) ≤ u16_MAX)%nat ∧ Forall operands_ok (cu_code code);
  ms_fields : ∀ sd fields, sd ∈ cm_struct_defs m → sd_field_information sd = Declared fields →
    (length fields ≤ 255)%nat;
}.

(** * Program points *)

Section points.
Context (m : CompiledModule) (f : FunctionView) (order : list nat).
Context (abil : list AbilitySet) (inv : gmap nat (list LocalState)).

(** Before the instruction at [pc], the stack has the types [k] and the locals
    the states [ls]: the rest of the block runs from there. *)
Definition at_pc (pc : nat) (k : list SignatureToken) (ls : list LocalState) : Prop :=
  ∃ b bb post, b ∈ order ∧ cfg_blocks (fv_cfg f) !! b = Some bb ∧ (b ≤ pc ≤ bb_exit bb)%nat ∧
    type_steps m f (seq pc (S (bb_exit bb) - pc)) k [] ∧
    local_steps abil (fv_code f) (seq pc (S (bb_exit bb) - pc)) ls = Some post ∧
    ∀ s, s ∈ bb_successors bb → ∃ pre, inv !! s = Some pre ∧ Forall2 local_leq post pre.

(** Where control goes after an instruction that neither returns nor aborts. *)
Definition flows (pc : nat) (i : Bytecode) (pc' : nat) : Prop :=
  is_unconditional_branch i = false ∧ pc' = S pc ∨ branch_offset i = Some pc'.

Context (Hview : view_ok f order) (Hsafe : locals_safe m f order abil inv) (Htyped : blocks_typed m f).
Context (Hend : ∃ i, last (fv_code f) = Some i ∧ is_unconditional_branch i = true).

Lemma at_block b k :
  b ∈ order → inv !! b = Some k → at_pc b [] k.
Proof.
  intros Hb Hk. destruct (lf_block _ _ _ _ _ Hsafe b Hb) as (bb & pre & post & Hbb & Hpre & _ & Hst & Hsucc).
  simplify_eq. exists b, bb, post. split_and!; [done|done|lia| |by apply Htyped|done|done].
  apply (bo_range _ _ (vo_blocks _ _ Hview) _ _ Hbb).
Qed.

Lemma at_entry : ∃ k, at_pc 0 [] k ∧ Forall2 local_leq (initial_locals f) k.
Proof.
  destruct (lf_entry _ _ _ _ _ Hsafe) as (k & Hk & Hle). exists k. split; [|done].
  apply at_block; [|done]. eapply list_elem_of_lookup_2, (to_head _ _ (vo_order _ _ Hview)).
Qed.

(** The successors of a block are where its last instruction can go. *)
Lemma exit_successors b bb i pc' :
  cfg_blocks (fv_cfg f) !! b = Some bb → fv_code f !! bb_exit bb = Some i →
  flows (bb_exit bb) i pc' → pc' ∈ bb_successors bb.
Proof.
  intros Hbb Hi Hflow. pose proof (bo_succ _ _ (vo_blocks _ _ Hview) _ _ Hbb) as Hsucc.
  destruct (get_successors_ok _ _ _ (vo_code _ _ Hview) Hi) as (l & Hl & Hin).
  rewrite Hsucc in Hl. injection Hl as <-. apply Hin.
  destruct Hflow as [[Hu ->]|Ho]; [right|by left]. split_and!; [done| |done].
  pose proof (bo_range _ _ (vo_blocks _ _ Hview) _ _ Hbb) as [_ Hlt].
  destruct (decide (S (bb_exit bb) = length (fv_code f))) as [Heq|]; [|lia].
  destruct Hend as (j & Hj & Huj). rewrite last_lookup in Hj.
  replace (pred (length (fv_code f))) with (bb_exit bb) in Hj by lia. congruence.
Qed.

(** The instruction at a program point, its effect, and the points it leads to. *)
Lemma at_pc_step pc k ls :
  at_pc pc k ls →
  ∃ i k2 ls2, fv_code f !! pc = Some i ∧ type_step m f i k k2 ∧ local_step abil i ls = Some ls2 ∧
    (is_branch i = true → k2 = []) ∧
    ∀ pc', flows pc i pc' → ∃ ls', at_pc pc' k2 ls' ∧ Forall2 local_leq ls2 ls'.
Proof.
  intros (b & bb & post & Hb & Hbb & Hpc & Hty & Hls & Hsucc).
  replace (S (bb_exit bb) - pc)%nat with (S (bb_exit bb - pc)) in * by lia. simpl in Hty, Hls.
  inversion Hty as [|p i ps k1 k2 k3 Hi Hstep Hrest]; subst. rewrite Hi in Hls. simpl in Hls.
  destruct (local_step abil i ls) as [ls2|] eqn:Hstep2; simpl in Hls; [|done].
  exists i, k2, ls2. split_and!; [done..| |].
  - intros Hbr. destruct (decide (pc = bb_exit bb)) as [->|].
    + rewrite Nat.sub_diag in Hrest. by inversion Hrest.
    + pose proof (bo_inner _ _ (vo_blocks _ _ Hview) _ _ pc i Hbb ltac:(lia) Hi). congruence.
  - intros pc' Hflow. destruct (decide (pc = bb_exit bb)) as [->|Hne].
    + rewrite Nat.sub_diag in Hrest, Hls. simpl in Hls. inversion Hrest; subst. simplify_eq.
      pose proof (exit_successors _ _ _ _ Hbb Hi Hflow) as Hin.
      destruct (Hsucc pc' Hin) as (pre & Hpre & Hle). exists pre. split; [|done].
      apply at_block; [|done]. apply list_elem_of_lookup_1 in Hb as [j Hj].
      destruct (to_edge _ _ (vo_order _ _ Hview) j b bb pc' Hj Hbb Hin) as (j' & Hj' & _).
      by eapply list_elem_of_lookup_2.
    + pose proof (bo_inner _ _ (vo_blocks _ _ Hview) _ _ pc i Hbb ltac:(lia) Hi) as Hnb.
      assert (pc' = S pc) as ->.
      { destruct Hflow as [[_ ->]|Ho]; [done|]. by destruct i. }
      exists ls2. split; [|reflexivity]. exists b, bb, post.
      replace (S (bb_exit bb) - S pc)%nat with (bb_exit bb - pc)%nat by lia.
      split_and!; [done|done|lia|lia|done..].
Qed.
End points.

(** * The functions of a verified module *)

Record verified_function (m : CompiledModule) (def : FunctionDefinition) (code : CodeUnit)
    (f : FunctionView) (order : list nat) (abil : list AbilitySet) (inv : gmap nat (list LocalState)) : Prop := {
  vf_handle : ∃ fh, cm_function_handles m !! def_function def = Some fh ∧
    cm_signatures m !! fh_parameters fh = Some (fv_parameters f) ∧
    cm_signatures m !! fh_return fh = Some (fv_return f) ∧
    fv_type_parameters f = fh_type_parameters fh;
  vf_locals : cm_signatures m !! cu_locals code = Some (fv_locals f);
  vf_code : fv_code f = cu_code code;
  vf_view : view_ok f order;
  vf_end : ∃ i, last (fv_code f) = Some i ∧ is_unconditional_branch i = true;
  vf_safe : locals_safe m f order abil inv;
  vf_typed : blocks_typed m f;
}.

Lemma bounds_function m u def code :
  BoundsChecker_verify m = Ok u → def ∈ cm_function_defs m → def_code def = Some code →
  ∃ fh params locals,
    cm_function_handles m !! def_function def = Some fh ∧
    cm_signatures m !! fh_parameters fh = Some params ∧ cm_signatures m !! cu_locals code = Some locals ∧
    ∀ i, i ∈ cu_code code →
      check_bytecode m (length (fh_type_parameters fh)) (length locals + length params)
        (length (cu_code code)) i = Ok ().
Proof.
  intros Hb Hdef Hcode. unfold BoundsChecker_verify in Hb.
  repeat (apply and_then_Ok in Hb as (? & _ & Hb)).
  rewrite try_for_each_Ok in Hb. specialize (Hb def Hdef). unfold bounds_check_function_def in Hb.
  rewrite Hcode in Hb. apply and_then_Ok in Hb as (_ & _ & Hb).
  apply and_then_Ok in Hb as (fh & Hfh & Hb). apply and_then_Ok in Hb as (params & Hparams & Hb).
  unfold check_code in Hb. apply and_then_Ok in Hb as (_ & _ & Hb).
  apply and_then_Ok in Hb as (locals & Hlocals & Hb). apply and_then_Ok in Hb as (_ & _ & Hb).
  apply and_then_Ok in Hb as (_ & _ & Hb). rewrite try_for_each_Ok in Hb.
  unfold ok_or in *. repeat case_match; simplify_eq. by eexists _, _, _.
Qed.

(** Code in bounds that does not fall through. *)
Lemma verified_code m tps locals code :
  verify_fallthrough code = Ok () → (length code ≤ u16_MAX)%nat →
  (∀ i, i ∈ code → check_bytecode m tps locals (length code) i = Ok ()) →
  code_ok code ∧ (∃ i, last code = Some i ∧ is_unconditional_branch i = true) ∧
  ∀ p i, code !! p = Some i → locals_in_range locals i.
Proof.
  unfold verify_fallthrough. intros Hfall Hlen Hins. destruct (last code) as [i|] eqn:Hlast; [|done].
  apply ensure_Ok in Hfall. split_and!; [|by eexists|].
  - split; [by destruct code|done|]. intros b o Hb Ho. specialize (Hins b Hb).
    destruct b; simpl in *; simplify_eq; apply ensure_Ok in Hins; by apply Nat.ltb_lt.
  - intros p b Hb. specialize (Hins b (list_elem_of_lookup_2 _ _ _ Hb)).
    destruct b; simpl in *; try done; apply ensure_Ok in Hins; by apply Nat.ltb_lt.
Qed.

Section verified.
Context {M : Type} `{MeterTotal M}.
Context (passes : OtherPasses) (config : VerifierConfig) (m : CompiledModule).
Context (Hsized : module_sized m).

Lemma verify_common_ok f order (μ μ' : M) u :
  view_ok f order → (∀ p i, fv_code f !! p = Some i → counts_ok i) →
  verify_common passes config m f μ = Done (μ', Ok u) →
  blocks_typed m f ∧ ∃ abil inv, locals_safe m f order abil inv.
Proof.
  intros Hview Hcounts Hrun. unfold verify_common in Hrun. sem_inv.
  destruct (locals_verify_safe m f order Hview _ _ _ Hm2) as (s & _ & Hsafe).
  split; [|by eauto]. destruct a1. by eapply type_safety_blocks.
Qed.

Lemma control_flow_verified index def code fh view :
  cm_function_handles m !! def_function def = Some fh →
  control_flow_verify passes m index def code = Done (Ok view) →
  verify_fallthrough (cu_code code) = Ok () ∧ FunctionView_function m index code fh = Done view.
Proof using.
  clear. intros Hfh Hcf. unfold control_flow_verify, control_flow_v5_verify, function_handle_at in Hcf.
  rewrite Hfh in Hcf. simpl in Hcf. destruct (cm_version m <=? 5).
  - apply try_exec_Ok in Hcf as ([] & Hv5 & Hcf). apply try_exec_Ok in Hv5 as ([] & Hfall%Done_Ok_inj & _).
    by exec_inv.
  - apply try_exec_Ok in Hcf as ([] & Hfall%Done_Ok_inj & Hcf). exec_inv.
    by apply try_exec_Ok in Hcf as ([] & _ & [= ->]).
Qed.
Lemma verify_function_ok u index def code (μ μ' : M) n :
  BoundsChecker_verify m = Ok u → def ∈ cm_function_defs m → def_code def = Some code →
  verify_function passes config m index def μ = Done (μ', Ok n) →
  ∃ f order abil inv, verified_function m def code f order abil inv.
Proof.
  intros Hb Hdef Hcode Hrun. destruct (bounds_function _ _ _ _ Hb Hdef Hcode) as
    (fh & params & locals & Hfh & Hparams & Hlocals & Hins).
  destruct (ms_code _ Hsized def code Hdef Hcode) as [Hlen Hops].
  unfold verify_function in Hrun. rewrite Hcode in Hrun. sem_inv.
  select (control_flow_verify _ _ _ _ _ = _) (fun E => rename E into Hcf).
  apply (control_flow_verified _ _ _ _ _ Hfh) in Hcf as [Hfall Hfv].
  unfold FunctionView_function, signature_at in Hfv. exec_inv.
  destruct (verified_code _ _ _ _ Hfall Hlen Hins) as (Hok & Hlast & Hrange).
  destruct (cfg_new_ok _ Hok) as (cfg & order & Hcfg & Hblocks & Horder).
  rewrite Hcfg in Hv2. injection Hv2 as <-.
  match type of Hm6 with verify_common _ _ _ ?f _ = _ => set (view := f) in * end.
  assert (view_ok view order) as Hview.
  { split; [done|done|done|]. intros p i Hi. simpl. rewrite Nat.add_comm. by eapply Hrange. }
  eapply verify_common_ok in Hm6 as (Htyped & abil & inv & Hsafe); [|exact Hview|].
  2:{ intros p i Hi. rewrite Forall_lookup in Hops. specialize (Hops p i Hi). destruct i; simpl in *; try done; lia. }
  exists view, order, abil, inv. split; [|done..]. by eexists.
Qed.

Lemma verify_functions_ok u defs total (μ μ' : M) n :
  BoundsChecker_verify m = Ok u → (∀ p, p ∈ defs → p.2 ∈ cm_function_defs m) →
  verify_functions passes config m defs total μ = Done (μ', Ok n) →
  ∀ p code, p ∈ defs → def_code p.2 = Some code →
    ∃ f order abil inv, verified_function m p.2 code f order abil inv.
Proof.
  intros Hb. revert total μ. induction defs as [|[i def] defs IH]; intros total μ Hsub Hrun p code Hp Hcode;
    [by apply elem_of_nil in Hp|]. simpl in Hrun. sem_inv.
  apply elem_of_cons in Hp as [->|Hp].
  - eapply verify_function_ok; [done| |done|done]. apply (Hsub (i, def)). by left.
  - eapply IH; [|done..]. intros q Hq. apply Hsub. by right.
Qed.

(** Everything a verified module promises. *)
Record verified_module : Prop := {
  vm_bounds : BoundsChecker_verify m = Ok ();
  vm_duplication : DuplicationChecker_verify m = Done (Ok ());
  vm_signatures : SignatureChecker_verify m = Done (Ok ());
  vm_instructions : InstructionConsistency_verify m = Done (Ok ());
  vm_functions : ∀ def code, def ∈ cm_function_defs m → def_code def = Some code →
    ∃ f order abil inv, verified_function m def code f order abil inv;
}.
Lemma verify_module_ok (μ μ' : M) u :
  verify_module_with_config_metered passes config m μ = Done (μ', Ok u) → verified_module.
Proof.
  unfold verify_module_with_config_metered, CodeUnitVerifier_verify. intros Hrun. sem_inv.
  repeat match goal with a : unit |- _ => destruct a end. split; [done..|].
  intros def code Hdef Hcode. apply list_elem_of_lookup_1 in Hdef as [i Hi].
  select (verify_functions _ _ _ _ _ _ = _) (fun E => eapply (verify_functions_ok _ _ _ _ _ _) with (p := (i, def)) in E; eauto).
  - intros [j d]. rewrite elem_of_lookup_imap. intros (j' & d' & [= -> ->] & Hd). by eapply list_elem_of_lookup_2.
  - apply elem_of_lookup_imap. eauto.
Qed.
Lemma verify_module_not_recursive (μ μ' : M) u :
  verify_module_with_config_metered passes config m μ = Done (μ', Ok u) →
  RecursiveStructDefChecker (toposort passes) m = Ok ().
Proof using.
  unfold verify_module_with_config_metered. intros Hrun. sem_inv.
  repeat match goal with a : unit |- _ => destruct a end. done.
Qed.
End verified.
