(* ===== verification/VmValues.v ===== *)
(** Operations on runtime values and types: copying, comparing and casting
    values, locals, vectors and structs of
    [move-vm-types/src/values/values_impl.rs], and the runtime types and depth
    formulas of [move-vm-types/src/loaded_data/runtime_types.rs].

    A container that no reference points to has a count of one, so taking it
    over never fails and no write through a reference can change it; this is
    the case of every container of a program without references, which is what
    the interpreter is modelled on. *)
From S2P Require Import Prelude Objects Errors GasTables.
From S2P Require Import MoveValues GasMeter MoveIntegers.

(** * Copies *)

Fixpoint copy_value (v : ValueImpl) : vmresult ValueImpl :=
  match v with
  | VContainer c => c ←! Container_copy_value c; Ok (VContainer c)
  | _ => Ok v
  end
with Container_copy_value (c : Container) : vmresult Container :=
  let copy_all :=
    fix copy_all (r : list ValueImpl) : vmresult (list ValueImpl) :=
      match r with
      | [] => Ok []
      | v :: r => v ←! copy_value v; r ←! copy_all r; Ok (v :: r)
      end in
  match c with
  | Vec r => r ←! copy_all r; Ok (Vec r)
  | Struct r => r ←! copy_all r; Ok (Struct r)
  | Locals _ => Err Vm.UNKNOWN_INVARIANT_VIOLATION_ERROR
  | _ => Ok c
  end.

(** * Equality *)

(** [IndexedRef::equals] between a generic and a specialized container: the
    element of the specialized one, whether a value can be taken as one
    ([as_value_ref]), and the comparison. *)
Definition element_at (c : Container) (idx : nat) : option ValueImpl :=
  match c with
  | VecU8 r => U8 <$> r !! idx
  | VecU16 r => U16 <$> r !! idx
  | VecU32 r => U32 <$> r !! idx
  | VecU64 r => U64 <$> r !! idx
  | VecU128 r => U128 <$> r !! idx
  | VecU256 r => U256 <$> r !! idx
  | VecBool r => Bool <$> r !! idx
  | VecAddress r => Address <$> r !! idx
  | Locals _ | Vec _ | Struct _ => None
  end.
Definition as_value_ref (c : Container) (v : ValueImpl) : bool :=
  match c, v with
  | VecU8 _, U8 _ | VecU16 _, U16 _ | VecU32 _, U32 _ | VecU64 _, U64 _ | VecU128 _, U128 _
  | VecU256 _, U256 _ | VecBool _, Bool _ | VecAddress _, Address _ => true
  | _, _ => false
  end.
Definition primitive_eqb (v w : ValueImpl) : bool :=
  match v, w with
  | U8 l, U8 r | U16 l, U16 r | U32 l, U32 r | U64 l, U64 r | U128 l, U128 r | U256 l, U256 r
  | Address l, Address r => l =? r
  | Bool l, Bool r => Bool.eqb l r
  | _, _ => false
  end.
Definition mixed_equals (v : ValueImpl) (c : Container) (idx : nat) : exec (vmresult bool) :=
  if as_value_ref c v then w ← unwrap (element_at c idx); Done (Ok (primitive_eqb v w))
  else Done (Err Vm.INTERNAL_TYPE_ERROR).

Fixpoint list_eqb {A} (eqb : A → A → bool) (l r : list A) : bool :=
  match l, r with
  | [], [] => true
  | x :: l, y :: r => eqb x y && list_eqb eqb l r
  | _, _ => false
  end.

Fixpoint equals (v w : ValueImpl) {struct v} : exec (vmresult bool) :=
  match v, w with
  | U8 l, U8 r | U16 l, U16 r | U32 l, U32 r | U64 l, U64 r | U128 l, U128 r | U256 l, U256 r
  | Address l, Address r => Done (Ok (l =? r))
  | Bool l, Bool r => Done (Ok (Bool.eqb l r))
  | VContainer l, VContainer r => Container_equals l r
  | VContainerRef l, VContainerRef r => ContainerRef_equals l r
  | VIndexedRef l i, VIndexedRef r j => IndexedRef_equals l i r j
  | _, _ => Done (Err Vm.INTERNAL_TYPE_ERROR)
  end
with Container_equals (c d : Container) {struct c} : exec (vmresult bool) :=
  let equal_all :=
    fix equal_all (l r : list ValueImpl) : exec (vmresult bool) :=
      match l, r with
      | v1 :: l, v2 :: r =>
          same ←? equals v1 v2;
          if same : bool then equal_all l r else Done (Ok false)
      | _, _ => Done (Ok true)
      end in
  match c, d with
  | Vec l, Vec r | Struct l, Struct r =>
      if negb (length l =? length r)%nat then Done (Ok false) else equal_all l r
  | VecU8 l, VecU8 r | VecU16 l, VecU16 r | VecU32 l, VecU32 r | VecU64 l, VecU64 r
  | VecU128 l, VecU128 r | VecU256 l, VecU256 r | VecAddress l, VecAddress r =>
      Done (Ok (list_eqb Z.eqb l r))
  | VecBool l, VecBool r => Done (Ok (list_eqb Bool.eqb l r))
  | _, _ => Done (Err Vm.INTERNAL_TYPE_ERROR)
  end
with ContainerRef_equals (l r : ContainerRef) {struct l} : exec (vmresult bool) :=
  match l, r with
  | Local c, Local d | Local c, Global _ d | Global _ c, Local d | Global _ c, Global _ d =>
      Container_equals c d
  end
with indexed_equals (c : Container) (i : nat) (d : Container) (j : nat) {struct c} : exec (vmresult bool) :=
  let equal_at :=
    fix equal_at (l : list ValueImpl) (i : nat) (w : option ValueImpl) : exec (vmresult bool) :=
      match l, i with
      | [], _ => Panic
      | v :: _, O => match w with Some w => equals v w | None => mixed_equals v d j end
      | _ :: l, S i => equal_at l i w
      end in
  match c, d with
  | Vec r1, Vec r2 | Vec r1, Struct r2 | Vec r1, Locals r2
  | Struct r1, Vec r2 | Struct r1, Struct r2 | Struct r1, Locals r2
  | Locals r1, Vec r2 | Locals r1, Struct r2 | Locals r1, Locals r2 =>
      w ← unwrap (r2 !! j); equal_at r1 i (Some w)
  | VecU8 _, VecU8 _ | VecU16 _, VecU16 _ | VecU32 _, VecU32 _ | VecU64 _, VecU64 _
  | VecU128 _, VecU128 _ | VecU256 _, VecU256 _ | VecBool _, VecBool _ | VecAddress _, VecAddress _ =>
      v ← unwrap (element_at c i); w ← unwrap (element_at d j); Done (Ok (primitive_eqb v w))
  | Vec _, _ => Done (Err Vm.INTERNAL_TYPE_ERROR)
  | Locals r1, _ | Struct r1, _ => equal_at r1 i None
  | _, Locals r2 | _, Struct r2 =>
      v ← unwrap (element_at c i); w ← unwrap (r2 !! j);
      if as_value_ref c w then Done (Ok (primitive_eqb v w)) else Done (Err Vm.INTERNAL_TYPE_ERROR)
  | _, _ => Done (Err Vm.INTERNAL_TYPE_ERROR)
  end
with IndexedRef_equals (l : ContainerRef) (i : nat) (r : ContainerRef) (j : nat) {struct l} : exec (vmresult bool) :=
  match l, r with
  | Local c, Local d | Local c, Global _ d | Global _ c, Local d | Global _ c, Global _ d =>
      indexed_equals c i d j
  end.

(** * Casts ([VMValueCast]) *)

Definition as_u8 (v : ValueImpl) : vmresult Z :=
  match v with U8 x => Ok x | _ => Err Vm.INTERNAL_TYPE_ERROR end.
Definition as_u16 (v : ValueImpl) : vmresult Z :=
  match v with U16 x => Ok x | _ => Err Vm.INTERNAL_TYPE_ERROR end.
Definition as_u32 (v : ValueImpl) : vmresult Z :=
  match v with U32 x => Ok x | _ => Err Vm.INTERNAL_TYPE_ERROR end.
Definition as_u64 (v : ValueImpl) : vmresult Z :=
  match v with U64 x => Ok x | _ => Err Vm.INTERNAL_TYPE_ERROR end.
Definition as_u128 (v : ValueImpl) : vmresult Z :=
  match v with U128 x => Ok x | _ => Err Vm.INTERNAL_TYPE_ERROR end.
Definition as_u256 (v : ValueImpl) : vmresult Z :=
  match v with U256 x => Ok x | _ => Err Vm.INTERNAL_TYPE_ERROR end.
Definition as_bool (v : ValueImpl) : vmresult bool :=
  match v with Bool x => Ok x | _ => Err Vm.INTERNAL_TYPE_ERROR end.
Definition as_address (v : ValueImpl) : vmresult Z :=
  match v with Address x => Ok x | _ => Err Vm.INTERNAL_TYPE_ERROR end.
Definition as_integer (v : ValueImpl) : vmresult IntegerValue :=
  match v with
  | U8 x => Ok (I.U8 x) | U16 x => Ok (I.U16 x) | U32 x => Ok (I.U32 x)
  | U64 x => Ok (I.U64 x) | U128 x => Ok (I.U128 x) | U256 x => Ok (I.U256 x)
  | _ => Err Vm.INTERNAL_TYPE_ERROR
  end.
(** To a [Struct], as the values of its fields. *)
Definition as_struct (v : ValueImpl) : vmresult (list ValueImpl) :=
  match v with VContainer (Struct r) => Ok r | _ => Err Vm.INTERNAL_TYPE_ERROR end.
(** To a [Vector], as its container. *)
Definition as_vector (v : ValueImpl) : vmresult Container :=
  match v with VContainer c => Ok c | _ => Err Vm.INTERNAL_TYPE_ERROR end.

(** * Locals *)

Definition Locals_new (n : nat) : list ValueImpl := replicate n Invalid.
Definition copy_loc (locals : list ValueImpl) (idx : nat) : vmresult ValueImpl :=
  match locals !! idx with
  | Some Invalid => Err Vm.UNKNOWN_INVARIANT_VIOLATION_ERROR
  | Some v => copy_value v
  | None => Err Vm.VERIFIER_INVARIANT_VIOLATION
  end.
(** The value before, and the locals after.  The check for a container with
    other references to it passes, as every count is one. *)
Definition swap_loc (locals : list ValueImpl) (idx : nat) (x : ValueImpl)
    : vmresult (ValueImpl * list ValueImpl) :=
  match locals !! idx with
  | Some v => Ok (v, <[idx := x]> locals)
  | None => Err Vm.VERIFIER_INVARIANT_VIOLATION
  end.
Definition move_loc (locals : list ValueImpl) (idx : nat) : vmresult (ValueImpl * list ValueImpl) :=
  out ←! swap_loc locals idx Invalid;
  match out.1 with
  | Invalid => Err Vm.UNKNOWN_INVARIANT_VIOLATION_ERROR
  | _ => Ok out
  end.
Definition store_loc (locals : list ValueImpl) (idx : nat) (x : ValueImpl) : vmresult (list ValueImpl) :=
  out ←! swap_loc locals idx x; Ok out.2.
(** The values dropped; references are excluded. *)
Definition drop_all_values (locals : list ValueImpl) : list ValueImpl :=
  omap (λ v, match v with Invalid | VContainerRef _ | VIndexedRef _ _ => None | _ => Some v end) locals.

(** * Vectors and structs *)

Definition NFE_VECTOR_ERROR_BASE : Z := 0.
Definition VEC_UNPACK_PARITY_MISMATCH : Z := NFE_VECTOR_ERROR_BASE + 3.

(** [into_iter().map(value_as).collect()]. *)
Fixpoint collect {A} (cast : ValueImpl → vmresult A) (elements : list ValueImpl) : vmresult (list A) :=
  match elements with
  | [] => Ok []
  | v :: elements => x ←! cast v; l ←! collect cast elements; Ok (x :: l)
  end.
Definition Vector_pack (type_param : Ty.Type_) (elements : list ValueImpl) : vmresult ValueImpl :=
  match type_param with
  | Ty.U8 => l ←! collect as_u8 elements; Ok (VContainer (VecU8 l))
  | Ty.U16 => l ←! collect as_u16 elements; Ok (VContainer (VecU16 l))
  | Ty.U32 => l ←! collect as_u32 elements; Ok (VContainer (VecU32 l))
  | Ty.U64 => l ←! collect as_u64 elements; Ok (VContainer (VecU64 l))
  | Ty.U128 => l ←! collect as_u128 elements; Ok (VContainer (VecU128 l))
  | Ty.U256 => l ←! collect as_u256 elements; Ok (VContainer (VecU256 l))
  | Ty.Bool => l ←! collect as_bool elements; Ok (VContainer (VecBool l))
  | Ty.Address => l ←! collect as_address elements; Ok (VContainer (VecAddress l))
  | Ty.Signer | Ty.Vector _ | Ty.Struct _ | Ty.StructInstantiation _ _ => Ok (VContainer (Vec elements))
  | Ty.Reference _ | Ty.MutableReference _ | Ty.TyParam _ => Err Vm.UNKNOWN_INVARIANT_VIOLATION_ERROR
  end.
Definition check_elem_layout (ty : Ty.Type_) (v : Container) : vmresult unit :=
  match ty, v with
  | Ty.U8, VecU8 _ | Ty.U64, VecU64 _ | Ty.U16, VecU16 _ | Ty.U32, VecU32 _ | Ty.U128, VecU128 _
  | Ty.U256, VecU256 _ | Ty.Bool, VecBool _ | Ty.Address, VecAddress _ | Ty.Signer, Struct _
  | Ty.Vector _, Vec _ | Ty.Struct _, Vec _ | Ty.Signer, Vec _ | Ty.StructInstantiation _ _, Vec _ => Ok ()
  | _, _ => Err Vm.UNKNOWN_INVARIANT_VIOLATION_ERROR
  end.
(** The elements of a container as values; [unreachable!] for what is no vector. *)
Definition elements_of (c : Container) : exec (list ValueImpl) :=
  match c with
  | VecU8 r => Done (map U8 r)
  | VecU16 r => Done (map U16 r)
  | VecU32 r => Done (map U32 r)
  | VecU64 r => Done (map U64 r)
  | VecU128 r => Done (map U128 r)
  | VecU256 r => Done (map U256 r)
  | VecBool r => Done (map Bool r)
  | VecAddress r => Done (map Address r)
  | Vec r => Done r
  | Locals _ | Struct _ => Panic
  end.
(** [elem_views]: the elements a meter may look at. *)
Definition elem_views (c : Container) : list ValueImpl :=
  match c with Locals r | Struct r => r | _ => match elements_of c with Done l => l | _ => [] end end.
Definition Vector_unpack (c : Container) (type_param : Ty.Type_) (expected_num : Z)
    : exec (vmresult (list ValueImpl)) :=
  _ ←? Done (check_elem_layout type_param c);
  elements ← elements_of c;
  if expected_num =? Z.of_nat (length elements) then Done (Ok elements)
  else Done (Err (Vm.VECTOR_OPERATION_ERROR VEC_UNPACK_PARITY_MISMATCH)).

(** * Depth formulas *)

Record DepthFormula := { df_terms : list (nat * Z); df_constant : option Z }.
Definition DepthFormula_constant (c : Z) : DepthFormula := {| df_terms := []; df_constant := Some c |}.
Definition type_parameter (tparam : nat) : DepthFormula := {| df_terms := [(tparam, 0)]; df_constant := None |}.
Definition normalize (formulas : list DepthFormula) : DepthFormula :=
  let add_term (var_map : gmap nat Z) (term : nat * Z) :=
    <[term.1 := match var_map !! term.1 with Some prev => Z.max term.2 prev | None => term.2 end]> var_map in
  let step (acc : gmap nat Z * option Z) (formula : DepthFormula) :=
    (foldl add_term acc.1 (df_terms formula),
     match acc.2, df_constant formula with
     | c, None => c
     | None, Some c => Some c
     | Some c1, Some c2 => Some (Z.max c1 c2)
     end) in
  let acc := foldl step (∅, None) formulas in
  {| df_terms := btree_iter Nat.le acc.1; df_constant := acc.2 |}.
Definition df_add (f : DepthFormula) (c : Z) : DepthFormula :=
  {| df_terms := map (λ t, (t.1, saturating_add64 t.2 c)) (df_terms f);
     df_constant := (λ b, saturating_add64 b c) <$> df_constant f |}.
(** [map.remove]: a variable is used once. *)
Definition df_subst (f : DepthFormula) (m : gmap nat DepthFormula) : vmresult DepthFormula :=
  let base := match df_constant f with Some c => [DepthFormula_constant c] | None => [] end in
  formulas ←! (fix go (terms : list (nat * Z)) (m : gmap nat DepthFormula) : vmresult (list DepthFormula) :=
    match terms with
    | [] => Ok []
    | (t_i, c_i) :: terms =>
        u_form ←! ok_or (m !! t_i) Vm.UNKNOWN_INVARIANT_VIOLATION_ERROR;
        l ←! go terms (delete t_i m);
        Ok (df_add u_form c_i :: l)
    end) (df_terms f) m;
  Ok (normalize (base ++ formulas)).
Definition df_solve (f : DepthFormula) (tparam_depths : list Z) : vmresult Z :=
  (fix go (terms : list (nat * Z)) (depth : Z) : vmresult Z :=
     match terms with
     | [] => Ok depth
     | (t_i, c_i) :: terms =>
         ty_depth ←! ok_or (tparam_depths !! t_i) Vm.UNKNOWN_INVARIANT_VIOLATION_ERROR;
         go terms (Z.max depth (saturating_add64 ty_depth c_i))
     end) (df_terms f) (default 0 (df_constant f)).
