(* ===== verification/VmLoader.v ===== *)
(** Loading a verified module: [add_module] and [make_type] of [ModuleCache],
    [LoadedModule::new], [Function::new] and the [Resolver] of
    [move-vm-runtime/src/loader.rs], for the tables of [MoveModule].

    The cache is that of one link context.  The type arguments of generic code
    are left out, and so are the pointers to native functions, which stand
    behind the argument [call_native] of the interpreter; that they exist is
    checked before, by [check_natives].  The interpreter relies on the loader
    through the class [LoaderContract], which is proved of what loading a
    verified module returns. *)
From S2P Require Import Prelude Objects Errors GasTables.
From S2P Require Import MoveValues GasMeter MoveIntegers MoveModule.
From S2P Require Import VmMonad VmValues.

Definition ModuleId : Type := Z * string.

(** What [add_module] uses of the store: the module that first defined a struct. *)
Record DataStore := { defining_module : ModuleId → string → vmresult ModuleId }.

Record StructType := {
  st_fields : list Ty.Type_;
  st_field_names : list string;
  st_abilities : AbilitySet;
  st_defining_id : ModuleId;
  st_type_parameters : list StructTypeParameter;
  st_name : string;
  st_runtime_id : ModuleId;
  st_struct_def : nat;
  st_depth : option DepthFormula;
}.
Record Function := {
  fn_index : nat;
  fn_code : list Bytecode;
  fn_parameters : nat;
  fn_return : nat;
  fn_type_parameters : list AbilitySet;
  fn_def_is_native : bool;
  fn_module : ModuleId;
  fn_name : string;
  fn_parameters_len : nat;
  fn_locals_len : nat;
  fn_return_len : nat;
}.
Record StructDef := { lsd_field_count : Z; lsd_idx : nat }.
Record LoadedModule := {
  lm_struct_refs : list nat;
  lm_structs : list StructDef;
  lm_function_refs : list nat;
  lm_function_map : gmap string nat;
  lm_single_signature_token_map : gmap nat Ty.Type_;
}.
(** [structs] is a [BinaryCache]: an index by key, and the entries. *)
Record ModuleCache := {
  mc_loaded_modules : gmap ModuleId LoadedModule;
  mc_struct_ids : gmap (ModuleId * string) nat;
  mc_structs : list StructType;
  mc_functions : list Function;
}.
Definition ModuleCache_new : ModuleCache :=
  {| mc_loaded_modules := ∅; mc_struct_ids := ∅; mc_structs := []; mc_functions := [] |}.
Definition set_structs (c : ModuleCache) (structs : list StructType) : ModuleCache :=
  {| mc_loaded_modules := mc_loaded_modules c; mc_struct_ids := mc_struct_ids c;
     mc_structs := structs; mc_functions := mc_functions c |}.
Definition set_functions (c : ModuleCache) (functions : list Function) : ModuleCache :=
  {| mc_loaded_modules := mc_loaded_modules c; mc_struct_ids := mc_struct_ids c;
     mc_structs := mc_structs c; mc_functions := functions |}.
(** [structs.insert]. *)
Definition insert_struct (c : ModuleCache) (key : ModuleId * string) (st : StructType) : ModuleCache :=
  {| mc_loaded_modules := mc_loaded_modules c;
     mc_struct_ids := <[key := length (mc_structs c)]> (mc_struct_ids c);
     mc_structs := mc_structs c ++ [st]; mc_functions := mc_functions c |}.

(** * Names *)

Definition identifier_at (m : CompiledModule) (idx : nat) : exec string := unwrap (cm_identifiers m !! idx).
(** [module_id_for_handle]. *)
Definition module_id_at (m : CompiledModule) (idx : nat) : exec ModuleId :=
  mh ← unwrap (cm_module_handles m !! idx);
  address ← unwrap (cm_address_identifiers m !! mh_address mh);
  name ← identifier_at m (mh_name mh);
  Done (address, name).
Definition self_id (m : CompiledModule) : exec ModuleId := module_id_at m (cm_self_module_handle_idx m).

Definition resolve_struct_by_name (c : ModuleCache) (struct_name : string) (runtime_id : ModuleId)
    : vmresult (nat * StructType) :=
  match mc_struct_ids c !! (runtime_id, struct_name) with
  | Some idx =>
      match mc_structs c !! idx with
      | Some st => Ok (idx, st)
      | None => Err Vm.TYPE_RESOLUTION_FAILURE
      end
  | None => Err Vm.TYPE_RESOLUTION_FAILURE
  end.
Definition resolve_function_by_name (c : ModuleCache) (func_name : string) (runtime_id : ModuleId)
    : vmresult nat :=
  match mc_loaded_modules c !! runtime_id with
  | Some lm => ok_or (lm_function_map lm !! func_name) Vm.FUNCTION_RESOLUTION_FAILURE
  | None => Err Vm.FUNCTION_RESOLUTION_FAILURE
  end.

(** * Types *)

(** The struct a handle names, as an index of the cache. *)
Definition resolve_struct_handle (c : ModuleCache) (m : CompiledModule) (sh_idx : nat) : exec (vmresult nat) :=
  struct_handle ← struct_handle_at m sh_idx;
  struct_name ← identifier_at m (sh_name struct_handle);
  runtime_id ← module_id_at m (sh_module struct_handle);
  Done (out ←! resolve_struct_by_name c struct_name runtime_id; Ok out.1).
Fixpoint make_type (c : ModuleCache) (m : CompiledModule) (tok : SignatureToken) : exec (vmresult Ty.Type_) :=
  match tok with
  | ST.Bool => Done (Ok Ty.Bool)
  | ST.U8 => Done (Ok Ty.U8)
  | ST.U16 => Done (Ok Ty.U16)
  | ST.U32 => Done (Ok Ty.U32)
  | ST.U64 => Done (Ok Ty.U64)
  | ST.U128 => Done (Ok Ty.U128)
  | ST.U256 => Done (Ok Ty.U256)
  | ST.Address => Done (Ok Ty.Address)
  | ST.Signer => Done (Ok Ty.Signer)
  | ST.TypeParameter idx => Done (Ok (Ty.TyParam idx))
  | ST.Vector inner_tok => t ←? make_type c m inner_tok; Done (Ok (Ty.Vector t))
  | ST.Reference inner_tok => t ←? make_type c m inner_tok; Done (Ok (Ty.Reference t))
  | ST.MutableReference inner_tok => t ←? make_type c m inner_tok; Done (Ok (Ty.MutableReference t))
  | ST.Struct sh_idx => def_idx ←? resolve_struct_handle c m sh_idx; Done (Ok (Ty.Struct def_idx))
  | ST.StructInstantiation sh_idx tys =>
      type_parameters ←?
        (fix go (tys : list SignatureToken) : exec (vmresult (list Ty.Type_)) :=
           match tys with
           | [] => Done (Ok [])
           | ty :: tys => t ←? make_type c m ty; l ←? go tys; Done (Ok (t :: l))
           end) tys;
      def_idx ←? resolve_struct_handle c m sh_idx;
      Done (Ok (Ty.StructInstantiation def_idx type_parameters))
  end.
(** [iter().map(..).collect()]. *)
Fixpoint collect_try {A B} (f : A → exec (vmresult B)) (l : list A) : exec (vmresult (list B)) :=
  match l with
  | [] => Done (Ok [])
  | x :: l => y ←? f x; k ←? collect_try f l; Done (Ok (y :: k))
  end.

(** * The depth of types *)

(** The code that calculates depths writes to a cache of the formulas. *)
Definition depth_sem (A : Type) : Type := sem (gmap nat DepthFormula) A.

Section depth.
Context (c : ModuleCache) (depth_of_struct : StructType → depth_sem DepthFormula).
Fixpoint calculate_depth_of_type (ty : Ty.Type_) : depth_sem DepthFormula :=
  (match ty with
   | Ty.Bool | Ty.U8 | Ty.U64 | Ty.U128 | Ty.Address | Ty.Signer | Ty.U16 | Ty.U32 | Ty.U256 =>
       sret (DepthFormula_constant 1)
   | Ty.Vector ty | Ty.Reference ty | Ty.MutableReference ty =>
       inner ← calculate_depth_of_type ty; sret (df_add inner 1)
   | Ty.TyParam ty_idx => sret (type_parameter ty_idx)
   | Ty.Struct cache_idx =>
       struct_type ← sexec (unwrap (mc_structs c !! cache_idx)); depth_of_struct struct_type
   | Ty.StructInstantiation cache_idx ty_args =>
       struct_type ← sexec (unwrap (mc_structs c !! cache_idx));
       formulas ← (fix go (tys : list Ty.Type_) : depth_sem (list DepthFormula) :=
         match tys with
         | [] => sret []
         | ty :: tys => f ← calculate_depth_of_type ty; l ← go tys; sret (f :: l)
         end) ty_args;
       struct_formula ← depth_of_struct struct_type;
       sresult (df_subst struct_formula (list_to_map (imap pair formulas)))
   end)%sem.
Fixpoint calculate_depth_of_types (tys : list Ty.Type_) : depth_sem (list DepthFormula) :=
  match tys with
  | [] => sret []
  | ty :: tys =>
      (f ← calculate_depth_of_type ty; l ← calculate_depth_of_types tys; sret (f :: l))%sem
  end.
End depth.

Fixpoint calculate_depth_of_struct (fuel : nat) (c : ModuleCache) (struct_type : StructType)
    : depth_sem DepthFormula :=
  match fuel with
  | O => λ _, OutOfFuel
  | S fuel =>
      (found ← sresult (resolve_struct_by_name c (st_name struct_type) (st_runtime_id struct_type));
       let def_idx := found.1 in
       match st_depth struct_type with
       | Some form => sret form
       | None =>
           cached ← sget (λ depth_cache : gmap nat DepthFormula, depth_cache !! def_idx);
           match cached with
           | Some form => sret form
           | None =>
               formulas ← calculate_depth_of_types c (calculate_depth_of_struct fuel c) (st_fields struct_type);
               let formula := df_add (normalize formulas) 1 in
               prev ← sget (λ depth_cache : gmap nat DepthFormula, depth_cache !! def_idx);
               smodify (λ depth_cache, <[def_idx := formula]> depth_cache);;
               match prev with
               | Some _ => serr Vm.UNKNOWN_INVARIANT_VIOLATION_ERROR
               | None => sret formula
               end
           end
       end)%sem
  end.

(** * Functions and modules *)

(** [Function::new]. *)
Definition Function_new (index : nat) (def : FunctionDefinition) (m : CompiledModule) : exec Function :=
  handle ← function_handle_at m (def_function def);
  name ← identifier_at m (fh_name handle);
  module_id ← self_id m;
  parameters ← signature_at m (fh_parameters handle);
  body ← match def_code def with
         | Some code => locals ← signature_at m (cu_locals code);
                        Done (cu_code code, length parameters + length locals)%nat
         | None => Done ([], 0%nat)
         end;
  return_ ← signature_at m (fh_return handle);
  Done {| fn_index := index; fn_code := body.1; fn_parameters := fh_parameters handle;
          fn_return := fh_return handle; fn_type_parameters := fh_type_parameters handle;
          fn_def_is_native := match def_code def with Some _ => false | None => true end;
          fn_module := module_id; fn_name := name; fn_parameters_len := length parameters;
          fn_locals_len := body.2; fn_return_len := length return_ |}.

(** The first loop of [add_module]: the structs that are new, and the
    signatures of their fields. *)
Definition add_struct (data_store : DataStore) (m : CompiledModule) (runtime_id : ModuleId)
    (acc : ModuleCache * list (list SignatureToken)) (def : nat * StructDefinition)
    : exec (vmresult (ModuleCache * list (list SignatureToken))) :=
  let '(idx, struct_def) := def in
  struct_handle ← struct_handle_at m (sd_struct_handle struct_def);
  name ← identifier_at m (sh_name struct_handle);
  let struct_key := (runtime_id, name) in
  match mc_struct_ids acc.1 !! struct_key with
  | Some _ => Done (Ok acc)
  | None =>
      field_names ← match sd_field_information struct_def with
                    | Native => Done []
                    | Declared field_info => mapM (λ f, identifier_at m (fd_name f)) field_info
                    end;
      defining_id ←? Done (defining_module data_store runtime_id name);
      let c := insert_struct acc.1 struct_key {|
        st_fields := []; st_field_names := field_names; st_abilities := sh_abilities struct_handle;
        st_defining_id := defining_id; st_type_parameters := sh_type_parameters struct_handle; st_name := name;
        st_runtime_id := runtime_id; st_struct_def := idx; st_depth := None |} in
      match sd_field_information struct_def with
      | Native => Panic
      | Declared fields => Done (Ok (c, acc.2 ++ [map fd_signature fields]))
      end
  end.
Definition set_fields (st : StructType) (fields : list Ty.Type_) : StructType :=
  {| st_fields := fields; st_field_names := st_field_names st; st_abilities := st_abilities st;
     st_defining_id := st_defining_id st; st_type_parameters := st_type_parameters st; st_name := st_name st;
     st_runtime_id := st_runtime_id st; st_struct_def := st_struct_def st; st_depth := st_depth st |}.
Definition set_depth (st : StructType) (depth : DepthFormula) : StructType :=
  {| st_fields := st_fields st; st_field_names := st_field_names st; st_abilities := st_abilities st;
     st_defining_id := st_defining_id st; st_type_parameters := st_type_parameters st; st_name := st_name st;
     st_runtime_id := st_runtime_id st; st_struct_def := st_struct_def st; st_depth := Some depth |}.
(** The fields of the structs at the end of the cache, lined up from the end. *)
Definition fill_fields (structs : list StructType) (field_types : list (list Ty.Type_)) : list StructType :=
  let old := (length structs - length field_types)%nat in
  take old structs ++ zip_with set_fields (drop old structs) field_types.
(** Calculate the depths of the new structs, from the last one. *)
Definition calculate_depths (fuel : nat) (c : ModuleCache) (n : nat) : depth_sem unit :=
  sfor (λ struct_type, calculate_depth_of_struct fuel c struct_type;; sret ())%sem
    (take n (rev (mc_structs c))).
Definition store_depths (structs : list StructType) (depth_cache : gmap nat DepthFormula) : list StructType :=
  imap (λ i st, match depth_cache !! i with Some d => set_depth st d | None => st end) structs.

(** The loop over [functions.iter().enumerate().rev()]: [None] when it ends
    without a match, in which case nothing is pushed. *)
Fixpoint find_function (functions : list (nat * Function)) (last_function : nat) (func_name : string)
    : vmresult (option nat) :=
  match functions with
  | [] => Ok None
  | (idx, function) :: functions =>
      if (idx <? last_function)%nat then Err Vm.FUNCTION_RESOLUTION_FAILURE
      else if bool_decide (fn_name function = func_name) then Ok (Some idx)
      else find_function functions last_function func_name
  end.
Definition resolve_function_handle (c : ModuleCache) (m : CompiledModule) (self : ModuleId)
    (last_function : nat) (func_handle : FunctionHandle) : exec (vmresult (option nat)) :=
  func_name ← identifier_at m (fh_name func_handle);
  runtime_id ← module_id_at m (fh_module func_handle);
  if decide (runtime_id = self) then
    Done (find_function (rev (imap pair (mc_functions c))) last_function func_name)
  else Done (idx ←! resolve_function_by_name c func_name runtime_id; Ok (Some idx)).

(** The types instructions on vectors name, of one function. *)
Definition add_single_type (c : ModuleCache) (m : CompiledModule)
    (types : gmap nat Ty.Type_) (bc : Bytecode) : exec (vmresult (gmap nat Ty.Type_)) :=
  match bc with
  | Bc.VecPack si _ | Bc.VecUnpack si _ =>
      match types !! si with
      | Some _ => Done (Ok types)
      | None =>
          sig ← signature_at m si;
          sig_token ←? Done (ok_or (sig !! 0%nat) Vm.VERIFIER_INVARIANT_VIOLATION);
          ty ←? make_type c m sig_token;
          Done (Ok (<[si := ty]> types))
      end
  | _ => Done (Ok types)
  end.
Definition add_function_def (c : ModuleCache) (m : CompiledModule) (function_refs : list nat)
    (acc : gmap string nat * gmap nat Ty.Type_) (func_def : FunctionDefinition)
    : exec (vmresult (gmap string nat * gmap nat Ty.Type_)) :=
  idx ← unwrap (function_refs !! def_function func_def);
  handle ← function_handle_at m (def_function func_def);
  name ← identifier_at m (fh_name handle);
  types ←? match def_code func_def with
           | Some code_unit => fold_try (add_single_type c m) acc.2 (cu_code code_unit)
           | None => Done (Ok acc.2)
           end;
  Done (Ok (<[name := idx]> acc.1, types)).

(** [LoadedModule::new]. *)
Definition LoadedModule_new (last_function : nat) (m : CompiledModule) (c : ModuleCache)
    : exec (vmresult LoadedModule) :=
  self ← self_id m;
  struct_refs ←? collect_try (resolve_struct_handle c m) (seq 0 (length (cm_struct_handles m)));
  structs ← mapM (λ struct_def,
    idx ← unwrap (struct_refs !! sd_struct_handle struct_def);
    st ← unwrap (mc_structs c !! idx);
    Done {| lsd_field_count := Z.of_nat (length (st_fields st)) mod 2 ^ 16; lsd_idx := idx |})
    (cm_struct_defs m);
  function_refs ←? collect_try (resolve_function_handle c m self last_function) (cm_function_handles m);
  let function_refs := omap id function_refs in
  maps ←? fold_try (add_function_def c m function_refs) (∅, ∅) (cm_function_defs m);
  Done (Ok {| lm_struct_refs := struct_refs; lm_structs := structs; lm_function_refs := function_refs;
              lm_function_map := maps.1; lm_single_signature_token_map := maps.2 |}).

(** [add_module]; the fuel bounds the nesting of the structs. *)
Definition add_module (fuel : nat) (data_store : DataStore) (c : ModuleCache) (m : CompiledModule)
    : exec (vmresult (ModuleCache * LoadedModule)) :=
  let last_function := length (mc_functions c) in
  runtime_id ← self_id m;
  added ←? fold_try (add_struct data_store m runtime_id) (c, []) (imap pair (cm_struct_defs m));
  let '(c, field_signatures) := added in
  field_types ←? collect_try (collect_try (make_type c m)) field_signatures;
  let c := set_structs c (fill_fields (mc_structs c) field_types) in
  depths ← calculate_depths fuel c (length field_types) ∅;
  _ ←? Done depths.2;
  let c := set_structs c (store_depths (mc_structs c) depths.1) in
  functions ← mapM (λ def, Function_new def.1 def.2 m) (imap pair (cm_function_defs m));
  let c := set_functions c (mc_functions c ++ functions) in
  loaded ←? LoadedModule_new last_function m c;
  Done (Ok ({| mc_loaded_modules := <[runtime_id := loaded]> (mc_loaded_modules c);
               mc_struct_ids := mc_struct_ids c; mc_structs := mc_structs c;
               mc_functions := mc_functions c |}, loaded)).

(** * Native functions *)

(** A table of native functions [F], by address, module and name. *)
Definition natives_resolve {F} (natives : gmap Z (gmap string (gmap string F)))
    (addr : Z) (module_name func_name : string) : option F :=
  modules ← natives !! addr; functions ← modules !! module_name; functions !! func_name.
(** [Loader::check_natives], without the feature [lazy_natives]: all native
    functions are known, and there are no native structs. *)
Definition check_natives {F} (natives : gmap Z (gmap string (gmap string F))) (m : CompiledModule)
    : exec (vmresult unit) :=
  _ ←? for_each (λ native_function,
         fh ← function_handle_at m (def_function native_function);
         mh ← unwrap (cm_module_handles m !! fh_module fh);
         address ← unwrap (cm_address_identifiers m !! mh_address mh);
         module_name ← identifier_at m (mh_name mh);
         func_name ← identifier_at m (fh_name fh);
         Done (_ ←! ok_or (natives_resolve natives address module_name func_name) Vm.MISSING_DEPENDENCY; Ok ()))
       (filter (λ def, def_code def = None) (cm_function_defs m));
  Done (try_for_each (λ struct_def,
    match sd_field_information struct_def with
    | Native => Err Vm.MISSING_DEPENDENCY
    | Declared _ => Ok ()
    end) (cm_struct_defs m)).

(** * The resolver *)

Definition function_from_handle (c : ModuleCache) (lm : LoadedModule) (idx : nat) : exec Function :=
  i ← unwrap (lm_function_refs lm !! idx); unwrap (mc_functions c !! i).
Definition get_struct_type (lm : LoadedModule) (idx : nat) : exec Ty.Type_ :=
  sd ← unwrap (lm_structs lm !! idx); Done (Ty.Struct (lsd_idx sd)).
Definition field_count (lm : LoadedModule) (idx : nat) : exec Z :=
  sd ← unwrap (lm_structs lm !! idx); Done (lsd_field_count sd).
(** Without type arguments. *)
Definition instantiate_single_type (lm : LoadedModule) (idx : nat) : exec Ty.Type_ :=
  unwrap (lm_single_signature_token_map lm !! idx).
