(* ===== verification/Interpreter.v ===== *)
(** The bytecode interpreter: [move-vm-runtime/src/interpreter.rs], on the
    instructions of [MoveModule], with the gas meter of [GasMeter] and a module
    of the loader.

    The operand stack has its top first, and the call stack the most recent
    frame first.  Frames carry no type arguments.  Code locations of errors and
    the rewriting of verification errors in core dumps are left out, native
    functions are an argument ([call_native]).  One unit of fuel is one
    instruction, and one more a call or a return. *)
From S2P Require Import Prelude Objects Errors GasTables.
From S2P Require Import MoveValues GasMeter MoveIntegers MoveModule.
From S2P Require Import VmMonad VmValues VmLoader.

Definition OPERAND_STACK_SIZE_LIMIT : nat := 1024.
Definition CALL_STACK_SIZE_LIMIT : nat := 1024.

Record Frame := { fr_pc : nat; fr_locals : list ValueImpl; fr_function : Function }.
(** The current frame, the operand stack and the meter. *)
Record Machine := { mc_frame : Frame; mc_stack : list ValueImpl; mc_gas : GasStatus }.
Definition vmsem (A : Type) : Type := sem Machine A.

Inductive ExitCode := ExitReturn | ExitCall (fh_idx : nat).
Inductive InstrRet := RetOk | RetExitCode (code : ExitCode) | RetBranch.

Definition set_stack (stack : list ValueImpl) (s : Machine) : Machine :=
  {| mc_frame := mc_frame s; mc_stack := stack; mc_gas := mc_gas s |}.
Definition set_frame (f : Frame) (s : Machine) : Machine :=
  {| mc_frame := f; mc_stack := mc_stack s; mc_gas := mc_gas s |}.
Definition set_gas (g : GasStatus) (s : Machine) : Machine :=
  {| mc_frame := mc_frame s; mc_stack := mc_stack s; mc_gas := g |}.
Definition with_pc (pc : nat) (f : Frame) : Frame :=
  {| fr_pc := pc; fr_locals := fr_locals f; fr_function := fr_function f |}.
Definition with_locals (locals : list ValueImpl) (f : Frame) : Frame :=
  {| fr_pc := fr_pc f; fr_locals := locals; fr_function := fr_function f |}.

(** * The operand stack *)

Definition push_value (v : ValueImpl) : vmsem unit :=
  (stack ← sget mc_stack;
   if (length stack <? OPERAND_STACK_SIZE_LIMIT)%nat then smodify (set_stack (v :: stack))
   else serr Vm.EXECUTION_STACK_OVERFLOW)%sem.
Definition pop_value : vmsem ValueImpl :=
  (stack ← sget mc_stack;
   match stack with
   | v :: stack => smodify (set_stack stack);; sret v
   | [] => serr Vm.EMPTY_VALUE_STACK
   end)%sem.
Definition pop_as {T} (cast : ValueImpl → vmresult T) : vmsem T :=
  (v ← pop_value; sresult (cast v))%sem.
(** [popn]: the values with the deepest first. *)
Definition popn (n : nat) : vmsem (list ValueImpl) :=
  (stack ← sget mc_stack;
   if (length stack <? n)%nat then serr Vm.EMPTY_VALUE_STACK
   else smodify (set_stack (drop n stack));; sret (rev (take n stack)))%sem.
Definition last_n (n : nat) : vmsem (list ValueImpl) :=
  (stack ← sget mc_stack;
   if (length stack <? n)%nat then serr Vm.EMPTY_VALUE_STACK
   else sret (rev (take n stack)))%sem.
Definition push_all (vs : list ValueImpl) : vmsem unit := sfor push_value vs.

(** A call of the meter; [?] turns its error into that of the VM. *)
Definition meter_charge (call : metered_call) : vmsem unit := λ s,
  out ← call (mc_gas s);
  Done (set_gas out.1 s, match out.2 with Ok u => Ok u | Err e => Err (Vm.Gas e) end).

Definition binop {T} (cast : ValueImpl → vmresult T) (f : T → T → vmresult ValueImpl) : vmsem unit :=
  (rhs ← pop_as cast; lhs ← pop_as cast; result ← sresult (f lhs rhs); push_value result)%sem.
Definition binop_int (f : IntegerValue → IntegerValue → vmresult IntegerValue) : vmsem unit :=
  binop as_integer (λ lhs rhs, r ←! f lhs rhs; Ok (into_value r)).
Definition binop_bool {T} (cast : ValueImpl → vmresult T) (f : T → T → vmresult bool) : vmsem unit :=
  binop cast (λ lhs rhs, b ←! f lhs rhs; Ok (Bool b)).

(** * The depth of a type *)

Definition check_depth (max_depth current_depth additional_depth : Z) : vmresult Z :=
  let depth := saturating_add64 current_depth additional_depth in
  if max_depth <? depth then Err Vm.VM_MAX_VALUE_DEPTH_REACHED else Ok depth.
Fixpoint check_depth_of_type_impl (c : ModuleCache) (max_depth : Z) (ty : Ty.Type_) (current_depth : Z)
    : vmresult Z :=
  match ty with
  | Ty.Bool | Ty.U8 | Ty.U16 | Ty.U32 | Ty.U64 | Ty.U128 | Ty.U256 | Ty.Address | Ty.Signer =>
      check_depth max_depth current_depth 1
  | Ty.Reference ty | Ty.MutableReference ty | Ty.Vector ty =>
      d ←! check_depth max_depth current_depth 1; check_depth_of_type_impl c max_depth ty d
  | Ty.Struct si =>
      struct_type ←! ok_or (mc_structs c !! si) Vm.UNKNOWN_INVARIANT_VIOLATION_ERROR;
      formula ←! ok_or (st_depth struct_type) Vm.VM_MAX_VALUE_DEPTH_REACHED;
      d ←! df_solve formula [];
      check_depth max_depth current_depth d
  | Ty.StructInstantiation si ty_args =>
      ty_arg_depths ←!
        (fix go (tys : list Ty.Type_) : vmresult (list Z) :=
           match tys with
           | [] => Ok []
           | ty :: tys =>
               d ←! check_depth max_depth current_depth 0;
               x ←! check_depth_of_type_impl c max_depth ty d;
               l ←! go tys;
               Ok (x :: l)
           end) ty_args;
      struct_type ←! ok_or (mc_structs c !! si) Vm.UNKNOWN_INVARIANT_VIOLATION_ERROR;
      formula ←! ok_or (st_depth struct_type) Vm.VM_MAX_VALUE_DEPTH_REACHED;
      d ←! df_solve formula ty_arg_depths;
      check_depth max_depth current_depth d
  | Ty.TyParam _ => Err Vm.UNKNOWN_INVARIANT_VIOLATION_ERROR
  end.
(** [max_value_nest_depth] of the runtime limits. *)
Definition check_depth_of_type (c : ModuleCache) (max_value_nest_depth : option Z) (ty : Ty.Type_)
    : vmresult Z :=
  match max_value_nest_depth with
  | None => Ok 1
  | Some max_depth => check_depth_of_type_impl c max_depth ty 0
  end.

(** * Instructions *)

Definition simple (i : Instr.SimpleInstruction) : vmsem unit := meter_charge (charge_simple_instr i).
Definition get_locals : vmsem (list ValueImpl) := sget (λ s, fr_locals (mc_frame s)).
Definition set_locals (locals : list ValueImpl) : vmsem unit :=
  smodify (λ s, set_frame (with_locals locals (mc_frame s)) s).
Definition set_pc (pc : nat) : vmsem unit := smodify (λ s, set_frame (with_pc pc (mc_frame s)) s).
(** [*pc = *offset; return Ok(InstrRet::Branch)]. *)
Definition jump (offset : nat) : vmsem InstrRet := (set_pc offset;; sret RetBranch)%sem.

Section interpreter.
Context (c : ModuleCache) (lm : LoadedModule) (max_value_nest_depth : option Z).

Definition cast_integer (cast : IntegerValue → vmresult Z) (make : Z → ValueImpl) : vmsem unit :=
  (integer_value ← pop_as as_integer; x ← sresult (cast integer_value); push_value (make x))%sem.
Definition shift (f : IntegerValue → Z → vmresult IntegerValue) : vmsem unit :=
  (rhs ← pop_as as_u8; lhs ← pop_as as_integer; r ← sresult (f lhs rhs); push_value (into_value r))%sem.
Definition load (i : Instr.SimpleInstruction) (v : ValueImpl) : vmsem InstrRet :=
  (simple i;; push_value v;; sret RetOk)%sem.
Definition compare (charge : ValueImpl → ValueImpl → metered_call) (result : bool → bool) : vmsem InstrRet :=
  (lhs ← pop_value; rhs ← pop_value;
   meter_charge (charge lhs rhs);;
   r ← sexec (equals lhs rhs); same ← sresult r;
   push_value (Bool (result same));; sret RetOk)%sem.

Definition execute_instruction (instruction : Bytecode) : vmsem InstrRet :=
  (match instruction with
   | Bc.Pop => popped_val ← pop_value; meter_charge (charge_pop popped_val);; sret RetOk
   | Bc.Ret => simple Instr.Ret;; sret (RetExitCode ExitReturn)
   | Bc.BrTrue offset =>
       simple Instr.BrTrue;;
       taken ← pop_as as_bool;
       if taken : bool then jump offset else sret RetOk
   | Bc.BrFalse offset =>
       simple Instr.BrFalse;;
       taken ← pop_as as_bool;
       if negb taken then jump offset else sret RetOk
   | Bc.Branch offset => simple Instr.Branch;; jump offset
   | Bc.LdU8 n => load Instr.LdU8 (U8 n)
   | Bc.LdU16 n => load Instr.LdU16 (U16 n)
   | Bc.LdU32 n => load Instr.LdU32 (U32 n)
   | Bc.LdU64 n => load Instr.LdU64 (U64 n)
   | Bc.LdU128 n => load Instr.LdU128 (U128 n)
   | Bc.LdU256 n => load Instr.LdU256 (U256 n)
   | Bc.LdTrue => load Instr.LdTrue (Bool true)
   | Bc.LdFalse => load Instr.LdFalse (Bool false)
   | Bc.CopyLoc idx =>
       locals ← get_locals;
       local ← sresult (copy_loc locals idx);
       meter_charge (charge_copy_loc local);;
       push_value local;; sret RetOk
   | Bc.MoveLoc idx =>
       locals ← get_locals;
       out ← sresult (move_loc locals idx);
       set_locals out.2;;
       meter_charge (charge_move_loc out.1);;
       push_value out.1;; sret RetOk
   | Bc.StLoc idx =>
       value_to_store ← pop_value;
       meter_charge (charge_store_loc value_to_store);;
       locals ← get_locals;
       locals ← sresult (store_loc locals idx value_to_store);
       set_locals locals;; sret RetOk
   | Bc.Call idx => sret (RetExitCode (ExitCall idx))
   | Bc.Pack sd_idx =>
       count ← sexec (field_count lm sd_idx);
       struct_type ← sexec (get_struct_type lm sd_idx);
       sresult (check_depth_of_type c max_value_nest_depth struct_type);;
       fields ← last_n (Z.to_nat count);
       meter_charge (charge_pack fields);;
       args ← popn (Z.to_nat count);
       push_value (VContainer (Struct args));; sret RetOk
   | Bc.Unpack _ =>
       struct_ ← pop_as as_struct;
       meter_charge (charge_unpack struct_);;
       push_all struct_;; sret RetOk
   | Bc.CastU8 => simple Instr.CastU8;; cast_integer cast_u8 U8;; sret RetOk
   | Bc.CastU16 => simple Instr.CastU16;; cast_integer cast_u16 U16;; sret RetOk
   | Bc.CastU32 => simple Instr.CastU16;; cast_integer cast_u32 U32;; sret RetOk
   | Bc.CastU64 => simple Instr.CastU64;; cast_integer cast_u64 U64;; sret RetOk
   | Bc.CastU128 => simple Instr.CastU128;; cast_integer cast_u128 U128;; sret RetOk
   | Bc.CastU256 => simple Instr.CastU16;; cast_integer cast_u256 U256;; sret RetOk
   | Bc.Add => simple Instr.Add;; binop_int add_checked;; sret RetOk
   | Bc.Sub => simple Instr.Sub;; binop_int sub_checked;; sret RetOk
   | Bc.Mul => simple Instr.Mul;; binop_int mul_checked;; sret RetOk
   | Bc.Mod => simple Instr.Mod;; binop_int rem_checked;; sret RetOk
   | Bc.Div => simple Instr.Div;; binop_int div_checked;; sret RetOk
   | Bc.BitOr => simple Instr.BitOr;; binop_int bit_or;; sret RetOk
   | Bc.BitAnd => simple Instr.BitAnd;; binop_int bit_and;; sret RetOk
   | Bc.Xor => simple Instr.Xor;; binop_int bit_xor;; sret RetOk
   | Bc.Shl => simple Instr.Shl;; shift shl_checked;; sret RetOk
   | Bc.Shr => simple Instr.Shr;; shift shr_checked;; sret RetOk
   | Bc.Or => simple Instr.Or;; binop_bool as_bool (λ l r, Ok (l || r));; sret RetOk
   | Bc.And => simple Instr.And;; binop_bool as_bool (λ l r, Ok (l && r));; sret RetOk
   | Bc.Lt => simple Instr.Lt;; binop_bool as_integer int_lt;; sret RetOk
   | Bc.Gt => simple Instr.Gt;; binop_bool as_integer int_gt;; sret RetOk
   | Bc.Le => simple Instr.Le;; binop_bool as_integer int_le;; sret RetOk
   | Bc.Ge => simple Instr.Ge;; binop_bool as_integer int_ge;; sret RetOk
   | Bc.Abort =>
       simple Instr.Abort;; error_code ← pop_as as_u64; serr (Vm.ABORTED error_code)
   | Bc.Eq => compare charge_eq id
   | Bc.Neq => compare charge_neq negb
   | Bc.Not => simple Instr.Not;; value ← pop_as as_bool; push_value (Bool (negb value));; sret RetOk
   | Bc.Nop => simple Instr.Nop;; sret RetOk
   | Bc.VecPack si num =>
       ty ← sexec (instantiate_single_type lm si);
       sresult (check_depth_of_type c max_value_nest_depth ty);;
       args ← last_n (Z.to_nat num);
       meter_charge (charge_vec_pack args);;
       elements ← popn (Z.to_nat (num mod 2 ^ 16));
       value ← sresult (Vector_pack ty elements);
       push_value value;; sret RetOk
   | Bc.VecUnpack si num =>
       vec_val ← pop_as as_vector;
       ty ← sexec (instantiate_single_type lm si);
       meter_charge (charge_vec_unpack num (elem_views vec_val));;
       r ← sexec (Vector_unpack vec_val ty num);
       elements ← sresult r;
       push_all elements;; sret RetOk
   end)%sem.

(** * Frames and calls *)

(** [execute_code_impl]: instructions until one exits; the slice of the code
    from [pc] on panics beyond its end. *)
Fixpoint execute_code (fuel : nat) : vmsem ExitCode :=
  match fuel with
  | O => λ _, OutOfFuel
  | S fuel =>
      (frame ← sget mc_frame;
       let code := fn_code (fr_function frame) in
       match code !! fr_pc frame with
       | Some instruction =>
           r ← execute_instruction instruction;
           pc ← sget (λ s, fr_pc (mc_frame s));
           match r with
           | RetOk => sexec (assert (S pc <=? u16_MAX)%nat);; set_pc (S pc);; execute_code fuel
           | RetExitCode exit_code => sret exit_code
           | RetBranch => if (length code <=? pc)%nat then serr Vm.PC_OVERFLOW else execute_code fuel
           end
       | None => if (length code <? fr_pc frame)%nat then λ _, Panic else serr Vm.PC_OVERFLOW
       end)%sem
  end.

(** The arguments of a call become the first locals of the new frame. *)
Fixpoint store_args (n : nat) (locals : list ValueImpl) : vmsem (list ValueImpl) :=
  match n with
  | O => sret locals
  | S n => (v ← pop_value; locals ← sresult (store_loc locals n v); store_args n locals)%sem
  end.
Definition make_new_frame (function : Function) (locals : list ValueImpl) : Frame :=
  {| fr_pc := 0; fr_locals := locals; fr_function := function |}.
Definition make_call_frame (func : Function) : vmsem Frame :=
  (locals ← store_args (fn_parameters_len func) (Locals_new (fn_locals_len func));
   sret (make_new_frame func locals))%sem.
(** Past the [Call] instruction in the caller. *)
Definition advance_pc (f : Frame) : exec Frame :=
  assert (S (fr_pc f) <=? u16_MAX)%nat;; Done (with_pc (S (fr_pc f)) f).

Context (call_native : Function → vmsem unit).

(** The loop of [execute_main]: run the current frame until it returns or
    calls. *)
Fixpoint main_loop (code_fuel fuel : nat) (call_stack : list Frame) : vmsem (list ValueImpl) :=
  match fuel with
  | O => λ _, OutOfFuel
  | S fuel =>
      (exit_code ← execute_code code_fuel;
       current_frame ← sget mc_frame;
       match exit_code with
       | ExitReturn =>
           meter_charge (charge_drop_frame (drop_all_values (fr_locals current_frame)));;
           match call_stack with
           | frame :: call_stack =>
               frame ← sexec (advance_pc frame);
               smodify (set_frame frame);;
               main_loop code_fuel fuel call_stack
           | [] => sget mc_stack
           end
       | ExitCall fh_idx =>
           func ← sexec (function_from_handle c lm fh_idx);
           args ← last_n (fn_parameters_len func);
           meter_charge (charge_call args);;
           if fn_def_is_native func then
             call_native func;;
             frame ← sexec (advance_pc current_frame);
             smodify (set_frame frame);;
             main_loop code_fuel fuel call_stack
           else
             frame ← make_call_frame func;
             if (length call_stack <? CALL_STACK_SIZE_LIMIT)%nat then
               smodify (set_frame frame);;
               main_loop code_fuel fuel (current_frame :: call_stack)
             else serr Vm.CALL_STACK_OVERFLOW
       end)%sem
  end.

Fixpoint store_all (i : nat) (locals args : list ValueImpl) : vmresult (list ValueImpl) :=
  match args with
  | [] => Ok locals
  | v :: args => locals ←! store_loc locals i v; store_all (S i) locals args
  end.
(** [execute_main]: the values on the stack at the end, the first one deepest. *)
Definition execute_main (fuel : nat) (function : Function) (args : list ValueImpl) (gas : GasStatus)
    : exec (GasStatus * vmresult (list ValueImpl)) :=
  match store_all 0 (Locals_new (fn_locals_len function)) args with
  | Err e => Done (gas, Err e)
  | Ok locals =>
      out ← main_loop fuel fuel [] {| mc_frame := make_new_frame function locals; mc_stack := []; mc_gas := gas |};
      Done (mc_gas out.1, stack ←! out.2; Ok (rev stack))
  end.
End interpreter.
