(* ===== verification/ValueTyping.v ===== *)
(** Which runtime values a type has, for types without references, and what
    the operations on values do to values of a type: copies and moves keep it,
    comparisons never meet values they cannot compare, casts of an integer
    stay in range, packing and unpacking vectors and structs follow the types
    of their parts. *)
From S2P Require Import Prelude Objects Errors GasTables.
From S2P Require Import MoveValues GasMeter MoveIntegers MoveModule.
From S2P Require Import VmMonad AbstractStack CodeVerifier VmValues.

(** * Values of a type *)

(** The types of the fields of a struct, by its handle. *)
Definition struct_fields (m : CompiledModule) (handle : nat) : option (list SignatureToken) :=
  '(_, sd) ← list_find (λ sd, sd_struct_handle sd = handle) (cm_struct_defs m);
  match sd_field_information sd with
  | Declared fields => Some (map fd_signature fields)
  | Native => None
  end.
Definition exec_option {A} (e : exec A) : option A := match e with Done a => Some a | _ => None end.
Definition field_types (m : CompiledModule) (t : SignatureToken) : option (list SignatureToken) :=
  match t with
  | ST.Struct handle => struct_fields m handle
  | ST.StructInstantiation handle args =>
      fields ← struct_fields m handle; exec_option (mapM (instantiate_token args) fields)
  | ST.Signer => Some [ST.Address]
  | _ => None
  end.
(** The elements of a vector that is stored as a list of values. *)
Definition boxed (t : SignatureToken) : bool :=
  match t with
  | ST.Signer | ST.Vector _ | ST.Struct _ | ST.StructInstantiation _ _ => true
  | _ => false
  end.
Definition in_width (w z : Z) : Prop := 0 ≤ z < 2 ^ w.

Section typing.
Context (m : CompiledModule).

Fixpoint val_ok (v : ValueImpl) (t : SignatureToken) : Prop :=
  match v with
  | U8 z => t = ST.U8 ∧ in_width 8 z
  | U16 z => t = ST.U16 ∧ in_width 16 z
  | U32 z => t = ST.U32 ∧ in_width 32 z
  | U64 z => t = ST.U64 ∧ in_width 64 z
  | U128 z => t = ST.U128 ∧ in_width 128 z
  | U256 z => t = ST.U256 ∧ in_width 256 z
  | Bool _ => t = ST.Bool
  | Address _ => t = ST.Address
  | VContainer (Struct r) =>
      match field_types m t with
      | Some ts =>
          (fix fields_ok (r : list ValueImpl) (ts : list SignatureToken) : Prop :=
             match r, ts with
             | [], [] => True
             | v :: r, t :: ts => val_ok v t ∧ fields_ok r ts
             | _, _ => False
             end) r ts
      | None => False
      end
  | VContainer (Vec r) =>
      match t with
      | ST.Vector u =>
          boxed u = true ∧
          (fix elements_ok (r : list ValueImpl) : Prop :=
             match r with [] => True | v :: r => val_ok v u ∧ elements_ok r end) r
      | _ => False
      end
  | VContainer (VecU8 r) => t = ST.Vector ST.U8 ∧ Forall (in_width 8) r
  | VContainer (VecU16 r) => t = ST.Vector ST.U16 ∧ Forall (in_width 16) r
  | VContainer (VecU32 r) => t = ST.Vector ST.U32 ∧ Forall (in_width 32) r
  | VContainer (VecU64 r) => t = ST.Vector ST.U64 ∧ Forall (in_width 64) r
  | VContainer (VecU128 r) => t = ST.Vector ST.U128 ∧ Forall (in_width 128) r
  | VContainer (VecU256 r) => t = ST.Vector ST.U256 ∧ Forall (in_width 256) r
  | VContainer (VecBool _) => t = ST.Vector ST.Bool
  | VContainer (VecAddress _) => t = ST.Vector ST.Address
  | Invalid | VContainer (Locals _) | VContainerRef _ | VIndexedRef _ _ => False
  end.

Lemma val_ok_struct r t :
  val_ok (VContainer (Struct r)) t ↔ ∃ ts, field_types m t = Some ts ∧ Forall2 val_ok r ts.
Proof.
  simpl. destruct (field_types m t) as [ts|]; [|naive_solver].
  transitivity (Forall2 val_ok r ts); [|naive_solver].
  revert ts. induction r as [|v r IH]; intros [|u ts].
  - by split.
  - split; [done|]. by inversion 1.
  - split; [done|]. by inversion 1.
  - by rewrite Forall2_cons, IH.
Qed.
Lemma val_ok_vec r t :
  val_ok (VContainer (Vec r)) t ↔ ∃ u, t = ST.Vector u ∧ boxed u = true ∧ Forall (λ v, val_ok v u) r.
Proof.
  simpl. split.
  - destruct t as [| | | | | |u| | | | | | | |]; try done. intros [Hb Hr]. exists u. split_and!; [done..|].
    induction r as [|v r IH]; [done|]. destruct Hr. constructor; auto.
  - intros (u & -> & Hb & Hr). split; [done|]. induction Hr; [done|]. by split.
Qed.

(** Values of a type hold no moved-out value and no frame. *)
Lemma val_ok_visitable v t : val_ok v t → visitable v = true.
Proof.
  revert t. induction v as [r IH|r IH|v Hv] using ValueImpl_nested_ind; intros t.
  - rewrite val_ok_vec. intros (u & -> & _ & Hr). simpl. apply forallb_forall. intros v Hin%list_elem_of_In.
    rewrite Forall_forall in IH, Hr. eauto.
  - rewrite val_ok_struct. intros (ts & _ & Hr). simpl. apply forallb_forall. intros v Hin%list_elem_of_In.
    rewrite Forall_forall in IH. apply list_elem_of_lookup in Hin as [i Hi].
    destruct (Forall2_lookup_l _ _ _ _ _ Hr Hi) as (u & _ & Hu). eapply IH; [|done]. by eapply list_elem_of_lookup_2.
  - by destruct v as [| | | | | | | | |[]| |].
Qed.
Lemma val_ok_valid v t : val_ok v t → v ≠ Invalid.
Proof. by intros Hv ->. Qed.

Lemma copy_value_ok v t : val_ok v t → copy_value v = Ok v.
Proof.
  revert t. induction v as [r IH|r IH|v Hv] using ValueImpl_nested_ind; intros t.
  - rewrite val_ok_vec. intros (u & -> & _ & Hr). simpl.
    assert ((fix copy_all (r : list ValueImpl) : vmresult (list ValueImpl) :=
      match r with [] => Ok [] | v :: r => v ←! copy_value v; r ←! copy_all r; Ok (v :: r) end) r = Ok r) as ->; [|done].
    induction Hr as [|v r Hv Hr IHr]; [done|]. apply Forall_cons in IH as [IHv IHs].
    by rewrite (IHv _ Hv), (IHr IHs).
  - rewrite val_ok_struct. intros (ts & _ & Hr). simpl.
    assert ((fix copy_all (r : list ValueImpl) : vmresult (list ValueImpl) :=
      match r with [] => Ok [] | v :: r => v ←! copy_value v; r ←! copy_all r; Ok (v :: r) end) r = Ok r) as ->; [|done].
    induction Hr as [|v u r ts Hv Hr IHr]; [done|]. apply Forall_cons in IH as [IHv IHs].
    by rewrite (IHv _ Hv), (IHr IHs).
  - by destruct v as [| | | | | | | | |[]| |].
Qed.

(** Equality of two values of one type always returns, and is exact. *)
Definition decides_eq {A} (out : exec (vmresult bool)) (x y : A) : Prop :=
  ∃ b, out = Done (Ok b) ∧ (b = true ↔ x = y).

Lemma list_eqb_spec {A} (eqb : A → A → bool) (l r : list A) :
  (∀ x y, eqb x y = true ↔ x = y) → (list_eqb eqb l r = true ↔ l = r).
Proof.
  intros Heq. revert r. induction l as [|x l IH]; intros [|y r]; simpl; [done..|].
  rewrite andb_true_iff, Heq, IH. naive_solver.
Qed.
Lemma zlist_eqb_spec (l r : list Z) : list_eqb Z.eqb l r = true ↔ l = r.
Proof. apply list_eqb_spec, Z.eqb_eq. Qed.
Lemma blist_eqb_spec (l r : list bool) : list_eqb Bool.eqb l r = true ↔ l = r.
Proof. apply list_eqb_spec, Bool.eqb_true_iff. Qed.

(** The loop over the parts of two containers of one length. *)
Lemma equal_all_spec (r1 r2 : list ValueImpl) :
  length r1 = length r2 →
  Forall2 (λ v w, decides_eq (equals v w) v w) r1 r2 →
  decides_eq
    ((fix equal_all (l r : list ValueImpl) : exec (vmresult bool) :=
       match l, r with
       | v1 :: l, v2 :: r =>
           same ←? equals v1 v2; if same : bool then equal_all l r else Done (Ok false)
       | _, _ => Done (Ok true)
       end) r1 r2) r1 r2.
Proof.
  intros _ Hall. induction Hall as [|v w r1 r2 (b & Hb & Heq) Hall (b' & Hb' & Heq')]; [by exists true|].
  rewrite Hb. simpl. destruct b; [|exists false; naive_solver].
  rewrite Hb'. exists b'. naive_solver.
Qed.

Lemma equals_ok v w t : val_ok v t → val_ok w t → decides_eq (equals v w) v w.
Proof.
  revert w t. induction v as [r IH|r IH|v Hv] using ValueImpl_nested_ind; intros w t.
  - rewrite val_ok_vec. intros (u & -> & Hb & Hr) Hw.
    destruct w as [| | | | | | | | |[r2|r2|r2| | | | | | | |]| |]; try done;
      try (simpl in Hw; first [by simplify_eq|by destruct Hw as [? _]; simplify_eq]).
    apply val_ok_vec in Hw as (u' & [= <-] & _ & Hr2). simpl.
    destruct (Nat.eqb_spec (length r) (length r2)) as [Hlen|Hne]; simpl; [|exists false; naive_solver].
    destruct (equal_all_spec r r2 Hlen) as (b & Hrun & Heq); [|exists b; naive_solver].
    apply Forall2_same_length_lookup_2; [done|]. intros i x y Hx Hy. rewrite Forall_forall in IH, Hr, Hr2.
    eapply IH; [by eapply list_elem_of_lookup_2|apply Hr|apply Hr2]; by eapply list_elem_of_lookup_2.
  - rewrite val_ok_struct. intros (ts & Hts & Hr) Hw.
    destruct w as [| | | | | | | | |[r2|r2|r2| | | | | | | |]| |]; try done;
      try (simpl in Hw; first [by subst t|by destruct Hw as [-> _]]).
    { apply val_ok_vec in Hw as (u & -> & _). done. }
    apply val_ok_struct in Hw as (ts' & Hts' & Hr2). simplify_eq. simpl.
    assert (length r = length r2) as Hlen by (apply Forall2_length in Hr, Hr2; congruence).
    rewrite Hlen, Nat.eqb_refl. simpl.
    destruct (equal_all_spec r r2 Hlen) as (b & Hrun & Heq); [|exists b; naive_solver].
    apply Forall2_same_length_lookup_2; [done|]. intros i x y Hx Hy. rewrite Forall_forall in IH.
    destruct (Forall2_lookup_l _ _ _ _ _ Hr Hx) as (u & Hu & Hxu).
    destruct (Forall2_lookup_l _ _ _ _ _ Hr2 Hy) as (u' & Hu' & Hyu). simplify_eq.
    eapply IH; [by eapply list_elem_of_lookup_2|done..].
  - intros Hvt Hwt. destruct v as [| | | | | | | | |[]| |]; try done; simpl in Hvt;
      first [subst t|destruct Hvt as [-> _]];
      destruct w as [| | | | | | | | |[]| |]; try done; simpl in Hwt; try (by destruct Hwt);
      (eexists; split; [done|]).
    all: rewrite ?Z.eqb_eq, ?Bool.eqb_true_iff, ?zlist_eqb_spec, ?blist_eqb_spec; naive_solver.
Qed.

(** * Integers *)

Definition int_type (v : IntegerValue) : SignatureToken :=
  match v with
  | I.U8 _ => ST.U8 | I.U16 _ => ST.U16 | I.U32 _ => ST.U32
  | I.U64 _ => ST.U64 | I.U128 _ => ST.U128 | I.U256 _ => ST.U256
  end.
Lemma int_type_bits a b : int_type a = int_type b ↔ int_bits a = int_bits b.
Proof. by destruct a, b. Qed.
Lemma into_value_ok v : int_ok v → val_ok (into_value v) (int_type v).
Proof. by destruct v. Qed.
(** The values of a type that is not a variable. *)
Ltac val_cases v H :=
  destruct v as [| | | | | | | | |[]| |]; simpl in H; try done;
  try (first [discriminate H|apply proj1 in H; discriminate H]).
Lemma as_integer_ok v t :
  val_ok v t → is_integer t = true → ∃ i, as_integer v = Ok i ∧ int_type i = t ∧ int_ok i.
Proof.
  intros Hv Ht. destruct t; try done; val_cases v Hv; destruct Hv as [_ Hz];
    (eexists; split_and!; [done..|exact Hz]).
Qed.
Lemma as_bool_ok v : val_ok v ST.Bool → ∃ b, as_bool v = Ok b.
Proof. intros Hv. val_cases v Hv. by eexists. Qed.
Lemma as_u64_ok v : val_ok v ST.U64 → ∃ z, as_u64 v = Ok z.
Proof. intros Hv. val_cases v Hv. by eexists. Qed.
Lemma as_u8_ok v : val_ok v ST.U8 → ∃ z, as_u8 v = Ok z ∧ is_u8 z.
Proof.
  intros Hv. val_cases v Hv. destruct Hv as [_ Hz]. eexists. split; [done|].
  unfold in_width, is_u8, u8_max in *. lia.
Qed.

(** * Structs *)

Lemma as_struct_ok v h ts :
  val_ok v (ST.Struct h) → struct_fields m h = Some ts → ∃ r, as_struct v = Ok r ∧ Forall2 val_ok r ts.
Proof.
  intros Hv Hts. pose proof Hv as Hs. val_cases v Hv.
  apply (val_ok_struct r (ST.Struct h)) in Hs as (ts' & Hts' & Hr). simpl in Hts'. simplify_eq. by exists r.
Qed.

(** * Vectors *)

(** The runtime type of a token, at its root. *)
Definition same_head (t : SignatureToken) (ty : Ty.Type_) : bool :=
  match t, ty with
  | ST.Bool, Ty.Bool | ST.U8, Ty.U8 | ST.U16, Ty.U16 | ST.U32, Ty.U32 | ST.U64, Ty.U64
  | ST.U128, Ty.U128 | ST.U256, Ty.U256 | ST.Address, Ty.Address | ST.Signer, Ty.Signer
  | ST.Vector _, Ty.Vector _ | ST.Struct _, Ty.Struct _
  | ST.StructInstantiation _ _, Ty.StructInstantiation _ _ => true
  | _, _ => false
  end.

Lemma collect_cast_ok {A} (cast : ValueImpl → vmresult A) (P : A → Prop) t vs :
  (∀ v, val_ok v t → ∃ a, cast v = Ok a ∧ P a) → Forall (λ v, val_ok v t) vs →
  ∃ l, collect cast vs = Ok l ∧ Forall P l ∧ length l = length vs.
Proof.
  intros Hcast Hvs. induction Hvs as [|v vs Hv Hvs (l & Hl & HP & Hlen)]; [by exists []|].
  destruct (Hcast v Hv) as (a & Ha & HPa). exists (a :: l). simpl. rewrite Ha, Hl.
  split_and!; [done|by constructor|]. simpl. by f_equal.
Qed.
Lemma Vector_pack_ok t ty vs :
  same_head t ty = true → Forall (λ v, val_ok v t) vs →
  ∃ v, Vector_pack ty vs = Ok v ∧ val_ok v (ST.Vector t).
Proof.
  intros Hh Hvs.
  assert (boxed t = true → val_ok (VContainer (Vec vs)) (ST.Vector t)) as Hbox.
  { intros Hb. apply val_ok_vec. eauto. }
  destruct t, ty; try done; simpl; try (eexists; split; [done|by apply Hbox]).
  - destruct (collect_cast_ok as_bool (λ _, True) ST.Bool vs) as (l & -> & Hl & _); [|done|eexists; by split].
    intros v Hv. val_cases v Hv. by eexists.
  - destruct (collect_cast_ok as_u8 (in_width 8) ST.U8 vs) as (l & -> & Hl & _); [|done|eexists; by split].
    intros v Hv. val_cases v Hv. destruct Hv. by eexists.
  - destruct (collect_cast_ok as_u64 (in_width 64) ST.U64 vs) as (l & -> & Hl & _); [|done|eexists; by split].
    intros v Hv. val_cases v Hv. destruct Hv. by eexists.
  - destruct (collect_cast_ok as_u128 (in_width 128) ST.U128 vs) as (l & -> & Hl & _); [|done|eexists; by split].
    intros v Hv. val_cases v Hv. destruct Hv. by eexists.
  - destruct (collect_cast_ok as_address (λ _, True) ST.Address vs) as (l & -> & Hl & _); [|done|eexists; by split].
    intros v Hv. val_cases v Hv. by eexists.
  - destruct (collect_cast_ok as_u16 (in_width 16) ST.U16 vs) as (l & -> & Hl & _); [|done|eexists; by split].
    intros v Hv. val_cases v Hv. destruct Hv. by eexists.
  - destruct (collect_cast_ok as_u32 (in_width 32) ST.U32 vs) as (l & -> & Hl & _); [|done|eexists; by split].
    intros v Hv. val_cases v Hv. destruct Hv. by eexists.
  - destruct (collect_cast_ok as_u256 (in_width 256) ST.U256 vs) as (l & -> & Hl & _); [|done|eexists; by split].
    intros v Hv. val_cases v Hv. destruct Hv. by eexists.
Qed.

(** A vector of a type has the layout of its elements, and unpacks into
    values of their type. *)
Lemma as_vector_ok v t ty :
  val_ok v (ST.Vector t) → same_head t ty = true →
  ∃ c vs, as_vector v = Ok c ∧ check_elem_layout ty c = Ok () ∧ elements_of c = Done vs ∧
    Forall (λ v, val_ok v t) vs.
Proof.
  intros Hv Hh. destruct v as [| | | | | | | | |[]| |]; try done; try (by destruct Hv).
  - apply val_ok_vec in Hv as (u & [= <-] & Hb & Hr). eexists _, _. split_and!; [done| |done|done].
    by destruct t, ty.
  - destruct Hv as [[= ->] Hr]. destruct ty; try done. eexists _, _. split_and!; [done..|].
    apply Forall_fmap. by eapply Forall_impl.
  - destruct Hv as [[= ->] Hr]. destruct ty; try done. eexists _, _. split_and!; [done..|].
    apply Forall_fmap. by eapply Forall_impl.
  - destruct Hv as [[= ->] Hr]. destruct ty; try done. eexists _, _. split_and!; [done..|].
    apply Forall_fmap. by eapply Forall_impl.
  - injection Hv as ->. destruct ty; try done. eexists _, _. split_and!; [done..|].
    apply Forall_fmap, Forall_true. done.
  - injection Hv as ->. destruct ty; try done. eexists _, _. split_and!; [done..|].
    apply Forall_fmap, Forall_true. done.
  - destruct Hv as [[= ->] Hr]. destruct ty; try done. eexists _, _. split_and!; [done..|].
    apply Forall_fmap. by eapply Forall_impl.
  - destruct Hv as [[= ->] Hr]. destruct ty; try done. eexists _, _. split_and!; [done..|].
    apply Forall_fmap. by eapply Forall_impl.
  - destruct Hv as [[= ->] Hr]. destruct ty; try done. eexists _, _. split_and!; [done..|].
    apply Forall_fmap. by eapply Forall_impl.
Qed.
Lemma Vector_unpack_ok v t ty num :
  val_ok v (ST.Vector t) → same_head t ty = true → 0 ≤ num →
  ∃ c r, as_vector v = Ok c ∧ Vector_unpack c ty num = Done r ∧
    match r with
    | Ok vs => length vs = Z.to_nat num ∧ Forall (λ v, val_ok v t) vs
    | Err e => e = Vm.VECTOR_OPERATION_ERROR VEC_UNPACK_PARITY_MISMATCH
    end.
Proof.
  intros Hv Hh Hn. destruct (as_vector_ok v t ty Hv Hh) as (c & vs & Hc & Hlay & Hel & Hvs).
  unfold Vector_unpack. exists c. rewrite Hlay, Hel. simpl.
  case_test (num =? Z.of_nat (length vs)) as Hlen; (eexists; split_and!; [done..|]); [|done].
  split; [lia|done].
Qed.
End typing.
