(* ===== verification/LoaderContract.v ===== *)
(** What the interpreter needs of the loader, as the class [LoaderContract]:
    handles resolve to the definitions they name, structs have their declared
    number of fields, the types that instructions name are loaded with the
    right shape, and the depth of a type can be computed.  The theorems on the
    interpreter are proved against the class; [LoaderFacts] proves it of
    [add_module]. *)
From S2P Require Import Prelude Objects Errors GasTables.
From S2P Require Import MoveValues GasMeter MoveIntegers MoveModule.
From S2P Require Import VmMonad ControlFlow TraversalOrder AbstractInterp.
From S2P Require Import LocalsSafety AbstractStack CodeVerifier VerifierFacts.
From S2P Require Import VerifiedModule VmValues VmLoader Interpreter.
From S2P Require Import ValueTyping.

(** A type without references or type parameters, whose structs have the
    number of arguments they declare. *)
Record ground_type (m : CompiledModule) (t : SignatureToken) : Prop := {
  gt_values : check_signature_token t = Ok ();
  gt_closed : check_type_parameter 0 t = Ok ();
  gt_arity : check_type m t = Ok ();
}.

(** The depth check on a type answers, if only that the limit is reached. *)
Definition depth_defined (c : ModuleCache) (ty : Ty.Type_) : Prop := ∀ max_value_nest_depth,
  match check_depth_of_type c max_value_nest_depth ty with
  | Ok _ => True
  | Err e => e = Vm.VM_MAX_VALUE_DEPTH_REACHED
  end.

(** The signature of the type argument of an instruction on vectors. *)
Definition vector_type (i : Bytecode) : option nat :=
  match i with Bc.VecPack idx _ | Bc.VecUnpack idx _ => Some idx | _ => None end.

Class LoaderContract (m : CompiledModule) (c : ModuleCache) (lm : LoadedModule) : Prop := {
  loaded_function : ∀ idx fh, cm_function_handles m !! idx = Some fh →
    ∃ i def func, def ∈ cm_function_defs m ∧ def_function def = idx ∧
      Function_new i def m = Done func ∧ function_from_handle c lm idx = Done func;
  loaded_struct : ∀ idx sd sh fields,
    cm_struct_defs m !! idx = Some sd → sd_field_information sd = Declared fields →
    cm_struct_handles m !! sd_struct_handle sd = Some sh → sh_type_parameters sh = [] →
    field_count lm idx = Done (Z.of_nat (length fields)) ∧
    ∃ ty, get_struct_type lm idx = Done ty ∧ depth_defined c ty;
  loaded_type : ∀ def code i idx sig t,
    def ∈ cm_function_defs m → def_code def = Some code → i ∈ cu_code code → vector_type i = Some idx →
    cm_signatures m !! idx = Some sig → sig !! 0%nat = Some t → ground_type m t →
    ∃ ty, instantiate_single_type lm idx = Done ty ∧ same_head t ty = true ∧ depth_defined c ty;
}.

(** * What the verifier says of a single instruction *)

Definition instruction_ok (m : CompiledModule) (i : Bytecode) : Prop :=
  match i with
  | Bc.Call idx => ∃ fh, cm_function_handles m !! idx = Some fh ∧ fh_type_parameters fh = []
  | Bc.Pack idx | Bc.Unpack idx => ∃ sd sh, cm_struct_defs m !! idx = Some sd ∧
      cm_struct_handles m !! sd_struct_handle sd = Some sh ∧ sh_type_parameters sh = []
  | Bc.VecPack idx num | Bc.VecUnpack idx num => num ≤ 65535 ∧
      ∀ sig t, cm_signatures m !! idx = Some sig → sig !! 0%nat = Some t → ground_type m t
  | _ => True
  end.

Lemma fold_try_step {A B} (f : A → B → exec (vmresult A)) acc l acc' x :
  fold_try f acc l = Done (Ok acc') → x ∈ l → ∃ a a', f a x = Done (Ok a').
Proof.
  revert acc. induction l as [|y l IH]; intros acc Hl Hx; [by apply elem_of_nil in Hx|].
  simpl in Hl. apply try_exec_Ok in Hl as (a & Ha & Hl). apply elem_of_cons in Hx as [->|Hx]; eauto.
Qed.
Lemma signature_instruction m def code i :
  SignatureChecker_verify m = Done (Ok ()) → def ∈ cm_function_defs m → def_code def = Some code →
  i ∈ cu_code code → signature_verify_instruction m i = Done (Ok ()).
Proof.
  intros Hrun Hdef Hcode Hi. unfold SignatureChecker_verify in Hrun.
  do 3 apply try_exec_Ok in Hrun as (? & _ & Hrun). apply try_exec_Ok in Hrun as (? & Hrun & _).
  destruct (fold_try_step _ _ _ _ def Hrun Hdef) as (a & a' & Hstep). rewrite Hcode in Hstep. exec_inv.
  unfold signature_verify_code in Hstep. apply try_exec_Ok in Hstep as (? & _ & Hstep).
  apply try_exec_Ok in Hstep as (? & Hstep & _). rewrite for_each_Ok in Hstep. auto.
Qed.
Lemma signature_checked m def code i idx sig t :
  SignatureChecker_verify m = Done (Ok ()) → def ∈ cm_function_defs m → def_code def = Some code →
  i ∈ cu_code code → vector_type i = Some idx → cm_signatures m !! idx = Some sig → sig !! 0%nat = Some t →
  check_signature_token t = Ok ().
Proof.
  intros Hrun Hdef Hcode Hi Hv Hsig Ht. pose proof (signature_instruction _ _ _ _ Hrun Hdef Hcode Hi) as Hins.
  assert (check_signature_tokens sig = Ok ()) as Htok.
  { unfold signature_verify_instruction, signature_at in Hins. destruct i; simpl in Hv; try done; injection Hv as ->;
      rewrite Hsig in Hins; simpl in Hins; apply Done_Ok_inj, and_then_Ok in Hins as (_ & _ & Hins); done. }
  unfold check_signature_tokens in Htok. rewrite try_for_each_Ok in Htok.
  by eapply Htok, list_elem_of_lookup_2.
Qed.

Lemma instruction_checked m def code i :
  InstructionConsistency_verify m = Done (Ok ()) → def ∈ cm_function_defs m → def_code def = Some code →
  i ∈ cu_code code → check_instruction m i = Done (Ok ()).
Proof.
  unfold InstructionConsistency_verify. rewrite for_each_Ok. intros Hall Hdef Hcode Hi.
  specialize (Hall def Hdef). rewrite Hcode, for_each_Ok in Hall. auto.
Qed.
Lemma signature_types_ok m idx sig t :
  BoundsChecker_verify m = Ok () → cm_signatures m !! idx = Some sig → t ∈ sig → check_type m t = Ok ().
Proof.
  unfold BoundsChecker_verify. intros Hb Hsig Ht. apply and_then_Ok in Hb as ([] & Hb & _).
  rewrite try_for_each_Ok in Hb. specialize (Hb sig (list_elem_of_lookup_2 _ _ _ Hsig)).
  rewrite try_for_each_Ok in Hb. auto.
Qed.

(** The instructions of a function without type parameters. *)
Lemma verified_instruction m def code fh i :
  verified_module m → def ∈ cm_function_defs m → def_code def = Some code →
  cm_function_handles m !! def_function def = Some fh → fh_type_parameters fh = [] →
  i ∈ cu_code code → instruction_ok m i.
Proof.
  intros Hm Hdef Hcode Hfh Hground Hi.
  pose proof (instruction_checked _ _ _ _ (vm_instructions _ Hm) Hdef Hcode Hi) as Hins.
  destruct (bounds_function _ _ _ _ (vm_bounds _ Hm) Hdef Hcode) as (fh' & params & locals & Hfh' & _ & _ & Hb).
  simplify_eq. specialize (Hb i Hi). rewrite Hground in Hb.
  assert (∀ idx num, vector_type i = Some idx → check_instruction m i = Done (ensure (num <=? 65535) Vm.CONSTRAINT_NOT_SATISFIED) →
    check_signature_parameters m 0 idx = Ok () →
    num ≤ 65535 ∧ ∀ sig t, cm_signatures m !! idx = Some sig → sig !! 0%nat = Some t → ground_type m t) as Hvec.
  { intros idx num Hv Hc Hp. rewrite Hins in Hc. injection Hc as Hc. symmetry in Hc. apply ensure_Ok in Hc.
    split; [lia|]. intros sig t Hsig Ht. unfold check_signature_parameters in Hp. rewrite Hsig, try_for_each_Ok in Hp.
    split; [by eapply signature_checked; [apply Hm|..]|by eapply Hp, list_elem_of_lookup_2|].
    eapply signature_types_ok; [apply Hm|done|by eapply list_elem_of_lookup_2]. }
  destruct i; try done; simpl in Hins |- *;
    unfold check_function_op, check_type_op, struct_def_at, struct_handle_at, function_handle_at in Hins; exec_inv.
  1-3: apply ensure_Ok in Hins; destruct (length _ =? 0)%nat eqn:Hz in Hins; [|done];
    apply Nat.eqb_eq, nil_length_inv in Hz; eauto.
  all: simpl in Hb; try (apply and_then_Ok in Hb as (_ & _ & Hb); by apply Hvec).
Qed.

(** * Definitions and handles *)

Lemma first_duplicate_None {A} `{EqDecision A} (uniq l : list A) i :
  first_duplicate uniq l i = None → NoDup l ∧ ∀ x, x ∈ l → x ∉ uniq.
Proof.
  revert uniq i. induction l as [|x l IH]; intros uniq i Hl; simpl in Hl.
  - split; [constructor|]. by intros x ?%elem_of_nil.
  - case_bool_decide as Hx; [done|]. destruct (IH _ _ Hl) as [Hnd Hout]. split.
    + constructor; [|done]. intros Hin. apply (Hout x Hin). by left.
    + intros y [->|Hy]%elem_of_cons; [done|]. intros Hu. apply (Hout y Hy). by right.
Qed.
Lemma check_unique_NoDup {A} `{EqDecision A} (l : list A) u : check_unique l = Ok u → NoDup l.
Proof.
  unfold check_unique, first_duplicate_element. destruct (first_duplicate [] l 0) eqn:Hl; [done|].
  intros _. by apply first_duplicate_None in Hl as [? _].
Qed.
Lemma unimplemented_handle_false modules implemented self idx :
  unimplemented_handle modules implemented self = false → modules !! idx = Some self → idx ∈ implemented.
Proof.
  unfold unimplemented_handle. intros Hf Hidx. destruct (decide (idx ∈ implemented)) as [|Hn]; [done|].
  assert (existsb (λ p : nat * nat, bool_decide (p.2 = self) && negb (bool_decide (p.1 ∈ implemented)))
    (imap pair modules) = true) as Ht; [|congruence].
  apply existsb_exists. exists (idx, self). split.
  - apply list_elem_of_In, elem_of_lookup_imap. eauto.
  - simpl. by rewrite bool_decide_eq_true_2, bool_decide_eq_false_2.
Qed.

(** What the duplication checker says of the tables of a module. *)
Record unique_tables (m : CompiledModule) : Prop := {
  ut_identifiers : NoDup (cm_identifiers m);
  ut_struct_handles : NoDup (map (λ h, (sh_module h, sh_name h)) (cm_struct_handles m));
  ut_function_handles : NoDup (map (λ h, (fh_module h, fh_name h)) (cm_function_handles m));
  ut_struct_defs : NoDup (map sd_struct_handle (cm_struct_defs m));
  ut_function_defs : NoDup (map def_function (cm_function_defs m));
  ut_structs_defined : ∀ idx sh, cm_struct_handles m !! idx = Some sh →
    sh_module sh = cm_self_module_handle_idx m → idx ∈ map sd_struct_handle (cm_struct_defs m);
  ut_functions_defined : ∀ idx fh, cm_function_handles m !! idx = Some fh →
    fh_module fh = cm_self_module_handle_idx m → idx ∈ map def_function (cm_function_defs m);
}.
Lemma handles_implemented modules self handles u :
  (foreign ← foreign_definition modules self handles;
   _ ←? Done (ensure (negb foreign) Vm.INVALID_MODULE_HANDLE);
   Done (ensure (negb (unimplemented_handle modules handles self)) Vm.UNIMPLEMENTED_HANDLE)) = Done (Ok u) →
  ∀ idx, modules !! idx = Some self → idx ∈ handles.
Proof.
  intros Hrun idx. exec_inv. apply try_exec_Ok in Hrun as (_ & _ & Hrun%Done_Ok_inj%ensure_Ok).
  apply unimplemented_handle_false. by apply negb_true_iff.
Qed.
Lemma duplication_checked m : DuplicationChecker_verify m = Done (Ok ()) → unique_tables m.
Proof.
  unfold DuplicationChecker_verify. intros Hrun. do 6 apply try_exec_Ok in Hrun as (? & ?%Done_Ok_inj & Hrun).
  apply try_exec_Ok in Hrun as (? & Hfun & Hstr).
  unfold check_function_definitions in Hfun. apply try_exec_Ok in Hfun as (? & ?%Done_Ok_inj & Hfun).
  unfold check_struct_definitions in Hstr. apply try_exec_Ok in Hstr as (? & ?%Done_Ok_inj & Hstr).
  apply try_exec_Ok in Hstr as (? & _ & Hstr).
  split; try (by eapply check_unique_NoDup).
  - intros idx sh Hsh Hself. eapply handles_implemented; [exact Hstr|]. by rewrite list_lookup_fmap, Hsh, <-Hself.
  - intros idx fh Hfh Hself. eapply handles_implemented; [exact Hfun|]. by rewrite list_lookup_fmap, Hfh, <-Hself.
Qed.

(** The fields of a struct that has a definition. *)
Lemma struct_fields_of m idx sd fields :
  unique_tables m → cm_struct_defs m !! idx = Some sd → sd_field_information sd = Declared fields →
  struct_fields m (sd_struct_handle sd) = Some (map fd_signature fields).
Proof.
  intros Hu Hsd Hf. unfold struct_fields.
  assert (list_find (λ d, sd_struct_handle d = sd_struct_handle sd) (cm_struct_defs m) = Some (idx, sd)) as ->.
  { apply list_find_Some. split_and!; [done..|]. intros j d Hd Hj Heq.
    pose proof (NoDup_lookup _ j idx (sd_struct_handle sd) (ut_struct_defs _ Hu)) as Hinj.
    rewrite !list_lookup_fmap, Hd, Hsd in Hinj. simpl in Hinj. rewrite Heq in Hinj. specialize (Hinj eq_refl eq_refl). lia. }
  simpl. by rewrite Hf.
Qed.
