(* ===== verification/InstructionTyping.v ===== *)
(** One instruction of a verified function: run on a stack and locals of the
    types the verifier computed, it returns values and locals of the types it
    computed for what follows, or an error that is no broken invariant
    ([exec_instruction]).  Each instruction advances the 64-bit counter of the
    meter by one. *)
From S2P Require Import Prelude Objects Errors GasTables.
From S2P Require Import MoveValues GasMeter MoveIntegers MoveModule.
From S2P Require Import VmMonad ControlFlow TraversalOrder AbstractInterp.
From S2P Require Import LocalsSafety AbstractStack CodeVerifier VerifierFacts.
From S2P Require Import VerifiedModule VmValues VmLoader Interpreter.
From S2P Require Import ValueTyping LoaderContract.

(** The errors a verified program may end with. *)
Definition allowed (e : Vm.PartialVMError) : Prop :=
  match e with
  | Vm.ARITHMETIC_ERROR | Vm.ABORTED _ | Vm.VECTOR_OPERATION_ERROR _ | Vm.EXECUTION_STACK_OVERFLOW
  | Vm.CALL_STACK_OVERFLOW | Vm.VM_MAX_VALUE_DEPTH_REACHED | Vm.Gas _ => True
  | _ => False
  end.

(** * The meter *)

(** A call of the meter that returns, and counts one instruction when it
    succeeds. *)
Definition counted (n : Z) (call : metered_call) : Prop := ∀ g,
  ∃ g' r, call g = Done (g', r) ∧
    (r = Ok () → instructions_executed g' = instructions_executed g + n ∧
      (0 < n → instructions_executed g' ≤ u64_max)).

Lemma charge_counted n pushes pops incr decr g :
  let out := charge n pushes pops incr decr g in
  out.2 = Ok () → instructions_executed out.1 = instructions_executed g + n ∧
    instructions_executed out.1 ≤ u64_max.
Proof.
  unfold charge, vm_bind, push_stack, increase_instruction_count, increase_stack_size, vm_get, vm_opt,
    vm_ret, vm_err, deduct_gas, pop_stack, vm_mod, checked_add64.
  repeat (case_match; simplify_eq/=; try done). all: intros _; lia.
Qed.

Lemma counted_plain pushes pops incr decr : counted 1 (λ g, Done (charge 1 pushes pops incr decr g)).
Proof.
  intros g. destruct (charge 1 pushes pops incr decr g) as [g' r] eqn:Hc.
  exists g', r. split; [done|]. intros ->.
  pose proof (charge_counted 1 pushes pops incr decr g) as Hn. rewrite Hc in Hn. by destruct Hn.
Qed.
Lemma size_returns g v : visitable v = true → ∃ z, abstract_memory_size g v = Done z.
Proof.
  unfold abstract_memory_size. intros Hv. destruct (use_legacy_abstract_size _).
  - rewrite legacy_size_exact, Hv. eauto.
  - rewrite abstract_size_exact, Hv. eauto.
Qed.
Lemma sizes_return g init vs :
  forallb visitable vs = true → ∃ z, fold_sizes g init vs = Done z.
Proof.
  unfold fold_sizes. revert init. induction vs as [|v vs IH]; intros init Hvs; simpl in *; [by eauto|].
  bool_prop. destruct (size_returns g v) as (z & ->); [done|]. simpl. auto.
Qed.
Lemma counted_size v (call : Z → metered_call) :
  visitable v = true → (∀ z, counted 1 (call z)) →
  counted 1 (λ g, size ← abstract_memory_size g v; call size g).
Proof. intros Hv Hcall g. destruct (size_returns g v Hv) as (z & ->). apply Hcall. Qed.
Lemma counted_call args : forallb visitable args = true → counted 1 (charge_call args).
Proof.
  intros Hargs g. unfold charge_call. destruct (sizes_return g 0 args Hargs) as (z & ->). simpl.
  apply (counted_plain 0 (len args) 0 z).
Qed.
Lemma counted_simple i : counted 1 (charge_simple_instr i).
Proof.
  intros g. unfold charge_simple_instr.
  destruct (get_simple_instruction_stack_change i) as [[[pops pushes] pop_size] push_size].
  apply counted_plain.
Qed.
Lemma counted_compare v w :
  visitable v = true → visitable w = true → counted 1 (charge_eq v w) ∧ counted 1 (charge_neq v w).
Proof.
  intros Hv Hw. split.
  - apply (counted_size v); [done|]. intros z. apply (counted_size w); [done|]. intros y. apply counted_plain.
  - apply (counted_size v); [done|]. intros z. apply (counted_size w); [done|]. intros y. apply counted_plain.
Qed.

(** * The operations of the machine *)

Definition executed (s : Machine) : Z := instructions_executed (mc_gas s).

Section operations.
Implicit Types s : Machine.

Lemma wp_charge n call s (Q : unit → Machine → Prop) :
  counted n call →
  (∀ g, instructions_executed g = executed s + n → (0 < n → instructions_executed g ≤ u64_max) →
    Q () (set_gas g s)) →
  wp allowed (meter_charge call) s Q.
Proof.
  intros Hc HQ. unfold wp, meter_charge. destruct (Hc (mc_gas s)) as (g & r & -> & Hr). simpl.
  destruct r as [[]|e]; [|done]. destruct (Hr eq_refl). by apply HQ.
Qed.
Lemma wp_push v s (Q : unit → Machine → Prop) :
  Q () (set_stack (v :: mc_stack s) s) → wp allowed (push_value v) s Q.
Proof. intros HQ. unfold push_value. apply wp_bind, wp_get. by case_match. Qed.
Lemma wp_pop v st s (Q : ValueImpl → Machine → Prop) :
  mc_stack s = v :: st → Q v (set_stack st s) → wp allowed pop_value s Q.
Proof. intros Hs HQ. unfold pop_value. apply wp_bind, wp_get. rewrite Hs. by apply wp_bind, wp_modify, wp_ret. Qed.
Lemma wp_pop_as {T} (cast : ValueImpl → vmresult T) v st a s (Q : T → Machine → Prop) :
  mc_stack s = v :: st → cast v = Ok a → Q a (set_stack st s) → wp allowed (pop_as cast) s Q.
Proof.
  intros Hs Hcast HQ. unfold pop_as. apply wp_bind. eapply wp_pop; [done|]. apply wp_result. by rewrite Hcast.
Qed.
Lemma wp_last_n n vs st s (Q : list ValueImpl → Machine → Prop) :
  mc_stack s = vs ++ st → length vs = n → Q (rev vs) s → wp allowed (last_n n) s Q.
Proof.
  intros Hs Hn HQ. unfold last_n. apply wp_bind, wp_get. rewrite Hs, length_app.
  rewrite (proj2 (Nat.ltb_ge _ _)) by lia. apply wp_ret. by rewrite take_app_length'.
Qed.
Lemma wp_popn n vs st s (Q : list ValueImpl → Machine → Prop) :
  mc_stack s = vs ++ st → length vs = n → Q (rev vs) (set_stack st s) → wp allowed (popn n) s Q.
Proof.
  intros Hs Hn HQ. unfold popn. apply wp_bind, wp_get. rewrite Hs, length_app.
  rewrite (proj2 (Nat.ltb_ge _ _)) by lia. apply wp_bind, wp_modify, wp_ret.
  by rewrite take_app_length', drop_app_length'.
Qed.
Lemma wp_push_all vs s (Q : unit → Machine → Prop) :
  Q () (set_stack (rev vs ++ mc_stack s) s) → wp allowed (push_all vs) s Q.
Proof.
  unfold push_all. revert s. induction vs as [|v vs IH]; intros s HQ; simpl.
  - apply wp_ret. by destruct s.
  - apply wp_bind, wp_push, IH. simpl in *. by rewrite <-app_assoc in HQ.
Qed.
End operations.

(** * Operations on values of a type *)

Lemma Forall2_rev {A B} (P : A → B → Prop) l k : Forall2 P l k → Forall2 P (rev l) (rev k).
Proof. rewrite !rev_alt. apply Forall2_reverse. Qed.

Section typed_operations.
Context (m : CompiledModule).
Implicit Types (s : Machine) (Q : unit → Machine → Prop).

Lemma op_result_allowed {f} (o : int_op f) l r e : op_result o l r = Err e → allowed e.
Proof. destruct o; simpl; unfold fits; repeat case_match; intros; by simplify_eq. Qed.

Lemma wp_binop_int {f} (o : int_op f) t x y st s Q :
  mc_stack s = x :: y :: st → is_integer t = true → val_ok m x t → val_ok m y t →
  (∀ v, val_ok m v t → Q () (set_stack (v :: st) s)) → wp allowed (binop_int f) s Q.
Proof.
  intros Hs Ht Hx Hy HQ. destruct (as_integer_ok m x t Hx Ht) as (r & Hr & Hrt & Hrok).
  destruct (as_integer_ok m y t Hy Ht) as (l & Hl & Hlt & Hlok).
  assert (int_bits l = int_bits r) as Hbits by (apply int_type_bits; congruence).
  unfold binop_int, binop. apply wp_bind. eapply wp_pop_as; [done..|].
  apply wp_bind. eapply wp_pop_as; [done..|]. apply wp_bind, wp_result.
  rewrite (binary_op_exact o) by done. rewrite Hbits, Z.eqb_refl.
  destruct (op_result o l r) as [v|e] eqn:Hv; simpl; [|by eapply op_result_allowed].
  apply wp_push. apply HQ. destruct (op_result_ok o l r v Hlok Hrok Hbits Hv) as [Hvb Hvok].
  rewrite <-Hlt. replace (int_type l) with (int_type v) by (by apply int_type_bits).
  by apply into_value_ok.
Qed.

Lemma wp_shift (f : IntegerValue → Z → vmresult IntegerValue) t x y st s Q :
  (∀ v n w, int_ok v → is_u8 n → f v n = Ok w → int_bits w = int_bits v ∧ int_ok w) →
  (∀ v n e, int_ok v → is_u8 n → f v n = Err e → allowed e) →
  mc_stack s = x :: y :: st → is_integer t = true → val_ok m x ST.U8 → val_ok m y t →
  (∀ v, val_ok m v t → Q () (set_stack (v :: st) s)) → wp allowed (shift f) s Q.
Proof.
  intros Hok Herr Hs Ht Hx Hy HQ. destruct (as_u8_ok m x Hx) as (n & Hn & Hnok).
  destruct (as_integer_ok m y t Hy Ht) as (l & Hl & Hlt & Hlok).
  unfold shift. apply wp_bind. eapply wp_pop_as; [done..|].
  apply wp_bind. eapply wp_pop_as; [done..|]. apply wp_bind, wp_result.
  destruct (f l n) as [v|e] eqn:Hv; [|by eapply Herr].
  apply wp_push, HQ. destruct (Hok l n v Hlok Hnok Hv) as [Hvb Hvok].
  rewrite <-Hlt. replace (int_type l) with (int_type v) by (by apply int_type_bits).
  by apply into_value_ok.
Qed.

Lemma wp_cast {f w} (c : int_cast f w) (make : Z → ValueImpl) t u x st s Q :
  (∀ z, in_width w z → val_ok m (make z) u) →
  mc_stack s = x :: st → is_integer t = true → val_ok m x t →
  (∀ v, val_ok m v u → Q () (set_stack (v :: st) s)) → wp allowed (cast_integer f make) s Q.
Proof.
  intros Hmake Hs Ht Hx HQ. destruct (as_integer_ok m x t Hx Ht) as (l & Hl & Hlt & Hlok).
  unfold cast_integer. apply wp_bind. eapply wp_pop_as; [done..|]. apply wp_bind, wp_result.
  rewrite (cast_exact c) by done. case_test (int_val l <? 2 ^ w) as Hz; [|done].
  apply wp_push, HQ, Hmake. unfold int_ok, in_width in *. lia.
Qed.

Lemma wp_compare_int {f g} (c : int_cmp f g) t x y st s Q :
  mc_stack s = x :: y :: st → is_integer t = true → val_ok m x t → val_ok m y t →
  (∀ b, Q () (set_stack (Bool b :: st) s)) → wp allowed (binop_bool as_integer f) s Q.
Proof.
  intros Hs Ht Hx Hy HQ. destruct (as_integer_ok m x t Hx Ht) as (r & Hr & Hrt & Hrok).
  destruct (as_integer_ok m y t Hy Ht) as (l & Hl & Hlt & Hlok).
  assert (int_bits l = int_bits r) as Hbits by (apply int_type_bits; congruence).
  unfold binop_bool, binop. apply wp_bind. eapply wp_pop_as; [done..|].
  apply wp_bind. eapply wp_pop_as; [done..|]. apply wp_bind, wp_result.
  rewrite (compare_exact c). rewrite Hbits, Z.eqb_refl. simpl. apply wp_push, HQ.
Qed.
Lemma wp_binop_bool (f : bool → bool → bool) x y st s Q :
  mc_stack s = x :: y :: st → val_ok m x ST.Bool → val_ok m y ST.Bool →
  (∀ b, Q () (set_stack (Bool b :: st) s)) → wp allowed (binop_bool as_bool (λ l r, Ok (f l r))) s Q.
Proof.
  intros Hs Hx Hy HQ. destruct (as_bool_ok m x Hx) as (r & Hr). destruct (as_bool_ok m y Hy) as (l & Hl).
  unfold binop_bool, binop. apply wp_bind. eapply wp_pop_as; [done..|].
  apply wp_bind. eapply wp_pop_as; [done..|]. apply wp_bind, wp_result. simpl. apply wp_push, HQ.
Qed.
End typed_operations.

(** * One instruction *)

Definition is_valid (v : ValueImpl) : bool := match v with Invalid => false | _ => true end.

(** The locals of a frame have their types, and the states of the analysis. *)
Record frame_locals (m : CompiledModule) (f : FunctionView) (ls : list LocalState)
    (locals : list ValueImpl) : Prop := {
  fl_types : Forall2 (λ v t, v = Invalid ∨ val_ok m v t) locals (local_types f);
  fl_states : Forall2 described (map is_valid locals) ls;
}.

Section locals.
Context (m : CompiledModule) (f : FunctionView).

Lemma local_available ls locals idx t :
  frame_locals m f ls locals → ls !! idx = Some Available → local_types f !! idx = Some t →
  ∃ v, locals !! idx = Some v ∧ val_ok m v t.
Proof.
  intros [Hty Hst] Hls Ht. destruct (Forall2_lookup_r _ _ _ _ _ Hty Ht) as (v & Hv & Hor). exists v. split; [done|].
  destruct Hor as [->|]; [|done]. destruct (Forall2_lookup_r _ _ _ _ _ Hst Hls) as (b & Hb & Hd).
  rewrite list_lookup_fmap, Hv in Hb. simpl in Hb. simplify_eq. done.
Qed.
Lemma local_in_range ls locals idx t :
  frame_locals m f ls locals → local_types f !! idx = Some t → ∃ v, locals !! idx = Some v.
Proof. intros [Hty _] Ht. destruct (Forall2_lookup_r _ _ _ _ _ Hty Ht) as (v & Hv & _). eauto. Qed.
Lemma frame_locals_insert ls locals idx t v a :
  frame_locals m f ls locals → local_types f !! idx = Some t → v = Invalid ∨ val_ok m v t →
  described (is_valid v) a → frame_locals m f (<[idx := a]> ls) (<[idx := v]> locals).
Proof.
  intros [Hty Hst] Ht Hv Ha. split.
  - rewrite <-(list_insert_id (local_types f) idx t) by done. by apply Forall2_insert.
  - rewrite list_fmap_insert. by apply Forall2_insert.
Qed.
Lemma frame_locals_leq ls ls' locals :
  frame_locals m f ls locals → Forall2 local_leq ls ls' → frame_locals m f ls' locals.
Proof. intros [Hty Hst] Hle. split; [done|]. by eapply described_leq. Qed.
End locals.

(** What the verifier and the loader say of the operands of an instruction. *)
Definition operands_loaded (m : CompiledModule) (c : ModuleCache) (lm : LoadedModule) (i : Bytecode) : Prop :=
  operands_ok i ∧
  match i with
  | Bc.Pack idx => ∀ sd fields, cm_struct_defs m !! idx = Some sd → sd_field_information sd = Declared fields →
      field_count lm idx = Done (Z.of_nat (length fields)) ∧
      ∃ ty, get_struct_type lm idx = Done ty ∧ depth_defined c ty
  | Bc.VecPack idx num | Bc.VecUnpack idx num => num ≤ 65535 ∧
      ∀ sig t, cm_signatures m !! idx = Some sig → sig !! 0%nat = Some t →
        ∃ ty, instantiate_single_type lm idx = Done ty ∧ same_head t ty = true ∧ depth_defined c ty
  | _ => True
  end.

Section instruction.
Context (m : CompiledModule) (c : ModuleCache) (lm : LoadedModule) (max_value_nest_depth : option Z).
Context (f : FunctionView) (abil : list AbilitySet) (Hunique : unique_tables m).
Context (s : Machine) (rest : list ValueImpl).

(** The machine after an instruction. *)
Definition stepped (k : list SignatureToken) (ls : list LocalState) (s' : Machine) : Prop :=
  (∃ vs, mc_stack s' = vs ++ rest ∧ Forall2 (val_ok m) vs k) ∧
  frame_locals m f ls (fr_locals (mc_frame s')) ∧ fr_function (mc_frame s') = fr_function (mc_frame s) ∧
  executed s' = executed s + 1 ∧ executed s' ≤ u64_max.
Definition instruction_post (i : Bytecode) (k : list SignatureToken) (ls : list LocalState)
    (r : InstrRet) (s' : Machine) : Prop :=
  stepped k ls s' ∧
  match r with
  | RetOk => is_unconditional_branch i = false ∧ fr_pc (mc_frame s') = fr_pc (mc_frame s)
  | RetBranch => branch_offset i = Some (fr_pc (mc_frame s'))
  | RetExitCode _ => False
  end.

Lemma wp_simple i (Q : unit → Machine → Prop) :
  (∀ g, instructions_executed g = executed s + 1 → instructions_executed g ≤ u64_max → Q () (set_gas g s)) →
  wp allowed (simple i) s Q.
Proof. intros HQ. apply (wp_charge 1); [apply counted_simple|]. intros g Hg Hmax. by apply HQ; [|apply Hmax]. Qed.

(** The end of an instruction that neither branches nor touches the locals. *)
Lemma post_next i k ls g st fr :
  instructions_executed g = executed s + 1 → instructions_executed g ≤ u64_max →
  is_unconditional_branch i = false → fr = mc_frame s → frame_locals m f ls (fr_locals fr) →
  (∃ vs, st = vs ++ rest ∧ Forall2 (val_ok m) vs k) →
  instruction_post i k ls RetOk {| mc_frame := fr; mc_stack := st; mc_gas := g |}.
Proof. intros Hg Hmax Hi -> Hl Hst. split; [by split_and!|done]. Qed.

Lemma push_typed v t vs k :
  Forall2 (val_ok m) vs k → val_ok m v t → ∃ vs', v :: vs ++ rest = vs' ++ rest ∧ Forall2 (val_ok m) vs' (t :: k).
Proof. intros Hvs Hv. exists (v :: vs). split; [done|by constructor]. Qed.

Context (vs : list ValueImpl) (ls : list LocalState).
Context (Hstack : mc_stack s = vs ++ rest) (Hlocals : frame_locals m f ls (fr_locals (mc_frame s))).

Lemma exec_load i si v t k :
  is_unconditional_branch i = false → Forall2 (val_ok m) vs k → val_ok m v t →
  wp allowed (load si v) s (instruction_post i (t :: k) ls).
Proof.
  intros Hi Hvs Hv. unfold load. apply wp_bind, wp_simple. intros g Hg Hmax.
  apply wp_bind, wp_push, wp_ret. simpl. rewrite Hstack. eapply post_next; try done. by apply push_typed.
Qed.
Lemma exec_loads i k t :
  operands_ok i → load_type i = Some t → Forall2 (val_ok m) vs k →
  wp allowed (execute_instruction c lm max_value_nest_depth i) s (instruction_post i (t :: k) ls).
Proof. intros Hop Ht Hvs. destruct i; simplify_eq/=; by apply exec_load. Qed.

(** An operation that replaces the operands on top of the stack. *)
Lemma exec_operation i si op xs vs' k t :
  is_unconditional_branch i = false → vs = xs ++ vs' → Forall2 (val_ok m) vs' k →
  (∀ s1 Q, mc_stack s1 = xs ++ vs' ++ rest →
    (∀ v, val_ok m v t → Q () (set_stack (v :: vs' ++ rest) s1)) → wp allowed op s1 Q) →
  wp allowed (simple si;; op;; sret RetOk)%sem s (instruction_post i (t :: k) ls).
Proof.
  intros Hi -> Hvs Hop. apply wp_bind, wp_simple. intros g Hg Hmax. apply wp_bind, Hop.
  { simpl. by rewrite Hstack, <-app_assoc. }
  intros v Hv. apply wp_ret. eapply post_next; try done. by apply push_typed.
Qed.

#[local] Notation exec_instr i := (execute_instruction c lm max_value_nest_depth i).

Lemma exec_arith i k t x y vs' :
  is_arith i = true → is_integer t = true → vs = x :: y :: vs' → val_ok m x t → val_ok m y t →
  Forall2 (val_ok m) vs' k → wp allowed (exec_instr i) s (instruction_post i (t :: k) ls).
Proof.
  intros Hi Ht Hvs Hx Hy Hvs'.
  assert (∀ g (o : int_op g) s1 Q, mc_stack s1 = [x; y] ++ vs' ++ rest →
    (∀ v, val_ok m v t → Q () (set_stack (v :: vs' ++ rest) s1)) → wp allowed (binop_int g) s1 Q) as Hop.
  { intros g o s1 Q Hs HQ. eapply (wp_binop_int m o t x y); [exact Hs|done..|exact HQ]. }
  destruct i; try done; (eapply (exec_operation _ _ _ [x; y] vs'); [done|done|done|apply Hop; constructor]).
Qed.
Lemma exec_shifts i k t x y vs' :
  is_shift i = true → is_integer t = true → vs = x :: y :: vs' → val_ok m x ST.U8 → val_ok m y t →
  Forall2 (val_ok m) vs' k → wp allowed (exec_instr i) s (instruction_post i (t :: k) ls).
Proof.
  intros Hi Ht Hvs Hx Hy Hvs'. destruct i; try done; (eapply (exec_operation _ _ _ [x; y] vs'); [done|done|done|]);
    intros s1 Q Hs HQ; (eapply (wp_shift m _ t x y); [| |exact Hs|done..|exact HQ]).
  - apply shl_ok.
  - intros v n e Hv Hn. rewrite shl_exact by done. case_match; intros; by simplify_eq.
  - apply shr_ok.
  - intros v n e Hv Hn. rewrite shr_exact by done. case_match; intros; by simplify_eq.
Qed.
Lemma exec_casts i k t u x vs' :
  cast_target i = Some u → is_integer t = true → vs = x :: vs' → val_ok m x t →
  Forall2 (val_ok m) vs' k → wp allowed (exec_instr i) s (instruction_post i (u :: k) ls).
Proof.
  intros Hi Ht Hvs Hx Hvs'.
  assert (∀ g w (o : int_cast g w) make, (∀ z, in_width w z → val_ok m (make z) u) →
    ∀ s1 Q, mc_stack s1 = [x] ++ vs' ++ rest →
    (∀ v, val_ok m v u → Q () (set_stack (v :: vs' ++ rest) s1)) → wp allowed (cast_integer g make) s1 Q) as Hop.
  { intros g w o make Hmake s1 Q Hs HQ. eapply (wp_cast m o make t u x); [done|exact Hs|done..|exact HQ]. }
  destruct i; try done; injection Hi as <-;
    (eapply (exec_operation _ _ _ [x] vs'); [done|done|done|eapply Hop; [constructor|by intros z Hz]]).
Qed.
Lemma exec_comparison i k t x y vs' :
  is_comparison i = true → is_integer t = true → vs = x :: y :: vs' → val_ok m x t → val_ok m y t →
  Forall2 (val_ok m) vs' k → wp allowed (exec_instr i) s (instruction_post i (ST.Bool :: k) ls).
Proof.
  intros Hi Ht Hvs Hx Hy Hvs'.
  assert (∀ g h (o : int_cmp g h) s1 Q, mc_stack s1 = [x; y] ++ vs' ++ rest →
    (∀ v, val_ok m v ST.Bool → Q () (set_stack (v :: vs' ++ rest) s1)) →
    wp allowed (binop_bool as_integer g) s1 Q) as Hop.
  { intros g h o s1 Q Hs HQ. eapply (wp_compare_int m o t x y); [exact Hs|done..|]. intros b. by apply HQ. }
  destruct i; try done; (eapply (exec_operation _ _ _ [x; y] vs'); [done|done|done|eapply Hop; constructor]).
Qed.
Lemma exec_bool_ops (g : bool → bool → bool) i si k x y vs' :
  is_unconditional_branch i = false → vs = x :: y :: vs' → val_ok m x ST.Bool → val_ok m y ST.Bool →
  Forall2 (val_ok m) vs' k →
  wp allowed (simple si;; binop_bool as_bool (λ l r, Ok (g l r));; sret RetOk)%sem s
    (instruction_post i (ST.Bool :: k) ls).
Proof.
  intros Hi Hvs Hx Hy Hvs'. eapply (exec_operation _ _ _ [x; y] vs'); [done..|]. intros s1 Q Hs HQ.
  eapply (wp_binop_bool m g x y); [exact Hs|done..|]. intros b. by apply HQ.
Qed.
Lemma exec_not k x vs' :
  vs = x :: vs' → val_ok m x ST.Bool → Forall2 (val_ok m) vs' k →
  wp allowed (exec_instr Bc.Not) s (instruction_post Bc.Not (ST.Bool :: k) ls).
Proof.
  intros Hvs Hx Hvs'. destruct (as_bool_ok m x Hx) as (b & Hb). simpl.
  apply wp_bind, wp_simple. intros g Hg Hmax.
  apply wp_bind. eapply wp_pop_as; [simpl; by rewrite Hstack, Hvs|done|].
  apply wp_bind, wp_push, wp_ret. eapply post_next; try done. by apply push_typed.
Qed.
Lemma exec_equality i charge result k t x y vs' :
  is_unconditional_branch i = false → vs = x :: y :: vs' → val_ok m x t → val_ok m y t →
  Forall2 (val_ok m) vs' k → counted 1 (charge x y) →
  wp allowed (compare charge result) s (instruction_post i (ST.Bool :: k) ls).
Proof.
  intros Hi Hvs Hx Hy Hvs' Hc. destruct (equals_ok m x y t Hx Hy) as (b & Hb & _). unfold compare.
  apply wp_bind. eapply wp_pop; [by rewrite Hstack, Hvs|]. apply wp_bind. eapply wp_pop; [done|].
  apply wp_bind, (wp_charge 1); [done|]. intros g Hg Hmax.
  apply wp_bind. eapply wp_exec; [done|]. apply wp_bind, wp_result.
  apply wp_bind, wp_push, wp_ret. eapply post_next; try done; [by apply Hmax|]. by apply push_typed.
Qed.

Lemma exec_copy_loc idx t k ls2 :
  local_types f !! idx = Some t → local_step abil (Bc.CopyLoc idx) ls = Some ls2 → Forall2 (val_ok m) vs k →
  wp allowed (exec_instr (Bc.CopyLoc idx)) s (instruction_post (Bc.CopyLoc idx) (t :: k) ls2).
Proof.
  intros Ht Hstep Hvs. simpl in Hstep. destruct (ls !! idx) as [a|] eqn:Ha; simpl in Hstep; [|done].
  case_bool_decide; simplify_eq. destruct (local_available _ _ _ _ _ _ Hlocals Ha Ht) as (v & Hv & Hvt).
  simpl. apply wp_bind, wp_get. apply wp_bind, wp_result.
  assert (copy_loc (fr_locals (mc_frame s)) idx = Ok v) as ->.
  { unfold copy_loc. rewrite Hv. rewrite (copy_value_ok m v t Hvt). by destruct v. }
  apply wp_bind, (wp_charge 1).
  { apply (counted_size v); [by eapply val_ok_visitable|]. intros z. apply counted_plain. }
  intros g Hg Hmax. apply wp_bind, wp_push, wp_ret. simpl. rewrite Hstack.
  eapply post_next; try done; [by apply Hmax|]. by apply push_typed.
Qed.
Lemma exec_move_loc idx t k ls2 :
  local_types f !! idx = Some t → local_step abil (Bc.MoveLoc idx) ls = Some ls2 → Forall2 (val_ok m) vs k →
  wp allowed (exec_instr (Bc.MoveLoc idx)) s (instruction_post (Bc.MoveLoc idx) (t :: k) ls2).
Proof.
  intros Ht Hstep Hvs. simpl in Hstep. destruct (ls !! idx) as [a|] eqn:Ha; simpl in Hstep; [|done].
  case_bool_decide; simplify_eq. destruct (local_available _ _ _ _ _ _ Hlocals Ha Ht) as (v & Hv & Hvt).
  simpl. apply wp_bind, wp_get. apply wp_bind, wp_result.
  assert (move_loc (fr_locals (mc_frame s)) idx = Ok (v, <[idx := Invalid]> (fr_locals (mc_frame s)))) as ->.
  { unfold move_loc, swap_loc. rewrite Hv. simpl. by destruct v. }
  apply wp_bind, wp_modify, wp_bind, (wp_charge 1).
  { apply (counted_size v); [by eapply val_ok_visitable|]. intros z. apply counted_plain. }
  intros g Hg Hmax. apply wp_bind, wp_push, wp_ret. simpl. rewrite Hstack.
  split; [|done]. split_and!; [by apply push_typed| |done|done|by apply Hmax]. simpl.
  eapply frame_locals_insert; [done|done|by left|done].
Qed.
Lemma exec_st_loc idx t k ls2 x vs' :
  local_types f !! idx = Some t → local_step abil (Bc.StLoc idx) ls = Some ls2 →
  vs = x :: vs' → val_ok m x t → Forall2 (val_ok m) vs' k →
  wp allowed (exec_instr (Bc.StLoc idx)) s (instruction_post (Bc.StLoc idx) k ls2).
Proof.
  intros Ht Hstep Hvs Hx Hvs'. simpl in Hstep. destruct (ls !! idx) as [a|] eqn:Ha; simpl in Hstep; [|done].
  destruct (abil !! idx) as [ab|]; simpl in Hstep; [|done]. case_match; simplify_eq.
  destruct (local_in_range _ _ _ _ _ _ Hlocals Ht) as (v & Hv).
  simpl. apply wp_bind. eapply wp_pop; [done|]. apply wp_bind, (wp_charge 1).
  { apply (counted_size x); [by eapply val_ok_visitable|]. intros z. apply counted_plain. }
  intros g Hg Hmax. apply wp_bind, wp_get, wp_bind, wp_result. unfold store_loc, swap_loc. simpl. rewrite Hv. simpl.
  apply wp_bind, wp_modify, wp_ret. split; [|done]. split_and!; [by exists vs'| |done|done|by apply Hmax]. simpl.
  eapply frame_locals_insert; [done|done|by right|]. by destruct x.
Qed.

Lemma exec_conditional i si o (taken : bool → bool) k x vs' :
  branch_offset i = Some o → is_unconditional_branch i = false →
  vs = x :: vs' → val_ok m x ST.Bool → Forall2 (val_ok m) vs' k →
  wp allowed (simple si;; b ← pop_as as_bool; if taken b then jump o else sret RetOk)%sem s
    (instruction_post i k ls).
Proof.
  intros Ho Hi Hvs Hx Hvs'. destruct (as_bool_ok m x Hx) as (b & Hb).
  apply wp_bind, wp_simple. intros g Hg Hmax. apply wp_bind.
  eapply wp_pop_as; [simpl; by rewrite Hstack, Hvs|done|]. destruct (taken b).
  - apply wp_bind, wp_modify, wp_ret. split; [|done]. split_and!; [by exists vs'|done..].
  - apply wp_ret. eapply post_next; try done. by exists vs'.
Qed.
Lemma exec_branch o k :
  Forall2 (val_ok m) vs k →
  wp allowed (exec_instr (Bc.Branch o)) s (instruction_post (Bc.Branch o) k ls).
Proof.
  intros Hvs. simpl. apply wp_bind, wp_simple. intros g Hg Hmax. apply wp_bind, wp_modify, wp_ret.
  split; [|done]. split_and!; [by exists vs|done..].
Qed.
Lemma exec_pop k t x vs' :
  vs = x :: vs' → val_ok m x t → Forall2 (val_ok m) vs' k →
  wp allowed (exec_instr Bc.Pop) s (instruction_post Bc.Pop k ls).
Proof.
  intros Hvs Hx Hvs'. simpl. apply wp_bind. eapply wp_pop; [by rewrite Hstack, Hvs|].
  apply wp_bind, (wp_charge 1).
  { apply (counted_size x); [by eapply val_ok_visitable|]. intros z. apply counted_plain. }
  intros g Hg Hmax. apply wp_ret. eapply post_next; try done; [by apply Hmax|]. by exists vs'.
Qed.
Lemma exec_abort i k x vs' :
  vs = x :: vs' → val_ok m x ST.U64 → wp allowed (exec_instr Bc.Abort) s (instruction_post i k ls).
Proof.
  intros Hvs Hx. destruct (as_u64_ok m x Hx) as (z & Hz). simpl. apply wp_bind, wp_simple. intros g Hg Hmax.
  apply wp_bind. eapply wp_pop_as; [simpl; by rewrite Hstack, Hvs|done|]. by apply wp_err.
Qed.

Lemma exec_pack idx sd fields k :
  operands_loaded m c lm (Bc.Pack idx) → cm_struct_defs m !! idx = Some sd →
  sd_field_information sd = Declared fields → Forall2 (val_ok m) vs (rev (map fd_signature fields) ++ k) →
  wp allowed (exec_instr (Bc.Pack idx)) s
    (instruction_post (Bc.Pack idx) (ST.Struct (sd_struct_handle sd) :: k) ls).
Proof.
  intros [_ Hload] Hsd Hf Hvs. destruct (Hload _ _ Hsd Hf) as (Hcount & ty & Hty & Hdepth).
  apply Forall2_app_inv_r in Hvs as (xs & vs' & Hxs & Hvs' & Hvs). rewrite Hvs in Hstack.
  assert (length xs = length fields) as Hlen.
  { apply Forall2_length in Hxs. by rewrite length_rev, length_map in Hxs. }
  simpl. apply wp_bind. eapply wp_exec; [done|]. apply wp_bind. eapply wp_exec; [done|].
  apply wp_bind, wp_result. specialize (Hdepth max_value_nest_depth).
  destruct (check_depth_of_type _ _ _) as [d|e]; [|by subst e].
  rewrite <-app_assoc in Hstack. rewrite Nat2Z.id. apply wp_bind. eapply wp_last_n; [done..|].
  apply wp_bind, (wp_charge 1); [apply counted_plain|]. intros g Hg Hmax.
  apply wp_bind. eapply wp_popn; [done..|]. apply wp_bind, wp_push, wp_ret.
  eapply post_next; try done; [by apply Hmax|]. apply push_typed; [done|].
  apply val_ok_struct. eexists. split; [by eapply struct_fields_of|].
  apply Forall2_rev in Hxs. by rewrite rev_involutive in Hxs.
Qed.
Lemma exec_unpack idx sd fields k x vs' :
  cm_struct_defs m !! idx = Some sd → sd_field_information sd = Declared fields →
  vs = x :: vs' → val_ok m x (ST.Struct (sd_struct_handle sd)) → Forall2 (val_ok m) vs' k →
  wp allowed (exec_instr (Bc.Unpack idx)) s
    (instruction_post (Bc.Unpack idx) (rev (map fd_signature fields) ++ k) ls).
Proof.
  intros Hsd Hf Hvs Hx Hvs'. destruct (as_struct_ok m x _ _ Hx (struct_fields_of _ _ _ _ Hunique Hsd Hf)) as (r & Hr & Hrt).
  simpl. apply wp_bind. eapply wp_pop_as; [by rewrite Hstack, Hvs|done|].
  apply wp_bind, (wp_charge 1); [apply counted_plain|]. intros g Hg Hmax.
  apply wp_bind, wp_push_all, wp_ret. eapply post_next; try done; [by apply Hmax|].
  exists (rev r ++ vs'). split; [simpl; by rewrite <-app_assoc|]. apply Forall2_app; [by apply Forall2_rev|done].
Qed.
Lemma exec_vec_pack idx num sig t k :
  operands_loaded m c lm (Bc.VecPack idx num) → cm_signatures m !! idx = Some sig → sig !! 0%nat = Some t →
  Forall2 (val_ok m) vs (replicate (Z.to_nat num) t ++ k) →
  wp allowed (exec_instr (Bc.VecPack idx num)) s (instruction_post (Bc.VecPack idx num) (ST.Vector t :: k) ls).
Proof.
  intros [Hop [Hnum Hload]] Hsig Ht Hvs. destruct (Hload _ _ Hsig Ht) as (ty & Hty & Hhead & Hdepth). simpl in Hop.
  apply Forall2_app_inv_r in Hvs as (xs & vs' & Hxs & Hvs' & Hvs). rewrite Hvs, <-app_assoc in Hstack.
  assert (length xs = Z.to_nat num) as Hlen by (apply Forall2_length in Hxs; by rewrite length_replicate in Hxs).
  simpl. apply wp_bind. eapply wp_exec; [done|].
  apply wp_bind, wp_result. specialize (Hdepth max_value_nest_depth).
  destruct (check_depth_of_type _ _ _) as [d|e]; [|by subst e].
  apply wp_bind. eapply wp_last_n; [done..|].
  apply wp_bind, (wp_charge 1); [apply counted_plain|]. intros g Hg Hmax.
  apply wp_bind. eapply wp_popn; [done|by rewrite Z.mod_small by lia|]. apply wp_bind, wp_result.
  destruct (Vector_pack_ok m t ty (rev xs) Hhead) as (v & -> & Hv).
  { rewrite <-Hlen in Hxs. apply Forall_rev. clear -Hxs.
    rewrite Forall_lookup. intros i x Hx. destruct (Forall2_lookup_l _ _ _ _ _ Hxs Hx) as (u & Hu & Hxu).
    by apply lookup_replicate in Hu as [-> _]. }
  apply wp_bind, wp_push, wp_ret. eapply post_next; try done; [by apply Hmax|]. by apply push_typed.
Qed.
Lemma exec_vec_unpack idx num sig t k x vs' :
  operands_loaded m c lm (Bc.VecUnpack idx num) → cm_signatures m !! idx = Some sig → sig !! 0%nat = Some t →
  vs = x :: vs' → val_ok m x (ST.Vector t) → Forall2 (val_ok m) vs' k →
  wp allowed (exec_instr (Bc.VecUnpack idx num)) s
    (instruction_post (Bc.VecUnpack idx num) (replicate (Z.to_nat num) t ++ k) ls).
Proof.
  intros [Hop [Hnum Hload]] Hsig Ht Hvs Hx Hvs'. destruct (Hload _ _ Hsig Ht) as (ty & Hty & Hhead & _). simpl in Hop.
  destruct (Vector_unpack_ok m x t ty num Hx Hhead) as (v & r & Hv & Hr & Hpost); [lia|].
  simpl. apply wp_bind. eapply wp_pop_as; [by rewrite Hstack, Hvs|done|].
  apply wp_bind. eapply wp_exec; [done|].
  apply wp_bind, (wp_charge 1); [apply counted_plain|]. intros g Hg Hmax.
  apply wp_bind. eapply wp_exec; [done|]. apply wp_bind, wp_result.
  destruct r as [l|e]; [|by subst e]. destruct Hpost as [Hlen Hl].
  apply wp_bind, wp_push_all, wp_ret. eapply post_next; try done; [by apply Hmax|].
  exists (rev l ++ vs'). split; [simpl; by rewrite <-app_assoc|]. apply Forall2_app; [|done].
  rewrite <-Hlen, <-length_rev. apply Forall_rev in Hl. clear -Hl.
  induction Hl; simpl; by constructor.
Qed.

(** Every instruction that stays in its function. *)
Lemma exec_instruction i k k2 ls2 :
  type_step m f i k k2 → local_step abil i ls = Some ls2 → operands_loaded m c lm i →
  Forall2 (val_ok m) vs k → (∀ idx, i ≠ Bc.Call idx) → i ≠ Bc.Ret →
  wp allowed (exec_instr i) s (instruction_post i k2 ls2).
Proof.
  intros Hty Hls Hop Hvs Hcall Hret.
  assert ((∀ idx, i ≠ Bc.CopyLoc idx) → (∀ idx, i ≠ Bc.MoveLoc idx) → (∀ idx, i ≠ Bc.StLoc idx) → ls2 = ls) as Hsame.
  { intros. destruct i; simpl in Hls; simplify_eq; naive_solver. }
  destruct Hty; try done;
    repeat match goal with
      | H : Forall2 _ _ (_ :: _) |- _ =>
          let x := fresh "x" in let l := fresh "l" in let Hx := fresh "Hx" in let Hl := fresh "Hl" in
          apply Forall2_cons_inv_r in H as (x & l & Hx & H & Hl);
          match type of Hl with vs = _ => idtac | ?a = _ => subst a end
      end.
  all: try (rewrite Hsame by (intros ? Heq; first [discriminate Heq|subst; by simplify_eq/=]); clear Hsame).
  - by eapply exec_pop.
  - by eapply (exec_conditional (Bc.BrTrue o) _ o id).
  - by eapply (exec_conditional (Bc.BrFalse o) _ o negb).
  - by apply exec_branch.
  - simpl. apply wp_bind, wp_simple. intros g Hg Hmax. apply wp_ret. eapply post_next; try done. by exists vs.
  - by eapply exec_abort.
  - eapply exec_loads; [apply Hop|done..].
  - by eapply exec_st_loc.
  - by apply exec_copy_loc.
  - by apply exec_move_loc.
  - by destruct (Hcall idx).
  - by eapply exec_pack.
  - by eapply exec_unpack.
  - by eapply exec_casts.
  - by eapply exec_arith.
  - by eapply exec_shifts.
  - by eapply exec_comparison.
  - by eapply exec_bool_ops.
  - by eapply exec_bool_ops.
  - by eapply exec_not.
  - eapply exec_equality; try done. apply counted_compare; by eapply val_ok_visitable.
  - eapply exec_equality; try done. apply counted_compare; by eapply val_ok_visitable.
  - by eapply exec_vec_pack.
  - by eapply exec_vec_unpack.
Qed.
End instruction.
