(* ===== verification/TypeSoundness.v ===== *)
(** Type soundness of the interpreter on verified modules.

    A running program is described by the types of the verifier ([machine_ok]):
    the operand stack holds values of the types computed for the current
    program point, above those of the suspended callers ([frames_ok]), and the
    locals hold values of their types wherever the locals analysis says they are
    available.  Calls and returns keep that description, so none of the errors
    that stand for a broken invariant is returned, and since every instruction
    advances a 64-bit counter of the meter, execution ends. *)
From S2P Require Import Prelude Objects Errors GasTables.
From S2P Require Import MoveValues GasMeter MoveIntegers MoveModule.
From S2P Require Import VmMonad ControlFlow TraversalOrder AbstractInterp.
From S2P Require Import LocalsSafety AbstractStack CodeVerifier VerifierFacts.
From S2P Require Import VerifiedModule VmValues VmLoader Interpreter.
From S2P Require Import ValueTyping LoaderContract InstructionTyping.

(** A loaded function, with what the verifier knows of its body. *)
Record running (m : CompiledModule) (func : Function) (f : FunctionView) (order : list nat)
    (abil : list AbilitySet) (inv : gmap nat (list LocalState)) : Prop := {
  rn_def : ∃ i def code, def ∈ cm_function_defs m ∧ def_code def = Some code ∧
    Function_new i def m = Done func ∧ verified_function m def code f order abil inv;
  rn_ground : fv_type_parameters f = [];
}.

(** The instructions that end a turn of the loop over frames, and the others. *)
Lemma leaves_function (i : Bytecode) :
  i = Bc.Ret ∨ (∃ idx, i = Bc.Call idx) ∨ i ≠ Bc.Ret ∧ ∀ idx, i ≠ Bc.Call idx.
Proof. destruct i; try (by right; right); [by left|right; left; by eexists]. Qed.

Section program.
Context (m : CompiledModule) (c : ModuleCache) (lm : LoadedModule) `{!LoaderContract m c lm}.
Context (max_value_nest_depth : option Z) (call_native : Function → vmsem unit).
Context (Hm : verified_module m) (Hsized : module_sized m).
Context (Hbodies : ∀ def, def ∈ cm_function_defs m → is_Some (def_code def)).

Lemma running_function func f order abil inv :
  running m func f order abil inv →
  fn_code func = fv_code f ∧ fn_def_is_native func = false ∧
  fn_parameters_len func = length (fv_parameters f) ∧ fn_locals_len func = length (local_types f).
Proof.
  intros [(i & def & code & Hdef & Hcode & Hnew & Hvf) _]. destruct (vf_handle _ _ _ _ _ _ _ Hvf) as (fh & Hfh & Hp & Hr & _).
  unfold Function_new, function_handle_at, signature_at in Hnew. rewrite Hfh in Hnew. simpl in Hnew.
  rewrite Hp, Hr, Hcode, (vf_locals _ _ _ _ _ _ _ Hvf) in Hnew. exec_inv.
  rewrite (vf_code _ _ _ _ _ _ _ Hvf). unfold local_types. by rewrite length_app.
Qed.

Lemma running_operands func f order abil inv pc i :
  running m func f order abil inv → fv_code f !! pc = Some i →
  operands_loaded m c lm i ∧ instruction_ok m i.
Proof.
  intros [(j & def & code & Hdef & Hcode & Hnew & Hvf) Hground] Hi.
  destruct (vf_handle _ _ _ _ _ _ _ Hvf) as (fh & Hfh & _ & _ & Htp).
  rewrite (vf_code _ _ _ _ _ _ _ Hvf) in Hi. apply list_elem_of_lookup_2 in Hi.
  assert (instruction_ok m i) as Hok by (eapply verified_instruction; [done..|congruence|done]).
  split; [|done]. split.
  { destruct (ms_code _ Hsized _ _ Hdef Hcode) as [_ Hops]. rewrite Forall_forall in Hops. auto. }
  destruct i; try done; simpl in Hok.
  - intros sd fields Hsd Hf. destruct Hok as (sd' & sh & Hsd' & Hsh & Hnil). simplify_eq. by eapply loaded_struct.
  - destruct Hok as [Hnum Hg]. split; [done|]. intros sig t Hsig Ht. by eapply loaded_type; eauto.
  - destruct Hok as [Hnum Hg]. split; [done|]. intros sig t Hsig Ht. by eapply loaded_type; eauto.
Qed.

(** A loaded function without type parameters is running code. *)
Lemma handle_running idx fh params rets :
  cm_function_handles m !! idx = Some fh → fh_type_parameters fh = [] →
  cm_signatures m !! fh_parameters fh = Some params → cm_signatures m !! fh_return fh = Some rets →
  ∃ func f order abil inv, function_from_handle c lm idx = Done func ∧ running m func f order abil inv ∧
    fv_parameters f = params ∧ fv_return f = rets.
Proof.
  intros Hfh Hnil Hp Hr. destruct (loaded_function idx fh Hfh) as (i & def & func & Hdef & Hidx & Hnew & Hfrom).
  destruct (Hbodies def Hdef) as [code Hcode].
  destruct (vm_functions _ Hm def code Hdef Hcode) as (f & order & abil & inv & Hvf).
  destruct (vf_handle _ _ _ _ _ _ _ Hvf) as (fh' & Hfh' & Hp' & Hr' & Htp). rewrite Hidx in Hfh'. simplify_eq.
  exists func, f, order, abil, inv. split_and!; [done| |congruence..]. split; [by eexists _, _, _|congruence].
Qed.

(** * The state of a program *)

Definition frame_ok (fr : Frame) (rets k : list SignatureToken) : Prop :=
  ∃ f order abil inv ls, running m (fr_function fr) f order abil inv ∧ fv_return f = rets ∧
    at_pc m f order abil inv (fr_pc fr) k ls ∧ frame_locals m f ls (fr_locals fr).
Definition machine_ok (rets : list SignatureToken) (s : Machine) (rest : list ValueImpl) : Prop :=
  ∃ k vs, frame_ok (mc_frame s) rets k ∧ mc_stack s = vs ++ rest ∧ Forall2 (val_ok m) vs k.

(** A suspended caller, which goes on after its [Call] with the results. *)
Definition suspended (fr : Frame) (callee_rets k rets : list SignatureToken) : Prop :=
  (S (fr_pc fr) ≤ u16_MAX)%nat ∧ frame_ok (with_pc (S (fr_pc fr)) fr) rets (rev callee_rets ++ k).
(** The callers of a frame that returns [rets], down to the one whose results
    are [final], and what they left on the stack. *)
Inductive frames_ok (final : list SignatureToken) : list SignatureToken → list Frame → list ValueImpl → Prop :=
  | frames_nil : frames_ok final final [] []
  | frames_cons rets fr frames vs k rest rets' :
      suspended fr rets k rets' → Forall2 (val_ok m) vs k → frames_ok final rets' frames rest →
      frames_ok final rets (fr :: frames) (vs ++ rest).

Lemma running_step func f order abil inv pc k ls :
  running m func f order abil inv → at_pc m f order abil inv pc k ls →
  (pc < length (fv_code f) ≤ u16_MAX)%nat ∧
  ∃ i k2 ls2, fv_code f !! pc = Some i ∧ type_step m f i k k2 ∧ local_step abil i ls = Some ls2 ∧
    (is_branch i = true → k2 = []) ∧
    ∀ pc', flows pc i pc' → ∃ ls', at_pc m f order abil inv pc' k2 ls' ∧ Forall2 local_leq ls2 ls'.
Proof.
  intros [(i & def & code & Hdef & Hcode & Hnew & [? ? ? Hview Hend Hsafe Htyped]) _] Hat.
  destruct (at_pc_step m f order abil inv Hview Hsafe Htyped Hend pc k ls Hat) as (j & k2 & ls2 & Hj & Hrest).
  split; [|by eauto]. split; [by eapply lookup_lt_Some|]. apply (vo_code _ _ Hview).
Qed.

(** * Running one frame *)

Definition exit_ok (rets : list SignatureToken) (rest : list ValueImpl) (before : Z)
    (exit_code : ExitCode) (s : Machine) : Prop :=
  executed s ≤ u64_max ∧
  match exit_code with
  | ExitReturn => before < executed s ∧
      ∃ vs, mc_stack s = vs ++ rest ∧ Forall2 (val_ok m) vs (rev rets)
  | ExitCall idx => before ≤ executed s ∧
      ∃ fh params callee_rets k args vs,
        cm_function_handles m !! idx = Some fh ∧ fh_type_parameters fh = [] ∧
        cm_signatures m !! fh_parameters fh = Some params ∧
        cm_signatures m !! fh_return fh = Some callee_rets ∧
        mc_stack s = args ++ vs ++ rest ∧ Forall2 (val_ok m) args (rev params) ∧
        Forall2 (val_ok m) vs k ∧ suspended (mc_frame s) callee_rets k rets
  end.
Lemma exit_ok_mono rets rest before before' e s :
  exit_ok rets rest before e s → before' ≤ before → exit_ok rets rest before' e s.
Proof. intros [Hmax Hexit] Hle. split; [done|]. destruct e; destruct Hexit; (split; [lia|done]). Qed.

Lemma exec_return rets s rest f k :
  fv_return f = rets → type_step m f Bc.Ret k [] → executed s ≤ u64_max →
  (∃ vs, mc_stack s = vs ++ rest ∧ Forall2 (val_ok m) vs k) →
  wp allowed (execute_instruction c lm max_value_nest_depth Bc.Ret) s
    (λ r s', r = RetExitCode ExitReturn ∧ exit_ok rets rest (executed s) ExitReturn s').
Proof.
  intros Hret Hty Hmax (vs & Hs & Hvs). inversion Hty; subst; try done.
  simpl. apply wp_bind, wp_simple. intros g Hg Hgm. apply wp_ret. split; [done|].
  rewrite app_nil_r in Hvs. split; [done|]. split; [|by exists vs]. unfold executed at 2. simpl. lia.
Qed.
Lemma exec_call rets s rest idx f order abil inv k k2 ls :
  running m (fr_function (mc_frame s)) f order abil inv → fv_return f = rets →
  frame_locals m f ls (fr_locals (mc_frame s)) → executed s ≤ u64_max → instruction_ok m (Bc.Call idx) →
  (S (fr_pc (mc_frame s)) ≤ u16_MAX)%nat → type_step m f (Bc.Call idx) k k2 →
  (∃ ls', at_pc m f order abil inv (S (fr_pc (mc_frame s))) k2 ls' ∧ Forall2 local_leq ls ls') →
  (∃ vs, mc_stack s = vs ++ rest ∧ Forall2 (val_ok m) vs k) →
  exit_ok rets rest (executed s) (ExitCall idx) s.
Proof.
  intros Hrun Hret Hfl Hmax (fh & Hfh & Hnil) Hpc Hty (ls' & Hat & Hle) (vs & Hs & Hvs).
  split; [done|]. split; [done|]. inversion Hty; subst; simplify_eq/=.
  apply Forall2_app_inv_r in Hvs as (args & vs' & Hargs & Hvs' & ->). rewrite <-app_assoc in Hs.
  eexists _, _, _, _, args, vs'. split_and!; [done..|]. split; [done|]. exists f, order, abil, inv, ls'.
  split_and!; [done..|]. by eapply frame_locals_leq.
Qed.

Lemma execute_code_sound fuel rets s rest :
  machine_ok rets s rest → executed s ≤ u64_max → u64_max - executed s < Z.of_nat fuel →
  wp allowed (execute_code c lm max_value_nest_depth fuel) s (exit_ok rets rest (executed s)).
Proof.
  revert s. induction fuel as [|fuel IH]; intros s Hok Hmax Hfuel; [lia|].
  destruct Hok as (k & vs & (f & order & abil & inv & ls & Hrun & Hret & Hat & Hfl) & Hs & Hvs).
  destruct (running_step _ _ _ _ _ _ _ _ Hrun Hat) as (Hpc & i & k2 & ls2 & Hi & Hty & Hls & Hbr & Hflow).
  destruct (running_operands _ _ _ _ _ _ _ Hrun Hi) as [Hops Hins].
  destruct (running_function _ _ _ _ _ Hrun) as (Hcode & _).
  cbn [execute_code]. apply wp_bind, wp_get. rewrite Hcode, Hi. apply wp_bind.
  destruct (leaves_function i) as [->|[[idx ->]|[Hnret Hncall]]].
  { rewrite Hbr in Hty by done. eapply wp_mono; [by eapply exec_return; eauto|].
    intros r s' [-> Hex]. by apply wp_bind, wp_get, wp_ret. }
  { simpl. apply wp_ret, wp_bind, wp_get, wp_ret. injection Hls as <-.
    destruct (Hflow (S (fr_pc (mc_frame s)))) as (ls' & Hat' & Hle); [by left|].
    pose proof (running_step _ _ _ _ _ _ _ _ Hrun Hat') as [Hpc' _].
    eapply exec_call; eauto. lia. }
  eapply wp_mono; [by eapply exec_instruction; eauto using duplication_checked, vm_duplication|].
  intros r s' [((vs' & Hs' & Hvs') & Hfl' & Hfun & Hex & Hexm) Hr]. apply wp_bind, wp_get.
  assert (∀ fr, fr_function fr = fr_function (mc_frame s) → fr_locals fr = fr_locals (mc_frame s') →
    flows (fr_pc (mc_frame s)) i (fr_pc fr) →
    wp allowed (execute_code c lm max_value_nest_depth fuel) (set_frame fr s') (exit_ok rets rest (executed s))) as Hnext.
  { intros fr Hff Hfrl Hfrp. destruct (Hflow _ Hfrp) as (ls' & Hat' & Hle).
    eapply wp_mono; [apply IH|intros e s2 He; eapply exit_ok_mono; [exact He|]]; unfold executed in *; simpl; try lia.
    exists k2, vs'. split_and!; [|done|done]. exists f, order, abil, inv, ls'.
    simpl. rewrite Hff, Hfrl. split_and!; [done..|]. by eapply frame_locals_leq. }
  destruct r as [|e|]; [|done|].
  - destruct Hr as [Hu Hpce]. destruct (Hflow (S (fr_pc (mc_frame s')))) as (ls' & Hat' & _); [left; by rewrite Hpce|].
    pose proof (running_step _ _ _ _ _ _ _ _ Hrun Hat') as [Hpc' _].
    assert ((S (fr_pc (mc_frame s')) <=? u16_MAX)%nat = true) as -> by (apply Nat.leb_le; lia).
    apply wp_bind. eapply wp_exec; [done|].
    apply wp_bind, wp_modify, Hnext; [done..|]. left. simpl. by rewrite Hpce.
  - destruct (Hflow (fr_pc (mc_frame s'))) as (ls' & Hat' & _); [by right|].
    pose proof (running_step _ _ _ _ _ _ _ _ Hrun Hat') as [Hpc' _].
    assert ((length (fv_code f) <=? fr_pc (mc_frame s'))%nat = false) as -> by (apply Nat.leb_gt; lia).
    specialize (Hnext (mc_frame s')).
    destruct s'. apply Hnext; [done..|by right].
Qed.

(** * Calls and returns *)

Lemma wp_store_args n args st locals s (Q : list ValueImpl → Machine → Prop) :
  mc_stack s = args ++ st → length args = n → (n ≤ length locals)%nat →
  Q (rev args ++ drop n locals) (set_stack st s) → wp allowed (store_args n locals) s Q.
Proof.
  revert args locals s. induction n as [|n IH]; intros args locals s Hs Hlen Hle HQ; simpl.
  - destruct args; [|done]. apply wp_ret. rewrite drop_0 in HQ. simpl in *. subst st. by destruct s.
  - destruct args as [|v args]; simplify_eq/=. apply wp_bind. eapply wp_pop; [done|].
    destruct (lookup_lt_is_Some_2 locals (length args)) as [w Hw]; [lia|].
    apply wp_bind, wp_result. unfold store_loc, swap_loc. rewrite Hw. simpl.
    apply (IH args); [done|done|rewrite length_insert; lia|].
    rewrite drop_insert_ge, Nat.sub_diag by lia. rewrite (drop_S _ _ _ Hw). simpl.
    by rewrite <-app_assoc in HQ.
Qed.
Lemma store_all_ok args pre locals :
  (length args ≤ length locals)%nat →
  store_all (length pre) (pre ++ locals) args = Ok (pre ++ args ++ drop (length args) locals).
Proof.
  revert pre locals. induction args as [|v args IH]; intros pre locals Hle; simpl.
  - by rewrite drop_0.
  - destruct locals as [|w locals]; simpl in Hle; [lia|]. unfold store_loc, swap_loc.
    rewrite lookup_app_r, Nat.sub_diag by lia. simpl. rewrite insert_app_r_alt, Nat.sub_diag by lia. simpl.
    specialize (IH (pre ++ [v]) locals). rewrite length_app, <-!app_assoc in IH. simpl in IH.
    rewrite Nat.add_comm in IH. simpl in IH. apply IH. lia.
Qed.

(** The locals of a new frame: the arguments, and nothing yet in the others. *)
Lemma new_frame_ok func f order abil inv args :
  running m func f order abil inv → Forall2 (val_ok m) args (fv_parameters f) →
  frame_ok (make_new_frame func (args ++ drop (length args) (Locals_new (fn_locals_len func)))) (fv_return f) [].
Proof.
  intros Hrun Hargs. pose proof (Forall2_length _ _ _ Hargs) as Hlen.
  destruct (running_function _ _ _ _ _ Hrun) as (_ & _ & _ & ->).
  destruct Hrun as [(i & def & code & Hdef & Hcode & Hnew & Hvf) Hground].
  destruct (at_entry m f order abil inv (vf_view _ _ _ _ _ _ _ Hvf) (vf_safe _ _ _ _ _ _ _ Hvf)
    (vf_typed _ _ _ _ _ _ _ Hvf)) as (ls & Hat & Hle).
  exists f, order, abil, inv, ls. split_and!; [by split; [eexists _, _, _|]|done|done|].
  eapply frame_locals_leq; [|done]. unfold local_types, Locals_new. simpl.
  rewrite length_app, drop_replicate, Hlen, Nat.add_sub_swap, Nat.sub_diag by done. simpl. split.
  - apply Forall2_app; [eapply Forall2_impl; [done|by right]|].
    apply Forall2_same_length_lookup_2; [apply length_replicate|].
    intros j v t Hv _. apply lookup_replicate in Hv as [-> _]. by left.
  - apply Forall2_same_length_lookup_2.
    { unfold initial_locals. rewrite !length_map, length_seq, length_app, length_replicate. lia. }
    intros j b a Hb Ha. unfold initial_locals in Ha. apply list_lookup_fmap_Some in Ha as (x & -> & [-> _]%lookup_seq).
    apply list_lookup_fmap_Some in Hb as (v & -> & Hv). simpl. apply lookup_app_Some in Hv as [Hv|[Hge Hv]].
    + rewrite (proj2 (Nat.ltb_lt _ _)) by (apply lookup_lt_Some in Hv; lia). simpl.
      destruct (Forall2_lookup_l _ _ _ _ _ Hargs Hv) as (t & _ & Ht). by destruct v.
    + rewrite (proj2 (Nat.ltb_ge _ _)) by lia. by apply lookup_replicate in Hv as [-> _].
Qed.

Lemma make_call_frame_ok func f order abil inv args rest s (Q : Frame → Machine → Prop) :
  running m func f order abil inv → Forall2 (val_ok m) args (rev (fv_parameters f)) →
  mc_stack s = args ++ rest →
  (∀ fr, frame_ok fr (fv_return f) [] → Q fr (set_stack rest s)) →
  wp allowed (make_call_frame func) s Q.
Proof.
  intros Hrun Hargs Hs HQ. pose proof (running_function _ _ _ _ _ Hrun) as (_ & _ & Hp & Hl).
  pose proof (Forall2_length _ _ _ Hargs) as Hlen. rewrite length_rev in Hlen.
  apply Forall2_rev in Hargs. rewrite rev_involutive in Hargs.
  unfold make_call_frame. apply wp_bind. eapply wp_store_args; [done|lia| |].
  { unfold Locals_new. rewrite length_replicate, Hl. unfold local_types. rewrite length_app. lia. }
  apply wp_ret, HQ. rewrite Hp, <-Hlen, <-length_rev. by eapply new_frame_ok.
Qed.

Lemma main_loop_sound code_fuel fuel final rets frames rest s :
  machine_ok rets s rest → frames_ok final rets frames rest → executed s ≤ u64_max →
  u64_max - executed s < Z.of_nat code_fuel → u64_max - executed s < Z.of_nat fuel →
  wp allowed (main_loop c lm max_value_nest_depth call_native code_fuel fuel frames) s
    (λ vs _, Forall2 (val_ok m) vs (rev final)).
Proof.
  revert rets frames rest s.
  induction fuel as [|fuel IH]; intros rets frames rest s Hok Hframes Hmax Hcode Hfuel; [lia|].
  cbn [main_loop]. apply wp_bind. eapply wp_mono; [by eapply execute_code_sound|].
  intros [|idx] s' [Hmax' [Hex Hexit]]; apply wp_bind, wp_get.
  - destruct Hexit as (vs & Hs & Hvs). apply wp_bind, (wp_charge 0).
    { intros g. exists g, (Ok ()). split; [done|]. intros _. split; [lia|done]. }
    intros g Hg _. rewrite Z.add_0_r in Hg. inversion Hframes as [|? fr frames' vs' k rest' rets' Hsus Hvs' Hrest]; subst.
    { apply wp_get. simpl. rewrite Hs, app_nil_r. done. }
    destruct Hsus as [Hpc Hfr]. apply wp_bind. eapply wp_exec.
    { unfold advance_pc. by rewrite (proj2 (Nat.leb_le _ _) Hpc). }
    apply wp_bind, wp_modify. eapply IH; [|done|unfold executed in *; simpl; lia..].
    eexists _, (vs ++ vs'). split_and!; [done|by simpl; rewrite Hs, <-app_assoc|by apply Forall2_app].
  - destruct Hexit as (fh & params & callee_rets & k & args & vs & Hfh & Hnil & Hp & Hr & Hs & Hargs & Hvs & Hsus).
    destruct (handle_running _ _ _ _ Hfh Hnil Hp Hr) as (func & f & order & abil & inv & Hfrom & Hrun & <- & <-).
    pose proof (running_function _ _ _ _ _ Hrun) as (_ & Hnat & Hplen & _).
    apply wp_bind. eapply wp_exec; [done|]. apply wp_bind. eapply wp_last_n; [done| |].
    { apply Forall2_length in Hargs. rewrite length_rev in Hargs. lia. }
    apply wp_bind, (wp_charge 1).
    { apply counted_call, forallb_forall. intros v Hv%in_rev%list_elem_of_In.
      apply list_elem_of_lookup_1 in Hv as [j Hj]. destruct (Forall2_lookup_l _ _ _ _ _ Hargs Hj) as (t & _ & Ht).
      by eapply val_ok_visitable. }
    intros g Hg Hgm. rewrite Hnat. apply wp_bind. eapply make_call_frame_ok; [done|done|exact Hs|].
    intros fr Hfr. case_match; [|done]. apply wp_bind, wp_modify.
    eapply IH; [| |unfold executed in *; simpl; lia..].
    + exists [], []. by split_and!.
    + by econstructor.
Qed.

Lemma execute_main_sound fuel idx fh params rets args gas :
  cm_function_handles m !! idx = Some fh → fh_type_parameters fh = [] →
  cm_signatures m !! fh_parameters fh = Some params → cm_signatures m !! fh_return fh = Some rets →
  Forall2 (val_ok m) args params → instructions_executed gas ≤ u64_max →
  u64_max - instructions_executed gas < Z.of_nat fuel →
  ∃ func gas' r, function_from_handle c lm idx = Done func ∧
    execute_main c lm max_value_nest_depth call_native fuel func args gas = Done (gas', r) ∧
    match r with Ok vs => Forall2 (val_ok m) vs rets | Err e => allowed e end.
Proof.
  intros Hfh Hnil Hp Hr Hargs Hmax Hfuel.
  destruct (handle_running _ _ _ _ Hfh Hnil Hp Hr) as (func & f & order & abil & inv & Hfrom & Hrun & <- & <-).
  pose proof (running_function _ _ _ _ _ Hrun) as (_ & _ & _ & Hl).
  exists func. unfold execute_main.
  pose proof (store_all_ok args [] (Locals_new (fn_locals_len func))) as Hst. simpl in Hst. rewrite Hst; clear Hst.
  2:{ unfold Locals_new. rewrite length_replicate, Hl. unfold local_types. rewrite length_app.
      apply Forall2_length in Hargs. lia. }
  set (s := {| mc_frame := _; mc_stack := _; mc_gas := _ |}).
  assert (machine_ok (fv_return f) s []) as Hok.
  { exists [], []. split_and!; [by eapply new_frame_ok|done|done]. }
  pose proof (main_loop_sound fuel fuel _ _ _ _ s Hok (frames_nil _) Hmax Hfuel Hfuel) as Hwp. unfold wp in Hwp.
  destruct (main_loop _ _ _ _ _ _ _ _) as [[s' r]| |]; [|done..]. simpl.
  eexists _, _. split_and!; [done..|]. destruct r as [vs|e]; [|done]. simpl.
  apply Forall2_rev in Hwp. by rewrite rev_involutive in Hwp.
Qed.
End program.
