(* ===== verification/LoaderFacts.v ===== *)
(** The loader keeps its promise: a self-contained verified module that loads
    into an empty cache satisfies [LoaderContract].

    Every definition of the module gets the struct and the function of its own
    index, since names are unique; a handle resolves to the definition it
    names; types keep their shape; and depth formulas only mention the type
    parameters of their struct, so that the depth of a type without type
    parameters can be computed. *)
From S2P Require Import Prelude Objects Errors GasTables.
From S2P Require Import MoveValues GasMeter MoveIntegers MoveModule.
From S2P Require Import VmMonad ControlFlow TraversalOrder AbstractInterp.
From S2P Require Import LocalsSafety AbstractStack CodeVerifier VerifierFacts.
From S2P Require Import VerifiedModule VmValues VmLoader Interpreter.
From S2P Require Import ValueTyping LoaderContract StructDefs.

(** * Depth formulas over [n] type parameters *)

Definition scoped (n : nat) (f : DepthFormula) : Prop := Forall (λ t, t.1 < n)%nat (df_terms f).

Lemma scoped_add n f c : scoped n f → scoped n (df_add f c).
Proof. unfold scoped. simpl. intros Hf. by apply Forall_fmap. Qed.

Definition scoped_map (n : nat) (m : gmap nat Z) : Prop := ∀ i z, m !! i = Some z → (i < n)%nat.
Lemma scoped_terms n terms (var_map : gmap nat Z) :
  scoped_map n var_map → Forall (λ t : nat * Z, t.1 < n)%nat terms →
  scoped_map n (foldl (λ (var_map : gmap nat Z) (term : nat * Z),
    <[term.1 := match var_map !! term.1 with Some prev => Z.max term.2 prev | None => term.2 end]> var_map) var_map terms).
Proof.
  revert var_map. induction terms as [|t terms IH]; intros var_map Hm Hts; [done|].
  apply Forall_cons in Hts as [Ht Hts]. simpl. apply IH; [|done].
  intros i z Hi. apply lookup_insert_Some in Hi as [[<- _]|[_ Hi]]; eauto.
Qed.
Lemma scoped_normalize n formulas : Forall (scoped n) formulas → scoped n (normalize formulas).
Proof.
  intros Hfs. unfold normalize, scoped. simpl.
  match goal with |- Forall _ (btree_iter _ (foldl ?step ?acc _).1) => set (st := step); set (a := acc) end.
  assert (scoped_map n (foldl st a formulas).1) as Hmap.
  { assert (scoped_map n a.1) as Ha by (intros i z Hi; simpl in Hi; by rewrite lookup_empty in Hi). clearbody a. revert a Ha.
    induction Hfs as [|f formulas Hf Hfs IH]; intros a Ha; [done|]. simpl. apply IH. by apply scoped_terms. }
  apply Forall_forall. intros [i z] Hi%elem_of_btree_iter. by eapply Hmap.
Qed.
Lemma scoped_subst n f (m : gmap nat DepthFormula) g :
  (∀ i h, m !! i = Some h → scoped n h) → df_subst f m = Ok g → scoped n g.
Proof.
  unfold df_subst. intros Hm Hg. apply and_then_Ok in Hg as (l & Hl & [= <-]).
  apply scoped_normalize, Forall_app. split; [by destruct (df_constant f); repeat constructor|].
  revert m l Hm Hl. induction (df_terms f) as [|[t z] terms IH]; intros m l Hm Hl; [by injection Hl as <-|].
  apply and_then_Ok in Hl as (h & Hh & Hl). apply and_then_Ok in Hl as (l' & Hl' & [= <-]).
  constructor.
  - apply scoped_add. destruct (m !! t) as [h'|] eqn:Ht; simplify_eq/=. eauto.
  - eapply IH; [|exact Hl']. intros i h' [_ Hi]%lookup_delete_Some. eauto.
Qed.
Lemma df_solve_ok f args : scoped (length args) f → ∃ z, df_solve f args = Ok z.
Proof.
  unfold df_solve, scoped. generalize (default 0 (df_constant f)).
  induction (df_terms f) as [|[t z] terms IH]; intros d Hf; [by eexists|].
  apply Forall_cons in Hf as [Ht Hf]. simpl in Ht. apply lookup_lt_is_Some_2 in Ht as [y Hy]. rewrite Hy. simpl. auto.
Qed.

(** * Types of the cache *)

Definition ty_nested_ind (P : Ty.Type_ → Prop)
    (Hvec : ∀ ty, P ty → P (Ty.Vector ty)) (Href : ∀ ty, P ty → P (Ty.Reference ty))
    (Hmut : ∀ ty, P ty → P (Ty.MutableReference ty))
    (Hinst : ∀ i tys, Forall P tys → P (Ty.StructInstantiation i tys))
    (Hatom : ∀ ty, match ty with
                   | Ty.Vector _ | Ty.Reference _ | Ty.MutableReference _ | Ty.StructInstantiation _ _ => False
                   | _ => True
                   end → P ty) : ∀ ty, P ty :=
  fix rec (ty : Ty.Type_) : P ty :=
    match ty with
    | Ty.Vector t => Hvec t (rec t)
    | Ty.Reference t => Href t (rec t)
    | Ty.MutableReference t => Hmut t (rec t)
    | Ty.StructInstantiation i tys =>
        Hinst i tys ((fix all (l : list Ty.Type_) : Forall P l :=
          match l with [] => Forall_nil_2 P | t :: l => Forall_cons_2 P t l (rec t) (all l) end) tys)
    | t => Hatom t I
    end.
(** The numbers of type parameters of the structs. *)
Definition arities (c : ModuleCache) : list nat := map (λ st, length (st_type_parameters st)) (mc_structs c).

(** A type over [n] type parameters whose structs have as many arguments as
    they declare. *)
Fixpoint type_ok (ar : list nat) (n : nat) (ty : Ty.Type_) : Prop :=
  match ty with
  | Ty.TyParam i => (i < n)%nat
  | Ty.Vector ty | Ty.Reference ty | Ty.MutableReference ty => type_ok ar n ty
  | Ty.Struct i => ar !! i = Some 0%nat
  | Ty.StructInstantiation i tys =>
      ar !! i = Some (length tys) ∧
      (fix go (tys : list Ty.Type_) : Prop :=
         match tys with [] => True | ty :: tys => type_ok ar n ty ∧ go tys end) tys
  | _ => True
  end.
Lemma type_ok_inst ar n i tys :
  type_ok ar n (Ty.StructInstantiation i tys) ↔ ar !! i = Some (length tys) ∧ Forall (type_ok ar n) tys.
Proof.
  simpl. enough ((fix go (tys : list Ty.Type_) : Prop :=
    match tys with [] => True | ty :: tys => type_ok ar n ty ∧ go tys end) tys ↔ Forall (type_ok ar n) tys) as -> by done.
  induction tys as [|ty tys IH]; [done|]. by rewrite Forall_cons, IH.
Qed.

(** The depth check on such a type. *)
Definition depths_scoped (c : ModuleCache) : Prop := ∀ i st f,
  mc_structs c !! i = Some st → st_depth st = Some f → scoped (length (st_type_parameters st)) f.
Definition depth_result (r : vmresult Z) : Prop :=
  match r with Ok _ => True | Err e => e = Vm.VM_MAX_VALUE_DEPTH_REACHED end.

Lemma check_depth_result max d a : depth_result (check_depth max d a).
Proof. unfold check_depth. by case_match. Qed.
Lemma arities_lookup c i n : arities c !! i = Some n → ∃ st, mc_structs c !! i = Some st ∧ length (st_type_parameters st) = n.
Proof. unfold arities. intros (st & -> & Hst)%list_lookup_fmap_Some. eauto. Qed.
Lemma struct_depth_result c max d i args :
  depths_scoped c → arities c !! i = Some (length args) →
  depth_result (struct_type ←! ok_or (mc_structs c !! i) Vm.UNKNOWN_INVARIANT_VIOLATION_ERROR;
    formula ←! ok_or (st_depth struct_type) Vm.VM_MAX_VALUE_DEPTH_REACHED;
    x ←! df_solve formula args; check_depth max d x).
Proof.
  intros Hd (st & Hst & Hlen)%arities_lookup. rewrite Hst. simpl. destruct (st_depth st) as [f|] eqn:Hf; [|done]. simpl.
  destruct (df_solve_ok f args) as (z & ->); [rewrite <-Hlen; by eapply Hd|]. apply check_depth_result.
Qed.
Lemma check_depth_of_type_result c max ty d :
  depths_scoped c → type_ok (arities c) 0 ty → depth_result (check_depth_of_type_impl c max ty d).
Proof.
  intros Hd. revert d.
  assert (∀ ty d, (∀ d, depth_result (check_depth_of_type_impl c max ty d)) →
    depth_result (x ←! check_depth max d 1; check_depth_of_type_impl c max ty x)) as Hinner.
  { intros ty' d Hty. pose proof (check_depth_result max d 1). destruct (check_depth max d 1); [apply Hty|done]. }
  induction ty as [ty IH|ty IH|ty IH|i tys IH|ty Hty] using ty_nested_ind; intros d Hok;
    try (apply Hinner; intros d'; by apply IH).
  - apply type_ok_inst in Hok as [Hi Hok]. cbn [check_depth_of_type_impl].
    match goal with |- depth_result (and_then (?go tys) _) =>
      assert (match go tys with Ok l => length l = length tys | Err e => e = Vm.VM_MAX_VALUE_DEPTH_REACHED end) as Hgo;
      [|destruct (go tys) as [l|e]; [|done]] end.
    + clear Hi. induction IH as [|ty tys Hty IH IHtys]; [done|]. apply Forall_cons in Hok as [Hok Hoks].
      pose proof (check_depth_result max d 0). destruct (check_depth max d 0) as [x|e]; [|done]. simpl.
      specialize (Hty x Hok). destruct (check_depth_of_type_impl c max ty x) as [y|e]; [|done]. simpl.
      specialize (IHtys Hoks). simpl in IHtys |- *.
      match goal with |- context [and_then ?g _] => destruct g as [l|e]; [|done] end. simpl. by rewrite IHtys.
    + simpl. apply struct_depth_result; [done|]. by rewrite Hgo.
  - destruct ty; try done; try apply check_depth_result.
    + by apply (struct_depth_result c max d idx []).
    + simpl in Hok. lia.
Qed.

(** * The calculation of depths *)

Section depths.
Context (c : ModuleCache).
Context (Hfields : ∀ i st, mc_structs c !! i = Some st →
  Forall (type_ok (arities c) (length (st_type_parameters st))) (st_fields st)).
Context (Hindex : ∀ i st i' st', mc_structs c !! i = Some st →
  resolve_struct_by_name c (st_name st) (st_runtime_id st) = Ok (i', st') → i' = i).
Context (Hdepths : depths_scoped c).

Definition cache_scoped (depth_cache : gmap nat DepthFormula) : Prop := ∀ i f,
  depth_cache !! i = Some f → ∃ st, mc_structs c !! i = Some st ∧ scoped (length (st_type_parameters st)) f.
Definition struct_scoped (depth_of_struct : StructType → depth_sem DepthFormula) : Prop :=
  ∀ i st dc dc' f, mc_structs c !! i = Some st → cache_scoped dc →
    depth_of_struct st dc = Done (dc', Ok f) → cache_scoped dc' ∧ scoped (length (st_type_parameters st)) f.

Lemma instance_scoped formulas f g n :
  Forall (scoped n) formulas → df_subst f (list_to_map (imap pair formulas)) = Ok g → scoped n g.
Proof.
  intros Hfs. apply scoped_subst. intros i h Hi. apply elem_of_list_to_map_2 in Hi.
  apply elem_of_lookup_imap in Hi as (j & h' & [= -> ->] & Hj). by eapply Forall_lookup_1.
Qed.
Lemma calculate_depth_of_type_scoped dos n ty dc dc' f :
  struct_scoped dos → type_ok (arities c) n ty → cache_scoped dc →
  calculate_depth_of_type c dos ty dc = Done (dc', Ok f) → cache_scoped dc' ∧ scoped n f.
Proof.
  intros Hdos. revert dc dc' f.
  induction ty as [ty IH|ty IH|ty IH|i tys IH|ty Hty] using ty_nested_ind; intros dc dc' f Hok Hdc Hrun.
  1-3: simpl in Hrun; sem_inv; edestruct IH as [? ?]; [done..|]; split; [done|by apply scoped_add].
  - apply type_ok_inst in Hok as [Hi Hok]. cbn [calculate_depth_of_type] in Hrun. sem_inv. exec_inv.
    assert (cache_scoped st0 ∧ Forall (scoped n) a0) as [Hdc1 Hfs].
    { clear Hm1 Hi H0. rename Hm0 into Hgo. revert dc Hdc a0 Hgo.
      induction IH as [|ty tys Hty IH IHtys]; intros dc Hdc fs Hgo; sem_inv; [by split|].
      apply Forall_cons in Hok as [Hok Hoks]. edestruct Hty as [? ?]; [done..|].
      edestruct IHtys as [? ?]; [done..|]. split; [done|by constructor]. }
    destruct (Hdos _ _ _ _ _ H2 Hdc1 Hm1) as [? _]. split; [done|]. by eapply instance_scoped.
  - destruct ty; try done; simpl in Hrun; sem_inv; try (split; [done|by repeat constructor]).
    exec_inv. edestruct Hdos as [? Hsc]; [done..|]. split; [done|].
    simpl in Hok. apply arities_lookup in Hok as (st & Hst & Hlen). simplify_eq. rewrite Hlen in Hsc.
    eapply Forall_impl; [exact Hsc|]. simpl. lia.
Qed.
Lemma calculate_depth_of_types_scoped dos n tys dc dc' fs :
  struct_scoped dos → Forall (type_ok (arities c) n) tys → cache_scoped dc →
  calculate_depth_of_types c dos tys dc = Done (dc', Ok fs) → cache_scoped dc' ∧ Forall (scoped n) fs.
Proof.
  intros Hdos Htys. revert dc fs. induction Htys as [|ty tys Hty Htys IH]; intros dc fs Hdc Hrun; simpl in Hrun; sem_inv; [by split|].
  edestruct calculate_depth_of_type_scoped as [? ?]; [done..|].
  edestruct IH as [? ?]; [done..|]. split; [done|by constructor].
Qed.
Lemma calculate_depth_of_struct_scoped fuel : struct_scoped (calculate_depth_of_struct fuel c).
Proof.
  induction fuel as [|fuel IH]; intros i st dc dc' f Hst Hdc Hrun; [done|]. cbn [calculate_depth_of_struct] in Hrun.
  sem_inv. select (resolve_struct_by_name _ _ _ = _) (fun E => destruct a as [i' st']; apply (Hindex _ _ _ _ Hst) in E; subst i').
  destruct (st_depth st) as [form|] eqn:Hd; sem_inv; [split; [done|by eapply Hdepths]|].
  destruct (dc !! i) as [form|] eqn:Hi; sem_inv.
  { destruct (Hdc _ _ Hi) as (st2 & Hst2 & Hsc). by simplify_eq. }
  edestruct calculate_depth_of_types_scoped as [Hdc1 Hfs]; [done|by apply (Hfields i)|done|done|].
  case_match; sem_inv.
  assert (scoped (length (st_type_parameters st)) (df_add (normalize a) 1)) as Hsc by (by apply scoped_add, scoped_normalize).
  split; [|done]. intros j g [[<- <-]|[_ Hj]]%lookup_insert_Some; eauto.
Qed.
Lemma calculate_depths_scoped fuel n dc' u :
  calculate_depths fuel c n ∅ = Done (dc', Ok u) → cache_scoped dc'.
Proof.
  unfold calculate_depths. intros Hrun.
  eapply (sfor_Ok _ _ _ _ _ Hrun (λ l dc, cache_scoped dc ∧ ∀ st, st ∈ l → st ∈ mc_structs c)).
  - intros st l dc1 dc2 [] [Hdc Hin] Hst. sem_inv.
    destruct (list_elem_of_lookup_1 (mc_structs c) st) as [i Hi]; [apply Hin; by left|].
    split; [by eapply calculate_depth_of_struct_scoped|]. intros st' Hst'. apply Hin. by right.
  - split; [intros i f Hi; by rewrite lookup_empty in Hi|]. intros st (i & Hi & _)%elem_of_take.
    by eapply list_elem_of_In, in_rev, list_elem_of_In, list_elem_of_lookup_2.
Qed.
End depths.

(** * The structs of the cache *)

(** A module whose handles all name its own definitions, with bodies. *)
Record self_contained (m : CompiledModule) : Prop := {
  sc_structs : ∀ sh, sh ∈ cm_struct_handles m → sh_module sh = cm_self_module_handle_idx m;
  sc_functions : ∀ fh, fh ∈ cm_function_handles m → fh_module fh = cm_self_module_handle_idx m;
  sc_bodies : ∀ def, def ∈ cm_function_defs m → is_Some (def_code def);
}.

Section cache.
Context (data_store : DataStore) (m : CompiledModule) (rid : ModuleId).
Context (Hunique : unique_tables m) (Hself : self_contained m) (Hrid : self_id m = Done rid).

(** The handle and the name of a struct definition. *)
Definition def_name (j : nat) (sd : StructDefinition) (sh : StructHandle) (name : string) : Prop :=
  cm_struct_defs m !! j = Some sd ∧ cm_struct_handles m !! sd_struct_handle sd = Some sh ∧
  cm_identifiers m !! sh_name sh = Some name.

Lemma struct_handle_inj h h' sh sh' name :
  cm_struct_handles m !! h = Some sh → cm_struct_handles m !! h' = Some sh' →
  cm_identifiers m !! sh_name sh = Some name → cm_identifiers m !! sh_name sh' = Some name → h = h'.
Proof.
  intros Hsh Hsh' Hn Hn'. pose proof (NoDup_lookup _ _ _ _ (ut_identifiers _ Hunique) Hn Hn') as Heq.
  eapply (NoDup_lookup _ _ _ _ (ut_struct_handles _ Hunique)).
  - by rewrite list_lookup_fmap, Hsh.
  - rewrite list_lookup_fmap, Hsh'. simpl. rewrite Heq.
    rewrite (sc_structs _ Hself sh), (sc_structs _ Hself sh') by (by eapply list_elem_of_lookup_2). done.
Qed.
Lemma function_handle_inj h h' fh fh' name :
  cm_function_handles m !! h = Some fh → cm_function_handles m !! h' = Some fh' →
  cm_identifiers m !! fh_name fh = Some name → cm_identifiers m !! fh_name fh' = Some name → h = h'.
Proof.
  intros Hfh Hfh' Hn Hn'. pose proof (NoDup_lookup _ _ _ _ (ut_identifiers _ Hunique) Hn Hn') as Heq.
  eapply (NoDup_lookup _ _ _ _ (ut_function_handles _ Hunique)).
  - by rewrite list_lookup_fmap, Hfh.
  - rewrite list_lookup_fmap, Hfh'. simpl. rewrite Heq.
    rewrite (sc_functions _ Hself fh), (sc_functions _ Hself fh') by (by eapply list_elem_of_lookup_2). done.
Qed.
Lemma def_name_inj j j' sd sd' sh sh' name :
  def_name j sd sh name → def_name j' sd' sh' name → j = j'.
Proof.
  intros (Hsd & Hsh & Hn) (Hsd' & Hsh' & Hn').
  pose proof (struct_handle_inj _ _ _ _ _ Hsh Hsh' Hn Hn') as Heq.
  eapply (NoDup_lookup _ _ _ _ (ut_struct_defs _ Hunique)).
  - by rewrite list_lookup_fmap, Hsd.
  - by rewrite list_lookup_fmap, Hsd', Heq.
Qed.

(** The first [n] definitions are in the cache, in order. *)
Record cache_ok (n : nat) (c : ModuleCache) : Prop := {
  co_length : length (mc_structs c) = n;
  co_struct : ∀ j st, mc_structs c !! j = Some st → ∃ sd sh, def_name j sd sh (st_name st) ∧
    st_runtime_id st = rid ∧ st_type_parameters st = sh_type_parameters sh;
  co_ids : ∀ key j, mc_struct_ids c !! key = Some j → (j < n)%nat ∧ key.1 = rid ∧
    ∃ sd sh, def_name j sd sh key.2;
  co_registered : ∀ j sd sh name, def_name j sd sh name → (j < n)%nat →
    mc_struct_ids c !! (rid, name) = Some j;
}.
Record structs_added (n : nat) (out : ModuleCache * list (list SignatureToken)) : Prop := {
  sa_cache : cache_ok n out.1;
  sa_new : Forall (λ st, st_depth st = None) (mc_structs out.1);
  sa_length : length out.2 = n;
  sa_fields : ∀ j sigs, out.2 !! j = Some sigs → ∃ sd fields, cm_struct_defs m !! j = Some sd ∧
    sd_field_information sd = Declared fields ∧ sigs = map fd_signature fields;
  sa_functions : mc_functions out.1 = [];
}.

Lemma add_struct_ok n out sd out' :
  structs_added n out → cm_struct_defs m !! n = Some sd → add_struct data_store m rid out (n, sd) = Done (Ok out') →
  structs_added (S n) out'.
Proof.
  intros Hadded Hsd Hrun.
  unfold add_struct, struct_handle_at, identifier_at in Hrun. exec_inv. rename v into sh, v0 into name.
  assert (def_name n sd sh name) as Hname by done.
  destruct Hadded as [[Hlen Hst Hids Hreg] Hnew Hslen Hfields Hfun].
  destruct (mc_struct_ids out.1 !! (rid, name)) as [j|] eqn:Hj.
  { destruct (Hids _ _ Hj) as (Hlt & _ & sd' & sh' & Hn'). pose proof (def_name_inj _ _ _ _ _ _ _ Hname Hn'). lia. }
  apply bind_Done in Hrun as (names & _ & Hrun). apply try_exec_Ok in Hrun as (defining & _ & Hrun).
  destruct (sd_field_information sd) as [|fields] eqn:Hf; [done|]. injection Hrun as <-. split; simpl.
  - split; simpl.
    + rewrite length_app. simpl. lia.
    + intros j st [[_ Hj']|[Hj' <-]]%lookup_snoc_Some; [by apply Hst|]. rewrite Hlen in Hj'. subst j. by eexists _, _.
    + intros key j [[<- <-]|[Hne Hk]]%lookup_insert_Some.
      * rewrite Hlen. split_and!; [lia|done|]. by eexists _, _.
      * destruct (Hids _ _ Hk) as (? & ? & ?). split_and!; [lia|done|done].
    + intros j sd' sh' name' Hn' Hlt. destruct (decide (j = n)) as [->|Hne].
      * destruct Hn' as (Hsd' & Hsh' & Hi'), Hname as (_ & Hsh & Hi). simplify_eq.
        rewrite lookup_insert_eq. done.
      * rewrite lookup_insert_ne; [apply (Hreg j sd' sh'); [done|lia]|].
        intros [= ->]. by pose proof (def_name_inj _ _ _ _ _ _ _ Hname Hn').
  - apply Forall_app. split; [done|]. by repeat constructor.
  - rewrite length_app. simpl. lia.
  - intros j sigs [[_ Hj']|[Hj' <-]]%lookup_snoc_Some; [by apply Hfields|]. rewrite Hslen in Hj'. subst j. by eexists _, _.
  - done.
Qed.
Lemma add_structs_ok defs n out out' :
  structs_added n out → (∀ i sd, defs !! i = Some sd → cm_struct_defs m !! (n + i)%nat = Some sd) →
  fold_try (add_struct data_store m rid) out (imap (λ i, pair (n + i)%nat) defs) = Done (Ok out') →
  structs_added (n + length defs) out'.
Proof.
  revert n out. induction defs as [|sd defs IH]; intros n out Hout Hdefs Hrun.
  - injection Hrun as <-. simpl. by rewrite Nat.add_0_r.
  - apply try_exec_Ok in Hrun as (v & Hv & Hrun). rewrite Nat.add_0_r in Hv. simpl. rewrite <-Nat.add_succ_comm.
    eapply IH; [eapply add_struct_ok; [done| |done]| |].
    + rewrite <-(Nat.add_0_r n). by apply Hdefs.
    + intros i sd' Hi. rewrite Nat.add_succ_comm. by apply (Hdefs (S i)).
    + rewrite <-Hrun. f_equal. apply imap_ext. intros i x _. simpl. by rewrite Nat.add_succ_r.
Qed.
Lemma structs_added_new : structs_added 0 (ModuleCache_new, []).
Proof. split; simpl; [split; simpl|..]; try done; intros; try lia; by simplify_map_eq. Qed.

(** A handle resolves to the struct of the definition it names. *)
Lemma resolve_ok n c h i :
  cache_ok n c → resolve_struct_handle c m h = Done (Ok i) →
  ∃ sh sd st, cm_struct_handles m !! h = Some sh ∧ cm_struct_defs m !! i = Some sd ∧ sd_struct_handle sd = h ∧
    mc_structs c !! i = Some st ∧ st_type_parameters st = sh_type_parameters sh.
Proof.
  intros Hc Hrun. unfold resolve_struct_handle, struct_handle_at, identifier_at in Hrun. exec_inv.
  rename v into sh, v0 into name. apply and_then_Ok in Hrun as ([i' st] & Hres & [= ->]).
  rewrite (sc_structs _ Hself sh) in Hv1 by (by eapply list_elem_of_lookup_2).
  change (self_id m = Done v1) in Hv1. rewrite Hrid in Hv1. injection Hv1 as <-.
  unfold resolve_struct_by_name in Hres. repeat case_match; simplify_eq/=.
  destruct (co_ids _ _ Hc _ _ ltac:(done)) as (_ & _ & sd & sh' & Hsd & Hsh' & Hname). simpl in Hname.
  assert (sd_struct_handle sd = h) as Hh by (by eapply struct_handle_inj).
  destruct (co_struct _ _ Hc i st) as (sd2 & sh2 & (Hsd2 & Hsh2 & _) & _ & Htps); [done|]. subst h. simplify_eq.
  by eexists _, _, _.
Qed.

(** Caches that differ in the fields and the depths of structs only. *)
Definition same_struct (st st' : StructType) : Prop :=
  st_name st' = st_name st ∧ st_runtime_id st' = st_runtime_id st ∧ st_type_parameters st' = st_type_parameters st.
Lemma cache_ok_same n c c' :
  cache_ok n c → mc_struct_ids c' = mc_struct_ids c → Forall2 same_struct (mc_structs c) (mc_structs c') →
  cache_ok n c' ∧ arities c' = arities c.
Proof.
  intros [Hlen Hst Hids Hreg] Heq Hall. split.
  - split; rewrite ?Heq; try done; [by rewrite <-(Forall2_length _ _ _ Hall)|].
    intros j st' Hj. destruct (Forall2_lookup_r _ _ _ _ _ Hall Hj) as (st & Hj' & Hn & Hr & Ht).
    rewrite Hn, Hr, Ht. by apply Hst.
  - unfold arities. clear -Hall. induction Hall as [|st st' l l' (_ & _ & Ht) Hall IH]; [done|]. simpl. by rewrite Ht, IH.
Qed.
Lemma own_index n c i st i' st' :
  cache_ok n c → mc_structs c !! i = Some st →
  resolve_struct_by_name c (st_name st) (st_runtime_id st) = Ok (i', st') → i' = i.
Proof.
  intros Hc Hi Hres. unfold resolve_struct_by_name in Hres. repeat case_match; simplify_eq.
  destruct (co_ids _ _ Hc _ _ ltac:(done)) as (_ & _ & sd & sh & Hn).
  destruct (co_struct _ _ Hc i st Hi) as (sd' & sh' & Hn' & _). by eapply def_name_inj.
Qed.

(** ** Types *)

Lemma check_type_child t u : check_type m t = Ok () → (∀ x, x ∈ preorder_traversal u → x ∈ preorder_traversal t) → check_type m u = Ok ().
Proof. unfold check_type. rewrite !try_for_each_Ok. auto. Qed.
Lemma check_parameter_child k t u :
  check_type_parameter k t = Ok () → (∀ x, x ∈ preorder_traversal u → x ∈ preorder_traversal t) → check_type_parameter k u = Ok ().
Proof. unfold check_type_parameter. rewrite !try_for_each_Ok. auto. Qed.

Lemma make_type_ok n c k tok ty :
  cache_ok n c → make_type c m tok = Done (Ok ty) → check_type m tok = Ok () → check_type_parameter k tok = Ok () →
  type_ok (arities c) k ty.
Proof.
  intros Hc. revert ty. induction tok as [tok IH|tok IH|tok IH|h toks IH|tok Htok] using token_nested_ind;
    intros ty Hmake Harity Hparam.
  1-3: apply try_exec_Ok in Hmake as (t & Ht & [= <-]); apply (IH t); [done|eapply check_type_child; [exact Harity|]|
    eapply check_parameter_child; [exact Hparam|]]; intros x Hx; by right.
  - cbn [make_type] in Hmake. apply try_exec_Ok in Hmake as (tys & Htys & Hmake).
    apply try_exec_Ok in Hmake as (i & Hi & [= <-]). apply type_ok_inst.
    assert (length tys = length toks ∧ Forall (type_ok (arities c) k) tys) as [Hlen Hall].
    { assert (∀ t, t ∈ toks → check_type m t = Ok () ∧ check_type_parameter k t = Ok ()) as Hsub.
      { intros t Ht. split; [eapply check_type_child; [exact Harity|]|eapply check_parameter_child; [exact Hparam|]];
          intros x Hx; right; apply list_elem_of_In, in_flat_map; exists t; by rewrite <-!list_elem_of_In. }
      clear Harity Hparam Hi. revert tys Htys. induction IH as [|t toks Ht IH IHt]; intros tys Htys.
      - injection Htys as <-. by split.
      - apply try_exec_Ok in Htys as (ty & Hty & Htys). apply try_exec_Ok in Htys as (l & Hl & [= <-]).
        destruct (Hsub t) as [? ?]; [by left|]. destruct (IHt (λ t' Ht', Hsub t' ltac:(by right)) l Hl) as [Hlen Hall].
        simpl. rewrite Hlen. split; [done|]. constructor; auto. }
    split; [|done]. destruct (resolve_ok _ _ _ _ Hc Hi) as (sh & sd & st & Hsh & _ & _ & Hst & Htps).
    unfold check_type in Harity. rewrite try_for_each_Ok in Harity.
    specialize (Harity (ST.StructInstantiation h toks) ltac:(by left)). simpl in Harity. rewrite Hsh in Harity.
    apply and_then_Ok in Harity as (_ & _ & Harity%ensure_Ok%Nat.eqb_eq).
    unfold arities. rewrite list_lookup_fmap, Hst. simpl. by rewrite Htps, Harity, Hlen.
  - unfold check_type in Harity. rewrite try_for_each_Ok in Harity. specialize (Harity tok ltac:(destruct tok; by left)).
    unfold check_type_parameter in Hparam. rewrite try_for_each_Ok in Hparam. specialize (Hparam tok ltac:(destruct tok; by left)).
    destruct tok; try done; cbn [make_type] in Hmake; try (injection Hmake as <-; done).
    + apply try_exec_Ok in Hmake as (i & Hi & [= <-]).
      destruct (resolve_ok _ _ _ _ Hc Hi) as (sh & sd & st & Hsh & _ & _ & Hst & Htps). rewrite Hsh in Harity.
      apply and_then_Ok in Harity as (_ & _ & Harity%ensure_Ok%Nat.eqb_eq).
      simpl. unfold arities. rewrite list_lookup_fmap, Hst. simpl. by rewrite Htps, Harity.
    + injection Hmake as <-. by apply ensure_Ok, Nat.ltb_lt in Hparam.
Qed.
Lemma make_type_head c tok ty :
  make_type c m tok = Done (Ok ty) → check_signature_token tok = Ok () → check_type_parameter 0 tok = Ok () →
  same_head tok ty = true.
Proof.
  intros Hmake Hval Hparam. unfold check_type_parameter in Hparam. rewrite try_for_each_Ok in Hparam.
  specialize (Hparam tok ltac:(destruct tok; by left)).
  destruct tok; try done; cbn [make_type] in Hmake; try (by injection Hmake as <-);
    repeat (apply try_exec_Ok in Hmake as (? & ? & Hmake)); by injection Hmake as <-.
Qed.

(** ** The cache after loading *)

Lemma collect_try_Ok {A B} (f : A → exec (vmresult B)) l k :
  collect_try f l = Done (Ok k) → Forall2 (λ x y, f x = Done (Ok y)) l k.
Proof.
  revert k. induction l as [|x l IH]; intros k Hl; simpl in Hl; [injection Hl as <-; constructor|].
  apply try_exec_Ok in Hl as (y & Hy & Hl). apply try_exec_Ok in Hl as (k' & Hk & [= <-]). constructor; auto.
Qed.

Context (Hbounds : BoundsChecker_verify m = Ok ()).

Lemma field_types_checked j sd sh name fields fd :
  def_name j sd sh name → sd_field_information sd = Declared fields → fd ∈ fields →
  check_type m (fd_signature fd) = Ok () ∧
  check_type_parameter (length (sh_type_parameters sh)) (fd_signature fd) = Ok ().
Proof.
  intros (Hsd & Hsh & _) Hf Hfd. unfold BoundsChecker_verify in Hbounds. pose proof Hbounds as Hb.
  do 5 apply and_then_Ok in Hb as (_ & _ & Hb). apply and_then_Ok in Hb as ([] & Hb & _).
  rewrite try_for_each_Ok in Hb. specialize (Hb sd (list_elem_of_lookup_2 _ _ _ Hsd)).
  unfold bounds_check_struct_def in Hb. apply and_then_Ok in Hb as (_ & _ & Hb). rewrite Hf, Hsh in Hb.
  rewrite try_for_each_Ok in Hb. specialize (Hb fd Hfd). apply and_then_Ok in Hb as (_ & _ & Hb).
  by apply and_then_Ok in Hb as ([] & ? & ?).
Qed.

(** All structs are in the cache, with their fields. *)
Record fields_filled (c : ModuleCache) : Prop := {
  ff_cache : cache_ok (length (cm_struct_defs m)) c;
  ff_types : ∀ i st, mc_structs c !! i = Some st →
    Forall (type_ok (arities c) (length (st_type_parameters st))) (st_fields st);
  ff_count : ∀ i st sd fields, mc_structs c !! i = Some st → cm_struct_defs m !! i = Some sd →
    sd_field_information sd = Declared fields → length (st_fields st) = length fields;
}.
Lemma fill_fields_ok c sigs field_types :
  structs_added (length (cm_struct_defs m)) (c, sigs) →
  collect_try (collect_try (make_type c m)) sigs = Done (Ok field_types) →
  let c' := set_structs c (fill_fields (mc_structs c) field_types) in
  fields_filled c' ∧ Forall (λ st, st_depth st = None) (mc_structs c') ∧
  ∀ i st, mc_structs c' !! i = Some st → ∃ sd fields, cm_struct_defs m !! i = Some sd ∧
    sd_field_information sd = Declared fields ∧
    Forall2 (λ t ty, make_type c m t = Done (Ok ty)) (map fd_signature fields) (st_fields st).
Proof.
  intros [Hc Hnew Hlen Hsigs _] Hcol%collect_try_Ok. simpl in *. set (c' := set_structs _ _).
  assert (mc_structs c' = zip_with set_fields (mc_structs c) field_types) as Hst.
  { subst c'. simpl. unfold fill_fields. rewrite (co_length _ _ Hc), <-Hlen, (Forall2_length _ _ _ Hcol), Nat.sub_diag. done. }
  assert (length (mc_structs c) = length field_types) as Heq.
  { rewrite (co_length _ _ Hc), <-Hlen. by eapply Forall2_length. }
  destruct (cache_ok_same _ c c' Hc) as [Hc' Har]; [done| |].
  { rewrite Hst. apply Forall2_same_length_lookup_2; [rewrite length_zip_with; lia|].
    intros i st st' Hi Hi'. apply lookup_zip_with_Some in Hi' as (st1 & tys & -> & Hst1 & _). by simplify_eq. }
  assert (∀ i st, mc_structs c' !! i = Some st → ∃ sd sh fields, def_name i sd sh (st_name st) ∧
    st_type_parameters st = sh_type_parameters sh ∧ sd_field_information sd = Declared fields ∧
    Forall2 (λ t ty, make_type c m t = Done (Ok ty)) (map fd_signature fields) (st_fields st)) as Hall.
  { intros i st Hi. pose proof (co_struct _ _ Hc' i st Hi) as (sd & sh & Hn & _ & Htps).
    rewrite Hst in Hi. apply lookup_zip_with_Some in Hi as (st1 & tys & -> & Hst1 & Htys).
    destruct (Forall2_lookup_r _ _ _ _ _ Hcol Htys) as (ts & Hts & Hmake%collect_try_Ok).
    destruct (Hsigs _ _ Hts) as (sd' & fields & Hsd' & Hf & ->). pose proof Hn as (Hsd & _).
    assert (sd' = sd) as -> by congruence.
    exists sd, sh, fields. by split_and!. }
  split; [split; [done| |]|split].
  - intros i st Hi. destruct (Hall i st Hi) as (sd & sh & fields & Hn & Htps & Hf & Hmake). rewrite Har, Htps.
    apply Forall_lookup. intros j ty Hj. destruct (Forall2_lookup_r _ _ _ _ _ Hmake Hj) as (t & Ht & Hty).
    apply list_lookup_fmap_Some in Ht as (fd & -> & Hfd).
    destruct (field_types_checked _ _ _ _ _ fd Hn Hf) as [? ?]; [by eapply list_elem_of_lookup_2|].
    by eapply make_type_ok.
  - intros i st sd fields Hi Hsd Hf. destruct (Hall i st Hi) as (sd' & sh & fields' & (Hsd' & _) & _ & Hf' & Hmake).
    assert (fields' = fields) as -> by congruence. apply Forall2_length in Hmake. by rewrite length_map in Hmake.
  - change (Forall (λ st, st_depth st = None) (mc_structs c')). rewrite Hst. apply Forall_lookup. intros i st' Hi. apply lookup_zip_with_Some in Hi as (st1 & tys & -> & Hst1 & _).
    simpl. by eapply Forall_lookup_1 in Hnew.
  - intros i st Hi. destruct (Hall i st Hi) as (sd & sh & fields & (Hsd & _) & _ & Hf & Hmake). by exists sd, fields.
Qed.
Lemma store_depths_ok fuel n c dc u :
  fields_filled c → Forall (λ st, st_depth st = None) (mc_structs c) →
  calculate_depths fuel c n ∅ = Done (dc, Ok u) →
  let c' := set_structs c (store_depths (mc_structs c) dc) in
  fields_filled c' ∧ depths_scoped c'.
Proof.
  intros [Hc Hty Hcount] Hnew Hrun. simpl. set (c' := set_structs _ _).
  apply calculate_depths_scoped in Hrun; [|done|by intros; eapply own_index|].
  2:{ intros i st f Hi Hf. eapply Forall_lookup_1 in Hnew; [|done]. congruence. }
  assert (∀ i st', mc_structs c' !! i = Some st' → ∃ st, mc_structs c !! i = Some st ∧ same_struct st st' ∧
    st_fields st' = st_fields st ∧ st_depth st' = dc !! i) as Hst.
  { intros i st' Hi. subst c'. simpl in Hi. unfold store_depths in Hi. rewrite list_lookup_imap in Hi.
    destruct (mc_structs c !! i) as [st|] eqn:Hsti; simpl in Hi; [|done]. injection Hi as <-. exists st. split; [done|].
    eapply Forall_lookup_1 in Hnew; [|done]. destruct (dc !! i) eqn:Hdi; by repeat split. }
  destruct (cache_ok_same _ c c' Hc) as [Hc' Har]; [done| |].
  { apply Forall2_same_length_lookup_2; [subst c'; simpl; unfold store_depths; by rewrite length_imap|].
    intros i st st' Hi Hi'. destruct (Hst _ _ Hi') as (st1 & Hst1 & Hsame & _). by simplify_eq. }
  split; [split; [done| |]|].
  - intros i st' Hi. destruct (Hst _ _ Hi) as (st & Hsti & (_ & _ & Ht) & Hf & _). rewrite Har, Ht, Hf. by eapply Hty.
  - intros i st' sd fields Hi Hsd Hf. destruct (Hst _ _ Hi) as (st & Hsti & _ & -> & _). by eapply Hcount.
  - intros i st' f Hi Hf. destruct (Hst _ _ Hi) as (st & Hsti & (_ & _ & Ht) & _ & Hd). rewrite Hf in Hd. symmetry in Hd.
    destruct (Hrun _ _ Hd) as (st2 & Hst2 & Hsc). simplify_eq. by rewrite Ht.
Qed.

(** ** The tables of the loaded module *)

Lemma fold_try_inv {A B} (f : A → B → exec (vmresult A)) (P : A → Prop) l acc acc' :
  (∀ a x a', P a → f a x = Done (Ok a') → P a') → P acc → fold_try f acc l = Done (Ok acc') → P acc'.
Proof.
  intros Hf. revert acc. induction l as [|x l IH]; intros acc HP Hl; simpl in Hl; [by injection Hl as <-|].
  apply try_exec_Ok in Hl as (a & Ha & Hl). eauto.
Qed.
(** What each step adds stays. *)
Lemma fold_try_adds {A B C} (f : A → B → exec (vmresult A)) (R : C → A → Prop) (D : B → C → Prop) l acc acc' :
  (∀ a x a', f a x = Done (Ok a') → (∀ y, R y a → R y a') ∧ ∀ y, D x y → R y a') →
  fold_try f acc l = Done (Ok acc') → (∀ y, R y acc → R y acc') ∧ ∀ x y, x ∈ l → D x y → R y acc'.
Proof.
  intros Hf. revert acc. induction l as [|x l IH]; intros acc Hl; simpl in Hl.
  - injection Hl as <-. split; [done|]. by intros x y ?%elem_of_nil.
  - apply try_exec_Ok in Hl as (a & Ha & Hl). destruct (Hf _ _ _ Ha) as [Hmono Hx].
    destruct (IH _ Hl) as [Hmono' Hall]. split; [auto|]. intros z y [->|Hz]%elem_of_cons Hy; eauto.
Qed.

Lemma find_function_Ok functions name r :
  find_function functions 0 name = Ok r →
  match r with
  | Some j => ∃ func, (j, func) ∈ functions ∧ fn_name func = name
  | None => ∀ j func, (j, func) ∈ functions → fn_name func ≠ name
  end.
Proof.
  induction functions as [|[j func] functions IH]; intros Hf; simpl in Hf.
  - injection Hf as <-. by intros j func ?%elem_of_nil.
  - case_bool_decide as Hname.
    + injection Hf as <-. exists func. split; [by left|done].
    + specialize (IH Hf). destruct r as [i|].
      * destruct IH as (g & Hg & ?). exists g. split; [by right|done].
      * intros i g [[= -> ->]|Hg]%elem_of_cons; eauto.
Qed.
Lemma omap_some {A} (l : list (option A)) i x :
  (∀ r, r ∈ l → is_Some r) → l !! i = Some (Some x) → omap id l !! i = Some x.
Proof.
  revert i. induction l as [|r l IH]; intros i Hall Hi; [done|].
  destruct (Hall r) as [y ->]; [by left|]. simpl. destruct i as [|i]; [by simplify_eq/=|].
  apply IH; [|done]. intros r Hr. apply Hall. by right.
Qed.

Section loaded.
Context (c : ModuleCache) (Hfilled : fields_filled c) (Hscoped : depths_scoped c).
Context (Hfunctions : mapM (λ def, Function_new def.1 def.2 m) (imap pair (cm_function_defs m)) = Done (mc_functions c)).

Lemma function_at j func :
  mc_functions c !! j = Some func → ∃ def, cm_function_defs m !! j = Some def ∧ Function_new j def m = Done func.
Proof.
  intros Hj. pose proof Hfunctions as Hf. rewrite mapM_Done in Hf.
  destruct (Forall2_lookup_r _ _ _ _ _ Hf Hj) as ([i def] & Hi & Hnew). rewrite list_lookup_imap in Hi.
  destruct (cm_function_defs m !! j) as [d|]; simplify_eq/=. eauto.
Qed.
Lemma function_of_def j def :
  cm_function_defs m !! j = Some def → ∃ func, mc_functions c !! j = Some func ∧ Function_new j def m = Done func.
Proof.
  intros Hj. pose proof Hfunctions as Hf. rewrite mapM_Done in Hf.
  destruct (Forall2_lookup_l _ _ _ j (j, def) Hf) as (func & Hfunc & Hnew); [|by eauto].
  by rewrite list_lookup_imap, Hj.
Qed.
Lemma Function_new_name j def func :
  Function_new j def m = Done func → ∃ fh, cm_function_handles m !! def_function def = Some fh ∧
    cm_identifiers m !! fh_name fh = Some (fn_name func).
Proof. unfold Function_new, function_handle_at, identifier_at. intros Hnew. exec_inv. eauto. Qed.

Lemma resolve_function_ok idx fh r :
  cm_function_handles m !! idx = Some fh → resolve_function_handle c m rid 0 fh = Done (Ok r) →
  ∃ j def func, r = Some j ∧ mc_functions c !! j = Some func ∧ cm_function_defs m !! j = Some def ∧
    def_function def = idx ∧ Function_new j def m = Done func.
Proof.
  intros Hfh Hrun. unfold resolve_function_handle, identifier_at in Hrun. exec_inv. rename v into name.
  assert (fh_module fh = cm_self_module_handle_idx m) as Hmod by (by eapply sc_functions, list_elem_of_lookup_2).
  rewrite Hmod in Hv0. change (self_id m = Done v0) in Hv0. rewrite Hrid in Hv0. injection Hv0 as <-.
  rewrite decide_True in Hrun by done. apply Done_Ok_inj, find_function_Ok in Hrun.
  assert (∀ j func, (j, func) ∈ rev (imap pair (mc_functions c)) ↔ mc_functions c !! j = Some func) as Hin.
  { intros j func. rewrite list_elem_of_In, <-in_rev, <-list_elem_of_In, elem_of_lookup_imap. naive_solver. }
  destruct r as [j|].
  - destruct Hrun as (func & Hj%Hin & Hname). destruct (function_at _ _ Hj) as (def & Hdef & Hnew).
    destruct (Function_new_name _ _ _ Hnew) as (fh' & Hfh' & Hname'). rewrite Hname in Hname'.
    exists j, def, func. split_and!; [done..| |done]. by eapply function_handle_inj.
  - pose proof (ut_functions_defined _ Hunique _ _ Hfh Hmod) as Hdef.
    apply list_elem_of_fmap in Hdef as (def & -> & [j Hj]%list_elem_of_lookup_1).
    destruct (function_of_def _ _ Hj) as (func & Hfunc & Hnew).
    destruct (Function_new_name _ _ _ Hnew) as (fh' & Hfh' & Hname'). rewrite Hfh in Hfh'. injection Hfh' as <-.
    destruct (Hrun j func); [by apply Hin|]. congruence.
Qed.

Lemma depth_defined_of ty : type_ok (arities c) 0 ty → depth_defined c ty.
Proof.
  intros Hty max. unfold check_depth_of_type. destruct max as [max|]; [|done]. by apply check_depth_of_type_result.
Qed.

Context (Hsized : module_sized m).
Context (lm : LoadedModule) (Hlm : LoadedModule_new 0 m c = Done (Ok lm)).

(** The parts of [LoadedModule_new]. *)
Lemma loaded_parts :
  ∃ struct_refs refs maps,
    Forall2 (λ h i, resolve_struct_handle c m h = Done (Ok i)) (seq 0 (length (cm_struct_handles m))) struct_refs ∧
    Forall2 (λ struct_def sd, (idx ← unwrap (struct_refs !! sd_struct_handle struct_def);
      st ← unwrap (mc_structs c !! idx);
      Done {| lsd_field_count := Z.of_nat (length (st_fields st)) mod 2 ^ 16; lsd_idx := idx |}) = Done sd)
      (cm_struct_defs m) (lm_structs lm) ∧
    Forall2 (λ fh r, resolve_function_handle c m rid 0 fh = Done (Ok r)) (cm_function_handles m) refs ∧
    lm_function_refs lm = omap id refs ∧
    fold_try (add_function_def c m (omap id refs)) (∅, ∅) (cm_function_defs m) = Done (Ok maps) ∧
    lm_single_signature_token_map lm = maps.2.
Proof.
  unfold LoadedModule_new in Hlm. pose proof Hlm as Hrun.
  apply bind_Done in Hrun as (self & Hs & Hrun). assert (self = rid) as -> by congruence.
  apply try_exec_Ok in Hrun as (struct_refs & Hrefs%collect_try_Ok & Hrun).
  apply bind_Done in Hrun as (structs & Hstructs%mapM_Done & Hrun).
  apply try_exec_Ok in Hrun as (refs & Hfrefs%collect_try_Ok & Hrun).
  apply try_exec_Ok in Hrun as (maps & Hmaps & [= <-]).
  by exists struct_refs, refs, maps.
Qed.

Lemma loaded_function_ok idx fh :
  cm_function_handles m !! idx = Some fh →
  ∃ i def func, def ∈ cm_function_defs m ∧ def_function def = idx ∧
    Function_new i def m = Done func ∧ function_from_handle c lm idx = Done func.
Proof.
  intros Hfh. destruct loaded_parts as (_ & refs & _ & _ & _ & Hrefs & Hlmr & _).
  destruct (Forall2_lookup_l _ _ _ _ _ Hrefs Hfh) as (r & Hr & Hres).
  destruct (resolve_function_ok _ _ _ Hfh Hres) as (j & def & func & -> & Hfunc & Hdef & Hidx & Hnew).
  exists j, def, func. split_and!; [by eapply list_elem_of_lookup_2|done|done|].
  unfold function_from_handle. rewrite Hlmr, (omap_some refs idx j); [simpl; by rewrite Hfunc| |done].
  intros r Hin. apply list_elem_of_lookup_1 in Hin as [i Hi].
  destruct (Forall2_lookup_r _ _ _ _ _ Hrefs Hi) as (fh' & Hfh' & Hres').
  destruct (resolve_function_ok _ _ _ Hfh' Hres') as (j' & _ & _ & -> & _). eauto.
Qed.

Lemma loaded_struct_ok idx sd sh fields :
  cm_struct_defs m !! idx = Some sd → sd_field_information sd = Declared fields →
  cm_struct_handles m !! sd_struct_handle sd = Some sh → sh_type_parameters sh = [] →
  field_count lm idx = Done (Z.of_nat (length fields)) ∧
  ∃ ty, get_struct_type lm idx = Done ty ∧ depth_defined c ty.
Proof.
  intros Hsd Hf Hsh Hnil. destruct loaded_parts as (struct_refs & _ & _ & Hrefs & Hstructs & _).
  destruct (Forall2_lookup_l _ _ _ _ _ Hstructs Hsd) as (lsd & Hlsd & Hrun). exec_inv. rename v into i, v0 into st.
  destruct (Forall2_lookup_r _ _ _ _ _ Hrefs Hv) as (h & [-> _]%lookup_seq & Hres). simpl in Hres.
  destruct (resolve_ok _ _ _ _ (ff_cache _ Hfilled) Hres) as (sh' & sd' & st' & Hsh' & Hsd' & Hh & Hst' & Htps).
  assert (i = idx) as ->.
  { eapply (NoDup_lookup _ _ _ _ (ut_struct_defs _ Hunique)).
    - by rewrite list_lookup_fmap, Hsd'.
    - by rewrite list_lookup_fmap, Hsd, Hh. }
  assert (st' = st) as -> by congruence. assert (sh' = sh) as -> by congruence.
  unfold field_count, get_struct_type. rewrite Hlsd. simpl.
  rewrite (ff_count _ Hfilled _ _ _ _ Hst' Hsd Hf).
  pose proof (ms_fields _ Hsized sd fields (list_elem_of_lookup_2 _ _ _ Hsd) Hf) as Hle.
  rewrite Z.mod_small by lia. split; [done|]. eexists. split; [done|]. apply depth_defined_of.
  simpl. unfold arities. rewrite list_lookup_fmap, Hst'. simpl. by rewrite Htps, Hnil.
Qed.

Definition types_ok (types : gmap nat Ty.Type_) : Prop := ∀ si ty, types !! si = Some ty →
  ∃ sig t, cm_signatures m !! si = Some sig ∧ sig !! 0%nat = Some t ∧ make_type c m t = Done (Ok ty).
Lemma add_single_type_ok types i types' :
  add_single_type c m types i = Done (Ok types') →
  (types_ok types → types_ok types') ∧ (∀ si, is_Some (types !! si) → is_Some (types' !! si)) ∧
  ∀ si, vector_type i = Some si → is_Some (types' !! si).
Proof.
  assert (∀ si, (match types !! si with
      | Some _ => Done (Ok types)
      | None => sig ← signature_at m si;
                sig_token ←? Done (ok_or (sig !! 0%nat) Vm.VERIFIER_INVARIANT_VIOLATION);
                ty ←? make_type c m sig_token; Done (Ok (<[si := ty]> types))
      end = Done (Ok types')) →
    (types_ok types → types_ok types') ∧ (∀ sj, is_Some (types !! sj) → is_Some (types' !! sj)) ∧ is_Some (types' !! si)) as Hadd.
  { intros si Hrun. destruct (types !! si) as [ty|] eqn:Hsi; [injection Hrun as <-; by rewrite Hsi|].
    unfold signature_at in Hrun. exec_inv. apply try_exec_Ok in Hrun as (t & Ht%Done_Ok_inj & Hrun).
    apply try_exec_Ok in Hrun as (ty & Hty & [= <-]). destruct (v !! 0%nat) as [t'|] eqn:Ht'; simplify_eq/=.
    split_and!.
    - intros Hok sj tj [[<- <-]|[_ Hj]]%lookup_insert_Some; eauto.
    - intros sj Hj. destruct (decide (si = sj)) as [->|]; [by rewrite lookup_insert_eq|by rewrite lookup_insert_ne].
    - by rewrite lookup_insert_eq. }
  intros Hrun. destruct i; simpl in Hrun; try (injection Hrun as <-; by split_and!);
    destruct (Hadd _ Hrun) as (? & ? & ?); split_and!; [done|done|by intros si [= <-]|done|done|by intros si [= <-]].
Qed.
Lemma add_function_def_ok refs acc def acc' :
  add_function_def c m refs acc def = Done (Ok acc') →
  (types_ok acc.2 → types_ok acc'.2) ∧ (∀ si, is_Some (acc.2 !! si) → is_Some (acc'.2 !! si)) ∧
  ∀ si, (∃ code i, def_code def = Some code ∧ i ∈ cu_code code ∧ vector_type i = Some si) → is_Some (acc'.2 !! si).
Proof.
  intros Hrun. unfold add_function_def in Hrun. exec_inv. apply try_exec_Ok in Hrun as (types & Htypes & [= <-]). simpl.
  destruct (def_code def) as [code|].
  - split.
    { intros Hok. eapply (fold_try_inv _ types_ok); [|exact Hok|exact Htypes].
      intros a x a' Ha Hx. apply add_single_type_ok in Hx as (Hx & _). by apply Hx. }
    eapply (fold_try_adds _ (λ si (types : gmap nat Ty.Type_), is_Some (types !! si)) (λ i si, vector_type i = Some si)) in Htypes
      as [Hmono Hall].
    + split; [done|]. intros si (code' & i & [= <-] & Hi & Hv'). by eapply Hall.
    + intros a x a' Hx. apply add_single_type_ok in Hx as (_ & H1 & H2). by split; [exact H1|exact H2].
  - injection Htypes as <-. split_and!; [done|done|]. by intros si (? & ? & ? & _).
Qed.
Lemma loaded_type_ok def code i idx sig t :
  def ∈ cm_function_defs m → def_code def = Some code → i ∈ cu_code code → vector_type i = Some idx →
  cm_signatures m !! idx = Some sig → sig !! 0%nat = Some t → ground_type m t →
  ∃ ty, instantiate_single_type lm idx = Done ty ∧ same_head t ty = true ∧ depth_defined c ty.
Proof.
  intros Hdef Hcode Hi Hv Hsig Ht [Hval Hclosed Harity].
  destruct loaded_parts as (_ & refs & maps & _ & _ & _ & _ & Hmaps & Hlmt).
  assert (types_ok maps.2) as Hok.
  { refine (fold_try_inv _ (λ acc, types_ok acc.2) _ _ _ _ _ Hmaps);
      [|intros si ty Hsi; simpl in Hsi; by rewrite lookup_empty in Hsi].
    intros a x a' Ha Hx. apply add_function_def_ok in Hx as (Hx & _). by apply Hx. }
  eapply (fold_try_adds _ (λ si (acc : gmap string nat * gmap nat Ty.Type_), is_Some (acc.2 !! si))
    (λ def si, ∃ code i, def_code def = Some code ∧ i ∈ cu_code code ∧ vector_type i = Some si)) in Hmaps as [_ Hall].
  2:{ intros a x a' Hx. apply add_function_def_ok in Hx as (_ & H1 & H2). by split; [exact H1|exact H2]. }
  destruct (Hall def idx Hdef) as [ty Hty]; [by eauto|].
  destruct (Hok _ _ Hty) as (sig' & t' & Hsig' & Ht' & Hmake). simplify_eq.
  exists ty. unfold instantiate_single_type. rewrite Hlmt, Hty. split_and!; [done|by eapply make_type_head|].
  eapply depth_defined_of, make_type_ok; [apply Hfilled|done..].
Qed.
End loaded.
End cache.

(** * The contract *)

Lemma add_module_ok fuel data_store m c lm :
  verified_module m → self_contained m → add_module fuel data_store ModuleCache_new m = Done (Ok (c, lm)) →
  ∃ rid c', self_id m = Done rid ∧ fields_filled m rid c' ∧ depths_scoped c' ∧
    mapM (λ def, Function_new def.1 def.2 m) (imap pair (cm_function_defs m)) = Done (mc_functions c') ∧
    LoadedModule_new 0 m c' = Done (Ok lm) ∧
    mc_structs c = mc_structs c' ∧ mc_functions c = mc_functions c'.
Proof.
  intros Hm Hself Hrun. pose proof (duplication_checked _ (vm_duplication _ Hm)) as Hunique.
  unfold add_module in Hrun. apply bind_Done in Hrun as (rid & Hrid & Hrun).
  apply try_exec_Ok in Hrun as ([c1 sigs] & Hadd & Hrun).
  apply (add_structs_ok data_store m rid Hunique Hself _ 0) in Hadd; [|apply structs_added_new|done].
  apply try_exec_Ok in Hrun as (field_types & Hfields & Hrun).
  apply (fill_fields_ok m rid Hunique Hself Hrid (vm_bounds _ Hm)) in Hfields as (Hfilled & Hnew & _); [|done].
  apply bind_Done in Hrun as ([dc r] & Hdepths & Hrun). apply try_exec_Ok in Hrun as (u & Hu & Hrun).
  simpl in Hu. injection Hu as ->.
  apply (store_depths_ok m rid Hunique Hself _ _ _ _ _ Hfilled Hnew) in Hdepths as [Hfilled' Hscoped].
  apply bind_Done in Hrun as (functions & Hfun & Hrun). apply try_exec_Ok in Hrun as (lm' & Hlm & [= <- <-]).
  eexists rid, _. split_and!; [done| | | |exact Hlm|done|done].
  - destruct Hfilled' as [[? ? ? ?] Hty Hcount]. split; [by split|exact Hty|exact Hcount].
  - exact Hscoped.
  - simpl. pose proof (sa_functions _ _ _ _ Hadd) as Hnone. simpl in Hnone. by rewrite Hnone.
Qed.
(** Loading a self-contained verified module into an empty cache. *)
Lemma add_module_contract fuel data_store m c lm :
  verified_module m → module_sized m → self_contained m →
  add_module fuel data_store ModuleCache_new m = Done (Ok (c, lm)) → LoaderContract m c lm.
Proof.
  intros Hm Hsized Hself Hrun. pose proof (duplication_checked _ (vm_duplication _ Hm)) as Hunique.
  destruct (add_module_ok _ _ _ _ _ Hm Hself Hrun) as (rid & c' & Hrid & Hfilled & Hscoped & Hfun & Hlm & Hst & Hfn).
  assert (∀ ty, depth_defined c' ty → depth_defined c ty) as Hdepth.
  { intros ty Hty max. specialize (Hty max). unfold check_depth_of_type in *. destruct max as [max|]; [|done].
    assert (∀ ty d, check_depth_of_type_impl c max ty d = check_depth_of_type_impl c' max ty d) as ->; [|done].
    clear -Hst. induction ty as [ty IH|ty IH|ty IH|i tys IH|ty Hty] using ty_nested_ind; intros d.
    1-3: cbn [check_depth_of_type_impl]; destruct (check_depth max d 1); [apply IH|done].
    - cbn [check_depth_of_type_impl]. rewrite Hst. f_equal.
      induction IH as [|ty tys Hty IH IHtys]; [done|]. destruct (check_depth max d 0) as [x|]; [|done]. simpl.
      rewrite Hty. destruct (check_depth_of_type_impl c' max ty x); [|done]. simpl in IHtys |- *. by rewrite IHtys.
    - destruct ty; try done. cbn [check_depth_of_type_impl]. by rewrite Hst. }
  split.
  - intros idx fh Hfh. destruct (loaded_function_ok m rid Hunique Hself Hrid c' Hfun lm Hlm idx fh Hfh)
      as (i & def & func & ? & ? & ? & Hfrom). exists i, def, func. split_and!; [done..|].
    unfold function_from_handle in *. by rewrite Hfn.
  - intros idx sd sh fields Hsd Hf Hsh Hnil.
    destruct (loaded_struct_ok m rid Hunique Hself Hrid c' Hfilled Hscoped Hsized lm Hlm idx sd sh fields)
      as (? & ty & ? & ?); [done..|]. eauto.
  - intros def code i idx sig t Hdef Hcode Hi Hv Hsig Ht Hg.
    destruct (loaded_type_ok m rid Hunique Hself Hrid c' Hfilled Hscoped lm Hlm def code i idx sig t)
      as (ty & ? & ? & ?); [done..|]. eauto.
Qed.
