(* ===== verification/LoaderTotal.v ===== *)
(** Loading succeeds: [add_module] returns a loaded module for every
    self-contained module that passes the verifier and [check_natives], when
    the store knows the structs of the module.  No index is out of range, every
    name resolves, and the calculation of depths ends, since the pass on
    recursive structs bounds how deep structs are nested. *)
From S2P Require Import Prelude Objects Errors GasTables.
From S2P Require Import MoveValues GasMeter MoveIntegers MoveModule.
From S2P Require Import VmMonad ControlFlow TraversalOrder AbstractInterp.
From S2P Require Import LocalsSafety AbstractStack CodeVerifier VerifierFacts.
From S2P Require Import VerifiedModule VmValues VmLoader Interpreter.
From S2P Require Import ValueTyping LoaderContract StructDefs LoaderFacts.

(** * Code that succeeds *)

Lemma try_exec_l {A B E : Type} (a : A) (k : A → exec (result B E)) : try_exec (Done (Ok a)) k = k a.
Proof. done. Qed.

Lemma mapM_total {A B} (f : A → exec B) l :
  (∀ x, x ∈ l → ∃ y, f x = Done y) → ∃ k, mapM f l = Done k.
Proof.
  intros Hf. induction l as [|x l IH]; [by exists []|].
  destruct (Hf x) as [y Hy]; [by left|]. destruct IH as [k Hk]; [intros z Hz; apply Hf; by right|].
  exists (y :: k). simpl. rewrite Hy. simpl. by rewrite Hk.
Qed.
Lemma collect_try_total {A B} (f : A → exec (vmresult B)) l :
  (∀ x, x ∈ l → ∃ y, f x = Done (Ok y)) → ∃ k, collect_try f l = Done (Ok k).
Proof.
  intros Hf. induction l as [|x l IH]; [by exists []|].
  destruct (Hf x) as [y Hy]; [by left|]. destruct IH as [k Hk]; [intros z Hz; apply Hf; by right|].
  exists (y :: k). simpl. by rewrite Hy, Hk.
Qed.
Lemma fold_try_total {A B} (f : A → B → exec (vmresult A)) acc l :
  (∀ a x, x ∈ l → ∃ a', f a x = Done (Ok a')) → ∃ a', fold_try f acc l = Done (Ok a').
Proof.
  revert acc. induction l as [|x l IH]; intros acc Hf; [by eexists|].
  destruct (Hf acc x) as [a Ha]; [by left|]. simpl. rewrite Ha. simpl. apply IH. intros. apply Hf. by right.
Qed.
Lemma collect_total {A B} (P : A → B → Prop) l :
  (∀ x, x ∈ l → ∃ y, P x y) → ∃ k, Forall2 P l k.
Proof.
  intros Hf. induction l as [|x l IH]; [by exists []|].
  destruct (Hf x) as [y Hy]; [by left|]. destruct IH as [k Hk]; [intros z Hz; apply Hf; by right|].
  exists (y :: k). by constructor.
Qed.

(** * Indices in range *)

Lemma check_bounds_Ok {A} (pool : list A) idx u : check_bounds_impl pool idx = Ok u → is_Some (pool !! idx).
Proof. unfold check_bounds_impl. intros Hb%ensure_Ok. apply lookup_lt_is_Some_2. by apply Nat.ltb_lt. Qed.

Record tables_bounded (m : CompiledModule) : Prop := {
  tb_self : is_Some (cm_module_handles m !! cm_self_module_handle_idx m);
  tb_modules : ∀ mh, mh ∈ cm_module_handles m →
    is_Some (cm_address_identifiers m !! mh_address mh) ∧ is_Some (cm_identifiers m !! mh_name mh);
  tb_structs : ∀ sh, sh ∈ cm_struct_handles m → is_Some (cm_identifiers m !! sh_name sh);
  tb_functions : ∀ fh, fh ∈ cm_function_handles m → is_Some (cm_identifiers m !! fh_name fh) ∧
    is_Some (cm_signatures m !! fh_parameters fh) ∧ is_Some (cm_signatures m !! fh_return fh);
  tb_struct_defs : ∀ sd, sd ∈ cm_struct_defs m → is_Some (cm_struct_handles m !! sd_struct_handle sd) ∧
    ∀ fields f, sd_field_information sd = Declared fields → f ∈ fields →
      is_Some (cm_identifiers m !! fd_name f) ∧ check_type m (fd_signature f) = Ok ();
  tb_function_defs : ∀ def, def ∈ cm_function_defs m → is_Some (cm_function_handles m !! def_function def) ∧
    ∀ code, def_code def = Some code → is_Some (cm_signatures m !! cu_locals code);
}.
Lemma bounds_checked m : BoundsChecker_verify m = Ok () → tables_bounded m.
Proof.
  unfold BoundsChecker_verify. intros Hb. apply and_then_Ok in Hb as (_ & _ & Hb).
  apply and_then_Ok in Hb as ([] & Hmh & Hb). apply and_then_Ok in Hb as ([] & Hself & Hb).
  apply and_then_Ok in Hb as ([] & Hsh & Hb). apply and_then_Ok in Hb as ([] & Hfh & Hb).
  apply and_then_Ok in Hb as ([] & Hsd & Hfd). split.
  all: rewrite try_for_each_Ok in Hmh; rewrite try_for_each_Ok in Hsh; rewrite try_for_each_Ok in Hfh;
    rewrite try_for_each_Ok in Hsd; rewrite try_for_each_Ok in Hfd.
  - by eapply check_bounds_Ok.
  - intros mh Hin. specialize (Hmh mh Hin). apply and_then_Ok in Hmh as (? & ?%check_bounds_Ok & ?%check_bounds_Ok). done.
  - intros sh Hin. specialize (Hsh sh Hin). unfold bounds_check_struct_handle in Hsh.
    by apply and_then_Ok in Hsh as (? & _ & ?%check_bounds_Ok).
  - intros fh Hin. specialize (Hfh fh Hin). unfold bounds_check_function_handle in Hfh.
    apply and_then_Ok in Hfh as (? & _ & Hfh). apply and_then_Ok in Hfh as (? & ?%check_bounds_Ok & Hfh).
    apply and_then_Ok in Hfh as (? & ?%check_bounds_Ok & Hfh). by apply and_then_Ok in Hfh as (? & ?%check_bounds_Ok & _).
  - intros sd Hin. specialize (Hsd sd Hin). unfold bounds_check_struct_def in Hsd.
    apply and_then_Ok in Hsd as (? & ?%check_bounds_Ok & Hsd). split; [done|]. intros fields f Hf Hin'. rewrite Hf in Hsd.
    rewrite try_for_each_Ok in Hsd. specialize (Hsd f Hin'). apply and_then_Ok in Hsd as (? & ?%check_bounds_Ok & Hsd).
    by apply and_then_Ok in Hsd as ([] & ? & _).
  - intros def Hin. specialize (Hfd def Hin). unfold bounds_check_function_def in Hfd.
    apply and_then_Ok in Hfd as (? & ?%check_bounds_Ok & Hfd). split; [done|]. intros code Hc. rewrite Hc in Hfd.
    apply and_then_Ok in Hfd as (? & _ & Hfd). apply and_then_Ok in Hfd as (? & _ & Hfd). unfold check_code in Hfd.
    by apply and_then_Ok in Hfd as (? & ?%check_bounds_Ok & _).
Qed.

(** * Depth formulas *)

(** A formula with each of its variables below [n] and used once. *)
Definition closed (n : nat) (f : DepthFormula) : Prop := scoped n f ∧ NoDup (df_terms f).*1.

Lemma closed_add n f c : closed n f → closed n (df_add f c).
Proof.
  intros [Hs Hn]. split; [by apply scoped_add|]. unfold df_add. simpl.
  replace (map (λ t : nat * Z, (t.1, saturating_add64 t.2 c)) (df_terms f)).*1 with (df_terms f).*1; [done|].
  clear. induction (df_terms f) as [|t l IH]; [done|]. csimpl. by rewrite IH.
Qed.
Lemma closed_normalize n formulas : Forall (scoped n) formulas → closed n (normalize formulas).
Proof. intros Hfs. split; [by apply scoped_normalize|]. apply btree_iter_NoDup. Qed.
Lemma closed_atoms n : closed n (DepthFormula_constant 1) ∧ ∀ i, (i < n)%nat → closed n (type_parameter i).
Proof.
  split; [|intros i Hi]; split; try (repeat constructor; done); simpl; try apply NoDup_singleton; by repeat constructor.
Qed.
Lemma df_subst_total k n f (m : gmap nat DepthFormula) :
  closed k f → (∀ i, (i < k)%nat → is_Some (m !! i)) → (∀ i h, m !! i = Some h → scoped n h) →
  ∃ g, df_subst f m = Ok g ∧ closed n g.
Proof.
  intros [Hs Hnd] Hm Hsc. unfold df_subst.
  match goal with |- context [and_then (?go (df_terms f) m) _] =>
    assert (∃ l, go (df_terms f) m = Ok l ∧ Forall (scoped n) l) as (l & -> & Hl) end.
  { unfold scoped in Hs. assert (∀ t, t ∈ (df_terms f).*1 → is_Some (m !! t)) as Hall.
    { intros t (e & -> & He)%list_elem_of_fmap. rewrite Forall_forall in Hs. by apply Hm, Hs. }
    clear Hs Hm. revert m Hsc Hall. induction (df_terms f) as [|[t z] terms IH]; intros m Hsc Hall; [by exists []|].
    apply NoDup_cons in Hnd as [Hni Hnd]. destruct (Hall t) as [h Hh]; [by left|]. rewrite Hh. simpl.
    destruct (IH Hnd (delete t m)) as (l & -> & Hl).
    - intros i h' [_ Hi]%lookup_delete_Some. by eapply Hsc.
    - intros t' Ht'. rewrite lookup_delete_ne by (intros ->; by apply Hni). apply Hall. by right.
    - simpl. eexists. split; [done|]. constructor; [by eapply scoped_add, Hsc|done]. }
  simpl. eexists. split; [done|]. apply closed_normalize, Forall_app. split; [|done].
  destruct (df_constant f); by repeat constructor.
Qed.

(** * The calculation of depths *)

(** The structs a type mentions, as indices of the cache. *)
Fixpoint mentions (ty : Ty.Type_) (j : nat) : Prop :=
  match ty with
  | Ty.Vector ty | Ty.Reference ty | Ty.MutableReference ty => mentions ty j
  | Ty.Struct i => i = j
  | Ty.StructInstantiation i tys =>
      i = j ∨ (fix go (tys : list Ty.Type_) : Prop :=
                 match tys with [] => False | ty :: tys => mentions ty j ∨ go tys end) tys
  | _ => False
  end.
Lemma mentions_inst i tys j :
  mentions (Ty.StructInstantiation i tys) j ↔ i = j ∨ ∃ ty, ty ∈ tys ∧ mentions ty j.
Proof.
  simpl. match goal with |- _ ∨ ?P ↔ _ => enough (P ↔ ∃ ty, ty ∈ tys ∧ mentions ty j) as -> by done end.
  induction tys as [|ty tys IH].
  - split; [done|]. by intros (ty & ?%elem_of_nil & _).
  - rewrite IH. setoid_rewrite elem_of_cons. naive_solver.
Qed.

(** Code that returns without an error. *)
Abbreviation succeeds := (wp (λ _, False)) (only parsing).

Section depths.
Context (c : ModuleCache) (rank : nat → nat).
Context (Hfields : ∀ i st, mc_structs c !! i = Some st →
  Forall (type_ok (arities c) (length (st_type_parameters st))) (st_fields st)).
Context (Hresolve : ∀ i st, mc_structs c !! i = Some st →
  resolve_struct_by_name c (st_name st) (st_runtime_id st) = Ok (i, st)).
Context (Hnew : Forall (λ st, st_depth st = None) (mc_structs c)).
Context (Hrank : ∀ i st ty j, mc_structs c !! i = Some st → ty ∈ st_fields st → mentions ty j → (rank j < rank i)%nat).

Definition cache_closed (dc : gmap nat DepthFormula) : Prop := ∀ i f,
  dc !! i = Some f → ∃ st, mc_structs c !! i = Some st ∧ closed (length (st_type_parameters st)) f.
(** Only structs of a rank below [r] are added. *)
Definition grown (r : nat) (dc dc' : gmap nat DepthFormula) : Prop :=
  ∀ j, is_Some (dc' !! j) → is_Some (dc !! j) ∨ (rank j < r)%nat.
Lemma grown_trans r dc dc' dc'' : grown r dc dc' → grown r dc' dc'' → grown r dc dc''.
Proof. intros H1 H2 j [Hj|?]%H2; [by apply H1|by right]. Qed.
Lemma grown_mono r r' dc dc' : (r ≤ r')%nat → grown r dc dc' → grown r' dc dc'.
Proof. intros Hle Hg j [?|?]%Hg; [by left|right; lia]. Qed.
Lemma grown_refl r dc : grown r dc dc.
Proof. by left. Qed.

Definition struct_returns (r : nat) (dos : StructType → depth_sem DepthFormula) : Prop :=
  ∀ i st dc, mc_structs c !! i = Some st → cache_closed dc → (rank i < r)%nat →
    succeeds (dos st) dc (λ f dc', cache_closed dc' ∧ closed (length (st_type_parameters st)) f ∧
      grown (S (rank i)) dc dc').

Lemma struct_formula r dos n i (args : list DepthFormula) dc :
  struct_returns r dos → arities c !! i = Some (length args) → (rank i < r)%nat → Forall (closed n) args → cache_closed dc →
  ∀ st, mc_structs c !! i = Some st →
  succeeds (sbind (dos st) (λ f, sresult (df_subst f (list_to_map (imap pair args))))) dc
    (λ f dc', cache_closed dc' ∧ closed n f ∧ grown r dc dc').
Proof.
  intros Hdos (st' & Hst' & Hlen)%arities_lookup Hr Hargs Hdc st Hst. simplify_eq. apply wp_bind.
  eapply wp_mono; [by apply (Hdos i)|]. intros f dc' (Hdc' & Hf & Hg). apply wp_result. rewrite Hlen in Hf.
  destruct (df_subst_total _ n f (list_to_map (imap pair args)) Hf) as (g & -> & Hg').
  - intros j [a Ha]%lookup_lt_is_Some_2. exists a. apply elem_of_list_to_map_1'.
    + intros b Hb. apply elem_of_lookup_imap in Hb as (j' & b' & [= <- <-] & Hb). congruence.
    + apply elem_of_lookup_imap. eauto.
  - intros j h Hj. apply elem_of_list_to_map_2, elem_of_lookup_imap in Hj as (j' & h' & [= -> ->] & Hj).
    eapply Forall_lookup_1 in Hargs as [? _]; done.
  - split_and!; [done|done|]. eapply grown_mono; [|done]. lia.
Qed.
Lemma calculate_depth_of_type_returns r dos n ty dc :
  struct_returns r dos → type_ok (arities c) n ty → (∀ j, mentions ty j → (rank j < r)%nat) → cache_closed dc →
  succeeds (calculate_depth_of_type c dos ty) dc (λ f dc', cache_closed dc' ∧ closed n f ∧ grown r dc dc').
Proof.
  intros Hdos. revert dc. induction ty as [ty IH|ty IH|ty IH|i tys IH|ty Hty] using ty_nested_ind; intros dc Hok Hm Hdc.
  1-3: simpl; apply wp_bind; eapply wp_mono; [by apply IH|]; intros f dc' (? & ? & ?);
    apply wp_ret; split_and!; [done|by apply closed_add|done].
  - apply type_ok_inst in Hok as [Hi Hok]. cbn [calculate_depth_of_type]. setoid_rewrite mentions_inst in Hm.
    pose proof Hi as (st & Hst & _)%arities_lookup. apply wp_bind. eapply wp_exec; [unfold unwrap; rewrite Hst; reflexivity|]. apply wp_bind.
    match goal with |- wp _ (?go tys) _ _ =>
      assert (succeeds (go tys) dc (λ fs dc', cache_closed dc' ∧ Forall (closed n) fs ∧ length fs = length tys ∧ grown r dc dc')) as Hgo
    end.
    { assert (∀ ty, ty ∈ tys → ∀ j, mentions ty j → (rank j < r)%nat) as Hm' by eauto. clear Hi Hm Hst. revert dc Hdc.
      induction IH as [|ty tys Hty IH IHtys]; intros dc Hdc.
      { apply wp_ret. split_and!; [done|constructor|done|apply grown_refl]. }
      apply Forall_cons in Hok as [Hok Hoks].
      apply wp_bind. eapply wp_mono; [apply Hty; [done|apply Hm'; by left|done]|]. intros f dc1 (Hdc1 & Hf & Hg1).
      apply wp_bind. eapply wp_mono; [apply IHtys; [done|intros ? ?; apply Hm'; by right|done]|].
      intros fs dc2 (Hdc2 & Hfs & Hlen & Hg2). apply wp_ret. split_and!; [done|by constructor|simpl; by rewrite Hlen|].
      by eapply grown_trans. }
    eapply wp_mono; [exact Hgo|]. intros fs dc1 (Hdc1 & Hfs & Hlen & Hg1).
    eapply wp_mono; [eapply (struct_formula r dos n i fs); [done| | |done..]|].
    + by rewrite Hlen.
    + apply Hm. by left.
    + intros f dc2 (? & ? & ?). split_and!; [done|done|]. by eapply grown_trans.
  - destruct ty; try done; simpl.
    all: try (apply wp_ret; split_and!; [done| |apply grown_refl]; by apply closed_atoms).
    simpl in Hok. pose proof Hok as (st & Hst & Hlen)%arities_lookup. apply wp_bind. eapply wp_exec; [unfold unwrap; rewrite Hst; reflexivity|].
    eapply wp_mono; [apply (Hdos idx); [done|done|by apply Hm]|]. intros f dc' (? & [Hf Hnd] & ?). rewrite Hlen in Hf.
    split_and!; [done| |eapply grown_mono; [|done]; by apply Hm]. split; [|done].
    eapply Forall_impl; [exact Hf|]. simpl. lia.
Qed.
Lemma calculate_depth_of_types_returns r dos n tys dc :
  struct_returns r dos → Forall (type_ok (arities c) n) tys → (∀ ty j, ty ∈ tys → mentions ty j → (rank j < r)%nat) →
  cache_closed dc →
  succeeds (calculate_depth_of_types c dos tys) dc (λ fs dc', cache_closed dc' ∧ Forall (closed n) fs ∧ grown r dc dc').
Proof.
  intros Hdos Htys. revert dc. induction Htys as [|ty tys Hty Htys IH]; intros dc Hm Hdc.
  { apply wp_ret. split_and!; [done|constructor|apply grown_refl]. }
  simpl.
  apply wp_bind. eapply wp_mono; [apply calculate_depth_of_type_returns; [done|done| |done]|].
  { intros j. apply Hm. by left. }
  intros f dc1 (Hdc1 & Hf & Hg1). apply wp_bind. eapply wp_mono; [apply IH; [|done]|].
  { intros ty' j Hin. apply Hm. by right. }
  intros fs dc2 (? & ? & ?). apply wp_ret. split_and!; [done|by constructor|by eapply grown_trans].
Qed.
Lemma calculate_depth_of_struct_returns fuel : struct_returns fuel (calculate_depth_of_struct fuel c).
Proof.
  induction fuel as [|fuel IH]; intros i st dc Hst Hdc Hr; [lia|]. cbn [calculate_depth_of_struct].
  apply wp_bind, wp_result. rewrite (Hresolve _ _ Hst). cbn.
  rewrite (Forall_lookup_1 _ _ _ _ Hnew Hst). apply wp_bind, wp_get.
  destruct (dc !! i) as [f|] eqn:Hi.
  { apply wp_ret. destruct (Hdc _ _ Hi) as (st' & Hst' & Hf). simplify_eq. split_and!; [done|done|apply grown_refl]. }
  apply wp_bind. eapply wp_mono; [apply (calculate_depth_of_types_returns (rank i)); [|by eapply Hfields|by eauto|done]|].
  { intros j st' dc' Hj Hdc' Hlt. apply IH; [done|done|lia]. }
  intros fs dc1 (Hdc1 & Hfs & Hg). apply wp_bind, wp_get, wp_bind, wp_modify.
  assert (dc1 !! i = None) as Hnone.
  { destruct (dc1 !! i) eqn:Hi1; [|done]. destruct (Hg i) as [[? ?]|?]; [by eexists|congruence|lia]. }
  rewrite Hnone. apply wp_ret. assert (closed (length (st_type_parameters st)) (df_add (normalize fs) 1)) as Hcl.
  { apply closed_add, closed_normalize. eapply Forall_impl; [exact Hfs|]. by intros f []. }
  split_and!; [|done|].
  - intros j g [[<- <-]|[_ Hj]]%lookup_insert_Some; eauto.
  - intros j [g [[<- _]|[_ Hj]]%lookup_insert_Some]; [right; lia|].
    destruct (Hg j) as [?|?]; [by eexists|by left|right; lia].
Qed.
Lemma calculate_depths_returns fuel n :
  (∀ i, rank i < fuel)%nat → ∃ dc u, calculate_depths fuel c n ∅ = Done (dc, Ok u).
Proof.
  intros Hfuel. unfold calculate_depths.
  assert (∀ l dc, (∀ st, st ∈ l → st ∈ mc_structs c) → cache_closed dc →
    succeeds (sfor (λ st, sbind (calculate_depth_of_struct fuel c st) (λ _, sret ())) l) dc (λ _ dc', cache_closed dc')) as Hfor.
  { induction l as [|st l IHl]; intros dc Hin Hdc; [by apply wp_ret|]. simpl. apply wp_bind, wp_bind.
    destruct (list_elem_of_lookup_1 (mc_structs c) st) as [i Hi]; [apply Hin; by left|].
    eapply wp_mono; [by apply (calculate_depth_of_struct_returns fuel i)|]. intros f dc' (Hdc' & _).
    apply wp_ret, IHl; [|done]. intros st' Hst'. apply Hin. by right. }
  specialize (Hfor (take n (rev (mc_structs c))) ∅). unfold wp in Hfor.
  destruct (sfor _ _ _) as [[dc [u|e]]| |] eqn:Hrun; [by exists dc, u|exfalso..]; apply Hfor.
  all: try (intros i f Hi; by rewrite lookup_empty in Hi).
  all: intros st (i & Hi & _)%elem_of_take; by eapply list_elem_of_In, in_rev, list_elem_of_In, list_elem_of_lookup_2.
Qed.
End depths.

(** * The steps of [add_module] *)

(** The store knows the module that defined each struct of [m]. *)
Definition knows_structs (data_store : DataStore) (m : CompiledModule) : Prop :=
  ∀ rid sd sh name, self_id m = Done rid → sd ∈ cm_struct_defs m →
    cm_struct_handles m !! sd_struct_handle sd = Some sh → cm_identifiers m !! sh_name sh = Some name →
    ∃ id, defining_module data_store rid name = Ok id.

Section total.
Context (data_store : DataStore) (m : CompiledModule) (rid : ModuleId).
Context (Hverified : verified_module m) (Hself : self_contained m) (Hrid : self_id m = Done rid).
Context (Hknown : knows_structs data_store m).
Context (Hdeclared : ∀ sd, sd ∈ cm_struct_defs m → ∃ fields, sd_field_information sd = Declared fields).
Let Hb := bounds_checked m (vm_bounds m Hverified).
Let Hunique := duplication_checked m (vm_duplication m Hverified).

Lemma identifier_total idx : is_Some (cm_identifiers m !! idx) → ∃ name, identifier_at m idx = Done name.
Proof using. clear. intros [name Hn]. exists name. unfold identifier_at. by rewrite Hn. Qed.

Lemma add_struct_total acc i sd :
  cm_struct_defs m !! i = Some sd → ∃ acc', add_struct data_store m rid acc (i, sd) = Done (Ok acc').
Proof.
  intros Hi. apply list_elem_of_lookup_2 in Hi as Hin. destruct (tb_struct_defs m Hb sd Hin) as [[sh Hsh] Hfields].
  destruct (tb_structs m Hb sh) as [name Hname]; [by eapply list_elem_of_lookup_2|].
  destruct (Hdeclared sd Hin) as [fields Hf].
  destruct (mapM_total (λ f, identifier_at m (fd_name f)) fields) as [names Hnames].
  { intros f Hfin. by apply identifier_total, (Hfields fields f). }
  destruct (Hknown rid sd sh name) as [id Hid]; [done..|].
  unfold add_struct, struct_handle_at, identifier_at. rewrite Hsh. simpl. rewrite Hname. simpl.
  destruct (mc_struct_ids acc.1 !! (rid, name)); [by eexists|]. rewrite Hf. unfold identifier_at in Hnames.
  rewrite Hnames. simpl. rewrite Hid. simpl. by eexists.
Qed.
Lemma add_structs_total :
  ∃ out, fold_try (add_struct data_store m rid) (ModuleCache_new, []) (imap pair (cm_struct_defs m)) = Done (Ok out) ∧
    structs_added m rid (length (cm_struct_defs m)) out.
Proof.
  destruct (fold_try_total (add_struct data_store m rid) (ModuleCache_new, []) (imap pair (cm_struct_defs m)))
    as [out Hout].
  { intros acc [i sd] (i' & sd' & [= <- <-] & Hi)%elem_of_lookup_imap. by apply add_struct_total. }
  exists out. split; [done|]. by apply (add_structs_ok data_store m rid Hunique Hself _ 0) in Hout; [|apply structs_added_new|].
Qed.

(** ** Names resolve *)

Context (c : ModuleCache) (Hc : cache_ok m rid (length (cm_struct_defs m)) c).

Lemma resolve_struct_total h :
  is_Some (cm_struct_handles m !! h) → ∃ i, resolve_struct_handle c m h = Done (Ok i).
Proof.
  intros [sh Hsh]. apply list_elem_of_lookup_2 in Hsh as Hin. destruct (tb_structs m Hb sh Hin) as [name Hname].
  pose proof (sc_structs m Hself sh Hin) as Hmod.
  pose proof (ut_structs_defined m Hunique h sh Hsh Hmod) as (sd & -> & [j Hj]%list_elem_of_lookup_1)%list_elem_of_fmap.
  pose proof (co_registered _ _ _ _ Hc j sd sh name) as Hreg.
  specialize (Hreg ltac:(done) ltac:(by eapply lookup_lt_Some)).
  destruct (lookup_lt_is_Some_2 (mc_structs c) j) as [st Hst].
  { rewrite (co_length _ _ _ _ Hc). by eapply lookup_lt_Some. }
  exists j. unfold resolve_struct_handle, struct_handle_at, identifier_at. rewrite Hsh. simpl. rewrite Hname. simpl.
  rewrite Hmod. change (module_id_at m (cm_self_module_handle_idx m)) with (self_id m). rewrite Hrid. simpl.
  unfold resolve_struct_by_name. by rewrite Hreg, Hst.
Qed.
Lemma make_type_total tok : check_type m tok = Ok () → ∃ ty, make_type c m tok = Done (Ok ty).
Proof.
  induction tok as [tok IH|tok IH|tok IH|h toks IH|tok Htok] using token_nested_ind; intros Hty.
  1-3: destruct IH as [ty Hty']; [eapply check_type_child; [exact Hty|]; intros x Hx; by right|];
    simpl; rewrite Hty'; by eexists.
  - destruct (resolve_struct_total h) as [i Hi].
    { unfold check_type in Hty. rewrite try_for_each_Ok in Hty. specialize (Hty (ST.StructInstantiation h toks) ltac:(by left)).
      by apply and_then_Ok in Hty as (? & ?%check_bounds_Ok & _). }
    cbn [make_type]. match goal with |- context [try_exec (?go toks) _] =>
      assert (∃ tys, go toks = Done (Ok tys)) as [tys ->] end.
    { assert (∀ t, t ∈ toks → check_type m t = Ok ()) as Hsub.
      { intros t Ht. eapply check_type_child; [exact Hty|]. intros x Hx. right.
        apply list_elem_of_In, in_flat_map. exists t. by rewrite <-!list_elem_of_In. }
      clear Hty Hi. induction IH as [|t toks Ht IH IHt]; [by exists []|].
      destruct Ht as [ty Hty]; [apply Hsub; by left|]. rewrite Hty. simpl.
      destruct IHt as [tys Htys]; [intros; apply Hsub; by right|]. simpl in Htys. rewrite Htys. by eexists. }
    simpl. rewrite Hi. by eexists.
  - destruct tok; try done; try by eexists. destruct (resolve_struct_total idx) as [i Hi]; [|simpl; rewrite Hi; by eexists].
    unfold check_type in Hty. rewrite try_for_each_Ok in Hty. specialize (Hty (ST.Struct idx) ltac:(by left)).
    by apply and_then_Ok in Hty as (? & ?%check_bounds_Ok & _).
Qed.
(** The structs of a type are the ones its signature names. *)
Lemma make_type_mentions tok ty j :
  make_type c m tok = Done (Ok ty) → mentions ty j →
  ∃ sd, cm_struct_defs m !! j = Some sd ∧ names_struct tok (sd_struct_handle sd).
Proof.
  revert ty. induction tok as [tok IH|tok IH|tok IH|h toks IH|tok Htok] using token_nested_ind; intros ty Hmake Hm.
  1-3: apply try_exec_Ok in Hmake as (t & Ht & [= <-]); destruct (IH t Ht Hm) as (sd & Hsd & u & Hu & Hn);
    exists sd; split; [done|]; exists u; split; [by right|done].
  - cbn [make_type] in Hmake. apply try_exec_Ok in Hmake as (tys & Htys & Hmake).
    apply try_exec_Ok in Hmake as (i & Hi & [= <-]). apply mentions_inst in Hm as [<-|(ty & Hin & Hm)].
    { destruct (resolve_ok m rid Hunique Hself Hrid _ _ _ _ Hc Hi) as (sh & sd & st & _ & Hsd & <- & _).
      exists sd. split; [done|]. eexists. split; [by left|]. right. by eexists. }
    assert (∃ t sd, t ∈ toks ∧ cm_struct_defs m !! j = Some sd ∧ names_struct t (sd_struct_handle sd)) as (t & sd & Ht & Hsd & u & Hu & Hn).
    { clear Hi. revert tys Htys Hin. induction IH as [|t toks Ht IH IHt]; intros tys Htys Hin.
      - injection Htys as <-. by apply elem_of_nil in Hin.
      - apply try_exec_Ok in Htys as (ty' & Hty' & Htys). apply try_exec_Ok in Htys as (l & Hl & [= <-]).
        apply elem_of_cons in Hin as [->|Hin].
        + destruct (Ht _ Hty' Hm) as (sd & ? & ?). exists t, sd. split_and!; [by left|done|done].
        + destruct (IHt l Hl Hin) as (t' & sd & ? & ? & ?). exists t', sd. split_and!; [by right|done|done]. }
    exists sd. split; [done|]. exists u. split; [|done]. right. apply list_elem_of_In, in_flat_map. exists t. by rewrite <-!list_elem_of_In.
  - destruct tok; try done; simpl in Hmake; try (injection Hmake as <-; done).
    apply try_exec_Ok in Hmake as (i & Hi & [= <-]). simpl in Hm. subst j.
    destruct (resolve_ok m rid Hunique Hself Hrid _ _ _ _ Hc Hi) as (sh & sd & st & _ & Hsd & <- & _).
    exists sd. split; [done|]. eexists. split; [by left|by left].
Qed.
Lemma own_name i st :
  mc_structs c !! i = Some st → resolve_struct_by_name c (st_name st) (st_runtime_id st) = Ok (i, st).
Proof.
  intros Hst. destruct (co_struct _ _ _ _ Hc i st Hst) as (sd & sh & Hn & -> & _). unfold resolve_struct_by_name.
  rewrite (co_registered _ _ _ _ Hc i sd sh (st_name st) Hn); [by rewrite Hst|].
  rewrite <-(co_length _ _ _ _ Hc). by eapply lookup_lt_Some.
Qed.

(** ** Functions and tables *)

Lemma Function_new_total j def : def ∈ cm_function_defs m → ∃ func, Function_new j def m = Done func.
Proof.
  intros Hin. destruct (tb_function_defs m Hb def Hin) as [[fh Hfh] Hcode].
  destruct (tb_functions m Hb fh) as ([name Hname] & [ps Hps] & [rs Hrs]); [by eapply list_elem_of_lookup_2|].
  unfold Function_new, function_handle_at, identifier_at, signature_at. rewrite Hfh. simpl. rewrite Hname. simpl.
  rewrite Hrid. simpl. rewrite Hps. simpl. destruct (def_code def) as [code|] eqn:Hc'.
  - destruct (Hcode code eq_refl) as [ls Hls]. rewrite Hls. simpl. rewrite Hrs. simpl. by eexists.
  - simpl. rewrite Hrs. simpl. by eexists.
Qed.
Lemma find_function_total functions name : ∃ r, find_function functions 0 name = Ok r.
Proof using.
  clear. induction functions as [|[j func] functions IH]; [by eexists|]. simpl. case_bool_decide; [by eexists|done].
Qed.
Lemma resolve_function_total fh :
  fh ∈ cm_function_handles m → ∃ r, resolve_function_handle c m rid 0 fh = Done (Ok r).
Proof.
  intros Hin. destruct (tb_functions m Hb fh Hin) as ([name Hname] & _).
  unfold resolve_function_handle, identifier_at. rewrite Hname. simpl. rewrite (sc_functions m Hself fh Hin).
  change (module_id_at m (cm_self_module_handle_idx m)) with (self_id m). rewrite Hrid. simpl. rewrite decide_True by done.
  destruct (find_function_total (rev (imap pair (mc_functions c))) name) as [r ->]. by eexists.
Qed.
(** The signature a vector instruction names has a type. *)
Lemma vector_signature def code i si :
  def ∈ cm_function_defs m → def_code def = Some code → i ∈ cu_code code → vector_type i = Some si →
  ∃ sig t, cm_signatures m !! si = Some sig ∧ sig !! 0%nat = Some t ∧ check_type m t = Ok ().
Proof using Hverified.
  intros Hdef Hcode Hi Hv.
  pose proof (signature_instruction _ _ _ _ (vm_signatures m Hverified) Hdef Hcode Hi) as Hrun.
  assert (∃ sig, cm_signatures m !! si = Some sig ∧ length sig = 1%nat) as (sig & Hsig & Hlen).
  { unfold signature_verify_instruction, signature_at in Hrun. destruct i; simpl in Hv; try done; injection Hv as ->; exec_inv;
      apply and_then_Ok in Hrun as (_ & Hlen%ensure_Ok%Nat.eqb_eq & _); by eexists. }
  destruct sig as [|t sig]; [done|]. exists (t :: sig), t. split_and!; [done..|].
  eapply (signature_types_ok m si (t :: sig)); [apply Hverified|done|by left].
Qed.
Lemma add_single_type_total types def code i :
  def ∈ cm_function_defs m → def_code def = Some code → i ∈ cu_code code →
  ∃ types', add_single_type c m types i = Done (Ok types').
Proof.
  intros Hdef Hcode Hi. assert (∀ si, vector_type i = Some si → ∃ types',
    match types !! si with
    | Some _ => Done (Ok types)
    | None => sig ← signature_at m si;
              sig_token ←? Done (ok_or (sig !! 0%nat) Vm.VERIFIER_INVARIANT_VIOLATION);
              ty ←? make_type c m sig_token; Done (Ok (<[si := ty]> types))
    end = Done (Ok types')) as Hvec.
  { intros si Hv. destruct (types !! si); [by eexists|].
    destruct (vector_signature def code i si) as (sig & t & Hsig & Ht & Hty); [done..|].
    destruct (make_type_total t Hty) as [ty Hmake]. unfold signature_at. rewrite Hsig. simpl. rewrite Ht.
    unfold try_exec. simpl. rewrite Hmake. by eexists. }
  destruct i; try (by eexists); by apply Hvec.
Qed.

Context (Hfunctions : mapM (λ def, Function_new def.1 def.2 m) (imap pair (cm_function_defs m)) = Done (mc_functions c)).

Lemma LoadedModule_new_total : ∃ lm, LoadedModule_new 0 m c = Done (Ok lm).
Proof.
  unfold LoadedModule_new. rewrite Hrid. cbn [mbind exec_bind].
  destruct (collect_try_total (resolve_struct_handle c m) (seq 0 (length (cm_struct_handles m)))) as [refs Hrefs].
  { intros h Hh%elem_of_seq. apply resolve_struct_total, lookup_lt_is_Some_2. lia. }
  rewrite Hrefs, try_exec_l. apply collect_try_Ok in Hrefs.
  match goal with |- context [mapM ?f (cm_struct_defs m)] => destruct (mapM_total f (cm_struct_defs m)) as [structs ->] end.
  { intros sd Hsd. destruct (tb_struct_defs m Hb sd Hsd) as [[sh Hsh] _].
    destruct (Forall2_lookup_l _ _ _ (sd_struct_handle sd) (sd_struct_handle sd) Hrefs) as (i & Hi & Hres).
    { apply lookup_seq. split; [done|]. by eapply lookup_lt_Some. }
    destruct (resolve_ok m rid Hunique Hself Hrid _ _ _ _ Hc Hres) as (_ & _ & st & _ & _ & _ & Hst & _).
    rewrite Hi. simpl. rewrite Hst. by eexists. }
  simpl. destruct (collect_try_total (resolve_function_handle c m rid 0) (cm_function_handles m)) as [frefs Hfrefs].
  { intros fh. apply resolve_function_total. }
  rewrite Hfrefs, try_exec_l. apply collect_try_Ok in Hfrefs. cbv zeta.
  destruct (fold_try_total (add_function_def c m (omap id frefs)) (∅, ∅) (cm_function_defs m)) as [maps ->]; [|by eexists].
  intros acc def Hdef. destruct (tb_function_defs m Hb def Hdef) as [[fh Hfh] _].
  destruct (Forall2_lookup_l _ _ _ _ _ Hfrefs Hfh) as (r & Hr & Hres).
  assert (∀ i fh r, cm_function_handles m !! i = Some fh → resolve_function_handle c m rid 0 fh = Done (Ok r) → is_Some r) as Hsome.
  { intros i fh' r' Hi Hres'. destruct (resolve_function_ok m rid Hunique Hself Hrid c Hfunctions i fh' r' Hi Hres')
      as (j & _ & _ & -> & _). by eexists. }
  destruct (Hsome _ _ _ Hfh Hres) as [idx ->].
  unfold add_function_def. rewrite (omap_some frefs _ idx); [|intros r Hin|done].
  2: { apply list_elem_of_lookup_1 in Hin as [i Hi]. destruct (Forall2_lookup_r _ _ _ _ _ Hfrefs Hi) as (fh' & Hfh' & Hres').
       by eapply Hsome. }
  simpl. unfold function_handle_at, identifier_at. rewrite Hfh. simpl.
  destruct (tb_functions m Hb fh) as ([name ->] & _); [by eapply list_elem_of_lookup_2|]. simpl.
  destruct (def_code def) as [code|] eqn:Hcode; [|by eexists].
  destruct (fold_try_total (add_single_type c m) acc.2 (cu_code code)) as [types ->]; [|by eexists].
  intros types i Hi. by eapply add_single_type_total.
Qed.
End total.

(** * Loading succeeds *)

Lemma natives_checked {F} (natives : gmap Z (gmap string (gmap string F))) m u sd :
  check_natives natives m = Done (Ok u) → sd ∈ cm_struct_defs m → ∃ fields, sd_field_information sd = Declared fields.
Proof.
  unfold check_natives. intros Hrun Hsd. apply try_exec_Ok in Hrun as (_ & _ & Hrun%Done_Ok_inj). destruct u.
  rewrite try_for_each_Ok in Hrun. specialize (Hrun sd Hsd). destruct (sd_field_information sd); [done|by eexists].
Qed.

Lemma add_module_total {F} toposort (natives : gmap Z (gmap string (gmap string F))) data_store m fuel u :
  verified_module m → self_contained m → toposort_ok toposort → RecursiveStructDefChecker toposort m = Ok () →
  check_natives natives m = Done (Ok u) → knows_structs data_store m → (length (cm_struct_defs m) < fuel)%nat →
  ∃ c lm, add_module fuel data_store ModuleCache_new m = Done (Ok (c, lm)).
Proof.
  intros Hm Hself Hsort Hrec Hnat Hknown Hfuel. pose proof (bounds_checked m (vm_bounds m Hm)) as Hb.
  pose proof (duplication_checked m (vm_duplication m Hm)) as Hunique.
  assert (∃ rid, self_id m = Done rid) as [rid Hrid].
  { destruct (tb_self m Hb) as [mh Hmh]. destruct (tb_modules m Hb mh) as [[a Ha] [n Hn]]; [by eapply list_elem_of_lookup_2|].
    unfold self_id, module_id_at, identifier_at. rewrite Hmh. simpl. rewrite Ha. simpl. rewrite Hn. by eexists. }
  destruct (accepted_structs_ranked _ _ _ Hsort Hrec (ut_struct_defs m Hunique)) as (rank & Hle & Hrank).
  destruct (add_structs_total data_store m rid Hm Hself Hrid Hknown) as ([c1 sigs] & Hadd & Hadded).
  { intros sd. by apply (natives_checked natives m u). }
  unfold add_module. rewrite Hrid. cbn [mbind exec_bind]. rewrite Hadd, try_exec_l.
  pose proof (sa_cache _ _ _ _ Hadded) as Hc1. simpl in Hc1.
  destruct (collect_try_total (collect_try (make_type c1 m)) sigs) as [field_types Hft].
  { intros ts [j Hj]%list_elem_of_lookup_1. apply collect_try_total. intros t Ht.
    destruct (sa_fields _ _ _ _ Hadded j ts Hj) as (sd & fields & Hsd & Hf & ->). apply list_elem_of_fmap in Ht as (f & -> & Hfin).
    apply (make_type_total m rid Hm Hself Hrid c1 Hc1).
    by apply (tb_struct_defs m Hb sd (list_elem_of_lookup_2 _ _ _ Hsd) ) with (fields := fields). }
  rewrite Hft, try_exec_l. cbv zeta.
  apply (fill_fields_ok m rid Hunique Hself Hrid (vm_bounds _ Hm)) in Hft as (Hfilled & Hnew & Hmade); [|done].
  set (c2 := set_structs c1 (fill_fields (mc_structs c1) field_types)) in *.
  destruct (calculate_depths_returns c2 rank (ff_types _ _ _ Hfilled) (own_name m rid c2 (ff_cache _ _ _ Hfilled)) Hnew)
    with (fuel := fuel) (n := length field_types) as (dc & v & Hdepths).
  { intros i st ty j Hst Hty Hm'. destruct (Hmade i st Hst) as (sd & fields & Hsd & Hf & Hall).
    apply list_elem_of_lookup_1 in Hty as [k Hk]. destruct (Forall2_lookup_r _ _ _ _ _ Hall Hk) as (t & Ht & Hmake).
    destruct (make_type_mentions m rid Hm Hself Hrid c1 Hc1 t ty j Hmake Hm') as (sd' & Hsd' & Hn).
    eapply (Hrank i sd t j sd'); [done| |done|done]. unfold field_tokens. rewrite Hf. by eapply list_elem_of_lookup_2. }
  { intros i. specialize (Hle i). lia. }
  rewrite Hdepths. cbn [mbind exec_bind snd fst]. rewrite try_exec_l.
  apply (store_depths_ok m rid Hunique Hself _ _ _ _ _ Hfilled Hnew) in Hdepths as [Hfilled' _].
  set (c3 := set_structs c2 (store_depths (mc_structs c2) dc)) in *.
  destruct (mapM_total (λ def : nat * FunctionDefinition, Function_new def.1 def.2 m) (imap pair (cm_function_defs m))) as [functions Hfun].
  { intros [j def] (j' & def' & [= <- <-] & Hdef)%elem_of_lookup_imap. simpl.
    by eapply (Function_new_total m rid Hm Hrid), list_elem_of_lookup_2. }
  rewrite Hfun. cbn [mbind exec_bind]. set (c4 := set_functions c3 _).
  destruct (LoadedModule_new_total m rid Hm Hself Hrid c4) as [lm Hlm].
  - pose proof (ff_cache _ _ _ Hfilled') as [? ? ? ?]. by split.
  - rewrite Hfun. simpl. pose proof (sa_functions _ _ _ _ Hadded) as Hnone. simpl in Hnone. by rewrite Hnone.
  - simpl in Hlm. change (length (mc_functions ModuleCache_new)) with 0%nat. rewrite Hlm. by eexists _, _.
Qed.
