(* ===== verification/MoveSafety.v ===== *)
(** Verify, load, run: the three components composed, and an example that goes
    through all of them. *)
From S2P Require Import Prelude Objects Errors GasTables.
From S2P Require Import MoveValues GasMeter MoveIntegers MoveModule.
From S2P Require Import VmMonad ControlFlow TraversalOrder AbstractInterp.
From S2P Require Import LocalsSafety AbstractStack CodeVerifier VerifierFacts.
From S2P Require Import VerifiedModule VmValues VmLoader Interpreter.
From S2P Require Import ValueTyping LoaderContract InstructionTyping TypeSoundness.
From S2P Require Import LoaderFacts StructDefs LoaderTotal.

(** C4: Type soundness of the Move VM.  Take a module within the size limits of
    the binary format, with definitions for all its handles, that the verifier
    accepts, whatever the passes outside of the model and the meter do, and
    that the loader adds to an empty cache.  A function of it without type
    parameters, run on arguments of its parameter types with any gas status,
    depth limit and native functions, returns: with values of its declared
    return types, or with an arithmetic error, an abort, a failed vector
    operation, an exceeded limit or a gas error.  It never panics, never loops
    forever, and none of the errors for a broken invariant (an empty stack, a
    value of another type, a use of a moved local, a jump out of the code) is
    returned.  The fuel is enough for the instructions the 64-bit counter of
    the meter can still count. *)
Theorem verified_execution_sound {M : Type} `{MeterTotal M} (passes : OtherPasses) (config : VerifierConfig)
    (m : CompiledModule) (μ μ' : M) u load_fuel data_store c lm max_value_nest_depth call_native
    idx fh params rets args gas fuel :
  module_sized m → self_contained m →
  verify_module_with_config_metered passes config m μ = Done (μ', Ok u) →
  add_module load_fuel data_store ModuleCache_new m = Done (Ok (c, lm)) →
  cm_function_handles m !! idx = Some fh → fh_type_parameters fh = [] →
  cm_signatures m !! fh_parameters fh = Some params → cm_signatures m !! fh_return fh = Some rets →
  Forall2 (val_ok m) args params →
  instructions_executed gas ≤ u64_max → u64_max - instructions_executed gas < Z.of_nat fuel →
  ∃ function gas' r, function_from_handle c lm idx = Done function ∧
    execute_main c lm max_value_nest_depth call_native fuel function args gas = Done (gas', r) ∧
    match r with Ok results => Forall2 (val_ok m) results rets | Err e => allowed e end.
Proof.
  intros Hsized Hself Hverify Hload. apply (verify_module_ok passes config m Hsized) in Hverify as Hm.
  pose proof (add_module_contract _ _ _ _ _ Hm Hsized Hself Hload) as Hcontract.
  by apply execute_main_sound, Hself.
Qed.

(** C10: Loading a verified module succeeds, and meets the contract the
    interpreter relies on.  For a self-contained module that the verifier and
    [check_natives] accept, with a store that knows its structs, [add_module]
    on an empty cache returns without an error or a panic; one more unit of
    fuel than there are structs is enough, because the pass on recursive
    structs, with a topological sort that behaves as documented, bounds how deep they
    are nested.  In the cache it returns every function handle resolves to the function built
    from the definition that implements it, every struct definition without
    type parameters to a struct with its declared number of fields, every type
    an instruction on vectors names is loaded with the shape of its signature,
    and the depth check on these types answers: with a depth or with the error
    for the depth limit, never with one for a broken invariant. *)
Theorem loaded_module_resolves {M F : Type} `{MeterTotal M} (passes : OtherPasses) (config : VerifierConfig)
    (natives : gmap Z (gmap string (gmap string F))) (m : CompiledModule) (μ μ' : M) u v load_fuel data_store :
  module_sized m → self_contained m → toposort_ok (toposort passes) →
  verify_module_with_config_metered passes config m μ = Done (μ', Ok u) →
  check_natives natives m = Done (Ok v) → knows_structs data_store m →
  (length (cm_struct_defs m) < load_fuel)%nat →
  ∃ c lm, add_module load_fuel data_store ModuleCache_new m = Done (Ok (c, lm)) ∧ LoaderContract m c lm.
Proof.
  intros Hsized Hself Hsort Hverify Hnatives Hknown Hfuel.
  apply (verify_module_not_recursive passes config m) in Hverify as Hrec.
  apply (verify_module_ok passes config m Hsized) in Hverify as Hm.
  destruct (add_module_total (toposort passes) natives data_store m load_fuel v) as (c & lm & Hload); [done..|].
  exists c, lm. split; [done|]. by eapply add_module_contract.
Qed.

(** * An example *)

(** A module with a struct of two [u64], a struct that contains it, a function that computes a factorial
    in a loop, and one that calls it and goes through a struct and a vector. *)
Definition factorial : list Bytecode :=
  [Bc.LdU64 1; Bc.StLoc 1; Bc.CopyLoc 0; Bc.LdU64 0; Bc.Eq; Bc.BrTrue 15;
   Bc.CopyLoc 1; Bc.CopyLoc 0; Bc.Mul; Bc.StLoc 1; Bc.CopyLoc 0; Bc.LdU64 1; Bc.Sub; Bc.StLoc 0; Bc.Branch 2;
   Bc.MoveLoc 1; Bc.Ret].
Definition factorial_plus_two : list Bytecode :=
  [Bc.MoveLoc 0; Bc.Call 0; Bc.LdU64 2; Bc.Pack 0; Bc.Unpack 0; Bc.Add; Bc.VecPack 0 1; Bc.VecUnpack 0 1; Bc.Ret].
Definition sample_module : CompiledModule := {|
  cm_version := VERSION_6;
  cm_self_module_handle_idx := 0;
  cm_module_handles := [{| mh_address := 0; mh_name := 0 |}];
  cm_struct_handles :=
    [{| sh_module := 0; sh_name := 1; sh_abilities := ABILITY_DROP; sh_type_parameters := [] |};
     {| sh_module := 0; sh_name := 6; sh_abilities := ABILITY_DROP; sh_type_parameters := [] |}];
  cm_function_handles :=
    [{| fh_module := 0; fh_name := 4; fh_parameters := 0; fh_return := 0; fh_type_parameters := [] |};
     {| fh_module := 0; fh_name := 5; fh_parameters := 0; fh_return := 0; fh_type_parameters := [] |}];
  cm_signatures := [[ST.U64]; []];
  cm_identifiers := ["sample"; "Pair"; "first"; "second"; "factorial"; "factorial_plus_two";
    "Wrapper"; "inner"]%string;
  cm_address_identifiers := [1];
  cm_struct_defs := [{| sd_struct_handle := 0; sd_field_information :=
    Declared [{| fd_name := 2; fd_signature := ST.U64 |}; {| fd_name := 3; fd_signature := ST.U64 |}] |};
    {| sd_struct_handle := 1; sd_field_information :=
    Declared [{| fd_name := 7; fd_signature := ST.Struct 0 |}] |}];
  cm_function_defs :=
    [{| def_function := 0; def_code := Some {| cu_locals := 0; cu_code := factorial |} |};
     {| def_function := 1; def_code := Some {| cu_locals := 1; cu_code := factorial_plus_two |} |}] |}.
Definition sample_config : VerifierConfig := {|
  max_basic_blocks := Some 1024%nat; max_value_stack_size := 1024; max_push_size := Some 10000;
  max_back_edges_per_function := Some 100%nat; max_back_edges_per_module := Some 1000%nat |}.
Definition no_other_passes : OtherPasses := {|
  LimitsVerifier _ := Ok (); constants_and_friends _ := Ok (); ability_field_requirements _ := Ok ();
  toposort := sort_graph; InstantiationLoopChecker _ := Ok (); verify_reducibility _ := Ok (); check_jumps_v5 _ := Ok ();
  reference_safety _ := Ok (); AcquiresVerifier _ _ := Ok (); script_signature _ := Ok () |}.
Definition no_natives (_ : Function) : vmsem unit := serr Vm.UNKNOWN_INVARIANT_VIOLATION_ERROR.

Lemma sample_sized : module_sized sample_module.
Proof.
  split.
  - intros def code Hdef Hcode. repeat (apply elem_of_cons in Hdef as [->|Hdef]); [..|by apply elem_of_nil in Hdef];
      injection Hcode as <-; (split; [by apply Nat.leb_le|]); repeat constructor; vm_compute; congruence.
  - intros sd fields Hsd Hf. repeat (apply elem_of_cons in Hsd as [->|Hsd]); [..|by apply elem_of_nil in Hsd];
      injection Hf as <-; by apply Nat.leb_le.
Qed.
Lemma sample_self_contained : self_contained sample_module.
Proof.
  split; simpl.
  - intros sh [->|[->|Hsh]%elem_of_cons]%elem_of_cons; [done..|by apply elem_of_nil in Hsh].
  - intros fh [->|[->|Hfh]%elem_of_cons]%elem_of_cons; [done..|by apply elem_of_nil in Hfh].
  - intros def [->|[->|Hd]%elem_of_cons]%elem_of_cons; [by eexists..|by apply elem_of_nil in Hd].
Qed.

(** A store in which every struct is defined by the module it is in. *)
Definition sample_store : DataStore := {| defining_module id _ := Ok id |}.
(** The loaded example, and its second function. *)
Definition sample_loaded : ModuleCache * LoadedModule :=
  match add_module 5 sample_store ModuleCache_new sample_module with
  | Done (Ok loaded) => loaded
  | _ => (ModuleCache_new, {| lm_struct_refs := []; lm_structs := []; lm_function_refs := [];
                              lm_function_map := ∅; lm_single_signature_token_map := ∅ |})
  end.
Definition sample_run (fuel : nat) : exec (vmresult (list ValueImpl)) :=
  function ← function_from_handle sample_loaded.1 sample_loaded.2 1;
  out ← execute_main sample_loaded.1 sample_loaded.2 (Some 128) no_natives fuel function [U64 5]
    GasStatus_new_unmetered;
  Done out.2.

(** The example verifies, loads, and returns [5! + 2]. *)
Lemma verified_execution_sound_witness :
  sample_run 200 = Done (Ok [U64 122]) ∧
  ∃ fuel r, sample_run fuel = Done r ∧
    match r with Ok results => Forall2 (val_ok sample_module) results [ST.U64] | Err e => allowed e end.
Proof.
  split; [vm_compute; reflexivity|].
  destruct (Z_of_nat_complete (2 ^ 64)) as [fuel Hfuel]; [done|].
  assert (u64_max - instructions_executed GasStatus_new_unmetered < Z.of_nat fuel) as Henough
    by (rewrite <-Hfuel; vm_compute; reflexivity).
  destruct (verified_execution_sound no_other_passes sample_config sample_module () () () 5
    sample_store sample_loaded.1 sample_loaded.2 (Some 128) no_natives 1
    {| fh_module := 0; fh_name := 5; fh_parameters := 0; fh_return := 0; fh_type_parameters := [] |}
    [ST.U64] [ST.U64] [U64 5] GasStatus_new_unmetered fuel)
    as (function & gas & r & Hfun & Hrun & Hr);
    [exact sample_sized|exact sample_self_contained|vm_compute; reflexivity|vm_compute; reflexivity
    |reflexivity|reflexivity|reflexivity|reflexivity| |vm_compute; congruence|exact Henough|].
  { repeat constructor; vm_compute; congruence. }
  exists fuel, r. split; [|exact Hr]. unfold sample_run. apply bind_Done. exists function. split; [exact Hfun|].
  apply bind_Done. exists (gas, r). split; [exact Hrun|reflexivity].
Defined.

Lemma loaded_module_resolves_witness :
  ∃ c lm, add_module 3 sample_store ModuleCache_new sample_module = Done (Ok (c, lm)) ∧
    LoaderContract sample_module c lm.
Proof.
  apply (loaded_module_resolves no_other_passes sample_config (∅ : gmap Z (gmap string (gmap string unit)))
    sample_module () () () ());
    [exact sample_sized|exact sample_self_contained|exact sort_graph_ok|vm_compute; reflexivity|vm_compute; reflexivity| |].
  - intros rid sd sh name _ _ _ _. by exists rid.
  - apply Nat.ltb_lt. reflexivity.
Defined.
